(* ===== verification/_CoqProject ===== *)
-Q . S2P
Prelude.v
CMem.v
MemWrite.v
Byteswap.v
StringScan.v
StringCopy.v
Memcmp.v
Xdr.v
XdrMem.v
XdrRec.v
XdrRecord.v
XdrConn.v
Base64.v
Mpn.v
MpnMul.v
MpnMulAny.v
MpnDiv.v
MpnDivrem.v
SortSpec.v
Msort.v
Qsort.v
Hsearch.v
Rbtree.v
Tsearch.v
TreeHeap.v
Tinsert.v
Tdelete.v
TreeOps.v
TreeOverflow.v
Digest.v
Md5.v
Sha2.v
Semaphore.v
Strtol.v
Gconv.v
GconvSimple.v
GconvSkel.v
GconvUnits.v
GconvChain.v
GconvUtf8.v
GconvSets.v
GconvStream.v
Wcsmbs.v
Iconv.v
