(* ===== verification/Prelude.v ===== *)
(** * Verification of core algorithms of the C library

    The repository is the Embedded GNU C Library, a C library with its dynamic
    linker, threads, locales, name services and RPC.  This development models the
    parts whose behaviour is their own algorithm rather than a system call or a
    table: the generic word-at-a-time string functions, the external data
    representation of sunrpc/, the base 64 codec of resolv/, the multiple-precision
    arithmetic, sorting and integer conversion of stdlib/, the hash table and the search
    trees of misc/, the message digests of crypt/, the semaphores of nptl/, and the character
    conversion of iconv/ with the wide character functions of wcsmbs/ that use it.  C code is
    translated statement by statement into executable functions, and the theorems are about those.

    ** The model of C

    [Prelude.v] (this file) has the control flow of a function body, [flow]: a statement
    falls through ([Next]), leaves the function ([Return]), has undefined behaviour
    ([Fault]: an access to unmapped memory, a failed assertion, a division by zero, signed
    overflow) or exhausts the fuel of a loop ([NoFuel]).  Machine integers are [Z] with
    the wrap-around written out ([uwrap], [swrap], [u8], [u32], [u64], [s32]...).  The
    file also holds the lemmas on bytes, bits, lists and searching that the
    components share, the hint database [cint] and the tactics.

    [CMem.v] has the memory, a finite map from addresses to bytes, and the
    architecture [arch]: the size of [unsigned long int] (4 or 8) and the byte
    order.  Theorems on string functions and on limbs hold for the four architectures.
    [MemWrite.v] has the calculus of writes: the memory after a block was stored, which
    blocks are apart, and what a function leaves untouched.  [Byteswap.v] proves what the
    byte-swapping macros of bits/byteswap.h do to the bytes of a word.

    ** The components

    - [StringScan.v]: strlen, strnlen, rawmemchr, strchr, strchrnul, memchr, memrchr
      (string/, the files of those names).  A loop of the source is a [Fixpoint]
      ([align_loop], [word_loop], [check_bytes] and their bounded and backward
      variants) that the routines share where they share the text of the loop; the bit
      tricks are [strlen_test], [strnlen_test], [magic_test].  The theorems [*_correct]
      say that a routine returns what a search byte by byte returns and faults nowhere,
      although whole longwords are read: only those that hold a byte of the object
      need to be mapped.
    - [StringCopy.v]: memcpy, memmove, memset (string/), the four loops of
      string/wordcopy.c and the macros of sysdeps/generic/memcopy.h.  The unrolled
      loops are entered in the middle of the body, as the [switch] does; [fwd_steps],
      [bwd_steps] and their merging variants run the steps from an entry to the end of
      the body.  The theorems give the final memory, byte by byte, for every alignment
      and, for memmove, for every overlap.
    - [Memcmp.v]: memcmp (string/memcmp.c), whose word loops for common and different
      alignment are entered in the middle like those of the copying routines.  The reference
      [diff] compares byte by byte.
    - [Xdr.v]: the filters of sunrpc/xdr.c and xdr_array.c over the class [XdrOps], the
      operations of [struct xdr_ops].  What a stream promises to the filters is the
      class [XdrStream]; what a filter promises is the class [Codec] (what it writes, and
      that it reads it back) and, for input that nobody promised anything about, [Robust].
      Each filter has its instances, so that a filter of a compound type inherits them.
      A stream moves a 32-bit unit as one object, which must be aligned: a state carries its
      position in the unit ([stream_at]), and every filter begins and ends at a whole unit.
    - [XdrMem.v]: memory streams (sunrpc/xdr_mem.c) with ntohl and htonl (inet/htonl.c,
      bits/byteswap.h).  The instance [xdrmem_stream] discharges [XdrStream], and the
      round trips, the safety of decoding and the seek operation follow for
      aligned buffers in memory; at other addresses the access to a unit
      ([int32_load], [int32_store]) is undefined.
    - Record streams (sunrpc/xdr_rec.c).  [XdrRec.v] has the code, with both buffers in
      memory and the connection as a parameter; [XdrRecord.v] what a connection promises
      (the class [Connection]), the fragments on the wire and what each operation does to
      them; [XdrConn.v] the instance [xdrrec_stream] of [XdrStream], and the theorem that
      sequences of records go through a connection and back, with what goes wrong in
      seeking and at the end of the input.
    - [Base64.v]: b64_ntop and b64_pton (resolv/base64.c).  The reference is the encoding
      of RFC 1521; the theorems are the output of the encoder, the round trip with white
      space anywhere, and that the decoder accepts nothing but encodings.
    - [Mpn.v]: the limb loops (stdlib/add_n.c, sub_n.c, mul_1.c, addmul_1.c, submul_1.c,
      lshift.c, rshift.c, cmp.c), the portable [umul_ppmm] (longlong.h) and the inline
      functions of gmp.h, against the value [lval] of a list of limbs.  Operands may
      overlap the result as far as the loops tolerate it ([reads_ahead]).
    - [MpnMul.v], [MpnMulAny.v]: multiplication (stdlib/mul_n.c and mul.c): schoolbook,
      Karatsuba's recursion in place, squaring, and operands of different sizes.  The
      theorems give the product and the memory that may change.
    - [MpnDiv.v], [MpnDivrem.v]: division (stdlib/divmod_1.c, mod_1.c and divrem.c) on the
      portable double-limb macros of longlong.h.  [MpnDiv.v] proves the division of two
      limbs by one, the inverse and the count of leading zeros exact, and division
      by one limb; [MpnDivrem.v] has the cases of divrem.c, where a quotient limb is
      estimated from the first limbs and corrected.  With fraction limbs and a divisor of three limbs or more
      the numerator must be longer than the divisor: [divrem_frac_overrun] shows that the code
      writes behind it otherwise.
    - [SortSpec.v], [Msort.v]: merge sort (stdlib/msort.c).  The reference is a stable sort
      of lists (the manual does not promise that qsort is stable, and its fallback, quicksort, is not); the theorem covers the sort in place with each way of copying elements,
      the indirect sort of pointers with the permutation along its cycles, and which area
      the temporary array is put in.
    - [Qsort.v]: quicksort (stdlib/qsort.c), qsort and bsearch.  The stack of partitions does
      not overflow, the unguarded loops stay in the array, and the result is a sorted
      permutation, in which bsearch finds what is there.
    - [Hsearch.v]: the hash table (misc/hsearch_r.c).  The reference is a finite map of
      bounded size; [wf] relates a table to the map it holds, and the theorems are the
      refinement of one call and of sequences of calls, table creation, and the
      prime test.
    - Search trees (misc/tsearch.c).  [Rbtree.v] has red-black trees as values, with positions
      as a subtree in its context; [Tsearch.v] the code on a heap of nodes, where a
      [node *] is a slot: the root variable or a field of a node.  [TreeHeap.v] relates
      the two ([at_pos]) and defines the abstraction of a state to its entries in order
      ([rbtree]).  [Tinsert.v] proves tsearch, [Tdelete.v] tdelete and tfind; [TreeOps.v]
      has twalk, tdestroy, the checks of the debugging version and the refinement of
      sequences of calls to an ordered set of keys.  [TreeOverflow.v] has a tree on
      which tdelete overruns its stack.
    - [Digest.v], [Md5.v], [Sha2.v]: MD5, SHA-256 and SHA-512 (crypt/md5.c, sha256.c,
      sha512.c and their block functions).  [Digest.v] has the streaming interface the
      three share, over a class of the compression function and the length counter;
      the other files instantiate it and prove their compression functions equal to
      references transcribed from RFC 1321 and FIPS 180 with the constants computed
      from their definitions.  The theorems say that any division of a message into
      calls gives the digest of the message.
    - [Semaphore.v]: POSIX semaphores (nptl/sem_init.c, sem_getvalue.c and the C versions
      under nptl/sysdeps/unix/sysv/linux).  A step of a thread is one access to shared
      memory or one futex call ([post_step], [wait_step], [futex_step], [trywait_step],
      [getvalue_step]); [exec] interleaves any number of threads.  The theorems are the
      invariant that ties the value to the successful operations and the waiters to
      [nwaiters], and that no wake-up is lost while no thread is cancelled.  The memory is
      sequentially consistent, and a futex wait returns 0 only when it is woken.  The value is a
      32-bit word that sem_post can count past SEM_VALUE_MAX, so that the invariant is modulo 2^32, and exact
      as long as the count stays in the word.
    - [Strtol.v]: strtol, strtoul, strtoll and strtoull (stdlib/strtol_l.c), against the
      definition of ISO C over unbounded integers.
    - Character conversion, the code.  [Gconv.v] has the data of iconv/gconv.h and the functions
      that iconv/loop.c generates around the body of a converter: [LOOPFCT] for a buffer and
      [SINGLE] for a character that began in an earlier call, in a monad [run] whose other
      outcomes are a failed assertion, an access outside of a buffer and exhausted fuel.
      [GconvSimple.v] has the twelve converters of iconv/gconv_simple.c: between the internal
      32-bit form and ASCII, UTF-8, UCS-2 and UCS-4 in both byte orders, with the versions for
      unaligned buffers.  [GconvSkel.v] has the conversion function of iconv/skeleton.c, which runs a
      loop into the buffer of its step, calls the next step and takes input back
      ([gconv_step]), and chains of steps ([gconv_chain]); [Iconv.v] has iconv and __gconv
      (iconv/iconv.c, gconv.c); [Wcsmbs.v] has mbrtowc, mbrlen, wcrtomb and mbsinit (wcsmbs/).
      These files model LP64 targets without _STRING_ARCH_unaligned: [size_t] and pointers have 64 bits, and of an architecture only the
      byte order matters.
    - Character conversion, the proofs.  What a converter promises to the steps is the class
      [UnitConv] of [GconvUnits.v] (its loop converts characters from one code to another and stops
      before a text only when the output is full) and, for a step that is not the last,
      [ResumableConv] (input can be taken back).  [GconvUtf8.v] and [GconvSets.v] give the
      instances of the twelve converters, the former with the reference [utf8_enc] of the
      encoding and the theorem on what the decoder accepts.  [GconvChain.v] proves against the
      classes that a chain converts whatever the sizes of its buffers; [Iconv.v] concludes it for
      sequences of calls of iconv, and shows two faults in the treatment of ignored errors: which
      texts lose characters, and which inputs fail an assertion.
      [GconvStream.v] proves that the state holds the bytes of an incomplete character ([holds]),
      from which [Wcsmbs.v] has the behaviour of mbrtowc and the round trip of wide characters in
      any pieces.

    ** Fuel

    Loops whose bound is a variable of the code recurse on that bound.  The others take
    fuel, and each theorem says how much is enough and concludes that the code returns:
    the length of the string plus one for the searches, the size of the operands for
    Karatsuba's recursion, two corrections for a quotient limb, [size] probes for a search in the table, 2^15 divisions for
    the prime test and 2^30 candidates for the next prime (there is a prime, 2^31 - 1,
    above every admitted request), the number of elements plus one for merge sort, twice the number of elements for quicksort,
    two rounds for each node on the way down for tsearch, the number of nodes plus two for
    tdelete, two rounds for each byte to be moved in a record stream (one of them a refill or
    a new fragment), the length of the string plus one for the integer conversions, and the
    length of the input plus one for the loops, the rounds of a step and the calls of the first
    step in character conversion, each of which uses a byte of input.  There the fuel is part of the
    definitions ([LOOPFCT], [convert], [gconv]).  The theorems on
    semaphores are about all finite sequences of steps.

    ** Parameters

    [calloc], [mem_alloc] and [isspace] are parameters of the definitions that call
    them; what the theorems need of them (the size and contents of what calloc
    delivers; that no base 64 character is white space) is a hypothesis.  So are the
    comparison function of qsort_r, which is a total preorder that reads no memory but
    its two elements, the comparison function of tsearch ([key_order]), and the classes of characters for strtol ([ctype_ok], true of the C
    locale).  readit, writeit and
    lseek of a record stream are functions of the state of the connection, and [Connection]
    says that reading delivers some of the bytes to come and that writing takes all.
    Transliteration functions of a conversion step are part of its data, with a state of any type [D]; the
    theorems on chains are about steps without transliteration that do not ignore errors
    ([plain]).  The conversion functions of the locale are arguments of mbrtowc and wcrtomb, and the theorems
    are about those of UTF-8.  The areas that [TMP_ALLOC] reserves and malloc returns are arguments.  Messages printed when memory is exhausted are
    not modelled.

    ** Not modelled, and what comes next

    Not modelled: the dynamic linker, the rest of the threads, stdio, malloc, locales, name services,
    mathematics, system call wrappers and assembly (see the list of components in the
    manifest).  Of character conversion, opening a descriptor (a search in configuration
    files for shared objects), the transliteration functions, the tables of iconvdata/ and the parts
    of skeleton.c for stateful character sets, which no built-in converter uses.  Candidates that would fit
    the models here: _itoa, calendar arithmetic (time/), obstacks, the conversion of strings
    in wcsmbs/. *)
From stdpp Require Export base list gmap.
From Stdlib Require Export ZArith Lia.
#[global] Open Scope Z_scope.

(** * Control flow of a C function body

    A statement either falls through with a value ([Next]), leaves the
    function ([Return]), touches unmapped memory ([Fault]) or exhausts the
    fuel that bounds the modelled loop ([NoFuel]). *)

Inductive flow (R A : Type) : Type :=
| Next (a : A)
| Return (r : R)
| Fault
| NoFuel.
Arguments Next {R A} _.
Arguments Return {R A} _.
Arguments Fault {R A}.
Arguments NoFuel {R A}.

Definition flow_bind {R A B} (c : flow R A) (k : A -> flow R B) : flow R B :=
  match c with
  | Next a => k a
  | Return r => Return r
  | Fault => Fault
  | NoFuel => NoFuel
  end.

(** A call from a body that returns [R'] to a function that returns [R]. *)
Definition flow_call {R R' : Type} (c : flow R Empty_set) : flow R' R :=
  match c with
  | Next e => match e with end
  | Return r => Next r
  | Fault => Fault
  | NoFuel => NoFuel
  end.

Declare Scope cflow_scope.
Delimit Scope cflow_scope with cflow.
Notation "'let!' x := c 'in' k" := (flow_bind c (fun x => k))
  (at level 10, x name, c at level 100, k at level 200) : cflow_scope.
Notation "'let!' ' x := c 'in' k" := (flow_bind c (fun x => k))
  (at level 10, x strict pattern, c at level 100, k at level 200) : cflow_scope.
Notation "c ;! k" := (flow_bind c (fun _ => k))
  (at level 100, right associativity) : cflow_scope.
Notation "'let?' x := c 'in' k" := (match c with Some x => k | None => None end)
  (at level 10, x name, c at level 100, k at level 200) : cflow_scope.
Notation "'let?' ' x := c 'in' k" := (match c with Some x => k | None => None end)
  (at level 10, x strict pattern, c at level 100, k at level 200) : cflow_scope.
#[global] Open Scope cflow_scope.

(** * Fixed-width integers

    A [w]-bit unsigned integer is a [Z] in [0, 2^w); arithmetic that may leave
    the range goes through [uwrap]. *)

Definition uwrap (w z : Z) : Z := z mod 2 ^ w.

Definition u8 (z : Z) : Z := uwrap 8 z.

Definition u32 (z : Z) : Z := uwrap 32 z.

Definition u64 (z : Z) : Z := uwrap 64 z.

(** The two's complement reading of a [w]-bit pattern. *)
Definition swrap (w z : Z) : Z := (z + 2 ^ (w - 1)) mod 2 ^ w - 2 ^ (w - 1).

Definition s32 (z : Z) : Z := swrap 32 z.

Definition s64 (z : Z) : Z := swrap 64 z.

(** Bitwise complement at width [w]. *)
Definition unot (w z : Z) : Z := 2 ^ w - 1 - z.

Definition is_byte (b : Z) : Prop := 0 <= b < 256.
#[export] Instance is_byte_dec b : Decision (is_byte b).
Proof. unfold is_byte. apply _. Defined.

(** Little-endian and big-endian readings of a byte string. *)
Fixpoint le_val (bs : list Z) : Z :=
  match bs with
  | [] => 0
  | b :: bs => b + 256 * le_val bs
  end.

Definition be_val (bs : list Z) : Z := le_val (rev bs).

(** * Generic lemmas *)

Create HintDb cint.

(** [Forall] on an explicit list, leaving one goal per element that the hints do not solve. *)
Ltac forall_list := repeat first [apply Forall_nil_2 | apply Forall_cons_2]; auto with cint.

(** Decide the comparisons that the context settles. *)
Ltac zdecide :=
  repeat first
    [ rewrite (proj2 (Z.ltb_lt _ _)) by lia | rewrite (proj2 (Z.ltb_ge _ _)) by lia
    | rewrite (proj2 (Z.leb_le _ _)) by lia | rewrite (proj2 (Z.leb_gt _ _)) by lia
    | rewrite (proj2 (Z.eqb_neq _ _)) by lia ].

Lemma le_val_app l1 l2 : le_val (l1 ++ l2) = le_val l1 + 256 ^ Z.of_nat (length l1) * le_val l2.
Proof.
  induction l1 as [|b l1 IH]; simpl length.
  - change (256 ^ Z.of_nat 0) with 1. simpl. lia.
  - rewrite Nat2Z.inj_succ, Z.pow_succ_r by lia. simpl. rewrite IH. ring.
Qed.

Lemma le_val_bound l : Forall is_byte l -> 0 <= le_val l < 256 ^ Z.of_nat (length l).
Proof.
  induction 1 as [|b l Hb _ IH]; simpl length.
  - change (256 ^ Z.of_nat 0) with 1. simpl. lia.
  - rewrite Nat2Z.inj_succ, Z.pow_succ_r by lia. simpl. unfold is_byte in Hb. lia.
Qed.

Lemma pow256 n : 0 <= n -> 256 ^ n = 2 ^ (8 * n).
Proof. intros. rewrite Z.pow_mul_r by lia. reflexivity. Qed.

Lemma uwrap_range w z : 0 <= w -> 0 <= uwrap w z < 2 ^ w.
Proof. intros. apply Z.mod_pos_bound, Z.pow_pos_nonneg; lia. Qed.

Lemma uwrap_small w z : 0 <= z < 2 ^ w -> uwrap w z = z.
Proof. apply Z.mod_small. Qed.

Lemma s32_u32 v : s32 (u32 v) = s32 v.
Proof.
  unfold s32, u32, swrap, uwrap. change (2 ^ (32 - 1)) with 2147483648. change (2 ^ 32) with 4294967296.
  f_equal. rewrite Zplus_mod_idemp_l. reflexivity.
Qed.

Lemma s32_small a : - 2 ^ 31 <= a < 2 ^ 31 -> s32 a = a.
Proof.
  intros Ha. unfold s32, swrap. change (32 - 1) with 31. rewrite Z.mod_small; [lia|].
  change (2 ^ 32) with (2 ^ 31 + 2 ^ 31). lia.
Qed.

Lemma swrap_small w a : 0 < w -> - 2 ^ (w - 1) <= a < 2 ^ (w - 1) -> swrap w a = a.
Proof.
  intros Hw Ha. unfold swrap. rewrite Z.mod_small; [lia|].
  replace w with (w - 1 + 1) at 3 by lia. rewrite Z.pow_add_r by lia. lia.
Qed.

(** Reducing modulo [2^w] forgets a wider wrap. *)
Lemma uwrap_swrap w v z : 0 <= w <= v -> uwrap w (swrap v z) = uwrap w z.
Proof.
  intros Hw. unfold uwrap, swrap.
  replace (2 ^ v) with (2 ^ w * 2 ^ (v - w)) by (rewrite <- Z.pow_add_r by lia; f_equal; lia).
  assert (0 < 2 ^ w) by (apply Z.pow_pos_nonneg; lia).
  assert (0 < 2 ^ (v - w)) by (apply Z.pow_pos_nonneg; lia).
  rewrite Zminus_mod, Z.rem_mul_r, (Z.mul_comm (2 ^ w)), Z_mod_plus_full, Zmod_mod, <- Zminus_mod by lia.
  f_equal. lia.
Qed.

Lemma uwrap_uwrap w v z : 0 <= w <= v -> uwrap w (uwrap v z) = uwrap w z.
Proof.
  intros Hw. unfold uwrap.
  replace (2 ^ v) with (2 ^ w * 2 ^ (v - w)) by (rewrite <- Z.pow_add_r by lia; f_equal; lia).
  assert (0 < 2 ^ w) by (apply Z.pow_pos_nonneg; lia).
  assert (0 < 2 ^ (v - w)) by (apply Z.pow_pos_nonneg; lia).
  rewrite Z.rem_mul_r, (Z.mul_comm (2 ^ w)), Z_mod_plus_full, Zmod_mod by lia. reflexivity.
Qed.

Lemma lor_low a b k : 0 <= k -> 0 <= b < 2 ^ k -> Z.lor (Z.shiftl a k) b = a * 2 ^ k + b.
Proof.
  intros Hk Hb. rewrite Z.shiftl_mul_pow2 by lia.
  rewrite <- Z.lxor_lor, <- Z.add_nocarry_lxor; [reflexivity| |]; apply Z.bits_inj'; intros n Hn;
    rewrite Z.land_spec, Z.bits_0; (destruct (decide (n < k));
     [rewrite Z.mul_pow2_bits_low by lia; reflexivity
     |rewrite <- (Z.mod_small b (2 ^ k)), Z.mod_pow2_bits_high by lia; apply andb_false_r]).
Qed.

Lemma s32_range z : - 2 ^ 31 <= s32 z < 2 ^ 31.
Proof.
  unfold s32, swrap. change (32 - 1) with 31.
  pose proof (Z.mod_pos_bound (z + 2 ^ 31) (2 ^ 32) ltac:(lia)). lia.
Qed.

Lemma unot_range w z : 0 <= z < 2 ^ w -> 0 <= unot w z < 2 ^ w.
Proof. unfold unot. lia. Qed.

Lemma unot_testbit w z i :
  0 <= z < 2 ^ w -> 0 <= i < w -> Z.testbit (unot w z) i = negb (Z.testbit z i).
Proof.
  intros Hz Hi. unfold unot.
  replace (2 ^ w - 1 - z) with (Z.ldiff (Z.ones w) z).
  - rewrite Z.ldiff_spec, Z.ones_spec_low by lia. reflexivity.
  - rewrite <- Z.sub_nocarry_ldiff.
    + rewrite Z.ones_equiv. lia.
    + apply Z.bits_inj'. intros n Hn. rewrite Z.ldiff_spec, Z.bits_0.
      destruct (decide (n < w)).
      * rewrite Z.ones_spec_low by lia. apply andb_false_r.
      * rewrite <- (Z.mod_small z (2 ^ w)), Z.mod_pow2_bits_high by lia. reflexivity.
Qed.

(** Bit [j] of a sum whose low [j] bits do not carry. *)
Lemma testbit_add_nocarry x y j :
  0 <= j -> x mod 2 ^ j + y mod 2 ^ j < 2 ^ j ->
  Z.testbit (x + y) j = xorb (Z.testbit x j) (Z.testbit y j).
Proof.
  intros Hj Hc.
  assert (0 < 2 ^ j) as Hp by (apply Z.pow_pos_nonneg; lia).
  rewrite !Z.testbit_odd, !Z.shiftr_div_pow2 by lia.
  replace ((x + y) / 2 ^ j) with (x / 2 ^ j + y / 2 ^ j); [apply Z.odd_add|].
  pose proof (Z.mod_pos_bound x (2 ^ j) Hp). pose proof (Z.mod_pos_bound y (2 ^ j) Hp).
  pose proof (Z.div_mod x (2 ^ j)). pose proof (Z.div_mod y (2 ^ j)).
  apply Z.div_unique with (r := x mod 2 ^ j + y mod 2 ^ j); lia.
Qed.

(** The bits of a byte string read little-endian. *)
Lemma testbit_byte_cons b v n :
  is_byte b -> 0 <= n ->
  Z.testbit (b + 256 * v) n = if n <? 8 then Z.testbit b n else Z.testbit v (n - 8).
Proof.
  intros Hb Hn. unfold is_byte in Hb. destruct (Z.ltb_spec n 8).
  - rewrite <- (Z.mod_pow2_bits_low (b + 256 * v) 8 n) by lia.
    replace ((b + 256 * v) mod 2 ^ 8) with b; [reflexivity|].
    apply Z.mod_unique with v; [left; lia | change (2 ^ 8) with 256; lia].
  - replace n with ((n - 8) + 8) at 1 by lia.
    rewrite <- Z.div_pow2_bits by lia. f_equal. change (2 ^ 8) with 256.
    symmetry. apply Z.div_unique with b; lia.
Qed.

Lemma lxor_byte a b : is_byte a -> is_byte b -> is_byte (Z.lxor a b).
Proof.
  unfold is_byte. intros Ha Hb. split; [apply Z.lxor_nonneg; lia|].
  destruct (Z.eq_dec (Z.lxor a b) 0) as [->|]; [lia|].
  apply Z.log2_lt_cancel. change (Z.log2 256) with 8.
  eapply Z.le_lt_trans; [apply Z.log2_lxor; lia|].
  apply Z.max_lub_lt; (apply Z.le_lt_trans with 7; [|lia]);
    change 7 with (Z.log2 255); apply Z.log2_le_mono; lia.
Qed.

Lemma lxor_le_val l1 l2 :
  length l1 = length l2 -> Forall is_byte l1 -> Forall is_byte l2 ->
  Z.lxor (le_val l1) (le_val l2) = le_val (zip_with Z.lxor l1 l2).
Proof.
  intros Hl H1. revert l2 Hl. induction H1 as [|a l1 Ha H1 IH]; intros [|b l2] Hl H2;
    try discriminate; [reflexivity|].
  inversion H2; subst. simpl in *. injection Hl as Hl.
  rewrite <- (IH l2) by assumption.
  apply Z.bits_inj'. intros n Hn.
  rewrite Z.lxor_spec, !testbit_byte_cons by (auto using lxor_byte).
  destruct (n <? 8); rewrite Z.lxor_spec; reflexivity.
Qed.

(** * Searching a list: the reference for the string routines *)

(** The index of the first element equal to [c]. *)
Fixpoint index_of (c : Z) (l : list Z) : option nat :=
  match l with
  | [] => None
  | b :: l => if b =? c then Some O else S <$> index_of c l
  end.

(** The index of the last element equal to [c]. *)
Fixpoint last_index_of (c : Z) (l : list Z) : option nat :=
  match l with
  | [] => None
  | b :: l =>
      match last_index_of c l with
      | Some i => Some (S i)
      | None => if b =? c then Some O else None
      end
  end.

Lemma index_of_Some c l i :
  index_of c l = Some i <->
  l !! i = Some c /\ forall j b, (j < i)%nat -> l !! j = Some b -> b <> c.
Proof.
  revert i. induction l as [|b l IH]; intros i; simpl.
  - split; [discriminate|]. intros [H _]. discriminate.
  - destruct (Z.eqb_spec b c) as [->|Hne].
    + split.
      * intros [= <-]. split; [reflexivity|]. intros j b Hj. lia.
      * intros [_ H]. destruct i as [|i]; [reflexivity|]. destruct (H O c); [lia|reflexivity|reflexivity].
    + rewrite fmap_Some. split.
      * intros (i' & Hi & ->). apply IH in Hi as [Hi Hlt]. split; [exact Hi|].
        intros [|j] b' Hj; simpl; [congruence|]. apply Hlt. lia.
      * intros [Hi Hlt]. destruct i as [|i]; [simpl in Hi; congruence|]. exists i. split; [|reflexivity].
        apply IH. split; [exact Hi|]. intros j b' Hj Hl. apply (Hlt (S j)); [lia|exact Hl].
Qed.

Lemma index_of_None c l : index_of c l = None <-> forall j b, l !! j = Some b -> b <> c.
Proof.
  induction l as [|b l IH]; simpl.
  - split; [|reflexivity]. intros _ [|j] b; discriminate.
  - destruct (Z.eqb_spec b c) as [->|Hne].
    + split; [discriminate|]. intros H. destruct (H O c); reflexivity.
    + rewrite fmap_None, IH. split.
      * intros H [|j] b'; simpl; [congruence|apply H].
      * intros H j b' Hj. exact (H (S j) b' Hj).
Qed.

Lemma last_index_of_Some c l i :
  last_index_of c l = Some i ->
  l !! i = Some c /\ forall j b, (i < j)%nat -> l !! j = Some b -> b <> c.
Proof.
  revert i. induction l as [|b l IH]; intros i; simpl; [discriminate|].
  destruct (last_index_of c l) as [i'|] eqn:E.
  - intros [= <-]. destruct (IH i' eq_refl) as [H1 H2]. split; [exact H1|].
    intros [|j] b' Hj; simpl; [lia|]. apply H2. lia.
  - destruct (Z.eqb_spec b c) as [->|]; [|discriminate]. intros [= <-]. split; [reflexivity|].
    intros [|j] b' Hj Hl; [lia|]. simpl in Hl. clear IH. revert j b' Hj Hl E.
    induction l as [|a l IH]; intros j b' Hj Hl E; [discriminate|]. simpl in E.
    destruct (last_index_of c l) as [i'|]; [discriminate|].
    destruct (Z.eqb_spec a c); [discriminate|].
    destruct j as [|j]; simpl in Hl; [congruence|]. apply (IH j); [lia|exact Hl|reflexivity].
Qed.

Lemma last_index_of_None c l : last_index_of c l = None -> forall j b, l !! j = Some b -> b <> c.
Proof.
  induction l as [|a l IH]; simpl; [intros _ j b; discriminate|].
  destruct (last_index_of c l); [discriminate|]. destruct (Z.eqb_spec a c); [discriminate|].
  intros _ [|j] b Hl; simpl in Hl; [congruence|]. exact (IH eq_refl j b Hl).
Qed.

Lemma index_of_app c l1 l2 :
  index_of c (l1 ++ l2) =
  match index_of c l1 with Some i => Some i | None => (fun i => (length l1 + i)%nat) <$> index_of c l2 end.
Proof.
  induction l1 as [|b l1 IH]; simpl.
  - destruct (index_of c l2); reflexivity.
  - destruct (b =? c); [reflexivity|]. rewrite IH.
    destruct (index_of c l1); simpl; [reflexivity|]. destruct (index_of c l2); reflexivity.
Qed.

Lemma last_index_of_app c l1 l2 :
  last_index_of c (l1 ++ l2) =
  match last_index_of c l2 with Some i => Some (length l1 + i)%nat | None => last_index_of c l1 end.
Proof.
  induction l1 as [|b l1 IH]; simpl.
  - destruct (last_index_of c l2); reflexivity.
  - rewrite IH. destruct (last_index_of c l2); reflexivity.
Qed.

Lemma last_index_of_ne c l : Forall (fun b => b <> c) l -> last_index_of c l = None.
Proof.
  induction 1 as [|b l Hb _ IH]; simpl; [reflexivity|]. rewrite IH.
  apply Z.eqb_neq in Hb. rewrite Hb. reflexivity.
Qed.

Lemma index_of_ne c l : Forall (fun b => b <> c) l -> index_of c l = None.
Proof. rewrite Forall_lookup, index_of_None. trivial. Qed.

(** A list longer than [k] splits off its first (last) [k] elements. *)
Lemma split_front {T} (l : list T) k :
  (k <= length l)%nat -> exists l1 l2, l = l1 ++ l2 /\ length l1 = k.
Proof.
  intros. exists (take k l), (drop k l). rewrite take_drop, length_take. split; [reflexivity|lia].
Qed.

Lemma lookup_repeat {T} (x : T) n i : (i < n)%nat -> repeat x n !! i = Some x.
Proof. revert i. induction n as [|n IH]; intros [|i] Hi; simpl; [lia|lia|reflexivity|apply IH; lia]. Qed.
