(* ===== verification/CMem.v ===== *)
(** The byte-addressed memory of the C abstract machine and the architecture
    parameters ([sizeof (unsigned long int)] and byte order) that the
    word-at-a-time routines depend on. *)
From S2P Require Import Prelude.

(** Memory maps an address to the byte stored there; an address that is not in
    the map is not mapped, and touching it is a [Fault]. *)
Abbreviation mem := (gmap Z Z).

Record arch := Arch { long64 : bool; big_endian : bool }.

(** [sizeof (unsigned long int)], which is also [OPSIZ] of memcopy.h. *)
Definition wordsize (A : arch) : Z := if long64 A then 8 else 4.

Definition wordbits (A : arch) : Z := 8 * wordsize A.

Definition wordlen (A : arch) : nat := if long64 A then 8 else 4.

Definition load8 {R} (m : mem) (p : Z) : flow R Z :=
  match m !! p with
  | Some b => Next b
  | None => Fault
  end.

Definition store8 {R} (m : mem) (p v : Z) : flow R mem :=
  match m !! p with
  | Some _ => Next (<[p := u8 v]> m)
  | None => Fault
  end.

Fixpoint load_bytes {R} (m : mem) (p : Z) (n : nat) : flow R (list Z) :=
  match n with
  | O => Next []
  | S n =>
      let! b := load8 m p in
      let! bs := load_bytes m (p + 1) n in
      Next (b :: bs)
  end.

Fixpoint store_bytes {R} (m : mem) (p : Z) (bs : list Z) : flow R mem :=
  match bs with
  | [] => Next m
  | b :: bs =>
      let! m := store8 m p b in
      store_bytes m (p + 1) bs
  end.

Definition word_of_bytes (A : arch) (bs : list Z) : Z :=
  if big_endian A then be_val bs else le_val bs.

Fixpoint le_bytes (n : nat) (v : Z) : list Z :=
  match n with
  | O => []
  | S n => v mod 256 :: le_bytes n (v / 256)
  end.

Definition bytes_of_word (A : arch) (v : Z) : list Z :=
  if big_endian A then rev (le_bytes (wordlen A) v) else le_bytes (wordlen A) v.

(** Reading and writing an [unsigned long int].  A misaligned access is
    undefined in C, hence a [Fault]. *)
Definition load_word {R} (A : arch) (m : mem) (p : Z) : flow R Z :=
  if p mod wordsize A =? 0 then
    let! bs := load_bytes m p (wordlen A) in
    Next (word_of_bytes A bs)
  else Fault.

Definition store_word {R} (A : arch) (m : mem) (p v : Z) : flow R mem :=
  if p mod wordsize A =? 0 then store_bytes m p (bytes_of_word A v) else Fault.

(** Every stored value is a byte. *)
Definition wf_mem (m : mem) : Prop := map_Forall (fun _ b => is_byte b) m.

(** [bytes_at m p bs]: the bytes [bs] are stored from address [p] on. *)
Definition bytes_at (m : mem) (p : Z) (bs : list Z) : Prop :=
  forall i b, bs !! i = Some b -> m !! (p + Z.of_nat i) = Some b.

(** Every address of [lo, hi) is mapped. *)
Definition mapped (m : mem) (lo hi : Z) : Prop :=
  forall a, lo <= a < hi -> is_Some (m !! a).

(** [cstring m s str]: the NUL-terminated string [str] is stored at [s]. *)
Definition cstring (m : mem) (s : Z) (str : list Z) : Prop :=
  bytes_at m s (str ++ [0]) /\ Forall (fun b => b <> 0) str.

(** * Lemmas *)

Lemma wordlen_wordsize A : Z.of_nat (wordlen A) = wordsize A.
Proof. unfold wordlen, wordsize. destruct (long64 A); reflexivity. Qed.

Lemma wordsize_cases A : wordsize A = 4 \/ wordsize A = 8.
Proof. unfold wordsize. destruct (long64 A); auto. Qed.

Lemma wordsize_pos A : 0 < wordsize A.
Proof. destruct (wordsize_cases A); lia. Qed.

Lemma wf_mem_lookup m p b : wf_mem m -> m !! p = Some b -> is_byte b.
Proof. intros Hm Hb. exact (Hm p b Hb). Qed.

Lemma load8_spec {R} m p b : m !! p = Some b -> @load8 R m p = Next b.
Proof. unfold load8. intros ->. reflexivity. Qed.

Lemma bytes_at_cons m p b bs :
  bytes_at m p (b :: bs) <-> m !! p = Some b /\ bytes_at m (p + 1) bs.
Proof.
  unfold bytes_at. split.
  - intros H. split.
    + specialize (H 0%nat b eq_refl). rewrite Z.add_0_r in H. exact H.
    + intros i b' Hi. specialize (H (S i) b' Hi).
      rewrite <- H. f_equal. lia.
  - intros [H0 H] [|i] b' Hi; simpl in Hi.
    + inversion Hi; subst. rewrite Z.add_0_r. exact H0.
    + rewrite <- (H i b' Hi). f_equal. lia.
Qed.

Lemma load_bytes_spec {R} m p bs :
  bytes_at m p bs -> @load_bytes R m p (length bs) = Next bs.
Proof.
  revert p. induction bs as [|b bs IH]; intros p H; simpl; [reflexivity|].
  apply bytes_at_cons in H as [H0 H].
  rewrite (load8_spec _ _ _ H0). simpl. rewrite (IH _ H). reflexivity.
Qed.

(** A mapped range holds some byte string. *)
Lemma mapped_bytes_at m p n :
  mapped m p (p + Z.of_nat n) -> exists bs, length bs = n /\ bytes_at m p bs.
Proof.
  revert p. induction n as [|n IH]; intros p H.
  - exists []. split; [reflexivity|]. intros i b Hi. destruct i; discriminate Hi.
  - destruct (H p) as [b Hb]; [lia|].
    destruct (IH (p + 1)) as (bs & Hl & Hbs).
    { intros a Ha. apply H. lia. }
    exists (b :: bs). split; [simpl; congruence|]. apply bytes_at_cons. auto.
Qed.

Lemma bytes_at_wf m p bs : wf_mem m -> bytes_at m p bs -> Forall is_byte bs.
Proof.
  intros Hm H. apply Forall_lookup. intros i b Hi.
  exact (wf_mem_lookup _ _ _ Hm (H i b Hi)).
Qed.

Lemma load_word_spec {R} A m p bs :
  p mod wordsize A = 0 -> length bs = wordlen A -> bytes_at m p bs ->
  @load_word R A m p = Next (word_of_bytes A bs).
Proof.
  intros Hp Hl H. unfold load_word. rewrite Hp, <- Hl, (load_bytes_spec _ _ _ H). reflexivity.
Qed.

Lemma rev_Forall {T} (P : T -> Prop) l : Forall P l -> Forall P (rev l).
Proof. rewrite !Forall_forall. intros H x Hx. apply H. rewrite list_elem_of_In, <- in_rev, <- list_elem_of_In in Hx. exact Hx. Qed.

Lemma word_of_bytes_range A bs :
  length bs = wordlen A -> Forall is_byte bs -> 0 <= word_of_bytes A bs < 2 ^ wordbits A.
Proof.
  intros Hl Hb. unfold wordbits. rewrite <- pow256 by (pose proof (wordsize_pos A); lia).
  rewrite <- wordlen_wordsize, <- Hl. unfold word_of_bytes, be_val.
  destruct (big_endian A); [rewrite <- length_rev|]; apply le_val_bound; [apply rev_Forall|]; exact Hb.
Qed.

Lemma bytes_at_app m p l1 l2 :
  bytes_at m p (l1 ++ l2) <-> bytes_at m p l1 /\ bytes_at m (p + Z.of_nat (length l1)) l2.
Proof.
  revert p. induction l1 as [|b l1 IH]; intros p; simpl app.
  - simpl length. rewrite Z.add_0_r. split; [|tauto]. intros H. split; [|assumption].
    intros i b Hi. destruct i; discriminate Hi.
  - rewrite !bytes_at_cons, IH.
    replace (p + 1 + Z.of_nat (length l1)) with (p + Z.of_nat (length (b :: l1))) by (simpl; lia).
    tauto.
Qed.

Lemma bytes_at_mapped m p l : bytes_at m p l -> mapped m p (p + Z.of_nat (length l)).
Proof.
  intros H a Ha. destruct (lookup_lt_is_Some_2 l (Z.to_nat (a - p))) as [b Hb]; [lia|].
  apply H in Hb. replace (p + Z.of_nat (Z.to_nat (a - p))) with a in Hb by lia. eauto.
Qed.

Lemma bytes_at_inj m p u v : bytes_at m p u -> bytes_at m p v -> length u = length v -> u = v.
Proof.
  intros Hu Hv Hl. apply list_eq. intros i. destruct (u !! i) as [x|] eqn:Ex.
  - pose proof (lookup_lt_Some _ _ _ Ex). destruct (lookup_lt_is_Some_2 v i) as [y Ey]; [lia|].
    rewrite Ey. pose proof (Hu _ _ Ex). pose proof (Hv _ _ Ey). congruence.
  - apply lookup_ge_None in Ex. symmetry. apply lookup_ge_None. lia.
Qed.

(** ** Words as byte strings *)

Lemma length_le_bytes n v : length (le_bytes n v) = n.
Proof. revert v. induction n as [|n IH]; intros v; simpl; auto. Qed.

Lemma le_bytes_byte n v : Forall is_byte (le_bytes n v).
Proof.
  revert v. induction n as [|n IH]; intros v; simpl; constructor; auto.
  apply Z.mod_pos_bound. lia.
Qed.

Lemma le_bytes_le_val bs : Forall is_byte bs -> le_bytes (length bs) (le_val bs) = bs.
Proof.
  induction 1 as [|b bs Hb _ IH]; [reflexivity|]. simpl. unfold is_byte in Hb.
  replace ((b + 256 * le_val bs) mod 256) with b by (apply Z.mod_unique with (le_val bs); lia).
  replace ((b + 256 * le_val bs) / 256) with (le_val bs) by (apply Z.div_unique with b; lia).
  congruence.
Qed.

Lemma le_val_le_bytes n v : 0 <= v < 256 ^ Z.of_nat n -> le_val (le_bytes n v) = v.
Proof.
  revert v. induction n as [|n IH]; intros v Hv; simpl.
  - change (256 ^ Z.of_nat 0) with 1 in Hv. lia.
  - rewrite Nat2Z.inj_succ, Z.pow_succ_r in Hv by lia.
    rewrite IH by (Z.div_mod_to_equations; lia). Z.div_mod_to_equations; lia.
Qed.

Lemma bytes_of_word_of_bytes A bs :
  length bs = wordlen A -> Forall is_byte bs -> bytes_of_word A (word_of_bytes A bs) = bs.
Proof.
  intros Hl Hb. unfold bytes_of_word, word_of_bytes, be_val. rewrite <- Hl.
  destruct (big_endian A).
  - rewrite <- (length_rev bs), le_bytes_le_val by auto using rev_Forall. apply rev_involutive.
  - apply le_bytes_le_val. assumption.
Qed.

Lemma store8_spec {R} m p v :
  is_Some (m !! p) -> is_byte v ->
  @store8 R m p v = Next (<[p := v]> m).
Proof.
  intros [b Hb] Hv. unfold store8. rewrite Hb. unfold u8. rewrite uwrap_small; [reflexivity|].
  exact Hv.
Qed.

Lemma store_bytes_spec {R} m p bs :
  mapped m p (p + Z.of_nat (length bs)) -> Forall is_byte bs ->
  exists m', @store_bytes R m p bs = Next m' /\
    forall a, m' !! a = if decide (p <= a < p + Z.of_nat (length bs))
                        then bs !! Z.to_nat (a - p) else m !! a.
Proof.
  intros Hmap Hb. revert m p Hmap. induction Hb as [|b bs Hb _ IH]; intros m p Hmap.
  - exists m. split; [reflexivity|]. intros a. simpl. rewrite decide_False by lia. reflexivity.
  - cbn [store_bytes]. rewrite store8_spec by (auto; apply Hmap; simpl; lia). simpl flow_bind.
    destruct (IH (<[p := b]> m) (p + 1)) as (m' & -> & Hm').
    { intros a Ha. rewrite lookup_insert_ne by lia. apply Hmap. simpl. lia. }
    exists m'. split; [reflexivity|]. intros a. rewrite Hm'. simpl length.
    destruct (Z.eq_dec a p) as [->|Hne].
    + rewrite decide_False, decide_True, lookup_insert_eq by lia. rewrite Z.sub_diag. reflexivity.
    + destruct (decide (p + 1 <= a < p + 1 + Z.of_nat (length bs))).
      * rewrite decide_True by lia.
        replace (Z.to_nat (a - p)) with (S (Z.to_nat (a - (p + 1)))) by lia. reflexivity.
      * rewrite decide_False, lookup_insert_ne by lia. reflexivity.
Qed.

(** ** Memories given by their contents *)

(** The memory that holds the bytes [bs] from address [p] on and nothing else. *)
Fixpoint mem_of (p : Z) (bs : list Z) : mem :=
  match bs with [] => ∅ | b :: bs => <[p := b]> (mem_of (p + 1) bs) end.

Lemma mem_of_lookup p bs a :
  mem_of p bs !! a = if decide (p <= a < p + Z.of_nat (length bs)) then bs !! Z.to_nat (a - p) else None.
Proof.
  revert p. induction bs as [|b bs IH]; intros p; simpl.
  - rewrite decide_False by lia. reflexivity.
  - destruct (Z.eq_dec a p) as [-> |].
    + rewrite lookup_insert_eq, decide_True, Z.sub_diag by lia. reflexivity.
    + rewrite lookup_insert_ne, IH by lia. destruct (decide (p + 1 <= a < p + 1 + Z.of_nat (length bs))).
      * rewrite decide_True by lia. replace (Z.to_nat (a - p)) with (S (Z.to_nat (a - (p + 1)))) by lia. reflexivity.
      * rewrite decide_False by lia. reflexivity.
Qed.

Lemma mem_of_at p bs q l : p <= q -> l = take (length l) (drop (Z.to_nat (q - p)) bs) -> bytes_at (mem_of p bs) q l.
Proof.
  intros Hq E i b Hi. rewrite E in Hi. pose proof (lookup_lt_Some _ _ _ Hi) as Hlt. rewrite length_take, length_drop in Hlt.
  rewrite lookup_take_Some, lookup_drop in Hi. destruct Hi as [Hi _].
  rewrite mem_of_lookup, decide_True by lia. rewrite <- Hi. f_equal. lia.
Qed.

Lemma mem_of_wf p bs : Forall is_byte bs -> wf_mem (mem_of p bs).
Proof.
  intros Hb a b Ha. rewrite mem_of_lookup in Ha. destruct decide; [|discriminate].
  rewrite Forall_lookup in Hb. exact (Hb _ _ Ha).
Qed.

Lemma mem_of_mapped p bs lo hi : p <= lo -> hi <= p + Z.of_nat (length bs) -> mapped (mem_of p bs) lo hi.
Proof. intros Hlo Hhi a Ha. rewrite mem_of_lookup, decide_True by lia. apply lookup_lt_is_Some. lia. Qed.

Lemma repeat_bytes b n : is_byte b -> Forall is_byte (repeat b n).
Proof. intros Hb. induction n; simpl; constructor; assumption. Qed.

(** Well-formedness of an explicit memory. *)
Ltac wf_bytes := repeat first [apply Forall_nil_2 | apply Forall_cons_2; [unfold is_byte; lia|]].

Ltac wf_mem_of := apply mem_of_wf; wf_bytes.
