(* ===== verification/MemWrite.v ===== *)
(** Writes to memory: the memory with a list of cells written, ranges that do not meet,
    and what a computation leaves unchanged.  The cells are bytes or limbs. *)
From S2P Require Import Prelude CMem.

(** The list [l] written from [p] on. *)
Fixpoint wr (m : mem) (p : Z) (l : list Z) : mem :=
  match l with [] => m | x :: l => wr (<[p := x]> m) (p + 1) l end.

Lemma wr_lookup m p l a :
  wr m p l !! a = if decide (p <= a < p + Z.of_nat (length l)) then l !! Z.to_nat (a - p) else m !! a.
Proof.
  revert m p. induction l as [|x l IH]; intros m p; simpl.
  - rewrite decide_False by lia. reflexivity.
  - rewrite IH. destruct (Z.eq_dec a p) as [-> |Hne].
    + rewrite decide_False, decide_True, lookup_insert_eq, Z.sub_diag by lia. reflexivity.
    + destruct (decide (p + 1 <= a < p + 1 + Z.of_nat (length l))).
      * rewrite decide_True by lia. replace (Z.to_nat (a - p)) with (S (Z.to_nat (a - (p + 1)))) by lia. reflexivity.
      * rewrite decide_False, lookup_insert_ne by lia. reflexivity.
Qed.

Lemma wr_at m p l : bytes_at (wr m p l) p l.
Proof.
  intros i b Hi. pose proof (lookup_lt_Some _ _ _ Hi). rewrite wr_lookup, decide_True by lia.
  rewrite <- Hi. f_equal. lia.
Qed.

(** Ranges that share no cell. *)
Definition apart (p n q k : Z) : Prop := p + n <= q \/ q + k <= p.

Lemma wr_off m p l q l' :
  bytes_at m q l' -> apart p (Z.of_nat (length l)) q (Z.of_nat (length l')) -> bytes_at (wr m p l) q l'.
Proof.
  intros Hb Hd i b Hi. pose proof (lookup_lt_Some _ _ _ Hi). unfold apart in Hd.
  rewrite wr_lookup, decide_False by lia. apply Hb. assumption.
Qed.

Lemma wr_mapped m p l lo hi : mapped m lo hi -> mapped (wr m p l) lo hi.
Proof.
  intros Hm a Ha. rewrite wr_lookup. destruct decide; [apply lookup_lt_is_Some; lia|apply Hm; assumption].
Qed.

Lemma wr_app m p l1 l2 : wr m p (l1 ++ l2) = wr (wr m p l1) (p + Z.of_nat (length l1)) l2.
Proof.
  revert m p. induction l1 as [|x l1 IH]; intros m p; simpl; [rewrite Z.add_0_r; reflexivity|].
  rewrite IH. f_equal. lia.
Qed.

Lemma wr_same m p l : bytes_at m p l -> wr m p l = m.
Proof.
  intros Hb. apply map_eq. intros a. rewrite wr_lookup. destruct decide; [|reflexivity].
  destruct (lookup_lt_is_Some_2 l (Z.to_nat (a - p))) as [b Hl]; [lia|].
  rewrite Hl. apply Hb in Hl. rewrite <- Hl. f_equal. lia.
Qed.

(** [m'] differs from [m] only in the [n] cells at [p] and the [k] cells at [t]. *)
Definition frame (m m' : mem) (p n t k : Z) : Prop :=
  (forall a, ~ (p <= a < p + n) -> ~ (t <= a < t + k) -> m' !! a = m !! a) /\
  (forall lo hi, mapped m lo hi -> mapped m' lo hi).

Lemma frame_at m m' p n t k q l :
  frame m m' p n t k -> bytes_at m q l ->
  apart p n q (Z.of_nat (length l)) -> apart t k q (Z.of_nat (length l)) -> bytes_at m' q l.
Proof.
  intros [Hf _] Hb H1 H2 i b Hi. pose proof (lookup_lt_Some _ _ _ Hi). unfold apart in *.
  rewrite Hf by lia. apply Hb. assumption.
Qed.

Lemma frame_wr m p l t k : frame m (wr m p l) p (Z.of_nat (length l)) t k.
Proof.
  split; [|intros; apply wr_mapped; assumption].
  intros a Ha _. rewrite wr_lookup, decide_False by lia. reflexivity.
Qed.

Lemma frame_trans m1 m2 m3 p n t k : frame m1 m2 p n t k -> frame m2 m3 p n t k -> frame m1 m3 p n t k.
Proof. intros [F1 M1] [F2 M2]. split; [|auto]. intros a Ha Hb. rewrite F2, F1 by assumption. reflexivity. Qed.

Lemma frame_weaken m m' p n t k p' n' t' k' :
  frame m m' p n t k ->
  (forall a, p <= a < p + n -> p' <= a < p' + n' \/ t' <= a < t' + k') ->
  (forall a, t <= a < t + k -> p' <= a < p' + n' \/ t' <= a < t' + k') -> frame m m' p' n' t' k'.
Proof.
  intros [F M] H1 H2. split; [|assumption]. intros a Ha Hb. apply F; intros Hc; [apply H1 in Hc|apply H2 in Hc]; tauto.
Qed.

Lemma frame_wr_in m q l p n t k :
  p <= q -> q + Z.of_nat (length l) <= p + n -> frame m (wr m q l) p n t k.
Proof. intros H1 H2. eapply frame_weaken; [apply (frame_wr m q l t k)|intros; lia|auto]. Qed.

Lemma frame_refl m p n t k : frame m m p n t k.
Proof. split; auto. Qed.

(** Storing bytes writes them. *)
Lemma store_bytes_wr {R} m p bs :
  mapped m p (p + Z.of_nat (length bs)) -> Forall is_byte bs -> @store_bytes R m p bs = Next (wr m p bs).
Proof.
  intros Hm Hb. destruct (store_bytes_spec (R := R) m p bs Hm Hb) as (m' & -> & Hm'). f_equal.
  apply map_eq. intros a. rewrite Hm', wr_lookup. reflexivity.
Qed.
