(* ===== verification/Byteswap.v ===== *)
(** Byte order: the swaps of bits/byteswap.h, and the integers that a machine of either
    byte order finds in memory. *)
From S2P Require Import Prelude CMem.

(** [__bswap_constant_32] *)
Definition bswap_32 (x : Z) : Z :=
  Z.lor (Z.lor (Z.lor (Z.shiftr (Z.land x 0xff000000) 24) (Z.shiftr (Z.land x 0x00ff0000) 8))
               (Z.shiftl (Z.land x 0x0000ff00) 8))
        (Z.shiftl (Z.land x 0x000000ff) 24).

(** [__bswap_constant_64] *)
Definition bswap_64 (x : Z) : Z :=
  Z.lor (Z.lor (Z.lor (Z.lor (Z.lor (Z.lor (Z.lor
    (Z.shiftr (Z.land x 0xff00000000000000) 56)
    (Z.shiftr (Z.land x 0x00ff000000000000) 40))
    (Z.shiftr (Z.land x 0x0000ff0000000000) 24))
    (Z.shiftr (Z.land x 0x000000ff00000000) 8))
    (Z.shiftl (Z.land x 0x00000000ff000000) 8))
    (Z.shiftl (Z.land x 0x0000000000ff0000) 24))
    (Z.shiftl (Z.land x 0x000000000000ff00) 40))
    (Z.shiftl (Z.land x 0x00000000000000ff) 56).

(** The unsigned integer that the bytes [bs] represent, and the [n] bytes that represent one. *)
Definition uint_val (A : arch) (bs : list Z) : Z := if big_endian A then be_val bs else le_val bs.

Definition uint_bytes (A : arch) (n : nat) (v : Z) : list Z :=
  if big_endian A then rev (le_bytes n v) else le_bytes n v.

(** * Bits of byte strings *)

Lemma le_val_testbit l i :
  Forall is_byte l -> 0 <= i -> Z.testbit (le_val l) i = Z.testbit (nth (Z.to_nat (i / 8)) l 0) (i mod 8).
Proof.
  intros Hl. revert i. induction Hl as [|b l Hb _ IH]; intros i Hi.
  - cbn [le_val]. destruct (Z.to_nat (i / 8)); simpl nth; rewrite !Z.bits_0; reflexivity.
  - cbn [le_val]. rewrite testbit_byte_cons by assumption. destruct (Z.ltb_spec i 8).
    + rewrite Z.div_small, Z.mod_small by lia. reflexivity.
    + rewrite IH by lia. replace i with ((i - 8) + 1 * 8) at 3 4 by lia. rewrite Z.div_add, Z.mod_add by lia.
      pose proof (Z.div_pos (i - 8) 8 ltac:(lia) ltac:(lia)).
      replace (Z.to_nat ((i - 8) / 8 + 1)) with (S (Z.to_nat ((i - 8) / 8))) by lia. reflexivity.
Qed.

(** Evaluate the bits of the constant masks. *)
Ltac mask_bits :=
  repeat first [rewrite Z.lor_spec | rewrite Z.land_spec | rewrite Z.shiftr_spec by lia | rewrite Z.shiftl_spec by lia];
  repeat match goal with
    | |- context [Z.testbit (Zpos ?c) ?k] =>
        let b := eval vm_compute in (Z.testbit (Zpos c) k) in change (Z.testbit (Zpos c) k) with b
    end;
  rewrite ?andb_true_r, ?andb_false_r, ?orb_false_r; cbn [orb].

(** A function that moves every byte of [n] to the opposite place reverses byte strings. *)
Lemma swap_reverses (swap : Z -> Z) n l :
  (forall x i, 0 <= x < 256 ^ n -> 0 <= i -> Z.testbit (swap x) i =
     if i <? 8 * n then Z.testbit x (8 * (n - 1 - i / 8) + i mod 8) else false) ->
  Forall is_byte l -> Z.of_nat (length l) = n -> swap (le_val l) = le_val (rev l).
Proof.
  intros Hswap Hl Hn. pose proof (le_val_bound l Hl) as Hb. rewrite Hn in Hb. apply Z.bits_inj'. intros i Hi.
  rewrite Hswap by assumption. pose proof (rev_Forall _ _ Hl) as Hr. rewrite (le_val_testbit (rev l)) by assumption.
  pose proof (Z.div_mod i 8 ltac:(lia)) as Ei. pose proof (Z.mod_pos_bound i 8 ltac:(lia)) as Hm. pose proof (Z.div_pos i 8 Hi ltac:(lia)).
  destruct (Z.ltb_spec i (8 * n)) as [Hlt|Hge].
  - rewrite le_val_testbit by (assumption || lia).
    set (q := i / 8) in *. set (r := i mod 8) in *.
    replace ((8 * (n - 1 - q) + r) / 8) with (n - 1 - q) by (apply Z.div_unique with r; lia).
    replace ((8 * (n - 1 - q) + r) mod 8) with r by (apply Z.mod_unique with (n - 1 - q); lia).
    rewrite rev_nth by lia. f_equal. f_equal. lia.
  - rewrite nth_overflow by (rewrite length_rev; lia). rewrite Z.bits_0. reflexivity.
Qed.

Lemma bits_above x w i : 0 <= x < 2 ^ w -> 0 <= w <= i -> Z.testbit x i = false.
Proof. intros Hx Hi. rewrite <- (Z.mod_small x (2 ^ w)) by assumption. apply Z.mod_pow2_bits_high. lia. Qed.

(** The masks and shifts, bit by bit: below the width by cases, above it from the ranges. *)
Ltac swap_bits w :=
  let x := fresh "x" in let i := fresh "i" in let Hx := fresh "Hx" in let Hi := fresh "Hi" in
  intros x i Hx Hi; destruct (Z.ltb_spec i w) as [Hlt|Hge];
  [ rewrite <- (Z2Nat.id i) in * by assumption; generalize dependent (Z.to_nat i);
    let n := fresh "n" in intros n _ Hlt;
    do 64 (try (destruct n as [|n]; [clear Hlt; mask_bits; reflexivity|])); exfalso; lia
  | repeat first [rewrite Z.lor_spec | rewrite Z.land_spec | rewrite Z.shiftr_spec by lia | rewrite Z.shiftl_spec by lia];
    repeat match goal with
      | |- context [Z.testbit (Zpos ?c) ?k] =>
          let v := eval vm_compute in (Z.log2 (Zpos c) + 1) in rewrite (bits_above (Zpos c) v k) by lia
      end;
    rewrite ?andb_false_r; reflexivity ].

Lemma bswap_32_bits x i : 0 <= x < 256 ^ 4 -> 0 <= i -> Z.testbit (bswap_32 x) i =
  if i <? 8 * 4 then Z.testbit x (8 * (4 - 1 - i / 8) + i mod 8) else false.
Proof. revert x i. unfold bswap_32. swap_bits (8 * 4). Qed.

Lemma bswap_64_bits x i : 0 <= x < 256 ^ 8 -> 0 <= i -> Z.testbit (bswap_64 x) i =
  if i <? 8 * 8 then Z.testbit x (8 * (8 - 1 - i / 8) + i mod 8) else false.
Proof. revert x i. unfold bswap_64. swap_bits (8 * 8). Qed.

Lemma bswap_32_bytes l : length l = 4%nat -> Forall is_byte l -> bswap_32 (le_val l) = le_val (rev l).
Proof. intros Hl Hb. apply (swap_reverses bswap_32 4); [apply bswap_32_bits|assumption|lia]. Qed.

Lemma bswap_64_bytes l : length l = 8%nat -> Forall is_byte l -> bswap_64 (le_val l) = le_val (rev l).
Proof. intros Hl Hb. apply (swap_reverses bswap_64 8); [apply bswap_64_bits|assumption|lia]. Qed.

(** * Integers of several pieces *)

Lemma length_uint_bytes A n v : length (uint_bytes A n v) = n.
Proof. unfold uint_bytes. destruct (big_endian A); rewrite ?length_rev; apply length_le_bytes. Qed.

Lemma le_bytes_app j k v : le_bytes (j + k) v = le_bytes j v ++ le_bytes k (v / 256 ^ Z.of_nat j).
Proof.
  revert v. induction j as [|j IH]; intros v.
  - simpl. rewrite Z.div_1_r. reflexivity.
  - cbn [Nat.add le_bytes app]. rewrite IH, Z.div_div by (try apply Z.pow_pos_nonneg; lia).
    do 4 f_equal. rewrite Nat2Z.inj_succ, Z.pow_succ_r by lia. reflexivity.
Qed.

Lemma le_bytes_mod n v : le_bytes n (v mod 256 ^ Z.of_nat n) = le_bytes n v.
Proof.
  revert v. induction n as [|n IH]; intros v; [reflexivity|]. cbn [le_bytes].
  rewrite Nat2Z.inj_succ, Z.pow_succ_r by lia. assert (0 < 256 ^ Z.of_nat n) by (apply Z.pow_pos_nonneg; lia).
  rewrite Z.rem_mul_r by lia. f_equal.
  - rewrite Z.mul_comm, Z.mod_add, Z.mod_mod by lia. reflexivity.
  - rewrite (Z.mul_comm 256), Z.div_add, (Z.div_small (v mod 256)), Z.add_0_l by (try apply Z.mod_pos_bound; lia). apply IH.
Qed.

(** * Integers in memory *)

Lemma uint_val_bound A bs : Forall is_byte bs -> 0 <= uint_val A bs < 256 ^ Z.of_nat (length bs).
Proof.
  intros Hb. unfold uint_val, be_val. destruct (big_endian A); [|apply le_val_bound, Hb]. rewrite <- length_rev. apply le_val_bound, rev_Forall, Hb.
Qed.

Lemma uint_bytes_val A bs : Forall is_byte bs -> uint_bytes A (length bs) (uint_val A bs) = bs.
Proof.
  intros Hb. unfold uint_val, uint_bytes, be_val. destruct (big_endian A); [|apply le_bytes_le_val, Hb].
  rewrite <- (length_rev bs), le_bytes_le_val by (apply rev_Forall, Hb). apply rev_involutive.
Qed.

Lemma uint_val_bytes A n v : 0 <= v < 256 ^ Z.of_nat n -> uint_val A (uint_bytes A n v) = v.
Proof. intros Hv. unfold uint_val, uint_bytes, be_val. destruct (big_endian A); rewrite ?rev_involutive; apply le_val_le_bytes, Hv. Qed.

Lemma uint_bytes_byte A n v : Forall is_byte (uint_bytes A n v).
Proof. unfold uint_bytes. destruct (big_endian A); [apply rev_Forall|]; apply le_bytes_byte. Qed.
