(* ===== verification/StringScan.v ===== *)
(** Word-at-a-time searching: strlen, strnlen, rawmemchr, strchr, strchrnul,
    memchr and memrchr of string/.

    Each routine runs byte by byte up to a longword boundary, then tests a whole
    longword for an interesting byte with an arithmetic trick, and looks at the
    single bytes only when the test fires.  The theorems show that each one
    returns what a byte-by-byte search returns, for both longword sizes and both
    byte orders, and that it reads no longword that does not hold a byte of the
    searched object. *)
From S2P Require Import Prelude CMem.

Section Scan.
Context (A : arch) (m : mem).

(** [((unsigned long int) p & (sizeof (longword) - 1)) != 0] *)
Definition misaligned (p : Z) : bool := negb (Z.land p (wordsize A - 1) =? 0).

Definition himagic : Z :=
  let h := 0x80808080 in
  if long64 A then Z.lor (Z.shiftl (Z.shiftl h 16) 16) h else h.

Definition lomagic : Z :=
  let l := 0x01010101 in
  if long64 A then Z.lor (Z.shiftl (Z.shiftl l 16) 16) l else l.

(** [((longword - lomagic) & ~longword & himagic) != 0] *)
Definition strlen_test (longword : Z) : bool :=
  negb (Z.land (Z.land (uwrap (wordbits A) (longword - lomagic)) (unot (wordbits A) longword))
               himagic =? 0).

(** [(longword - lomagic) & himagic] *)
Definition strnlen_test (longword : Z) : bool :=
  negb (Z.land (uwrap (wordbits A) (longword - lomagic)) himagic =? 0).

Definition magic_bits : Z :=
  if long64 A then Z.lor (Z.shiftl 0x7efefefe 32) 0xfefefeff else 0x7efefeff.

(** A longword each of whose bytes is [c]. *)
Definition charmask (c : Z) : Z :=
  let cm := Z.lor c (Z.shiftl c 8) in
  let cm := Z.lor cm (uwrap (wordbits A) (Z.shiftl cm 16)) in
  if long64 A then Z.lor cm (uwrap (wordbits A) (Z.shiftl cm 32)) else cm.

(** [(((longword + magic_bits) ^ ~longword) & ~magic_bits) != 0] *)
Definition magic_test (longword : Z) : bool :=
  negb (Z.land (Z.lxor (uwrap (wordbits A) (longword + magic_bits)) (unot (wordbits A) longword))
               (unot (wordbits A) magic_bits) =? 0).

(** The loops the routines share.  [body p b] is what the routine does with the
    byte [b] at address [p]: leave with a result, or go on. *)

(** [for (char_ptr = s; misaligned char_ptr; ++char_ptr) ...] *)
Fixpoint align_loop {R} (fuel : nat) (body : Z -> Z -> option R) (char_ptr : Z) : flow R Z :=
  if misaligned char_ptr then
    match fuel with
    | O => NoFuel
    | S fuel =>
        let! b := load8 m char_ptr in
        match body char_ptr b with
        | Some r => Return r
        | None => align_loop fuel body (char_ptr + 1)
        end
    end
  else Next char_ptr.

(** The unrolled checks of cp[0], cp[1], ... after a longword test fired. *)
Fixpoint check_from {R} (n : nat) (body : Z -> Z -> option R) (cp : Z) : flow R unit :=
  match n with
  | O => Next tt
  | S n =>
      let! b := load8 m cp in
      match body cp b with
      | Some r => Return r
      | None => check_from n body (cp + 1)
      end
  end.

Definition check_bytes {R} (body : Z -> Z -> option R) (cp : Z) : flow R unit :=
  check_from (wordlen A) body cp.

(** [for (;;) { longword = *longword_ptr++; if (test) { checks } }] *)
Fixpoint word_loop {R} (fuel : nat) (test : Z -> bool) (body : Z -> Z -> option R)
    (longword_ptr : Z) : flow R Empty_set :=
  match fuel with
  | O => NoFuel
  | S fuel =>
      let! longword := load_word A m longword_ptr in
      (if test longword then check_bytes body longword_ptr else Next tt) ;!
      word_loop fuel test body (longword_ptr + wordsize A)
  end.

Definition strlen (fuel : nat) (str : Z) : flow Z Empty_set :=
  let body p b := if b =? 0 then Some (p - str) else None in
  let! longword_ptr := align_loop (wordlen A) body str in
  word_loop fuel strlen_test body longword_ptr.

Definition rawmemchr (fuel : nat) (s c_in : Z) : flow Z Empty_set :=
  let c := u8 c_in in
  let body p b := if b =? c then Some p else None in
  let! longword_ptr := align_loop (wordlen A) body s in
  word_loop fuel (fun w => magic_test (Z.lxor w (charmask c))) body longword_ptr.

Definition strchr (fuel : nat) (s c_in : Z) : flow Z Empty_set :=
  let c := u8 c_in in
  let body p b := if b =? c then Some p else if b =? 0 then Some 0 else None in
  let! longword_ptr := align_loop (wordlen A) body s in
  word_loop fuel (fun w => magic_test w || magic_test (Z.lxor w (charmask c))) body longword_ptr.

Definition strchrnul (fuel : nat) (s c_in : Z) : flow Z Empty_set :=
  let c := u8 c_in in
  let body p b := if (b =? c) || (b =? 0) then Some p else None in
  let! longword_ptr := align_loop (wordlen A) body s in
  word_loop fuel (fun w => magic_test w || magic_test (Z.lxor w (charmask c))) body longword_ptr.

(** memchr: the same loops, counting [n] down. *)
Fixpoint align_loop_n (fuel : nat) (c : Z) (char_ptr n : Z) : flow Z (Z * Z) :=
  if (0 <? n) && misaligned char_ptr then
    match fuel with
    | O => NoFuel
    | S fuel =>
        let! b := load8 m char_ptr in
        if b =? c then Return char_ptr else align_loop_n fuel c (char_ptr + 1) (n - 1)
    end
  else Next (char_ptr, n).

Fixpoint word_loop_n (fuel : nat) (c : Z) (longword_ptr n : Z) : flow Z (Z * Z) :=
  if wordsize A <=? n then
    match fuel with
    | O => NoFuel
    | S fuel =>
        let! longword := load_word A m longword_ptr in
        (if magic_test (Z.lxor longword (charmask c))
         then check_bytes (fun p b => if b =? c then Some p else None) longword_ptr
         else Next tt) ;!
        word_loop_n fuel c (longword_ptr + wordsize A) (n - wordsize A)
    end
  else Next (longword_ptr, n).

Fixpoint tail_loop_n (fuel : nat) (c : Z) (char_ptr n : Z) : flow Z Empty_set :=
  if 0 <? n then
    match fuel with
    | O => NoFuel
    | S fuel =>
        let! b := load8 m char_ptr in
        if b =? c then Return char_ptr else tail_loop_n fuel c (char_ptr + 1) (n - 1)
    end
  else Return 0.

(** Every iteration of the three loops decreases [n], so [n] bounds them. *)
Definition memchr (s c_in n : Z) : flow Z Empty_set :=
  let c := u8 c_in in
  let fuel := Z.to_nat n in
  let! '(longword_ptr, n) := align_loop_n fuel c s n in
  let! '(char_ptr, n) := word_loop_n fuel c longword_ptr n in
  tail_loop_n fuel c char_ptr n.

(** memrchr: the same search from the end of the object down. *)
Fixpoint align_loop_r (fuel : nat) (c : Z) (char_ptr n : Z) : flow Z (Z * Z) :=
  if (0 <? n) && misaligned char_ptr then
    match fuel with
    | O => NoFuel
    | S fuel =>
        let! b := load8 m (char_ptr - 1) in
        if b =? c then Return (char_ptr - 1) else align_loop_r fuel c (char_ptr - 1) (n - 1)
    end
  else Next (char_ptr, n).

(** The unrolled checks cp[7], cp[6], ..., cp[0]. *)
Fixpoint check_down (k : nat) (c cp : Z) : flow Z unit :=
  match k with
  | O => Next tt
  | S k =>
      let! b := load8 m (cp + Z.of_nat k) in
      if b =? c then Return (cp + Z.of_nat k) else check_down k c cp
  end.

Fixpoint word_loop_r (fuel : nat) (c : Z) (longword_ptr n : Z) : flow Z (Z * Z) :=
  if wordsize A <=? n then
    match fuel with
    | O => NoFuel
    | S fuel =>
        let longword_ptr := longword_ptr - wordsize A in
        let! longword := load_word A m longword_ptr in
        (if magic_test (Z.lxor longword (charmask c))
         then check_down (wordlen A) c longword_ptr
         else Next tt) ;!
        word_loop_r fuel c longword_ptr (n - wordsize A)
    end
  else Next (longword_ptr, n).

Fixpoint tail_loop_r (fuel : nat) (c : Z) (char_ptr n : Z) : flow Z Empty_set :=
  if 0 <? n then
    match fuel with
    | O => NoFuel
    | S fuel =>
        let! b := load8 m (char_ptr - 1) in
        if b =? c then Return (char_ptr - 1) else tail_loop_r fuel c (char_ptr - 1) (n - 1)
    end
  else Return 0.

Definition memrchr (s c_in n : Z) : flow Z Empty_set :=
  let c := u8 c_in in
  let fuel := Z.to_nat n in
  let! '(longword_ptr, n) := align_loop_r fuel c (s + n) n in
  let! '(char_ptr, n) := word_loop_r fuel c longword_ptr n in
  tail_loop_r fuel c char_ptr n.

(** strnlen: bounded by an end pointer; the alignment loop may run past it and
    the result is clamped. *)
Fixpoint strnlen_words (fuel : nat) (char_ptr longword_ptr end_ptr : Z) : flow Z Z :=
  if longword_ptr <? end_ptr then
    match fuel with
    | O => NoFuel
    | S fuel =>
        let! longword := load_word A m longword_ptr in
        match (if strnlen_test longword
               then @check_bytes Z (fun p b => if b =? 0 then Some p else None) longword_ptr
               else Next tt) with
        | Return cp => Next cp
        | Next _ => strnlen_words fuel end_ptr (longword_ptr + wordsize A) end_ptr
        | Fault => Fault
        | NoFuel => NoFuel
        end
    end
  else Next char_ptr.

Definition strnlen (fuel : nat) (str maxlen : Z) : flow Z Empty_set :=
  let end_ptr := uwrap (wordbits A) (str + maxlen) in
  if maxlen =? 0 then Return 0 else
  let end_ptr := if end_ptr <? str then 2 ^ wordbits A - 1 else end_ptr in
  let body p b := if b =? 0 then Some ((if end_ptr <? p then end_ptr else p) - str) else None in
  let! char_ptr := align_loop (wordlen A) body str in
  let! char_ptr := strnlen_words fuel char_ptr char_ptr end_ptr in
  let char_ptr := if end_ptr <? char_ptr then end_ptr else char_ptr in
  Return (char_ptr - str).

End Scan.

(** * The longword tests miss no zero byte *)

Lemma misaligned_mod A p : misaligned A p = negb (p mod wordsize A =? 0).
Proof.
  unfold misaligned, wordsize. destruct (long64 A).
  - change (8 - 1) with (Z.ones 3). rewrite Z.land_ones by lia. reflexivity.
  - change (4 - 1) with (Z.ones 2). rewrite Z.land_ones by lia. reflexivity.
Qed.

Lemma lomagic_le A : lomagic A = le_val (repeat 1 (wordlen A)).
Proof. unfold lomagic, wordlen. destruct (long64 A); reflexivity. Qed.

(** A word with a zero byte, split at its first zero byte. *)
Lemma first_zero_split l :
  ~ Forall (fun b => b <> 0) l ->
  exists l1 l2, l = l1 ++ 0 :: l2 /\ Forall (fun b => b <> 0) l1.
Proof.
  induction l as [|b l IH]; intros H.
  - destruct H. constructor.
  - destruct (decide (b = 0)) as [->|Hb].
    + exists [], l. auto.
    + destruct IH as (l1 & l2 & -> & Hl); [intros Hl; apply H; auto|].
      exists (b :: l1), l2. auto.
Qed.

Lemma le_val_ones_le l :
  Forall is_byte l -> Forall (fun b => b <> 0) l -> le_val (repeat 1 (length l)) <= le_val l.
Proof.
  intros Hb. induction Hb as [|b l Hb _ IH]; inversion 1; subst; simpl; [lia|].
  unfold is_byte in Hb. specialize (IH ltac:(assumption)). lia.
Qed.

Lemma le_val_ones_nonneg n : 0 <= le_val (repeat 1 n).
Proof. induction n; simpl; lia. Qed.

(** The borrow chain stops at the first zero byte, whose top bit is then set. *)
Lemma sub_ones_bit l1 l2 :
  Forall is_byte l1 -> Forall (fun b => b <> 0) l1 ->
  Z.testbit (le_val (l1 ++ 0 :: l2) - le_val (repeat 1 (length (l1 ++ 0 :: l2))))
            (8 * Z.of_nat (length l1) + 7) = true.
Proof.
  intros Hb Hnz. rewrite length_app. simpl length. rewrite repeat_app, !le_val_app, repeat_length.
  simpl le_val. set (i := Z.of_nat (length l1)).
  pose proof (le_val_ones_le _ Hb Hnz). pose proof (le_val_bound _ Hb).
  pose proof (le_val_ones_nonneg (length l1)). fold i in H0.
  set (q := le_val l2 - le_val (repeat 1 (length l2))).
  rewrite Z.testbit_odd, Z.shiftr_div_pow2 by lia.
  assert (0 < 256 ^ i) by (apply Z.pow_pos_nonneg; lia).
  replace (2 ^ (8 * i + 7)) with (256 ^ i * 128)
    by (rewrite pow256, Z.pow_add_r by lia; reflexivity).
  rewrite <- Z.div_div by lia.
  replace (_ / 256 ^ i) with (256 * q - 1).
  - replace ((256 * q - 1) / 128) with (1 + 2 * (q - 1)).
    + rewrite Z.odd_add_mul_2. reflexivity.
    + apply Z.div_unique with 127; lia.
  - apply Z.div_unique with (le_val l1 - le_val (repeat 1 (length l1))); [lia|]. subst q. ring.
Qed.

Lemma himagic_bit A i : 0 <= i < wordsize A -> Z.testbit (himagic A) (8 * i + 7) = true.
Proof.
  unfold himagic, wordsize. intros H.
  destruct (long64 A).
  - assert (i = 0 \/ i = 1 \/ i = 2 \/ i = 3 \/ i = 4 \/ i = 5 \/ i = 6 \/ i = 7) as Hi by lia.
    repeat destruct Hi as [-> | Hi]; try subst; reflexivity.
  - assert (i = 0 \/ i = 1 \/ i = 2 \/ i = 3) as Hi by lia.
    repeat destruct Hi as [-> | Hi]; try subst; reflexivity.
Qed.

Lemma testbit_neq0 z i : Z.testbit z i = true -> (z =? 0) = false.
Proof. intros H. apply Z.eqb_neq. intros ->. rewrite Z.bits_0 in H. discriminate. Qed.

Lemma app_cons_length {T} (l1 l2 : list T) x n :
  length (l1 ++ x :: l2) = n -> (length l1 < n)%nat.
Proof. rewrite length_app. simpl. lia. Qed.

Lemma zero_byte_bit l1 l2 k :
  Forall is_byte l1 -> 0 <= k < 8 ->
  Z.testbit (le_val (l1 ++ 0 :: l2)) (8 * Z.of_nat (length l1) + k) = false.
Proof.
  intros Hb Hk. rewrite le_val_app. simpl le_val. set (i := Z.of_nat (length l1)).
  pose proof (le_val_bound _ Hb) as Hl1. fold i in Hl1.
  rewrite Z.testbit_odd, Z.shiftr_div_pow2 by lia.
  assert (0 < 2 ^ k) by (apply Z.pow_pos_nonneg; lia).
  rewrite Z.pow_add_r, <- pow256, <- Z.div_div by lia.
  replace (_ / 256 ^ i) with (256 * le_val l2)
    by (apply Z.div_unique with (le_val l1); [lia|ring]).
  replace 256 with (2 ^ (7 - k) * 2 * 2 ^ k)
    by (rewrite <- (Z.pow_1_r 2) at 2; rewrite <- !Z.pow_add_r by lia; replace (7 - k + 1 + k) with 8 by lia; reflexivity).
  replace (2 ^ (7 - k) * 2 * 2 ^ k * le_val l2) with ((0 + 2 * (2 ^ (7 - k) * le_val l2)) * 2 ^ k) by ring.
  rewrite Z.div_mul, Z.odd_add_mul_2 by lia. reflexivity.
Qed.

(** [detects A test]: the test fires on every longword that has a zero byte. *)
Definition detects (A : arch) (test : Z -> bool) : Prop :=
  forall l, length l = wordlen A -> Forall is_byte l ->
  test (le_val l) = false -> Forall (fun b => b <> 0) l.

Lemma detects_intro A test :
  (forall l1 l2, length (l1 ++ 0 :: l2) = wordlen A -> Forall is_byte (l1 ++ 0 :: l2) ->
     Forall (fun b => b <> 0) l1 -> test (le_val (l1 ++ 0 :: l2)) = true) ->
  detects A test.
Proof.
  intros H l Hl Hb Ht. destruct (decide (Forall (fun b => b <> 0) l)) as [?|Hz]; [assumption|].
  apply first_zero_split in Hz as (l1 & l2 & -> & Hnz).
  rewrite H in Ht by assumption. discriminate.
Qed.

Lemma le_val_word_range A l :
  length l = wordlen A -> Forall is_byte l -> 0 <= le_val l < 2 ^ wordbits A.
Proof.
  intros Hl Hb. pose proof (le_val_bound _ Hb) as H.
  rewrite Hl, wordlen_wordsize, pow256 in H by (pose proof (wordsize_pos A); lia). exact H.
Qed.

Lemma strnlen_bit A l1 l2 :
  length (l1 ++ 0 :: l2) = wordlen A -> Forall is_byte l1 -> Forall (fun b => b <> 0) l1 ->
  Z.testbit (uwrap (wordbits A) (le_val (l1 ++ 0 :: l2) - lomagic A))
            (8 * Z.of_nat (length l1) + 7) = true.
Proof.
  intros Hl Hb Hnz. pose proof (app_cons_length _ _ _ _ Hl) as Hi.
  pose proof (wordlen_wordsize A). unfold uwrap, wordbits.
  rewrite Z.mod_pow2_bits_low by lia. rewrite lomagic_le, <- Hl. apply sub_ones_bit; assumption.
Qed.

Lemma strnlen_test_detects A : detects A (strnlen_test A).
Proof.
  apply detects_intro. intros l1 l2 Hl Hb Hnz. apply Forall_app in Hb as [Hb _].
  pose proof (app_cons_length _ _ _ _ Hl) as Hi. pose proof (wordlen_wordsize A).
  unfold strnlen_test. erewrite testbit_neq0; [reflexivity|].
  rewrite Z.land_spec, strnlen_bit, himagic_bit by (assumption || lia). reflexivity.
Qed.

Lemma strlen_test_detects A : detects A (strlen_test A).
Proof.
  apply detects_intro. intros l1 l2 Hl Hb Hnz. pose proof (le_val_word_range _ _ Hl Hb).
  apply Forall_app in Hb as [Hb _].
  pose proof (app_cons_length _ _ _ _ Hl) as Hi. pose proof (wordlen_wordsize A).
  unfold strlen_test. erewrite testbit_neq0; [reflexivity|].
  rewrite !Z.land_spec, strnlen_bit, himagic_bit by (assumption || lia).
  rewrite unot_testbit by (assumption || unfold wordbits; lia).
  rewrite zero_byte_bit by (assumption || lia). reflexivity.
Qed.

(** Above each byte there is a hole of [magic_bits] that a zero byte keeps from
    receiving a carry. *)
Lemma magic_hole A i :
  0 <= i < wordsize A ->
  exists j, 8 * i <= j <= 8 * i + 8 /\ j < wordbits A /\
    Z.testbit (magic_bits A) j = false /\ magic_bits A mod 2 ^ j + 256 ^ i <= 2 ^ j.
Proof.
  unfold magic_bits, wordbits, wordsize. intros H. destruct (long64 A).
  - exists (if i =? 7 then 63 else 8 * i + 8).
    assert (i = 0 \/ i = 1 \/ i = 2 \/ i = 3 \/ i = 4 \/ i = 5 \/ i = 6 \/ i = 7) as Hi by lia.
    repeat destruct Hi as [-> | Hi]; try subst; vm_compute; intuition discriminate.
  - exists (if i =? 3 then 31 else 8 * i + 8).
    assert (i = 0 \/ i = 1 \/ i = 2 \/ i = 3) as Hi by lia.
    repeat destruct Hi as [-> | Hi]; try subst; vm_compute; intuition discriminate.
Qed.

Lemma magic_bits_range A : 0 <= magic_bits A < 2 ^ wordbits A.
Proof. unfold magic_bits, wordbits, wordsize. destruct (long64 A); vm_compute; intuition discriminate. Qed.

Lemma magic_test_detects A : detects A (magic_test A).
Proof.
  apply detects_intro. intros l1 l2 Hl Hb Hnz. pose proof (le_val_word_range _ _ Hl Hb) as Hx.
  apply Forall_app in Hb as [Hb _].
  pose proof (app_cons_length _ _ _ _ Hl) as Hi. pose proof (wordlen_wordsize A).
  destruct (magic_hole A (Z.of_nat (length l1))) as (j & Hj & Hjw & Hm & Hc); [lia|].
  pose proof (magic_bits_range A). pose proof (le_val_bound _ Hb).
  unfold magic_test. rewrite (testbit_neq0 _ j); [reflexivity|].
  rewrite Z.land_spec, Z.lxor_spec, !unot_testbit by (assumption || lia).
  unfold uwrap. rewrite Z.mod_pow2_bits_low by lia.
  rewrite testbit_add_nocarry, Hm; [destruct (Z.testbit (le_val _) j); reflexivity|lia|].
  replace (le_val (l1 ++ 0 :: l2) mod 2 ^ j) with (le_val l1); [lia|].
  rewrite le_val_app. simpl le_val.
  set (i := Z.of_nat (length l1)) in *.
  apply Z.mod_unique with (2 ^ (8 * i + 8 - j) * le_val l2).
  - left. assert (256 ^ i <= 2 ^ j) by (rewrite pow256 by lia; apply Z.pow_le_mono_r; lia). lia.
  - replace (2 ^ j * (2 ^ (8 * i + 8 - j) * le_val l2)) with (2 ^ (8 * i + 8) * le_val l2).
    + rewrite pow256, Z.pow_add_r by lia. lia.
    + rewrite Z.mul_assoc, <- Z.pow_add_r by lia. do 2 f_equal. lia.
Qed.

Lemma charmask_le A c : is_byte c -> charmask A c = le_val (repeat c (wordlen A)).
Proof.
  intros Hc. apply Z.eqb_eq.
  assert (forallb (fun c => charmask A c =? le_val (repeat c (wordlen A))) (seqZ 0 256) = true) as H
    by (destruct A as [[] []]; vm_compute; reflexivity).
  rewrite forallb_forall in H. apply H. rewrite <- list_elem_of_In. apply elem_of_seqZ.
  unfold is_byte in Hc. lia.
Qed.

(** The tests as used on a loaded longword, in either byte order. *)
Lemma detects_word A test bs :
  detects A test -> length bs = wordlen A -> Forall is_byte bs ->
  test (word_of_bytes A bs) = false -> Forall (fun b => b <> 0) bs.
Proof.
  intros Hd Hl Hb. unfold word_of_bytes, be_val. destruct (big_endian A); intros Ht; [|auto].
  rewrite <- (rev_involutive bs). apply rev_Forall, Hd; auto using rev_Forall.
  rewrite length_rev. assumption.
Qed.

Lemma zip_lxor_repeat c l : zip_with Z.lxor l (repeat c (length l)) = map (fun b => Z.lxor b c) l.
Proof. induction l as [|b l IH]; simpl; congruence. Qed.

Lemma lxor_repeat_ne A test c l :
  detects A test -> is_byte c -> length l = wordlen A -> Forall is_byte l ->
  test (Z.lxor (le_val l) (charmask A c)) = false -> Forall (fun b => b <> c) l.
Proof.
  intros Hd Hc Hl Hb. rewrite charmask_le, lxor_le_val by
    (rewrite ?repeat_length; auto; apply Forall_forall; intros x Hx;
     apply list_elem_of_In, repeat_spec in Hx; subst; assumption).
  rewrite <- Hl, zip_lxor_repeat. intros Ht. apply Hd in Ht.
  - rewrite Forall_map in Ht. eapply Forall_impl; [exact Ht|]. simpl. intros b Hbc ->.
    apply Hbc, Z.lxor_nilpotent.
  - rewrite length_map. assumption.
  - apply Forall_map. eapply Forall_impl; [exact Hb|]. auto using lxor_byte.
Qed.

Lemma lxor_detects_word A c bs :
  is_byte c -> length bs = wordlen A -> Forall is_byte bs ->
  magic_test A (Z.lxor (word_of_bytes A bs) (charmask A c)) = false ->
  Forall (fun b => b <> c) bs.
Proof.
  intros Hc Hl Hb. unfold word_of_bytes, be_val. destruct (big_endian A); intros Ht.
  - rewrite <- (rev_involutive bs). apply rev_Forall.
    eapply lxor_repeat_ne; eauto using magic_test_detects, rev_Forall. rewrite length_rev. assumption.
  - eapply lxor_repeat_ne; eauto using magic_test_detects.
Qed.

(** * The loops *)

(** [body] goes on at every address of [lo, hi). *)
Definition passes {R} (m : mem) (body : Z -> Z -> option R) (lo hi : Z) : Prop :=
  forall a, lo <= a < hi -> exists b, m !! a = Some b /\ body a b = None.

(** [body] leaves with [r] at address [t]. *)
Definition hits {R} (m : mem) (body : Z -> Z -> option R) (t : Z) (r : R) : Prop :=
  exists b, m !! t = Some b /\ body t b = Some r.

(** The first longword boundary not below [p]. *)
Definition align_up (A : arch) (p : Z) : Z := wordsize A * ((p + (wordsize A - 1)) / wordsize A).

(** The end of the longword that holds address [t]. *)
Definition word_end (A : arch) (t : Z) : Z := wordsize A * (t / wordsize A + 1).

Definition test_sound {R} (A : arch) (test : Z -> bool) (body : Z -> Z -> option R) : Prop :=
  forall bs, length bs = wordlen A -> Forall is_byte bs ->
  test (word_of_bytes A bs) = false -> Forall (fun b => forall p, body p b = None) bs.

Ltac arch_cases A :=
  let H := fresh "HW" in
  pose proof (wordlen_wordsize A); destruct (wordsize_cases A) as [H|H]; rewrite H in *.

Lemma align_up_bounds A p :
  align_up A p mod wordsize A = 0 /\ p <= align_up A p < p + wordsize A.
Proof. unfold align_up. arch_cases A; Z.div_mod_to_equations; lia. Qed.

Lemma align_up_first A p a : p <= a < align_up A p -> a mod wordsize A <> 0.
Proof. unfold align_up. arch_cases A; Z.div_mod_to_equations; lia. Qed.

Lemma passes_sub {R} m (body : Z -> Z -> option R) lo hi lo' hi' :
  passes m body lo hi -> lo <= lo' -> hi' <= hi -> passes m body lo' hi'.
Proof. intros H ? ? a Ha. apply H. lia. Qed.

Section Loops.
Context (A : arch) (m : mem) (Hm : wf_mem m) {R : Type} (body : Z -> Z -> option R).

Lemma step_pass {T} a hi (k1 : R -> flow R T) (k2 : flow R T) :
  passes m body a hi -> a < hi ->
  (let! b := load8 m a in match body a b with Some r => k1 r | None => k2 end) = k2.
Proof.
  intros H Ha. destruct (H a) as (b & Hb & Hn); [lia|].
  rewrite (load8_spec _ _ _ Hb). simpl. rewrite Hn. reflexivity.
Qed.

Lemma step_hit {T} t r (k1 : R -> flow R T) (k2 : flow R T) :
  hits m body t r ->
  (let! b := load8 m t in match body t b with Some r => k1 r | None => k2 end) = k1 r.
Proof.
  intros (b & Hb & Hr). rewrite (load8_spec _ _ _ Hb). simpl. rewrite Hr. reflexivity.
Qed.

Lemma check_from_pass n cp :
  passes m body cp (cp + Z.of_nat n) -> check_from m n body cp = Next tt.
Proof.
  revert cp. induction n as [|n IH]; intros cp H; simpl; [reflexivity|].
  rewrite (step_pass cp (cp + Z.of_nat (S n))) by (assumption || lia).
  apply IH. eapply passes_sub; [exact H|lia|lia].
Qed.

Lemma check_from_hit n cp t r :
  passes m body cp t -> hits m body t r -> cp <= t < cp + Z.of_nat n ->
  check_from m n body cp = Return r.
Proof.
  revert cp. induction n as [|n IH]; intros cp Hp Hh Hc; simpl; [lia|].
  destruct (Z.eq_dec cp t) as [->|Hne]; [apply step_hit; assumption|].
  rewrite (step_pass cp t) by (assumption || lia).
  apply IH; [eapply passes_sub; [exact Hp|lia|lia]|assumption|lia].
Qed.

Lemma align_loop_pass fuel p :
  passes m body p (align_up A p) -> align_up A p - p <= Z.of_nat fuel ->
  align_loop A m fuel body p = Next (align_up A p).
Proof.
  revert p. induction fuel as [|fuel IH]; intros p H Hf;
    pose proof (align_up_bounds A p) as [Hal Hb]; simpl; rewrite misaligned_mod.
  - replace (align_up A p) with p in * by lia. rewrite Hal. reflexivity.
  - destruct (Z.eqb_spec (p mod wordsize A) 0) as [E|E]; simpl.
    + replace (align_up A p) with p; [reflexivity|].
      revert E. unfold align_up. arch_cases A; Z.div_mod_to_equations; lia.
    + assert (align_up A (p + 1) = align_up A p) as E1
        by (revert E; unfold align_up; arch_cases A; Z.div_mod_to_equations; lia).
      assert (p <> align_up A p) by (intros E2; apply E; rewrite E2; assumption).
      rewrite (step_pass p (align_up A p)) by (assumption || lia).
      rewrite IH, E1; [reflexivity| |lia].
      rewrite E1. eapply passes_sub; [exact H|lia|lia].
Qed.

Lemma align_loop_hit fuel p t r :
  passes m body p t -> hits m body t r -> p <= t < align_up A p -> t - p < Z.of_nat fuel ->
  align_loop A m fuel body p = Return r.
Proof.
  revert p. induction fuel as [|fuel IH]; intros p Hp Hh Ht Hf; [lia|].
  simpl. rewrite misaligned_mod.
  rewrite (proj2 (Z.eqb_neq _ _) (align_up_first A p p ltac:(lia))). simpl.
  destruct (Z.eq_dec p t) as [->|Hne]; [apply step_hit; assumption|].
  rewrite (step_pass p t) by (assumption || lia).
  assert (align_up A (p + 1) = align_up A p) as E1
    by (pose proof (align_up_first A p p ltac:(lia)) as E; revert E; unfold align_up;
        arch_cases A; Z.div_mod_to_equations; lia).
  apply IH; [eapply passes_sub; [exact Hp|lia|lia]|assumption|lia|lia].
Qed.

Context (test : Z -> bool) (Htest : test_sound A test body).

(** One longword that holds no hit is passed over. *)
Lemma word_pass p :
  p mod wordsize A = 0 -> passes m body p (p + wordsize A) ->
  exists w, @load_word R A m p = Next w /\
    (if test w then check_bytes A m body p else Next tt) = Next tt.
Proof.
  intros Hal H. destruct (mapped_bytes_at m p (wordlen A)) as (bs & Hl & Hbs).
  { intros a Ha. rewrite wordlen_wordsize in Ha. destruct (H a Ha) as (b & -> & _). eauto. }
  exists (word_of_bytes A bs). split; [apply load_word_spec; assumption|].
  destruct (test _); [|reflexivity].
  apply check_from_pass. rewrite wordlen_wordsize. assumption.
Qed.

(** A longword that holds the first hit returns it. *)
Lemma word_hit p t r :
  p mod wordsize A = 0 -> passes m body p t -> hits m body t r -> p <= t < p + wordsize A ->
  mapped m p (p + wordsize A) ->
  exists w, @load_word R A m p = Next w /\
    (if test w then check_bytes A m body p else Next tt) = Return r.
Proof.
  intros Hal Hp Hh Ht Hmap. destruct (mapped_bytes_at m p (wordlen A)) as (bs & Hl & Hbs).
  { rewrite wordlen_wordsize. assumption. }
  exists (word_of_bytes A bs). split; [apply load_word_spec; assumption|].
  destruct (test _) eqn:E.
  - unfold check_bytes. apply check_from_hit with t; auto. rewrite wordlen_wordsize. assumption.
  - exfalso. destruct Hh as (b & Hb & Hr).
    apply Htest in E; [|assumption|eapply bytes_at_wf; eassumption].
    rewrite Forall_lookup in E.
    destruct (lookup_lt_is_Some_2 bs (Z.to_nat (t - p))) as [b' Hb'].
    { rewrite Hl. pose proof (wordlen_wordsize A). lia. }
    specialize (Hbs _ _ Hb'). replace (p + Z.of_nat (Z.to_nat (t - p))) with t in Hbs by lia.
    rewrite Hb in Hbs. injection Hbs as <-. rewrite (E _ _ Hb') in Hr. discriminate.
Qed.

Lemma word_loop_hit fuel p t r :
  p mod wordsize A = 0 -> passes m body p t -> hits m body t r -> p <= t ->
  mapped m p (word_end A t) -> t - p < Z.of_nat fuel ->
  word_loop A m fuel test body p = Return r.
Proof.
  revert p. induction fuel as [|fuel IH]; intros p Hal Hp Hh Ht Hmap Hf; [lia|]. simpl.
  pose proof (wordsize_pos A).
  assert (p + wordsize A <= word_end A t)
    by (revert Hal Ht; unfold word_end; clear; arch_cases A; intros; Z.div_mod_to_equations; lia).
  destruct (decide (t < p + wordsize A)) as [Hlt|Hge].
  - destruct (word_hit p t r) as (w & -> & Hc); auto.
    { intros a Ha. apply Hmap. lia. }
    simpl. rewrite Hc. reflexivity.
  - destruct (word_pass p) as (w & -> & Hc); [assumption|eapply passes_sub; [exact Hp|lia|lia]|].
    simpl. rewrite Hc. simpl. apply IH; auto; try lia.
    + rewrite <- Z.add_mod_idemp_r, Z_mod_same_full, Z.add_0_r by lia. assumption.
    + eapply passes_sub; [exact Hp|lia|lia].
    + intros a Ha. apply Hmap. lia.
Qed.

(** The whole search: alignment loop, then longword loop. *)
Lemma scan_correct fuel s t r :
  passes m body s t -> hits m body t r -> s <= t ->
  mapped m s (word_end A t) -> t - s < Z.of_nat fuel ->
  (let! p := align_loop A m (wordlen A) body s in word_loop A m fuel test body p) = Return r.
Proof.
  intros Hp Hh Ht Hmap Hf. pose proof (align_up_bounds A s) as [Hal Hb].
  pose proof (wordlen_wordsize A).
  destruct (decide (t < align_up A s)) as [Hlt|Hge].
  - rewrite (align_loop_hit _ _ t r); auto; lia.
  - rewrite align_loop_pass; [|eapply passes_sub; [exact Hp|lia|lia]|lia]. simpl.
    apply word_loop_hit with t; auto; try lia.
    + eapply passes_sub; [exact Hp|lia|lia].
    + intros a Ha. apply Hmap. lia.
Qed.
End Loops.

(** * The routines *)

Lemma passes_prefix {R} m s l (body : Z -> Z -> option R) i :
  bytes_at m s l -> (i <= length l)%nat ->
  (forall j b, (j < i)%nat -> l !! j = Some b -> body (s + Z.of_nat j) b = None) ->
  passes m body s (s + Z.of_nat i).
Proof.
  intros Hb Hi H a Ha.
  destruct (lookup_lt_is_Some_2 l (Z.to_nat (a - s))) as [b Hl]; [lia|].
  exists b. pose proof (Hb _ _ Hl) as Hma. specialize (H (Z.to_nat (a - s)) b ltac:(lia) Hl).
  replace (s + Z.of_nat (Z.to_nat (a - s))) with a in * by lia. auto.
Qed.

Lemma hits_at {R} m s l (body : Z -> Z -> option R) i b r :
  bytes_at m s l -> l !! i = Some b -> body (s + Z.of_nat i) b = Some r ->
  hits m body (s + Z.of_nat i) r.
Proof. intros Hb Hl Hr. exists b. split; [apply Hb; assumption|assumption]. Qed.

Lemma mapped_word_end A m s t t' :
  t <= t' -> mapped m s (word_end A t') -> mapped m s (word_end A t).
Proof.
  intros Ht H a Ha. apply H. split; [lia|]. eapply Z.lt_le_trans; [apply Ha|].
  unfold word_end. revert Ht. clear. arch_cases A; intros; Z.div_mod_to_equations; lia.
Qed.

Lemma cstring_nul_index str : Forall (fun b => b <> 0) str -> index_of 0 (str ++ [0]) = Some (length str).
Proof.
  intros Hnz. apply index_of_Some. split.
  - rewrite lookup_app_r, Nat.sub_diag by lia. reflexivity.
  - intros j b Hj Hl. rewrite lookup_app_l in Hl by lia. rewrite Forall_lookup in Hnz. eauto.
Qed.

Lemma u8_byte c : is_byte (u8 c).
Proof. unfold is_byte, u8. apply (uwrap_range 8); lia. Qed.

(** The search for the first byte of the object equal to [c] or to NUL. *)
Lemma strchr_test_sound {R} A c (body : Z -> Z -> option R) :
  is_byte c -> (forall p b, b <> c -> b <> 0 -> body p b = None) ->
  test_sound A (fun w => magic_test A w || magic_test A (Z.lxor w (charmask A c))) body.
Proof.
  intros Hc Hbody bs Hl Hb Ht. apply orb_false_iff in Ht as [H0 H1].
  apply (detects_word _ _ _ (magic_test_detects A)) in H0; [|assumption|assumption].
  apply lxor_detects_word in H1; [|assumption|assumption|assumption].
  rewrite Forall_lookup in *. eauto.
Qed.

(** C27: strlen returns the length of the string, on either word size and
    byte order and for every alignment; it reads only longwords that hold a byte of the
    string or its terminator. *)
Theorem strlen_correct A m s str fuel :
  wf_mem m -> cstring m s str -> mapped m s (word_end A (s + Z.of_nat (length str))) ->
  (length str < fuel)%nat ->
  strlen A m fuel s = Return (Z.of_nat (length str)).
Proof.
  intros Hm [Hs Hnz] Hmap Hf. unfold strlen.
  apply scan_correct with (t := s + Z.of_nat (length str)); auto; try lia.
  - intros bs Hl Hb Ht. apply (detects_word _ _ _ (strlen_test_detects A)) in Ht; auto.
    eapply Forall_impl; [exact Ht|]. simpl. intros b Hne p. destruct (Z.eqb_spec b 0); congruence.
  - apply passes_prefix with (str ++ [0]); [assumption|rewrite length_app; lia|].
    intros j b Hj Hl. apply cstring_nul_index, index_of_Some in Hnz as [_ Hnz].
    specialize (Hnz j b Hj Hl). destruct (Z.eqb_spec b 0); congruence.
  - apply hits_at with (str ++ [0]) 0; auto.
    + rewrite lookup_app_r, Nat.sub_diag by lia. reflexivity.
    + simpl. f_equal. lia.
Qed.

Lemma strlen_witness :
  strlen (Arch true false) (mem_of 16 [104; 101; 108; 108; 111; 0; 7; 7; 7; 7; 7; 7; 7; 7; 7; 7]) 6 16 = Return 5.
Proof.
  apply (strlen_correct (Arch true false) (mem_of 16 [104; 101; 108; 108; 111; 0; 7; 7; 7; 7; 7; 7; 7; 7; 7; 7]) 16 [104; 101; 108; 108; 111] 6).
  - wf_mem_of.
  - split; [apply mem_of_at; [lia|reflexivity]|]. repeat constructor; discriminate.
  - apply mem_of_mapped; [lia|]. vm_compute. discriminate.
  - simpl. lia.
Defined.

(** rawmemchr returns the first occurrence of the byte when there is
    one, whatever the alignment, reading no longword past the one that holds it. *)
Theorem rawmemchr_correct A m s bs c i fuel :
  wf_mem m -> bytes_at m s bs -> index_of (u8 c) bs = Some i ->
  mapped m s (word_end A (s + Z.of_nat i)) -> (i < fuel)%nat ->
  rawmemchr A m fuel s c = Return (s + Z.of_nat i).
Proof.
  intros Hm Hs Hi Hmap Hf. unfold rawmemchr. pose proof Hi as [Hc Hlt]%index_of_Some.
  apply scan_correct with (t := s + Z.of_nat i); auto; try lia.
  - intros l Hl Hb Ht. apply lxor_detects_word in Ht; auto using u8_byte.
    eapply Forall_impl; [exact Ht|]. simpl. intros b Hne p. destruct (Z.eqb_spec b (u8 c)); congruence.
  - apply passes_prefix with bs; [assumption|apply lookup_lt_Some in Hc; lia|].
    intros j b Hj Hl. destruct (Z.eqb_spec b (u8 c)); [|reflexivity]. exfalso. eapply Hlt; eauto.
  - apply hits_at with bs (u8 c); auto. rewrite Z.eqb_refl. reflexivity.
Qed.

Lemma rawmemchr_witness :
  rawmemchr (Arch false true) (mem_of 17 [104; 101; 108; 108; 111; 0; 7; 7; 7; 7; 7; 7; 7; 7; 7; 7]) 6 17 108 = Return 19.
Proof.
  apply (rawmemchr_correct (Arch false true) (mem_of 17 [104; 101; 108; 108; 111; 0; 7; 7; 7; 7; 7; 7; 7; 7; 7; 7]) 17 [104; 101; 108; 108; 111] 108 2 6).
  - wf_mem_of.
  - apply mem_of_at; [lia|reflexivity].
  - reflexivity.
  - apply mem_of_mapped; [lia|]. vm_compute. discriminate.
  - lia.
Defined.

(** The first index of [str ++ [0]] that holds [c] or NUL. *)
Definition chrnul_index (c : Z) (str : list Z) : nat :=
  match index_of c str with Some i => i | None => length str end.

Lemma chrnul_index_spec c str :
  Forall (fun b => b <> 0) str ->
  let i := chrnul_index c str in
  (i <= length str)%nat /\
  (forall j b, (j < i)%nat -> (str ++ [0]) !! j = Some b -> b <> c /\ b <> 0) /\
  exists b, (str ++ [0]) !! i = Some b /\
    (b = c /\ index_of c (str ++ [0]) = Some i \/ b <> c /\ b = 0 /\ index_of c (str ++ [0]) = None).
Proof.
  intros Hnz. unfold chrnul_index. rewrite Forall_lookup in Hnz. destruct (index_of c str) as [i|] eqn:E.
  - apply index_of_Some in E as [Hc Hlt]. pose proof (lookup_lt_Some _ _ _ Hc).
    assert (forall j b, (j < i)%nat -> (str ++ [0]) !! j = Some b -> b <> c /\ b <> 0) as Hj.
    { intros j b Hj Hl. rewrite lookup_app_l in Hl by lia. eauto. }
    repeat split; [lia|eapply Hj; eauto|eapply Hj; eauto|]. exists c. split; [rewrite lookup_app_l by lia; assumption|].
    left. split; [reflexivity|]. apply index_of_Some. split; [rewrite lookup_app_l by lia; assumption|].
    intros j b Hlt' Hl. apply (Hj j b); assumption.
  - rewrite index_of_None in E.
    assert (forall j b, (j < length str)%nat -> (str ++ [0]) !! j = Some b -> b <> c /\ b <> 0) as Hj.
    { intros j b Hj Hl. rewrite lookup_app_l in Hl by lia. eauto. }
    repeat split; [lia|eapply Hj; eauto|eapply Hj; eauto|]. exists 0.
    rewrite lookup_app_r, Nat.sub_diag by lia. split; [reflexivity|].
    destruct (Z.eq_dec 0 c) as [<-|Hne]; [left|right]; (split; [auto|]).
    + apply index_of_Some. rewrite lookup_app_r, Nat.sub_diag by lia. split; [reflexivity|].
      intros j b Hlt Hl. apply (Hj j b); assumption.
    + split; [reflexivity|]. apply index_of_None. intros j b Hl.
      destruct (decide (j < length str)%nat); [eapply Hj; eauto|].
      rewrite lookup_app_r in Hl by lia. destruct (j - length str)%nat as [|k]; simpl in Hl; [congruence|].
      destruct k; discriminate.
Qed.

(** strchrnul returns the first occurrence of the character in the
    string, or its terminator when there is none. *)
Theorem strchrnul_correct A m s str c fuel :
  wf_mem m -> cstring m s str -> mapped m s (word_end A (s + Z.of_nat (length str))) ->
  (length str < fuel)%nat ->
  strchrnul A m fuel s c = Return (s + Z.of_nat (chrnul_index (u8 c) str)).
Proof.
  intros Hm [Hs Hnz] Hmap Hf. unfold strchrnul.
  destruct (chrnul_index_spec (u8 c) str Hnz) as (Hi & Hlt & b & Hb & Hcase).
  apply scan_correct with (t := s + Z.of_nat (chrnul_index (u8 c) str)); auto; try lia.
  - apply strchr_test_sound; [apply u8_byte|]. intros p b' H1 H2.
    apply Z.eqb_neq in H1, H2. rewrite H1, H2. reflexivity.
  - apply passes_prefix with (str ++ [0]); [assumption|rewrite length_app; lia|].
    intros j b' Hj Hl. destruct (Hlt j b' Hj Hl) as [H1 H2].
    apply Z.eqb_neq in H1, H2. rewrite H1, H2. reflexivity.
  - apply hits_at with (str ++ [0]) b; auto.
    destruct Hcase as [[-> _]|(_ & -> & _)]; rewrite Z.eqb_refl, ?orb_true_r; reflexivity.
  - eapply mapped_word_end; [|exact Hmap]. lia.
Qed.

Lemma strchrnul_witness :
  strchrnul (Arch true true) (mem_of 17 [104; 101; 108; 108; 111; 0; 7; 7; 7; 7; 7; 7; 7; 7; 7; 7]) 6 17 120 = Return 22.
Proof.
  apply (strchrnul_correct (Arch true true) (mem_of 17 [104; 101; 108; 108; 111; 0; 7; 7; 7; 7; 7; 7; 7; 7; 7; 7]) 17 [104; 101; 108; 108; 111] 120 6).
  - wf_mem_of.
  - split; [apply mem_of_at; [lia|reflexivity]|]. repeat constructor; discriminate.
  - apply mem_of_mapped; [lia|]. vm_compute. discriminate.
  - simpl. lia.
Defined.

(** strchr returns the first occurrence of the character in the string,
    its terminator counted as part of it, or a null pointer. *)
Theorem strchr_correct A m s str c fuel :
  wf_mem m -> cstring m s str -> mapped m s (word_end A (s + Z.of_nat (length str))) ->
  (length str < fuel)%nat ->
  strchr A m fuel s c =
  Return (match index_of (u8 c) (str ++ [0]) with Some i => s + Z.of_nat i | None => 0 end).
Proof.
  intros Hm [Hs Hnz] Hmap Hf. unfold strchr.
  destruct (chrnul_index_spec (u8 c) str Hnz) as (Hi & Hlt & b & Hb & Hcase).
  apply scan_correct with (t := s + Z.of_nat (chrnul_index (u8 c) str)); auto; try lia.
  - apply strchr_test_sound; [apply u8_byte|]. intros p b' H1 H2.
    apply Z.eqb_neq in H1, H2. rewrite H1, H2. reflexivity.
  - apply passes_prefix with (str ++ [0]); [assumption|rewrite length_app; lia|].
    intros j b' Hj Hl. destruct (Hlt j b' Hj Hl) as [H1 H2].
    apply Z.eqb_neq in H1, H2. rewrite H1, H2. reflexivity.
  - apply hits_at with (str ++ [0]) b; auto.
    destruct Hcase as [[-> ->]|(Hne & -> & ->)].
    + rewrite Z.eqb_refl. reflexivity.
    + apply Z.eqb_neq in Hne. rewrite Hne. reflexivity.
  - eapply mapped_word_end; [|exact Hmap]. lia.
Qed.

Lemma strchr_witness :
  strchr (Arch false false) (mem_of 17 [104; 101; 108; 108; 111; 0; 7; 7; 7; 7; 7; 7; 7; 7; 7; 7]) 6 17 108 = Return 19.
Proof.
  apply (strchr_correct (Arch false false) (mem_of 17 [104; 101; 108; 108; 111; 0; 7; 7; 7; 7; 7; 7; 7; 7; 7; 7]) 17 [104; 101; 108; 108; 111] 108 6).
  - wf_mem_of.
  - split; [apply mem_of_at; [lia|reflexivity]|]. repeat constructor; discriminate.
  - apply mem_of_mapped; [lia|]. vm_compute. discriminate.
  - simpl. lia.
Defined.

(** ** Bounded searches

    One loop of memchr, started at [p] on the remaining bytes [l], either
    returns the first occurrence or hands the bytes it did not look at to the
    next loop. *)
Definition searched (c p : Z) (l : list Z) (r : flow Z (Z * Z)) : Prop :=
  (exists i, index_of c l = Some i /\ r = Return (p + Z.of_nat i)) \/
  (exists l1 l2, l = l1 ++ l2 /\ index_of c l1 = None /\
     r = Next (p + Z.of_nat (length l1), Z.of_nat (length l2))).

Lemma searched_skip c p l1 l2 r :
  index_of c l1 = None -> searched c (p + Z.of_nat (length l1)) l2 r -> searched c p (l1 ++ l2) r.
Proof.
  intros H1 [(i & Hi & ->)|(l2a & l2b & -> & H2 & ->)].
  - left. exists (length l1 + i)%nat. rewrite index_of_app, H1, Hi. split; [reflexivity|]. f_equal. lia.
  - right. exists (l1 ++ l2a), l2b. rewrite <- app_assoc, index_of_app, H1, H2, length_app.
    repeat split. do 2 f_equal. lia.
Qed.

Lemma searched_stop c p l : searched c p l (Next (p, Z.of_nat (length l))).
Proof. right. exists [], l. repeat split. simpl. do 2 f_equal. lia. Qed.

Section MemChr.
Context (A : arch) (m : mem) (Hm : wf_mem m) (c : Z) (Hc : is_byte c).

Lemma align_loop_n_spec fuel p l :
  bytes_at m p l -> (length l <= fuel)%nat ->
  searched c p l (align_loop_n A m fuel c p (Z.of_nat (length l))) /\
  forall p' n', align_loop_n A m fuel c p (Z.of_nat (length l)) = Next (p', n') ->
    n' = 0 \/ p' mod wordsize A = 0.
Proof.
  revert p l. induction fuel as [|fuel IH]; intros p l Hb Hl; simpl.
  - destruct l; [|simpl in Hl; lia]. simpl. split; [apply searched_stop|].
    intros p' n' [= <- <-]. auto.
  - destruct (_ && _) eqn:E.
    + apply andb_true_iff in E as [E1 E2]. apply Z.ltb_lt in E1.
      destruct l as [|b l]; [simpl in E1; lia|]. apply bytes_at_cons in Hb as [Hb0 Hb].
      rewrite (load8_spec _ _ _ Hb0). simpl flow_bind. destruct (Z.eqb_spec b c) as [->|Hne].
      * split; [|discriminate]. left. exists O. simpl. rewrite Z.eqb_refl. split; [reflexivity|]. f_equal. lia.
      * simpl length. replace (Z.of_nat (S (length l)) - 1) with (Z.of_nat (length l)) by lia.
        destruct (IH (p + 1) l Hb) as [H1 H2]; [simpl in Hl; lia|]. split; [|assumption].
        apply (searched_skip c p [b]); [|assumption]. simpl. apply Z.eqb_neq in Hne. rewrite Hne. reflexivity.
    + split; [apply searched_stop|]. intros p' n' [= <- <-].
      apply andb_false_iff in E as [E|E]; [apply Z.ltb_ge in E; left; lia|right].
      rewrite misaligned_mod in E. apply negb_false_iff, Z.eqb_eq in E. assumption.
Qed.

Lemma mem_test_sound {R} (body : Z -> Z -> option R) :
  (forall p b, b <> c -> body p b = None) ->
  test_sound A (fun w => magic_test A (Z.lxor w (charmask A c))) body.
Proof.
  intros Hbody bs Hl Hb Ht. apply lxor_detects_word in Ht; auto.
  eapply Forall_impl; [exact Ht|]. simpl. auto.
Qed.

Lemma word_loop_n_spec fuel p l :
  bytes_at m p l -> p mod wordsize A = 0 \/ l = [] -> (length l <= fuel)%nat ->
  searched c p l (word_loop_n A m fuel c p (Z.of_nat (length l))).
Proof.
  revert p l. induction fuel as [|fuel IH]; intros p l Hb Hal Hl;
    pose proof (wordsize_pos A) as HW; pose proof (wordlen_wordsize A) as HWL.
  - destruct l; [|simpl in Hl; lia].
    cbn [word_loop_n]. rewrite (proj2 (Z.leb_gt (wordsize A) (Z.of_nat (length [])))) by (simpl; lia).
    apply searched_stop.
  - simpl. destruct (Z.leb_spec (wordsize A) (Z.of_nat (length l))) as [Hle|]; [|apply searched_stop].
    destruct Hal as [Hal| ->]; [|simpl in Hle; lia].
    destruct (split_front l (wordlen A)) as (l1 & l2 & -> & Hl1); [lia|].
    set (body := fun p b : Z => if b =? c then Some p else None).
    assert (test_sound A (fun w => magic_test A (Z.lxor w (charmask A c))) body) as Hts.
    { apply mem_test_sound. intros q b Hne. subst body. simpl. apply Z.eqb_neq in Hne. rewrite Hne. reflexivity. }
    apply bytes_at_app in Hb as [Hb1 Hb2]. pose proof (bytes_at_mapped _ _ _ Hb1) as Hmap.
    rewrite Hl1, HWL in *. destruct (index_of c l1) as [i|] eqn:Ei.
    + pose proof Ei as [Hi Hlt]%index_of_Some. pose proof (lookup_lt_Some _ _ _ Hi).
      destruct (word_hit A m Hm body _ Hts p (p + Z.of_nat i) (p + Z.of_nat i)) as (w & -> & Hw); auto; try lia.
      * apply passes_prefix with l1; [assumption|lia|]. intros j b Hj Hlj. subst body. simpl.
        specialize (Hlt j b Hj Hlj). apply Z.eqb_neq in Hlt. rewrite Hlt. reflexivity.
      * apply hits_at with l1 c; auto. subst body. simpl. rewrite Z.eqb_refl. reflexivity.
      * simpl. rewrite Hw. left. exists i. rewrite index_of_app, Ei. auto.
    + destruct (word_pass A m body (fun w => magic_test A (Z.lxor w (charmask A c))) p) as (w & -> & Hw); auto.
      * rewrite <- HWL, <- Hl1. apply passes_prefix with l1; [assumption|lia|]. intros j b Hj Hlj. subst body. simpl.
        rewrite index_of_None in Ei. specialize (Ei j b Hlj). apply Z.eqb_neq in Ei. rewrite Ei. reflexivity.
      * simpl. rewrite Hw. simpl. rewrite length_app in *.
        replace (Z.of_nat (length l1 + length l2) - wordsize A) with (Z.of_nat (length l2)) by lia.
        apply searched_skip; [assumption|]. rewrite Hl1, HWL. apply IH; [assumption| |lia].
        left. rewrite <- Z.add_mod_idemp_r, Z_mod_same_full, Z.add_0_r by lia. assumption.
Qed.

Lemma tail_loop_n_spec fuel p l :
  bytes_at m p l -> (length l <= fuel)%nat ->
  tail_loop_n m fuel c p (Z.of_nat (length l)) =
  Return (match index_of c l with Some i => p + Z.of_nat i | None => 0 end).
Proof.
  revert p l. induction fuel as [|fuel IH]; intros p l Hb Hl.
  - destruct l; [|simpl in Hl; lia]. reflexivity.
  - destruct l as [|b l]; [reflexivity|]. apply bytes_at_cons in Hb as [Hb0 Hb].
    cbn [tail_loop_n]. rewrite (proj2 (Z.ltb_lt _ _)) by (simpl; lia).
    rewrite (load8_spec _ _ _ Hb0). simpl flow_bind. simpl index_of. destruct (Z.eqb_spec b c) as [->|Hne].
    + f_equal. simpl. lia.
    + simpl length. replace (Z.of_nat (S (length l)) - 1) with (Z.of_nat (length l)) by lia.
      rewrite IH; [|assumption|simpl in Hl; lia]. f_equal. destruct (index_of c l); simpl; [lia|reflexivity].
Qed.
End MemChr.

(** memchr returns the first occurrence of the byte among the [n] bytes, or
    a null pointer; no fuel and no byte beyond the block are needed. *)
Theorem memchr_correct A m s c bs :
  wf_mem m -> bytes_at m s bs ->
  memchr A m s c (Z.of_nat (length bs)) =
  Return (match index_of (u8 c) bs with Some i => s + Z.of_nat i | None => 0 end).
Proof.
  intros Hm Hb. unfold memchr. rewrite Nat2Z.id. pose proof (u8_byte c) as Hc.
  destruct (align_loop_n_spec A m (u8 c) (length bs) s bs Hb ltac:(lia))
    as [[(i & Hi & E)|(l1 & l2 & -> & Hn & E)] Hal]; rewrite E in *; simpl; [rewrite Hi; reflexivity|].
  apply bytes_at_app in Hb as [_ Hb]. specialize (Hal _ _ eq_refl). rewrite length_app in *.
  assert ((s + Z.of_nat (length l1)) mod wordsize A = 0 \/ l2 = []) as Hal'.
  { destruct Hal as [Hal|Hal]; [right; destruct l2; [reflexivity|simpl in Hal; lia]|auto]. }
  destruct (word_loop_n_spec A m Hm (u8 c) Hc (length l1 + length l2) _ l2 Hb Hal' ltac:(lia))
    as [(i & Hi & E2)|(l2a & l2b & -> & Hn2 & E2)]; rewrite E2; simpl; rewrite index_of_app, Hn.
  - rewrite Hi. simpl. f_equal. lia.
  - apply bytes_at_app in Hb as [_ Hb]. rewrite length_app in *. rewrite tail_loop_n_spec; [|assumption|lia].
    rewrite index_of_app, Hn2. f_equal. destruct (index_of (u8 c) l2b); simpl; [lia|reflexivity].
Qed.

Lemma memchr_witness :
  memchr (Arch true false) (mem_of 17 [104; 101; 108; 108; 111; 0; 7; 7; 7; 7; 7; 7; 7; 7; 7; 7]) 17 111 16 = Return 21.
Proof.
  apply (memchr_correct (Arch true false) (mem_of 17 [104; 101; 108; 108; 111; 0; 7; 7; 7; 7; 7; 7; 7; 7; 7; 7]) 17 111 [104; 101; 108; 108; 111; 0; 7; 7; 7; 7; 7; 7; 7; 7; 7; 7]).
  - wf_mem_of.
  - apply mem_of_at; [lia|reflexivity].
Defined.

(** The same for memrchr: [p] is the end of the remaining bytes [l]. *)
Definition searched_r (c p : Z) (l : list Z) (r : flow Z (Z * Z)) : Prop :=
  (exists i, last_index_of c l = Some i /\ r = Return (p - Z.of_nat (length l) + Z.of_nat i)) \/
  (exists l1 l2, l = l1 ++ l2 /\ last_index_of c l2 = None /\
     r = Next (p - Z.of_nat (length l2), Z.of_nat (length l1))).

Lemma searched_r_skip c p l1 l2 r :
  last_index_of c l2 = None -> searched_r c (p - Z.of_nat (length l2)) l1 r ->
  searched_r c p (l1 ++ l2) r.
Proof.
  intros H1 [(i & Hi & ->)|(l1a & l1b & -> & H2 & ->)].
  - left. exists i. rewrite last_index_of_app, H1, Hi, length_app. split; [reflexivity|]. f_equal. lia.
  - right. exists l1a, (l1b ++ l2). rewrite <- app_assoc, last_index_of_app, H1, H2, length_app.
    repeat split. do 2 f_equal. lia.
Qed.

Lemma searched_r_stop c p l : searched_r c p l (Next (p, Z.of_nat (length l))).
Proof. right. exists l, []. rewrite app_nil_r. repeat split. simpl. do 2 f_equal. lia. Qed.

Lemma last_of_snoc {T} (l : list T) : l = [] \/ exists l' x, l = l' ++ [x].
Proof. induction l as [|l x _] using rev_ind; eauto. Qed.

Lemma last_index_of_snoc c l b :
  last_index_of c (l ++ [b]) = if b =? c then Some (length l) else last_index_of c l.
Proof. rewrite last_index_of_app. simpl. destruct (b =? c); [f_equal; lia|reflexivity]. Qed.

Section MemRChr.
Context (A : arch) (m : mem) (Hm : wf_mem m) (c : Z) (Hc : is_byte c).

(** The byte just below the end of the remaining object. *)
Lemma load8_below {R} p l b :
  bytes_at m (p - Z.of_nat (length (l ++ [b]))) (l ++ [b]) ->
  @load8 R m (p - 1) = Next b /\ bytes_at m (p - 1 - Z.of_nat (length l)) l.
Proof.
  rewrite length_app. simpl length. intros H. apply bytes_at_app in H as [H1 H2].
  apply bytes_at_cons in H2 as [H2 _].
  replace (p - Z.of_nat (length l + 1) + Z.of_nat (length l)) with (p - 1) in H2 by lia.
  replace (p - Z.of_nat (length l + 1)) with (p - 1 - Z.of_nat (length l)) in H1 by lia.
  split; [apply load8_spec; assumption|assumption].
Qed.

Lemma align_loop_r_spec fuel p l :
  bytes_at m (p - Z.of_nat (length l)) l -> (length l <= fuel)%nat ->
  searched_r c p l (align_loop_r A m fuel c p (Z.of_nat (length l))) /\
  forall p' n', align_loop_r A m fuel c p (Z.of_nat (length l)) = Next (p', n') ->
    n' = 0 \/ p' mod wordsize A = 0.
Proof.
  revert p l. induction fuel as [|fuel IH]; intros p l Hb Hl; cbn [align_loop_r].
  - destruct l; [|simpl in Hl; lia]. split; [apply searched_r_stop|].
    simpl. intros p' n' [= <- <-]. auto.
  - destruct (_ && _) eqn:E.
    + apply andb_true_iff in E as [E1 E2]. apply Z.ltb_lt in E1.
      destruct (last_of_snoc l) as [-> | (l' & b & ->)]; [simpl in E1; lia|].
      destruct (@load8_below Z p l' b Hb) as [_ Hb']. rewrite (proj1 (load8_below p l' b Hb)).
      rewrite length_app in *. simpl length in *. simpl flow_bind.
      destruct (Z.eqb_spec b c) as [->|Hne].
      * split; [|discriminate]. left. exists (length l').
        rewrite last_index_of_snoc, Z.eqb_refl, length_app. simpl. split; [reflexivity|]. f_equal. lia.
      * replace (Z.of_nat (length l' + 1) - 1) with (Z.of_nat (length l')) by lia.
        destruct (IH (p - 1) l' Hb') as [H1 H2]; [lia|]. split; [|assumption].
        apply searched_r_skip; [|assumption]. simpl. apply Z.eqb_neq in Hne. rewrite Hne. reflexivity.
    + split; [apply searched_r_stop|]. intros p' n' [= <- <-].
      apply andb_false_iff in E as [E|E]; [apply Z.ltb_ge in E; left; lia|right].
      rewrite misaligned_mod in E. apply negb_false_iff, Z.eqb_eq in E. assumption.
Qed.

Lemma check_down_spec cp l :
  bytes_at m cp l ->
  check_down m (length l) c cp =
  match last_index_of c l with Some i => Return (cp + Z.of_nat i) | None => Next tt end.
Proof.
  induction l as [|b l IH] using rev_ind; intros H; [reflexivity|].
  apply bytes_at_app in H as [H1 H2]. apply bytes_at_cons in H2 as [H2 _].
  rewrite length_app, Nat.add_1_r. cbn [check_down].
  rewrite (load8_spec _ _ _ H2). simpl flow_bind. rewrite last_index_of_snoc.
  destruct (b =? c); [reflexivity|auto].
Qed.

Lemma word_loop_r_spec fuel p l :
  bytes_at m (p - Z.of_nat (length l)) l -> p mod wordsize A = 0 \/ l = [] -> (length l <= fuel)%nat ->
  searched_r c p l (word_loop_r A m fuel c p (Z.of_nat (length l))).
Proof.
  revert p l. induction fuel as [|fuel IH]; intros p l Hb Hal Hl;
    pose proof (wordsize_pos A) as HW; pose proof (wordlen_wordsize A) as HWL; cbn [word_loop_r].
  - destruct l; [|simpl in Hl; lia].
    rewrite (proj2 (Z.leb_gt (wordsize A) (Z.of_nat (length [])))) by (simpl; lia). apply searched_r_stop.
  - destruct (Z.leb_spec (wordsize A) (Z.of_nat (length l))) as [Hle|]; [|apply searched_r_stop].
    destruct Hal as [Hal| ->]; [|simpl in Hle; lia].
    destruct (split_front l (length l - wordlen A)) as (l1 & l2 & -> & Hl1); [lia|].
    rewrite length_app in Hl1, Hb, Hl, Hle. assert (length l2 = wordlen A) as Hl2 by lia.
    apply bytes_at_app in Hb as [Hb1 Hb2].
    replace (p - Z.of_nat (length l1 + length l2) + Z.of_nat (length l1)) with (p - wordsize A) in Hb2 by lia.
    replace (p - Z.of_nat (length l1 + length l2)) with (p - wordsize A - Z.of_nat (length l1)) in Hb1 by lia.
    assert ((p - wordsize A) mod wordsize A = 0) as Hal'.
    { rewrite <- Zminus_mod_idemp_r, Z_mod_same_full, Z.sub_0_r. assumption. }
    rewrite (load_word_spec A m (p - wordsize A) l2 Hal' Hl2 Hb2). simpl flow_bind. rewrite length_app.
    replace (Z.of_nat (length l1 + length l2) - wordsize A) with (Z.of_nat (length l1)) by lia.
    pose proof (check_down_spec _ _ Hb2) as Hcd. rewrite Hl2 in Hcd. rewrite Hcd.
    destruct (last_index_of c l2) as [i|] eqn:Ei.
    + destruct (magic_test _ _) eqn:Et.
      * left. exists (length l1 + i)%nat. rewrite last_index_of_app, Ei, length_app. split; [reflexivity|]. simpl. f_equal. lia.
      * exfalso. apply lxor_detects_word in Et; [|assumption|assumption|eapply bytes_at_wf; eassumption].
        rewrite (last_index_of_ne _ _ Et) in Ei. discriminate.
    + apply searched_r_skip; [assumption|].
      replace (p - Z.of_nat (length l2)) with (p - wordsize A) by lia.
      destruct (magic_test _ _); simpl; apply IH; auto; lia.
Qed.

Lemma tail_loop_r_spec fuel p l :
  bytes_at m (p - Z.of_nat (length l)) l -> (length l <= fuel)%nat ->
  tail_loop_r m fuel c p (Z.of_nat (length l)) =
  Return (match last_index_of c l with Some i => p - Z.of_nat (length l) + Z.of_nat i | None => 0 end).
Proof.
  revert p l. induction fuel as [|fuel IH]; intros p l Hb Hl.
  - destruct l; [|simpl in Hl; lia]. reflexivity.
  - destruct (last_of_snoc l) as [-> | (l' & b & ->)]; [reflexivity|].
    destruct (@load8_below Z p l' b Hb) as [_ Hb'].
    cbn [tail_loop_r]. rewrite (proj1 (load8_below p l' b Hb)).
    rewrite length_app in *. simpl length in *.
    rewrite (proj2 (Z.ltb_lt _ _)) by lia. simpl flow_bind. rewrite last_index_of_snoc.
    destruct (Z.eqb_spec b c) as [->|Hne]; [f_equal; lia|].
    replace (Z.of_nat (length l' + 1) - 1) with (Z.of_nat (length l')) by lia.
    rewrite IH; [|assumption|lia]. f_equal. destruct (last_index_of c l'); [lia|reflexivity].
Qed.
End MemRChr.

(** memrchr returns the last occurrence of the byte among the [n] bytes,
    or a null pointer. *)
Theorem memrchr_correct A m s c bs :
  wf_mem m -> bytes_at m s bs ->
  memrchr A m s c (Z.of_nat (length bs)) =
  Return (match last_index_of (u8 c) bs with Some i => s + Z.of_nat i | None => 0 end).
Proof.
  intros Hm Hb. unfold memrchr. rewrite Nat2Z.id. pose proof (u8_byte c) as Hc.
  set (p := s + Z.of_nat (length bs)). replace s with (p - Z.of_nat (length bs)) in * by lia. clearbody p.
  destruct (align_loop_r_spec A m (u8 c) (length bs) p bs Hb ltac:(lia))
    as [[(i & Hi & E)|(l1 & l2 & -> & Hn & E)] Hal]; rewrite E in *; simpl; [rewrite Hi; reflexivity|].
  specialize (Hal _ _ eq_refl). rewrite length_app in *.
  apply bytes_at_app in Hb as [Hb _].
  replace (p - Z.of_nat (length l1 + length l2)) with (p - Z.of_nat (length l2) - Z.of_nat (length l1)) in * by lia.
  assert ((p - Z.of_nat (length l2)) mod wordsize A = 0 \/ l1 = []) as Hal'.
  { destruct Hal as [Hal|Hal]; [right; destruct l1; [reflexivity|simpl in Hal; lia]|auto]. }
  destruct (word_loop_r_spec A m Hm (u8 c) Hc (length l1 + length l2) _ l1 Hb Hal' ltac:(lia))
    as [(i & Hi & E2)|(l1a & l1b & -> & Hn2 & E2)]; rewrite E2; simpl; rewrite last_index_of_app, Hn.
  - rewrite Hi. reflexivity.
  - apply bytes_at_app in Hb as [Hb _]. rewrite length_app in *.
    replace (p - Z.of_nat (length l2) - Z.of_nat (length l1a + length l1b))
      with (p - Z.of_nat (length l2) - Z.of_nat (length l1b) - Z.of_nat (length l1a)) in * by lia.
    rewrite tail_loop_r_spec; [|assumption|lia].
    rewrite last_index_of_app, Hn2. reflexivity.
Qed.

Lemma memrchr_witness :
  memrchr (Arch false true) (mem_of 17 [104; 101; 108; 108; 111; 0; 7; 7; 7; 7; 7; 7; 7; 7; 7; 7]) 17 108 16 = Return 20.
Proof.
  apply (memrchr_correct (Arch false true) (mem_of 17 [104; 101; 108; 108; 111; 0; 7; 7; 7; 7; 7; 7; 7; 7; 7; 7]) 17 108 [104; 101; 108; 108; 111; 0; 7; 7; 7; 7; 7; 7; 7; 7; 7; 7]).
  - wf_mem_of.
  - apply mem_of_at; [lia|reflexivity].
Defined.

(** ** strnlen *)

Lemma first_hit_or_pass {R} m (body : Z -> Z -> option R) n lo :
  mapped m lo (lo + Z.of_nat n) ->
  passes m body lo (lo + Z.of_nat n) \/
  exists t r, lo <= t < lo + Z.of_nat n /\ passes m body lo t /\ hits m body t r.
Proof.
  revert lo. induction n as [|n IH]; intros lo H.
  - left. intros a Ha. lia.
  - destruct (H lo) as [b Hb]; [lia|]. destruct (body lo b) as [r|] eqn:E.
    + right. exists lo, r. split; [lia|]. split; [intros a Ha; lia|]. exists b. auto.
    + assert (forall hi, passes m body (lo + 1) hi -> passes m body lo hi) as Hext.
      { intros hi Hp a Ha. destruct (Z.eq_dec a lo) as [->|]; [eauto|]. apply Hp. lia. }
      destruct (IH (lo + 1)) as [Hp|(t & r & Ht & Hp & Hh)].
      * intros a Ha. apply H. lia.
      * left. replace (lo + Z.of_nat (S n)) with (lo + 1 + Z.of_nat n) by lia. auto.
      * right. exists t, r. split; [lia|]. auto.
Qed.

Section StrNLen.
Context (A : arch) (m : mem) (Hm : wf_mem m).
Let nul (p b : Z) : option Z := if b =? 0 then Some p else None.

Lemma nul_test_sound : test_sound A (strnlen_test A) nul.
Proof.
  intros bs Hl Hb Ht. apply (detects_word _ _ _ (strnlen_test_detects A)) in Ht; auto.
  eapply Forall_impl; [exact Ht|]. simpl. intros b Hne p. subst nul. simpl.
  apply Z.eqb_neq in Hne. rewrite Hne. reflexivity.
Qed.

Lemma nul_hits t r : hits m nul t r -> r = t.
Proof. intros (b & _ & H). subst nul. simpl in H. destruct (b =? 0); congruence. Qed.

Lemma aligned_next p : p mod wordsize A = 0 -> (p + wordsize A) mod wordsize A = 0.
Proof.
  intros H. pose proof (wordsize_pos A).
  rewrite <- Z.add_mod_idemp_r, Z_mod_same_full, Z.add_0_r by lia. assumption.
Qed.

Lemma word_end_ge p t : p mod wordsize A = 0 -> p <= t -> p + wordsize A <= word_end A t.
Proof. unfold word_end. arch_cases A; intros; Z.div_mod_to_equations; lia. Qed.

Lemma strnlen_words_hit fuel cp p e t :
  p mod wordsize A = 0 -> passes m nul p t -> hits m nul t t -> p <= t < e ->
  mapped m p (word_end A t) -> t - p < Z.of_nat fuel ->
  strnlen_words A m fuel cp p e = Next t.
Proof.
  revert cp p. induction fuel as [|fuel IH]; intros cp p Hal Hp Hh Ht Hmap Hf; [lia|].
  cbn [strnlen_words]. rewrite (proj2 (Z.ltb_lt _ _)) by lia.
  pose proof (wordsize_pos A). pose proof (word_end_ge p t Hal ltac:(lia)).
  destruct (decide (t < p + wordsize A)) as [Hlt|Hge].
  - destruct (word_hit A m Hm nul _ nul_test_sound p t t) as (w & -> & Hw); auto; try lia.
    { intros a Ha. apply Hmap. lia. }
    simpl. subst nul. simpl in Hw. rewrite Hw. reflexivity.
  - destruct (word_pass A m nul (strnlen_test A) p Hal) as (w & -> & Hw).
    { eapply passes_sub; [exact Hp|lia|lia]. }
    simpl. subst nul. simpl in Hw. rewrite Hw. apply IH; auto using aligned_next; try lia.
    + eapply passes_sub; [exact Hp|lia|lia].
    + intros a Ha. apply Hmap. lia.
Qed.

Lemma strnlen_words_end fuel cp p e :
  p mod wordsize A = 0 -> passes m nul p e -> (e <= p -> e <= cp) ->
  mapped m p (word_end A (e - 1)) -> e - p <= Z.of_nat fuel ->
  exists q, strnlen_words A m fuel cp p e = Next q /\ e <= q.
Proof.
  revert cp p. induction fuel as [|fuel IH]; intros cp p Hal Hp Hcp Hmap Hf; cbn [strnlen_words];
    destruct (Z.ltb_spec p e) as [Hlt|Hge]; [lia|eauto| |eauto].
  pose proof (wordsize_pos A). pose proof (wordlen_wordsize A).
  pose proof (word_end_ge p (e - 1) Hal ltac:(lia)).
  destruct (first_hit_or_pass m nul (wordlen A) p) as [Hw|(t & r & Ht & Hpt & Hh)].
  { intros a Ha. apply Hmap. lia. }
  - destruct (word_pass A m nul (strnlen_test A) p Hal) as (w & -> & Hc).
    { rewrite <- H0. assumption. }
    simpl. subst nul. simpl in Hc. rewrite Hc. apply IH; auto using aligned_next; try lia.
    + eapply passes_sub; [exact Hp|lia|lia].
    + intros a Ha. apply Hmap. lia.
  - assert (e <= t) as Het.
    { destruct (decide (t < e)); [|lia]. destruct Hh as (b & Hb & Hr). destruct (Hp t) as (b' & Hb' & Hn); [lia|].
      congruence. }
    pose proof (nul_hits _ _ Hh) as ->.
    destruct (word_hit A m Hm nul _ nul_test_sound p t t) as (w & -> & Hc); auto; try lia.
    { intros a Ha. apply Hmap. lia. }
    simpl. subst nul. simpl in Hc. rewrite Hc. eauto.
Qed.

(** From the first NUL on, or from the bound on, the clamped pointer is the bound. *)
Lemma strnlen_from fuel s e t :
  s <= t -> s <= e -> passes m nul s (Z.min t e) -> (t < e -> hits m nul t t) ->
  mapped m s (word_end A (Z.min t (e - 1))) -> Z.min t e - s < Z.of_nat fuel ->
  mapped m s (align_up A s) ->
  (let! char_ptr := align_loop A m (wordlen A)
      (fun p b => if b =? 0 then Some ((if e <? p then e else p) - s) else None) s in
   let! char_ptr := strnlen_words A m fuel char_ptr char_ptr e in
   Return (((if e <? char_ptr then e else char_ptr) - s)))
  = @Return Z Empty_set (Z.min t e - s).
Proof.
  intros Hst Hse Hp Hh Hmap Hf Hmapa.
  set (body := fun p b : Z => if b =? 0 then Some ((if e <? p then e else p) - s) else None).
  assert (forall lo hi, passes m nul lo hi <-> passes m body lo hi) as Hpn.
  { intros lo hi. subst nul body. unfold passes. simpl. split; intros H a Ha;
      destruct (H a Ha) as (b & Hb & Hn); exists b; (split; [assumption|]); destruct (b =? 0); congruence. }
  pose proof (align_up_bounds A s) as [Hal Hb]. pose proof (wordlen_wordsize A).
  destruct (first_hit_or_pass m nul (Z.to_nat (align_up A s - s)) s) as [Hw|(u & r & Hu & Hpu & Hhu)];
    replace (s + Z.of_nat (Z.to_nat (align_up A s - s))) with (align_up A s) in * by lia; [assumption| |].
  - rewrite align_loop_pass; [|apply Hpn; assumption|lia]. simpl.
    set (q := align_up A s) in *.
    destruct (decide (t < e)) as [Hlt|Hge].
    + rewrite Z.min_l in * by lia.
      assert (q <= t) as Hqt.
      { destruct (decide (q <= t)); [assumption|]. destruct (Hh Hlt) as (b & Hb' & Hr).
        destruct (Hw t) as (b' & Hb'' & Hn); [lia|]. congruence. }
      rewrite (strnlen_words_hit fuel q q e t); auto; try lia.
      * simpl. destruct (Z.ltb_spec e t); [lia|reflexivity].
      * eapply passes_sub; [exact Hp|lia|lia].
      * intros a Ha. apply Hmap. lia.
    + rewrite Z.min_r in * by lia.
      destruct (strnlen_words_end fuel q q e) as (c & -> & Hc); auto; try lia.
      * eapply passes_sub; [exact Hp|lia|lia].
      * intros a Ha. apply Hmap. lia.
      * simpl. destruct (Z.ltb_spec e c); [reflexivity|]. do 2 f_equal. lia.
  - assert (hits m body u ((if e <? u then e else u) - s)) as Hhb.
    { destruct Hhu as (b & Hb' & Hr). exists b. split; [assumption|]. subst nul body. simpl in *.
      destruct (b =? 0); congruence. }
    rewrite (align_loop_hit A m body (wordlen A) s u _ (proj1 (Hpn _ _) Hpu) Hhb) by lia. simpl. do 2 f_equal.
    assert (Z.min t e <= u) as Hle.
    { destruct (decide (u < Z.min t e)); [|lia]. destruct Hhu as (b & Hb' & Hr).
      destruct (Hp u) as (b' & Hb'' & Hn); [lia|]. congruence. }
    destruct (Z.ltb_spec e u); [|].
    + destruct (decide (t < e)) as [Hlt|]; [|lia]. exfalso.
      destruct (Hh Hlt) as (b & Hb' & Hr). destruct (Hpu t) as (b' & Hb'' & Hn); [lia|]. congruence.
    + destruct (decide (t < e)) as [Hlt|]; [|lia].
      assert (u <= t); [|lia]. destruct (decide (t < u)); [|lia].
      destruct (Hh Hlt) as (b & Hb' & Hr). destruct (Hpu t) as (b' & Hb'' & Hn); [lia|]. congruence.
Qed.
End StrNLen.

(** strnlen returns the smaller of [maxlen] and the length of the string,
    given that the string ends or [maxlen] bytes are readable, even when the end address
    [s + maxlen] wraps around. *)
Theorem strnlen_correct A m s maxlen bs fuel :
  wf_mem m -> bytes_at m s bs -> bs <> [] ->
  0 <= s -> s + Z.of_nat (length bs) < 2 ^ wordbits A -> 0 <= maxlen < 2 ^ wordbits A ->
  maxlen <= Z.of_nat (length bs) \/ is_Some (index_of 0 bs) ->
  mapped m s (word_end A (s + Z.of_nat (length bs) - 1)) -> (length bs < fuel)%nat ->
  strnlen A m fuel s maxlen =
  Return (match index_of 0 bs with Some i => Z.min maxlen (Z.of_nat i) | None => maxlen end).
Proof.
  intros Hm Hb Hne Hs Hend Hmax Hor Hmap Hf. unfold strnlen.
  destruct (Z.eqb_spec maxlen 0) as [->|Hmax0].
  { f_equal. destruct (index_of 0 bs); lia. }
  set (e := if uwrap (wordbits A) (s + maxlen) <? s then 2 ^ wordbits A - 1
            else uwrap (wordbits A) (s + maxlen)).
  set (i0 := match index_of 0 bs with Some i => i | None => length bs end).
  assert ((i0 <= length bs)%nat) as Hi0.
  { subst i0. destruct (index_of 0 bs) as [i|] eqn:E; [|lia].
    apply index_of_Some in E as [E _]. apply lookup_lt_Some in E. lia. }
  assert (e = s + maxlen \/ s + Z.of_nat (length bs) <= e < s + maxlen) as He.
  { subst e. destruct (decide (s + maxlen < 2 ^ wordbits A)).
    - rewrite uwrap_small by lia. left. rewrite (proj2 (Z.ltb_ge _ _)) by lia. reflexivity.
    - right. assert (uwrap (wordbits A) (s + maxlen) = s + maxlen - 2 ^ wordbits A) as ->.
      { unfold uwrap. symmetry. apply Z.mod_unique with 1; lia. }
      rewrite (proj2 (Z.ltb_lt _ _)) by lia. lia. }
  assert (0 < Z.of_nat (length bs)) by (destruct bs; [congruence|simpl; lia]).
  rewrite (strnlen_from A m Hm fuel s e (s + Z.of_nat i0)); try lia.
  - f_equal. subst i0. destruct (index_of 0 bs) as [i|] eqn:E; [lia|].
    destruct Hor as [Hor|[? Hor]]; [lia|discriminate].
  - eapply passes_sub with (hi := s + Z.of_nat i0); [|reflexivity|lia].
    apply passes_prefix with bs; [assumption|lia|]. intros j b Hj Hl. simpl.
    destruct (Z.eqb_spec b 0) as [->|]; [|reflexivity]. exfalso. subst i0.
    destruct (index_of 0 bs) as [i|] eqn:E.
    + apply index_of_Some in E as [_ E]. exact (E j 0 Hj Hl eq_refl).
    + rewrite index_of_None in E. exact (E j 0 Hl eq_refl).
  - intros Hlt. subst i0. destruct (index_of 0 bs) as [i|] eqn:E.
    + apply index_of_Some in E as [E _]. apply hits_at with bs 0; auto.
    + destruct Hor as [Hor|[? Hor]]; [lia|discriminate].
  - eapply mapped_word_end; [|exact Hmap].
    destruct (index_of 0 bs) as [i|] eqn:E; [|destruct Hor as [Hor|[? Hor]]; [lia|discriminate]].
    subst i0. simpl. apply index_of_Some in E as [E _]. apply lookup_lt_Some in E. lia.
  - intros a Ha. apply Hmap. pose proof (word_end_ge A (align_up A s - wordsize A) s) as Hwe.
    pose proof (align_up_bounds A s) as [Hal Hbd].
    rewrite <- Zminus_mod_idemp_r, Z_mod_same_full, Z.sub_0_r in Hwe.
    specialize (Hwe Hal ltac:(lia)).
    assert (word_end A s <= word_end A (s + Z.of_nat (length bs) - 1)).
    { unfold word_end. pose proof (wordsize_pos A). apply Z.mul_le_mono_nonneg_l; [lia|].
      apply Z.add_le_mono_r, Z.div_le_mono; lia. }
    lia.
Qed.

Lemma strnlen_witness :
  strnlen (Arch true false) (mem_of 16 [104; 101; 108; 108; 111; 0; 7; 7; 7; 7; 7; 7; 7; 7; 7; 7]) 17 16 1000 = Return 5.
Proof.
  apply (strnlen_correct (Arch true false) (mem_of 16 [104; 101; 108; 108; 111; 0; 7; 7; 7; 7; 7; 7; 7; 7; 7; 7]) 16 1000 [104; 101; 108; 108; 111; 0; 7; 7; 7; 7; 7; 7; 7; 7; 7; 7] 17).
  - wf_mem_of.
  - apply mem_of_at; [lia|reflexivity].
  - discriminate.
  - lia.
  - vm_compute. reflexivity.
  - vm_compute. split; [discriminate|reflexivity].
  - right. eexists. reflexivity.
  - apply mem_of_mapped; [lia|]. vm_compute. discriminate.
  - simpl. lia.
Defined.

(** The test of strnlen fires on every byte above 128 as well, not only on 128. *)
Example strnlen_test_misfires :
  strnlen_test (Arch false false) 0x41414141 = false /\ strnlen_test (Arch false false) 0x41418141 = true.
Proof. split; reflexivity. Qed.
