(* ===== verification/StringCopy.v ===== *)
(** Block copying and filling: memcpy, memmove, memset of string/ with the word
    copy loops of string/wordcopy.c and the macros of sysdeps/generic/memcopy.h.

    The word copy loops are software pipelined: each step loads a later source
    word before it stores an earlier one, and the loops are entered in the middle
    of the unrolled body.  When the source is not aligned, two neighbouring source
    words are merged by shifts.  The theorems show that the result is the exact
    byte copy, for overlapping blocks too where the routine promises it. *)
From S2P Require Import Prelude CMem.

Section Copy.
Context (A : arch).

(** Element [i] of the [op_t] array at [p]. *)
Definition op_load {R} (m : mem) (p i : Z) : flow R Z := load_word A m (p + i * wordsize A).

Definition op_store {R} (m : mem) (p i v : Z) : flow R mem := store_word A m (p + i * wordsize A) v.

(** The constant OP_T_THRES of memcopy.h. *)
Definition OP_T_THRES : Z := 16.

Definition small_thres : bool := OP_T_THRES <=? 3 * wordsize A.

Definition MERGE (w0 sh_1 w1 sh_2 : Z) : Z :=
  if big_endian A
  then Z.lor (uwrap (wordbits A) (Z.shiftl w0 sh_1)) (Z.shiftr w1 sh_2)
  else Z.lor (Z.shiftr w0 sh_1) (uwrap (wordbits A) (Z.shiftl w1 sh_2)).

Fixpoint BYTE_COPY_FWD {R} (nbytes : nat) (m : mem) (dst_bp src_bp : Z) : flow R mem :=
  match nbytes with
  | O => Next m
  | S nbytes =>
      let! x := load8 m src_bp in
      let! m := store8 m dst_bp x in
      BYTE_COPY_FWD nbytes m (dst_bp + 1) (src_bp + 1)
  end.

Fixpoint BYTE_COPY_BWD {R} (nbytes : nat) (m : mem) (dst_ep src_ep : Z) : flow R mem :=
  match nbytes with
  | O => Next m
  | S nbytes =>
      let! x := load8 m (src_ep - 1) in
      let! m := store8 m (dst_ep - 1) x in
      BYTE_COPY_BWD nbytes m (dst_ep - 1) (src_ep - 1)
  end.

(** ** _wordcopy_fwd_aligned

    The unrolled statements [do8], ..., [do1] are the steps [j] = 0, ..., 7; the
    even ones load [a0] and store [a1], the odd ones the other way round. *)
Fixpoint fwd_steps {R} (n : nat) (j : Z) (m : mem) (a0 a1 dstp srcp : Z) : flow R (mem * Z * Z) :=
  match n with
  | O => Next (m, a0, a1)
  | S n =>
      if Z.even j then
        let! a0 := op_load m srcp j in
        let! m := op_store m dstp j a1 in
        fwd_steps n (j + 1) m a0 a1 dstp srcp
      else
        let! a1 := op_load m srcp j in
        let! m := op_store m dstp j a0 in
        fwd_steps n (j + 1) m a0 a1 dstp srcp
  end.

(** The do-while loop entered at step [j], and the store at [do0]. *)
Fixpoint fwd_loop {R} (fuel : nat) (j : Z) (m : mem) (a0 a1 dstp srcp len : Z) : flow R mem :=
  match fuel with
  | O => NoFuel
  | S fuel =>
      let! '(m, a0, a1) := fwd_steps (Z.to_nat (8 - j)) j m a0 a1 dstp srcp in
      let srcp := srcp + 8 * wordsize A in
      let dstp := dstp + 8 * wordsize A in
      let len := uwrap (wordbits A) (len - 8) in
      if len =? 0 then op_store m dstp 0 a1
      else fwd_loop fuel 0 m a0 a1 dstp srcp len
  end.

Definition wordcopy_fwd_aligned {R} (m : mem) (dstp srcp len : Z) : flow R mem :=
  let W := wordsize A in
  let fuel := S (Z.to_nat len) in
  match len mod 8 with
  | 2 => let! a0 := op_load m srcp 0 in
         fwd_loop fuel 7 m a0 0 (dstp - 7 * W) (srcp - 6 * W) (len + 6)
  | 3 => let! a1 := op_load m srcp 0 in
         fwd_loop fuel 6 m 0 a1 (dstp - 6 * W) (srcp - 5 * W) (len + 5)
  | 4 => let! a0 := op_load m srcp 0 in
         fwd_loop fuel 5 m a0 0 (dstp - 5 * W) (srcp - 4 * W) (len + 4)
  | 5 => let! a1 := op_load m srcp 0 in
         fwd_loop fuel 4 m 0 a1 (dstp - 4 * W) (srcp - 3 * W) (len + 3)
  | 6 => let! a0 := op_load m srcp 0 in
         fwd_loop fuel 3 m a0 0 (dstp - 3 * W) (srcp - 2 * W) (len + 2)
  | 7 => let! a1 := op_load m srcp 0 in
         fwd_loop fuel 2 m 0 a1 (dstp - 2 * W) (srcp - 1 * W) (len + 1)
  | 0 => if small_thres && (len =? 0) then Next m else
         let! a0 := op_load m srcp 0 in
         fwd_loop fuel 1 m a0 0 (dstp - 1 * W) (srcp - 0 * W) len
  | _ => let! a1 := op_load m srcp 0 in
         let srcp := srcp + 1 * W in
         let len := len - 1 in
         if small_thres && (len =? 0) then op_store m dstp 0 a1
         else fwd_loop fuel 0 m 0 a1 dstp srcp len
  end.

(** ** _wordcopy_fwd_dest_aligned

    The steps [do4], ..., [do1] rotate through four registers. *)
Fixpoint fwd_da_steps {R} (n : nat) (j : Z) (m : mem) (a0 a1 a2 a3 sh_1 sh_2 dstp srcp : Z) :
    flow R (mem * Z * Z * Z * Z) :=
  match n with
  | O => Next (m, a0, a1, a2, a3)
  | S n =>
      match j with
      | 0 => let! a0 := op_load m srcp 0 in
             let! m := op_store m dstp 0 (MERGE a2 sh_1 a3 sh_2) in
             fwd_da_steps n 1 m a0 a1 a2 a3 sh_1 sh_2 dstp srcp
      | 1 => let! a1 := op_load m srcp 1 in
             let! m := op_store m dstp 1 (MERGE a3 sh_1 a0 sh_2) in
             fwd_da_steps n 2 m a0 a1 a2 a3 sh_1 sh_2 dstp srcp
      | 2 => let! a2 := op_load m srcp 2 in
             let! m := op_store m dstp 2 (MERGE a0 sh_1 a1 sh_2) in
             fwd_da_steps n 3 m a0 a1 a2 a3 sh_1 sh_2 dstp srcp
      | _ => let! a3 := op_load m srcp 3 in
             let! m := op_store m dstp 3 (MERGE a1 sh_1 a2 sh_2) in
             fwd_da_steps n 4 m a0 a1 a2 a3 sh_1 sh_2 dstp srcp
      end
  end.

Fixpoint fwd_da_loop {R} (fuel : nat) (j : Z) (m : mem) (a0 a1 a2 a3 sh_1 sh_2 dstp srcp len : Z) :
    flow R mem :=
  match fuel with
  | O => NoFuel
  | S fuel =>
      let! '(m, a0, a1, a2, a3) :=
        fwd_da_steps (Z.to_nat (4 - j)) j m a0 a1 a2 a3 sh_1 sh_2 dstp srcp in
      let srcp := srcp + 4 * wordsize A in
      let dstp := dstp + 4 * wordsize A in
      let len := uwrap (wordbits A) (len - 4) in
      if len =? 0 then op_store m dstp 0 (MERGE a2 sh_1 a3 sh_2)
      else fwd_da_loop fuel 0 m a0 a1 a2 a3 sh_1 sh_2 dstp srcp len
  end.

Definition wordcopy_fwd_dest_aligned {R} (m : mem) (dstp srcp len : Z) : flow R mem :=
  let W := wordsize A in
  let fuel := S (Z.to_nat len) in
  let sh_1 := 8 * (srcp mod W) in
  let sh_2 := 8 * W - sh_1 in
  let srcp := Z.land srcp (- W) in
  match len mod 4 with
  | 2 => let! a1 := op_load m srcp 0 in
         let! a2 := op_load m srcp 1 in
         fwd_da_loop fuel 3 m 0 a1 a2 0 sh_1 sh_2 (dstp - 3 * W) (srcp - 1 * W) (len + 2)
  | 3 => let! a0 := op_load m srcp 0 in
         let! a1 := op_load m srcp 1 in
         fwd_da_loop fuel 2 m a0 a1 0 0 sh_1 sh_2 (dstp - 2 * W) (srcp - 0 * W) (len + 1)
  | 0 => if small_thres && (len =? 0) then Next m else
         let! a3 := op_load m srcp 0 in
         let! a0 := op_load m srcp 1 in
         fwd_da_loop fuel 1 m a0 0 0 a3 sh_1 sh_2 (dstp - 1 * W) (srcp + 1 * W) (len + 0)
  | _ => let! a2 := op_load m srcp 0 in
         let! a3 := op_load m srcp 1 in
         let srcp := srcp + 2 * W in
         let len := len - 1 in
         if small_thres && (len =? 0) then op_store m dstp 0 (MERGE a2 sh_1 a3 sh_2)
         else fwd_da_loop fuel 0 m 0 0 a2 a3 sh_1 sh_2 dstp srcp len
  end.

(** ** _wordcopy_bwd_aligned: step [j] works on index [7 - j]. *)
Fixpoint bwd_steps {R} (n : nat) (j : Z) (m : mem) (a0 a1 dstp srcp : Z) : flow R (mem * Z * Z) :=
  match n with
  | O => Next (m, a0, a1)
  | S n =>
      if Z.even j then
        let! a0 := op_load m srcp (7 - j) in
        let! m := op_store m dstp (7 - j) a1 in
        bwd_steps n (j + 1) m a0 a1 dstp srcp
      else
        let! a1 := op_load m srcp (7 - j) in
        let! m := op_store m dstp (7 - j) a0 in
        bwd_steps n (j + 1) m a0 a1 dstp srcp
  end.

Fixpoint bwd_loop {R} (fuel : nat) (j : Z) (m : mem) (a0 a1 dstp srcp len : Z) : flow R mem :=
  match fuel with
  | O => NoFuel
  | S fuel =>
      let! '(m, a0, a1) := bwd_steps (Z.to_nat (8 - j)) j m a0 a1 dstp srcp in
      let srcp := srcp - 8 * wordsize A in
      let dstp := dstp - 8 * wordsize A in
      let len := uwrap (wordbits A) (len - 8) in
      if len =? 0 then op_store m dstp 7 a1
      else bwd_loop fuel 0 m a0 a1 dstp srcp len
  end.

Definition wordcopy_bwd_aligned {R} (m : mem) (dstp srcp len : Z) : flow R mem :=
  let W := wordsize A in
  let fuel := S (Z.to_nat len) in
  match len mod 8 with
  | 2 => let! a0 := op_load m (srcp - 2 * W) 1 in
         bwd_loop fuel 7 m a0 0 (dstp - 1 * W) (srcp - 2 * W) (len + 6)
  | 3 => let! a1 := op_load m (srcp - 3 * W) 2 in
         bwd_loop fuel 6 m 0 a1 (dstp - 2 * W) (srcp - 3 * W) (len + 5)
  | 4 => let! a0 := op_load m (srcp - 4 * W) 3 in
         bwd_loop fuel 5 m a0 0 (dstp - 3 * W) (srcp - 4 * W) (len + 4)
  | 5 => let! a1 := op_load m (srcp - 5 * W) 4 in
         bwd_loop fuel 4 m 0 a1 (dstp - 4 * W) (srcp - 5 * W) (len + 3)
  | 6 => let! a0 := op_load m (srcp - 6 * W) 5 in
         bwd_loop fuel 3 m a0 0 (dstp - 5 * W) (srcp - 6 * W) (len + 2)
  | 7 => let! a1 := op_load m (srcp - 7 * W) 6 in
         bwd_loop fuel 2 m 0 a1 (dstp - 6 * W) (srcp - 7 * W) (len + 1)
  | 0 => if small_thres && (len =? 0) then Next m else
         let! a0 := op_load m (srcp - 8 * W) 7 in
         bwd_loop fuel 1 m a0 0 (dstp - 7 * W) (srcp - 8 * W) len
  | _ => let! a1 := op_load m (srcp - 9 * W) 8 in
         let srcp := srcp - 9 * W in
         let dstp := dstp - 8 * W in
         let len := len - 1 in
         if small_thres && (len =? 0) then op_store m dstp 7 a1
         else bwd_loop fuel 0 m 0 a1 dstp srcp len
  end.

(** ** _wordcopy_bwd_dest_aligned *)
Fixpoint bwd_da_steps {R} (n : nat) (j : Z) (m : mem) (a0 a1 a2 a3 sh_1 sh_2 dstp srcp : Z) :
    flow R (mem * Z * Z * Z * Z) :=
  match n with
  | O => Next (m, a0, a1, a2, a3)
  | S n =>
      match j with
      | 0 => let! a3 := op_load m srcp 3 in
             let! m := op_store m dstp 3 (MERGE a0 sh_1 a1 sh_2) in
             bwd_da_steps n 1 m a0 a1 a2 a3 sh_1 sh_2 dstp srcp
      | 1 => let! a2 := op_load m srcp 2 in
             let! m := op_store m dstp 2 (MERGE a3 sh_1 a0 sh_2) in
             bwd_da_steps n 2 m a0 a1 a2 a3 sh_1 sh_2 dstp srcp
      | 2 => let! a1 := op_load m srcp 1 in
             let! m := op_store m dstp 1 (MERGE a2 sh_1 a3 sh_2) in
             bwd_da_steps n 3 m a0 a1 a2 a3 sh_1 sh_2 dstp srcp
      | _ => let! a0 := op_load m srcp 0 in
             let! m := op_store m dstp 0 (MERGE a1 sh_1 a2 sh_2) in
             bwd_da_steps n 4 m a0 a1 a2 a3 sh_1 sh_2 dstp srcp
      end
  end.

Fixpoint bwd_da_loop {R} (fuel : nat) (j : Z) (m : mem) (a0 a1 a2 a3 sh_1 sh_2 dstp srcp len : Z) :
    flow R mem :=
  match fuel with
  | O => NoFuel
  | S fuel =>
      let! '(m, a0, a1, a2, a3) :=
        bwd_da_steps (Z.to_nat (4 - j)) j m a0 a1 a2 a3 sh_1 sh_2 dstp srcp in
      let srcp := srcp - 4 * wordsize A in
      let dstp := dstp - 4 * wordsize A in
      let len := uwrap (wordbits A) (len - 4) in
      if len =? 0 then op_store m dstp 3 (MERGE a0 sh_1 a1 sh_2)
      else bwd_da_loop fuel 0 m a0 a1 a2 a3 sh_1 sh_2 dstp srcp len
  end.

Definition wordcopy_bwd_dest_aligned {R} (m : mem) (dstp srcp len : Z) : flow R mem :=
  let W := wordsize A in
  let fuel := S (Z.to_nat len) in
  let sh_1 := 8 * (srcp mod W) in
  let sh_2 := 8 * W - sh_1 in
  let srcp := Z.land srcp (- W) + W in
  match len mod 4 with
  | 2 => let! a2 := op_load m (srcp - 3 * W) 2 in
         let! a1 := op_load m (srcp - 3 * W) 1 in
         bwd_da_loop fuel 3 m 0 a1 a2 0 sh_1 sh_2 (dstp - 1 * W) (srcp - 3 * W) (len + 2)
  | 3 => let! a3 := op_load m (srcp - 4 * W) 3 in
         let! a2 := op_load m (srcp - 4 * W) 2 in
         bwd_da_loop fuel 2 m 0 0 a2 a3 sh_1 sh_2 (dstp - 2 * W) (srcp - 4 * W) (len + 1)
  | 0 => if small_thres && (len =? 0) then Next m else
         let! a0 := op_load m (srcp - 5 * W) 4 in
         let! a3 := op_load m (srcp - 5 * W) 3 in
         bwd_da_loop fuel 1 m a0 0 0 a3 sh_1 sh_2 (dstp - 3 * W) (srcp - 5 * W) len
  | _ => let! a1 := op_load m (srcp - 6 * W) 5 in
         let! a0 := op_load m (srcp - 6 * W) 4 in
         let srcp := srcp - 6 * W in
         let dstp := dstp - 4 * W in
         let len := len - 1 in
         if small_thres && (len =? 0) then op_store m dstp 3 (MERGE a0 sh_1 a1 sh_2)
         else bwd_da_loop fuel 0 m a0 a1 0 0 sh_1 sh_2 dstp srcp len
  end.

(** ** The callers.  The macros update the pointers and leave the number of
    bytes that were not copied. *)
Definition WORD_COPY_FWD {R} (m : mem) (dst_bp src_bp nbytes : Z) : flow R (mem * Z * Z * Z) :=
  let W := wordsize A in
  let! m :=
    (if src_bp mod W =? 0
     then wordcopy_fwd_aligned m dst_bp src_bp (nbytes / W)
     else wordcopy_fwd_dest_aligned m dst_bp src_bp (nbytes / W)) in
  Next (m, dst_bp + Z.land nbytes (- W), src_bp + Z.land nbytes (- W), nbytes mod W).

Definition WORD_COPY_BWD {R} (m : mem) (dst_ep src_ep nbytes : Z) : flow R (mem * Z * Z * Z) :=
  let W := wordsize A in
  let! m :=
    (if src_ep mod W =? 0
     then wordcopy_bwd_aligned m dst_ep src_ep (nbytes / W)
     else wordcopy_bwd_dest_aligned m dst_ep src_ep (nbytes / W)) in
  Next (m, dst_ep - Z.land nbytes (- W), src_ep - Z.land nbytes (- W), nbytes mod W).

(** The body of memcpy, which is also the forward branch of memmove: align the
    destination, copy words, copy the tail. *)
Definition copy_fwd {R} (m : mem) (dstp srcp len : Z) : flow R mem :=
  let W := wordsize A in
  let! '(m, dstp, srcp, len) :=
    (if OP_T_THRES <=? len then
       let n := uwrap (wordbits A) (- dstp) mod W in
       let len := len - n in
       let! m := BYTE_COPY_FWD (Z.to_nat n) m dstp srcp in
       WORD_COPY_FWD m (dstp + n) (srcp + n) len
     else Next (m, dstp, srcp, len)) in
  BYTE_COPY_FWD (Z.to_nat len) m dstp srcp.

Definition memcpy (m : mem) (dstpp srcpp len : Z) : flow (mem * Z) Empty_set :=
  let! m := copy_fwd m dstpp srcpp len in
  Return (m, dstpp).

Definition copy_bwd {R} (m : mem) (dstp srcp len : Z) : flow R mem :=
  let W := wordsize A in
  let srcp := srcp + len in
  let dstp := dstp + len in
  let! '(m, dstp, srcp, len) :=
    (if OP_T_THRES <=? len then
       let n := dstp mod W in
       let len := len - n in
       let! m := BYTE_COPY_BWD (Z.to_nat n) m dstp srcp in
       WORD_COPY_BWD m (dstp - n) (srcp - n) len
     else Next (m, dstp, srcp, len)) in
  BYTE_COPY_BWD (Z.to_nat len) m dstp srcp.

Definition memmove (m : mem) (dest src len : Z) : flow (mem * Z) Empty_set :=
  let! m :=
    (if len <=? uwrap (wordbits A) (dest - src)
     then copy_fwd m dest src len
     else copy_bwd m dest src len) in
  Return (m, dest).

(** ** memset *)
Definition cccc (c : Z) : Z :=
  let x := u8 c in
  let x := Z.lor x (uwrap (wordbits A) (Z.shiftl x 8)) in
  let x := Z.lor x (uwrap (wordbits A) (Z.shiftl x 16)) in
  if 4 <? wordsize A
  then Z.lor x (uwrap (wordbits A) (Z.shiftl (uwrap (wordbits A) (Z.shiftl x 16)) 16)) else x.

Fixpoint set_align {R} (fuel : nat) (m : mem) (c dstp len : Z) : flow R (mem * Z * Z) :=
  if dstp mod wordsize A =? 0 then Next (m, dstp, len) else
  match fuel with
  | O => NoFuel
  | S fuel =>
      let! m := store8 m dstp c in
      set_align fuel m c (dstp + 1) (len - 1)
  end.

(** [k] consecutive stores of the pattern, the unrolled body for [k] = 8. *)
Fixpoint set_words {R} (k : nat) (i : Z) (m : mem) (v dstp : Z) : flow R mem :=
  match k with
  | O => Next m
  | S k =>
      let! m := op_store m dstp i v in
      set_words k (i + 1) m v dstp
  end.

(** [while (xlen > 0) { k stores; dstp += k * OPSIZ; xlen -= 1; }] *)
Fixpoint set_loop {R} (k xlen : nat) (m : mem) (v dstp : Z) : flow R (mem * Z) :=
  match xlen with
  | O => Next (m, dstp)
  | S xlen =>
      let! m := set_words k 0 m v dstp in
      set_loop k xlen m v (dstp + Z.of_nat k * wordsize A)
  end.

Fixpoint set_tail {R} (len : nat) (m : mem) (c dstp : Z) : flow R mem :=
  match len with
  | O => Next m
  | S len =>
      let! m := store8 m dstp c in
      set_tail len m c (dstp + 1)
  end.

Definition memset (m : mem) (dstpp c len : Z) : flow (mem * Z) Empty_set :=
  let W := wordsize A in
  let! '(m, dstp, len) :=
    (if 8 <=? len then
       let! '(m, dstp, len) := set_align (wordlen A) m c dstpp len in
       let! '(m, dstp) := set_loop 8 (Z.to_nat (len / (W * 8))) m (cccc c) dstp in
       let len := len mod (W * 8) in
       let! '(m, dstp) := set_loop 1 (Z.to_nat (len / W)) m (cccc c) dstp in
       let len := len mod W in
       Next (m, dstp, len)
     else Next (m, dstpp, len)) in
  let! m := set_tail (Z.to_nat len) m c dstp in
  Return (m, dstpp).

End Copy.

(** * Correctness *)

(** [m] is [M0] with the block [src, src + len) copied to [dst], as far as the
    offsets in [l, h) are concerned. *)
Definition copied (M0 m : mem) (dst src l h : Z) : Prop :=
  forall a, m !! a = if decide (dst + l <= a < dst + h) then M0 !! (src + (a - dst)) else M0 !! a.

(** [v] is a word read at [p] whose bytes at addresses in [lo, hi) are those of [M0]. *)
Definition holds (A : arch) (M0 : mem) (lo hi p v : Z) : Prop :=
  exists bs, length bs = wordlen A /\ Forall is_byte bs /\ v = word_of_bytes A bs /\
    forall i b, bs !! i = Some b -> lo <= p + Z.of_nat i < hi -> M0 !! (p + Z.of_nat i) = Some b.

Lemma holds_sub A M0 lo hi lo' hi' p v :
  holds A M0 lo hi p v -> lo <= lo' -> hi' <= hi -> holds A M0 lo' hi' p v.
Proof.
  intros (bs & Hl & Hb & -> & H) ? ?. exists bs. repeat split; auto.
  intros i b Hi Hr. apply H; [assumption|lia].
Qed.

Lemma copied_refl M0 dst src x : copied M0 M0 dst src x x.
Proof. intros a. rewrite decide_False by lia. reflexivity. Qed.

(** Every word that holds a byte of the block [p, p + n) is mapped. *)
Definition words_mapped (A : arch) (m : mem) (p n : Z) : Prop :=
  forall a b, p <= b < p + n -> a / wordsize A = b / wordsize A -> is_Some (m !! a).

Lemma words_mapped_block A m p n : words_mapped A m p n -> mapped m p (p + n).
Proof. intros H a Ha. apply (H a a); [assumption|reflexivity]. Qed.

(** ** MERGE extracts the word that straddles two neighbouring ones *)

Lemma lor_disjoint a b k : 0 <= k -> 0 <= a < 2 ^ k -> Z.lor a (b * 2 ^ k) = a + b * 2 ^ k.
Proof.
  intros Hk Ha. assert (Z.land a (b * 2 ^ k) = 0) as H.
  { apply Z.bits_inj'. intros n Hn. rewrite Z.land_spec, Z.bits_0, <- Z.shiftl_mul_pow2, Z.shiftl_spec by lia.
    destruct (decide (n < k)); [rewrite (Z.testbit_neg_r b) by lia; apply andb_false_r|].
    rewrite <- (Z.mod_small a (2 ^ k)), Z.mod_pow2_bits_high by lia. reflexivity. }
  rewrite <- Z.lxor_lor, <- Z.add_nocarry_lxor by assumption. reflexivity.
Qed.

(** Little-endian case: the low part of the result is the high part of [w0]. *)
Lemma merge_le (x y u v : list Z) :
  Forall is_byte x -> Forall is_byte y -> Forall is_byte u -> Forall is_byte v ->
  length x = length u -> length y = length v ->
  let o := 8 * Z.of_nat (length x) in
  let wb := 8 * Z.of_nat (length (x ++ y)) in
  Z.lor (Z.shiftr (le_val (x ++ y)) o) (uwrap wb (Z.shiftl (le_val (u ++ v)) (wb - o)))
  = le_val (y ++ u).
Proof.
  intros Hx Hy Hu Hv Hxu Hyv. simpl. rewrite length_app.
  pose proof (le_val_bound _ Hx). pose proof (le_val_bound _ Hy). pose proof (le_val_bound _ Hu).
  rewrite <- Hxu in H1. rewrite pow256 in H, H0, H1 by lia.
  rewrite !le_val_app, !pow256, <- Hxu by lia.
  rewrite Z.shiftr_div_pow2, Z.shiftl_mul_pow2 by lia.
  replace ((le_val x + 2 ^ (8 * Z.of_nat (length x)) * le_val y) / 2 ^ (8 * Z.of_nat (length x)))
    with (le_val y) by (apply Z.div_unique with (le_val x); lia).
  replace (8 * Z.of_nat (length x + length y) - 8 * Z.of_nat (length x))
    with (8 * Z.of_nat (length y)) by lia.
  replace (8 * Z.of_nat (length x + length y))
    with (8 * Z.of_nat (length x) + 8 * Z.of_nat (length y)) by lia.
  unfold uwrap. rewrite Z.pow_add_r, Z.mul_mod_distr_r by (try apply Z.pow_nonzero; lia).
  replace ((le_val u + 2 ^ (8 * Z.of_nat (length x)) * le_val v) mod 2 ^ (8 * Z.of_nat (length x)))
    with (le_val u) by (apply Z.mod_unique with (le_val v); lia).
  rewrite lor_disjoint by lia. lia.
Qed.

Lemma MERGE_bytes A (x y u v : list Z) :
  Forall is_byte (x ++ y) -> Forall is_byte (u ++ v) ->
  length (x ++ y) = wordlen A -> length (u ++ v) = wordlen A -> length x = length u ->
  MERGE A (word_of_bytes A (x ++ y)) (8 * Z.of_nat (length x))
          (word_of_bytes A (u ++ v)) (8 * wordsize A - 8 * Z.of_nat (length x))
  = word_of_bytes A (y ++ u).
Proof.
  intros [Hx Hy]%Forall_app [Hu Hv]%Forall_app Hxy Huv Hxu.
  assert (length y = length v) as Hyv by (rewrite length_app in *; lia).
  unfold MERGE, wordbits, word_of_bytes, be_val. rewrite <- wordlen_wordsize, <- Hxy.
  destruct (big_endian A); [|apply merge_le; assumption].
  pose proof (merge_le (rev v) (rev u) (rev y) (rev x)) as H. cbv zeta in H.
  rewrite <- !rev_app_distr, !length_rev, length_app in H. rewrite length_app, Z.lor_comm.
  rewrite <- H by (auto using rev_Forall).
  replace (length u + length v)%nat with (length x + length y)%nat by lia.
  do 2 f_equal; f_equal; lia.
Qed.

Lemma holds_merge A M0 lo hi p v0 v1 s :
  holds A M0 lo hi p v0 -> holds A M0 lo hi (p + wordsize A) v1 ->
  p <= s < p + wordsize A -> lo <= s -> s + wordsize A <= hi ->
  holds A M0 lo hi s (MERGE A v0 (8 * (s - p)) v1 (8 * wordsize A - 8 * (s - p))).
Proof.
  intros (b0 & Hl0 & Hb0 & -> & H0) (b1 & Hl1 & Hb1 & -> & H1) Hs Hlo Hhi.
  pose proof (wordlen_wordsize A) as HW.
  destruct (split_front b0 (Z.to_nat (s - p))) as (x & y & -> & Hx); [lia|].
  destruct (split_front b1 (Z.to_nat (s - p))) as (u & v & -> & Hu); [lia|].
  replace (s - p) with (Z.of_nat (length x)) by lia.
  rewrite MERGE_bytes by (assumption || congruence).
  exists (y ++ u). rewrite length_app in *.
  split; [lia|]. split; [apply Forall_app in Hb0 as [_ ?], Hb1 as [? _]; apply Forall_app; auto|].
  split; [reflexivity|]. intros i b Hi Hr. apply lookup_app_Some in Hi as [Hi|[Hge Hi]].
  - replace (s + Z.of_nat i) with (p + Z.of_nat (length x + i)) in * by lia.
    apply H0; [|lia]. rewrite lookup_app_r by lia. rewrite <- Hi. f_equal. lia.
  - replace (s + Z.of_nat i) with (p + wordsize A + Z.of_nat (i - length y)) in * by lia.
    apply H1; [|lia]. rewrite lookup_app_l by (apply lookup_lt_Some in Hi; lia). assumption.
Qed.

Section Block.
Context (A : arch) (M0 : mem) (dst src len : Z).
Context (Hwf : wf_mem M0).
Context (Hdst : mapped M0 dst (dst + len)) (Hsrc : mapped M0 src (src + len)).
Let W := wordsize A.

Lemma copied_dom m l h a :
  copied M0 m dst src l h -> 0 <= l -> h <= len -> is_Some (M0 !! a) -> is_Some (m !! a).
Proof.
  intros Hc Hl Hh Ha. rewrite Hc. destruct (decide _); [|assumption]. apply Hsrc. lia.
Qed.

Lemma copied_mapped m l h p q :
  copied M0 m dst src l h -> 0 <= l -> h <= len -> mapped M0 p q -> mapped m p q.
Proof. intros Hc ? ? Hm a Ha. eapply copied_dom; eauto. Qed.

Lemma copied_wf m l h : copied M0 m dst src l h -> wf_mem m.
Proof.
  intros Hc a b Hb. rewrite Hc in Hb. destruct (decide _); eapply wf_mem_lookup; eauto.
Qed.

(** Loading an aligned word that the copy has not touched inside [lo, hi). *)
Lemma load_holds {R} m l h lo hi p :
  copied M0 m dst src l h -> 0 <= l -> h <= len ->
  p mod W = 0 -> mapped M0 p (p + W) ->
  (forall a, lo <= a < hi -> m !! a = M0 !! a) ->
  exists v, @load_word R A m p = Next v /\ holds A M0 lo hi p v.
Proof.
  intros Hc Hl Hh Hal Hmap Heq.
  destruct (mapped_bytes_at m p (wordlen A)) as (bs & Hlb & Hbs).
  { rewrite wordlen_wordsize. eapply copied_mapped; eauto. }
  exists (word_of_bytes A bs). split; [apply load_word_spec; assumption|].
  exists bs. split; [assumption|]. split; [apply (bytes_at_wf m p); [eapply copied_wf; eassumption|assumption]|].
  split; [reflexivity|]. intros i b Hi Hr. rewrite <- Heq by assumption. apply Hbs. assumption.
Qed.

(** Storing the word that belongs at offset [x]. *)
Lemma store_holds {R} m l h lo hi x v :
  copied M0 m dst src l h -> 0 <= l -> h <= len -> 0 <= x -> x + W <= len ->
  (dst + x) mod W = 0 -> holds A M0 lo hi (src + x) v -> lo <= src + x -> src + x + W <= hi ->
  exists m', @store_word R A m (dst + x) v = Next m' /\
    forall a, m' !! a = if decide (dst + x <= a < dst + (x + W)) then M0 !! (src + (a - dst)) else m !! a.
Proof.
  intros Hc Hl Hh Hx Hxl Hal (bs & Hlb & Hb & -> & Hbs) Hlo Hhi.
  pose proof (wordlen_wordsize A) as HW. fold W in HW.
  unfold store_word. fold W. rewrite Hal. simpl. rewrite bytes_of_word_of_bytes by assumption.
  destruct (@store_bytes_spec R m (dst + x) bs) as (m' & -> & Hm'); [|assumption|].
  { eapply copied_mapped; eauto. intros a Ha. apply Hdst. lia. }
  exists m'. split; [reflexivity|]. intros a. rewrite Hm', Hlb, HW.
  replace (dst + x + W) with (dst + (x + W)) by lia.
  destruct (decide _) as [Ha|]; [|reflexivity].
  destruct (lookup_lt_is_Some_2 bs (Z.to_nat (a - (dst + x)))) as [b Hbb]; [lia|].
  rewrite Hbb. symmetry.
  replace (src + (a - dst)) with (src + x + Z.of_nat (Z.to_nat (a - (dst + x)))) by lia.
  apply Hbs; [assumption|lia].
Qed.

Lemma copied_extend m m' l h x n :
  copied M0 m dst src l h -> 0 <= n -> l <= h ->
  (x = h \/ x + n = l) ->
  (forall a, m' !! a = if decide (dst + x <= a < dst + (x + n)) then M0 !! (src + (a - dst)) else m !! a) ->
  copied M0 m' dst src (if decide (x = h) then l else x) (if decide (x = h) then x + n else h).
Proof.
  intros Hc Hn Hlh Hx Hm' a. rewrite Hm', (Hc a).
  destruct (decide (x = h)); repeat destruct (decide _); try lia; reflexivity.
Qed.

(** All words that hold a byte of the source are mapped. *)
Context (Hsrcw : words_mapped A M0 src len).

Lemma src_word_mapped p : 0 < len -> p mod W = 0 -> src < p + W -> p < src + len -> mapped M0 p (p + W).
Proof.
  intros Hl Hp H1 H2 a Ha. apply (Hsrcw a (Z.max p src)); [pose proof (wordsize_pos A); lia|].
  revert Hp H1 H2 Ha. subst W. clear.
  destruct (wordsize_cases A) as [E|E]; rewrite E; intros; Z.div_mod_to_equations; lia.
Qed.

Lemma mod_step p : p mod W = 0 -> (p + W) mod W = 0.
Proof.
  intros H. pose proof (wordsize_pos A) as HW. fold W in HW.
  rewrite <- Z.add_mod_idemp_r, Z_mod_same_full, Z.add_0_r by lia. assumption.
Qed.

Lemma land_align p : Z.land p (- W) = p - p mod W.
Proof.
  subst W. unfold wordsize. destruct (long64 A).
  - change (Z.opp 8) with (Z.lnot (Z.ones 3)).
    rewrite <- Z.ldiff_land, Z.ldiff_ones_r, Z.shiftl_mul_pow2, Z.shiftr_div_pow2 by lia.
    change (2 ^ 3) with 8. Z.div_mod_to_equations. lia.
  - change (Z.opp 4) with (Z.lnot (Z.ones 2)).
    rewrite <- Z.ldiff_land, Z.ldiff_ones_r, Z.shiftl_mul_pow2, Z.shiftr_div_pow2 by lia.
    change (2 ^ 2) with 4. Z.div_mod_to_equations. lia.
Qed.

(** ** Forward copying *)

Section Fwd.

(** Source bytes that are still to be copied have not been overwritten. *)
Context (Hfwd : dst <= src \/ src + len <= dst).

Lemma fwd_intact m x a :
  copied M0 m dst src 0 x -> x <= len -> src + x <= a < src + len -> m !! a = M0 !! a.
Proof. intros Hc Hx Ha. rewrite Hc, decide_False by lia. reflexivity. Qed.

Lemma fwd_store {R} m x v :
  copied M0 m dst src 0 x -> 0 <= x -> x + W <= len -> (dst + x) mod W = 0 ->
  holds A M0 (src + x) (src + len) (src + x) v ->
  exists m', @store_word R A m (dst + x) v = Next m' /\ copied M0 m' dst src 0 (x + W).
Proof.
  intros Hc Hx Hxl Hal Hv. pose proof (wordsize_pos A) as HW. fold W in HW.
  destruct (@store_holds R m 0 x (src + x) (src + len) x v) as (m' & -> & Hm'); auto; try lia.
  exists m'. split; [reflexivity|].
  pose proof (copied_extend m m' 0 x x W Hc ltac:(lia) ltac:(lia) ltac:(lia) Hm') as H.
  rewrite !decide_True in H by reflexivity. exact H.
Qed.

Lemma BYTE_COPY_FWD_spec {R} n m x :
  copied M0 m dst src 0 x -> 0 <= x -> x + Z.of_nat n <= len ->
  exists m', @BYTE_COPY_FWD R n m (dst + x) (src + x) = Next m' /\
    copied M0 m' dst src 0 (x + Z.of_nat n).
Proof.
  revert m x. induction n as [|n IH]; intros m x Hc Hx Hn.
  - exists m. split; [reflexivity|]. rewrite Z.add_0_r. assumption.
  - cbn [BYTE_COPY_FWD]. destruct (Hsrc (src + x)) as [b Hb]; [lia|].
    rewrite (load8_spec m (src + x) b) by (rewrite (fwd_intact m x) by (auto; lia); assumption).
    simpl flow_bind. rewrite store8_spec; [|eapply copied_dom; eauto; [lia|lia|apply Hdst; lia]|eapply wf_mem_lookup; eauto].
    simpl flow_bind. destruct (IH (<[dst + x := b]> m) (x + 1)) as (m' & H1 & H2); try lia.
    { pose proof (copied_extend m (<[dst + x := b]> m) 0 x x 1 Hc ltac:(lia) ltac:(lia) ltac:(lia)) as H.
      rewrite !decide_True in H by reflexivity. apply H. intros a.
      destruct (Z.eq_dec a (dst + x)) as [->|].
      - rewrite lookup_insert_eq, decide_True by lia. rewrite <- Hb. f_equal. lia.
      - rewrite lookup_insert_ne, decide_False by lia. reflexivity. }
    exists m'. rewrite !Z.add_assoc in H1. split; [assumption|].
    replace (x + Z.of_nat (S n)) with (x + 1 + Z.of_nat n) by lia. assumption.
Qed.

(** One pipelined step of the aligned loop. *)
Lemma fwd_pipe_step {R} m x pend :
  copied M0 m dst src 0 x -> 0 <= x -> x + 2 * W <= len ->
  (dst + x) mod W = 0 -> (src + x) mod W = 0 ->
  holds A M0 (src + x) (src + len) (src + x) pend ->
  exists v m', @load_word R A m (src + x + W) = Next v /\ @store_word R A m (dst + x) pend = Next m' /\
    copied M0 m' dst src 0 (x + W) /\ holds A M0 (src + (x + W)) (src + len) (src + (x + W)) v.
Proof.
  intros Hc Hx Hxl Hd Hs Hp. pose proof (wordsize_pos A) as HW. fold W in HW.
  destruct (@load_holds R m 0 x (src + x) (src + len) (src + x + W)) as (v & Hv & Hvh); auto; try lia.
  - rewrite <- Z.add_mod_idemp_r, Z_mod_same_full, Z.add_0_r by lia. assumption.
  - intros a Ha. apply Hsrc. lia.
  - intros a Ha. apply (fwd_intact m x); auto; lia.
  - destruct (@fwd_store R m x pend) as (m' & Hm' & Hc'); auto; try lia.
    exists v, m'. repeat split; auto. rewrite Z.add_assoc. eapply holds_sub; [exact Hvh|lia|lia].
Qed.

Lemma fwd_steps_spec {R} n j m a0 a1 dstp srcp x :
  copied M0 m dst src 0 x -> 0 <= x -> x + Z.of_nat (S n) * W <= len ->
  dstp + j * W = dst + x -> srcp + j * W = src + x + W ->
  (dst + x) mod W = 0 -> (src + x) mod W = 0 ->
  holds A M0 (src + x) (src + len) (src + x) (if Z.even j then a1 else a0) ->
  let x' := x + Z.of_nat n * W in
  exists m' a0' a1', @fwd_steps A R n j m a0 a1 dstp srcp = Next (m', a0', a1') /\
    copied M0 m' dst src 0 x' /\ (dst + x') mod W = 0 /\ (src + x') mod W = 0 /\
    holds A M0 (src + x') (src + len) (src + x') (if Z.even (j + Z.of_nat n) then a1' else a0').
Proof.
  pose proof (wordsize_pos A) as HW. fold W in HW. cbv zeta.
  revert j m a0 a1 x. induction n as [|n IH]; intros j m a0 a1 x Hc Hx Hxl Hdp Hsp Hd Hs Hp.
  - exists m, a0, a1. rewrite Z.mul_0_l, !Z.add_0_r. auto.
  - cbn [fwd_steps]. unfold op_load, op_store. fold W. rewrite Hdp, Hsp.
    destruct (@fwd_pipe_step R m x _ Hc Hx ltac:(lia) Hd Hs Hp) as (v & m' & Hv & Hm' & Hc' & Hh').
    assert (Z.even (j + 1) = negb (Z.even j)) as Ev by (rewrite Z.even_add; destruct (Z.even j); reflexivity).
    replace (x + Z.of_nat (S n) * W) with (x + W + Z.of_nat n * W) by lia.
    replace (j + Z.of_nat (S n)) with (j + 1 + Z.of_nat n) by lia.
    destruct (Z.even j); rewrite Hv; simpl; rewrite Hm'; simpl; apply IH; auto; try lia;
      try (rewrite Z.add_assoc; apply mod_step; assumption); rewrite Ev; assumption.
Qed.

Lemma fwd_loop_spec {R} fuel j m a0 a1 dstp srcp n x :
  copied M0 m dst src 0 x -> 0 <= x -> x + (n - j + 1) * W <= len ->
  dstp + j * W = dst + x -> srcp + j * W = src + x + W ->
  (dst + x) mod W = 0 -> (src + x) mod W = 0 ->
  holds A M0 (src + x) (src + len) (src + x) (if Z.even j then a1 else a0) ->
  0 <= j < 8 -> n mod 8 = 0 -> 0 < n < 2 ^ wordbits A -> n <= 8 * Z.of_nat fuel ->
  exists m', @fwd_loop A R fuel j m a0 a1 dstp srcp n = Next m' /\
    copied M0 m' dst src 0 (x + (n - j + 1) * W).
Proof.
  pose proof (wordsize_pos A) as HW. fold W in HW.
  revert j m a0 a1 dstp srcp n x.
  induction fuel as [|fuel IH]; intros j m a0 a1 dstp srcp n x Hc Hx Hxl Hdp Hsp Hd Hs Hp Hj Hn8 Hn Hf; [lia|].
  cbn [fwd_loop].
  assert (8 <= n) by (Z.div_mod_to_equations; lia).
  destruct (@fwd_steps_spec R (Z.to_nat (8 - j)) j m a0 a1 dstp srcp x)
    as (m' & a0' & a1' & -> & Hc' & Hd' & Hs' & Hp'); auto; try lia; try nia.
  rewrite Z2Nat.id in * by lia. replace (j + (8 - j)) with 8 in Hp' by lia. simpl in Hp'.
  simpl flow_bind. fold W. rewrite uwrap_small by lia.
  destruct (Z.eqb_spec (n - 8) 0) as [E|E].
  - unfold op_store. fold W.
    destruct (@fwd_store R m' (x + (8 - j) * W) a1') as (m2 & Hm2 & Hc2); auto; try nia.
    exists m2. replace (dstp + 8 * W + 0 * W) with (dst + (x + (8 - j) * W)) by lia.
    split; [assumption|]. replace (x + (n - j + 1) * W) with (x + (8 - j) * W + W) by (replace n with 8 by lia; lia).
    assumption.
  - destruct (IH 0 m' a0' a1' (dstp + 8 * W) (srcp + 8 * W) (n - 8) (x + (8 - j) * W))
      as (m2 & Hm2 & Hc2); auto; try lia; try nia.
    + rewrite Zminus_mod, Hn8. reflexivity.
    + exists m2. split; [assumption|].
      replace (x + (n - j + 1) * W) with (x + (8 - j) * W + (n - 8 - 0 + 1) * W) by lia. assumption.
Qed.

(** Entering the loop at label [j] after the first word has been loaded. *)
Lemma fwd_enter {R} j m a0 a1 dstp srcp n k x :
  copied M0 m dst src 0 x -> 0 <= x -> x + n * W <= len ->
  dstp = dst + x - j * W -> srcp = src + x - (j - 1) * W -> k = n - 1 + j ->
  (dst + x) mod W = 0 -> (src + x) mod W = 0 ->
  holds A M0 (src + x) (src + len) (src + x) (if Z.even j then a1 else a0) ->
  0 <= j < 8 -> k mod 8 = 0 -> 0 < k < 2 ^ wordbits A -> 1 <= n ->
  exists m', @fwd_loop A R (S (Z.to_nat n)) j m a0 a1 dstp srcp k = Next m' /\
    copied M0 m' dst src 0 (x + n * W).
Proof.
  intros Hc Hx Hxl -> -> -> Hd Hs Hp Hj Hk8 Hk Hn.
  replace (x + n * W) with (x + (n - 1 + j - j + 1) * W) by lia.
  apply fwd_loop_spec; auto; try lia.
Qed.

Lemma fwd_first {R} m x :
  copied M0 m dst src 0 x -> 0 <= x -> x + W <= len -> (src + x) mod W = 0 ->
  exists v, @op_load A R m (src + x) 0 = Next v /\ holds A M0 (src + x) (src + len) (src + x) v.
Proof.
  intros Hc Hx Hxl Hs. pose proof (wordsize_pos A) as HW. fold W in HW.
  unfold op_load. rewrite Z.mul_0_l, Z.add_0_r.
  apply (@load_holds R m 0 x (src + x) (src + len)); auto; try lia.
  - intros a Ha. apply Hsrc. lia.
  - intros a Ha. apply (fwd_intact m x); auto; lia.
Qed.

Lemma wordcopy_fwd_aligned_spec {R} m x n :
  copied M0 m dst src 0 x -> 0 <= x -> x + n * W <= len ->
  (dst + x) mod W = 0 -> (src + x) mod W = 0 ->
  1 <= n -> (small_thres A = true \/ 2 <= n) -> n + 8 < 2 ^ wordbits A ->
  exists m', @wordcopy_fwd_aligned A R m (dst + x) (src + x) n = Next m' /\
    copied M0 m' dst src 0 (x + n * W).
Proof.
  intros Hc Hx Hxl Hd Hs Hn Hth Hb. pose proof (wordsize_pos A) as HW. fold W in HW.
  destruct (@fwd_first R m x) as (v & Hv & Hh); auto; try nia.
  unfold wordcopy_fwd_aligned. fold W.
  assert (n mod 8 = 0 \/ n mod 8 = 1 \/ n mod 8 = 2 \/ n mod 8 = 3 \/ n mod 8 = 4 \/ n mod 8 = 5
    \/ n mod 8 = 6 \/ n mod 8 = 7) as Hr by (Z.div_mod_to_equations; lia).
  destruct Hr as [E|[E|[E|[E|[E|[E|[E|E]]]]]]]; rewrite E; cbv beta iota zeta; rewrite ?Hv; cbn [flow_bind].
  - rewrite (proj2 (Z.eqb_neq n 0)), andb_false_r by lia.
    apply (@fwd_enter R 1); auto; Z.div_mod_to_equations; lia.
  - destruct (_ && _) eqn:Eth.
    + apply andb_true_iff in Eth as [_ Eth]. apply Z.eqb_eq in Eth.
      unfold op_store. rewrite Z.mul_0_l, Z.add_0_r. replace (n * W) with W by (replace n with 1 by lia; lia).
      apply fwd_store; auto; nia.
    + assert (n <> 1) by (intros ->; destruct Hth as [Hth|Hth]; [rewrite Hth in Eth; discriminate|lia]).
      apply (@fwd_enter R 0); auto; Z.div_mod_to_equations; lia.
  - apply (@fwd_enter R 7); auto; Z.div_mod_to_equations; lia.
  - apply (@fwd_enter R 6); auto; Z.div_mod_to_equations; lia.
  - apply (@fwd_enter R 5); auto; Z.div_mod_to_equations; lia.
  - apply (@fwd_enter R 4); auto; Z.div_mod_to_equations; lia.
  - apply (@fwd_enter R 3); auto; Z.div_mod_to_equations; lia.
  - apply (@fwd_enter R 2); auto; Z.div_mod_to_equations; lia.
Qed.

(** ** Forward copying from an unaligned source *)

(** The two source words that hold the word at offset [x], [o] bytes into the first. *)
Definition pair_at (x o p q : Z) : Prop :=
  holds A M0 (src + x) (src + len) (src + x - o) p /\
  holds A M0 (src + x) (src + len) (src + x - o + W) q.

Lemma fwd_da_store {R} m x o p q :
  copied M0 m dst src 0 x -> 0 <= x -> x + W <= len -> (dst + x) mod W = 0 ->
  0 <= o < W -> pair_at x o p q ->
  exists m', @store_word R A m (dst + x) (MERGE A p (8 * o) q (8 * W - 8 * o)) = Next m' /\
    copied M0 m' dst src 0 (x + W).
Proof.
  intros Hc Hx Hxl Hd Ho [Hp Hq]. apply fwd_store; auto.
  pose proof (holds_merge A M0 (src + x) (src + len) (src + x - o) p q (src + x) Hp Hq) as H.
  replace (src + x - (src + x - o)) with o in H by lia. apply H; fold W; lia.
Qed.

Lemma fwd_da_load {R} m x o d :
  copied M0 m dst src 0 x -> 0 <= x < len -> x + d * W - o < len -> (src + x - o) mod W = 0 ->
  0 < o < W -> 0 <= d ->
  exists v, @load_word R A m (src + x - o + d * W) = Next v /\
    holds A M0 (src + x) (src + len) (src + x - o + d * W) v.
Proof.
  intros Hc Hx Hxl Hs Ho Hd. pose proof (wordsize_pos A) as HW. fold W in HW.
  assert ((src + x - o + d * W) mod W = 0) as Hal by (rewrite Z.mod_add by lia; assumption).
  apply (@load_holds R m 0 x); auto; try lia.
  - apply src_word_mapped; auto; nia.
  - intros a Ha. apply (fwd_intact m x); auto; lia.
Qed.

Lemma pair_at_next x o p q v :
  pair_at x o p q -> 0 < o < W -> holds A M0 (src + x) (src + len) (src + x - o + 2 * W) v ->
  pair_at (x + W) o q v.
Proof.
  intros [_ Hq] Ho Hv. split.
  - replace (src + (x + W) - o) with (src + x - o + W) by lia. eapply holds_sub; [exact Hq|lia|lia].
  - replace (src + (x + W) - o + W) with (src + x - o + 2 * W) by lia. eapply holds_sub; [exact Hv|lia|lia].
Qed.

(** The registers that hold the pending pair before step [j]. *)
Definition fwd_pend (j a0 a1 a2 a3 : Z) : Z * Z :=
  match j with 1 => (a3, a0) | 2 => (a0, a1) | 3 => (a1, a2) | _ => (a2, a3) end.

Lemma fwd_da_steps_spec {R} n j m a0 a1 a2 a3 dstp srcp x o :
  copied M0 m dst src 0 x -> 0 <= x -> x + Z.of_nat (S n) * W <= len ->
  dstp + j * W = dst + x -> srcp + j * W = src + x - o + 2 * W ->
  (dst + x) mod W = 0 -> (src + x - o) mod W = 0 -> 0 < o < W ->
  0 <= j -> j + Z.of_nat n <= 4 ->
  (let '(p, q) := fwd_pend j a0 a1 a2 a3 in pair_at x o p q) ->
  let x' := x + Z.of_nat n * W in
  exists m' a0' a1' a2' a3',
    @fwd_da_steps A R n j m a0 a1 a2 a3 (8 * o) (8 * W - 8 * o) dstp srcp = Next (m', a0', a1', a2', a3') /\
    copied M0 m' dst src 0 x' /\ (dst + x') mod W = 0 /\ (src + x' - o) mod W = 0 /\
    (let '(p, q) := fwd_pend (j + Z.of_nat n) a0' a1' a2' a3' in pair_at x' o p q).
Proof.
  pose proof (wordsize_pos A) as HW. fold W in HW. cbv zeta.
  revert j m a0 a1 a2 a3 x.
  induction n as [|n IH]; intros j m a0 a1 a2 a3 x Hc Hx Hxl Hdp Hsp Hd Hs Ho Hj Hjn Hp.
  - exists m, a0, a1, a2, a3. rewrite Z.mul_0_l, !Z.add_0_r. auto.
  - cbn [fwd_da_steps]. unfold op_load, op_store. fold W.
    destruct (@fwd_da_load R m x o 2 Hc ltac:(lia) ltac:(lia) Hs Ho ltac:(lia)) as (v & Hv & Hh).
    replace (x + Z.of_nat (S n) * W) with (x + W + Z.of_nat n * W) by lia.
    replace (j + Z.of_nat (S n)) with (j + 1 + Z.of_nat n) by lia.
    assert (j = 0 \/ j = 1 \/ j = 2 \/ j = 3) as Hj4 by lia.
    destruct Hj4 as [-> |[-> |[-> | ->]]]; cbv iota; rewrite Hsp, Hv; cbn [flow_bind]; rewrite Hdp;
      cbn [fwd_pend] in Hp;
      (destruct (@fwd_da_store R m x o _ _ Hc Hx ltac:(lia) Hd ltac:(lia) Hp) as (m' & -> & Hc');
       cbn [flow_bind]; apply IH; auto; try lia;
       [rewrite Z.add_assoc; apply mod_step; assumption
       |replace (src + (x + W) - o) with (src + x - o + W) by lia; apply mod_step; assumption
       |cbn; eapply pair_at_next; eauto]).
Qed.

Lemma fwd_da_loop_spec {R} fuel j m a0 a1 a2 a3 dstp srcp n x o :
  copied M0 m dst src 0 x -> 0 <= x -> x + (n - j + 1) * W <= len ->
  dstp + j * W = dst + x -> srcp + j * W = src + x - o + 2 * W ->
  (dst + x) mod W = 0 -> (src + x - o) mod W = 0 -> 0 < o < W ->
  (let '(p, q) := fwd_pend j a0 a1 a2 a3 in pair_at x o p q) ->
  0 <= j < 4 -> n mod 4 = 0 -> 0 < n < 2 ^ wordbits A -> n <= 4 * Z.of_nat fuel ->
  exists m', @fwd_da_loop A R fuel j m a0 a1 a2 a3 (8 * o) (8 * W - 8 * o) dstp srcp n = Next m' /\
    copied M0 m' dst src 0 (x + (n - j + 1) * W).
Proof.
  pose proof (wordsize_pos A) as HW. fold W in HW.
  revert j m a0 a1 a2 a3 dstp srcp n x.
  induction fuel as [|fuel IH]; intros j m a0 a1 a2 a3 dstp srcp n x Hc Hx Hxl Hdp Hsp Hd Hs Ho Hp Hj Hn8 Hn Hf; [lia|].
  cbn [fwd_da_loop].
  assert (4 <= n) by (Z.div_mod_to_equations; lia).
  destruct (@fwd_da_steps_spec R (Z.to_nat (4 - j)) j m a0 a1 a2 a3 dstp srcp x o)
    as (m' & a0' & a1' & a2' & a3' & -> & Hc' & Hd' & Hs' & Hp'); auto; try lia; try nia.
  rewrite Z2Nat.id in * by lia. replace (j + (4 - j)) with 4 in Hp' by lia. cbn [fwd_pend] in Hp'.
  cbn [flow_bind]. fold W. rewrite uwrap_small by lia.
  destruct (Z.eqb_spec (n - 4) 0) as [E|E].
  - unfold op_store. fold W.
    destruct (@fwd_da_store R m' (x + (4 - j) * W) o a2' a3') as (m2 & Hm2 & Hc2); auto; try nia.
    exists m2. replace (dstp + 4 * W + 0 * W) with (dst + (x + (4 - j) * W)) by lia.
    split; [assumption|]. replace (x + (n - j + 1) * W) with (x + (4 - j) * W + W) by (replace n with 4 by lia; lia).
    assumption.
  - destruct (IH 0 m' a0' a1' a2' a3' (dstp + 4 * W) (srcp + 4 * W) (n - 4) (x + (4 - j) * W))
      as (m2 & Hm2 & Hc2); auto; try lia; try nia.
    + rewrite Zminus_mod, Hn8. reflexivity.
    + exists m2. split; [assumption|].
      replace (x + (n - j + 1) * W) with (x + (4 - j) * W + (n - 4 - 0 + 1) * W) by lia. assumption.
Qed.

Lemma fwd_da_enter {R} j m a0 a1 a2 a3 dstp srcp n k x o :
  copied M0 m dst src 0 x -> 0 <= x -> x + n * W <= len ->
  dstp = dst + x - j * W -> srcp = src + x - o - (j - 2) * W -> k = n - 1 + j ->
  (dst + x) mod W = 0 -> (src + x - o) mod W = 0 -> 0 < o < W ->
  (let '(p, q) := fwd_pend j a0 a1 a2 a3 in pair_at x o p q) ->
  0 <= j < 4 -> k mod 4 = 0 -> 0 < k < 2 ^ wordbits A -> 1 <= n ->
  exists m', @fwd_da_loop A R (S (Z.to_nat n)) j m a0 a1 a2 a3 (8 * o) (8 * W - 8 * o) dstp srcp k = Next m' /\
    copied M0 m' dst src 0 (x + n * W).
Proof.
  intros Hc Hx Hxl -> -> -> Hd Hs Ho Hp Hj Hk8 Hk Hn.
  replace (x + n * W) with (x + (n - 1 + j - j + 1) * W) by lia.
  apply fwd_da_loop_spec; auto; try lia.
Qed.

Lemma fwd_da_first {R} m x o :
  copied M0 m dst src 0 x -> 0 <= x -> x + W <= len -> (src + x - o) mod W = 0 -> 0 < o < W ->
  exists p q, @op_load A R m (src + x - o) 0 = Next p /\ @op_load A R m (src + x - o) 1 = Next q /\
    pair_at x o p q.
Proof.
  intros Hc Hx Hxl Hs Ho. pose proof (wordsize_pos A) as HW. fold W in HW. unfold op_load. fold W.
  destruct (@fwd_da_load R m x o 0) as (p & Hp & Hph); auto; try lia.
  destruct (@fwd_da_load R m x o 1) as (q & Hq & Hqh); auto; try lia.
  exists p, q. repeat split; auto.
  - replace (src + x - o) with (src + x - o + 0 * W) by lia. assumption.
  - replace (src + x - o + W) with (src + x - o + 1 * W) by lia. assumption.
Qed.

Lemma wordcopy_fwd_dest_aligned_spec {R} m x n :
  copied M0 m dst src 0 x -> 0 <= x -> x + n * W <= len ->
  (dst + x) mod W = 0 -> (src + x) mod W <> 0 ->
  1 <= n -> (small_thres A = true \/ 2 <= n) -> n + 8 < 2 ^ wordbits A ->
  exists m', @wordcopy_fwd_dest_aligned A R m (dst + x) (src + x) n = Next m' /\
    copied M0 m' dst src 0 (x + n * W).
Proof.
  intros Hc Hx Hxl Hd Hs Hn Hth Hb. pose proof (wordsize_pos A) as HW. fold W in HW.
  unfold wordcopy_fwd_dest_aligned. fold W. rewrite land_align.
  set (o := (src + x) mod W) in *.
  assert (0 < o < W) as Ho by (pose proof (Z.mod_pos_bound (src + x) W HW); lia).
  assert ((src + x - o) mod W = 0) as Hal.
  { subst o. rewrite Zminus_mod_idemp_r, Z.sub_diag. reflexivity. }
  destruct (@fwd_da_first R m x o) as (p & q & Hp & Hq & Hpq); auto; try nia.
  assert (n mod 4 = 0 \/ n mod 4 = 1 \/ n mod 4 = 2 \/ n mod 4 = 3) as Hr by (Z.div_mod_to_equations; lia).
  destruct Hr as [E|[E|[E|E]]]; rewrite E; cbv beta iota zeta; rewrite Hp; cbn [flow_bind]; rewrite Hq; cbn [flow_bind].
  - rewrite (proj2 (Z.eqb_neq n 0)), andb_false_r by lia.
    apply (@fwd_da_enter R 1); auto; Z.div_mod_to_equations; lia.
  - destruct (_ && _) eqn:Eth.
    + apply andb_true_iff in Eth as [_ Eth]. apply Z.eqb_eq in Eth.
      unfold op_store. rewrite Z.mul_0_l, Z.add_0_r. replace (n * W) with W by (replace n with 1 by lia; lia).
      apply fwd_da_store; auto; nia.
    + assert (n <> 1) by (intros ->; destruct Hth as [Hth|Hth]; [rewrite Hth in Eth; discriminate|lia]).
      apply (@fwd_da_enter R 0); auto; Z.div_mod_to_equations; lia.
  - apply (@fwd_da_enter R 3); auto; Z.div_mod_to_equations; lia.
  - apply (@fwd_da_enter R 2); auto; Z.div_mod_to_equations; lia.
Qed.

Lemma mod_uwrap_neg : uwrap (wordbits A) (- dst) mod W = (- dst) mod W.
Proof.
  unfold uwrap, wordbits. fold W. subst W. rewrite <- pow256 by (pose proof (wordsize_pos A); lia).
  destruct (wordsize_cases A) as [E|E]; rewrite E; Z.div_mod_to_equations; lia.
Qed.

Lemma align_fwd : let n := uwrap (wordbits A) (- dst) mod W in 0 <= n < W /\ (dst + n) mod W = 0.
Proof.
  cbv zeta. rewrite mod_uwrap_neg. pose proof (wordsize_pos A) as HW. fold W in HW.
  split; [apply Z.mod_pos_bound; lia|]. rewrite Z.add_mod_idemp_r, Z.add_opp_diag_r by lia. reflexivity.
Qed.

Lemma word_count n :
  OP_T_THRES <= len -> len < 2 ^ wordbits A -> 0 <= n < W ->
  let k := (len - n) / W in
  1 <= k /\ (small_thres A = true \/ 2 <= k) /\ k + 8 < 2 ^ wordbits A /\
  k * W = len - n - (len - n) mod W.
Proof.
  unfold OP_T_THRES, small_thres, wordbits. fold W. subst W. cbv zeta.
  destruct (wordsize_cases A) as [E|E]; rewrite E; intros; change (2 ^ (8 * 4)) with 4294967296 in *;
    change (2 ^ (8 * 8)) with 18446744073709551616 in *; (repeat split);
    try (left; reflexivity); try right; Z.div_mod_to_equations; lia.
Qed.

Lemma WORD_COPY_FWD_spec {R} m x k r :
  copied M0 m dst src 0 x -> 0 <= x -> x + k * W <= len -> (dst + x) mod W = 0 ->
  1 <= k -> (small_thres A = true \/ 2 <= k) -> k + 8 < 2 ^ wordbits A -> 0 <= r < W ->
  exists m', @WORD_COPY_FWD A R m (dst + x) (src + x) (k * W + r) =
      Next (m', dst + (x + k * W), src + (x + k * W), r) /\
    copied M0 m' dst src 0 (x + k * W).
Proof.
  intros Hc Hx Hxl Hd Hk Hth Hb Hr. unfold WORD_COPY_FWD. fold W. rewrite land_align.
  replace ((k * W + r) / W) with k by (apply Z.div_unique with r; lia).
  replace ((k * W + r) mod W) with r by (apply Z.mod_unique with k; lia).
  replace (k * W + r - r) with (k * W) by lia. rewrite !Z.add_assoc.
  destruct (Z.eqb_spec ((src + x) mod W) 0) as [E|E].
  - destruct (@wordcopy_fwd_aligned_spec R m x k) as (m' & -> & Hc'); auto. eauto.
  - destruct (@wordcopy_fwd_dest_aligned_spec R m x k) as (m' & -> & Hc'); auto. eauto.
Qed.

Lemma copy_fwd_spec {R} :
  0 <= len < 2 ^ wordbits A ->
  exists m', @copy_fwd A R M0 dst src len = Next m' /\ copied M0 m' dst src 0 len.
Proof.
  intros Hlen. unfold copy_fwd. fold W. pose proof (copied_refl M0 dst src 0) as Hc.
  destruct (Z.leb_spec OP_T_THRES len) as [Hth|Hth].
  - destruct align_fwd as [Hn Hal]. cbv zeta in Hn, Hal.
    set (n := uwrap (wordbits A) (- dst) mod W) in *.
    destruct (word_count n Hth ltac:(lia) Hn) as (Hk & Hk2 & Hkb & HkW).
    pose proof (Z.mod_pos_bound (len - n) W ltac:(lia)) as Hr.
    assert (W <= 8) as HW8 by (subst W; destruct (wordsize_cases A); lia). unfold OP_T_THRES in Hth.
    destruct (@BYTE_COPY_FWD_spec R (Z.to_nat n) M0 0 Hc) as (m1 & H1 & Hc1); try lia.
    rewrite !Z.add_0_r in H1. rewrite Z2Nat.id, Z.add_0_l in Hc1 by lia. rewrite H1. cbn [flow_bind].
    destruct (@WORD_COPY_FWD_spec R m1 n ((len - n) / W) ((len - n) mod W)) as (m2 & H2 & Hc2); auto; try lia.
    replace ((len - n) / W * W + (len - n) mod W) with (len - n) in H2 by lia. rewrite H2. cbn [flow_bind].
    destruct (@BYTE_COPY_FWD_spec R (Z.to_nat ((len - n) mod W)) m2 _ Hc2) as (m3 & H3 & Hc3); try lia.
    exists m3. split; [assumption|].
    rewrite Z2Nat.id, HkW in Hc3 by lia.
    replace (n + (len - n - (len - n) mod W) + (len - n) mod W) with len in Hc3 by lia. assumption.
  - cbn [flow_bind]. destruct (@BYTE_COPY_FWD_spec R (Z.to_nat len) M0 0 Hc) as (m1 & H1 & Hc1); try lia.
    rewrite !Z.add_0_r in H1. rewrite Z2Nat.id, Z.add_0_l in Hc1 by lia. eauto.
Qed.
End Fwd.

(** ** Backward copying *)

Section Bwd.
Context (Hbwd : src <= dst).

Lemma bwd_intact m y a : copied M0 m dst src y len -> src <= a < src + y -> m !! a = M0 !! a.
Proof. intros Hc Ha. rewrite Hc, decide_False by lia. reflexivity. Qed.

Lemma bwd_store {R} m y v :
  copied M0 m dst src y len -> W <= y <= len -> (dst + y - W) mod W = 0 ->
  holds A M0 src (src + y) (src + y - W) v ->
  exists m', @store_word R A m (dst + y - W) v = Next m' /\ copied M0 m' dst src (y - W) len.
Proof.
  intros Hc Hy Hal Hv. pose proof (wordsize_pos A) as HW. fold W in HW.
  replace (dst + y - W) with (dst + (y - W)) in * by lia.
  replace (src + y - W) with (src + (y - W)) in * by lia.
  destruct (@store_holds R m y len src (src + y) (y - W) v) as (m' & -> & Hm'); auto; try lia.
  exists m'. split; [reflexivity|].
  pose proof (copied_extend m m' y len (y - W) W Hc ltac:(lia) ltac:(lia) ltac:(lia) Hm') as H.
  rewrite !decide_False in H by lia. exact H.
Qed.

Lemma BYTE_COPY_BWD_spec {R} n m y :
  copied M0 m dst src y len -> Z.of_nat n <= y <= len ->
  exists m', @BYTE_COPY_BWD R n m (dst + y) (src + y) = Next m' /\
    copied M0 m' dst src (y - Z.of_nat n) len.
Proof.
  revert m y. induction n as [|n IH]; intros m y Hc Hy.
  - exists m. split; [reflexivity|]. rewrite Z.sub_0_r. assumption.
  - cbn [BYTE_COPY_BWD]. destruct (Hsrc (src + y - 1)) as [b Hb]; [lia|].
    rewrite (load8_spec m (src + y - 1) b) by (rewrite (bwd_intact m y) by (auto; lia); assumption).
    cbn [flow_bind]. rewrite store8_spec; [|eapply copied_dom; eauto; [lia|lia|apply Hdst; lia]|eapply wf_mem_lookup; eauto].
    cbn [flow_bind]. destruct (IH (<[dst + y - 1 := b]> m) (y - 1)) as (m' & H1 & H2); try lia.
    { pose proof (copied_extend m (<[dst + y - 1 := b]> m) y len (y - 1) 1 Hc ltac:(lia) ltac:(lia) ltac:(lia)) as H.
      rewrite !decide_False in H by lia. apply H. intros a.
      destruct (Z.eq_dec a (dst + y - 1)) as [->|].
      - rewrite lookup_insert_eq, decide_True by lia. rewrite <- Hb. f_equal. lia.
      - rewrite lookup_insert_ne, decide_False by lia. reflexivity. }
    exists m'. rewrite !Z.add_sub_assoc in H1. split; [assumption|].
    replace (y - Z.of_nat (S n)) with (y - 1 - Z.of_nat n) by lia. assumption.
Qed.

Lemma bwd_load {R} m y p :
  copied M0 m dst src y len -> 0 < y <= len -> p mod W = 0 -> src < p + W -> p < src + y ->
  exists v, @load_word R A m p = Next v /\ holds A M0 src (src + y) p v.
Proof.
  intros Hc Hy Hal H1 H2. apply (@load_holds R m y len); auto; try lia.
  - apply src_word_mapped; auto; lia.
  - intros a Ha. apply (bwd_intact m y); auto; lia.
Qed.

Lemma mod_back p k : p mod W = 0 -> (p - k * W) mod W = 0.
Proof.
  intros H. pose proof (wordsize_pos A) as HW. fold W in HW.
  replace (p - k * W) with (p + (- k) * W) by lia. rewrite Z.mod_add by lia. assumption.
Qed.

Lemma bwd_pipe_step {R} m y pend :
  copied M0 m dst src y len -> 2 * W <= y <= len ->
  (dst + y) mod W = 0 -> (src + y) mod W = 0 ->
  holds A M0 src (src + y) (src + y - W) pend ->
  exists v m', @load_word R A m (src + y - 2 * W) = Next v /\ @store_word R A m (dst + y - W) pend = Next m' /\
    copied M0 m' dst src (y - W) len /\ holds A M0 src (src + (y - W)) (src + (y - W) - W) v.
Proof.
  intros Hc Hy Hd Hs Hp. pose proof (wordsize_pos A) as HW. fold W in HW.
  destruct (@bwd_load R m y (src + y - 2 * W)) as (v & Hv & Hvh); auto using mod_back; try lia.
  destruct (@bwd_store R m y pend) as (m' & Hm' & Hc'); auto; try lia.
  { pose proof (mod_back (dst + y) 1 Hd) as H. rewrite Z.mul_1_l in H. assumption. }
  exists v, m'. repeat split; auto. replace (src + (y - W) - W) with (src + y - 2 * W) by lia.
  eapply holds_sub; [exact Hvh|lia|lia].
Qed.

Lemma mod_back1 p : p mod W = 0 -> (p - W) mod W = 0.
Proof. intros H. pose proof (mod_back p 1 H) as H1. rewrite Z.mul_1_l in H1. assumption. Qed.

Lemma bwd_steps_spec {R} n j m a0 a1 dstp srcp y :
  copied M0 m dst src y len -> Z.of_nat (S n) * W <= y <= len ->
  dstp + (7 - j) * W = dst + y - W -> srcp + (7 - j) * W = src + y - 2 * W ->
  (dst + y) mod W = 0 -> (src + y) mod W = 0 ->
  holds A M0 src (src + y) (src + y - W) (if Z.even j then a1 else a0) ->
  let y' := y - Z.of_nat n * W in
  exists m' a0' a1', @bwd_steps A R n j m a0 a1 dstp srcp = Next (m', a0', a1') /\
    copied M0 m' dst src y' len /\ (dst + y') mod W = 0 /\ (src + y') mod W = 0 /\
    holds A M0 src (src + y') (src + y' - W) (if Z.even (j + Z.of_nat n) then a1' else a0').
Proof.
  pose proof (wordsize_pos A) as HW. fold W in HW. cbv zeta.
  revert j m a0 a1 y. induction n as [|n IH]; intros j m a0 a1 y Hc Hy Hdp Hsp Hd Hs Hp.
  - exists m, a0, a1. rewrite Z.mul_0_l, !Z.sub_0_r, !Z.add_0_r. auto.
  - cbn [bwd_steps]. unfold op_load, op_store. fold W. rewrite Hdp, Hsp.
    destruct (@bwd_pipe_step R m y _ Hc ltac:(lia) Hd Hs Hp) as (v & m' & Hv & Hm' & Hc' & Hh').
    assert (Z.even (j + 1) = negb (Z.even j)) as Ev by (rewrite Z.even_add; destruct (Z.even j); reflexivity).
    replace (y - Z.of_nat (S n) * W) with (y - W - Z.of_nat n * W) by lia.
    replace (j + Z.of_nat (S n)) with (j + 1 + Z.of_nat n) by lia.
    destruct (Z.even j); rewrite Hv; cbn [flow_bind]; rewrite Hm'; cbn [flow_bind]; apply IH; auto; try lia;
      try (rewrite Z.add_sub_assoc; apply mod_back1; assumption); rewrite Ev; assumption.
Qed.

Lemma bwd_loop_spec {R} fuel j m a0 a1 dstp srcp n y :
  copied M0 m dst src y len -> (n - j + 1) * W <= y <= len ->
  dstp + (7 - j) * W = dst + y - W -> srcp + (7 - j) * W = src + y - 2 * W ->
  (dst + y) mod W = 0 -> (src + y) mod W = 0 ->
  holds A M0 src (src + y) (src + y - W) (if Z.even j then a1 else a0) ->
  0 <= j < 8 -> n mod 8 = 0 -> 0 < n < 2 ^ wordbits A -> n <= 8 * Z.of_nat fuel ->
  exists m', @bwd_loop A R fuel j m a0 a1 dstp srcp n = Next m' /\
    copied M0 m' dst src (y - (n - j + 1) * W) len.
Proof.
  pose proof (wordsize_pos A) as HW. fold W in HW.
  revert j m a0 a1 dstp srcp n y.
  induction fuel as [|fuel IH]; intros j m a0 a1 dstp srcp n y Hc Hy Hdp Hsp Hd Hs Hp Hj Hn8 Hn Hf; [lia|].
  cbn [bwd_loop].
  assert (8 <= n) by (Z.div_mod_to_equations; lia).
  destruct (@bwd_steps_spec R (Z.to_nat (8 - j)) j m a0 a1 dstp srcp y)
    as (m' & a0' & a1' & -> & Hc' & Hd' & Hs' & Hp'); auto; try lia; try nia.
  rewrite Z2Nat.id in * by lia. replace (j + (8 - j)) with 8 in Hp' by lia. simpl in Hp'.
  cbn [flow_bind]. fold W. rewrite uwrap_small by lia.
  destruct (Z.eqb_spec (n - 8) 0) as [E|E].
  - unfold op_store. fold W.
    destruct (@bwd_store R m' (y - (8 - j) * W) a1') as (m2 & Hm2 & Hc2); auto using mod_back1; try nia.
    exists m2. replace (dstp - 8 * W + 7 * W) with (dst + (y - (8 - j) * W) - W) by lia.
    split; [assumption|]. replace (y - (n - j + 1) * W) with (y - (8 - j) * W - W) by (replace n with 8 by lia; lia).
    assumption.
  - destruct (IH 0 m' a0' a1' (dstp - 8 * W) (srcp - 8 * W) (n - 8) (y - (8 - j) * W))
      as (m2 & Hm2 & Hc2); auto; try lia; try nia.
    + rewrite Zminus_mod, Hn8. reflexivity.
    + exists m2. split; [assumption|].
      replace (y - (n - j + 1) * W) with (y - (8 - j) * W - (n - 8 - 0 + 1) * W) by lia. assumption.
Qed.

Lemma bwd_enter {R} j m a0 a1 dstp srcp n k y :
  copied M0 m dst src y len -> n * W <= y <= len ->
  dstp = dst + y - (8 - j) * W -> srcp = src + y - (9 - j) * W -> k = n - 1 + j ->
  (dst + y) mod W = 0 -> (src + y) mod W = 0 ->
  holds A M0 src (src + y) (src + y - W) (if Z.even j then a1 else a0) ->
  0 <= j < 8 -> k mod 8 = 0 -> 0 < k < 2 ^ wordbits A -> 1 <= n ->
  exists m', @bwd_loop A R (S (Z.to_nat n)) j m a0 a1 dstp srcp k = Next m' /\
    copied M0 m' dst src (y - n * W) len.
Proof.
  intros Hc Hy -> -> -> Hd Hs Hp Hj Hk8 Hk Hn.
  replace (y - n * W) with (y - (n - 1 + j - j + 1) * W) by lia.
  apply bwd_loop_spec; auto; try lia.
Qed.

Lemma wordcopy_bwd_aligned_spec {R} m y n :
  copied M0 m dst src y len -> n * W <= y <= len ->
  (dst + y) mod W = 0 -> (src + y) mod W = 0 ->
  1 <= n -> (small_thres A = true \/ 2 <= n) -> n + 8 < 2 ^ wordbits A ->
  exists m', @wordcopy_bwd_aligned A R m (dst + y) (src + y) n = Next m' /\
    copied M0 m' dst src (y - n * W) len.
Proof.
  intros Hc Hy Hd Hs Hn Hth Hb. pose proof (wordsize_pos A) as HW. fold W in HW.
  destruct (@bwd_load R m y (src + y - W)) as (v & Hv & Hh); auto using mod_back1; try nia.
  assert (forall k l, l = k + 1 -> @op_load A R m (src + y - l * W) k = Next v) as Hld.
  { intros k l ->. unfold op_load. fold W. replace (src + y - (k + 1) * W + k * W) with (src + y - W) by lia. assumption. }
  unfold wordcopy_bwd_aligned. fold W.
  assert (n mod 8 = 0 \/ n mod 8 = 1 \/ n mod 8 = 2 \/ n mod 8 = 3 \/ n mod 8 = 4 \/ n mod 8 = 5
    \/ n mod 8 = 6 \/ n mod 8 = 7) as Hr by (Z.div_mod_to_equations; lia).
  destruct Hr as [E|[E|[E|[E|[E|[E|[E|E]]]]]]]; rewrite E; cbv beta iota zeta.
  - rewrite (proj2 (Z.eqb_neq n 0)), andb_false_r by lia. rewrite (Hld 7 8) by reflexivity. cbn [flow_bind].
    apply (@bwd_enter R 1); auto; Z.div_mod_to_equations; lia.
  - rewrite (Hld 8 9) by reflexivity. cbn [flow_bind]. destruct (_ && _) eqn:Eth.
    + apply andb_true_iff in Eth as [_ Eth]. apply Z.eqb_eq in Eth.
      unfold op_store. fold W. replace (n * W) with W in * by (replace n with 1 by lia; lia).
      replace (dst + y - 8 * W + 7 * W) with (dst + y - W) by lia.
      apply bwd_store; auto using mod_back1; nia.
    + assert (n <> 1) by (intros ->; destruct Hth as [Hth|Hth]; [rewrite Hth in Eth; discriminate|lia]).
      apply (@bwd_enter R 0); auto; Z.div_mod_to_equations; lia.
  - rewrite (Hld 1 2) by reflexivity. apply (@bwd_enter R 7); auto; Z.div_mod_to_equations; lia.
  - rewrite (Hld 2 3) by reflexivity. apply (@bwd_enter R 6); auto; Z.div_mod_to_equations; lia.
  - rewrite (Hld 3 4) by reflexivity. apply (@bwd_enter R 5); auto; Z.div_mod_to_equations; lia.
  - rewrite (Hld 4 5) by reflexivity. apply (@bwd_enter R 4); auto; Z.div_mod_to_equations; lia.
  - rewrite (Hld 5 6) by reflexivity. apply (@bwd_enter R 3); auto; Z.div_mod_to_equations; lia.
  - rewrite (Hld 6 7) by reflexivity. apply (@bwd_enter R 2); auto; Z.div_mod_to_equations; lia.
Qed.

(** The two source words that hold the word just below offset [y]. *)
Definition pair_below (y o p q : Z) : Prop :=
  holds A M0 src (src + y) (src + y - o - W) p /\ holds A M0 src (src + y) (src + y - o) q.

Lemma bwd_da_store {R} m y o p q :
  copied M0 m dst src y len -> W <= y <= len -> (dst + y) mod W = 0 ->
  0 < o < W -> pair_below y o p q ->
  exists m', @store_word R A m (dst + y - W) (MERGE A p (8 * o) q (8 * W - 8 * o)) = Next m' /\
    copied M0 m' dst src (y - W) len.
Proof.
  intros Hc Hy Hd Ho [Hp Hq]. apply bwd_store; auto using mod_back1.
  replace (src + y - o) with (src + y - o - W + W) in Hq by lia.
  pose proof (holds_merge A M0 src (src + y) (src + y - o - W) p q (src + y - W) Hp Hq) as H.
  replace (src + y - W - (src + y - o - W)) with o in H by lia. apply H; fold W; lia.
Qed.

Lemma pair_below_next y o p q v :
  pair_below y o p q -> 0 < o < W -> holds A M0 src (src + y) (src + y - o - 2 * W) v ->
  pair_below (y - W) o v p.
Proof.
  intros [Hp _] Ho Hv. split.
  - replace (src + (y - W) - o - W) with (src + y - o - 2 * W) by lia. eapply holds_sub; [exact Hv|lia|lia].
  - replace (src + (y - W) - o) with (src + y - o - W) by lia. eapply holds_sub; [exact Hp|lia|lia].
Qed.

Definition bwd_pend (j a0 a1 a2 a3 : Z) : Z * Z :=
  match j with 1 => (a3, a0) | 2 => (a2, a3) | 3 => (a1, a2) | _ => (a0, a1) end.

Lemma bwd_da_steps_spec {R} n j m a0 a1 a2 a3 dstp srcp y o :
  copied M0 m dst src y len -> Z.of_nat (S n) * W <= y <= len ->
  dstp + (3 - j) * W = dst + y - W -> srcp + (3 - j) * W = src + y - o - 2 * W ->
  (dst + y) mod W = 0 -> (src + y - o) mod W = 0 -> 0 < o < W ->
  0 <= j -> j + Z.of_nat n <= 4 ->
  (let '(p, q) := bwd_pend j a0 a1 a2 a3 in pair_below y o p q) ->
  let y' := y - Z.of_nat n * W in
  exists m' a0' a1' a2' a3',
    @bwd_da_steps A R n j m a0 a1 a2 a3 (8 * o) (8 * W - 8 * o) dstp srcp = Next (m', a0', a1', a2', a3') /\
    copied M0 m' dst src y' len /\ (dst + y') mod W = 0 /\ (src + y' - o) mod W = 0 /\
    (let '(p, q) := bwd_pend (j + Z.of_nat n) a0' a1' a2' a3' in pair_below y' o p q).
Proof.
  pose proof (wordsize_pos A) as HW. fold W in HW. cbv zeta.
  revert j m a0 a1 a2 a3 y.
  induction n as [|n IH]; intros j m a0 a1 a2 a3 y Hc Hy Hdp Hsp Hd Hs Ho Hj Hjn Hp.
  - exists m, a0, a1, a2, a3. rewrite Z.mul_0_l, !Z.sub_0_r, !Z.add_0_r. auto.
  - cbn [bwd_da_steps]. unfold op_load, op_store. fold W.
    destruct (@bwd_load R m y (src + y - o - 2 * W)) as (v & Hv & Hh); auto using mod_back; try lia.
    replace (y - Z.of_nat (S n) * W) with (y - W - Z.of_nat n * W) by lia.
    replace (j + Z.of_nat (S n)) with (j + 1 + Z.of_nat n) by lia.
    assert (j = 0 \/ j = 1 \/ j = 2 \/ j = 3) as Hj4 by lia.
    destruct Hj4 as [-> |[-> |[-> | ->]]]; cbv iota;
      match goal with |- context [load_word A m ?e] => replace e with (src + y - o - 2 * W) by lia end;
      rewrite Hv; cbn [flow_bind];
      match goal with |- context [store_word A m ?e _] => replace e with (dst + y - W) by lia end;
      cbn [bwd_pend] in Hp;
      (destruct (@bwd_da_store R m y o _ _ Hc ltac:(lia) Hd ltac:(lia) Hp) as (m' & -> & Hc');
       cbn [flow_bind]; apply IH; auto; try lia;
       [rewrite Z.add_sub_assoc; apply mod_back1; assumption
       |replace (src + (y - W) - o) with (src + y - o - W) by lia; apply mod_back1; assumption
       |cbn; eapply pair_below_next; eauto]).
Qed.

Lemma bwd_da_loop_spec {R} fuel j m a0 a1 a2 a3 dstp srcp n y o :
  copied M0 m dst src y len -> (n - j + 1) * W <= y <= len ->
  dstp + (3 - j) * W = dst + y - W -> srcp + (3 - j) * W = src + y - o - 2 * W ->
  (dst + y) mod W = 0 -> (src + y - o) mod W = 0 -> 0 < o < W ->
  (let '(p, q) := bwd_pend j a0 a1 a2 a3 in pair_below y o p q) ->
  0 <= j < 4 -> n mod 4 = 0 -> 0 < n < 2 ^ wordbits A -> n <= 4 * Z.of_nat fuel ->
  exists m', @bwd_da_loop A R fuel j m a0 a1 a2 a3 (8 * o) (8 * W - 8 * o) dstp srcp n = Next m' /\
    copied M0 m' dst src (y - (n - j + 1) * W) len.
Proof.
  pose proof (wordsize_pos A) as HW. fold W in HW.
  revert j m a0 a1 a2 a3 dstp srcp n y.
  induction fuel as [|fuel IH]; intros j m a0 a1 a2 a3 dstp srcp n y Hc Hy Hdp Hsp Hd Hs Ho Hp Hj Hn8 Hn Hf; [lia|].
  cbn [bwd_da_loop].
  assert (4 <= n) by (Z.div_mod_to_equations; lia).
  destruct (@bwd_da_steps_spec R (Z.to_nat (4 - j)) j m a0 a1 a2 a3 dstp srcp y o)
    as (m' & a0' & a1' & a2' & a3' & -> & Hc' & Hd' & Hs' & Hp'); auto; try lia; try nia.
  rewrite Z2Nat.id in * by lia. replace (j + (4 - j)) with 4 in Hp' by lia. cbn [bwd_pend] in Hp'.
  cbn [flow_bind]. fold W. rewrite uwrap_small by lia.
  destruct (Z.eqb_spec (n - 4) 0) as [E|E].
  - unfold op_store. fold W.
    destruct (@bwd_da_store R m' (y - (4 - j) * W) o a0' a1') as (m2 & Hm2 & Hc2); auto; try nia.
    exists m2. replace (dstp - 4 * W + 3 * W) with (dst + (y - (4 - j) * W) - W) by lia.
    split; [assumption|]. replace (y - (n - j + 1) * W) with (y - (4 - j) * W - W) by (replace n with 4 by lia; lia).
    assumption.
  - destruct (IH 0 m' a0' a1' a2' a3' (dstp - 4 * W) (srcp - 4 * W) (n - 4) (y - (4 - j) * W))
      as (m2 & Hm2 & Hc2); auto; try lia; try nia.
    + rewrite Zminus_mod, Hn8. reflexivity.
    + exists m2. split; [assumption|].
      replace (y - (n - j + 1) * W) with (y - (4 - j) * W - (n - 4 - 0 + 1) * W) by lia. assumption.
Qed.

Lemma bwd_da_enter {R} j m a0 a1 a2 a3 dstp srcp n k y o :
  copied M0 m dst src y len -> n * W <= y <= len ->
  dstp = dst + y - (4 - j) * W -> srcp = src + y - o - (5 - j) * W -> k = n - 1 + j ->
  (dst + y) mod W = 0 -> (src + y - o) mod W = 0 -> 0 < o < W ->
  (let '(p, q) := bwd_pend j a0 a1 a2 a3 in pair_below y o p q) ->
  0 <= j < 4 -> k mod 4 = 0 -> 0 < k < 2 ^ wordbits A -> 1 <= n ->
  exists m', @bwd_da_loop A R (S (Z.to_nat n)) j m a0 a1 a2 a3 (8 * o) (8 * W - 8 * o) dstp srcp k = Next m' /\
    copied M0 m' dst src (y - n * W) len.
Proof.
  intros Hc Hy -> -> -> Hd Hs Ho Hp Hj Hk8 Hk Hn.
  replace (y - n * W) with (y - (n - 1 + j - j + 1) * W) by lia.
  apply bwd_da_loop_spec; auto; try lia.
Qed.

Lemma wordcopy_bwd_dest_aligned_spec {R} m y n :
  copied M0 m dst src y len -> n * W <= y <= len ->
  (dst + y) mod W = 0 -> (src + y) mod W <> 0 ->
  1 <= n -> (small_thres A = true \/ 2 <= n) -> n + 8 < 2 ^ wordbits A ->
  exists m', @wordcopy_bwd_dest_aligned A R m (dst + y) (src + y) n = Next m' /\
    copied M0 m' dst src (y - n * W) len.
Proof.
  intros Hc Hy Hd Hs Hn Hth Hb. pose proof (wordsize_pos A) as HW. fold W in HW.
  unfold wordcopy_bwd_dest_aligned. fold W. rewrite land_align.
  set (o := (src + y) mod W) in *.
  assert (0 < o < W) as Ho by (pose proof (Z.mod_pos_bound (src + y) W HW); lia).
  assert ((src + y - o) mod W = 0) as Hal.
  { subst o. rewrite Zminus_mod_idemp_r, Z.sub_diag. reflexivity. }
  destruct (@bwd_load R m y (src + y - o)) as (q & Hq & Hqh); auto; try nia.
  destruct (@bwd_load R m y (src + y - o - W)) as (p & Hp & Hph); auto using mod_back1; try nia.
  assert (pair_below y o p q) as Hpq by (split; assumption).
  assert (forall k l, l = k + 1 -> @op_load A R m (src + y - o + W - l * W) k = Next q) as Hlq.
  { intros k l ->. unfold op_load. fold W. replace (src + y - o + W - (k + 1) * W + k * W) with (src + y - o) by lia. assumption. }
  assert (forall k l, l = k + 2 -> @op_load A R m (src + y - o + W - l * W) k = Next p) as Hlp.
  { intros k l ->. unfold op_load. fold W. replace (src + y - o + W - (k + 2) * W + k * W) with (src + y - o - W) by lia. assumption. }
  assert (n mod 4 = 0 \/ n mod 4 = 1 \/ n mod 4 = 2 \/ n mod 4 = 3) as Hr by (Z.div_mod_to_equations; lia).
  destruct Hr as [E|[E|[E|E]]]; rewrite E; cbv beta iota zeta.
  - rewrite (proj2 (Z.eqb_neq n 0)), andb_false_r, (Hlq 4 5), (Hlp 3 5) by lia.
    apply (@bwd_da_enter R 1); auto; Z.div_mod_to_equations; lia.
  - rewrite (Hlq 5 6), (Hlp 4 6) by reflexivity. cbn [flow_bind]. destruct (_ && _) eqn:Eth.
    + apply andb_true_iff in Eth as [_ Eth]. apply Z.eqb_eq in Eth.
      unfold op_store. fold W. replace (n * W) with W in * by (replace n with 1 by lia; lia).
      replace (dst + y - 4 * W + 3 * W) with (dst + y - W) by lia.
      apply bwd_da_store; auto.
    + assert (n <> 1) by (intros ->; destruct Hth as [Hth|Hth]; [rewrite Hth in Eth; discriminate|lia]).
      apply (@bwd_da_enter R 0); auto; Z.div_mod_to_equations; lia.
  - rewrite (Hlq 2 3), (Hlp 1 3) by reflexivity. apply (@bwd_da_enter R 3); auto; Z.div_mod_to_equations; lia.
  - rewrite (Hlq 3 4), (Hlp 2 4) by reflexivity. apply (@bwd_da_enter R 2); auto; Z.div_mod_to_equations; lia.
Qed.

Lemma WORD_COPY_BWD_spec {R} m y k r :
  copied M0 m dst src y len -> k * W <= y <= len -> (dst + y) mod W = 0 ->
  1 <= k -> (small_thres A = true \/ 2 <= k) -> k + 8 < 2 ^ wordbits A -> 0 <= r < W ->
  exists m', @WORD_COPY_BWD A R m (dst + y) (src + y) (k * W + r) =
      Next (m', dst + (y - k * W), src + (y - k * W), r) /\
    copied M0 m' dst src (y - k * W) len.
Proof.
  intros Hc Hy Hd Hk Hth Hb Hr. unfold WORD_COPY_BWD. fold W. rewrite land_align.
  replace ((k * W + r) / W) with k by (apply Z.div_unique with r; lia).
  replace ((k * W + r) mod W) with r by (apply Z.mod_unique with k; lia).
  replace (k * W + r - r) with (k * W) by lia. rewrite !Z.add_sub_assoc.
  destruct (Z.eqb_spec ((src + y) mod W) 0) as [E|E].
  - destruct (@wordcopy_bwd_aligned_spec R m y k) as (m' & -> & Hc'); auto. eauto.
  - destruct (@wordcopy_bwd_dest_aligned_spec R m y k) as (m' & -> & Hc'); auto. eauto.
Qed.

Lemma copy_bwd_spec {R} :
  0 <= len < 2 ^ wordbits A ->
  exists m', @copy_bwd A R M0 dst src len = Next m' /\ copied M0 m' dst src 0 len.
Proof.
  intros Hlen. unfold copy_bwd. fold W. pose proof (copied_refl M0 dst src len) as Hc.
  pose proof (wordsize_pos A) as HW. fold W in HW.
  destruct (Z.leb_spec OP_T_THRES len) as [Hth|Hth].
  - set (n := (dst + len) mod W).
    assert (0 <= n < W) as Hn by (apply Z.mod_pos_bound; lia).
    assert ((dst + len - n) mod W = 0) as Hal.
    { subst n. rewrite Zminus_mod_idemp_r, Z.sub_diag. reflexivity. }
    destruct (word_count n Hth ltac:(lia) Hn) as (Hk & Hk2 & Hkb & HkW).
    pose proof (Z.mod_pos_bound (len - n) W ltac:(lia)) as Hr.
    assert (W <= 8) as HW8 by (subst W; destruct (wordsize_cases A); lia). unfold OP_T_THRES in Hth.
    destruct (@BYTE_COPY_BWD_spec R (Z.to_nat n) M0 len Hc) as (m1 & H1 & Hc1); try lia.
    rewrite Z2Nat.id in Hc1 by lia. rewrite H1. cbn [flow_bind].
    destruct (@WORD_COPY_BWD_spec R m1 (len - n) ((len - n) / W) ((len - n) mod W)) as (m2 & H2 & Hc2); auto; try lia.
    { rewrite Z.add_sub_assoc. assumption. }
    replace ((len - n) / W * W + (len - n) mod W) with (len - n) in H2 by lia.
    rewrite !Z.add_sub_assoc in H2. rewrite H2. cbn [flow_bind].
    rewrite HkW in *. replace (len - n - (len - n - (len - n) mod W)) with ((len - n) mod W) in Hc2 by lia.
    destruct (@BYTE_COPY_BWD_spec R (Z.to_nat ((len - n) mod W)) m2 _ Hc2) as (m3 & H3 & Hc3); try lia.
    exists m3. rewrite Z2Nat.id, Z.sub_diag in Hc3 by lia. split; [|assumption].
    match goal with |- BYTE_COPY_BWD _ _ ?a ?b = _ =>
      replace a with (dst + (len - n) mod W) by lia; replace b with (src + (len - n) mod W) by lia end.
    assumption.
  - cbn [flow_bind]. destruct (@BYTE_COPY_BWD_spec R (Z.to_nat len) M0 len Hc) as (m1 & H1 & Hc1); try lia.
    rewrite Z2Nat.id, Z.sub_diag in Hc1 by lia. eauto.
Qed.
End Bwd.
End Block.

(** * The routines *)

(** C37: memcpy copies the block, for every alignment of source and destination
    relative to each other: the destination holds the source's bytes, every other byte is
    as before, and the destination is returned.  The source is read by whole longwords
    that hold a byte of it. *)
Theorem memcpy_correct A m dst src len :
  wf_mem m -> mapped m dst (dst + len) -> words_mapped A m src len ->
  0 <= len < 2 ^ wordbits A -> dst + len <= src \/ src + len <= dst ->
  exists m', memcpy A m dst src len = Return (m', dst) /\
    forall a, m' !! a = if decide (dst <= a < dst + len) then m !! (src + (a - dst)) else m !! a.
Proof.
  intros Hwf Hd Hs Hlen Hdis. unfold memcpy.
  destruct (@copy_fwd_spec A m dst src len Hwf Hd (words_mapped_block _ _ _ _ Hs) Hs ltac:(lia) (mem * Z) Hlen)
    as (m' & -> & Hc).
  exists m'. split; [reflexivity|]. intros a. specialize (Hc a). rewrite Z.add_0_r in Hc. exact Hc.
Qed.

Lemma memcpy_witness :
  exists m', memcpy (Arch true false) (mem_of 0 (repeat 5 64)) 33 9 20 = Return (m', 33) /\
    forall a, m' !! a = if decide (33 <= a < 33 + 20) then mem_of 0 (repeat 5 64) !! (9 + (a - 33))
                        else mem_of 0 (repeat 5 64) !! a.
Proof.
  apply (memcpy_correct (Arch true false) (mem_of 0 (repeat 5 64)) 33 9 20).
  - apply mem_of_wf. simpl. wf_bytes.
  - apply mem_of_mapped; simpl; lia.
  - intros a b Hb E. apply (mem_of_mapped 0 (repeat 5 64) 0 64); simpl; try lia.
    unfold wordsize in E. simpl in E. Z.div_mod_to_equations. lia.
  - vm_compute. split; [discriminate|reflexivity].
  - right. lia.
Defined.

(** C20: memmove copies the block as if through a temporary, whatever the overlap
    and the alignments: the destination holds the bytes the source had, every other byte is
    as before, and the destination is returned. *)
Theorem memmove_correct A m dst src len :
  wf_mem m -> mapped m dst (dst + len) -> words_mapped A m src len ->
  0 <= dst -> 0 <= src -> 0 <= len ->
  dst + len <= 2 ^ wordbits A -> src + len <= 2 ^ wordbits A -> len < 2 ^ wordbits A ->
  exists m', memmove A m dst src len = Return (m', dst) /\
    forall a, m' !! a = if decide (dst <= a < dst + len) then m !! (src + (a - dst)) else m !! a.
Proof.
  intros Hwf Hd Hs H0 H1 H2 Hdl Hsl Hlen. unfold memmove.
  pose proof (words_mapped_block _ _ _ _ Hs) as Hsb.
  assert (0 < 2 ^ wordbits A) as Hwb by lia.
  assert (dst < src -> uwrap (wordbits A) (dst - src) = dst - src + 2 ^ wordbits A \/ len = 0) as Hneg.
  { intros Hlt. destruct (Z.eq_dec len 0); [auto|left]. unfold uwrap. symmetry. apply Z.mod_unique with (-1); lia. }
  assert (src <= dst -> dst - src < 2 ^ wordbits A -> uwrap (wordbits A) (dst - src) = dst - src) as Hpos.
  { intros. apply uwrap_small. lia. }
  destruct (Z.leb_spec len (uwrap (wordbits A) (dst - src))) as [Hle|Hgt].
  - assert (dst <= src \/ src + len <= dst) as Hf.
    { destruct (Z.le_gt_cases dst src); [auto|right].
      destruct (Z.eq_dec len 0); [lia|]. rewrite Hpos in Hle by lia. lia. }
    destruct (@copy_fwd_spec A m dst src len Hwf Hd Hsb Hs Hf (mem * Z) ltac:(lia)) as (m' & -> & Hc).
    exists m'. split; [reflexivity|]. intros a. specialize (Hc a). rewrite Z.add_0_r in Hc. exact Hc.
  - pose proof (uwrap_range (wordbits A) (dst - src) ltac:(unfold wordbits; pose proof (wordsize_pos A); lia)).
    assert (src <= dst) as Hb.
    { destruct (Z.le_gt_cases src dst); [auto|]. destruct Hneg; lia. }
    destruct (@copy_bwd_spec A m dst src len Hwf Hd Hsb Hs Hb (mem * Z) ltac:(lia)) as (m' & -> & Hc).
    exists m'. split; [reflexivity|]. intros a. specialize (Hc a). rewrite Z.add_0_r in Hc. exact Hc.
Qed.

Lemma memmove_witness :
  exists m', memmove (Arch false true) (mem_of 0 (repeat 5 64)) 13 9 30 = Return (m', 13) /\
    forall a, m' !! a = if decide (13 <= a < 13 + 30) then mem_of 0 (repeat 5 64) !! (9 + (a - 13))
                        else mem_of 0 (repeat 5 64) !! a.
Proof.
  apply (memmove_correct (Arch false true) (mem_of 0 (repeat 5 64)) 13 9 30);
    try (vm_compute; discriminate); try (vm_compute; reflexivity).
  - apply mem_of_wf. simpl. wf_bytes.
  - apply mem_of_mapped; simpl; lia.
  - intros a b Hb E. apply (mem_of_mapped 0 (repeat 5 64) 0 64); simpl; try lia.
    unfold wordsize in E. simpl in E. Z.div_mod_to_equations. lia.
Defined.

(** ** memset *)

Definition filled (M0 m : mem) (dst v h : Z) : Prop :=
  forall a, m !! a = if decide (dst <= a < dst + h) then Some v else M0 !! a.

Lemma Forall_repeat {T} (P : T -> Prop) x n : P x -> Forall P (repeat x n).
Proof. intros H. induction n; simpl; auto. Qed.

Lemma rev_repeat_id {T} (x : T) n : rev (repeat x n) = repeat x n.
Proof. rewrite rev_repeat. reflexivity. Qed.

Lemma cccc_word A c : cccc A c = word_of_bytes A (repeat (u8 c) (wordlen A)).
Proof.
  unfold word_of_bytes, be_val. rewrite rev_repeat_id. unfold cccc.
  assert (is_byte (u8 c)) as Hc by (unfold is_byte, u8; apply (uwrap_range 8); lia).
  set (v := u8 c) in *. clearbody v.
  set (f := fun v => let x := v in
     let x := Z.lor x (uwrap (wordbits A) (Z.shiftl x 8)) in
     let x := Z.lor x (uwrap (wordbits A) (Z.shiftl x 16)) in
     if 4 <? wordsize A
     then Z.lor x (uwrap (wordbits A) (Z.shiftl (uwrap (wordbits A) (Z.shiftl x 16)) 16)) else x).
  enough (f v = le_val (repeat v (wordlen A))) as H by (destruct (big_endian A); exact H).
  apply Z.eqb_eq.
  assert (forallb (fun v => f v =? le_val (repeat v (wordlen A))) (seqZ 0 256) = true) as H
    by (subst f; destruct A as [[] []]; vm_compute; reflexivity).
  rewrite forallb_forall in H. apply (H v). rewrite <- list_elem_of_In. apply elem_of_seqZ.
  unfold is_byte in Hc. lia.
Qed.

Section Fill.
Context (A : arch) (M0 : mem) (dst c len : Z).
Context (Hdst : mapped M0 dst (dst + len)).
Let W := wordsize A.
Let v := u8 c.

Lemma v_byte : is_byte v.
Proof. unfold v, is_byte, u8. apply (uwrap_range 8). lia. Qed.

Lemma filled_mapped m x p q :
  filled M0 m dst v x -> mapped M0 p q -> mapped m p q.
Proof. intros Hf Hm a Ha. rewrite Hf. destruct (decide _); [eauto|apply Hm; assumption]. Qed.

Lemma set_byte {R} m x :
  filled M0 m dst v x -> 0 <= x < len ->
  exists m', @store8 R m (dst + x) c = Next m' /\ filled M0 m' dst v (x + 1).
Proof.
  intros Hf Hx. destruct (filled_mapped m x dst (dst + len) Hf Hdst (dst + x)) as [b Hb]; [lia|].
  unfold store8. rewrite Hb. eexists. split; [reflexivity|]. intros a. fold v.
  destruct (Z.eq_dec a (dst + x)) as [->|].
  - rewrite lookup_insert_eq, decide_True by lia. reflexivity.
  - rewrite lookup_insert_ne, Hf by lia. repeat destruct (decide _); (reflexivity || lia).
Qed.

Lemma set_tail_spec {R} n m x :
  filled M0 m dst v x -> 0 <= x -> x + Z.of_nat n <= len ->
  exists m', @set_tail R n m c (dst + x) = Next m' /\ filled M0 m' dst v (x + Z.of_nat n).
Proof.
  revert m x. induction n as [|n IH]; intros m x Hf Hx Hn.
  - exists m. rewrite Z.add_0_r. auto.
  - cbn [set_tail]. destruct (@set_byte R m x) as (m1 & -> & Hf1); [assumption|lia|]. cbn [flow_bind].
    rewrite <- Z.add_assoc. destruct (IH m1 (x + 1)) as (m2 & -> & Hf2); [assumption|lia|lia|].
    exists m2. split; [reflexivity|]. replace (x + Z.of_nat (S n)) with (x + 1 + Z.of_nat n) by lia. assumption.
Qed.

Lemma set_align_spec {R} fuel m x :
  filled M0 m dst v x -> 0 <= x -> x + (- (dst + x)) mod W <= len ->
  (- (dst + x)) mod W <= Z.of_nat fuel ->
  exists m' x', @set_align A R fuel m c (dst + x) (len - x) = Next (m', dst + x', len - x') /\
    filled M0 m' dst v x' /\ x <= x' <= len /\ (dst + x') mod W = 0.
Proof.
  pose proof (wordsize_pos A) as HW. fold W in HW.
  revert m x. induction fuel as [|fuel IH]; intros m x Hf Hx Hl Hfu; cbn [set_align]; fold W;
    destruct (Z.eqb_spec ((dst + x) mod W) 0) as [E|E];
    try (exists m, x; repeat split; auto; try lia;
         pose proof (Z.mod_pos_bound (- (dst + x)) W HW); lia).
  - exfalso. apply E. pose proof (Z.mod_pos_bound (- (dst + x)) W HW).
    assert ((- (dst + x)) mod W = 0) as H0 by lia. rewrite <- (Z.opp_involutive (dst + x)).
    apply Z_mod_zero_opp_full. assumption.
  - assert ((- (dst + x)) mod W = W - (dst + x) mod W) as H1 by (apply Z_mod_nz_opp_full; assumption).
    assert ((- (dst + (x + 1))) mod W = (- (dst + x)) mod W - 1) as H2.
    { pose proof (Z.mod_pos_bound (dst + x) W HW). symmetry.
      apply Z.mod_unique with (- ((dst + x) / W) - 1); [lia|].
      pose proof (Z.div_mod (dst + x) W). lia. }
    pose proof (Z.mod_pos_bound (dst + x) W HW).
    destruct (@set_byte R m x) as (m1 & -> & Hf1); [assumption|lia|]. cbn [flow_bind].
    rewrite <- Z.add_assoc. replace (len - x - 1) with (len - (x + 1)) by lia.
    destruct (IH m1 (x + 1)) as (m2 & x2 & -> & Hf2 & Hx2 & Hal2); auto; try lia.
    exists m2, x2. repeat split; auto; lia.
Qed.

Lemma set_words_spec {R} k i m x :
  filled M0 m dst v (x + i * W) -> 0 <= x -> 0 <= i -> x + (i + Z.of_nat k) * W <= len ->
  (dst + x) mod W = 0 ->
  exists m', @set_words A R k i m (cccc A c) (dst + x) = Next m' /\
    filled M0 m' dst v (x + (i + Z.of_nat k) * W).
Proof.
  pose proof (wordsize_pos A) as HW. fold W in HW. pose proof (wordlen_wordsize A) as HWL. fold W in HWL.
  revert i m. induction k as [|k IH]; intros i m Hf Hx Hi Hl Hal.
  - exists m. rewrite Z.add_0_r. auto.
  - cbn [set_words]. unfold op_store, store_word. fold W.
    rewrite Z.mod_add, Hal by lia. simpl (0 =? 0). cbv iota.
    rewrite cccc_word, bytes_of_word_of_bytes by (apply repeat_length || apply Forall_repeat, v_byte).
    destruct (@store_bytes_spec R m (dst + x + i * W) (repeat v (wordlen A))) as (m1 & Hm1 & Hf1).
    { eapply filled_mapped; [exact Hf|]. rewrite repeat_length, HWL. intros a Ha. apply Hdst. nia. }
    { apply Forall_repeat, v_byte. }
    rewrite repeat_length, HWL in Hf1. unfold v in Hm1. rewrite Hm1. cbn [flow_bind]. rewrite <- cccc_word.
    destruct (IH (i + 1) m1) as (m2 & -> & Hf2); auto; try lia.
    + intros a. rewrite Hf1, (Hf a).
      destruct (decide (dst + x + i * W <= a < dst + x + i * W + W)).
      * rewrite decide_True by nia. apply lookup_repeat. lia.
      * repeat destruct (decide _); (reflexivity || nia).
    + exists m2. split; [reflexivity|].
      replace (i + Z.of_nat (S k)) with (i + 1 + Z.of_nat k) by lia. assumption.
Qed.

Lemma set_loop_spec {R} k n m x :
  filled M0 m dst v x -> 0 <= x -> x + Z.of_nat n * (Z.of_nat k * W) <= len -> (dst + x) mod W = 0 ->
  exists m' x', @set_loop A R k n m (cccc A c) (dst + x) = Next (m', dst + x') /\
    x' = x + Z.of_nat n * (Z.of_nat k * W) /\ filled M0 m' dst v x' /\ (dst + x') mod W = 0.
Proof.
  pose proof (wordsize_pos A) as HW. fold W in HW.
  revert m x. induction n as [|n IH]; intros m x Hf Hx Hl Hal.
  - exists m, x. repeat split; auto. lia.
  - cbn [set_loop]. destruct (@set_words_spec R k 0 m x) as (m1 & -> & Hf1); auto; try lia; try nia.
    { rewrite Z.mul_0_l, Z.add_0_r. assumption. }
    cbn [flow_bind]. fold W. rewrite Z.add_0_l in Hf1. rewrite <- Z.add_assoc.
    destruct (IH m1 (x + Z.of_nat k * W)) as (m2 & x2 & -> & Hx2 & Hf2 & Hal2); auto; try nia.
    { rewrite Z.add_assoc, Z.mod_add by lia. assumption. }
    exists m2, x2. repeat split; auto. rewrite Hx2. lia.
Qed.
End Fill.

(** C40: memset stores the low byte of the fill value in every byte of the block and
    nowhere else, and returns the block. *)
Theorem memset_correct A m dst c len :
  mapped m dst (dst + len) -> 0 <= len ->
  exists m', memset A m dst c len = Return (m', dst) /\
    forall a, m' !! a = if decide (dst <= a < dst + len) then Some (u8 c) else m !! a.
Proof.
  intros Hd Hlen. unfold memset. pose proof (wordsize_pos A) as HW. pose proof (wordlen_wordsize A) as HWL.
  assert (filled m m dst (u8 c) 0) as H0.
  { intros a. rewrite decide_False by lia. reflexivity. }
  destruct (Z.leb_spec 8 len) as [H8|H8].
  - pose proof (Z.mod_pos_bound (- (dst + 0)) (wordsize A) HW).
    assert (wordsize A <= 8) by (destruct (wordsize_cases A); lia).
    destruct (@set_align_spec A m dst c len Hd (mem * Z) (wordlen A) m 0) as (m1 & x1 & E1 & Hf1 & Hx1 & Hal1);
      auto; try lia.
    rewrite Z.add_0_r, Z.sub_0_r in E1. rewrite E1. cbn [flow_bind].
    pose proof (Z.div_mod (len - x1) (wordsize A * 8) ltac:(lia)) as D1.
    pose proof (Z.mod_pos_bound (len - x1) (wordsize A * 8) ltac:(lia)) as B1.
    pose proof (Z.div_pos (len - x1) (wordsize A * 8) ltac:(lia) ltac:(lia)).
    destruct (@set_loop_spec A m dst c len Hd (mem * Z) 8 (Z.to_nat ((len - x1) / (wordsize A * 8))) m1 x1)
      as (m2 & x2 & E2 & Hx2 & Hf2 & Hal2); auto; try lia.
    rewrite E2. cbn [flow_bind]. set (r := (len - x1) mod (wordsize A * 8)) in *.
    pose proof (Z.div_mod r (wordsize A) ltac:(lia)) as D2. pose proof (Z.mod_pos_bound r (wordsize A) HW) as B2.
    pose proof (Z.div_pos r (wordsize A) ltac:(lia) ltac:(lia)).
    destruct (@set_loop_spec A m dst c len Hd (mem * Z) 1 (Z.to_nat (r / wordsize A)) m2 x2)
      as (m3 & x3 & E3 & Hx3 & Hf3 & Hal3); auto; try lia.
    rewrite E3. cbn [flow_bind].
    destruct (@set_tail_spec A m dst c len Hd (mem * Z) (Z.to_nat (r mod wordsize A)) m3 x3) as (m4 & E4 & Hf4);
      auto; try lia.
    rewrite E4. cbn [flow_bind]. exists m4. split; [reflexivity|].
    replace (x3 + Z.of_nat (Z.to_nat (r mod wordsize A))) with len in Hf4 by lia. exact Hf4.
  - cbn [flow_bind].
    destruct (@set_tail_spec A m dst c len Hd (mem * Z) (Z.to_nat len) m 0) as (m4 & E4 & Hf4); auto; try lia.
    rewrite Z.add_0_r in E4. rewrite E4. cbn [flow_bind]. exists m4. split; [reflexivity|].
    rewrite Z2Nat.id, Z.add_0_l in Hf4 by lia. exact Hf4.
Qed.

Lemma memset_witness :
  exists m', memset (Arch true true) (mem_of 0 (repeat 5 64)) 3 256 50 = Return (m', 3) /\
    forall a, m' !! a = if decide (3 <= a < 3 + 50) then Some (u8 256) else mem_of 0 (repeat 5 64) !! a.
Proof.
  apply (memset_correct (Arch true true) (mem_of 0 (repeat 5 64)) 3 256 50).
  - apply mem_of_mapped; simpl; lia.
  - lia.
Defined.
