(* ===== verification/Memcmp.v ===== *)
(** Comparing blocks (string/memcmp.c): the pipelined loops over words, aligned and
    merging, which are entered in the middle of their body, and the byte loops around
    them.  The reference compares byte by byte. *)
From S2P Require Import Prelude CMem StringCopy.

Section Memcmp.
Context (A : arch).

(** [a0 - b0] of type [op_t], converted to [int]. *)
Definition op_diff (a0 b0 : Z) : Z := s32 (uwrap (wordbits A) (a0 - b0)).

(** The bytes of the two words in the order of memory; the loop has no other bound. *)
Fixpoint memcmp_bytes {R} (a b : list Z) : flow R Z :=
  match a, b with
  | a0 :: a, b0 :: b => if a0 =? b0 then memcmp_bytes a b else Next (op_diff a0 b0)
  | _, _ => Fault
  end.

Definition CMP_LT_OR_GT {R} (a b : Z) : flow R Z :=
  if big_endian A then Next (if b <? a then 1 else -1)
  else memcmp_bytes (bytes_of_word A a) (bytes_of_word A b).

(** [if (a != b) return CMP_LT_OR_GT (a, b);] *)
Definition check_words (a b : Z) : flow Z unit :=
  if a =? b then Next tt else let! r := CMP_LT_OR_GT a b in Return r.

(** ** Both blocks aligned *)

(** The steps do[4-n] to the end of the body, from step [j] on. *)
Fixpoint cmp_steps (n : nat) (j : Z) (m : mem) (a0 b0 a1 b1 srcp1 srcp2 : Z) : flow Z (Z * Z * Z * Z) :=
  match n with
  | O => Next (a0, b0, a1, b1)
  | S n =>
      if (j =? 0) || (j =? 2) then
        let! a0 := op_load A m srcp1 j in
        let! b0 := op_load A m srcp2 j in
        check_words a1 b1 ;!
        cmp_steps n (j + 1) m a0 b0 a1 b1 srcp1 srcp2
      else
        let! a1 := op_load A m srcp1 j in
        let! b1 := op_load A m srcp2 j in
        check_words a0 b0 ;!
        cmp_steps n (j + 1) m a0 b0 a1 b1 srcp1 srcp2
  end.

Fixpoint cmp_loop (fuel : nat) (j : Z) (m : mem) (a0 b0 a1 b1 srcp1 srcp2 len : Z) : flow Z Empty_set :=
  match fuel with
  | O => NoFuel
  | S fuel =>
      let! '(a0, b0, a1, b1) := cmp_steps (Z.to_nat (4 - j)) j m a0 b0 a1 b1 srcp1 srcp2 in
      let srcp1 := srcp1 + 4 * wordsize A in
      let srcp2 := srcp2 + 4 * wordsize A in
      let len := uwrap (wordbits A) (len - 4) in
      if len =? 0 then check_words a1 b1 ;! Return 0
      else cmp_loop fuel 0 m a0 b0 a1 b1 srcp1 srcp2 len
  end.

Definition memcmp_common_alignment (m : mem) (srcp1 srcp2 len : Z) : flow Z Empty_set :=
  let W := wordsize A in
  let fuel := S (Z.to_nat len) in
  match len mod 4 with
  | 2 => let! a0 := op_load A m srcp1 0 in
         let! b0 := op_load A m srcp2 0 in
         cmp_loop fuel 3 m a0 b0 0 0 (srcp1 - 2 * W) (srcp2 - 2 * W) (len + 2)
  | 3 => let! a1 := op_load A m srcp1 0 in
         let! b1 := op_load A m srcp2 0 in
         cmp_loop fuel 2 m 0 0 a1 b1 (srcp1 - W) (srcp2 - W) (len + 1)
  | 0 => if small_thres A && (len =? 0) then Return 0 else
         let! a0 := op_load A m srcp1 0 in
         let! b0 := op_load A m srcp2 0 in
         cmp_loop fuel 1 m a0 b0 0 0 srcp1 srcp2 len
  | _ => let! a1 := op_load A m srcp1 0 in
         let! b1 := op_load A m srcp2 0 in
         let srcp1 := srcp1 + W in
         let srcp2 := srcp2 + W in
         let len := len - 1 in
         if small_thres A && (len =? 0) then check_words a1 b1 ;! Return 0
         else cmp_loop fuel 0 m 0 0 a1 b1 srcp1 srcp2 len
  end.

(** ** The first block not aligned *)

Fixpoint cmp_da_steps (n : nat) (j : Z) (m : mem) (a0 a1 a2 a3 b0 b1 b2 b3 shl shr srcp1 srcp2 : Z) :
    flow Z (Z * Z * Z * Z * Z * Z * Z * Z) :=
  match n with
  | O => Next (a0, a1, a2, a3, b0, b1, b2, b3)
  | S n =>
      match j with
      | 0 => let! a0 := op_load A m srcp1 0 in
             let! b0 := op_load A m srcp2 0 in
             check_words (MERGE A a2 shl a3 shr) b3 ;!
             cmp_da_steps n 1 m a0 a1 a2 a3 b0 b1 b2 b3 shl shr srcp1 srcp2
      | 1 => let! a1 := op_load A m srcp1 1 in
             let! b1 := op_load A m srcp2 1 in
             check_words (MERGE A a3 shl a0 shr) b0 ;!
             cmp_da_steps n 2 m a0 a1 a2 a3 b0 b1 b2 b3 shl shr srcp1 srcp2
      | 2 => let! a2 := op_load A m srcp1 2 in
             let! b2 := op_load A m srcp2 2 in
             check_words (MERGE A a0 shl a1 shr) b1 ;!
             cmp_da_steps n 3 m a0 a1 a2 a3 b0 b1 b2 b3 shl shr srcp1 srcp2
      | _ => let! a3 := op_load A m srcp1 3 in
             let! b3 := op_load A m srcp2 3 in
             check_words (MERGE A a1 shl a2 shr) b2 ;!
             cmp_da_steps n 4 m a0 a1 a2 a3 b0 b1 b2 b3 shl shr srcp1 srcp2
      end
  end.

Fixpoint cmp_da_loop (fuel : nat) (j : Z) (m : mem) (a0 a1 a2 a3 b0 b1 b2 b3 shl shr srcp1 srcp2 len : Z) : flow Z Empty_set :=
  match fuel with
  | O => NoFuel
  | S fuel =>
      let! '(a0, a1, a2, a3, b0, b1, b2, b3) :=
        cmp_da_steps (Z.to_nat (4 - j)) j m a0 a1 a2 a3 b0 b1 b2 b3 shl shr srcp1 srcp2 in
      let srcp1 := srcp1 + 4 * wordsize A in
      let srcp2 := srcp2 + 4 * wordsize A in
      let len := uwrap (wordbits A) (len - 4) in
      if len =? 0 then check_words (MERGE A a2 shl a3 shr) b3 ;! Return 0
      else cmp_da_loop fuel 0 m a0 a1 a2 a3 b0 b1 b2 b3 shl shr srcp1 srcp2 len
  end.

Definition memcmp_not_common_alignment (m : mem) (srcp1 srcp2 len : Z) : flow Z Empty_set :=
  let W := wordsize A in
  let fuel := S (Z.to_nat len) in
  let shl := 8 * (srcp1 mod W) in
  let shr := 8 * W - shl in
  let srcp1 := Z.land srcp1 (- W) in
  match len mod 4 with
  | 2 => let! a1 := op_load A m srcp1 0 in
         let! a2 := op_load A m srcp1 1 in
         let! b2 := op_load A m srcp2 0 in
         cmp_da_loop fuel 3 m 0 a1 a2 0 0 0 b2 0 shl shr (srcp1 - 1 * W) (srcp2 - 2 * W) (len + 2)
  | 3 => let! a0 := op_load A m srcp1 0 in
         let! a1 := op_load A m srcp1 1 in
         let! b1 := op_load A m srcp2 0 in
         cmp_da_loop fuel 2 m a0 a1 0 0 0 b1 0 0 shl shr srcp1 (srcp2 - 1 * W) (len + 1)
  | 0 => if small_thres A && (len =? 0) then Return 0 else
         let! a3 := op_load A m srcp1 0 in
         let! a0 := op_load A m srcp1 1 in
         let! b0 := op_load A m srcp2 0 in
         cmp_da_loop fuel 1 m a0 0 0 a3 b0 0 0 0 shl shr (srcp1 + 1 * W) srcp2 len
  | _ => let! a2 := op_load A m srcp1 0 in
         let! a3 := op_load A m srcp1 1 in
         let! b3 := op_load A m srcp2 0 in
         let srcp1 := srcp1 + 2 * W in
         let srcp2 := srcp2 + 1 * W in
         let len := len - 1 in
         if small_thres A && (len =? 0) then check_words (MERGE A a2 shl a3 shr) b3 ;! Return 0
         else cmp_da_loop fuel 0 m 0 0 a2 a3 0 0 0 b3 shl shr srcp1 srcp2 len
  end.

(** ** memcmp *)

(** One byte: [res = a0 - b0; if (res != 0) return res;] *)
Definition check_bytes_at (m : mem) (srcp1 srcp2 : Z) : flow Z unit :=
  let! a0 := load8 m srcp1 in
  let! b0 := load8 m srcp2 in
  if uwrap (wordbits A) (a0 - b0) =? 0 then Next tt else Return (op_diff a0 b0).

(** [while (srcp2 % OPSIZ != 0)] *)
Fixpoint cmp_align (fuel : nat) (m : mem) (srcp1 srcp2 len : Z) : flow Z (Z * Z * Z) :=
  if srcp2 mod wordsize A =? 0 then Next (srcp1, srcp2, len) else
  match fuel with
  | O => NoFuel
  | S fuel => check_bytes_at m srcp1 srcp2 ;! cmp_align fuel m (srcp1 + 1) (srcp2 + 1) (len - 1)
  end.

(** [while (len != 0)] *)
Fixpoint cmp_tail (len : nat) (m : mem) (srcp1 srcp2 : Z) : flow Z Empty_set :=
  match len with
  | O => Return 0
  | S len => check_bytes_at m srcp1 srcp2 ;! cmp_tail len m (srcp1 + 1) (srcp2 + 1)
  end.

Definition memcmp (m : mem) (s1 s2 len : Z) : flow Z Empty_set :=
  if OP_T_THRES <=? len then
    let! '(srcp1, srcp2, len) := cmp_align (Z.to_nat (wordsize A)) m s1 s2 len in
    let! res := flow_call (if srcp1 mod wordsize A =? 0
                           then memcmp_common_alignment m srcp1 srcp2 (len / wordsize A)
                           else memcmp_not_common_alignment m srcp1 srcp2 (len / wordsize A)) in
    let res := uwrap (wordbits A) res in
    if negb (res =? 0) then Return (s32 res) else
    let srcp1 := srcp1 + Z.land len (- wordsize A) in
    let srcp2 := srcp2 + Z.land len (- wordsize A) in
    cmp_tail (Z.to_nat (len mod wordsize A)) m srcp1 srcp2
  else cmp_tail (Z.to_nat len) m s1 s2.
End Memcmp.

(** * The reference *)

(** The difference of the first two bytes that differ, 0 if there are none. *)
Fixpoint diff (xs ys : list Z) : Z :=
  match xs, ys with
  | x :: xs, y :: ys => if x =? y then diff xs ys else x - y
  | _, _ => 0
  end.

(** The result has the sign of the difference; on little-endian machines it is the difference. *)
Definition agrees (A : arch) (r d : Z) : Prop := if big_endian A then Z.sgn r = Z.sgn d else r = d.

Example memcmp_unaligned :
  let x := [9; 9; 9; 1; 2; 3; 4; 5; 6; 7; 8; 9; 10; 11; 12; 13; 14; 15; 16; 17; 18; 200; 20; 21] in
  let y := [1; 2; 3; 4; 5; 6; 7; 8; 9; 10; 11; 12; 13; 14; 15; 16; 17; 18; 19; 20; 21] in
  let m := mem_of 96 (x ++ repeat 0 8 ++ y) in
  memcmp (Arch true false) m 99 128 21 = Return 181 /\ memcmp (Arch false true) m 99 128 21 = Return 1 /\
  memcmp (Arch true true) m 128 99 18 = Return 0.
Proof. vm_compute. auto. Qed.

(** * Proofs *)

Lemma diff_app x1 y1 x2 y2 : length x1 = length y1 -> diff (x1 ++ x2) (y1 ++ y2) = if diff x1 y1 =? 0 then diff x2 y2 else diff x1 y1.
Proof.
  revert y1. induction x1 as [|x x1 IH]; intros [|y y1] Hl; try discriminate; [reflexivity|]. cbn [diff app].
  destruct (Z.eqb_spec x y); [apply IH; injection Hl; auto|]. rewrite (proj2 (Z.eqb_neq (x - y) 0)) by lia. reflexivity.
Qed.

Lemma diff_zero xs ys : length xs = length ys -> (diff xs ys = 0 <-> xs = ys).
Proof.
  revert ys. induction xs as [|x xs IH]; intros [|y ys] Hl; try discriminate; [split; reflexivity|]. injection Hl as Hl. cbn [diff].
  destruct (Z.eqb_spec x y) as [->|Hne]; [rewrite IH by assumption; split; congruence|]. split; [lia|congruence].
Qed.

Lemma diff_opp xs : forall ys, diff ys xs = - diff xs ys.
Proof.
  induction xs as [|x xs IH]; intros [|y ys]; try reflexivity. cbn [diff]. rewrite (Z.eqb_sym y x). destruct (x =? y); [apply IH|lia].
Qed.

Lemma diff_range xs ys : Forall is_byte xs -> Forall is_byte ys -> -255 <= diff xs ys <= 255.
Proof.
  intros Hx. revert ys. induction Hx as [|x xs Hx _ IH]; intros ys Hy; [simpl; lia|]. destruct Hy as [|y ys Hy Hys]; [simpl; lia|]. cbn [diff].
  destruct (x =? y); [apply IH; assumption|]. unfold is_byte in *. lia.
Qed.

Section Proofs.
Context (A : arch).
Abbreviation W := (wordsize A).

Lemma int_roundtrip r : -255 <= r <= 255 -> s32 (uwrap (wordbits A) r) = r /\ ((uwrap (wordbits A) r =? 0) = (r =? 0)).
Proof.
  intros Hr. unfold s32, swrap, uwrap, wordbits. destruct (wordsize_cases A) as [-> | ->];
    [change (2 ^ (8 * 4)) with (2 ^ 32)|change (2 ^ (8 * 8)) with (2 ^ 32 * 2 ^ 32)];
    change (2 ^ 32) with 4294967296; change (2 ^ (32 - 1)) with 2147483648;
    (split; [Z.div_mod_to_equations; lia|destruct (Z.eqb_spec r 0) as [->|]; [reflexivity|apply Z.eqb_neq; Z.div_mod_to_equations; lia]]).
Qed.

Lemma op_diff_bytes x y : is_byte x -> is_byte y -> op_diff A x y = x - y /\ ((uwrap (wordbits A) (x - y) =? 0) = (x =? y)).
Proof.
  intros Hx Hy. unfold is_byte in *. destruct (int_roundtrip (x - y)) as [E ->]; [lia|]. split; [exact E|].
  destruct (Z.eqb_spec x y), (Z.eqb_spec (x - y) 0); auto; lia.
Qed.

Lemma memcmp_bytes_spec {R} xs : forall ys, length xs = length ys -> Forall is_byte xs -> Forall is_byte ys -> xs <> ys ->
  @memcmp_bytes A R xs ys = Next (diff xs ys).
Proof.
  induction xs as [|x xs IH]; intros [|y ys] Hl Hx Hy Hne; try discriminate; [congruence|]. injection Hl as Hl.
  apply Forall_cons in Hx as [Hx0 Hx], Hy as [Hy0 Hy]. cbn [memcmp_bytes diff]. destruct (Z.eqb_spec x y) as [->|].
  - apply IH; auto. congruence.
  - f_equal. apply op_diff_bytes; assumption.
Qed.

(** Big-endian words are ordered like their bytes. *)
Lemma be_val_lt xs : forall ys, length xs = length ys -> Forall is_byte xs -> Forall is_byte ys -> (be_val xs < be_val ys <-> diff xs ys < 0).
Proof.
  induction xs as [|x xs IH]; intros [|y ys] Hl Hx Hy; try discriminate; [cbn; lia|]. injection Hl as Hl.
  apply Forall_cons in Hx as [Hx0 Hx], Hy as [Hy0 Hy]. specialize (IH ys Hl Hx Hy). unfold be_val in *. cbn [rev diff].
  rewrite !le_val_app, !length_rev, <- Hl. cbn [le_val].
  pose proof (le_val_bound (rev xs) (rev_Forall _ _ Hx)) as Bx. pose proof (le_val_bound (rev ys) (rev_Forall _ _ Hy)) as By.
  rewrite length_rev in Bx, By. rewrite <- Hl in By. set (k := 256 ^ Z.of_nat (length xs)) in *. clearbody k.
  destruct (Z.eqb_spec x y) as [->|]; [lia|]. nia.
Qed.

Lemma CMP_spec {R} xs ys : length xs = wordlen A -> length ys = wordlen A -> Forall is_byte xs -> Forall is_byte ys -> xs <> ys ->
  exists r, @CMP_LT_OR_GT A R (word_of_bytes A xs) (word_of_bytes A ys) = Next r /\ agrees A r (diff xs ys) /\ r <> 0 /\ -255 <= r <= 255.
Proof.
  intros Hlx Hly Hx Hy Hne. assert (diff xs ys <> 0) as Hd by (rewrite diff_zero by congruence; assumption).
  unfold CMP_LT_OR_GT, agrees. rewrite !bytes_of_word_of_bytes by assumption. unfold word_of_bytes. destruct (big_endian A).
  - pose proof (be_val_lt xs ys ltac:(congruence) Hx Hy) as H1. pose proof (be_val_lt ys xs ltac:(congruence) Hy Hx) as H2. rewrite diff_opp in H2. destruct (Z.ltb_spec (be_val ys) (be_val xs)); eexists; (split; [reflexivity|]); lia.
  - rewrite memcmp_bytes_spec by (assumption || congruence). eexists. split; [reflexivity|]. pose proof (diff_range xs ys Hx Hy). auto.
Qed.

(** ** The pipelines do the words one after the other *)

(** Words [i], [i + 1], ... of the two blocks. *)
Fixpoint words_cmp (f g : Z -> Z) (n : nat) (i : Z) : flow Z Empty_set :=
  match n with
  | O => Return 0
  | S n => check_words A (f i) (g i) ;! words_cmp f g n (i + 1)
  end.

Fixpoint checks (f g : Z -> Z) (n : nat) (i : Z) : flow Z unit :=
  match n with
  | O => Next tt
  | S n => check_words A (f i) (g i) ;! checks f g n (i + 1)
  end.

Lemma bind_assoc {R T U V} (c : flow R T) (k1 : T -> flow R U) (k2 : U -> flow R V) :
  flow_bind (flow_bind c k1) k2 = flow_bind c (fun x => flow_bind (k1 x) k2).
Proof. destruct c; reflexivity. Qed.

Lemma words_cmp_checks f g k : forall n i, words_cmp f g (k + n) i = (checks f g k i ;! words_cmp f g n (i + Z.of_nat k)).
Proof.
  induction k as [|k IH]; intros n i; cbn [Nat.add words_cmp checks flow_bind]; [rewrite Z.add_0_r; reflexivity|].
  destruct (check_words A (f i) (g i)); cbn [flow_bind]; try reflexivity. rewrite IH. replace (i + 1 + Z.of_nat k) with (i + Z.of_nat (S k)) by lia. reflexivity.
Qed.

Section Pipe.
Context (m : mem) (s1 s2 n : Z) (f g h : Z -> Z).
Hypothesis load2 : forall i, 0 <= i < n -> @load_word Z A m (s2 + i * W) = Next (g i).

Lemma op_load_word {R} s q j i (v : Z) : @load_word R A m (s + i * W) = Next v -> q = s + (i - j) * W -> @op_load A R m q j = Next v.
Proof. intros H ->. unfold op_load. replace (s + (i - j) * W + j * W) with (s + i * W) by lia. exact H. Qed.

Section Aligned.
Hypothesis load1 : forall i, 0 <= i < n -> @load_word Z A m (s1 + i * W) = Next (f i).

Lemma cmp_steps_spec k : forall j i a0 b0 a1 b1 p1 p2,
  0 <= j -> j + Z.of_nat k = 4 -> 0 <= i -> i + Z.of_nat k < n -> p1 = s1 + (i + 1 - j) * W -> p2 = s2 + (i + 1 - j) * W ->
  (if Z.even j then a1 = f i /\ b1 = g i else a0 = f i /\ b0 = g i) ->
  exists a0' b0', cmp_steps A k j m a0 b0 a1 b1 p1 p2 = (checks f g k i ;! Next (a0', b0', f (i + Z.of_nat k), g (i + Z.of_nat k))).
Proof.
  induction k as [|k IH]; intros j i a0 b0 a1 b1 p1 p2 Hj Hk Hi Hn E1 E2 Hp.
  - replace j with 4 in Hp by lia. destruct Hp as [-> ->]. exists a0, b0. cbn. rewrite Z.add_0_r. reflexivity.
  - cbn [cmp_steps checks]. pose proof (fun a0 b0 a1 b1 => IH (j + 1) (i + 1) a0 b0 a1 b1 p1 p2) as IHk. replace (i + 1 + Z.of_nat k) with (i + Z.of_nat (S k)) in IHk by lia.
    pose proof (op_load_word s1 p1 j (i + 1) _ (load1 (i + 1) ltac:(lia)) E1) as L1. pose proof (op_load_word s2 p2 j (i + 1) _ (load2 (i + 1) ltac:(lia)) E2) as L2.
    assert ((j =? 0) || (j =? 2) = Z.even j) as -> by (assert (j = 0 \/ j = 1 \/ j = 2 \/ j = 3) as [-> | [-> | [-> | ->]]] by lia; reflexivity).
    rewrite Z.add_1_r, Z.even_succ, <- Z.negb_even, <- Z.add_1_r in IHk. destruct (Z.even j); destruct Hp as [-> ->]; rewrite L1, L2; cbn [flow_bind negb] in *.
    + destruct (IHk (f (i + 1)) (g (i + 1)) (f i) (g i)) as (a0' & b0' & E); [lia..|auto|]. exists a0', b0'. rewrite E, bind_assoc. reflexivity.
    + destruct (IHk (f i) (g i) (f (i + 1)) (g (i + 1))) as (a0' & b0' & E); [lia..|auto|]. exists a0', b0'. rewrite E, bind_assoc. reflexivity.
Qed.

Lemma cmp_loop_spec fuel : forall j i a0 b0 a1 b1 p1 p2 len,
  0 <= j <= 3 -> 0 <= i -> i + (len - j) + 1 = n -> 0 < len < 2 ^ wordbits A -> len mod 4 = 0 -> len <= 4 * Z.of_nat fuel ->
  p1 = s1 + (i + 1 - j) * W -> p2 = s2 + (i + 1 - j) * W ->
  (if Z.even j then a1 = f i /\ b1 = g i else a0 = f i /\ b0 = g i) ->
  cmp_loop A fuel j m a0 b0 a1 b1 p1 p2 len = words_cmp f g (Z.to_nat (n - i)) i.
Proof.
  induction fuel as [|fuel IH]; intros j i a0 b0 a1 b1 p1 p2 len Hj Hi Hn Hlen Hm Hf E1 E2 Hp; [lia|]. cbn [cmp_loop].
  assert (4 <= len) as H4 by (Z.div_mod_to_equations; lia).
  destruct (cmp_steps_spec (Z.to_nat (4 - j)) j i a0 b0 a1 b1 p1 p2) as (a0' & b0' & ->); try assumption; try lia.
  replace (Z.to_nat (n - i)) with (Z.to_nat (4 - j) + Z.to_nat (n - (i + (4 - j))))%nat by lia. rewrite words_cmp_checks, bind_assoc.
  replace (i + Z.of_nat (Z.to_nat (4 - j))) with (i + (4 - j)) by lia.
  destruct (checks f g _ i); cbn [flow_bind]; try reflexivity. rewrite uwrap_small by lia. destruct (Z.eqb_spec (len - 4) 0).
  - replace (Z.to_nat (n - (i + (4 - j)))) with 1%nat by lia. reflexivity.
  - apply IH; try lia; [Z.div_mod_to_equations; lia|split; reflexivity].
Qed.

Lemma common_alignment_spec : 1 <= n -> small_thres A = true \/ 2 <= n -> n + 8 < 2 ^ wordbits A ->
  memcmp_common_alignment A m s1 s2 n = words_cmp f g (Z.to_nat n) 0.
Proof.
  intros H1 Hs Hb. unfold memcmp_common_alignment. pose proof (Z.div_mod n 4 ltac:(lia)) as E. pose proof (Z.mod_pos_bound n 4 ltac:(lia)) as Hm.
  pose proof (load1 0 ltac:(lia)) as L1. pose proof (load2 0 ltac:(lia)) as L2. replace (s1 + 0 * W) with s1 in L1 by lia. replace (s2 + 0 * W) with s2 in L2 by lia.
  pose proof (op_load_word s1 s1 0 0 _ (load1 0 ltac:(lia)) ltac:(lia)) as O1. pose proof (op_load_word s2 s2 0 0 _ (load2 0 ltac:(lia)) ltac:(lia)) as O2.
  assert (n mod 4 = 0 \/ n mod 4 = 1 \/ n mod 4 = 2 \/ n mod 4 = 3) as Hc by lia. destruct Hc as [Hc|[Hc|[Hc|Hc]]]; rewrite Hc, O1, O2; cbn [flow_bind];
    replace (Z.to_nat n) with (Z.to_nat (n - 0)) by lia.
  - rewrite (proj2 (Z.eqb_neq n 0)), andb_false_r by lia. apply cmp_loop_spec; cbn [Z.even]; auto; lia.
  - destruct (Z.eqb_spec (n - 1) 0) as [E1|E1].
    + destruct Hs as [-> | Hs]; [|lia]. replace (Z.to_nat (n - 0)) with 1%nat by lia. reflexivity.
    + rewrite andb_false_r. apply cmp_loop_spec; cbn [Z.even]; auto; try lia. Z.div_mod_to_equations; lia.
  - apply cmp_loop_spec; cbn [Z.even]; auto; try lia. Z.div_mod_to_equations; lia.
  - apply cmp_loop_spec; cbn [Z.even]; auto; try lia. Z.div_mod_to_equations; lia.
Qed.
End Aligned.

Section Unaligned.
Context (sa shl shr : Z).
Hypothesis load1 : forall i, 0 <= i <= n -> @load_word Z A m (sa + i * W) = Next (h i).
Hypothesis f_merge : forall i, f i = MERGE A (h i) shl (h (i + 1)) shr.

(** The registers with the two halves of the pending word and its counterpart before step [j]. *)
Definition da_pend (j a0 a1 a2 a3 b0 b1 b2 b3 : Z) : Z * Z * Z :=
  match j with 1 => (a3, a0, b0) | 2 => (a0, a1, b1) | 3 => (a1, a2, b2) | _ => (a2, a3, b3) end.

Lemma cmp_da_steps_spec k : forall j i a0 a1 a2 a3 b0 b1 b2 b3 p1 p2,
  0 <= j -> j + Z.of_nat k = 4 -> 0 <= i -> i + Z.of_nat k < n -> p1 = sa + (i + 2 - j) * W -> p2 = s2 + (i + 1 - j) * W ->
  da_pend j a0 a1 a2 a3 b0 b1 b2 b3 = (h i, h (i + 1), g i) ->
  exists a0' a1' b0' b1' b2', cmp_da_steps A k j m a0 a1 a2 a3 b0 b1 b2 b3 shl shr p1 p2 =
    (checks f g k i ;! Next (a0', a1', h (i + Z.of_nat k), h (i + Z.of_nat k + 1), b0', b1', b2', g (i + Z.of_nat k))).
Proof.
  induction k as [|k IH]; intros j i a0 a1 a2 a3 b0 b1 b2 b3 p1 p2 Hj Hk Hi Hn E1 E2 Hp.
  - replace j with 4 in Hp by lia. injection Hp as -> -> ->. exists a0, a1, b0, b1, b2. cbn. rewrite Z.add_0_r. reflexivity.
  - cbn [cmp_da_steps checks]. pose proof (fun a0 a1 a2 a3 b0 b1 b2 b3 => IH (j + 1) (i + 1) a0 a1 a2 a3 b0 b1 b2 b3 p1 p2) as IHk.
    replace (i + 1 + Z.of_nat k) with (i + Z.of_nat (S k)) in IHk by lia. replace (i + 1 + 1) with (i + 2) in IHk by lia.
    pose proof (op_load_word sa p1 j (i + 2) _ (load1 (i + 2) ltac:(lia)) E1) as L1. pose proof (op_load_word s2 p2 j (i + 1) _ (load2 (i + 1) ltac:(lia)) E2) as L2.
    assert (j = 0 \/ j = 1 \/ j = 2 \/ j = 3) as Hc by lia.
    destruct Hc as [-> | [-> | [-> | ->]]]; injection Hp as -> -> ->; rewrite L1, L2; cbn [flow_bind]; rewrite <- f_merge.
    + destruct (IHk (h (i + 2)) a1 (h i) (h (i + 1)) (g (i + 1)) b1 b2 (g i)) as (c0 & c1 & d0 & d1 & d2 & E); [lia..|reflexivity|].
      exists c0, c1, d0, d1, d2. change (0 + 1) with 1 in E. rewrite E, bind_assoc. reflexivity.
    + destruct (IHk (h (i + 1)) (h (i + 2)) a2 (h i) (g i) (g (i + 1)) b2 b3) as (c0 & c1 & d0 & d1 & d2 & E); [lia..|reflexivity|].
      exists c0, c1, d0, d1, d2. change (1 + 1) with 2 in E. rewrite E, bind_assoc. reflexivity.
    + destruct (IHk (h i) (h (i + 1)) (h (i + 2)) a3 b0 (g i) (g (i + 1)) b3) as (c0 & c1 & d0 & d1 & d2 & E); [lia..|reflexivity|].
      exists c0, c1, d0, d1, d2. change (2 + 1) with 3 in E. rewrite E, bind_assoc. reflexivity.
    + destruct (IHk a0 (h i) (h (i + 1)) (h (i + 2)) b0 b1 (g i) (g (i + 1))) as (c0 & c1 & d0 & d1 & d2 & E); [lia..|reflexivity|].
      exists c0, c1, d0, d1, d2. change (3 + 1) with 4 in E. rewrite E, bind_assoc. reflexivity.
Qed.

Lemma cmp_da_loop_spec fuel : forall j i a0 a1 a2 a3 b0 b1 b2 b3 p1 p2 len,
  0 <= j <= 3 -> 0 <= i -> i + (len - j) + 1 = n -> 0 < len < 2 ^ wordbits A -> len mod 4 = 0 -> len <= 4 * Z.of_nat fuel ->
  p1 = sa + (i + 2 - j) * W -> p2 = s2 + (i + 1 - j) * W -> da_pend j a0 a1 a2 a3 b0 b1 b2 b3 = (h i, h (i + 1), g i) ->
  cmp_da_loop A fuel j m a0 a1 a2 a3 b0 b1 b2 b3 shl shr p1 p2 len = words_cmp f g (Z.to_nat (n - i)) i.
Proof.
  induction fuel as [|fuel IH]; intros j i a0 a1 a2 a3 b0 b1 b2 b3 p1 p2 len Hj Hi Hn Hlen Hm Hf E1 E2 Hp; [lia|]. cbn [cmp_da_loop].
  assert (4 <= len) as H4 by (Z.div_mod_to_equations; lia).
  destruct (cmp_da_steps_spec (Z.to_nat (4 - j)) j i a0 a1 a2 a3 b0 b1 b2 b3 p1 p2) as (c0 & c1 & d0 & d1 & d2 & ->); try assumption; try lia.
  replace (Z.to_nat (n - i)) with (Z.to_nat (4 - j) + Z.to_nat (n - (i + (4 - j))))%nat by lia. rewrite words_cmp_checks, bind_assoc.
  replace (i + Z.of_nat (Z.to_nat (4 - j))) with (i + (4 - j)) by lia.
  destruct (checks f g _ i); cbn [flow_bind]; try reflexivity. rewrite uwrap_small by lia. destruct (Z.eqb_spec (len - 4) 0).
  - replace (Z.to_nat (n - (i + (4 - j)))) with 1%nat by lia. rewrite <- f_merge. reflexivity.
  - apply IH; try lia; auto. Z.div_mod_to_equations; lia.
Qed.

Lemma not_common_alignment_spec : 1 <= n -> small_thres A = true \/ 2 <= n -> n + 8 < 2 ^ wordbits A ->
  sa = Z.land s1 (- W) -> shl = 8 * (s1 mod W) -> shr = 8 * W - shl ->
  memcmp_not_common_alignment A m s1 s2 n = words_cmp f g (Z.to_nat n) 0.
Proof.
  intros H1 Hs Hb Esa Eshl Eshr. unfold memcmp_not_common_alignment. rewrite <- Esa, <- Eshl, <- Eshr.
  pose proof (Z.div_mod n 4 ltac:(lia)) as E. pose proof (Z.mod_pos_bound n 4 ltac:(lia)) as Hm.
  pose proof (op_load_word sa sa 0 0 _ (load1 0 ltac:(lia)) ltac:(lia)) as O1. pose proof (op_load_word sa sa 1 1 _ (load1 1 ltac:(lia)) ltac:(lia)) as O1'.
  pose proof (op_load_word s2 s2 0 0 _ (load2 0 ltac:(lia)) ltac:(lia)) as O2.
  assert (n mod 4 = 0 \/ n mod 4 = 1 \/ n mod 4 = 2 \/ n mod 4 = 3) as Hc by lia. destruct Hc as [Hc|[Hc|[Hc|Hc]]]; rewrite Hc, O1, O1', O2; cbn [flow_bind];
    replace (Z.to_nat n) with (Z.to_nat (n - 0)) by lia.
  - rewrite (proj2 (Z.eqb_neq n 0)), andb_false_r by lia. apply cmp_da_loop_spec; auto; lia.
  - destruct (Z.eqb_spec (n - 1) 0) as [E1|E1].
    + destruct Hs as [-> | Hs]; [|lia]. replace (Z.to_nat (n - 0)) with 1%nat by lia. cbn [andb]. change (h 1) with (h (0 + 1)). rewrite <- f_merge. reflexivity.
    + rewrite andb_false_r. apply cmp_da_loop_spec; auto; try lia. Z.div_mod_to_equations; lia.
  - apply cmp_da_loop_spec; auto; try lia. Z.div_mod_to_equations; lia.
  - apply cmp_da_loop_spec; auto; try lia. Z.div_mod_to_equations; lia.
Qed.
End Unaligned.
End Pipe.

(** ** Words and bytes *)

Definition chunk (xs : list Z) (i : Z) : list Z := take (wordlen A) (drop (Z.to_nat i * wordlen A) xs).

Lemma chunk_length xs i n : 0 <= i < n -> (Z.to_nat n * wordlen A <= length xs)%nat -> length (chunk xs i) = wordlen A.
Proof. intros Hi Hn. unfold chunk. rewrite length_take, length_drop. assert (S (Z.to_nat i) <= Z.to_nat n)%nat by lia. nia. Qed.

Lemma chunk_at m s xs i : 0 <= i -> bytes_at m s xs -> bytes_at m (s + i * W) (chunk xs i).
Proof.
  intros Hi Hx j v Hv. unfold chunk in Hv. apply lookup_take_Some in Hv as [Hv _]. rewrite lookup_drop in Hv. apply Hx in Hv. rewrite <- Hv. f_equal.
  rewrite <- wordlen_wordsize. lia.
Qed.

Lemma chunk_bytes xs i : Forall is_byte xs -> Forall is_byte (chunk xs i).
Proof. intros H. apply Forall_take, Forall_drop, H. Qed.

Lemma check_words_spec xs ys : length xs = wordlen A -> length ys = wordlen A -> Forall is_byte xs -> Forall is_byte ys ->
  exists r, check_words A (word_of_bytes A xs) (word_of_bytes A ys) = (if diff xs ys =? 0 then Next tt else Return r) /\
    agrees A r (diff xs ys) /\ (r = 0 <-> diff xs ys = 0) /\ -255 <= r <= 255.
Proof.
  intros Hlx Hly Hx Hy. unfold check_words. pose proof (diff_zero xs ys ltac:(congruence)) as Hz. destruct (Z.eqb_spec (diff xs ys) 0) as [E|E].
  - exists 0. apply Hz in E as ->. rewrite Z.eqb_refl, (proj2 (diff_zero ys ys eq_refl)) by reflexivity. unfold agrees. destruct (big_endian A); repeat split; lia.
  - assert (xs <> ys) as Hne by tauto. destruct (CMP_spec (R := Z) xs ys Hlx Hly Hx Hy Hne) as (r & -> & Ha & Hr & Hb).
    exists r. rewrite (proj2 (Z.eqb_neq _ _)); [cbn; tauto|]. intros Ew. apply Hne.
    rewrite <- (bytes_of_word_of_bytes A xs), <- (bytes_of_word_of_bytes A ys) by assumption. congruence.
Qed.

Lemma words_cmp_bytes f g n : forall i xs ys,
  length xs = (n * wordlen A)%nat -> length ys = (n * wordlen A)%nat -> Forall is_byte xs -> Forall is_byte ys ->
  (forall k, 0 <= k < Z.of_nat n -> f (i + k) = word_of_bytes A (chunk xs k) /\ g (i + k) = word_of_bytes A (chunk ys k)) ->
  exists r, words_cmp f g n i = Return r /\ agrees A r (diff xs ys) /\ (r = 0 <-> diff xs ys = 0) /\ -255 <= r <= 255.
Proof.
  induction n as [|n IH]; intros i xs ys Hlx Hly Hx Hy Hfg.
  - destruct xs; [|discriminate]. exists 0. unfold agrees. cbn. destruct (big_endian A); repeat split; lia.
  - cbn [words_cmp]. destruct (Hfg 0 ltac:(lia)) as [E1 E2]. rewrite Z.add_0_r in E1, E2. rewrite E1, E2.
    unfold chunk. cbn [Z.to_nat Nat.mul]. rewrite !drop_0. rewrite <- (take_drop (wordlen A) xs) in Hx. rewrite <- (take_drop (wordlen A) ys) in Hy.
    apply Forall_app in Hx as [Hx1 Hx2], Hy as [Hy1 Hy2].
    assert (length (take (wordlen A) xs) = wordlen A) as L1 by (rewrite length_take; lia). assert (length (take (wordlen A) ys) = wordlen A) as L2 by (rewrite length_take; lia).
    destruct (check_words_spec (take (wordlen A) xs) (take (wordlen A) ys) L1 L2 Hx1 Hy1) as (r & -> & Hag & Hz & Hr).
    assert (diff xs ys = if diff (take (wordlen A) xs) (take (wordlen A) ys) =? 0 then diff (drop (wordlen A) xs) (drop (wordlen A) ys)
      else diff (take (wordlen A) xs) (take (wordlen A) ys)) as -> by (rewrite <- diff_app, !take_drop by congruence; reflexivity).
    destruct (Z.eqb_spec (diff (take (wordlen A) xs) (take (wordlen A) ys)) 0); cbn [flow_bind].
    + apply IH; auto; rewrite ?length_drop; try lia. intros k Hk. replace (i + 1 + k) with (i + (k + 1)) by lia.
      destruct (Hfg (k + 1) ltac:(lia)) as [-> ->]. unfold chunk. rewrite !drop_drop.
      replace (Z.to_nat (k + 1) * wordlen A)%nat with (wordlen A + Z.to_nat k * wordlen A)%nat by (replace (Z.to_nat (k + 1)) with (S (Z.to_nat k)) by lia; lia). auto.
    + exists r. auto.
Qed.

(** ** The two blocks *)

Section Blocks.
Context (m : mem) (Hwf : wf_mem m).

Lemma load_chunk {R} s xs i n : s mod W = 0 -> bytes_at m s xs -> 0 <= i < n -> (Z.to_nat n * wordlen A <= length xs)%nat ->
  @load_word R A m (s + i * W) = Next (word_of_bytes A (chunk xs i)).
Proof.
  intros Hs Hx Hi Hn. apply load_word_spec; [rewrite Z.mod_add by (pose proof (wordsize_pos A); lia); assumption|eapply chunk_length; eassumption|apply chunk_at; auto; lia].
Qed.

(** The words around an unaligned block, merged, are its words. *)
Lemma merged_words s1 xs n : s1 mod W <> 0 -> bytes_at m s1 xs -> words_mapped A m s1 (Z.of_nat (length xs)) -> 0 < n -> (Z.to_nat n * wordlen A <= length xs)%nat ->
  exists h, (forall i, 0 <= i <= n -> @load_word Z A m (Z.land s1 (- W) + i * W) = Next (h i)) /\
    forall i, 0 <= i < n -> MERGE A (h i) (8 * (s1 mod W)) (h (i + 1)) (8 * W - 8 * (s1 mod W)) = word_of_bytes A (chunk xs i).
Proof.
  intros Ho Hx Hmap Hn Hlen. pose proof (wordsize_pos A) as HW. pose proof (wordlen_wordsize A) as EW. rewrite land_align.
  pose proof (Z.mod_pos_bound s1 W HW) as Hb. set (sa := s1 - s1 mod W). assert (sa mod W = 0) as Hsa by (subst sa; rewrite Zminus_mod_idemp_r, Z.sub_diag; apply Z.mod_0_l; lia).
  assert (n * W <= Z.of_nat (length xs)) as Hnl by nia.
  assert (forall i, 0 <= i <= n -> exists v, @load_word Z A m (sa + i * W) = Next v /\ holds A m s1 (s1 + Z.of_nat (length xs)) (sa + i * W) v) as Hw.
  { intros i Hi. assert ((sa + i * W) mod W = 0) as Hal by (rewrite Z.mod_add by lia; assumption).
    assert (mapped m (sa + i * W) (sa + i * W + Z.of_nat (wordlen A))) as Hm.
    { rewrite EW. apply (src_word_mapped A m s1 (Z.of_nat (length xs)) Hmap); subst sa; try lia; nia. }
    destruct (mapped_bytes_at _ _ _ Hm) as (bs & Hl & Hbs). exists (word_of_bytes A bs). split; [apply load_word_spec; assumption|].
    exists bs. split; [assumption|]. split; [eapply bytes_at_wf; eassumption|]. split; [reflexivity|]. intros j v Hj _. apply Hbs. assumption. }
  exists (fun i => match @load_word Z A m (sa + i * W) with Next v => v | _ => 0 end). split.
  - intros i Hi. destruct (Hw i Hi) as (v & -> & _). reflexivity.
  - intros i Hi. destruct (Hw i ltac:(lia)) as (v & -> & Hv). destruct (Hw (i + 1) ltac:(lia)) as (v' & -> & Hv').
    replace (sa + (i + 1) * W) with (sa + i * W + W) in Hv' by lia. assert ((i + 1) * W <= n * W) by nia.
    pose proof (holds_merge A m _ _ (sa + i * W) v v' (s1 + i * W) Hv Hv' ltac:(subst sa; lia) ltac:(nia) ltac:(nia)) as Hmg.
    replace (s1 + i * W - (sa + i * W)) with (s1 mod W) in Hmg by (subst sa; lia). destruct Hmg as (bs & Hl & _ & -> & Hbs). f_equal.
    apply (bytes_at_inj m (s1 + i * W)); [|apply chunk_at; auto; lia|rewrite (chunk_length xs i n); auto].
    intros j b Hj. pose proof (lookup_lt_Some _ _ _ Hj). apply Hbs; [assumption|]. nia.
Qed.

Lemma check_bytes_spec x y s1 s2 : m !! s1 = Some x -> m !! s2 = Some y ->
  check_bytes_at A m s1 s2 = if x =? y then Next tt else Return (x - y).
Proof.
  intros Hx Hy. unfold check_bytes_at. rewrite (load8_spec _ _ _ Hx), (load8_spec _ _ _ Hy). cbn [flow_bind].
  destruct (op_diff_bytes x y) as [-> ->]; [eapply wf_mem_lookup; eassumption..|]. reflexivity.
Qed.

Lemma cmp_tail_spec xs : forall ys s1 s2, length ys = length xs -> bytes_at m s1 xs -> bytes_at m s2 ys ->
  cmp_tail A (length xs) m s1 s2 = Return (diff xs ys).
Proof.
  induction xs as [|x xs IH]; intros [|y ys] s1 s2 Hl Hx Hy; try discriminate; [reflexivity|]. injection Hl as Hl.
  apply bytes_at_cons in Hx as [Hx0 Hx], Hy as [Hy0 Hy]. cbn [length cmp_tail diff]. rewrite (check_bytes_spec x y) by assumption.
  destruct (x =? y); cbn [flow_bind]; auto.
Qed.

Lemma cmp_align_spec xs : forall ys fuel s1 s2 len, length ys = length xs -> bytes_at m s1 xs -> bytes_at m s2 ys -> (length xs <= fuel)%nat ->
  (s2 + Z.of_nat (length xs)) mod W = 0 -> (forall j, 0 <= j < Z.of_nat (length xs) -> (s2 + j) mod W <> 0) ->
  cmp_align A fuel m s1 s2 len = if diff xs ys =? 0 then Next (s1 + Z.of_nat (length xs), s2 + Z.of_nat (length xs), len - Z.of_nat (length xs)) else Return (diff xs ys).
Proof.
  induction xs as [|x xs IH]; intros [|y ys] fuel s1 s2 len Hl Hx Hy Hf Hend Hmid; try discriminate.
  - cbn [length diff Z.eqb] in *. rewrite Z.add_0_r in Hend. rewrite !Z.add_0_r, Z.sub_0_r. destruct fuel; cbn [cmp_align]; rewrite Hend; reflexivity.
  - injection Hl as Hl. cbn [length] in *. destruct fuel as [|fuel]; [lia|]. cbn [cmp_align diff].
    pose proof (Hmid 0 ltac:(lia)) as H0. rewrite Z.add_0_r in H0. rewrite (proj2 (Z.eqb_neq _ _) H0).
    apply bytes_at_cons in Hx as [Hx0 Hx], Hy as [Hy0 Hy]. rewrite (check_bytes_spec x y) by assumption. destruct (Z.eqb_spec x y) as [->|Hne]; cbn [flow_bind].
    + rewrite (IH ys fuel (s1 + 1) (s2 + 1) (len - 1)); auto; try lia.
      * destruct (diff xs ys =? 0); [|reflexivity]. do 2 f_equal; [f_equal|]; lia.
      * rewrite <- Hend. f_equal. lia.
      * intros j Hj. replace (s2 + 1 + j) with (s2 + (j + 1)) by lia. apply Hmid. lia.
    + rewrite (proj2 (Z.eqb_neq (x - y) 0)) by lia. reflexivity.
Qed.

(** The words between the byte loops. *)
Lemma middle_spec s1 s2 xs ys n : s2 mod W = 0 -> bytes_at m s1 xs -> bytes_at m s2 ys -> words_mapped A m s1 (Z.of_nat (length xs)) ->
  1 <= n -> small_thres A = true \/ 2 <= n -> n + 8 < 2 ^ wordbits A -> (Z.to_nat n * wordlen A <= length xs)%nat -> length ys = length xs ->
  exists r, (if s1 mod W =? 0 then memcmp_common_alignment A m s1 s2 n else memcmp_not_common_alignment A m s1 s2 n) = Return r /\
    (let d := diff (take (Z.to_nat n * wordlen A) xs) (take (Z.to_nat n * wordlen A) ys) in agrees A r d /\ (r = 0 <-> d = 0)) /\ -255 <= r <= 255.
Proof.
  intros Hs2 Hx Hy Hmap Hn1 Hn2 Hn3 Hlx Hly. set (k := (Z.to_nat n * wordlen A)%nat) in *.
  assert (forall i, 0 <= i < n -> chunk (take k xs) i = chunk xs i /\ chunk (take k ys) i = chunk ys i) as Hck.
  { intros i Hi. unfold chunk. rewrite !skipn_firstn_comm, !take_take. assert (S (Z.to_nat i) * wordlen A <= k)%nat by (subst k; apply Nat.mul_le_mono_r; lia).
    rewrite !Nat.min_l by lia. auto. }
  assert (exists f g, (if s1 mod W =? 0 then memcmp_common_alignment A m s1 s2 n else memcmp_not_common_alignment A m s1 s2 n) = words_cmp f g (Z.to_nat n) 0 /\
    forall i, 0 <= i < n -> f i = word_of_bytes A (chunk xs i) /\ g i = word_of_bytes A (chunk ys i)) as (f & g & -> & Hfg).
  { assert (forall i, 0 <= i < n -> @load_word Z A m (s2 + i * W) = Next (word_of_bytes A (chunk ys i))) as L2 by (intros i Hi; apply load_chunk with n; auto; lia).
    destruct (Z.eqb_spec (s1 mod W) 0) as [E|E].
    - exists (fun i => word_of_bytes A (chunk xs i)), (fun i => word_of_bytes A (chunk ys i)). split; [|auto].
      apply common_alignment_spec; auto. intros i Hi. apply load_chunk with n; auto.
    - destruct (merged_words s1 xs n E Hx Hmap ltac:(lia) Hlx) as (h & Lh & Hmerge).
      exists (fun i => MERGE A (h i) (8 * (s1 mod W)) (h (i + 1)) (8 * W - 8 * (s1 mod W))), (fun i => word_of_bytes A (chunk ys i)). split; [|auto].
      eapply not_common_alignment_spec; eauto. }
  destruct (words_cmp_bytes f g (Z.to_nat n) 0 (take k xs) (take k ys)) as (r & -> & Hag & Hz & Hr).
  - rewrite length_take. lia.
  - rewrite length_take. lia.
  - apply Forall_take. eapply bytes_at_wf; eassumption.
  - apply Forall_take. eapply bytes_at_wf; eassumption.
  - intros i Hi. rewrite Z.add_0_l. destruct (Hck i ltac:(lia)) as [-> ->]. apply Hfg. lia.
  - exists r. auto.
Qed.
End Blocks.
End Proofs.

Lemma align_distance A s : let k := (- s) mod wordsize A in
  0 <= k < wordsize A /\ (s + k) mod wordsize A = 0 /\ forall j, 0 <= j < k -> (s + j) mod wordsize A <> 0.
Proof. cbv zeta. destruct (wordsize_cases A) as [-> | ->]; repeat split; try intros j Hj; Z.div_mod_to_equations; lia. Qed.

Lemma words_mapped_sub A m p n q k : words_mapped A m p n -> p <= q -> q + k <= p + n -> words_mapped A m q k.
Proof. intros H H1 H2 a b Hb. apply H. lia. Qed.

Lemma agrees_refl A d : agrees A d d.
Proof. unfold agrees. destruct (big_endian A); reflexivity. Qed.

(** C28: memcmp returns the difference of the first bytes that differ, its sign only
    on big-endian machines where whole words are compared, and 0 for equal blocks, for
    every alignment of the two blocks.  Of the first block whole longwords are read: those
    that hold a byte of it need to be mapped. *)
Theorem memcmp_correct (A : arch) (m : mem) (s1 s2 : Z) (xs ys : list Z) :
  wf_mem m -> bytes_at m s1 xs -> bytes_at m s2 ys -> length ys = length xs -> Z.of_nat (length xs) < 2 ^ wordbits A ->
  words_mapped A m s1 (Z.of_nat (length xs)) ->
  exists r, memcmp A m s1 s2 (Z.of_nat (length xs)) = Return r /\ agrees A r (diff xs ys).
Proof.
  intros Hwf Hx Hy Hl Hlen Hmap. unfold memcmp. destruct (Z.leb_spec OP_T_THRES (Z.of_nat (length xs))) as [Hbig|Hsmall].
  2: { rewrite Nat2Z.id, (cmp_tail_spec A m Hwf xs ys) by assumption. eauto using agrees_refl. }
  pose proof (wordlen_wordsize A) as EW. destruct (align_distance A s2) as (Hk & Hal & Hmid). set (k := (- s2) mod wordsize A) in *.
  destruct (word_count A (Z.of_nat (length xs)) k Hbig Hlen Hk) as (Hn1 & Hn2 & Hn3 & Hnw).
  remember ((Z.of_nat (length xs) - k) / wordsize A) as n eqn:En. pose proof (Z.mod_pos_bound (Z.of_nat (length xs) - k) (wordsize A) ltac:(lia)) as Hrest.
  destruct (split_front xs (Z.to_nat k)) as (x1 & x2 & -> & Lx1); [nia|]. destruct (split_front ys (Z.to_nat k)) as (y1 & y2 & -> & Ly1); [rewrite Hl; nia|].
  rewrite length_app in *. rewrite !length_app in Hl. assert (Z.of_nat (length x1) = k) as Ek by lia.
  apply bytes_at_app in Hx as [Hx1 Hx2], Hy as [Hy1 Hy2]. rewrite <- Lx1 in Ly1.
  rewrite (cmp_align_spec A m Hwf x1 y1) by (rewrite ?Ek; auto; lia). rewrite diff_app by auto.
  destruct (Z.eqb_spec (diff x1 y1) 0); cbn [flow_bind]; [|eauto using agrees_refl]. rewrite Ly1, Ek in *.
  replace (Z.of_nat (length x1 + length x2) - k) with (Z.of_nat (length x2)) in * by lia. rewrite <- En.
  destruct (middle_spec A m Hwf (s1 + k) (s2 + k) x2 y2 n) as (r & -> & [Hag Hz] & Hr); auto; try nia.
  { eapply words_mapped_sub; [exact Hmap|lia|lia]. }
  cbn [flow_call flow_bind]. destruct (int_roundtrip A r Hr) as [-> ->]. set (j := (Z.to_nat n * wordlen A)%nat) in *.
  assert (Z.of_nat j = n * wordsize A) as Ej by nia. rewrite <- (take_drop j x2), <- (take_drop j y2), diff_app by (rewrite !length_take; lia).
  rewrite !take_drop. destruct (Z.eqb_spec r 0) as [->|Hnz]; cbn [negb].
  - rewrite (proj2 (Z.eqb_eq (diff _ _) 0)) by (apply Hz; reflexivity). rewrite land_align, <- Hnw, <- Ej.
    replace (Z.to_nat (Z.of_nat (length x2) mod wordsize A)) with (length (drop j x2)) by (rewrite length_drop; lia).
    rewrite (cmp_tail_spec A m Hwf _ (drop j y2)); [eauto using agrees_refl|rewrite !length_drop; lia|..];
      [rewrite <- (take_drop j x2) in Hx2; apply bytes_at_app in Hx2 as [_ Hx2]; rewrite length_take_le in Hx2 by lia; assumption|].
    rewrite <- (take_drop j y2) in Hy2. apply bytes_at_app in Hy2 as [_ Hy2]. rewrite length_take_le in Hy2 by lia. assumption.
  - rewrite (proj2 (Z.eqb_neq (diff _ _) 0)) by (rewrite <- Hz; assumption). eauto.
Qed.

Lemma memcmp_witness :
  let x := [1; 2; 3; 4; 5; 6; 7; 8; 9; 10; 11; 12; 13; 14; 15; 16; 17; 200] in
  let y := [1; 2; 3; 4; 5; 6; 7; 8; 9; 10; 11; 12; 13; 14; 15; 16; 17; 18] in
  let m := mem_of 96 ([0; 0; 0] ++ x ++ [0; 0; 0] ++ y) in
  exists r, memcmp (Arch true false) m 99 120 18 = Return r /\ r = 182.
Proof.
  intros x y m. destruct (memcmp_correct (Arch true false) m 99 120 x y) as (r & Hr & Hd).
  - apply mem_of_wf. wf_bytes.
  - apply mem_of_at; [lia|reflexivity].
  - apply mem_of_at; [lia|reflexivity].
  - reflexivity.
  - reflexivity.
  - intros a c Hc Ha. apply (mem_of_mapped 96 ([0; 0; 0] ++ x ++ [0; 0; 0] ++ y) 96 120); [lia|vm_compute; discriminate|].
    change (wordsize (Arch true false)) with 8 in Ha. change (Z.of_nat (length x)) with 18 in Hc. Z.div_mod_to_equations; lia.
  - exists r. split; [exact Hr|exact Hd].
Defined.
