(* ===== verification/Xdr.v ===== *)
(** External data representation: the filters of sunrpc/xdr.c and
    sunrpc/xdr_array.c over the stream interface [struct xdr_ops], and their round
    trips against what a stream promises ([XdrStream]).

    A filter is run for its stream's [x_op]: it encodes the object, decodes into
    it, or frees what decoding allocated.  The model is for LP64 targets with
    signed [char].  An object is passed as its value and returned as its new
    value; a [char **] object is an option, [None] being the null pointer and
    [Some st] a pointer to the storage [st]. *)
From S2P Require Import Prelude CMem.

Inductive xdr_op := XDR_ENCODE | XDR_DECODE | XDR_FREE.

#[export] Instance xdr_op_eq_dec : EqDecision xdr_op.
Proof. solve_decision. Defined.

(** The operations of [struct xdr_ops] that the filters call.  The outer [option]
    is [None] when the operation has undefined behaviour; the boolean and the
    inner option are the [bool_t] result with the datum it delivers. *)
Class XdrOps (S : Type) := {
  x_op : S -> xdr_op;
  XDR_GETLONG : S -> option (S * option Z);
  XDR_PUTLONG : S -> Z -> option (S * bool);
  XDR_GETBYTES : S -> Z -> option (S * option (list Z));
  XDR_PUTBYTES : S -> list Z -> option (S * bool)
}.

Definition s16 (z : Z) : Z := swrap 16 z.

Definition s8 (z : Z) : Z := swrap 8 z.

Definition u16 (z : Z) : Z := uwrap 16 z.

Definition BYTES_PER_XDR_UNIT : Z := 4.

Definition LASTUNSIGNED : Z := 2 ^ 32 - 1.

Definition MAX_NETOBJ_SZ : Z := 1024.

Section Filters.
Context {S : Type} `{XdrOps S}.

(** A filter takes the stream and the object and returns both with its result. *)
Definition filter (A : Type) : Type := S -> A -> option (S * A * bool).

Definition xdr_void (xdrs : S) (u : unit) : option (S * unit * bool) := Some (xdrs, u, true).

(** The pattern shared by the filters of one XDR unit: encode [put v], decode
    [get l] into the object. *)
Definition unit_filter (put get : Z -> Z) (xdrs : S) (v : Z) : option (S * Z * bool) :=
  match x_op xdrs with
  | XDR_ENCODE => let? '(xdrs, ok) := XDR_PUTLONG xdrs (put v) in Some (xdrs, v, ok)
  | XDR_DECODE =>
      let? '(xdrs, r) := XDR_GETLONG xdrs in
      match r with
      | None => Some (xdrs, v, false)
      | Some l => Some (xdrs, get l, true)
      end
  | XDR_FREE => Some (xdrs, v, true)
  end.

Definition xdr_int : filter Z := unit_filter (fun i => i) s32.

Definition xdr_u_int : filter Z := unit_filter (fun u => u) (fun l => u32 (u64 l)).

Definition xdr_short : filter Z := unit_filter (fun i => i) s16.

Definition xdr_u_short : filter Z := unit_filter (fun u => u) (fun l => u16 (u64 l)).

Definition xdr_enum : filter Z := unit_filter (fun e => e) s32.

Definition xdr_bool : filter Z :=
  unit_filter (fun b => if b =? 0 then 0 else 1) (fun lb => if lb =? 0 then 0 else 1).

Definition xdr_long (xdrs : S) (lp : Z) : option (S * Z * bool) :=
  if bool_decide (x_op xdrs = XDR_ENCODE) && (s32 lp =? lp) then
    let? '(xdrs, ok) := XDR_PUTLONG xdrs lp in Some (xdrs, lp, ok)
  else if bool_decide (x_op xdrs = XDR_DECODE) then
    let? '(xdrs, r) := XDR_GETLONG xdrs in
    match r with None => Some (xdrs, lp, false) | Some l => Some (xdrs, l, true) end
  else if bool_decide (x_op xdrs = XDR_FREE) then Some (xdrs, lp, true)
  else Some (xdrs, lp, false).

Definition xdr_u_long (xdrs : S) (ulp : Z) : option (S * Z * bool) :=
  match x_op xdrs with
  | XDR_DECODE =>
      let? '(xdrs, r) := XDR_GETLONG xdrs in
      match r with None => Some (xdrs, ulp, false) | Some tmp => Some (xdrs, u32 tmp, true) end
  | XDR_ENCODE =>
      if negb (u32 ulp =? ulp) then Some (xdrs, ulp, false) else
      let? '(xdrs, ok) := XDR_PUTLONG xdrs (s64 ulp) in Some (xdrs, ulp, ok)
  | XDR_FREE => Some (xdrs, ulp, true)
  end.

(** The two halves of a 64-bit integer, most significant first. *)
Definition hyper_filter (put1 put2 : Z -> Z) (get : Z -> Z -> Z) (xdrs : S) (v : Z) :
    option (S * Z * bool) :=
  match x_op xdrs with
  | XDR_ENCODE =>
      let? '(xdrs, ok1) := XDR_PUTLONG xdrs (put1 v) in
      if ok1 then let? '(xdrs, ok2) := XDR_PUTLONG xdrs (put2 v) in Some (xdrs, v, ok2)
      else Some (xdrs, v, false)
  | XDR_DECODE =>
      let? '(xdrs, r1) := XDR_GETLONG xdrs in
      match r1 with
      | None => Some (xdrs, v, false)
      | Some t1 =>
          let? '(xdrs, r2) := XDR_GETLONG xdrs in
          match r2 with
          | None => Some (xdrs, v, false)
          | Some t2 => Some (xdrs, get t1 t2, true)
          end
      end
  | XDR_FREE => Some (xdrs, v, true)
  end.

Definition xdr_hyper : filter Z :=
  hyper_filter (fun v => s64 (Z.shiftr v 32)) s64
    (fun t1 t2 => Z.lor (s64 (Z.shiftl t1 32)) (u32 t2)).

Definition xdr_u_hyper : filter Z :=
  hyper_filter (fun v => s64 (Z.shiftr v 32)) s64
    (fun t1 t2 => Z.lor (u64 (Z.shiftl (u64 t1) 32)) (u32 t2)).

Definition xdr_longlong_t : filter Z := xdr_hyper.

Definition xdr_u_longlong_t : filter Z := xdr_u_hyper.

Definition xdr_char (xdrs : S) (cp : Z) : option (S * Z * bool) :=
  let? '(xdrs, i, ok) := xdr_int xdrs cp in
  if ok then Some (xdrs, s8 i, true) else Some (xdrs, cp, false).

Definition xdr_u_char (xdrs : S) (cp : Z) : option (S * Z * bool) :=
  let? '(xdrs, u, ok) := xdr_u_int xdrs cp in
  if ok then Some (xdrs, u8 u, true) else Some (xdrs, cp, false).

(** Reading [n] bytes of a storage area, and writing bytes at its start; [None]
    when the area is too small. *)
Definition storage_read (st : list Z) (n : Z) : option (list Z) :=
  if n <=? Z.of_nat (length st) then Some (take (Z.to_nat n) st) else None.

Definition storage_write (st bs : list Z) : option (list Z) :=
  if Z.of_nat (length bs) <=? Z.of_nat (length st) then Some (bs ++ drop (length bs) st) else None.

Definition xdr_opaque (cnt : Z) (xdrs : S) (cp : list Z) : option (S * list Z * bool) :=
  if cnt =? 0 then Some (xdrs, cp, true) else
  let rndup := cnt mod BYTES_PER_XDR_UNIT in
  let rndup := if 0 <? rndup then BYTES_PER_XDR_UNIT - rndup else rndup in
  match x_op xdrs with
  | XDR_DECODE =>
      let? '(xdrs, r) := XDR_GETBYTES xdrs cnt in
      match r with
      | None => Some (xdrs, cp, false)
      | Some bs =>
          let? cp := storage_write cp bs in
          if rndup =? 0 then Some (xdrs, cp, true) else
          let? '(xdrs, crud) := XDR_GETBYTES xdrs rndup in
          Some (xdrs, cp, bool_decide (is_Some crud))
      end
  | XDR_ENCODE =>
      let? bs := storage_read cp cnt in
      let? '(xdrs, ok) := XDR_PUTBYTES xdrs bs in
      if ok then
        if rndup =? 0 then Some (xdrs, cp, true) else
        let? '(xdrs, ok) := XDR_PUTBYTES xdrs (repeat 0 (Z.to_nat rndup)) in
        Some (xdrs, cp, ok)
      else Some (xdrs, cp, false)
  | XDR_FREE => Some (xdrs, cp, true)
  end.

(** [mem_alloc]: the storage it returns, or [None] when memory is exhausted. *)
Context (mem_alloc : Z -> option (list Z)).

(** Run [xdr_opaque] on the storage that [cpp] points to. *)
Definition opaque_at (xdrs : S) (sp : option (list Z)) (n : Z) : option (S * option (list Z) * bool) :=
  let? st := sp in
  let? '(xdrs, st, ok) := xdr_opaque n xdrs st in
  Some (xdrs, Some st, ok).

Definition xdr_bytes (maxsize : Z) (xdrs : S) (obj : option (list Z) * Z) :
    option (S * (option (list Z) * Z) * bool) :=
  let '(sp, sizep) := obj in
  let? '(xdrs, sizep, ok) := xdr_u_int xdrs sizep in
  if negb ok then Some (xdrs, (sp, sizep), false) else
  let nodesize := sizep in
  if (maxsize <? nodesize) && negb (bool_decide (x_op xdrs = XDR_FREE))
  then Some (xdrs, (sp, sizep), false) else
  match x_op xdrs with
  | XDR_DECODE =>
      if nodesize =? 0 then Some (xdrs, (sp, sizep), true) else
      let sp := match sp with None => mem_alloc nodesize | Some st => Some st end in
      match sp with
      | None => Some (xdrs, (None, sizep), false)
      | Some st =>
          let? '(xdrs, sp, ok) := opaque_at xdrs (Some st) nodesize in
          Some (xdrs, (sp, sizep), ok)
      end
  | XDR_ENCODE =>
      if nodesize =? 0 then Some (xdrs, (sp, sizep), true) else
      let? '(xdrs, sp, ok) := opaque_at xdrs sp nodesize in
      Some (xdrs, (sp, sizep), ok)
  | XDR_FREE => Some (xdrs, (None, sizep), true)
  end.

Definition xdr_netobj : filter (option (list Z) * Z) := xdr_bytes MAX_NETOBJ_SZ.

(** [strlen] of a storage area, [None] when it holds no terminator. *)
Definition storage_strlen (st : list Z) : option Z := Z.of_nat <$> index_of 0 st.

(** [sp[i] = 0] *)
Definition storage_set0 (st : list Z) (i : Z) : option (list Z) :=
  if i <? Z.of_nat (length st) then Some (<[Z.to_nat i := 0]> st) else None.

Definition xdr_string (maxsize : Z) (xdrs : S) (sp : option (list Z)) :
    option (S * option (list Z) * bool) :=
  match x_op xdrs, sp with
  | XDR_FREE, None => Some (xdrs, None, true)
  | XDR_ENCODE, None => Some (xdrs, None, false)
  | op, _ =>
      let? size := match op, sp with
             | XDR_DECODE, _ => Some 0
             | _, Some st => storage_strlen st
             | _, None => None
             end in
      let? '(xdrs, size, ok) := xdr_u_int xdrs (u32 size) in
      if negb ok then Some (xdrs, sp, false) else
      if maxsize <? size then Some (xdrs, sp, false) else
      let nodesize := u32 (size + 1) in
      if nodesize =? 0 then Some (xdrs, sp, false) else
      match x_op xdrs with
      | XDR_DECODE =>
          let sp := match sp with None => mem_alloc nodesize | Some st => Some st end in
          match sp with
          | None => Some (xdrs, None, false)
          | Some st =>
              let? st := storage_set0 st size in
              opaque_at xdrs (Some st) size
          end
      | XDR_ENCODE => opaque_at xdrs sp size
      | XDR_FREE => Some (xdrs, None, true)
      end
  end.

Definition xdr_wrapstring : filter (option (list Z)) := xdr_string LASTUNSIGNED.

(** The arms of a discriminated union, up to the null procedure that ends them. *)
Fixpoint find_arm {U} (choices : list (Z * filter U)) (dscm : Z) : option (filter U) :=
  match choices with
  | [] => None
  | (value, proc) :: choices => if value =? dscm then Some proc else find_arm choices dscm
  end.

Definition xdr_union {U} (choices : list (Z * filter U)) (dfault : option (filter U))
    (xdrs : S) (obj : Z * U) : option (S * (Z * U) * bool) :=
  let '(dscmp, unp) := obj in
  let? '(xdrs, dscmp, ok) := xdr_enum xdrs dscmp in
  if negb ok then Some (xdrs, (dscmp, unp), false) else
  match find_arm choices dscmp with
  | Some proc => let? '(xdrs, unp, ok) := proc xdrs unp in Some (xdrs, (dscmp, unp), ok)
  | None =>
      match dfault with
      | None => Some (xdrs, (dscmp, unp), false)
      | Some proc => let? '(xdrs, unp, ok) := proc xdrs unp in Some (xdrs, (dscmp, unp), ok)
      end
  end.

(** The element loop of xdr_array, [for (i = 0; i < c && stat; i++)], which is
    also that of xdr_vector: elements after a failure keep their value. *)
Fixpoint xdr_elems {A} (elproc : filter A) (c : nat) (xdrs : S) (target : list A) :
    option (S * list A * bool) :=
  match c with
  | O => Some (xdrs, target, true)
  | Datatypes.S c =>
      match target with
      | [] => None
      | a :: target =>
          let? '(xdrs, a, stat) := elproc xdrs a in
          if stat then
            let? '(xdrs, target, stat) := xdr_elems elproc c xdrs target in
            Some (xdrs, a :: target, stat)
          else Some (xdrs, a :: target, false)
      end
  end.

(** [calloc (c, elsize)] delivers [c] elements of zero bytes or fails. *)
Definition xdr_array {A} (calloc : Z -> Z -> option (list A)) (maxsize elsize : Z) (elproc : filter A)
    (xdrs : S) (obj : option (list A) * Z) : option (S * (option (list A) * Z) * bool) :=
  let '(target, sizep) := obj in
  let? '(xdrs, sizep, ok) := xdr_u_int xdrs sizep in
  if negb ok then Some (xdrs, (target, sizep), false) else
  let c := sizep in
  let? too_big := (if maxsize <? c then Some true
             else if elsize =? 0 then None else Some (LASTUNSIGNED / elsize <? c)) in
  if too_big && negb (bool_decide (x_op xdrs = XDR_FREE))
  then Some (xdrs, (target, sizep), false) else
  let run target :=
    let? target := target in
    let? '(xdrs, target, stat) := xdr_elems elproc (Z.to_nat c) xdrs target in
    Some (xdrs, ((if bool_decide (x_op xdrs = XDR_FREE) then None else Some target), sizep), stat) in
  match target, x_op xdrs with
  | None, XDR_DECODE =>
      if c =? 0 then Some (xdrs, (None, sizep), true) else
      match calloc c elsize with
      | None => Some (xdrs, (None, sizep), false)
      | Some t => run (Some t)
      end
  | None, XDR_FREE => Some (xdrs, (None, sizep), true)
  | None, XDR_ENCODE => if c =? 0 then Some (xdrs, (None, sizep), true) else None
  | Some t, _ => run (Some t)
  end.

Definition xdr_vector {A} (nelem : Z) (xdr_elem : filter A) (xdrs : S) (basep : list A) :
    option (S * list A * bool) :=
  xdr_elems xdr_elem (Z.to_nat nelem) xdrs basep.

End Filters.

(** * What a stream promises to the filters *)

(** One XDR unit: four bytes, most significant first. *)
Definition be32 (v : Z) : list Z := rev (le_bytes 4 (u32 v)).

(** [stream_at k] is the invariant of a stream whose next byte is [k] bytes, modulo the
    four of an XDR unit, behind an address where a unit can be accessed as an [int32_t]:
    a unit is read and written only at phase 0, bytes at any phase.  A stream is written
    while it encodes and read while it decodes. *)
Class XdrStream (S : Type) `{XdrOps S} := {
  stream_at : Z -> S -> Prop;
  avail : S -> list Z;      (* the bytes that can still be read *)
  room : S -> Z;            (* how many bytes can still be written *)
  bounded : Prop;           (* what does not fit is refused *)
  written : S -> list Z;    (* the bytes written so far *)
  stream_at_mod j k s : (j - k) mod 4 = 0 -> stream_at j s -> stream_at k s;
  putlong_ok s v :
    stream_at 0 s -> x_op s = XDR_ENCODE -> 4 <= room s ->
    exists s', XDR_PUTLONG s v = Some (s', true) /\ stream_at 0 s' /\ x_op s' = x_op s /\
      room s' = room s - 4 /\ written s' = written s ++ be32 v;
  putlong_full s v : bounded -> stream_at 0 s -> room s < 4 -> XDR_PUTLONG s v = Some (s, false);
  putbytes_ok k s bs :
    stream_at k s -> x_op s = XDR_ENCODE -> Forall is_byte bs -> Z.of_nat (length bs) <= room s ->
    exists s', XDR_PUTBYTES s bs = Some (s', true) /\ stream_at (k + Z.of_nat (length bs)) s' /\ x_op s' = x_op s /\
      room s' = room s - Z.of_nat (length bs) /\ written s' = written s ++ bs;
  putbytes_full k s bs :
    bounded -> stream_at k s -> room s < Z.of_nat (length bs) -> XDR_PUTBYTES s bs = Some (s, false);
  getlong_ok s bs rest :
    stream_at 0 s -> x_op s = XDR_DECODE -> avail s = bs ++ rest -> length bs = 4%nat ->
    exists s', XDR_GETLONG s = Some (s', Some (s32 (be_val bs))) /\ stream_at 0 s' /\
      x_op s' = x_op s /\ avail s' = rest;
  getlong_short s :
    stream_at 0 s -> x_op s = XDR_DECODE -> (length (avail s) < 4)%nat ->
    exists k s' bs, XDR_GETLONG s = Some (s', None) /\ stream_at k s' /\ x_op s' = x_op s /\ avail s = bs ++ avail s';
  getbytes_ok k s bs rest :
    stream_at k s -> x_op s = XDR_DECODE -> avail s = bs ++ rest ->
    exists s', XDR_GETBYTES s (Z.of_nat (length bs)) = Some (s', Some bs) /\ stream_at (k + Z.of_nat (length bs)) s' /\
      x_op s' = x_op s /\ avail s' = rest;
  getbytes_short k s n :
    stream_at k s -> x_op s = XDR_DECODE -> Z.of_nat (length (avail s)) < n ->
    exists j s' bs, XDR_GETBYTES s n = Some (s', None) /\ stream_at j s' /\ x_op s' = x_op s /\ avail s = bs ++ avail s';
  avail_bytes k s : stream_at k s -> Forall is_byte (avail s);
  room_range k s : stream_at k s -> 0 <= room s
}.

(** The stream is at a unit. *)
Abbreviation stream_inv := (stream_at 0).

(** * Round trips against the interface *)

Section Codecs.
Context {S : Type} `{XdrStream S}.

(** The stream moved on by writing [bs], to phase [k]. *)
Definition puts (k : Z) (s s' : S) (bs : list Z) : Prop :=
  stream_at k s' /\ x_op s' = x_op s /\ room s' = room s - Z.of_nat (length bs) /\
  written s' = written s ++ bs.

(** The stream moved on by reading [bs], to phase [k]. *)
Definition reads (k : Z) (s s' : S) (bs : list Z) : Prop :=
  stream_at k s' /\ x_op s' = x_op s /\ avail s = bs ++ avail s'.

(** What a filter writes or reads ends at a unit. *)
#[local] Abbreviation emits := (puts 0).
#[local] Abbreviation consumes := (reads 0).

(** Decoding ended, at a unit if it succeeded. *)
Definition ends (ok : bool) (s s' : S) (bs : list Z) : Prop :=
  if ok then consumes s s' bs else exists k, reads k s s' bs.

(** [f] is a codec for the objects in [dom]: it encodes [a] as [wire a], refuses
    when there is no room in a bounded stream, and decodes [wire a] back into [a] from any initial
    object that [init] allows. *)
Class Codec {A} (f : filter (S := S) A) (dom : A -> Prop) (init : A -> A -> Prop) (wire : A -> list Z) := {
  codec_enc s a :
    stream_inv s -> x_op s = XDR_ENCODE -> dom a -> Z.of_nat (length (wire a)) <= room s ->
    exists s', f s a = Some (s', a, true) /\ emits s s' (wire a);
  codec_full s a :
    bounded -> stream_inv s -> x_op s = XDR_ENCODE -> dom a -> room s < Z.of_nat (length (wire a)) ->
    exists s', f s a = Some (s', a, false) /\ (exists k, stream_at k s') /\ x_op s' = XDR_ENCODE;
  codec_dec s a0 a rest :
    stream_inv s -> x_op s = XDR_DECODE -> dom a -> init a0 a -> avail s = wire a ++ rest ->
    exists s', f s a0 = Some (s', a, true) /\ consumes s s' (wire a)
}.

(** [f] decodes any input without undefined behaviour, from the objects in [ready]. *)
Class Robust {A} (f : filter (S := S) A) (ready : A -> Prop) :=
  robust_dec s a0 :
    stream_inv s -> x_op s = XDR_DECODE -> ready a0 ->
    exists s' a ok bs, f s a0 = Some (s', a, ok) /\ ends ok s s' bs.

Lemma emits_trans {j k} s1 s2 s3 b1 b2 : puts j s1 s2 b1 -> puts k s2 s3 b2 -> puts k s1 s3 (b1 ++ b2).
Proof.
  intros (I2 & O2 & R2 & W2) (I3 & O3 & R3 & W3). unfold puts. rewrite length_app.
  split; [assumption|]. split; [congruence|]. split; [lia|]. rewrite W3, W2, app_assoc. reflexivity.
Qed.

Lemma emits_mod j k s s' bs : (j - k) mod 4 = 0 -> puts j s s' bs -> puts k s s' bs.
Proof. intros Hk (I & O & R & W). split; [exact (stream_at_mod _ _ _ Hk I)|auto]. Qed.

Lemma consumes_trans {j k} s1 s2 s3 b1 b2 : reads j s1 s2 b1 -> reads k s2 s3 b2 -> reads k s1 s3 (b1 ++ b2).
Proof.
  intros (I2 & O2 & R2) (I3 & O3 & R3). split; [assumption|]. split; [congruence|].
  rewrite R2, R3, app_assoc. reflexivity.
Qed.

Lemma consumes_mod j k s s' bs : (j - k) mod 4 = 0 -> reads j s s' bs -> reads k s s' bs.
Proof. intros Hk (I & O & R). split; [exact (stream_at_mod _ _ _ Hk I)|auto]. Qed.

Lemma consumes_refl s : stream_inv s -> consumes s s [].
Proof. intros Hs. repeat split; auto. Qed.

Lemma ends_stop {k} ok s s' bs : reads k s s' bs -> (ok = true -> (k - 0) mod 4 = 0) -> ends ok s s' bs.
Proof. intros C Hk. destruct ok; [exact (consumes_mod _ _ _ _ _ (Hk eq_refl) C)|exists k; exact C]. Qed.

Lemma ends_refl s : stream_inv s -> ends true s s [].
Proof. exact (consumes_refl s). Qed.

Lemma ends_true s s' bs : consumes s s' bs -> ends true s s' bs.
Proof. exact (fun C => C). Qed.

Lemma ends_false {k} s s' bs : reads k s s' bs -> ends false s s' bs.
Proof. intros C. exists k. exact C. Qed.

Lemma ends_trans {k} ok s1 s2 s3 b1 b2 : reads k s1 s2 b1 -> ends ok s2 s3 b2 -> ends ok s1 s3 (b1 ++ b2).
Proof.
  intros C1. destruct ok; cbn [ends]; [exact (consumes_trans _ _ _ _ _ C1)|]. intros [j C2]. exists j. exact (consumes_trans _ _ _ _ _ C1 C2).
Qed.

(** Every end is a stream again. *)
Lemma ends_inv ok s s' bs : ends ok s s' bs -> exists k, stream_at k s'.
Proof. destruct ok; [intros (I & _); eauto|intros (k & I & _); eauto]. Qed.

Lemma length_be32 v : length (be32 v) = 4%nat.
Proof. unfold be32. rewrite length_rev, length_le_bytes. reflexivity. Qed.

Lemma be_val_be32 v : be_val (be32 v) = u32 v.
Proof.
  unfold be_val, be32. rewrite rev_involutive. apply le_val_le_bytes.
  change (256 ^ Z.of_nat 4) with (2 ^ 32). apply uwrap_range. lia.
Qed.

#[local] Opaque be32.

Lemma put_step s v :
  stream_inv s -> x_op s = XDR_ENCODE -> 4 <= room s -> exists s', XDR_PUTLONG s v = Some (s', true) /\ emits s s' (be32 v).
Proof.
  intros Hs Ho Hr. destruct (putlong_ok s v Hs Ho Hr) as (s' & E & I & O & R & W).
  exists s'. split; [assumption|]. unfold puts. rewrite length_be32. auto.
Qed.

Lemma get_step s v rest :
  stream_inv s -> x_op s = XDR_DECODE -> avail s = be32 v ++ rest ->
  exists s', XDR_GETLONG s = Some (s', Some (s32 v)) /\ consumes s s' (be32 v) /\ avail s' = rest.
Proof.
  intros Hs Ho Hb. destruct (getlong_ok s (be32 v) rest Hs Ho Hb (length_be32 v)) as (s' & E & I & O & R).
  exists s'. rewrite be_val_be32, s32_u32 in E. split; [assumption|].
  split; [|assumption]. repeat split; auto. congruence.
Qed.

(** Any four bytes can be taken from the stream, or there are fewer and it says so. *)
Lemma get_any s :
  stream_inv s -> x_op s = XDR_DECODE ->
  (exists s' bs, XDR_GETLONG s = Some (s', None) /\ ends false s s' bs) \/
  exists s' bs, XDR_GETLONG s = Some (s', Some (s32 (be_val bs))) /\ length bs = 4%nat /\ consumes s s' bs.
Proof.
  intros Hs Ho. destruct (decide (length (avail s) < 4)%nat) as [Hlt|Hge].
  - left. destruct (getlong_short s Hs Ho Hlt) as (k & s' & bs & E & I & O & A). exists s', bs. split; [assumption|]. exists k. repeat split; assumption.
  - right. destruct (split_front (avail s) 4) as (bs & rest & Hb & Hl); [lia|].
    destruct (getlong_ok s bs rest Hs Ho Hb Hl) as (s' & E & I & O & R).
    exists s', bs. split; [assumption|]. split; [assumption|]. split; [assumption|]. split; [assumption|congruence].
Qed.

Lemma getbytes_any k s n :
  stream_at k s -> x_op s = XDR_DECODE -> 0 <= n ->
  (exists s' bs, XDR_GETBYTES s n = Some (s', None) /\ ends false s s' bs) \/
  exists s' bs, XDR_GETBYTES s n = Some (s', Some bs) /\ Z.of_nat (length bs) = n /\ reads (k + n) s s' bs.
Proof.
  intros Hs Ho Hn. destruct (decide (Z.of_nat (length (avail s)) < n)) as [Hlt|Hge].
  - left. destruct (getbytes_short k s n Hs Ho Hlt) as (j & s' & bs & E & I & O & A). exists s', bs. split; [assumption|]. exists j. repeat split; assumption.
  - right. destruct (split_front (avail s) (Z.to_nat n)) as (bs & rest & Hb & Hl); [lia|].
    destruct (getbytes_ok k s bs rest Hs Ho Hb) as (s' & E & I & O & R).
    replace (Z.of_nat (length bs)) with n in E, I by lia.
    exists s', bs. split; [assumption|]. split; [lia|]. split; [assumption|]. split; [assumption|congruence].
Qed.

(** ** One-unit filters *)

Lemma unit_codec put get (dom : Z -> Prop) :
  (forall a, dom a -> get (s32 (put a)) = a) ->
  Codec (unit_filter put get) dom (fun _ _ => True) (fun a => be32 (put a)).
Proof.
  intros Hget. unfold unit_filter. split.
  - intros s a Hs Ho Hd Hr. rewrite length_be32 in Hr. rewrite Ho.
    destruct (put_step s (put a) Hs Ho ltac:(lia)) as (s' & -> & He). eauto.
  - intros s a Hbd Hs Ho Hd Hr. rewrite length_be32 in Hr. rewrite Ho, putlong_full by (auto; lia). eauto.
  - intros s a0 a rest Hs Ho Hd _ Hb. rewrite Ho.
    destruct (get_step s _ _ Hs Ho Hb) as (s' & -> & Hc & _). rewrite Hget by assumption. eauto.
Qed.

Lemma unit_robust put get : Robust (unit_filter put get) (fun _ => True).
Proof.
  intros s a0 Hs Ho _. unfold unit_filter. rewrite Ho.
  destruct (get_any s Hs Ho) as [(s' & bs & -> & Hc)|(s' & bs & -> & _ & Hc)].
  - exists s', a0, false, bs. auto.
  - eexists _, _, _, bs. auto.
Qed.

Definition int_range (a : Z) : Prop := - 2 ^ 31 <= a < 2 ^ 31.

Definition u_int_range (a : Z) : Prop := 0 <= a < 2 ^ 32.

#[export] Instance xdr_int_codec : Codec xdr_int int_range (fun _ _ => True) be32.
Proof. apply (unit_codec (fun i => i) s32). intros a Ha. rewrite !s32_small by (rewrite ?s32_small by exact Ha; exact Ha). reflexivity. Qed.

Lemma u_int_get a : u_int_range a -> u32 (u64 (s32 a)) = a.
Proof.
  intros Ha. unfold u32, u64, s32. rewrite uwrap_uwrap, uwrap_swrap by lia. apply uwrap_small. exact Ha.
Qed.

#[export] Instance xdr_u_int_codec : Codec xdr_u_int u_int_range (fun _ _ => True) be32.
Proof. apply (unit_codec (fun u => u) (fun l => u32 (u64 l))). exact u_int_get. Qed.

#[export] Instance xdr_enum_codec : Codec xdr_enum int_range (fun _ _ => True) be32.
Proof. apply (unit_codec (fun i => i) s32). intros a Ha. rewrite !s32_small by (rewrite ?s32_small by exact Ha; exact Ha). reflexivity. Qed.

#[export] Instance xdr_short_codec :
  Codec xdr_short (fun a => - 2 ^ 15 <= a < 2 ^ 15) (fun _ _ => True) be32.
Proof.
  apply (unit_codec (fun i => i) s16). intros a Ha. rewrite s32_small by lia. apply swrap_small; lia.
Qed.

#[export] Instance xdr_u_short_codec : Codec xdr_u_short (fun a => 0 <= a < 2 ^ 16) (fun _ _ => True) be32.
Proof.
  apply (unit_codec (fun u => u) (fun l => u16 (u64 l))). intros a Ha. unfold u16, u64, s32.
  rewrite uwrap_uwrap, uwrap_swrap by lia. apply uwrap_small. exact Ha.
Qed.

#[export] Instance xdr_bool_codec :
  Codec xdr_bool (fun b => b = 0 \/ b = 1) (fun _ _ => True) (fun b => be32 (if b =? 0 then 0 else 1)).
Proof.
  apply (unit_codec (fun b => if b =? 0 then 0 else 1) (fun lb => if lb =? 0 then 0 else 1)).
  intros a [-> | ->]; reflexivity.
Qed.

(** [xdr_long] refuses a value that does not fit in an XDR unit. *)
#[export] Instance xdr_long_codec : Codec xdr_long int_range (fun _ _ => True) be32.
Proof.
  split; unfold xdr_long.
  - intros s a Hs Ho Hd Hr. rewrite length_be32 in Hr. rewrite Ho, s32_small, Z.eqb_refl by exact Hd. simpl.
    destruct (put_step s a Hs Ho ltac:(lia)) as (s' & -> & He). eauto.
  - intros s a Hbd Hs Ho Hd Hr. rewrite length_be32 in Hr. rewrite Ho, s32_small, Z.eqb_refl by exact Hd. simpl.
    rewrite putlong_full by (auto; lia). eauto.
  - intros s a0 a rest Hs Ho Hd _ Hb. rewrite Ho. simpl.
    destruct (get_step s _ _ Hs Ho Hb) as (s' & -> & Hc & _). rewrite s32_small by exact Hd. eauto.
Qed.

Lemma xdr_long_unfit s a :
  x_op s = XDR_ENCODE -> ~ int_range a -> xdr_long s a = Some (s, a, false).
Proof.
  intros Ho Hd. unfold xdr_long. rewrite Ho. simpl.
  destruct (Z.eqb_spec (s32 a) a) as [E|]; [|reflexivity].
  exfalso. apply Hd. unfold int_range. rewrite <- E. unfold s32, swrap. change (32 - 1) with 31.
  pose proof (Z.mod_pos_bound (a + 2 ^ 31) (2 ^ 32) ltac:(lia)). lia.
Qed.

#[export] Instance xdr_u_long_codec : Codec xdr_u_long u_int_range (fun _ _ => True) be32.
Proof.
  assert (forall a, u_int_range a -> u32 a = a) as Hu by (intros a Ha; apply uwrap_small; exact Ha).
  assert (forall a, u_int_range a -> s64 a = a) as Hs64.
  { intros a Ha. unfold u_int_range in Ha. apply swrap_small; lia. }
  split; unfold xdr_u_long.
  - intros s a Hs Ho Hd Hr. rewrite length_be32 in Hr. rewrite Ho, Hu, Z.eqb_refl, Hs64 by exact Hd. simpl.
    destruct (put_step s a Hs Ho ltac:(lia)) as (s' & -> & He). eauto.
  - intros s a Hbd Hs Ho Hd Hr. rewrite length_be32 in Hr. rewrite Ho, Hu, Z.eqb_refl by exact Hd. simpl.
    rewrite putlong_full by (auto; lia). eauto.
  - intros s a0 a rest Hs Ho Hd _ Hb. rewrite Ho.
    destruct (get_step s _ _ Hs Ho Hb) as (s' & -> & Hc & _).
    unfold u32, s32. rewrite uwrap_swrap, uwrap_small by (lia || exact Hd). eauto.
Qed.

(** ** Hyper integers *)

Lemma hyper_codec put1 put2 get (dom : Z -> Prop) :
  (forall a, dom a -> get (s32 (put1 a)) (s32 (put2 a)) = a) ->
  Codec (hyper_filter put1 put2 get) dom (fun _ _ => True) (fun a => be32 (put1 a) ++ be32 (put2 a)).
Proof.
  intros Hget. split; unfold hyper_filter.
  - intros s a Hs Ho Hd Hr. rewrite length_app, !length_be32 in Hr. rewrite Ho.
    destruct (put_step s (put1 a) Hs Ho ltac:(lia)) as (s1 & -> & He1). destruct He1 as (I1 & O1 & R1 & W1).
    rewrite length_be32 in R1.
    destruct (put_step s1 (put2 a) I1 (eq_trans O1 Ho) ltac:(lia)) as (s2 & -> & He2).
    exists s2. split; [reflexivity|]. eapply (emits_trans (j := 0)); [|exact He2]. unfold puts. rewrite length_be32. auto.
  - intros s a Hbd Hs Ho Hd Hr. rewrite length_app, !length_be32 in Hr. rewrite Ho.
    destruct (decide (room s < 4)); [rewrite putlong_full by assumption; eauto|].
    destruct (put_step s (put1 a) Hs Ho ltac:(lia)) as (s1 & -> & I1 & O1 & R1 & W1). rewrite length_be32 in R1.
    rewrite putlong_full by (auto; lia). rewrite Ho in O1. eauto.
  - intros s a0 a rest Hs Ho Hd _ Hb. rewrite <- app_assoc in Hb. rewrite Ho.
    destruct (get_step s _ _ Hs Ho Hb) as (s1 & -> & Hc1 & R1). pose proof Hc1 as (I1 & O1 & _).
    destruct (get_step s1 _ _ I1 (eq_trans O1 Ho) R1) as (s2 & -> & Hc2 & _).
    rewrite Hget by assumption. exists s2. split; [reflexivity|]. eapply consumes_trans; eassumption.
Qed.

(** Splitting a 64-bit integer in halves and joining them again. *)
Lemma hyper_join a : a = (a / 2 ^ 32) * 2 ^ 32 + u32 a.
Proof. unfold u32, uwrap. pose proof (Z.div_mod a (2 ^ 32)). lia. Qed.

#[export] Instance xdr_hyper_codec :
  Codec xdr_hyper (fun a => - 2 ^ 63 <= a < 2 ^ 63) (fun _ _ => True)
    (fun a => be32 (s64 (Z.shiftr a 32)) ++ be32 (s64 a)).
Proof.
  apply (hyper_codec (fun v => s64 (Z.shiftr v 32)) s64). intros a Ha.
  rewrite Z.shiftr_div_pow2 by lia.
  assert (- 2 ^ 31 <= a / 2 ^ 32 < 2 ^ 31) as Hq by (Z.div_mod_to_equations; lia).
  assert (s64 (a / 2 ^ 32) = a / 2 ^ 32) as -> by (apply swrap_small; lia).
  rewrite (s32_small (a / 2 ^ 32)) by exact Hq.
  assert (s64 (Z.shiftl (a / 2 ^ 32) 32) = Z.shiftl (a / 2 ^ 32) 32) as ->.
  { rewrite Z.shiftl_mul_pow2 by lia. apply swrap_small; lia. }
  assert (u32 (s32 (s64 a)) = u32 a) as ->.
  { unfold u32, s32, s64. rewrite !uwrap_swrap by lia. reflexivity. }
  rewrite lor_low by (lia || apply uwrap_range; lia). symmetry. apply hyper_join.
Qed.

#[export] Instance xdr_u_hyper_codec :
  Codec xdr_u_hyper (fun a => 0 <= a < 2 ^ 64) (fun _ _ => True)
    (fun a => be32 (s64 (Z.shiftr a 32)) ++ be32 (s64 a)).
Proof.
  apply (hyper_codec (fun v => s64 (Z.shiftr v 32)) s64). intros a Ha.
  rewrite Z.shiftr_div_pow2 by lia.
  assert (0 <= a / 2 ^ 32 < 2 ^ 32) as Hq by (Z.div_mod_to_equations; lia).
  assert (s64 (a / 2 ^ 32) = a / 2 ^ 32) as -> by (apply swrap_small; lia).
  assert (u64 (Z.shiftl (u64 (s32 (a / 2 ^ 32))) 32) = Z.shiftl (a / 2 ^ 32) 32) as ->.
  { rewrite !Z.shiftl_mul_pow2 by lia. unfold u64, uwrap. rewrite Zmult_mod_idemp_l.
    change (2 ^ 64) with (2 ^ 32 * 2 ^ 32). rewrite Z.mul_mod_distr_r by lia. f_equal.
    change ((s32 (a / 2 ^ 32)) mod 2 ^ 32) with (uwrap 32 (swrap 32 (a / 2 ^ 32))).
    rewrite uwrap_swrap by lia. apply uwrap_small. exact Hq. }
  assert (u32 (s32 (s64 a)) = u32 a) as ->.
  { unfold u32, s32, s64. rewrite !uwrap_swrap by lia. reflexivity. }
  rewrite lor_low by (lia || apply uwrap_range; lia). symmetry. apply hyper_join.
Qed.

(** ** Characters *)

#[export] Instance xdr_char_codec : Codec xdr_char (fun a => - 128 <= a < 128) (fun _ _ => True) be32.
Proof.
  assert (forall a, - 128 <= a < 128 -> int_range a /\ s8 a = a) as Ha.
  { intros a Ha. split; [unfold int_range; lia|]. apply swrap_small; simpl; lia. }
  split; unfold xdr_char.
  - intros s a Hs Ho Hd Hr. destruct (Ha a Hd) as [Hi Hc].
    destruct (codec_enc (f := xdr_int) s a Hs Ho Hi Hr) as (s' & -> & He). rewrite Hc. eauto.
  - intros s a Hbd Hs Ho Hd Hr. destruct (Ha a Hd) as [Hi Hc].
    destruct (codec_full (f := xdr_int) s a Hbd Hs Ho Hi Hr) as (s' & -> & He). eauto.
  - intros s a0 a rest Hs Ho Hd _ Hb. destruct (Ha a Hd) as [Hi Hc].
    destruct (codec_dec (f := xdr_int) s a0 a rest Hs Ho Hi I Hb) as (s' & -> & He). rewrite Hc. eauto.
Qed.

#[export] Instance xdr_u_char_codec : Codec xdr_u_char is_byte (fun _ _ => True) be32.
Proof.
  assert (forall a, is_byte a -> u_int_range a /\ u8 a = a) as Ha.
  { intros a Ha. unfold is_byte in Ha. split; [unfold u_int_range; lia|]. apply uwrap_small. exact Ha. }
  split; unfold xdr_u_char.
  - intros s a Hs Ho Hd Hr. destruct (Ha a Hd) as [Hi Hc].
    destruct (codec_enc (f := xdr_u_int) s a Hs Ho Hi Hr) as (s' & -> & He). rewrite Hc. eauto.
  - intros s a Hbd Hs Ho Hd Hr. destruct (Ha a Hd) as [Hi Hc].
    destruct (codec_full (f := xdr_u_int) s a Hbd Hs Ho Hi Hr) as (s' & -> & He). eauto.
  - intros s a0 a rest Hs Ho Hd _ Hb. destruct (Ha a Hd) as [Hi Hc].
    destruct (codec_dec (f := xdr_u_int) s a0 a rest Hs Ho Hi I Hb) as (s' & -> & He). rewrite Hc. eauto.
Qed.

(** ** Opaque bytes *)

(** The number of padding bytes after [n] bytes. *)
Definition padlen (n : Z) : Z :=
  let r := n mod BYTES_PER_XDR_UNIT in if 0 <? r then BYTES_PER_XDR_UNIT - r else r.

Definition padded (bs : list Z) : list Z := bs ++ repeat 0 (Z.to_nat (padlen (Z.of_nat (length bs)))).

Lemma padlen_range n : 0 <= padlen n < 4.
Proof.
  unfold padlen, BYTES_PER_XDR_UNIT. pose proof (Z.mod_pos_bound n 4 ltac:(lia)).
  destruct (Z.ltb_spec 0 (n mod 4)); lia.
Qed.

Lemma padded_aligned bs : Z.of_nat (length (padded bs)) mod 4 = 0.
Proof.
  unfold padded, padlen, BYTES_PER_XDR_UNIT. rewrite length_app, repeat_length.
  destruct (Z.ltb_spec 0 (Z.of_nat (length bs) mod 4)); Z.div_mod_to_equations; lia.
Qed.

Lemma padlen_aligned n : (n + padlen n) mod 4 = 0.
Proof. unfold padlen, BYTES_PER_XDR_UNIT. destruct (Z.ltb_spec 0 (n mod 4)); Z.div_mod_to_equations; lia. Qed.

(** Bytes and their padding lead from one unit to another. *)
Lemma phase_padded n : (0 + n + padlen n - 0) mod 4 = 0.
Proof. rewrite Z.sub_0_r, Z.add_0_l. apply padlen_aligned. Qed.

Lemma phase_unpadded n : padlen n = 0 -> (0 + n - 0) mod 4 = 0.
Proof. intros E. pose proof (phase_padded n) as H1. rewrite E, Z.add_0_r in H1. exact H1. Qed.

Lemma zeros_bytes n : Forall is_byte (repeat 0 n).
Proof. induction n; simpl; constructor; auto. unfold is_byte. lia. Qed.

Lemma storage_read_app bs tl : storage_read (bs ++ tl) (Z.of_nat (length bs)) = Some bs.
Proof.
  unfold storage_read. rewrite (proj2 (Z.leb_le _ _)) by (rewrite length_app; lia).
  rewrite Nat2Z.id, take_app_length. reflexivity.
Qed.

Lemma opaque_enc s bs tl :
  stream_inv s -> x_op s = XDR_ENCODE -> Forall is_byte bs -> Z.of_nat (length (padded bs)) <= room s ->
  exists s', xdr_opaque (Z.of_nat (length bs)) s (bs ++ tl) = Some (s', bs ++ tl, true) /\ emits s s' (padded bs).
Proof.
  intros Hs Ho Hb Hr. unfold xdr_opaque. fold (padlen (Z.of_nat (length bs))). cbv zeta.
  pose proof (padlen_range (Z.of_nat (length bs))) as Hp.
  destruct (Z.eqb_spec (Z.of_nat (length bs)) 0) as [E|E].
  - destruct bs; [|simpl in E; lia]. exists s. split; [reflexivity|]. unfold puts. simpl.
    rewrite app_nil_r. repeat split; auto. lia.
  - rewrite Ho, storage_read_app. unfold padded in *. rewrite length_app, repeat_length in Hr.
    destruct (putbytes_ok 0 s bs Hs Ho Hb ltac:(lia)) as (s1 & -> & I1 & O1 & R1 & W1).
    destruct (Z.eqb_spec (padlen (Z.of_nat (length bs))) 0) as [Ep|Ep].
    + exists s1. split; [reflexivity|]. rewrite Ep. cbn [Z.to_nat repeat]. rewrite app_nil_r. apply (emits_mod _ _ _ _ _ (phase_unpadded _ Ep)). repeat split; auto.
    + destruct (putbytes_ok _ s1 (repeat 0 (Z.to_nat (padlen (Z.of_nat (length bs))))) I1 (eq_trans O1 Ho) (zeros_bytes _))
        as (s2 & -> & I2 & O2 & R2 & W2); [rewrite repeat_length; lia|]. rewrite repeat_length, Z2Nat.id in I2 by lia.
      exists s2. split; [reflexivity|]. apply (emits_mod _ _ _ _ _ (phase_padded (Z.of_nat (length bs)))). apply (emits_trans (j := 0 + Z.of_nat (length bs)) s s1 s2); repeat split; auto.
Qed.

Lemma opaque_full s bs tl :
  bounded -> stream_inv s -> x_op s = XDR_ENCODE -> Forall is_byte bs -> room s < Z.of_nat (length (padded bs)) ->
  exists s', xdr_opaque (Z.of_nat (length bs)) s (bs ++ tl) = Some (s', bs ++ tl, false) /\ (exists k, stream_at k s') /\ x_op s' = XDR_ENCODE.
Proof.
  intros Hbd Hs Ho Hb Hr. unfold xdr_opaque. fold (padlen (Z.of_nat (length bs))). cbv zeta.
  pose proof (padlen_range (Z.of_nat (length bs))) as Hp. pose proof (room_range 0 s Hs).
  unfold padded in *. rewrite length_app, repeat_length in Hr.
  destruct (Z.eqb_spec (Z.of_nat (length bs)) 0) as [E|E].
  - exfalso. rewrite E in Hr. change (Z.to_nat (padlen 0)) with 0%nat in Hr. lia.
  - rewrite Ho, storage_read_app.
    destruct (decide (room s < Z.of_nat (length bs))).
    + rewrite (putbytes_full 0) by assumption. eauto.
    + destruct (putbytes_ok 0 s bs Hs Ho Hb ltac:(lia)) as (s1 & -> & I1 & O1 & R1 & W1).
      rewrite (proj2 (Z.eqb_neq _ _)) by lia.
      rewrite (putbytes_full _ s1 _ Hbd I1) by (rewrite repeat_length; lia). rewrite Ho in O1. eauto.
Qed.

Lemma opaque_dec s bs st rest :
  stream_inv s -> x_op s = XDR_DECODE -> (length bs <= length st)%nat -> avail s = padded bs ++ rest ->
  exists s', xdr_opaque (Z.of_nat (length bs)) s st = Some (s', bs ++ drop (length bs) st, true) /\
    consumes s s' (padded bs).
Proof.
  intros Hs Ho Hl Ha. unfold xdr_opaque. fold (padlen (Z.of_nat (length bs))). cbv zeta.
  pose proof (padlen_range (Z.of_nat (length bs))) as Hp.
  destruct (Z.eqb_spec (Z.of_nat (length bs)) 0) as [E|E].
  - destruct bs; [|simpl in E; lia]. exists s. split; [reflexivity|]. repeat split; auto.
  - rewrite Ho. unfold padded in *. rewrite <- app_assoc in Ha.
    destruct (getbytes_ok 0 s bs _ Hs Ho Ha) as (s1 & -> & I1 & O1 & R1).
    unfold storage_write. rewrite (proj2 (Z.leb_le _ _)) by lia.
    assert (reads (0 + Z.of_nat (length bs)) s s1 bs) as C1 by (repeat split; auto; congruence).
    destruct (Z.eqb_spec (padlen (Z.of_nat (length bs))) 0) as [Ep|Ep].
    + exists s1. split; [reflexivity|]. rewrite Ep. cbn [Z.to_nat repeat]. rewrite app_nil_r. exact (consumes_mod _ _ _ _ _ (phase_unpadded _ Ep) C1).
    + destruct (getbytes_ok _ s1 _ _ I1 (eq_trans O1 Ho) R1) as (s2 & E2 & I2 & O2 & R2).
      rewrite repeat_length, Z2Nat.id in E2, I2 by lia. rewrite E2.
      exists s2. split; [reflexivity|]. apply (consumes_mod _ _ _ _ _ (phase_padded (Z.of_nat (length bs)))). eapply consumes_trans; [exact C1|]. repeat split; auto. congruence.
Qed.

Lemma opaque_any s n st :
  stream_inv s -> x_op s = XDR_DECODE -> 0 <= n <= Z.of_nat (length st) ->
  exists s' st' ok bs, xdr_opaque n s st = Some (s', st', ok) /\ length st' = length st /\ ends ok s s' bs.
Proof.
  intros Hs Ho Hn. unfold xdr_opaque. fold (padlen n). cbv zeta. pose proof (padlen_range n) as Hp.
  destruct (n =? 0); [exists s, st, true, []; auto using ends_refl|]. rewrite Ho.
  destruct (getbytes_any 0 s n Hs Ho ltac:(lia)) as [(s1 & bs & -> & C1)|(s1 & bs & -> & Hl & C1)].
  { exists s1, st, false, bs. auto. }
  unfold storage_write. rewrite (proj2 (Z.leb_le _ _)) by lia.
  assert (length (bs ++ drop (length bs) st) = length st) as Hst by (rewrite length_app, length_drop; lia).
  destruct (Z.eqb_spec (padlen n) 0) as [Ep|_]; [eexists s1, _, true, bs; split; [reflexivity|]; split; [assumption|]; exact (ends_stop _ _ _ _ C1 (fun _ => phase_unpadded _ Ep))|].
  pose proof C1 as (I1 & O1 & _).
  destruct (getbytes_any _ s1 (padlen n) I1 (eq_trans O1 Ho) ltac:(lia)) as [(s2 & b2 & -> & C2)|(s2 & b2 & -> & _ & C2)];
    (eexists s2, _, _, (bs ++ b2); split; [reflexivity|]; split; [assumption|]; apply (ends_trans _ _ _ _ _ _ C1); rewrite ?bool_decide_true by eauto).
  - exact C2.
  - exact (consumes_mod _ _ _ _ _ (phase_padded _) C2).
Qed.

#[export] Instance xdr_opaque_codec n :
  Codec (xdr_opaque n) (fun cp => Z.of_nat (length cp) = n /\ Forall is_byte cp)
    (fun a0 a => length a0 = length a) padded.
Proof.
  split.
  - intros s a Hs Ho [<- Hb] Hr. destruct (opaque_enc s a [] Hs Ho Hb Hr) as (s' & E & He).
    rewrite app_nil_r in E. eauto.
  - intros s a Hbd Hs Ho [<- Hb] Hr. destruct (opaque_full s a [] Hbd Hs Ho Hb Hr) as (s' & E & He).
    rewrite app_nil_r in E. eauto.
  - intros s a0 a rest Hs Ho [<- Hb] Hi Ha.
    destruct (opaque_dec s a a0 rest Hs Ho ltac:(lia) Ha) as (s' & E & Hc).
    rewrite drop_ge, app_nil_r in E by lia. eauto.
Qed.
(** ** Counted bytes *)

Lemma u_int_enc s n :
  stream_inv s -> x_op s = XDR_ENCODE -> u_int_range n -> 4 <= room s ->
  exists s', xdr_u_int s n = Some (s', n, true) /\ emits s s' (be32 n).
Proof. intros. apply (codec_enc (f := xdr_u_int)); rewrite ?length_be32; auto. Qed.

Lemma u_int_full s n :
  bounded -> stream_inv s -> x_op s = XDR_ENCODE -> u_int_range n -> room s < 4 ->
  exists s', xdr_u_int s n = Some (s', n, false) /\ (exists k, stream_at k s') /\ x_op s' = XDR_ENCODE.
Proof. intros. apply (codec_full (f := xdr_u_int)); rewrite ?length_be32; auto. Qed.

Lemma u_int_dec s n0 n rest :
  stream_inv s -> x_op s = XDR_DECODE -> u_int_range n -> avail s = be32 n ++ rest ->
  exists s', xdr_u_int s n0 = Some (s', n, true) /\ consumes s s' (be32 n) /\ avail s' = rest.
Proof.
  intros Hs Ho Hn Ha. destruct (codec_dec (f := xdr_u_int) s n0 n rest Hs Ho Hn I Ha) as (s' & E & Hc).
  exists s'. split; [assumption|]. split; [assumption|].
  destruct Hc as (_ & _ & Hc). rewrite Ha in Hc. symmetry. exact (app_inv_head _ _ _ Hc).
Qed.

(** Whatever the input, the decoded count is an unsigned int. *)
Lemma u_int_any s n0 :
  stream_inv s -> x_op s = XDR_DECODE ->
  (exists s' bs, xdr_u_int s n0 = Some (s', n0, false) /\ ends false s s' bs) \/
  exists s' n bs, xdr_u_int s n0 = Some (s', n, true) /\ u_int_range n /\ consumes s s' bs.
Proof.
  intros Hs Ho. unfold xdr_u_int, unit_filter. rewrite Ho.
  destruct (get_any s Hs Ho) as [(s' & bs & -> & Hc)|(s' & bs & -> & _ & Hc)]; [left; eauto|right].
  eexists s', _, bs. split; [reflexivity|]. split; [apply uwrap_range; lia|assumption].
Qed.

Lemma emits_step s s' bs : emits s s' bs -> x_op s = XDR_ENCODE ->
  stream_inv s' /\ x_op s' = XDR_ENCODE /\ room s' = room s - Z.of_nat (length bs).
Proof. intros (? & E & ? & ?) O. rewrite E. auto. Qed.

Lemma consumes_step s s' bs : consumes s s' bs -> x_op s = XDR_DECODE -> stream_inv s' /\ x_op s' = XDR_DECODE.
Proof. intros (? & E & ?) O. rewrite E. auto. Qed.

Section Alloc.
Context (mem_alloc : Z -> option (list Z)).

(** The bytes of an allocation are as many as were asked for. *)
Hypothesis mem_alloc_size : forall n st, mem_alloc n = Some st -> Z.of_nat (length st) = n.

Definition bytes_dom (maxsize : Z) (a : option (list Z) * Z) : Prop :=
  u_int_range (snd a) /\ snd a <= maxsize /\
  match fst a with
  | None => snd a = 0
  | Some bs => Z.of_nat (length bs) = snd a /\ 0 < snd a /\ Forall is_byte bs
  end.

(** The storage to decode into: null when allocation succeeds, or large enough. *)
Definition bytes_init (a0 a : option (list Z) * Z) : Prop :=
  match fst a0, fst a with
  | None, _ => is_Some (mem_alloc (snd a))
  | Some st, Some bs => length st = length bs
  | Some _, None => False
  end.

Definition bytes_wire (a : option (list Z) * Z) : list Z :=
  be32 (snd a) ++ match fst a with Some bs => padded bs | None => [] end.

#[export] Instance xdr_bytes_codec maxsize :
  Codec (xdr_bytes mem_alloc maxsize) (bytes_dom maxsize) bytes_init bytes_wire.
Proof.
  unfold bytes_dom, bytes_init, bytes_wire. split; unfold xdr_bytes, opaque_at; intros s [sp n]; cbn [fst snd].
  - intros Hs Ho (Hn & Hm & Hb) Hr. rewrite length_app, length_be32 in Hr.
    destruct (u_int_enc s n Hs Ho Hn ltac:(lia)) as (s1 & -> & E1). simpl.
    destruct (emits_step _ _ _ E1 Ho) as (I1 & O1 & R1). rewrite length_be32 in R1.
    rewrite (proj2 (Z.ltb_ge _ _)), O1 by lia. simpl. destruct sp as [bs|].
    + destruct Hb as (<- & Hpos & Hb). rewrite (proj2 (Z.eqb_neq _ _)) by lia.
      destruct (opaque_enc s1 bs [] I1 O1 Hb ltac:(lia)) as (s2 & E2 & He). rewrite app_nil_r in E2.
      rewrite E2. exists s2. split; [reflexivity|]. exact (emits_trans _ _ _ _ _ E1 He).
    + subst n. exists s1. rewrite app_nil_r. auto.
  - intros Hbd Hs Ho (Hn & Hm & Hb) Hr. rewrite length_app, length_be32 in Hr.
    destruct (decide (room s < 4)).
    { destruct (u_int_full s n Hbd Hs Ho Hn ltac:(lia)) as (s1 & -> & E1). simpl. eauto. }
    destruct (u_int_enc s n Hs Ho Hn ltac:(lia)) as (s1 & -> & E1). simpl.
    destruct (emits_step _ _ _ E1 Ho) as (I1 & O1 & R1). rewrite length_be32 in R1.
    rewrite (proj2 (Z.ltb_ge _ _)), O1 by lia. simpl. destruct sp as [bs|].
    + destruct Hb as (<- & Hpos & Hb). rewrite (proj2 (Z.eqb_neq _ _)) by lia.
      destruct (opaque_full s1 bs [] Hbd I1 O1 Hb ltac:(lia)) as (s2 & E2 & He). rewrite app_nil_r in E2.
      rewrite E2. eauto.
    + simpl in Hr. lia.
  - intros [sp' n'] rest Hs Ho (Hn & Hm & Hb) Hi Ha. cbn [fst snd] in *. rewrite <- app_assoc in Ha.
    destruct (u_int_dec s n n' _ Hs Ho Hn Ha) as (s1 & -> & C1 & A1). simpl.
    destruct (consumes_step _ _ _ C1 Ho) as (I1 & O1).
    rewrite (proj2 (Z.ltb_ge _ _)), O1 by lia. simpl. destruct sp' as [bs|].
    + destruct Hb as (<- & Hpos & Hb). rewrite (proj2 (Z.eqb_neq _ _)) by lia.
      assert (exists st, match sp with None => mem_alloc (Z.of_nat (length bs)) | Some st => Some st end = Some st
                         /\ length st = length bs) as (st & -> & Hl).
      { destruct sp as [st|]; [eauto|]. destruct Hi as [st Hst]. exists st. split; [assumption|].
        apply mem_alloc_size in Hst. lia. }
      destruct (opaque_dec s1 bs st rest I1 O1 ltac:(lia) A1) as (s2 & -> & C2).
      rewrite drop_ge, app_nil_r by lia. exists s2. split; [reflexivity|]. exact (consumes_trans _ _ _ _ _ C1 C2).
    + subst n'. destruct sp; [contradiction|]. exists s1. rewrite app_nil_r. auto.
Qed.

(** A client that passes storage passes [maxsize] bytes of it. *)
Definition bytes_ready (maxsize : Z) (a0 : option (list Z) * Z) : Prop :=
  match fst a0 with None => True | Some st => maxsize <= Z.of_nat (length st) end.

#[export] Instance xdr_bytes_robust maxsize : Robust (xdr_bytes mem_alloc maxsize) (bytes_ready maxsize).
Proof.
  intros s [sp n0] Hs Ho Hr. unfold bytes_ready in Hr. simpl in Hr. unfold xdr_bytes, opaque_at.
  destruct (u_int_any s n0 Hs Ho) as [(s1 & bs & -> & C1)|(s1 & n & bs & -> & Hn & C1)]; simpl.
  { eexists s1, _, _, bs. auto. }
  destruct (consumes_step _ _ _ C1 Ho) as (I1 & O1). rewrite O1. simpl. rewrite andb_true_r.
  unfold u_int_range in Hn. destruct (Z.ltb_spec maxsize n); [eexists s1, _, _, bs; eauto using ends_false, ends_true|].
  destruct (Z.eqb_spec n 0); [eexists s1, _, _, bs; eauto using ends_false, ends_true|].
  destruct (match sp with None => mem_alloc n | Some st => Some st end) as [st|] eqn:Est;
    [|eexists s1, _, _, bs; eauto using ends_false, ends_true].
  destruct (opaque_any s1 n st I1 O1) as (s2 & st' & ok & b2 & -> & _ & C2).
  { destruct sp; [injection Est as ->; lia|]. apply mem_alloc_size in Est. lia. }
  eexists s2, _, _, (bs ++ b2). split; [reflexivity|]. exact (ends_trans _ _ _ _ _ _ C1 C2).
Qed.

(** ** Strings *)

Definition string_dom (maxsize : Z) (a : option (list Z)) : Prop :=
  exists str, a = Some (str ++ [0]) /\ Forall is_byte str /\ Forall (fun b => b <> 0) str /\
    Z.of_nat (length str) <= maxsize /\ Z.of_nat (length str) < 2 ^ 32 - 1.

(** The storage to decode [a] into: null when allocation succeeds, or of its size. *)
Definition string_init (a0 a : option (list Z)) : Prop :=
  match a0, a with
  | None, Some st => is_Some (mem_alloc (Z.of_nat (length st)))
  | Some st0, Some st => length st0 = length st
  | _, None => False
  end.

Definition string_wire (a : option (list Z)) : list Z :=
  match a with
  | Some st => let n := pred (length st) in be32 (Z.of_nat n) ++ padded (take n st)
  | None => []
  end.

Lemma string_wire_app str : string_wire (Some (str ++ [0])) = be32 (Z.of_nat (length str)) ++ padded str.
Proof.
  unfold string_wire. rewrite length_app, Nat.add_comm. cbn [length Nat.add pred].
  rewrite take_app_length. reflexivity.
Qed.

Lemma storage_strlen_app str : Forall (fun b => b <> 0) str -> storage_strlen (str ++ [0]) = Some (Z.of_nat (length str)).
Proof.
  intros Hne. unfold storage_strlen. rewrite index_of_app, index_of_ne by assumption. simpl.
  rewrite Nat.add_0_r. reflexivity.
Qed.

Lemma u32_count n : 0 <= n < 2 ^ 32 - 1 -> u32 n = n /\ u32 (n + 1) = n + 1 /\ (n + 1 =? 0) = false.
Proof. intros Hn. unfold u32. rewrite !uwrap_small by lia. repeat split; auto. apply Z.eqb_neq. lia. Qed.

Lemma set0_last (st0 str : list Z) :
  length st0 = Datatypes.S (length str) ->
  exists st, storage_set0 st0 (Z.of_nat (length str)) = Some st /\ length st = length st0 /\
    drop (length str) st = [0].
Proof.
  intros Hl. unfold storage_set0. rewrite (proj2 (Z.ltb_lt _ _)), Nat2Z.id by lia.
  eexists. split; [reflexivity|]. rewrite length_insert. split; [reflexivity|].
  rewrite (drop_S _ 0 (length str)) by (apply list_lookup_insert_eq; lia).
  rewrite drop_ge by (rewrite length_insert; lia). reflexivity.
Qed.

#[export] Instance xdr_string_codec maxsize :
  Codec (xdr_string mem_alloc maxsize) (string_dom maxsize) string_init string_wire.
Proof.
  split; intros s a.
  - intros Hs Ho (str & -> & Hb & Hne & Hm & Hlt) Hr. rewrite string_wire_app, length_app, length_be32 in *.
    unfold xdr_string. rewrite Ho, storage_strlen_app by assumption.
    destruct (u32_count (Z.of_nat (length str))) as (-> & E2 & E3); [lia|].
    destruct (u_int_enc s (Z.of_nat (length str)) Hs Ho) as (s1 & -> & E1); [unfold u_int_range; lia..|].
    destruct (emits_step _ _ _ E1 Ho) as (I1 & O1 & R1). rewrite length_be32 in R1. simpl.
    rewrite (proj2 (Z.ltb_ge _ _)), E2, E3, O1 by lia. unfold opaque_at.
    destruct (opaque_enc s1 str [0] I1 O1 Hb ltac:(lia)) as (s2 & -> & He).
    exists s2. split; [reflexivity|]. exact (emits_trans _ _ _ _ _ E1 He).
  - intros Hbd Hs Ho (str & -> & Hb & Hne & Hm & Hlt) Hr. rewrite string_wire_app, length_app, length_be32 in *.
    unfold xdr_string. rewrite Ho, storage_strlen_app by assumption.
    destruct (u32_count (Z.of_nat (length str))) as (-> & E2 & E3); [lia|].
    destruct (decide (room s < 4)).
    { destruct (u_int_full s (Z.of_nat (length str)) Hbd Hs Ho) as (s1 & -> & E1); [unfold u_int_range; lia..|].
      simpl. eauto. }
    destruct (u_int_enc s (Z.of_nat (length str)) Hs Ho) as (s1 & -> & E1); [unfold u_int_range; lia..|].
    destruct (emits_step _ _ _ E1 Ho) as (I1 & O1 & R1). rewrite length_be32 in R1. simpl.
    rewrite (proj2 (Z.ltb_ge _ _)), E2, E3, O1 by lia. unfold opaque_at.
    destruct (opaque_full s1 str [0] Hbd I1 O1 Hb ltac:(lia)) as (s2 & -> & He). eauto.
  - intros a1 rest Hs Ho (str & -> & Hb & Hne & Hm & Hlt) Hi Ha.
    rewrite string_wire_app in *. rewrite <- app_assoc in Ha. unfold xdr_string. rewrite Ho.
    destruct (u32_count (Z.of_nat (length str))) as (_ & E2 & E3); [lia|].
    destruct (u_int_dec s (u32 0) (Z.of_nat (length str)) _ Hs Ho ltac:(unfold u_int_range; lia) Ha) as (s1 & -> & C1 & A1).
    destruct (consumes_step _ _ _ C1 Ho) as (I1 & O1). simpl.
    rewrite (proj2 (Z.ltb_ge _ _)), E2, E3, O1 by lia. unfold opaque_at.
    unfold string_init in Hi. rewrite length_app in Hi. cbn [length] in Hi.
    assert (exists st, match a with None => mem_alloc (Z.of_nat (length str) + 1) | Some st => Some st end = Some st
                       /\ length st = Datatypes.S (length str)) as (st & -> & Hl).
    { destruct a as [st|]; [eexists; split; [reflexivity|lia]|]. destruct Hi as [st Hst].
      replace (Z.of_nat (length str) + 1) with (Z.of_nat (length str + 1)) by lia.
      exists st. split; [assumption|]. apply mem_alloc_size in Hst. lia. }
    destruct (set0_last st str Hl) as (st' & -> & Hl' & Hd).
    destruct (opaque_dec s1 str st' rest I1 O1 ltac:(lia) A1) as (s2 & E & C2). rewrite Hd in E.
    exists s2. destruct a; rewrite E; (split; [reflexivity|exact (consumes_trans _ _ _ _ _ C1 C2)]).
Qed.

(** A client that passes storage passes [maxsize + 1] bytes of it. *)
Definition string_ready (maxsize : Z) (a0 : option (list Z)) : Prop :=
  match a0 with None => True | Some st => maxsize < Z.of_nat (length st) end.

#[export] Instance xdr_string_robust maxsize : Robust (xdr_string mem_alloc maxsize) (string_ready maxsize).
Proof.
  intros s sp Hs Ho Hr. unfold xdr_string, opaque_at. rewrite Ho.
  destruct (u_int_any s (u32 0) Hs Ho) as [(s1 & bs & -> & C1)|(s1 & n & bs & -> & Hn & C1)]; simpl.
  { eexists s1, _, _, bs. auto. }
  destruct (consumes_step _ _ _ C1 Ho) as (I1 & O1). rewrite O1.
  unfold u_int_range in Hn. destruct (Z.ltb_spec maxsize n); [eexists s1, _, _, bs; eauto using ends_false, ends_true|].
  destruct (Z.eqb_spec (u32 (n + 1)) 0) as [|Hnz]; [eexists s1, _, _, bs; eauto using ends_false, ends_true|].
  assert (u32 (n + 1) = n + 1) as Hn1.
  { destruct (decide (n = 2 ^ 32 - 1)) as [-> |]; [contradiction|]. apply uwrap_small. lia. }
  destruct (match sp with None => mem_alloc (u32 (n + 1)) | Some st => Some st end) as [st|] eqn:Est;
    [|eexists s1, _, _, bs; destruct sp; eauto using ends_false, ends_true].
  assert (n < Z.of_nat (length st)) as Hst.
  { destruct sp; [injection Est as ->; simpl in Hr; lia|]. apply mem_alloc_size in Est. lia. }
  unfold storage_set0. rewrite (proj2 (Z.ltb_lt _ _)) by assumption.
  destruct (opaque_any s1 n (<[Z.to_nat n := 0]> st) I1 O1) as (s2 & st' & ok & b2 & E & _ & C2).
  { rewrite length_insert. lia. }
  exists s2, (Some st'), ok, (bs ++ b2).
  split; [destruct sp; rewrite E; reflexivity|]. exact (ends_trans _ _ _ _ _ _ C1 C2).
Qed.
End Alloc.

(** ** Discriminated unions *)

Section Union.
Context {U : Type} (choices : list (Z * filter (S := S) U)) (dfault : option (filter (S := S) U)).
Context (arm_dom : Z -> U -> Prop) (arm_init : Z -> U -> U -> Prop) (arm_wire : Z -> U -> list Z).

(** The routine that [xdr_union] runs for a discriminant. *)
Definition arm_proc (d : Z) : option (filter (S := S) U) :=
  match find_arm choices d with Some proc => Some proc | None => dfault end.

Hypothesis arms : forall d f, arm_proc d = Some f -> Codec f (arm_dom d) (arm_init d) (arm_wire d).

Lemma xdr_union_arm s d u :
  xdr_union choices dfault s (d, u) =
  let? '(s, d, ok) := xdr_enum s d in
  if negb ok then Some (s, (d, u), false) else
  match arm_proc d with
  | Some proc => let? '(s, u, ok) := proc s u in Some (s, (d, u), ok)
  | None => Some (s, (d, u), false)
  end.
Proof.
  unfold xdr_union, arm_proc. destruct (xdr_enum s d) as [[[s1 d1] ok]|]; [|reflexivity].
  destruct (find_arm choices d1); reflexivity.
Qed.

Lemma xdr_union_codec :
  Codec (xdr_union choices dfault)
    (fun a => int_range (fst a) /\ is_Some (arm_proc (fst a)) /\ arm_dom (fst a) (snd a))
    (fun a0 a => arm_init (fst a) (snd a0) (snd a))
    (fun a => be32 (fst a) ++ arm_wire (fst a) (snd a)).
Proof.
  split; intros s [d u].
  - cbn [fst snd]. intros Hs Ho (Hd & [f Hf] & Hu) Hr. rewrite length_app in Hr.
    pose proof (arms d f Hf) as Hc. rewrite xdr_union_arm.
    destruct (codec_enc (f := xdr_enum) s d Hs Ho Hd) as (s1 & -> & E1); [lia|]. simpl. rewrite Hf.
    destruct (emits_step _ _ _ E1 Ho) as (I1 & O1 & R1).
    destruct (codec_enc (f := f) s1 u I1 O1 Hu) as (s2 & -> & E2); [lia|].
    exists s2. split; [reflexivity|]. exact (emits_trans _ _ _ _ _ E1 E2).
  - cbn [fst snd]. intros Hbd Hs Ho (Hd & [f Hf] & Hu) Hr. rewrite length_app in Hr.
    pose proof (arms d f Hf) as Hc. rewrite xdr_union_arm.
    destruct (decide (room s < Z.of_nat (length (be32 d)))).
    { destruct (codec_full (f := xdr_enum) s d Hbd Hs Ho Hd) as (s1 & -> & E1); [lia|]. simpl. eauto. }
    destruct (codec_enc (f := xdr_enum) s d Hs Ho Hd) as (s1 & -> & E1); [lia|]. simpl. rewrite Hf.
    destruct (emits_step _ _ _ E1 Ho) as (I1 & O1 & R1).
    destruct (codec_full (f := f) s1 u Hbd I1 O1 Hu) as (s2 & -> & E2); [lia|]. eauto.
  - intros [d' u'] rest. cbn [fst snd]. intros Hs Ho (Hd & [f Hf] & Hu) Hi Ha. rewrite <- app_assoc in Ha.
    pose proof (arms d' f Hf) as Hc. rewrite xdr_union_arm.
    destruct (codec_dec (f := xdr_enum) s d d' _ Hs Ho Hd I Ha) as (s1 & -> & C1). simpl. rewrite Hf.
    destruct (consumes_step _ _ _ C1 Ho) as (I1 & O1).
    assert (avail s1 = arm_wire d' u' ++ rest) as A1.
    { destruct C1 as (_ & _ & C1). rewrite Ha in C1. symmetry. exact (app_inv_head _ _ _ C1). }
    destruct (codec_dec (f := f) s1 u u' rest I1 O1 Hu Hi A1) as (s2 & -> & C2).
    exists s2. split; [reflexivity|]. exact (consumes_trans _ _ _ _ _ C1 C2).
Qed.
End Union.

(** ** Vectors and arrays *)

Section Elements.
Context {A : Type} (elproc : filter (S := S) A) (dom : A -> Prop) (init : A -> A -> Prop) (wire : A -> list Z).

Definition elems_wire (l : list A) : list Z := concat (map wire l).

Section ElementCodec.
Context `{!Codec elproc dom init wire}.

Lemma elems_enc l s :
  stream_inv s -> x_op s = XDR_ENCODE -> Forall dom l -> Z.of_nat (length (elems_wire l)) <= room s ->
  exists s', xdr_elems elproc (length l) s l = Some (s', l, true) /\ emits s s' (elems_wire l).
Proof.
  unfold elems_wire. revert s. induction l as [|a l IH]; intros s Hs Ho Hd Hr; simpl.
  - exists s. split; [reflexivity|]. unfold puts. rewrite app_nil_r. simpl. repeat split; auto. lia.
  - simpl in Hr. rewrite length_app in Hr. inversion Hd as [|? ? Ha Hl]; subst.
    destruct (codec_enc (f := elproc) s a Hs Ho Ha) as (s1 & -> & E1); [lia|].
    destruct (emits_step _ _ _ E1 Ho) as (I1 & O1 & R1).
    destruct (IH s1 I1 O1 Hl ltac:(lia)) as (s2 & -> & E2).
    exists s2. split; [reflexivity|]. exact (emits_trans _ _ _ _ _ E1 E2).
Qed.

Lemma elems_full l s :
  bounded -> stream_inv s -> x_op s = XDR_ENCODE -> Forall dom l -> room s < Z.of_nat (length (elems_wire l)) ->
  exists s', xdr_elems elproc (length l) s l = Some (s', l, false) /\ (exists k, stream_at k s') /\ x_op s' = XDR_ENCODE.
Proof.
  intros Hbd. unfold elems_wire. revert s. induction l as [|a l IH]; intros s Hs Ho Hd Hr; simpl in *.
  - pose proof (room_range 0 s Hs). lia.
  - rewrite length_app in Hr. inversion Hd as [|? ? Ha Hl]; subst.
    destruct (decide (room s < Z.of_nat (length (wire a)))).
    { destruct (codec_full (f := elproc) s a Hbd Hs Ho Ha) as (s1 & -> & E1); [lia|]. eauto. }
    destruct (codec_enc (f := elproc) s a Hs Ho Ha) as (s1 & -> & E1); [lia|].
    destruct (emits_step _ _ _ E1 Ho) as (I1 & O1 & R1).
    destruct (IH s1 I1 O1 Hl ltac:(lia)) as (s2 & -> & E2); eauto.
Qed.

Lemma elems_dec l l0 s rest :
  stream_inv s -> x_op s = XDR_DECODE -> Forall dom l -> Forall2 init l0 l -> avail s = elems_wire l ++ rest ->
  exists s', xdr_elems elproc (length l) s l0 = Some (s', l, true) /\ consumes s s' (elems_wire l).
Proof.
  unfold elems_wire. intros Hs Ho Hd Hi. revert s Hs Ho Hd. induction Hi as [|a0 a l0 l Ha Hi IH];
    intros s Hs Ho Hd Hav; simpl in *.
  - exists s. auto using consumes_refl.
  - inversion Hd as [|? ? Hda Hdl]; subst. rewrite <- app_assoc in Hav.
    destruct (codec_dec (f := elproc) s a0 a _ Hs Ho Hda Ha Hav) as (s1 & -> & C1).
    destruct (consumes_step _ _ _ C1 Ho) as (I1 & O1).
    assert (avail s1 = concat (map wire l) ++ rest) as A1.
    { destruct C1 as (_ & _ & C1). rewrite Hav in C1. symmetry. exact (app_inv_head _ _ _ C1). }
    destruct (IH s1 I1 O1 Hdl A1) as (s2 & -> & C2).
    exists s2. split; [reflexivity|]. exact (consumes_trans _ _ _ _ _ C1 C2).
Qed.

#[export] Instance xdr_vector_codec n :
  Codec (xdr_vector n elproc) (fun l => Z.of_nat (length l) = n /\ Forall dom l) (Forall2 init) elems_wire.
Proof.
  split; unfold xdr_vector.
  - intros s l Hs Ho [<- Hd] Hr. rewrite Nat2Z.id. apply elems_enc; assumption.
  - intros s l Hbd Hs Ho [<- Hd] Hr. rewrite Nat2Z.id. apply elems_full; assumption.
  - intros s l0 l rest Hs Ho [<- Hd] Hi Ha. rewrite Nat2Z.id. eapply elems_dec; eassumption.
Qed.

Context (calloc : Z -> Z -> option (list A)) (zero : A) (maxsize elsize : Z).

(** [calloc] delivers the elements asked for, zeroed, or nothing. *)
Hypothesis calloc_zeroed : forall c e l, calloc c e = Some l -> l = repeat zero (Z.to_nat c).

Definition array_dom (a : option (list A) * Z) : Prop :=
  u_int_range (snd a) /\ snd a <= maxsize /\ snd a * elsize <= LASTUNSIGNED /\
  match fst a with
  | None => snd a = 0
  | Some l => Z.of_nat (length l) = snd a /\ 0 < snd a /\ Forall dom l
  end.

Definition array_init (a0 a : option (list A) * Z) : Prop :=
  match fst a0, fst a with
  | None, None => True
  | None, Some l => is_Some (calloc (snd a) elsize) /\ Forall (init zero) l
  | Some l0, Some l => Forall2 init l0 l
  | Some _, None => False
  end.

Definition array_wire (a : option (list A) * Z) : list Z :=
  be32 (snd a) ++ match fst a with Some l => elems_wire l | None => [] end.

Lemma array_guard c :
  0 < elsize -> c <= maxsize -> c * elsize <= LASTUNSIGNED ->
  (if maxsize <? c then Some true else if elsize =? 0 then None else Some (LASTUNSIGNED / elsize <? c)) = Some false.
Proof.
  intros He Hc Hm. rewrite (proj2 (Z.ltb_ge _ _)), (proj2 (Z.eqb_neq _ _)) by lia. f_equal.
  apply Z.ltb_ge, Z.div_le_lower_bound; lia.
Qed.

Lemma init_zero l : Forall (init zero) l -> Forall2 init (repeat zero (length l)) l.
Proof. induction 1; simpl; constructor; auto. Qed.

Lemma xdr_array_codec :
  0 < elsize -> Codec (xdr_array calloc maxsize elsize elproc) array_dom array_init array_wire.
Proof.
  intros He. unfold array_dom, array_init, array_wire.
  split; unfold xdr_array; intros s [sp n]; cbn [fst snd].
  - intros Hs Ho (Hn & Hm & Hmul & Hb) Hr. rewrite length_app, length_be32 in Hr.
    destruct (u_int_enc s n Hs Ho Hn ltac:(lia)) as (s1 & -> & E1). cbn [negb].
    destruct (emits_step _ _ _ E1 Ho) as (I1 & O1 & R1). rewrite length_be32 in R1.
    rewrite array_guard by assumption. cbn [andb]. destruct sp as [l|].
    + destruct Hb as (<- & Hpos & Hb). rewrite Nat2Z.id.
      destruct (elems_enc l s1 I1 O1 Hb ltac:(lia)) as (s2 & -> & He2).
      destruct (emits_step _ _ _ He2 O1) as (I2 & O2 & R2). rewrite O2.
      exists s2. split; [reflexivity|]. exact (emits_trans _ _ _ _ _ E1 He2).
    + subst n. rewrite O1. exists s1. rewrite app_nil_r. auto.
  - intros Hbd Hs Ho (Hn & Hm & Hmul & Hb) Hr. rewrite length_app, length_be32 in Hr.
    destruct (decide (room s < 4)).
    { destruct (u_int_full s n Hbd Hs Ho Hn ltac:(lia)) as (s1 & -> & E1). cbn [negb]. eauto. }
    destruct (u_int_enc s n Hs Ho Hn ltac:(lia)) as (s1 & -> & E1). cbn [negb].
    destruct (emits_step _ _ _ E1 Ho) as (I1 & O1 & R1). rewrite length_be32 in R1.
    rewrite array_guard by assumption. cbn [andb]. destruct sp as [l|]; [|simpl in Hr; lia].
    destruct Hb as (<- & Hpos & Hb). rewrite Nat2Z.id.
    destruct (elems_full l s1 Hbd I1 O1 Hb ltac:(lia)) as (s2 & -> & I2 & O2). rewrite O2. eauto.
  - intros [sp' n'] rest. cbn [fst snd]. intros Hs Ho (Hn & Hm & Hmul & Hb) Hi Ha. rewrite <- app_assoc in Ha.
    destruct (u_int_dec s n n' _ Hs Ho Hn Ha) as (s1 & -> & C1 & A1). cbn [negb].
    destruct (consumes_step _ _ _ C1 Ho) as (I1 & O1).
    rewrite array_guard by assumption. cbn [andb]. destruct sp' as [l|].
    + destruct Hb as (<- & Hpos & Hb). rewrite O1, (proj2 (Z.eqb_neq _ _)), Nat2Z.id by lia.
      assert (exists l0, Forall2 init l0 l /\
        match sp with None => calloc (Z.of_nat (length l)) elsize | Some l0 => Some l0 end = Some l0) as (l0 & Hl0 & El0).
      { destruct sp as [l0|]; [eauto|]. destruct Hi as [[l0 Hc] Hz]. exists l0. split; [|assumption].
        apply calloc_zeroed in Hc as ->. rewrite Nat2Z.id. apply init_zero. assumption. }
      destruct (elems_dec l l0 s1 rest I1 O1 Hb Hl0 A1) as (s2 & E2 & C2).
      destruct (consumes_step _ _ _ C2 O1) as (I2 & O2).
      exists s2. split; [|exact (consumes_trans _ _ _ _ _ C1 C2)].
      destruct sp; [injection El0 as ->|rewrite El0]; rewrite E2, O2; reflexivity.
    + subst n'. destruct sp; [contradiction|]. rewrite O1. exists s1. rewrite app_nil_r. auto.
Qed.
End ElementCodec.

(** *** Arbitrary input *)

Context (ready : A -> Prop) `{!Robust elproc ready}.

Lemma elems_any n l s :
  stream_inv s -> x_op s = XDR_DECODE -> (n <= length l)%nat -> Forall ready l ->
  exists s' l' ok bs, xdr_elems elproc n s l = Some (s', l', ok) /\ ends ok s s' bs.
Proof.
  intros Hs Ho Hn Hr. revert n s Hs Ho Hn. induction Hr as [|a l Ha Hr IH]; intros [|n] s Hs Ho Hn; simpl in *.
  1,3: eexists s, _, _, []; auto using ends_refl.
  { lia. }
  destruct (robust_dec (f := elproc) s a Hs Ho Ha) as (s1 & a1 & ok & bs & -> & C1).
  destruct ok; [|eexists s1, _, _, bs; eauto]. destruct (consumes_step _ _ _ C1 Ho) as (I1 & O1).
  destruct (IH n s1 I1 O1 ltac:(lia)) as (s2 & l2 & ok & b2 & -> & C2).
  eexists s2, _, _, (bs ++ b2). split; [reflexivity|]. exact (ends_trans _ _ _ _ _ _ C1 C2).
Qed.

Context (calloc : Z -> Z -> option (list A)) (zero : A) (maxsize elsize : Z).
Hypothesis calloc_zeroed : forall c e l, calloc c e = Some l -> l = repeat zero (Z.to_nat c).

Definition array_ready (a0 : option (list A) * Z) : Prop :=
  match fst a0 with None => ready zero | Some l => maxsize <= Z.of_nat (length l) /\ Forall ready l end.

Lemma xdr_array_robust : 0 < elsize -> Robust (xdr_array calloc maxsize elsize elproc) array_ready.
Proof.
  intros He s [sp n0] Hs Ho Hr. unfold array_ready in Hr. cbn [fst] in Hr. unfold xdr_array.
  destruct (u_int_any s n0 Hs Ho) as [(s1 & bs & -> & C1)|(s1 & n & bs & -> & Hn & C1)]; cbn [negb].
  { eexists s1, _, _, bs. auto. }
  destruct (consumes_step _ _ _ C1 Ho) as (I1 & O1). rewrite O1.
  assert (forall l, (Z.to_nat n <= length l)%nat -> Forall ready l ->
    exists s' l' ok b2, xdr_elems elproc (Z.to_nat n) s1 l = Some (s', l', ok) /\ ends ok s s' (bs ++ b2)) as Hrun.
  { intros l Hl Hrl. destruct (elems_any (Z.to_nat n) l s1 I1 O1 Hl Hrl) as (s2 & l2 & ok & b2 & E & C2).
    exists s2, l2, ok, b2. split; [assumption|]. exact (ends_trans _ _ _ _ _ _ C1 C2). }
  unfold u_int_range in Hn. rewrite (proj2 (Z.eqb_neq elsize 0)) by lia.
  destruct (Z.ltb_spec maxsize n); [eexists s1, _, _, bs; simpl; eauto using ends_false, ends_true|].
  destruct (LASTUNSIGNED / elsize <? n); [eexists s1, _, _, bs; simpl; eauto using ends_false, ends_true|]. cbn [andb].
  destruct sp as [l|].
  - destruct Hr as [Hl Hr]. destruct (Hrun l ltac:(lia) Hr) as (s2 & l2 & ok & b2 & -> & C2).
    eexists s2, _, _, _. eauto.
  - destruct (n =? 0); [eexists s1, _, _, bs; eauto using ends_false, ends_true|].
    destruct (calloc n elsize) as [l|] eqn:El; [|eexists s1, _, _, bs; eauto using ends_false, ends_true].
    apply calloc_zeroed in El as ->.
    destruct (Hrun (repeat zero (Z.to_nat n))) as (s2 & l2 & ok & b2 & -> & C2).
    { rewrite repeat_length. lia. }
    { clear -Hr. induction (Z.to_nat n); simpl; constructor; auto. }
    eexists s2, _, _, _. eauto.
Qed.
End Elements.
End Codecs.
