(* ===== verification/XdrMem.v ===== *)
(** Memory streams of the external data representation (sunrpc/xdr_mem.c): the
    operations of the table [xdrmem_ops], their proof of the [XdrStream] interface,
    and the round trips through a buffer that follow from it. *)
From S2P Require Import Prelude CMem Byteswap Xdr.

(** * Memory streams (xdr_mem.c) *)

Record XDR := mkXDR {
  xop : xdr_op;
  x_private : Z;   (* address of the next unit *)
  x_base : Z;
  x_handy : Z;     (* bytes left, a [u_int] *)
  x_mem : mem
}.

Section MemStream.
Context (A : arch).

Definition htonl (x : Z) : Z := if big_endian A then x else bswap_32 x.

Definition ntohl (x : Z) : Z := if big_endian A then x else bswap_32 x.

Definition mem_read (m : mem) (p : Z) (n : nat) : option (list Z) :=
  match @load_bytes Empty_set m p n with Next bs => Some bs | _ => None end.

Definition mem_write (m : mem) (p : Z) (bs : list Z) : option mem :=
  match @store_bytes Empty_set m p bs with Next m => Some m | _ => None end.

(** The object representation of a 32-bit integer. *)
Definition int32_val (bs : list Z) : Z := if big_endian A then be_val bs else le_val bs.

Definition int32_bytes (v : Z) : list Z := if big_endian A then rev (le_bytes 4 v) else le_bytes 4 v.

(** [*(int32_t * ) p]: undefined unless [p] is aligned. *)
Definition int32_load (m : mem) (p : Z) : option Z :=
  if p mod 4 =? 0 then let? bs := mem_read m p 4 in Some (int32_val bs) else None.

Definition int32_store (m : mem) (p v : Z) : option mem :=
  if p mod 4 =? 0 then mem_write m p (int32_bytes v) else None.

Definition xdrmem_create (m : mem) (addr size : Z) (op : xdr_op) : XDR := mkXDR op addr addr size m.

(** Consume [n] bytes of the buffer. *)
Definition advance (xdrs : XDR) (n : Z) (m : mem) : XDR :=
  mkXDR (xop xdrs) (x_private xdrs + n) (x_base xdrs) (x_handy xdrs - n) m.

Definition xdrmem_getlong (xdrs : XDR) : option (XDR * option Z) :=
  if x_handy xdrs <? 4 then Some (xdrs, None) else
  let? v := int32_load (x_mem xdrs) (x_private xdrs) in
  Some (advance xdrs 4 (x_mem xdrs), Some (s32 (ntohl v))).

Definition xdrmem_putlong (xdrs : XDR) (l : Z) : option (XDR * bool) :=
  if x_handy xdrs <? 4 then Some (xdrs, false) else
  let? m := int32_store (x_mem xdrs) (x_private xdrs) (htonl (u32 l)) in
  Some (advance xdrs 4 m, true).

Definition xdrmem_getbytes (xdrs : XDR) (len : Z) : option (XDR * option (list Z)) :=
  if x_handy xdrs <? len then Some (xdrs, None) else
  let? bs := mem_read (x_mem xdrs) (x_private xdrs) (Z.to_nat len) in
  Some (advance xdrs len (x_mem xdrs), Some bs).

Definition xdrmem_putbytes (xdrs : XDR) (bs : list Z) : option (XDR * bool) :=
  let len := Z.of_nat (length bs) in
  if x_handy xdrs <? len then Some (xdrs, false) else
  let? m := mem_write (x_mem xdrs) (x_private xdrs) bs in
  Some (advance xdrs len m, true).

Definition xdrmem_getpos (xdrs : XDR) : Z := u32 (x_private xdrs - x_base xdrs).

Definition xdrmem_setpos (xdrs : XDR) (pos : Z) : XDR * bool :=
  let newaddr := x_base xdrs + pos in
  let lastaddr := x_private xdrs + x_handy xdrs in
  let handy := u64 (lastaddr - newaddr) in
  if (lastaddr <? newaddr) || (newaddr <? x_base xdrs) || negb (handy =? u32 handy)
  then (xdrs, false)
  else (mkXDR (xop xdrs) newaddr (x_base xdrs) (u32 handy) (x_mem xdrs), true).

(** The address of [len] bytes that the caller may use in place, or 0. *)
Definition xdrmem_inline (xdrs : XDR) (len : Z) : XDR * Z :=
  if len <=? x_handy xdrs then (advance xdrs len (x_mem xdrs), x_private xdrs) else (xdrs, 0).

Definition xdrmem_getint32 (xdrs : XDR) : option (XDR * option Z) :=
  if x_handy xdrs <? 4 then Some (xdrs, None) else
  let? v := int32_load (x_mem xdrs) (x_private xdrs) in
  Some (advance xdrs 4 (x_mem xdrs), Some (s32 (ntohl v))).

Definition xdrmem_putint32 (xdrs : XDR) (i : Z) : option (XDR * bool) :=
  if x_handy xdrs <? 4 then Some (xdrs, false) else
  let? m := int32_store (x_mem xdrs) (x_private xdrs) (htonl (u32 i)) in
  Some (advance xdrs 4 m, true).

(** The table [xdrmem_ops]. *)
#[export] Instance xdrmem_ops : XdrOps XDR := {
  x_op := xop;
  XDR_GETLONG := xdrmem_getlong;
  XDR_PUTLONG := xdrmem_putlong;
  XDR_GETBYTES := xdrmem_getbytes;
  XDR_PUTBYTES := xdrmem_putbytes
}.

(** xdr_free: run the filter on a handle whose other fields are indeterminate. *)
Definition xdr_free {T} (proc : XDR -> T -> option (XDR * T * bool)) (junk : XDR) (objp : T) : option T :=
  let? '(_, obj, _) := proc (mkXDR XDR_FREE (x_private junk) (x_base junk) (x_handy junk) (x_mem junk)) objp in
  Some obj.

End MemStream.


(** * The interface holds *)

Section Stream.
Context (A : arch).

(** The bytes a unit is stored as do not depend on the byte order of the machine. *)
Lemma store_unit v : int32_bytes A (htonl A (u32 v)) = be32 v.
Proof.
  unfold int32_bytes, htonl, be32. destruct (big_endian A); [reflexivity|].
  pose proof (uwrap_range 32 v ltac:(lia)) as Hr. fold (u32 v) in Hr.
  rewrite <- (le_val_le_bytes 4 (u32 v)) at 1 by exact Hr.
  pose proof (le_bytes_byte 4 (u32 v)) as Hb.
  rewrite bswap_32_bytes by (apply length_le_bytes || assumption).
  replace 4%nat with (length (rev (le_bytes 4 (u32 v)))) by (rewrite length_rev; apply length_le_bytes).
  apply le_bytes_le_val, rev_Forall. assumption.
Qed.

Lemma load_unit bs : length bs = 4%nat -> Forall is_byte bs -> ntohl A (int32_val A bs) = be_val bs.
Proof.
  intros Hl Hb. unfold ntohl, int32_val, be_val. destruct (big_endian A); [reflexivity|].
  apply bswap_32_bytes; assumption.
Qed.

(** The bytes of the addresses [p, q). *)
Definition region (m : mem) (p q : Z) : list Z := default [] (mem_read m p (Z.to_nat (q - p))).

Lemma mem_read_at m p bs : bytes_at m p bs -> mem_read m p (length bs) = Some bs.
Proof. intros Hb. unfold mem_read. rewrite (load_bytes_spec _ _ _ Hb). reflexivity. Qed.

Lemma region_at m p q bs : bytes_at m p bs -> Z.of_nat (length bs) = q - p -> region m p q = bs.
Proof.
  intros Hb Hl. unfold region. replace (Z.to_nat (q - p)) with (length bs) by lia.
  rewrite mem_read_at by assumption. reflexivity.
Qed.

Lemma region_mapped m p q :
  p <= q -> mapped m p q -> bytes_at m p (region m p q) /\ Z.of_nat (length (region m p q)) = q - p.
Proof.
  intros Hpq Hm. destruct (mapped_bytes_at m p (Z.to_nat (q - p))) as (bs & Hl & Hb).
  { rewrite Z2Nat.id by lia. replace (p + (q - p)) with q by lia. assumption. }
  rewrite (region_at m p q bs) by (auto; lia). split; [assumption|lia].
Qed.

Lemma mapped_sub m p q p' q' : mapped m p q -> p <= p' -> q' <= q -> mapped m p' q'.
Proof. intros Hm Hp Hq a Ha. apply Hm. lia. Qed.

Section Buffer.
Context (m0 : mem) (base limit : Z).

(** The stream works on the buffer [base, limit); the rest of the memory is that of [m0]. *)
Record xdrmem_inv (s : XDR) : Prop := {
  inv_wf : wf_mem (x_mem s);
  inv_base : x_base s = base;
  inv_private : base <= x_private s;
  inv_handy : 0 <= x_handy s < 2 ^ 32;
  inv_limit : x_private s + x_handy s = limit;
  inv_mapped : mapped (x_mem s) base limit;
  inv_frame : forall a, ~ (base <= a < limit) -> x_mem s !! a = m0 !! a
}.

Definition xdrmem_avail (s : XDR) : list Z := region (x_mem s) (x_private s) limit.

Definition xdrmem_written (s : XDR) : list Z := region (x_mem s) base (x_private s).

Lemma avail_at s :
  xdrmem_inv s -> bytes_at (x_mem s) (x_private s) (xdrmem_avail s) /\
                  Z.of_nat (length (xdrmem_avail s)) = x_handy s.
Proof.
  intros Hs. destruct Hs. destruct (region_mapped (x_mem s) (x_private s) limit) as [Hb Hl]; [lia| |].
  { eapply mapped_sub; [eassumption|lia|lia]. }
  split; [exact Hb|]. unfold xdrmem_avail. lia.
Qed.

(** Writing bytes at the current position. *)
Lemma write_step s bs :
  xdrmem_inv s -> Forall is_byte bs -> Z.of_nat (length bs) <= x_handy s ->
  exists m', mem_write (x_mem s) (x_private s) bs = Some m' /\
    let s' := advance s (Z.of_nat (length bs)) m' in
    xdrmem_inv s' /\ xdrmem_written s' = xdrmem_written s ++ bs.
Proof.
  intros Hs Hb Hl. destruct Hs.
  destruct (@store_bytes_spec Empty_set (x_mem s) (x_private s) bs) as (m' & E & Hm').
  { eapply mapped_sub; [eassumption|lia|lia]. }
  { assumption. }
  exists m'. unfold mem_write. rewrite E. split; [reflexivity|]. cbv zeta.
  assert (bytes_at m' (x_private s) bs) as Hat.
  { intros i b Hi. pose proof (lookup_lt_Some _ _ _ Hi). rewrite Hm', decide_True by lia.
    rewrite <- Hi. f_equal. lia. }
  split.
  - split; simpl; try assumption; try lia.
    + intros a b. rewrite Hm'. destruct decide; intros Ha; [|exact (inv_wf0 a b Ha)].
      rewrite Forall_lookup in Hb. exact (Hb _ _ Ha).
    + intros a Ha. rewrite Hm'. destruct decide; [|apply inv_mapped0; assumption].
      apply lookup_lt_is_Some. lia.
    + intros a Ha. rewrite Hm', decide_False by lia. apply inv_frame0. assumption.
  - destruct (region_mapped (x_mem s) base (x_private s)) as [Hw Hwl]; [lia| |].
    { eapply mapped_sub; [eassumption|lia|lia]. }
    apply region_at; simpl; [|rewrite length_app; unfold xdrmem_written; lia].
    apply bytes_at_app. unfold xdrmem_written. split.
    + intros i b Hi. pose proof (lookup_lt_Some _ _ _ Hi). rewrite Hm', decide_False by lia.
      apply Hw. assumption.
    + replace (base + Z.of_nat (length (region (x_mem s) base (x_private s)))) with (x_private s) by lia.
      exact Hat.
Qed.

(** Reading the bytes [bs] that come next. *)
Lemma read_step s bs rest :
  xdrmem_inv s -> xdrmem_avail s = bs ++ rest ->
  mem_read (x_mem s) (x_private s) (length bs) = Some bs /\ Z.of_nat (length bs) <= x_handy s /\
  let s' := advance s (Z.of_nat (length bs)) (x_mem s) in xdrmem_inv s' /\ xdrmem_avail s' = rest.
Proof.
  intros Hs Ha. destruct (avail_at s Hs) as [Hb Hl]. rewrite Ha, length_app in *.
  apply bytes_at_app in Hb as [Hb Hr]. destruct Hs.
  split; [apply mem_read_at; assumption|]. split; [lia|]. split.
  - split; simpl; try assumption; lia.
  - apply region_at; simpl; [assumption|lia].
Qed.

(** Addresses after a step, modulo the size of a unit. *)
Lemma phase_step p n k j : (p - k) mod 4 = 0 -> (k + n - j) mod 4 = 0 -> (p + n - j) mod 4 = 0.
Proof. intros Hp Hj. Z.div_mod_to_equations. lia. Qed.

Lemma phase_unit p : (p - 0) mod 4 = 0 -> (p mod 4 =? 0) = true.
Proof. rewrite Z.sub_0_r. apply Z.eqb_eq. Qed.

#[export, program] Instance xdrmem_stream : @XdrStream XDR (xdrmem_ops A) := {
  stream_at k s := xdrmem_inv s /\ (x_private s - k) mod 4 = 0;
  avail := xdrmem_avail;
  room := x_handy;
  bounded := True;
  written := xdrmem_written
}.
Next Obligation.
  intros j k s Hk [Hs Hp]. simpl in *. split; [exact Hs|]. Z.div_mod_to_equations. lia.
Qed.
Next Obligation.
  intros s v [Hs Hp] _ Hr. simpl in *. unfold xdrmem_putlong, int32_store. rewrite (proj2 (Z.ltb_ge _ _)), phase_unit, store_unit by (assumption || lia).
  destruct (write_step s (be32 v) Hs) as (m' & -> & Hi & Hw).
  { apply rev_Forall, le_bytes_byte. }
  { rewrite length_be32. lia. }
  rewrite length_be32 in *. eexists. split; [reflexivity|]. split; [split; [exact Hi|exact (phase_step _ 4 0 0 Hp eq_refl)]|]. auto.
Qed.
Next Obligation.
  intros s v _ [Hs _] Hr. simpl in *. unfold xdrmem_putlong. rewrite (proj2 (Z.ltb_lt _ _)) by lia. reflexivity.
Qed.
Next Obligation.
  intros k s bs [Hs Hp] _ Hb Hr. simpl in *. unfold xdrmem_putbytes. rewrite (proj2 (Z.ltb_ge _ _)) by lia.
  destruct (write_step s bs Hs Hb Hr) as (m' & -> & Hi & Hw). eexists. split; [reflexivity|].
  split; [split; [exact Hi|]|auto]. apply (phase_step _ _ k _ Hp). rewrite Z.sub_diag. reflexivity.
Qed.
Next Obligation.
  intros k s bs _ [Hs _] Hr. simpl in *. unfold xdrmem_putbytes. rewrite (proj2 (Z.ltb_lt _ _)) by lia. reflexivity.
Qed.
Next Obligation.
  intros s bs rest [Hs Hp] _ Ha Hl. simpl in *. destruct (read_step s bs rest Hs Ha) as (E & Hle & Hi & Hav).
  unfold xdrmem_getlong, int32_load. rewrite Hl in *. rewrite (proj2 (Z.ltb_ge _ _)), phase_unit, E by (assumption || lia).
  destruct (avail_at s Hs) as [Hb _]. apply bytes_at_wf in Hb; [|apply Hs].
  rewrite Ha, Forall_app in Hb. rewrite load_unit by tauto. eexists. split; [reflexivity|]. split; [split; [exact Hi|exact (phase_step _ 4 0 0 Hp eq_refl)]|]. auto.
Qed.
Next Obligation.
  intros s Hs _ Hl. simpl in *. destruct (avail_at s (proj1 Hs)) as [_ Hav]. unfold xdrmem_getlong.
  rewrite (proj2 (Z.ltb_lt _ _)) by lia. exists 0, s, []. auto.
Qed.
Next Obligation.
  intros k s bs rest [Hs Hp] _ Ha. simpl in *. destruct (read_step s bs rest Hs Ha) as (E & Hle & Hi & Hav).
  unfold xdrmem_getbytes. rewrite (proj2 (Z.ltb_ge _ _)), Nat2Z.id, E by lia. eexists. split; [reflexivity|].
  split; [split; [exact Hi|]|auto]. apply (phase_step _ _ k _ Hp). rewrite Z.sub_diag. reflexivity.
Qed.
Next Obligation.
  intros k s n Hs _ Hl. simpl in *. destruct (avail_at s (proj1 Hs)) as [_ Hav]. unfold xdrmem_getbytes.
  rewrite (proj2 (Z.ltb_lt _ _)) by lia. exists k, s, []. auto.
Qed.
Next Obligation.
  intros k s [Hs _]. simpl in *. destruct (avail_at s Hs) as [Hb _]. eapply bytes_at_wf; [apply Hs|exact Hb].
Qed.
Next Obligation. intros k s [Hs _]. simpl in *. destruct Hs. lia. Qed.
End Buffer.

Lemma create_inv m base size op :
  wf_mem m -> 0 <= size < 2 ^ 32 -> mapped m base (base + size) ->
  xdrmem_inv m base (base + size) (xdrmem_create m base size op).
Proof. intros. split; simpl; auto; lia. Qed.

(** A stream created on an aligned buffer is at a unit. *)
Lemma create_at m base size op :
  wf_mem m -> base mod 4 = 0 -> 0 <= size < 2 ^ 32 -> mapped m base (base + size) ->
  @stream_at XDR _ (xdrmem_stream m base (base + size)) 0 (xdrmem_create m base size op).
Proof. intros Hm Hb Hs Hbuf. split; [apply create_inv; assumption|]. cbn [xdrmem_create x_private]. rewrite Z.sub_0_r. exact Hb. Qed.

Lemma getpos_inv m base limit s : xdrmem_inv m base limit s -> limit - base < 2 ^ 32 ->
  xdrmem_getpos s = x_private s - base.
Proof. intros Hs Hl. destruct Hs. unfold xdrmem_getpos, u32. rewrite inv_base0. apply uwrap_small. lia. Qed.

(** ** Through a buffer and back *)

Section RoundTrip.
Context {T : Type} (f : XDR -> T -> option (XDR * T * bool)).
Context (dom : T -> Prop) (init : T -> T -> Prop) (wire : T -> list Z).
Hypothesis f_codec : forall m base limit, @Codec XDR _ (xdrmem_stream m base limit) T f dom init wire.
Context (m : mem) (base size : Z).
Hypothesis m_wf : wf_mem m.
Hypothesis base_aligned : base mod 4 = 0.
Hypothesis size_range : 0 <= size < 2 ^ 32.
Hypothesis buffer : mapped m base (base + size).

(** Encoding fills the buffer with the wire form and touches nothing else. *)
Lemma mem_encode a :
  dom a -> Z.of_nat (length (wire a)) <= size ->
  exists s', f (xdrmem_create m base size XDR_ENCODE) a = Some (s', a, true) /\
    xdrmem_getpos s' = Z.of_nat (length (wire a)) /\ bytes_at (x_mem s') base (wire a) /\
    wf_mem (x_mem s') /\ mapped (x_mem s') base (base + size) /\
    (forall p, ~ (base <= p < base + size) -> x_mem s' !! p = m !! p).
Proof.
  intros Ha Hl. set (st := xdrmem_stream m base (base + size)).
  destruct (@codec_enc XDR _ st T f dom init wire (f_codec _ _ _) (xdrmem_create m base size XDR_ENCODE) a)
    as (s' & E & (I & _) & O & R & W); [exact (create_at m base size _ ltac:(assumption) ltac:(assumption) ltac:(assumption) ltac:(assumption))|reflexivity|assumption|assumption|].
  exists s'. simpl in I, R, W. pose proof I as I'. destruct I'.
  assert (x_private s' = base + Z.of_nat (length (wire a))) as Hp by lia.
  split; [assumption|]. split; [rewrite (getpos_inv _ _ _ _ I) by lia; lia|].
  split; [|auto]. destruct (region_mapped (x_mem s') base (x_private s')) as [Hb _]; [lia| |].
  { eapply mapped_sub; [eassumption|lia|lia]. }
  unfold xdrmem_written in W. rewrite W in Hb. simpl in Hb.
  rewrite (region_at m base base []) in Hb; [exact Hb| |simpl; lia]. intros i b Hi. destruct i; discriminate Hi.
Qed.

(** A buffer too small for the wire form is refused. *)
Lemma mem_encode_full a :
  dom a -> size < Z.of_nat (length (wire a)) ->
  exists s', f (xdrmem_create m base size XDR_ENCODE) a = Some (s', a, false) /\
    (forall p, ~ (base <= p < base + size) -> x_mem s' !! p = m !! p).
Proof.
  intros Ha Hl. set (st := xdrmem_stream m base (base + size)).
  destruct (@codec_full XDR _ st T f dom init wire (f_codec _ _ _) (xdrmem_create m base size XDR_ENCODE) a)
    as (s' & E & (k & I & _) & O); [exact Logic.I|exact (create_at m base size _ ltac:(assumption) ltac:(assumption) ltac:(assumption) ltac:(assumption))|reflexivity|assumption|assumption|].
  exists s'. split; [assumption|]. apply I.
Qed.

Lemma mem_decode a a0 :
  dom a -> init a0 a -> Z.of_nat (length (wire a)) = size -> bytes_at m base (wire a) ->
  exists s', f (xdrmem_create m base size XDR_DECODE) a0 = Some (s', a, true) /\ x_handy s' = 0.
Proof.
  intros Ha Hi Hl Hb. set (st := xdrmem_stream m base (base + size)).
  assert (xdrmem_avail (base + size) (xdrmem_create m base size XDR_DECODE) = wire a ++ []) as Hav.
  { rewrite app_nil_r. apply region_at; simpl; [assumption|lia]. }
  destruct (@codec_dec XDR _ st T f dom init wire (f_codec _ _ _) (xdrmem_create m base size XDR_DECODE) a0 a [])
    as (s' & E & (I & _) & O & C);
    [exact (create_at m base size _ ltac:(assumption) ltac:(assumption) ltac:(assumption) ltac:(assumption))|reflexivity|assumption|assumption|exact Hav|].
  exists s'. split; [assumption|]. change (xdrmem_avail (base + size) (xdrmem_create m base size XDR_DECODE) =
    wire a ++ xdrmem_avail (base + size) s') in C.
  rewrite Hav in C. apply app_inv_head in C.
  destruct (avail_at _ _ _ s' I) as [_ Hh]. rewrite <- C in Hh. simpl in Hh. lia.
Qed.
End RoundTrip.

Section RoundTrip2.
Context {T : Type} (f : XDR -> T -> option (XDR * T * bool)).
Context (dom : T -> Prop) (init : T -> T -> Prop) (wire : T -> list Z).
Hypothesis f_codec : forall m base limit, @Codec XDR _ (xdrmem_stream m base limit) T f dom init wire.

(** What a round trip through the buffer [base, base + size) is: the encoder
    reports the wire length as its position and leaves the rest of memory alone,
    and a decoder created on what was written returns the object. *)
Definition roundtrip_in (m : mem) (base size : Z) (a a0 : T) : Prop :=
  exists s', f (xdrmem_create m base size XDR_ENCODE) a = Some (s', a, true) /\
    xdrmem_getpos s' = Z.of_nat (length (wire a)) /\
    (forall p, ~ (base <= p < base + size) -> x_mem s' !! p = m !! p) /\
    exists s'', f (xdrmem_create (x_mem s') base (xdrmem_getpos s') XDR_DECODE) a0 = Some (s'', a, true) /\
      x_handy s'' = 0.

Lemma mem_roundtrip m base size a a0 :
  wf_mem m -> base mod 4 = 0 -> 0 <= size < 2 ^ 32 -> mapped m base (base + size) ->
  dom a -> init a0 a -> Z.of_nat (length (wire a)) <= size -> roundtrip_in m base size a a0.
Proof.
  intros Hm Hal Hsz Hmap Ha Hi Hl.
  destruct (mem_encode f dom init wire f_codec m base size Hm Hal Hsz Hmap a Ha Hl) as (s' & E & Hp & Hb & Hw & Hmp & Hf).
  exists s'. split; [assumption|]. split; [assumption|]. split; [assumption|]. rewrite Hp.
  apply (mem_decode f dom init wire f_codec); auto; try lia.
  eapply mapped_sub; [eassumption|lia|lia].
Qed.
End RoundTrip2.
End Stream.

(** * Properties *)

(** Every integer filter of xdr.c brings a value of its type
    through a memory stream: encoding into an aligned buffer of at least eight mapped bytes succeeds
    on either byte order, advances by one or two XDR units, changes no byte outside the
    buffer, and decoding what was written yields the value again. *)
Theorem xdr_integers_roundtrip A m base size v0 :
  wf_mem m -> base mod 4 = 0 -> 8 <= size < 2 ^ 32 -> mapped m base (base + size) ->
  let ops := xdrmem_ops A in
  (forall v, - 2 ^ 31 <= v < 2 ^ 31 -> roundtrip_in (xdr_int (H := ops)) be32 m base size v v0) /\
  (forall v, 0 <= v < 2 ^ 32 -> roundtrip_in (xdr_u_int (H := ops)) be32 m base size v v0) /\
  (forall v, - 2 ^ 31 <= v < 2 ^ 31 -> roundtrip_in (xdr_long (H := ops)) be32 m base size v v0) /\
  (forall v, 0 <= v < 2 ^ 32 -> roundtrip_in (xdr_u_long (H := ops)) be32 m base size v v0) /\
  (forall v, - 2 ^ 15 <= v < 2 ^ 15 -> roundtrip_in (xdr_short (H := ops)) be32 m base size v v0) /\
  (forall v, 0 <= v < 2 ^ 16 -> roundtrip_in (xdr_u_short (H := ops)) be32 m base size v v0) /\
  (forall v, - 2 ^ 7 <= v < 2 ^ 7 -> roundtrip_in (xdr_char (H := ops)) be32 m base size v v0) /\
  (forall v, 0 <= v < 2 ^ 8 -> roundtrip_in (xdr_u_char (H := ops)) be32 m base size v v0) /\
  (forall v, v = 0 \/ v = 1 ->
     roundtrip_in (xdr_bool (H := ops)) (fun b => be32 (if b =? 0 then 0 else 1)) m base size v v0) /\
  (forall v, - 2 ^ 63 <= v < 2 ^ 63 ->
     roundtrip_in (xdr_hyper (H := ops)) (fun v => be32 (s64 (Z.shiftr v 32)) ++ be32 (s64 v)) m base size v v0) /\
  (forall v, 0 <= v < 2 ^ 64 ->
     roundtrip_in (xdr_u_hyper (H := ops)) (fun v => be32 (s64 (Z.shiftr v 32)) ++ be32 (s64 v)) m base size v v0).
Proof.
  intros Hm Hal Hs Hb ops.
  repeat apply conj; intros v Hv; eapply mem_roundtrip; intros;
    first [apply _ | eassumption | exact I | lia | rewrite ?length_app, ?length_be32; lia].
Qed.

(** A NUL-terminated string within the length limit goes through an aligned
    buffer that has room for its count, its bytes and their padding, and is decoded to
    the same storage, terminator included, into memory that [mem_alloc] returns or
    into storage of the same size. *)
Theorem xdr_string_roundtrip A mem_alloc maxsize m base size str a0 :
  (forall n st, mem_alloc n = Some st -> Z.of_nat (length st) = n) ->
  wf_mem m -> base mod 4 = 0 -> 0 <= size < 2 ^ 32 -> mapped m base (base + size) ->
  Forall is_byte str -> Forall (fun b => b <> 0) str ->
  Z.of_nat (length str) <= maxsize < 2 ^ 32 - 1 ->
  string_init mem_alloc a0 (Some (str ++ [0])) ->
  4 + Z.of_nat (length (padded str)) <= size ->
  roundtrip_in (xdr_string (H := xdrmem_ops A) mem_alloc maxsize) string_wire m base size (Some (str ++ [0])) a0.
Proof.
  intros Ha Hm Hal Hs Hb Hby Hne Hl Hi Hsz.
  apply (mem_roundtrip A _ (string_dom maxsize) (string_init mem_alloc)); try assumption.
  - intros. apply xdr_string_codec. assumption.
  - exists str. repeat split; auto; lia.
  - rewrite string_wire_app, length_app, length_be32. lia.
Qed.

(** C25: a counted array of any element type whose filter round-trips
    goes through an aligned buffer large enough for it and comes back, the elements being decoded
    into zeroed memory from [calloc] or over existing elements. *)
Theorem xdr_array_roundtrip A {T} (elproc : XDR -> T -> option (XDR * T * bool)) dom init wire
    calloc zero maxsize elsize m base size l a0 :
  (forall m b e, @Codec XDR _ (xdrmem_stream A m b e) T elproc dom init wire) ->
  (forall c e l, calloc c e = Some l -> l = repeat zero (Z.to_nat c)) ->
  wf_mem m -> base mod 4 = 0 -> 0 <= size < 2 ^ 32 -> mapped m base (base + size) ->
  0 < elsize -> 0 < Z.of_nat (length l) <= maxsize -> Z.of_nat (length l) * elsize < 2 ^ 32 ->
  Forall dom l -> array_init init calloc zero elsize a0 (Some l, Z.of_nat (length l)) ->
  4 + Z.of_nat (length (elems_wire wire l)) <= size ->
  roundtrip_in (xdr_array (H := xdrmem_ops A) calloc maxsize elsize elproc) (array_wire wire)
    m base size (Some l, Z.of_nat (length l)) a0.
Proof.
  intros Hc Hz Hm Hal Hs Hb He Hl Hmul Hd Hi Hsz.
  apply (mem_roundtrip A _ (array_dom dom maxsize elsize) (array_init init calloc zero elsize)); try assumption.
  - intros. eapply xdr_array_codec; eauto.
  - unfold array_dom, u_int_range, LASTUNSIGNED. simpl. repeat split; auto; nia.
  - unfold array_wire. cbn [fst snd]. rewrite length_app, length_be32. lia.
Qed.

(** C26: decoding a counted string or byte array from an aligned buffer with
    arbitrary contents never has undefined behaviour, neither an access outside the buffer or the
    storage nor a misaligned one, and never moves the stream out of its buffer, whether it
    allocates or decodes into storage of the documented size. *)
Theorem xdr_decode_safe A mem_alloc maxsize m base size :
  (forall n st, mem_alloc n = Some st -> Z.of_nat (length st) = n) ->
  wf_mem m -> base mod 4 = 0 -> 0 <= size < 2 ^ 32 -> mapped m base (base + size) ->
  let xdrs := xdrmem_create m base size XDR_DECODE in
  let within s := base <= x_private s /\ 0 <= x_handy s /\ x_private s + x_handy s = base + size in
  (forall a0, string_ready maxsize a0 ->
     exists s' a ok, xdr_string (H := xdrmem_ops A) mem_alloc maxsize xdrs a0 = Some (s', a, ok) /\ within s') /\
  (forall a0, bytes_ready maxsize a0 ->
     exists s' a ok, xdr_bytes (H := xdrmem_ops A) mem_alloc maxsize xdrs a0 = Some (s', a, ok) /\ within s').
Proof.
  intros Ha Hm Hal Hs Hb xdrs within.
  assert (forall s, xdrmem_inv m base (base + size) s -> within s) as Hw.
  { intros s Hi. destruct Hi. unfold within. lia. }
  split; intros a0 Hr.
  - destruct (@xdr_string_robust XDR _ (xdrmem_stream A m base (base + size)) mem_alloc Ha maxsize xdrs a0)
      as (s' & a & ok & bs & E & He); [exact (create_at A m base size _ ltac:(assumption) ltac:(assumption) ltac:(assumption) ltac:(assumption))|reflexivity|assumption|].
    destruct (ends_inv _ _ _ _ He) as (k & I & _). eauto 6.
  - destruct (@xdr_bytes_robust XDR _ (xdrmem_stream A m base (base + size)) mem_alloc Ha maxsize xdrs a0)
      as (s' & a & ok & bs & E & He); [exact (create_at A m base size _ ltac:(assumption) ltac:(assumption) ltac:(assumption) ltac:(assumption))|reflexivity|assumption|].
    destruct (ends_inv _ _ _ _ He) as (k & I & _). eauto 6.
Qed.

(** seeking succeeds exactly for the positions within the
    buffer, and then the position read back is the one set, the bytes still available are
    those from there to the end of the buffer, and the memory is untouched. *)
Theorem xdrmem_setpos_correct m base limit s pos :
  xdrmem_inv m base limit s -> limit - base < 2 ^ 32 -> 0 <= pos < 2 ^ 32 ->
  xdrmem_setpos s pos =
    (if pos <=? limit - base
     then (mkXDR (xop s) (base + pos) base (limit - base - pos) (x_mem s), true)
     else (s, false)) /\
  (pos <= limit - base -> xdrmem_getpos (fst (xdrmem_setpos s pos)) = pos /\
     xdrmem_inv m base limit (fst (xdrmem_setpos s pos)) /\
     xdrmem_avail limit (fst (xdrmem_setpos s pos)) = region (x_mem s) (base + pos) limit).
Proof.
  intros Hs Hl Hp.
  assert (xdrmem_setpos s pos =
    if pos <=? limit - base then (mkXDR (xop s) (base + pos) base (limit - base - pos) (x_mem s), true)
    else (s, false)) as E.
  { destruct Hs. unfold xdrmem_setpos. rewrite inv_base0, inv_limit0.
    destruct (Z.leb_spec pos (limit - base)).
    - rewrite (proj2 (Z.ltb_ge limit _)), (proj2 (Z.ltb_ge _ base)) by lia.
      assert (u64 (limit - (base + pos)) = limit - base - pos) as -> by (unfold u64; rewrite uwrap_small; lia).
      assert (u32 (limit - base - pos) = limit - base - pos) as -> by (apply uwrap_small; lia).
      rewrite Z.eqb_refl. reflexivity.
    - rewrite (proj2 (Z.ltb_lt limit _)) by lia. reflexivity. }
  split; [assumption|]. intros Hle. rewrite E, (proj2 (Z.leb_le _ _)) by lia. cbn [fst].
  assert (xdrmem_inv m base limit (mkXDR (xop s) (base + pos) base (limit - base - pos) (x_mem s))) as Hi.
  { destruct Hs. split; simpl; auto; lia. }
  split; [|auto]. rewrite (getpos_inv _ _ _ _ Hi) by lia. simpl. lia.
Qed.


(** An array whose count, read from the wire, exceeds the limit or makes
    the byte size overflow an unsigned int is refused: no memory is allocated and no element
    is decoded, whatever [calloc] and the element filter would do. *)
Theorem xdr_array_guard A {T} (elproc : XDR -> T -> option (XDR * T * bool)) calloc maxsize elsize
    m base size n rest target sizep :
  wf_mem m -> base mod 4 = 0 -> 0 <= size < 2 ^ 32 -> mapped m base (base + size) ->
  region m base (base + size) = be32 n ++ rest -> 0 <= n < 2 ^ 32 -> 0 < elsize ->
  maxsize < n \/ 2 ^ 32 <= n * elsize ->
  exists s', xdr_array (H := xdrmem_ops A) calloc maxsize elsize elproc
    (xdrmem_create m base size XDR_DECODE) (target, sizep) = Some (s', (target, n), false) /\
    x_private s' = base + 4 /\ x_mem s' = m.
Proof.
  intros Hm Hal Hs Hb Hr Hn He Hbig.
  destruct (u_int_dec (H0 := xdrmem_stream A m base (base + size)) (xdrmem_create m base size XDR_DECODE) sizep n rest)
    as (s' & E & C & Ha); [exact (create_at A m base size _ ltac:(assumption) ltac:(assumption) ltac:(assumption) ltac:(assumption))|reflexivity|exact Hn|exact Hr|].
  exists s'. unfold xdr_array. rewrite E. cbn [negb].
  assert (xop s' = XDR_DECODE) as Ho by (destruct C as (_ & C & _); exact C). cbn [x_op xdrmem_ops]. rewrite Ho.
  assert ((if maxsize <? n then Some true else if elsize =? 0 then None else Some (LASTUNSIGNED / elsize <? n)) = Some true) as ->.
  { destruct (Z.ltb_spec maxsize n); [reflexivity|]. rewrite (proj2 (Z.eqb_neq _ _)) by lia. f_equal.
    apply Z.ltb_lt, Z.div_lt_upper_bound; unfold LASTUNSIGNED; lia. }
  split; [reflexivity|]. revert E. unfold xdr_u_int, unit_filter, xdrmem_create. cbn [x_op xdrmem_ops xop XDR_GETLONG].
  unfold xdrmem_getlong, int32_load. cbn [x_handy x_mem x_private]. rewrite Hal.
  destruct (size <? 4); [discriminate|]. cbn [Z.eqb]. destruct (mem_read m base 4); [|discriminate]. intros [= <- _]. split; reflexivity.
Qed.

(** a discriminated union goes through an aligned buffer and back when the
    routine that its discriminant selects, the first matching arm or the default one,
    round-trips its value. *)
Theorem xdr_union_roundtrip A {U} (choices : list (Z * (XDR -> U -> option (XDR * U * bool)))) dfault
    arm_dom arm_init arm_wire m base size d u d0 u0 :
  (forall m b e d f, arm_proc choices dfault d = Some f ->
     @Codec XDR _ (xdrmem_stream A m b e) U f (arm_dom d) (arm_init d) (arm_wire d)) ->
  wf_mem m -> base mod 4 = 0 -> 0 <= size < 2 ^ 32 -> mapped m base (base + size) ->
  - 2 ^ 31 <= d < 2 ^ 31 -> is_Some (arm_proc choices dfault d) -> arm_dom d u -> arm_init d u0 u ->
  4 + Z.of_nat (length (arm_wire d u)) <= size ->
  roundtrip_in (xdr_union (H := xdrmem_ops A) choices dfault) (fun a => be32 (fst a) ++ arm_wire (fst a) (snd a))
    m base size (d, u) (d0, u0).
Proof.
  intros Harm Hm Hal Hs Hb Hd Hsel Hu Hi Hsz.
  apply (mem_roundtrip A _ (fun a => int_range (fst a) /\ is_Some (arm_proc choices dfault (fst a)) /\ arm_dom (fst a) (snd a))
    (fun a0 a => arm_init (fst a) (snd a0) (snd a))); auto.
  - intros m' b e. apply xdr_union_codec. auto.
  - cbn [fst snd]. rewrite length_app, length_be32. lia.
Qed.

(** * Witnesses *)

(** An allocator that never fails. *)
Definition alloc_zero (n : Z) : option (list Z) := if 0 <=? n then Some (repeat 0 (Z.to_nat n)) else None.

Lemma alloc_zero_size n st : alloc_zero n = Some st -> Z.of_nat (length st) = n.
Proof.
  unfold alloc_zero. destruct (Z.leb_spec 0 n); [|discriminate]. intros [= <-]. rewrite repeat_length. lia.
Qed.

Definition buffer : mem := mem_of 100 (repeat 7 40).

Lemma buffer_wf : wf_mem buffer.
Proof. apply mem_of_wf. simpl. wf_bytes. Qed.

Lemma buffer_mapped : mapped buffer 100 (100 + 40).
Proof. apply mem_of_mapped; simpl; lia. Qed.

Lemma xdr_integers_witness :
  roundtrip_in (xdr_hyper (H := xdrmem_ops (Arch true false)))
    (fun v => be32 (s64 (Z.shiftr v 32)) ++ be32 (s64 v)) buffer 100 40 (-5) 0.
Proof.
  apply (xdr_integers_roundtrip (Arch true false) buffer 100 40 0 buffer_wf eq_refl ltac:(lia) buffer_mapped). lia.
Defined.

Lemma xdr_string_witness :
  roundtrip_in (xdr_string (H := xdrmem_ops (Arch true true)) alloc_zero 20) string_wire
    buffer 100 40 (Some ([104; 105] ++ [0])) None.
Proof.
  apply (xdr_string_roundtrip (Arch true true) alloc_zero 20 buffer 100 40 [104; 105] None alloc_zero_size buffer_wf eq_refl ltac:(lia) buffer_mapped).
  - wf_bytes.
  - repeat constructor; discriminate.
  - vm_compute. split; [discriminate|reflexivity].
  - eexists. reflexivity.
  - vm_compute. discriminate.
Defined.

Definition calloc_int (c e : Z) : option (list Z) := if 0 <=? c then Some (repeat 0 (Z.to_nat c)) else None.

Lemma xdr_array_witness :
  roundtrip_in (xdr_array (H := xdrmem_ops (Arch true false)) calloc_int 10 4 (xdr_int (H := xdrmem_ops (Arch true false))))
    (array_wire be32) buffer 100 40 (Some [1; -2; 3], 3) (None, 0).
Proof.
  apply (xdr_array_roundtrip (Arch true false) (xdr_int (H := xdrmem_ops (Arch true false))) int_range (fun _ _ => True) be32
    calloc_int 0 10 4 buffer 100 40 [1; -2; 3] (None, 0)).
  - intros. apply xdr_int_codec.
  - intros c e l. unfold calloc_int. destruct (0 <=? c); [|discriminate]. intros [= <-]. reflexivity.
  - exact buffer_wf.
  - reflexivity.
  - lia.
  - exact buffer_mapped.
  - lia.
  - simpl. lia.
  - simpl. lia.
  - repeat apply Forall_cons_2; try apply Forall_nil_2; unfold int_range; lia.
  - split; [eexists; reflexivity|]. repeat constructor.
  - vm_compute. discriminate.
Defined.

Lemma xdr_decode_safe_witness :
  exists s' a ok, xdr_string (H := xdrmem_ops (Arch true false)) alloc_zero 20
    (xdrmem_create buffer 100 40 XDR_DECODE) None = Some (s', a, ok) /\
    100 <= x_private s' /\ 0 <= x_handy s' /\ x_private s' + x_handy s' = 100 + 40.
Proof.
  apply (xdr_decode_safe (Arch true false) alloc_zero 20 buffer 100 40 alloc_zero_size buffer_wf eq_refl ltac:(lia) buffer_mapped).
  exact I.
Defined.

Lemma xdrmem_setpos_witness :
  xdrmem_setpos (xdrmem_create buffer 100 40 XDR_ENCODE) 12 = (mkXDR XDR_ENCODE (100 + 12) 100 (140 - 100 - 12) buffer, true).
Proof.
  apply (xdrmem_setpos_correct buffer 100 140 (xdrmem_create buffer 100 40 XDR_ENCODE) 12).
  - apply (create_inv buffer 100 40 XDR_ENCODE buffer_wf); [lia|exact buffer_mapped].
  - lia.
  - lia.
Defined.

Lemma xdr_array_guard_witness :
  exists s', xdr_array (H := xdrmem_ops (Arch true false)) calloc_int (2 ^ 32 - 1) 65536 (xdr_int (H := xdrmem_ops (Arch true false)))
    (xdrmem_create (mem_of 100 [0; 1; 0; 1]) 100 4 XDR_DECODE) (None, 0) = Some (s', (None, 65537), false) /\
    x_private s' = 100 + 4 /\ x_mem s' = mem_of 100 [0; 1; 0; 1].
Proof.
  apply (xdr_array_guard (Arch true false) (xdr_int (H := xdrmem_ops (Arch true false))) calloc_int (2 ^ 32 - 1) 65536
    (mem_of 100 [0; 1; 0; 1]) 100 4 65537 []).
  - wf_mem_of.
  - reflexivity.
  - lia.
  - apply mem_of_mapped; simpl; lia.
  - reflexivity.
  - lia.
  - lia.
  - right. lia.
Defined.

Lemma xdr_union_witness :
  roundtrip_in (xdr_union (H := xdrmem_ops (Arch true false)) [(1, xdr_int (H := xdrmem_ops (Arch true false)))] None)
    (fun a => be32 (fst a) ++ be32 (snd a)) buffer 100 40 (1, 77) (0, 0).
Proof.
  apply (xdr_union_roundtrip (Arch true false) [(1, xdr_int (H := xdrmem_ops (Arch true false)))] None
    (fun _ => int_range) (fun _ _ _ => True) (fun _ => be32) buffer 100 40 1 77 0 0).
  - intros m b e d f. unfold arm_proc. cbn [find_arm]. destruct (1 =? d); [|discriminate]. intros [= <-]. apply xdr_int_codec.
  - exact buffer_wf.
  - reflexivity.
  - lia.
  - exact buffer_mapped.
  - lia.
  - eexists. reflexivity.
  - unfold int_range. lia.
  - exact I.
  - vm_compute. discriminate.
Defined.
