(* ===== verification/XdrRec.v ===== *)
(** Record streams of the external data representation (sunrpc/xdr_rec.c): XDR over a byte
    stream that keeps the borders of records, as RPC over TCP uses it.

    The two buffers of a stream are in memory.  [readit] and [writeit], which the caller passes
    to xdrrec_create, are parameters over the state [W] of the connection: what they deliver, or
    [None] for -1, and how many bytes were taken. *)
From S2P Require Import Prelude CMem Byteswap Xdr XdrMem.

Definition LAST_FRAG : Z := Z.shiftl 1 31.

(** The out-going bits of RECSTREAM. *)
Record outbits := Out { out_base : Z; out_finger : Z; out_boundry : Z; frag_header : Z; frag_sent : bool }.

(** The in-coming bits. *)
Record inbits := In { in_size : Z; in_base : Z; in_finger : Z; in_boundry : Z; fbtbc : Z; last_frag : bool }.

(** The handle with its private part, the memory and the connection. *)
Record RECSTREAM (W : Type) := Rec {
  r_op : xdr_op; the_buffer : Z; sendsize : Z; recvsize : Z;
  ro : outbits; ri : inbits; r_mem : mem; world : W
}.
Arguments Rec {W}.
Arguments r_op {W}.
Arguments the_buffer {W}.
Arguments sendsize {W}.
Arguments recvsize {W}.
Arguments ro {W}.
Arguments ri {W}.
Arguments r_mem {W}.
Arguments world {W}.

Section RecStream.
Context (A : arch) {W : Type}.
Context (readit : W -> Z -> W * option (list Z)) (writeit : W -> list Z -> W * Z) (lseek : W -> Z).

#[local] Abbreviation RECSTREAM := (RECSTREAM W).

Definition with_out (rs : RECSTREAM) (o : outbits) (m : mem) (w : W) : RECSTREAM :=
  Rec (r_op rs) (the_buffer rs) (sendsize rs) (recvsize rs) o (ri rs) m w.

Definition with_in (rs : RECSTREAM) (i : inbits) (m : mem) (w : W) : RECSTREAM :=
  Rec (r_op rs) (the_buffer rs) (sendsize rs) (recvsize rs) (ro rs) i m w.

(** [in_finger += n] *)
Definition consume (rs : RECSTREAM) (n : Z) : RECSTREAM :=
  let i := ri rs in with_in rs (In (in_size i) (in_base i) (in_finger i + n) (in_boundry i) (fbtbc i) (last_frag i)) (r_mem rs) (world rs).

Definition set_fbtbc (rs : RECSTREAM) (v : Z) : RECSTREAM :=
  let i := ri rs in with_in rs (In (in_size i) (in_base i) (in_finger i) (in_boundry i) v (last_frag i)) (r_mem rs) (world rs).

Definition set_last_frag (rs : RECSTREAM) (b : bool) : RECSTREAM :=
  let i := ri rs in with_in rs (In (in_size i) (in_base i) (in_finger i) (in_boundry i) (fbtbc i) b) (r_mem rs) (world rs).

Definition set_frag_sent (rs : RECSTREAM) (b : bool) : RECSTREAM :=
  let o := ro rs in with_out rs (Out (out_base o) (out_finger o) (out_boundry o) (frag_header o) b) (r_mem rs) (world rs).

(** Bytes stored at the output position. *)
Definition produce (rs : RECSTREAM) (bs : list Z) : option RECSTREAM :=
  let o := ro rs in
  let? m := mem_write (r_mem rs) (out_finger o) bs in
  Some (with_out rs (Out (out_base o) (out_finger o + Z.of_nat (length bs)) (out_boundry o) (frag_header o) (frag_sent o)) m (world rs)).

(** [*dest_lp = htonl ( *lp)] at the output position, which must be aligned. *)
Definition produce_unit (rs : RECSTREAM) (l : Z) : option RECSTREAM :=
  if out_finger (ro rs) mod 4 =? 0 then produce rs (int32_bytes A (htonl A (u32 l))) else None.

(** ** Creation *)

Definition RNDUP (x : Z) : Z := Z.ldiff (u32 (x + BYTES_PER_XDR_UNIT - 1)) (BYTES_PER_XDR_UNIT - 1).

Definition fix_buf_size (s : Z) : Z := RNDUP (if s <? 100 then 4000 else s).

(** [buf] is the buffer of sendsize + recvsize + 4 bytes; nothing when an allocation fails. *)
Definition xdrrec_create (m : mem) (w : W) (op : xdr_op) (sendsize recvsize : Z) (rstrm buf : option Z) : option RECSTREAM :=
  let sendsize := fix_buf_size sendsize in
  let recvsize := fix_buf_size recvsize in
  match rstrm, buf with
  | Some _, Some buf =>
      let tmp := if buf mod BYTES_PER_XDR_UNIT =? 0 then buf else buf + (BYTES_PER_XDR_UNIT - buf mod BYTES_PER_XDR_UNIT) in
      let in_base := tmp + sendsize in
      Some (Rec op buf sendsize recvsize (Out tmp (tmp + 4) (tmp + sendsize) tmp false)
        (In recvsize in_base (in_base + recvsize) (in_base + recvsize) 0 true) m w)
  | _, _ => None
  end.

Definition xdrrec_destroy (rs : RECSTREAM) : mem :=
  foldr (fun i m => delete (the_buffer rs + Z.of_nat i) m) (r_mem rs) (seq 0 (Z.to_nat (sendsize rs + recvsize rs + BYTES_PER_XDR_UNIT))).

(** ** Output *)

Definition flush_out (rs : RECSTREAM) (eor : bool) : option (RECSTREAM * bool) :=
  let o := ro rs in
  let eormask := if eor then LAST_FRAG else 0 in
  let len := out_finger o - frag_header o - BYTES_PER_XDR_UNIT in
  let? m := int32_store A (r_mem rs) (frag_header o) (htonl A (u32 (Z.lor len eormask))) in
  let len := out_finger o - out_base o in
  let? bs := mem_read m (out_base o) (Z.to_nat len) in
  let '(w, n) := writeit (world rs) bs in
  if negb (n =? s32 len) then Some (with_out rs o m w, false)
  else Some (with_out rs (Out (out_base o) (out_base o + BYTES_PER_XDR_UNIT) (out_boundry o) (out_base o) (frag_sent o)) m w, true).

Definition xdrrec_putlong (rs : RECSTREAM) (l : Z) : option (RECSTREAM * bool) :=
  if out_boundry (ro rs) <? out_finger (ro rs) + BYTES_PER_XDR_UNIT then
    let? '(rs, ok) := flush_out (set_frag_sent rs true) false in
    if negb ok then Some (rs, false)
    else let? rs := produce_unit rs l in Some (rs, true)
  else let? rs := produce_unit rs l in Some (rs, true).

Definition xdrrec_putint32 : RECSTREAM -> Z -> option (RECSTREAM * bool) := xdrrec_putlong.

(** [None] is also the result of a loop that does not end. *)
Fixpoint putbytes_loop (fuel : nat) (rs : RECSTREAM) (bs : list Z) : option (RECSTREAM * bool) :=
  let len := Z.of_nat (length bs) in
  if len <=? 0 then Some (rs, true) else
  match fuel with
  | O => None
  | S fuel =>
      let current := u32 (out_boundry (ro rs) - out_finger (ro rs)) in
      let current := if len <? current then len else current in
      let? rs := produce rs (take (Z.to_nat current) bs) in
      let bs := drop (Z.to_nat current) bs in
      if (out_finger (ro rs) =? out_boundry (ro rs)) && (0 <? Z.of_nat (length bs)) then
        let? '(rs, ok) := flush_out (set_frag_sent rs true) false in
        if negb ok then Some (rs, false) else putbytes_loop fuel rs bs
      else putbytes_loop fuel rs bs
  end.

Definition xdrrec_putbytes (rs : RECSTREAM) (bs : list Z) : option (RECSTREAM * bool) := putbytes_loop (2 * length bs) rs bs.

Definition xdrrec_endofrecord (rs : RECSTREAM) (sendnow : bool) : option (RECSTREAM * bool) :=
  let o := ro rs in
  if sendnow || frag_sent o || (out_boundry o <=? out_finger o + BYTES_PER_XDR_UNIT) then flush_out (set_frag_sent rs false) true
  else
    let len := out_finger o - frag_header o - BYTES_PER_XDR_UNIT in
    let? m := int32_store A (r_mem rs) (frag_header o) (htonl A (u32 (Z.lor len LAST_FRAG))) in
    Some (with_out rs (Out (out_base o) (out_finger o + BYTES_PER_XDR_UNIT) (out_boundry o) (out_finger o) (frag_sent o)) m (world rs), true).

(** ** Input *)

Definition fill_input_buf (rs : RECSTREAM) : option (RECSTREAM * bool) :=
  let i := ri rs in
  let off := in_boundry i mod BYTES_PER_XDR_UNIT in
  let where_ := in_base i + off in
  let len := s32 (in_size i - off) in
  let '(w, r) := readit (world rs) len in
  match r with
  | None => Some (with_in rs i (r_mem rs) w, false)
  | Some bs =>
      let? m := mem_write (r_mem rs) where_ bs in
      Some (with_in rs (In (in_size i) (in_base i) where_ (where_ + Z.of_nat (length bs)) (fbtbc i) (last_frag i)) m w, true)
  end.

Fixpoint get_input_loop (fuel : nat) (rs : RECSTREAM) (len : Z) (acc : list Z) : option (RECSTREAM * option (list Z)) :=
  if len <=? 0 then Some (rs, Some acc) else
  match fuel with
  | O => None
  | S fuel =>
      let current := s32 (in_boundry (ri rs) - in_finger (ri rs)) in
      if current =? 0 then
        let? '(rs, ok) := fill_input_buf rs in
        if negb ok then Some (rs, None) else get_input_loop fuel rs len acc
      else
        let current := if len <? current then len else current in
        let? bs := mem_read (r_mem rs) (in_finger (ri rs)) (Z.to_nat current) in
        get_input_loop fuel (consume rs current) (len - current) (acc ++ bs)
  end.

Definition get_input_bytes (rs : RECSTREAM) (len : Z) : option (RECSTREAM * option (list Z)) := get_input_loop (2 * Z.to_nat len) rs len [].

Fixpoint skip_input_loop (fuel : nat) (rs : RECSTREAM) (cnt : Z) : option (RECSTREAM * bool) :=
  if cnt <=? 0 then Some (rs, true) else
  match fuel with
  | O => None
  | S fuel =>
      let current := s32 (in_boundry (ri rs) - in_finger (ri rs)) in
      if current =? 0 then
        let? '(rs, ok) := fill_input_buf rs in
        if negb ok then Some (rs, false) else skip_input_loop fuel rs cnt
      else
        let current := if cnt <? current then cnt else current in
        skip_input_loop fuel (consume rs current) (cnt - current)
  end.

Definition skip_input_bytes (rs : RECSTREAM) (cnt : Z) : option (RECSTREAM * bool) := skip_input_loop (2 * Z.to_nat cnt) rs cnt.

Definition set_input_fragment (rs : RECSTREAM) : option (RECSTREAM * bool) :=
  let? '(rs, r) := get_input_bytes rs BYTES_PER_XDR_UNIT in
  match r with
  | None => Some (rs, false)
  | Some bs =>
      let header := ntohl A (int32_val A bs) in
      let rs := set_last_frag rs (negb (Z.land header LAST_FRAG =? 0)) in
      if header =? 0 then Some (rs, false)
      else Some (set_fbtbc rs (Z.ldiff header LAST_FRAG), true)
  end.

(** [current] is at most [fbtbc], below 2^31 since the length of a fragment is, so that the conversion to the [int] that
    get_input_bytes takes does not change it. *)
Fixpoint getbytes_loop (fuel : nat) (rs : RECSTREAM) (len : Z) (acc : list Z) : option (RECSTREAM * option (list Z)) :=
  if len <=? 0 then Some (rs, Some acc) else
  match fuel with
  | O => None
  | S fuel =>
      let current := u32 (fbtbc (ri rs)) in
      if current =? 0 then
        if last_frag (ri rs) then Some (rs, None) else
        let? '(rs, ok) := set_input_fragment rs in
        if negb ok then Some (rs, None) else getbytes_loop fuel rs len acc
      else
        let current := if len <? current then len else current in
        let? '(rs, r) := get_input_bytes rs current in
        match r with
        | None => Some (rs, None)
        | Some bs => getbytes_loop fuel (set_fbtbc rs (fbtbc (ri rs) - current)) (len - current) (acc ++ bs)
        end
  end.

Definition xdrrec_getbytes (rs : RECSTREAM) (len : Z) : option (RECSTREAM * option (list Z)) := getbytes_loop (2 * Z.to_nat len + 2) rs len [].

Definition xdrrec_getlong (rs : RECSTREAM) : option (RECSTREAM * option Z) :=
  let i := ri rs in
  if (BYTES_PER_XDR_UNIT <=? fbtbc i) && (BYTES_PER_XDR_UNIT <=? in_boundry i - in_finger i) then
    let? v := int32_load A (r_mem rs) (in_finger i) in
    Some (consume (set_fbtbc rs (fbtbc i - BYTES_PER_XDR_UNIT)) BYTES_PER_XDR_UNIT, Some (s32 (ntohl A v)))
  else
    let? '(rs, r) := xdrrec_getbytes rs BYTES_PER_XDR_UNIT in
    match r with
    | None => Some (rs, None)
    | Some bs => Some (rs, Some (s32 (ntohl A (int32_val A bs))))
    end.

Definition xdrrec_getint32 : RECSTREAM -> option (RECSTREAM * option Z) := xdrrec_getlong.

(** The rest of the record is skipped; [fuel] bounds the number of fragments. *)
Fixpoint skip_fragments (fuel : nat) (rs : RECSTREAM) : option (RECSTREAM * bool) :=
  if negb ((0 <? fbtbc (ri rs)) || negb (last_frag (ri rs))) then Some (rs, true) else
  match fuel with
  | O => None
  | S fuel =>
      let? '(rs, ok) := skip_input_bytes rs (fbtbc (ri rs)) in
      if negb ok then Some (rs, false) else
      let rs := set_fbtbc rs 0 in
      if last_frag (ri rs) then skip_fragments fuel rs
      else
        let? '(rs, ok) := set_input_fragment rs in
        if negb ok then Some (rs, false) else skip_fragments fuel rs
  end.

Definition xdrrec_skiprecord (fuel : nat) (rs : RECSTREAM) : option (RECSTREAM * bool) :=
  let? '(rs, ok) := skip_fragments fuel rs in
  if negb ok then Some (rs, false) else Some (set_last_frag rs false, true).

Definition xdrrec_eof (fuel : nat) (rs : RECSTREAM) : option (RECSTREAM * bool) :=
  let? '(rs, ok) := skip_fragments fuel rs in
  if negb ok then Some (rs, true) else Some (rs, in_finger (ri rs) =? in_boundry (ri rs)).

(** ** Positions *)

Definition xdrrec_getpos (rs : RECSTREAM) : Z :=
  let pos := lseek (world rs) in
  if pos =? -1 then u32 pos else
  match r_op rs with
  | XDR_ENCODE => u32 (pos + (out_finger (ro rs) - out_base (ro rs)))
  | XDR_DECODE => u32 (pos - (in_boundry (ri rs) - in_finger (ri rs)))
  | XDR_FREE => u32 (-1)
  end.

Definition xdrrec_setpos (rs : RECSTREAM) (pos : Z) : RECSTREAM * bool :=
  let currpos := xdrrec_getpos rs in
  let delta := s32 (currpos - pos) in
  if s32 currpos =? -1 then (rs, false) else
  let o := ro rs in
  let i := ri rs in
  match r_op rs with
  | XDR_ENCODE =>
      let newpos := out_finger o - delta in
      if (frag_header o <? newpos) && (newpos <? out_boundry o)
      then (with_out rs (Out (out_base o) newpos (out_boundry o) (frag_header o) (frag_sent o)) (r_mem rs) (world rs), true)
      else (rs, false)
  | XDR_DECODE =>
      let newpos := in_finger i - delta in
      if (delta <? s32 (fbtbc i)) && (newpos <=? in_boundry i) && (in_base i <=? newpos)
      then (with_in rs (In (in_size i) (in_base i) newpos (in_boundry i) (fbtbc i - delta) (last_frag i)) (r_mem rs) (world rs), true)
      else (rs, false)
  | XDR_FREE => (rs, false)
  end.

(** The address of [len] bytes that the caller may use in place, or 0. *)
Definition xdrrec_inline (rs : RECSTREAM) (len : Z) : RECSTREAM * Z :=
  let o := ro rs in
  let i := ri rs in
  match r_op rs with
  | XDR_ENCODE =>
      if out_finger o + len <=? out_boundry o
      then (with_out rs (Out (out_base o) (out_finger o + len) (out_boundry o) (frag_header o) (frag_sent o)) (r_mem rs) (world rs), out_finger o)
      else (rs, 0)
  | XDR_DECODE =>
      if (len <=? fbtbc i) && (in_finger i + len <=? in_boundry i)
      then (consume (set_fbtbc rs (fbtbc i - len)) len, in_finger i)
      else (rs, 0)
  | XDR_FREE => (rs, 0)
  end.

(** The table [xdrrec_ops]. *)
#[export] Instance xdrrec_ops : XdrOps RECSTREAM := {
  x_op := r_op;
  XDR_GETLONG := xdrrec_getlong;
  XDR_PUTLONG := xdrrec_putlong;
  XDR_GETBYTES := xdrrec_getbytes;
  XDR_PUTBYTES := xdrrec_putbytes
}.
End RecStream.
