(* ===== verification/XdrRecord.v ===== *)
(** Record streams (sunrpc/xdr_rec.c) keep what the filters rely on: the stream interface
    [XdrStream] holds of them, for every size of the buffers and however the bytes arrive, and
    sequences of records go through a connection and back. *)
From S2P Require Import Prelude CMem Byteswap Xdr XdrMem XdrRec.

(** * What the connection promises *)

(** [incoming] is what will still arrive, [outgoing] what was sent.  Reading delivers at least one of
    the bytes that arrive, but as few as it likes; writing takes everything. *)
Class Connection {W : Type} (readit : W -> Z -> W * option (list Z)) (writeit : W -> list Z -> W * Z) := {
  incoming : W -> list Z;
  outgoing : W -> list Z;
  incoming_bytes w : Forall is_byte (incoming w);
  readit_ok w n : incoming w <> [] -> 0 < n ->
    exists w' bs, readit w n = (w', Some bs) /\ bs <> [] /\ Z.of_nat (length bs) <= n /\
      incoming w = bs ++ incoming w' /\ outgoing w' = outgoing w;
  writeit_ok w bs : exists w', writeit w bs = (w', Z.of_nat (length bs)) /\ outgoing w' = outgoing w ++ bs /\ incoming w' = incoming w
}.

(** ** Memory *)

Lemma region_same m m' p q : (forall a, p <= a < q -> m' !! a = m !! a) -> region m' p q = region m p q.
Proof.
  intros H. unfold region. f_equal. unfold mem_read. assert (p + Z.of_nat (Z.to_nat (q - p)) <= Z.max p q) as Hq by lia.
  assert (forall n p, (forall a, p <= a < p + Z.of_nat n -> m' !! a = m !! a) -> @load_bytes Empty_set m' p n = load_bytes m p n) as Hl.
  { clear. induction n as [|n IH]; intros p H; [reflexivity|]. cbn [load_bytes]. unfold load8. rewrite H by lia.
    destruct (m !! p); cbn [flow_bind]; [|reflexivity]. rewrite IH; [reflexivity|]. intros a Ha. apply H. lia. }
  rewrite Hl; [reflexivity|]. intros a Ha. apply H. lia.
Qed.

Lemma region_app m p q r : p <= q <= r -> mapped m p r -> region m p r = region m p q ++ region m q r.
Proof.
  intros Hpq Hm. destruct (region_mapped m p q ltac:(lia)) as [H1 L1]; [eapply mapped_sub; [exact Hm|lia|lia]|].
  destruct (region_mapped m q r ltac:(lia)) as [H2 L2]; [eapply mapped_sub; [exact Hm|lia|lia]|].
  apply region_at; [|rewrite length_app; lia]. apply bytes_at_app. split; [exact H1|]. replace (p + Z.of_nat (length (region m p q))) with q by lia. exact H2.
Qed.

Lemma region_empty m p : region m p p = [].
Proof. unfold region. rewrite Z.sub_diag. reflexivity. Qed.

Lemma region_read m p q : p <= q -> mapped m p q -> mem_read m p (Z.to_nat (q - p)) = Some (region m p q).
Proof.
  intros Hpq Hm. destruct (region_mapped m p q Hpq Hm) as [Hb Hl]. replace (Z.to_nat (q - p)) with (length (region m p q)) by lia. apply mem_read_at. exact Hb.
Qed.

Lemma write_mem m p bs : wf_mem m -> mapped m p (p + Z.of_nat (length bs)) -> Forall is_byte bs ->
  exists m', mem_write m p bs = Some m' /\ wf_mem m' /\ (forall a, ~ (p <= a < p + Z.of_nat (length bs)) -> m' !! a = m !! a) /\
    region m' p (p + Z.of_nat (length bs)) = bs /\ forall q r, mapped m q r -> mapped m' q r.
Proof.
  intros Hwf Hmap Hb. destruct (@store_bytes_spec Empty_set m p bs Hmap Hb) as (m' & E & Hm'). exists m'. unfold mem_write. rewrite E.
  split; [reflexivity|]. split; [|split; [|split]].
  - intros a b. rewrite Hm'. case_decide; [|apply Hwf]. intros Hl. rewrite Forall_lookup in Hb. exact (Hb _ _ Hl).
  - intros a Ha. rewrite Hm', decide_False by exact Ha. reflexivity.
  - apply region_at; [|lia]. intros i b Hi. pose proof (lookup_lt_Some _ _ _ Hi). rewrite Hm', decide_True by lia. rewrite <- Hi. f_equal. lia.
  - intros q r Hq a Ha. rewrite Hm'. case_decide; [|apply Hq; exact Ha]. apply lookup_lt_is_Some. lia.
Qed.

(** ** Fragments *)

Lemma be32_byte v : Forall is_byte (be32 v).
Proof. apply rev_Forall, le_bytes_byte. Qed.

#[local] Opaque be32.

(** The header word of a fragment, and the fragment. *)
Definition frag_head (last : bool) (n : Z) : Z := Z.lor n (if last then LAST_FRAG else 0).
Definition frag_bytes (last : bool) (p : list Z) : list Z := be32 (frag_head last (Z.of_nat (length p))) ++ p.

(** A record on the wire: fragments that are not the last, and the last one. *)
Definition record_bytes (ps : list (list Z)) (p : list Z) : list Z := concat (map (frag_bytes false) ps) ++ frag_bytes true p.

Lemma last_frag_bit i : Z.testbit LAST_FRAG i = (i =? 31).
Proof. change LAST_FRAG with (2 ^ 31). rewrite Z.pow2_bits_eqb by lia. apply Z.eqb_sym. Qed.

Lemma small_bit n i : 0 <= n < 2 ^ 31 -> 31 <= i -> Z.testbit n i = false.
Proof. intros Hn Hi. rewrite <- (Z.mod_small n (2 ^ 31)) by exact Hn. apply Z.mod_pow2_bits_high. lia. Qed.

Lemma head_value last n : 0 <= n < 2 ^ 31 -> frag_head last n = n + if last then 2 ^ 31 else 0.
Proof. intros Hn. unfold frag_head. destruct last; [|rewrite Z.lor_0_r; lia]. rewrite Z.lor_comm. unfold LAST_FRAG. rewrite lor_low by lia. lia. Qed.

Lemma head_last last n : 0 <= n < 2 ^ 31 -> (Z.land (frag_head last n) LAST_FRAG =? 0) = negb last.
Proof.
  intros Hn. unfold frag_head. destruct last.
  - replace (Z.land _ _) with LAST_FRAG; [reflexivity|]. apply Z.bits_inj'. intros i _. rewrite Z.land_spec, Z.lor_spec. destruct (Z.testbit LAST_FRAG i); [rewrite orb_true_r|rewrite andb_false_r]; reflexivity.
  - rewrite Z.lor_0_r. apply Z.eqb_eq, Z.bits_inj'. intros i _. rewrite Z.land_spec, last_frag_bit, Z.bits_0. destruct (Z.eqb_spec i 31) as [->|]; [rewrite small_bit by lia|rewrite andb_false_r]; reflexivity.
Qed.

Lemma head_length last n : 0 <= n < 2 ^ 31 -> Z.ldiff (frag_head last n) LAST_FRAG = n.
Proof.
  intros Hn. apply Z.bits_inj'. intros i _. unfold frag_head. rewrite Z.ldiff_spec, Z.lor_spec, last_frag_bit.
  destruct (Z.eqb_spec i 31) as [->|Hi]; cbn [negb]; [rewrite andb_false_r, small_bit by lia; reflexivity|rewrite andb_true_r].
  destruct last; [rewrite last_frag_bit, (proj2 (Z.eqb_neq _ _) Hi)|rewrite Z.bits_0]; apply orb_false_r.
Qed.

(** [in_record fb last inp data later]: with [fb] bytes of the fragment to come, the last one if [last], the
    input [inp] holds the rest [data] of the record, and then [later]. *)
Inductive in_record : Z -> bool -> list Z -> list Z -> list Z -> Prop :=
  | in_last bs later : in_record (Z.of_nat (length bs)) true (bs ++ later) bs later
  | in_more bs last n inp data later :
      0 <= n < 2 ^ 31 -> (last = false -> 0 < n) -> in_record n last inp data later ->
      in_record (Z.of_nat (length bs)) false (bs ++ be32 (frag_head last n) ++ inp) (bs ++ data) later.

Lemma in_record_inv fb last inp data later : in_record fb last inp data later ->
  exists bs, fb = Z.of_nat (length bs) /\
    ((last = true /\ inp = bs ++ later /\ data = bs) \/
     (last = false /\ exists last' n inp' data', 0 <= n < 2 ^ 31 /\ (last' = false -> 0 < n) /\ in_record n last' inp' data' later /\
        inp = bs ++ be32 (frag_head last' n) ++ inp' /\ data = bs ++ data')).
Proof. intros [bs l|bs l n inp' data' l' Hn Hl H]; exists bs; (split; [reflexivity|]); [left; auto|right]. split; [reflexivity|]. exists l, n, inp', data'. auto. Qed.

Lemma length_zero {T} (l : list T) : 0 = Z.of_nat (length l) -> l = [].
Proof. destruct l; [reflexivity|cbn [length]; lia]. Qed.

Lemma in_record_next inp data later : in_record 0 false inp data later ->
  exists last n inp', 0 <= n < 2 ^ 31 /\ (last = false -> 0 < n) /\ inp = be32 (frag_head last n) ++ inp' /\ in_record n last inp' data later.
Proof.
  intros H. apply in_record_inv in H as (bs & Hb & [[? _]|(_ & last & n & inp' & data' & Hn & Hl & H & -> & ->)]); [discriminate|].
  apply length_zero in Hb as ->. exists last, n, inp'. auto.
Qed.

Lemma in_record_end inp data later : in_record 0 true inp data later -> data = [] /\ inp = later.
Proof. intros H. apply in_record_inv in H as (bs & Hb & [(_ & -> & ->)|[? _]]); [|discriminate]. apply length_zero in Hb as ->. auto. Qed.

Lemma in_record_take fb last inp b1 data later : in_record fb last inp (b1 ++ data) later -> Z.of_nat (length b1) <= fb ->
  exists fr, inp = b1 ++ fr /\ in_record (fb - Z.of_nat (length b1)) last fr data later.
Proof.
  intros H Hl. apply in_record_inv in H as (bs & -> & [(-> & -> & E)|(-> & last' & n & inp' & data' & Hn & Hla & H & -> & E)]).
  - subst bs. exists (data ++ later). rewrite <- app_assoc, length_app. split; [reflexivity|].
    replace (Z.of_nat (length b1 + length data) - Z.of_nat (length b1)) with (Z.of_nat (length data)) by lia. constructor.
  - destruct (split_front bs (length b1) ltac:(lia)) as (c1 & c2 & -> & Hc1). rewrite <- app_assoc in E. destruct (app_inj_1 b1 c1 _ _ (eq_sym Hc1) E) as [-> ->].
    exists (c2 ++ be32 (frag_head last' n) ++ inp'). rewrite <- app_assoc, length_app. split; [reflexivity|].
    replace (Z.of_nat (length c1 + length c2) - Z.of_nat (length c1)) with (Z.of_nat (length c2)) by lia. constructor; assumption.
Qed.

(** At the end of the data there is at most the header of an empty last fragment. *)
Lemma in_record_empty fb last inp later : in_record fb last inp [] later -> (length inp <= 4 + length later)%nat.
Proof.
  intros H. apply in_record_inv in H as (bs & _ & [(_ & -> & <-)|(_ & last' & n & inp' & data' & Hn & Hl & H & -> & E)]); [cbn [app]; lia|].
  symmetry in E. apply app_nil in E as [-> ->]. cbn [app]. rewrite length_app, length_be32.
  apply in_record_inv in H as (bs & Hb & [(_ & -> & <-)|(-> & _ & _ & _ & data'' & _ & _ & _ & _ & E)]); [cbn [app]; lia|].
  symmetry in E. apply app_nil in E as [-> _]. specialize (Hl eq_refl). cbn [length] in Hb. lia.
Qed.

Lemma record_bytes_in ps p later :
  Forall (fun p => 0 < Z.of_nat (length p) < 2 ^ 31) ps -> Z.of_nat (length p) < 2 ^ 31 ->
  in_record 0 false (record_bytes ps p ++ later) (concat ps ++ p) later.
Proof.
  intros Hps Hp. unfold record_bytes. induction Hps as [|q ps Hq Hps IH].
  - cbn [map concat app]. unfold frag_bytes. rewrite <- app_assoc. apply (in_more [] true (Z.of_nat (length p))); [lia|discriminate|constructor].
  - cbn [map concat app]. unfold frag_bytes at 1. rewrite <- !app_assoc. apply (in_more [] false (Z.of_nat (length q)) _ (q ++ concat ps ++ p)); [lia|lia|].
    destruct (in_record_next _ _ _ IH) as (last & n & inp' & Hn & Hl & E & H). rewrite <- app_assoc in E. rewrite E. constructor; assumption.
Qed.

(** The data of the fragments in a sequence of bytes, up to the last one. *)
Fixpoint frag_data (fuel : nat) (bs : list Z) : list Z :=
  match fuel with
  | O => []
  | S fuel =>
      let h := be_val (take 4 bs) in
      let n := Z.to_nat (Z.ldiff h LAST_FRAG) in
      take n (drop 4 bs) ++ (if Z.land h LAST_FRAG =? 0 then frag_data fuel (drop n (drop 4 bs)) else [])
  end.

Lemma frag_data_head fuel last n inp : 0 <= n < 2 ^ 31 ->
  frag_data (S fuel) (be32 (frag_head last n) ++ inp) = take (Z.to_nat n) inp ++ if last then [] else frag_data fuel (drop (Z.to_nat n) inp).
Proof.
  intros Hn. cbn [frag_data]. rewrite take_app_length', drop_app_length' by (rewrite length_be32; reflexivity). rewrite be_val_be32.
  pose proof (head_value last n Hn). assert (u32 (frag_head last n) = frag_head last n) as -> by (apply uwrap_small; destruct last; lia).
  rewrite head_last, head_length by exact Hn. destruct last; reflexivity.
Qed.

Lemma frag_data_nil fuel : frag_data fuel [] = [].
Proof. induction fuel as [|fuel IH]; [reflexivity|]. cbn [frag_data take drop]. rewrite drop_nil, take_nil, IH. destruct (_ =? 0); reflexivity. Qed.

Lemma in_record_data fb last inp data later : in_record fb last inp data later -> forall fuel, (length inp <= fuel)%nat ->
  take (Z.to_nat fb) inp ++ (if last then [] else frag_data fuel (drop (Z.to_nat fb) inp)) = data.
Proof.
  induction 1 as [bs later|bs last n inp data later Hn Hl H IH]; intros fuel Hf.
  - rewrite Nat2Z.id, take_app_length, app_nil_r. reflexivity.
  - rewrite Nat2Z.id, take_app_length, drop_app_length. f_equal. rewrite !length_app, length_be32 in Hf. destruct fuel as [|fuel]; [lia|].
    rewrite frag_data_head by exact Hn. apply IH. lia.
Qed.

Lemma frag_data_parts ps : Forall (fun p => 0 < Z.of_nat (length p) < 2 ^ 31) ps -> forall fuel, (length (concat (map (frag_bytes false) ps)) <= fuel)%nat ->
  frag_data fuel (concat (map (frag_bytes false) ps)) = concat ps.
Proof.
  induction 1 as [|p ps Hp Hps IH]; intros fuel Hf; cbn [map concat] in *; [apply frag_data_nil|].
  unfold frag_bytes in Hf at 1. unfold frag_bytes at 1. rewrite !length_app, length_be32 in Hf. destruct fuel as [|fuel]; [lia|]. rewrite <- app_assoc, frag_data_head by lia.
  rewrite Nat2Z.id, take_app_length, drop_app_length, IH by lia. reflexivity.
Qed.

Lemma frag_data_bytes fuel : forall bs, Forall is_byte bs -> Forall is_byte (frag_data fuel bs).
Proof.
  induction fuel as [|fuel IH]; intros bs Hb; [constructor|]. cbn [frag_data]. apply Forall_app. split; [apply Forall_take, Forall_drop, Hb|].
  destruct (_ =? 0); [apply IH, Forall_drop, Forall_drop, Hb|constructor].
Qed.

(** * The state of a stream *)

Section Stream.
Context (A : arch) {W : Type}.
Context (readit : W -> Z -> W * option (list Z)) (writeit : W -> list Z -> W * Z) `{!Connection readit writeit}.

#[local] Abbreviation RECSTREAM := (RECSTREAM W).

(** The buffers: room for a header at the front of the fragment that is being written, which is not
    empty unless there is room for a unit, and the input between finger and boundary.  The buffers and the
    header are aligned. *)
Record rec_inv (rs : RECSTREAM) : Prop := {
  rv_wf : wf_mem (r_mem rs);
  rv_header : out_base (ro rs) <= frag_header (ro rs);
  rv_finger : frag_header (ro rs) + 4 <= out_finger (ro rs) <= out_boundry (ro rs);
  rv_room : out_finger (ro rs) = frag_header (ro rs) + 4 -> out_finger (ro rs) + 4 <= out_boundry (ro rs);
  rv_out : 8 <= out_boundry (ro rs) - out_base (ro rs) < 2 ^ 31;
  rv_apart : out_boundry (ro rs) <= in_base (ri rs);
  rv_in : in_base (ri rs) <= in_finger (ri rs) <= in_boundry (ri rs) /\ in_boundry (ri rs) <= in_base (ri rs) + in_size (ri rs);
  rv_insize : 4 <= in_size (ri rs) < 2 ^ 31;
  rv_fbtbc : 0 <= fbtbc (ri rs) < 2 ^ 31;
  rv_al_base : out_base (ro rs) mod 4 = 0;
  rv_al_boundry : out_boundry (ro rs) mod 4 = 0;
  rv_al_header : frag_header (ro rs) mod 4 = 0;
  rv_al_in : in_base (ri rs) mod 4 = 0;
  rv_map_out : mapped (r_mem rs) (out_base (ro rs)) (out_boundry (ro rs));
  rv_map_in : mapped (r_mem rs) (in_base (ri rs)) (in_base (ri rs) + in_size (ri rs))
}.

(** What can be read, what was sent or is complete in the buffer, and the fragment in the making. *)
Definition input (rs : RECSTREAM) : list Z := region (r_mem rs) (in_finger (ri rs)) (in_boundry (ri rs)) ++ incoming (world rs).
Definition sent (rs : RECSTREAM) : list Z := outgoing (world rs) ++ region (r_mem rs) (out_base (ro rs)) (frag_header (ro rs)).
Definition frag (rs : RECSTREAM) : list Z := region (r_mem rs) (frag_header (ro rs) + 4) (out_finger (ro rs)).

(** Where the input would end if the buffer held all of it, modulo the size of a unit. *)
Definition in_phase (rs : RECSTREAM) : Z := (in_finger (ri rs) + Z.of_nat (length (input rs))) mod 4.

(** Input operations leave the output alone, and the other way round; the position of what is still to be read does not
    change its alignment, since a refill keeps it. *)
Definition same_output (rs rs' : RECSTREAM) : Prop := r_op rs' = r_op rs /\ ro rs' = ro rs /\ sent rs' = sent rs /\ frag rs' = frag rs /\ in_phase rs' = in_phase rs.
Definition same_input (rs rs' : RECSTREAM) : Prop := r_op rs' = r_op rs /\ ri rs' = ri rs /\ input rs' = input rs.

Lemma same_output_refl rs : same_output rs rs.
Proof. repeat split. Qed.

Lemma same_output_trans rs1 rs2 rs3 : same_output rs1 rs2 -> same_output rs2 rs3 -> same_output rs1 rs3.
Proof. intros (? & ? & ? & ? & ?) (? & ? & ? & ? & ?). repeat split; congruence. Qed.

Lemma same_input_trans rs1 rs2 rs3 : same_input rs1 rs2 -> same_input rs2 rs3 -> same_input rs1 rs3.
Proof. intros (? & ? & ?) (? & ? & ?). repeat split; congruence. Qed.

(** ** Input *)

(** The bytes consumed are those of the buffer. *)
Lemma consume_spec rs n : rec_inv rs -> 0 <= n <= in_boundry (ri rs) - in_finger (ri rs) ->
  rec_inv (consume rs n) /\ same_output rs (consume rs n) /\
  exists bs, mem_read (r_mem rs) (in_finger (ri rs)) (Z.to_nat n) = Some bs /\ Z.of_nat (length bs) = n /\ input rs = bs ++ input (consume rs n).
Proof.
  intros Hi Hn. pose proof Hi as []. assert (mapped (r_mem rs) (in_finger (ri rs)) (in_boundry (ri rs))) as Hm by (eapply mapped_sub; [eassumption|lia|lia]).
  split; [split; cbn [consume with_in r_mem ro ri in_finger in_boundry in_base in_size fbtbc]; auto; lia|].
  assert (exists bs, mem_read (r_mem rs) (in_finger (ri rs)) (Z.to_nat n) = Some bs /\ Z.of_nat (length bs) = n /\ input rs = bs ++ input (consume rs n)) as (bs & E & Hl & Hin).
  { exists (region (r_mem rs) (in_finger (ri rs)) (in_finger (ri rs) + n)).
    pose proof (region_read (r_mem rs) (in_finger (ri rs)) (in_finger (ri rs) + n) ltac:(lia) ltac:(eapply mapped_sub; [exact Hm|lia|lia])) as E.
    replace (in_finger (ri rs) + n - in_finger (ri rs)) with n in E by lia. split; [exact E|].
    split; [destruct (region_mapped (r_mem rs) (in_finger (ri rs)) (in_finger (ri rs) + n)) as [_ Hl]; [lia|eapply mapped_sub; [exact Hm|lia|lia]|lia]|].
    unfold input. cbn [consume with_in r_mem ri in_finger in_boundry world]. rewrite app_assoc, <- region_app by (assumption || lia). reflexivity. }
  split; [|eauto]. do 4 (split; [reflexivity|]). unfold in_phase. rewrite Hin, length_app. cbn [consume with_in ri in_finger]. f_equal. lia.
Qed.

(** A refill at the end of the buffer. *)
Lemma fill_spec rs : rec_inv rs -> in_finger (ri rs) = in_boundry (ri rs) -> input rs <> [] ->
  exists rs', fill_input_buf readit rs = Some (rs', true) /\ rec_inv rs' /\ same_output rs rs' /\ input rs' = input rs /\
    in_finger (ri rs') < in_boundry (ri rs') /\ fbtbc (ri rs') = fbtbc (ri rs) /\ last_frag (ri rs') = last_frag (ri rs).
Proof.
  intros Hi He Hne. pose proof Hi as []. unfold input in Hne. rewrite He, region_empty in Hne. cbn [app] in Hne.
  unfold fill_input_buf, BYTES_PER_XDR_UNIT. pose proof (Z.mod_pos_bound (in_boundry (ri rs)) 4 ltac:(lia)) as Hoff. set (off := in_boundry (ri rs) mod 4) in *.
  assert (s32 (in_size (ri rs) - off) = in_size (ri rs) - off) as -> by (apply swrap_small; lia).
  destruct (readit_ok (world rs) (in_size (ri rs) - off) Hne ltac:(lia)) as (w' & bs & -> & Hbs & Hlen & Hin & Hout).
  pose proof (incoming_bytes (world rs)) as Hby. rewrite Hin, Forall_app in Hby.
  destruct (write_mem (r_mem rs) (in_base (ri rs) + off) bs rv_wf0) as (m' & -> & Hwf' & Hsame & Hreg & Hmap); [eapply mapped_sub; [eassumption|lia|lia]|tauto|].
  assert (0 < Z.of_nat (length bs)) as Hpos by (destruct bs; [congruence|cbn [length]; lia]).
  eexists. split; [reflexivity|]. cbn [with_in r_mem ro ri in_finger in_boundry in_base in_size fbtbc last_frag world].
  split; [split; cbn [with_in r_mem ro ri in_finger in_boundry in_base in_size fbtbc]; auto; lia|].
  match goal with |- same_output _ ?x /\ _ => set (rs' := x) end.
  assert (input rs' = input rs) as Hinp by (unfold input, rs'; cbn [with_in r_mem ri in_finger in_boundry world]; rewrite Hreg, He, region_empty, Hin; reflexivity).
  split; [|split; [exact Hinp|split; [lia|auto]]].
  unfold same_output, in_phase. rewrite Hinp. unfold rs', sent, frag. cbn [with_in r_mem ro ri world r_op in_finger]. rewrite Hout. split; [reflexivity|]. split; [reflexivity|].
  rewrite !(region_same (r_mem rs) m') by (intros a Ha; apply Hsame; lia). split; [reflexivity|]. split; [reflexivity|].
  rewrite He, Z.add_mod, (Z.add_mod (in_boundry (ri rs))) by lia. f_equal. f_equal. subst off. rewrite Z.add_mod, rv_al_in0, Z.add_0_l, !Z.mod_mod by lia. reflexivity.
Qed.

Lemma get_input_loop_spec fuel : forall rs bs rest acc,
  rec_inv rs -> input rs = bs ++ rest -> (2 * length bs <= fuel + (if (in_finger (ri rs) =? in_boundry (ri rs))%Z then 0 else 1))%nat ->
  exists rs', get_input_loop readit fuel rs (Z.of_nat (length bs)) acc = Some (rs', Some (acc ++ bs)) /\ rec_inv rs' /\ same_output rs rs' /\
    input rs' = rest /\ fbtbc (ri rs') = fbtbc (ri rs) /\ last_frag (ri rs') = last_frag (ri rs).
Proof.
  induction fuel as [|fuel IH]; intros rs bs rest acc Hi Hin Hf; cbn [get_input_loop]; (destruct (Z.leb_spec (Z.of_nat (length bs)) 0) as [H0|H0];
    [destruct bs; [|cbn [length] in H0; lia]; exists rs; rewrite app_nil_r; auto 10 using same_output_refl|]); [destruct (in_finger (ri rs) =? in_boundry (ri rs)); lia|].
  pose proof Hi as []. assert (s32 (in_boundry (ri rs) - in_finger (ri rs)) = in_boundry (ri rs) - in_finger (ri rs)) as -> by (apply swrap_small; lia).
  destruct (Z.eqb_spec (in_boundry (ri rs) - in_finger (ri rs)) 0) as [E|E].
  - rewrite (proj2 (Z.eqb_eq (in_finger (ri rs)) _)) in Hf by lia.
    destruct (fill_spec rs Hi ltac:(lia)) as (rs1 & -> & Hi1 & Ho1 & Hin1 & Hlt & Hfb & Hla); [rewrite Hin; destruct bs; discriminate || (cbn [length] in H0; lia)|]. cbn [negb].
    destruct (IH rs1 bs rest acc Hi1 ltac:(congruence)) as (rs' & -> & Hi' & Ho' & Hin' & Hfb' & Hla'); [rewrite (proj2 (Z.eqb_neq _ _)) by lia; lia|].
    exists rs'. split; [reflexivity|]. split; [exact Hi'|]. split; [exact (same_output_trans _ _ _ Ho1 Ho')|]. repeat split; congruence.
  - rewrite (proj2 (Z.eqb_neq _ _)) in Hf by lia. set (cur := if _ <? _ then _ else _).
    assert (0 < cur <= Z.of_nat (length bs) /\ cur <= in_boundry (ri rs) - in_finger (ri rs)) as Hcur by (subst cur; destruct (Z.ltb_spec (Z.of_nat (length bs)) (in_boundry (ri rs) - in_finger (ri rs))); lia).
    clearbody cur. destruct (consume_spec rs cur Hi ltac:(lia)) as (Hi1 & Ho1 & b1 & -> & Hl1 & Hin1). rewrite Hin in Hin1.
    destruct (split_front bs (length b1) ltac:(lia)) as (b1' & b2 & -> & Hl1'). rewrite <- app_assoc in Hin1. destruct (app_inj_1 b1' b1 _ _ Hl1' Hin1) as [-> Hin2].
    rewrite length_app in *. replace (Z.of_nat (length b1 + length b2) - cur) with (Z.of_nat (length b2)) by lia.
    destruct (IH (consume rs cur) b2 rest (acc ++ b1) Hi1 ltac:(congruence) ltac:(lia)) as (rs' & -> & Hi' & Ho' & Hin' & Hfb' & Hla').
    exists rs'. rewrite <- app_assoc. split; [reflexivity|]. split; [exact Hi'|]. split; [exact (same_output_trans _ _ _ Ho1 Ho')|]. auto.
Qed.

Lemma set_fbtbc_spec rs v : rec_inv rs -> 0 <= v < 2 ^ 31 -> rec_inv (set_fbtbc rs v) /\ same_output rs (set_fbtbc rs v) /\ input (set_fbtbc rs v) = input rs.
Proof. intros [] Hv. split; [split; cbn [set_fbtbc with_in r_mem ro ri in_finger in_boundry in_base in_size fbtbc]; auto|]. repeat split. Qed.

Lemma set_last_frag_spec rs b : rec_inv rs -> rec_inv (set_last_frag rs b) /\ same_output rs (set_last_frag rs b) /\ input (set_last_frag rs b) = input rs.
Proof. intros []. split; [split; cbn [set_last_frag with_in r_mem ro ri in_finger in_boundry in_base in_size fbtbc]; auto|]. repeat split. Qed.

(** The next header. *)
Lemma set_input_fragment_spec rs last n rest :
  rec_inv rs -> input rs = be32 (frag_head last n) ++ rest -> 0 <= n < 2 ^ 31 -> (last = false -> 0 < n) ->
  exists rs', set_input_fragment A readit rs = Some (rs', true) /\ rec_inv rs' /\ same_output rs rs' /\ input rs' = rest /\
    fbtbc (ri rs') = n /\ last_frag (ri rs') = last.
Proof.
  intros Hi Hin Hn Hl. unfold set_input_fragment, get_input_bytes, BYTES_PER_XDR_UNIT.
  destruct (get_input_loop_spec (2 * Z.to_nat 4) rs (be32 (frag_head last n)) rest [] Hi Hin) as (rs1 & E & Hi1 & Ho1 & Hin1 & _); [rewrite length_be32; lia|].
  rewrite length_be32 in E. change (Z.of_nat 4) with 4 in E. rewrite E. cbn [app]. rewrite load_unit, be_val_be32 by (apply length_be32 || apply be32_byte).
  pose proof (head_value last n Hn) as Hv. assert (u32 (frag_head last n) = frag_head last n) as -> by (apply uwrap_small; destruct last; lia).
  rewrite (proj2 (Z.eqb_neq _ _)) by (destruct last; [lia|specialize (Hl eq_refl); lia]). rewrite head_last, head_length, negb_involutive by exact Hn.
  destruct (set_last_frag_spec rs1 last Hi1) as (Hi2 & Ho2 & Hin2). destruct (set_fbtbc_spec _ n Hi2 Hn) as (Hi3 & Ho3 & Hin3).
  eexists. split; [reflexivity|]. split; [exact Hi3|]. split; [exact (same_output_trans _ _ _ Ho1 (same_output_trans _ _ _ Ho2 Ho3))|]. split; [congruence|auto].
Qed.

(** The bytes [bs] of the record, through the fragments. *)
Lemma getbytes_loop_spec fuel : forall rs bs rest later acc,
  rec_inv rs -> in_record (fbtbc (ri rs)) (last_frag (ri rs)) (input rs) (bs ++ rest) later ->
  (2 * length bs <= fuel + (if (fbtbc (ri rs) =? 0)%Z then 0 else 1))%nat ->
  exists rs', getbytes_loop A readit fuel rs (Z.of_nat (length bs)) acc = Some (rs', Some (acc ++ bs)) /\ rec_inv rs' /\ same_output rs rs' /\
    in_record (fbtbc (ri rs')) (last_frag (ri rs')) (input rs') rest later.
Proof.
  induction fuel as [|fuel IH]; intros rs bs rest later acc Hi Hin Hf; cbn [getbytes_loop]; (destruct (Z.leb_spec (Z.of_nat (length bs)) 0) as [H0|H0];
    [destruct bs; [|cbn [length] in H0; lia]; exists rs; rewrite app_nil_r; auto 10 using same_output_refl|]); [destruct (fbtbc (ri rs) =? 0); lia|].
  pose proof (rv_fbtbc _ Hi) as Hfb. assert (u32 (fbtbc (ri rs)) = fbtbc (ri rs)) as -> by (apply uwrap_small; lia).
  destruct (Z.eqb_spec (fbtbc (ri rs)) 0) as [E|E].
  - destruct bs as [|b0 bs0] eqn:Ebs; [cbn [length] in H0; lia|]. rewrite <- Ebs in *. clear Ebs. rewrite E in *.
    destruct (last_frag (ri rs)) eqn:Hla; [apply in_record_end in Hin as [Hin _]; destruct bs; [cbn [length] in H0; lia|discriminate]|].
    destruct (in_record_next _ _ _ Hin) as (last & n & inp' & Hn & Hln & Hinp & Hin'). cbn [Z.eqb] in Hf.
    destruct (set_input_fragment_spec rs last n inp' Hi Hinp Hn Hln) as (rs1 & -> & Hi1 & Ho1 & Hin1 & Hfb1 & Hla1). cbn [negb].
    assert (n <> 0) as Hn0. { intros ->. destruct last; [|specialize (Hln eq_refl); lia]. apply in_record_end in Hin' as [Hin' _]. destruct bs; [cbn [length] in H0; lia|discriminate]. }
    destruct (IH rs1 bs rest later acc Hi1) as (rs' & -> & Hi' & Ho' & Hr'); [rewrite Hfb1, Hla1, Hin1; exact Hin'|rewrite Hfb1, (proj2 (Z.eqb_neq _ _) Hn0); lia|].
    exists rs'. split; [reflexivity|]. split; [exact Hi'|]. split; [exact (same_output_trans _ _ _ Ho1 Ho')|exact Hr'].
  - set (cur := if _ <? _ then _ else _).
    assert (0 < cur <= Z.of_nat (length bs) /\ cur <= fbtbc (ri rs)) as Hcur by (subst cur; destruct (Z.ltb_spec (Z.of_nat (length bs)) (fbtbc (ri rs))); lia).
    clearbody cur. destruct (split_front bs (Z.to_nat cur) ltac:(lia)) as (b1 & b2 & -> & Hl1). rewrite length_app in *. rewrite <- app_assoc in Hin.
    destruct (in_record_take _ _ _ b1 _ _ Hin ltac:(lia)) as (fr & Hfr & Hnext).
    unfold get_input_bytes. replace cur with (Z.of_nat (length b1)) by lia.
    destruct (get_input_loop_spec (2 * Z.to_nat (Z.of_nat (length b1))) rs b1 fr [] Hi Hfr) as (rs1 & -> & Hi1 & Ho1 & Hin1 & Hfb1 & Hla1); [destruct (in_finger (ri rs) =? in_boundry (ri rs)); lia|].
    cbn [app]. replace (Z.of_nat (length b1 + length b2) - Z.of_nat (length b1)) with (Z.of_nat (length b2)) by lia.
    destruct (set_fbtbc_spec rs1 (fbtbc (ri rs1) - Z.of_nat (length b1)) Hi1 ltac:(lia)) as (Hi2 & Ho2 & Hin2).
    destruct (IH _ b2 rest later (acc ++ b1) Hi2) as (rs' & -> & Hi' & Ho' & Hr').
    { rewrite Hin2. cbn [set_fbtbc with_in ri fbtbc last_frag]. rewrite Hfb1, Hla1, Hin1. exact Hnext. }
    { lia. }
    exists rs'. rewrite <- app_assoc. split; [reflexivity|]. split; [exact Hi'|]. split; [exact (same_output_trans _ _ _ Ho1 (same_output_trans _ _ _ Ho2 Ho'))|exact Hr'].
Qed.

(** Fewer bytes than asked for: the rest of the record is consumed. *)
Lemma getbytes_loop_short fuel : forall rs data later len acc,
  rec_inv rs -> in_record (fbtbc (ri rs)) (last_frag (ri rs)) (input rs) data later -> Z.of_nat (length data) < len ->
  (2 * length data + (if (fbtbc (ri rs) =? 0)%Z && last_frag (ri rs) then 1 else 2) <= fuel + (if (fbtbc (ri rs) =? 0)%Z then 0 else 1))%nat ->
  exists rs', getbytes_loop A readit fuel rs len acc = Some (rs', None) /\ rec_inv rs' /\ same_output rs rs' /\
    in_record (fbtbc (ri rs')) (last_frag (ri rs')) (input rs') [] later.
Proof.
  induction fuel as [|fuel IH]; intros rs data later len acc Hi Hin Hlen Hf; cbn [getbytes_loop]; rewrite (proj2 (Z.leb_gt _ _)) by lia.
  { destruct (Z.eqb_spec (fbtbc (ri rs)) 0), (last_frag (ri rs)) eqn:El; cbn [andb] in Hf; lia. }
  pose proof (rv_fbtbc _ Hi) as Hfb. assert (u32 (fbtbc (ri rs)) = fbtbc (ri rs)) as -> by (apply uwrap_small; lia).
  destruct (Z.eqb_spec (fbtbc (ri rs)) 0) as [E|E]; cbn [andb] in Hf.
  - destruct (last_frag (ri rs)) eqn:El.
    { exists rs. rewrite E, El in *. destruct (in_record_end _ _ _ Hin) as [-> _]. auto using same_output_refl. }
    rewrite E in Hin. destruct (in_record_next _ _ _ Hin) as (last & n & inp' & Hn & Hln & Hinp & Hin').
    destruct (set_input_fragment_spec rs last n inp' Hi Hinp Hn Hln) as (rs1 & -> & Hi1 & Ho1 & Hin1 & Hfb1 & Hla1). cbn [negb].
    destruct (IH rs1 data later len acc Hi1) as (rs' & -> & Hi' & Ho' & Hr'); [rewrite Hfb1, Hla1, Hin1; exact Hin'|exact Hlen| |].
    { rewrite Hfb1, Hla1. destruct (Z.eqb_spec n 0) as [->|]; cbn [andb]; [|lia]. destruct last; [lia|specialize (Hln eq_refl); lia]. }
    exists rs'. split; [reflexivity|]. split; [exact Hi'|]. split; [exact (same_output_trans _ _ _ Ho1 Ho')|exact Hr'].
  - assert (exists b1 d2, data = b1 ++ d2 /\ Z.of_nat (length b1) = fbtbc (ri rs)) as (b1 & d2 & -> & Hl1).
    { apply in_record_inv in Hin as (bs & Hb & [(_ & _ & ->)|(_ & _ & _ & _ & d' & _ & _ & _ & _ & ->)]); [exists bs, []; rewrite app_nil_r; auto|exists bs, d'; auto]. }
    rewrite length_app in *. rewrite (proj2 (Z.ltb_ge len _)) by lia.
    destruct (in_record_take _ _ _ b1 _ _ Hin ltac:(lia)) as (fr & Hfr & Hnext). unfold get_input_bytes. rewrite <- Hl1.
    destruct (get_input_loop_spec (2 * Z.to_nat (Z.of_nat (length b1))) rs b1 fr [] Hi Hfr) as (rs1 & -> & Hi1 & Ho1 & Hin1 & Hfb1 & Hla1); [destruct (in_finger (ri rs) =? in_boundry (ri rs)); lia|].
    destruct (set_fbtbc_spec rs1 (fbtbc (ri rs1) - Z.of_nat (length b1)) Hi1 ltac:(lia)) as (Hi2 & Ho2 & Hin2).
    destruct (IH _ d2 later (len - Z.of_nat (length b1)) (acc ++ [] ++ b1) Hi2) as (rs' & -> & Hi' & Ho' & Hr').
    { rewrite Hin2. cbn [set_fbtbc with_in ri fbtbc last_frag]. rewrite Hfb1, Hla1, Hin1. exact Hnext. }
    { lia. }
    { cbn [set_fbtbc with_in ri fbtbc last_frag]. destruct (_ =? 0), (last_frag (ri rs1)); cbn [andb]; lia. }
    exists rs'. split; [reflexivity|]. split; [exact Hi'|]. split; [exact (same_output_trans _ _ _ Ho1 (same_output_trans _ _ _ Ho2 Ho'))|exact Hr'].
Qed.

(** A unit, in place when the buffer holds it. *)
Lemma getlong_spec rs bs rest later :
  rec_inv rs -> in_finger (ri rs) mod 4 = 0 -> in_record (fbtbc (ri rs)) (last_frag (ri rs)) (input rs) (bs ++ rest) later -> length bs = 4%nat -> Forall is_byte bs ->
  exists rs', xdrrec_getlong A readit rs = Some (rs', Some (s32 (be_val bs))) /\ rec_inv rs' /\ same_output rs rs' /\
    in_record (fbtbc (ri rs')) (last_frag (ri rs')) (input rs') rest later.
Proof.
  intros Hi Hal Hin Hl Hb. unfold xdrrec_getlong, BYTES_PER_XDR_UNIT. destruct (Z.leb_spec 4 (fbtbc (ri rs))) as [H1|H1], (Z.leb_spec 4 (in_boundry (ri rs) - in_finger (ri rs))) as [H2|H2]; cbn [andb].
  2, 3, 4: unfold xdrrec_getbytes; destruct (getbytes_loop_spec (2 * Z.to_nat 4 + 2) rs bs rest later [] Hi Hin) as (rs' & E & Hi' & Ho' & Hr'); [rewrite Hl; destruct (fbtbc (ri rs) =? 0); lia|];
    rewrite Hl in E; change (Z.of_nat 4) with 4 in E; rewrite E; cbn [app]; rewrite load_unit by assumption; eauto.
  pose proof (rv_fbtbc _ Hi). destruct (in_record_take _ _ _ bs _ _ Hin ltac:(lia)) as (fr & Hfr & Hnext).
  destruct (set_fbtbc_spec rs (fbtbc (ri rs) - 4) Hi ltac:(lia)) as (Hi1 & Ho1 & Hin1).
  destruct (consume_spec _ 4 Hi1 ltac:(cbn [set_fbtbc with_in ri in_finger in_boundry]; lia)) as (Hi2 & Ho2 & b & Hrd & Hlb & Hinp).
  cbn [set_fbtbc with_in r_mem ri in_finger] in Hrd. change (Z.to_nat 4) with 4%nat in Hrd. unfold int32_load. rewrite Hal, Hrd. cbn [Z.eqb].
  rewrite Hin1, Hfr in Hinp. destruct (app_inj_1 bs b _ _ ltac:(lia) Hinp) as [-> Hfr2]. rewrite load_unit by assumption.
  eexists. split; [reflexivity|]. split; [exact Hi2|]. split; [exact (same_output_trans _ _ _ Ho1 Ho2)|]. rewrite <- Hfr2. rewrite Hl in Hnext. exact Hnext.
Qed.

Lemma getlong_short_spec rs data later :
  rec_inv rs -> in_record (fbtbc (ri rs)) (last_frag (ri rs)) (input rs) data later -> (length data < 4)%nat ->
  exists rs', xdrrec_getlong A readit rs = Some (rs', None) /\ rec_inv rs' /\ same_output rs rs' /\
    in_record (fbtbc (ri rs')) (last_frag (ri rs')) (input rs') [] later.
Proof.
  intros Hi Hin Hl. unfold xdrrec_getlong, BYTES_PER_XDR_UNIT. assert (fbtbc (ri rs) <= Z.of_nat (length data)) as Hfb.
  { apply in_record_inv in Hin as (bs & -> & [(_ & _ & ->)|(_ & _ & _ & _ & d' & _ & _ & _ & _ & ->)]); rewrite ?length_app; lia. }
  rewrite (proj2 (Z.leb_gt _ _)) by lia. cbn [andb]. unfold xdrrec_getbytes.
  destruct (getbytes_loop_short (2 * Z.to_nat 4 + 2) rs data later 4 [] Hi Hin ltac:(lia)) as (rs' & -> & H'); [destruct (fbtbc (ri rs) =? 0), (last_frag (ri rs)); cbn [andb]; lia|].
  exists rs'. auto.
Qed.

(** ** To the next record *)

Lemma skip_input_loop_spec fuel : forall rs bs rest,
  rec_inv rs -> input rs = bs ++ rest -> (2 * length bs <= fuel + (if (in_finger (ri rs) =? in_boundry (ri rs))%Z then 0 else 1))%nat ->
  exists rs', skip_input_loop readit fuel rs (Z.of_nat (length bs)) = Some (rs', true) /\ rec_inv rs' /\ same_output rs rs' /\
    input rs' = rest /\ last_frag (ri rs') = last_frag (ri rs).
Proof.
  induction fuel as [|fuel IH]; intros rs bs rest Hi Hin Hf; cbn [skip_input_loop]; (destruct (Z.leb_spec (Z.of_nat (length bs)) 0) as [H0|H0];
    [destruct bs; [|cbn [length] in H0; lia]; exists rs; auto 10 using same_output_refl|]); [destruct (in_finger (ri rs) =? in_boundry (ri rs)); lia|].
  pose proof Hi as []. assert (s32 (in_boundry (ri rs) - in_finger (ri rs)) = in_boundry (ri rs) - in_finger (ri rs)) as -> by (apply swrap_small; lia).
  destruct (Z.eqb_spec (in_boundry (ri rs) - in_finger (ri rs)) 0) as [E|E].
  - rewrite (proj2 (Z.eqb_eq (in_finger (ri rs)) _)) in Hf by lia.
    destruct (fill_spec rs Hi ltac:(lia)) as (rs1 & -> & Hi1 & Ho1 & Hin1 & Hlt & Hfb & Hla); [rewrite Hin; destruct bs; discriminate || (cbn [length] in H0; lia)|]. cbn [negb].
    destruct (IH rs1 bs rest Hi1 ltac:(congruence)) as (rs' & -> & Hi' & Ho' & Hin' & Hla'); [rewrite (proj2 (Z.eqb_neq _ _)) by lia; lia|].
    exists rs'. split; [reflexivity|]. split; [exact Hi'|]. split; [exact (same_output_trans _ _ _ Ho1 Ho')|]. split; congruence.
  - rewrite (proj2 (Z.eqb_neq _ _)) in Hf by lia. set (cur := if _ <? _ then _ else _).
    assert (0 < cur <= Z.of_nat (length bs) /\ cur <= in_boundry (ri rs) - in_finger (ri rs)) as Hcur by (subst cur; destruct (Z.ltb_spec (Z.of_nat (length bs)) (in_boundry (ri rs) - in_finger (ri rs))); lia).
    clearbody cur. destruct (consume_spec rs cur Hi ltac:(lia)) as (Hi1 & Ho1 & b1 & _ & Hl1 & Hin1). rewrite Hin in Hin1.
    destruct (split_front bs (length b1) ltac:(lia)) as (b1' & b2 & -> & Hl1'). rewrite <- app_assoc in Hin1. destruct (app_inj_1 b1' b1 _ _ Hl1' Hin1) as [-> Hin2].
    rewrite length_app in *. replace (Z.of_nat (length b1 + length b2) - cur) with (Z.of_nat (length b2)) by lia.
    destruct (IH (consume rs cur) b2 rest Hi1 ltac:(congruence) ltac:(lia)) as (rs' & -> & Hi' & Ho' & Hin' & Hla').
    exists rs'. split; [reflexivity|]. split; [exact Hi'|]. split; [exact (same_output_trans _ _ _ Ho1 Ho')|]. auto.
Qed.

Lemma skip_fragments_spec fuel : forall rs data later,
  rec_inv rs -> in_record (fbtbc (ri rs)) (last_frag (ri rs)) (input rs) data later -> (length (input rs) < fuel)%nat ->
  exists rs', skip_fragments A readit fuel rs = Some (rs', true) /\ rec_inv rs' /\ same_output rs rs' /\
    fbtbc (ri rs') = 0 /\ last_frag (ri rs') = true /\ input rs' = later.
Proof.
  induction fuel as [|fuel IH]; intros rs data later Hi Hin Hf; [lia|]. cbn [skip_fragments]. pose proof (rv_fbtbc _ Hi) as Hfb.
  destruct (Z.ltb_spec 0 (fbtbc (ri rs))) as [Hpos|Hz], (last_frag (ri rs)) eqn:Hla; cbn [orb negb].
  2, 4: destruct (in_record_inv _ _ _ _ _ Hin) as (bs & Hb & [[? _]|(_ & last & n & inp' & data' & Hn & Hln & H & Hinp & _)]); [congruence|];
    unfold skip_input_bytes; rewrite Hb;
    destruct (skip_input_loop_spec (2 * Z.to_nat (Z.of_nat (length bs))) rs bs _ Hi Hinp) as (rs1 & -> & Hi1 & Ho1 & Hin1 & Hla1); [destruct (in_finger (ri rs) =? in_boundry (ri rs)); lia|];
    cbn [negb]; destruct (set_fbtbc_spec rs1 0 Hi1 ltac:(lia)) as (Hi2 & Ho2 & Hin2); rewrite Hin1 in Hin2;
    change (last_frag (ri (set_fbtbc rs1 0))) with (last_frag (ri rs1)); rewrite Hla1, Hla;
    destruct (set_input_fragment_spec _ last n inp' Hi2 Hin2 Hn Hln) as (rs3 & -> & Hi3 & Ho3 & Hin3 & Hfb3 & Hla3); cbn [negb];
    destruct (IH rs3 data' later Hi3) as (rs' & -> & Hi' & Ho' & H'); [rewrite Hfb3, Hla3, Hin3; exact H|rewrite Hin3; rewrite Hinp, !length_app, length_be32 in Hf; lia|];
    exists rs'; split; [reflexivity|]; split; [exact Hi'|]; split; [exact (same_output_trans _ _ _ Ho1 (same_output_trans _ _ _ Ho2 (same_output_trans _ _ _ Ho3 Ho')))|exact H'].
  - destruct (in_record_inv _ _ _ _ _ Hin) as (bs & Hb & [(_ & Hinp & _)|[? _]]); [|congruence]. unfold skip_input_bytes. rewrite Hb.
    destruct (skip_input_loop_spec (2 * Z.to_nat (Z.of_nat (length bs))) rs bs later Hi Hinp) as (rs1 & -> & Hi1 & Ho1 & Hin1 & Hla1); [destruct (in_finger (ri rs) =? in_boundry (ri rs)); lia|].
    cbn [negb]. destruct (set_fbtbc_spec rs1 0 Hi1 ltac:(lia)) as (Hi2 & Ho2 & Hin2). change (last_frag (ri (set_fbtbc rs1 0))) with (last_frag (ri rs1)). rewrite Hla1, Hla.
    exists (set_fbtbc rs1 0). split; [|split; [exact Hi2|]; split; [exact (same_output_trans _ _ _ Ho1 Ho2)|]; cbn [set_fbtbc with_in ri fbtbc last_frag]; rewrite Hla1, Hla, Hin2; auto].
    destruct fuel; cbn [skip_fragments set_fbtbc with_in ri fbtbc last_frag]; rewrite Hla1, Hla; reflexivity.
  - exists rs. assert (fbtbc (ri rs) = 0) as E by lia. rewrite E, Hla in *. destruct (in_record_end _ _ _ Hin) as [_ ->]. auto 10 using same_output_refl.
Qed.

(** xdrrec_skiprecord leaves the stream before the next record. *)
Lemma skiprecord_spec fuel rs data later data' later' :
  rec_inv rs -> in_record (fbtbc (ri rs)) (last_frag (ri rs)) (input rs) data later -> (length (input rs) < fuel)%nat ->
  in_record 0 false later data' later' ->
  exists rs', xdrrec_skiprecord A readit fuel rs = Some (rs', true) /\ rec_inv rs' /\ same_output rs rs' /\
    in_record (fbtbc (ri rs')) (last_frag (ri rs')) (input rs') data' later'.
Proof.
  intros Hi Hin Hf Hnext. unfold xdrrec_skiprecord. destruct (skip_fragments_spec fuel rs data later Hi Hin Hf) as (rs1 & -> & Hi1 & Ho1 & Hfb & Hla & Hin1). cbn [negb].
  destruct (set_last_frag_spec rs1 false Hi1) as (Hi2 & Ho2 & Hin2). eexists. split; [reflexivity|]. split; [exact Hi2|]. split; [exact (same_output_trans _ _ _ Ho1 Ho2)|].
  rewrite Hin2, Hin1. cbn [set_last_frag with_in ri fbtbc last_frag]. rewrite Hfb. exact Hnext.
Qed.

(** xdrrec_eof: the record is used up, and the answer is whether the buffer is empty then. *)
Lemma eof_spec fuel rs data later :
  rec_inv rs -> in_record (fbtbc (ri rs)) (last_frag (ri rs)) (input rs) data later -> (length (input rs) < fuel)%nat ->
  exists rs', xdrrec_eof A readit fuel rs = Some (rs', in_finger (ri rs') =? in_boundry (ri rs')) /\ rec_inv rs' /\ same_output rs rs' /\
    in_record (fbtbc (ri rs')) (last_frag (ri rs')) (input rs') [] later /\ input rs' = later.
Proof.
  intros Hi Hin Hf. unfold xdrrec_eof. destruct (skip_fragments_spec fuel rs data later Hi Hin Hf) as (rs1 & -> & Hi1 & Ho1 & Hfb & Hla & Hin1).
  exists rs1. rewrite Hfb, Hla, Hin1. split; [reflexivity|]. split; [exact Hi1|]. split; [exact Ho1|]. split; [apply (in_last [])|reflexivity].
Qed.

(** ** Output *)

Lemma produce_spec rs bs : rec_inv rs -> Forall is_byte bs -> out_finger (ro rs) + Z.of_nat (length bs) <= out_boundry (ro rs) ->
  exists rs', produce rs bs = Some rs' /\ rec_inv rs' /\ same_input rs rs' /\ sent rs' = sent rs /\ frag rs' = frag rs ++ bs /\
    out_finger (ro rs') = out_finger (ro rs) + Z.of_nat (length bs) /\ out_boundry (ro rs') = out_boundry (ro rs).
Proof.
  intros Hi Hb Hl. pose proof Hi as []. unfold produce.
  destruct (write_mem (r_mem rs) (out_finger (ro rs)) bs rv_wf0 ltac:(eapply mapped_sub; [exact rv_map_out0|lia|lia]) Hb) as (m' & -> & Hwf' & Hsame & Hreg & Hmap).
  eexists. split; [reflexivity|]. split; [split; cbn [with_out r_mem ro ri out_base out_finger out_boundry frag_header]; auto; lia|].
  split; [|split; [|split; [|split; reflexivity]]].
  - unfold same_input, input. cbn [with_out r_mem ri world r_op]. rewrite (region_same (r_mem rs) m') by (intros a Ha; apply Hsame; lia). auto.
  - unfold sent. cbn [with_out r_mem ro world out_base frag_header]. rewrite (region_same (r_mem rs) m') by (intros a Ha; apply Hsame; lia). reflexivity.
  - unfold frag. cbn [with_out r_mem ro out_finger frag_header].
    rewrite (region_app m' _ (out_finger (ro rs))), Hreg by (lia || (eapply mapped_sub; [apply Hmap, rv_map_out0|lia|lia])).
    rewrite (region_same (r_mem rs) m') by (intros a Ha; apply Hsame; lia). reflexivity.
Qed.

Lemma frag_length rs : rec_inv rs -> Z.of_nat (length (frag rs)) = out_finger (ro rs) - frag_header (ro rs) - 4.
Proof.
  intros []. unfold frag. destruct (region_mapped (r_mem rs) (frag_header (ro rs) + 4) (out_finger (ro rs))) as [_ H]; [lia|eapply mapped_sub; [exact rv_map_out0|lia|lia]|lia].
Qed.

(** The header is filled in: the buffer holds complete fragments. *)
Lemma header_spec rs (last : bool) : rec_inv rs ->
  exists m', int32_store A (r_mem rs) (frag_header (ro rs)) (htonl A (u32 (Z.lor (out_finger (ro rs) - frag_header (ro rs) - BYTES_PER_XDR_UNIT) (if last then LAST_FRAG else 0)))) = Some m' /\
    wf_mem m' /\ (forall q r, mapped (r_mem rs) q r -> mapped m' q r) /\
    (forall p q, out_finger (ro rs) <= p -> region m' p q = region (r_mem rs) p q) /\
    region m' (out_base (ro rs)) (out_finger (ro rs)) = region (r_mem rs) (out_base (ro rs)) (frag_header (ro rs)) ++ frag_bytes last (frag rs).
Proof.
  intros Hi. pose proof Hi as []. unfold int32_store. rewrite rv_al_header0, store_unit. cbn [Z.eqb]. fold (frag_head last (out_finger (ro rs) - frag_header (ro rs) - BYTES_PER_XDR_UNIT)).
  unfold BYTES_PER_XDR_UNIT. pose proof (length_be32 (frag_head last (out_finger (ro rs) - frag_header (ro rs) - 4))) as Hlb.
  destruct (write_mem (r_mem rs) (frag_header (ro rs)) (be32 (frag_head last (out_finger (ro rs) - frag_header (ro rs) - 4))) rv_wf0) as (m' & E & Hwf' & Hsame & Hreg & Hmap); [rewrite Hlb; eapply mapped_sub; [exact rv_map_out0|lia|lia]|apply be32_byte|].
  rewrite Hlb in *. exists m'. split; [exact E|]. split; [exact Hwf'|]. split; [exact Hmap|]. split; [intros p q Hp; apply region_same; intros a Ha; apply Hsame; lia|].
  assert (mapped m' (out_base (ro rs)) (out_finger (ro rs))) as Hm' by (eapply mapped_sub; [apply Hmap, rv_map_out0|lia|lia]).
  rewrite (region_app m' _ (frag_header (ro rs))) by (lia || assumption). rewrite (region_app m' (frag_header (ro rs)) (frag_header (ro rs) + 4)) by (lia || (eapply mapped_sub; [exact Hm'|lia|lia])).
  unfold frag_bytes. rewrite frag_length by exact Hi. change (frag_header (ro rs) + 4) with (frag_header (ro rs) + Z.of_nat 4) at 1. rewrite Hreg.
  unfold frag. rewrite !(region_same (r_mem rs) m') by (intros a Ha; apply Hsame; lia). reflexivity.
Qed.

Lemma flush_out_spec rs eor : rec_inv rs ->
  exists rs', flush_out A writeit rs eor = Some (rs', true) /\ rec_inv rs' /\ same_input rs rs' /\ sent rs' = sent rs ++ frag_bytes eor (frag rs) /\ frag rs' = [] /\
    out_finger (ro rs') = out_base (ro rs') + 4 /\ frag_header (ro rs') = out_base (ro rs') /\ out_base (ro rs') = out_base (ro rs) /\ out_boundry (ro rs') = out_boundry (ro rs).
Proof.
  intros Hi. pose proof Hi as []. unfold flush_out. destruct (header_spec rs eor Hi) as (m' & -> & Hwf' & Hmap & Hsame & Hreg).
  rewrite region_read by (lia || (eapply mapped_sub; [apply Hmap, rv_map_out0|lia|lia])). rewrite Hreg.
  destruct (writeit_ok (world rs) (region (r_mem rs) (out_base (ro rs)) (frag_header (ro rs)) ++ frag_bytes eor (frag rs))) as (w' & -> & Hout & Hin).
  destruct (region_mapped m' (out_base (ro rs)) (out_finger (ro rs))) as [_ Hlen]; [lia|eapply mapped_sub; [apply Hmap, rv_map_out0|lia|lia]|].
  rewrite Hreg in Hlen. rewrite Hlen. assert (s32 (out_finger (ro rs) - out_base (ro rs)) = out_finger (ro rs) - out_base (ro rs)) as -> by (apply swrap_small; lia). rewrite Z.eqb_refl. cbn [negb].
  eexists. split; [reflexivity|]. unfold BYTES_PER_XDR_UNIT. split; [split; cbn [with_out r_mem ro ri out_base out_finger out_boundry frag_header]; auto; lia|].
  split; [|split; [|split; [|cbn [with_out ro out_base out_finger out_boundry frag_header]; auto]]].
  - unfold same_input, input. cbn [with_out r_mem ri world r_op]. rewrite Hsame, Hin by lia. auto.
  - unfold sent. cbn [with_out r_mem ro world out_base frag_header]. rewrite region_empty, app_nil_r, Hout, app_assoc. reflexivity.
  - unfold frag. cbn [with_out r_mem ro out_finger frag_header]. apply region_empty.
Qed.

Lemma set_frag_sent_spec rs b : rec_inv rs -> rec_inv (set_frag_sent rs b) /\ same_input rs (set_frag_sent rs b) /\ sent (set_frag_sent rs b) = sent rs /\ frag (set_frag_sent rs b) = frag rs.
Proof. intros []. split; [split; cbn [set_frag_sent with_out r_mem ro ri out_base out_finger out_boundry frag_header]; auto|]. repeat split. Qed.

Definition part_ok (p : list Z) : Prop := 0 < Z.of_nat (length p) < 2 ^ 31.

(** The stream moved on by writing [bs]: some fragments are complete, and the position is as many bytes further modulo the size of a unit. *)
Definition writes (rs rs' : RECSTREAM) (bs : list Z) : Prop :=
  rec_inv rs' /\ same_input rs rs' /\ (out_finger (ro rs') - out_finger (ro rs) - Z.of_nat (length bs)) mod 4 = 0 /\
  exists ps, sent rs' = sent rs ++ concat (map (frag_bytes false) ps) /\ Forall part_ok ps /\ concat ps ++ frag rs' = frag rs ++ bs.

Lemma writes_trans rs1 rs2 rs3 b1 b2 : writes rs1 rs2 b1 -> writes rs2 rs3 b2 -> writes rs1 rs3 (b1 ++ b2).
Proof.
  intros (I2 & S2 & P2 & ps2 & E2 & F2 & C2) (I3 & S3 & P3 & ps3 & E3 & F3 & C3). split; [exact I3|]. split; [exact (same_input_trans _ _ _ S2 S3)|].
  split; [rewrite length_app; Z.div_mod_to_equations; lia|].
  exists (ps2 ++ ps3). rewrite map_app, !concat_app, E3, E2, <- !app_assoc. split; [reflexivity|]. split; [apply Forall_app; auto|]. rewrite C3, app_assoc, C2, <- app_assoc. reflexivity.
Qed.

Lemma produce_writes rs bs : rec_inv rs -> Forall is_byte bs -> out_finger (ro rs) + Z.of_nat (length bs) <= out_boundry (ro rs) ->
  exists rs', produce rs bs = Some rs' /\ writes rs rs' bs /\
    out_finger (ro rs') = out_finger (ro rs) + Z.of_nat (length bs) /\ out_boundry (ro rs') = out_boundry (ro rs).
Proof.
  intros Hi Hb Hl. destruct (produce_spec rs bs Hi Hb Hl) as (rs' & E & Hi' & Hs & Hsent & Hfrag & Hfin). exists rs'. split; [exact E|]. split; [|exact Hfin].
  split; [exact Hi'|]. split; [exact Hs|]. split; [replace (_ - _ - _) with 0 by lia; reflexivity|]. exists []. cbn [map concat app]. rewrite app_nil_r. split; [exact Hsent|]. split; [constructor|exact Hfrag].
Qed.

(** A full buffer is sent in the middle of the record. *)
Lemma flush_writes rs : rec_inv rs -> out_finger (ro rs) mod 4 = 0 -> out_boundry (ro rs) < out_finger (ro rs) + 4 ->
  exists rs', flush_out A writeit (set_frag_sent rs true) false = Some (rs', true) /\ writes rs rs' [] /\ out_finger (ro rs') + 4 <= out_boundry (ro rs') /\ out_finger (ro rs') mod 4 = 0.
Proof.
  intros Hi Hal Hfull. destruct (set_frag_sent_spec rs true Hi) as (Hi1 & Hs1 & Hse1 & Hfr1).
  destruct (flush_out_spec _ false Hi1) as (rs' & E & Hi' & Hs' & Hsent & Hfrag & Hfin & Hhd & Hbase & Hbd). exists rs'. split; [exact E|].
  rewrite Hse1, Hfr1 in Hsent. pose proof (rv_out _ Hi'). pose proof (frag_length rs Hi). pose proof Hi as [].
  assert (out_finger (ro rs') mod 4 = 0) as Hal' by (rewrite Hfin, Z.add_mod, (rv_al_base _ Hi') by lia; reflexivity). split; [|split; [lia|exact Hal']].
  split; [exact Hi'|]. split; [exact (same_input_trans _ _ _ Hs1 Hs')|]. split; [cbn [length]; Z.div_mod_to_equations; lia|]. exists [frag rs]. cbn [map concat]. rewrite Hfrag, !app_nil_r. split; [exact Hsent|]. split; [|reflexivity].
  constructor; [|constructor]. unfold part_ok. destruct (Z.eq_dec (out_finger (ro rs)) (frag_header (ro rs) + 4)); lia.
Qed.

Lemma produce_unit_writes rs v : rec_inv rs -> out_finger (ro rs) mod 4 = 0 -> out_finger (ro rs) + 4 <= out_boundry (ro rs) ->
  exists rs', produce_unit A rs v = Some rs' /\ writes rs rs' (be32 v).
Proof.
  intros Hi Hal Hroom. unfold produce_unit. rewrite Hal, store_unit. cbn [Z.eqb].
  destruct (produce_writes rs (be32 v) Hi (be32_byte v) ltac:(rewrite length_be32; lia)) as (rs' & -> & Hw & _). eauto.
Qed.

Lemma putlong_writes rs v : rec_inv rs -> out_finger (ro rs) mod 4 = 0 -> exists rs', xdrrec_putlong A writeit rs v = Some (rs', true) /\ writes rs rs' (be32 v).
Proof.
  intros Hi Hal. unfold xdrrec_putlong, BYTES_PER_XDR_UNIT. destruct (Z.ltb_spec (out_boundry (ro rs)) (out_finger (ro rs) + 4)) as [H|H].
  - destruct (flush_writes rs Hi Hal H) as (rs1 & -> & Hw1 & Hroom & Hal1). cbn [negb]. destruct (produce_unit_writes rs1 v (proj1 Hw1) Hal1 Hroom) as (rs' & -> & Hw').
    exists rs'. split; [reflexivity|]. exact (writes_trans _ _ _ _ _ Hw1 Hw').
  - destruct (produce_unit_writes rs v Hi Hal ltac:(lia)) as (rs' & -> & Hw'). eauto.
Qed.

Lemma writes_nil rs : rec_inv rs -> writes rs rs [].
Proof. intros Hi. split; [exact Hi|]. split; [repeat split|]. split; [cbn [length]; rewrite Z.sub_diag; reflexivity|]. exists []. cbn [map concat app]. rewrite !app_nil_r. auto. Qed.

Lemma putbytes_writes fuel : forall rs bs, rec_inv rs -> Forall is_byte bs ->
  (length bs + (if (out_finger (ro rs) =? out_boundry (ro rs))%Z then 1 else 0) <= fuel)%nat \/ bs = [] ->
  exists rs', putbytes_loop A writeit fuel rs bs = Some (rs', true) /\ writes rs rs' bs.
Proof.
  induction fuel as [|fuel IH]; intros rs bs Hi Hb Hf; cbn [putbytes_loop]; (destruct (Z.leb_spec (Z.of_nat (length bs)) 0) as [H0|H0];
    [destruct bs; [|cbn [length] in H0; lia]; exists rs; auto using writes_nil|]); (destruct Hf as [Hf| ->]; [|cbn [length] in H0; lia]); [lia|].
  pose proof Hi as []. assert (u32 (out_boundry (ro rs) - out_finger (ro rs)) = out_boundry (ro rs) - out_finger (ro rs)) as -> by (apply uwrap_small; lia).
  set (cur := if _ <? _ then _ else _). assert (cur = Z.min (Z.of_nat (length bs)) (out_boundry (ro rs) - out_finger (ro rs))) as Hcur by (subst cur; destruct (Z.ltb_spec (Z.of_nat (length bs)) (out_boundry (ro rs) - out_finger (ro rs))); lia).
  clearbody cur. destruct (split_front bs (Z.to_nat cur) ltac:(lia)) as (b1 & b2 & -> & Hl1). rewrite <- Hl1, take_app_length, drop_app_length. rewrite length_app in *. apply Forall_app in Hb as [Hb1 Hb2].
  destruct (produce_writes rs b1 Hi Hb1 ltac:(lia)) as (rs1 & -> & Hw1 & Hfin & Hbd).
  destruct (Z.eqb_spec (out_finger (ro rs1)) (out_boundry (ro rs1))) as [E|E], (Z.ltb_spec 0 (Z.of_nat (length b2))) as [H2|H2]; cbn [andb].
  - destruct (flush_writes rs1 (proj1 Hw1) ltac:(rewrite E; apply (rv_al_boundry _ (proj1 Hw1))) ltac:(lia)) as (rs2 & -> & Hw2 & Hroom & _). cbn [negb].
    destruct (IH rs2 b2 (proj1 Hw2) Hb2) as (rs' & -> & Hw'); [left; rewrite (proj2 (Z.eqb_neq (out_finger (ro rs2)) _)) by lia; destruct (Z.eqb_spec (out_finger (ro rs)) (out_boundry (ro rs))); lia|].
    exists rs'. split; [reflexivity|]. apply (writes_trans _ _ _ _ _ Hw1). exact (writes_trans _ _ _ [] b2 Hw2 Hw').
  - assert (b2 = []) as -> by (destruct b2; [reflexivity|cbn [length] in H2; lia]). destruct (IH rs1 [] (proj1 Hw1) Hb2) as (rs' & -> & Hw'); [auto|]. exists rs'. split; [reflexivity|]. exact (writes_trans _ _ _ _ _ Hw1 Hw').
  - exfalso. lia.
  - assert (b2 = []) as -> by (destruct b2; [reflexivity|cbn [length] in H2; lia]). destruct (IH rs1 [] (proj1 Hw1) Hb2) as (rs' & -> & Hw'); [auto|]. exists rs'. split; [reflexivity|]. exact (writes_trans _ _ _ _ _ Hw1 Hw').
Qed.

(** The end of a record, sent now or left in the buffer behind a new header: outside the case of a buffer
    with five to seven bytes left, which whole units never leave. *)
Lemma endofrecord_spec rs sendnow : rec_inv rs -> sendnow = true \/ (out_boundry (ro rs) - out_finger (ro rs)) mod 4 = 0 ->
  exists rs', xdrrec_endofrecord A writeit rs sendnow = Some (rs', true) /\ rec_inv rs' /\ same_input rs rs' /\
    sent rs' = sent rs ++ frag_bytes true (frag rs) /\ frag rs' = [] /\ (sendnow = true -> outgoing (world rs') = sent rs').
Proof.
  intros Hi Hal. unfold xdrrec_endofrecord, BYTES_PER_XDR_UNIT. set (now := _ || _ || _). destruct now eqn:Hnow; subst now.
  - destruct (set_frag_sent_spec rs false Hi) as (Hi1 & Hs1 & Hse1 & Hfr1). destruct (flush_out_spec _ true Hi1) as (rs' & E & Hi' & Hs' & Hsent & Hfrag & Hfin & Hhd & _).
    exists rs'. rewrite <- Hse1, <- Hfr1. split; [exact E|]. split; [exact Hi'|]. split; [exact (same_input_trans _ _ _ Hs1 Hs')|]. split; [exact Hsent|]. split; [exact Hfrag|].
    intros _. unfold sent. rewrite Hhd, region_empty, app_nil_r. reflexivity.
  - apply orb_false_iff in Hnow as [Hnow Hroom]. apply orb_false_iff in Hnow as [-> _]. apply Z.leb_gt in Hroom. destruct Hal as [|Hal]; [discriminate|].
    destruct (header_spec rs true Hi) as (m' & E & Hwf' & Hmap & Hsame & Hreg). unfold BYTES_PER_XDR_UNIT in E. rewrite E. pose proof Hi as []. assert (out_finger (ro rs) mod 4 = 0) as Hfa by (clear -Hal rv_al_boundry0; Z.div_mod_to_equations; lia). apply Z.mod_divide in Hal as [k Hk]; [|lia].
    eexists. split; [reflexivity|]. split; [split; cbn [with_out r_mem ro ri out_base out_finger out_boundry frag_header]; auto; lia|]. split; [|split; [|split; [|discriminate]]].
    + unfold same_input, input. cbn [with_out r_mem ri world r_op]. rewrite Hsame by lia. auto.
    + unfold sent. cbn [with_out r_mem ro world out_base frag_header]. rewrite Hreg, app_assoc. reflexivity.
    + unfold frag. cbn [with_out r_mem ro out_finger frag_header]. apply region_empty.
Qed.

(** ** Creation *)

Lemma fix_buf_size_range s : 0 <= s < 2 ^ 31 - 4 -> 100 <= fix_buf_size s < 2 ^ 31 /\ fix_buf_size s mod 4 = 0.
Proof.
  intros Hs. unfold fix_buf_size, RNDUP, BYTES_PER_XDR_UNIT. set (v := if s <? 100 then 4000 else s).
  assert (100 <= v < 2 ^ 31 - 4) as Hv by (subst v; destruct (Z.ltb_spec s 100); lia). clearbody v.
  assert (u32 (v + 4 - 1) = v + 3) as -> by (unfold u32; rewrite uwrap_small; lia). change (4 - 1) with (Z.ones 2). rewrite Z.ldiff_ones_r, Z.shiftr_div_pow2, Z.shiftl_mul_pow2 by lia.
  change (2 ^ 2) with 4. pose proof (Z.div_mod (v + 3) 4 ltac:(lia)). pose proof (Z.mod_pos_bound (v + 3) 4 ltac:(lia)). rewrite Z.mod_mul by lia. lia.
Qed.

(** The sizes that a stream can be created with: the size of the buffer does not wrap. *)
Definition sizes_ok (ss rs : Z) : Prop := 0 <= ss < 2 ^ 31 - 4 /\ 0 <= rs < 2 ^ 31 - 4.

Definition alloc_size (ss rs : Z) : Z := u32 (fix_buf_size ss + fix_buf_size rs + BYTES_PER_XDR_UNIT).

Lemma create_spec m w op ss rcv strm buf :
  wf_mem m -> sizes_ok ss rcv -> mapped m buf (buf + alloc_size ss rcv) ->
  exists rs, xdrrec_create m w op ss rcv (Some strm) (Some buf) = Some rs /\ rec_inv rs /\ r_op rs = op /\ world rs = w /\
    sent rs = outgoing w /\ frag rs = [] /\ input rs = incoming w /\ fbtbc (ri rs) = 0 /\ last_frag (ri rs) = true /\
    out_finger (ro rs) mod 4 = 0 /\ in_finger (ri rs) mod 4 = 0.
Proof.
  intros Hwf [Hs Hr] Hmap. destruct (fix_buf_size_range ss Hs) as [Hs' Hs4], (fix_buf_size_range rcv Hr) as [Hr' Hr4]. unfold xdrrec_create.
  eexists. split; [reflexivity|]. set (tmp := if _ =? 0 then _ else _).
  assert (alloc_size ss rcv = fix_buf_size ss + fix_buf_size rcv + 4) as Ea.
  { apply uwrap_small. apply Z.mod_divide in Hs4 as [k Hk]; [|lia]. apply Z.mod_divide in Hr4 as [j Hj]; [|lia]. unfold BYTES_PER_XDR_UNIT. lia. }
  assert (buf <= tmp <= buf + 4) as Htmp by (subst tmp; unfold BYTES_PER_XDR_UNIT; pose proof (Z.mod_pos_bound buf 4 ltac:(lia)); destruct (_ =? 0); lia).
  assert (tmp mod 4 = 0) as Ht4 by (subst tmp; unfold BYTES_PER_XDR_UNIT; destruct (Z.eqb_spec (buf mod 4) 0); [assumption|Z.div_mod_to_equations; lia]). clearbody tmp. rewrite Ea in Hmap.
  assert (forall x y, x mod 4 = 0 -> y mod 4 = 0 -> (x + y) mod 4 = 0) as Hadd by (intros x y Hx Hy; rewrite Z.add_mod, Hx, Hy by lia; reflexivity).
  split; [|unfold sent, frag, input; cbn [r_op world r_mem ro ri out_base out_finger frag_header in_finger in_boundry fbtbc last_frag]; rewrite !region_empty, app_nil_r; auto 15].
  split; cbn [r_mem ro ri out_base out_finger out_boundry frag_header in_size in_base in_finger in_boundry fbtbc]; try (assumption || lia || (apply Hadd; assumption)); eapply mapped_sub; [exact Hmap|lia|lia|exact Hmap|lia|lia].
Qed.
End Stream.
