(* ===== verification/XdrConn.v ===== *)
(** Objects through a connection: record streams (sunrpc/xdr_rec.c) keep the promises of [XdrStream] that
    the filters of xdr.c rely on, and a sequence of records that one end sends is what the other decodes. *)
From S2P Require Import Prelude CMem Byteswap Xdr XdrMem XdrRec XdrRecord.

#[local] Opaque be32.

(** * The stream interface *)

Section Interface.
Context (A : arch) {W : Type}.
Context (readit : W -> Z -> W * option (list Z)) (writeit : W -> list Z -> W * Z) `{!Connection readit writeit}.

(** In the middle of the records: [sent0] was sent when the record that is written began, [later] follows the
    record that is read, and [budget] bytes may be written. *)
Context (sent0 later : list Z) (budget : Z).

Definition rec_avail (rs : RECSTREAM W) : list Z :=
  take (Z.to_nat (fbtbc (ri rs))) (input readit writeit rs) ++
  (if last_frag (ri rs) then [] else frag_data (length (input readit writeit rs)) (drop (Z.to_nat (fbtbc (ri rs))) (input readit writeit rs))).

Definition rec_written (rs : RECSTREAM W) : list Z :=
  let d := drop (length sent0) (sent readit writeit rs) in frag_data (length d) d ++ frag rs.

Definition rec_stream_inv (rs : RECSTREAM W) : Prop :=
  rec_inv rs /\ (exists data, in_record (fbtbc (ri rs)) (last_frag (ri rs)) (input readit writeit rs) data later) /\
  (exists ps, sent readit writeit rs = sent0 ++ concat (map (frag_bytes false) ps) /\ Forall part_ok ps) /\
  Z.of_nat (length (rec_written rs)) <= budget.

(** How far the position is from a unit: the finger of the buffer that the stream works on. *)
Definition rec_phase (k : Z) (rs : RECSTREAM W) : Prop :=
  match r_op rs with
  | XDR_ENCODE => (out_finger (ro rs) - k) mod 4 = 0
  | XDR_DECODE => (in_finger (ri rs) - k) mod 4 = 0
  | XDR_FREE => True
  end.

Lemma avail_record rs data : in_record (fbtbc (ri rs)) (last_frag (ri rs)) (input readit writeit rs) data later -> rec_avail rs = data.
Proof. intros H. apply (in_record_data _ _ _ _ _ H). lia. Qed.

Lemma written_parts rs ps : sent readit writeit rs = sent0 ++ concat (map (frag_bytes false) ps) -> Forall part_ok ps -> rec_written rs = concat ps ++ frag rs.
Proof. intros E Hp. unfold rec_written. rewrite E, drop_app_length, frag_data_parts by (exact Hp || lia). reflexivity. Qed.

(** A write moves the stream on. *)
Lemma writes_stream rs rs' bs : rec_stream_inv rs -> Z.of_nat (length bs) <= budget - Z.of_nat (length (rec_written rs)) ->
  writes readit writeit rs rs' bs ->
  rec_stream_inv rs' /\ r_op rs' = r_op rs /\ budget - Z.of_nat (length (rec_written rs')) = budget - Z.of_nat (length (rec_written rs)) - Z.of_nat (length bs) /\
    rec_written rs' = rec_written rs ++ bs.
Proof.
  intros (Hi & (data & Hd) & (ps & Hs & Hp) & Hbud) Hl (Hi' & (Hop & Hri & Hin) & _ & ps' & Hs' & Hp' & Hc).
  assert (sent readit writeit rs' = sent0 ++ concat (map (frag_bytes false) (ps ++ ps'))) as E by (rewrite Hs', Hs, map_app, concat_app, app_assoc; reflexivity).
  assert (rec_written rs' = rec_written rs ++ bs) as Hw.
  { rewrite (written_parts rs' _ E), (written_parts rs ps Hs Hp) by (apply Forall_app; auto). rewrite concat_app, <- !app_assoc, Hc. reflexivity. }
  rewrite Hw, length_app. split; [|split; [exact Hop|split; [lia|reflexivity]]].
  split; [exact Hi'|]. split; [exists data; rewrite Hri, Hin; exact Hd|]. split; [exists (ps ++ ps'); split; [exact E|apply Forall_app; auto]|]. rewrite Hw, length_app. lia.
Qed.

Lemma writes_phase k rs rs' bs : r_op rs = XDR_ENCODE -> rec_phase k rs -> writes readit writeit rs rs' bs -> rec_phase (k + Z.of_nat (length bs)) rs'.
Proof. unfold rec_phase. intros Ho Hk (_ & (Hop & _) & Hp & _). rewrite Hop, Ho in *. Z.div_mod_to_equations. lia. Qed.

(** The headers between the bytes of a record are whole units. *)
Lemma in_record_phase fb last inp data lat : in_record fb last inp data lat -> Z.of_nat (length inp) mod 4 = (Z.of_nat (length data) + Z.of_nat (length lat)) mod 4.
Proof.
  induction 1 as [bs lat|bs last n inp data lat Hn Hl H IH]; rewrite !length_app; [f_equal; lia|]. rewrite length_be32. clear -IH. Z.div_mod_to_equations. lia.
Qed.

Lemma reads_phase k rs rs' bs rest : r_op rs = XDR_DECODE -> rec_phase k rs -> same_output readit writeit rs rs' ->
  in_record (fbtbc (ri rs)) (last_frag (ri rs)) (input readit writeit rs) (bs ++ rest) later ->
  in_record (fbtbc (ri rs')) (last_frag (ri rs')) (input readit writeit rs') rest later -> rec_phase (k + Z.of_nat (length bs)) rs'.
Proof.
  unfold rec_phase. intros Ho Hk (Hop & _ & _ & _ & Hp) H H'. rewrite Hop, Ho in *. apply in_record_phase in H, H'. rewrite length_app in H. unfold in_phase in Hp.
  clear -Hk Hp H H'. Z.div_mod_to_equations. lia.
Qed.

Lemma phase_unit_in rs : rec_phase 0 rs -> r_op rs = XDR_DECODE -> in_finger (ri rs) mod 4 = 0.
Proof. unfold rec_phase. intros H Ho. rewrite Ho, Z.sub_0_r in H. exact H. Qed.

Lemma phase_unit_out rs : rec_phase 0 rs -> r_op rs = XDR_ENCODE -> out_finger (ro rs) mod 4 = 0.
Proof. unfold rec_phase. intros H Ho. rewrite Ho, Z.sub_0_r in H. exact H. Qed.

Lemma rec_phase_any rs : exists k, rec_phase k rs.
Proof.
  unfold rec_phase. destruct (r_op rs); [exists (out_finger (ro rs))|exists (in_finger (ri rs))|exists 0; exact I]; rewrite Z.sub_diag; reflexivity.
Qed.

Lemma rec_phase_mod j k rs : (j - k) mod 4 = 0 -> rec_phase j rs -> rec_phase k rs.
Proof. unfold rec_phase. intros Hk. destruct (r_op rs); [| |auto]; intros H; clear -Hk H; Z.div_mod_to_equations; lia. Qed.

(** A read moves the stream on. *)
Lemma reads_stream rs rs' rest : rec_stream_inv rs -> rec_inv rs' -> same_output readit writeit rs rs' ->
  in_record (fbtbc (ri rs')) (last_frag (ri rs')) (input readit writeit rs') rest later ->
  rec_stream_inv rs' /\ r_op rs' = r_op rs /\ rec_avail rs' = rest.
Proof.
  intros (Hi & _ & Hw & Hbud) Hi' (Hop & Hro & Hs & Hf & _) Hin. split; [|auto using avail_record].
  split; [exact Hi'|]. split; [eauto|]. unfold rec_written. rewrite Hs, Hf. auto.
Qed.

Lemma input_bytes rs : rec_inv rs -> Forall is_byte (input readit writeit rs).
Proof.
  intros []. apply Forall_app. split; [|apply incoming_bytes].
  destruct (region_mapped (r_mem rs) (in_finger (ri rs)) (in_boundry (ri rs))) as [Hb _]; [lia|eapply mapped_sub; [exact rv_map_in|lia|lia]|]. exact (bytes_at_wf _ _ _ rv_wf Hb).
Qed.

Lemma rec_avail_bytes rs : rec_inv rs -> Forall is_byte (rec_avail rs).
Proof.
  intros Hi. pose proof (input_bytes rs Hi) as H. apply Forall_app. split; [apply Forall_take, H|]. destruct (last_frag (ri rs)); [constructor|apply frag_data_bytes, Forall_drop, H].
Qed.

#[export, program] Instance xdrrec_stream : @XdrStream (RECSTREAM W) (xdrrec_ops A readit writeit) := {
  stream_at k rs := rec_stream_inv rs /\ rec_phase k rs;
  avail := rec_avail;
  room rs := budget - Z.of_nat (length (rec_written rs));
  bounded := False;
  written := rec_written
}.
Next Obligation. intros j k rs Hk [Hs Hp]. split; [exact Hs|exact (rec_phase_mod j k rs Hk Hp)]. Qed.
Next Obligation.
  intros rs v [Hs Hp] Ho Hr. simpl in *. destruct (putlong_writes A readit writeit rs v (proj1 Hs) (phase_unit_out rs Hp Ho)) as (rs' & -> & Hw). exists rs'. split; [reflexivity|].
  destruct (writes_stream rs rs' (be32 v) Hs ltac:(rewrite length_be32; lia) Hw) as (? & ? & HR & ?). pose proof (writes_phase 0 rs rs' _ Ho Hp Hw) as Hp'. rewrite length_be32 in HR, Hp'.
  split; [split; [assumption|exact (rec_phase_mod 4 0 rs' eq_refl Hp')]|auto].
Qed.
Next Obligation. intros rs v []. Qed.
Next Obligation.
  intros k rs bs [Hs Hp] Ho Hb Hr. simpl in *. unfold xdrrec_putbytes.
  destruct (putbytes_writes A readit writeit (2 * length bs) rs bs (proj1 Hs) Hb) as (rs' & -> & Hw); [destruct bs; [auto|left; cbn [length]; destruct (_ =? _); lia]|].
  exists rs'. split; [reflexivity|]. destruct (writes_stream rs rs' bs Hs ltac:(lia) Hw) as (? & ? & ?). split; [split; [assumption|exact (writes_phase k rs rs' bs Ho Hp Hw)]|auto].
Qed.
Next Obligation. intros k rs bs []. Qed.
Next Obligation.
  intros rs bs rest [Hs Hp] Ho Ha Hl. simpl in *. pose proof Hs as (Hi & (data & Hd) & _). pose proof (rec_avail_bytes rs Hi) as Hb. rewrite Ha in Hb. apply Forall_app in Hb as [Hb _].
  rewrite (avail_record _ _ Hd) in Ha. subst data. destruct (getlong_spec A readit writeit rs bs rest later Hi (phase_unit_in rs Hp Ho) Hd Hl Hb) as (rs' & -> & Hi' & Hso & Hr).
  exists rs'. split; [reflexivity|]. destruct (reads_stream _ _ _ Hs Hi' Hso Hr) as (? & ? & ?). pose proof (reads_phase 0 rs rs' bs rest Ho Hp Hso Hd Hr) as Hp'. rewrite Hl in Hp'.
  split; [split; [assumption|exact (rec_phase_mod 4 0 rs' eq_refl Hp')]|auto].
Qed.
Next Obligation.
  intros rs [Hs Hp] Ho Hl. simpl in *. pose proof Hs as (Hi & (data & Hd) & _). rewrite (avail_record _ _ Hd) in *.
  destruct (getlong_short_spec A readit writeit rs data later Hi Hd Hl) as (rs' & -> & Hi' & Hso & Hr). destruct (rec_phase_any rs') as [k Hk].
  destruct (reads_stream _ _ _ Hs Hi' Hso Hr) as (H1 & H2 & H3). exists k, rs', data. rewrite H3, app_nil_r. auto.
Qed.
Next Obligation.
  intros k rs bs rest [Hs Hp] Ho Ha. simpl in *. pose proof Hs as (Hi & (data & Hd) & _). rewrite (avail_record _ _ Hd) in Ha. subst data. unfold xdrrec_getbytes.
  destruct (getbytes_loop_spec A readit writeit (2 * Z.to_nat (Z.of_nat (length bs)) + 2) rs bs rest later [] Hi Hd ltac:(lia)) as (rs' & -> & Hi' & Hso & Hr).
  exists rs'. split; [reflexivity|]. destruct (reads_stream _ _ _ Hs Hi' Hso Hr) as (? & ? & ?). split; [split; [assumption|exact (reads_phase k rs rs' bs rest Ho Hp Hso Hd Hr)]|auto].
Qed.
Next Obligation.
  intros k rs n [Hs Hp] Ho Hl. simpl in *. pose proof Hs as (Hi & (data & Hd) & _). rewrite (avail_record _ _ Hd) in *. unfold xdrrec_getbytes.
  destruct (getbytes_loop_short A readit writeit (2 * Z.to_nat n + 2) rs data later n [] Hi Hd Hl) as (rs' & -> & Hi' & Hso & Hr); [destruct (_ && _), (_ =? 0); lia|].
  destruct (rec_phase_any rs') as [j Hj]. destruct (reads_stream _ _ _ Hs Hi' Hso Hr) as (H1 & H2 & H3). exists j, rs', data. rewrite H3, app_nil_r. auto.
Qed.
Next Obligation. intros k rs [Hs _]. apply rec_avail_bytes, Hs. Qed.
Next Obligation. intros k rs [(_ & _ & _ & Hs) _]. simpl. lia. Qed.
End Interface.

(** * Sequences of records *)

(** One end writes each object as a record of its own, as clnttcp_call and svctcp_reply do for one message. *)
Section Send.
Context (A : arch) {W : Type} (writeit : W -> list Z -> W * Z) {T : Type} (f : RECSTREAM W -> T -> option (RECSTREAM W * T * bool)).

Fixpoint send_records (rs : RECSTREAM W) (vs : list T) : option (RECSTREAM W * bool) :=
  match vs with
  | [] => Some (rs, true)
  | v :: vs =>
      let? '(rs, _, ok) := f rs v in
      if negb ok then Some (rs, false) else
      let? '(rs, ok) := xdrrec_endofrecord A writeit rs true in
      if negb ok then Some (rs, false) else send_records rs vs
  end.
End Send.

(** The other end goes to the next record and decodes it into an object of its own. *)
Section Receive.
Context (A : arch) {W : Type} (readit : W -> Z -> W * option (list Z)) {T : Type} (f : RECSTREAM W -> T -> option (RECSTREAM W * T * bool)).

Fixpoint recv_records (fuel : nat) (rs : RECSTREAM W) (vs : list T) : option (RECSTREAM W * list T * bool) :=
  match vs with
  | [] => Some (rs, [], true)
  | v :: vs =>
      let? '(rs, ok) := xdrrec_skiprecord A readit fuel rs in
      if negb ok then Some (rs, v :: vs, false) else
      let? '(rs, v, ok) := f rs v in
      if negb ok then Some (rs, v :: vs, false) else
      let? '(rs, vs, ok) := recv_records fuel rs vs in
      Some (rs, v :: vs, ok)
  end.
End Receive.

(** The records of a list of objects, with any division into fragments. *)
Inductive on_wire {T} (wire : T -> list Z) : list T -> list Z -> Prop :=
  | wire_nil : on_wire wire [] []
  | wire_cons v vs ps p bs : Forall part_ok ps -> Z.of_nat (length p) < 2 ^ 31 -> concat ps ++ p = wire v ->
      on_wire wire vs bs -> on_wire wire (v :: vs) (record_bytes ps p ++ bs).

Section Records.
Context (A : arch) {W : Type}.
Context (readit : W -> Z -> W * option (list Z)) (writeit : W -> list Z -> W * Z) `{!Connection readit writeit}.
Context {T : Type} (f : RECSTREAM W -> T -> option (RECSTREAM W * T * bool)) (dom : T -> Prop) (init : T -> T -> Prop) (wire : T -> list Z).
Hypothesis f_codec : forall sent0 later budget,
  @Codec (RECSTREAM W) (xdrrec_ops A readit writeit) (xdrrec_stream A readit writeit sent0 later budget) T f dom init wire.

(** An empty fragment begins at a unit. *)
Lemma frag_nil_aligned (rs : RECSTREAM W) : rec_inv rs -> frag rs = [] -> out_finger (ro rs) mod 4 = 0.
Proof. intros Hi Hf. pose proof (frag_length rs Hi) as Hl. rewrite Hf in Hl. cbn [length] in Hl. pose proof (rv_al_header _ Hi). Z.div_mod_to_equations. lia. Qed.

(** A record begins. *)
Lemma record_start rs data later : rec_inv rs -> in_record (fbtbc (ri rs)) (last_frag (ri rs)) (input readit writeit rs) data later ->
  forall budget, Z.of_nat (length (frag rs)) <= budget ->
  rec_stream_inv readit writeit (sent readit writeit rs) later budget rs /\ rec_written readit writeit (sent readit writeit rs) rs = frag rs.
Proof.
  intros Hi Hin budget Hb. assert (rec_written readit writeit (sent readit writeit rs) rs = frag rs) as E.
  { apply (written_parts readit writeit _ rs []); [symmetry; apply app_nil_r|constructor]. }
  split; [|exact E]. split; [exact Hi|]. split; [eauto|]. split; [|rewrite E; exact Hb]. exists []. split; [symmetry; apply app_nil_r|constructor].
Qed.

Lemma send_one rs data later v : rec_inv rs -> in_record (fbtbc (ri rs)) (last_frag (ri rs)) (input readit writeit rs) data later -> frag rs = [] ->
  r_op rs = XDR_ENCODE -> dom v ->
  exists rs1 rs' data' ps p, f rs v = Some (rs1, v, true) /\ xdrrec_endofrecord A writeit rs1 true = Some (rs', true) /\
    rec_inv rs' /\ in_record (fbtbc (ri rs')) (last_frag (ri rs')) (input readit writeit rs') data' later /\ frag rs' = [] /\ r_op rs' = XDR_ENCODE /\
    outgoing (world rs') = sent readit writeit rs' /\ sent readit writeit rs' = sent readit writeit rs ++ record_bytes ps p /\
    Forall part_ok ps /\ Z.of_nat (length p) < 2 ^ 31 /\ concat ps ++ p = wire v.
Proof.
  intros Hi Hin Hf Hop Hv. destruct (record_start rs data later Hi Hin (Z.of_nat (length (wire v)))) as [Hs Hw]; [rewrite Hf; cbn [length]; lia|].
  assert (rec_phase 0 rs) as Hph by (unfold rec_phase; rewrite Hop, Z.sub_0_r; apply frag_nil_aligned; assumption).
  destruct (codec_enc (Codec := f_codec _ later (Z.of_nat (length (wire v)))) rs v (conj Hs Hph) Hop Hv) as (rs1 & E & (Hs1 & _) & Hop1 & _ & Hw1).
  { cbn [room xdrrec_stream]. rewrite Hw, Hf. cbn [length]. lia. }
  destruct Hs1 as (Hi1 & (data' & Hd') & (ps & Hsent & Hp) & _). cbn [written xdrrec_stream] in Hw1. rewrite (written_parts _ _ _ _ ps Hsent Hp), Hw, Hf in Hw1. cbn [app] in Hw1.
  destruct (endofrecord_spec A readit writeit rs1 true Hi1 (or_introl eq_refl)) as (rs' & E' & Hi' & (Hop' & Hri' & Hin') & Hsent' & Hf' & Hout).
  exists rs1, rs', data', ps, (frag rs1). split; [exact E|]. split; [exact E'|]. split; [exact Hi'|]. split; [rewrite Hri', Hin'; exact Hd'|]. split; [exact Hf'|].
  split; [rewrite Hop'; transitivity (r_op rs); [exact Hop1|exact Hop]|]. split; [exact (Hout eq_refl)|]. split; [rewrite Hsent', Hsent; unfold record_bytes; rewrite <- app_assoc; reflexivity|].
  split; [exact Hp|]. split; [|exact Hw1]. pose proof (frag_length rs1 Hi1). destruct Hi1. lia.
Qed.

Lemma send_records_spec vs : forall rs data later, rec_inv rs -> in_record (fbtbc (ri rs)) (last_frag (ri rs)) (input readit writeit rs) data later -> frag rs = [] ->
  r_op rs = XDR_ENCODE -> outgoing (world rs) = sent readit writeit rs -> Forall dom vs ->
  exists rs' bs, send_records A writeit f rs vs = Some (rs', true) /\ outgoing (world rs') = outgoing (world rs) ++ bs /\ on_wire wire vs bs.
Proof.
  induction vs as [|v vs IH]; intros rs data later Hi Hin Hf Hop Hout Hv; cbn [send_records].
  { exists rs, []. rewrite app_nil_r. auto using @on_wire. }
  inversion_clear Hv as [|? ? Hv0 Hvs]. destruct (send_one rs data later v Hi Hin Hf Hop Hv0) as (rs1 & rs2 & d2 & ps & p & -> & E2 & Hi2 & Hd2 & Hf2 & Hop2 & Hout2 & Hs2 & Hps & Hp & Hw).
  cbn [negb]. rewrite E2. cbn [negb]. destruct (IH rs2 d2 later Hi2 Hd2 Hf2 Hop2 Hout2 Hvs) as (rs' & bs & -> & Ho' & Hbs).
  exists rs', (record_bytes ps p ++ bs). split; [reflexivity|]. split; [rewrite Ho', Hout2, Hs2, Hout, <- app_assoc; reflexivity|]. constructor; assumption.
Qed.

(** Going to the next record keeps the position at a unit if the rest that is skipped does. *)
Lemma skip_aligned rs rs' data later data' later' : (in_finger (ri rs) + Z.of_nat (length data)) mod 4 = 0 -> same_output readit writeit rs rs' ->
  in_record (fbtbc (ri rs)) (last_frag (ri rs)) (input readit writeit rs) data later -> in_record 0 false later data' later' ->
  in_record (fbtbc (ri rs')) (last_frag (ri rs')) (input readit writeit rs') data' later' -> in_finger (ri rs') mod 4 = 0.
Proof.
  intros Hal (_ & _ & _ & _ & Hp) H1 H2 H3. apply in_record_phase in H1, H2, H3. unfold in_phase in Hp. clear -Hal Hp H1 H2 H3. Z.div_mod_to_equations. lia.
Qed.

Lemma recv_one fuel rs data ps p later v0 v : rec_inv rs -> r_op rs = XDR_DECODE -> (in_finger (ri rs) + Z.of_nat (length data)) mod 4 = 0 ->
  in_record (fbtbc (ri rs)) (last_frag (ri rs)) (input readit writeit rs) data (record_bytes ps p ++ later) -> (length (input readit writeit rs) < fuel)%nat ->
  Forall part_ok ps -> Z.of_nat (length p) < 2 ^ 31 -> concat ps ++ p = wire v -> dom v -> init v0 v ->
  exists rs1 rs', xdrrec_skiprecord A readit fuel rs = Some (rs1, true) /\ f rs1 v0 = Some (rs', v, true) /\ rec_inv rs' /\ r_op rs' = XDR_DECODE /\ in_finger (ri rs') mod 4 = 0 /\
    in_record (fbtbc (ri rs')) (last_frag (ri rs')) (input readit writeit rs') [] later.
Proof.
  intros Hi Hop Hal Hin Hfu Hps Hp Hw Hv Hv0. pose proof (record_bytes_in ps p later Hps Hp) as Hrec. rewrite Hw in Hrec.
  destruct (skiprecord_spec A readit writeit fuel rs _ _ _ _ Hi Hin Hfu Hrec) as (rs1 & E1 & Hi1 & Ho1 & Hin1). pose proof Ho1 as (Hop1 & _).
  destruct (record_start rs1 _ _ Hi1 Hin1 (Z.of_nat (length (frag rs1))) ltac:(lia)) as [Hs1 _].
  assert (rec_phase 0 rs1) as Hph.
  { unfold rec_phase. rewrite Hop1, Hop, Z.sub_0_r. exact (skip_aligned _ _ _ _ _ _ Hal Ho1 Hin Hrec Hin1). }
  destruct (codec_dec (Codec := f_codec _ later (Z.of_nat (length (frag rs1)))) rs1 v0 v [] (conj Hs1 Hph)) as (rs' & E' & ((Hi' & (d' & Hd') & _) & Hph') & Hop' & Hav).
  { cbn [x_op xdrrec_ops]. congruence. } { exact Hv. } { exact Hv0. } { cbn [avail xdrrec_stream]. rewrite app_nil_r. exact (avail_record _ _ _ _ _ Hin1). }
  cbn [avail xdrrec_stream] in Hav. rewrite (avail_record _ _ _ _ _ Hin1), (avail_record _ _ _ _ _ Hd') in Hav. symmetry in Hav. rewrite <- (app_nil_r (wire v)) in Hav at 2. apply app_inv_head in Hav as ->.
  exists rs1, rs'. split; [exact E1|]. split; [exact E'|]. split; [exact Hi'|]. assert (r_op rs' = XDR_DECODE) as Hop2 by (cbn [x_op xdrrec_ops] in Hop'; congruence).
  split; [exact Hop2|]. split; [exact (phase_unit_in rs' Hph' Hop2)|exact Hd'].
Qed.

Lemma recv_records_spec fuel vs bs : on_wire wire vs bs -> forall rs data later vs0, rec_inv rs -> r_op rs = XDR_DECODE -> (in_finger (ri rs) + Z.of_nat (length data)) mod 4 = 0 ->
  in_record (fbtbc (ri rs)) (last_frag (ri rs)) (input readit writeit rs) data (bs ++ later) -> (length (input readit writeit rs) < fuel)%nat ->
  (4 + length (bs ++ later) < fuel)%nat -> Forall dom vs -> Forall2 init vs0 vs ->
  exists rs', recv_records A readit f fuel rs vs0 = Some (rs', vs, true).
Proof.
  induction 1 as [|v vs ps p bs Hps Hp Hw Hbs IH]; intros rs data later vs0 Hi Hop Hal Hin Hf Hf2 Hv Hv0.
  { inversion Hv0. exists rs. reflexivity. }
  inversion_clear Hv as [|? ? Hvv Hvs]. inversion_clear Hv0 as [|v0 ? vs0' ? Hv00 Hvs0]. cbn [recv_records]. rewrite <- app_assoc in Hin, Hf2. rewrite length_app in Hf2.
  destruct (recv_one fuel rs data ps p (bs ++ later) v0 v Hi Hop Hal Hin Hf Hps Hp Hw Hvv Hv00) as (rs1 & rs2 & -> & E2 & Hi2 & Hop2 & Hal2 & Hin2). cbn [negb]. rewrite E2. cbn [negb].
  pose proof (in_record_empty _ _ _ _ Hin2). destruct (IH rs2 [] later vs0' Hi2 Hop2 ltac:(cbn [length]; rewrite Z.add_0_r; exact Hal2) Hin2 ltac:(lia) ltac:(lia) Hvs Hvs0) as (rs' & ->). eauto.
Qed.
End Records.

(** * Properties *)

(** C10: record streams bring any sequence of objects through a connection.  For a
    filter that round-trips over record streams, one end creates a stream, encodes every object and
    ends its record with xdrrec_endofrecord, and none of these fails.  Another end, of the same or of
    the other byte order, with buffers of other sizes, to which the bytes that were sent arrive in
    pieces of any sizes, goes to each record with xdrrec_skiprecord and decodes it: it gets the
    objects in their order. *)
Theorem records_roundtrip {W1 W2 T} (A1 A2 : arch)
    (read1 : W1 -> Z -> W1 * option (list Z)) (write1 : W1 -> list Z -> W1 * Z) (C1 : Connection read1 write1)
    (read2 : W2 -> Z -> W2 * option (list Z)) (write2 : W2 -> list Z -> W2 * Z) (C2 : Connection read2 write2)
    (f1 : RECSTREAM W1 -> T -> option (RECSTREAM W1 * T * bool)) (f2 : RECSTREAM W2 -> T -> option (RECSTREAM W2 * T * bool)) dom init wire
    m1 w1 ss1 rs1 strm1 buf1 m2 ss2 rs2 strm2 buf2 vs vs0 :
  (forall s l b, @Codec _ (xdrrec_ops A1 read1 write1) (xdrrec_stream A1 read1 write1 s l b) T f1 dom init wire) ->
  (forall s l b, @Codec _ (xdrrec_ops A2 read2 write2) (xdrrec_stream A2 read2 write2 s l b) T f2 dom init wire) ->
  wf_mem m1 -> sizes_ok ss1 rs1 -> mapped m1 buf1 (buf1 + alloc_size ss1 rs1) ->
  wf_mem m2 -> sizes_ok ss2 rs2 -> mapped m2 buf2 (buf2 + alloc_size ss2 rs2) ->
  outgoing w1 = [] -> Forall dom vs -> Forall2 init vs0 vs ->
  exists s1 s1', xdrrec_create m1 w1 XDR_ENCODE ss1 rs1 (Some strm1) (Some buf1) = Some s1 /\
    send_records A1 write1 f1 s1 vs = Some (s1', true) /\
    forall w2 later fuel, incoming w2 = outgoing (world s1') ++ later -> (4 + length (incoming w2) < fuel)%nat ->
      exists s2 s2', xdrrec_create m2 w2 XDR_DECODE ss2 rs2 (Some strm2) (Some buf2) = Some s2 /\
        recv_records A2 read2 f2 fuel s2 vs0 = Some (s2', vs, true).
Proof.
  intros Hf1 Hf2 Hwf1 Hsz1 Hm1 Hwf2 Hsz2 Hm2 Hout Hv Hv0.
  destruct (create_spec read1 write1 m1 w1 XDR_ENCODE ss1 rs1 strm1 buf1 Hwf1 Hsz1 Hm1) as (s1 & E1 & Hi1 & Hop1 & Hw1 & Hs1 & Hfr1 & Hin1 & Hfb1 & Hla1 & _ & _).
  destruct (send_records_spec A1 read1 write1 f1 dom init wire Hf1 vs s1 [] (input read1 write1 s1)) as (s1' & bs & E1' & Hbs & Hon); auto; try congruence.
  { rewrite Hfb1, Hla1. apply (in_last []). }
  rewrite Hw1, Hout in Hbs. exists s1, s1'. split; [exact E1|]. split; [exact E1'|]. intros w2 later fuel Hw2 Hfu. rewrite Hbs in Hw2. cbn [app] in Hw2.
  destruct (create_spec read2 write2 m2 w2 XDR_DECODE ss2 rs2 strm2 buf2 Hwf2 Hsz2 Hm2) as (s2 & E2 & Hi2 & Hop2 & _ & _ & _ & Hin2 & Hfb2 & Hla2 & _ & Hal2).
  destruct (recv_records_spec A2 read2 write2 f2 dom init wire Hf2 fuel vs bs Hon s2 [] later vs0) as (s2' & E2'); auto.
  { cbn [length]. rewrite Z.add_0_r. exact Hal2. } { rewrite Hfb2, Hla2, Hin2, Hw2. apply (in_last []). } { rewrite Hin2. lia. } { rewrite Hw2 in Hfu. exact Hfu. }
  eauto.
Qed.

(** C31: a readit that answers the end of the input as the read system call does, with 0
    bytes and not with -1, is not noticed: when the input buffer is used up get_input_bytes does
    not return, however long it runs. *)
Theorem readit_eof_loops {W} (readit : W -> Z -> W * option (list Z)) (rs : RECSTREAM W) (len : Z) (acc : list Z) :
  (forall w n, snd (readit w n) = Some []) -> in_finger (ri rs) = in_boundry (ri rs) -> 0 < len ->
  forall fuel, get_input_loop readit fuel rs len acc = None.
Proof.
  intros Heof Hf Hlen fuel. revert rs Hf. induction fuel as [|fuel IH]; intros rs Hf; cbn [get_input_loop]; rewrite (proj2 (Z.leb_gt _ _)) by lia; [reflexivity|].
  rewrite Hf, Z.sub_diag. change (s32 0 =? 0) with true. cbv iota. unfold fill_input_buf.
  specialize (Heof (world rs) (s32 (in_size (ri rs) - in_boundry (ri rs) mod BYTES_PER_XDR_UNIT))). destruct (readit _ _) as [w r]. cbn [snd] in Heof. subst r.
  cbn [mem_write store_bytes flow_bind]. apply IH. cbn [with_in ri in_finger in_boundry length]. lia.
Qed.

(** C30: seeking in the input does not keep where the fragment ends.  Reading moves
    the finger up and the count of bytes to come down by the same amount, so that their sum, the end of the
    fragment, stays (xdrrec_inline is such a step); a seek of a decoding stream that succeeds moves the finger by -delta and
    the count by -delta too, so that the end is off by twice the distance. *)
Theorem xdrrec_setpos_drift {W} (lseek : W -> Z) (rs rs' : RECSTREAM W) (pos : Z) :
  r_op rs = XDR_DECODE -> xdrrec_setpos lseek rs pos = (rs', true) ->
  let delta := s32 (xdrrec_getpos lseek rs - pos) in
  let frag_end rs := in_finger (ri rs) + fbtbc (ri rs) in
  in_finger (ri rs') = in_finger (ri rs) - delta /\ frag_end rs' = frag_end rs - 2 * delta /\
  (forall n, frag_end (fst (xdrrec_inline rs n)) = frag_end rs).
Proof.
  intros Hop H delta frag_end. unfold xdrrec_setpos in H. rewrite Hop in H. fold delta in H. subst frag_end. cbv beta.
  destruct (s32 (xdrrec_getpos lseek rs) =? -1); [discriminate|]. destruct (_ && _ && _); [|discriminate]. injection H as <-.
  cbn [with_in ri in_finger fbtbc]. split; [reflexivity|]. split; [lia|]. intros n. unfold xdrrec_inline. rewrite Hop. destruct (_ && _); [|reflexivity].
  cbn [fst consume set_fbtbc with_in ri in_finger fbtbc]. lia.
Qed.

(** ** Instances *)

(** A pipe that delivers at most three bytes at a time. *)
Definition pipe : Type := list Z * list Z.
Definition pipe_in (w : pipe) : list Z := map u8 (fst w).
Definition pipe_read (w : pipe) (n : Z) : pipe * option (list Z) :=
  let k := Z.to_nat (Z.min 3 n) in ((drop k (fst w), snd w), match pipe_in w with [] => None | _ => Some (take k (pipe_in w)) end).
Definition pipe_write (w : pipe) (bs : list Z) : pipe * Z := ((fst w, snd w ++ bs), Z.of_nat (length bs)).

#[export, program] Instance pipe_connection : Connection pipe_read pipe_write := { incoming := pipe_in; outgoing := snd }.
Next Obligation. intros [i o]. apply Forall_map, Forall_true. intros z. apply (uwrap_range 8). lia. Qed.
Next Obligation.
  intros [i o] n Hne Hn. unfold pipe_read. destruct (pipe_in (i, o)) as [|b0 l0] eqn:E; [congruence|]. rewrite <- E in *. eexists _, _. split; [reflexivity|].
  unfold pipe_in in *. cbn [fst snd] in *. split; [rewrite E; destruct (Z.to_nat (Z.min 3 n)) eqn:Ek; [lia|discriminate]|]. split; [rewrite length_take; lia|].
  split; [|reflexivity]. rewrite <- skipn_map, take_drop. reflexivity.
Qed.
Next Obligation. intros [i o] bs. eexists. split; [reflexivity|]. auto. Qed.

Definition rec_mem (buf : Z) (n : nat) : mem := mem_of buf (repeat 0 n).

Lemma rec_mem_wf buf n : wf_mem (rec_mem buf n).
Proof. apply mem_of_wf, repeat_bytes. unfold is_byte. lia. Qed.

Lemma records_roundtrip_witness :
  exists s1 s1', xdrrec_create (rec_mem 1001 300) ([], []) XDR_ENCODE 100 100 (Some 8) (Some 1001) = Some s1 /\
    send_records (Arch true false) pipe_write (xdr_hyper (H := xdrrec_ops (Arch true false) pipe_read pipe_write)) s1 [7; -1; 2 ^ 40] = Some (s1', true) /\
    forall w2 later fuel, incoming w2 = outgoing (world s1') ++ later -> (4 + length (incoming w2) < fuel)%nat ->
      exists s2 s2', xdrrec_create (rec_mem 4000 4500) w2 XDR_DECODE 0 333 (Some 8) (Some 4000) = Some s2 /\
        recv_records (Arch true true) pipe_read (xdr_hyper (H := xdrrec_ops (Arch true true) pipe_read pipe_write)) fuel s2 [0; 0; 0] = Some (s2', [7; -1; 2 ^ 40], true).
Proof.
  apply (records_roundtrip (Arch true false) (Arch true true) pipe_read pipe_write pipe_connection pipe_read pipe_write pipe_connection
    xdr_hyper xdr_hyper (fun a => - 2 ^ 63 <= a < 2 ^ 63) (fun _ _ => True) (fun a => be32 (s64 (Z.shiftr a 32)) ++ be32 (s64 a))
    (rec_mem 1001 300) ([], []) 100 100 8 1001 (rec_mem 4000 4500) 0 333 8 4000 [7; -1; 2 ^ 40] [0; 0; 0]).
  - intros. apply xdr_hyper_codec.
  - intros. apply xdr_hyper_codec.
  - apply rec_mem_wf.
  - split; lia.
  - apply mem_of_mapped; vm_compute; discriminate.
  - apply rec_mem_wf.
  - split; lia.
  - apply mem_of_mapped; vm_compute; discriminate.
  - reflexivity.
  - repeat apply Forall_cons_2; try apply Forall_nil_2; lia.
  - repeat constructor.
Defined.

Lemma readit_eof_witness :
  get_input_loop (fun (w : unit) (_ : Z) => (w, Some [])) 1000
    (Rec XDR_DECODE 0 100 100 (Out 0 4 100 0 false) (In 100 100 200 200 0 true) (rec_mem 0 204) tt) 4 [] = None.
Proof.
  apply (readit_eof_loops (fun (w : unit) (_ : Z) => (w, Some []))
    (Rec XDR_DECODE 0 100 100 (Out 0 4 100 0 false) (In 100 100 200 200 0 true) (rec_mem 0 204) tt) 4 []); [reflexivity|reflexivity|lia].
Defined.

(** Twelve bytes of a record are in the buffer, of which four were read; after going back by four, four are
    left of what were twelve. *)
Lemma xdrrec_setpos_witness :
  let rs := Rec XDR_DECODE 0 100 100 (Out 0 4 100 0 false) (In 100 100 108 116 8 true) (rec_mem 0 204) tt in
  xdrrec_setpos (fun _ => 16) rs 4 = (Rec XDR_DECODE 0 100 100 (Out 0 4 100 0 false) (In 100 100 104 116 4 true) (rec_mem 0 204) tt, true) /\ 104 + 4 = 108 + 8 - 2 * 4.
Proof.
  intros rs. split; [reflexivity|].
  exact (proj1 (proj2 (xdrrec_setpos_drift (fun _ => 16) rs (Rec XDR_DECODE 0 100 100 (Out 0 4 100 0 false) (In 100 100 104 116 4 true) (rec_mem 0 204) tt) 4 eq_refl eq_refl))).
Defined.
