(* ===== verification/Base64.v ===== *)
(** Base 64 (resolv/base64.c): the encoder [b64_ntop] and the decoder [b64_pton],
    with their buffer checks.

    A character string is the list of its character values up to and including
    its terminator; the target area is the list of its bytes, and an access past its
    end is a [Fault], as is a failed [Assert].  The reference is [b64_encode], the
    encoding of RFC 1521 read on the 24-bit number of a group. *)
From S2P Require Import Prelude CMem.
From Stdlib Require Import Ascii String.
#[local] Open Scope list_scope.
Abbreviation length := List.length.

Definition Base64 : list Z :=
  List.map (fun c => Z.of_N (N_of_ascii c))
    (list_ascii_of_string "ABCDEFGHIJKLMNOPQRSTUVWXYZabcdefghijklmnopqrstuvwxyz0123456789+/").

Definition Pad64 : Z := 61.

(** [Base64[i]] *)
Definition b64_digit (i : Z) : Z := nth (Z.to_nat i) Base64 0.

(** [target[i] = v] *)
Definition b64_write {R} (target : list Z) (i v : Z) : flow R (list Z) :=
  if (0 <=? i) && (i <? Z.of_nat (length target)) then Next (<[Z.to_nat i := u8 v]> target) else Fault.

(** [target[i] |= v] *)
Definition b64_or {R} (target : list Z) (i v : Z) : flow R (list Z) :=
  match (if 0 <=? i then target !! Z.to_nat i else None) with
  | Some b => Next (<[Z.to_nat i := u8 (Z.lor b v)]> target)
  | None => Fault
  end.

Definition Assert {R} (cond : bool) : flow R unit := if cond then Next tt else Fault.

(** What a call leaves: the target area and the returned [int]. *)
Abbreviation result := (list Z * Z)%type.

(** The three digits that every quantum has. *)
Definition out0 (i0 : Z) : Z := u8 (Z.shiftr i0 2).
Definition out1 (i0 i1 : Z) : Z := u8 (Z.shiftl (Z.land i0 3) 4 + Z.shiftr i1 4).
Definition out2 (i1 i2 : Z) : Z := u8 (Z.shiftl (Z.land i1 15) 2 + Z.shiftr i2 6).

Fixpoint ntop_loop (src target : list Z) (datalength targsize : Z) : flow result (list Z * list Z * Z) :=
  match src with
  | i0 :: i1 :: i2 :: src =>
      let output0 := out0 i0 in
      let output1 := out1 i0 i1 in
      let output2 := out2 i1 i2 in
      let output3 := u8 (Z.land i2 63) in
      Assert (output0 <? 64) ;! Assert (output1 <? 64) ;! Assert (output2 <? 64) ;! Assert (output3 <? 64) ;!
      if targsize <? datalength + 4 then Return (target, -1) else
      let! target := b64_write target datalength (b64_digit output0) in
      let! target := b64_write target (datalength + 1) (b64_digit output1) in
      let! target := b64_write target (datalength + 2) (b64_digit output2) in
      let! target := b64_write target (datalength + 3) (b64_digit output3) in
      ntop_loop src target (datalength + 4) targsize
  | _ => Next (src, target, datalength)
  end.

(** The final quantum of one or two bytes. *)
Definition ntop_pad (src target : list Z) (datalength targsize : Z) : flow result (list Z * Z) :=
  let srclength := Z.of_nat (length src) in
  if srclength =? 0 then Next (target, datalength) else
  let i0 := nth 0 src 0 in
  let i1 := nth 1 src 0 in
  let i2 := nth 2 src 0 in
  let output0 := out0 i0 in
  let output1 := out1 i0 i1 in
  let output2 := out2 i1 i2 in
  Assert (output0 <? 64) ;! Assert (output1 <? 64) ;! Assert (output2 <? 64) ;!
  if targsize <? datalength + 4 then Return (target, -1) else
  let! target := b64_write target datalength (b64_digit output0) in
  let! target := b64_write target (datalength + 1) (b64_digit output1) in
  let! target := b64_write target (datalength + 2) (if srclength =? 1 then Pad64 else b64_digit output2) in
  let! target := b64_write target (datalength + 3) Pad64 in
  Next (target, datalength + 4).

Definition b64_ntop (src target : list Z) (targsize : Z) : flow result Empty_set :=
  let! '(src, target, datalength) := ntop_loop src target 0 targsize in
  let! '(target, datalength) := ntop_pad src target datalength targsize in
  if targsize <=? datalength then Return (target, -1) else
  let! target := b64_write target datalength 0 in
  Return (target, s32 datalength).

(** The decoder's target may be a null pointer. *)
Abbreviation presult := (option (list Z) * Z)%type.

Section Pton.
(** The [isspace] of the current locale. *)
Context (isspace : Z -> bool).

(** [tarindex++] on an [int]. *)
Definition int_incr {R} (i : Z) : flow R Z := if i =? 2 ^ 31 - 1 then Fault else Next (i + 1).

(** One character of value [pos]. *)
Definition pton_step (target : option (list Z)) (targsize tarindex : Z) (state : nat) (pos : Z) :
    flow presult (option (list Z) * Z * nat) :=
  match state with
  | 0%nat =>
      let! target :=
        match target with
        | None => Next None
        | Some t =>
            if targsize <=? tarindex then Return (target, -1) else
            let! t := b64_write t tarindex (Z.shiftl pos 2) in Next (Some t)
        end in
      Next (target, tarindex, 1%nat)
  | 1%nat =>
      let! target :=
        match target with
        | None => Next None
        | Some t =>
            if targsize <=? tarindex + 1 then Return (target, -1) else
            let! t := b64_or t tarindex (Z.shiftr pos 4) in
            let! t := b64_write t (tarindex + 1) (Z.shiftl (Z.land pos 15) 4) in Next (Some t)
        end in
      let! tarindex := int_incr tarindex in
      Next (target, tarindex, 2%nat)
  | 2%nat =>
      let! target :=
        match target with
        | None => Next None
        | Some t =>
            if targsize <=? tarindex + 1 then Return (target, -1) else
            let! t := b64_or t tarindex (Z.shiftr pos 2) in
            let! t := b64_write t (tarindex + 1) (Z.shiftl (Z.land pos 3) 6) in Next (Some t)
        end in
      let! tarindex := int_incr tarindex in
      Next (target, tarindex, 3%nat)
  | 3%nat =>
      let! target :=
        match target with
        | None => Next None
        | Some t =>
            if targsize <=? tarindex then Return (target, -1) else
            let! t := b64_or t tarindex pos in Next (Some t)
        end in
      let! tarindex := int_incr tarindex in
      Next (target, tarindex, 0%nat)
  | _ => Fault
  end.

(** The loop over the characters, left at the terminator or at a pad character. *)
Fixpoint pton_loop (src : list Z) (target : option (list Z)) (targsize tarindex : Z) (state : nat) :
    flow presult (Z * list Z * option (list Z) * Z * nat) :=
  match src with
  | [] => Fault
  | ch :: src =>
      if ch =? 0 then Next (ch, src, target, tarindex, state) else
      if isspace ch then pton_loop src target targsize tarindex state else
      if ch =? Pad64 then Next (ch, src, target, tarindex, state) else
      match index_of ch Base64 with
      | None => Return (target, -1)
      | Some pos =>
          let! '(target, tarindex, state) := pton_step target targsize tarindex state (Z.of_nat pos) in
          pton_loop src target targsize tarindex state
      end
  end.

(** [ch = *src++] *)
Definition next_char {R} (src : list Z) : flow R (Z * list Z) :=
  match src with [] => Fault | ch :: src => Next (ch, src) end.

(** [for (; ch != 0; ch = *src++) if (!isspace (ch)) break;] *)
Fixpoint skip_spaces {R} (ch : Z) (src : list Z) : flow R (Z * list Z) :=
  if ch =? 0 then Next (ch, src) else
  if negb (isspace ch) then Next (ch, src) else
  match src with [] => Fault | ch :: src => skip_spaces ch src end.

(** Nothing but white space may follow the last pad character; then the bits that
    slopped past the last full byte must be zero. *)
Definition trailing (ch : Z) (src : list Z) (target : option (list Z)) (tarindex : Z) : flow presult unit :=
  let! '(ch, _) := skip_spaces ch src in
  if negb (ch =? 0) then Return (target, -1) else
  match target with
  | None => Next tt
  | Some t =>
      match (if 0 <=? tarindex then t !! Z.to_nat tarindex else None) with
      | None => Fault
      | Some b => if b =? 0 then Next tt else Return (target, -1)
      end
  end.

Definition pton_finish (ch : Z) (src : list Z) (target : option (list Z)) (tarindex : Z) (state : nat) :
    flow presult Empty_set :=
  (if ch =? Pad64 then
     let! '(ch, src) := next_char src in
     match state with
     | 0%nat | 1%nat => Return (target, -1)
     | 2%nat =>
         let! '(ch, src) := skip_spaces ch src in
         if negb (ch =? Pad64) then Return (target, -1) else
         let! '(ch, src) := next_char src in
         trailing ch src target tarindex
     | 3%nat => trailing ch src target tarindex
     | _ => Next tt
     end
   else if negb (state =? 0)%nat then Return (target, -1) else Next tt) ;!
  Return (target, tarindex).

Definition pton_from (src : list Z) (target : option (list Z)) (targsize tarindex : Z) (state : nat) :
    flow presult Empty_set :=
  let! '(ch, src, target, tarindex, state) := pton_loop src target targsize tarindex state in
  pton_finish ch src target tarindex state.

Definition b64_pton (src : list Z) (target : option (list Z)) (targsize : Z) : flow presult Empty_set :=
  pton_from src target targsize 0 0.
End Pton.

(** * Reference encoding *)

(** The four 6-bit digits of a 24-bit number, most significant first. *)
Definition digits24 (v : Z) : list Z :=
  [v / 2 ^ 18; v / 2 ^ 12 mod 64; v / 2 ^ 6 mod 64; v mod 64].

Definition group24 (a b c : Z) : Z := a * 2 ^ 16 + b * 2 ^ 8 + c.

Fixpoint b64_encode (bs : list Z) : list Z :=
  match bs with
  | [] => []
  | [a] => List.map b64_digit (take 2 (digits24 (group24 a 0 0))) ++ [Pad64; Pad64]
  | [a; b] => List.map b64_digit (take 3 (digits24 (group24 a b 0))) ++ [Pad64]
  | a :: b :: c :: bs => List.map b64_digit (digits24 (group24 a b c)) ++ b64_encode bs
  end.

Example encode_foobar : b64_encode [102; 111; 111; 98] = [90; 109; 57; 118; 89; 103; 61; 61].
Proof. reflexivity. Qed.

Example ntop_foobar :
  b64_ntop [102; 111; 111; 98] (repeat 7 10) 10 = Return ([90; 109; 57; 118; 89; 103; 61; 61; 0; 7], 8).
Proof. reflexivity. Qed.

Example pton_foobar :
  b64_pton (fun c => c =? 32) [90; 109; 32; 57; 118; 89; 103; 61; 32; 61; 0] (Some (repeat 7 6)) 6 =
  Return (Some [102; 111; 111; 98; 0; 7], 4).
Proof. reflexivity. Qed.

(** * Lemmas *)

(** Induction by groups of three. *)
Lemma list_ind3 {T} (P : list T -> Prop) :
  P [] -> (forall a, P [a]) -> (forall a b, P [a; b]) -> (forall a b c l, P l -> P (a :: b :: c :: l)) ->
  forall l, P l.
Proof.
  intros H0 H1 H2 H3 l. enough (P l /\ (forall a, P (a :: l)) /\ forall a b, P (a :: b :: l)) by tauto.
  induction l as [|c l (IH0 & IH1 & IH2)]; auto.
Qed.

Lemma outs a b c :
  is_byte a -> is_byte b -> is_byte c ->
  out0 a = group24 a b c / 2 ^ 18 /\ out1 a b = group24 a b c / 2 ^ 12 mod 64 /\
  out2 b c = group24 a b c / 2 ^ 6 mod 64 /\ u8 (Z.land c 63) = group24 a b c mod 64.
Proof.
  unfold is_byte, out0, out1, out2, u8, group24. intros Ha Hb Hc.
  change 3 with (Z.ones 2). change 15 with (Z.ones 4). change 63 with (Z.ones 6).
  rewrite !Z.land_ones, !Z.shiftl_mul_pow2, !Z.shiftr_div_pow2 by lia.
  repeat split; (rewrite uwrap_small; [|split]); Z.div_mod_to_equations; lia.
Qed.

Lemma digits24_range v d : 0 <= v < 2 ^ 24 -> In d (digits24 v) -> 0 <= d < 64.
Proof. intros Hv. simpl. intros [<-|[<-|[<-|[<-|[]]]]]; Z.div_mod_to_equations; lia. Qed.

Lemma group24_range a b c : is_byte a -> is_byte b -> is_byte c -> 0 <= group24 a b c < 2 ^ 24.
Proof. unfold is_byte, group24. lia. Qed.

Lemma Base64_bytes : Forall (fun c => 43 <= c < 123 /\ c <> Pad64) Base64.
Proof. apply (bool_decide_unpack _). vm_compute. exact I. Qed.

Lemma Base64_nodup : NoDup Base64.
Proof. apply (bool_decide_unpack _). vm_compute. exact I. Qed.

Lemma b64_digit_lookup d : 0 <= d < 64 -> Base64 !! Z.to_nat d = Some (b64_digit d).
Proof.
  intros Hd. unfold b64_digit. destruct (lookup_lt_is_Some_2 Base64 (Z.to_nat d)) as [c Hc].
  { change (length Base64) with 64%nat. lia. }
  rewrite Hc. f_equal. symmetry. apply nth_lookup_Some. assumption.
Qed.

Lemma b64_digit_char d : 0 <= d < 64 -> 43 <= b64_digit d < 123 /\ b64_digit d <> Pad64.
Proof.
  intros Hd. pose proof (b64_digit_lookup d Hd) as E.
  exact (proj1 (Forall_lookup _ _) Base64_bytes _ _ E).
Qed.

Lemma u8_digit d : 0 <= d < 64 -> u8 (b64_digit d) = b64_digit d.
Proof. intros Hd. destruct (b64_digit_char d Hd). apply uwrap_small. lia. Qed.

Lemma index_of_digit d : 0 <= d < 64 -> index_of (b64_digit d) Base64 = Some (Z.to_nat d).
Proof.
  intros Hd. pose proof (b64_digit_lookup d Hd) as E. apply index_of_Some. split; [assumption|].
  intros j b Hj Hb ->. pose proof (NoDup_lookup _ _ _ _ Base64_nodup E Hb). lia.
Qed.

Lemma index_of_base64 c i : index_of c Base64 = Some i -> 0 <= Z.of_nat i < 64 /\ c = b64_digit (Z.of_nat i).
Proof.
  intros E. apply index_of_Some in E as [E _]. pose proof (lookup_lt_Some _ _ _ E) as Hi.
  change (length Base64) with 64%nat in Hi. split; [lia|].
  pose proof (b64_digit_lookup (Z.of_nat i) ltac:(lia)) as E'. rewrite Nat2Z.id in E'. congruence.
Qed.

Lemma insert_at {T} (pre post : list T) x v : <[length pre := v]> (pre ++ x :: post) = pre ++ v :: post.
Proof. induction pre; simpl; [reflexivity|f_equal; assumption]. Qed.

Lemma b64_write_at {R} pre x post v i :
  i = Z.of_nat (length pre) -> @b64_write R (pre ++ x :: post) i v = Next (pre ++ u8 v :: post).
Proof.
  intros ->. unfold b64_write. rewrite length_app. cbn [List.length].
  rewrite (proj2 (Z.leb_le _ _)), (proj2 (Z.ltb_lt _ _)), Nat2Z.id, insert_at by lia. reflexivity.
Qed.

Lemma b64_or_at {R} pre x post v i :
  i = Z.of_nat (length pre) -> @b64_or R (pre ++ x :: post) i v = Next (pre ++ u8 (Z.lor x v) :: post).
Proof.
  intros ->. unfold b64_or. rewrite (proj2 (Z.leb_le _ _)), Nat2Z.id by lia.
  rewrite list_lookup_middle by reflexivity. rewrite insert_at. reflexivity.
Qed.

(** Four consecutive characters. *)
Lemma write4 {R B} pre post n v0 v1 v2 v3 (k : list Z -> flow R B) :
  n = Z.of_nat (length pre) -> (4 <= length post)%nat ->
  Forall is_byte [v0; v1; v2; v3] ->
  (let! t := b64_write (pre ++ post) n v0 in
   let! t := b64_write t (n + 1) v1 in
   let! t := b64_write t (n + 2) v2 in
   let! t := b64_write t (n + 3) v3 in k t) = k ((pre ++ [v0; v1; v2; v3]) ++ drop 4 post).
Proof.
  intros -> Hl Hv. destruct post as [|x0 [|x1 [|x2 [|x3 post]]]]; simpl in Hl; try lia.
  rewrite !Forall_cons in Hv. destruct Hv as (H0 & H1 & H2 & H3 & _).
  assert (forall v, is_byte v -> u8 v = v) as Hu by (intros; apply uwrap_small; assumption).
  rewrite b64_write_at by reflexivity. cbn [flow_bind].
  change (pre ++ u8 v0 :: x1 :: x2 :: x3 :: post) with (pre ++ [u8 v0] ++ x1 :: x2 :: x3 :: post).
  rewrite app_assoc, b64_write_at by (rewrite length_app; simpl; lia). cbn [flow_bind].
  change (u8 v1 :: x2 :: x3 :: post) with ([u8 v1] ++ x2 :: x3 :: post).
  rewrite app_assoc, b64_write_at by (rewrite !length_app; simpl; lia). cbn [flow_bind].
  change (u8 v2 :: x3 :: post) with ([u8 v2] ++ x3 :: post).
  rewrite app_assoc, b64_write_at by (rewrite !length_app; simpl; lia). cbn [flow_bind].
  rewrite !Hu by assumption. f_equal. rewrite <- !app_assoc. reflexivity.
Qed.

(** * The encoder *)

Definition ntop_body (src target : list Z) (datalength targsize : Z) : flow result (list Z * Z) :=
  let! '(src, target, datalength) := ntop_loop src target datalength targsize in
  ntop_pad src target datalength targsize.

Lemma assert_ok {R B} a (k : flow R B) : 0 <= a < 64 -> (Assert (a <? 64) ;! k) = k.
Proof. intros. unfold Assert. rewrite (proj2 (Z.ltb_lt _ _)) by lia. reflexivity. Qed.

Lemma digits_byte d : 0 <= d < 64 -> is_byte (b64_digit d).
Proof. intros Hd. destruct (b64_digit_char d Hd). unfold is_byte. lia. Qed.

Lemma byte0 : is_byte 0.
Proof. unfold is_byte. lia. Qed.

Lemma pad_byte : is_byte Pad64.
Proof. unfold is_byte, Pad64. lia. Qed.

#[local] Hint Resolve digits_byte byte0 pad_byte : cint.

(** A quantum is stored when it fits. *)
Lemma put4 {B} pre post targsize v0 v1 v2 v3 (k : list Z -> flow result B) :
  targsize <= Z.of_nat (length (pre ++ post)) -> Forall is_byte [v0; v1; v2; v3] ->
  let n := Z.of_nat (length pre) in
  (if targsize <? n + 4 then Return (pre ++ post, -1) else
   let! t := b64_write (pre ++ post) n v0 in
   let! t := b64_write t (n + 1) v1 in
   let! t := b64_write t (n + 2) v2 in
   let! t := b64_write t (n + 3) v3 in k t) =
  if targsize <? n + 4 then Return (pre ++ post, -1) else k ((pre ++ [v0; v1; v2; v3]) ++ drop 4 post).
Proof.
  intros Ht Hv n. rewrite length_app in Ht. destruct (Z.ltb_spec targsize (n + 4)); [reflexivity|].
  apply write4; auto; lia.
Qed.

Lemma outs_range a b : is_byte a -> is_byte b -> 0 <= out0 a < 64 /\ 0 <= out1 a b < 64 /\ 0 <= out2 a b < 64.
Proof.
  intros Ha Hb. destruct (outs a b 0 Ha Hb byte0) as (-> & -> & _). destruct (outs 0 a b byte0 Ha Hb) as (_ & _ & -> & _).
  pose proof (group24_range a b 0 Ha Hb byte0). pose proof (group24_range 0 a b byte0 Ha Hb).
  repeat split; Z.div_mod_to_equations; lia.
Qed.

(** The three shapes of a quantum, as the loop and the padding store them. *)
Lemma ntop_full a b c src pre post targsize :
  is_byte a -> is_byte b -> is_byte c -> targsize <= Z.of_nat (length (pre ++ post)) ->
  ntop_body (a :: b :: c :: src) (pre ++ post) (Z.of_nat (length pre)) targsize =
  if targsize <? Z.of_nat (length pre) + 4 then Return (pre ++ post, -1) else
  ntop_body src ((pre ++ List.map b64_digit (digits24 (group24 a b c))) ++ drop 4 post)
    (Z.of_nat (length pre) + 4) targsize.
Proof.
  intros Ha Hb Hc Ht. unfold ntop_body. cbn [ntop_loop]. cbv zeta.
  destruct (outs a b c Ha Hb Hc) as (E0 & E1 & E2 & E3).
  assert (0 <= u8 (Z.land c 63) < 64) by (rewrite E3; apply Z.mod_pos_bound; lia).
  destruct (outs_range a b Ha Hb) as (? & ? & _). destruct (outs_range b c Hb Hc) as (_ & _ & ?).
  rewrite !assert_ok, put4 by (auto; forall_list).
  destruct (targsize <? _); [reflexivity|]. unfold digits24. cbn [List.map]. rewrite <- E0, <- E1, <- E2, <- E3.
  reflexivity.
Qed.

Lemma ntop_last src pre post targsize :
  Forall is_byte src -> length src = 1%nat \/ length src = 2%nat -> targsize <= Z.of_nat (length (pre ++ post)) ->
  ntop_body src (pre ++ post) (Z.of_nat (length pre)) targsize =
  if targsize <? Z.of_nat (length pre) + 4 then Return (pre ++ post, -1) else
  Next ((pre ++ b64_encode src) ++ drop 4 post, Z.of_nat (length pre) + 4).
Proof.
  intros Hs Hl Ht. unfold ntop_body, ntop_pad.
  destruct src as [|a [|b [|]]]; simpl in Hl; try lia; cbn [ntop_loop flow_bind List.length nth]; cbv zeta.
  - inversion_clear Hs as [|? ? Ha _]. destruct (outs a 0 0 Ha byte0 byte0) as (E0 & E1 & _).
    destruct (outs_range a 0 Ha byte0) as (? & ? & _). destruct (outs_range 0 0 byte0 byte0) as (_ & _ & ?).
    change (Z.of_nat 1 =? 0) with false. change (Z.of_nat 1 =? 1) with true. cbv iota.
    rewrite !assert_ok, put4 by (auto; forall_list).
    destruct (targsize <? _); [reflexivity|]. cbn [b64_encode digits24 take List.map]. rewrite <- E0, <- E1. reflexivity.
  - inversion_clear Hs as [|? ? Ha Hs']. inversion_clear Hs' as [|? ? Hb _].
    destruct (outs a b 0 Ha Hb byte0) as (E0 & E1 & E2 & _).
    destruct (outs_range a b Ha Hb) as (? & ? & _). destruct (outs_range b 0 Hb byte0) as (_ & _ & ?).
    change (Z.of_nat 2 =? 0) with false. change (Z.of_nat 2 =? 1) with false. cbv iota.
    rewrite !assert_ok, put4 by (auto; forall_list).
    destruct (targsize <? _); [reflexivity|]. cbn [b64_encode digits24 take List.map]. rewrite <- E0, <- E1, <- E2. reflexivity.
Qed.

Lemma length_encode3 a b c src : length (b64_encode (a :: b :: c :: src)) = (4 + length (b64_encode src))%nat.
Proof. reflexivity. Qed.

Lemma ntop_body_spec src : Forall is_byte src -> forall pre post targsize,
  0 <= targsize <= Z.of_nat (length (pre ++ post)) ->
  let n := Z.of_nat (length pre) in let e := length (b64_encode src) in
  ntop_body src (pre ++ post) n targsize = Next ((pre ++ b64_encode src) ++ drop e post, n + Z.of_nat e) /\
    (n + Z.of_nat e <= targsize \/ src = []) \/
  targsize < n + Z.of_nat e /\ exists t, ntop_body src (pre ++ post) n targsize = Return (t, -1) /\
    length t = length (pre ++ post).
Proof.
  intros Hs. induction src as [|a|a b|a b c src IH] using list_ind3; intros pre post targsize Ht n e; subst n e.
  - left. simpl. rewrite Z.add_0_r, drop_0, app_nil_r. auto.
  - rewrite ntop_last by (auto; lia). change (length (b64_encode [a])) with 4%nat.
    destruct (Z.ltb_spec targsize (Z.of_nat (length pre) + 4)); [right; eauto|left; split; [reflexivity|left; lia]].
  - rewrite ntop_last by (auto; lia). change (length (b64_encode [a; b])) with 4%nat.
    destruct (Z.ltb_spec targsize (Z.of_nat (length pre) + 4)); [right; eauto|left; split; [reflexivity|left; lia]].
  - inversion_clear Hs as [|? ? Ha H1]. inversion_clear H1 as [|? ? Hb H2]. inversion_clear H2 as [|? ? Hc H3].
    rewrite ntop_full, length_encode3 by (auto; lia). rewrite length_app in Ht.
    destruct (Z.ltb_spec targsize (Z.of_nat (length pre) + 4)); [right; split; [lia|eauto]|].
    set (q := List.map b64_digit (digits24 (group24 a b c))).
    assert (length ((pre ++ q) ++ drop 4 post) = length (pre ++ post)) as Hlen.
    { rewrite !length_app, length_drop. change (length q) with 4%nat. lia. }
    destruct (IH H3 (pre ++ q) (drop 4 post) targsize) as [[E Hd]|(Hlt & t & E & Hlt')].
    { rewrite Hlen, length_app. lia. }
    + left. replace (Z.of_nat (length pre) + 4) with (Z.of_nat (length (pre ++ q)))
        by (rewrite length_app; change (length q) with 4%nat; lia).
      rewrite E. split; [|rewrite length_app in Hd; change (length q) with 4%nat in Hd].
      * f_equal. f_equal; [|rewrite length_app; change (length q) with 4%nat; lia].
        rewrite drop_drop, Nat.add_comm. cbn [b64_encode]. fold q. rewrite !app_assoc. reflexivity.
      * left. destruct Hd as [Hd| ->]; [lia|]. simpl. lia.
    + right. rewrite length_app in Hlt. change (length q) with 4%nat in Hlt. split; [lia|].
      exists t. rewrite <- Hlen, <- Hlt'. split; [|reflexivity]. rewrite <- E. f_equal.
      rewrite length_app. change (length q) with 4%nat. lia.
Qed.

(** C38: encoding stores the base 64 text of the source with its terminator
    at the start of the target, leaves the rest of the target as it was and returns the
    text's length, when text and terminator fit in [targsize]; otherwise it returns -1.
    It never writes past [targsize] bytes and never fails an assertion. *)
Theorem b64_ntop_correct src target targsize :
  Forall is_byte src -> 0 <= targsize <= Z.of_nat (length target) ->
  Z.of_nat (length (b64_encode src)) < 2 ^ 31 ->
  let e := length (b64_encode src) in
  (Z.of_nat e < targsize ->
     b64_ntop src target targsize = Return (b64_encode src ++ 0 :: drop (S e) target, Z.of_nat e)) /\
  (targsize <= Z.of_nat e ->
     exists t, b64_ntop src target targsize = Return (t, -1) /\ length t = length target).
Proof.
  intros Hs Ht Hmax e.
  assert (b64_ntop src target targsize =
    let! '(target, datalength) := ntop_body src target 0 targsize in
    if targsize <=? datalength then Return (target, -1) else
    let! target := b64_write target datalength 0 in Return (target, s32 datalength)) as ->.
  { unfold b64_ntop, ntop_body. destruct (ntop_loop src target 0 targsize) as [[[]]| | |]; reflexivity. }
  pose proof (ntop_body_spec src Hs [] target targsize Ht) as [[E Hd]|(Hlt & t & E & Hl)];
    cbv zeta in E; cbn [app List.length] in *; change (Z.of_nat 0) with 0 in *; rewrite E; cbn [flow_bind].
  - fold e. fold e in Hd, Hmax. assert (Z.of_nat e <= targsize) by (destruct Hd as [| ->]; [lia|unfold e; simpl; lia]).
    split; intros Hc.
    + rewrite (proj2 (Z.leb_gt _ _)) by lia.
      destruct (drop e target) as [|x rest] eqn:Ed.
      { apply (f_equal (@List.length Z)) in Ed. rewrite length_drop in Ed. simpl in Ed. lia. }
      rewrite b64_write_at by (unfold e; lia). cbn [flow_bind]. change (u8 0) with 0.
      rewrite s32_small by lia. f_equal. f_equal. f_equal. f_equal.
      replace (S e) with (e + 1)%nat by lia. rewrite <- drop_drop, Ed. reflexivity.
    + rewrite (proj2 (Z.leb_le _ _)) by lia. eexists. split; [reflexivity|].
      rewrite length_app, length_drop. unfold e in *. lia.
  - fold e in Hlt. split; intros Hc; [lia|]. eauto.
Qed.

(** * The decoder *)

Section Decoder.
Context (isspace : Z -> bool).
Hypothesis nul_not_space : isspace 0 = false.

(** White space taken out. *)
Definition strip (s : list Z) : list Z := List.filter (fun c => negb (isspace c)) s.

Lemma strip_cons c s : strip (c :: s) = if isspace c then strip s else c :: strip s.
Proof. unfold strip. simpl. destruct (isspace c); reflexivity. Qed.

Lemma pton_loop_strip src target targsize tarindex state :
  pton_loop isspace (strip src) target targsize tarindex state =
  let! '(ch, rest, target, tarindex, state) := pton_loop isspace src target targsize tarindex state in
  Next (ch, strip rest, target, tarindex, state).
Proof.
  revert target tarindex state. induction src as [|c src IH]; intros; [reflexivity|].
  rewrite strip_cons. cbn [pton_loop]. destruct (Z.eqb_spec c 0) as [-> |Hc].
  { rewrite nul_not_space. reflexivity. }
  destruct (isspace c) eqn:Es; [apply IH|]. cbn [pton_loop]. rewrite (proj2 (Z.eqb_neq _ _)), Es by assumption.
  destruct (c =? Pad64); [reflexivity|]. destruct (index_of c Base64) as [p|]; [|reflexivity].
  destruct (pton_step target targsize tarindex state (Z.of_nat p)) as [[[t i] k]| | |]; cbn [flow_bind]; auto.
Qed.

(** [ch = *src++] followed by the loop that skips spaces. *)
Definition skip_next {R} (src : list Z) : flow R (Z * list Z) :=
  let! '(ch, src) := next_char src in skip_spaces isspace ch src.

Lemma skip_next_cons {R} c src :
  @skip_next R (c :: src) = if (c =? 0) || negb (isspace c) then Next (c, src) else skip_next src.
Proof.
  unfold skip_next. cbn [next_char flow_bind].
  destruct src; cbn [skip_spaces]; destruct (c =? 0), (isspace c); reflexivity.
Qed.

Lemma skip_next_strip {R} src :
  @skip_next R (strip src) = let! '(ch, rest) := @skip_next R src in Next (ch, strip rest).
Proof.
  induction src as [|c src IH]; [reflexivity|]. rewrite strip_cons, skip_next_cons.
  destruct (Z.eqb_spec c 0) as [-> |Hc].
  - rewrite nul_not_space, skip_next_cons. reflexivity.
  - destruct (isspace c) eqn:Es; simpl; [exact IH|]. rewrite skip_next_cons, Es, orb_true_r. reflexivity.
Qed.

Lemma trailing_next src target tarindex :
  (let! '(ch, src) := next_char (strip src) in trailing isspace ch src target tarindex) =
  (let! '(ch, src) := next_char src in trailing isspace ch src target tarindex).
Proof.
  assert (forall s, (let! '(ch, src) := next_char s in trailing isspace ch src target tarindex) =
    let! '(ch, _) := skip_next s in
    if negb (ch =? 0) then Return (target, -1) else
    match target with
    | None => Next tt
    | Some t =>
        match (if 0 <=? tarindex then t !! Z.to_nat tarindex else None) with
        | None => Fault
        | Some b => if b =? 0 then Next tt else Return (target, -1)
        end
    end) as H by (intros [|c s]; reflexivity).
  rewrite !H, skip_next_strip. destruct (skip_next src) as [[]| | |]; reflexivity.
Qed.

Lemma in0_strip src : In 0 src -> exists c s, strip src = c :: s.
Proof.
  intros Hin. assert (In 0 (strip src)) as H by (apply filter_In; rewrite nul_not_space; auto).
  destruct (strip src); [destruct H|eauto].
Qed.

Lemma pton_finish_strip ch src target tarindex state :
  ch = 0 \/ In 0 src ->
  pton_finish isspace ch (strip src) target tarindex state = pton_finish isspace ch src target tarindex state.
Proof.
  intros Hin. unfold pton_finish. destruct (Z.eqb_spec ch Pad64) as [-> |]; [|reflexivity].
  destruct Hin as [|Hin]; [discriminate|]. f_equal.
  destruct (in0_strip src Hin) as (c' & s' & Es).
  assert (exists c s, src = c :: s) as (c & s & Ec) by (destruct src; [destruct Hin|eauto]).
  destruct state as [|[|[|[|]]]]; try (rewrite Es, Ec; reflexivity).
  - transitivity (let! '(ch, src) := skip_next (strip src) in
      if negb (ch =? Pad64) then Return (target, -1) else
      let! '(ch, src) := next_char src in trailing isspace ch src target tarindex).
    { rewrite Es. reflexivity. }
    transitivity (let! '(ch, src) := skip_next src in
      if negb (ch =? Pad64) then Return (target, -1) else
      let! '(ch, src) := next_char src in trailing isspace ch src target tarindex).
    { rewrite skip_next_strip. destruct (skip_next src) as [[c0 r0]| | |]; try reflexivity.
      cbn [flow_bind]. destruct (negb _); [reflexivity|]. apply trailing_next. }
    rewrite Ec. reflexivity.
  - apply trailing_next.
Qed.

Lemma pton_loop_in0 src target targsize tarindex state ch rest t i k :
  pton_loop isspace src target targsize tarindex state = Next (ch, rest, t, i, k) -> In 0 src -> ch = 0 \/ In 0 rest.
Proof.
  revert target tarindex state. induction src as [|c src IH]; intros target tarindex state; [discriminate|].
  cbn [pton_loop]. destruct (Z.eqb_spec c 0) as [-> |Hc]; [intros [=]; auto|].
  intros E [|Hin]; [congruence|]. destruct (isspace c); [eauto|].
  destruct (c =? Pad64); [injection E as <- <-; auto|]. destruct (index_of c Base64); [|discriminate].
  destruct (pton_step _ _ _ _ _) as [[[t' i'] k']| | |]; try discriminate. eauto.
Qed.

Lemma pton_from_strip src target targsize tarindex state :
  In 0 src ->
  pton_from isspace (strip src) target targsize tarindex state = pton_from isspace src target targsize tarindex state.
Proof.
  intros Hin. unfold pton_from. rewrite pton_loop_strip.
  destruct (pton_loop isspace src target targsize tarindex state) as [[[[[ch rest] t] i] k]| | |] eqn:E; try reflexivity.
  cbn [flow_bind]. apply pton_finish_strip. eauto using pton_loop_in0.
Qed.

(** Reading one character that is not white space. *)
Lemma pton_cons c src target targsize tarindex state :
  c <> 0 -> isspace c = false ->
  pton_from isspace (c :: src) target targsize tarindex state =
  if c =? Pad64 then pton_finish isspace c src target tarindex state else
  match index_of c Base64 with
  | None => Return (target, -1)
  | Some pos =>
      let! '(target, tarindex, state) := pton_step target targsize tarindex state (Z.of_nat pos) in
      pton_from isspace src target targsize tarindex state
  end.
Proof.
  intros Hc Es. unfold pton_from. cbn [pton_loop]. rewrite (proj2 (Z.eqb_neq _ _)), Es by assumption.
  destruct (c =? Pad64); [reflexivity|]. destruct (index_of c Base64); [|reflexivity].
  destruct (pton_step _ _ _ _ _) as [[[]]| | |]; reflexivity.
Qed.

Lemma pton_end target targsize tarindex state :
  pton_from isspace [0] target targsize tarindex state =
  if (state =? 0)%nat then Return (target, tarindex) else Return (target, -1).
Proof. unfold pton_from. simpl. unfold pton_finish. simpl. destruct (state =? 0)%nat; reflexivity. Qed.

(** The four states, on the part of the target that they touch. *)

Lemma or_digits x d k :
  0 <= k -> 0 <= x -> 0 <= d < 2 ^ k -> x * 2 ^ k + d < 256 -> u8 (Z.lor (x * 2 ^ k) d) = x * 2 ^ k + d.
Proof.
  intros. rewrite <- (Z.shiftl_mul_pow2 x k), lor_low, Z.shiftl_mul_pow2 by lia.
  apply uwrap_small. split; [nia|lia].
Qed.

Lemma step0 pre x post targsize d :
  0 <= d < 64 -> Z.of_nat (length pre) < targsize ->
  pton_step (Some (pre ++ x :: post)) targsize (Z.of_nat (length pre)) 0 d =
  Next (Some (pre ++ d * 4 :: post), Z.of_nat (length pre), 1%nat).
Proof.
  intros Hd Ht. unfold pton_step. zdecide. rewrite b64_write_at by reflexivity. cbn [flow_bind].
  rewrite Z.shiftl_mul_pow2 by lia. unfold u8. rewrite uwrap_small by lia. reflexivity.
Qed.

Lemma step1 pre y post targsize d0 d :
  0 <= d0 < 64 -> 0 <= d < 64 -> Z.of_nat (length pre) + 1 < targsize -> Z.of_nat (length pre) < 2 ^ 31 - 1 ->
  pton_step (Some (pre ++ d0 * 4 :: y :: post)) targsize (Z.of_nat (length pre)) 1 d =
  Next (Some (pre ++ d0 * 4 + d / 16 :: d mod 16 * 16 :: post), Z.of_nat (length pre) + 1, 2%nat).
Proof.
  intros Hd0 Hd Ht Hi. unfold pton_step. zdecide. rewrite b64_or_at by reflexivity. cbn [flow_bind].
  rewrite Z.shiftr_div_pow2 by lia. change (2 ^ 4) with 16.
  assert (u8 (Z.lor (d0 * 4) (d / 16)) = d0 * 4 + d / 16) as ->
    by (apply (or_digits d0 (d / 16) 2); Z.div_mod_to_equations; lia).
  rewrite cons_middle, app_assoc, b64_write_at by (rewrite length_app; simpl; lia). cbn [flow_bind].
  change 15 with (Z.ones 4). rewrite Z.land_ones, Z.shiftl_mul_pow2 by lia. unfold u8.
  rewrite uwrap_small by (Z.div_mod_to_equations; lia). unfold int_incr. zdecide. cbn [flow_bind].
  rewrite <- app_assoc. reflexivity.
Qed.

Lemma step2 pre x y post targsize d1 d :
  0 <= d1 < 64 -> 0 <= d < 64 -> Z.of_nat (length pre) + 2 < targsize -> Z.of_nat (length pre) + 1 < 2 ^ 31 - 1 ->
  pton_step (Some (pre ++ x :: d1 mod 16 * 16 :: y :: post)) targsize (Z.of_nat (length pre) + 1) 2 d =
  Next (Some (pre ++ x :: d1 mod 16 * 16 + d / 4 :: d mod 4 * 64 :: post), Z.of_nat (length pre) + 2, 3%nat).
Proof.
  intros Hd1 Hd Ht Hi. unfold pton_step. zdecide.
  rewrite cons_middle, app_assoc, b64_or_at by (rewrite length_app; simpl; lia). cbn [flow_bind].
  rewrite Z.shiftr_div_pow2 by lia. change (2 ^ 2) with 4.
  assert (u8 (Z.lor (d1 mod 16 * 16) (d / 4)) = d1 mod 16 * 16 + d / 4) as ->
    by (apply (or_digits (d1 mod 16) (d / 4) 4); Z.div_mod_to_equations; lia).
  rewrite cons_middle, app_assoc, b64_write_at by (rewrite !length_app; simpl; lia). cbn [flow_bind].
  change 3 with (Z.ones 2). rewrite Z.land_ones, Z.shiftl_mul_pow2 by lia. unfold u8.
  rewrite uwrap_small by (Z.div_mod_to_equations; lia). unfold int_incr. zdecide. cbn [flow_bind].
  rewrite <- !app_assoc. replace (Z.of_nat (length pre) + 1 + 1) with (Z.of_nat (length pre) + 2) by lia. reflexivity.
Qed.

Lemma step3 pre x y post targsize d2 d :
  0 <= d2 < 64 -> 0 <= d < 64 -> Z.of_nat (length pre) + 2 < targsize -> Z.of_nat (length pre) + 2 < 2 ^ 31 - 1 ->
  pton_step (Some (pre ++ x :: y :: d2 mod 4 * 64 :: post)) targsize (Z.of_nat (length pre) + 2) 3 d =
  Next (Some (pre ++ x :: y :: d2 mod 4 * 64 + d :: post), Z.of_nat (length pre) + 3, 0%nat).
Proof.
  intros Hd2 Hd Ht Hi. unfold pton_step. zdecide.
  rewrite cons_middle, app_assoc, (cons_middle y), app_assoc, b64_or_at by (rewrite !length_app; simpl; lia).
  cbn [flow_bind]. 
  assert (u8 (Z.lor (d2 mod 4 * 64) d) = d2 mod 4 * 64 + d) as ->
    by (apply (or_digits (d2 mod 4) d 6); Z.div_mod_to_equations; lia).
  unfold int_incr. zdecide. cbn [flow_bind].
  rewrite <- !app_assoc. replace (Z.of_nat (length pre) + 2 + 1) with (Z.of_nat (length pre) + 3) by lia. reflexivity.
Qed.

(** ** Decoding what was encoded *)

Section Alphabet.
Hypothesis alphabet_not_space : forall c, In c Base64 \/ c = Pad64 -> isspace c = false.

Lemma pton_digit d src target targsize tarindex state :
  0 <= d < 64 ->
  pton_from isspace (b64_digit d :: src) target targsize tarindex state =
  let! '(target, tarindex, state) := pton_step target targsize tarindex state d in
  pton_from isspace src target targsize tarindex state.
Proof.
  intros Hd. destruct (b64_digit_char d Hd) as [Hr Hp]. rewrite pton_cons.
  - rewrite (proj2 (Z.eqb_neq _ _)), index_of_digit, Z2Nat.id by (assumption || lia). reflexivity.
  - lia.
  - apply alphabet_not_space. left. apply list_elem_of_In. eapply list_elem_of_lookup_2, b64_digit_lookup, Hd.
Qed.

(** The room that decoding needs: a padded quantum stores a byte of zero bits. *)
Definition slop_len (bs : list Z) : nat := if (length bs mod 3 =? 0)%nat then 0%nat else 1%nat.

Definition after (bs post : list Z) : list Z :=
  if (length bs mod 3 =? 0)%nat then drop (length bs) post else 0 :: drop (S (length bs)) post.

Lemma digits24_join v : 0 <= v < 2 ^ 24 ->
  let d0 := v / 2 ^ 18 in let d1 := v / 2 ^ 12 mod 64 in let d2 := v / 2 ^ 6 mod 64 in let d3 := v mod 64 in
  d0 * 4 + d1 / 16 = v / 2 ^ 16 /\ d1 mod 16 * 16 + d2 / 4 = v / 2 ^ 8 mod 256 /\
  d2 mod 4 * 64 + d3 = v mod 256.
Proof. intros Hv. cbv zeta. repeat split; Z.div_mod_to_equations; lia. Qed.

Lemma group24_split a b c : is_byte a -> is_byte b -> is_byte c ->
  group24 a b c / 2 ^ 16 = a /\ group24 a b c / 2 ^ 8 mod 256 = b /\ group24 a b c mod 256 = c.
Proof. unfold is_byte, group24. intros. repeat split; Z.div_mod_to_equations; lia. Qed.

(** What the final byte of a padded quantum keeps is zero. *)
Lemma slop_zero a b : is_byte a -> is_byte b ->
  (group24 a 0 0 / 2 ^ 12 mod 64) mod 16 = 0 /\ (group24 a b 0 / 2 ^ 6 mod 64) mod 4 = 0.
Proof. unfold is_byte, group24. intros. split; Z.div_mod_to_equations; lia. Qed.

Lemma pton_group a b c src pre post targsize :
  is_byte a -> is_byte b -> is_byte c -> (3 <= length post)%nat ->
  Z.of_nat (length pre) + 3 <= targsize -> Z.of_nat (length pre) + 3 < 2 ^ 31 ->
  pton_from isspace (List.map b64_digit (digits24 (group24 a b c)) ++ src) (Some (pre ++ post)) targsize
    (Z.of_nat (length pre)) 0 =
  pton_from isspace src (Some ((pre ++ [a; b; c]) ++ drop 3 post)) targsize (Z.of_nat (length pre) + 3) 0.
Proof.
  intros Ha Hb Hc Hp Ht Hi. pose proof (group24_range a b c Ha Hb Hc) as Hv.
  destruct (digits24_join _ Hv) as (J1 & J2 & J3). destruct (group24_split a b c Ha Hb Hc) as (S1 & S2 & S3).
  assert (forall d, In d (digits24 (group24 a b c)) -> 0 <= d < 64) as Hd by eauto using digits24_range.
  destruct post as [|x [|y [|z post]]]; simpl in Hp; try lia. cbn [digits24 List.map app].
  rewrite pton_digit, step0 by (lia || apply Hd; simpl; auto). cbn [flow_bind].
  rewrite pton_digit, step1 by (lia || apply Hd; simpl; auto). cbn [flow_bind].
  rewrite pton_digit, step2 by (lia || apply Hd; simpl; auto). cbn [flow_bind].
  rewrite pton_digit, step3 by (lia || apply Hd; simpl; auto). cbn [flow_bind].
  rewrite J1, J2, J3, S1, S2, S3, <- app_assoc. reflexivity.
Qed.

(** The check on the slop bits, once the pad characters are read. *)
Lemma trailing_at pre l k b :
  0 <= k -> l !! Z.to_nat k = Some b ->
  trailing isspace 0 [] (Some (pre ++ l)) (Z.of_nat (length pre) + k) =
  if b =? 0 then Next tt else Return (Some (pre ++ l), -1).
Proof.
  intros Hk Hl. unfold trailing. simpl. rewrite (proj2 (Z.leb_le _ _)) by lia.
  rewrite lookup_app_r by lia.
  replace (Z.to_nat (Z.of_nat (length pre) + k) - length pre)%nat with (Z.to_nat k) by lia. rewrite Hl. reflexivity.
Qed.

Lemma pton_pad src target targsize tarindex state :
  pton_from isspace (Pad64 :: src) target targsize tarindex state = pton_finish isspace Pad64 src target tarindex state.
Proof. rewrite pton_cons by (discriminate || apply alphabet_not_space; auto). reflexivity. Qed.

Lemma pton_encode bs : Forall is_byte bs -> forall pre post targsize,
  (length bs + slop_len bs <= length post)%nat ->
  Z.of_nat (length pre + length bs + slop_len bs) <= targsize -> Z.of_nat (length pre + length bs) < 2 ^ 31 ->
  pton_from isspace (b64_encode bs ++ [0]) (Some (pre ++ post)) targsize (Z.of_nat (length pre)) 0 =
  Return (Some (pre ++ bs ++ after bs post), Z.of_nat (length pre + length bs)).
Proof.
  intros Hbs. induction bs as [|a|a b|a b c bs IH] using list_ind3; intros pre post targsize Hp Ht Hi.
  - cbn [b64_encode app]. rewrite pton_end. unfold after. simpl. rewrite drop_0. repeat f_equal. simpl. lia.
  - inversion_clear Hbs as [|? ? Ha _]. unfold slop_len, after in *. simpl in Hp, Ht, Hi |- *.
    pose proof (group24_range a 0 0 Ha byte0 byte0) as Hv. destruct (digits24_join _ Hv) as (J1 & _ & _).
    destruct (group24_split a 0 0 Ha byte0 byte0) as (S1 & _). destruct (slop_zero a 0 Ha byte0) as [Z1 _].
    assert (forall d, In d (digits24 (group24 a 0 0)) -> 0 <= d < 64) as Hd by eauto using digits24_range.
    destruct post as [|x [|y post]]; simpl in Hp; try lia.
    rewrite pton_digit, step0 by (lia || apply Hd; simpl; auto). cbn [flow_bind].
    rewrite pton_digit, step1 by (lia || apply Hd; simpl; auto). cbn [flow_bind].
    rewrite pton_pad. unfold pton_finish. rewrite Z.eqb_refl. cbn [next_char flow_bind].
    rewrite J1, S1, Z1. change (0 * 16) with 0. change (0 :: post) with ([0] ++ post).
    cbn [skip_spaces]. rewrite alphabet_not_space by auto. simpl (Pad64 =? 0). cbn [negb flow_bind].
    rewrite Z.eqb_refl. cbn [negb next_char flow_bind].
    rewrite (trailing_at pre (a :: [0] ++ post) 1 0) by (reflexivity || lia). cbn [flow_bind Z.eqb].
    simpl. rewrite drop_0. repeat f_equal. lia.
  - inversion_clear Hbs as [|? ? Ha Hbs']. inversion_clear Hbs' as [|? ? Hb _].
    unfold slop_len, after in *. simpl in Hp, Ht, Hi |- *.
    pose proof (group24_range a b 0 Ha Hb byte0) as Hv. destruct (digits24_join _ Hv) as (J1 & J2 & _).
    destruct (group24_split a b 0 Ha Hb byte0) as (S1 & S2 & _). destruct (slop_zero a b Ha Hb) as [_ Z2].
    assert (forall d, In d (digits24 (group24 a b 0)) -> 0 <= d < 64) as Hd by eauto using digits24_range.
    destruct post as [|x [|y [|z post]]]; simpl in Hp; try lia.
    rewrite pton_digit, step0 by (lia || apply Hd; simpl; auto). cbn [flow_bind].
    rewrite pton_digit, step1 by (lia || apply Hd; simpl; auto). cbn [flow_bind].
    rewrite pton_digit, step2 by (lia || apply Hd; simpl; auto). cbn [flow_bind].
    rewrite pton_pad. unfold pton_finish. rewrite Z.eqb_refl. cbn [next_char flow_bind].
    rewrite J1, J2, S1, S2, Z2. change (0 * 64) with 0.
    rewrite (trailing_at pre (a :: b :: 0 :: post) 2 0) by (reflexivity || lia). cbn [flow_bind Z.eqb].
    simpl. rewrite drop_0. repeat f_equal. lia.
  - inversion_clear Hbs as [|? ? Ha H1]. inversion_clear H1 as [|? ? Hb H2]. inversion_clear H2 as [|? ? Hc H3].
    assert (slop_len (a :: b :: c :: bs) = slop_len bs) as Es.
    { unfold slop_len. change (length (a :: b :: c :: bs)) with (3 + length bs)%nat.
      replace ((3 + length bs) mod 3)%nat with (length bs mod 3)%nat; [reflexivity|].
      rewrite Nat.add_comm, <- (Nat.Div0.add_mod_idemp_r _ 3). change (3 mod 3)%nat with 0%nat. rewrite Nat.add_0_r. reflexivity. }
    rewrite Es in *. cbn [List.length] in Hp, Ht, Hi. cbn [b64_encode]. rewrite <- app_assoc, pton_group by (auto; lia).
    replace (Z.of_nat (length pre) + 3) with (Z.of_nat (length (pre ++ [a; b; c]))) by (rewrite length_app; simpl; lia).
    rewrite IH by (rewrite ?length_app, ?length_drop; simpl; auto; lia).
    assert (after bs (drop 3 post) = after (a :: b :: c :: bs) post) as ->.
    { unfold after. unfold slop_len in Es. cbn [List.length] in Es |- *.
      destruct (S (S (S (length bs))) mod 3 =? 0)%nat, (length bs mod 3 =? 0)%nat; try discriminate;
        rewrite drop_drop; reflexivity. }
    rewrite <- app_assoc. f_equal. f_equal. rewrite length_app. simpl. lia.
Qed.
End Alphabet.

(** ** What is accepted *)

Lemma char_cases c src target targsize tarindex state t r :
  c <> 0 -> isspace c = false -> r <> -1 ->
  pton_from isspace (c :: src) target targsize tarindex state = Return (t, r) ->
  c = Pad64 /\ pton_finish isspace Pad64 src target tarindex state = Return (t, r) \/
  exists d, 0 <= d < 64 /\ c = b64_digit d /\
    (let! '(target, tarindex, state) := pton_step target targsize tarindex state d in
     pton_from isspace src target targsize tarindex state) = Return (t, r).
Proof.
  intros Hc Es Hr. rewrite pton_cons by assumption. destruct (Z.eqb_spec c Pad64) as [-> |]; [auto|].
  destruct (index_of c Base64) as [p|] eqn:E; [|congruence].
  destruct (index_of_base64 c p E) as [Hp ->]. right. exists (Z.of_nat p). auto.
Qed.

Section StepInv.
Context (k : option (list Z) -> Z -> nat -> flow presult Empty_set) (pre : list Z) (targsize : Z).
Context (t : option (list Z)) (r : Z).
Hypothesis r_ok : r <> -1.
Abbreviation run target tarindex state d :=
  (let! '(target', tarindex', state') := pton_step target targsize tarindex state d in k target' tarindex' state').

Lemma step0_inv post d :
  0 <= d < 64 -> targsize <= Z.of_nat (length (pre ++ post)) ->
  run (Some (pre ++ post)) (Z.of_nat (length pre)) 0%nat d = Return (t, r) ->
  exists x post', post = x :: post' /\ Z.of_nat (length pre) < targsize /\
    k (Some (pre ++ d * 4 :: post')) (Z.of_nat (length pre)) 1%nat = Return (t, r).
Proof.
  intros Hd Ht E. rewrite length_app in Ht. destruct (Z.leb_spec targsize (Z.of_nat (length pre))) as [Hle|Hgt].
  { unfold pton_step in E. rewrite (proj2 (Z.leb_le _ _)) in E by assumption. simpl in E. congruence. }
  destruct post as [|x post]; simpl in Ht; [lia|]. rewrite step0 in E by lia. exists x, post. auto.
Qed.

Hypothesis targsize_int : targsize < 2 ^ 31.

Lemma step1_inv post d0 d :
  0 <= d0 < 64 -> 0 <= d < 64 -> targsize <= Z.of_nat (length (pre ++ d0 * 4 :: post)) ->
  run (Some (pre ++ d0 * 4 :: post)) (Z.of_nat (length pre)) 1%nat d = Return (t, r) ->
  exists x post', post = x :: post' /\
    k (Some (pre ++ d0 * 4 + d / 16 :: d mod 16 * 16 :: post')) (Z.of_nat (length pre) + 1) 2%nat = Return (t, r).
Proof.
  intros Hd0 Hd Ht E. rewrite length_app in Ht. simpl in Ht.
  destruct (Z.leb_spec targsize (Z.of_nat (length pre) + 1)) as [Hle|Hgt].
  { unfold pton_step in E. rewrite (proj2 (Z.leb_le _ _)) in E by assumption. simpl in E. congruence. }
  destruct post as [|x post]; simpl in Ht; [lia|]. rewrite step1 in E by lia. exists x, post. auto.
Qed.

Lemma step2_inv post x d1 d :
  0 <= d1 < 64 -> 0 <= d < 64 -> targsize <= Z.of_nat (length (pre ++ x :: d1 mod 16 * 16 :: post)) ->
  run (Some (pre ++ x :: d1 mod 16 * 16 :: post)) (Z.of_nat (length pre) + 1) 2%nat d = Return (t, r) ->
  exists y post', post = y :: post' /\ Z.of_nat (length pre) + 2 < targsize /\
    k (Some (pre ++ x :: d1 mod 16 * 16 + d / 4 :: d mod 4 * 64 :: post')) (Z.of_nat (length pre) + 2) 3%nat = Return (t, r).
Proof.
  intros Hd1 Hd Ht E. rewrite length_app in Ht. simpl in Ht.
  destruct (Z.leb_spec targsize (Z.of_nat (length pre) + 1 + 1)) as [Hle|Hgt].
  { unfold pton_step in E. rewrite (proj2 (Z.leb_le _ _)) in E by assumption. simpl in E. congruence. }
  destruct post as [|y post]; simpl in Ht; [lia|]. rewrite step2 in E by lia. exists y, post. split; [|split]; auto; lia.
Qed.

Lemma step3_inv post x y d2 d :
  0 <= d2 < 64 -> 0 <= d < 64 -> Z.of_nat (length pre) + 2 < targsize ->
  run (Some (pre ++ x :: y :: d2 mod 4 * 64 :: post)) (Z.of_nat (length pre) + 2) 3%nat d = Return (t, r) ->
  k (Some (pre ++ x :: y :: d2 mod 4 * 64 + d :: post)) (Z.of_nat (length pre) + 3) 0%nat = Return (t, r).
Proof. intros Hd2 Hd Ht E. rewrite step3 in E by lia. exact E. Qed.
End StepInv.

(** After the last pad character only the terminator is left, and the slop bits are zero. *)
Lemma trailing_inv s pre l kk b t r :
  Forall (fun c => c <> 0) s -> Forall (fun c => isspace c = false) s -> r <> -1 ->
  0 <= kk -> l !! Z.to_nat kk = Some b ->
  ((let! '(ch, src) := next_char (s ++ [0]) in
    trailing isspace ch src (Some (pre ++ l)) (Z.of_nat (length pre) + kk)) ;!
   Return (Some (pre ++ l), Z.of_nat (length pre) + kk) : flow presult Empty_set) = Return (t, r) ->
  s = [] /\ b = 0 /\ t = Some (pre ++ l) /\ r = Z.of_nat (length pre) + kk.
Proof.
  intros Hne Hsp Hr Hk Hb. destruct s as [|c s]; cbn [app next_char flow_bind].
  - rewrite (trailing_at pre l kk b) by assumption. destruct (Z.eqb_spec b 0); cbn [flow_bind]; intros [=]; [auto|congruence].
  - inversion_clear Hne as [|? ? Hc _]. inversion_clear Hsp as [|? ? Es _].
    unfold trailing. destruct (s ++ [0]); cbn [skip_spaces]; rewrite (proj2 (Z.eqb_neq _ _)), Es by assumption;
      cbn [negb flow_bind]; rewrite (proj2 (Z.eqb_neq _ _)) by assumption; cbn; congruence.
Qed.

Lemma digits24_group d0 d1 d2 d3 :
  0 <= d0 < 64 -> 0 <= d1 < 64 -> 0 <= d2 < 64 -> 0 <= d3 < 64 ->
  let x := d0 * 4 + d1 / 16 in let y := d1 mod 16 * 16 + d2 / 4 in let z := d2 mod 4 * 64 + d3 in
  is_byte x /\ is_byte y /\ is_byte z /\ digits24 (group24 x y z) = [d0; d1; d2; d3].
Proof.
  intros H0 H1 H2 H3 x y z.
  assert (group24 x y z = d0 * 2 ^ 18 + d1 * 2 ^ 12 + d2 * 2 ^ 6 + d3) as ->.
  { subst x y z. unfold group24. Z.div_mod_to_equations. lia. }
  unfold digits24, is_byte. subst x y z. repeat split; try (Z.div_mod_to_equations; lia).
  repeat f_equal; Z.div_mod_to_equations; lia.
Qed.

(** [t] and [r] are what decoding the text [s] after [pre] has to leave. *)
Definition accepted (s pre post : list Z) (t : option (list Z)) (r : Z) : Prop :=
  exists bs rest, t = Some (pre ++ bs ++ rest) /\ Forall is_byte bs /\ s = b64_encode bs /\
    r = Z.of_nat (length pre + length bs) /\ length (bs ++ rest) = length post.

Lemma accepted_nil pre post : accepted [] pre post (Some (pre ++ post)) (Z.of_nat (length pre)).
Proof. exists [], post. rewrite Nat.add_0_r. repeat split; auto. Qed.

(** Two digits, then a pad character. *)
Lemma accepted_pad2 s pre post2 x0 x1 d0 d1 t r :
  0 <= d0 < 64 -> 0 <= d1 < 64 -> Forall (fun c => c <> 0) s -> Forall (fun c => isspace c = false) s -> r <> -1 ->
  pton_finish isspace Pad64 (s ++ [0]) (Some (pre ++ d0 * 4 + d1 / 16 :: d1 mod 16 * 16 :: post2))
    (Z.of_nat (length pre) + 1) 2 = Return (t, r) ->
  accepted (b64_digit d0 :: b64_digit d1 :: Pad64 :: s) pre (x0 :: x1 :: post2) t r.
Proof.
  intros D0 D1 Hne Hsp Hr. unfold pton_finish. rewrite Z.eqb_refl. destruct s as [|c3 s]; [cbn; congruence|].
  inversion_clear Hne as [|? ? N3 Hne4]. inversion_clear Hsp as [|? ? P3 Hsp4].
  cbn [app next_char flow_bind].
  assert (skip_spaces isspace c3 (s ++ [0]) = @Next presult _ (c3, s ++ [0])) as ->.
  { change (@skip_next presult (c3 :: s ++ [0]) = Next (c3, s ++ [0])).
    rewrite skip_next_cons, P3, orb_true_r. reflexivity. }
  cbn [flow_bind]. destruct (Z.eqb_spec c3 Pad64) as [-> |]; cbn [negb flow_bind]; [|congruence].
  intros E. apply (trailing_inv s pre _ 1 (d1 mod 16 * 16)) in E as (-> & Hz & -> & ->); auto; try lia.
  destruct (digits24_group d0 d1 0 0) as (Bx & _ & _ & Hdig); auto; try lia.
  exists [d0 * 4 + d1 / 16], (d1 mod 16 * 16 :: post2). split; [reflexivity|]. split; [forall_list|].
  assert (d1 mod 16 = 0) as Hz1 by lia. rewrite Hz1 in Hdig. change (0 * 16 + 0 / 4) with 0 in Hdig.
  change (0 mod 4 * 64 + 0) with 0 in Hdig.
  split; [cbn [b64_encode]; rewrite Hdig; reflexivity|]. simpl. split; [lia|reflexivity].
Qed.

(** Three digits, then a pad character. *)
Lemma accepted_pad1 s pre post3 x0 x1 x2 d0 d1 d2 t r :
  0 <= d0 < 64 -> 0 <= d1 < 64 -> 0 <= d2 < 64 ->
  Forall (fun c => c <> 0) s -> Forall (fun c => isspace c = false) s -> r <> -1 ->
  pton_finish isspace Pad64 (s ++ [0])
    (Some (pre ++ d0 * 4 + d1 / 16 :: d1 mod 16 * 16 + d2 / 4 :: d2 mod 4 * 64 :: post3))
    (Z.of_nat (length pre) + 2) 3 = Return (t, r) ->
  accepted (b64_digit d0 :: b64_digit d1 :: b64_digit d2 :: Pad64 :: s) pre (x0 :: x1 :: x2 :: post3) t r.
Proof.
  intros D0 D1 D2 Hne Hsp Hr E. unfold pton_finish in E. rewrite Z.eqb_refl in E.
  apply (trailing_inv s pre _ 2 (d2 mod 4 * 64)) in E as (-> & Hz & -> & ->); auto; try lia.
  destruct (digits24_group d0 d1 d2 0) as (Bx & By & _ & Hdig); auto; try lia.
  exists [d0 * 4 + d1 / 16; d1 mod 16 * 16 + d2 / 4], (d2 mod 4 * 64 :: post3). split; [reflexivity|].
  split; [forall_list|]. assert (d2 mod 4 = 0) as Hz1 by lia. rewrite Hz1 in Hdig.
  change (0 * 64 + 0) with 0 in Hdig.
  split; [cbn [b64_encode]; rewrite Hdig; reflexivity|]. simpl. split; [lia|reflexivity].
Qed.

(** A full quantum, then the rest. *)
Lemma accepted_group s pre post3 x0 x1 x2 d0 d1 d2 d3 t r :
  0 <= d0 < 64 -> 0 <= d1 < 64 -> 0 <= d2 < 64 -> 0 <= d3 < 64 ->
  accepted s (pre ++ [d0 * 4 + d1 / 16; d1 mod 16 * 16 + d2 / 4; d2 mod 4 * 64 + d3]) post3 t r ->
  accepted (List.map b64_digit [d0; d1; d2; d3] ++ s) pre (x0 :: x1 :: x2 :: post3) t r.
Proof.
  intros D0 D1 D2 D3 (bs & rest & -> & Hbs & -> & -> & Hl).
  destruct (digits24_group d0 d1 d2 d3) as (Bx & By & Bz & Hdig); auto.
  eexists (_ :: _ :: _ :: bs), rest. rewrite <- app_assoc. split; [reflexivity|]. split; [forall_list|].
  split; [cbn [b64_encode]; rewrite Hdig; reflexivity|]. rewrite length_app. cbn [List.length app] in *. split; lia.
Qed.

Ltac next_char_of s Hne Hsp E :=
  let c := fresh "c" in let N := fresh "N" in let P := fresh "P" in
  let Hne' := fresh "Hne" in let Hsp' := fresh "Hsp" in
  destruct s as [|c s]; [cbn [app] in E; rewrite pton_end in E; simpl in E; congruence|];
  inversion Hne as [|? ? N Hne']; inversion Hsp as [|? ? P Hsp']; subst; clear Hne Hsp; rename Hne' into Hne, Hsp' into Hsp.

Lemma accept_from n s pre post targsize t r :
  (length s <= n)%nat -> Forall (fun c => c <> 0) s -> Forall (fun c => isspace c = false) s -> r <> -1 ->
  targsize <= Z.of_nat (length (pre ++ post)) -> targsize < 2 ^ 31 ->
  pton_from isspace (s ++ [0]) (Some (pre ++ post)) targsize (Z.of_nat (length pre)) 0 = Return (t, r) ->
  accepted s pre post t r.
Proof.
  revert s pre post. induction n as [|n IH]; intros s pre post Hn Hne Hsp Hr Hts Hti E.
  { destruct s; [|simpl in Hn; lia]. cbn [app] in E. rewrite pton_end in E. injection E as <- <-. apply accepted_nil. }
  destruct s as [|c0 s].
  { cbn [app] in E. rewrite pton_end in E. injection E as <- <-. apply accepted_nil. }
  inversion_clear Hne as [|? ? N0 Hne1]. inversion_clear Hsp as [|? ? P0 Hsp1].
  apply char_cases in E as [[-> E]|(d0 & D0 & -> & E)]; auto.
  { exfalso. revert E. unfold pton_finish. destruct s; cbn; congruence. }
  apply step0_inv in E as (x0 & post1 & -> & B0 & E); auto.
  next_char_of s Hne1 Hsp1 E.
  apply char_cases in E as [[-> E]|(d1 & D1 & -> & E)]; auto.
  { exfalso. revert E. unfold pton_finish. destruct s; cbn; congruence. }
  rewrite length_app in Hts. cbn [List.length] in Hts.
  apply step1_inv in E as (x1 & post2 & -> & E); auto; [|rewrite length_app; cbn [List.length]; lia].
  next_char_of s Hne1 Hsp1 E.
  apply char_cases in E as [[-> E]|(d2 & D2 & -> & E)]; auto; [apply accepted_pad2; assumption|].
  cbn [List.length] in Hts.
  apply step2_inv in E as (x2 & post3 & -> & B2 & E); auto; [|rewrite length_app; cbn [List.length]; lia].
  next_char_of s Hne1 Hsp1 E.
  apply char_cases in E as [[-> E]|(d3 & D3 & -> & E)]; auto; [apply accepted_pad1; assumption|].
  apply step3_inv in E; auto. apply accepted_group; auto.
  set (q := [d0 * 4 + d1 / 16; d1 mod 16 * 16 + d2 / 4; d2 mod 4 * 64 + d3]).
  replace (Z.of_nat (length pre) + 3) with (Z.of_nat (length (pre ++ q))) in E
    by (rewrite length_app; change (length q) with 3%nat; lia).
  rewrite (app_assoc pre q post3 : pre ++ _ :: _ :: _ :: post3 = _) in E.
  apply IH; auto.
  - simpl in Hn. lia.
  - rewrite !length_app. change (length q) with 3%nat. cbn [List.length] in Hts. lia.
Qed.
End Decoder.

(** C23: decoding the text that [b64_ntop] produces, with any white space
    mixed in, stores the original bytes at the start of the target and returns their number,
    provided that the target has room for them (and for one byte of padding bits when their
    number is not a multiple of three). *)
Theorem b64_pton_roundtrip isspace bs text target targsize :
  isspace 0 = false -> (forall c, In c Base64 \/ c = Pad64 -> isspace c = false) ->
  Forall is_byte bs -> strip isspace text = b64_encode bs ->
  Z.of_nat (length bs + slop_len bs) <= targsize <= Z.of_nat (length target) -> Z.of_nat (length bs) < 2 ^ 31 ->
  b64_pton isspace (text ++ [0]) (Some target) targsize =
  Return (Some (bs ++ after bs target), Z.of_nat (length bs)).
Proof.
  intros H0 Ha Hbs Hs Ht Hl. unfold b64_pton.
  rewrite <- pton_from_strip by (assumption || apply in_app_iff; simpl; auto).
  assert (strip isspace (text ++ [0]) = b64_encode bs ++ [0]) as ->.
  { unfold strip in *. rewrite List.filter_app, Hs. simpl. rewrite H0. reflexivity. }
  exact (pton_encode isspace Ha bs Hbs [] target targsize ltac:(lia) ltac:(simpl; lia) ltac:(simpl; lia)).
Qed.

(** C22: whatever text the decoder accepts is, white space aside, the base 64
    encoding of the bytes it stored: padding, trailing characters and stray bits included,
    there is no second spelling.  The target keeps its size. *)
Theorem b64_pton_sound isspace text target targsize t r :
  isspace 0 = false -> Forall (fun c => c <> 0) text ->
  targsize <= Z.of_nat (length target) -> targsize < 2 ^ 31 ->
  b64_pton isspace (text ++ [0]) (Some target) targsize = Return (t, r) -> r <> -1 ->
  exists bs rest, t = Some (bs ++ rest) /\ length (bs ++ rest) = length target /\ r = Z.of_nat (length bs) /\
    Forall is_byte bs /\ strip isspace text = b64_encode bs.
Proof.
  intros H0 Hne Ht Hti E Hr. unfold b64_pton in E.
  rewrite <- pton_from_strip in E by (assumption || apply in_app_iff; simpl; auto).
  assert (strip isspace (text ++ [0]) = strip isspace text ++ [0]) as Es.
  { unfold strip. rewrite List.filter_app. simpl. rewrite H0. reflexivity. }
  rewrite Es in E.
  destruct (accept_from isspace (length (strip isspace text)) (strip isspace text) [] target targsize t r)
    as (bs & rest & -> & Hbs & Hs & -> & Hl); auto.
  - apply Forall_forall. intros c Hc. apply list_elem_of_In, filter_In in Hc as [Hc _].
    rewrite Forall_forall in Hne. apply Hne. apply list_elem_of_In. assumption.
  - apply Forall_forall. intros c Hc. apply list_elem_of_In, filter_In in Hc as [_ Hc].
    apply negb_true_iff in Hc. assumption.
  - exists bs, rest. auto.
Qed.

(** * Witnesses *)

(** White space of the C locale. *)
Definition c_isspace (c : Z) : bool := (c =? 32) || ((9 <=? c) && (c <=? 13)).

Lemma c_isspace_alphabet c : In c Base64 \/ c = Pad64 -> c_isspace c = false.
Proof.
  intros [Hc| ->]; [|reflexivity]. pose proof Base64_bytes as Hb. rewrite Forall_forall in Hb.
  apply list_elem_of_In, Hb in Hc as [Hr _]. unfold c_isspace. zdecide. reflexivity.
Qed.

Lemma b64_ntop_witness :
  b64_ntop [102; 111; 111; 98] (repeat 7 10) 10 = Return ([90; 109; 57; 118; 89; 103; 61; 61; 0; 7], 8).
Proof.
  apply (b64_ntop_correct [102; 111; 111; 98] (repeat 7 10) 10).
  - wf_bytes.
  - simpl. lia.
  - vm_compute. reflexivity.
  - vm_compute. reflexivity.
Defined.

Lemma b64_pton_roundtrip_witness :
  b64_pton c_isspace ([90; 109; 32; 57; 118; 10; 89; 103; 61; 32; 61] ++ [0]) (Some (repeat 7 6)) 6 =
  Return (Some ([102; 111; 111; 98] ++ [0; 7]), 4).
Proof.
  apply (b64_pton_roundtrip c_isspace [102; 111; 111; 98] [90; 109; 32; 57; 118; 10; 89; 103; 61; 32; 61] (repeat 7 6) 6).
  - reflexivity.
  - exact c_isspace_alphabet.
  - wf_bytes.
  - reflexivity.
  - simpl. unfold slop_len. simpl. lia.
  - simpl. lia.
Defined.

Lemma b64_pton_sound_witness :
  exists bs rest, Some [102; 111; 111; 98; 0; 7] = Some (bs ++ rest) /\ length (bs ++ rest) = length (repeat 7 6) /\
    4 = Z.of_nat (length bs) /\ Forall is_byte bs /\
    strip c_isspace [90; 109; 32; 57; 118; 89; 103; 61; 61; 10] = b64_encode bs.
Proof.
  apply (b64_pton_sound c_isspace [90; 109; 32; 57; 118; 89; 103; 61; 61; 10] (repeat 7 6) 6).
  - reflexivity.
  - repeat constructor; discriminate.
  - simpl. lia.
  - lia.
  - reflexivity.
  - lia.
Defined.

(** A padded quantum needs one byte more than it decodes to: the byte [A] is refused by a
    target of one byte. *)
Example b64_pton_exact_fit : b64_pton c_isspace ([81; 81; 61; 61] ++ [0]) (Some [7]) 1 = Return (Some [4 * 16], -1).
Proof. reflexivity. Qed.
