(* ===== verification/Mpn.v ===== *)
(** Multiple-precision naturals, the limb loops: stdlib/add_n.c, sub_n.c, mul_1.c,
    addmul_1.c, submul_1.c, lshift.c, rshift.c, cmp.c, the inline functions of
    stdlib/gmp.h and the portable [umul_ppmm] of stdlib/longlong.h.

    Memory is addressed by limbs here: a cell holds an [mp_limb_t], an [unsigned long
    int] of [wordbits A] bits, and a pointer is the index of a cell.  A number is the
    list of its limbs, least significant first, with value [lval].  An operation on
    memory is specified by the operation on lists that it implements ([limbs_op]), for
    every overlap of its operands that the loop tolerates. *)
From S2P Require Import Prelude CMem MemWrite.

(** The value of a boolean expression of C. *)
Definition b2z (b : bool) : Z := if b then 1 else 0.

Section Mpn.
Context (A : arch).

Definition limb_bits : Z := wordbits A.

Definition limb_base : Z := 2 ^ limb_bits.

(** Arithmetic on [mp_limb_t] wraps. *)
Definition lw (z : Z) : Z := uwrap limb_bits z.

Definition lload {R} (m : mem) (p : Z) : flow R Z :=
  match m !! p with Some v => Next v | None => Fault end.

Definition lstore {R} (m : mem) (p v : Z) : flow R mem :=
  match m !! p with Some _ => Next (<[p := v]> m) | None => Fault end.

(** ** longlong.h *)

Definition ll_B : Z := 2 ^ (limb_bits / 2).

Definition ll_lowpart (t : Z) : Z := Z.land t (ll_B - 1).

Definition ll_highpart (t : Z) : Z := Z.shiftr t (limb_bits / 2).

(** The high and the low limb of a product. *)
Definition umul_ppmm (u v : Z) : Z * Z :=
  let ul := ll_lowpart u in
  let uh := ll_highpart u in
  let vl := ll_lowpart v in
  let vh := ll_highpart v in
  let x0 := lw (ul * vl) in
  let x1 := lw (ul * vh) in
  let x2 := lw (uh * vl) in
  let x3 := lw (uh * vh) in
  let x1 := lw (x1 + ll_highpart x0) in
  let x1 := lw (x1 + x2) in
  let x3 := if x1 <? x2 then lw (x3 + ll_B) else x3 in
  (lw (x3 + ll_highpart x1), lw (ll_lowpart x1 * ll_B + ll_lowpart x0)).

(** ** Loops from the least significant limb up *)

(** [do { ... } while (++j != 0)] over [n] limbs: each round reads one limb of each
    source, stores one limb of the result and passes a carry on. *)
Fixpoint limb_loop {R} (body : Z -> Z -> Z -> Z * Z) (n : nat) (m : mem) (res_ptr s1_ptr s2_ptr cy : Z) :
    flow R (mem * Z) :=
  match n with
  | O => Next (m, cy)
  | S n =>
      let! y := lload m s2_ptr in
      let! x := lload m s1_ptr in
      let '(r, cy) := body x y cy in
      let! m := lstore m res_ptr r in
      limb_loop body n m (res_ptr + 1) (s1_ptr + 1) (s2_ptr + 1) cy
  end.

(** The loops test their counter after the first round: a size that is not positive
    makes them run away. *)
Definition do_limbs {R} (body : Z -> Z -> Z -> Z * Z) (m : mem) (res_ptr s1_ptr s2_ptr size : Z) :
    flow R (mem * Z) :=
  if size <=? 0 then Fault else limb_loop body (Z.to_nat size) m res_ptr s1_ptr s2_ptr 0.

Definition add_n_body (x y cy : Z) : Z * Z :=
  let y := lw (y + cy) in
  let cy := b2z (y <? cy) in
  let y := lw (x + y) in
  let cy := lw (b2z (y <? x) + cy) in
  (y, cy).

Definition mpn_add_n {R} (m : mem) (res_ptr s1_ptr s2_ptr size : Z) : flow R (mem * Z) :=
  do_limbs add_n_body m res_ptr s1_ptr s2_ptr size.

Definition sub_n_body (x y cy : Z) : Z * Z :=
  let y := lw (y + cy) in
  let cy := b2z (y <? cy) in
  let y := lw (x - y) in
  let cy := lw (b2z (x <? y) + cy) in
  (y, cy).

Definition mpn_sub_n {R} (m : mem) (res_ptr s1_ptr s2_ptr size : Z) : flow R (mem * Z) :=
  do_limbs sub_n_body m res_ptr s1_ptr s2_ptr size.

(** The product of a limb and the multiplier, plus the carry limb: [prod_low] and the new carry. *)
Definition mul_step (s1_limb s2_limb cy_limb : Z) : Z * Z :=
  let '(prod_high, prod_low) := umul_ppmm s1_limb s2_limb in
  let prod_low := lw (prod_low + cy_limb) in
  let cy_limb := lw (b2z (prod_low <? cy_limb) + prod_high) in
  (prod_low, cy_limb).

Definition mul_1_body (s2_limb x _y cy_limb : Z) : Z * Z := mul_step x s2_limb cy_limb.

Definition mpn_mul_1 {R} (m : mem) (res_ptr s1_ptr s1_size s2_limb : Z) : flow R (mem * Z) :=
  do_limbs (mul_1_body s2_limb) m res_ptr s1_ptr s1_ptr s1_size.

Definition addmul_1_body (s2_limb s1 x cy_limb : Z) : Z * Z :=
  let '(prod_low, cy_limb) := mul_step s1 s2_limb cy_limb in
  let prod_low := lw (x + prod_low) in
  let cy_limb := lw (cy_limb + b2z (prod_low <? x)) in
  (prod_low, cy_limb).

(** The second operand of the loop is the result area itself. *)
Definition mpn_addmul_1 {R} (m : mem) (res_ptr s1_ptr s1_size s2_limb : Z) : flow R (mem * Z) :=
  do_limbs (addmul_1_body s2_limb) m res_ptr s1_ptr res_ptr s1_size.

Definition submul_1_body (s2_limb s1 x cy_limb : Z) : Z * Z :=
  let '(prod_low, cy_limb) := mul_step s1 s2_limb cy_limb in
  let prod_low := lw (x - prod_low) in
  let cy_limb := lw (cy_limb + b2z (x <? prod_low)) in
  (prod_low, cy_limb).

Definition mpn_submul_1 {R} (m : mem) (res_ptr s1_ptr s1_size s2_limb : Z) : flow R (mem * Z) :=
  do_limbs (submul_1_body s2_limb) m res_ptr s1_ptr res_ptr s1_size.

(** ** gmp-impl.h *)

Fixpoint MPN_COPY {R} (n : nat) (m : mem) (dst src : Z) : flow R mem :=
  match n with
  | O => Next m
  | S n =>
      let! x := lload m src in
      let! m := lstore m dst x in
      MPN_COPY n m (dst + 1) (src + 1)
  end.

Fixpoint MPN_ZERO {R} (n : nat) (m : mem) (dst : Z) : flow R mem :=
  match n with
  | O => Next m
  | S n => let! m := lstore m dst 0 in MPN_ZERO n m (dst + 1)
  end.

(** ** gmp.h *)

(** The label [fin]: the rest is copied unless the operation is in place. *)
Definition copy_rest {R} (m : mem) (res_ptr s1_ptr s1_size : Z) : flow R (mem * Z) :=
  if res_ptr =? s1_ptr then Next (m, 0) else
  let! m := MPN_COPY (Z.to_nat (s1_size - 1)) m res_ptr s1_ptr in Next (m, 0).

(** [while (--s1_size != 0)]; [n] is [s1_size - 1]. *)
Fixpoint add_1_carry {R} (n : nat) (m : mem) (res_ptr s1_ptr : Z) : flow R (mem * Z) :=
  match n with
  | O => Next (m, 1)
  | S n' =>
      let! x := lload m s1_ptr in
      let x := lw (x + 1) in
      let! m := lstore m res_ptr x in
      if negb (x =? 0) then copy_rest m (res_ptr + 1) (s1_ptr + 1) (Z.of_nat n)
      else add_1_carry n' m (res_ptr + 1) (s1_ptr + 1)
  end.

Definition mpn_add_1 {R} (m : mem) (res_ptr s1_ptr s1_size s2_limb : Z) : flow R (mem * Z) :=
  let! x := lload m s1_ptr in
  let s2_limb := lw (x + s2_limb) in
  let! m := lstore m res_ptr s2_limb in
  if s2_limb <? x then
    if s1_size <=? 0 then Fault else add_1_carry (Z.to_nat (s1_size - 1)) m (res_ptr + 1) (s1_ptr + 1)
  else copy_rest m (res_ptr + 1) (s1_ptr + 1) s1_size.

Definition mpn_add {R} (m : mem) (res_ptr s1_ptr s1_size s2_ptr s2_size : Z) : flow R (mem * Z) :=
  let! '(m, cy_limb) := if s2_size =? 0 then Next (m, 0) else mpn_add_n m res_ptr s1_ptr s2_ptr s2_size in
  if s1_size - s2_size =? 0 then Next (m, cy_limb)
  else mpn_add_1 m (res_ptr + s2_size) (s1_ptr + s2_size) (s1_size - s2_size) cy_limb.

Fixpoint sub_1_borrow {R} (n : nat) (m : mem) (res_ptr s1_ptr : Z) : flow R (mem * Z) :=
  match n with
  | O => Next (m, 1)
  | S n' =>
      let! x := lload m s1_ptr in
      let! m := lstore m res_ptr (lw (x - 1)) in
      if negb (x =? 0) then copy_rest m (res_ptr + 1) (s1_ptr + 1) (Z.of_nat n)
      else sub_1_borrow n' m (res_ptr + 1) (s1_ptr + 1)
  end.

Definition mpn_sub_1 {R} (m : mem) (res_ptr s1_ptr s1_size s2_limb : Z) : flow R (mem * Z) :=
  let! x := lload m s1_ptr in
  let s2_limb := lw (x - s2_limb) in
  let! m := lstore m res_ptr s2_limb in
  if x <? s2_limb then
    if s1_size <=? 0 then Fault else sub_1_borrow (Z.to_nat (s1_size - 1)) m (res_ptr + 1) (s1_ptr + 1)
  else copy_rest m (res_ptr + 1) (s1_ptr + 1) s1_size.

Definition mpn_sub {R} (m : mem) (res_ptr s1_ptr s1_size s2_ptr s2_size : Z) : flow R (mem * Z) :=
  let! '(m, cy_limb) := if s2_size =? 0 then Next (m, 0) else mpn_sub_n m res_ptr s1_ptr s2_ptr s2_size in
  if s1_size - s2_size =? 0 then Next (m, cy_limb)
  else mpn_sub_1 m (res_ptr + s2_size) (s1_ptr + s2_size) (s1_size - s2_size) cy_limb.

(** ** Shifts and comparison *)

(** [while (--i >= 0)], then the store that follows it; [i] limbs are left to read. *)
Fixpoint lshift_loop {R} (i : nat) (m : mem) (wp up sh_1 sh_2 high_limb : Z) : flow R mem :=
  match i with
  | O => lstore m wp (lw (Z.shiftl high_limb sh_1))
  | S i =>
      let! low_limb := lload m (up + Z.of_nat i) in
      let! m := lstore m (wp + 1 + Z.of_nat i) (Z.lor (lw (Z.shiftl high_limb sh_1)) (Z.shiftr low_limb sh_2)) in
      lshift_loop i m wp up sh_1 sh_2 low_limb
  end.

Definition mpn_lshift {R} (m : mem) (wp up usize cnt : Z) : flow R (mem * Z) :=
  let sh_1 := cnt in
  let sh_2 := limb_bits - sh_1 in
  let! low_limb := lload m (up + (usize - 1)) in
  let retval := Z.shiftr low_limb sh_2 in
  let! m := lshift_loop (Z.to_nat (usize - 1)) m wp up sh_1 sh_2 low_limb in
  Next (m, retval).

(** [for (i = 1; i < usize; i++)], then the store that follows it; [up] and [wp] move on
    instead of [i]. *)
Fixpoint rshift_loop {R} (n : nat) (m : mem) (wp up sh_1 sh_2 low_limb : Z) : flow R mem :=
  match n with
  | O => lstore m wp (Z.shiftr low_limb sh_1)
  | S n =>
      let! high_limb := lload m up in
      let! m := lstore m wp (Z.lor (Z.shiftr low_limb sh_1) (lw (Z.shiftl high_limb sh_2))) in
      rshift_loop n m (wp + 1) (up + 1) sh_1 sh_2 high_limb
  end.

Definition mpn_rshift {R} (m : mem) (wp up usize cnt : Z) : flow R (mem * Z) :=
  let sh_1 := cnt in
  let sh_2 := limb_bits - sh_1 in
  let! high_limb := lload m up in
  let retval := lw (Z.shiftl high_limb sh_2) in
  let! m := rshift_loop (Z.to_nat (usize - 1)) m wp (up + 1) sh_1 sh_2 high_limb in
  Next (m, retval).

(** [for (i = size - 1; i >= 0; i--)] *)
Fixpoint cmp_loop {R} (n : nat) (m : mem) (op1_ptr op2_ptr : Z) : flow R Z :=
  match n with
  | O => Next 0
  | S i =>
      let! op1_word := lload m (op1_ptr + Z.of_nat i) in
      let! op2_word := lload m (op2_ptr + Z.of_nat i) in
      if op1_word =? op2_word then cmp_loop i m op1_ptr op2_ptr
      else Next (if op2_word <? op1_word then 1 else -1)
  end.

Definition mpn_cmp {R} (m : mem) (op1_ptr op2_ptr size : Z) : flow R Z :=
  cmp_loop (Z.to_nat size) m op1_ptr op2_ptr.

(** * Numbers *)

Fixpoint lval (l : list Z) : Z :=
  match l with [] => 0 | x :: l => x + limb_base * lval l end.

Definition limb (x : Z) : Prop := 0 <= x < limb_base.

Hint Unfold limb : cint.

Lemma limb_bits_cases : limb_bits = 32 \/ limb_bits = 64.
Proof. unfold limb_bits, wordbits. destruct (wordsize_cases A) as [-> | ->]; auto. Qed.

Lemma limb_base_gt : 2 ^ 32 <= limb_base.
Proof. unfold limb_base. destruct limb_bits_cases as [-> | ->]; lia. Qed.

Lemma lw_limb z : limb (lw z).
Proof. apply uwrap_range. destruct limb_bits_cases; lia. Qed.

Lemma lw_small z : limb z -> lw z = z.
Proof. apply uwrap_small. Qed.

(** A value that is at most one wrap away from its representation. *)
Lemma lw_cases z :
  - limb_base <= z < 2 * limb_base ->
  lw z = z /\ 0 <= z < limb_base \/ lw z = z - limb_base /\ limb_base <= z \/ lw z = z + limb_base /\ z < 0.
Proof.
  intros Hz. unfold lw, uwrap. fold limb_base. pose proof limb_base_gt.
  destruct (decide (z < 0)); [right; right|destruct (decide (z < limb_base)); [left|right; left]]; (split; [|lia]).
  - symmetry. apply Z.mod_unique with (-1); lia.
  - apply Z.mod_small. lia.
  - symmetry. apply Z.mod_unique with 1; lia.
Qed.

Lemma b2z_cases b : b = true /\ b2z b = 1 \/ b = false /\ b2z b = 0.
Proof. destruct b; auto. Qed.

(** Carry arithmetic: split on every wrapped sum and comparison, then linear arithmetic. *)
Ltac closed t := lazymatch t with context [lw _] => fail | context [b2z _] => fail | _ => idtac end.

Ltac carry_step :=
  match goal with
  | |- context [b2z (?x <? ?y)] => closed x; closed y; destruct (Z.ltb_spec x y); cbn [b2z]
  | |- context [lw ?z] => closed z; destruct (lw_cases z) as [[-> ?]|[[-> ?]|[-> ?]]]; [lia| | |]
  end.

Ltac carry := repeat (carry_step; try lia).

(** ** The portable double-limb product *)

Lemma ll_B_sq : ll_B * ll_B = limb_base /\ 2 ^ 16 <= ll_B.
Proof.
  unfold ll_B, limb_base. destruct limb_bits_cases as [-> | ->]; split; reflexivity || (vm_compute; congruence).
Qed.

Lemma half_bits : 0 <= limb_bits / 2.
Proof. apply Z.div_pos; destruct limb_bits_cases; lia. Qed.

Lemma ll_parts t : limb t ->
  ll_lowpart t = t mod ll_B /\ ll_highpart t = t / ll_B /\
  t = ll_lowpart t + ll_B * ll_highpart t /\ 0 <= ll_lowpart t < ll_B /\ 0 <= ll_highpart t < ll_B.
Proof.
  intros Ht. destruct ll_B_sq as [Hsq Hge]. unfold limb in Ht.
  assert (ll_lowpart t = t mod ll_B) as E1.
  { unfold ll_lowpart, ll_B. rewrite <- Z.land_ones, Z.ones_equiv by exact half_bits.
    rewrite <- Z.sub_1_r. reflexivity. }
  assert (ll_highpart t = t / ll_B) as E2.
  { unfold ll_highpart, ll_B. apply Z.shiftr_div_pow2. exact half_bits. }
  pose proof (Z.div_mod t ll_B). pose proof (Z.mod_pos_bound t ll_B).
  rewrite E1, E2. repeat split; try lia; [apply Z.div_pos; lia|apply Z.div_lt_upper_bound; lia].
Qed.

Lemma two_digits b x y : 0 <= x < b -> 0 <= y < b -> 0 <= x * b + y < b * b.
Proof. nia. Qed.

Lemma digit_mul b x y : 0 <= x < b -> 0 <= y < b -> 0 <= x * y <= b * b - 2 * b + 1.
Proof. nia. Qed.

(** A number below [n * n] with a digit [lo < n] has its other digit below [n]. *)
Lemma high_digit n h lo p : 0 < n -> 0 <= lo < n -> 0 <= p < n * n -> h * n + lo = p -> 0 <= h < n.
Proof. intros. split; nia. Qed.

Lemma umul_ppmm_spec u v : limb u -> limb v ->
  let '(h, l) := umul_ppmm u v in limb h /\ limb l /\ h * limb_base + l = u * v.
Proof.
  intros Hu Hv. unfold umul_ppmm. destruct ll_B_sq as [Hsq Hge].
  destruct (ll_parts u Hu) as (_ & _ & Eu & Ul & Uh). destruct (ll_parts v Hv) as (_ & _ & Ev & Vl & Vh).
  set (ul := ll_lowpart u) in *. set (uh := ll_highpart u) in *.
  set (vl := ll_lowpart v) in *. set (vh := ll_highpart v) in *. set (b := ll_B) in *.
  pose proof (digit_mul b ul vl Ul Vl) as H0. pose proof (digit_mul b ul vh Ul Vh) as H1.
  pose proof (digit_mul b uh vl Uh Vl) as H2. pose proof (digit_mul b uh vh Uh Vh) as H3.
  rewrite !(lw_small (_ * _)) by (unfold limb; lia).
  destruct (ll_parts (ul * vl)) as (_ & _ & E0 & L0 & L0h); [unfold limb; lia|]. fold b in E0, L0, L0h.
  set (x0l := ll_lowpart (ul * vl)) in *. set (x0h := ll_highpart (ul * vl)) in *.
  rewrite (lw_small (ul * vh + x0h)) by (unfold limb; lia).
  set (s := ul * vh + x0h + uh * vl).
  destruct (ll_parts (lw s) (lw_limb s)) as (_ & _ & Es & Ls & Lh). fold b in Es, Ls, Lh.
  set (sl := ll_lowpart (lw s)) in *. set (sh := ll_highpart (lw s)) in *.
  assert (u * v = uh * vh * limb_base + s * b + x0l) as Euv.
  { rewrite <- Hsq. rewrite Eu, Ev at 1. subst s. replace (ul * vh + x0h + uh * vl) with (x0h + (ul * vh + uh * vl)) by ring.
    replace ((ul + b * uh) * (vl + b * vh)) with (ul * vl + b * (ul * vh + uh * vl) + uh * vh * (b * b)) by ring. lia. }
  pose proof (two_digits b sl x0l Ls L0) as Hlo. rewrite Hsq in Hlo. rewrite (lw_small (sl * b + x0l)) by exact Hlo.
  assert (0 <= u * v < limb_base * limb_base) as Hprod by (unfold limb in Hu, Hv; clear -Hu Hv; nia).
  assert (0 < limb_base) as Hpos by (pose proof limb_base_gt; lia).
  assert (forall h, h * limb_base + (sl * b + x0l) = u * v ->
    limb (lw h) /\ limb (sl * b + x0l) /\ lw h * limb_base + (sl * b + x0l) = u * v) as Hfin.
  { intros h Eh. rewrite lw_small; [|apply (high_digit _ _ _ _ Hpos Hlo Hprod Eh)].
    split; [apply (high_digit _ _ _ _ Hpos Hlo Hprod Eh)|auto]. }
  assert (0 <= s < 2 * limb_base) as Hsr by (subst s; lia).
  assert (s = lw s + limb_base * (if lw s <? uh * vl then 1 else 0)) as Ecy.
  { destruct (lw_cases s ltac:(lia)) as [[E ?]|[[E ?]|[_ ?]]]; [| |lia]; destruct (Z.ltb_spec (lw s) (uh * vl)); subst s; lia. }
  assert (forall c, s = lw s + limb_base * c ->
    (uh * vh + b * c + sh) * limb_base + (sl * b + x0l) = u * v) as Hsum.
  { intros c Ec. rewrite Euv, Ec, Es, <- Hsq. ring. }
  destruct (lw s <? uh * vl).
  - pose proof (Hsum 1 Ecy) as E. rewrite Z.mul_1_r in E.
    pose proof (high_digit _ _ _ _ Hpos Hlo Hprod E). rewrite (lw_small (uh * vh + b)) by (unfold limb; lia).
    apply Hfin. exact E.
  - pose proof (Hsum 0 Ecy) as E. rewrite Z.mul_0_r, Z.add_0_r in E. apply Hfin. exact E.
Qed.

(** Writing upwards at [res] does not disturb the limbs of [s] that are still to be read. *)
Definition reads_ahead (res s : Z) (n : nat) : Prop := ~ (s < res < s + Z.of_nat n).

(** ** The loops on lists *)

Fixpoint map2c (body : Z -> Z -> Z -> Z * Z) (u v : list Z) (cy : Z) : list Z * Z :=
  match u, v with
  | x :: u, y :: v =>
      let '(r, cy) := body x y cy in
      let '(l, cy) := map2c body u v cy in (r :: l, cy)
  | _, _ => ([], cy)
  end.

Lemma length_map2c body u v cy : length u = length v -> length (fst (map2c body u v cy)) = length u.
Proof.
  revert v cy. induction u as [|x u IH]; intros [|y v] cy Hl; try discriminate; [reflexivity|].
  simpl. destruct (body x y cy) as [r cy']. specialize (IH v cy'). destruct (map2c body u v cy').
  simpl in *. rewrite IH; congruence.
Qed.

Lemma insert_other m p x q l : bytes_at m q l -> (p < q \/ q + Z.of_nat (length l) <= p) -> bytes_at (<[p := x]> m) q l.
Proof.
  intros Hb Hp i b Hi. pose proof (lookup_lt_Some _ _ _ Hi). rewrite lookup_insert_ne by lia. apply Hb. assumption.
Qed.

Lemma lstore_at {R} m p v : is_Some (m !! p) -> @lstore R m p v = Next (<[p := v]> m).
Proof. intros [x Hx]. unfold lstore. rewrite Hx. reflexivity. Qed.

Lemma lload_at {R} m p v : m !! p = Some v -> @lload R m p = Next v.
Proof. intros Hx. unfold lload. rewrite Hx. reflexivity. Qed.

Lemma limb_loop_spec {R} body u v m res s1 s2 cy :
  length u = length v -> bytes_at m s1 u -> bytes_at m s2 v ->
  mapped m res (res + Z.of_nat (length u)) -> reads_ahead res s1 (length u) -> reads_ahead res s2 (length u) ->
  @limb_loop R body (length u) m res s1 s2 cy =
  Next (wr m res (fst (map2c body u v cy)), snd (map2c body u v cy)).
Proof.
  unfold reads_ahead. revert v m res s1 s2 cy.
  induction u as [|x u IH]; intros [|y v] m res s1 s2 cy Hl H1 H2 Hm Ha1 Ha2; try discriminate; [reflexivity|].
  apply bytes_at_cons in H1 as [X1 H1], H2 as [X2 H2]. simpl in *. injection Hl as Hl.
  rewrite (lload_at _ _ _ X2). cbn [flow_bind]. rewrite (lload_at _ _ _ X1). cbn [flow_bind].
  destruct (body x y cy) as [r cy'] eqn:Eb.
  rewrite lstore_at by (apply Hm; lia). cbn [flow_bind].
  rewrite (IH v); try assumption; try lia.
  - destruct (map2c body u v cy'); reflexivity.
  - apply insert_other; [assumption|]. lia.
  - apply insert_other; [assumption|]. rewrite <- Hl. lia.
  - intros a Ha. destruct (Z.eq_dec a res) as [-> |]; [rewrite lookup_insert_eq; eauto|].
    rewrite lookup_insert_ne by lia. apply Hm. lia.
Qed.

(** A body computes the digit and carry of [a * x + b * y], added or ([sg = -1]) borrowed. *)
Lemma map2c_value body (inv : Z -> Prop) a b sg u v cy :
  (forall x y cy, limb x -> limb y -> inv cy ->
     let '(r, cy') := body x y cy in limb r /\ inv cy' /\ r + sg * limb_base * cy' = a * x + b * y + sg * cy) ->
  length u = length v -> Forall limb u -> Forall limb v -> inv cy ->
  let '(l, cy') := map2c body u v cy in
  Forall limb l /\ inv cy' /\
  lval l + sg * limb_base ^ Z.of_nat (length u) * cy' = a * lval u + b * lval v + sg * cy.
Proof.
  intros Hbody. revert v cy. induction u as [|x u IH]; intros [|y v] cy Hl Hu Hv Hcy; try discriminate; simpl.
  - split; [constructor|]. split; [assumption|]. lia.
  - inversion_clear Hu as [|? ? Hx Hu']. inversion_clear Hv as [|? ? Hy Hv'].
    specialize (Hbody x y cy Hx Hy Hcy). destruct (body x y cy) as [r c1]. destruct Hbody as (Hr & Hc1 & E1).
    specialize (IH v c1 ltac:(simpl in Hl; lia) Hu' Hv' Hc1). destruct (map2c body u v c1) as [l c2].
    destruct IH as (Hl2 & Hc2 & E2). split; [constructor; assumption|]. split; [assumption|]. simpl.
    rewrite Nat2Z.inj_succ, Z.pow_succ_r by lia.
    transitivity (r + limb_base * (lval l + sg * limb_base ^ Z.of_nat (length u) * c2)); [ring|]. rewrite E2.
    transitivity (r + sg * limb_base * c1 + limb_base * (a * lval u + b * lval v)); [ring|]. rewrite E1. ring.
Qed.

(** ** The bodies *)

Definition is_carry (cy : Z) : Prop := 0 <= cy <= 1.

Lemma add_n_body_spec x y cy : limb x -> limb y -> is_carry cy ->
  let '(r, cy') := add_n_body x y cy in
  limb r /\ is_carry cy' /\ r + 1 * limb_base * cy' = 1 * x + 1 * y + 1 * cy.
Proof.
  unfold add_n_body, limb, is_carry. intros Hx Hy Hc. pose proof limb_base_gt. cbv zeta. carry.
Qed.

Lemma sub_n_body_spec x y cy : limb x -> limb y -> is_carry cy ->
  let '(r, cy') := sub_n_body x y cy in
  limb r /\ is_carry cy' /\ r + (-1) * limb_base * cy' = 1 * x + (-1) * y + (-1) * cy.
Proof.
  unfold sub_n_body, limb, is_carry. intros Hx Hy Hc. pose proof limb_base_gt. cbv zeta. carry.
Qed.

Lemma mul_step_spec x s cy : limb x -> limb s -> limb cy ->
  let '(lo, cy') := mul_step x s cy in limb lo /\ limb cy' /\ lo + limb_base * cy' = x * s + cy.
Proof.
  intros Hx Hs Hc. unfold mul_step. pose proof (umul_ppmm_spec x s Hx Hs) as Hp.
  destruct (umul_ppmm x s) as [h l]. destruct Hp as (Hh & Hl & E). unfold limb in *. pose proof limb_base_gt.
  assert (h <= limb_base - 2) as Hh2 by nia.
  carry.
Qed.

Lemma mul_1_body_spec s x y cy : limb s -> limb x -> limb y -> limb cy ->
  let '(r, cy') := mul_1_body s x y cy in limb r /\ limb cy' /\ r + 1 * limb_base * cy' = s * x + 0 * y + 1 * cy.
Proof.
  intros Hs Hx _ Hc. unfold mul_1_body. pose proof (mul_step_spec x s cy Hx Hs Hc) as H.
  destruct (mul_step x s cy). destruct H as (? & ? & ?). repeat split; try apply H; try apply H0; lia.
Qed.

Lemma addmul_1_body_spec s x y cy : limb s -> limb x -> limb y -> limb cy ->
  let '(r, cy') := addmul_1_body s x y cy in limb r /\ limb cy' /\ r + 1 * limb_base * cy' = s * x + 1 * y + 1 * cy.
Proof.
  intros Hs Hx Hy Hc. unfold addmul_1_body. pose proof (mul_step_spec x s cy Hx Hs Hc) as H.
  destruct (mul_step x s cy) as [lo c]. destruct H as (Hlo & Hc' & E). unfold limb in *. pose proof limb_base_gt.
  assert (lo + limb_base * c <= (limb_base - 1) * limb_base) as Hmax by nia.
  assert (c <= limb_base - 1 /\ (c = limb_base - 1 -> lo = 0)) as [? ?] by (split; [lia|intros ->; nia]).
  carry.
Qed.

Lemma submul_1_body_spec s x y cy : limb s -> limb x -> limb y -> limb cy ->
  let '(r, cy') := submul_1_body s x y cy in
  limb r /\ limb cy' /\ r + (-1) * limb_base * cy' = (- s) * x + 1 * y + (-1) * cy.
Proof.
  intros Hs Hx Hy Hc. unfold submul_1_body. pose proof (mul_step_spec x s cy Hx Hs Hc) as H.
  destruct (mul_step x s cy) as [lo c]. destruct H as (Hlo & Hc' & E). unfold limb in *. pose proof limb_base_gt.
  assert (lo + limb_base * c <= (limb_base - 1) * limb_base) as Hmax by nia.
  assert (c <= limb_base - 1 /\ (c = limb_base - 1 -> lo = 0)) as [? ?] by (split; [lia|intros ->; nia]).
  carry.
Qed.

(** ** The operations on memory *)

(** [run] writes, at [res], [n] limbs [l] and returns [cy], as [post] says of them. *)
Definition writes {R} (run : flow R (mem * Z)) (m : mem) (res n : Z) (post : list Z -> Z -> Prop) : Prop :=
  exists l cy, run = Next (wr m res l, cy) /\ Z.of_nat (length l) = n /\ Forall limb l /\ post l cy.

Lemma do_limbs_spec {R} body (inv : Z -> Prop) a b sg u v m res s1 s2 size :
  (forall x y cy, limb x -> limb y -> inv cy ->
     let '(r, cy') := body x y cy in limb r /\ inv cy' /\ r + sg * limb_base * cy' = a * x + b * y + sg * cy) ->
  inv 0 -> 0 < size -> Z.of_nat (length u) = size -> Z.of_nat (length v) = size ->
  Forall limb u -> Forall limb v -> bytes_at m s1 u -> bytes_at m s2 v -> mapped m res (res + size) ->
  reads_ahead res s1 (length u) -> reads_ahead res s2 (length u) ->
  writes (@do_limbs R body m res s1 s2 size) m res size
    (fun l cy => inv cy /\ lval l + sg * limb_base ^ size * cy = a * lval u + b * lval v).
Proof.
  intros Hbody H0 Hs Hu Hv Lu Lv B1 B2 Hm A1 A2. unfold do_limbs. rewrite (proj2 (Z.leb_gt _ _)) by lia.
  assert (length u = length v) as Huv by lia.
  replace (Z.to_nat size) with (length u) by lia.
  rewrite (limb_loop_spec body u v) by (assumption || rewrite Hu; assumption).
  pose proof (map2c_value body inv a b sg u v 0 Hbody Huv Lu Lv H0) as Hval.
  pose proof (length_map2c body u v 0 Huv) as Hlen.
  destruct (map2c body u v 0) as [l cy]. destruct Hval as (Ll & Hi & E). rewrite Hu in E.
  exists l, cy. simpl in *. split; [reflexivity|]. split; [lia|]. split; [assumption|]. split; [assumption|]. lia.
Qed.

Lemma reads_ahead_self p n : reads_ahead p p n.
Proof. unfold reads_ahead. lia. Qed.

Lemma limb_0 : limb 0.
Proof. unfold limb. pose proof limb_base_gt. lia. Qed.

Section Operands.
Context {R : Type} (m : mem) (res s1 s2 size : Z) (u v : list Z).
Hypothesis size_pos : 0 < size.
Hypothesis u_len : Z.of_nat (length u) = size.
Hypothesis v_len : Z.of_nat (length v) = size.
Hypothesis u_limbs : Forall limb u.
Hypothesis v_limbs : Forall limb v.
Hypothesis u_at : bytes_at m s1 u.
Hypothesis res_mapped : mapped m res (res + size).
Hypothesis u_ahead : reads_ahead res s1 (length u).

Lemma add_n_spec :
  bytes_at m s2 v -> reads_ahead res s2 (length u) ->
  writes (@mpn_add_n R m res s1 s2 size) m res size
    (fun l cy => is_carry cy /\ lval l + limb_base ^ size * cy = lval u + lval v).
Proof.
  intros v_at v_ahead.
  destruct (do_limbs_spec (R := R) add_n_body is_carry 1 1 1 u v m res s1 s2 size add_n_body_spec)
    as (l & cy & E & Hl & Ll & Hc & Hv); auto; [split; lia|].
  exists l, cy. repeat split; auto; try apply Hc. lia.
Qed.

Lemma sub_n_spec :
  bytes_at m s2 v -> reads_ahead res s2 (length u) ->
  writes (@mpn_sub_n R m res s1 s2 size) m res size
    (fun l cy => is_carry cy /\ lval l - limb_base ^ size * cy = lval u - lval v).
Proof.
  intros v_at v_ahead.
  destruct (do_limbs_spec (R := R) sub_n_body is_carry 1 (-1) (-1) u v m res s1 s2 size sub_n_body_spec)
    as (l & cy & E & Hl & Ll & Hc & Hv); auto; [split; lia|].
  exists l, cy. repeat split; auto; try apply Hc. lia.
Qed.

Lemma mul_1_spec s : limb s ->
  writes (@mpn_mul_1 R m res s1 size s) m res size
    (fun l cy => limb cy /\ lval l + limb_base ^ size * cy = lval u * s).
Proof.
  intros Hs.
  destruct (do_limbs_spec (R := R) (mul_1_body s) limb s 0 1 u u m res s1 s1 size)
    as (l & cy & E & Hl & Ll & Hc & Hv); auto using limb_0.
  { intros. apply mul_1_body_spec; assumption. }
  exists l, cy. split; [exact E|]. split; [assumption|]. split; [assumption|]. split; [assumption|]. lia.
Qed.

Lemma addmul_1_spec s : limb s -> bytes_at m res v ->
  writes (@mpn_addmul_1 R m res s1 size s) m res size
    (fun l cy => limb cy /\ lval l + limb_base ^ size * cy = lval v + lval u * s).
Proof.
  intros Hs v_at.
  destruct (do_limbs_spec (R := R) (addmul_1_body s) limb s 1 1 u v m res s1 res size)
    as (l & cy & E & Hl & Ll & Hc & Hv); auto using limb_0, reads_ahead_self.
  { intros. apply addmul_1_body_spec; assumption. }
  exists l, cy. split; [exact E|]. split; [assumption|]. split; [assumption|]. split; [assumption|]. lia.
Qed.

Lemma submul_1_spec s : limb s -> bytes_at m res v ->
  writes (@mpn_submul_1 R m res s1 size s) m res size
    (fun l cy => limb cy /\ lval l - limb_base ^ size * cy = lval v - lval u * s).
Proof.
  intros Hs v_at.
  destruct (do_limbs_spec (R := R) (submul_1_body s) limb (- s) 1 (-1) u v m res s1 res size)
    as (l & cy & E & Hl & Ll & Hc & Hv); auto using limb_0, reads_ahead_self.
  { intros. apply submul_1_body_spec; assumption. }
  exists l, cy. split; [exact E|]. split; [assumption|]. split; [assumption|]. split; [assumption|]. lia.
Qed.
End Operands.

(** ** Copying *)

Lemma mapped_insert m p x lo hi : mapped m lo hi -> mapped (<[p := x]> m) lo hi.
Proof.
  intros Hm a Ha. destruct (Z.eq_dec a p) as [-> |]; [rewrite lookup_insert_eq; eauto|].
  rewrite lookup_insert_ne by lia. apply Hm. assumption.
Qed.

Lemma copy_spec {R} l m dst src :
  bytes_at m src l -> mapped m dst (dst + Z.of_nat (length l)) -> reads_ahead dst src (length l) ->
  @MPN_COPY R (length l) m dst src = Next (wr m dst l).
Proof.
  unfold reads_ahead. revert m dst src. induction l as [|x l IH]; intros m dst src Hb Hm Ha; [reflexivity|].
  apply bytes_at_cons in Hb as [Hx Hb]. simpl in *.
  rewrite (lload_at _ _ _ Hx). cbn [flow_bind]. rewrite lstore_at by (apply Hm; lia). cbn [flow_bind].
  apply IH; [apply insert_other; [assumption|lia]| |lia].
  apply mapped_insert. intros a Hr. apply Hm. lia.
Qed.

Lemma zero_spec {R} n m dst :
  mapped m dst (dst + Z.of_nat n) -> @MPN_ZERO R n m dst = Next (wr m dst (repeat 0 n)).
Proof.
  revert m dst. induction n as [|n IH]; intros m dst Hm; [reflexivity|]. simpl.
  rewrite lstore_at by (apply Hm; lia). cbn [flow_bind]. apply IH.
  apply mapped_insert. intros a Hr. apply Hm. lia.
Qed.

Lemma copy_rest_spec {R} l m res s1 size :
  bytes_at m s1 l -> mapped m res (res + Z.of_nat (length l)) -> reads_ahead res s1 (length l) ->
  Z.of_nat (length l) = size - 1 -> @copy_rest R m res s1 size = Next (wr m res l, 0).
Proof.
  intros Hb Hm Ha Hs. unfold copy_rest. destruct (Z.eqb_spec res s1) as [-> |].
  - rewrite wr_same by assumption. reflexivity.
  - rewrite <- Hs, Nat2Z.id, copy_spec by assumption. reflexivity.
Qed.

(** ** Adding and subtracting one limb *)

Lemma writes_cons {R} (run : flow R (mem * Z)) m res n x post :
  limb x -> 0 <= n ->
  writes run (<[res := x]> m) (res + 1) n (fun l => post (x :: l)) -> writes run m res (n + 1) post.
Proof.
  intros Hx Hn (l & cy & E & Hl & Ll & Hp). exists (x :: l), cy. split; [exact E|]. simpl. split; [lia|].
  split; [constructor; assumption|assumption].
Qed.

Lemma reads_ahead_tail res s n : reads_ahead res s (S n) -> reads_ahead (res + 1) (s + 1) n.
Proof. unfold reads_ahead. lia. Qed.

(** The first limb of an operation that reads at [s1] and writes at [res]. *)
Lemma tail_ready m res s1 x u r :
  bytes_at m s1 (x :: u) -> mapped m res (res + Z.of_nat (S (length u))) -> reads_ahead res s1 (S (length u)) ->
  bytes_at (<[res := r]> m) (s1 + 1) u /\ mapped (<[res := r]> m) (res + 1) (res + 1 + Z.of_nat (length u)) /\
  reads_ahead (res + 1) (s1 + 1) (length u).
Proof.
  intros Hb Hm Ha. apply bytes_at_cons in Hb as [_ Hb]. split.
  - apply insert_other; [assumption|]. unfold reads_ahead in Ha. lia.
  - split; [apply mapped_insert; intros a Hr; apply Hm; lia|]. apply reads_ahead_tail. assumption.
Qed.

Lemma add_1_carry_spec {R} u m res s1 :
  Forall limb u -> bytes_at m s1 u -> mapped m res (res + Z.of_nat (length u)) -> reads_ahead res s1 (length u) ->
  writes (@add_1_carry R (length u) m res s1) m res (Z.of_nat (length u))
    (fun l cy => is_carry cy /\ lval l + limb_base ^ Z.of_nat (length u) * cy = lval u + 1).
Proof.
  intros Hu. revert m res s1. induction Hu as [|x u Hx Hu IH]; intros m res s1 Hb Hm Ha.
  - exists [], 1. repeat split; try lia. constructor.
  - cbn [length] in *. destruct (tail_ready m res s1 x u (lw (x + 1)) Hb Hm Ha) as (Tb & Tm & Ta).
    apply bytes_at_cons in Hb as [X Hb]. cbn [add_1_carry]. rewrite (lload_at _ _ _ X). cbn [flow_bind].
    rewrite lstore_at by (apply Hm; lia). cbn [flow_bind].
    replace (Z.of_nat (S (length u))) with (Z.of_nat (length u) + 1) by lia.
    apply writes_cons with (x := lw (x + 1)); [apply lw_limb|lia|]. unfold limb in Hx. pose proof limb_base_gt.
    rewrite Z.pow_add_r, Z.pow_1_r by lia. cbn [lval].
    destruct (lw_cases (x + 1)) as [[E ?]|[[E ?]|[E ?]]]; [lia| | |lia]; rewrite E in *.
    + rewrite (proj2 (Z.eqb_neq _ _)) by lia. cbn [negb]. rewrite (copy_rest_spec u) by (assumption || lia).
      exists u, 0. repeat split; auto; try lia.
    + replace (x + 1 - limb_base) with 0 in * by lia. rewrite Z.eqb_refl. cbn [negb].
      destruct (IH _ _ _ Tb Tm Ta) as (l & cy & El & Hl & Ll & Hc & Hv).
      exists l, cy. split; [exact El|]. split; [assumption|]. split; [assumption|]. split; [assumption|].
      replace x with (limb_base - 1) by lia. nia.
Qed.

Lemma add_1_spec {R} u m res s1 size s :
  0 < size -> Z.of_nat (length u) = size -> Forall limb u -> limb s -> bytes_at m s1 u ->
  mapped m res (res + size) -> reads_ahead res s1 (length u) ->
  writes (@mpn_add_1 R m res s1 size s) m res size
    (fun l cy => is_carry cy /\ lval l + limb_base ^ size * cy = lval u + s).
Proof.
  intros Hs Hl Hu Hls Hb Hm Ha. destruct u as [|x u]; [simpl in Hl; lia|]. cbn [length] in *.
  inversion_clear Hu as [|? ? Hx Hu']. rewrite <- Hl in Hm.
  destruct (tail_ready m res s1 x u (lw (x + s)) Hb Hm Ha) as (Tb & Tm & Ta).
  apply bytes_at_cons in Hb as [X Hb]. unfold mpn_add_1. rewrite (lload_at _ _ _ X). cbn [flow_bind].
  rewrite lstore_at by (apply Hm; lia). cbn [flow_bind].
  assert (size = Z.of_nat (length u) + 1) as -> by lia.
  apply writes_cons with (x := lw (x + s)); [apply lw_limb|lia|]. unfold limb in Hx, Hls. pose proof limb_base_gt.
  rewrite Z.pow_add_r, Z.pow_1_r by lia. cbn [lval].
  destruct (lw_cases (x + s)) as [[E ?]|[[E ?]|[E ?]]]; [lia| | |lia]; rewrite E in *.
  - rewrite (proj2 (Z.ltb_ge _ _)) by lia. rewrite (copy_rest_spec u) by (assumption || lia).
    exists u, 0. repeat split; auto; try lia.
  - rewrite (proj2 (Z.ltb_lt _ _)), (proj2 (Z.leb_gt _ _)) by lia.
    replace (Z.to_nat (Z.of_nat (length u) + 1 - 1)) with (length u) by lia.
    destruct (add_1_carry_spec (R := R) u _ _ _ Hu' Tb Tm Ta) as (l & cy & El & Hll & Ll & Hc & Hv).
    exists l, cy. split; [exact El|]. split; [assumption|]. split; [assumption|]. split; [assumption|]. nia.
Qed.

Lemma sub_1_borrow_spec {R} u m res s1 :
  Forall limb u -> bytes_at m s1 u -> mapped m res (res + Z.of_nat (length u)) -> reads_ahead res s1 (length u) ->
  writes (@sub_1_borrow R (length u) m res s1) m res (Z.of_nat (length u))
    (fun l cy => is_carry cy /\ lval l - limb_base ^ Z.of_nat (length u) * cy = lval u - 1).
Proof.
  intros Hu. revert m res s1. induction Hu as [|x u Hx Hu IH]; intros m res s1 Hb Hm Ha.
  - exists [], 1. repeat split; try lia. constructor.
  - cbn [length] in *. destruct (tail_ready m res s1 x u (lw (x - 1)) Hb Hm Ha) as (Tb & Tm & Ta).
    apply bytes_at_cons in Hb as [X Hb]. cbn [sub_1_borrow]. rewrite (lload_at _ _ _ X). cbn [flow_bind].
    rewrite lstore_at by (apply Hm; lia). cbn [flow_bind].
    replace (Z.of_nat (S (length u))) with (Z.of_nat (length u) + 1) by lia.
    apply writes_cons with (x := lw (x - 1)); [apply lw_limb|lia|]. unfold limb in Hx. pose proof limb_base_gt.
    rewrite Z.pow_add_r, Z.pow_1_r by lia. cbn [lval].
    destruct (lw_cases (x - 1)) as [[E ?]|[[E ?]|[E ?]]]; [lia| |lia|]; rewrite E in *.
    + rewrite (proj2 (Z.eqb_neq _ _)) by lia. cbn [negb]. rewrite (copy_rest_spec u) by (assumption || lia).
      exists u, 0. repeat split; auto; try lia.
    + assert (x = 0) as -> by lia. rewrite Z.eqb_refl. cbn [negb].
      destruct (IH _ _ _ Tb Tm Ta) as (l & cy & El & Hl & Ll & Hc & Hv).
      exists l, cy. split; [exact El|]. split; [assumption|]. split; [assumption|]. split; [assumption|]. nia.
Qed.

Lemma sub_1_spec {R} u m res s1 size s :
  0 < size -> Z.of_nat (length u) = size -> Forall limb u -> limb s -> bytes_at m s1 u ->
  mapped m res (res + size) -> reads_ahead res s1 (length u) ->
  writes (@mpn_sub_1 R m res s1 size s) m res size
    (fun l cy => is_carry cy /\ lval l - limb_base ^ size * cy = lval u - s).
Proof.
  intros Hs Hl Hu Hls Hb Hm Ha. destruct u as [|x u]; [simpl in Hl; lia|]. cbn [length] in *.
  inversion_clear Hu as [|? ? Hx Hu']. rewrite <- Hl in Hm.
  destruct (tail_ready m res s1 x u (lw (x - s)) Hb Hm Ha) as (Tb & Tm & Ta).
  apply bytes_at_cons in Hb as [X Hb]. unfold mpn_sub_1. rewrite (lload_at _ _ _ X). cbn [flow_bind].
  rewrite lstore_at by (apply Hm; lia). cbn [flow_bind].
  assert (size = Z.of_nat (length u) + 1) as -> by lia.
  apply writes_cons with (x := lw (x - s)); [apply lw_limb|lia|]. unfold limb in Hx, Hls. pose proof limb_base_gt.
  rewrite Z.pow_add_r, Z.pow_1_r by lia. cbn [lval].
  destruct (lw_cases (x - s)) as [[E ?]|[[E ?]|[E ?]]]; [lia| |lia|]; rewrite E in *.
  - rewrite (proj2 (Z.ltb_ge _ _)) by lia. rewrite (copy_rest_spec u) by (assumption || lia).
    exists u, 0. repeat split; auto; try lia.
  - rewrite (proj2 (Z.ltb_lt _ _)), (proj2 (Z.leb_gt _ _)) by lia.
    replace (Z.to_nat (Z.of_nat (length u) + 1 - 1)) with (length u) by lia.
    destruct (sub_1_borrow_spec (R := R) u _ _ _ Hu' Tb Tm Ta) as (l & cy & El & Hll & Ll & Hc & Hv).
    exists l, cy. split; [exact El|]. split; [assumption|]. split; [assumption|]. split; [assumption|]. nia.
Qed.

(** ** Operands of different sizes *)

Lemma lval_app l1 l2 : lval (l1 ++ l2) = lval l1 + limb_base ^ Z.of_nat (length l1) * lval l2.
Proof.
  induction l1 as [|x l1 IH]; cbn [lval app length].
  - change (Z.of_nat 0) with 0. rewrite Z.pow_0_r. lia.
  - rewrite IH, Nat2Z.inj_succ, Z.pow_succ_r by lia. ring.
Qed.

Lemma lval_bound l : Forall limb l -> 0 <= lval l < limb_base ^ Z.of_nat (length l).
Proof.
  pose proof limb_base_gt. induction 1 as [|x l Hx _ IH]; cbn [lval length].
  - change (Z.of_nat 0) with 0. rewrite Z.pow_0_r. lia.
  - rewrite Nat2Z.inj_succ, Z.pow_succ_r by lia. unfold limb in Hx. nia.
Qed.

Lemma is_carry_limb cy : is_carry cy -> limb cy.
Proof. unfold is_carry, limb. pose proof limb_base_gt. lia. Qed.

(** The low limbs, then the carry into the high ones: shared by [mpn_add] and [mpn_sub]. *)
Lemma low_then_high {R} (low : flow R (mem * Z)) (high : mem -> Z -> flow R (mem * Z)) sg m res s1 u v n1 n2 :
  Z.of_nat (length u) = n1 -> Z.of_nat (length v) = n2 -> n2 <= n1 -> Forall limb u ->
  bytes_at m s1 u -> mapped m res (res + n1) -> reads_ahead res s1 (length u) ->
  (0 < n2 -> forall u1, u1 = take (length v) u ->
     writes low m res n2 (fun l cy => is_carry cy /\ lval l + sg * limb_base ^ n2 * cy = lval u1 + sg * lval v)) ->
  (n2 < n1 -> forall m' cy u2, is_carry cy -> Z.of_nat (length u2) = n1 - n2 -> Forall limb u2 ->
     bytes_at m' (s1 + n2) u2 -> mapped m' (res + n2) (res + n1) -> reads_ahead (res + n2) (s1 + n2) (length u2) ->
     writes (high m' cy) m' (res + n2) (n1 - n2)
       (fun l cy' => is_carry cy' /\ lval l + sg * limb_base ^ (n1 - n2) * cy' = lval u2 + sg * cy)) ->
  writes (let! '(m, cy) := if n2 =? 0 then Next (m, 0) else low in
          if n1 - n2 =? 0 then Next (m, cy) else high m cy) m res n1
    (fun l cy => is_carry cy /\ lval l + sg * limb_base ^ n1 * cy = lval u + sg * lval v).
Proof.
  intros Hu Hv Hle Lu Bu Hm Ha Hlow Hhigh.
  destruct (split_front u (length v)) as (u1 & u2 & -> & Hl1); [lia|].
  rewrite length_app in *. apply Forall_app in Lu as [Lu1 Lu2]. apply bytes_at_app in Bu as [Bu1 Bu2].
  assert (writes (if n2 =? 0 then Next (m, 0) else low) m res n2
    (fun l cy => is_carry cy /\ lval l + sg * limb_base ^ n2 * cy = lval u1 + sg * lval v)) as (l1 & c1 & E1 & Hl & Ll1 & Hc1 & V1).
  { destruct (Z.eqb_spec n2 0) as [E0|].
    - exists [], 0. destruct u1; [|simpl in Hl1; lia]. destruct v; [|simpl in Hv; lia].
      split; [reflexivity|]. split; [simpl; lia|]. split; [constructor|]. split; [split; lia|simpl; lia].
    - apply Hlow; [lia|]. rewrite <- Hl1, take_app_length. reflexivity. }
  rewrite E1. cbn [flow_bind]. rewrite lval_app, Hl1, Hv. destruct (Z.eqb_spec (n1 - n2) 0) as [E0|].
  - exists l1, c1. replace n1 with n2 by lia. destruct u2; [|simpl in *; lia]. repeat split; auto; try apply Hc1.
    simpl. lia.
  - unfold reads_ahead in Ha.
    destruct (Hhigh ltac:(lia) (wr m res l1) c1 u2 Hc1 ltac:(lia) Lu2) as (l2 & c2 & E2 & Hl2 & Ll2 & Hc2 & V2).
    + rewrite <- Hv, <- Hl1. apply wr_off; [assumption|]. unfold apart. lia.
    + apply wr_mapped. intros a Hr. apply Hm. lia.
    + unfold reads_ahead. lia.
    + exists (l1 ++ l2), c2. rewrite wr_app, Hl. split; [exact E2|]. rewrite length_app. split; [lia|].
      split; [apply Forall_app; auto|]. split; [assumption|]. rewrite lval_app, Hl.
      replace n1 with (n2 + (n1 - n2)) at 1 by lia. rewrite Z.pow_add_r by lia.
      transitivity (lval l1 + limb_base ^ n2 * (lval l2 + sg * limb_base ^ (n1 - n2) * c2)); [ring|]. rewrite V2.
      transitivity (lval l1 + sg * limb_base ^ n2 * c1 + limb_base ^ n2 * lval u2); [ring|]. rewrite V1. ring.
Qed.

Lemma add_spec {R} u v m res s1 s2 n1 n2 :
  Z.of_nat (length u) = n1 -> Z.of_nat (length v) = n2 -> n2 <= n1 -> Forall limb u -> Forall limb v ->
  bytes_at m s1 u -> bytes_at m s2 v -> mapped m res (res + n1) ->
  reads_ahead res s1 (length u) -> reads_ahead res s2 (length v) ->
  writes (@mpn_add R m res s1 n1 s2 n2) m res n1
    (fun l cy => is_carry cy /\ lval l + limb_base ^ n1 * cy = lval u + lval v).
Proof.
  intros Hu Hv Hle Lu Lv Bu Bv Hm Au Av. unfold reads_ahead in Au, Av.
  destruct (low_then_high (mpn_add_n (R := R) m res s1 s2 n2)
    (fun m cy => mpn_add_1 m (res + n2) (s1 + n2) (n1 - n2) cy) 1 m res s1 u v n1 n2)
    as (l & cy & E & Hl & Ll & Hc & V); auto.
  - intros Hpos u1 ->. assert (length (take (length v) u) = length v) as Hlen by (rewrite length_take; lia).
    rewrite <- (take_drop (length v) u) in Bu, Lu. apply bytes_at_app in Bu as [Bu1 _]. apply Forall_app in Lu as [Lu1 _].
    destruct (add_n_spec (R := R) m res s1 s2 n2 (take (length v) u) v) as (l & cy & E & Hl & Ll & Hc & V); auto; try lia.
    + intros a Ha. apply Hm. lia.
    + unfold reads_ahead. lia.
    + unfold reads_ahead. lia.
    + exists l, cy. repeat split; auto; try apply Hc. lia.
  - intros Hlt m' cy u2 Hc Hl2 Lu2 B2 Hm2 A2.
    destruct (add_1_spec (R := R) u2 m' (res + n2) (s1 + n2) (n1 - n2) cy) as (l & c & E & Hl & Ll & Hc' & V);
      auto using is_carry_limb; try lia.
    { intros a Ha. apply Hm2. lia. }
    exists l, c. repeat split; auto; try apply Hc'. lia.
  - exists l, cy. repeat split; auto; try apply Hc. lia.
Qed.

Lemma sub_spec {R} u v m res s1 s2 n1 n2 :
  Z.of_nat (length u) = n1 -> Z.of_nat (length v) = n2 -> n2 <= n1 -> Forall limb u -> Forall limb v ->
  bytes_at m s1 u -> bytes_at m s2 v -> mapped m res (res + n1) ->
  reads_ahead res s1 (length u) -> reads_ahead res s2 (length v) ->
  writes (@mpn_sub R m res s1 n1 s2 n2) m res n1
    (fun l cy => is_carry cy /\ lval l - limb_base ^ n1 * cy = lval u - lval v).
Proof.
  intros Hu Hv Hle Lu Lv Bu Bv Hm Au Av. unfold reads_ahead in Au, Av.
  destruct (low_then_high (mpn_sub_n (R := R) m res s1 s2 n2)
    (fun m cy => mpn_sub_1 m (res + n2) (s1 + n2) (n1 - n2) cy) (-1) m res s1 u v n1 n2)
    as (l & cy & E & Hl & Ll & Hc & V); auto.
  - intros Hpos u1 ->. assert (length (take (length v) u) = length v) as Hlen by (rewrite length_take; lia).
    rewrite <- (take_drop (length v) u) in Bu, Lu. apply bytes_at_app in Bu as [Bu1 _]. apply Forall_app in Lu as [Lu1 _].
    destruct (sub_n_spec (R := R) m res s1 s2 n2 (take (length v) u) v) as (l & cy & E & Hl & Ll & Hc & V); auto; try lia.
    + intros a Ha. apply Hm. lia.
    + unfold reads_ahead. lia.
    + unfold reads_ahead. lia.
    + exists l, cy. repeat split; auto; try apply Hc. lia.
  - intros Hlt m' cy u2 Hc Hl2 Lu2 B2 Hm2 A2.
    destruct (sub_1_spec (R := R) u2 m' (res + n2) (s1 + n2) (n1 - n2) cy) as (l & c & E & Hl & Ll & Hc' & V);
      auto using is_carry_limb; try lia.
    { intros a Ha. apply Hm2. lia. }
    exists l, c. repeat split; auto; try apply Hc'. lia.
  - exists l, cy. repeat split; auto; try apply Hc. lia.
Qed.

(** ** Comparison *)

Lemma cmp_spec {R} u v m p q :
  length u = length v -> Forall limb u -> Forall limb v -> bytes_at m p u -> bytes_at m q v ->
  @cmp_loop R (length u) m p q = Next (Z.sgn (lval u - lval v)).
Proof.
  revert v. induction u as [|x u IH] using rev_ind; intros v Hl Hu Hv Bu Bv.
  - destruct v; [|discriminate]. reflexivity.
  - destruct v as [|y v _] using rev_ind; [rewrite length_app in Hl; simpl in Hl; lia|].
    rewrite !length_app in Hl. cbn [length] in Hl. apply Forall_app in Hu as [Hu Hx], Hv as [Hv Hy].
    inversion_clear Hx as [|? ? Lx _]. inversion_clear Hy as [|? ? Ly _].
    apply bytes_at_app in Bu as [Bu Bx], Bv as [Bv By]. apply bytes_at_cons in Bx as [Bx _], By as [By _].
    rewrite length_app. cbn [length]. rewrite Nat.add_1_r. cbn [cmp_loop].
    assert (length u = length v) as Huv by lia.
    rewrite (lload_at _ _ _ Bx). cbn [flow_bind]. rewrite Huv at 1. rewrite (lload_at _ _ _ By). cbn [flow_bind].
    rewrite !lval_app, <- Huv. cbn [lval]. pose proof (lval_bound u Hu) as Ku. pose proof (lval_bound v Hv) as Kv.
    rewrite <- Huv in Kv. set (P := limb_base ^ Z.of_nat (length u)) in *.
    destruct (Z.eqb_spec x y) as [-> |Hne].
    + rewrite (IH v) by assumption. f_equal. f_equal. lia.
    + f_equal. destruct (Z.ltb_spec y x).
      * symmetry. apply Z.sgn_pos. nia.
      * symmetry. apply Z.sgn_neg. nia.
Qed.

(** ** Shifts *)

Section Shift.
Context (c : Z).
Hypothesis c_range : 0 < c < limb_bits.

Lemma base_split : limb_base = 2 ^ c * 2 ^ (limb_bits - c) /\ 0 < 2 ^ c /\ 0 < 2 ^ (limb_bits - c).
Proof.
  unfold limb_base. rewrite <- Z.pow_add_r by lia.
  repeat split; [f_equal; lia|apply Z.pow_pos_nonneg; lia..].
Qed.

(** A limb shifted left keeps its low bits; those it loses are the high bits. *)
Lemma lw_shiftl x k : limb x -> 0 < k < limb_bits ->
  lw (Z.shiftl x k) = Z.shiftl (x mod 2 ^ (limb_bits - k)) k /\
  x = Z.shiftr x (limb_bits - k) * 2 ^ (limb_bits - k) + x mod 2 ^ (limb_bits - k) /\
  0 <= Z.shiftr x (limb_bits - k) < 2 ^ k.
Proof.
  intros Hx Hk. rewrite !Z.shiftl_mul_pow2, Z.shiftr_div_pow2 by lia.
  assert (0 < 2 ^ k) by (apply Z.pow_pos_nonneg; lia). assert (0 < 2 ^ (limb_bits - k)) by (apply Z.pow_pos_nonneg; lia).
  assert (limb_base = 2 ^ (limb_bits - k) * 2 ^ k) as Eb by (unfold limb_base; rewrite <- Z.pow_add_r by lia; f_equal; lia).
  unfold limb in Hx. split; [|split].
  - unfold lw, uwrap. fold limb_base. rewrite Eb, Z.mul_mod_distr_r by lia. reflexivity.
  - rewrite Z.mul_comm. apply Z.div_mod. lia.
  - split; [apply Z.div_pos; lia|]. apply Z.div_lt_upper_bound; lia.
Qed.

Lemma lshift_limb high low : limb high -> limb low ->
  let r := Z.lor (lw (Z.shiftl high c)) (Z.shiftr low (limb_bits - c)) in
  limb r /\ r + limb_base * Z.shiftr high (limb_bits - c) = 2 ^ c * high + Z.shiftr low (limb_bits - c).
Proof.
  intros Hh Hl. destruct (lw_shiftl high c Hh c_range) as (-> & Eh & _). destruct (lw_shiftl low c Hl c_range) as (_ & _ & Bl).
  destruct base_split as (Eb & P1 & P2). pose proof (Z.mod_pos_bound high (2 ^ (limb_bits - c)) P2).
  rewrite lor_low by lia. unfold limb. split.
  - rewrite Eb. nia.
  - apply (f_equal (Z.mul (2 ^ c))) in Eh. rewrite Z.mul_add_distr_l in Eh. rewrite Eb. lia.
Qed.

Lemma rshift_limb low high : limb low -> limb high ->
  let r := Z.lor (Z.shiftr low c) (lw (Z.shiftl high (limb_bits - c))) in
  limb r /\ 2 ^ c * r + low mod 2 ^ c = low + limb_base * (high mod 2 ^ c).
Proof.
  intros Hl Hh. destruct base_split as (Eb & P1 & P2).
  destruct (lw_shiftl high (limb_bits - c) Hh ltac:(lia)) as (-> & _ & _).
  destruct (lw_shiftl low (limb_bits - c) Hl ltac:(lia)) as (_ & El & Bl).
  replace (limb_bits - (limb_bits - c)) with c in * by lia.
  pose proof (Z.mod_pos_bound high (2 ^ c) P1). rewrite Z.lor_comm, lor_low by lia. unfold limb. split.
  - rewrite Eb. nia.
  - rewrite Eb. lia.
Qed.

Lemma wr_insert m a x p l :
  ~ (p <= a < p + Z.of_nat (length l)) -> wr (<[a := x]> m) p l = <[a := x]> (wr m p l).
Proof.
  intros Ha. apply map_eq. intros b. rewrite wr_lookup. destruct (Z.eq_dec b a) as [-> |].
  - rewrite decide_False, !lookup_insert_eq by lia. reflexivity.
  - rewrite !(lookup_insert_ne _ a), wr_lookup by lia. reflexivity.
Qed.

Lemma lshift_loop_spec {R} u m wp up high :
  Forall limb u -> limb high -> bytes_at m up u -> mapped m wp (wp + Z.of_nat (length u) + 1) ->
  up <= wp \/ wp + Z.of_nat (length u) + 1 <= up ->
  exists l, @lshift_loop R (length u) m wp up c (limb_bits - c) high = Next (wr m wp l) /\
    length l = S (length u) /\ Forall limb l /\
    lval l + limb_base ^ Z.of_nat (length u) * limb_base * Z.shiftr high (limb_bits - c) =
    2 ^ c * (lval u + limb_base ^ Z.of_nat (length u) * high).
Proof.
  revert m high. induction u as [|low u IH] using rev_ind; intros m high Hu Hh Bu Hm Ha.
  - simpl. rewrite lstore_at by (apply Hm; simpl; lia).
    exists [lw (Z.shiftl high c)]. split; [reflexivity|]. split; [reflexivity|]. split; [forall_list; apply lw_limb|].
    destruct (lshift_limb high 0 Hh) as [_ E]; [unfold limb; pose proof limb_base_gt; lia|].
    rewrite Z.shiftr_0_l, Z.lor_0_r in E. change (Z.of_nat 0) with 0. rewrite Z.pow_0_r. cbn [lval]. lia.
  - rewrite length_app in *. cbn [length] in *. rewrite Nat.add_1_r in *. cbn [lshift_loop].
    apply Forall_app in Hu as [Hu Hx]. inversion_clear Hx as [|? ? Hlow _].
    apply bytes_at_app in Bu as [Bu Bx]. apply bytes_at_cons in Bx as [Bx _].
    rewrite (lload_at _ _ _ Bx). cbn [flow_bind]. rewrite lstore_at by (apply Hm; lia). cbn [flow_bind].
    destruct (lshift_limb high low Hh Hlow) as [Hr Er]. set (r := Z.lor _ _) in *.
    destruct (IH (<[wp + 1 + Z.of_nat (length u) := r]> m) low Hu Hlow) as (l & -> & Hl & Ll & El).
    { apply insert_other; [assumption|]. lia. }
    { apply mapped_insert. intros a Hr'. apply Hm. lia. }
    { lia. }
    exists (l ++ [r]). rewrite wr_app, wr_insert, Hl by lia. split.
    { cbn [wr]. replace (wp + Z.of_nat (S (length u))) with (wp + 1 + Z.of_nat (length u)) by lia. reflexivity. }
    rewrite length_app, Hl, Nat.add_1_r. split; [reflexivity|]. split; [apply Forall_app; split; forall_list|].
    rewrite !lval_app, Hl. cbn [lval]. rewrite !Nat2Z.inj_succ, !Z.pow_succ_r by lia.
    set (P := limb_base ^ Z.of_nat (length u)) in *.
    transitivity (lval l + P * limb_base * (r + limb_base * Z.shiftr high (limb_bits - c))); [ring|]. rewrite Er.
    transitivity (lval l + P * limb_base * Z.shiftr low (limb_bits - c) + 2 ^ c * P * limb_base * high); [ring|].
    rewrite El. ring.
Qed.

Lemma rshift_loop_spec {R} u m wp up low :
  Forall limb u -> limb low -> bytes_at m up u -> mapped m wp (wp + Z.of_nat (length u) + 1) ->
  ~ (up <= wp < up + Z.of_nat (length u)) ->
  exists l, @rshift_loop R (length u) m wp up c (limb_bits - c) low = Next (wr m wp l) /\
    length l = S (length u) /\ Forall limb l /\
    2 ^ c * lval l + low mod 2 ^ c = low + limb_base * lval u.
Proof.
  intros Hu. revert m wp up low. induction Hu as [|high u Hhigh Hu IH]; intros m wp up low Hl Bu Hm Ha.
  - simpl. rewrite lstore_at by (apply Hm; simpl; lia).
    exists [Z.shiftr low c]. split; [reflexivity|]. split; [reflexivity|].
    destruct (rshift_limb low 0 Hl) as [Hr E]; [unfold limb; pose proof limb_base_gt; lia|].
    rewrite Z.shiftl_0_l in *. rewrite (lw_small 0), Z.lor_0_r, Z.mod_0_l in * by
      (try (unfold limb; pose proof limb_base_gt; lia); destruct base_split as (_ & ? & _); lia).
    split; [forall_list|]. cbn [lval]. lia.
  - cbn [length] in *. apply bytes_at_cons in Bu as [Bx Bu]. cbn [rshift_loop].
    rewrite (lload_at _ _ _ Bx). cbn [flow_bind]. rewrite lstore_at by (apply Hm; lia). cbn [flow_bind].
    destruct (rshift_limb low high Hl Hhigh) as [Hr Er]. set (r := Z.lor _ _) in *.
    destruct (IH (<[wp := r]> m) (wp + 1) (up + 1) high Hhigh) as (l & -> & Hll & Ll & El).
    { apply insert_other; [assumption|]. lia. }
    { apply mapped_insert. intros a Hr'. apply Hm. lia. }
    { lia. }
    exists (r :: l). split; [reflexivity|]. split; [cbn [length]; congruence|]. split; [forall_list|].
    cbn [lval].
    transitivity (2 ^ c * r + low mod 2 ^ c + limb_base * (2 ^ c * lval l + high mod 2 ^ c) - limb_base * (high mod 2 ^ c)); [ring|].
    rewrite Er, El. ring.
Qed.
End Shift.
End Mpn.

(** * Properties *)

(** Adding (subtracting) a number of [n2] limbs to (from) one of
    [n1 >= n2] limbs stores [n1] limbs and returns the carry (borrow), with the sum
    (difference) as their value; nothing else is written.  The result may lie on an operand
    or below it, as long as no limb is overwritten before it is read. *)
Theorem mpn_add_sub_correct A (R : Type) m res s1 s2 n1 n2 u v :
  Z.of_nat (length u) = n1 -> Z.of_nat (length v) = n2 -> n2 <= n1 ->
  Forall (limb A) u -> Forall (limb A) v -> bytes_at m s1 u -> bytes_at m s2 v -> mapped m res (res + n1) ->
  reads_ahead res s1 (length u) -> reads_ahead res s2 (length v) ->
  writes A (@mpn_add A R m res s1 n1 s2 n2) m res n1
    (fun l cy => 0 <= cy <= 1 /\ lval A l + limb_base A ^ n1 * cy = lval A u + lval A v) /\
  writes A (@mpn_sub A R m res s1 n1 s2 n2) m res n1
    (fun l cy => 0 <= cy <= 1 /\ lval A l - limb_base A ^ n1 * cy = lval A u - lval A v).
Proof. intros. split; [apply add_spec|apply sub_spec]; assumption. Qed.

(** multiplying by one limb stores, adds to the result or subtracts
    from it the product, and returns the limb that does not fit: the returned limb and the
    stored limbs are together the exact value. *)
Theorem mpn_mul_1_correct A (R : Type) m res s1 size u v s :
  0 < size -> Z.of_nat (length u) = size -> Z.of_nat (length v) = size ->
  Forall (limb A) u -> Forall (limb A) v -> limb A s -> bytes_at m s1 u -> bytes_at m res v ->
  reads_ahead res s1 (length u) ->
  writes A (@mpn_mul_1 A R m res s1 size s) m res size
    (fun l cy => limb A cy /\ lval A l + limb_base A ^ size * cy = lval A u * s) /\
  writes A (@mpn_addmul_1 A R m res s1 size s) m res size
    (fun l cy => limb A cy /\ lval A l + limb_base A ^ size * cy = lval A v + lval A u * s) /\
  writes A (@mpn_submul_1 A R m res s1 size s) m res size
    (fun l cy => limb A cy /\ lval A l - limb_base A ^ size * cy = lval A v - lval A u * s).
Proof.
  intros Hp Hu Hv Lu Lv Ls Bu Bv Ha.
  assert (mapped m res (res + size)) as Hm by (rewrite <- Hv; apply bytes_at_mapped; assumption).
  split; [|split]; [apply mul_1_spec|apply addmul_1_spec with (v := v)|apply submul_1_spec with (v := v)]; assumption.
Qed.

(** [mpn_lshift] multiplies by a power of two, the returned limb
    being what is shifted out; [mpn_rshift] divides by it, the returned limb holding the
    remainder in its high bits.  In place they work in the direction that the comment of each
    allows. *)
Theorem mpn_shift_correct A (R : Type) m wp up usize cnt u :
  0 < usize -> Z.of_nat (length u) = usize -> Forall (limb A) u -> 0 < cnt < limb_bits A ->
  bytes_at m up u -> mapped m wp (wp + usize) ->
  (up <= wp \/ wp + usize <= up ->
   writes A (@mpn_lshift A R m wp up usize cnt) m wp usize
     (fun l r => lval A l + limb_base A ^ usize * r = lval A u * 2 ^ cnt)) /\
  (wp <= up \/ up + usize <= wp ->
   writes A (@mpn_rshift A R m wp up usize cnt) m wp usize
     (fun l r => lval A l = lval A u / 2 ^ cnt /\ r = (lval A u mod 2 ^ cnt) * 2 ^ (limb_bits A - cnt))).
Proof.
  intros Hp Hu Lu Hc Bu Hm. split; intros Ho.
  - destruct u as [|top u _] using rev_ind; [simpl in Hu; lia|]. rewrite length_app in Hu. cbn [length] in Hu.
    apply Forall_app in Lu as [Lu Lt]. inversion_clear Lt as [|? ? Lt' _].
    apply bytes_at_app in Bu as [Bu Bt]. apply bytes_at_cons in Bt as [Bt _].
    unfold mpn_lshift. replace (up + (usize - 1)) with (up + Z.of_nat (length u)) by lia.
    rewrite (lload_at _ _ _ Bt). cbn [flow_bind]. replace (Z.to_nat (usize - 1)) with (length u) by lia.
    destruct (lshift_loop_spec A cnt Hc (R := R) u m wp up top) as (l & -> & Hl & Ll & V); auto; try lia.
    { intros a Ha. apply Hm. lia. }
    cbn [flow_bind]. exists l, (Z.shiftr top (limb_bits A - cnt)). split; [reflexivity|]. split; [lia|]. split; [assumption|].
    rewrite lval_app. cbn [lval]. replace usize with (Z.of_nat (length u) + 1) by lia.
    rewrite Z.pow_add_r, Z.pow_1_r by lia. rewrite V. ring.
  - destruct u as [|low u]; [simpl in Hu; lia|]. cbn [length] in Hu. inversion_clear Lu as [|? ? Ll Lu'].
    apply bytes_at_cons in Bu as [Bl Bu]. unfold mpn_rshift. rewrite (lload_at _ _ _ Bl). cbn [flow_bind].
    replace (Z.to_nat (usize - 1)) with (length u) by lia.
    destruct (rshift_loop_spec A cnt Hc (R := R) u m wp (up + 1) low) as (l & -> & Hl & Ll' & V); auto; try lia.
    { intros a Ha. apply Hm. lia. }
    destruct (base_split A cnt Hc) as (Eb & P1 & P2).
    assert (lval A (low :: u) mod 2 ^ cnt = low mod 2 ^ cnt) as Em.
    { cbn [lval]. rewrite Eb, <- Z.mul_assoc, (Z.mul_comm (2 ^ cnt)), Z_mod_plus_full. reflexivity. }
    cbn [flow_bind]. eexists l, _. split; [reflexivity|]. split; [lia|]. split; [assumption|]. cbn [lval] in *. split.
    + apply Z.div_unique with (low mod 2 ^ cnt); [left; apply Z.mod_pos_bound; lia|lia].
    + destruct (lw_shiftl A low (limb_bits A - cnt) Ll ltac:(lia)) as (-> & _ & _).
      replace (limb_bits A - (limb_bits A - cnt)) with cnt by lia. rewrite Z.shiftl_mul_pow2, Em by lia. reflexivity.
Qed.

(** [mpn_cmp] returns the sign of the difference. *)
Theorem mpn_cmp_correct A (R : Type) m p q size u v :
  Z.of_nat (length u) = size -> Z.of_nat (length v) = size -> Forall (limb A) u -> Forall (limb A) v ->
  bytes_at m p u -> bytes_at m q v ->
  @mpn_cmp R m p q size = Next (Z.sgn (lval A u - lval A v)).
Proof.
  intros Hu Hv Lu Lv Bu Bv. unfold mpn_cmp. replace (Z.to_nat size) with (length u) by lia.
  apply cmp_spec; auto. lia.
Qed.

(** * Witnesses *)

(** Two numbers of two limbs, 2^32 - 1 in each limb, and a zeroed area. *)
Definition two_numbers : mem := mem_of 10 [2 ^ 32 - 1; 2 ^ 32 - 1; 2 ^ 32 - 1; 2 ^ 32 - 1; 0; 0; 0; 0; 0; 0; 0; 0].

Lemma max_limbs A n : Forall (limb A) (repeat (2 ^ 32 - 1) n).
Proof. induction n; simpl; constructor; auto. unfold limb. pose proof (limb_base_gt A). lia. Qed.

Lemma mpn_add_sub_witness :
  writes (Arch false false) (@mpn_add (Arch false false) unit two_numbers 14 10 2 12 1) two_numbers 14 2
    (fun l cy => 0 <= cy <= 1 /\ lval (Arch false false) l + limb_base (Arch false false) ^ 2 * cy =
       lval (Arch false false) [2 ^ 32 - 1; 2 ^ 32 - 1] + lval (Arch false false) [2 ^ 32 - 1]).
Proof.
  apply (mpn_add_sub_correct (Arch false false) unit two_numbers 14 10 12 2 1 [2 ^ 32 - 1; 2 ^ 32 - 1] [2 ^ 32 - 1]).
  - reflexivity.
  - reflexivity.
  - lia.
  - exact (max_limbs _ 2).
  - exact (max_limbs _ 1).
  - apply mem_of_at; [lia|reflexivity].
  - apply mem_of_at; [lia|reflexivity].
  - apply mem_of_mapped; simpl; lia.
  - unfold reads_ahead. simpl. lia.
  - unfold reads_ahead. simpl. lia.
Defined.

Lemma mpn_mul_1_witness :
  writes (Arch true false) (@mpn_mul_1 (Arch true false) unit two_numbers 12 10 2 7) two_numbers 12 2
    (fun l cy => limb (Arch true false) cy /\ lval (Arch true false) l + limb_base (Arch true false) ^ 2 * cy =
       lval (Arch true false) [2 ^ 32 - 1; 2 ^ 32 - 1] * 7).
Proof.
  apply (mpn_mul_1_correct (Arch true false) unit two_numbers 12 10 2 [2 ^ 32 - 1; 2 ^ 32 - 1] [2 ^ 32 - 1; 2 ^ 32 - 1] 7).
  - lia.
  - reflexivity.
  - reflexivity.
  - exact (max_limbs _ 2).
  - exact (max_limbs _ 2).
  - unfold limb. pose proof (limb_base_gt (Arch true false)). lia.
  - apply mem_of_at; [lia|reflexivity].
  - apply mem_of_at; [lia|reflexivity].
  - unfold reads_ahead. simpl. lia.
Defined.

Lemma mpn_shift_witness :
  writes (Arch false false) (@mpn_lshift (Arch false false) unit two_numbers 10 10 2 3) two_numbers 10 2
    (fun l r => lval (Arch false false) l + limb_base (Arch false false) ^ 2 * r =
       lval (Arch false false) [2 ^ 32 - 1; 2 ^ 32 - 1] * 2 ^ 3).
Proof.
  apply (mpn_shift_correct (Arch false false) unit two_numbers 10 10 2 3 [2 ^ 32 - 1; 2 ^ 32 - 1]).
  - lia.
  - reflexivity.
  - exact (max_limbs _ 2).
  - unfold limb_bits, wordbits, wordsize. simpl. lia.
  - apply mem_of_at; [lia|reflexivity].
  - apply mem_of_mapped; simpl; lia.
  - left. lia.
Defined.

Lemma mpn_cmp_witness :
  @mpn_cmp unit two_numbers 10 13 2 =
  Next (Z.sgn (lval (Arch false false) [2 ^ 32 - 1; 2 ^ 32 - 1] - lval (Arch false false) [2 ^ 32 - 1; 0])).
Proof.
  apply (mpn_cmp_correct (Arch false false) unit two_numbers 10 13 2 [2 ^ 32 - 1; 2 ^ 32 - 1] [2 ^ 32 - 1; 0]).
  - reflexivity.
  - reflexivity.
  - exact (max_limbs _ 2).
  - apply Forall_cons_2; [exact (Forall_inv (max_limbs _ 1))|]. apply Forall_cons_2; [apply limb_0|apply Forall_nil_2].
  - apply mem_of_at; [lia|reflexivity].
  - apply mem_of_at; [lia|reflexivity].
Defined.
