(* ===== verification/MpnMul.v ===== *)
(** Multiplication of multiple-precision naturals (stdlib/mul_n.c): the
    schoolbook base case, Karatsuba's recursion in place on the product and its scratch
    space, and the functions that choose between them.

    [KARATSUBA_THRESHOLD] is a parameter of the build; the code needs it to be at
    least 2.  The scratch areas of the alloca-like [TMP_ALLOC] are arguments here.  The
    recursion is bounded by fuel: the size of the operands is enough. *)
From S2P Require Import Prelude CMem MemWrite Mpn.

Section Mul.
Context (A : arch) (KARATSUBA_THRESHOLD : Z).

(** The product of [up] and the first limb of V is stored, not added. *)
Definition mul_first {R} (m : mem) (prodp up usize v_limb : Z) : flow R (mem * Z) :=
  if v_limb <=? 1 then
    let! m := if v_limb =? 1 then MPN_COPY (Z.to_nat usize) m prodp up else MPN_ZERO (Z.to_nat usize) m prodp in
    Next (m, 0)
  else mpn_mul_1 A m prodp up usize v_limb.

(** [for (i = 1; i < vsize; i++)]: multiply by one limb of V and add to the product. *)
Fixpoint mul_rows {R} (n : nat) (m : mem) (prodp up usize vp cy_limb : Z) : flow R (mem * Z) :=
  match n with
  | O => Next (m, cy_limb)
  | S n =>
      let! v_limb := lload m vp in
      let! '(m, cy_limb) :=
        if v_limb <=? 1 then
          if v_limb =? 1 then mpn_add_n A m prodp prodp up usize else Next (m, 0)
        else mpn_addmul_1 A m prodp up usize v_limb in
      let! m := lstore m (prodp + usize) cy_limb in
      mul_rows n m (prodp + 1) up usize (vp + 1) cy_limb
  end.

Definition schoolbook {R} (m : mem) (prodp up usize vp vsize : Z) : flow R (mem * Z) :=
  let! v_limb := lload m vp in
  let! '(m, cy_limb) := mul_first m prodp up usize v_limb in
  let! m := lstore m (prodp + usize) cy_limb in
  mul_rows (Z.to_nat (vsize - 1)) m (prodp + 1) up usize (vp + 1) cy_limb.

Definition impn_mul_n_basecase {R} (m : mem) (prodp up vp size : Z) : flow R mem :=
  let! '(m, _) := schoolbook m prodp up size vp size in Next m.

(** |x - y| of two numbers of [hsize] limbs at [p] and [q], with the sign of the comparison. *)
Definition abs_diff {R} (m : mem) (res p q hsize : Z) : flow R (mem * bool) :=
  let! c := mpn_cmp m p q hsize in
  if 0 <=? c then let! '(m, _) := mpn_sub_n A m res p q hsize in Next (m, false)
  else let! '(m, _) := mpn_sub_n A m res q p hsize in Next (m, true).

(** Add product L at the middle, with the carry of the steps before. *)
Definition kara_add_L_mid {R} (m : mem) (prodp tspace size hsize cy : Z) : flow R mem :=
  let! '(m, c) := mpn_add_n A m (prodp + hsize) (prodp + hsize) tspace size in
  let cy := lw A (cy + c) in
  if negb (cy =? 0)
  then let! '(m, _) := mpn_add_1 A m (prodp + hsize + size) (prodp + hsize + size) hsize cy in Next m
  else Next m.

(** Copy the low half of product L and add its high half. *)
Definition kara_add_L_low {R} (m : mem) (prodp tspace size hsize : Z) : flow R mem :=
  let! m := MPN_COPY (Z.to_nat hsize) m prodp tspace in
  let! '(m, cy) := mpn_add_n A m (prodp + hsize) (prodp + hsize) (tspace + hsize) hsize in
  if negb (cy =? 0) then let! '(m, _) := mpn_add_1 A m (prodp + size) (prodp + size) size 1 in Next m
  else Next m.

Definition kara_add_L {R} (m : mem) (prodp tspace size hsize cy : Z) : flow R mem :=
  let! m := kara_add_L_mid m prodp tspace size hsize cy in
  kara_add_L_low m prodp tspace size hsize.

(** Copy product H, add it to itself one half up, and add or subtract product M. *)
Definition kara_add_H_M {R} (m : mem) (prodp tspace size hsize : Z) (negflg : bool) : flow R (mem * Z) :=
  let! m := MPN_COPY (Z.to_nat hsize) m (prodp + hsize) (prodp + size) in
  let! '(m, cy) := mpn_add_n A m (prodp + size) (prodp + size) (prodp + size + hsize) hsize in
  if negflg then
    let! '(m, c) := mpn_sub_n A m (prodp + hsize) (prodp + hsize) tspace size in Next (m, lw A (cy - c))
  else
    let! '(m, c) := mpn_add_n A m (prodp + hsize) (prodp + hsize) tspace size in Next (m, lw A (cy + c)).

(** The odd limb on top of an even product. *)
Definition odd_limb {R} (m : mem) (prodp up vp esize size : Z) : flow R mem :=
  let! v_top := lload m (vp + esize) in
  let! '(m, cy_limb) := mpn_addmul_1 A m (prodp + esize) up esize v_top in
  let! m := lstore m (prodp + esize + esize) cy_limb in
  let! u_top := lload m (up + esize) in
  let! '(m, cy_limb) := mpn_addmul_1 A m (prodp + esize) vp size u_top in
  lstore m (prodp + esize + size) cy_limb.

Fixpoint impn_mul_n {R} (fuel : nat) (m : mem) (prodp up vp size tspace : Z) : flow R mem :=
  match fuel with
  | O => NoFuel
  | S fuel =>
      let MPN_MUL_N_RECURSE m prodp up vp size tspace :=
        if size <? KARATSUBA_THRESHOLD then impn_mul_n_basecase m prodp up vp size
        else impn_mul_n fuel m prodp up vp size tspace in
      if negb (Z.land size 1 =? 0) then
        let esize := size - 1 in
        let! m := MPN_MUL_N_RECURSE m prodp up vp esize tspace in
        odd_limb m prodp up vp esize size
      else
        let hsize := Z.shiftr size 1 in
        let! m := MPN_MUL_N_RECURSE m (prodp + size) (up + hsize) (vp + hsize) hsize tspace in
        let! '(m, uneg) := abs_diff m prodp (up + hsize) up hsize in
        let! '(m, vneg) := abs_diff m (prodp + hsize) (vp + hsize) vp hsize in
        let negflg := if vneg then uneg else negb uneg in
        let! m := MPN_MUL_N_RECURSE m tspace prodp (prodp + hsize) hsize (tspace + size) in
        let! '(m, cy) := kara_add_H_M m prodp tspace size hsize negflg in
        let! m := MPN_MUL_N_RECURSE m tspace up vp hsize (tspace + size) in
        kara_add_L m prodp tspace size hsize cy
  end.

Definition impn_sqr_n_basecase {R} (m : mem) (prodp up size : Z) : flow R mem :=
  let! '(m, _) := schoolbook m prodp up size up size in Next m.

Fixpoint impn_sqr_n {R} (fuel : nat) (m : mem) (prodp up size tspace : Z) : flow R mem :=
  match fuel with
  | O => NoFuel
  | S fuel =>
      let MPN_SQR_N_RECURSE m prodp up size tspace :=
        if size <? KARATSUBA_THRESHOLD then impn_sqr_n_basecase m prodp up size
        else impn_sqr_n fuel m prodp up size tspace in
      if negb (Z.land size 1 =? 0) then
        let esize := size - 1 in
        let! m := MPN_SQR_N_RECURSE m prodp up esize tspace in
        odd_limb m prodp up up esize size
      else
        let hsize := Z.shiftr size 1 in
        let! m := MPN_SQR_N_RECURSE m (prodp + size) (up + hsize) hsize tspace in
        let! '(m, _) := abs_diff m prodp (up + hsize) up hsize in
        let! m := MPN_SQR_N_RECURSE m tspace prodp hsize (tspace + size) in
        let! '(m, cy) := kara_add_H_M m prodp tspace size hsize true in
        let! m := MPN_SQR_N_RECURSE m tspace up hsize (tspace + size) in
        kara_add_L m prodp tspace size hsize cy
  end.

Definition mpn_mul_n {R} (fuel : nat) (m : mem) (prodp up vp size tspace : Z) : flow R mem :=
  if up =? vp then
    if size <? KARATSUBA_THRESHOLD then impn_sqr_n_basecase m prodp up size
    else impn_sqr_n fuel m prodp up size tspace
  else
    if size <? KARATSUBA_THRESHOLD then impn_mul_n_basecase m prodp up vp size
    else impn_mul_n fuel m prodp up vp size tspace.

(** * Proofs *)

Abbreviation base := (limb_base A).
Abbreviation lv := (lval A).
Abbreviation limbs := (Forall (limb A)).

Lemma wr_over m p x a l : (length a <= length l)%nat -> wr (wr m p (x :: a)) (p + 1) l = wr m p (x :: l).
Proof.
  intros Hl. apply map_eq. intros b. cbn [wr]. rewrite !wr_lookup.
  destruct (decide (p + 1 <= b < p + 1 + Z.of_nat (length l))); [reflexivity|].
  rewrite decide_False by lia. reflexivity.
Qed.

(** ** The base case *)

Lemma mul_rows_spec {R} vs u acc cy m prodp up vp usize :
  0 < usize -> Z.of_nat (length u) = usize -> Z.of_nat (length acc) = usize ->
  limbs u -> limbs vs -> limbs acc -> last acc = Some cy ->
  bytes_at m up u -> bytes_at m vp vs -> bytes_at m prodp acc ->
  mapped m prodp (prodp + usize + Z.of_nat (length vs)) ->
  apart prodp (usize + Z.of_nat (length vs)) up usize ->
  apart prodp (usize + Z.of_nat (length vs)) vp (Z.of_nat (length vs)) ->
  exists l cy', @mul_rows R (length vs) m prodp up usize vp cy = Next (wr m prodp l, cy') /\
    Z.of_nat (length l) = usize + Z.of_nat (length vs) /\ limbs l /\ last l = Some cy' /\
    lv l = lv acc + lv u * lv vs.
Proof.
  intros Hpos Hu Hacc Lu Lvs. revert acc cy m prodp vp Hacc.
  induction Lvs as [|v vs Lv Lvs IH]; intros acc cy m prodp vp Hacc La Hlast Bu Bv Ba Hm Au Av.
  - exists acc, cy. simpl. rewrite wr_same by assumption. repeat split; auto; simpl; lia.
  - cbn [length] in *. apply bytes_at_cons in Bv as [Bv0 Bv]. cbn [mul_rows].
    rewrite (lload_at _ _ _ Bv0). cbn [flow_bind]. unfold apart in *.
    assert (writes A (R := R) (if v <=? 1 then
          if v =? 1 then mpn_add_n A m prodp prodp up usize else Next (m, 0)
        else mpn_addmul_1 A m prodp up usize v) m prodp usize
      (fun l c => limb A c /\ lv l + base ^ usize * c = lv acc + lv u * v)) as (l1 & c & E1 & Hl1 & Ll1 & Lc & V1).
    { unfold limb in Lv. destruct (Z.leb_spec v 1); [destruct (Z.eqb_spec v 1) as [-> |]|].
      - destruct (add_n_spec A (R := R) m prodp prodp up usize acc u) as (l1 & c & E & Hl & Ll & Hc & V);
          auto using reads_ahead_self.
        { intros a Ha. apply Hm. lia. }
        { unfold reads_ahead. lia. }
        exists l1, c. split; [exact E|]. split; [assumption|]. split; [assumption|].
        split; [apply is_carry_limb; assumption|lia].
      - assert (v = 0) as -> by lia. exists acc, 0. rewrite wr_same by assumption.
        split; [reflexivity|]. split; [assumption|]. split; [assumption|]. split; [apply limb_0|lia].
      - apply (addmul_1_spec A (R := R) m prodp up usize u acc); auto.
        { intros a Ha. apply Hm. lia. }
        unfold reads_ahead. lia. }
    rewrite E1. cbn [flow_bind]. rewrite lstore_at by (apply wr_mapped with (1 := Hm); lia). cbn [flow_bind].
    assert (<[prodp + usize := c]> (wr m prodp l1) = wr m prodp (l1 ++ [c])) as ->.
    { rewrite wr_app, Hl1. reflexivity. }
    destruct l1 as [|x l1]; [simpl in Hl1; lia|]. cbn [app length] in *.
    inversion_clear Ll1 as [|? ? Lx Ll1']. set (acc' := l1 ++ [c]).
    assert (length acc' = S (length l1)) as Hacc' by (unfold acc'; rewrite length_app; simpl; lia).
    assert (limbs acc') as Lacc' by (apply Forall_app; split; [assumption|forall_list]).
    destruct (IH acc' c (wr m prodp (x :: acc')) (prodp + 1) (vp + 1)) as (l & cy' & E & Hl & Ll & Hlast' & V);
      auto; try lia.
    + unfold acc'. apply last_snoc.
    + apply wr_off; [assumption|]. unfold apart. cbn [length]. lia.
    + apply wr_off; [assumption|]. unfold apart. cbn [length]. lia.
    + pose proof (wr_at m prodp (x :: acc')) as Hw. apply bytes_at_cons in Hw as [_ Hw]. exact Hw.
    + apply wr_mapped. intros a Ha. apply Hm. lia.
    + rewrite wr_over in E by lia. exists (x :: l), cy'. split; [exact E|]. cbn [length]. split; [lia|].
      split; [constructor; assumption|]. split.
      * destruct l; [simpl in Hl; lia|]. exact Hlast'.
      * cbn [lval]. rewrite V. unfold acc'. rewrite lval_app. cbn [lval] in *.
        replace usize with (Z.succ (Z.of_nat (length l1))) in V1 by lia. rewrite Z.pow_succ_r in V1 by lia. nia.
Qed.

Lemma lv_repeat0 n : lv (repeat 0 n) = 0.
Proof. induction n as [|n IH]; cbn [repeat lval]; [reflexivity|]. rewrite IH. lia. Qed.

Lemma limbs_repeat0 n : limbs (repeat 0 n).
Proof. induction n; simpl; constructor; auto using limb_0. Qed.

Lemma mul_first_spec {R} u m prodp up usize v :
  0 < usize -> Z.of_nat (length u) = usize -> limbs u -> limb A v -> bytes_at m up u ->
  mapped m prodp (prodp + usize) -> apart prodp usize up usize ->
  writes A (@mul_first R m prodp up usize v) m prodp usize
    (fun l c => limb A c /\ lv l + base ^ usize * c = lv u * v).
Proof.
  intros Hpos Hu Lu Lv Bu Hm Ha. unfold mul_first, apart in *. unfold limb in Lv.
  destruct (Z.leb_spec v 1); [destruct (Z.eqb_spec v 1) as [-> |]|].
  - rewrite <- Hu, Nat2Z.id, (copy_spec u) by (assumption || (unfold reads_ahead; lia) || (rewrite Hu; assumption)).
    exists u, 0. split; [reflexivity|]. split; [reflexivity|]. split; [assumption|]. split; [apply limb_0|lia].
  - rewrite zero_spec by (rewrite Z2Nat.id by lia; assumption). cbn [flow_bind].
    exists (repeat 0 (Z.to_nat usize)), 0. split; [reflexivity|]. rewrite repeat_length. split; [lia|].
    split; [apply limbs_repeat0|]. split; [apply limb_0|]. rewrite lv_repeat0. replace v with 0 by lia. lia.
  - apply mul_1_spec; auto. unfold reads_ahead. lia.
Qed.

Lemma schoolbook_spec {R} u vs m prodp up usize vp vsize :
  0 < usize -> 0 < vsize -> Z.of_nat (length u) = usize -> Z.of_nat (length vs) = vsize ->
  limbs u -> limbs vs -> bytes_at m up u -> bytes_at m vp vs ->
  mapped m prodp (prodp + usize + vsize) -> apart prodp (usize + vsize) up usize -> apart prodp (usize + vsize) vp vsize ->
  writes A (@schoolbook R m prodp up usize vp vsize) m prodp (usize + vsize)
    (fun l c => last l = Some c /\ lv l = lv u * lv vs).
Proof.
  intros Hup Hvp Hu Hv Lu Lvs Bu Bv Hm Au Av. unfold apart in *.
  destruct vs as [|v vs]; [simpl in Hv; lia|]. inversion_clear Lvs as [|? ? Lv Lvs'].
  apply bytes_at_cons in Bv as [Bv0 Bv]. cbn [length] in Hv. unfold schoolbook.
  rewrite (lload_at _ _ _ Bv0). cbn [flow_bind].
  destruct (mul_first_spec (R := R) u m prodp up usize v) as (l1 & c & E1 & Hl1 & Ll1 & Lc & V1); auto.
  { intros a Ha. apply Hm. lia. }
  { unfold apart. lia. }
  rewrite E1. cbn [flow_bind]. rewrite lstore_at by (apply wr_mapped with (1 := Hm); lia). cbn [flow_bind].
  assert (<[prodp + usize := c]> (wr m prodp l1) = wr m prodp (l1 ++ [c])) as ->.
  { rewrite wr_app, Hl1. reflexivity. }
  destruct l1 as [|x l1]; [simpl in Hl1; lia|]. cbn [app length] in *.
  inversion_clear Ll1 as [|? ? Lx Ll1']. set (acc := l1 ++ [c]).
  assert (length acc = S (length l1)) as Hacc by (unfold acc; rewrite length_app; simpl; lia).
  replace (Z.to_nat (vsize - 1)) with (length vs) by lia.
  destruct (mul_rows_spec (R := R) vs u acc c (wr m prodp (x :: acc)) (prodp + 1) up (vp + 1) usize)
    as (l & cy & E & Hl & Ll & Hlast & V); auto; try lia.
  - apply Forall_app. split; [assumption|forall_list].
  - apply last_snoc.
  - apply wr_off; [assumption|]. unfold apart. cbn [length]. lia.
  - apply wr_off; [assumption|]. unfold apart. cbn [length]. lia.
  - pose proof (wr_at m prodp (x :: acc)) as Hw. apply bytes_at_cons in Hw as [_ Hw]. exact Hw.
  - apply wr_mapped. intros a Ha. apply Hm. lia.
  - unfold apart. lia.
  - unfold apart. lia.
  - rewrite wr_over in E by lia. exists (x :: l), cy. split; [exact E|]. cbn [length]. split; [lia|].
    split; [constructor; assumption|]. split.
    + destruct l; [simpl in Hl; lia|]. exact Hlast.
    + cbn [lval]. rewrite V. unfold acc. rewrite lval_app. cbn [lval] in *.
      replace usize with (Z.succ (Z.of_nat (length l1))) in V1 by lia. rewrite Z.pow_succ_r in V1 by lia. nia.
Qed.

(** ** What the recursive routines promise *)

(** The [2 * size] limbs at [prodp] become the product; only they and the scratch space change. *)
Definition multiplies {R} (run : flow R mem) (m : mem) (prodp size tspace : Z) (u v : list Z) : Prop :=
  exists m' l, run = Next m' /\ bytes_at m' prodp l /\ Z.of_nat (length l) = 2 * size /\ limbs l /\
    lv l = lv u * lv v /\ frame m m' prodp (2 * size) tspace (2 * size).

(** Operands in place for a multiplication into [prodp] with scratch space [tspace]. *)
Record operands (m : mem) (prodp up vp size tspace : Z) (u v : list Z) : Prop := {
  op_size : 0 < size;
  op_u_len : Z.of_nat (length u) = size;
  op_v_len : Z.of_nat (length v) = size;
  op_u : limbs u;
  op_v : limbs v;
  op_u_at : bytes_at m up u;
  op_v_at : bytes_at m vp v;
  op_prod : mapped m prodp (prodp + 2 * size);
  op_space : mapped m tspace (tspace + 2 * size);
  op_prod_u : apart prodp (2 * size) up size;
  op_prod_v : apart prodp (2 * size) vp size;
  op_space_u : apart tspace (2 * size) up size;
  op_space_v : apart tspace (2 * size) vp size;
  op_prod_space : apart prodp (2 * size) tspace (2 * size)
}.

Lemma basecase_spec {R} m prodp up vp size tspace u v :
  operands m prodp up vp size tspace u v ->
  multiplies (@impn_mul_n_basecase R m prodp up vp size) m prodp size tspace u v.
Proof.
  intros []. unfold impn_mul_n_basecase.
  destruct (schoolbook_spec (R := R) u v m prodp up size vp size) as (l & c & E & Hl & Ll & _ & V); auto.
  - intros a Ha. apply op_prod0. lia.
  - unfold apart in *. lia.
  - unfold apart in *. lia.
  - rewrite E. exists (wr m prodp l), l. split; [reflexivity|]. split; [apply wr_at|]. split; [lia|].
    split; [assumption|]. split; [assumption|]. replace (2 * size) with (Z.of_nat (length l)) at 1 by lia. apply frame_wr.
Qed.

(** ** Odd sizes *)

Lemma wr_snoc m p l x : <[p + Z.of_nat (length l) := x]> (wr m p l) = wr m p (l ++ [x]).
Proof. rewrite wr_app. reflexivity. Qed.

Lemma odd_limb_spec {R} m prodp up vp esize size tspace u v ut vt l :
  size = esize + 1 -> 0 < esize -> operands m prodp up vp size tspace (u ++ [ut]) (v ++ [vt]) ->
  bytes_at m prodp l -> Z.of_nat (length l) = 2 * esize -> limbs l -> lv l = lv u * lv v ->
  multiplies (@odd_limb R m prodp up vp esize size) m prodp size tspace (u ++ [ut]) (v ++ [vt]).
Proof.
  intros -> Hpos Hop Bl Hl Ll Vl. destruct Hop. unfold apart in *. rewrite !length_app in *. cbn [length] in *.
  apply bytes_at_app in op_u_at0 as Bu. destruct Bu as [Bu But]. apply bytes_at_cons in But as [But _].
  apply bytes_at_app in op_v_at0 as Bv. destruct Bv as [Bv Bvt]. apply bytes_at_cons in Bvt as [Bvt _].
  replace (Z.of_nat (length u)) with esize in But by lia. replace (Z.of_nat (length v)) with esize in Bvt by lia.
  pose proof op_u0 as Lu. apply Forall_app in Lu as [Lu Lut]. inversion_clear Lut as [|? ? Lut' _].
  pose proof op_v0 as Lv. apply Forall_app in Lv as [Lv Lvt]. inversion_clear Lvt as [|? ? Lvt' _].
  destruct (split_front l (Z.to_nat esize)) as (l0 & l1 & -> & Hl0); [lia|]. rewrite length_app in Hl.
  apply bytes_at_app in Bl as [Bl0 Bl1]. apply Forall_app in Ll as [Ll0 Ll1]. rewrite lval_app in Vl.
  assert (Z.of_nat (length l0) = esize) as Hz0 by lia. rewrite Hz0 in *.
  assert (Z.of_nat (length u) = esize) as Hzu by lia. assert (Z.of_nat (length v) = esize) as Hzv by lia.
  unfold odd_limb. rewrite (lload_at _ _ _ Bvt). cbn [flow_bind].
  destruct (addmul_1_spec A (R := R) m (prodp + esize) up esize u l1) with (s := vt)
    as (l2 & c & E & Hl2 & Ll2 & Lc & V2); auto; try lia.
  { intros a Ha. apply op_prod0. lia. }
  { unfold reads_ahead. lia. }
  rewrite E. cbn [flow_bind].
  rewrite lstore_at by (apply wr_mapped with (1 := op_prod0); lia). cbn [flow_bind].
  replace (prodp + esize + esize) with (prodp + esize + Z.of_nat (length l2)) by lia. rewrite wr_snoc.
  assert (length (l2 ++ [c]) = S (length l2)) as Hlc by (rewrite length_app; simpl; lia).
  set (m1 := wr m (prodp + esize) (l2 ++ [c])).
  assert (bytes_at m1 up (u ++ [ut])) as Bu1 by (apply wr_off; [assumption|unfold apart; rewrite !length_app; simpl; lia]).
  assert (bytes_at m1 vp (v ++ [vt])) as Bv1 by (apply wr_off; [assumption|unfold apart; rewrite !length_app; simpl; lia]).
  apply bytes_at_app in Bu1 as [_ But1]. apply bytes_at_cons in But1 as [But1 _].
  replace (Z.of_nat (length u)) with esize in But1 by lia. rewrite (lload_at _ _ _ But1). cbn [flow_bind].
  destruct (addmul_1_spec A (R := R) m1 (prodp + esize) vp (esize + 1) (v ++ [vt]) (l2 ++ [c])) with (s := ut)
    as (l3 & c3 & E3 & Hl3 & Ll3 & Lc3 & V3); auto; try lia; try (rewrite length_app; simpl; lia).
  { apply Forall_app. split; [assumption|forall_list]. }
  { apply wr_mapped. intros a Ha. apply op_prod0. lia. }
  { unfold reads_ahead. rewrite length_app. simpl. lia. }
  { apply wr_at. }
  rewrite E3. cbn [flow_bind].
  rewrite lstore_at by (refine (wr_mapped _ _ _ _ _ (wr_mapped _ _ _ _ _ op_prod0) _ _); lia).
  replace (prodp + esize + (esize + 1)) with (prodp + esize + Z.of_nat (length l3)) by lia. rewrite wr_snoc.
  eexists _, (l0 ++ (l3 ++ [c3])). split; [reflexivity|]. split.
  { apply bytes_at_app. rewrite Hz0. split; [|apply wr_at].
    apply wr_off; [apply wr_off; [assumption|unfold apart; lia]|unfold apart; lia]. }
  rewrite !length_app. cbn [length]. split; [lia|].
  split; [repeat (apply Forall_app; split); auto; forall_list|]. split.
  - rewrite !lval_app in *. cbn [lval] in *.
    rewrite Hz0, Hl3, Hzu, Hzv. rewrite Hl2, Hzv in V3.
    set (P := base ^ esize) in *. set (Q := base ^ (esize + 1)) in *.
    transitivity (lv l0 + P * (lv l3 + Q * c3)); [ring|]. rewrite V3.
    transitivity (lv l0 + P * (lv l2 + P * c) + P * ((lv v + P * vt) * ut)); [ring|]. rewrite V2.
    transitivity (lv l0 + P * lv l1 + P * (lv u * vt) + P * ((lv v + P * vt) * ut)); [ring|]. rewrite Vl. ring.
  - apply (frame_trans m m1); apply frame_wr_in; rewrite ?length_app; cbn [length]; lia.
Qed.

(** ** Karatsuba's step *)

Lemma no_carry n l c x : limbs l -> Z.of_nat (length l) = n -> 0 <= c ->
  lv l + base ^ n * c = x -> x < base ^ n -> c = 0.
Proof.
  intros Ll Hl Hc E Hx. pose proof (lval_bound A l Ll) as Hb. rewrite Hl in Hb.
  destruct (Z.eq_dec c 0); [assumption|]. exfalso. nia.
Qed.

Lemma abs_diff_spec {R} m res p q hsize x y :
  0 < hsize -> Z.of_nat (length x) = hsize -> Z.of_nat (length y) = hsize -> limbs x -> limbs y ->
  bytes_at m p x -> bytes_at m q y -> mapped m res (res + hsize) -> apart res hsize p hsize -> apart res hsize q hsize ->
  exists l, @abs_diff R m res p q hsize = Next (wr m res l, lv x <? lv y) /\
    Z.of_nat (length l) = hsize /\ limbs l /\ lv l = Z.abs (lv x - lv y).
Proof.
  intros Hh Hx Hy Lx Ly Bx By Hm Ap Aq. unfold abs_diff, mpn_cmp, apart in *.
  replace (Z.to_nat hsize) with (length x) by lia. rewrite (cmp_spec A x y) by (auto; lia). cbn [flow_bind].
  pose proof (lval_bound A x Lx) as Kx. pose proof (lval_bound A y Ly) as Ky. rewrite Hx in Kx. rewrite Hy in Ky.
  destruct (Z.ltb_spec (lv x) (lv y)).
  - rewrite Z.sgn_neg by lia. simpl (0 <=? -1). cbv iota.
    destruct (sub_n_spec A (R := R) m res q p hsize y x) as (l & c & E & Hl & Ll & Hc & V);
      auto; try (unfold reads_ahead; lia). unfold is_carry in Hc.
    exists l. rewrite E. pose proof (lval_bound A l Ll) as Kl. rewrite Hl in Kl.
    assert (c = 0) as -> by nia. repeat split; auto. lia.
  - rewrite (proj2 (Z.leb_le 0 _)) by (apply Z.sgn_nonneg; lia).
    destruct (sub_n_spec A (R := R) m res p q hsize x y) as (l & c & E & Hl & Ll & Hc & V);
      auto; try (unfold reads_ahead; lia). unfold is_carry in Hc.
    exists l. rewrite E. pose proof (lval_bound A l Ll) as Kl. rewrite Hl in Kl.
    assert (c = 0) as -> by nia. repeat split; auto. lia.
Qed.

(** [if (cy) mpn_add_1 (q, q, n, d)] when the sum fits. *)
Lemma maybe_add_1 {R} m q n cy d x :
  0 < n -> Z.of_nat (length x) = n -> limbs x -> bytes_at m q x -> mapped m q (q + n) ->
  limb A cy -> (cy <> 0 -> d = cy) -> lv x + cy < base ^ n ->
  exists l, (if negb (cy =? 0) then let! '(m, _) := @mpn_add_1 A R m q q n d in Next m else Next m) = Next (wr m q l) /\
    Z.of_nat (length l) = n /\ limbs l /\ lv l = lv x + cy.
Proof.
  intros Hn Hx Lx Bx Hm Lcy Hd Hsum. destruct (Z.eqb_spec cy 0) as [-> |Hne]; cbn [negb].
  - exists x. rewrite wr_same by assumption. repeat split; auto. lia.
  - rewrite (Hd Hne). destruct (add_1_spec A (R := R) x m q q n cy) as (l & c & E & Hl & Ll & Hc & V);
      auto using reads_ahead_self. rewrite E. exists l. split; [reflexivity|]. split; [assumption|]. split; [assumption|].
    rewrite (no_carry n l c (lv x + cy) Ll Hl) in V by (auto; unfold is_carry in Hc; lia). lia.
Qed.

(** The two halves of an operand. *)
Lemma halves m p hsize x :
  Z.of_nat (length x) = 2 * hsize -> limbs x -> bytes_at m p x ->
  exists x0 x1, x = x0 ++ x1 /\ Z.of_nat (length x0) = hsize /\ Z.of_nat (length x1) = hsize /\
    limbs x0 /\ limbs x1 /\ bytes_at m p x0 /\ bytes_at m (p + hsize) x1 /\ lv x = lv x0 + base ^ hsize * lv x1.
Proof.
  intros Hl Ll Bx. destruct (split_front x (Z.to_nat hsize)) as (x0 & x1 & -> & Hx0); [lia|].
  rewrite length_app in Hl. apply Forall_app in Ll as [L0 L1]. apply bytes_at_app in Bx as [B0 B1].
  assert (Z.of_nat (length x0) = hsize) as Hz by lia. rewrite Hz in B1.
  exists x0, x1. rewrite lval_app, Hz. repeat split; auto; lia.
Qed.

Section Step.
Context {R : Type} (prodp tspace size hsize : Z).
Hypothesis hsize_pos : 0 < hsize.
Hypothesis size_even : size = 2 * hsize.
Hypothesis prod_space : apart prodp (2 * size) tspace (2 * size).

Abbreviation B := (base ^ hsize).

Lemma B_sq : base ^ size = B * B.
Proof. rewrite size_even, <- Z.pow_add_r by lia. f_equal. lia. Qed.

(** Product H is added to itself one half up, then product M is added or subtracted. *)
Lemma add_H_M_spec m H0 H1 M negflg :
  Z.of_nat (length H0) = hsize -> Z.of_nat (length H1) = hsize -> Z.of_nat (length M) = size ->
  limbs H0 -> limbs H1 -> limbs M ->
  bytes_at m (prodp + size) (H0 ++ H1) -> bytes_at m tspace M -> mapped m prodp (prodp + 2 * size) ->
  exists m' Y t, @kara_add_H_M R m prodp tspace size hsize negflg = Next (m', lw A t) /\
    bytes_at m' (prodp + hsize) (Y ++ H1) /\ Z.of_nat (length Y) = size /\ limbs Y /\ -1 <= t <= 2 /\
    lv Y + B * B * t = lv H0 + B * (lv H0 + lv H1) + (if negflg then -1 else 1) * lv M /\
    frame m m' prodp (2 * size) tspace (2 * size).
Proof.
  intros Hh0 Hh1 HM L0 L1 LM BH BM Hm. unfold kara_add_H_M, apart in *.
  apply bytes_at_app in BH as [BH0 BH1]. rewrite Hh0 in BH1.
  replace (Z.to_nat hsize) with (length H0) by lia.
  rewrite (copy_spec H0) by (assumption || (unfold reads_ahead; lia) || (intros a Ha; apply Hm; lia)). cbn [flow_bind].
  set (m1 := wr m (prodp + hsize) H0).
  assert (bytes_at m1 (prodp + size) H0) as BH0' by (apply wr_off; [assumption|unfold apart; lia]).
  assert (bytes_at m1 (prodp + size + hsize) H1) as BH1' by (apply wr_off; [assumption|unfold apart; lia]).
  assert (mapped m1 prodp (prodp + 2 * size)) as Hm1 by (apply wr_mapped; assumption).
  destruct (add_n_spec A (R := R) m1 (prodp + size) (prodp + size) (prodp + size + hsize) hsize H0 H1)
    as (X & c5 & E5 & HX & LX & Hc5 & V5); auto using reads_ahead_self.
  { intros a Ha. apply Hm1. lia. }
  { unfold reads_ahead. lia. }
  rewrite E5. cbn [flow_bind]. set (m2 := wr m1 (prodp + size) X).
  assert (bytes_at m2 (prodp + hsize) (H0 ++ X)) as BHX.
  { apply bytes_at_app. rewrite Hh0. replace (prodp + hsize + hsize) with (prodp + size) by lia. split; [|apply wr_at].
    apply wr_off; [apply wr_at|unfold apart; lia]. }
  assert (bytes_at m2 (prodp + size + hsize) H1) as BH1'' by (apply wr_off; [assumption|unfold apart; lia]).
  assert (bytes_at m2 tspace M) as BM2 by (repeat (apply wr_off; [|unfold apart; lia]); assumption).
  assert (mapped m2 prodp (prodp + 2 * size)) as Hm2 by (apply wr_mapped; assumption).
  assert (Z.of_nat (length (H0 ++ X)) = size) as HHX by (rewrite length_app; lia).
  assert (limbs (H0 ++ X)) as LHX by (apply Forall_app; auto).
  assert (frame m m2 prodp (2 * size) tspace (2 * size)) as F2
    by (apply (frame_trans m m1); apply frame_wr_in; lia).
  assert (forall Y t, Z.of_nat (length Y) = size -> limbs Y ->
    lv Y + base ^ size * t = lv (H0 ++ X) + (if negflg then -1 else 1) * lv M -> -1 <= t <= 1 ->
    exists m' Y' t', Next (wr m2 (prodp + hsize) Y, lw A (c5 + t)) = @Next R _ (m', lw A t') /\
    bytes_at m' (prodp + hsize) (Y' ++ H1) /\ Z.of_nat (length Y') = size /\ limbs Y' /\ -1 <= t' <= 2 /\
    lv Y' + B * B * t' = lv H0 + B * (lv H0 + lv H1) + (if negflg then -1 else 1) * lv M /\
    frame m m' prodp (2 * size) tspace (2 * size)) as Hfin.
  { intros Y t HY LY VY Ht. exists (wr m2 (prodp + hsize) Y), Y, (c5 + t). split; [reflexivity|]. split.
    { apply bytes_at_app. split; [apply wr_at|]. rewrite HY. replace (prodp + hsize + size) with (prodp + size + hsize) by lia.
      apply wr_off; [assumption|unfold apart; lia]. }
    split; [assumption|]. split; [assumption|]. unfold is_carry in Hc5. split; [lia|]. split.
    - rewrite lval_app, Hh0, B_sq in VY.
      transitivity (lv Y + B * B * t + B * (B * c5)); [ring|]. rewrite VY.
      transitivity (lv H0 + B * (lv X + B * c5) + (if negflg then -1 else 1) * lv M); [ring|]. rewrite V5. reflexivity.
    - apply (frame_trans m m2); [assumption|]. apply frame_wr_in; lia. }
  destruct negflg.
  - destruct (sub_n_spec A (R := R) m2 (prodp + hsize) (prodp + hsize) tspace size (H0 ++ X) M)
      as (Y & c & E & HY & LY & Hc & V); auto using reads_ahead_self; try lia.
    { intros a Ha. apply Hm2. lia. }
    { unfold reads_ahead. lia. }
    rewrite E. cbn [flow_bind]. unfold is_carry in Hc. apply (Hfin Y (- c)); auto; lia.
  - destruct (add_n_spec A (R := R) m2 (prodp + hsize) (prodp + hsize) tspace size (H0 ++ X) M)
      as (Y & c & E & HY & LY & Hc & V); auto using reads_ahead_self; try lia.
    { intros a Ha. apply Hm2. lia. }
    { unfold reads_ahead. lia. }
    rewrite E. cbn [flow_bind]. unfold is_carry in Hc. apply (Hfin Y c); auto; lia.
Qed.

(** The carry that product L leaves, once it is known not to be negative. *)
Lemma carry_value t c S Z' : -1 <= t <= 2 -> 0 <= c <= 1 -> 0 <= Z' < B * B -> Z' + B * B * (t + c) = S -> 0 <= S ->
  lw A (lw A t + c) = t + c /\ 0 <= t + c.
Proof.
  intros Ht Hc HZ E HS. assert (0 < B * B) by lia. assert (0 <= t + c) by nia. split; [|assumption].
  pose proof (limb_base_gt A). unfold lw, uwrap. fold (limb_base A). rewrite Zplus_mod_idemp_l.
  apply Z.mod_small. lia.
Qed.

Lemma add_L_mid_spec m Y H1 L0 L1 t S :
  Z.of_nat (length Y) = size -> Z.of_nat (length H1) = hsize -> limbs Y -> limbs H1 ->
  Z.of_nat (length L0) = hsize -> Z.of_nat (length L1) = hsize -> limbs L0 -> limbs L1 ->
  bytes_at m (prodp + hsize) (Y ++ H1) -> bytes_at m tspace (L0 ++ L1) -> mapped m prodp (prodp + 2 * size) ->
  -1 <= t <= 2 -> lv Y + B * B * t = S -> 0 <= S + lv L0 + B * lv L1 ->
  S + lv L0 + B * lv L1 + B * B * lv H1 < B * B * B ->
  exists m' Zl H1', @kara_add_L_mid R m prodp tspace size hsize (lw A t) = Next m' /\
    bytes_at m' (prodp + hsize) Zl /\ bytes_at m' (prodp + size + hsize) H1' /\ bytes_at m' tspace (L0 ++ L1) /\
    Z.of_nat (length Zl) = size /\ Z.of_nat (length H1') = hsize /\ limbs Zl /\ limbs H1' /\
    lv Zl + B * B * lv H1' = S + lv L0 + B * lv L1 + B * B * lv H1 /\
    frame m m' prodp (2 * size) tspace (2 * size).
Proof.
  intros HY HH1 LY LH1 HL0 HL1 LL0 LL1 BYH BL Hm Ht VY Hpos Hmax. unfold kara_add_L_mid, apart in *.
  apply bytes_at_app in BYH as [BY BH]. rewrite HY in BH. replace (prodp + hsize + size) with (prodp + size + hsize) in * by lia.
  assert (0 < B) as HB by (apply Z.pow_pos_nonneg; pose proof (limb_base_gt A); lia).
  assert (Z.of_nat (length (L0 ++ L1)) = size) as HL by (rewrite length_app; lia).
  assert (limbs (L0 ++ L1)) as LL by (apply Forall_app; auto).
  destruct (add_n_spec A (R := R) m (prodp + hsize) (prodp + hsize) tspace size Y (L0 ++ L1))
    as (Zl & c & E & HZ & LZ & Hc & V); auto using reads_ahead_self; try lia.
  { intros a Ha. apply Hm. lia. }
  { unfold reads_ahead. lia. }
  rewrite E. cbn [flow_bind]. set (m1 := wr m (prodp + hsize) Zl). rewrite lval_app, HL0, B_sq in V.
  pose proof (lval_bound A Zl LZ) as KZ. rewrite HZ, B_sq in KZ.
  assert (lv Zl + B * B * (t + c) = S + lv L0 + B * lv L1) as VZ by lia.
  destruct (carry_value t c _ _ Ht Hc KZ VZ Hpos) as [-> Htc].
  assert (lv H1 + (t + c) < B) as Hfit by nia.
  assert (bytes_at m1 (prodp + size + hsize) H1) as BH1 by (apply wr_off; [assumption|unfold apart; lia]).
  assert (mapped m1 prodp (prodp + 2 * size)) as Hm1 by (apply wr_mapped; assumption).
  destruct (maybe_add_1 (R := R) m1 (prodp + size + hsize) hsize (t + c) (t + c) H1) as (H1' & -> & HH1' & LH1' & VH1'); auto.
  { intros a Ha. apply Hm1. lia. }
  { unfold limb. pose proof (limb_base_gt A). unfold is_carry in Hc. lia. }
  exists (wr m1 (prodp + size + hsize) H1'), Zl, H1'. split; [reflexivity|].
  split; [apply wr_off; [apply wr_at|unfold apart; lia]|]. split; [apply wr_at|].
  split; [repeat (apply wr_off; [|unfold apart; lia]); assumption|].
  split; [assumption|]. split; [assumption|]. split; [assumption|]. split; [assumption|].
  split; [rewrite VH1', <- VZ; ring|]. apply (frame_trans m m1); apply frame_wr_in; lia.
Qed.

Lemma add_L_low_spec m Zl H1 L0 L1 :
  Z.of_nat (length Zl) = size -> Z.of_nat (length H1) = hsize -> limbs Zl -> limbs H1 ->
  Z.of_nat (length L0) = hsize -> Z.of_nat (length L1) = hsize -> limbs L0 -> limbs L1 ->
  bytes_at m (prodp + hsize) Zl -> bytes_at m (prodp + size + hsize) H1 -> bytes_at m tspace (L0 ++ L1) ->
  mapped m prodp (prodp + 2 * size) ->
  lv L0 + B * (lv Zl + B * B * lv H1 + lv L1) < B * B * (B * B) ->
  exists m' l, @kara_add_L_low R m prodp tspace size hsize = Next m' /\
    bytes_at m' prodp l /\ Z.of_nat (length l) = 2 * size /\ limbs l /\
    lv l = lv L0 + B * (lv Zl + B * B * lv H1 + lv L1) /\
    frame m m' prodp (2 * size) tspace (2 * size).
Proof.
  intros HZ HH1 LZ LH1 HL0 HL1 LL0 LL1 BZ BH BL Hm Hmax. unfold kara_add_L_low, apart in *.
  assert (0 < B) as HB by (apply Z.pow_pos_nonneg; pose proof (limb_base_gt A); lia).
  apply bytes_at_app in BL as [BL0 BL1]. rewrite HL0 in BL1. replace (Z.to_nat hsize) with (length L0) by lia.
  rewrite (copy_spec L0) by (assumption || (unfold reads_ahead; lia) || (intros a Ha; apply Hm; lia)). cbn [flow_bind].
  set (m3 := wr m prodp L0).
  destruct (halves m (prodp + hsize) hsize Zl ltac:(lia) LZ BZ) as (Z0 & Z1 & -> & HZ0 & HZ1 & LZ0 & LZ1 & BZ0 & BZ1 & VZ).
  replace (prodp + hsize + hsize) with (prodp + size) in BZ1 by lia.
  assert (bytes_at m3 (prodp + hsize) Z0) as BZ0' by (apply wr_off; [assumption|unfold apart; lia]).
  assert (bytes_at m3 (prodp + size) (Z1 ++ H1)) as BZ1'.
  { apply bytes_at_app. rewrite HZ1. split; (apply wr_off; [assumption|unfold apart; lia]). }
  assert (bytes_at m3 (tspace + hsize) L1) as BL1' by (apply wr_off; [assumption|unfold apart; lia]).
  assert (mapped m3 prodp (prodp + 2 * size)) as Hm3 by (apply wr_mapped; assumption).
  destruct (add_n_spec A (R := R) m3 (prodp + hsize) (prodp + hsize) (tspace + hsize) hsize Z0 L1)
    as (W0 & c4 & E4 & HW0 & LW0 & Hc4 & V4); auto using reads_ahead_self; try lia.
  { intros a Ha. apply Hm3. lia. }
  { unfold reads_ahead. lia. }
  rewrite E4. cbn [flow_bind]. set (m4 := wr m3 (prodp + hsize) W0).
  assert (Z.of_nat (length (Z1 ++ H1)) = size) as HZH by (rewrite length_app; lia).
  pose proof (lval_bound A L0 LL0) as KL0. pose proof (lval_bound A W0 LW0) as KW0. rewrite HL0 in KL0. rewrite HW0 in KW0.
  assert (lv L0 + B * lv W0 + B * B * (lv Z1 + B * lv H1 + c4) =
    lv L0 + B * (lv (Z0 ++ Z1) + B * B * lv H1 + lv L1)) as Vtot.
  { rewrite VZ. transitivity (lv L0 + B * (lv W0 + B * c4) + B * B * (lv Z1 + B * lv H1)); [ring|]. rewrite V4. ring. }
  destruct (maybe_add_1 (R := R) m4 (prodp + size) size c4 1 (Z1 ++ H1)) as (W1 & -> & HW1 & LW1 & VW1); auto; try lia.
  { apply Forall_app. auto. }
  { apply wr_off; [assumption|unfold apart; lia]. }
  { apply wr_mapped. intros a Ha. apply Hm3. lia. }
  { apply is_carry_limb. assumption. }
  { unfold is_carry in Hc4. lia. }
  { rewrite lval_app, HZ1, B_sq. clear -Hmax Vtot KL0 KW0 HB. nia. }
  rewrite lval_app, HZ1 in VW1. exists (wr m4 (prodp + size) W1), (L0 ++ W0 ++ W1). split; [reflexivity|]. split.
  { apply bytes_at_app. rewrite HL0. split; [repeat (apply wr_off; [|unfold apart; lia]); apply wr_at|].
    apply bytes_at_app. rewrite HW0. replace (prodp + hsize + hsize) with (prodp + size) by lia. split; [|apply wr_at].
    apply wr_off; [apply wr_at|unfold apart; lia]. }
  rewrite !length_app. split; [lia|]. split; [repeat (apply Forall_app; split); assumption|]. split.
  - rewrite !lval_app, HL0, HW0, VW1, <- lval_app, <- Vtot. ring.
  - apply (frame_trans m m3); [apply frame_wr_in; lia|]. apply (frame_trans m3 m4); apply frame_wr_in; lia.
Qed.

Lemma add_L_spec m Y H1 L0 L1 t S :
  Z.of_nat (length Y) = size -> Z.of_nat (length H1) = hsize -> limbs Y -> limbs H1 ->
  Z.of_nat (length L0) = hsize -> Z.of_nat (length L1) = hsize -> limbs L0 -> limbs L1 ->
  bytes_at m (prodp + hsize) (Y ++ H1) -> bytes_at m tspace (L0 ++ L1) -> mapped m prodp (prodp + 2 * size) ->
  -1 <= t <= 2 -> lv Y + B * B * t = S -> 0 <= S + lv L0 + B * lv L1 ->
  S + lv L0 + B * lv L1 + B * B * lv H1 < B * B * B ->
  lv L0 + B * (S + lv L0 + B * lv L1 + B * B * lv H1 + lv L1) < B * B * (B * B) ->
  exists m' l, @kara_add_L R m prodp tspace size hsize (lw A t) = Next m' /\
    bytes_at m' prodp l /\ Z.of_nat (length l) = 2 * size /\ limbs l /\
    lv l = lv L0 + B * (S + lv L0 + B * lv L1 + B * B * lv H1 + lv L1) /\
    frame m m' prodp (2 * size) tspace (2 * size).
Proof.
  intros HY HH1 LY LH1 HL0 HL1 LL0 LL1 BYH BL Hm Ht VY Hpos Hmax Hmax2. unfold kara_add_L.
  destruct (add_L_mid_spec m Y H1 L0 L1 t S) as (m2 & Zl & H1' & -> & BZ & BH & BL2 & HZ & HH & LZ & LH & V & F); auto.
  cbn [flow_bind].
  destruct (add_L_low_spec m2 Zl H1' L0 L1) as (m3 & l & -> & Bl & Hl & Ll & Vl & F2); auto.
  - exact (proj2 F _ _ Hm).
  - rewrite V. assumption.
  - exists m3, l. rewrite V in Vl. repeat (split; [first [reflexivity|assumption]|]). exact (frame_trans _ _ _ _ _ _ _ F F2).
Qed.
End Step.

(** ** The recursion *)

Lemma base_pow_pos n : 0 <= n -> 0 < base ^ n.
Proof. intros Hn. apply Z.pow_pos_nonneg; [pose proof (limb_base_gt A)|]; lia. Qed.

(** The identity behind Karatsuba's step, with the bounds its carries need. *)
Lemma karatsuba_identity b U0 U1 V0 V1 (negflg : bool) H0 H1 M L0 L1 :
  0 < b -> 0 <= U0 < b -> 0 <= U1 < b -> 0 <= V0 < b -> 0 <= V1 < b ->
  0 <= L0 -> 0 <= L1 -> 0 <= H0 ->
  H0 + b * H1 = U1 * V1 -> L0 + b * L1 = U0 * V0 ->
  (if negflg then -1 else 1) * M = (U1 - U0) * (V0 - V1) ->
  let S := H0 + b * (H0 + H1) + (if negflg then -1 else 1) * M in
  0 <= S + L0 + b * L1 /\ S + L0 + b * L1 + b * b * H1 < b * b * b /\
  L0 + b * (S + L0 + b * L1 + b * b * H1 + L1) = (U0 + b * U1) * (V0 + b * V1) /\
  (U0 + b * U1) * (V0 + b * V1) < b * b * (b * b).
Proof.
  intros Hb HU0 HU1 HV0 HV1 HL0 HL1 HH0 EH EL EM S.
  assert (S + L0 + b * L1 = b * H0 + (U1 * V0 + U0 * V1)) as ES.
  { transitivity (H0 + b * H1 + b * H0 + (if negflg then -1 else 1) * M + (L0 + b * L1)); [subst S; ring|].
    rewrite EM, EH, EL. ring. }
  assert (0 <= U1 * V0) by nia. assert (0 <= U0 * V1) by nia.
  assert (L0 + b * (S + L0 + b * L1 + b * b * H1 + L1) = (U0 + b * U1) * (V0 + b * V1)) as ET.
  { rewrite ES. transitivity ((L0 + b * L1) + b * (U1 * V0 + U0 * V1) + b * b * (H0 + b * H1)); [ring|].
    rewrite EH, EL. ring. }
  assert ((U0 + b * U1) * (V0 + b * V1) < b * b * (b * b)) as Hmax.
  { assert (0 <= U0 + b * U1 < b * b) by nia. assert (0 <= V0 + b * V1 < b * b) by nia.
    apply Z.mul_lt_mono_nonneg; lia. }
  split; [rewrite ES; nia|]. split; [|auto].
  rewrite <- ET in Hmax. apply (Z.mul_lt_mono_pos_l b); [assumption|]. nia.
Qed.

Lemma sign_of_product U0 U1 V0 V1 :
  (if (if V1 <? V0 then U1 <? U0 else negb (U1 <? U0)) then -1 else 1) * (Z.abs (U1 - U0) * Z.abs (V1 - V0)) =
  (U1 - U0) * (V0 - V1).
Proof. destruct (Z.ltb_spec V1 V0), (Z.ltb_spec U1 U0); cbn [negb]; nia. Qed.

Hypothesis threshold : 2 <= KARATSUBA_THRESHOLD.

Ltac fill_operands :=
  constructor; unfold apart in *; try assumption; try lia;
  try (let a := fresh in let Ha := fresh in intros a Ha; match goal with H : mapped ?m _ _ |- is_Some (?m !! _) => apply H; lia end).

(** One level of the recursion, for any routine that multiplies the halves. *)
Section Level.
Context {R : Type} (prodp up vp size hsize tspace : Z) (u v u0 u1 v0 v1 : list Z) (m : mem).
Hypothesis hsize_pos : 0 < hsize.
Hypothesis size_even : size = 2 * hsize.
Hypothesis Hop : operands m prodp up vp size tspace u v.

(** [recL] computes product L into the scratch space. *)
Context (recL : mem -> flow R mem).
Hypothesis recL_spec : forall m',
  operands m' tspace up vp hsize (tspace + size) u0 v0 -> multiplies (recL m') m' tspace hsize (tspace + size) u0 v0.

Hypothesis u0_len : Z.of_nat (length u0) = hsize.
Hypothesis u1_len : Z.of_nat (length u1) = hsize.
Hypothesis v0_len : Z.of_nat (length v0) = hsize.
Hypothesis v1_len : Z.of_nat (length v1) = hsize.
Hypothesis u_halves : u = u0 ++ u1.
Hypothesis v_halves : v = v0 ++ v1.

(** From products H and M in place to the whole product. *)
Lemma karatsuba_finish m4 H M (negflg : bool) :
  frame m m4 prodp (2 * size) tspace (2 * size) ->
  bytes_at m4 (prodp + size) H -> Z.of_nat (length H) = size -> limbs H -> lv H = lv u1 * lv v1 ->
  bytes_at m4 tspace M -> Z.of_nat (length M) = size -> limbs M ->
  (if negflg then -1 else 1) * lv M = (lv u1 - lv u0) * (lv v0 - lv v1) ->
  multiplies (
    let! '(m, cy) := kara_add_H_M m4 prodp tspace size hsize negflg in
    let! m := recL m in
    kara_add_L m prodp tspace size hsize cy) m prodp size tspace u v.
Proof.
  intros G4 BH4 HH LH VH BM HM LM VM. destruct Hop. rewrite u_halves, v_halves in *.
  apply Forall_app in op_u0 as [Lu0 Lu1], op_v0 as [Lv0 Lv1].
  apply bytes_at_app in op_u_at0 as [Bu0 _], op_v_at0 as [Bv0 _]. unfold apart in *.
  destruct (halves m4 (prodp + size) hsize H) as (H0 & H1 & -> & HH0 & HH1 & LH0 & LH1 & _ & _ & VHs); auto; try lia.
  destruct (add_H_M_spec (R := R) prodp tspace size hsize hsize_pos size_even op_prod_space0 m4 H0 H1 M negflg)
    as (m5 & Y & t & -> & BY & HY & LY & Ht & VY & F5); auto; [exact (proj2 G4 _ _ op_prod0)|].
  cbn [flow_bind]. pose proof (frame_trans _ _ _ _ _ _ _ G4 F5) as G5. pose proof (proj2 G5 _ _ op_space0) as T5.
  assert (bytes_at m5 up u0) as Bu5 by (eapply frame_at; [exact G5|eassumption|unfold apart; lia..]).
  assert (bytes_at m5 vp v0) as Bv5 by (eapply frame_at; [exact G5|eassumption|unfold apart; lia..]).
  destruct (recL_spec m5) as (m6 & L & -> & BL & HL & LL & VL & F6); [fill_operands|]. cbn [flow_bind].
  assert (frame m m6 prodp (2 * size) tspace (2 * size)) as G6
    by (eapply frame_trans; [exact G5|eapply frame_weaken; [exact F6|intros; lia..]]).
  assert (bytes_at m6 (prodp + hsize) (Y ++ H1)) as BY6
    by (eapply frame_at; [exact F6|eassumption|unfold apart; rewrite length_app; lia..]).
  destruct (halves m6 tspace hsize L) as (L0 & L1 & -> & HL0 & HL1 & LL0 & LL1 & _ & _ & VLs); auto.
  pose proof (lval_bound A u0 Lu0) as Ku0. pose proof (lval_bound A u1 Lu1) as Ku1.
  pose proof (lval_bound A v0 Lv0) as Kv0. pose proof (lval_bound A v1 Lv1) as Kv1.
  pose proof (lval_bound A L0 LL0) as KL0. pose proof (lval_bound A L1 LL1) as KL1. pose proof (lval_bound A H0 LH0) as KH0.
  rewrite u0_len in Ku0. rewrite u1_len in Ku1. rewrite v0_len in Kv0. rewrite v1_len in Kv1.
  destruct (karatsuba_identity (base ^ hsize) (lv u0) (lv u1) (lv v0) (lv v1) negflg (lv H0) (lv H1) (lv M) (lv L0) (lv L1))
    as (I1 & I2 & I3 & I4);
    [apply (base_pow_pos hsize); clear -hsize_pos; lia|exact Ku0|exact Ku1|exact Kv0|exact Kv1
    |apply KL0|apply KL1|apply KH0|rewrite <- VHs; exact VH|rewrite <- VLs; exact VL|exact VM|].
  destruct (add_L_spec (R := R) prodp tspace size hsize hsize_pos size_even op_prod_space0 m6 Y H1 L0 L1 t _
    HY HH1 LY LH1 HL0 HL1 LL0 LL1 BY6 BL (proj2 G6 _ _ op_prod0) Ht VY I1 I2)
    as (m7 & l & -> & Bl & Hl & Ll & Vl & F7); [rewrite I3; exact I4|].
  exists m7, l. split; [reflexivity|]. split; [assumption|]. split; [assumption|]. split; [assumption|].
  split; [rewrite Vl, I3, !lval_app, u0_len, v0_len; reflexivity|]. exact (frame_trans _ _ _ _ _ _ _ G6 F7).
Qed.
End Level.

Section Multiply.
Context {R : Type} (rec : mem -> Z -> Z -> Z -> Z -> Z -> flow R mem).
Context (prodp up vp size hsize tspace : Z) (u v : list Z).
Hypothesis hsize_pos : 0 < hsize.
Hypothesis size_even : size = 2 * hsize.
Hypothesis rec_spec : forall m prodp up vp tspace u v,
  operands m prodp up vp hsize tspace u v -> multiplies (rec m prodp up vp hsize tspace) m prodp hsize tspace u v.

Lemma karatsuba_step m :
  operands m prodp up vp size tspace u v ->
  multiplies (
    let! m := rec m (prodp + size) (up + hsize) (vp + hsize) hsize tspace in
    let! '(m, uneg) := abs_diff m prodp (up + hsize) up hsize in
    let! '(m, vneg) := abs_diff m (prodp + hsize) (vp + hsize) vp hsize in
    let negflg := if vneg then uneg else negb uneg in
    let! m := rec m tspace prodp (prodp + hsize) hsize (tspace + size) in
    let! '(m, cy) := kara_add_H_M m prodp tspace size hsize negflg in
    let! m := rec m tspace up vp hsize (tspace + size) in
    kara_add_L m prodp tspace size hsize cy) m prodp size tspace u v.
Proof.
  intros Hop. pose proof Hop as Hop'. destruct Hop'. unfold apart in *.
  destruct (halves m up hsize u) as (u0 & u1 & Eu & Hu0 & Hu1 & Lu0 & Lu1 & Bu0 & Bu1 & Vu); auto; try lia.
  destruct (halves m vp hsize v) as (v0 & v1 & Ev & Hv0 & Hv1 & Lv0 & Lv1 & Bv0 & Bv1 & Vv); auto; try lia.
  clear op_u_at0 op_v_at0 op_u0 op_v0.
  destruct (rec_spec m (prodp + size) (up + hsize) (vp + hsize) tspace u1 v1) as (m1 & H & -> & BH & HH & LH & VH & F1);
    [fill_operands|]. cbn [flow_bind].
  assert (frame m m1 prodp (2 * size) tspace (2 * size)) as G1 by (eapply frame_weaken; [exact F1|intros; lia..]).
  destruct (abs_diff_spec (R := R) m1 prodp (up + hsize) up hsize u1 u0) as (du & -> & Hdu & Ldu & Vdu);
    auto; try (unfold apart; lia); try (intros a Ha; apply (proj2 G1 _ _ op_prod0); lia);
    try (eapply frame_at; [exact G1|eassumption|unfold apart; lia..]).
  cbn [flow_bind].
  assert (frame m (wr m1 prodp du) prodp (2 * size) tspace (2 * size)) as G2
    by (eapply frame_trans; [exact G1|apply frame_wr_in; lia]).
  destruct (abs_diff_spec (R := R) (wr m1 prodp du) (prodp + hsize) (vp + hsize) vp hsize v1 v0) as (dv & -> & Hdv & Ldv & Vdv);
    auto; try (unfold apart; lia); try (intros a Ha; apply (proj2 G2 _ _ op_prod0); lia);
    try (eapply frame_at; [exact G2|eassumption|unfold apart; lia..]).
  cbn [flow_bind]. set (m3 := wr (wr m1 prodp du) (prodp + hsize) dv).
  assert (frame m m3 prodp (2 * size) tspace (2 * size)) as G3
    by (eapply frame_trans; [exact G2|apply frame_wr_in; lia]).
  assert (bytes_at m3 (prodp + size) H) as BH3 by (repeat (apply wr_off; [|unfold apart; lia]); assumption).
  assert (bytes_at m3 prodp du) as Bdu by (apply wr_off; [apply wr_at|unfold apart; lia]).
  assert (bytes_at m3 (prodp + hsize) dv) as Bdv by apply wr_at.
  pose proof (proj2 G3 _ _ op_space0) as T3.
  destruct (rec_spec m3 tspace prodp (prodp + hsize) (tspace + size) du dv) as (m4 & M & -> & BM & HM & LM & VM & F4);
    [fill_operands|]. cbn [flow_bind].
  apply (karatsuba_finish prodp up vp size hsize tspace u v u0 u1 v0 v1 m hsize_pos size_even Hop
    (fun m => rec m tspace up vp hsize (tspace + size))) with (H := H) (M := M); auto.
  - eapply frame_trans; [exact G3|eapply frame_weaken; [exact F4|intros; lia..]].
  - eapply frame_at; [exact F4|eassumption|unfold apart; lia..].
  - lia.
  - lia.
  - rewrite VM, Vdu, Vdv. apply sign_of_product.
Qed.
End Multiply.

Section Square.
Context {R : Type} (rec : mem -> Z -> Z -> Z -> Z -> flow R mem).
Context (prodp up size hsize tspace : Z) (u : list Z).
Hypothesis hsize_pos : 0 < hsize.
Hypothesis size_even : size = 2 * hsize.
Hypothesis rec_spec : forall m prodp up tspace u,
  operands m prodp up up hsize tspace u u -> multiplies (rec m prodp up hsize tspace) m prodp hsize tspace u u.

Lemma square_step m :
  operands m prodp up up size tspace u u ->
  multiplies (
    let! m := rec m (prodp + size) (up + hsize) hsize tspace in
    let! '(m, _) := abs_diff m prodp (up + hsize) up hsize in
    let! m := rec m tspace prodp hsize (tspace + size) in
    let! '(m, cy) := kara_add_H_M m prodp tspace size hsize true in
    let! m := rec m tspace up hsize (tspace + size) in
    kara_add_L m prodp tspace size hsize cy) m prodp size tspace u u.
Proof.
  intros Hop. pose proof Hop as Hop'. destruct Hop'. unfold apart in *.
  destruct (halves m up hsize u) as (u0 & u1 & Eu & Hu0 & Hu1 & Lu0 & Lu1 & Bu0 & Bu1 & Vu); auto; try lia.
  clear op_u_at0 op_v_at0 op_u0 op_v0.
  destruct (rec_spec m (prodp + size) (up + hsize) tspace u1) as (m1 & H & -> & BH & HH & LH & VH & F1);
    [fill_operands|]. cbn [flow_bind].
  assert (frame m m1 prodp (2 * size) tspace (2 * size)) as G1 by (eapply frame_weaken; [exact F1|intros; lia..]).
  destruct (abs_diff_spec (R := R) m1 prodp (up + hsize) up hsize u1 u0) as (du & -> & Hdu & Ldu & Vdu);
    auto; try (unfold apart; lia); try (intros a Ha; apply (proj2 G1 _ _ op_prod0); lia);
    try (eapply frame_at; [exact G1|eassumption|unfold apart; lia..]).
  cbn [flow_bind]. set (m3 := wr m1 prodp du).
  assert (frame m m3 prodp (2 * size) tspace (2 * size)) as G3
    by (eapply frame_trans; [exact G1|apply frame_wr_in; lia]).
  assert (bytes_at m3 (prodp + size) H) as BH3 by (repeat (apply wr_off; [|unfold apart; lia]); assumption).
  assert (bytes_at m3 prodp du) as Bdu by apply wr_at.
  pose proof (proj2 G3 _ _ op_space0) as T3.
  destruct (rec_spec m3 tspace prodp (tspace + size) du) as (m4 & M & -> & BM & HM & LM & VM & F4);
    [fill_operands|]. cbn [flow_bind].
  apply (karatsuba_finish prodp up up size hsize tspace u u u0 u1 u0 u1 m hsize_pos size_even Hop
    (fun m => rec m tspace up hsize (tspace + size))) with (H := H) (M := M); auto.
  - eapply frame_trans; [exact G3|eapply frame_weaken; [exact F4|intros; lia..]].
  - eapply frame_at; [exact F4|eassumption|unfold apart; lia..].
  - lia.
  - lia.
  - rewrite VM, Vdu, Z.abs_square. ring.
Qed.
End Square.

(** An operand of odd size: its even part and its top limb. *)
Lemma operands_even m prodp up vp size tspace u v :
  operands m prodp up vp size tspace u v -> 1 < size ->
  exists u' ut v' vt, u = u' ++ [ut] /\ v = v' ++ [vt] /\ operands m prodp up vp (size - 1) tspace u' v'.
Proof.
  intros Hop Hs. destruct Hop.
  destruct u as [|ut u' _] using rev_ind; [simpl in *; lia|]. destruct v as [|vt v' _] using rev_ind; [simpl in *; lia|].
  exists u', ut, v', vt. split; [reflexivity|]. split; [reflexivity|]. rewrite length_app in *. cbn [length] in *.
  apply Forall_app in op_u0 as [Lu _], op_v0 as [Lv _]. apply bytes_at_app in op_u_at0 as [Bu _], op_v_at0 as [Bv _].
  constructor; unfold apart in *; try assumption; try lia.
  - intros a Ha. apply op_prod0. lia.
  - intros a Ha. apply op_space0. lia.
Qed.

(** After the even part, the odd limb. *)
Lemma odd_step {R} (rec : flow R mem) m prodp up vp size tspace u v :
  1 < size -> operands m prodp up vp size tspace u v ->
  (forall u' v', operands m prodp up vp (size - 1) tspace u' v' -> multiplies rec m prodp (size - 1) tspace u' v') ->
  multiplies (let! m := rec in odd_limb m prodp up vp (size - 1) size) m prodp size tspace u v.
Proof.
  intros Hs Hop Hrec. destruct (operands_even _ _ _ _ _ _ _ _ Hop Hs) as (u' & ut & v' & vt & -> & -> & Hev).
  destruct (Hrec u' v' Hev) as (m1 & l & -> & Bl & Hl & Ll & Vl & F). cbn [flow_bind].
  assert (frame m m1 prodp (2 * size) tspace (2 * size)) as G by (eapply frame_weaken; [exact F|intros; lia..]).
  destruct (odd_limb_spec (R := R) m1 prodp up vp (size - 1) size tspace u' v' ut vt l)
    as (m2 & l2 & E & B2 & H2 & L2 & V2 & F2); auto; try lia.
  { destruct Hop. pose proof op_u_len0 as Hu. pose proof op_v_len0 as Hv.
    constructor; auto; try (apply (proj2 G); assumption);
      (eapply frame_at; [exact G|eassumption|rewrite ?Hu, ?Hv; assumption..]). }
  exists m2, l2. repeat (split; [assumption|]). exact (frame_trans _ _ _ _ _ _ _ G F2).
Qed.

Lemma land_1 z : Z.land z 1 = z mod 2.
Proof. change 1 with (Z.ones 1). rewrite Z.land_ones by lia. reflexivity. Qed.

Lemma even_half size : size mod 2 = 0 -> size = 2 * Z.shiftr size 1.
Proof. intros Hm. rewrite Z.shiftr_div_pow2 by lia. change (2 ^ 1) with 2. pose proof (Z.div_mod size 2). lia. Qed.

Lemma impn_mul_n_spec {R} fuel m prodp up vp size tspace u v :
  size <= Z.of_nat fuel -> 1 < size -> operands m prodp up vp size tspace u v ->
  multiplies (@impn_mul_n R fuel m prodp up vp size tspace) m prodp size tspace u v.
Proof.
  revert m prodp up vp size tspace u v. induction fuel as [|fuel IH]; intros m prodp up vp size tspace u v Hf Hs Hop; [lia|].
  assert (forall n m prodp up vp tspace u v, n < size -> operands m prodp up vp n tspace u v ->
    multiplies (if n <? KARATSUBA_THRESHOLD then @impn_mul_n_basecase R m prodp up vp n
                else impn_mul_n fuel m prodp up vp n tspace) m prodp n tspace u v) as Hrec.
  { intros n m' prodp' up' vp' tspace' u' v' Hn Hop'. destruct (Z.ltb_spec n KARATSUBA_THRESHOLD).
    - apply basecase_spec with (1 := Hop').
    - apply IH; [lia|lia|assumption]. }
  cbn [impn_mul_n]. cbv zeta. rewrite land_1. destruct (Z.eqb_spec (size mod 2) 0) as [He|Ho]; cbn [negb].
  - pose proof (even_half size He) as Hh.
    apply (karatsuba_step (fun m prodp up vp n tspace =>
      if n <? KARATSUBA_THRESHOLD then impn_mul_n_basecase m prodp up vp n else impn_mul_n fuel m prodp up vp n tspace));
      auto; [lia|]. intros. apply Hrec; [lia|assumption].
  - apply odd_step; auto. intros u' v' Hop'. apply Hrec; [lia|assumption].
Qed.

Lemma impn_sqr_n_spec {R} fuel m prodp up size tspace u :
  size <= Z.of_nat fuel -> 1 < size -> operands m prodp up up size tspace u u ->
  multiplies (@impn_sqr_n R fuel m prodp up size tspace) m prodp size tspace u u.
Proof.
  revert m prodp up size tspace u. induction fuel as [|fuel IH]; intros m prodp up size tspace u Hf Hs Hop; [lia|].
  assert (forall n m prodp up tspace u, n < size -> operands m prodp up up n tspace u u ->
    multiplies (if n <? KARATSUBA_THRESHOLD then @impn_sqr_n_basecase R m prodp up n
                else impn_sqr_n fuel m prodp up n tspace) m prodp n tspace u u) as Hrec.
  { intros n m' prodp' up' tspace' u' Hn Hop'. destruct (Z.ltb_spec n KARATSUBA_THRESHOLD).
    - exact (basecase_spec _ _ _ _ _ _ _ _ Hop').
    - apply IH; [lia|lia|assumption]. }
  cbn [impn_sqr_n]. cbv zeta. rewrite land_1. destruct (Z.eqb_spec (size mod 2) 0) as [He|Ho]; cbn [negb].
  - pose proof (even_half size He) as Hh.
    apply (square_step (fun m prodp up n tspace =>
      if n <? KARATSUBA_THRESHOLD then impn_sqr_n_basecase m prodp up n else impn_sqr_n fuel m prodp up n tspace));
      auto; [lia|]. intros. apply Hrec; [lia|assumption].
  - apply odd_step; auto. intros u' v' Hop'.
    assert (u' = v') as <-.
    { destruct Hop'. apply (bytes_at_inj m up); auto. lia. }
    apply Hrec; [lia|assumption].
Qed.
End Mul.

(** C1: for operands of any positive size, distinct or the same, the
    multiplication terminates with fuel equal to the size, and leaves at [prodp] the
    [2 * size] limbs of the product, whatever the Karatsuba threshold; it touches no
    memory outside the product and a scratch area of [2 * size] limbs. *)
Theorem mpn_mul_n_correct A KARATSUBA_THRESHOLD (R : Type) m prodp up vp size tspace u v :
  2 <= KARATSUBA_THRESHOLD -> operands A m prodp up vp size tspace u v ->
  exists m' l,
    @mpn_mul_n A KARATSUBA_THRESHOLD R (Z.to_nat size) m prodp up vp size tspace = Next m' /\
    bytes_at m' prodp l /\ Z.of_nat (length l) = 2 * size /\ Forall (limb A) l /\
    lval A l = lval A u * lval A v /\
    (forall a, ~ (prodp <= a < prodp + 2 * size) -> ~ (tspace <= a < tspace + 2 * size) -> m' !! a = m !! a).
Proof.
  intros Hth Hop.
  assert (multiplies A (@mpn_mul_n A KARATSUBA_THRESHOLD R (Z.to_nat size) m prodp up vp size tspace)
    m prodp size tspace u v) as (m' & l & E & B & Hl & Ll & V & F & _); [|exists m', l; auto 6].
  unfold mpn_mul_n. pose proof (op_size _ _ _ _ _ _ _ _ _ Hop). destruct (Z.eqb_spec up vp) as [E|].
  - assert (u = v) as <- by (destruct Hop; subst vp; apply (bytes_at_inj m up); auto; lia). subst vp. destruct (Z.ltb_spec size KARATSUBA_THRESHOLD).
    + exact (basecase_spec _ _ _ _ _ _ _ _ _ Hop).
    + apply impn_sqr_n_spec; auto; lia.
  - destruct (Z.ltb_spec size KARATSUBA_THRESHOLD).
    + exact (basecase_spec _ _ _ _ _ _ _ _ _ Hop).
    + apply impn_mul_n_spec; auto; lia.
Qed.

(** * Witness *)

(** Three limbs of 2^32 - 1, squared with a threshold of 2, and six limbs for the product and
    for the scratch space. *)
Definition factors : mem := mem_of 10 ([2 ^ 32 - 1; 2 ^ 32 - 1; 2 ^ 32 - 1] ++ repeat 0 12).

Lemma mpn_mul_n_witness :
  exists m' l,
    @mpn_mul_n (Arch false false) 2 unit (Z.to_nat 3) factors 13 10 10 3 19 = Next m' /\
    bytes_at m' 13 l /\ Z.of_nat (length l) = 2 * 3 /\ Forall (limb (Arch false false)) l /\
    lval (Arch false false) l =
      lval (Arch false false) [2 ^ 32 - 1; 2 ^ 32 - 1; 2 ^ 32 - 1] * lval (Arch false false) [2 ^ 32 - 1; 2 ^ 32 - 1; 2 ^ 32 - 1] /\
    (forall a, ~ (13 <= a < 13 + 2 * 3) -> ~ (19 <= a < 19 + 2 * 3) -> m' !! a = factors !! a).
Proof.
  apply (mpn_mul_n_correct (Arch false false) 2 unit factors 13 10 10 3 19
    [2 ^ 32 - 1; 2 ^ 32 - 1; 2 ^ 32 - 1] [2 ^ 32 - 1; 2 ^ 32 - 1; 2 ^ 32 - 1]); [lia|].
  constructor; try (unfold apart; lia); try reflexivity; try exact (max_limbs _ 3);
    try (apply mem_of_at; [lia|reflexivity]); apply mem_of_mapped; simpl; lia.
Defined.
