(* ===== verification/MpnMulAny.v ===== *)
(** Multiplication of numbers of different sizes (stdlib/mul.c): the longer operand is cut
    into pieces of the size of the shorter one, whose products are accumulated, and the
    rest is multiplied by a recursive call with the operands exchanged.

    The areas that [TMP_ALLOC] reserves lie one after the other from [sp] on: [tspace], then
    [tp], then those of the recursive call.  [4 * (usize + vsize)] limbs hold them all. *)
From S2P Require Import Prelude CMem MemWrite Mpn MpnMul.

Section MulAny.
Context (A : arch) (KARATSUBA_THRESHOLD : Z).

Definition MPN_MUL_N_RECURSE {R} (m : mem) (prodp up vp size tspace : Z) : flow R mem :=
  if size <? KARATSUBA_THRESHOLD then impn_mul_n_basecase A m prodp up vp size
  else impn_mul_n A KARATSUBA_THRESHOLD (Z.to_nat size) m prodp up vp size tspace.

(** [cy = mpn_add_n (prodp, prodp, tp, vsize); mpn_add_1 (prodp + vsize, tp + vsize, size, cy)] *)
Definition add_product {R} (m : mem) (prodp tp vsize size : Z) : flow R mem :=
  let! '(m, cy) := mpn_add_n A m prodp prodp tp vsize in
  let! '(m, _) := mpn_add_1 A m (prodp + vsize) (tp + vsize) size cy in
  Next m.

(** [do ... while (usize >= vsize)], with the final values of the variables it changes. *)
Fixpoint mul_chunks {R} (fuel : nat) (m : mem) (prodp up usize vp vsize tspace tp : Z) :
    flow R (mem * Z * Z * Z) :=
  match fuel with
  | O => NoFuel
  | S fuel =>
      let! m := MPN_MUL_N_RECURSE m tp up vp vsize tspace in
      let! m := add_product m prodp tp vsize vsize in
      let prodp := prodp + vsize in
      let up := up + vsize in
      let usize := usize - vsize in
      if vsize <=? usize then mul_chunks fuel m prodp up usize vp vsize tspace tp
      else Next (m, prodp, up, usize)
  end.

Fixpoint mpn_mul {R} (fuel : nat) (m : mem) (prodp up usize vp vsize sp : Z) : flow R (mem * Z) :=
  match fuel with
  | O => NoFuel
  | S fuel =>
      let prod_endp := prodp + usize + vsize - 1 in
      if vsize <? KARATSUBA_THRESHOLD then
        if vsize =? 0 then Next (m, 0) else schoolbook A m prodp up usize vp vsize
      else
        let tspace := sp in
        let! m := MPN_MUL_N_RECURSE m prodp up vp vsize tspace in
        let prodp := prodp + vsize in
        let up := up + vsize in
        let usize := usize - vsize in
        let! '(m, prodp, up, usize) :=
          if vsize <=? usize
          then let tp := sp + 2 * vsize in mul_chunks (Z.to_nat usize) m prodp up usize vp vsize tspace tp
          else Next (m, prodp, up, usize) in
        let! m :=
          if usize =? 0 then Next m else
          let! '(m, _) := mpn_mul fuel m tspace vp vsize up usize (sp + 4 * vsize) in
          add_product m prodp tspace vsize usize in
        let! top := lload m prod_endp in
        Next (m, top)
  end.

(** * Proofs *)

Abbreviation base := (limb_base A).
Abbreviation lv := (lval A).
Abbreviation limbs := (Forall (limb A)).

Hypothesis threshold : 2 <= KARATSUBA_THRESHOLD.

Lemma recurse_spec {R} m prodp up vp size tspace u v :
  operands A m prodp up vp size tspace u v ->
  multiplies A (@MPN_MUL_N_RECURSE R m prodp up vp size tspace) m prodp size tspace u v.
Proof.
  intros Hop. unfold MPN_MUL_N_RECURSE. destruct (Z.ltb_spec size KARATSUBA_THRESHOLD).
  - apply basecase_spec with (1 := Hop).
  - apply impn_mul_n_spec; auto; lia.
Qed.

(** The product of a piece, of [n + k] limbs, is added to the [n] limbs that overlap it. *)
Lemma add_product_spec {R} m prodp tp n k hi t :
  0 < n -> 0 < k -> Z.of_nat (length hi) = n -> Z.of_nat (length t) = n + k -> limbs hi -> limbs t ->
  bytes_at m prodp hi -> bytes_at m tp t -> mapped m prodp (prodp + (n + k)) -> apart prodp (n + k) tp (n + k) ->
  lv hi + lv t < base ^ (n + k) ->
  exists l, @add_product R m prodp tp n k = Next (wr m prodp l) /\
    Z.of_nat (length l) = n + k /\ limbs l /\ lv l = lv hi + lv t.
Proof.
  intros Hn Hk Hhi Ht Lhi Lt Bhi Bt Hm Ha Hmax. unfold add_product, apart in *.
  destruct (split_front t (Z.to_nat n)) as (t0 & t1 & -> & Ht0); [lia|]. rewrite length_app in Ht.
  apply Forall_app in Lt as [L0 L1]. apply bytes_at_app in Bt as [B0 B1].
  assert (Z.of_nat (length t0) = n) as Hz by lia. rewrite Hz in B1. rewrite lval_app, Hz in *.
  destruct (add_n_spec A (R := R) m prodp prodp tp n hi t0) as (lo & cy & -> & Hlo & Llo & Hcy & Vlo);
    auto using reads_ahead_self.
  { intros a Hr. apply Hm. lia. }
  { unfold reads_ahead. lia. }
  cbn [flow_bind]. pose proof (is_carry_limb A cy Hcy) as Lcy.
  destruct (add_1_spec A (R := R) t1 (wr m prodp lo) (prodp + n) (tp + n) k cy) as (l1 & c & -> & Hl1 & Ll1 & Hc & Vl1); auto.
  { lia. }
  { apply wr_off; [assumption|unfold apart; lia]. }
  { apply wr_mapped. intros a Hr. apply Hm. lia. }
  { unfold reads_ahead. lia. }
  cbn [flow_bind]. exists (lo ++ l1). rewrite wr_app, Hlo, length_app. split; [reflexivity|]. split; [lia|].
  split; [apply Forall_app; auto|]. rewrite lval_app, Hlo.
  pose proof (lval_bound A lo Llo) as Klo. rewrite Hlo in Klo. rewrite Z.pow_add_r in Hmax by lia.
  assert (0 < base ^ n) by lia. assert (0 < base ^ k) by (apply base_pow_pos; lia).
  assert (lv t1 + cy < base ^ k) as Hfit by nia.
  rewrite (no_carry A k l1 c (lv t1 + cy) Ll1 Hl1) in Vl1 by (auto; unfold is_carry in Hc; lia). nia.
Qed.

Lemma piece_fits P Q h a b : 0 <= h < P -> 0 <= a < Q -> 0 <= b < P -> h + a * b < P * Q.
Proof. intros. assert (a * b <= (Q - 1) * (P - 1)) by (apply Z.mul_le_mono_nonneg; lia). nia. Qed.

(** A piece [c] of the longer operand: its product with [v] goes to [tp] and is added at
    [prodp]. *)
Lemma piece_spec {R} m prodp up vp n tspace tp hi c v :
  operands A m tp up vp n tspace c v ->
  Z.of_nat (length hi) = n -> limbs hi -> bytes_at m prodp hi -> mapped m prodp (prodp + 2 * n) ->
  apart prodp (2 * n) tp (2 * n) -> apart prodp (2 * n) tspace (2 * n) ->
  exists m1 l, (let! m := @MPN_MUL_N_RECURSE R m tp up vp n tspace in add_product m prodp tp n n) = Next (wr m1 prodp l) /\
    frame m m1 tp (2 * n) tspace (2 * n) /\ Z.of_nat (length l) = 2 * n /\ limbs l /\ lv l = lv hi + lv c * lv v.
Proof.
  intros Hop Hhi Lhi Bhi Hm At As. unfold apart in *.
  destruct (recurse_spec (R := R) _ _ _ _ _ _ _ _ Hop) as (m1 & t & -> & Bt & Ht & Lt & Vt & F). cbn [flow_bind]. destruct Hop.
  destruct (add_product_spec (R := R) m1 prodp tp n n hi t) as (l & -> & Hl & Ll & Vl); auto; try lia.
  - eapply frame_at; [exact F|eassumption|unfold apart; lia..].
  - apply (proj2 F). intros a Ha. apply Hm. lia.
  - unfold apart. lia.
  - rewrite Vt, Z.pow_add_r by lia. pose proof (lval_bound A hi Lhi) as K1. pose proof (lval_bound A c op_u) as K2.
    pose proof (lval_bound A v op_v) as K3. rewrite Hhi in K1. rewrite op_u_len in K2. rewrite op_v_len in K3.
    apply piece_fits; assumption.
  - exists m1, l. rewrite Vt in Vl. split; [reflexivity|]. split; [assumption|]. split; [lia|]. auto.
Qed.

(** What a multiplication leaves. *)
Definition multiplied {R} (run : flow R (mem * Z)) (m : mem) (prodp size sp : Z) (x : Z) : Prop :=
  exists m' l c, run = Next (m', c) /\ bytes_at m' prodp l /\ Z.of_nat (length l) = size /\ limbs l /\
    last l = Some c /\ lv l = x /\ frame m m' prodp size sp (4 * size).

Section Pieces.
Context {R : Type} (vp vsize sp : Z) (v : list Z).
Hypothesis vsize_pos : 0 < vsize.
Hypothesis v_len : Z.of_nat (length v) = vsize.
Hypothesis v_limbs : limbs v.
Hypothesis space_v : apart sp (4 * vsize) vp vsize.

(** The loop consumes the pieces [c] of [u] and leaves a rest [r] shorter than [v]; the
    product of [c] is added to what was at [prodp]. *)
Lemma mul_chunks_spec fuel m prodp up usize u hi :
  vsize <= usize -> usize <= Z.of_nat fuel -> Z.of_nat (length u) = usize -> Z.of_nat (length hi) = vsize ->
  limbs u -> limbs hi -> bytes_at m up u -> bytes_at m vp v -> bytes_at m prodp hi ->
  mapped m prodp (prodp + (vsize + usize)) -> mapped m sp (sp + 4 * vsize) ->
  apart prodp (vsize + usize) up usize -> apart prodp (vsize + usize) vp vsize ->
  apart prodp (vsize + usize) sp (4 * vsize) -> apart sp (4 * vsize) up usize ->
  exists m' c r l k, @mul_chunks R fuel m prodp up usize vp vsize sp (sp + 2 * vsize) = Next (m', prodp + k, up + k, usize - k) /\
    u = c ++ r /\ Z.of_nat (length c) = k /\ usize - k < vsize /\ bytes_at m' prodp l /\ Z.of_nat (length l) = k + vsize /\ limbs l /\
    lv l = lv hi + lv c * lv v /\ frame m m' prodp (vsize + usize) sp (4 * vsize).
Proof.
  revert m prodp up usize u hi. induction fuel as [|fuel IH];
    intros m prodp up usize u hi Hge Hf Hu Hhi Lu Lhi Bu Bv Bhi Hm Hsp Apu Apv Aps Asu; [lia|]. unfold apart in *.
  destruct (split_front u (Z.to_nat vsize)) as (c1 & u2 & -> & Hc1); [lia|]. rewrite length_app in *.
  apply Forall_app in Lu as [Lc1 Lu2]. apply bytes_at_app in Bu as [Bc1 Bu2].
  assert (Z.of_nat (length c1) = vsize) as Hz by lia. rewrite Hz in Bu2. cbn [mul_chunks].
  destruct (piece_spec (R := R) m prodp up vp vsize sp (sp + 2 * vsize) hi c1 v) as (m1 & l1 & E & F1 & Hl1 & Ll1 & V1); auto.
  { constructor; unfold apart; auto; try lia; intros a Ha; apply Hsp; lia. }
  { intros a Ha. apply Hm. lia. }
  { unfold apart. lia. }
  { unfold apart. lia. }
  destruct (MPN_MUL_N_RECURSE m (sp + 2 * vsize) up vp vsize sp) as [m0| | |]; try discriminate.
  cbn [flow_bind] in E |- *. rewrite E. cbn [flow_bind]. clear E.
  set (m2 := wr m1 prodp l1).
  assert (frame m m2 prodp (vsize + usize) sp (4 * vsize)) as G.
  { eapply frame_trans; [eapply frame_weaken; [exact F1|intros; lia..]|]. apply frame_wr_in; lia. }
  destruct (Z.leb_spec vsize (usize - vsize)).
  - destruct (split_front l1 (Z.to_nat vsize)) as (lo & hi1 & -> & Hlo); [lia|]. rewrite length_app in Hl1.
    apply Forall_app in Ll1 as [Llo Lhi1]. pose proof (wr_at m1 prodp (lo ++ hi1)) as Bl. fold m2 in Bl.
    apply bytes_at_app in Bl as [Blo Bhi1]. assert (Z.of_nat (length lo) = vsize) as Hzl by lia. rewrite Hzl in Bhi1.
    rewrite lval_app, Hzl in V1.
    destruct (IH m2 (prodp + vsize) (up + vsize) (usize - vsize) u2 hi1)
      as (m' & c & r & l & k & -> & -> & Hk & Hr & Bl & Hl & Ll & Vl & F); auto; try lia.
    { eapply frame_at; [exact G|eassumption|unfold apart; lia..]. }
    { eapply frame_at; [exact G|eassumption|unfold apart; lia..]. }
    { apply (proj2 G). intros a Ha. apply Hm. lia. }
    { apply (proj2 G). assumption. }
    exists m', (c1 ++ c), r, (lo ++ l), (vsize + k). split; [rewrite !Z.add_assoc, Z.sub_add_distr; reflexivity|]. split; [apply app_assoc|].
    rewrite !length_app in *. split; [lia|]. split; [lia|]. split.
    { apply bytes_at_app. rewrite Hzl. split; [|assumption]. eapply frame_at; [exact F|eassumption|unfold apart; lia..]. }
    split; [lia|]. split; [apply Forall_app; auto|]. split.
    { rewrite !lval_app, Hzl, Hz, Vl. transitivity (lv lo + base ^ vsize * lv hi1 + base ^ vsize * (lv c * lv v)); [ring|].
      rewrite V1. ring. }
    eapply frame_trans; [exact G|]. eapply frame_weaken; [exact F|intros; lia..].
  - exists m2, c1, u2, l1, vsize. split; [reflexivity|]. split; [reflexivity|]. split; [assumption|]. split; [lia|].
    split; [apply wr_at|]. split; [lia|]. auto.
Qed.

(** The loop is entered only when a whole piece is left. *)
Lemma maybe_chunks_spec m prodp up usize u hi :
  0 <= usize -> Z.of_nat (length u) = usize -> Z.of_nat (length hi) = vsize ->
  limbs u -> limbs hi -> bytes_at m up u -> bytes_at m vp v -> bytes_at m prodp hi ->
  mapped m prodp (prodp + (vsize + usize)) -> mapped m sp (sp + 4 * vsize) ->
  apart prodp (vsize + usize) up usize -> apart prodp (vsize + usize) vp vsize ->
  apart prodp (vsize + usize) sp (4 * vsize) -> apart sp (4 * vsize) up usize ->
  exists m' c r l k, (if vsize <=? usize then @mul_chunks R (Z.to_nat usize) m prodp up usize vp vsize sp (sp + 2 * vsize)
      else Next (m, prodp, up, usize)) = Next (m', prodp + k, up + k, usize - k) /\
    u = c ++ r /\ Z.of_nat (length c) = k /\ usize - k < vsize /\ bytes_at m' prodp l /\ Z.of_nat (length l) = k + vsize /\ limbs l /\
    lv l = lv hi + lv c * lv v /\ frame m m' prodp (vsize + usize) sp (4 * vsize).
Proof.
  intros. destruct (Z.leb_spec vsize usize).
  - apply mul_chunks_spec; auto; lia.
  - exists m, [], u, hi, 0. rewrite !Z.add_0_r, Z.sub_0_r. cbn [lval app length]. do 8 (split; [first [reflexivity|assumption|lia]|]). apply frame_refl.
Qed.

(** The rest [r]: its product with [v], which [rec] leaves at [sp], is added to the top [vsize]
    limbs of what is at [prodp]. *)
Lemma rest_spec (rec : flow R (mem * Z)) m prodp k n l r :
  Z.of_nat (length l) = k + vsize -> Z.of_nat (length r) = n -> 0 <= k -> limbs l -> limbs r -> n < vsize ->
  bytes_at m prodp l -> mapped m prodp (prodp + (k + vsize + n)) -> apart prodp (k + vsize + n) sp (4 * vsize + 4 * (vsize + n)) ->
  (0 < n -> multiplied rec m sp (vsize + n) (sp + 4 * vsize) (lv v * lv r)) ->
  exists m' l', (if n =? 0 then Next m else let! '(m, _) := rec in add_product m (prodp + k) sp vsize n) = Next m' /\
    bytes_at m' prodp l' /\ Z.of_nat (length l') = k + vsize + n /\ limbs l' /\
    lv l' = lv l + base ^ k * (lv v * lv r) /\
    frame m m' prodp (k + vsize + n) sp (4 * vsize + 4 * (vsize + n)).
Proof.
  intros Hl Hr Hk Ll Lr Hn Bl Hm Ap Hrec. unfold apart in *. destruct (Z.eqb_spec n 0) as [-> |Hne].
  { destruct r; [|simpl in Hr; lia]. exists m, l. split; [reflexivity|]. split; [assumption|]. split; [lia|].
    split; [assumption|]. split; [cbn [lval]; lia|]. apply frame_refl. }
  destruct Hrec as (m1 & t & c & -> & Bt & Ht & Lt & _ & Vt & F); [lia|]. cbn [flow_bind].
  assert (bytes_at m1 prodp l) as Bl1 by (eapply frame_at; [exact F|eassumption|unfold apart; lia..]).
  destruct (split_front l (Z.to_nat k)) as (d & hi & -> & Hd); [lia|]. rewrite length_app in Hl.
  apply Forall_app in Ll as [Ld Lhi]. apply bytes_at_app in Bl1 as [Bd Bhi].
  assert (Z.of_nat (length d) = k) as Hz by lia. rewrite Hz in Bhi.
  assert (0 < n) as Hnpos by lia. assert (Z.of_nat (length hi) = vsize) as Hhi by lia.
  destruct (add_product_spec (R := R) m1 (prodp + k) sp vsize n hi t) as (l' & -> & Hl' & Ll' & Vl'); auto; try (unfold apart; lia).
  { apply (proj2 F). intros a Ha. apply Hm. lia. }
  { rewrite Vt, Z.pow_add_r by lia. pose proof (lval_bound A hi Lhi) as K1. pose proof (lval_bound A v v_limbs) as K2.
    pose proof (lval_bound A r Lr) as K3. rewrite Hhi in K1. rewrite v_len in K2. rewrite Hr in K3.
    rewrite (Z.mul_comm (lv v)). apply piece_fits; assumption. }
  exists (wr m1 (prodp + k) l'), (d ++ l'). split; [reflexivity|]. split.
  { apply bytes_at_app. rewrite Hz. split; [apply wr_off; [assumption|unfold apart; lia]|apply wr_at]. }
  rewrite length_app. split; [lia|]. split; [apply Forall_app; auto|]. split.
  { rewrite !lval_app, Hz, Vl', Vt. ring. }
  eapply frame_trans; [eapply frame_weaken; [exact F|intros; lia..]|]. apply frame_wr_in; lia.
Qed.
End Pieces.

(** Operands in place for a multiplication into [prodp] with the scratch space at [sp]. *)
Record rectangle (m : mem) (prodp up usize vp vsize sp : Z) (u v : list Z) : Prop := {
  rc_sizes : 0 < vsize <= usize;
  rc_u_len : Z.of_nat (length u) = usize;
  rc_v_len : Z.of_nat (length v) = vsize;
  rc_u : limbs u;
  rc_v : limbs v;
  rc_u_at : bytes_at m up u;
  rc_v_at : bytes_at m vp v;
  rc_prod : mapped m prodp (prodp + (usize + vsize));
  rc_space : mapped m sp (sp + 4 * (usize + vsize));
  rc_prod_u : apart prodp (usize + vsize) up usize;
  rc_prod_v : apart prodp (usize + vsize) vp vsize;
  rc_space_u : apart sp (4 * (usize + vsize)) up usize;
  rc_space_v : apart sp (4 * (usize + vsize)) vp vsize;
  rc_prod_space : apart prodp (usize + vsize) sp (4 * (usize + vsize))
}.

Lemma load_last {R} m p n l :
  bytes_at m p l -> Z.of_nat (length l) = n -> 0 < n -> exists c, @lload R m (p + n - 1) = Next c /\ last l = Some c.
Proof.
  intros Bl Hl Hn. destruct l as [|c l' _] using rev_ind; [simpl in Hl; lia|]. exists c. rewrite last_snoc. split; [|reflexivity].
  rewrite length_app in Hl. cbn [length] in Hl. apply bytes_at_app in Bl as [_ Bc]. apply bytes_at_cons in Bc as [Bc _].
  replace (p + n - 1) with (p + Z.of_nat (length l')) by lia. apply lload_at. assumption.
Qed.

Lemma mpn_mul_spec {R} fuel m prodp up usize vp vsize sp u v :
  vsize < Z.of_nat fuel -> rectangle m prodp up usize vp vsize sp u v ->
  multiplied (@mpn_mul R fuel m prodp up usize vp vsize sp) m prodp (usize + vsize) sp (lv u * lv v).
Proof.
  revert m prodp up usize vp vsize sp u v. induction fuel as [|fuel IH];
    intros m prodp up usize vp vsize sp u v Hf Hrc; [destruct Hrc; lia|]. destruct Hrc. cbn [mpn_mul]. cbv zeta. unfold apart in *.
  destruct (Z.ltb_spec vsize KARATSUBA_THRESHOLD).
  { rewrite (proj2 (Z.eqb_neq vsize 0)) by lia.
    destruct (schoolbook_spec A (R := R) u v m prodp up usize vp vsize) as (l & c & E & Hl & Ll & Hlast & V);
      auto; try (unfold apart; lia); [rewrite <- Z.add_assoc; assumption|].
    exists (wr m prodp l), l, c. split; [exact E|]. split; [apply wr_at|]. repeat (split; [assumption|]). apply frame_wr_in; lia. }
  destruct (split_front u (Z.to_nat vsize)) as (c0 & u1 & -> & Hc0); [lia|]. rewrite length_app in *.
  apply Forall_app in rc_u0 as [Lc0 Lu1]. apply bytes_at_app in rc_u_at0 as [Bc0 Bu1].
  assert (Z.of_nat (length c0) = vsize) as Hz by lia. rewrite Hz in Bu1.
  destruct (recurse_spec (R := R) m prodp up vp vsize sp c0 v) as (m1 & l0 & -> & Bl0 & Hl0 & Ll0 & V0 & F1).
  { constructor; unfold apart; auto; try lia; intros a Ha; [apply rc_prod0|apply rc_space0]; lia. }
  cbn [flow_bind].
  destruct (split_front l0 (Z.to_nat vsize)) as (lo & hi & -> & Hlo); [lia|]. rewrite length_app in Hl0.
  apply Forall_app in Ll0 as [Llo Lhi]. apply bytes_at_app in Bl0 as [Blo Bhi].
  assert (Z.of_nat (length lo) = vsize) as Hzl by lia. rewrite Hzl in Bhi. rewrite lval_app, Hzl in V0.
  assert (frame m m1 prodp (usize + vsize) sp (4 * (usize + vsize))) as G1 by (eapply frame_weaken; [exact F1|intros; lia..]).
  destruct (maybe_chunks_spec (R := R) vp vsize sp v) with (m := m1) (prodp := prodp + vsize) (up := up + vsize)
    (usize := usize - vsize) (u := u1) (hi := hi) as (m2 & c & r & l & k & -> & -> & Hk & Hr & Bl & Hl & Ll & Vl & F2);
    auto; try (unfold apart; lia); try (eapply frame_at; [exact G1|eassumption|unfold apart; lia..]);
    try (apply (proj2 G1); intros a Ha; first [apply rc_prod0; lia|apply rc_space0; lia]).
  cbn [flow_bind]. rewrite length_app in *. apply Forall_app in Lu1 as [Lc Lr]. apply bytes_at_app in Bu1 as [Bc Br]. rewrite Hk in Br.
  assert (frame m m2 prodp (usize + vsize) sp (4 * (usize + vsize))) as G2
    by (eapply frame_trans; [exact G1|eapply frame_weaken; [exact F2|intros; lia..]]).
  set (n := usize - vsize - k) in *. assert (Z.of_nat (length r) = n) as Hrn by lia.
  assert (0 < n -> multiplied (@mpn_mul R fuel m2 sp vp vsize (up + vsize + k) n (sp + 4 * vsize))
    m2 sp (vsize + n) (sp + 4 * vsize) (lv v * lv r)) as Hrec.
  { intros Hn. apply IH; [lia|].
    constructor; unfold apart; auto; try lia; try (eapply frame_at; [exact G2|eassumption|unfold apart; lia..]);
      apply (proj2 G2); intros a Ha; apply rc_space0; lia. }
  destruct (rest_spec (R := R) vsize sp v) with (rec := @mpn_mul R fuel m2 sp vp vsize (up + vsize + k) n (sp + 4 * vsize))
    (m := m2) (prodp := prodp + vsize) (k := k) (n := n) (l := l) (r := r)
    as (m3 & l' & -> & Bl' & Hl' & Ll' & Vl' & F3); auto; try (unfold apart; lia).
  { apply (proj2 G2). intros a Ha. apply rc_prod0. lia. }
  cbn [flow_bind].
  assert (bytes_at m3 prodp (lo ++ l')) as Bp.
  { apply bytes_at_app. rewrite Hzl. split; [|assumption]. eapply frame_at; [exact F3| |unfold apart; lia..].
    eapply frame_at; [exact F2|eassumption|unfold apart; lia..]. }
  assert (Z.of_nat (length (lo ++ l')) = usize + vsize) as Hp by (rewrite length_app; lia).
  destruct (load_last (R := R) m3 prodp (usize + vsize) (lo ++ l') Bp Hp) as (top & Et & Hlast); [lia|].
  replace (prodp + usize + vsize - 1) with (prodp + (usize + vsize) - 1) by lia. rewrite Et. cbn [flow_bind].
  exists m3, (lo ++ l'), top. split; [reflexivity|]. split; [assumption|]. split; [assumption|].
  split; [apply Forall_app; auto|]. split; [assumption|]. split.
  - rewrite !lval_app, Hzl, Hz, Hk, Vl', Vl.
    transitivity (lv lo + base ^ vsize * lv hi + base ^ vsize * (lv c + base ^ k * lv r) * lv v); [ring|]. rewrite V0. ring.
  - eapply frame_trans; [exact G2|]. eapply frame_weaken; [exact F3|intros; lia..].
Qed.
End MulAny.

(** C2: for operands of any sizes [usize >= vsize > 0], the multiplication
    returns for a fuel of [vsize + 1]; it leaves at [prodp] the [usize + vsize] limbs of the
    product and returns the most significant one, and it touches no memory outside the
    product and a scratch area of [4 * (usize + vsize)] limbs. *)
Theorem mpn_mul_correct A KARATSUBA_THRESHOLD (R : Type) fuel m prodp up usize vp vsize sp u v :
  2 <= KARATSUBA_THRESHOLD -> vsize < Z.of_nat fuel -> rectangle A m prodp up usize vp vsize sp u v ->
  exists m' l c,
    @mpn_mul A KARATSUBA_THRESHOLD R fuel m prodp up usize vp vsize sp = Next (m', c) /\
    bytes_at m' prodp l /\ Z.of_nat (length l) = usize + vsize /\ Forall (limb A) l /\ last l = Some c /\
    lval A l = lval A u * lval A v /\
    (forall a, ~ (prodp <= a < prodp + (usize + vsize)) -> ~ (sp <= a < sp + 4 * (usize + vsize)) -> m' !! a = m !! a).
Proof.
  intros Hth Hf Hrc.
  destruct (mpn_mul_spec A KARATSUBA_THRESHOLD Hth (R := R) fuel m prodp up usize vp vsize sp u v Hf Hrc)
    as (m' & l & c & E & B & Hl & Ll & Hlast & V & F & _).
  exists m', l, c. auto 8.
Qed.

(** * Witness *)

(** Five limbs times two, with a threshold of 2: two pieces and a rest of one limb. *)
Definition rect_mem : mem := mem_of 10 (repeat (2 ^ 32 - 1) 5 ++ repeat (2 ^ 32 - 1) 2 ++ repeat 0 35).

Lemma mpn_mul_witness :
  exists m' l c,
    @mpn_mul (Arch false false) 2 unit 3 rect_mem 17 10 5 15 2 24 = Next (m', c) /\
    bytes_at m' 17 l /\ Z.of_nat (length l) = 5 + 2 /\ Forall (limb (Arch false false)) l /\ last l = Some c /\
    lval (Arch false false) l = (2 ^ 160 - 1) * (2 ^ 64 - 1) /\
    (forall a, ~ (17 <= a < 17 + (5 + 2)) -> ~ (24 <= a < 24 + 4 * (5 + 2)) -> m' !! a = rect_mem !! a).
Proof.
  apply (mpn_mul_correct (Arch false false) 2 unit 3 rect_mem 17 10 5 15 2 24
    (repeat (2 ^ 32 - 1) 5) (repeat (2 ^ 32 - 1) 2)); [lia|simpl; lia|].
  constructor; try (unfold apart; lia); try reflexivity; try exact (max_limbs _ 5); try exact (max_limbs _ 2);
    try (apply mem_of_at; [lia|reflexivity]); try (apply mem_of_mapped; simpl; lia); lia.
Defined.
