(* ===== verification/MpnDiv.v ===== *)
(** Division of multiple-precision naturals by one limb: stdlib/divmod_1.c and mod_1.c, with the portable
    double-limb division, subtraction and count of leading zeros of stdlib/longlong.h and the division
    by a multiplication with the inverse of stdlib/gmp-impl.h. *)
From S2P Require Import Prelude CMem MemWrite Mpn.

Section Division.
Context (A : arch).

#[local] Abbreviation lw := (lw A).
#[local] Abbreviation B := (limb_base A).
#[local] Abbreviation bits := (limb_bits A).

(** * longlong.h *)

Definition add_ssaaaa (ah al bh bl : Z) : Z * Z :=
  let x := lw (al + bl) in (lw (ah + bh + b2z (x <? al)), x).

Definition sub_ddmmss (ah al bh bl : Z) : Z * Z :=
  let x := lw (al - bl) in (lw (ah - bh - b2z (al <? x)), x).

(** The estimate of one half of the quotient from the high half of the divisor, corrected at most twice. *)
Definition qrnnd_half (d d1 d0 n low : Z) : Z * Z :=
  let r := n mod d1 in
  let q := n / d1 in
  let m := lw (q * d0) in
  let r := Z.lor (lw (r * ll_B A)) low in
  let '(q, r) :=
    if r <? m then
      let q := lw (q - 1) in
      let r := lw (r + d) in
      if d <=? r then if r <? m then (lw (q - 1), lw (r + d)) else (q, r) else (q, r)
    else (q, r) in
  (q, lw (r - m)).

(** Quotient and remainder of the two limbs [n1], [n0] by [d]; the division of half limbs faults when the high half is 0. *)
Definition udiv_qrnnd {R} (n1 n0 d : Z) : flow R (Z * Z) :=
  let d1 := ll_highpart A d in
  let d0 := ll_lowpart A d in
  if d1 =? 0 then Fault else
  let '(q1, r1) := qrnnd_half d d1 d0 n1 (ll_highpart A n0) in
  let '(q0, r0) := qrnnd_half d d1 d0 r1 (ll_lowpart A n0) in
  Next (Z.lor (lw (q1 * ll_B A)) q0, r0).

Definition clz_tab : list Z :=
  [0] ++ [1] ++ repeat 2 2 ++ repeat 3 4 ++ repeat 4 8 ++ repeat 5 16 ++ repeat 6 32 ++ repeat 7 64 ++ repeat 8 128.

(** [for (__a = W_TYPE_SIZE - 8; __a > 0; __a -= 8)]; [n] is [__a / 8]. *)
Fixpoint clz_scan (n : nat) (xr : Z) : Z :=
  match n with
  | O => 0
  | S n' => let a := 8 * Z.of_nat n in if negb (Z.land (Z.shiftr xr a) 255 =? 0) then a else clz_scan n' xr
  end.

Definition count_leading_zeros {R} (x : Z) : flow R Z :=
  let BITS4 := bits / 4 in
  let a :=
    if bits <=? 32 then
      if x <? Z.shiftl 1 (2 * BITS4) then if x <? Z.shiftl 1 BITS4 then 0 else BITS4
      else if x <? Z.shiftl 1 (3 * BITS4) then 2 * BITS4 else 3 * BITS4
    else clz_scan (Z.to_nat ((bits - 8) / 8)) x in
  match clz_tab !! Z.to_nat (Z.shiftr x a) with
  | Some t => Next (bits - (t + a))
  | None => Fault
  end.

(** * gmp-impl.h *)

Definition udiv_qrnnd_preinv {R} (d di nh nl : Z) : flow R (Z * Z) :=
  let '(q, _) := umul_ppmm A nh di in
  let q := lw (q + nh) in
  let '(xh, xl) := umul_ppmm A q d in
  let '(xh, r) := sub_ddmmss nh nl xh xl in
  let '(q, xh, r) :=
    if negb (xh =? 0) then
      let '(xh, r) := sub_ddmmss xh r 0 d in
      let q := lw (q + 1) in
      if negb (xh =? 0) then let '(xh, r) := sub_ddmmss xh r 0 d in (lw (q + 1), xh, r) else (q, xh, r)
    else (q, xh, r) in
  if d <=? r then Next (lw (q + 1), lw (r - d)) else Next (q, r).

(** * divmod_1.c and mod_1.c *)

(** What the machine's headers say of the cost of multiplication and division. *)
Context (UMUL_TIME UDIV_TIME : Z).

Definition divisor_limb_inverted {R} (divisor_limb : Z) : flow R Z :=
  if lw (Z.shiftl divisor_limb 1) =? 0 then Next (lw (-1))
  else let! '(q, _) := udiv_qrnnd (lw (- divisor_limb)) 0 divisor_limb in Next q.

(** Where a limb of the quotient goes: to the result, or nowhere ([dummy]). *)
Definition put_quot {R} (quot_ptr : Z) (m : mem) (i q : Z) : flow R mem := lstore m (quot_ptr + i) q.
Definition put_dummy {R} (m : mem) (i q : Z) : flow R mem := Next m.

Section Loops.
Context {R : Type} (put : mem -> Z -> Z -> flow R mem) (div : Z -> Z -> flow R (Z * Z)).

(** The dividend shifted left while it is divided: [for (i = dividend_size - 2; i >= 0; i--)] and the last step; [n] is [i + 1]. *)
Fixpoint norm_loop (n : nat) (m : mem) (dividend_ptr s n1 r : Z) : flow R (mem * Z) :=
  match n with
  | O =>
      let! '(q, r) := div r (lw (Z.shiftl n1 s)) in
      let! m := put m 0 q in
      Next (m, Z.shiftr r s)
  | S i =>
      let! n0 := lload m (dividend_ptr + Z.of_nat i) in
      let! '(q, r) := div r (Z.lor (lw (Z.shiftl n1 s)) (Z.shiftr n0 (bits - s))) in
      let! m := put m (Z.of_nat i + 1) q in
      norm_loop i m dividend_ptr s n0 r
  end.

(** [for (; i >= 0; i--)]; [n] is [i + 1]. *)
Fixpoint plain_loop (n : nat) (m : mem) (dividend_ptr r : Z) : flow R (mem * Z) :=
  match n with
  | O => Next (m, r)
  | S i =>
      let! n0 := lload m (dividend_ptr + Z.of_nat i) in
      let! '(q, r) := div r n0 in
      let! m := put m (Z.of_nat i) q in
      plain_loop i m dividend_ptr r
  end.

(** Without normalization: the first step is a comparison. *)
Definition plain_division (m : mem) (dividend_ptr dividend_size divisor_limb : Z) : flow R (mem * Z) :=
  let i := dividend_size - 1 in
  let! r := lload m (dividend_ptr + i) in
  if divisor_limb <=? r then plain_loop (Z.to_nat dividend_size) m dividend_ptr 0
  else let! m := put m i 0 in plain_loop (Z.to_nat i) m dividend_ptr r.
End Loops.

(** The body that mpn_divmod_1 and mpn_mod_1 share. *)
Definition division_1 {R} (put : mem -> Z -> Z -> flow R mem) (m : mem) (dividend_ptr dividend_size divisor_limb : Z) : flow R (mem * Z) :=
  if dividend_size =? 0 then Next (m, 0) else
  let preinv := (2 * UMUL_TIME + 6 <? UDIV_TIME) && (UDIV_TIME <? (UDIV_TIME - (2 * UMUL_TIME + 6)) * dividend_size) in
  let! normalization_steps := count_leading_zeros divisor_limb in
  if negb (normalization_steps =? 0) then
    let divisor_limb := lw (Z.shiftl divisor_limb normalization_steps) in
    let! div :=
      (if preinv then let! di := divisor_limb_inverted divisor_limb in Next (udiv_qrnnd_preinv divisor_limb di)
       else Next (fun nh nl => udiv_qrnnd nh nl divisor_limb)) in
    let! n1 := lload m (dividend_ptr + (dividend_size - 1)) in
    norm_loop put div (Z.to_nat (dividend_size - 1)) m dividend_ptr normalization_steps n1 (Z.shiftr n1 (bits - normalization_steps))
  else
    let! div :=
      (if preinv then let! di := divisor_limb_inverted divisor_limb in Next (udiv_qrnnd_preinv divisor_limb di)
       else Next (fun nh nl => udiv_qrnnd nh nl divisor_limb)) in
    plain_division put div m dividend_ptr dividend_size divisor_limb.

Definition mpn_divmod_1 {R} (m : mem) (quot_ptr dividend_ptr dividend_size divisor_limb : Z) : flow R (mem * Z) :=
  division_1 (put_quot quot_ptr) m dividend_ptr dividend_size divisor_limb.

Definition mpn_mod_1 {R} (m : mem) (dividend_ptr dividend_size divisor_limb : Z) : flow R Z :=
  let! '(_, r) := division_1 put_dummy m dividend_ptr dividend_size divisor_limb in Next r.

(** * Double limbs *)

Lemma lw_eq z y k : limb A y -> z = y + k * B -> lw z = y.
Proof. intros Hy ->. unfold Mpn.lw, uwrap. fold B. rewrite Z.mod_add by (pose proof (limb_base_gt A); lia). apply Z.mod_small. exact Hy. Qed.

(** The two limbs of a number. *)
Lemma two_limbs x h l : limb A l -> h * B + l = x -> h = x / B /\ l = x mod B.
Proof. intros Hl <-. unfold limb in Hl. rewrite Z.div_add_l, Z.div_small, (Z.add_comm (h * B)), Z.mod_add, Z.mod_small by lia. lia. Qed.

Lemma limbs_of x : 0 <= x < B * B -> limb A (x / B) /\ limb A (x mod B) /\ x / B * B + x mod B = x.
Proof.
  pose proof (limb_base_gt A). intros Hx. pose proof (Z.div_mod x B ltac:(lia)). pose proof (Z.mod_pos_bound x B ltac:(lia)). unfold limb.
  split; [split; [apply Z.div_pos; lia|apply Z.div_lt_upper_bound; lia]|lia].
Qed.

Lemma high_limb x : 0 <= x -> x / B <> 0 -> B <= x.
Proof. intros Hx Hn. destruct (Z.lt_ge_cases x B); [|assumption]. rewrite Z.div_small in Hn by lia. lia. Qed.

Lemma sub_ddmmss_spec ah al bh bl x k : limb A al -> limb A bl -> 0 <= x < B * B -> ah * B + al - (bh * B + bl) = x + k * (B * B) ->
  sub_ddmmss ah al bh bl = (x / B, x mod B).
Proof.
  intros Hal Hbl Hx E. destruct (limbs_of x Hx) as (Hh & Hl & Ex). unfold sub_ddmmss, limb in *. pose proof (limb_base_gt A).
  destruct (lw_cases A (al - bl) ltac:(lia)) as [[-> ?]|[[-> ?]|[-> ?]]]; [|lia|].
  - rewrite (proj2 (Z.ltb_ge _ _)) by lia. cbn [b2z]. destruct (two_limbs x (ah - bh - k * B) (al - bl)) as [E1 E2]; [unfold limb; lia|lia|]. rewrite <- E2. f_equal. rewrite <- E1. apply lw_eq with k; [unfold limb; lia|lia].
  - rewrite (proj2 (Z.ltb_lt _ _)) by lia. cbn [b2z]. destruct (two_limbs x (ah - bh - 1 - k * B) (al - bl + B)) as [E1 E2]; [unfold limb; lia|lia|]. rewrite <- E2. f_equal. rewrite <- E1. apply lw_eq with k; [unfold limb; lia|lia].
Qed.

Lemma add_ssaaaa_spec ah al bh bl x k : limb A al -> limb A bl -> 0 <= x < B * B -> ah * B + al + (bh * B + bl) = x + k * (B * B) ->
  add_ssaaaa ah al bh bl = (x / B, x mod B).
Proof.
  intros Hal Hbl Hx E. destruct (limbs_of x Hx) as (Hh & Hl & Ex). unfold add_ssaaaa, limb in *. pose proof (limb_base_gt A).
  destruct (lw_cases A (al + bl) ltac:(lia)) as [[-> ?]|[[-> ?]|[-> ?]]]; [| |lia].
  - rewrite (proj2 (Z.ltb_ge _ _)) by lia. cbn [b2z]. destruct (two_limbs x (ah + bh - k * B) (al + bl)) as [E1 E2]; [unfold limb; lia|lia|]. rewrite <- E2. f_equal. rewrite <- E1. apply lw_eq with k; [unfold limb; lia|lia].
  - rewrite (proj2 (Z.ltb_lt _ _)) by lia. cbn [b2z]. destruct (two_limbs x (ah + bh + 1 - k * B) (al + bl - B)) as [E1 E2]; [unfold limb; lia|lia|]. rewrite <- E2. f_equal. rewrite <- E1. apply lw_eq with k; [unfold limb; lia|lia].
Qed.

Lemma join_halves x y : 0 <= y < ll_B A -> Z.lor (x * ll_B A) y = x * ll_B A + y.
Proof. intros Hy. unfold ll_B in *. pose proof (half_bits A). rewrite <- lor_low, Z.shiftl_mul_pow2 by lia. reflexivity. Qed.

Lemma quot_range n b low d q r : 0 <= n < d -> 0 <= low < b -> 0 <= r < d -> n * b + low = q * d + r -> 0 <= q < b.
Proof.
  intros Hn Hl Hr E. assert (0 <= n * b + low < d * b) as H by nia. rewrite E in H. split.
  - destruct (Z.lt_ge_cases q 0); [nia|assumption].
  - destruct (Z.lt_ge_cases q b); [assumption|nia].
Qed.

(** The most significant bit is set. *)
Definition normalized (d : Z) : Prop := limb A d /\ B <= 2 * d.

(** One half of the quotient: exact, although the estimate may be two too large. *)
Lemma qrnnd_half_spec d d1 d0 n low :
  normalized d -> d = d1 * ll_B A + d0 -> 0 < d1 < ll_B A -> 0 <= d0 < ll_B A -> 0 <= n < d -> 0 <= low < ll_B A ->
  exists q r, qrnnd_half d d1 d0 n low = (q, r) /\ 0 <= q < ll_B A /\ 0 <= r < d /\ n * ll_B A + low = q * d + r.
Proof.
  intros [Hd Hn] Ed H1 H0 Hnd Hlow. destruct (ll_B_sq A) as [Hsq HB]. set (b := ll_B A) in *. unfold limb in Hd. unfold qrnnd_half. fold b.
  pose proof (Z.div_mod n d1 ltac:(lia)) as En. pose proof (Z.mod_pos_bound n d1 ltac:(lia)) as Hr. assert (0 <= n / d1) as Hq0 by (apply Z.div_pos; lia).
  set (q := n / d1) in *. set (r := n mod d1) in *. clearbody q r.
  assert (b <= 2 * d1 + 1) as Hd1 by nia. assert (q <= b + 1) as Hq by (clear -En Hr Hnd Ed H0 Hd1 H1; nia). assert (0 <= q * d0 < B) as Hm by (rewrite <- Hsq; clear -Hq Hq0 H0; nia). rewrite (lw_small A (q * d0)) by exact Hm.
  assert (b + 2 <= B) as HbB by (rewrite <- Hsq; clear -HB; nia).
  assert (0 <= r * b <= (d1 - 1) * b) as Hrb by (clear -Hr HB; split; nia). assert (0 <= r * b + low < d) as HR by lia. rewrite (lw_small A (r * b)) by (unfold limb; lia).
  assert (Z.lor (r * b) low = r * b + low) as -> by (apply join_halves; exact Hlow).
  assert (n * b + low = q * d + (r * b + low - q * d0)) as E by nia. set (R := r * b + low) in *. set (m := q * d0) in *. clearbody R m.
  assert (forall q' r', 0 <= r' < d -> n * b + low = q' * d + r' -> 0 <= q' < b) as Hfin by (intros q' r' Hr' E'; exact (quot_range n b low d q' r' Hnd Hlow Hr' E')).
  destruct (Z.ltb_spec R m) as [L1|L1]; [|cbv beta iota; rewrite (lw_small A (R - m)) by (unfold limb; lia); exists q, (R - m); split; [reflexivity|]; split; [apply (Hfin q (R - m)); lia|lia]].
  assert (0 < q) as Hq1 by nia. cbv zeta. rewrite (lw_small A (q - 1)) by (unfold limb; lia).
  destruct (lw_cases A (R + d) ltac:(lia)) as [[-> ?]|[[-> ?]|[-> ?]]]; [| |lia].
  - rewrite (proj2 (Z.leb_le d (R + d))) by lia. destruct (Z.ltb_spec (R + d) m) as [L2|L2]; cbv beta iota.
    + assert (0 <= q - 2 < b) as Hq2 by (apply (Hfin (q - 2) (R + d + d - m)); lia).
      rewrite (lw_small A (q - 1 - 1)) by (unfold limb; lia). exists (q - 1 - 1), (R + d + d - m). split; [|split; [lia|split; [lia|nia]]].
      f_equal. apply lw_eq with (if R + d + d <? B then 0 else -1); [unfold limb; lia|].
      destruct (Z.ltb_spec (R + d + d) B); [rewrite (lw_small A (R + d + d)) by (unfold limb; lia); lia|destruct (lw_cases A (R + d + d) ltac:(lia)) as [[_ ?]|[[-> _]|[_ ?]]]; lia].
    + rewrite (lw_small A (R + d - m)) by (unfold limb; lia). exists (q - 1), (R + d - m). split; [reflexivity|]. split; [apply (Hfin (q - 1) (R + d - m)); [lia|nia]|split; [lia|nia]].
  - rewrite (proj2 (Z.leb_gt d _)) by lia. cbv beta iota. exists (q - 1), (R + d - m). split; [f_equal; apply lw_eq with (-1); [unfold limb; lia|lia]|].
    split; [apply (Hfin (q - 1) (R + d - m)); [lia|nia]|split; [lia|nia]].
Qed.

Lemma udiv_qrnnd_spec {R} n1 n0 d : normalized d -> 0 <= n1 < d -> limb A n0 ->
  exists q r, @udiv_qrnnd R n1 n0 d = Next (q, r) /\ limb A q /\ 0 <= r < d /\ n1 * B + n0 = q * d + r.
Proof.
  intros Hn H1 H0. pose proof Hn as [Hd Hnd]. destruct (ll_B_sq A) as [Hsq HB]. destruct (ll_parts A d Hd) as (_ & _ & Ed & Hl & Hh). destruct (ll_parts A n0 H0) as (_ & _ & E0 & Hl0 & Hh0).
  unfold udiv_qrnnd. set (d1 := ll_highpart A d) in *. set (d0 := ll_lowpart A d) in *. assert (0 < d1) as Hd1 by nia. rewrite (proj2 (Z.eqb_neq d1 0)) by lia.
  destruct (qrnnd_half_spec d d1 d0 n1 (ll_highpart A n0) Hn ltac:(lia) ltac:(lia) Hl H1 Hh0) as (q1 & r1 & -> & Hq1 & Hr1 & E1).
  destruct (qrnnd_half_spec d d1 d0 r1 (ll_lowpart A n0) Hn ltac:(lia) ltac:(lia) Hl Hr1 Hl0) as (q0 & r0 & -> & Hq0 & Hr0 & E2).
  rewrite (lw_small A (q1 * ll_B A)) by (unfold limb; nia).
  rewrite join_halves by exact Hq0.
  exists (q1 * ll_B A + q0), r0. split; [reflexivity|]. split; [unfold limb; rewrite <- Hsq; exact (two_digits _ _ _ Hq1 Hq0)|]. split; [exact Hr0|].
  rewrite E0, <- Hsq. transitivity ((n1 * ll_B A + ll_highpart A n0) * ll_B A + ll_lowpart A n0); [ring|]. rewrite E1. transitivity (q1 * ll_B A * d + (r1 * ll_B A + ll_lowpart A n0)); [ring|]. rewrite E2. ring.
Qed.

(** ** Division by the inverse *)

(** The quotient that the inverse [b + di] of [d] gives is not too large, and misses less than three and a half. *)
Lemma preinv_bounds b d di nh nl q l : 0 < b -> b <= 2 * d -> d < b -> 0 <= nh < d -> 0 <= nl < b -> (b + di) * d <= b * b <= (b + di + 1) * d ->
  0 <= l < b -> q * b + l = nh * di -> 0 <= nh * b + nl - (q + nh) * d < 2 * d + nl.
Proof.
  intros Hb Hn Hd Hnh Hnl [Hv1 Hv2] Hl Eq. assert ((q + nh) * b = nh * (b + di) - l) as E by lia. split.
  - assert ((q + nh) * b * d <= nh * b * b) by (rewrite E; nia). assert ((q + nh) * d <= nh * b) by nia. lia.
  - assert (b * (nh * b - (q + nh) * d) = nh * (b * b - (b + di) * d) + l * d) as E2 by (transitivity (nh * b * b - (q + nh) * b * d); [ring|rewrite E; ring]).
    assert (nh * (b * b - (b + di) * d) <= nh * d) by nia. assert (nh * d < b * d) by nia. assert (l * d < b * d) by nia. nia.
Qed.

Lemma preinv_spec {R} d di nh nl : normalized d -> limb A di -> (B + di) * d <= B * B <= (B + di + 1) * d -> 0 <= nh < d -> limb A nl ->
  exists q r, @udiv_qrnnd_preinv R d di nh nl = Next (q, r) /\ limb A q /\ 0 <= r < d /\ nh * B + nl = q * d + r.
Proof.
  intros [Hd Hn] Hdi Hinv Hnh Hnl. unfold limb in Hd. pose proof (limb_base_gt A) as HB. unfold udiv_qrnnd_preinv.
  pose proof (umul_ppmm_spec A nh di ltac:(unfold limb; lia) Hdi) as Hm. destruct (umul_ppmm A nh di) as [qh ql]. destruct Hm as (Lqh & Lql & Em).
  pose proof (preinv_bounds B d di nh nl qh ql ltac:(lia) Hn ltac:(lia) Hnh Hnl Hinv Lql Em) as Hrem. remember (nh * B + nl - (qh + nh) * d) as rem eqn:Erem.
  assert (0 <= qh + nh < B) as Hq. { unfold limb in *. split; [lia|]. destruct (Z.lt_ge_cases (qh + nh) B) as [|Hge]; [assumption|]. assert (nh * B + nl < B * d) by (clear -Hnh Hnl; nia). assert (B * d <= (qh + nh) * d) by (clear -Hge Hd; nia). lia. }
  rewrite (lw_small A (qh + nh)) by exact Hq. pose proof (umul_ppmm_spec A (qh + nh) d Hq ltac:(unfold limb; lia)) as Hx. destruct (umul_ppmm A (qh + nh) d) as [xh xl]. destruct Hx as (Lxh & Lxl & Ex).
  assert (forall q r, 0 <= r -> 0 <= q -> nh * B + nl = q * d + r -> lw q = q) as Hlw. { intros q r Hr Hq' E. apply lw_small. split; [exact Hq'|]. unfold limb in *. destruct (Z.lt_ge_cases q B) as [|Hge]; [assumption|]. clear -Hge E Hr Hnh Hnl Hd. nia. }
  assert (3 * B < B * B) as HBB by (clear -HB; nia). unfold limb in Hnl.
  assert (forall ah al x, ah * B + al = x -> limb A al -> d <= x < 3 * B -> sub_ddmmss ah al 0 d = ((x - d) / B, (x - d) mod B)) as Hsub. { intros ah al x E Hal Hx. apply (sub_ddmmss_spec ah al 0 d (x - d) 0); [exact Hal|unfold limb; lia|lia|lia]. }
  assert (forall q r, 0 <= q -> 0 <= r < B -> nh * B + nl = q * d + r ->
    exists q' r', (if d <=? r then @Next R _ (lw (q + 1), lw (r - d)) else Next (q, r)) = Next (q', r') /\ limb A q' /\ 0 <= r' < d /\ nh * B + nl = q' * d + r') as Hlast.
  { intros q r Hq' Hr E. destruct (Z.leb_spec d r).
    - rewrite (Hlw (q + 1) (r - d)), (lw_small A (r - d)) by (unfold limb; lia). exists (q + 1), (r - d). split; [reflexivity|]. split; [rewrite <- (Hlw (q + 1) (r - d)); [apply lw_limb|unfold limb; lia|lia|lia]|]. lia.
    - exists q, r. split; [reflexivity|]. split; [rewrite <- (Hlw q r); [apply lw_limb|unfold limb; lia|lia|lia]|]. lia. }
  rewrite (sub_ddmmss_spec nh nl xh xl rem 0) by (assumption || lia). destruct (limbs_of rem ltac:(lia)) as (L1 & L2 & E1).
  destruct (Z.eqb_spec (rem / B) 0) as [Z1|Z1]; cbn [negb]; [apply Hlast; [lia|unfold limb in L2; lia|lia]|]. assert (B <= rem) as G1 by (apply high_limb; lia).
  rewrite (Hsub _ _ rem E1 L2 ltac:(lia)). destruct (limbs_of (rem - d) ltac:(lia)) as (L3 & L4 & E2).
  destruct (Z.eqb_spec ((rem - d) / B) 0) as [Z2|Z2]; cbn [negb].
  { unfold limb in L4. rewrite (Hlw (qh + nh + 1) ((rem - d) mod B)) by lia. apply Hlast; lia. }
  assert (B <= rem - d) as G2 by (apply high_limb; lia). rewrite (Hsub _ _ (rem - d) E2 L4 ltac:(lia)). destruct (limbs_of (rem - d - d) ltac:(lia)) as (L5 & L6 & E3).
  assert ((rem - d - d) / B = 0) as Z3 by (apply Z.div_small; lia). rewrite Z3 in E3. rewrite (Hlw (qh + nh + 1) (rem - d)) by lia.
  unfold limb in L6. rewrite (Hlw (qh + nh + 1 + 1) ((rem - d - d) mod B)) by lia. apply Hlast; lia.
Qed.

Lemma inverted_spec {R} d : normalized d ->
  exists di, @divisor_limb_inverted R d = Next di /\ limb A di /\ (B + di) * d <= B * B <= (B + di + 1) * d.
Proof.
  intros [Hd Hn]. unfold limb in Hd. pose proof (limb_base_gt A). unfold divisor_limb_inverted. rewrite Z.shiftl_mul_pow2 by lia. change (2 ^ 1) with 2.
  rewrite (lw_eq (d * 2) (d * 2 - B) 1) by (unfold limb; lia). destruct (Z.eqb_spec (d * 2 - B) 0) as [E|E].
  - exists (B - 1). rewrite (lw_eq (-1) (B - 1) (-1)) by (unfold limb; lia). split; [reflexivity|]. split; [unfold limb; lia|]. replace B with (d * 2) by lia. split; nia.
  - rewrite (lw_eq (- d) (B - d) (-1)) by (unfold limb; lia). destruct (@udiv_qrnnd_spec R (B - d) 0 d (conj Hd Hn) ltac:(lia) (limb_0 A)) as (q & r & -> & Hq & Hr & Eq).
    exists q. split; [reflexivity|]. split; [exact Hq|]. lia.
Qed.

(** ** Leading zeros *)

Lemma clz_tab_spec i : 1 <= i < 256 -> exists t, clz_tab !! Z.to_nat i = Some t /\ 1 <= t /\ 2 ^ (t - 1) <= i < 2 ^ t.
Proof.
  intros Hi. assert (forallb (fun n => match clz_tab !! n with Some t => (1 <=? t) && (2 ^ (t - 1) <=? Z.of_nat n) && (Z.of_nat n <? 2 ^ t) | None => false end) (seq 1 255) = true) as H by (vm_compute; reflexivity).
  rewrite forallb_forall in H. specialize (H (Z.to_nat i) ltac:(apply in_seq; lia)). destruct (clz_tab !! Z.to_nat i) as [t|]; [|discriminate].
  apply andb_true_iff in H as [H H3]. apply andb_true_iff in H as [H1 H2]. exists t. rewrite Z2Nat.id in * by lia. split; [reflexivity|]. lia.
Qed.

(** The byte that is looked up is the one of the most significant bit. *)
Definition top_byte (x a : Z) : Prop := 0 <= a /\ 2 ^ a <= x < 2 ^ (a + 8).

Lemma clz_scan_spec n x : 0 < x < 2 ^ (8 * Z.of_nat n + 8) -> top_byte x (clz_scan n x).
Proof.
  induction n as [|n IH]; intros Hx; cbn [clz_scan]; [split; [lia|]; change (2 ^ 0) with 1; change (2 ^ (0 + 8)) with (2 ^ (8 * Z.of_nat 0 + 8)); lia|].
  set (a := 8 * Z.of_nat (S n)) in *. assert (0 < 2 ^ a) as Ha by (apply Z.pow_pos_nonneg; lia). rewrite Z.pow_add_r in Hx by lia. change (2 ^ 8) with 256 in Hx.
  rewrite Z.shiftr_div_pow2 by lia. change 255 with (Z.ones 8). rewrite Z.land_ones by lia. change (2 ^ 8) with 256.
  assert (0 <= x / 2 ^ a < 256) as Hb by (split; [apply Z.div_pos; lia|apply Z.div_lt_upper_bound; lia]). rewrite Z.mod_small by exact Hb.
  pose proof (Z.div_mod x (2 ^ a) ltac:(lia)). pose proof (Z.mod_pos_bound x (2 ^ a) ltac:(lia)).
  destruct (Z.eqb_spec (x / 2 ^ a) 0) as [E|E]; cbn [negb].
  - apply IH. rewrite E in *. split; [lia|]. replace (8 * Z.of_nat n + 8) with a by lia. lia.
  - split; [lia|]. rewrite Z.pow_add_r by lia. change (2 ^ 8) with 256. nia.
Qed.

(** The number of leading zeros normalizes a limb. *)
Lemma count_leading_zeros_spec {R} x : 0 < x < B -> exists c, @count_leading_zeros R x = Next c /\ 0 <= c < bits /\ normalized (x * 2 ^ c).
Proof.
  intros Hx. unfold count_leading_zeros. set (a := if bits <=? 32 then _ else _). assert (top_byte x a /\ a + 8 <= bits) as [[Ha Ht] Hle].
  { subst a. unfold limb_base in Hx. destruct (limb_bits_cases A) as [E|E]; rewrite E in *; cbn [Z.leb Z.compare Pos.compare Pos.compare_cont].
    - change (32 / 4) with 8. rewrite !Z.shiftl_1_l. change (2 * 8) with 16. change (3 * 8) with 24. unfold top_byte. destruct (Z.ltb_spec x (2 ^ 16)); [destruct (Z.ltb_spec x (2 ^ 8))|destruct (Z.ltb_spec x (2 ^ 24))];
        cbn [Z.add Pos.add Pos.succ]; lia.
    - change (Z.to_nat ((64 - 8) / 8)) with 7%nat. split; [apply clz_scan_spec; change (8 * Z.of_nat 7 + 8) with 64; lia|].
      destruct (clz_scan_spec 7 x) as [Ha Ht]; [change (8 * Z.of_nat 7 + 8) with 64; lia|]. destruct (Z.le_gt_cases (clz_scan 7 x + 8) 64) as [|Hg]; [assumption|].
      assert (exists k, clz_scan 7 x = 8 * k) as [k Hk]. { clear. generalize 7%nat. induction n as [|n [k IH]]; cbn [clz_scan]; [exists 0; reflexivity|]. destruct (negb _); [eexists; reflexivity|eauto]. }
      assert (2 ^ 64 <= 2 ^ clz_scan 7 x) by (apply Z.pow_le_mono_r; lia). lia. }
  clearbody a. assert (0 < 2 ^ a) as Hp by (apply Z.pow_pos_nonneg; lia). rewrite Z.pow_add_r in Ht by lia. change (2 ^ 8) with 256 in Ht.
  rewrite Z.shiftr_div_pow2 by lia. pose proof (Z.div_mod x (2 ^ a) ltac:(lia)) as Ex. pose proof (Z.mod_pos_bound x (2 ^ a) ltac:(lia)) as Hm.
  assert (1 <= x / 2 ^ a < 256) as Hi by (split; [apply Z.div_le_lower_bound; lia|apply Z.div_lt_upper_bound; lia]).
  destruct (clz_tab_spec _ Hi) as (t & -> & Ht1 & Ht2). assert (t <= 8) as Ht8. { destruct (Z.le_gt_cases t 8) as [|Hg]; [assumption|]. assert (2 ^ 8 <= 2 ^ (t - 1)) by (apply Z.pow_le_mono_r; lia). lia. }
  exists (bits - (t + a)). split; [reflexivity|]. split; [lia|].
  assert (2 ^ (t - 1) * 2 ^ a <= x < 2 ^ t * 2 ^ a) as Hx2 by nia. rewrite <- !Z.pow_add_r in Hx2 by lia.
  assert (B = 2 ^ (t + a) * 2 ^ (bits - (t + a))) as EB by (unfold limb_base; rewrite <- Z.pow_add_r by lia; f_equal; lia).
  assert (2 ^ (t + a) = 2 * 2 ^ (t - 1 + a)) as E2 by (rewrite <- Z.pow_succ_r by lia; f_equal; lia). assert (0 < 2 ^ (bits - (t + a))) as Hc by (apply Z.pow_pos_nonneg; lia).
  unfold normalized, limb. set (P := 2 ^ (bits - (t + a))) in *. set (Q := 2 ^ (t - 1 + a)) in *. rewrite EB, E2 in *. nia.
Qed.

(** ** The loops *)

(** Where the quotient goes: [Some p] is the area at [p]. *)
Definition dest_put {R} (dst : option Z) : mem -> Z -> Z -> flow R mem := match dst with Some p => put_quot p | None => put_dummy end.
Definition dest_wr (dst : option Z) (m : mem) (l : list Z) : mem := match dst with Some p => wr m p l | None => m end.

(** The area has [n] limbs, and lies on the dividend or above it, or apart. *)
Definition dest_ok (dst : option Z) (m : mem) (dividend_ptr n : Z) : Prop :=
  match dst with Some p => mapped m p (p + n) /\ (dividend_ptr <= p \/ p + n <= dividend_ptr) | None => True end.

Lemma dest_put_spec {R} dst m p n l i x : dest_ok dst m p n -> i = Z.of_nat (length l) -> i < n -> bytes_at m p l ->
  exists m', @dest_put R dst m i x = Next m' /\ bytes_at m' p l /\ dest_ok dst m' p i /\ forall l', length l' = length l -> dest_wr dst m' l' = dest_wr dst m (l' ++ [x]).
Proof.
  intros Hok -> Hi Hb. destruct dst as [qp|]; [|exists m; auto]. destruct Hok as [Hm Ha]. exists (<[qp + Z.of_nat (length l) := x]> m).
  split; [apply lstore_at, Hm; lia|]. split; [apply insert_other; [exact Hb|lia]|]. split; [split; [apply mapped_insert; intros a Hr; apply Hm; lia|lia]|].
  intros l' El. cbn [dest_wr]. rewrite wr_app, wr_insert, El by lia. reflexivity.
Qed.

Section LoopSpecs.
Context {R : Type} (dst : option Z) (div : Z -> Z -> flow R (Z * Z)) (d : Z).
Hypothesis div_ok : forall nh nl, 0 <= nh < d -> limb A nl -> exists q r, div nh nl = Next (q, r) /\ limb A q /\ 0 <= r < d /\ nh * B + nl = q * d + r.

Lemma plain_loop_spec l : forall m p r, Forall (limb A) l -> bytes_at m p l -> 0 <= r < d -> dest_ok dst m p (Z.of_nat (length l)) ->
  exists q r', plain_loop (dest_put dst) div (length l) m p r = Next (dest_wr dst m q, r') /\ length q = length l /\ Forall (limb A) q /\ 0 <= r' < d /\
    r * B ^ Z.of_nat (length l) + lval A l = lval A q * d + r'.
Proof.
  induction l as [|x l IH] using rev_ind; intros m p r Hl Hb Hr Hok.
  - exists [], r. split; [destruct dst; reflexivity|]. split; [reflexivity|]. split; [constructor|]. cbn [length lval]. change (Z.of_nat 0) with 0. rewrite Z.pow_0_r. lia.
  - rewrite length_app in *. cbn [length] in *. rewrite Nat.add_1_r in *. cbn [plain_loop]. apply Forall_app in Hl as [Hl Hx]. inversion_clear Hx as [|? ? Lx _].
    apply bytes_at_app in Hb as [Hb Hx]. apply bytes_at_cons in Hx as [Hx _]. rewrite (lload_at _ _ _ Hx). cbn [flow_bind].
    destruct (div_ok r x Hr Lx) as (q0 & r0 & -> & Lq & Hr0 & E0). cbn [flow_bind].
    destruct (@dest_put_spec R dst m p _ l (Z.of_nat (length l)) q0 Hok eq_refl ltac:(lia) Hb) as (m' & -> & Hb' & Hok' & Hw). cbn [flow_bind].
    destruct (IH m' p r0 Hl Hb' Hr0 Hok') as (q & r' & -> & El & Lq' & Hr' & E'). exists (q ++ [q0]), r'. rewrite (Hw q El). split; [reflexivity|].
    rewrite length_app, El. split; [cbn [length]; lia|]. split; [apply Forall_app; auto|]. split; [exact Hr'|]. rewrite !lval_app, El. cbn [lval]. rewrite Nat2Z.inj_succ, Z.pow_succ_r by lia.
    set (P := B ^ Z.of_nat (length l)) in *. transitivity (P * (r * B + x) + lval A l); [ring|]. rewrite E0. transitivity (P * q0 * d + (r0 * P + lval A l)); [ring|]. rewrite E'. ring.
Qed.

Lemma norm_loop_spec s l : 0 < s < bits -> forall m p n1 r, Forall (limb A) l -> limb A n1 -> bytes_at m p l -> 0 <= r < d -> dest_ok dst m p (Z.of_nat (length l) + 1) ->
  exists q r', norm_loop (dest_put dst) div (length l) m p s n1 r = Next (dest_wr dst m q, Z.shiftr r' s) /\ length q = S (length l) /\ Forall (limb A) q /\ 0 <= r' < d /\
    r * (B * B ^ Z.of_nat (length l)) + (2 ^ s * (lval A l + B ^ Z.of_nat (length l) * n1) - B * B ^ Z.of_nat (length l) * Z.shiftr n1 (bits - s)) = lval A q * d + r'.
Proof.
  intros Hs. induction l as [|n0 l IH] using rev_ind; intros m p n1 r Hl Hn1 Hb Hr Hok.
  - cbn [length norm_loop] in *. destruct (lshift_limb A s Hs n1 0 Hn1 (limb_0 A)) as [Lx Ex]. rewrite Z.shiftr_0_l, Z.lor_0_r in *. destruct (div_ok r _ Hr Lx) as (q0 & r0 & -> & Lq & Hr0 & E0). cbn [flow_bind].
    destruct (@dest_put_spec R dst m p _ [] 0 q0 Hok eq_refl ltac:(lia) Hb) as (m' & -> & _ & _ & Hw). cbn [flow_bind]. exists [q0], r0.
    rewrite <- (app_nil_l [q0]), <- (Hw [] eq_refl). split; [destruct dst; reflexivity|]. split; [reflexivity|]. split; [forall_list|]. split; [exact Hr0|].
    cbn [app lval]. change (Z.of_nat 0) with 0. rewrite Z.pow_0_r, !Z.mul_1_r. lia.
  - rewrite length_app in *. cbn [length] in *. rewrite Nat.add_1_r in *. cbn [norm_loop]. apply Forall_app in Hl as [Hl Hx]. inversion_clear Hx as [|? ? Lx _].
    apply bytes_at_app in Hb as [Hb Hx]. apply bytes_at_cons in Hx as [Hx Hnil]. rewrite (lload_at _ _ _ Hx). cbn [flow_bind].
    destruct (lshift_limb A s Hs n1 n0 Hn1 Lx) as [Ly Ey]. set (y := Z.lor _ _) in *. destruct (div_ok r y Hr Ly) as (q0 & r0 & -> & Lq & Hr0 & E0). cbn [flow_bind].
    destruct (@dest_put_spec R dst m p _ (l ++ [n0]) (Z.of_nat (length l) + 1) q0 Hok) as (m' & -> & Hb' & Hok' & Hw); [rewrite length_app; cbn [length]; lia|lia|apply bytes_at_app; split; [exact Hb|apply bytes_at_cons; auto]|].
    cbn [flow_bind]. apply bytes_at_app in Hb' as [Hb' _]. destruct (IH m' p n0 r0 Hl Lx Hb' Hr0 Hok') as (q & r' & -> & El & Lq' & Hr' & E').
    exists (q ++ [q0]), r'. rewrite (Hw q) by (rewrite El, length_app; cbn [length]; lia). split; [reflexivity|]. rewrite length_app, El. split; [cbn [length]; lia|]. split; [apply Forall_app; auto|]. split; [exact Hr'|].
    rewrite !lval_app, El. cbn [lval]. rewrite !Nat2Z.inj_succ, !Z.pow_succ_r by lia. set (P := B ^ Z.of_nat (length l)) in *.
    transitivity (B * P * (r * B + (2 ^ s * n1 - B * Z.shiftr n1 (bits - s))) + 2 ^ s * (lval A l + P * n0)); [ring|].
    replace (2 ^ s * n1 - B * Z.shiftr n1 (bits - s)) with (y - Z.shiftr n0 (bits - s)) by lia.
    transitivity (B * P * (r * B + y) + (2 ^ s * (lval A l + P * n0) - B * P * Z.shiftr n0 (bits - s))); [ring|]. rewrite E0.
    transitivity (B * P * q0 * d + (r0 * (B * P) + (2 ^ s * (lval A l + P * n0) - B * P * Z.shiftr n0 (bits - s)))); [ring|]. rewrite E'. ring.
Qed.

Lemma plain_division_spec u m p size : Z.of_nat (length u) = size -> 0 < size -> Forall (limb A) u -> bytes_at m p u -> normalized d -> dest_ok dst m p size ->
  exists q r', plain_division (dest_put dst) div m p size d = Next (dest_wr dst m q, r') /\ length q = length u /\ Forall (limb A) q /\ 0 <= r' < d /\ lval A u = lval A q * d + r'.
Proof.
  intros Hlen Hpos Hu Hb [Hd Hn] Hok. pose proof (limb_base_gt A). destruct u as [|x l _] using rev_ind; [cbn [length] in Hlen; lia|]. unfold plain_division.
  pose proof Hb as Hb'. pose proof Hu as Hu'. apply bytes_at_app in Hb' as [Hb' Hx]. apply bytes_at_cons in Hx as [Hx _]. apply Forall_app in Hu' as [Hl Hx']. inversion_clear Hx' as [|? ? Lx _]. rewrite length_app in Hlen. cbn [length] in Hlen.
  replace (p + (size - 1)) with (p + Z.of_nat (length l)) by lia. rewrite (lload_at _ _ _ Hx). cbn [flow_bind]. destruct (Z.leb_spec d x).
  - replace (Z.to_nat size) with (length (l ++ [x])) by (rewrite length_app; cbn [length]; lia).
    destruct (plain_loop_spec (l ++ [x]) m p 0 Hu Hb ltac:(lia)) as (q & r' & -> & El & Lq & Hr' & E); [rewrite length_app; cbn [length]; replace (Z.of_nat (length l + 1)) with size by lia; exact Hok|].
    exists q, r'. split; [reflexivity|]. split; [exact El|]. split; [exact Lq|]. split; [exact Hr'|]. lia.
  - destruct (@dest_put_spec R dst m p size l (size - 1) 0 Hok ltac:(lia) ltac:(lia) Hb') as (m' & -> & Hb2 & Hok' & Hw). cbn [flow_bind]. replace (Z.to_nat (size - 1)) with (length l) by lia.
    replace (size - 1) with (Z.of_nat (length l)) in Hok' by lia. destruct (plain_loop_spec l m' p x Hl Hb2 ltac:(unfold limb in Lx; lia) Hok') as (q & r' & -> & El & Lq & Hr' & E).
    exists (q ++ [0]), r'. rewrite (Hw q El). split; [reflexivity|]. rewrite !length_app, El. split; [reflexivity|]. split; [apply Forall_app; split; [exact Lq|forall_list; apply limb_0]|]. split; [exact Hr'|].
    rewrite !lval_app, El. cbn [lval]. lia.
Qed.
End LoopSpecs.

(** Either way of dividing two limbs is exact. *)
Lemma choose_div_spec {R} (preinv : bool) d : normalized d ->
  exists div, (if preinv then let! di := @divisor_limb_inverted R d in Next (udiv_qrnnd_preinv d di) else Next (fun nh nl => udiv_qrnnd nh nl d)) = Next div /\
    forall nh nl, 0 <= nh < d -> limb A nl -> exists q r, div nh nl = @Next R _ (q, r) /\ limb A q /\ 0 <= r < d /\ nh * B + nl = q * d + r.
Proof.
  intros Hn. destruct preinv; [|eexists; split; [reflexivity|]; intros; apply udiv_qrnnd_spec; assumption].
  destruct (@inverted_spec R d Hn) as (di & -> & Hdi & Hinv). eexists. split; [reflexivity|]. intros. apply preinv_spec; assumption.
Qed.

Lemma div_mod_eq a b q r : 0 <= r < b -> a = q * b + r -> q = a / b /\ r = a mod b.
Proof. intros Hr E. split; [apply (Z.div_unique_pos a b q r)|apply (Z.mod_unique_pos a b q r)]; lia. Qed.

Lemma division_1_spec {R} dst u m p size d : Z.of_nat (length u) = size -> Forall (limb A) u -> bytes_at m p u -> 0 < d < B -> dest_ok dst m p size ->
  exists q, @division_1 R (dest_put dst) m p size d = Next (dest_wr dst m q, lval A u mod d) /\ length q = length u /\ Forall (limb A) q /\ lval A q = lval A u / d.
Proof.
  intros Hlen Hu Hb Hd Hok. unfold division_1. destruct (Z.eqb_spec size 0) as [E|E].
  { destruct u; [|cbn [length] in Hlen; lia]. exists []. cbn [lval]. rewrite Z.mod_0_l, Z.div_0_l by lia. split; [destruct dst; reflexivity|auto]. }
  destruct (@count_leading_zeros_spec R d Hd) as (c & -> & Hc & Hn). cbn [flow_bind]. set (preinv := _ && _). destruct (Z.eqb_spec c 0) as [-> |Hc0]; cbn [negb].
  - rewrite Z.pow_0_r, Z.mul_1_r in Hn. destruct (@choose_div_spec R preinv d Hn) as (div & -> & Hdiv). cbn [flow_bind].
    destruct (plain_division_spec dst div d Hdiv u m p size Hlen ltac:(lia) Hu Hb Hn Hok) as (q & r & -> & El & Lq & Hr & Ev). exists q.
    destruct (div_mod_eq (lval A u) d (lval A q) r) as [-> ->]; auto; lia.
  - destruct Hn as [Hn1 Hn2]. assert (lw (Z.shiftl d c) = d * 2 ^ c) as -> by (rewrite Z.shiftl_mul_pow2 by lia; apply lw_small; exact Hn1).
    destruct (@choose_div_spec R preinv (d * 2 ^ c) (conj Hn1 Hn2)) as (div & -> & Hdiv). cbn [flow_bind]. destruct u as [|x l _] using rev_ind; [cbn [length] in Hlen; lia|].
    pose proof Hb as Hb'. apply bytes_at_app in Hb' as [Hb' Hx]. apply bytes_at_cons in Hx as [Hx _]. apply Forall_app in Hu as [Hl Hx']. inversion_clear Hx' as [|? ? Lx _]. rewrite length_app in *. cbn [length] in *.
    replace (p + (size - 1)) with (p + Z.of_nat (length l)) by lia. rewrite (lload_at _ _ _ Hx). cbn [flow_bind]. replace (Z.to_nat (size - 1)) with (length l) by lia.
    destruct (lw_shiftl A x c Lx ltac:(lia)) as (_ & _ & Hhi). assert (0 < 2 ^ c) as Hp by (apply Z.pow_pos_nonneg; lia).
    destruct (norm_loop_spec dst div (d * 2 ^ c) Hdiv c l ltac:(lia) m p x (Z.shiftr x (bits - c)) Hl Lx Hb') as (q & r & -> & El & Lq & Hr & Ev); [nia|replace (Z.of_nat (length l) + 1) with size by lia; exact Hok|].
    exists q. assert (2 ^ c * lval A (l ++ [x]) = lval A q * (d * 2 ^ c) + r) as E2 by (rewrite lval_app; cbn [lval]; lia). rewrite Z.shiftr_div_pow2 by lia.
    assert (r = 2 ^ c * (lval A (l ++ [x]) - lval A q * d)) as Er by lia. assert (r / 2 ^ c = lval A (l ++ [x]) - lval A q * d) as E3 by (rewrite Er, Z.mul_comm, Z.div_mul by lia; reflexivity).
    destruct (div_mod_eq (lval A (l ++ [x])) d (lval A q) (lval A (l ++ [x]) - lval A q * d)) as [E4 E5]; [nia|lia|]. rewrite E3, E5. split; [reflexivity|]. rewrite El. split; [lia|auto].
Qed.

End Division.

(** * Properties *)

(** C39: dividing a number of any size by one limb other than 0, whether with the machine's
    division or with the inverse, stores the quotient and returns the remainder; the quotient
    may be put on the dividend or above it, or anywhere apart.  mpn_mod_1 returns the same remainder. *)
Theorem mpn_divmod_1_correct A UMUL_TIME UDIV_TIME (R : Type) u m quot_ptr dividend_ptr size d :
  Z.of_nat (length u) = size -> Forall (limb A) u -> bytes_at m dividend_ptr u -> 0 < d < limb_base A ->
  mapped m quot_ptr (quot_ptr + size) -> dividend_ptr <= quot_ptr \/ quot_ptr + size <= dividend_ptr ->
  (exists q, @mpn_divmod_1 A UMUL_TIME UDIV_TIME R m quot_ptr dividend_ptr size d = Next (wr m quot_ptr q, lval A u mod d) /\
    Z.of_nat (length q) = size /\ Forall (limb A) q /\ lval A q = lval A u / d) /\
  @mpn_mod_1 A UMUL_TIME UDIV_TIME R m dividend_ptr size d = Next (lval A u mod d).
Proof.
  intros Hlen Hu Hb Hd Hm Ha. split.
  - destruct (@division_1_spec A UMUL_TIME UDIV_TIME R (Some quot_ptr) u m dividend_ptr size d Hlen Hu Hb Hd (conj Hm Ha)) as (q & E & El & Lq & Ev).
    exists q. split; [exact E|]. split; [lia|auto].
  - destruct (@division_1_spec A UMUL_TIME UDIV_TIME R None u m dividend_ptr size d Hlen Hu Hb Hd I) as (q & E & _).
    unfold mpn_mod_1. change put_dummy with (@dest_put R None). rewrite E. reflexivity.
Qed.

Lemma mpn_divmod_1_witness :
  (exists q, @mpn_divmod_1 (Arch true false) 1 100 unit (mem_of 10 [5; 2 ^ 63; 7]) 10 10 3 1000 = Next (wr (mem_of 10 [5; 2 ^ 63; 7]) 10 q, lval (Arch true false) [5; 2 ^ 63; 7] mod 1000) /\
    Z.of_nat (length q) = 3 /\ Forall (limb (Arch true false)) q /\ lval (Arch true false) q = lval (Arch true false) [5; 2 ^ 63; 7] / 1000) /\
  @mpn_mod_1 (Arch true false) 1 100 unit (mem_of 10 [5; 2 ^ 63; 7]) 10 3 1000 = Next (lval (Arch true false) [5; 2 ^ 63; 7] mod 1000).
Proof.
  apply (mpn_divmod_1_correct (Arch true false) 1 100 unit [5; 2 ^ 63; 7] (mem_of 10 [5; 2 ^ 63; 7]) 10 10 3 1000); try lia.
  - reflexivity.
  - forall_list; split; reflexivity || (vm_compute; discriminate).
  - apply mem_of_at; [lia|reflexivity].
  - split; [lia|reflexivity].
  - apply mem_of_mapped; simpl; lia.
Defined.
