(* ===== verification/MpnDivrem.v ===== *)
(** Division of multiple-precision naturals, stdlib/divrem.c: the quotient and the remainder of numbers of any
    sizes, with fraction limbs after the quotient if these are asked for.

    As in the source there are three cases: a divisor of one limb, of two limbs, which are kept in
    variables, and of more, where the quotient limbs are estimated from the first limbs. *)
From S2P Require Import Prelude CMem MemWrite Mpn MpnDiv.

Section Divrem.
Context (A : arch).

#[local] Abbreviation lw := (lw A).
#[local] Abbreviation B := (limb_base A).

Fixpoint MPN_COPY_DECR {R} (n : nat) (m : mem) (dst src : Z) : flow R mem :=
  match n with
  | O => Next m
  | S i =>
      let! x := lload m (src + Z.of_nat i) in
      let! m := lstore m (dst + Z.of_nat i) x in
      MPN_COPY_DECR i m dst src
  end.

(** ** case 1 *)

(** [for (i = qextra_limbs - 1; i >= 0; i--)] *)
Fixpoint frac_1 {R} (n : nat) (m : mem) (qp n1 d : Z) : flow R (mem * Z) :=
  match n with
  | O => Next (m, n1)
  | S i =>
      let! '(q, n1) := udiv_qrnnd A n1 0 d in
      let! m := lstore m (qp + Z.of_nat i) q in
      frac_1 i m qp n1 d
  end.

Definition divrem_1 {R} (m : mem) (qp qextra_limbs np nsize dp : Z) : flow R (mem * Z) :=
  let! d := lload m dp in
  let! n1 := lload m (np + (nsize - 1)) in
  let '(n1, high) := if d <=? n1 then (lw (n1 - d), 1) else (n1, 0) in
  let! '(m, n1) := plain_loop (put_quot (qp + qextra_limbs)) (fun nh nl => udiv_qrnnd A nh nl d) (Z.to_nat (nsize - 1)) m np n1 in
  let! '(m, n1) := frac_1 (Z.to_nat qextra_limbs) m qp n1 d in
  let! m := lstore m np n1 in
  Next (m, high).

(** ** case 2 *)

(** The label [q_test]; the fuel bounds how often the quotient is taken back. *)
Fixpoint q_test {R} (fuel : nat) (d1 d0 n2 q r n1 n0 : Z) : flow R (Z * Z * Z * Z) :=
  if (r <? n1) || ((n1 =? r) && (n2 <? n0)) then
    match fuel with
    | O => NoFuel
    | S fuel =>
        let q := lw (q - 1) in
        let '(n1, n0) := sub_ddmmss A n1 n0 0 d0 in
        let r := lw (r + d1) in
        if d1 <=? r then q_test fuel d1 d0 n2 q r n1 n0 else Next (q, r, n1, n0)
    end
  else Next (q, r, n1, n0).

Definition finish_2 {R} (m : mem) (qp i np d1 d0 q r n1 n0 : Z) : flow R (mem * Z * Z) :=
  let! n2 := lload m np in
  let! '(q, r, n1, n0) := q_test 2 d1 d0 n2 q r n1 n0 in
  let! m := lstore m (qp + i) q in
  let '(n1, n0) := sub_ddmmss A r n2 n1 n0 in
  Next (m, n1, n0).

(** The body of the loop after [np] was moved or the next limb cleared. *)
Definition step_2 {R} (m : mem) (qp i np d1 d0 n1 n0 : Z) : flow R (mem * Z * Z) :=
  if n1 =? d1 then
    let q := lw (-1) in
    let r := lw (n0 + d1) in
    if r <? d1 then
      let! x := lload m np in
      let '(n1, n0) := add_ssaaaa A (lw (r - d0)) x 0 d0 in
      let! m := lstore m (qp + i) q in
      Next (m, n1, n0)
    else finish_2 m qp i np d1 d0 q r (lw (d0 - b2z (negb (d0 =? 0)))) (lw (- d0))
  else
    let! '(q, r) := udiv_qrnnd A n1 n0 d1 in
    let '(n1, n0) := umul_ppmm A d0 q in
    finish_2 m qp i np d1 d0 q r n1 n0.

Fixpoint loop_2 {R} (n : nat) (m : mem) (qp qextra_limbs np d1 d0 n1 n0 : Z) : flow R (mem * Z * Z * Z) :=
  match n with
  | O => Next (m, np, n1, n0)
  | S i =>
      let! '(m, np) := (if qextra_limbs <=? Z.of_nat i then Next (m, np - 1) else let! m := lstore m np 0 in Next (m, np)) in
      let! '(m, n1, n0) := step_2 m qp (Z.of_nat i) np d1 d0 n1 n0 in
      loop_2 i m qp qextra_limbs np d1 d0 n1 n0
  end.

Definition divrem_2 {R} (m : mem) (qp qextra_limbs np nsize dp : Z) : flow R (mem * Z) :=
  let np := np + (nsize - 2) in
  let! d1 := lload m (dp + 1) in
  let! d0 := lload m dp in
  let! n1 := lload m (np + 1) in
  let! n0 := lload m np in
  let '(n1, n0, high) :=
    if (d1 <=? n1) && ((d1 <? n1) || (d0 <=? n0)) then let '(n1, n0) := sub_ddmmss A n1 n0 d1 d0 in (n1, n0, 1) else (n1, n0, 0) in
  let! '(m, np, n1, n0) := loop_2 (Z.to_nat (qextra_limbs + nsize - 2)) m qp qextra_limbs np d1 d0 n1 n0 in
  let! m := lstore m (np + 1) n1 in
  let! m := lstore m np n0 in
  Next (m, high).

(** ** default *)

(** [while (n1 > r || (n1 == r && n0 > np[dsize - 2]))], with [x] that limb. *)
Fixpoint adjust {R} (fuel : nat) (dX d1 x q r n1 n0 : Z) : flow R Z :=
  if (r <? n1) || ((n1 =? r) && (x <? n0)) then
    match fuel with
    | O => NoFuel
    | S fuel =>
        let q := lw (q - 1) in
        let r := lw (r + dX) in
        if r <? dX then Next q
        else adjust fuel dX d1 x q r (lw (n1 - b2z (n0 <? d1))) (lw (n0 - d1))
    end
  else Next q.

Definition estimate {R} (m : mem) (np dsize dX d1 n0 : Z) : flow R Z :=
  if n0 =? dX then Next (lw (-1))
  else
    let! y := lload m (np + (dsize - 1)) in
    let! '(q, r) := udiv_qrnnd A n0 y dX in
    let '(n1, n0) := umul_ppmm A d1 q in
    let! x := lload m (np + (dsize - 2)) in
    adjust 2 dX d1 x q r n1 n0.

(** The body of the loop after [np] was moved or the remainder shifted. *)
Definition step_n {R} (m : mem) (qp i np dp dsize dX d1 n0 n2 : Z) : flow R (mem * Z) :=
  let! q := estimate m np dsize dX d1 n0 in
  let! '(m, cy_limb) := mpn_submul_1 A m np dp dsize q in
  let! '(m, q) :=
    (if negb (n2 =? cy_limb) then let! '(m, _) := mpn_add_n A m np np dp dsize in Next (m, lw (q - 1))
     else Next (m, q)) in
  let! m := lstore m (qp + i) q in
  let! n0 := lload m (np + (dsize - 1)) in
  Next (m, n0).

Fixpoint loop_n {R} (n : nat) (m : mem) (qp qextra_limbs np dp dsize dX d1 n0 : Z) : flow R mem :=
  match n with
  | O => Next m
  | S i =>
      let! '(m, np, n2) :=
        (if qextra_limbs <=? Z.of_nat i then
           let np := np - 1 in let! n2 := lload m (np + dsize) in Next (m, np, n2)
         else
           let! n2 := lload m (np + (dsize - 1)) in
           let! m := MPN_COPY_DECR (Z.to_nat dsize) m (np + 1) np in
           let! m := lstore m np 0 in
           Next (m, np, n2)) in
      let! '(m, n0) := step_n m qp (Z.of_nat i) np dp dsize dX d1 n0 n2 in
      loop_n i m qp qextra_limbs np dp dsize dX d1 n0
  end.

Definition divrem_n {R} (m : mem) (qp qextra_limbs np nsize dp dsize : Z) : flow R (mem * Z) :=
  let np := np + (nsize - dsize) in
  let! dX := lload m (dp + (dsize - 1)) in
  let! d1 := lload m (dp + (dsize - 2)) in
  let! n0 := lload m (np + (dsize - 1)) in
  let! '(m, n0, high) :=
    (if dX <=? n0 then
       let! c := (if dX <? n0 then Next 1 else mpn_cmp m np dp (dsize - 1)) in
       if 0 <=? c then
         let! '(m, _) := mpn_sub_n A m np np dp dsize in
         let! n0 := lload m (np + (dsize - 1)) in
         Next (m, n0, 1)
       else Next (m, n0, 0)
     else Next (m, n0, 0)) in
  let! m := loop_n (Z.to_nat (qextra_limbs + nsize - dsize)) m qp qextra_limbs np dp dsize dX d1 n0 in
  Next (m, high).

Definition mpn_divrem {R} (m : mem) (qp qextra_limbs np nsize dp dsize : Z) : flow R (mem * Z) :=
  if dsize =? 0 then Fault
  else if dsize =? 1 then divrem_1 m qp qextra_limbs np nsize dp
  else if dsize =? 2 then divrem_2 m qp qextra_limbs np nsize dp
  else divrem_n m qp qextra_limbs np nsize dp dsize.

(** gmp.h *)
Definition mpn_divmod {R} (m : mem) (qp np nsize dp dsize : Z) : flow R (mem * Z) := mpn_divrem m qp 0 np nsize dp dsize.

(** * One quotient limb *)

Lemma gt_limbs r x n1 n0 : limb A x -> limb A n0 -> (r <? n1) || ((n1 =? r) && (x <? n0)) = (r * B + x <? n1 * B + n0).
Proof.
  intros Hx Hn. unfold limb in *. symmetry. destruct (Z.ltb_spec r n1) as [H|H]; cbn [orb]; [apply Z.ltb_lt; nia|].
  destruct (Z.eqb_spec n1 r) as [-> |Hne]; cbn [andb]; [destruct (Z.ltb_spec x n0); [apply Z.ltb_lt|apply Z.ltb_ge]; lia|apply Z.ltb_ge; nia].
Qed.

(** The quotient [q] of the two limbs [t] by the first limb [d1] of the divisor, with remainder [r], estimates the quotient
    of three limbs [t], [x] by [d1], [d0]. *)
Section Estimate.
Context (d1 d0 t x : Z).
Hypothesis d_norm : normalized A d1.
Hypothesis d0_limb : limb A d0.
Hypothesis x_limb : limb A x.

#[local] Abbreviation D := (d1 * B + d0).
#[local] Abbreviation N := (t * B + x).

(** [r] is the remainder, and [q] is not too small. *)
Definition candidate (q r : Z) : Prop := limb A q /\ limb A r /\ r = t - q * d1 /\ N < (q + 1) * D.

(** Whether the candidate is too large is a comparison of two limbs. *)
Lemma too_large q r : candidate q r -> (q * D <= N <-> q * d0 <= r * B + x).
Proof. intros (_ & _ & -> & _). split; intros H; nia. Qed.

(** Taking it back by one: either it is right then, because of the carry, or a candidate again. *)
Lemma take_back q r : 0 <= t -> candidate q r -> r * B + x < q * d0 ->
  0 < q /\ lw (q - 1) = q - 1 /\
  (B <= r + d1 /\ lw (r + d1) = r + d1 - B /\ lw (r + d1) < d1 /\ (q - 1) * D <= N < q * D \/
   r + d1 < B /\ lw (r + d1) = r + d1 /\ d1 <= lw (r + d1) /\ candidate (q - 1) (r + d1)).
Proof.
  intros Ht (Hq & Hr & E & HN) Hlt. destruct d_norm as [Hd Hn]. unfold limb in *. pose proof (limb_base_gt A) as HB. assert (0 < q) as Hq0 by nia.
  split; [exact Hq0|]. split; [apply lw_small; unfold limb; lia|]. assert (N < q * D) as Hup by nia.
  destruct (lw_cases A (r + d1) ltac:(lia)) as [[-> ?]|[[-> ?]|[-> ?]]]; [right|left|lia].
  - split; [lia|]. split; [reflexivity|]. split; [lia|]. unfold candidate, limb. split; [lia|]. split; [lia|]. split; [lia|]. lia.
  - split; [lia|]. split; [reflexivity|]. split; [lia|]. split; [|exact Hup].
    assert ((q - 1) * d0 <= B * B) by (clear -Hq Hq0 d0_limb; unfold limb in *; nia). assert (B * B <= (r + d1) * B) by (apply Z.mul_le_mono_nonneg_r; lia).
    replace t with (r + q * d1) by lia. unfold limb in x_limb. lia.
Qed.

Lemma quotient_unique q : q * D <= N < (q + 1) * D -> q = N / D.
Proof. intros H. apply (Z.div_unique_pos N D q (N - q * D)); lia. Qed.

Lemma q_test_spec {R} fuel : forall q r, 0 <= t -> candidate q r -> B <= r + Z.of_nat fuel * d1 ->
  exists q' r' p', @q_test R fuel d1 d0 x q r (q * d0 / B) ((q * d0) mod B) = Next (q', r', p' / B, p' mod B) /\
    p' = q' * d0 /\ limb A q' /\ (exists k, r' = t - q' * d1 + k * B) /\ q' * D <= N < (q' + 1) * D.
Proof.
  induction fuel as [|fuel IH]; intros q r Ht Hc Hf; pose proof Hc as (Hq & Hr & Er & HN); pose proof d_norm as [Hd Hn]; unfold limb in Hq, Hr, Hd, d0_limb;
    (assert (0 <= q * d0 < B * B) as Hp by (pose proof (limb_base_gt A); nia)); destruct (limbs_of A (q * d0) Hp) as (L1 & L2 & Ep); cbn [q_test]; rewrite gt_limbs, Ep by assumption;
    (destruct (Z.ltb_spec (r * B + x) (q * d0)) as [Hlt|Hge]; [|exists q, r, (q * d0); split; [reflexivity|]; split; [reflexivity|]; split; [exact Hq|]; split; [exists 0; lia|]; split; [apply (too_large q r Hc); exact Hge|exact HN]]).
  { lia. }
  destruct (take_back q r Ht Hc Hlt) as (Hq0 & -> & [(G & El & Hl & HQ)|(G & El & Hl & Hc')]); assert (0 <= (q - 1) * d0 <= q * d0) as Hp1 by (clear -Hq0 d0_limb; nia).
  - rewrite (sub_ddmmss_spec A _ _ 0 d0 ((q - 1) * d0) 0) by (try assumption; try exact d0_limb; lia). rewrite El in *. rewrite (proj2 (Z.leb_gt d1 _)) by lia.
    exists (q - 1), (r + d1 - B), ((q - 1) * d0). split; [reflexivity|]. split; [reflexivity|]. split; [unfold limb; lia|]. split; [exists (-1); lia|]. lia.
  - rewrite (sub_ddmmss_spec A _ _ 0 d0 ((q - 1) * d0) 0) by (try assumption; try exact d0_limb; lia). rewrite El in *. rewrite (proj2 (Z.leb_le d1 _)) by lia.
    apply IH; [exact Ht|exact Hc'|lia].
Qed.

Lemma adjust_spec {R} fuel : forall q r, 0 <= t -> candidate q r -> B <= r + Z.of_nat fuel * d1 ->
  exists q', @adjust R fuel d1 d0 x q r (q * d0 / B) ((q * d0) mod B) = Next q' /\ limb A q' /\ q' * D <= N < (q' + 1) * D.
Proof.
  induction fuel as [|fuel IH]; intros q r Ht Hc Hf; pose proof Hc as (Hq & Hr & Er & HN); pose proof d_norm as [Hd Hn]; unfold limb in Hq, Hr, Hd, d0_limb;
    (assert (0 <= q * d0 < B * B) as Hp by (pose proof (limb_base_gt A); nia)); destruct (limbs_of A (q * d0) Hp) as (L1 & L2 & Ep); cbn [adjust]; rewrite gt_limbs, Ep by assumption;
    (destruct (Z.ltb_spec (r * B + x) (q * d0)) as [Hlt|Hge]; [|exists q; split; [reflexivity|]; split; [exact Hq|]; split; [apply (too_large q r Hc); exact Hge|exact HN]]).
  { lia. }
  destruct (take_back q r Ht Hc Hlt) as (Hq0 & -> & [(G & El & Hl & HQ)|(G & El & Hl & Hc')]); assert (0 <= (q - 1) * d0 <= q * d0) as Hp1 by (clear -Hq0 d0_limb; nia); rewrite El in *.
  - rewrite (proj2 (Z.ltb_lt _ d1)) by lia. exists (q - 1). split; [reflexivity|]. split; [unfold limb; lia|]. lia.
  - rewrite (proj2 (Z.ltb_ge _ d1)) by lia.
    assert (sub_ddmmss A (q * d0 / B) ((q * d0) mod B) 0 d0 = ((q - 1) * d0 / B, ((q - 1) * d0) mod B)) as Es by (apply (sub_ddmmss_spec A _ _ 0 d0 ((q - 1) * d0) 0); try assumption; try exact d0_limb; lia).
    unfold sub_ddmmss in Es. injection Es as E1 E2. rewrite E2 in *.
    assert (lw (q * d0 / B - b2z ((q * d0) mod B <? d0)) = (q - 1) * d0 / B) as ->.
    { rewrite <- E1. f_equal. rewrite Z.sub_0_r. f_equal. f_equal. rewrite <- E2. unfold limb in L2. destruct (lw_cases A ((q * d0) mod B - d0) ltac:(lia)) as [[-> ?]|[[-> ?]|[-> ?]]]; [|lia|];
        [rewrite !(proj2 (Z.ltb_ge _ _)) by lia|rewrite !(proj2 (Z.ltb_lt _ _)) by lia]; reflexivity. }
    apply IH; [exact Ht|exact Hc'|lia].
Qed.
End Estimate.

(** ** Memory *)

Lemma wr_wr m p l1 l2 : length l1 = length l2 -> wr (wr m p l1) p l2 = wr m p l2.
Proof. intros H. apply map_eq. intros a. rewrite !wr_lookup. destruct (decide (p <= a < p + Z.of_nat (length l2))); [reflexivity|]. rewrite decide_False by lia. reflexivity. Qed.

(** ** Two limbs *)

Lemma lw_mod z : exists k, lw z = z + k * B.
Proof. unfold Mpn.lw, uwrap. fold B. exists (- (z / B)). pose proof (limb_base_gt A). rewrite (Z.mod_eq z B) by lia. ring. Qed.

Lemma umul_limbs u v : limb A u -> limb A v -> umul_ppmm A u v = (u * v / B, (u * v) mod B).
Proof.
  intros Hu Hv. pose proof (umul_ppmm_spec A u v Hu Hv) as H. destruct (umul_ppmm A u v) as [h l]. destruct H as (_ & Hl & E). destruct (two_limbs A (u * v) h l Hl E) as [-> ->]. reflexivity.
Qed.

(** [(B - 1) * d0] *)
Lemma max_product d0 : limb A d0 -> lw (d0 - b2z (negb (d0 =? 0))) = (B - 1) * d0 / B /\ lw (- d0) = ((B - 1) * d0) mod B.
Proof.
  intros Hd. pose proof (limb_base_gt A). unfold limb in Hd. destruct (Z.eqb_spec d0 0) as [-> |Hn]; cbn [negb b2z].
  - rewrite Z.mul_0_r, Z.div_0_l, Z.mod_0_l by lia. split; apply lw_small; unfold limb; lia.
  - destruct (two_limbs A ((B - 1) * d0) (d0 - 1) (B - d0)) as [<- <-]; [unfold limb; lia|lia|]. split; [apply lw_small; unfold limb; lia|apply lw_eq with (-1); [unfold limb; lia|lia]].
Qed.

(** A step of a division: the next limb of the quotient and the next remainder. *)
Definition div_step (d t x q t' : Z) : Prop := limb A q /\ t * B + x = q * d + t' /\ 0 <= t' < d.

Lemma finish_2_spec {R} m qp i np d1 d0 t x q r : normalized A d1 -> limb A d0 -> limb A x -> 0 <= t ->
  m !! np = Some x -> is_Some (m !! (qp + i)) -> candidate d1 d0 t x q r ->
  exists q' t', @finish_2 R m qp i np d1 d0 q r (q * d0 / B) ((q * d0) mod B) = Next (<[qp + i := q']> m, t' / B, t' mod B) /\ div_step (d1 * B + d0) t x q' t'.
Proof.
  intros Hn Hd0 Hx Ht Hm Hq Hc. unfold finish_2. rewrite (lload_at _ _ _ Hm). cbn [flow_bind]. pose proof Hn as [Hd Hn2]. pose proof Hc as (_ & Hr & _). unfold limb in Hd, Hr.
  destruct (@q_test_spec d1 d0 t x Hn Hd0 Hx R 2 q r Ht Hc ltac:(lia)) as (q' & r' & p' & -> & -> & Lq & (k & Er) & HQ). cbn [flow_bind]. rewrite lstore_at by exact Hq. cbn [flow_bind].
  pose proof (limb_base_gt A). assert (0 <= q' * d0 < B * B) as Hp by (unfold limb in *; nia). destruct (limbs_of A _ Hp) as (_ & L2 & Ep).
  assert (d1 * B + d0 < B * B) as HD by (unfold limb in *; nia).
  rewrite (sub_ddmmss_spec A r' x _ _ (t * B + x - q' * (d1 * B + d0)) k) by (assumption || lia). exists q', (t * B + x - q' * (d1 * B + d0)). split; [reflexivity|]. split; [exact Lq|]. lia.
Qed.

Lemma step_2_spec {R} m qp i np d1 d0 n1 n0 x : normalized A d1 -> limb A d0 -> limb A n1 -> limb A n0 -> limb A x -> n1 * B + n0 < d1 * B + d0 ->
  m !! np = Some x -> is_Some (m !! (qp + i)) ->
  exists q t', @step_2 R m qp i np d1 d0 n1 n0 = Next (<[qp + i := q]> m, t' / B, t' mod B) /\ div_step (d1 * B + d0) (n1 * B + n0) x q t'.
Proof.
  intros Hn Hd0 Hn1 Hn0 Hx Hlt Hm Hq. pose proof (limb_base_gt A) as HB. pose proof Hn as [Hd Hn2]. unfold limb in Hd, Hd0, Hn1, Hn0. unfold step_2.
  assert (d1 * B + d0 < B * B) as HD by (clear -Hd Hd0; nia). assert ((n1 * B + n0) * B + x < B * (d1 * B + d0)) as HN by (unfold limb in Hx; clear -Hlt Hx HB; nia).
  destruct (Z.eqb_spec n1 d1) as [-> |Hne].
  - assert (limb A (B - 1)) as Lq by (unfold limb; lia). rewrite (lw_eq A (-1) (B - 1) (-1)) by (assumption || lia). assert ((B - 1) * d0 <= B * B) as Hmax by (clear -Hd0 HB; nia).
    destruct (lw_cases A (n0 + d1) ltac:(lia)) as [[-> Hr]|[[-> Hr]|[-> Hr]]]; [| |lia].
    + rewrite (proj2 (Z.ltb_ge _ d1)) by lia. destruct (max_product d0 Hd0) as [-> ->]. apply finish_2_spec; try assumption; [clear -HB Hd Hn0; nia|]. unfold candidate, limb. split; [lia|]. split; [lia|]. split; [ring|]. lia.
    + rewrite (proj2 (Z.ltb_lt _ d1)) by lia. rewrite (lload_at _ _ _ Hm). cbn [flow_bind]. destruct (lw_mod (n0 + d1 - B - d0)) as [k Ek]. rewrite Ek. set (t' := (d1 * B + n0) * B + x - (B - 1) * (d1 * B + d0)).
      assert (B * B <= (n0 + d1) * B) as Hge by (apply Z.mul_le_mono_nonneg_r; lia). unfold limb in Hx. assert (0 <= t' < d1 * B + d0) as Ht' by (subst t'; split; lia).
      rewrite (add_ssaaaa_spec A _ x 0 d0 t' (k - 1)) by (unfold limb; subst t'; lia). rewrite lstore_at by exact Hq. cbn [flow_bind]. exists (B - 1), t'. split; [reflexivity|]. split; [exact Lq|]. split; [subst t'; ring|exact Ht'].
  - assert (n1 < d1) as Hl1 by (clear -Hlt Hne Hn0 Hd0 HB; nia). destruct (@udiv_qrnnd_spec A R n1 n0 d1 Hn ltac:(lia) Hn0) as (q & r & -> & Lq & Hr & E). cbn [flow_bind].
    rewrite umul_limbs by assumption. rewrite (Z.mul_comm d0 q). apply finish_2_spec; try assumption; [lia|]. unfold candidate. split; [exact Lq|]. split; [unfold limb; lia|]. split; [lia|].
    rewrite E. unfold limb in *. assert ((r + 1) * B <= d1 * B) by (apply Z.mul_le_mono_nonneg_r; lia). assert (0 <= q * d0) by (apply Z.mul_nonneg_nonneg; lia). lia.
Qed.

(** The limbs of a remainder below the divisor. *)
Lemma rem_limbs d1 d0 t : limb A d1 -> limb A d0 -> 0 <= t < d1 * B + d0 -> limb A (t / B) /\ limb A (t mod B) /\ t / B * B + t mod B = t.
Proof. intros H1 H0 Ht. apply limbs_of. pose proof (limb_base_gt A). unfold limb in *. nia. Qed.

Section TwoLimbs.
Context {R : Type} (qp e d1 d0 : Z).
Hypothesis e_pos : 0 <= e.
Hypothesis d_norm : normalized A d1.
Hypothesis d0_limb : limb A d0.

#[local] Abbreviation D := (d1 * B + d0).

(** The limbs of the numerator. *)
Lemma loop_2_int l : forall m p0 t, Forall (limb A) l -> bytes_at m p0 l -> 0 <= t < D -> mapped m (qp + e) (qp + e + Z.of_nat (length l)) ->
  p0 <= qp + e \/ qp + e + Z.of_nat (length l) <= p0 ->
  exists q t', @loop_2 R (Z.to_nat e + length l) m qp e (p0 + Z.of_nat (length l)) d1 d0 (t / B) (t mod B) =
      loop_2 (Z.to_nat e) (wr m (qp + e) q) qp e p0 d1 d0 (t' / B) (t' mod B) /\
    length q = length l /\ Forall (limb A) q /\ 0 <= t' < D /\ t * B ^ Z.of_nat (length l) + lval A l = lval A q * D + t'.
Proof.
  pose proof d_norm as [Hd _]. induction l as [|x l IH] using rev_ind; intros m p0 t Hl Hb Ht Hm Ha.
  - exists [], t. cbn [length]. rewrite Nat.add_0_r, Z.add_0_r. split; [reflexivity|]. split; [reflexivity|]. split; [constructor|]. split; [exact Ht|]. cbn [lval]. change (Z.of_nat 0) with 0. rewrite Z.pow_0_r. lia.
  - rewrite length_app in *. cbn [length] in *. replace (Z.to_nat e + (length l + 1))%nat with (S (Z.to_nat e + length l)) by lia. cbn [loop_2]. rewrite (proj2 (Z.leb_le e _)) by lia. cbn [flow_bind].
    apply Forall_app in Hl as [Hl Hx]. inversion_clear Hx as [|? ? Lx _]. apply bytes_at_app in Hb as [Hb Hx]. apply bytes_at_cons in Hx as [Hx _].
    destruct (rem_limbs d1 d0 t Hd d0_limb Ht) as (L1 & L2 & E). replace (p0 + Z.of_nat (length l + 1) - 1) with (p0 + Z.of_nat (length l)) by lia.
    replace (Z.of_nat (Z.to_nat e + length l)) with (e + Z.of_nat (length l)) by lia.
    destruct (@step_2_spec R m qp (e + Z.of_nat (length l)) (p0 + Z.of_nat (length l)) d1 d0 (t / B) (t mod B) x d_norm d0_limb L1 L2 Lx ltac:(lia) Hx ltac:(apply Hm; lia)) as (q0 & t0 & -> & Lq & E0 & Ht0).
    cbn [flow_bind]. rewrite E in E0. destruct (IH (<[qp + (e + Z.of_nat (length l)) := q0]> m) p0 t0 Hl) as (q & t' & -> & El & Lq' & Ht' & E'); [apply insert_other; [exact Hb|lia]|exact Ht0|apply mapped_insert; intros a Hr; apply Hm; lia|lia|].
    exists (q ++ [q0]), t'. rewrite wr_app, El. replace (qp + (e + Z.of_nat (length l))) with (qp + e + Z.of_nat (length l)) by lia. rewrite wr_insert by lia. split; [reflexivity|].
    rewrite length_app, El. split; [reflexivity|]. split; [apply Forall_app; auto|]. split; [exact Ht'|]. rewrite !lval_app, El. cbn [lval]. replace (Z.of_nat (length l + 1)) with (Z.succ (Z.of_nat (length l))) by lia. rewrite Z.pow_succ_r by lia.
    set (P := B ^ Z.of_nat (length l)) in *. transitivity (P * (t * B + x) + lval A l); [ring|]. rewrite E0. transitivity (P * q0 * D + (t0 * P + lval A l)); [ring|]. rewrite E'. ring.
Qed.

(** The fraction limbs. *)
Lemma loop_2_frac n : forall m p0 t, Z.of_nat n <= e -> 0 <= t < D -> is_Some (m !! p0) -> mapped m qp (qp + Z.of_nat n) -> ~ (qp <= p0 < qp + Z.of_nat n) ->
  exists m' q t', @loop_2 R n m qp e p0 d1 d0 (t / B) (t mod B) = Next (m', p0, t' / B, t' mod B) /\ frame m m' p0 1 qp (Z.of_nat n) /\ bytes_at m' qp q /\
    length q = n /\ Forall (limb A) q /\ 0 <= t' < D /\ t * B ^ Z.of_nat n = lval A q * D + t'.
Proof.
  pose proof d_norm as [Hd _]. induction n as [|n IH]; intros m p0 t Hn Ht H0 Hm Ha.
  - exists m, [], t. split; [reflexivity|]. split; [apply frame_refl|]. split; [intros i b Hi; discriminate|]. split; [reflexivity|]. split; [constructor|]. split; [exact Ht|]. cbn [lval]. change (Z.of_nat 0) with 0. rewrite Z.pow_0_r. lia.
  - cbn [loop_2]. rewrite (proj2 (Z.leb_gt e _)) by lia. rewrite lstore_at by exact H0. cbn [flow_bind]. destruct (rem_limbs d1 d0 t Hd d0_limb Ht) as (L1 & L2 & E).
    destruct (@step_2_spec R (<[p0 := 0]> m) qp (Z.of_nat n) p0 d1 d0 (t / B) (t mod B) 0 d_norm d0_limb L1 L2 (limb_0 A) ltac:(lia) ltac:(apply lookup_insert_eq) ltac:(rewrite lookup_insert_ne by lia; apply Hm; lia)) as (q0 & t0 & -> & Lq & E0 & Ht0).
    cbn [flow_bind]. rewrite E in E0. set (m1 := <[qp + Z.of_nat n := q0]> (<[p0 := 0]> m)).
    assert (frame m m1 p0 1 qp (Z.of_nat (S n))) as F1. { split; [intros a H1 H2; subst m1; rewrite !lookup_insert_ne by lia; reflexivity|intros lo hi H; subst m1; do 2 apply mapped_insert; exact H]. }
    destruct (IH m1 p0 t0 ltac:(lia) Ht0) as (m' & q & t' & -> & F & Hb & El & Lq' & Ht' & E'); [destruct F1 as [_ F1]; apply (F1 p0 (p0 + 1)); [intros a Hr; replace a with p0 by lia; exact H0|lia]|destruct F1 as [_ F1]; apply F1; intros a Hr; apply Hm; lia|lia|].
    exists m', (q ++ [q0]), t'. split; [reflexivity|]. split; [eapply frame_trans; [exact F1|eapply frame_weaken; [exact F|auto|intros; lia]]|]. rewrite length_app, El. split.
    { apply bytes_at_app. split; [exact Hb|]. rewrite El. apply (frame_at _ _ _ _ _ _ _ _ F); [apply bytes_at_cons; split; [apply lookup_insert_eq|intros i b Hi; discriminate]|unfold apart; cbn [length]; lia|unfold apart; cbn [length]; lia]. }
    split; [cbn [length]; lia|]. split; [apply Forall_app; auto|]. split; [exact Ht'|]. rewrite lval_app, El. cbn [lval]. rewrite Nat2Z.inj_succ, Z.pow_succ_r by lia. set (P := B ^ Z.of_nat n) in *.
    transitivity (P * (t * B + 0)); [ring|]. rewrite E0. transitivity (P * q0 * D + t0 * P); [ring|]. rewrite E'. ring.
Qed.
End TwoLimbs.

(** ** More limbs *)

(** The estimate from three limbs by two is at most one too large; [P] is the weight of the rest, whose values are [vl] and [xl]. *)
Lemma estimate_bounds P dX d1 vl n x xl q : 0 < P -> 0 <= d1 < B -> B <= 2 * dX -> 0 <= vl < P -> 0 <= xl < P -> 0 <= n -> limb A x -> limb A q ->
  q * (dX * B + d1) <= n * B + x < (q + 1) * (dX * B + d1) ->
  (q - 1) * (vl + P * (d1 + B * dX)) <= xl + P * (x + B * n) < (q + 1) * (vl + P * (d1 + B * dX)).
Proof.
  intros HP Hd1 HdX Hvl Hxl Hn Hx Hq [H1 H2]. pose proof (limb_base_gt A) as HB. unfold limb in *. set (D2 := dX * B + d1) in *. replace (d1 + B * dX) with D2 by (subst D2; ring). replace (x + B * n) with (n * B + x) by ring.
  assert (B <= D2) as HD2 by (subst D2; nia). set (N3 := n * B + x) in *. clearbody D2 N3. split.
  - assert ((q - 1) * (D2 + 1) <= N3) as H3 by nia. assert ((q - 1) * (vl + P * D2) <= P * N3) as H4; [|lia]. destruct (Z.le_gt_cases q 0).
    + replace q with 0 in * by lia. assert (0 <= N3) by lia. nia.
    + assert ((q - 1) * (vl + P * D2) <= (q - 1) * (P * (D2 + 1))) by (apply Z.mul_le_mono_nonneg_l; lia). assert (P * ((q - 1) * (D2 + 1)) <= P * N3) by (apply Z.mul_le_mono_nonneg_l; lia). lia.
  - assert (P * (N3 + 1) <= P * ((q + 1) * D2)) by (apply Z.mul_le_mono_nonneg_l; lia). assert (0 <= (q + 1) * vl) by (apply Z.mul_nonneg_nonneg; lia). lia.
Qed.

(** When the first limbs agree the largest limb is the estimate. *)
Lemma max_estimate P dX d1 vl y x xl : 0 < P -> 0 <= d1 < B -> B <= 2 * dX -> 0 <= vl < P -> 0 <= xl -> limb A x -> limb A y ->
  (B - 1 - 1) * (vl + P * (d1 + B * dX)) <= xl + P * (x + B * (y + B * dX)).
Proof.
  intros HP Hd1 HdX Hvl Hxl Hx Hy. pose proof (limb_base_gt A) as HB. unfold limb in *.
  assert (vl + P * (d1 + B * dX) <= P * (B * (dX + 1))) as H1 by nia. assert ((B - 2) * (dX + 1) <= B * dX) as H2 by nia.
  assert ((B - 2) * (vl + P * (d1 + B * dX)) <= (B - 2) * (P * (B * (dX + 1)))) as H3 by (apply Z.mul_le_mono_nonneg_l; lia).
  assert (P * B * ((B - 2) * (dX + 1)) <= P * B * (B * dX)) as H4 by (apply Z.mul_le_mono_nonneg_l; nia). assert (0 <= P * (x + B * y)) by nia. lia.
Qed.

Section MoreLimbs.
Context {R : Type} (qp e dp dX d1 : Z) (vl : list Z).
Hypothesis e_pos : 0 <= e.
Hypothesis d_norm : normalized A dX.
Hypothesis v_limbs : Forall (limb A) (vl ++ [d1; dX]).

#[local] Abbreviation v := (vl ++ [d1; dX]).
#[local] Abbreviation D := (lval A v).
#[local] Abbreviation dsize := (Z.of_nat (length vl) + 2).

Lemma v_length : Z.of_nat (length v) = dsize.
Proof. rewrite length_app. cbn [length]. lia. Qed.

Lemma estimate_spec m np xl x y n0 : length xl = length vl -> Forall (limb A) (xl ++ [x; y; n0]) -> bytes_at m np (xl ++ [x; y]) -> lval A (xl ++ [x; y; n0]) < B * D ->
  exists q, @estimate R m np dsize dX d1 n0 = Next q /\ limb A q /\ (q - 1) * D <= lval A (xl ++ [x; y; n0]) < (q + 1) * D.
Proof.
  intros Hlen Hl Hb Hlt. pose proof (limb_base_gt A) as HB. apply Forall_app in Hl as [Hxl Hl]. inversion_clear Hl as [|? ? Lx Hl2]. inversion_clear Hl2 as [|? ? Ly Hl3]. inversion_clear Hl3 as [|? ? Ln _].
  pose proof v_limbs as Hv. apply Forall_app in Hv as [Hvl Hv]. inversion_clear Hv as [|? ? Ld1 _]. pose proof d_norm as [Hd Hn2].
  pose proof (lval_bound A xl Hxl) as Kx. pose proof (lval_bound A vl Hvl) as Kv. rewrite Hlen in Kx. set (P := B ^ Z.of_nat (length vl)) in *. assert (0 < P) as HP by (apply Z.pow_pos_nonneg; lia).
  rewrite !lval_app in *. rewrite Hlen in *. cbn [lval] in *. rewrite !Z.mul_0_r, !Z.add_0_r in *. fold P in Hlt |- *.
  assert (n0 <= dX) as Hle. { destruct (Z.le_gt_cases n0 dX) as [|Hg]; [assumption|]. exfalso. unfold limb in *. assert (P * B * (B * (dX + 1)) <= P * B * (B * n0)) by (apply Z.mul_le_mono_nonneg_l; nia). assert (0 <= P * (x + B * y)) by nia. assert (B * lval A vl <= B * P) by nia. assert (B * (P * d1) <= B * (P * (B - 1))) by nia. lia. }
  unfold estimate. destruct (Z.eqb_spec n0 dX) as [-> |Hne].
  - exists (B - 1). rewrite (lw_eq A (-1) (B - 1) (-1)) by (unfold limb; lia). split; [reflexivity|]. split; [unfold limb; lia|]. split; [apply max_estimate; assumption || lia|]. lia.
  - apply bytes_at_app in Hb as [_ Hb]. apply bytes_at_cons in Hb as [Hx Hb]. apply bytes_at_cons in Hb as [Hy _]. rewrite Hlen in Hx, Hy.
    replace (np + (dsize - 1)) with (np + Z.of_nat (length vl) + 1) by lia. rewrite (lload_at _ _ _ Hy). cbn [flow_bind].
    destruct (@udiv_qrnnd_spec A R n0 y dX d_norm ltac:(unfold limb in Ln; lia) Ly) as (q & r & -> & Lq & Hr & E). cbn [flow_bind]. rewrite umul_limbs by assumption. rewrite (Z.mul_comm d1 q).
    replace (np + (dsize - 2)) with (np + Z.of_nat (length vl)) by lia. rewrite (lload_at _ _ _ Hx). cbn [flow_bind]. unfold limb in Hd, Ln, Ly.
    destruct (@adjust_spec dX d1 (n0 * B + y) x d_norm Ld1 Lx R 2 q r) as (q' & -> & Lq' & HQ); [nia| |lia|].
    { unfold candidate. split; [exact Lq|]. split; [unfold limb; lia|]. split; [lia|]. rewrite E. unfold limb in *. assert ((r + 1) * B <= dX * B) by (apply Z.mul_le_mono_nonneg_r; lia). assert (0 <= q * d1) by (apply Z.mul_nonneg_nonneg; lia). lia. }
    exists q'. split; [reflexivity|]. split; [exact Lq'|]. replace (y + B * n0) with (n0 * B + y) by ring. apply estimate_bounds; try assumption; lia.
Qed.

Lemma step_n_spec m i np xl x y n0 : length xl = length vl -> Forall (limb A) (xl ++ [x; y; n0]) -> bytes_at m np (xl ++ [x; y]) -> lval A (xl ++ [x; y; n0]) < B * D ->
  bytes_at m dp v -> apart np dsize dp dsize -> is_Some (m !! (qp + i)) -> ~ (np <= qp + i < np + dsize) ->
  exists q rl n', @step_n R m qp i np dp dsize dX d1 n0 n0 = Next (<[qp + i := q]> (wr m np (rl ++ [n'])), n') /\ length rl = S (length vl) /\
    Forall (limb A) (rl ++ [n']) /\ limb A q /\ lval A (xl ++ [x; y; n0]) = q * D + lval A (rl ++ [n']) /\ lval A (rl ++ [n']) < D.
Proof.
  intros Hlen Hl Hb Hlt Hv Hap Hq Hout. unfold apart in Hap. pose proof v_length as Vlen. destruct (estimate_spec m np xl x y n0 Hlen Hl Hb Hlt) as (q & Eq & Lq & HQ). unfold step_n. rewrite Eq. cbn [flow_bind].
  assert (xl ++ [x; y; n0] = (xl ++ [x; y]) ++ [n0]) as E0 by (rewrite <- app_assoc; reflexivity). rewrite E0 in *. set (N' := xl ++ [x; y]) in *. apply Forall_app in Hl as [HN' Ln]. inversion_clear Ln as [|? ? Ln0 _].
  assert (Z.of_nat (length N') = dsize) as Nlen by (subst N'; rewrite length_app; cbn [length]; lia). rewrite (lval_app A N' [n0]), Nlen in *. cbn [lval] in *. rewrite Z.mul_0_r, Z.add_0_r in *. clearbody N'. clear E0 Hlen x y xl.
  set (P := B ^ dsize) in *. pose proof (lval_bound A v v_limbs) as KD. rewrite Vlen in KD. fold P in KD. assert (mapped m np (np + dsize)) as Hm by (rewrite <- Nlen; apply bytes_at_mapped; exact Hb).
  destruct (@submul_1_spec A R m np dp dsize v N' ltac:(lia) Vlen Nlen v_limbs HN' Hv Hm ltac:(unfold reads_ahead; lia) q Lq Hb) as (l & cy & -> & Hl & Ll & Lcy & El). cbn [flow_bind]. fold P in El.
  pose proof (lval_bound A l Ll) as Kl. rewrite Hl in Kl. fold P in Kl.
  assert (exists q' r, (let! '(m, q) := (if negb (n0 =? cy) then let! '(m, _) := mpn_add_n A (wr m np l) np np dp dsize in Next (m, lw (q - 1)) else Next (wr m np l, q)) in
      let! m := lstore m (qp + i) q in let! n0 := lload m (np + (dsize - 1)) in @Next R _ (m, n0)) =
      (let! m := lstore (wr m np r) (qp + i) q' in let! n0 := lload m (np + (dsize - 1)) in Next (m, n0)) /\
      Z.of_nat (length r) = dsize /\ Forall (limb A) r /\ limb A q' /\ lval A N' + P * n0 = q' * D + lval A r /\ lval A r < D) as (q' & r & -> & Lr & Fr & Lq' & Er & Hr).
  { destruct (Z.eqb_spec n0 cy) as [-> |Hne]; cbn [negb].
    - exists q, l. split; [reflexivity|]. split; [exact Hl|]. split; [exact Ll|]. split; [exact Lq|]. lia.
    - assert (n0 = cy - 1) as En. { assert (-1 * P < P * (n0 - cy) + P) by lia. assert (P * (n0 - cy) < P) by lia. assert (-2 < n0 - cy < 1) by nia. lia. }
      assert (0 < q) as Hq0. { unfold limb in Lq, Ln0. pose proof (lval_bound A N' HN'). destruct (Z.eq_dec q 0) as [Eq0|]; [exfalso; rewrite Eq0 in El; assert (P * 1 <= P * cy) by (apply Z.mul_le_mono_nonneg_l; lia); lia|lia]. }
      rewrite (lw_small A (q - 1)) by (unfold limb in *; lia).
      destruct (@add_n_spec A R (wr m np l) np np dp dsize l v ltac:(lia) Hl Vlen Ll v_limbs (wr_at _ _ _) (wr_mapped _ _ _ _ _ Hm) (reads_ahead_self _ _)) as (r & c & -> & Hlr & Fr & Hc & Ec); [apply wr_off; [exact Hv|unfold apart; lia]|unfold reads_ahead; lia|].
      cbn [flow_bind]. fold P in Ec. pose proof (lval_bound A r Fr) as Kr. rewrite Hlr in Kr. fold P in Kr. exists (q - 1), r. rewrite wr_wr by lia. split; [reflexivity|]. split; [exact Hlr|]. split; [exact Fr|]. split; [unfold limb in *; lia|].
      subst n0. assert (c = 1) as -> by (unfold is_carry in Hc; destruct (Z.eq_dec c 0); [subst c; exfalso; lia|lia]). lia. }
  destruct r as [|n' rl _] using rev_ind; [cbn [length] in Lr; lia|]. rewrite length_app in Lr. cbn [length] in Lr. rewrite lstore_at by (rewrite wr_lookup, decide_False by (rewrite length_app; cbn [length]; lia); exact Hq). cbn [flow_bind].
  rewrite (lload_at _ _ n'); [|rewrite lookup_insert_ne, wr_lookup, decide_True by (rewrite ?length_app; cbn [length]; lia); replace (Z.to_nat _) with (length rl) by lia; rewrite lookup_app_r, Nat.sub_diag by lia; reflexivity].
  cbn [flow_bind]. exists q', rl, n'. split; [reflexivity|]. split; [lia|]. auto.
Qed.

(** The remainder [rl ++ [n0]] with the next limb [w] below it. *)
Lemma next_limbs (w : Z) (rl : list Z) (n0 : Z) : length rl = S (length vl) -> exists xl x y, w :: rl = xl ++ [x; y] /\ length xl = length vl /\ w :: rl ++ [n0] = xl ++ [x; y; n0].
Proof.
  intros Hl. destruct rl as [|y rl' _] using rev_ind; [discriminate|]. rewrite length_app in Hl. cbn [length] in Hl.
  destruct (exists_last (l := w :: rl') ltac:(discriminate)) as (xl & x & E). exists xl, x, y. apply (f_equal length) in E as El. rewrite length_app in El. cbn [length] in El.
  assert (w :: rl' ++ [y] = xl ++ [x; y]) as H by (rewrite app_comm_cons, E, <- app_assoc; reflexivity). split; [exact H|]. split; [lia|]. rewrite app_comm_cons, H, <- app_assoc. reflexivity.
Qed.

Lemma next_value w rl n0 : limb A w -> lval A (rl ++ [n0]) < D -> lval A (w :: rl ++ [n0]) = lval A (rl ++ [n0]) * B + w /\ lval A (w :: rl ++ [n0]) < B * D.
Proof. intros Hw Hlt. cbn [lval]. unfold limb in Hw. split; [ring|nia]. Qed.

(** The limbs of the numerator. *)
Lemma loop_n_int l : forall m p0 rl n0, Forall (limb A) l -> Forall (limb A) (rl ++ [n0]) -> length rl = S (length vl) -> bytes_at m p0 (l ++ rl ++ [n0]) -> lval A (rl ++ [n0]) < D ->
  bytes_at m dp v -> apart p0 (Z.of_nat (length l) + dsize) dp dsize -> mapped m qp (qp + e + Z.of_nat (length l)) -> apart qp (e + Z.of_nat (length l)) dp dsize ->
  qp + e + Z.of_nat (length l) <= p0 \/ p0 + dsize <= qp ->
  exists m' q rl' n', @loop_n R (Z.to_nat e + length l) m qp e (p0 + Z.of_nat (length l)) dp dsize dX d1 n0 = loop_n (Z.to_nat e) m' qp e p0 dp dsize dX d1 n' /\
    frame m m' p0 (Z.of_nat (length l) + dsize) (qp + e) (Z.of_nat (length l)) /\ bytes_at m' (qp + e) q /\ bytes_at m' p0 (rl' ++ [n']) /\
    length q = length l /\ Forall (limb A) q /\ length rl' = S (length vl) /\ Forall (limb A) (rl' ++ [n']) /\ lval A (rl' ++ [n']) < D /\
    lval A (rl ++ [n0]) * B ^ Z.of_nat (length l) + lval A l = lval A q * D + lval A (rl' ++ [n']).
Proof.
  induction l as [|w l IH] using rev_ind; intros m p0 rl n0 Hl Hr Hrl Hb Hlt Hv Hap Hm Hqd Hqp.
  - exists m, [], rl, n0. cbn [length app] in *. rewrite Nat.add_0_r, Z.add_0_r. split; [reflexivity|]. split; [apply frame_refl|]. split; [intros i b Hi; discriminate|]. split; [exact Hb|]. split; [reflexivity|]. split; [constructor|].
    split; [exact Hrl|]. split; [exact Hr|]. split; [exact Hlt|]. cbn [lval]. change (Z.of_nat 0) with 0. rewrite Z.pow_0_r. lia.
  - rewrite length_app in *. cbn [length] in *. replace (Z.to_nat e + (length l + 1))%nat with (S (Z.to_nat e + length l)) by lia. cbn [loop_n]. rewrite (proj2 (Z.leb_le e _)) by lia. unfold apart in *.
    apply Forall_app in Hl as [Hl Hw]. inversion_clear Hw as [|? ? Lw _]. rewrite <- app_assoc in Hb. apply bytes_at_app in Hb as [Hbl Hb]. cbn [app] in Hb. set (np := p0 + Z.of_nat (length l)) in *.
    replace (p0 + Z.of_nat (length l + 1) - 1) with np by (subst np; lia). assert (m !! (np + dsize) = Some n0) as Hn0.
    { replace (np + dsize) with (np + Z.of_nat (S (length rl))) by lia. apply Hb. change (w :: rl ++ [n0]) with ((w :: rl) ++ [n0]). rewrite lookup_app_r by (cbn [length]; lia). cbn [length]. rewrite Nat.sub_diag. reflexivity. }
    rewrite (lload_at _ _ _ Hn0). cbn [flow_bind]. destruct (next_limbs w rl n0 Hrl) as (xl & x & y & E1 & Exl & E2). destruct (next_value w rl n0 Lw Hlt) as [Ev Hlt2]. rewrite E2 in *.
    replace (Z.of_nat (Z.to_nat e + length l)) with (e + Z.of_nat (length l)) by lia.
    destruct (step_n_spec m (e + Z.of_nat (length l)) np xl x y n0 Exl) as (q0 & rl1 & n1 & -> & Hrl1 & Fr1 & Lq0 & Ev1 & Hlt1); [rewrite <- E2; constructor; [exact Lw|exact Hr]| |exact Hlt2|exact Hv|unfold apart; lia|apply Hm; lia|lia|].
    { replace (xl ++ [x; y; n0]) with ((xl ++ [x; y]) ++ [n0]) in Hb by (rewrite <- app_assoc; reflexivity). apply bytes_at_app in Hb as [Hb _]. exact Hb. }
    cbn [flow_bind]. set (m1 := <[qp + (e + Z.of_nat (length l)) := q0]> (wr m np (rl1 ++ [n1]))). assert (length (rl1 ++ [n1]) = S (S (length vl))) as Lr1 by (rewrite length_app; cbn [length]; lia).
    assert (frame m m1 np dsize (qp + e + Z.of_nat (length l)) 1) as F1. { split; [intros a H1 H2; subst m1; rewrite lookup_insert_ne, wr_lookup, decide_False by lia; reflexivity|intros lo hi H; subst m1; apply mapped_insert, wr_mapped; exact H]. }
    assert (bytes_at m1 p0 (l ++ rl1 ++ [n1])) as Hb1. { apply bytes_at_app. split; [apply (frame_at _ _ _ _ _ _ _ _ F1); [exact Hbl|unfold apart; lia|unfold apart; lia]|]. fold np. apply insert_other; [apply wr_at|lia]. }
    destruct (IH m1 p0 rl1 n1 Hl Fr1 Hrl1 Hb1 Hlt1) as (m' & q & rl' & n' & Eloop & F & Hq & Hr' & El & Lq & Hrl' & Fr' & Hlt' & E'); [apply (frame_at _ _ _ _ _ _ _ _ F1); [exact Hv|unfold apart; rewrite v_length; lia|unfold apart; rewrite v_length; lia]|unfold apart; lia|destruct F1 as [_ F1]; intros a Ha; apply (F1 _ _ Hm); lia|unfold apart; lia|lia|].
    exists m', (q ++ [q0]), rl', n'. split; [exact Eloop|]. split; [eapply frame_trans; [eapply frame_weaken; [exact F1|intros; lia|intros; lia]|eapply frame_weaken; [exact F|intros; lia|intros; lia]]|].
    split. { apply bytes_at_app. split; [exact Hq|]. rewrite El. apply (frame_at _ _ _ _ _ _ _ _ F); [apply bytes_at_cons; split; [subst m1; replace (qp + (e + Z.of_nat (length l))) with (qp + e + Z.of_nat (length l)) by lia; apply lookup_insert_eq|intros i b Hi; discriminate]|unfold apart; cbn [length]; lia|unfold apart; cbn [length]; lia]. }
    split; [exact Hr'|]. rewrite length_app, El. split; [reflexivity|]. split; [apply Forall_app; auto|]. split; [exact Hrl'|]. split; [exact Fr'|]. split; [exact Hlt'|].
    rewrite (lval_app A q), (lval_app A l), El. cbn [lval]. replace (Z.of_nat (length l + 1)) with (Z.succ (Z.of_nat (length l))) by lia. rewrite Z.pow_succ_r by lia. set (P := B ^ Z.of_nat (length l)) in *.
    transitivity (P * (lval A (rl ++ [n0]) * B + w) + lval A l); [ring|]. rewrite <- Ev, Ev1. transitivity (P * q0 * D + (lval A (rl1 ++ [n1]) * P + lval A l)); [ring|]. rewrite E'. ring.
Qed.

Lemma copy_decr_spec l : forall m p, bytes_at m p l -> mapped m (p + 1) (p + 1 + Z.of_nat (length l)) -> @MPN_COPY_DECR R (length l) m (p + 1) p = Next (wr m (p + 1) l).
Proof.
  induction l as [|x l IH] using rev_ind; intros m p Hb Hm; [reflexivity|]. rewrite length_app in *. cbn [length] in *. rewrite Nat.add_1_r in *. cbn [MPN_COPY_DECR].
  apply bytes_at_app in Hb as [Hb Hx]. apply bytes_at_cons in Hx as [Hx _]. rewrite (lload_at _ _ _ Hx). cbn [flow_bind]. rewrite lstore_at by (apply Hm; lia). cbn [flow_bind].
  rewrite IH; [|apply insert_other; [exact Hb|lia]|apply mapped_insert; intros a Ha; apply Hm; lia]. rewrite wr_app, wr_insert by lia. reflexivity.
Qed.

(** The fraction limbs. *)
Lemma loop_n_frac n : forall m p0 rl n0, Z.of_nat n <= e -> Forall (limb A) (rl ++ [n0]) -> length rl = S (length vl) -> bytes_at m p0 (rl ++ [n0]) -> lval A (rl ++ [n0]) < D ->
  (n <> 0%nat -> is_Some (m !! (p0 + dsize))) -> bytes_at m dp v -> (n <> 0%nat -> apart p0 (dsize + 1) dp dsize) -> mapped m qp (qp + Z.of_nat n) -> apart qp (Z.of_nat n) dp dsize ->
  qp + Z.of_nat n <= p0 \/ p0 + dsize <= qp ->
  exists m' q r, @loop_n R n m qp e p0 dp dsize dX d1 n0 = Next m' /\ frame m m' p0 (if (n =? 0)%nat then 0 else dsize + 1) qp (Z.of_nat n) /\ bytes_at m' qp q /\ bytes_at m' p0 r /\
    length q = n /\ Forall (limb A) q /\ Z.of_nat (length r) = dsize /\ Forall (limb A) r /\ lval A r < D /\ lval A (rl ++ [n0]) * B ^ Z.of_nat n = lval A q * D + lval A r.
Proof.
  induction n as [|n IH]; intros m p0 rl n0 Hn Hr Hrl Hb Hlt Htop Hv Hap Hm Hqd Hqp; (assert (Z.of_nat (length (rl ++ [n0])) = dsize) as Lr by (rewrite length_app; cbn [length]; lia)).
  - exists m, [], (rl ++ [n0]). split; [reflexivity|]. split; [apply frame_refl|]. split; [intros i b Hi; discriminate|]. split; [exact Hb|]. split; [reflexivity|]. split; [constructor|]. split; [exact Lr|]. split; [exact Hr|]. split; [exact Hlt|].
    cbn [lval]. change (Z.of_nat 0) with 0. rewrite Z.pow_0_r. lia.
  - cbn [loop_n]. rewrite (proj2 (Z.leb_gt e _)) by lia. unfold apart in *. specialize (Htop ltac:(lia)). specialize (Hap ltac:(lia)). pose proof (bytes_at_mapped _ _ _ Hb) as Hmr. rewrite Lr in Hmr.
    assert (m !! (p0 + (dsize - 1)) = Some n0) as Hn0. { replace (p0 + (dsize - 1)) with (p0 + Z.of_nat (length rl)) by lia. apply Hb. rewrite lookup_app_r, Nat.sub_diag by lia. reflexivity. }
    rewrite (lload_at _ _ _ Hn0). cbn [flow_bind]. replace (Z.to_nat dsize) with (length (rl ++ [n0])) by lia.
    rewrite copy_decr_spec by (exact Hb || (intros a Ha; destruct (Z.eq_dec a (p0 + dsize)) as [-> |]; [exact Htop|apply Hmr; lia])). cbn [flow_bind].
    rewrite lstore_at by (rewrite wr_lookup, decide_False by lia; apply Hmr; lia). cbn [flow_bind]. set (m1 := <[p0 := 0]> (wr m (p0 + 1) (rl ++ [n0]))).
    assert (bytes_at m1 p0 (0 :: rl ++ [n0])) as Hb1. { apply bytes_at_cons. split; [apply lookup_insert_eq|]. apply insert_other; [apply wr_at|lia]. }
    assert (frame m m1 p0 (dsize + 1) qp (Z.of_nat (S n))) as F1. { split; [intros a H1 H2; subst m1; rewrite lookup_insert_ne, wr_lookup, decide_False by lia; reflexivity|intros lo hi H; subst m1; apply mapped_insert, wr_mapped; exact H]. }
    destruct (next_limbs 0 rl n0 Hrl) as (xl & x & y & E1 & Exl & E2). destruct (next_value 0 rl n0 (limb_0 A) Hlt) as [Ev Hlt2]. rewrite E2 in *.
    assert (bytes_at m1 dp v) as Hv1 by (apply (frame_at m m1 p0 (dsize + 1) qp (Z.of_nat (S n))); [exact F1|exact Hv|unfold apart; rewrite v_length; lia|unfold apart; rewrite v_length; lia]).
    destruct (step_n_spec m1 (Z.of_nat n) p0 xl x y n0 Exl) as (q0 & rl1 & n1 & -> & Hrl1 & Fr1 & Lq0 & Ev1 & Hlt1); [rewrite <- E2; constructor; [apply limb_0|exact Hr]| |exact Hlt2|exact Hv1|unfold apart; lia|destruct F1 as [_ F1]; apply (F1 _ _ Hm); lia|lia|].
    { replace (xl ++ [x; y; n0]) with ((xl ++ [x; y]) ++ [n0]) in Hb1 by (rewrite <- app_assoc; reflexivity). apply bytes_at_app in Hb1 as [Hb1 _]. exact Hb1. }
    cbn [flow_bind]. set (m2 := <[qp + Z.of_nat n := q0]> (wr m1 p0 (rl1 ++ [n1]))). assert (length (rl1 ++ [n1]) = S (S (length vl))) as Lr1 by (rewrite length_app; cbn [length]; lia).
    assert (frame m1 m2 p0 (dsize + 1) qp (Z.of_nat (S n))) as F2. { split; [intros a H1 H2; subst m2; rewrite lookup_insert_ne, wr_lookup, decide_False by lia; reflexivity|intros lo hi H; subst m2; apply mapped_insert, wr_mapped; exact H]. }
    pose proof (frame_trans _ _ _ _ _ _ _ F1 F2) as F12. pose proof F12 as [_ M12].
    destruct (IH m2 p0 rl1 n1 ltac:(lia) Fr1 Hrl1) as (m' & q & r & -> & F & Hq & Hbr & El & Lq & Lr' & Fr & Hltr & E');
      [apply insert_other; [apply wr_at|lia]|exact Hlt1|intros _; apply (M12 (p0 + dsize) (p0 + dsize + 1)); [intros a Ha; replace a with (p0 + dsize) by lia; exact Htop|lia]|apply (frame_at _ _ _ _ _ _ _ _ F12); [exact Hv|unfold apart; rewrite v_length; lia|unfold apart; rewrite v_length; lia]|intros _; unfold apart; lia|intros a Ha; apply (M12 _ _ Hm); lia|unfold apart; lia|lia|].
    exists m', (q ++ [q0]), r. split; [reflexivity|]. change (S n =? 0)%nat with false. cbv iota. split; [eapply frame_trans; [exact F12|eapply frame_weaken; [exact F|intros a; destruct (n =? 0)%nat; lia|intros a; lia]]|].
    split. { apply bytes_at_app. split; [exact Hq|]. rewrite El. apply (frame_at _ _ _ _ _ _ _ _ F); [apply bytes_at_cons; split; [apply lookup_insert_eq|intros i b Hi; discriminate]|unfold apart; cbn [length]; destruct (Nat.eqb_spec n 0); lia|unfold apart; cbn [length]; lia]. }
    split; [exact Hbr|]. rewrite length_app, El. split; [cbn [length]; lia|]. split; [apply Forall_app; auto|]. split; [exact Lr'|]. split; [exact Fr|]. split; [exact Hltr|].
    rewrite (lval_app A q), El. cbn [lval]. rewrite Nat2Z.inj_succ, Z.pow_succ_r by lia. set (P := B ^ Z.of_nat n) in *.
    transitivity (P * (lval A (rl ++ [n0]) * B + 0)); [ring|]. rewrite <- Ev, Ev1. transitivity (P * q0 * D + lval A (rl1 ++ [n1]) * P); [ring|]. rewrite E'. ring.
Qed.
End MoreLimbs.

(** * The whole division *)

(** What a division of [u] by [v] with [e] fraction limbs leaves in memory. *)
Definition divided (m m' : mem) (qp e np area : Z) (u v : list Z) (h : Z) : Prop :=
  exists q r, Z.of_nat (length q) = e + Z.of_nat (length u) - Z.of_nat (length v) /\ length r = length v /\ Forall (limb A) q /\ Forall (limb A) r /\
    bytes_at m' qp q /\ bytes_at m' np r /\ frame m m' np area qp (Z.of_nat (length q)) /\
    0 <= h <= 1 /\ lval A u * B ^ e = (h * B ^ Z.of_nat (length q) + lval A q) * lval A v + lval A r /\ lval A r < lval A v.

(** The high limb, the limbs of the numerator and the fraction limbs together. *)
Lemma combine_steps e nl l top qi qf h t t1 t2 d : 0 <= e -> 0 <= nl -> top = h * d + t -> t * B ^ nl + l = qi * d + t1 -> t1 * B ^ e = qf * d + t2 ->
  (l + B ^ nl * top) * B ^ e = (h * B ^ (e + nl) + (qf + B ^ e * qi)) * d + t2.
Proof.
  intros He Hn -> E1 E2. rewrite Z.pow_add_r by lia. transitivity (h * B ^ e * B ^ nl * d + (t * B ^ nl + l) * B ^ e); [ring|]. rewrite E1.
  transitivity (h * B ^ e * B ^ nl * d + B ^ e * qi * d + t1 * B ^ e); [ring|]. rewrite E2. ring.
Qed.

(** ** One limb *)

Lemma frac_1_spec {R} d n : normalized A d -> forall m qp t, 0 <= t < d -> mapped m qp (qp + Z.of_nat n) ->
  exists q t', @frac_1 R n m qp t d = Next (wr m qp q, t') /\ length q = n /\ Forall (limb A) q /\ 0 <= t' < d /\ t * B ^ Z.of_nat n = lval A q * d + t'.
Proof.
  intros Hd. induction n as [|n IH]; intros m qp t Ht Hm.
  - exists [], t. split; [reflexivity|]. split; [reflexivity|]. split; [constructor|]. split; [exact Ht|]. cbn [lval]. change (Z.of_nat 0) with 0. rewrite Z.pow_0_r. lia.
  - cbn [frac_1]. destruct (@udiv_qrnnd_spec A R t 0 d Hd Ht (limb_0 A)) as (q0 & t0 & -> & Lq & Ht0 & E0). cbn [flow_bind]. rewrite lstore_at by (apply Hm; lia). cbn [flow_bind].
    destruct (IH (<[qp + Z.of_nat n := q0]> m) qp t0 Ht0) as (q & t' & -> & El & Lq' & Ht' & E'); [apply mapped_insert; intros a Ha; apply Hm; lia|].
    exists (q ++ [q0]), t'. rewrite wr_app, wr_insert, El by lia. split; [reflexivity|]. rewrite length_app, El. split; [cbn [length]; lia|]. split; [apply Forall_app; auto|]. split; [exact Ht'|].
    rewrite lval_app, El. cbn [lval]. rewrite Nat2Z.inj_succ, Z.pow_succ_r by lia. set (P := B ^ Z.of_nat n) in *. transitivity (P * (t * B + 0)); [ring|]. rewrite E0. transitivity (P * q0 * d + t0 * P); [ring|]. rewrite E'. ring.
Qed.

Lemma divrem_1_spec {R} m qp e np dp u d : 0 <= e -> u <> [] -> Forall (limb A) u -> bytes_at m np u -> normalized A d -> bytes_at m dp [d] ->
  mapped m qp (qp + (e + Z.of_nat (length u) - 1)) -> qp + (e + Z.of_nat (length u) - 1) <= np \/ np + 1 <= qp ->
  exists m' h, @divrem_1 R m qp e np (Z.of_nat (length u)) dp = Next (m', h) /\ divided m m' qp e np (Z.of_nat (length u)) u [d] h.
Proof.
  intros He Hne Hu Hb Hd Hv Hm Hqp. pose proof (limb_base_gt A). pose proof Hd as [Ld Hn]. destruct (exists_last Hne) as (l & x & ->). rewrite length_app in *. cbn [length] in *.
  apply Forall_app in Hu as [Hl Hx]. inversion_clear Hx as [|? ? Lx _]. pose proof (bytes_at_mapped _ _ _ Hb) as Hmn. rewrite length_app in Hmn. cbn [length] in Hmn. apply bytes_at_app in Hb as [Hb Hx]. apply bytes_at_cons in Hx as [Hx _]. apply bytes_at_cons in Hv as [Hv _]. unfold limb in Lx, Ld.
  unfold divrem_1. rewrite (lload_at _ _ _ Hv). cbn [flow_bind]. replace (np + (Z.of_nat (length l + 1) - 1)) with (np + Z.of_nat (length l)) by lia. rewrite (lload_at _ _ _ Hx). cbn [flow_bind]. replace (Z.to_nat (Z.of_nat (length l + 1) - 1)) with (length l) by lia.
  assert (exists t h, (if d <=? x then (lw (x - d), 1) else (x, 0)) = (t, h) /\ 0 <= t < d /\ 0 <= h <= 1 /\ x = h * d + t) as (t & h & -> & Ht & Hh & Ex).
  { destruct (Z.leb_spec d x); [exists (x - d), 1; rewrite lw_small by (unfold limb; lia)|exists x, 0]; (split; [reflexivity|lia]). }
  destruct (plain_loop_spec A (R := R) (Some (qp + e)) (fun nh nl => udiv_qrnnd A nh nl d) d ltac:(intros; apply udiv_qrnnd_spec; assumption) l m np t Hl Hb Ht) as (qi & t1 & Ei & Li & Fi & Ht1 & E1); [split; [intros a Ha; apply Hm; lia|lia]|].
  cbn [dest_put dest_wr] in Ei. rewrite Ei. cbn [flow_bind]. destruct (@frac_1_spec R d (Z.to_nat e) Hd (wr m (qp + e) qi) qp t1 Ht1) as (qf & t2 & -> & Lf & Ff & Ht2 & E2); [apply wr_mapped; intros a Ha; apply Hm; lia|]. rewrite Z2Nat.id in E2 by lia.
  cbn [flow_bind]. rewrite lstore_at by (rewrite !wr_lookup, !decide_False by lia; apply Hmn; lia). cbn [flow_bind]. eexists _, h. split; [reflexivity|]. assert (Z.of_nat (length (qf ++ qi)) = e + Z.of_nat (length l)) as Lq by (rewrite length_app; lia).
  exists (qf ++ qi), [t2]. rewrite Lq, length_app. cbn [length]. split; [lia|]. split; [reflexivity|]. split; [apply Forall_app; auto|]. split; [forall_list; unfold limb; lia|].
  split. { apply insert_other; [|lia]. apply bytes_at_app. split; [apply wr_at|]. rewrite Lf, Z2Nat.id by lia. apply wr_off; [apply wr_at|unfold apart; lia]. }
  split; [apply bytes_at_cons; split; [apply lookup_insert_eq|intros i b Hi; discriminate]|].
  split. { split; [intros a Ha1 Ha2; rewrite lookup_insert_ne, !wr_lookup, !decide_False by lia; reflexivity|intros lo hi H2; apply mapped_insert, wr_mapped, wr_mapped; exact H2]. }
  split; [exact Hh|]. rewrite !lval_app, Lf, Z2Nat.id by lia. cbn [lval]. rewrite !Z.mul_0_r, !Z.add_0_r. split; [exact (combine_steps e (Z.of_nat (length l)) _ x _ _ h t t1 t2 d He (Nat2Z.is_nonneg _) Ex E1 E2)|lia].
Qed.

(** ** Two limbs *)

Lemma divrem_2_spec {R} m qp e np dp u d1 d0 : 0 <= e -> 2 <= Z.of_nat (length u) -> Forall (limb A) u -> bytes_at m np u -> normalized A d1 -> limb A d0 -> bytes_at m dp [d0; d1] ->
  mapped m qp (qp + (e + Z.of_nat (length u) - 2)) -> qp + (e + Z.of_nat (length u) - 2) <= np \/ np + 2 <= qp ->
  exists m' h, @divrem_2 R m qp e np (Z.of_nat (length u)) dp = Next (m', h) /\ divided m m' qp e np (Z.of_nat (length u)) u [d0; d1] h.
Proof.
  intros He Hne Hu Hb Hd Hd0 Hv Hm Hqp. pose proof (limb_base_gt A) as HB. pose proof Hd as [Ld Hn]. destruct (exists_last (l := u)) as (l' & n1 & ->); [intros ->; cbn [length] in Hne; lia|]. rewrite length_app in Hne. cbn [length] in Hne.
  destruct (exists_last (l := l')) as (l & n0 & ->); [intros ->; cbn [length] in Hne; lia|]. rewrite <- app_assoc in *. cbn [app] in *. rewrite length_app in *. cbn [length] in *.
  apply Forall_app in Hu as [Hl Hx]. inversion_clear Hx as [|? ? L0 Hx2]. inversion_clear Hx2 as [|? ? L1 _]. pose proof (bytes_at_mapped _ _ _ Hb) as Hmn. rewrite length_app in Hmn. cbn [length] in Hmn.
  apply bytes_at_app in Hb as [Hb Hx]. apply bytes_at_cons in Hx as [Hx0 Hx]. apply bytes_at_cons in Hx as [Hx1 _]. apply bytes_at_cons in Hv as [Hv0 Hv]. apply bytes_at_cons in Hv as [Hv1 _].
  unfold divrem_2. replace (np + (Z.of_nat (length l + 2) - 2)) with (np + Z.of_nat (length l)) by lia. rewrite (lload_at _ _ _ Hv1). cbn [flow_bind]. rewrite (lload_at _ _ _ Hv0). cbn [flow_bind]. rewrite (lload_at _ _ _ Hx1). cbn [flow_bind]. rewrite (lload_at _ _ _ Hx0). cbn [flow_bind].
  set (D := d1 * B + d0) in *. assert (exists t h, (if (d1 <=? n1) && ((d1 <? n1) || (d0 <=? n0)) then let '(n1, n0) := sub_ddmmss A n1 n0 d1 d0 in (n1, n0, 1) else (n1, n0, 0)) = (t / B, t mod B, h) /\ 0 <= t < D /\ 0 <= h <= 1 /\ n1 * B + n0 = h * D + t) as (t & h & -> & Ht & Hh & Ex).
  { unfold limb in *. assert (0 <= n1 * B + n0 < B * B) by (clear -L0 L1; nia). assert (B * B <= 2 * D) by (subst D; clear -Hn Hd0 HB; nia). assert ((d1 <=? n1) && ((d1 <? n1) || (d0 <=? n0)) = (D <=? n1 * B + n0)) as ->.
    { subst D. symmetry. destruct (Z.leb_spec d1 n1), (Z.ltb_spec d1 n1), (Z.leb_spec d0 n0); cbn [andb orb]; try lia; apply Z.leb_le || apply Z.leb_gt; clear -L0 L1 Hd0 Ld HB H1 H2 H3; nia. }
    destruct (Z.leb_spec D (n1 * B + n0)).
    - rewrite (sub_ddmmss_spec A n1 n0 d1 d0 (n1 * B + n0 - D) 0) by (unfold limb; subst D; lia). exists (n1 * B + n0 - D), 1. split; [reflexivity|]. lia.
    - exists (n1 * B + n0), 0. destruct (two_limbs A (n1 * B + n0) n1 n0 L0 eq_refl) as [E1 E2]. rewrite <- E1, <- E2. split; [reflexivity|]. lia. }
  replace (Z.to_nat (e + Z.of_nat (length l + 2) - 2)) with (Z.to_nat e + length l)%nat by lia.
  destruct (@loop_2_int R qp e d1 d0 He Hd Hd0 l m np t Hl Hb Ht) as (qi & t1 & -> & Li & Fi & Ht1 & E1); [intros a Ha; apply Hm; lia|lia|].
  destruct (@loop_2_frac R qp e d1 d0 Hd Hd0 (Z.to_nat e) (wr m (qp + e) qi) np t1) as (m2 & qf & t2 & -> & F2 & Hqf & Lf & Ff & Ht2 & E2); [lia|exact Ht1|apply (wr_mapped _ _ _ _ _ Hmn); lia|apply wr_mapped; intros a Ha; apply Hm; lia|lia|].
  rewrite Z2Nat.id in F2, E2 by lia. pose proof F2 as [_ M2]. cbn [flow_bind]. destruct (rem_limbs d1 d0 t2 Ld Hd0 Ht2) as (K1 & K2 & E3). pose proof (M2 _ _ (wr_mapped _ (qp + e) qi _ _ Hmn)) as Hmn2. rewrite lstore_at by (apply Hmn2; lia). cbn [flow_bind]. rewrite lstore_at by (apply mapped_insert with (lo := np) (hi := np + Z.of_nat (length l + 2)); [exact Hmn2|lia]). cbn [flow_bind].
  eexists _, h. split; [reflexivity|]. exists (qf ++ qi), [t2 mod B; t2 / B]. assert (Z.of_nat (length (qf ++ qi)) = e + Z.of_nat (length l)) as Lq by (rewrite length_app; lia). rewrite Lq, length_app. cbn [length]. split; [lia|]. split; [reflexivity|].
  split; [apply Forall_app; auto|]. split; [forall_list|].
  split. { apply insert_other; [|lia]. apply insert_other; [|lia]. apply bytes_at_app. split; [exact Hqf|]. rewrite Lf, Z2Nat.id by lia. apply (frame_at _ _ _ _ _ _ _ _ F2); [apply wr_at|unfold apart; lia|unfold apart; lia]. }
  split. { apply bytes_at_cons. split; [apply lookup_insert_eq|]. apply bytes_at_cons. split; [|intros i b Hi; discriminate]. rewrite lookup_insert_ne by lia. apply lookup_insert_eq. }
  split. { destruct F2 as [F2 _]. split; [intros a Ha1 Ha2; rewrite !lookup_insert_ne, F2, wr_lookup, decide_False by lia; reflexivity|intros lo hi H2; apply mapped_insert, mapped_insert, M2, wr_mapped; exact H2]. }
  split; [exact Hh|]. rewrite !lval_app, Lf, Z2Nat.id by lia. cbn [lval]. rewrite !Z.mul_0_r, !Z.add_0_r.
  replace (d0 + B * d1) with D by (subst D; ring). replace (n0 + B * n1) with (n1 * B + n0) by ring. replace (t2 mod B + B * (t2 / B)) with t2 by lia. split; [exact (combine_steps e (Z.of_nat (length l)) _ _ _ _ h t t1 t2 D He (Nat2Z.is_nonneg _) Ex E1 E2)|lia].
Qed.

(** ** More limbs *)

(** The high limb of the quotient: the divisor is subtracted at most once. *)
Lemma high_limb_spec {R} m np dp vl d1 dX tl n0 : normalized A dX -> Forall (limb A) (vl ++ [d1; dX]) -> Forall (limb A) (tl ++ [n0]) -> length tl = S (length vl) ->
  bytes_at m np (tl ++ [n0]) -> bytes_at m dp (vl ++ [d1; dX]) -> apart np (Z.of_nat (length vl) + 2) dp (Z.of_nat (length vl) + 2) ->
  let dsize := Z.of_nat (length vl) + 2 in
  exists rl n' h,
    (if dX <=? n0 then
       let! c := (if dX <? n0 then Next 1 else mpn_cmp m np dp (dsize - 1)) in
       if 0 <=? c then
         let! '(m, _) := mpn_sub_n A m np np dp dsize in
         let! n0 := lload m (np + (dsize - 1)) in
         @Next R _ (m, n0, 1)
       else Next (m, n0, 0)
     else Next (m, n0, 0)) = Next (wr m np (rl ++ [n']), n', h) /\
    length rl = S (length vl) /\ Forall (limb A) (rl ++ [n']) /\ 0 <= h <= 1 /\ lval A (rl ++ [n']) < lval A (vl ++ [d1; dX]) /\
    lval A (tl ++ [n0]) = h * lval A (vl ++ [d1; dX]) + lval A (rl ++ [n']).
Proof.
  intros Hn Hv Ht Htl Hb Hbv Hap dsize. pose proof (limb_base_gt A) as HB. assert (vl ++ [d1; dX] = (vl ++ [d1]) ++ [dX]) as Ev by (rewrite <- app_assoc; reflexivity).
  assert (Z.of_nat (length (vl ++ [d1; dX])) = dsize) as Lv by (rewrite length_app; cbn [length]; lia). rewrite Ev in *. set (v1 := vl ++ [d1]) in *. assert (length v1 = length tl) as L1 by (subst v1; rewrite length_app; cbn [length]; lia). clearbody v1.
  apply Forall_app in Hv as Hv'. destruct Hv' as [Fv1 FX]. inversion_clear FX as [|? ? LX _]. apply Forall_app in Ht as Ht'. destruct Ht' as [Ftl F0]. inversion_clear F0 as [|? ? L0 _].
  pose proof (lval_bound A v1 Fv1) as K1. pose proof (lval_bound A tl Ftl) as K2. rewrite L1 in K1. set (P := B ^ Z.of_nat (length tl)) in *. assert (0 < P) as HP by (apply Z.pow_pos_nonneg; lia). pose proof Hn as [_ HnX].
  assert (lval A (v1 ++ [dX]) = lval A v1 + P * dX) as EV by (rewrite lval_app, L1; cbn [lval]; fold P; ring). assert (lval A (tl ++ [n0]) = lval A tl + P * n0) as ET by (rewrite lval_app; cbn [lval]; fold P; ring).
  assert (lval A (tl ++ [n0]) < lval A (v1 ++ [dX]) -> exists rl n' h, Next (m, n0, 0) = @Next R _ (wr m np (rl ++ [n']), n', h) /\ length rl = S (length vl) /\ Forall (limb A) (rl ++ [n']) /\ 0 <= h <= 1 /\
    lval A (rl ++ [n']) < lval A (v1 ++ [dX]) /\ lval A (tl ++ [n0]) = h * lval A (v1 ++ [dX]) + lval A (rl ++ [n'])) as Hno by (intros Hlt; exists tl, n0, 0; rewrite wr_same by exact Hb; split; [reflexivity|]; split; [exact Htl|]; split; [exact Ht|]; lia).
  unfold limb in LX, L0. destruct (Z.leb_spec dX n0) as [Hge|Hlt]; [|apply Hno; rewrite EV, ET; assert (P * (n0 + 1) <= P * dX) by (apply Z.mul_le_mono_nonneg_l; lia); lia].
  assert (exists c, (if dX <? n0 then Next 1 else mpn_cmp m np dp (dsize - 1)) = @Next R _ c /\ (0 <= c <-> lval A (v1 ++ [dX]) <= lval A (tl ++ [n0]))) as (c & -> & Hc).
  { rewrite EV, ET. destruct (Z.ltb_spec dX n0) as [Hgt|Heq].
    - exists 1. split; [reflexivity|]. assert (P * (dX + 1) <= P * n0) by (apply Z.mul_le_mono_nonneg_l; lia). lia.
    - replace n0 with dX by lia. unfold mpn_cmp. replace (Z.to_nat (dsize - 1)) with (length tl) by lia. apply bytes_at_app in Hb as [Hb _]. apply bytes_at_app in Hbv as [Hbv _]. rewrite (cmp_spec A tl v1) by auto.
      eexists. split; [reflexivity|]. destruct (Z.sgn_spec (lval A tl - lval A v1)) as [[? ->]|[[? ->]|[? ->]]]; lia. }
  cbn [flow_bind]. destruct (Z.leb_spec 0 c) as [Hc0|Hc0]; [|apply Hno; lia]. assert (lval A (v1 ++ [dX]) <= lval A (tl ++ [n0])) as Hle by (apply Hc; exact Hc0).
  assert (Z.of_nat (length (tl ++ [n0])) = dsize) as Lt by (rewrite length_app; cbn [length]; lia). unfold apart in Hap.
  destruct (@sub_n_spec A R m np np dp dsize (tl ++ [n0]) (v1 ++ [dX]) ltac:(lia) Lt Lv Ht Hv Hb ltac:(rewrite <- Lt; apply bytes_at_mapped; exact Hb) (reads_ahead_self _ _) Hbv ltac:(unfold reads_ahead; lia)) as (r & cy & -> & Hlr & Fr & Hcy & Er).
  cbn [flow_bind]. pose proof (lval_bound A r Fr) as Kr. rewrite Hlr in Kr. assert (B ^ dsize = B * P) as EP by (subst P; replace dsize with (Z.succ (Z.of_nat (length tl))) by lia; rewrite Z.pow_succ_r by lia; reflexivity). rewrite EP in *. unfold is_carry in Hcy.
  assert (0 < B * P) by (apply Z.mul_pos_pos; lia). assert (cy = 0) as -> by (destruct (Z.eq_dec cy 0); [assumption|]; assert (cy = 1) by lia; subst cy; pose proof (lval_bound A _ Ht); lia).
  destruct (exists_last (l := r)) as (rl & n' & ->); [intros ->; cbn [length] in Hlr; lia|]. rewrite length_app in Hlr. cbn [length] in Hlr. assert (length rl = S (length vl)) as Lrl by lia.
  rewrite (lload_at _ _ n'); [|rewrite wr_lookup, decide_True by (rewrite length_app; cbn [length]; lia); replace (Z.to_nat _) with (length rl) by lia; rewrite lookup_app_r, Nat.sub_diag by lia; reflexivity].
  cbn [flow_bind]. exists rl, n', 1. split; [reflexivity|]. split; [exact Lrl|]. split; [exact Fr|]. split; [lia|]. split; [|lia].
  assert (lval A (tl ++ [n0]) < B * P) by (pose proof (lval_bound A _ Ht) as K; rewrite Lt, EP in K; lia). assert (B * P <= 2 * (P * dX)) by (clear -HnX HP; nia). lia.
Qed.

Lemma divrem_n_spec {R} m qp e np dp u vl d1 dX : 0 <= e -> (length vl + 2 <= length u)%nat -> Forall (limb A) u -> bytes_at m np u -> normalized A dX -> Forall (limb A) (vl ++ [d1; dX]) -> bytes_at m dp (vl ++ [d1; dX]) ->
  let dsize := Z.of_nat (length vl) + 2 in let nsize := Z.of_nat (length u) in let area := if 0 <? e then Z.max nsize (dsize + 1) else nsize in
  mapped m np (np + area) -> apart np area dp dsize -> mapped m qp (qp + (e + nsize - dsize)) -> apart qp (e + nsize - dsize) dp dsize -> qp + (e + nsize - dsize) <= np \/ np + dsize <= qp ->
  exists m' h, @divrem_n R m qp e np nsize dp dsize = Next (m', h) /\ divided m m' qp e np area u (vl ++ [d1; dX]) h.
Proof.
  intros He Hlen Hu Hb Hn Hv Hbv dsize nsize area Hmn Hap Hm Hqd Hqp. pose proof (limb_base_gt A) as HB. assert (nsize <= area) as Harea by (subst area; destruct (0 <? e); lia). unfold apart in Hap, Hqd.
  destruct (split_front u (length u - (length vl + 2)) ltac:(lia)) as (l & top & -> & Ll). rewrite length_app in *. assert (length top = S (S (length vl))) as Lt by lia.
  destruct (exists_last (l := top)) as (tl & n0 & ->); [intros ->; discriminate|]. rewrite length_app in Lt. cbn [length] in Lt. assert (length tl = S (length vl)) as Ltl by lia.
  apply Forall_app in Hu as [Fl Ft]. apply bytes_at_app in Hb as [Hbl Hbt]. assert (nsize = Z.of_nat (length l) + dsize) as En by (subst nsize dsize; rewrite !length_app; cbn [length]; lia). clearbody nsize. set (v := vl ++ [d1; dX]) in *.
  assert (Z.of_nat (length v) = dsize) as Lv by (subst v; rewrite length_app; cbn [length]; lia).
  unfold divrem_n. replace (np + (nsize - dsize)) with (np + Z.of_nat (length l)) by lia. set (p := np + Z.of_nat (length l)) in *.
  assert (m !! (dp + (dsize - 1)) = Some dX) as HX by (replace (dp + (dsize - 1)) with (dp + Z.of_nat (S (length vl))) by lia; apply Hbv; subst v; rewrite lookup_app_r by lia; replace (S (length vl) - length vl)%nat with 1%nat by lia; reflexivity).
  assert (m !! (dp + (dsize - 2)) = Some d1) as H1 by (replace (dp + (dsize - 2)) with (dp + Z.of_nat (length vl)) by lia; apply Hbv; subst v; rewrite lookup_app_r, Nat.sub_diag by lia; reflexivity).
  assert (m !! (p + (dsize - 1)) = Some n0) as H0 by (replace (p + (dsize - 1)) with (p + Z.of_nat (length tl)) by lia; apply Hbt; rewrite lookup_app_r, Nat.sub_diag by lia; reflexivity).
  rewrite (lload_at _ _ _ HX). cbn [flow_bind]. rewrite (lload_at _ _ _ H1). cbn [flow_bind]. rewrite (lload_at _ _ _ H0). cbn [flow_bind].
  destruct (@high_limb_spec R m p dp vl d1 dX tl n0 Hn Hv Ft Ltl Hbt Hbv ltac:(unfold apart; lia)) as (rl & n' & h & Eh & Lrl & Fr & Hh & Hlt & Etop). fold dsize in Eh. rewrite Eh. cbn [flow_bind]. fold v in Hlt, Etop.
  set (m1 := wr m p (rl ++ [n'])) in *. assert (Z.of_nat (length (rl ++ [n'])) = dsize) as Lr by (rewrite length_app; cbn [length]; lia). assert (frame m m1 np area qp (e + Z.of_nat (length l))) as F1 by (apply frame_wr_in; lia). pose proof F1 as [_ M1].
  replace (Z.to_nat (e + nsize - dsize)) with (Z.to_nat e + length l)%nat by lia.
  destruct (@loop_n_int R qp e dp dX d1 vl He Hn Hv l m1 np rl n' Fl Fr Lrl) as (m2 & qi & rl2 & n2 & Ei & F2 & Hqi & Hr2 & Li & Fi & Lrl2 & Fr2 & Hlt2 & E1);
    [apply bytes_at_app; split; [apply wr_off; [exact Hbl|unfold apart; lia]|apply wr_at]|exact Hlt|apply wr_off; [exact Hbv|unfold apart; fold v; lia]|unfold apart; lia|intros a Ha; apply (M1 _ _ Hm); lia|unfold apart; lia|lia|].
  fold dsize p v in Ei, F2, E1, Hlt2. rewrite Ei. pose proof F2 as [_ M2].
  assert (is_Some (m !! (np + dsize)) -> is_Some (m2 !! (np + dsize))) as Htop by (intros Hs; apply (M2 (np + dsize) (np + dsize + 1)); [|lia]; apply M1; intros a Ha; replace a with (np + dsize) by lia; exact Hs).
  destruct (@loop_n_frac R qp e dp dX d1 vl Hn Hv (Z.to_nat e) m2 np rl2 n2) as (m3 & qf & r & Ef & F3 & Hqf & Hr & Lf & Ff & Lr3 & Fr3 & Hlt3 & E2);
    [lia|exact Fr2|exact Lrl2|exact Hr2|exact Hlt2|intros Hne; apply Htop, Hmn; subst area; rewrite (proj2 (Z.ltb_lt 0 e)) by lia; lia| | |intros a Ha; apply (M2 _ _ (M1 _ _ Hm)); lia|unfold apart; lia|lia|].
  { fold v. apply (frame_at _ _ _ _ _ _ _ _ F2); [apply wr_off; [exact Hbv|unfold apart; lia]|unfold apart; lia|unfold apart; lia]. }
  { intros Hne. unfold apart. subst area. rewrite (proj2 (Z.ltb_lt 0 e)) in * by lia. lia. }
  fold dsize v in Ef, F3, Lr3, Hlt3, E2. rewrite Ef. cbn [flow_bind]. rewrite Z2Nat.id in F3, E2 by lia. exists m3, h. split; [reflexivity|]. set (a3 := if (Z.to_nat e =? 0)%nat then 0 else dsize + 1) in *.
  assert (a3 <= area /\ (a3 = 0 \/ a3 = dsize + 1 /\ 0 < e)) as Ha3 by (subst a3 area; destruct (Nat.eqb_spec (Z.to_nat e) 0), (Z.ltb_spec 0 e); lia). clearbody a3.
  assert (Z.of_nat (length (qf ++ qi)) = e + Z.of_nat (length l)) as Lq by (rewrite length_app; lia).
  exists (qf ++ qi), r. rewrite Lq, !length_app. cbn [length]. split; [lia|]. split; [lia|]. split; [apply Forall_app; auto|]. split; [exact Fr3|].
  split. { apply bytes_at_app. split; [exact Hqf|]. rewrite Lf, Z2Nat.id by lia. apply (frame_at _ _ _ _ _ _ _ _ F3); [exact Hqi|unfold apart; lia|unfold apart; lia]. }
  split; [exact Hr|]. split. { eapply frame_trans; [exact F1|]. eapply frame_trans; [eapply frame_weaken; [exact F2|intros a; lia|intros a; lia]|eapply frame_weaken; [exact F3|intros a; lia|intros a; lia]]. }
  split; [exact Hh|]. rewrite (lval_app A l), (lval_app A qf), Lf, Z2Nat.id by lia. split; [exact (combine_steps e (Z.of_nat (length l)) _ _ _ _ h _ _ _ (lval A v) He (Nat2Z.is_nonneg _) Etop E1 E2)|exact Hlt3].
Qed.

End Divrem.

(** The three cases together.  With fraction limbs and a divisor of three limbs or more the limb behind the remainder is written too, which is
    a limb of the numerator unless that is as short as the divisor. *)
Lemma mpn_divrem_spec A (R : Type) m qp e np dp u vlow dtop :
  let v := vlow ++ [dtop] in let nsize := Z.of_nat (length u) in let dsize := Z.of_nat (length v) in let qsize := e + nsize - dsize in let area := if (0 <? e) && (2 <? dsize) then Z.max nsize (dsize + 1) else nsize in
  0 <= e -> dsize <= nsize -> Forall (limb A) u -> Forall (limb A) v -> limb_base A <= 2 * dtop -> bytes_at m np u -> bytes_at m dp v ->
  mapped m np (np + area) -> mapped m qp (qp + qsize) -> apart np area dp dsize -> apart qp qsize dp dsize -> qp + qsize <= np \/ np + dsize <= qp ->
  exists m' h, @mpn_divrem A R m qp e np nsize dp dsize = Next (m', h) /\ divided A m m' qp e np area u v h.
Proof.
  intros v nsize dsize qsize area He Hle Hu Hv Hn Hb Hbv Hmn Hm Hap Hqd Hqp. assert (normalized A dtop) as Hnd by (apply Forall_app in Hv as [_ Hv]; inversion_clear Hv; split; assumption).
  unfold mpn_divrem. destruct vlow as [|d0 vlow _] using rev_ind; [|destruct vlow as [|x vlow]].
  - cbn [app] in v. change dsize with 1. change (1 =? 0) with false. change (1 =? 1) with true. cbv iota. replace area with nsize by (subst area; change (2 <? dsize) with false; rewrite andb_false_r; reflexivity).
    apply divrem_1_spec; try assumption. intros ->. subst nsize dsize. cbn [length v app] in Hle. lia.
  - cbn [app] in v. change dsize with 2. change (2 =? 0) with false. change (2 =? 1) with false. change (2 =? 2) with true. cbv iota. replace area with nsize by (subst area; change (2 <? dsize) with false; rewrite andb_false_r; reflexivity).
    apply Forall_inv in Hv. apply divrem_2_spec; assumption.
  - assert (v = (x :: vlow) ++ [d0; dtop]) as E by (subst v; rewrite <- app_assoc; reflexivity). clearbody v. subst v. assert (dsize = Z.of_nat (length (x :: vlow)) + 2) as Ed by (subst dsize; rewrite length_app; cbn [length]; lia).
    rewrite !(proj2 (Z.eqb_neq dsize _)) by (cbn [length] in Ed; lia). subst area qsize. rewrite (proj2 (Z.ltb_lt 2 dsize)), andb_true_r in * by (cbn [length] in Ed; lia). clearbody dsize. subst dsize. apply divrem_n_spec; try assumption. lia.
Qed.

(** * Properties *)

(** C3: for a numerator of any size that is not below that of the divisor, a divisor
    whose most significant bit is set, and any number of fraction limbs (with a divisor of three limbs or
    more and fraction limbs the numerator must be longer than the divisor: otherwise the code writes behind it, see
    [divrem_frac_overrun]), mpn_divrem returns, in each of its three cases, and leaves the
    exact quotient and remainder: the limbs of the quotient at QP with its most significant limb, 0 or 1, as the result,
    the remainder at NP.  Nothing changes but the quotient and the numerator.  The quotient may be anywhere apart from
    the operands, or in the numerator behind the remainder. *)
Theorem mpn_divrem_correct A (R : Type) m qp e np dp u vlow dtop :
  let v := vlow ++ [dtop] in let nsize := Z.of_nat (length u) in let dsize := Z.of_nat (length v) in let qsize := e + nsize - dsize in
  0 <= e -> dsize <= nsize -> e = 0 \/ dsize <= 2 \/ dsize < nsize ->
  Forall (limb A) u -> Forall (limb A) v -> limb_base A <= 2 * dtop -> bytes_at m np u -> bytes_at m dp v ->
  mapped m qp (qp + qsize) -> apart np nsize dp dsize -> apart qp qsize dp dsize -> qp + qsize <= np \/ np + dsize <= qp ->
  exists m' h q r, @mpn_divrem A R m qp e np nsize dp dsize = Next (m', h) /\ bytes_at m' qp q /\ bytes_at m' np r /\
    Z.of_nat (length q) = qsize /\ Z.of_nat (length r) = dsize /\ Forall (limb A) (q ++ r) /\ 0 <= h <= 1 /\
    h * limb_base A ^ qsize + lval A q = lval A u * limb_base A ^ e / lval A v /\ lval A r = (lval A u * limb_base A ^ e) mod lval A v /\
    frame m m' np nsize qp qsize.
Proof.
  intros v nsize dsize qsize He Hle Hside Hu Hv Hn Hb Hbv Hm Hap Hqd Hqp. pose proof (mpn_divrem_spec A R m qp e np dp u vlow dtop) as H. cbv zeta in H. fold v nsize dsize qsize in H.
  replace (if (0 <? e) && (2 <? dsize) then Z.max nsize (dsize + 1) else nsize) with nsize in H by (destruct (Z.ltb_spec 0 e), (Z.ltb_spec 2 dsize); cbn [andb]; lia).
  destruct H as (m' & h & E & q & r & Lq & Lr & Fq & Fr & Hq & Hr & F & Hh & Ev & Hlt); try assumption; [apply bytes_at_mapped; exact Hb|].
  exists m', h, q, r. assert (Z.of_nat (length q) = qsize) as Lq' by exact Lq. rewrite Lq' in *. pose proof (lval_bound A r Fr). destruct (div_mod_eq (lval A u * limb_base A ^ e) (lval A v) (h * limb_base A ^ qsize + lval A q) (lval A r)) as [E1 E2]; [lia|exact Ev|].
  split; [exact E|]. split; [exact Hq|]. split; [exact Hr|]. split; [reflexivity|]. split; [subst dsize; lia|]. split; [apply Forall_app; auto|]. auto.
Qed.

(** The comment of the source admits a quotient with QP + DSIZE >= NP; that the quotient is behind the remainder is QP >= NP + DSIZE. At QP = NP it is wrong. *)
Lemma divrem_comment_overlap :
  let A := Arch false false in let u := [1; 2; 3; 4; 5; 2 ^ 31 + 6] in let v := [1; 2 ^ 32 - 1; 2 ^ 31] in
  exists m' h q, @mpn_divrem A unit (mem_of 100 (u ++ repeat 0 10 ++ v)) 100 0 100 6 116 3 = Next (m', h) /\ bytes_at m' 100 q /\ length q = 3%nat /\ h * limb_base A ^ 3 + lval A q <> lval A u / lval A v.
Proof.
  intros A u v. set (res := @mpn_divrem A unit (mem_of 100 (u ++ repeat 0 10 ++ v)) 100 0 100 6 116 3). set (q := match res with Next (m', _) => match @load_bytes unit m' 100 3 with Next l => l | _ => [] end | _ => [] end).
  assert (match res with Next (m', h) => (@load_bytes unit m' 100 3 = Next q) /\ length q = 3%nat /\ h * limb_base A ^ 3 + lval A q <> lval A u / lval A v | _ => False end) as H by (vm_compute; split; [reflexivity|]; split; [reflexivity|discriminate]).
  destruct res as [[m' h]| | |]; try contradiction. destruct H as (E & L & Hne). exists m', h, q. split; [reflexivity|]. split; [|auto]. clear Hne. revert E L. generalize q. intros l E L.
  destruct l as [|x0 [|x1 [|x2 [|]]]]; try discriminate L. cbn [load_bytes] in E. unfold load8 in E.
  destruct (m' !! 100) as [y0|] eqn:E0; cbn [flow_bind] in E; [|discriminate]. destruct (m' !! (100 + 1)) as [y1|] eqn:E1; cbn [flow_bind] in E; [|discriminate]. destruct (m' !! (100 + 1 + 1)) as [y2|] eqn:E2; cbn [flow_bind] in E; [|discriminate]. injection E as -> -> ->.
  apply bytes_at_cons. split; [exact E0|]. apply bytes_at_cons. split; [exact E1|]. apply bytes_at_cons. split; [exact E2|]. intros i b Hi. discriminate.
Qed.

(** A fraction of a number as long as a divisor of three limbs or more is written behind the numerator: unless the memory goes on there, the access faults, for
    every number of fraction limbs. *)
Lemma divrem_frac_overrun A (R : Type) m qp e np dp u vl d1 dX :
  let v := vl ++ [d1; dX] in let dsize := Z.of_nat (length v) in
  0 < e -> vl <> [] -> length u = length v -> Forall (limb A) u -> Forall (limb A) v -> limb_base A <= 2 * dX -> bytes_at m np u -> bytes_at m dp v ->
  apart np dsize dp dsize -> m !! (np + dsize) = None -> @mpn_divrem A R m qp e np dsize dp dsize = Fault.
Proof.
  intros v dsize He Hvl Hlen Hu Hv Hn Hb Hbv Hap Hout. assert (dsize = Z.of_nat (length vl) + 2) as Ed by (subst dsize v; rewrite length_app; cbn [length]; lia).
  assert (length vl <> 0%nat) as Hvl0 by (destruct vl; [congruence|discriminate]). assert (normalized A dX) as HnX by (apply Forall_app in Hv as [_ Hv]; inversion_clear Hv as [|? ? _ Hv2]; inversion_clear Hv2; split; assumption).
  destruct (exists_last (l := u)) as (tl & n0 & ->); [intros ->; cbn [length] in *; subst dsize; lia|]. rewrite length_app in Hlen. cbn [length] in Hlen. assert (length tl = S (length vl)) as Ltl by (subst dsize; lia).
  destruct (@high_limb_spec A R m np dp vl d1 dX tl n0 HnX Hv Hu Ltl Hb Hbv ltac:(rewrite <- Ed; exact Hap)) as (rl & n' & h & Eh & Lrl & Fr & _). rewrite <- Ed in Eh.
  unfold mpn_divrem. rewrite !(proj2 (Z.eqb_neq dsize _)) by lia. unfold divrem_n. rewrite Z.sub_diag, Z.add_0_r.
  rewrite (lload_at _ _ dX) by (replace (dp + (dsize - 1)) with (dp + Z.of_nat (S (length vl))) by lia; apply Hbv; subst v; rewrite lookup_app_r by lia; replace (S (length vl) - length vl)%nat with 1%nat by lia; reflexivity). cbn [flow_bind].
  rewrite (lload_at _ _ d1) by (replace (dp + (dsize - 2)) with (dp + Z.of_nat (length vl)) by lia; apply Hbv; subst v; rewrite lookup_app_r, Nat.sub_diag by lia; reflexivity). cbn [flow_bind].
  rewrite (lload_at _ _ n0) by (replace (np + (dsize - 1)) with (np + Z.of_nat (length tl)) by lia; apply Hb; rewrite lookup_app_r, Nat.sub_diag by lia; reflexivity). cbn [flow_bind].
  rewrite Eh. cbn [flow_bind]. replace (Z.to_nat (e + dsize - dsize)) with (S (Z.to_nat (e - 1))) by lia. cbn [loop_n]. rewrite (proj2 (Z.leb_gt e _)) by lia.
  assert (wr m np (rl ++ [n']) !! (np + (dsize - 1)) = Some n') as Hl by (rewrite wr_lookup, decide_True by (rewrite length_app; cbn [length]; lia); replace (Z.to_nat _) with (length rl) by lia; rewrite lookup_app_r, Nat.sub_diag by lia; reflexivity).
  rewrite (lload_at _ _ _ Hl). cbn [flow_bind]. replace (Z.to_nat dsize) with (S (S (length vl))) by lia. cbn [MPN_COPY_DECR]. replace (np + Z.of_nat (S (length vl))) with (np + (dsize - 1)) by lia. rewrite (lload_at _ _ _ Hl). cbn [flow_bind].
  unfold lstore. replace (np + 1 + Z.of_nat (S (length vl))) with (np + dsize) by lia. rewrite wr_lookup, decide_False, Hout by (rewrite length_app; cbn [length]; lia). reflexivity.
Qed.

(** With one fraction limb, the quotient behind the divisor. *)
Definition divrem_u : list Z := [5; 2 ^ 32 - 1; 2 ^ 32 - 1; 0; 2 ^ 31].
Definition divrem_m : mem := mem_of 100 (divrem_u ++ [2 ^ 32 - 1; 2 ^ 31 - 1; 2 ^ 31; 0; 0; 0]).

Lemma mpn_divrem_witness :
  exists m' h q r, @mpn_divrem (Arch false false) unit divrem_m 108 1 100 5 105 3 = Next (m', h) /\ bytes_at m' 108 q /\ bytes_at m' 100 r /\
    Z.of_nat (length q) = 3 /\ Z.of_nat (length r) = 3 /\ Forall (limb (Arch false false)) (q ++ r) /\ 0 <= h <= 1 /\
    h * limb_base (Arch false false) ^ 3 + lval (Arch false false) q = lval (Arch false false) divrem_u * limb_base (Arch false false) ^ 1 / lval (Arch false false) [2 ^ 32 - 1; 2 ^ 31 - 1; 2 ^ 31] /\
    lval (Arch false false) r = (lval (Arch false false) divrem_u * limb_base (Arch false false) ^ 1) mod lval (Arch false false) [2 ^ 32 - 1; 2 ^ 31 - 1; 2 ^ 31] /\
    frame divrem_m m' 100 5 108 3.
Proof.
  apply (mpn_divrem_correct (Arch false false) unit divrem_m 108 1 100 105 divrem_u [2 ^ 32 - 1; 2 ^ 31 - 1] (2 ^ 31)).
  - lia.
  - vm_compute. discriminate.
  - right. right. reflexivity.
  - forall_list; split; reflexivity || (vm_compute; discriminate).
  - forall_list; split; reflexivity || (vm_compute; discriminate).
  - vm_compute. discriminate.
  - apply mem_of_at; [lia|reflexivity].
  - apply mem_of_at; [lia|reflexivity].
  - apply mem_of_mapped; vm_compute; discriminate.
  - left. vm_compute. discriminate.
  - right. vm_compute. discriminate.
  - right. vm_compute. discriminate.
Defined.
