(* ===== verification/SortSpec.v ===== *)
(** What sorting promises: the result is a permutation of the input, sorted, and stable
    (elements that compare equal keep their order).  The list function [msort_list] halves
    and merges as stdlib/msort.c does, and is proved to keep the promise for any
    comparison that is a total preorder. *)
From stdpp Require Import sorting.
From S2P Require Import Prelude.

(** [l'] is [l] sorted by [le], stably. *)
Record sorts {X} (le : X -> X -> Prop) `{!RelDecision le} (l l' : list X) : Prop := {
  sorts_perm : l' ≡ₚ l;
  sorts_sorted : StronglySorted le l';
  sorts_stable : forall x, filter (fun y => le x y /\ le y x) l' = filter (fun y => le x y /\ le y x) l
}.

Section Msort.
Context {X : Type} (le : X -> X -> Prop) `{!RelDecision le}.

Fixpoint msort_list (fuel : nat) (l : list X) : list X :=
  match fuel with
  | O => l
  | S fuel =>
      if (length l <=? 1)%nat then l
      else let n1 := (length l / 2)%nat in list_merge le (msort_list fuel (take n1 l)) (msort_list fuel (drop n1 l))
  end.

Lemma list_merge_cons x1 l1 x2 l2 :
  list_merge le (x1 :: l1) (x2 :: l2) =
  if decide (le x1 x2) then x1 :: list_merge le l1 (x2 :: l2) else x2 :: list_merge le (x1 :: l1) l2.
Proof. reflexivity. Qed.

Lemma list_merge_nil_r l : list_merge le l [] = l.
Proof. destruct l; reflexivity. Qed.

Lemma msort_list_perm fuel l : msort_list fuel l ≡ₚ l.
Proof.
  revert l. induction fuel as [|fuel IH]; intros l; [reflexivity|]. cbn [msort_list].
  destruct (length l <=? 1)%nat; [reflexivity|]. cbv zeta.
  rewrite merge_Permutation, !IH, take_drop. reflexivity.
Qed.

Lemma length_msort_list fuel l : length (msort_list fuel l) = length l.
Proof. apply Permutation_length, msort_list_perm. Qed.

Context `{!Total le, !Transitive le}.

Lemma list_merge_sorted l1 l2 : StronglySorted le l1 -> StronglySorted le l2 -> StronglySorted le (list_merge le l1 l2).
Proof.
  intros H1 H2. apply Sorted_StronglySorted; [intros x y z; apply transitivity|]. apply StronglySorted_Sorted in H1, H2. apply Sorted_list_merge; assumption.
Qed.

(** A merge keeps the order inside each class of equal elements, the first list's first. *)
Lemma list_merge_stable x l1 l2 :
  StronglySorted le l1 ->
  filter (fun y => le x y /\ le y x) (list_merge le l1 l2) =
  filter (fun y => le x y /\ le y x) l1 ++ filter (fun y => le x y /\ le y x) l2.
Proof.
  intros H1. set (P := fun y => le x y /\ le y x). revert l2. induction H1 as [|x1 l1 H1 IH1 Hall]; intros l2; [destruct l2; reflexivity|].
  induction l2 as [|x2 l2 IH2]; [rewrite list_merge_nil_r, app_nil_r; reflexivity|].
  rewrite list_merge_cons. destruct (decide (le x1 x2)) as [Hle|Hn].
  - rewrite !(filter_cons P x1), IH1. destruct (decide (P x1)); reflexivity.
  - rewrite !(filter_cons P x2), IH2. destruct (decide (P x2)) as [[Hx2 H2x]|]; [|reflexivity].
    assert (filter P (x1 :: l1) = []) as ->; [|reflexivity].
    assert (forall y, le x1 y -> ~ P y) as Hno by (intros y Hy [_ Hyx]; apply Hn; transitivity x; [transitivity y|]; assumption).
    rewrite filter_cons, decide_False by (apply Hno; destruct (total le x1 x1); assumption).
    clear -Hall Hno. induction Hall as [|y l1 Hy _ IH]; [reflexivity|]. rewrite filter_cons, decide_False by (apply Hno; assumption). exact IH.
Qed.

Lemma msort_list_sorts fuel l : (length l <= fuel)%nat -> sorts le l (msort_list fuel l).
Proof.
  revert l. induction fuel as [|fuel IH]; intros l Hf.
  - destruct l; [|simpl in Hf; lia]. split; [reflexivity|constructor|reflexivity].
  - cbn [msort_list]. destruct (Nat.leb_spec (length l) 1) as [Hle|Hgt].
    + split; [reflexivity| |reflexivity]. destruct l as [|x [|y l]]; [repeat constructor..|simpl in Hle; lia].
    + cbv zeta. pose proof (Nat.div_mod (length l) 2 ltac:(lia)) as E. pose proof (Nat.mod_upper_bound (length l) 2 ltac:(lia)).
      destruct (IH (take (length l / 2) l)) as [P1 S1 T1]; [rewrite length_take; lia|].
      destruct (IH (drop (length l / 2) l)) as [P2 S2 T2]; [rewrite length_drop; lia|]. split.
      * rewrite merge_Permutation, P1, P2, take_drop. reflexivity.
      * apply list_merge_sorted; assumption.
      * intros x. rewrite list_merge_stable, T1, T2, <- filter_app, take_drop by assumption. reflexivity.
Qed.
End Msort.

(** Sorting names of elements by the elements they name sorts the elements. *)
Section Map.
Context {X Y : Type} (f : Y -> X) (le : X -> X -> Prop) `{!RelDecision le}.
Context (le' : Y -> Y -> Prop) `{!RelDecision le'} (ok : Y -> Prop).
Hypothesis le_le' : forall a b, ok a -> ok b -> (le' a b <-> le (f a) (f b)).

Lemma list_merge_map l1 l2 : Forall ok l1 -> Forall ok l2 -> map f (list_merge le' l1 l2) = list_merge le (map f l1) (map f l2).
Proof.
  intros H1. revert l2. induction H1 as [|x1 l1 Hx1 H1 IH1]; intros l2 H2; [destruct l2; reflexivity|].
  induction H2 as [|x2 l2 Hx2 H2 IH2]; [reflexivity|]. cbn [map]. rewrite !list_merge_cons.
  destruct (decide (le' x1 x2)) as [Hle|Hn].
  - rewrite decide_True by (apply le_le'; assumption). cbn [map]. rewrite IH1 by (constructor; assumption). reflexivity.
  - rewrite decide_False by (rewrite <- le_le' by assumption; assumption). cbn [map]. f_equal. exact IH2.
Qed.

Lemma msort_list_ok fuel l : Forall ok l -> Forall ok (msort_list le' fuel l).
Proof. intros Hl. rewrite msort_list_perm. assumption. Qed.

Lemma msort_list_map fuel l : Forall ok l -> map f (msort_list le' fuel l) = msort_list le fuel (map f l).
Proof.
  revert l. induction fuel as [|fuel IH]; intros l Hl; [reflexivity|]. cbn [msort_list]. rewrite length_map.
  destruct (length l <=? 1)%nat; [reflexivity|]. cbv zeta.
  rewrite list_merge_map by (apply msort_list_ok; auto using Forall_take, Forall_drop).
  rewrite !IH by auto using Forall_take, Forall_drop. rewrite firstn_map, skipn_map. reflexivity.
Qed.
End Map.
