(* ===== verification/Msort.v ===== *)
(** Sorting (stdlib/msort.c): [msort_with_tmp], a merge sort of an array of bytes through a
    temporary area, with its five ways of moving an element, and [qsort_r], which sorts
    large elements through pointers and then permutes the elements in place.

    The comparison function is a parameter: it is called with two pointers and looks at the
    objects they point to.  What it finds there is [osize] bytes. *)
From stdpp Require Import sorting.
From S2P Require Import Prelude CMem MemWrite StringCopy SortSpec.

(** [struct msort_param], less the comparison function and its argument *)
Record msort_param := Param { s : Z; var : Z; t : Z }.

(** [phys_pages] and [pagesize], static variables of qsort_r *)
Record pages := Pages { phys_pages : Z; pagesize : Z }.

Section Msort.
Context (A : arch).

(** [__alignof__ (uint64_t)]: 4 on some 32-bit machines *)
Context (align64 : Z).

Context (cmp : list Z -> list Z -> Z) (osize : nat).

Definition size_t (z : Z) : Z := uwrap (wordbits A) z.

Definition call_cmp {R} (m : mem) (x y : Z) : flow R Z :=
  let! xs := load_bytes m x osize in
  let! ys := load_bytes m y osize in
  Next (cmp xs ys).

(** [memcpy (dst, src, n)] and [__mempcpy], by their contract (see [memcpy_block]). *)
Definition block_copy {R} (m : mem) (dst src n : Z) : flow R mem :=
  let! bs := load_bytes m src (Z.to_nat n) in
  store_bytes m dst bs.

(** [*(T * ) dst = *(T * ) src] for an unsigned integer type of [n] bytes *)
Definition copy_uint {R} (n align : Z) (m : mem) (dst src : Z) : flow R mem :=
  if (dst mod align =? 0) && (src mod align =? 0) then block_copy m dst src n else Fault.

Definition copy_long {R} (m : mem) (dst src : Z) : flow R mem :=
  let! v := load_word A m src in
  store_word A m dst v.

(** [while (tmpl < (unsigned long * ) tmp)] *)
Fixpoint copy_longs {R} (fuel : nat) (m : mem) (tmpl bl tmp : Z) : flow R mem :=
  if tmpl <? tmp then
    match fuel with
    | O => NoFuel
    | S fuel =>
        let! m := copy_long m tmpl bl in
        copy_longs fuel m (tmpl + wordsize A) (bl + wordsize A) tmp
    end
  else Next m.

(** What the five merge loops differ in: how they compare the elements at [b1] and [b2],
    how they move one, and by how much they advance. *)
Definition compare_one {R} (p : msort_param) (m : mem) (b1 b2 : Z) : flow R Z :=
  if var p =? 3 then
    let! x := load_word A m b1 in
    let! y := load_word A m b2 in
    call_cmp m x y
  else call_cmp m b1 b2.

Definition move_one {R} (p : msort_param) (m : mem) (tmp src : Z) : flow R mem :=
  match var p with
  | 0 => copy_uint 4 4 m tmp src
  | 1 => copy_uint 8 align64 m tmp src
  | 2 => copy_longs (Z.to_nat (s p)) m tmp src (tmp + s p)
  | 3 => copy_long m tmp src
  | _ => block_copy m tmp src (s p)
  end.

Definition advance_by (p : msort_param) : Z :=
  match var p with
  | 0 => 4
  | 1 => 8
  | 3 => wordsize A
  | _ => s p
  end.

(** [while (n1 > 0 && n2 > 0)] *)
Fixpoint merge_loop {R} (fuel : nat) (p : msort_param) (m : mem) (b1 n1 b2 n2 tmp : Z) : flow R (mem * Z * Z * Z * Z) :=
  if (0 <? n1) && (0 <? n2) then
    match fuel with
    | O => NoFuel
    | S fuel =>
        let! c := compare_one p m b1 b2 in
        if c <=? 0 then
          let! m := move_one p m tmp b1 in
          merge_loop fuel p m (b1 + advance_by p) (n1 - 1) b2 n2 (tmp + advance_by p)
        else
          let! m := move_one p m tmp b2 in
          merge_loop fuel p m b1 n1 (b2 + advance_by p) (n2 - 1) (tmp + advance_by p)
    end
  else Next (m, b1, n1, n2, tmp).

Fixpoint msort_with_tmp {R} (fuel : nat) (p : msort_param) (m : mem) (b n : Z) : flow R mem :=
  match fuel with
  | O => NoFuel
  | S fuel =>
      if n <=? 1 then Next m else
      let n1 := n / 2 in
      let n2 := n - n1 in
      let b1 := b in
      let b2 := b + size_t (n1 * s p) in
      let! m := msort_with_tmp fuel p m b1 n1 in
      let! m := msort_with_tmp fuel p m b2 n2 in
      let! '(m, b1, n1, n2, tmp) := merge_loop (Z.to_nat n) p m b1 n1 b2 n2 (t p) in
      let! m := if 0 <? n1 then block_copy m tmp b1 (size_t (n1 * s p)) else Next m in
      block_copy m b (t p) (size_t ((n - n2) * s p))
  end.

(** ** Indirect sorting *)

(** [*t++ = ip; ip += s], until [tmp_storage] *)
Fixpoint fill_pointers {R} (fuel : nat) (m : mem) (tq ip s tmp_storage : Z) : flow R mem :=
  if tq <? tmp_storage then
    match fuel with
    | O => NoFuel
    | S fuel =>
        let! m := store_word A m tq ip in
        fill_pointers fuel m (tq + wordsize A) (ip + s) s tmp_storage
    end
  else Next m.

(** [do ... while (kp != ip)] *)
Fixpoint permute_cycle {R} (fuel : nat) (m : mem) (b s tp ip j jp kp : Z) : flow R (mem * Z * Z) :=
  match fuel with
  | O => NoFuel
  | S fuel =>
      let k := (kp - b) / s in
      let! m := store_word A m (tp + j * wordsize A) jp in
      let! m := block_copy m jp kp s in
      let j := k in
      let jp := kp in
      let! kp := load_word A m (tp + k * wordsize A) in
      if kp =? ip then Next (m, j, jp) else permute_cycle fuel m b s tp ip j jp kp
  end.

(** The body of the loop over [i], and the loop, [c] rounds from [i] on *)
Definition permute_from {R} (n : Z) (m : mem) (b s tp tmp_storage i ip : Z) : flow R mem :=
  let! kp := load_word A m (tp + i * wordsize A) in
  if kp =? ip then Next m else
  let! m := block_copy m tmp_storage ip s in
  let! '(m, j, jp) := permute_cycle (Z.to_nat n) m b s tp ip i ip kp in
  let! m := store_word A m (tp + j * wordsize A) jp in
  block_copy m jp tmp_storage s.

Fixpoint permute {R} (c : nat) (n : Z) (m : mem) (b s tp tmp_storage i ip : Z) : flow R mem :=
  match c with
  | O => Next m
  | S c =>
      let! m := permute_from n m b s tp tmp_storage i ip in
      permute c n m b s tp tmp_storage (i + 1) (ip + s)
  end.

Definition sort_indirect {R} (m : mem) (b n s t : Z) : flow R mem :=
  let tp := t + n * wordsize A in
  let tmp_storage := tp + n * wordsize A in
  let! m := fill_pointers (Z.to_nat n) m tp b s tmp_storage in
  let! m := msort_with_tmp (S (Z.to_nat n)) (Param (wordsize A) 3 t) m tp n in
  permute (Z.to_nat n) n m b s tp tmp_storage 0 b.

(** ** qsort_r *)

Definition choose_var (b s : Z) : Z :=
  if (Z.land s (4 - 1) =? 0) && (b mod 4 =? 0) then
    if s =? 4 then 0
    else if (s =? 8) && (b mod align64 =? 0) then 1
    else if (Z.land s (wordsize A - 1) =? 0) && (b mod wordsize A =? 0) then 2
    else 4
  else 4.

Definition sort_direct {R} (m : mem) (b n s t : Z) : flow R mem :=
  msort_with_tmp (S (Z.to_nat n)) (Param s (choose_var b s) t) m b n.

(** The size of the temporary area. *)
Definition tmp_size (n s : Z) : Z :=
  if 32 <? s then size_t (2 * n * wordsize A + s) else size_t (n * s).

(** [sc_phys] and [sc_page] are what [__sysconf] returns for the two names. *)
Definition init_pages (sc_phys sc_page : Z) (st : pages) : pages :=
  if pagesize st =? 0 then
    let phys := if sc_phys =? -1 then Z.shiftr (2 ^ wordbits A - 1) 1 else sc_phys in
    Pages (Z.quot phys 4) (s32 sc_page)
  else st.

(** Where the temporary area is: on the stack, from malloc, or nowhere. *)
Inductive tmp_area := Area (t : Z) | NoArea.

Definition get_area {R} (sc_phys sc_page : Z) (alloca : Z) (malloc : option Z) (st : pages) (size : Z) : flow R (tmp_area * pages) :=
  if size <? 1024 then Next (Area alloca, st)
  else
    let st := init_pages sc_phys sc_page st in
    if pagesize st =? 0 then Fault
    else if size_t (phys_pages st) <? size / size_t (pagesize st) then Next (NoArea, st)
    else match malloc with
         | Some t => Next (Area t, st)
         | None => Next (NoArea, st)
         end.

Definition qsort_r {R} (quicksort : mem -> Z -> Z -> Z -> flow R mem) (sc_phys sc_page alloca : Z) (malloc : option Z)
    (st : pages) (m : mem) (b n s : Z) : flow R (mem * pages) :=
  let! '(area, st) := get_area sc_phys sc_page alloca malloc st (tmp_size n s) in
  match area with
  | NoArea => let! m := quicksort m b n s in Next (m, st)
  | Area t =>
      let! m := if 32 <? s then sort_indirect m b n s t else sort_direct m b n s t in
      Next (m, st)
  end.
End Msort.

(** * Examples *)

Definition bytes_cmp (x y : list Z) : Z := hd 0 x - hd 0 y.

Example sort_bytes :
  flow_bind (R := unit) (sort_direct (Arch true false) 8 bytes_cmp 3 (mem_of 100 ([5; 1; 1; 3; 2; 2; 5; 3; 3; 1; 4; 4] ++ repeat 0 20)) 100 4 3 112)
    (fun m => load_bytes m 100 12) = Next [1; 4; 4; 3; 2; 2; 5; 1; 1; 5; 3; 3].
Proof. vm_compute. reflexivity. Qed.

Example sort_large :
  flow_bind (R := unit) (sort_indirect (Arch false true) 4 bytes_cmp 33 (mem_of 100 (repeat 5 33 ++ repeat 3 33 ++ repeat 9 33 ++ repeat 1 33 ++ repeat 4 33 ++ repeat 0 203)) 100 5 33 300)
    (fun m => load_bytes m 100 165) = Next (repeat 1 33 ++ repeat 3 33 ++ repeat 4 33 ++ repeat 5 33 ++ repeat 9 33).
Proof. vm_compute. reflexivity. Qed.

(** * Proofs *)

(** ** Moving bytes *)

Lemma block_copy_wr {R} m dst src x n :
  bytes_at m src x -> Z.of_nat (length x) = n -> Forall is_byte x -> mapped m dst (dst + n) ->
  @block_copy R m dst src n = Next (wr m dst x).
Proof.
  intros Hx Hn Hb Hd. unfold block_copy. replace (Z.to_nat n) with (length x) by lia. rewrite (load_bytes_spec _ _ _ Hx).
  cbn [flow_bind]. apply store_bytes_wr; [rewrite Hn|]; assumption.
Qed.

(** The contract is that of the memcpy of string/memcpy.c, where that may read the longwords of the source. *)
Lemma memcpy_block {R} A m dst src n :
  wf_mem m -> mapped m dst (dst + n) -> words_mapped A m src n -> 0 <= n < 2 ^ wordbits A -> apart dst n src n ->
  exists m', memcpy A m dst src n = Return (m', dst) /\ @block_copy R m dst src n = Next m'.
Proof.
  intros Hwf Hd Hs Hn Hap. pose proof (words_mapped_block _ _ _ _ Hs) as Hsm. unfold memcpy.
  destruct (@copy_fwd_spec A m dst src n Hwf Hd Hsm Hs ltac:(unfold apart in Hap; lia) (mem * Z) Hn) as (m' & -> & Hc).
  exists m'. split; [reflexivity|]. destruct (mapped_bytes_at m src (Z.to_nat n)) as (x & Hl & Hx).
  { rewrite Z2Nat.id by lia. assumption. }
  rewrite (block_copy_wr m dst src x) by (try assumption; try (eapply bytes_at_wf; eassumption); lia). f_equal.
  apply map_eq. intros a. specialize (Hc a). rewrite Z.add_0_r in Hc. rewrite Hc, wr_lookup.
  replace (Z.of_nat (length x)) with n by lia. destruct (decide (dst <= a < dst + n)); [|reflexivity].
  destruct (lookup_lt_is_Some_2 x (Z.to_nat (a - dst))) as [v Hv]; [lia|]. rewrite Hv. symmetry. apply Hx in Hv. rewrite <- Hv. f_equal. lia.
Qed.

Section Moves.
Context (A : arch).

Lemma copy_long_wr {R} m dst src x :
  bytes_at m src x -> length x = wordlen A -> Forall is_byte x -> mapped m dst (dst + wordsize A) ->
  dst mod wordsize A = 0 -> src mod wordsize A = 0 -> @copy_long A R m dst src = Next (wr m dst x).
Proof.
  intros Hx Hl Hb Hm Hd Hs. unfold copy_long. rewrite (load_word_spec A m src x Hs Hl Hx). cbn [flow_bind].
  unfold store_word. rewrite Hd. cbn [Z.eqb]. rewrite bytes_of_word_of_bytes by assumption.
  apply store_bytes_wr; [rewrite Hl, wordlen_wordsize|]; assumption.
Qed.

Lemma copy_longs_wr {R} k fuel m dst src x :
  bytes_at m src x -> length x = (k * wordlen A)%nat -> Forall is_byte x -> mapped m dst (dst + Z.of_nat (length x)) ->
  dst mod wordsize A = 0 -> src mod wordsize A = 0 -> apart dst (Z.of_nat (length x)) src (Z.of_nat (length x)) -> (k <= fuel)%nat ->
  @copy_longs A R fuel m dst src (dst + Z.of_nat (length x)) = Next (wr m dst x).
Proof.
  pose proof (wordsize_pos A) as HW. pose proof (wordlen_wordsize A) as EW.
  revert fuel m dst src x. induction k as [|k IH]; intros fuel m dst src x Hx Hl Hb Hm Hd Hs Hap Hf.
  - destruct x; [|discriminate]. destruct fuel; cbn [copy_longs length wr]; rewrite Z.add_0_r, Z.ltb_irrefl; reflexivity.
  - destruct fuel as [|fuel]; [lia|]. rewrite <- (take_drop (wordlen A) x) in Hx, Hb |- *.
    set (x1 := take (wordlen A) x) in *. set (x2 := drop (wordlen A) x) in *.
    assert (length x1 = wordlen A) as L1 by (subst x1; rewrite length_take; lia).
    assert (length x2 = k * wordlen A)%nat as L2 by (subst x2; rewrite length_drop; lia).
    assert (length x = (length x1 + length x2)%nat) as L by lia. unfold apart in Hap.
    apply bytes_at_app in Hx as [Hx1 Hx2]. apply Forall_app in Hb as [Hb1 Hb2]. rewrite length_app.
    cbn [copy_longs]. rewrite (proj2 (Z.ltb_lt dst _)) by lia.
    rewrite (copy_long_wr m dst src x1); auto; [|intros a Ha; apply Hm; lia]. cbn [flow_bind]. rewrite wr_app.
    replace (dst + Z.of_nat (length x1 + length x2)) with (dst + wordsize A + Z.of_nat (length x2)) by lia.
    replace (dst + Z.of_nat (length x1)) with (dst + wordsize A) by lia. apply IH; auto; try lia.
    + replace (src + wordsize A) with (src + Z.of_nat (length x1)) by lia. apply wr_off; [assumption|]. unfold apart. lia.
    + apply wr_mapped. intros a Ha. apply Hm. lia.
    + rewrite <- Z.add_mod_idemp_l, Hd, Z.add_0_l by lia. apply Z.mod_same. lia.
    + rewrite <- Z.add_mod_idemp_l, Hs, Z.add_0_l by lia. apply Z.mod_same. lia.
    + unfold apart. lia.
Qed.
End Moves.

(** ** The merge sort, for any way of comparing and moving *)

Lemma length_concat_eq (w : nat) (l : list (list Z)) : Forall (fun x => length x = w) l -> length (concat l) = (length l * w)%nat.
Proof. induction 1 as [|x l Hx _ IH]; [reflexivity|]. cbn [concat length]. rewrite length_app, IH, Hx. lia. Qed.

Section Merge.
Context (A : arch) (align64 : Z) (cmp : list Z -> list Z -> Z) (osize : nat) (p : msort_param).

(** Elements of [w] bytes, at addresses that are multiples of [al]. *)
Context (w : nat) (al : Z).
Hypothesis w_pos : (0 < w)%nat.
Hypothesis al_pos : 0 < al.
Hypothesis al_w : Z.of_nat w mod al = 0.
Hypothesis p_s : s p = Z.of_nat w.
Hypothesis p_advance : advance_by A p = Z.of_nat w.

(** The order, and the elements it is about. *)
Context (le : list Z -> list Z -> Prop) `{!RelDecision le} (ok : list Z -> Prop).
Hypothesis ok_length : forall x, ok x -> length x = w.
Hypothesis ok_bytes : forall x, ok x -> Forall is_byte x.

(** The comparison works in any memory that differs from the initial one in the array and the temporary area only. *)
Context (m0 : mem) (b0 : Z) (N : nat).
Abbreviation good m := (frame m0 m b0 (Z.of_nat (N * w)) (t p) (Z.of_nat (N * w))).
Hypothesis N_size : Z.of_nat (N * w) < 2 ^ wordbits A.
Hypothesis areas_apart : apart b0 (Z.of_nat (N * w)) (t p) (Z.of_nat (N * w)).
Hypothesis tmp_mapped : mapped m0 (t p) (t p + Z.of_nat (N * w)).
Hypothesis tmp_aligned : t p mod al = 0.
Hypothesis compare_ok : forall R m b1 b2 x y, good m -> ok x -> ok y -> bytes_at m b1 x -> bytes_at m b2 y ->
  b1 mod al = 0 -> b2 mod al = 0 -> exists c, @compare_one A cmp osize R p m b1 b2 = Next c /\ (c <= 0 <-> le x y).
Hypothesis move_ok : forall R m dst src x, ok x -> bytes_at m src x -> mapped m dst (dst + Z.of_nat w) ->
  apart dst (Z.of_nat w) src (Z.of_nat w) -> dst mod al = 0 -> src mod al = 0 ->
  @move_one A align64 R p m dst src = Next (wr m dst x).

Lemma ok_concat l : Forall ok l -> length (concat l) = (length l * w)%nat.
Proof. intros Hl. apply length_concat_eq. eapply Forall_impl; [exact Hl|exact ok_length]. Qed.

Lemma ok_concat_bytes l : Forall ok l -> Forall is_byte (concat l).
Proof. intros Hl. apply Forall_concat. eapply Forall_impl; [exact Hl|exact ok_bytes]. Qed.

Lemma al_next q : q mod al = 0 -> (q + Z.of_nat w) mod al = 0.
Proof. intros Hq. rewrite <- Z.add_mod_idemp_l, Hq, Z.add_0_l by lia. exact al_w. Qed.

Lemma al_nth q n : q mod al = 0 -> (q + Z.of_nat (n * w)) mod al = 0.
Proof.
  intros Hq. induction n as [|n IH]; [rewrite Z.add_0_r; assumption|].
  replace (q + Z.of_nat (S n * w)) with (q + Z.of_nat (n * w) + Z.of_nat w) by lia. apply al_next. assumption.
Qed.

(** What a merge of [l1] and [l2] moves to [tmp], and what it leaves. *)
Definition merged (m : mem) (b1 b2 tmp : Z) (l1 l2 : list (list Z)) (r : mem * Z * Z * Z * Z) : Prop :=
  exists out l1' l2', r = (wr m tmp (concat out), b1 + Z.of_nat ((length l1 - length l1') * w), Z.of_nat (length l1'), Z.of_nat (length l2'), tmp + Z.of_nat (length out * w)) /\
    list_merge le l1 l2 = out ++ l1' ++ l2' /\ (l1' = [] \/ l2' = []) /\ l1' `suffix_of` l1 /\ l2' `suffix_of` l2.

Lemma merged_cons m b1 b2 tmp l1 l2 c1 c2 x k1 k2 r :
  ok x -> list_merge le l1 l2 = x :: list_merge le k1 k2 ->
  l1 = c1 ++ k1 -> l2 = c2 ++ k2 ->
  merged (wr m tmp x) (b1 + Z.of_nat (length c1 * w)) (b2 + Z.of_nat (length c2 * w)) (tmp + Z.of_nat w) k1 k2 r ->
  merged m b1 b2 tmp l1 l2 r.
Proof.
  intros Hx E -> -> (out & l1' & l2' & -> & Em & Hor & S1 & S2).
  exists (x :: out), l1', l2'. rewrite E, Em. split; [|split; [reflexivity|split; [assumption|split; apply suffix_app_r; assumption]]].
  apply suffix_length in S1. cbn [concat length]. rewrite wr_app, (ok_length x Hx), length_app.
  assert ((length c1 + length k1 - length l1') * w = length c1 * w + (length k1 - length l1') * w)%nat as -> by nia.
  repeat first [reflexivity | lia | f_equal].
Qed.

Lemma merge_loop_spec {R} fuel m b1 l1 b2 l2 tmp :
  good m -> Forall ok l1 -> Forall ok l2 -> bytes_at m b1 (concat l1) -> bytes_at m b2 (concat l2) ->
  b1 mod al = 0 -> b2 mod al = 0 -> tmp mod al = 0 ->
  t p <= tmp -> tmp + Z.of_nat ((length l1 + length l2) * w) <= t p + Z.of_nat (N * w) ->
  apart tmp (Z.of_nat ((length l1 + length l2) * w)) b1 (Z.of_nat (length l1 * w)) ->
  apart tmp (Z.of_nat ((length l1 + length l2) * w)) b2 (Z.of_nat (length l2 * w)) ->
  (length l1 + length l2 <= fuel)%nat ->
  exists r, @merge_loop A align64 cmp osize R fuel p m b1 (Z.of_nat (length l1)) b2 (Z.of_nat (length l2)) tmp = Next r /\
    merged m b1 b2 tmp l1 l2 r.
Proof.
  revert m b1 l1 b2 l2 tmp. induction fuel as [|fuel IH]; intros m b1 l1 b2 l2 tmp Hg O1 O2 B1 B2 A1 A2 At Ht1 Ht2 Ap1 Ap2 Hf.
  { destruct l1, l2; simpl in Hf; try lia. cbn. eexists. split; [reflexivity|]. exists [], [], [].
    rewrite !Z.add_0_r. auto 6 using suffix_nil. }
  destruct l1 as [|x l1].
  { eexists. split; [reflexivity|]. exists [], [], l2. cbn [length Nat.sub Nat.mul]. rewrite !Z.add_0_r.
    split; [reflexivity|]. split; [destruct l2; reflexivity|]. auto using suffix_nil. }
  destruct l2 as [|y l2].
  { cbn [merge_loop]. rewrite andb_false_r. eexists. split; [reflexivity|]. exists [], (x :: l1), []. rewrite Nat.sub_diag. cbn [length Nat.mul].
    rewrite !Z.add_0_r, list_merge_nil_r, app_nil_r. auto using suffix_nil. }
  cbn [merge_loop]. rewrite (proj2 (Z.ltb_lt 0 _)) by (simpl length; lia). rewrite (proj2 (Z.ltb_lt 0 _)) by (simpl length; lia). cbn [andb].
  pose proof (ok_concat _ O1) as L1. pose proof (ok_concat _ O2) as L2.
  apply Forall_cons in O1 as [Ox O1], O2 as [Oy O2]. pose proof (ok_length x Ox) as Lx. pose proof (ok_length y Oy) as Ly.
  cbn [concat] in B1, B2. apply bytes_at_app in B1 as [Bx B1], B2 as [By B2]. rewrite Lx in B1. rewrite Ly in B2.
  destruct (compare_ok R m b1 b2 x y) as (c & -> & Hc); auto. cbn [flow_bind]. cbn [length] in *. unfold apart in Ap1, Ap2.
  assert (forall z src, ok z -> bytes_at m src z -> src mod al = 0 -> apart tmp (Z.of_nat w) src (Z.of_nat w) ->
    @move_one A align64 R p m tmp src = Next (wr m tmp z)) as Hmove.
  { intros z src Oz Bz Asrc Hap. apply move_ok; auto. intros a Ha. destruct Hg as [_ Hgm]. apply (Hgm _ _ tmp_mapped). lia. }
  assert (forall z, ok z -> good (wr m tmp z)) as Hgood.
  { intros z Oz. eapply frame_trans; [exact Hg|]. apply (frame_weaken _ _ tmp (Z.of_nat (length z)) tmp 0); [apply frame_wr| |lia].
    rewrite (ok_length z Oz). lia. }
  destruct (Z.leb_spec c 0) as [Hle|Hgt].
  - rewrite (Hmove x b1) by (auto; unfold apart; lia). cbn [flow_bind]. rewrite p_advance.
    replace (Z.of_nat (S (length l1)) - 1) with (Z.of_nat (length l1)) by lia.
    destruct (IH (wr m tmp x) (b1 + Z.of_nat w) l1 b2 (y :: l2) (tmp + Z.of_nat w)) as (r & E & Hr); auto using al_next; try (unfold apart; cbn [length]; lia).
    + apply wr_off; [assumption|]. rewrite Lx, ok_concat by assumption. unfold apart. lia.
    + apply wr_off; [apply bytes_at_app; rewrite Ly; auto|]. change (y ++ concat l2) with (concat (y :: l2)).
      rewrite L2, Lx. cbn [length]. unfold apart. lia.
    + exists r. split; [exact E|]. apply (merged_cons m b1 b2 tmp _ _ [x] [] x l1 (y :: l2)); auto.
      * rewrite list_merge_cons, decide_True by tauto. reflexivity.
      * cbn [length Nat.mul]. rewrite Nat.add_0_r, Z.add_0_r. exact Hr.
  - rewrite (Hmove y b2) by (auto; unfold apart; lia). cbn [flow_bind]. rewrite p_advance.
    replace (Z.of_nat (S (length l2)) - 1) with (Z.of_nat (length l2)) by lia.
    destruct (IH (wr m tmp y) b1 (x :: l1) (b2 + Z.of_nat w) l2 (tmp + Z.of_nat w)) as (r & E & Hr); auto using al_next; try (unfold apart; cbn [length]; lia).
    + apply wr_off; [apply bytes_at_app; rewrite Lx; auto|]. change (x ++ concat l1) with (concat (x :: l1)).
      rewrite L1, Ly. cbn [length]. unfold apart. lia.
    + apply wr_off; [assumption|]. rewrite Ly, ok_concat by assumption. unfold apart. lia.
    + exists r. split; [exact E|]. apply (merged_cons m b1 b2 tmp _ _ [] [y] y (x :: l1) l2); auto.
      * rewrite list_merge_cons, decide_False by (rewrite <- Hc; lia). reflexivity.
      * cbn [length Nat.mul]. rewrite Nat.add_0_r, Z.add_0_r. exact Hr.
Qed.
(** Part of the tail of a list of elements in memory. *)
Lemma suffix_at m b l l' :
  Forall ok l -> l' `suffix_of` l -> bytes_at m b (concat l) ->
  bytes_at m (b + Z.of_nat ((length l - length l') * w)) (concat l') /\ Forall ok l'.
Proof.
  intros Hl [c ->] Hb. apply Forall_app in Hl as [Hc Hl]. split; [|assumption]. rewrite concat_app in Hb. apply bytes_at_app in Hb as [_ Hb].
  rewrite ok_concat in Hb by assumption. rewrite length_app. replace (length c + length l' - length l')%nat with (length c) by lia. exact Hb.
Qed.

(** The end of a call: the rest of the first list follows the merged elements, and all of it is copied back. *)
Lemma merge_back {R} m b l1 l2 r :
  good m -> Forall ok l1 -> Forall ok l2 -> bytes_at m b (concat (l1 ++ l2)) ->
  b0 <= b -> b + Z.of_nat ((length l1 + length l2) * w) <= b0 + Z.of_nat (N * w) ->
  merged m b (b + Z.of_nat (length l1 * w)) (t p) l1 l2 r ->
  exists m', (let '(m, b1, n1, n2, tmp) := r in
     let! m := if 0 <? n1 then @block_copy R m tmp b1 (size_t A (n1 * s p)) else Next m in
     block_copy m b (t p) (size_t A ((Z.of_nat (length l1 + length l2) - n2) * s p))) = Next m' /\
    bytes_at m' b (concat (list_merge le l1 l2)) /\
    frame m m' b (Z.of_nat ((length l1 + length l2) * w)) (t p) (Z.of_nat ((length l1 + length l2) * w)).
Proof.
  intros Hg O1 O2 Hb Hb1 Hb2 (out & r1 & r2 & -> & E & Hor & S1 & S2).
  rewrite concat_app in Hb. apply bytes_at_app in Hb as [B1 B2]. rewrite ok_concat in B2 by assumption.
  destruct (suffix_at _ _ _ _ O1 S1 B1) as [Br1 Or1]. destruct (suffix_at _ _ _ _ O2 S2 B2) as [Br2 Or2].
  assert (Forall ok (out ++ r1 ++ r2)) as Ho by (rewrite <- E, merge_Permutation; apply Forall_app_2; assumption).
  pose proof (f_equal length E) as El. rewrite (Permutation_length (merge_Permutation le l1 l2)) in El. rewrite !length_app in El.
  apply suffix_length in S1, S2. apply Forall_app in Ho as [Oout _].
  pose proof (ok_concat _ Oout) as Lout. pose proof (ok_concat _ Or1) as Lr1. pose proof (ok_concat _ Or2) as Lr2.
  set (n := (length l1 + length l2)%nat) in *. assert (length out * w + length r1 * w + length r2 * w = n * w)%nat as Ew by nia.
  assert (forall k, (k <= n)%nat -> size_t A (Z.of_nat k * s p) = Z.of_nat (k * w)) as Hsz.
  { intros k Hk. unfold size_t. rewrite p_s. rewrite uwrap_small; [lia|]. assert (k * w <= n * w)%nat by nia. lia. }
  assert (mapped m (t p) (t p + Z.of_nat (N * w))) as Htm by (apply (proj2 Hg); exact tmp_mapped). unfold apart in areas_apart.
  assert ((if 0 <? Z.of_nat (length r1) then @block_copy R (wr m (t p) (concat out)) (t p + Z.of_nat (length out * w))
      (b + Z.of_nat ((length l1 - length r1) * w)) (size_t A (Z.of_nat (length r1) * s p)) else Next (wr m (t p) (concat out))) =
    Next (wr m (t p) (concat (out ++ r1)))) as ->.
  { rewrite concat_app, wr_app, Lout. destruct (Z.ltb_spec 0 (Z.of_nat (length r1))) as [Hp|Hz].
    - rewrite Hsz by lia. apply block_copy_wr; [|lia|apply ok_concat_bytes; assumption|].
      + apply wr_off; [assumption|]. rewrite Lout, Lr1. assert ((length l1 - length r1) * w + length r1 * w <= n * w)%nat by nia. unfold apart. lia.
      + apply wr_mapped. intros a Ha. apply Htm. lia.
    - destruct r1; [reflexivity|simpl in Hz; lia]. }
  cbn [flow_bind]. replace (Z.of_nat n - Z.of_nat (length r2)) with (Z.of_nat (length (out ++ r1))) by (rewrite length_app; lia).
  rewrite Hsz by (rewrite length_app; lia).
  assert (Forall ok (out ++ r1)) as Oor by (apply Forall_app_2; assumption). pose proof (ok_concat _ Oor) as Lor.
  assert (length (out ++ r1) * w = length out * w + length r1 * w)%nat as Eor by (rewrite length_app; lia).
  assert (mapped (wr m (t p) (concat (out ++ r1))) b (b + Z.of_nat (n * w))) as Hbm.
  { apply wr_mapped. intros a Ha. destruct (Z.lt_ge_cases a (b + Z.of_nat (length l1 * w))).
    - apply (bytes_at_mapped _ _ _ B1). rewrite ok_concat by assumption. lia.
    - apply (bytes_at_mapped _ _ _ B2). rewrite ok_concat by assumption. lia. }
  rewrite (block_copy_wr _ b (t p) (concat (out ++ r1))); [|apply wr_at|lia|apply ok_concat_bytes; assumption|intros a Ha; apply Hbm; lia].
  eexists. split; [reflexivity|]. split.
  - rewrite E, app_assoc, (concat_app (out ++ r1) r2). apply bytes_at_app. split; [apply wr_at|]. rewrite Lor. apply wr_off; [|rewrite Lor, Lr2; unfold apart; lia].
    apply wr_off; [|rewrite Lor, Lr2; unfold apart; lia].
    replace (b + Z.of_nat (length (out ++ r1) * w)) with (b + Z.of_nat (length l1 * w) + Z.of_nat ((length l2 - length r2) * w)); [assumption|].
    assert ((length l2 - length r2) * w + length r2 * w = length l2 * w)%nat by nia. lia.
  - eapply frame_trans; [apply (frame_weaken _ _ (t p) (Z.of_nat (length (concat (out ++ r1)))) (t p) 0); [apply frame_wr|lia|lia]|].
    apply (frame_weaken _ _ b (Z.of_nat (length (concat (out ++ r1)))) b 0); [apply frame_wr|lia|lia].
Qed.

Lemma msort_with_tmp_spec {R} fuel m b l :
  good m -> Forall ok l -> bytes_at m b (concat l) -> b mod al = 0 ->
  b0 <= b -> b + Z.of_nat (length l * w) <= b0 + Z.of_nat (N * w) -> (length l < fuel)%nat ->
  exists m', @msort_with_tmp A align64 cmp osize R fuel p m b (Z.of_nat (length l)) = Next m' /\
    bytes_at m' b (concat (msort_list le fuel l)) /\
    frame m m' b (Z.of_nat (length l * w)) (t p) (Z.of_nat (length l * w)).
Proof.
  revert m b l. induction fuel as [|fuel IH]; intros m b l Hg Ol Hb Hal Hb1 Hb2 Hf; [lia|]. cbn [msort_with_tmp msort_list].
  destruct (Nat.leb_spec (length l) 1) as [Hle|Hgt].
  { rewrite (proj2 (Z.leb_le _ 1)) by lia. exists m. auto using frame_refl. }
  rewrite (proj2 (Z.leb_gt _ 1)) by lia. cbv zeta.
  set (n1 := (length l / 2)%nat). assert (n1 < length l /\ 0 < n1)%nat as [Hn1 Hn1'].
  { split; [apply Nat.div_lt; lia|]. apply Nat.div_str_pos. lia. }
  replace (Z.of_nat (length l) / 2) with (Z.of_nat n1) by (subst n1; rewrite Nat2Z.inj_div; reflexivity).
  set (l1 := take n1 l). set (l2 := drop n1 l).
  assert (length l1 = n1) as E1 by (subst l1; rewrite length_take; lia).
  assert (length l2 = length l - n1)%nat as E2 by (subst l2; rewrite length_drop; lia).
  assert (length l = length l1 + length l2)%nat as El by lia.
  assert (Forall ok l1 /\ Forall ok l2) as [O1 O2] by (split; [apply Forall_take|apply Forall_drop]; assumption).
  rewrite <- (take_drop n1 l) in Hb. fold l1 l2 in Hb. rewrite concat_app in Hb. apply bytes_at_app in Hb as [B1 B2].
  rewrite ok_concat in B2 by assumption. unfold apart in areas_apart.
  assert (length l * w = length l1 * w + length l2 * w)%nat as Ew by nia.
  replace (size_t A (Z.of_nat n1 * s p)) with (Z.of_nat (length l1 * w)).
  2: { unfold size_t. rewrite p_s, E1, uwrap_small; [lia|]. nia. }
  replace (Z.of_nat (length l) - Z.of_nat n1) with (Z.of_nat (length l2)) by lia. rewrite <- E1.
  (* the two halves *)
  destruct (IH m b l1) as (m1 & -> & S1 & F1); auto; [lia..|]. cbn [flow_bind].
  assert (good m1) as Hg1 by (eapply frame_trans; [exact Hg|]; eapply frame_weaken; [exact F1|lia|lia]).
  destruct (IH m1 (b + Z.of_nat (length l1 * w)) l2) as (m2 & -> & S2 & F2); auto using al_nth; [|lia..|].
  { eapply frame_at; [exact F1|exact B2|rewrite ok_concat by assumption; unfold apart; lia..]. }
  cbn [flow_bind].
  assert (good m2) as Hg2 by (eapply frame_trans; [exact Hg1|]; eapply frame_weaken; [exact F2|lia|lia]).
  set (s1 := msort_list le fuel l1) in *. set (s2 := msort_list le fuel l2) in *.
  assert (Forall ok s1 /\ Forall ok s2) as [Os1 Os2] by (subst s1 s2; rewrite !msort_list_perm; auto).
  assert (length s1 = length l1 /\ length s2 = length l2) as [L1 L2] by (subst s1 s2; rewrite !length_msort_list; auto).
  assert (bytes_at m2 b (concat s1)) as S1'.
  { eapply frame_at; [exact F2|exact S1|rewrite ok_concat by assumption; unfold apart; lia..]. }
  (* the merge *)
  rewrite <- L1, <- L2 in *.
  destruct (merge_loop_spec (R := R) (Z.to_nat (Z.of_nat (length l))) m2 b s1 (b + Z.of_nat (length s1 * w)) s2 (t p)) as (r & -> & Hr);
    auto using al_nth; try (unfold apart; lia); [unfold apart; nia..|].
  cbn [flow_bind].
  destruct (merge_back (R := R) m2 b s1 s2 r) as (m3 & E3 & S3 & F3); auto; try lia.
  { rewrite concat_app. apply bytes_at_app. rewrite ok_concat by assumption. auto. }
  exists m3. split; [|split; [exact S3|]].
  - destruct r as [[[[? ?] ?] ?] ?]. rewrite El. exact E3.
  - replace (length l * w)%nat with ((length s1 + length s2) * w)%nat by nia.
    eapply frame_trans; [eapply frame_weaken; [exact F1|lia|lia]|].
    eapply frame_trans; [eapply frame_weaken; [exact F2|lia|lia]|exact F3].
Qed.
End Merge.

(** ** Permuting in place *)

Section Permute.
Context (A : arch) (b sz tp storage : Z) (n : nat).
Abbreviation W := (wordsize A).
Hypothesis sz_pos : 0 < sz.

(** The array of elements, the array of pointers to them and the buffer for one element. *)
Hypothesis elems_ptrs : apart b (Z.of_nat n * sz) tp (Z.of_nat n * W).
Hypothesis elems_storage : apart b (Z.of_nat n * sz) storage sz.
Hypothesis ptrs_storage : apart tp (Z.of_nat n * W) storage sz.
Hypothesis tp_aligned : tp mod W = 0.
Hypothesis b_range : 0 <= b /\ b + Z.of_nat n * sz <= 2 ^ wordbits A.

Definition ptr (i : nat) : Z := b + Z.of_nat i * sz.
Definition slot_of (i : nat) : Z := tp + Z.of_nat i * W.
Definition pbytes (i : nat) : list Z := bytes_of_word A (ptr i).

Definition element (x : list Z) : Prop := Z.of_nat (length x) = sz /\ Forall is_byte x.

(** The elements are [f], the pointers are those of the elements [g]. *)
Record arrays (m : mem) (f : nat -> list Z) (g : nat -> nat) : Prop := {
  ar_elem : forall q, (q < n)%nat -> bytes_at m (ptr q) (f q) /\ element (f q);
  ar_ptr : forall q, (q < n)%nat -> bytes_at m (slot_of q) (pbytes (g q)) /\ (g q < n)%nat;
  ar_storage : mapped m storage (storage + sz)
}.

Definition upd {X} (f : nat -> X) (j : nat) (v : X) (q : nat) : X := if decide (q = j) then v else f q.

Lemma multiples_apart (k q j : Z) : 0 < k -> q <> j -> q * k + k <= j * k \/ j * k + k <= q * k.
Proof. nia. Qed.

Lemma slot_inside (k q : Z) : 0 <= k -> 0 <= q < Z.of_nat n -> 0 <= q * k /\ q * k + k <= Z.of_nat n * k.
Proof. nia. Qed.

Lemma length_pbytes i : length (pbytes i) = wordlen A.
Proof. unfold pbytes, bytes_of_word. destruct (big_endian A); rewrite ?length_rev; apply length_le_bytes. Qed.

Lemma pbytes_byte i : Forall is_byte (pbytes i).
Proof. unfold pbytes, bytes_of_word. destruct (big_endian A); [apply rev_Forall|]; apply le_bytes_byte. Qed.

Lemma pbytes_word i : (i < n)%nat -> word_of_bytes A (pbytes i) = ptr i.
Proof.
  intros Hi. unfold pbytes, word_of_bytes, bytes_of_word, be_val.
  assert (0 <= ptr i < 256 ^ Z.of_nat (wordlen A)) as Hr.
  { rewrite wordlen_wordsize, pow256 by (pose proof (wordsize_pos A); lia). fold (wordbits A). unfold ptr. nia. }
  destruct (big_endian A); rewrite ?rev_involutive; apply le_val_le_bytes; assumption.
Qed.

Lemma slot_aligned i : slot_of i mod W = 0.
Proof. unfold slot_of. rewrite Z.mod_add by (pose proof (wordsize_pos A); lia). assumption. Qed.

Lemma load_slot {R} m f g q : arrays m f g -> (q < n)%nat -> @load_word R A m (slot_of q) = Next (ptr (g q)).
Proof.
  intros Hm Hq. destruct (ar_ptr _ _ _ Hm q Hq) as [Hb Hg].
  rewrite (load_word_spec A m (slot_of q) (pbytes (g q)) (slot_aligned q) (length_pbytes _) Hb), pbytes_word by assumption. reflexivity.
Qed.

(** Storing a pointer, and copying an element. *)
Lemma store_slot {R} m f g j k : arrays m f g -> (j < n)%nat -> (k < n)%nat ->
  exists m', @store_word R A m (slot_of j) (ptr k) = Next m' /\ arrays m' f (upd g j k) /\
    frame m m' (slot_of j) W b 0 /\ (forall x, length x = Z.to_nat sz -> bytes_at m storage x -> bytes_at m' storage x).
Proof.
  intros Hm Hj Hk. pose proof (wordsize_pos A) as HW. pose proof (wordlen_wordsize A) as EW. unfold store_word. rewrite slot_aligned. cbn [Z.eqb].
  change (bytes_of_word A (ptr k)) with (pbytes k). pose proof (slot_inside W (Z.of_nat j) ltac:(lia) ltac:(lia)) as Bj.
  destruct (ar_ptr _ _ _ Hm j Hj) as [Hold _]. apply bytes_at_mapped in Hold. rewrite length_pbytes in Hold.
  rewrite store_bytes_wr by (try rewrite length_pbytes; auto using pbytes_byte). eexists. split; [reflexivity|]. unfold apart in *.
  split; [split|split].
  - intros q Hq. destruct (ar_elem _ _ _ Hm q Hq) as [He Hel]. split; [|assumption]. apply wr_off; [assumption|].
    rewrite length_pbytes, EW, (proj1 Hel). pose proof (slot_inside sz (Z.of_nat q) ltac:(lia) ltac:(lia)). unfold apart, ptr, slot_of. lia.
  - intros q Hq. unfold upd. destruct (decide (q = j)) as [->|Hne]; [split; [apply wr_at|assumption]|].
    destruct (ar_ptr _ _ _ Hm q Hq) as [Hb Hg]. split; [|assumption]. apply wr_off; [assumption|].
    rewrite !length_pbytes, EW. pose proof (multiples_apart W (Z.of_nat q) (Z.of_nat j) HW ltac:(lia)). unfold apart, slot_of. lia.
  - apply wr_mapped, (ar_storage _ _ _ Hm).
  - eapply frame_weaken; [apply (frame_wr m (slot_of j) (pbytes k) b 0)|rewrite length_pbytes; lia|lia].
  - intros x Hx Hb. apply wr_off; [assumption|]. rewrite length_pbytes, EW, Hx. unfold apart, slot_of. lia.
Qed.

Lemma copy_element {R} m f g j src x : arrays m f g -> (j < n)%nat -> element x -> bytes_at m src x ->
  exists m', @block_copy R m (ptr j) src sz = Next m' /\ arrays m' (upd f j x) g /\
    frame m m' (ptr j) sz b 0 /\ (forall x, length x = Z.to_nat sz -> bytes_at m storage x -> bytes_at m' storage x).
Proof.
  intros Hm Hj [Hx Hxb] Hsrc. pose proof (wordsize_pos A) as HW. pose proof (wordlen_wordsize A) as EW.
  pose proof (slot_inside sz (Z.of_nat j) ltac:(lia) ltac:(lia)) as Bj.
  destruct (ar_elem _ _ _ Hm j Hj) as [Hold [Hol _]]. apply bytes_at_mapped in Hold. rewrite Hol in Hold.
  rewrite (block_copy_wr m (ptr j) src x) by assumption. eexists. split; [reflexivity|]. unfold apart in *.
  split; [split|split].
  - intros q Hq. unfold upd. destruct (decide (q = j)) as [->|Hne]; [split; [apply wr_at|split; assumption]|].
    destruct (ar_elem _ _ _ Hm q Hq) as [He Hel]. split; [|assumption]. apply wr_off; [assumption|]. rewrite Hx, (proj1 Hel).
    pose proof (multiples_apart sz (Z.of_nat q) (Z.of_nat j) sz_pos ltac:(lia)). unfold apart, ptr. lia.
  - intros q Hq. destruct (ar_ptr _ _ _ Hm q Hq) as [Hb Hg]. split; [|assumption]. apply wr_off; [assumption|].
    rewrite length_pbytes, EW, Hx. pose proof (slot_inside W (Z.of_nat q) ltac:(lia) ltac:(lia)). unfold apart, ptr, slot_of. lia.
  - apply wr_mapped, (ar_storage _ _ _ Hm).
  - eapply frame_weaken; [apply (frame_wr m (ptr j) x b 0)|rewrite Hx; lia|lia].
  - intros y Hy Hb. apply wr_off; [assumption|]. rewrite Hx, Hy. unfold apart, ptr. lia.
Qed.

Lemma save_element {R} m f g i : arrays m f g -> (i < n)%nat ->
  exists m', @block_copy R m storage (ptr i) sz = Next m' /\ arrays m' f g /\ bytes_at m' storage (f i) /\ frame m m' storage sz b 0.
Proof.
  intros Hm Hi. pose proof (wordsize_pos A) as HW. pose proof (wordlen_wordsize A) as EW. destruct (ar_elem _ _ _ Hm i Hi) as [Hx [Hl Hb]].
  rewrite (block_copy_wr m storage (ptr i) (f i)) by (auto; exact (ar_storage _ _ _ Hm)). eexists. split; [reflexivity|]. unfold apart in *.
  split; [split|split; [apply wr_at|]].
  - intros q Hq. destruct (ar_elem _ _ _ Hm q Hq) as [He Hel]. split; [|assumption]. apply wr_off; [assumption|]. rewrite Hl, (proj1 Hel).
    pose proof (slot_inside sz (Z.of_nat q) ltac:(lia) ltac:(lia)). unfold apart, ptr. lia.
  - intros q Hq. destruct (ar_ptr _ _ _ Hm q Hq) as [Hp Hg]. split; [|assumption]. apply wr_off; [assumption|].
    rewrite length_pbytes, EW, Hl. pose proof (slot_inside W (Z.of_nat q) ltac:(lia) ltac:(lia)). unfold apart, slot_of. lia.
  - apply wr_mapped, (ar_storage _ _ _ Hm).
  - eapply frame_weaken; [apply (frame_wr m storage (f i) b 0)|rewrite Hl; lia|lia].
Qed.

Lemma arrays_ext m f g f' g' :
  (forall q, (q < n)%nat -> f q = f' q) -> (forall q, (q < n)%nat -> g q = g' q) -> arrays m f g -> arrays m f' g'.
Proof.
  intros Hf Hg [E P S]. split; [| |assumption]; intros q Hq.
  - rewrite <- Hf by assumption. auto.
  - rewrite <- Hg by assumption. auto.
Qed.

(** What permuting may change. *)
Abbreviation inside m m' := (frame m m' b (Z.of_nat n * sz) tp (Z.of_nat n * W + sz)).
Hypothesis storage_eq : storage = tp + Z.of_nat n * W.

Lemma inside_slot m m' j : (j < n)%nat -> frame m m' (slot_of j) W b 0 -> inside m m'.
Proof.
  intros Hj Hf. pose proof (slot_inside W (Z.of_nat j) ltac:(pose proof (wordsize_pos A); lia) ltac:(lia)).
  eapply frame_weaken; [exact Hf|unfold slot_of; lia|lia].
Qed.

Lemma inside_elem m m' j : (j < n)%nat -> frame m m' (ptr j) sz b 0 -> inside m m'.
Proof.
  intros Hj Hf. pose proof (slot_inside sz (Z.of_nat j) ltac:(lia) ltac:(lia)).
  eapply frame_weaken; [exact Hf|unfold ptr; lia|lia].
Qed.

Lemma inside_storage m m' : frame m m' storage sz b 0 -> inside m m'.
Proof. intros Hf. eapply frame_weaken; [exact Hf|pose proof (wordsize_pos A); nia|lia]. Qed.

Definition permutes (g : nat -> nat) : Prop := forall q q', (q < n)%nat -> (q' < n)%nat -> g q = g q' -> q = q'.

Lemma ptr_inj q q' : ptr q = ptr q' <-> q = q'.
Proof. unfold ptr. split; [nia|intros ->; reflexivity]. Qed.

Lemma index_of_ptr q : (ptr q - b) / sz = Z.of_nat q.
Proof. unfold ptr. replace (b + Z.of_nat q * sz - b) with (Z.of_nat q * sz) by lia. apply Z.div_mul. lia. Qed.

(** *** One cycle *)

Section Cycle.
Context (f : nat -> list Z) (g : nat -> nat) (i : nat).
Hypothesis i_lt : (i < n)%nat.
Hypothesis g_inj : permutes g.
Hypothesis g_lt : forall q, (q < n)%nat -> (g q < n)%nat.

(** After the positions [V] have received their elements. *)
Definition elems_after (V : list nat) (q : nat) : list Z := if decide (q ∈ V) then f (g q) else f q.
Definition ptrs_after (V : list nat) (q : nat) : nat := if decide (q ∈ V) then q else g q.

(** [V] is the part of the cycle from [i] up to [j]. *)
Record orbit (V : list nat) (j : nat) : Prop := {
  or_nodup : NoDup (V ++ [j]);
  or_lt : forall q, q ∈ V ++ [j] -> (q < n)%nat;
  or_start : i ∈ V ++ [j];
  or_next : forall q, q ∈ V -> g q ∈ V ++ [j];
  or_prev : forall q, q ∈ V ++ [j] -> q = i \/ exists q', q' ∈ V /\ g q' = q
}.

Lemma snoc_In (q : nat) V j : q ∈ V ++ [j] <-> q ∈ V \/ q = j.
Proof. rewrite elem_of_app, list_elem_of_singleton. reflexivity. Qed.

Lemma orbit_last V j : orbit V j -> (j < n)%nat /\ j ∉ V.
Proof.
  intros Ho. split; [apply (or_lt _ _ Ho), snoc_In; auto|]. pose proof (or_nodup _ _ Ho) as Hnd.
  apply NoDup_app in Hnd as (_ & Hd & _). intros Hj. apply (Hd j Hj), list_elem_of_singleton. reflexivity.
Qed.

Lemma orbit_fresh V j : orbit V j -> g j <> i -> g j ∉ V ++ [j].
Proof.
  intros Ho Hne Hin. destruct (orbit_last V j Ho) as [Hj HV]. destruct (or_prev _ _ Ho _ Hin) as [E|(q' & Hq' & E)]; [congruence|].
  assert (q' = j) as -> by (apply g_inj; [apply (or_lt _ _ Ho), snoc_In; auto|assumption..]). contradiction.
Qed.

Lemma orbit_step V j : orbit V j -> g j <> i -> orbit (V ++ [j]) (g j).
Proof.
  intros Ho Hne. pose proof (orbit_fresh V j Ho Hne) as Hf. destruct (orbit_last V j Ho) as [Hj HV]. split.
  - apply NoDup_app. split; [exact (or_nodup _ _ Ho)|]. split; [|apply NoDup_singleton].
    intros q Hq E. apply list_elem_of_singleton in E. subst q. contradiction.
  - intros q Hq. apply snoc_In in Hq as [Hq| ->]; [exact (or_lt _ _ Ho q Hq)|auto].
  - apply snoc_In. left. exact (or_start _ _ Ho).
  - intros q Hq. apply snoc_In. apply snoc_In in Hq as [Hq| ->]; [left; exact (or_next _ _ Ho q Hq)|auto].
  - intros q Hq. apply snoc_In in Hq as [Hq| ->]; [|right; exists j; split; [apply snoc_In|]; auto].
    destruct (or_prev _ _ Ho q Hq) as [E|(q' & Hq' & E)]; [auto|]. right. exists q'. split; [apply snoc_In|]; auto.
Qed.

Lemma orbit_length V j : orbit V j -> (length V < n)%nat.
Proof.
  intros Ho. assert (V ++ [j] ⊆+ seq 0 n) as Hs.
  { apply NoDup_submseteq; [exact (or_nodup _ _ Ho)|]. intros q Hq. apply elem_of_seq. pose proof (or_lt _ _ Ho q Hq). lia. }
  apply submseteq_length in Hs. rewrite length_app, length_seq in Hs. simpl in Hs. lia.
Qed.

(** Position [j] receives the element [f (g j)] and its own pointer. *)
Lemma after_step V j m :
  arrays m (upd (elems_after V) j (f (g j))) (upd (ptrs_after V) j j) -> arrays m (elems_after (V ++ [j])) (ptrs_after (V ++ [j])).
Proof.
  apply arrays_ext; intros q _; unfold upd, elems_after, ptrs_after; destruct (decide (q = j)) as [->|Hne].
  1, 3: rewrite decide_True by (apply snoc_In; auto); reflexivity.
  all: rewrite (decide_ext _ (q ∈ V ++ [j])) by (rewrite snoc_In; tauto); reflexivity.
Qed.

Lemma permute_cycle_spec {R} fuel V j m :
  orbit V j -> g j <> i -> (n <= length V + fuel)%nat ->
  arrays m (elems_after V) (ptrs_after V) -> bytes_at m storage (f i) -> Z.of_nat (length (f i)) = sz ->
  exists V' j' m', @permute_cycle A R fuel m b sz tp (ptr i) (Z.of_nat j) (ptr j) (ptr (g j)) = Next (m', Z.of_nat j', ptr j') /\
    orbit V' j' /\ g j' = i /\ arrays m' (elems_after V') (ptrs_after V') /\ bytes_at m' storage (f i) /\ inside m m'.
Proof.
  revert V j m. induction fuel as [|fuel IH]; intros V j m Ho Hne Hf Hm Hst Hsl.
  { pose proof (orbit_length _ _ Ho). lia. }
  destruct (orbit_last V j Ho) as [Hj _]. pose proof (g_lt j Hj) as Hgj. pose proof (orbit_fresh _ _ Ho Hne) as Hfr.
  cbn [permute_cycle]. rewrite index_of_ptr. change (tp + Z.of_nat ?k * W) with (slot_of k).
  destruct (store_slot (R := R) m _ _ j j Hm Hj Hj) as (m1 & -> & Hm1 & F1 & St1). cbn [flow_bind].
  destruct (ar_elem _ _ _ Hm1 (g j) Hgj) as [Hsrc Hel]. rewrite snoc_In in Hfr.
  unfold elems_after in Hsrc, Hel. rewrite decide_False in Hsrc, Hel by tauto. rewrite <- snoc_In in Hfr.
  destruct (copy_element (R := R) m1 _ _ j (ptr (g j)) (f (g j)) Hm1 Hj Hel Hsrc) as (m2 & -> & Hm2 & F2 & St2). cbn [flow_bind].
  apply (after_step V j m2) in Hm2. rewrite (load_slot (R := R) m2 _ _ (g j) Hm2 Hgj). cbn [flow_bind].
  replace (ptrs_after (V ++ [j]) (g j)) with (g (g j)) by (unfold ptrs_after; rewrite decide_False by assumption; reflexivity).
  assert (bytes_at m2 storage (f i)) as Hst2 by (apply St2, St1; auto; lia).
  assert (inside m m2) as F12 by (exact (frame_trans _ _ _ _ _ _ _ (inside_slot _ _ _ Hj F1) (inside_elem _ _ _ Hj F2))).
  pose proof (orbit_step _ _ Ho Hne) as Ho'. destruct (Z.eqb_spec (ptr (g (g j))) (ptr i)) as [E|Hn].
  - apply ptr_inj in E. exists (V ++ [j]), (g j), m2. auto 7.
  - rewrite ptr_inj in Hn. destruct (IH (V ++ [j]) (g j) m2) as (V' & j' & m' & -> & Ho2 & Hg2 & Hm' & Hs' & F'); auto.
    { rewrite length_app. simpl. lia. }
    exists V', j', m'. split; [reflexivity|]. eauto 7 using frame_trans.
Qed.
End Cycle.

(** *** All cycles *)

(** The elements [f], taken in the order [g], are [T]; the positions below [i] are done. *)
Record pending (T : nat -> list Z) (i : nat) (m : mem) (f : nat -> list Z) (g : nat -> nat) : Prop := {
  pd_arrays : arrays m f g;
  pd_inj : permutes g;
  pd_target : forall q, (q < n)%nat -> f (g q) = T q;
  pd_done : forall q, (q < i)%nat -> g q = q
}.

(** A closed cycle is done, and the rest is as before. *)
Lemma cycle_done T i m f g C :
  (i < n)%nat -> pending T i m f g -> i ∈ C -> (forall q, q ∈ C -> g q ∈ C /\ (q < n)%nat) ->
  (forall q, q ∈ C -> exists q', q' ∈ C /\ g q' = q) ->
  forall m', arrays m' (elems_after f g C) (ptrs_after g C) -> pending T (S i) m' (elems_after f g C) (ptrs_after g C).
Proof.
  intros Hi Hp HiC Hcl Hpre m' Hm'. pose proof (pd_inj _ _ _ _ _ Hp) as Hinj.
  assert (forall q, (q < n)%nat -> q ∉ C -> g q ∉ C) as Hout.
  { intros q Hq Hn Hin. destruct (Hpre _ Hin) as (q' & Hq' & E). apply Hn. rewrite <- (Hinj q' q); auto. apply Hcl. assumption. }
  split; [assumption| | |].
  - intros q q' Hq Hq'. unfold ptrs_after. destruct (decide (q ∈ C)) as [Hc|Hc], (decide (q' ∈ C)) as [Hc'|Hc']; auto.
    + intros E. exfalso. apply (Hout q' Hq' Hc'). rewrite <- E. exact Hc.
    + intros E. exfalso. apply (Hout q Hq Hc). rewrite E. exact Hc'.
  - intros q Hq. rewrite <- (pd_target _ _ _ _ _ Hp q Hq). unfold elems_after, ptrs_after. destruct (decide (q ∈ C)) as [Hc|Hc].
    + rewrite decide_True by assumption. reflexivity.
    + rewrite decide_False by auto. reflexivity.
  - intros q Hq. unfold ptrs_after. destruct (decide (q ∈ C)) as [|Hc]; [reflexivity|]. destruct (Nat.eq_dec q i) as [->|]; [contradiction|].
    apply (pd_done _ _ _ _ _ Hp). lia.
Qed.

Lemma permute_from_spec {R} T i m f g :
  (i < n)%nat -> pending T i m f g ->
  exists m' f' g', @permute_from A R (Z.of_nat n) m b sz tp storage (Z.of_nat i) (ptr i) = Next m' /\ pending T (S i) m' f' g' /\ inside m m'.
Proof.
  intros Hi [Hm Hinj Htgt Hdone]. unfold permute_from. change (tp + Z.of_nat ?k * W) with (slot_of k).
  rewrite (load_slot (R := R) m f g i Hm Hi). cbn [flow_bind]. destruct (Z.eqb_spec (ptr (g i)) (ptr i)) as [E|Hne].
  { apply ptr_inj in E. exists m, f, g. split; [reflexivity|]. split; [|apply frame_refl]. split; auto.
    intros q Hq. destruct (Nat.eq_dec q i) as [->|]; [assumption|]. apply Hdone. lia. }
  rewrite ptr_inj in Hne. assert (forall q, (q < n)%nat -> (g q < n)%nat) as Hlt by (intros q Hq; apply (ar_ptr _ _ _ Hm q Hq)).
  destruct (save_element (R := R) m f g i Hm Hi) as (m1 & -> & Hm1 & St1 & F1). cbn [flow_bind]. rewrite Nat2Z.id.
  destruct (ar_elem _ _ _ Hm i Hi) as [_ [Hfl Hfb]].
  assert (orbit g i [] i) as Ho.
  { split; simpl; [apply NoDup_singleton| |apply list_elem_of_singleton; reflexivity| |].
    - intros q ->%list_elem_of_singleton. assumption.
    - intros q Hq. inversion Hq.
    - intros q ->%list_elem_of_singleton. auto. }
  destruct (permute_cycle_spec (R := R) f g i Hi Hinj Hlt n [] i m1) as (V & j & m2 & -> & Ho2 & Hgj & Hm2 & St2 & F2); auto.
  destruct (orbit_last g i V j Ho2) as [Hj _]. cbn [flow_bind].
  destruct (store_slot (R := R) m2 _ _ j j Hm2 Hj Hj) as (m3 & E3 & Hm3 & F3 & St3). unfold slot_of in E3. rewrite E3. cbn [flow_bind].
  assert (bytes_at m3 storage (f i)) as Hst3 by (apply St3; auto; lia).
  destruct (copy_element (R := R) m3 _ _ j storage (f i) Hm3 Hj (conj Hfl Hfb) Hst3) as (m4 & -> & Hm4 & F4 & _).
  replace (f i) with (f (g j)) in Hm4 by (rewrite Hgj; reflexivity). apply after_step in Hm4.
  exists m4, (elems_after f g (V ++ [j])), (ptrs_after g (V ++ [j])). split; [reflexivity|]. split.
  - apply (cycle_done T i m f g); auto; [split; assumption|exact (or_start _ _ _ _ Ho2)| |].
    + intros q Hq. split; [|exact (or_lt _ _ _ _ Ho2 q Hq)]. apply snoc_In in Hq as [Hq| ->]; [exact (or_next _ _ _ _ Ho2 q Hq)|].
      rewrite Hgj. exact (or_start _ _ _ _ Ho2).
    + intros q Hq. destruct (or_prev _ _ _ _ Ho2 q Hq) as [->|(q' & Hq' & E)]; [exists j|exists q']; rewrite snoc_In; auto.
  - eapply frame_trans; [apply inside_storage; exact F1|]. eapply frame_trans; [exact F2|].
    eapply frame_trans; [exact (inside_slot _ _ _ Hj F3)|exact (inside_elem _ _ _ Hj F4)].
Qed.

Lemma permute_spec {R} T c i m f g :
  (i + c = n)%nat -> pending T i m f g ->
  exists m', @permute A R c (Z.of_nat n) m b sz tp storage (Z.of_nat i) (ptr i) = Next m' /\
    (forall q, (q < n)%nat -> bytes_at m' (ptr q) (T q)) /\ inside m m'.
Proof.
  revert i m f g. induction c as [|c IH]; intros i m f g Hc Hp.
  - exists m. split; [reflexivity|]. split; [|apply frame_refl]. intros q Hq. destruct Hp as [Hm _ Htgt Hdone].
    rewrite <- Htgt, Hdone by lia. apply (ar_elem _ _ _ Hm q Hq).
  - cbn [permute]. destruct (permute_from_spec (R := R) T i m f g) as (m1 & f1 & g1 & -> & Hp1 & F1); auto; [lia|]. cbn [flow_bind].
    destruct (IH (S i) m1 f1 g1) as (m2 & E & Hm2 & F2); auto; [lia|]. exists m2. split; [|eauto using frame_trans].
    rewrite <- E. f_equal; unfold ptr; lia.
Qed.
End Permute.

(** ** The two ways of sorting *)

Lemma list_lookup_nth_lt {X} (l : list X) q d : (q < length l)%nat -> l !! q = Some (nth q l d).
Proof. intros Hq. destruct (lookup_lt_is_Some_2 l q Hq) as [x Hx]. rewrite (nth_lookup_Some _ _ d x Hx). assumption. Qed.

Lemma list_eq_nth {X} (d : X) l k : length l = length k -> (forall q, (q < length l)%nat -> nth q l d = nth q k d) -> l = k.
Proof.
  revert k. induction l as [|x l IH]; intros [|y k] Hl Hn; try discriminate; [reflexivity|]. f_equal.
  - exact (Hn 0%nat ltac:(simpl; lia)).
  - apply IH; [injection Hl as Hl; assumption|]. intros q Hq. exact (Hn (S q) ltac:(simpl; lia)).
Qed.

(** The order of the comparison function. *)
Definition cmp_le (cmp : list Z -> list Z -> Z) (x y : list Z) : Prop := cmp x y <= 0.

#[export] Instance cmp_le_dec cmp : RelDecision (cmp_le cmp).
Proof. intros x y. unfold Decision, cmp_le. apply Z_le_dec. Defined.

Section Sorting.
Context (A : arch) (align64 : Z) (cmp : list Z -> list Z -> Z).
Hypothesis align64_ok : align64 = 4 \/ align64 = 8.

(** The unit in which [choose_var] has elements moved. *)
Definition unit_of (v : Z) : Z := match v with 0 => 4 | 1 => align64 | 2 => wordsize A | _ => 1 end.

Lemma choose_var_cases b sz :
  let v := choose_var A align64 b sz in
  ((v = 0 /\ sz = 4) \/ (v = 1 /\ sz = 8) \/ v = 2 \/ v = 4) /\ sz mod unit_of v = 0 /\ b mod unit_of v = 0.
Proof.
  unfold choose_var. destruct (wordsize_cases A) as [HW|HW].
  all: assert (forall x, x mod 1 = 0) as H1 by (intros x; apply Z.mod_1_r).
  all: assert (forall x k, 0 <= k -> Z.land x (2 ^ k - 1) = x mod 2 ^ k) as Hland by (intros x k Hk; rewrite <- Z.land_ones by assumption; f_equal; rewrite Z.ones_equiv; lia).
  all: destruct ((Z.land sz (4 - 1) =? 0) && (b mod 4 =? 0)) eqn:E; [|cbn; auto 8].
  all: apply andb_true_iff in E as [E4 B4]; apply Z.eqb_eq in E4, B4.
  all: destruct (Z.eqb_spec sz 4) as [->|]; [cbn; auto 8|].
  all: destruct ((sz =? 8) && (b mod align64 =? 0)) eqn:E8;
    [apply andb_true_iff in E8 as [->%Z.eqb_eq B8]; apply Z.eqb_eq in B8; cbn [unit_of]; split; [auto|]; split; [|assumption];
     destruct align64_ok as [-> | ->]; reflexivity|].
  all: destruct ((Z.land sz (wordsize A - 1) =? 0) && (b mod wordsize A =? 0)) eqn:EW; [|cbn; auto 8].
  all: apply andb_true_iff in EW as [EW BW]; apply Z.eqb_eq in EW, BW; cbn [unit_of]; split; [auto|]; split; [|assumption].
  all: rewrite HW in EW |- *.
  - exact (eq_trans (eq_sym (Hland sz 2 ltac:(lia))) EW).
  - exact (eq_trans (eq_sym (Hland sz 3 ltac:(lia))) EW).
Qed.

Lemma unit_of_8 v : 0 < unit_of v /\ (forall q, q mod 8 = 0 -> q mod unit_of v = 0).
Proof.
  assert (unit_of v = 1 \/ unit_of v = 4 \/ unit_of v = 8) as Hu.
  { unfold unit_of. destruct v as [|[|[| |]|]|]; try (destruct (wordsize_cases A); lia); auto. }
  split; [lia|]. intros q Hq. apply Z.mod_divide in Hq as [k ->]; [|lia].
  destruct Hu as [-> | [-> | ->]]; [apply Z.mod_1_r|replace (k * 8) with (k * 2 * 4) by lia; apply Z.mod_mul; lia|apply Z.mod_mul; lia].
Qed.

Lemma move_direct {R} b sz tm m dst src x :
  let p := Param sz (choose_var A align64 b sz) tm in
  element sz x -> bytes_at m src x -> mapped m dst (dst + sz) -> apart dst sz src sz ->
  dst mod unit_of (var p) = 0 -> src mod unit_of (var p) = 0 -> @move_one A align64 R p m dst src = Next (wr m dst x).
Proof.
  intros p [Hx Hxb] Hs Hd Hap Ad As. pose proof (choose_var_cases b sz) as Hv. cbv zeta in Hv. unfold move_one.
  subst p. cbn [var s] in *. set (v := choose_var A align64 b sz) in *. pose proof (wordlen_wordsize A) as EW. pose proof (wordsize_pos A) as HW.
  destruct Hv as [[[-> ->]|[[-> ->]|[-> | ->]]] [Hm _]]; cbn [unit_of] in *.
  - unfold copy_uint. rewrite Ad, As. cbn [Z.eqb andb]. apply block_copy_wr; assumption.
  - unfold copy_uint. rewrite Ad, As. cbn [Z.eqb andb]. apply block_copy_wr; assumption.
  - apply Z.mod_divide in Hm as [k Hk]; [|lia]. rewrite <- Hx. apply (copy_longs_wr A (Z.to_nat k)); try assumption.
    + nia.
    + rewrite Hx. assumption.
    + rewrite Hx. assumption.
    + nia.
  - apply block_copy_wr; assumption.
Qed.

Lemma call_cmp_at {R} n m a b x y :
  length x = n -> length y = n -> bytes_at m a x -> bytes_at m b y -> @call_cmp cmp n R m a b = Next (cmp x y).
Proof.
  intros Hx Hy Ba Bb. unfold call_cmp. rewrite <- Hx at 1. rewrite (load_bytes_spec _ _ _ Ba). cbn [flow_bind].
  rewrite <- Hy at 1. rewrite (load_bytes_spec _ _ _ Bb). reflexivity.
Qed.

Lemma sort_direct_spec {R} m b sz tm l :
  0 < sz -> Forall (element sz) l -> bytes_at m b (concat l) ->
  let k := Z.of_nat (length l) * sz in
  k < 2 ^ wordbits A -> apart b k tm k -> mapped m tm (tm + k) -> tm mod 8 = 0 ->
  exists m', @sort_direct A align64 cmp (Z.to_nat sz) R m b (Z.of_nat (length l)) sz tm = Next m' /\
    bytes_at m' b (concat (msort_list (cmp_le cmp) (S (length l)) l)) /\ frame m m' b k tm k.
Proof.
  intros Hsz Hl Hb k Hk Hap Ht Hal. set (p := Param sz (choose_var A align64 b sz) tm). set (w := Z.to_nat sz).
  assert (Z.of_nat w = sz) as Ew by lia. assert (Z.of_nat (length l * w) = k) as Ek by (subst k; lia).
  pose proof (choose_var_cases b sz) as Hv. cbv zeta in Hv. destruct (unit_of_8 (var p)) as [Hup Hu8].
  unfold sort_direct. fold p. rewrite Nat2Z.id. rewrite <- Ek in *.
  destruct (msort_with_tmp_spec A align64 cmp w p w (unit_of (var p)) ltac:(lia) Hup ltac:(rewrite Ew; apply Hv) (eq_sym Ew)
    ltac:(unfold advance_by; subst p; cbn [var s]; destruct (proj1 Hv) as [[-> ->]|[[-> ->]|[-> | ->]]]; lia)
    (cmp_le cmp) (element sz) ltac:(intros x [Hx _]; lia) ltac:(intros x [_ Hx]; assumption) m b (length l) Hk Hap Ht (Hu8 _ Hal)
    ltac:(intros R' m' b1 b2 x y _ [Hx _] [Hy _] Bx By _ _; unfold compare_one; subst p; cbn [var];
      replace (choose_var A align64 b sz =? 3) with false by (destruct (proj1 Hv) as [[-> _]|[[-> _]|[-> | ->]]]; reflexivity);
      rewrite (call_cmp_at _ _ _ _ x y) by (assumption || lia); eexists; split; reflexivity)
    ltac:(intros R' m' dst src x Hx Bx Hd Hap' Ad As; rewrite Ew in *; apply move_direct; assumption)
    (R := R) (S (length l)) m b l) as (m' & E & Hb' & F); auto using frame_refl; try lia; [apply Hv|].
  exists m'. auto.
Qed.

(** ** Indirect sorting *)

(** An array in memory, element by element. *)
Lemma concat_elems (w : nat) m b l :
  Forall (fun x => length x = w) l ->
  bytes_at m b (concat l) <-> forall q x, l !! q = Some x -> bytes_at m (b + Z.of_nat q * Z.of_nat w) x.
Proof.
  intros Hl. revert b. induction Hl as [|y l Hy _ IH]; intros b.
  - split; [intros _ q x Hq; discriminate Hq|intros _ i v Hi; discriminate Hi].
  - cbn [concat]. rewrite bytes_at_app, Hy, IH. split.
    + intros [H0 H] [|q] x Hq.
      * injection Hq as <-. rewrite Z.add_0_r. assumption.
      * specialize (H q x Hq). replace (b + Z.of_nat (S q) * Z.of_nat w) with (b + Z.of_nat w + Z.of_nat q * Z.of_nat w) by lia. assumption.
    + intros H. split; [specialize (H 0%nat y eq_refl); rewrite Z.add_0_r in H; assumption|]. intros q x Hq. specialize (H (S q) x Hq).
      replace (b + Z.of_nat w + Z.of_nat q * Z.of_nat w) with (b + Z.of_nat (S q) * Z.of_nat w) by lia. assumption.
Qed.

Lemma fill_pointers_spec {R} b sz tp c i fuel m :
  (c <= fuel)%nat -> tp mod wordsize A = 0 -> mapped m (slot_of A tp i) (slot_of A tp (i + c)) ->
  @fill_pointers A R fuel m (slot_of A tp i) (ptr b sz i) sz (slot_of A tp (i + c)) =
  Next (wr m (slot_of A tp i) (concat (map (pbytes A b sz) (seq i c)))).
Proof.
  intros Hf Ht. pose proof (wordsize_pos A) as HW. pose proof (wordlen_wordsize A) as EW.
  revert i fuel m Hf. induction c as [|c IH]; intros i fuel m Hf Hm.
  - rewrite Nat.add_0_r. destruct fuel; cbn [fill_pointers]; rewrite Z.ltb_irrefl; reflexivity.
  - destruct fuel as [|fuel]; [lia|]. cbn [fill_pointers]. rewrite (proj2 (Z.ltb_lt _ _)) by (unfold slot_of; nia).
    unfold store_word. rewrite (slot_aligned A tp i Ht). cbn [Z.eqb]. fold (pbytes A b sz i).
    assert (forall a, slot_of A tp i <= a < slot_of A tp i + wordsize A -> is_Some (m !! a)) as Hi by (intros a Ha; apply Hm; unfold slot_of in *; nia).
    rewrite store_bytes_wr by (try rewrite length_pbytes, EW; auto using pbytes_byte). cbn [flow_bind seq map concat].
    rewrite wr_app, length_pbytes, EW.
    replace (slot_of A tp i + wordsize A) with (slot_of A tp (S i)) by (unfold slot_of; lia).
    replace (ptr b sz i + sz) with (ptr b sz (S i)) by (unfold ptr; lia).
    replace (i + S c)%nat with (S i + c)%nat by lia. apply IH; [lia|]. apply wr_mapped.
    intros a Ha. apply Hm. unfold slot_of in *. nia.
Qed.

Definition elem_of_ptr (b sz : Z) (l : list (list Z)) (x : list Z) : list Z :=
  nth (Z.to_nat ((word_of_bytes A x - b) / sz)) l [].

Definition ptr_le (b sz : Z) (l : list (list Z)) (x y : list Z) : Prop := cmp_le cmp (elem_of_ptr b sz l x) (elem_of_ptr b sz l y).

#[local] Instance ptr_le_dec b sz l : RelDecision (ptr_le b sz l).
Proof. intros x y. apply cmp_le_dec. Defined.

Definition idx_le (l : list (list Z)) (i j : nat) : Prop := cmp_le cmp (nth i l []) (nth j l []).

#[local] Instance idx_le_dec l : RelDecision (idx_le l).
Proof. intros x y. apply cmp_le_dec. Defined.

(** The order in which the pointers end up. *)
Definition sorted_idx (l : list (list Z)) : list nat := msort_list (idx_le l) (S (length l)) (seq 0 (length l)).

Lemma sorted_idx_elems l : map (fun i => nth i l []) (sorted_idx l) = msort_list (cmp_le cmp) (S (length l)) l.
Proof.
  unfold sorted_idx. rewrite (msort_list_map (fun i => nth i l []) (cmp_le cmp) (idx_le l) (fun _ => True)).
  - f_equal. apply list_eq_nth with (d := []); [rewrite length_map, length_seq; reflexivity|]. intros q Hq.
    rewrite length_map, length_seq in Hq. rewrite (nth_indep _ [] (nth 0 l [])) by (rewrite length_map, length_seq; assumption).
    rewrite (map_nth (fun i => nth i l [])), seq_nth by assumption. reflexivity.
  - reflexivity.
  - apply Forall_true. auto.
Qed.

Section Indirect.
Context (m : mem) (b sz tm : Z) (l : list (list Z)).
Abbreviation n := (length l).
Abbreviation W := (wordsize A).
Abbreviation tp := (tm + Z.of_nat n * W).
Abbreviation pb := (pbytes A b sz).
Hypothesis sz_pos : 0 < sz.
Hypothesis l_elems : Forall (element sz) l.
Hypothesis l_at : bytes_at m b (concat l).
Hypothesis b_range : 0 <= b /\ b + Z.of_nat n * sz <= 2 ^ wordbits A.
Hypothesis area_range : Z.of_nat n * W < 2 ^ wordbits A.
Hypothesis area_apart : apart b (Z.of_nat n * sz) tm (2 * (Z.of_nat n * W) + sz).
Hypothesis area_mapped : mapped m tm (tm + (2 * (Z.of_nat n * W) + sz)).
Hypothesis area_aligned : tm mod 8 = 0.

Lemma tp_aligned : tm mod W = 0 /\ tp mod W = 0.
Proof.
  pose proof (wordsize_pos A) as HW. assert (tm mod W = 0) as E.
  { apply Z.mod_divide in area_aligned as [k ->]; [|lia]. destruct (wordsize_cases A) as [-> | ->];
      [replace (k * 8) with (k * 2 * 4) by lia|]; apply Z.mod_mul; lia. }
  split; [assumption|]. rewrite Z.mod_add by lia. assumption.
Qed.

Lemma l_lengths : Forall (fun x => length x = Z.to_nat sz) l.
Proof. eapply Forall_impl; [exact l_elems|]. intros x [Hx _]. lia. Qed.

Lemma length_l : length (concat l) = (n * Z.to_nat sz)%nat.
Proof. apply length_concat_eq, l_lengths. Qed.

(** The elements, in any memory that agrees with [m] on them. *)
Lemma elem_at m' q : bytes_at m' b (concat l) -> (q < n)%nat -> bytes_at m' (ptr b sz q) (nth q l []) /\ element sz (nth q l []).
Proof.
  intros Hb Hq. destruct (lookup_lt_is_Some_2 l q Hq) as [x Hx]. rewrite (nth_lookup_Some _ _ [] x Hx).
  pose proof (proj1 (concat_elems _ m' b l l_lengths) Hb q x Hx) as Hat. rewrite Z2Nat.id in Hat by lia.
  split; [exact Hat|]. exact (proj1 (Forall_lookup _ _) l_elems q x Hx).
Qed.

Lemma elem_of_pbytes i : (i < n)%nat -> elem_of_ptr b sz l (pb i) = nth i l [].
Proof.
  intros Hi. unfold elem_of_ptr. rewrite (pbytes_word A b sz n) by assumption. rewrite index_of_ptr by assumption. rewrite Nat2Z.id. reflexivity.
Qed.

Definition is_pointer (x : list Z) : Prop := exists i, (i < n)%nat /\ x = pb i.

(** Sorting the pointers. *)
Lemma sort_pointers {R} m1 :
  bytes_at m1 tp (concat (map pb (seq 0 n))) -> bytes_at m1 b (concat l) -> mapped m1 tm tp ->
  exists m2, @msort_with_tmp A align64 cmp (Z.to_nat sz) R (S n) (Param W 3 tm) m1 tp (Z.of_nat n) = Next m2 /\
    bytes_at m2 tp (concat (map pb (sorted_idx l))) /\ frame m1 m2 tp (Z.of_nat n * W) tm (Z.of_nat n * W).
Proof.
  intros Hp Hb Hm. pose proof (wordsize_pos A) as HW. pose proof (wordlen_wordsize A) as EW. destruct tp_aligned as [At Atp].
  set (p := Param W 3 tm). set (l' := map pb (seq 0 n)).
  assert (length l' = n) as Hl' by (subst l'; rewrite length_map, length_seq; reflexivity).
  assert (Z.of_nat (n * wordlen A) = Z.of_nat n * W) as Enw by lia.
  assert (Forall is_pointer l') as Hok.
  { apply Forall_map, Forall_forall. intros i Hi%elem_of_seq. exists i. split; [lia|reflexivity]. }
  destruct (msort_with_tmp_spec A align64 cmp (Z.to_nat sz) p (wordlen A) W ltac:(lia) HW ltac:(rewrite EW; apply Z.mod_same; lia)
    (eq_sym EW) (eq_sym EW) (ptr_le b sz l) is_pointer) with (m0 := m1) (b0 := tp) (N := n) (R := R) (fuel := S n) (m := m1) (b := tp) (l := l')
    as (m2 & E & Hb2 & F2); try rewrite Hl'; auto using frame_refl; try lia.
  - intros x (i & _ & ->). apply length_pbytes.
  - intros x (i & _ & ->). apply pbytes_byte.
  - unfold apart. cbn [t p]. lia.
  - intros a Ha. apply Hm. cbn [t p] in Ha. lia.
  - intros R' m' b1 b2 x y Hg (i & Hi & ->) (j & Hj & ->) Bx By A1 A2. unfold compare_one. cbn [var p Z.eqb].
    rewrite (load_word_spec A m' b1 (pb i) A1 (length_pbytes A b sz i) Bx). cbn [flow_bind].
    rewrite (load_word_spec A m' b2 (pb j) A2 (length_pbytes A b sz j) By). cbn [flow_bind]. rewrite !(pbytes_word A b sz n) by assumption.
    assert (bytes_at m' b (concat l)) as Hb'.
    { eapply frame_at; [exact Hg|exact Hb|..]; rewrite length_l; unfold apart in *; cbn [t p]; lia. }
    destruct (elem_at m' i Hb' Hi) as [Bi [Li _]]. destruct (elem_at m' j Hb' Hj) as [Bj [Lj _]].
    rewrite (call_cmp_at _ _ _ _ (nth i l []) (nth j l [])) by (assumption || lia). eexists. split; [reflexivity|].
    unfold ptr_le. rewrite !elem_of_pbytes by assumption. reflexivity.
  - intros R' m' dst src x (i & Hi & ->) Bx Hd Hap Ad As. unfold move_one. cbn [var p].
    apply copy_long_wr; auto using length_pbytes, pbytes_byte. rewrite <- EW. assumption.
  - exists m2. rewrite Hl' in *. split; [exact E|]. rewrite Enw in F2. split; [|exact F2].
    unfold sorted_idx. rewrite (msort_list_map pb (ptr_le b sz l) (idx_le l) (fun i => (i < n)%nat)); [exact Hb2| |].
    + intros i j Hi Hj. unfold ptr_le. rewrite !elem_of_pbytes by assumption. reflexivity.
    + apply Forall_forall. intros i Hi%elem_of_seq. lia.
Qed.

Lemma sorted_idx_perm : sorted_idx l ≡ₚ seq 0 n.
Proof. apply msort_list_perm. Qed.

Lemma length_sorted_idx : length (sorted_idx l) = n.
Proof. rewrite sorted_idx_perm. apply length_seq. Qed.

Lemma sorted_idx_lt q : (q < n)%nat -> (nth q (sorted_idx l) 0 < n)%nat.
Proof.
  intros Hq. assert (nth q (sorted_idx l) 0%nat ∈ seq 0 n) as Hin.
  { rewrite <- sorted_idx_perm. apply list_elem_of_In, nth_In. rewrite length_sorted_idx. assumption. }
  apply elem_of_seq in Hin. lia.
Qed.

Lemma sorted_idx_inj : permutes n (fun q => nth q (sorted_idx l) 0%nat).
Proof.
  intros q q' Hq Hq' E. assert (NoDup (sorted_idx l)) as Hnd by (rewrite sorted_idx_perm; apply NoDup_seq).
  apply (NoDup_lookup _ q q' (nth q (sorted_idx l) 0%nat) Hnd); [|rewrite E]; apply list_lookup_nth_lt; rewrite length_sorted_idx; assumption.
Qed.

Lemma sort_indirect_spec {R} :
  exists m', @sort_indirect A align64 cmp (Z.to_nat sz) R m b (Z.of_nat n) sz tm = Next m' /\
    bytes_at m' b (concat (msort_list (cmp_le cmp) (S n) l)) /\
    frame m m' b (Z.of_nat n * sz) tm (2 * (Z.of_nat n * W) + sz).
Proof.
  pose proof (wordsize_pos A) as HW. pose proof (wordlen_wordsize A) as EW. destruct tp_aligned as [At Atp]. unfold apart in area_apart.
  pose proof length_l as Ll. assert (Z.of_nat (n * Z.to_nat sz) = Z.of_nat n * sz) as Ens by nia. unfold sort_indirect. rewrite Nat2Z.id.
  pose proof (fill_pointers_spec (R := R) b sz tp n 0 n m (le_n n) Atp) as Hfill.
  replace (slot_of A tp 0) with tp in Hfill by (unfold slot_of; lia). replace (ptr b sz 0) with b in Hfill by (unfold ptr; lia).
  change (slot_of A tp (0 + n)) with (tp + Z.of_nat n * W) in Hfill. rewrite Hfill by (intros a Ha; apply area_mapped; lia).
  clear Hfill. cbn [flow_bind]. set (m1 := wr m tp (concat (map pb (seq 0 n)))).
  assert (length (concat (map pb (seq 0 n))) = (n * wordlen A)%nat) as Lp.
  { rewrite (length_concat_eq (wordlen A)), length_map, length_seq; [reflexivity|]. apply Forall_map, Forall_forall. intros; apply length_pbytes. }
  destruct (sort_pointers (R := R) m1) as (m2 & -> & Hp2 & F2).
  { apply wr_at. } { apply wr_off; [assumption|]. rewrite Lp, Ll. unfold apart. lia. } { apply wr_mapped. intros a Ha. apply area_mapped. lia. }
  cbn [flow_bind]. assert (frame m m2 b (Z.of_nat n * sz) tm (2 * (Z.of_nat n * W) + sz)) as F12.
  { eapply frame_trans; [apply (frame_weaken _ _ tp (Z.of_nat (length (concat (map pb (seq 0 n))))) tp 0); [apply frame_wr|lia|lia]|].
    eapply frame_weaken; [exact F2|lia|lia]. }
  assert (bytes_at m2 b (concat l)) as Hb2.
  { eapply frame_at; [exact F2| |rewrite Ll; unfold apart; lia..]. apply wr_off; [assumption|]. rewrite Lp, Ll. unfold apart. lia. }
  set (g := fun q => nth q (sorted_idx l) 0%nat). set (T := fun q => nth (g q) l []).
  destruct (permute_spec A b sz tp (tp + Z.of_nat n * W) n) with (R := R) (T := T) (c := n) (i := 0%nat) (m := m2) (f := fun q => nth q l []) (g := g)
    as (m3 & E3 & Hm3 & F3); try assumption; try reflexivity; try (unfold apart; lia).
  { split; [split| | |lia].
    - intros q Hq. apply elem_at; assumption.
    - intros q Hq. split; [|apply sorted_idx_lt; assumption].
      assert (Forall (fun x => length x = wordlen A) (map pb (sorted_idx l))) as Hlen by (apply Forall_map, Forall_forall; intros; apply length_pbytes).
      rewrite (concat_elems _ m2 tp _ Hlen) in Hp2. unfold slot_of. rewrite EW in Hp2. apply Hp2. rewrite list_lookup_fmap.
      unfold g. rewrite (list_lookup_nth_lt _ _ 0%nat) by (rewrite length_sorted_idx; assumption). reflexivity.
    - apply (proj2 F12). intros a Ha. apply area_mapped. lia.
    - exact sorted_idx_inj.
    - reflexivity. }
  exists m3. split; [rewrite <- E3; f_equal; unfold ptr; lia|]. split.
  - rewrite <- sorted_idx_elems. apply (concat_elems (Z.to_nat sz)).
    + apply Forall_map, Forall_forall. intros i Hi. rewrite sorted_idx_perm in Hi. apply elem_of_seq in Hi.
      destruct (elem_at m2 i Hb2 ltac:(lia)) as [_ [Hli _]]. lia.
    + intros q x Hx. rewrite list_lookup_fmap in Hx. destruct (sorted_idx l !! q) as [i|] eqn:Ei; [|discriminate]. injection Hx as <-.
      pose proof (lookup_lt_Some _ _ _ Ei) as Hq. rewrite length_sorted_idx in Hq. rewrite Z2Nat.id by lia.
      replace i with (g q) by (unfold g; apply nth_lookup_Some; assumption). apply Hm3. assumption.
  - eapply frame_trans; [exact F12|]. eapply frame_weaken; [exact F3|lia|lia].
Qed.
End Indirect.
End Sorting.

(** ** qsort_r *)

(** What the caller of qsort_r and the temporary area provide: [l] is the array, and the
    area of [tmp_size] bytes lies apart from it. *)
Record sort_args (A : arch) (m : mem) (b sz tm : Z) (l : list (list Z)) : Prop := {
  sa_size : 0 < sz;
  sa_elems : Forall (element sz) l;
  sa_array : bytes_at m b (concat l);
  sa_range : 0 <= b /\ b + Z.of_nat (length l) * sz <= 2 ^ wordbits A;
  sa_fits : 2 * Z.of_nat (length l) * wordsize A + sz < 2 ^ wordbits A /\ Z.of_nat (length l) * sz < 2 ^ wordbits A;
  sa_apart : apart b (Z.of_nat (length l) * sz) tm (tmp_size A (Z.of_nat (length l)) sz);
  sa_area : mapped m tm (tm + tmp_size A (Z.of_nat (length l)) sz);
  sa_aligned : tm mod 8 = 0
}.

Lemma qsort_r_spec {R} (A : arch) (align64 : Z) (cmp : list Z -> list Z -> Z) quicksort sc_phys sc_page alloca malloc st st' m b sz tm l :
  align64 = 4 \/ align64 = 8 -> Total (cmp_le cmp) -> Transitive (cmp_le cmp) ->
  @get_area A R sc_phys sc_page alloca malloc st (tmp_size A (Z.of_nat (length l)) sz) = Next (Area tm, st') ->
  sort_args A m b sz tm l ->
  exists m' l', @qsort_r A align64 cmp (Z.to_nat sz) R quicksort sc_phys sc_page alloca malloc st m b (Z.of_nat (length l)) sz = Next (m', st') /\
    sorts (cmp_le cmp) l l' /\ bytes_at m' b (concat l') /\
    frame m m' b (Z.of_nat (length l) * sz) tm (tmp_size A (Z.of_nat (length l)) sz).
Proof.
  intros Hal Htot Htr Harea [Hsz Hel Hat Hr [Hf1 Hf2] Hap Hm Ha]. unfold qsort_r. rewrite Harea. cbn [flow_bind].
  pose proof (msort_list_sorts (cmp_le cmp) (S (length l)) l (Nat.le_succ_diag_r _)) as Hs. pose proof (wordsize_pos A).
  unfold tmp_size, size_t in *. destruct (Z.ltb_spec 32 sz).
  - rewrite uwrap_small in * by lia. rewrite <- Z.mul_assoc in *.
    destruct (sort_indirect_spec A align64 cmp m b sz tm l Hsz Hel Hat Hr ltac:(lia) Hap Hm Ha (R := R)) as (m' & -> & Hb' & F).
    exists m', (msort_list (cmp_le cmp) (S (length l)) l). auto.
  - rewrite uwrap_small in * by lia.
    destruct (sort_direct_spec A align64 cmp Hal (R := R) m b sz tm l Hsz Hel Hat Hf2 Hap Hm Ha) as (m' & -> & Hb' & F).
    exists m', (msort_list (cmp_le cmp) (S (length l)) l). auto.
Qed.

(** C4: when qsort_r gets its temporary area, it returns, whatever the element size
    (up to 32 bytes the elements are merged directly, in one of four ways that depend on
    size and alignment, above that pointers are sorted and the elements then permuted in
    place, cycle by cycle), and the array is sorted: for a comparison function that is a
    total preorder the result is a permutation of the elements, in order, with equal
    elements in their original order.  (The manual promises less: it calls the sorting not
    stable, which is true of the quicksort that is used without the area.)  Nothing outside
    the array and the area changes. *)
Theorem qsort_r_correct {R} (A : arch) (align64 : Z) (cmp : list Z -> list Z -> Z) quicksort sc_phys sc_page alloca malloc st st' m b sz tm l :
  align64 = 4 \/ align64 = 8 -> Total (cmp_le cmp) -> Transitive (cmp_le cmp) ->
  @get_area A R sc_phys sc_page alloca malloc st (tmp_size A (Z.of_nat (length l)) sz) = Next (Area tm, st') ->
  sort_args A m b sz tm l ->
  exists m' l', @qsort_r A align64 cmp (Z.to_nat sz) R quicksort sc_phys sc_page alloca malloc st m b (Z.of_nat (length l)) sz = Next (m', st') /\
    sorts (cmp_le cmp) l l' /\ bytes_at m' b (concat l') /\
    frame m m' b (Z.of_nat (length l) * sz) tm (tmp_size A (Z.of_nat (length l)) sz).
Proof. apply qsort_r_spec. Qed.

Lemma qsort_r_witness :
  exists m' l', qsort_r (Arch true false) 8 bytes_cmp 3 (fun _ _ _ _ => @Fault unit mem) 0 0 112 None (Pages 0 0)
      (mem_of 100 ([5; 1; 1; 3; 2; 2; 5; 3; 3; 1; 4; 4] ++ repeat 0 12)) 100 4 3 = Next (m', Pages 0 0) /\
    sorts (cmp_le bytes_cmp) [[5; 1; 1]; [3; 2; 2]; [5; 3; 3]; [1; 4; 4]] l' /\ bytes_at m' 100 (concat l') /\
    frame (mem_of 100 ([5; 1; 1; 3; 2; 2; 5; 3; 3; 1; 4; 4] ++ repeat 0 12)) m' 100 12 112 12.
Proof.
  apply (qsort_r_correct (Arch true false) 8 bytes_cmp (fun _ _ _ _ => Fault) 0 0 112 None (Pages 0 0) (Pages 0 0)
    (mem_of 100 ([5; 1; 1; 3; 2; 2; 5; 3; 3; 1; 4; 4] ++ repeat 0 12)) 100 3 112 [[5; 1; 1]; [3; 2; 2]; [5; 3; 3]; [1; 4; 4]]).
  - auto.
  - intros x y. unfold cmp_le, bytes_cmp. lia.
  - intros x y z. unfold cmp_le, bytes_cmp. lia.
  - reflexivity.
  - split.
    + lia.
    + repeat apply Forall_cons_2; try apply Forall_nil_2; (split; [reflexivity|wf_bytes]).
    + apply mem_of_at; [lia|reflexivity].
    + vm_compute. split; discriminate.
    + split; reflexivity.
    + left. vm_compute. discriminate.
    + apply mem_of_mapped; vm_compute; discriminate.
    + reflexivity.
Defined.
