(* ===== verification/Qsort.v ===== *)
(** Quicksort and binary search (stdlib/qsort.c, bits/stdlib-bsearch.h), and qsort, which
    sorts with the merge sort of [Msort.v] and falls back to quicksort without memory.

    [quicksort] works in place: median of three, an explicit stack of pending partitions
    of bounded size, partitions of at most five elements left to an insertion sort whose
    inner loop has no bound but the smallest element, moved to the front before.

    Pointers are integers that do not wrap. *)
From stdpp Require Import sorting.
From S2P Require Import Prelude CMem MemWrite StringCopy SortSpec Msort.

Section Quicksort.
Context (A : arch) (cmp : list Z -> list Z -> Z) (osize : nat).

(** [do ... while (--__size > 0)] *)
Fixpoint SWAP {R} (fuel : nat) (m : mem) (a b size : Z) : flow R mem :=
  match fuel with
  | O => NoFuel
  | S fuel =>
      let! tmp := load8 m a in
      let! v := load8 m b in
      let! m := store8 m a v in
      let! m := store8 m b tmp in
      let size := size_t A (size - 1) in
      if 0 <? size then SWAP fuel m (a + 1) (b + 1) size else Next m
  end.

Definition swap_items {R} (m : mem) (a b size : Z) : flow R mem := SWAP (Z.to_nat size) m a b size.

Definition MAX_THRESH : Z := 4.

Definition STACK_SIZE : Z := 8 * wordsize A.

(** The stack, its top first; a push beyond its size is undefined. *)
Definition PUSH {R} (low high : Z) (stack : list (Z * Z)) : flow R (list (Z * Z)) :=
  if Z.of_nat (length stack) <? STACK_SIZE then Next ((low, high) :: stack) else Fault.

Definition POP {R} (stack : list (Z * Z)) : flow R (Z * Z * list (Z * Z)) :=
  match stack with e :: stack => Next (e, stack) | [] => Fault end.

(** The median of three, put in the middle. *)
Definition median {R} (m : mem) (size lo mid hi : Z) : flow R mem :=
  let! c := call_cmp cmp osize m mid lo in
  let! m := if c <? 0 then swap_items m mid lo size else Next m in
  let! c := call_cmp cmp osize m hi mid in
  if c <? 0 then
    let! m := swap_items m mid hi size in
    let! c := call_cmp cmp osize m mid lo in
    if c <? 0 then swap_items m mid lo size else Next m
  else Next m.

(** [while (cmp (left_ptr, mid) < 0) left_ptr += size;] *)
Fixpoint scan_left {R} (fuel : nat) (m : mem) (size mid left_ptr : Z) : flow R Z :=
  match fuel with
  | O => NoFuel
  | S fuel =>
      let! c := call_cmp cmp osize m left_ptr mid in
      if c <? 0 then scan_left fuel m size mid (left_ptr + size) else Next left_ptr
  end.

(** [while (cmp (mid, right_ptr) < 0) right_ptr -= size;] *)
Fixpoint scan_right {R} (fuel : nat) (m : mem) (size mid right_ptr : Z) : flow R Z :=
  match fuel with
  | O => NoFuel
  | S fuel =>
      let! c := call_cmp cmp osize m mid right_ptr in
      if c <? 0 then scan_right fuel m size mid (right_ptr - size) else Next right_ptr
  end.

(** [do ... while (left_ptr <= right_ptr)]; [k] bounds the scans. *)
Fixpoint collapse {R} (fuel k : nat) (m : mem) (size mid left_ptr right_ptr : Z) : flow R (mem * Z * Z) :=
  match fuel with
  | O => NoFuel
  | S fuel =>
      let! left_ptr := scan_left k m size mid left_ptr in
      let! right_ptr := scan_right k m size mid right_ptr in
      if left_ptr <? right_ptr then
        let! m := swap_items m left_ptr right_ptr size in
        let mid := if mid =? left_ptr then right_ptr else if mid =? right_ptr then left_ptr else mid in
        let left_ptr := left_ptr + size in
        let right_ptr := right_ptr - size in
        if left_ptr <=? right_ptr then collapse fuel k m size mid left_ptr right_ptr else Next (m, left_ptr, right_ptr)
      else if left_ptr =? right_ptr then Next (m, left_ptr + size, right_ptr - size)
      else if left_ptr <=? right_ptr then collapse fuel k m size mid left_ptr right_ptr
      else Next (m, left_ptr, right_ptr)
  end.

(** One round: partition, by the median of three. *)
Definition partition {R} (k : nat) (m : mem) (size lo hi : Z) : flow R (mem * Z * Z) :=
  if size =? 0 then Fault else
  let mid := lo + size_t A (size * Z.shiftr (size_t A (hi - lo) / size) 1) in
  let! m := median m size lo mid hi in
  collapse k k m size mid (lo + size) (hi - size).

(** Which partition is next. *)
Definition next_partition {R} (max_thresh lo hi left_ptr right_ptr : Z) (stack : list (Z * Z)) : flow R (Z * Z * list (Z * Z)) :=
  if size_t A (right_ptr - lo) <=? max_thresh then
    if size_t A (hi - left_ptr) <=? max_thresh then POP stack
    else Next (left_ptr, hi, stack)
  else if size_t A (hi - left_ptr) <=? max_thresh then Next (lo, right_ptr, stack)
  else if hi - left_ptr <? right_ptr - lo then
    let! stack := PUSH lo right_ptr stack in
    Next (left_ptr, hi, stack)
  else
    let! stack := PUSH left_ptr hi stack in
    Next (lo, right_ptr, stack).

(** [while (STACK_NOT_EMPTY)] *)
Fixpoint quick_loop {R} (fuel k : nat) (m : mem) (size max_thresh lo hi : Z) (stack : list (Z * Z)) : flow R mem :=
  match stack with
  | [] => Next m
  | _ =>
      match fuel with
      | O => NoFuel
      | S fuel =>
          let! '(m, left_ptr, right_ptr) := partition k m size lo hi in
          let! '(lo, hi, stack) := next_partition max_thresh lo hi left_ptr right_ptr stack in
          quick_loop fuel k m size max_thresh lo hi stack
      end
  end.

(** [for (run_ptr = tmp_ptr + size; run_ptr <= thresh; run_ptr += size)] *)
Fixpoint find_smallest {R} (fuel : nat) (m : mem) (size thresh tmp_ptr run_ptr : Z) : flow R Z :=
  if run_ptr <=? thresh then
    match fuel with
    | O => NoFuel
    | S fuel =>
        let! c := call_cmp cmp osize m run_ptr tmp_ptr in
        find_smallest fuel m size thresh (if c <? 0 then run_ptr else tmp_ptr) (run_ptr + size)
    end
  else Next tmp_ptr.

(** [while (cmp (run_ptr, tmp_ptr) < 0) tmp_ptr -= size;] *)
Fixpoint find_place {R} (fuel : nat) (m : mem) (size run_ptr tmp_ptr : Z) : flow R Z :=
  match fuel with
  | O => NoFuel
  | S fuel =>
      let! c := call_cmp cmp osize m run_ptr tmp_ptr in
      if c <? 0 then find_place fuel m size run_ptr (tmp_ptr - size) else Next tmp_ptr
  end.

(** [for (hi = lo = trav; (lo -= size) >= tmp_ptr; hi = lo) *hi = *lo; *hi = c;] *)
Fixpoint shift_byte {R} (fuel : nat) (m : mem) (size tmp_ptr hi c : Z) : flow R mem :=
  let lo := hi - size in
  if tmp_ptr <=? lo then
    match fuel with
    | O => NoFuel
    | S fuel =>
        let! v := load8 m lo in
        let! m := store8 m hi v in
        shift_byte fuel m size tmp_ptr lo c
    end
  else store8 m hi c.

(** [while (--trav >= run_ptr)]; [k] bounds the inner loop. *)
Fixpoint shift_item {R} (fuel k : nat) (m : mem) (size tmp_ptr run_ptr trav : Z) : flow R mem :=
  let trav := trav - 1 in
  if run_ptr <=? trav then
    match fuel with
    | O => NoFuel
    | S fuel =>
        let! c := load8 m trav in
        let! m := shift_byte k m size tmp_ptr trav c in
        shift_item fuel k m size tmp_ptr run_ptr trav
    end
  else Next m.

(** [while ((run_ptr += size) <= end_ptr)] *)
Fixpoint insertion_loop {R} (fuel k : nat) (m : mem) (size end_ptr run_ptr : Z) : flow R mem :=
  let run_ptr := run_ptr + size in
  if run_ptr <=? end_ptr then
    match fuel with
    | O => NoFuel
    | S fuel =>
        let! tmp_ptr := find_place k m size run_ptr (run_ptr - size) in
        let tmp_ptr := tmp_ptr + size in
        let! m := if tmp_ptr =? run_ptr then Next m
                  else shift_item (Z.to_nat size) k m size tmp_ptr run_ptr (run_ptr + size) in
        insertion_loop fuel k m size end_ptr run_ptr
    end
  else Next m.

Definition insertion_sort {R} (k : nat) (m : mem) (size max_thresh base_ptr end_ptr : Z) : flow R mem :=
  let thresh := Z.min end_ptr (base_ptr + max_thresh) in
  let! tmp_ptr := find_smallest k m size thresh base_ptr (base_ptr + size) in
  let! m := if tmp_ptr =? base_ptr then Next m else swap_items m tmp_ptr base_ptr size in
  insertion_loop k k m size end_ptr (base_ptr + size).

Definition quicksort {R} (m : mem) (pbase total_elems size : Z) : flow R mem :=
  let max_thresh := size_t A (MAX_THRESH * size) in
  if total_elems =? 0 then Next m else
  let k := Z.to_nat total_elems in
  let end_ptr := pbase + size_t A (size * (total_elems - 1)) in
  let! m :=
    if MAX_THRESH <? total_elems then
      let! stack := PUSH 0 0 [] in
      quick_loop (2 * k) k m size max_thresh pbase end_ptr stack
    else Next m in
  insertion_sort k m size max_thresh pbase end_ptr.
End Quicksort.

(** ** Callers *)

(** [osize], what the comparison function looks at, is the element size. *)
Definition qsort {R} (A : arch) (align64 : Z) (cmp : list Z -> list Z -> Z) (sc_phys sc_page alloca : Z) (malloc : option Z)
    (st : pages) (m : mem) (b n s : Z) : flow R (mem * pages) :=
  qsort_r A align64 cmp (Z.to_nat s) (quicksort A cmp (Z.to_nat s)) sc_phys sc_page alloca malloc st m b n s.

(** [compar (key, p)]: the key is an object of [ksize] bytes of its own.  The result is the
    address of a match, [None] for a null pointer. *)
Fixpoint bsearch_loop {R} (A : arch) (compar : list Z -> list Z -> Z) (ksize : nat) (fuel : nat) (m : mem) (key base size l u : Z) : flow R (option Z) :=
  if l <? u then
    match fuel with
    | O => NoFuel
    | S fuel =>
        let idx := size_t A (l + u) / 2 in
        let p := base + size_t A (idx * size) in
        let! k := load_bytes m key ksize in
        let! x := load_bytes m p (Z.to_nat size) in
        let comparison := compar k x in
        if comparison <? 0 then bsearch_loop A compar ksize fuel m key base size l idx
        else if 0 <? comparison then bsearch_loop A compar ksize fuel m key base size (idx + 1) u
        else Next (Some p)
    end
  else Next None.

Definition bsearch {R} (A : arch) (compar : list Z -> list Z -> Z) (ksize : nat) (m : mem) (key base nmemb size : Z) : flow R (option Z) :=
  bsearch_loop A compar ksize (Z.to_nat nmemb) m key base size 0 nmemb.

(** * Examples *)

Example quicksort_bytes :
  flow_bind (R := unit) (quicksort (Arch true false) bytes_cmp 2 (mem_of 100 [5;1; 1;3; 2;2; 5;3; 3;1; 4;4; 0;0; 9;1; 8;2; 7;3; 5;5; 1;1; 3;3]) 100 13 2)
    (fun m => load_bytes m 100 26) = Next [0;0; 1;3; 1;1; 2;2; 3;3; 3;1; 4;4; 5;3; 5;5; 5;1; 7;3; 8;2; 9;1].
Proof. vm_compute. reflexivity. Qed.

(** * Lists by index *)

Section Lists.
Context {X : Type} `{!Inhabited X} (le : X -> X -> Prop).
Implicit Types (l : list X) (i j k : nat).

Definition swap i j l : list X := <[i := l !!! j]> (<[j := l !!! i]> l).

Lemma length_swap i j l : length (swap i j l) = length l.
Proof. unfold swap. rewrite !length_insert. reflexivity. Qed.

Lemma swap_lookup i j l k : (i < length l)%nat -> (j < length l)%nat ->
  swap i j l !!! k = if decide (k = i) then l !!! j else if decide (k = j) then l !!! i else l !!! k.
Proof.
  intros Hi Hj. unfold swap. destruct (decide (k = i)) as [->|Hki].
  - rewrite list_lookup_total_insert_eq by (rewrite length_insert; assumption). reflexivity.
  - rewrite list_lookup_total_insert_ne by auto. destruct (decide (k = j)) as [->|].
    + rewrite list_lookup_total_insert_eq by assumption. reflexivity.
    + rewrite list_lookup_total_insert_ne by auto. reflexivity.
Qed.

(** Lists of the same length that agree at each index are equal. *)
Lemma list_eq_total l1 l2 : length l1 = length l2 -> (forall i, (i < length l1)%nat -> l1 !!! i = l2 !!! i) -> l1 = l2.
Proof.
  intros Hl H. apply list_eq_same_length with (length l1); [auto..|]. intros i x y Hi Hx Hy.
  specialize (H i Hi). rewrite (list_lookup_total_correct _ _ _ Hx), (list_lookup_total_correct _ _ _ Hy) in H. assumption.
Qed.

Lemma swap_perm i j l : (i < length l)%nat -> (j < length l)%nat -> swap i j l ≡ₚ l.
Proof.
  intros Hi Hj. unfold swap. apply list_lookup_lookup_total_lt in Hi, Hj. rewrite Permutation_insert_swap; eauto.
Qed.

(** Elements before [k] are not greater than those from [k] on. *)
Definition cut l k : Prop := forall i j, (i < k)%nat -> (k <= j < length l)%nat -> le (l !!! i) (l !!! j).

(** Exchanges within the range from [lo] to [hi]. *)
Inductive swaps (lo hi : nat) : list X -> list X -> Prop :=
  | swaps_refl l : swaps lo hi l l
  | swaps_step i j l l' : (lo <= i <= hi)%nat -> (lo <= j <= hi)%nat -> swaps lo hi (swap i j l) l' -> swaps lo hi l l'.

Lemma swaps_trans lo hi l1 l2 l3 : swaps lo hi l1 l2 -> swaps lo hi l2 l3 -> swaps lo hi l1 l3.
Proof. induction 1; eauto using swaps_step. Qed.

Lemma swaps_one lo hi i j l : (lo <= i <= hi)%nat -> (lo <= j <= hi)%nat -> swaps lo hi l (swap i j l).
Proof. eauto using swaps_step, swaps_refl. Qed.

Lemma swaps_perm lo hi l l' : swaps lo hi l l' -> (hi < length l)%nat -> l' ≡ₚ l.
Proof.
  induction 1 as [|i j l l' Hi Hj _ IH]; intros Hl; [reflexivity|]. rewrite IH by (rewrite length_swap; assumption).
  apply swap_perm; lia.
Qed.

Lemma swaps_length lo hi l l' : swaps lo hi l l' -> length l' = length l.
Proof. induction 1 as [|i j l l' _ _ _ IH]; [reflexivity|]. rewrite IH. apply length_swap. Qed.

Lemma swaps_cut lo hi l l' k : swaps lo hi l l' -> (hi < length l)%nat -> (k <= lo \/ hi < k)%nat -> cut l k -> cut l' k.
Proof.
  induction 1 as [|i j l l' Hi Hj _ IH]; intros Hl Hk Hc; [assumption|]. apply IH; [rewrite length_swap; assumption|assumption|].
  intros p q Hp Hq. rewrite length_swap in Hq. rewrite !swap_lookup by lia.
  repeat case_decide; subst; apply Hc; lia.
Qed.

(** The element at [r] moved down to [t]. *)
Definition move r t l : list X := take t l ++ l !!! r :: take (r - t) (drop t l) ++ drop (S r) l.

Lemma length_move r t l : (t <= r < length l)%nat -> length (move r t l) = length l.
Proof. intros H. unfold move. rewrite length_app. cbn [length]. rewrite length_app, !length_take, !length_drop. lia. Qed.

Lemma move_lookup r t l k : (t <= r < length l)%nat ->
  move r t l !!! k = l !!! (if decide (k = t) then r else if decide (t < k <= r)%nat then (k - 1)%nat else k).
Proof.
  intros H. unfold move. assert (length (take t l) = t) as Ht by (rewrite length_take; lia).
  destruct (decide (k = t)) as [->|Hk]; [apply list_lookup_total_middle; auto|].
  destruct (decide (k < t)%nat).
  { rewrite lookup_total_app_l, lookup_total_take_lt, decide_False by lia. reflexivity. }
  rewrite lookup_total_app_r, lookup_total_cons_ne_0, Ht by lia. case_decide.
  - rewrite lookup_total_app_l by (rewrite length_take, length_drop; lia). rewrite lookup_total_take_lt, lookup_total_drop by lia. f_equal. lia.
  - rewrite lookup_total_app_r; rewrite length_take, length_drop; [|lia]. rewrite lookup_total_drop. f_equal. lia.
Qed.

Lemma move_perm r t l : (t <= r < length l)%nat -> move r t l ≡ₚ l.
Proof.
  intros H. unfold move. rewrite <- (take_drop t l) at 5. apply Permutation_app_head.
  rewrite <- (take_drop (r - t) (drop t l)) at 2. rewrite drop_drop. replace (t + (r - t))%nat with r by lia.
  rewrite (drop_S l (l !!! r) r) by (apply list_lookup_lookup_total_lt; lia). apply Permutation_middle.
Qed.

(** The first [k] elements are in order. *)
Definition ordered l k : Prop := forall i j, (i < j < k)%nat -> le (l !!! i) (l !!! j).

Lemma ordered_sorted l : ordered l (length l) -> StronglySorted le l.
Proof.
  induction l as [|x l IH]; intros H; constructor.
  - apply IH. intros i j Hij. apply (H (S i) (S j)). simpl; lia.
  - apply (Forall_lookup_total_2 (le x) l). intros i Hi. apply (H O (S i)). simpl; lia.
Qed.

Lemma sorted_ordered l : StronglySorted le l -> ordered l (length l).
Proof.
  induction 1 as [|x l _ IH Hall]; intros i j Hij; cbn [length] in Hij; [lia|]. destruct j as [|j]; [lia|]. destruct i as [|i].
  - apply (Forall_lookup_total_1 (le x) l j Hall). lia.
  - apply IH. lia.
Qed.

(** Insertion: the new element moved below the greater ones of an ordered prefix. *)
Lemma ordered_move l r t : (t <= r < length l)%nat -> ordered l r ->
  (forall i, (i < t)%nat -> le (l !!! i) (l !!! r)) -> (forall i, (t <= i < r)%nat -> le (l !!! r) (l !!! i)) ->
  ordered (move r t l) (S r).
Proof.
  intros Hr Ho Hlo Hhi i j Hij. rewrite !move_lookup by assumption. repeat case_decide; subst; try lia; first [apply Ho; lia|apply Hlo; lia|apply Hhi; lia].
Qed.
End Lists.

(** * The array in memory *)

(** What the standard asks of a comparison function. *)
Record compares (cmp : list Z -> list Z -> Z) : Prop := {
  cmp_opposite : forall x y, cmp x y < 0 <-> 0 < cmp y x;
  cmp_trans : forall x y z, cmp x y <= 0 -> cmp y z <= 0 -> cmp x z <= 0
}.

Lemma compares_total cmp : compares cmp -> Total (cmp_le cmp).
Proof. intros [Ho _] x y. unfold cmp_le. specialize (Ho x y). lia. Qed.

Lemma compares_transitive cmp : compares cmp -> Transitive (cmp_le cmp).
Proof. intros [_ Ht] x y z. apply Ht. Qed.

Lemma wordbits_double A : 2 ^ wordbits A = 2 * 2 ^ (wordbits A - 1).
Proof. unfold wordbits. destruct (wordsize_cases A) as [-> | ->]; reflexivity. Qed.

Lemma fits_word A z : 0 <= z < 2 ^ (wordbits A - 1) -> size_t A z = z.
Proof. intros H. unfold size_t. apply uwrap_small. rewrite wordbits_double. lia. Qed.

Section Array.
Context (A : arch) (cmp : list Z -> list Z -> Z) (sz b : Z) (n : nat) (m0 : mem).
Hypothesis sz_pos : 0 < sz.
Hypothesis array_fits : Z.of_nat n * sz < 2 ^ (wordbits A - 1).

Abbreviation osz := (Z.to_nat sz).

Definition item (i : nat) : Z := b + Z.of_nat i * sz.

(** The elements are those of [l]; nothing else has changed. *)
Record arr (m : mem) (l : list (list Z)) : Prop := {
  arr_length : length l = n;
  arr_at : forall i, (i < n)%nat -> bytes_at m (item i) (l !!! i) /\ element sz (l !!! i);
  arr_frame : frame m0 m b (Z.of_nat n * sz) b 0
}.

Lemma items_apart i j : i <> j -> apart (item i) sz (item j) sz.
Proof. intros H. unfold apart, item. destruct (Z.lt_ge_cases (Z.of_nat i) (Z.of_nat j)); [left|right]; nia. Qed.

Lemma item_bounds i : (i < n)%nat -> b <= item i /\ item i + sz <= b + Z.of_nat n * sz.
Proof. unfold item. nia. Qed.

Lemma item_S i : item (S i) = item i + sz.
Proof. unfold item. lia. Qed.

Lemma item_lt i j : (item i <? item j) = (Z.of_nat i <? Z.of_nat j).
Proof. unfold item. destruct (Z.ltb_spec (Z.of_nat i) (Z.of_nat j)); [apply Z.ltb_lt|apply Z.ltb_ge]; nia. Qed.

Lemma item_le i j : (item i <=? item j) = (Z.of_nat i <=? Z.of_nat j).
Proof. unfold item. destruct (Z.leb_spec (Z.of_nat i) (Z.of_nat j)); [apply Z.leb_le|apply Z.leb_gt]; nia. Qed.

Lemma item_eq i j : (item i =? item j) = (Z.of_nat i =? Z.of_nat j).
Proof. unfold item. destruct (Z.eqb_spec (Z.of_nat i) (Z.of_nat j)); [apply Z.eqb_eq|apply Z.eqb_neq]; nia. Qed.

Lemma span_fits k : (k <= n)%nat -> 0 <= Z.of_nat k * sz < 2 ^ (wordbits A - 1).
Proof. intros Hk. split; [lia|]. eapply Z.le_lt_trans; [|exact array_fits]. apply Z.mul_le_mono_nonneg_r; lia. Qed.

Lemma call_cmp_spec {R} m l i j : arr m l -> (i < n)%nat -> (j < n)%nat ->
  @call_cmp cmp osz R m (item i) (item j) = Next (cmp (l !!! i) (l !!! j)).
Proof.
  intros Ha Hi Hj. destruct (arr_at _ _ Ha i Hi) as [Hbi [Hli _]], (arr_at _ _ Ha j Hj) as [Hbj [Hlj _]]. unfold call_cmp.
  replace osz with (length (l !!! i)) at 1 by lia. rewrite (load_bytes_spec _ _ _ Hbi). cbn [flow_bind].
  replace osz with (length (l !!! j)) by lia. rewrite (load_bytes_spec _ _ _ Hbj). reflexivity.
Qed.

(** ** Exchanging two elements *)

Lemma SWAP_wr {R} xs : forall ys fuel m p q,
  length ys = length xs -> bytes_at m p xs -> bytes_at m q ys -> Forall is_byte xs -> Forall is_byte ys ->
  apart p (Z.of_nat (length xs)) q (Z.of_nat (length xs)) -> (0 < length xs <= fuel)%nat -> Z.of_nat (length xs) < 2 ^ (wordbits A - 1) ->
  @SWAP A R fuel m p q (Z.of_nat (length xs)) = Next (wr (wr m p ys) q xs).
Proof.
  induction xs as [|x xs IH]; intros ys fuel m p q Hl Hx Hy Bx By Hap Hf Hw; [simpl in Hf; lia|].
  destruct ys as [|y ys]; [discriminate|]. destruct fuel as [|fuel]; [lia|]. injection Hl as Hl. cbn [length] in *. unfold apart in Hap.
  apply bytes_at_cons in Hx as [Hx0 Hx], Hy as [Hy0 Hy]. apply Forall_cons in Bx as [Bx0 Bx], By as [By0 By].
  cbn [SWAP]. rewrite (load8_spec _ _ _ Hx0), (load8_spec _ _ _ Hy0). cbn [flow_bind].
  rewrite store8_spec by (rewrite ?Hx0; eauto). cbn [flow_bind].
  rewrite store8_spec by (rewrite ?lookup_insert_ne by lia; rewrite ?Hy0; eauto). cbn [flow_bind].
  replace (Z.of_nat (S (length xs)) - 1) with (Z.of_nat (length xs)) by lia. rewrite fits_word by lia.
  set (m' := <[q := x]> (<[p := y]> m)).
  assert (wr (wr m p (y :: ys)) q (x :: xs) = wr (wr m' (p + 1) ys) (q + 1) xs) as ->.
  { apply map_eq. intros a. subst m'. cbn [wr]. rewrite !wr_lookup. destruct (decide (q + 1 <= a < q + 1 + _)); [reflexivity|].
    destruct (Z.eq_dec a q) as [->|]; [rewrite lookup_insert_eq, decide_False, lookup_insert_eq by lia; reflexivity|].
    rewrite !(lookup_insert_ne _ q) by auto. rewrite wr_lookup. reflexivity. }
  destruct (Z.ltb_spec 0 (Z.of_nat (length xs))) as [Hp|Hp].
  - apply IH; auto; try (unfold apart; lia);
      (intros i v Hi; pose proof (lookup_lt_Some _ _ _ Hi); subst m'; rewrite !lookup_insert_ne by lia; auto).
  - destruct xs; [|simpl in Hp; lia]. destruct ys; [reflexivity|discriminate].
Qed.

Lemma swap_items_spec {R} m l i j : arr m l -> (i < n)%nat -> (j < n)%nat -> i <> j ->
  exists m', @swap_items A R m (item i) (item j) sz = Next m' /\ arr m' (swap i j l).
Proof.
  intros Ha Hi Hj Hij. destruct (arr_at _ _ Ha i Hi) as [Hbi [Hli Bi]], (arr_at _ _ Ha j Hj) as [Hbj [Hlj Bj]].
  pose proof (items_apart i j Hij) as Hap. pose proof (arr_length _ _ Ha) as Hn.
  exists (wr (wr m (item i) (l !!! j)) (item j) (l !!! i)). split.
  - unfold swap_items. replace sz with (Z.of_nat (length (l !!! i))) at 1 2 by lia. rewrite Nat2Z.id.
    apply SWAP_wr; auto; try (rewrite Hli; try assumption; nia); lia.
  - split.
    + rewrite length_swap. assumption.
    + intros k Hk. rewrite swap_lookup by lia. destruct (arr_at _ _ Ha k Hk) as [Hbk [Hlk Bk]].
      pose proof (items_apart i k) as Hik. pose proof (items_apart j k) as Hjk.
      destruct (decide (k = i)) as [->|Hki]; [|destruct (decide (k = j)) as [->|Hkj]].
      * split; [|split; assumption]. apply wr_off; [apply wr_at|]. rewrite Hli, Hlj. apply Hjk. auto.
      * split; [apply wr_at|split; assumption].
      * split; [|split; assumption]. apply wr_off; [apply wr_off; [assumption|rewrite Hlj, Hlk; auto]|rewrite Hli, Hlk; auto].
    + pose proof (item_bounds i Hi). pose proof (item_bounds j Hj).
      eapply frame_trans; [apply (arr_frame _ _ Ha)|]. eapply frame_trans; apply frame_wr_in; lia.
Qed.

(** ** Partitioning *)

Hypothesis cmp_ok : compares cmp.
Abbreviation le := (cmp_le cmp).

#[local] Instance le_transitive : Transitive le := compares_transitive cmp cmp_ok.

Lemma cmp_cases x y : if cmp x y <? 0 then le x y else le y x.
Proof. unfold cmp_le. pose proof (cmp_opposite cmp cmp_ok x y). pose proof (cmp_opposite cmp cmp_ok y x). destruct (Z.ltb_spec (cmp x y) 0); lia. Qed.

Lemma le_refl x : le x x.
Proof. pose proof (cmp_cases x x). destruct (_ <? _); assumption. Qed.

Lemma median_spec {R} m l lo mid hi : arr m l -> (lo < mid < hi)%nat -> (hi < n)%nat ->
  exists m' l', @median A cmp osz R m sz (item lo) (item mid) (item hi) = Next m' /\ arr m' l' /\ swaps lo hi l l' /\
    le (l' !!! lo) (l' !!! mid) /\ le (l' !!! mid) (l' !!! hi).
Proof.
  intros Ha Hm Hh. unfold median. rewrite (call_cmp_spec m l mid lo) by (assumption || lia). cbn [flow_bind].
  assert (exists m1 l1, (if cmp (l !!! mid) (l !!! lo) <? 0 then @swap_items A R m (item mid) (item lo) sz else Next m) = Next m1 /\
    arr m1 l1 /\ swaps lo hi l l1 /\ le (l1 !!! lo) (l1 !!! mid)) as (m1 & l1 & -> & Ha1 & Hs1 & Hle1).
  { pose proof (cmp_cases (l !!! mid) (l !!! lo)). destruct (_ <? _); [|exists m, l; auto using swaps_refl].
    destruct (swap_items_spec (R := R) m l mid lo Ha) as (m1 & -> & Ha1); [lia..|]. exists m1, (swap mid lo l).
    pose proof (arr_length _ _ Ha). rewrite !swap_lookup by lia. repeat case_decide; try lia. auto using swaps_one with lia. }
  cbn [flow_bind]. rewrite (call_cmp_spec m1 l1 hi mid) by (assumption || lia). cbn [flow_bind].
  pose proof (cmp_cases (l1 !!! hi) (l1 !!! mid)) as H2. destruct (_ <? _); [|exists m1, l1; auto].
  destruct (swap_items_spec (R := R) m1 l1 mid hi Ha1) as (m2 & -> & Ha2); [lia..|]. cbn [flow_bind].
  rewrite (call_cmp_spec m2 _ mid lo Ha2) by lia. cbn [flow_bind]. pose proof (arr_length _ _ Ha1) as Hl1.
  assert (swaps lo hi l (swap mid hi l1)) as Hs2 by (eapply swaps_trans; [eassumption|apply swaps_one; lia]).
  pose proof (cmp_cases (swap mid hi l1 !!! mid) (swap mid hi l1 !!! lo)) as H3.
  destruct (_ <? _).
  - destruct (swap_items_spec (R := R) m2 _ mid lo Ha2) as (m3 & -> & Ha3); [lia..|]. exists m3, (swap mid lo (swap mid hi l1)).
    split; [reflexivity|]. split; [assumption|]. split; [eapply swaps_trans; [eassumption|apply swaps_one; lia]|].
    rewrite !(swap_lookup mid lo) by (rewrite length_swap; lia). rewrite !swap_lookup in * by lia.
    repeat case_decide; try lia; auto.
  - exists m2, (swap mid hi l1). split; [reflexivity|]. split; [assumption|]. split; [assumption|].
    split; [assumption|]. rewrite !swap_lookup by lia. repeat case_decide; try lia; auto.
Qed.

(** The scans stop at the latest at an element known not to be on their side. *)
Lemma scan_left_spec {R} m l mid e : arr m l -> (mid < n)%nat -> (e < n)%nat -> le (l !!! mid) (l !!! e) ->
  forall fuel left, (left <= e)%nat -> (e - left < fuel)%nat ->
  exists i, @scan_left cmp osz R fuel m sz (item mid) (item left) = Next (item i) /\ (left <= i <= e)%nat /\
    le (l !!! mid) (l !!! i) /\ forall k, (left <= k < i)%nat -> le (l !!! k) (l !!! mid).
Proof.
  intros Ha Hmid He Hle. induction fuel as [|fuel IH]; intros left Hl Hf; [lia|]. cbn [scan_left].
  rewrite (call_cmp_spec m l left mid) by (assumption || lia). cbn [flow_bind].
  pose proof (cmp_cases (l !!! left) (l !!! mid)) as Hc. destruct (Z.ltb_spec (cmp (l !!! left) (l !!! mid)) 0) as [Hlt|Hge].
  - assert (left <> e) as Hne. { intros ->. apply (cmp_opposite cmp cmp_ok) in Hlt. unfold cmp_le in Hle. lia. }
    rewrite <- item_S. destruct (IH (S left)) as (i & -> & Hi & Hli & Hk); [lia..|]. exists i. split; [reflexivity|]. split; [lia|]. split; [assumption|].
    intros k Hkl. destruct (decide (k = left)) as [->|]; [assumption|]. apply Hk. lia.
  - exists left. split; [reflexivity|]. split; [lia|]. split; [assumption|]. intros; lia.
Qed.

Lemma scan_right_spec {R} m l mid e : arr m l -> (mid < n)%nat -> le (l !!! e) (l !!! mid) ->
  forall fuel right, (e <= right < n)%nat -> (right - e < fuel)%nat ->
  exists i, @scan_right cmp osz R fuel m sz (item mid) (item right) = Next (item i) /\ (e <= i <= right)%nat /\
    le (l !!! i) (l !!! mid) /\ forall k, (i < k <= right)%nat -> le (l !!! mid) (l !!! k).
Proof.
  intros Ha Hmid Hle. induction fuel as [|fuel IH]; intros right Hr Hf; [lia|]. cbn [scan_right].
  rewrite (call_cmp_spec m l mid right) by (assumption || lia). cbn [flow_bind].
  pose proof (cmp_cases (l !!! mid) (l !!! right)) as Hc. destruct (Z.ltb_spec (cmp (l !!! mid) (l !!! right)) 0) as [Hlt|Hge].
  - assert (right <> e) as Hne. { intros ->. apply (cmp_opposite cmp cmp_ok) in Hlt. unfold cmp_le in Hle. lia. }
    replace (item right - sz) with (item (right - 1)) by (unfold item; nia).
    destruct (IH (right - 1)%nat) as (i & -> & Hi & Hli & Hk); [lia..|]. exists i. split; [reflexivity|]. split; [lia|]. split; [assumption|].
    intros k Hkl. destruct (decide (k = right)) as [->|]; [assumption|]. apply Hk. lia.
  - exists right. split; [reflexivity|]. split; [lia|]. split; [assumption|]. intros; lia.
Qed.

(** Split by the value [v]: up to [left], exclusive, not above it, and beyond [right] not below. *)
Record split_by (v : list Z) (lo hi left right : nat) (l : list (list Z)) : Prop := {
  split_low : forall i, (lo <= i < left)%nat -> le (l !!! i) v;
  split_high : forall i, (right < i <= hi)%nat -> le v (l !!! i)
}.

(** An exchange of two elements on the wrong sides. *)
Lemma split_swap v lo hi left right i j l :
  split_by v lo hi left right l -> (j < length l)%nat -> (left <= i)%nat -> (i < j <= right)%nat ->
  (forall k, (left <= k < i)%nat -> le (l !!! k) v) -> (forall k, (j < k <= right)%nat -> le v (l !!! k)) ->
  le v (l !!! i) -> le (l !!! j) v -> split_by v lo hi (S i) (j - 1) (swap i j l).
Proof.
  intros [Hlo Hhi] Hj Hi Hij Hsl Hsr Hvi Hvj. split; intros k Hk; rewrite swap_lookup by lia; repeat case_decide; subst; try lia; try assumption.
  - destruct (decide (k < left)%nat); [apply Hlo|apply Hsl]; lia.
  - destruct (decide (right < k)%nat); [apply Hhi|apply Hsr]; lia.
Qed.

Lemma collapse_spec {R} k lo hi v : (hi < n <= k)%nat -> forall fuel m l mid left right,
  arr m l -> (lo < left)%nat -> (left <= right < hi)%nat -> (lo <= mid <= hi)%nat -> l !!! mid = v -> split_by v lo hi left right l ->
  (right - left < fuel)%nat ->
  exists m' l' left' right', @collapse A cmp osz R fuel k m sz (item mid) (item left) (item right) = Next (m', item left', item right') /\
    arr m' l' /\ swaps lo hi l l' /\ (lo <= right' < left')%nat /\ (left' <= hi)%nat /\ split_by v lo hi left' right' l'.
Proof.
  intros Hk. induction fuel as [|fuel IH]; intros m l mid left right Ha Hll Hlr Hmid Hv Hsp Hf; [lia|]. cbn [collapse].
  destruct (scan_left_spec (R := R) m l mid (S right) Ha) with (fuel := k) (left := left) as (i & -> & Hi & Hvi & Hsl); [lia..| |lia|lia|].
  { rewrite Hv. apply (split_high _ _ _ _ _ _ Hsp). lia. }
  cbn [flow_bind]. assert (forall j, (lo <= j < i)%nat -> le (l !!! j) v) as Hlow.
  { intros j Hj. destruct (decide (j < left)%nat); [apply (split_low _ _ _ _ _ _ Hsp); lia|]. rewrite <- Hv. apply Hsl. lia. }
  destruct (scan_right_spec (R := R) m l mid (i - 1) Ha) with (fuel := k) (right := right) as (j & -> & Hj & Hvj & Hsr); [lia| |lia|lia|].
  { rewrite Hv. apply Hlow. lia. }
  cbn [flow_bind]. rewrite Hv in Hvi, Hvj, Hsl, Hsr. assert (forall q, (j < q <= hi)%nat -> le v (l !!! q)) as Hhigh.
  { intros q Hq. destruct (decide (right < q)%nat); [apply (split_high _ _ _ _ _ _ Hsp); lia|]. apply Hsr. lia. }
  pose proof (arr_length _ _ Ha) as Hn. rewrite item_lt. destruct (Z.ltb_spec (Z.of_nat i) (Z.of_nat j)).
  - destruct (swap_items_spec (R := R) m l i j Ha) as (m1 & -> & Ha1); [lia..|]. cbn [flow_bind].
    pose proof (split_swap v lo hi left right i j l Hsp) as Hsp1. replace (item i + sz) with (item (S i)) by apply item_S.
    replace (item j - sz) with (item (j - 1)) by (unfold item; nia).
    replace (if item mid =? item i then item j else if item mid =? item j then item i else item mid)
      with (item (if decide (mid = i) then j else if decide (mid = j) then i else mid)).
    2: { rewrite !item_eq. destruct (Z.eqb_spec (Z.of_nat mid) (Z.of_nat i)), (Z.eqb_spec (Z.of_nat mid) (Z.of_nat j)); repeat case_decide; try lia; reflexivity. }
    rewrite item_le. destruct (Z.leb_spec (Z.of_nat (S i)) (Z.of_nat (j - 1))).
    + destruct (IH m1 (swap i j l) (if decide (mid = i) then j else if decide (mid = j) then i else mid) (S i) (j - 1)%nat Ha1)
        as (m' & l' & left' & right' & -> & Ha' & Hs' & Hrest); try lia.
      * repeat case_decide; lia.
      * rewrite swap_lookup by lia. repeat case_decide; subst; try lia; congruence.
      * apply Hsp1; auto; lia.
      * exists m', l', left', right'. split; [reflexivity|]. split; [assumption|]. split; [|assumption]. eapply swaps_step; [| |eassumption]; lia.
    + exists m1, (swap i j l), (S i), (j - 1)%nat. split; [reflexivity|]. split; [assumption|]. split; [apply swaps_one; lia|].
      split; [lia|]. split; [lia|]. apply Hsp1; auto; lia.
  - rewrite item_eq. destruct (Z.eqb_spec (Z.of_nat i) (Z.of_nat j)) as [E|E].
    + assert (i = j) as <- by lia. exists m, l, (S i), (i - 1)%nat. rewrite item_S. replace (item (i - 1)) with (item i - sz) by (unfold item; nia).
      split; [reflexivity|]. split; [assumption|]. split; [apply swaps_refl|]. split; [lia|]. split; [lia|].
      split; intros q Hq; (destruct (decide (q = i)) as [->|]; [assumption|]); [apply Hlow|apply Hhigh]; lia.
    + rewrite item_le, (proj2 (Z.leb_gt _ _)) by lia. exists m, l, i, j. split; [reflexivity|]. split; [assumption|]. split; [apply swaps_refl|].
      split; [lia|]. split; [lia|]. split; assumption.
Qed.

Lemma partition_spec {R} k m l lo hi : arr m l -> (lo + 4 <= hi)%nat -> (hi < n <= k)%nat ->
  exists m' l' left right, @partition A cmp osz R k m sz (item lo) (item hi) = Next (m', item left, item right) /\
    arr m' l' /\ swaps lo hi l l' /\ (lo <= right < left)%nat /\ (left <= hi)%nat /\
    forall i j, (lo <= i <= right)%nat -> (right < j <= hi)%nat -> le (l' !!! i) (l' !!! j).
Proof.
  intros Ha Hlh Hk. unfold partition. rewrite (proj2 (Z.eqb_neq sz 0)) by lia.
  assert (item lo + size_t A (sz * Z.shiftr (size_t A (item hi - item lo) / sz) 1) = item (lo + (hi - lo) / 2)) as ->.
  { replace (item hi - item lo) with (Z.of_nat (hi - lo) * sz) by (unfold item; nia).
    rewrite (fits_word A (_ * sz)), Z.div_mul, Z.shiftr_div_pow2 by (try apply span_fits; lia).
    change (2 ^ 1) with (Z.of_nat 2). rewrite <- Nat2Z.inj_div. pose proof (Nat.Div0.div_le_upper_bound (hi - lo) 2 (hi - lo)).
    rewrite Z.mul_comm, fits_word by (apply span_fits; lia). unfold item. lia. }
  pose proof (Nat.div_mod (hi - lo) 2). pose proof (Nat.mod_upper_bound (hi - lo) 2). set (mid := (lo + (hi - lo) / 2)%nat) in *.
  destruct (median_spec (R := R) m l lo mid hi Ha) as (m1 & l1 & -> & Ha1 & Hs1 & Hlo & Hhi); [lia..|]. cbn [flow_bind].
  rewrite <- item_S. replace (item hi - sz) with (item (hi - 1)) by (unfold item; nia).
  destruct (collapse_spec (R := R) k lo hi (l1 !!! mid) Hk k m1 l1 mid (S lo) (hi - 1)%nat Ha1)
    as (m' & l' & left & right & -> & Ha' & Hs' & Hr & Hl & Hsp); try lia; try reflexivity.
  - split; intros i Hi; [replace i with lo by lia|replace i with hi by lia]; assumption.
  - exists m', l', left, right. split; [reflexivity|]. split; [assumption|]. split; [eapply swaps_trans; eassumption|].
    split; [assumption|]. split; [assumption|]. intros i j Hi Hj. transitivity (l1 !!! mid); [apply (split_low _ _ _ _ _ _ Hsp)|apply (split_high _ _ _ _ _ _ Hsp)]; lia.
Qed.

(** ** The stack of partitions

    [segs] are the partitions still to be done, the current one first, as pairs of indices. *)

Fixpoint depth_ok (segs : list (nat * nat)) : Prop :=
  match segs with
  | [] => True
  | (lo, hi) :: segs => (lo + 4 <= hi < n)%nat /\ Z.of_nat (hi - lo + 1) * 2 ^ Z.of_nat (length segs) <= Z.of_nat n /\ depth_ok segs
  end.

Fixpoint weight (segs : list (nat * nat)) : nat :=
  match segs with [] => O | (lo, hi) :: segs => (2 * (hi - lo) + 1 + weight segs)%nat end.

Definition conc (segs : list (nat * nat)) : list (Z * Z) := map (fun s => (item s.1, item s.2)) segs ++ [(0, 0)].

(** [lo], [hi] and the stack. *)
Definition conc_next (segs : list (nat * nat)) : Z * Z * list (Z * Z) :=
  match segs with [] => (0, 0, []) | (lo, hi) :: segs => (item lo, item hi, conc segs) end.

(** What the insertion sort needs: a cut among the first elements, or a partition that starts
    at the front and will make one.  The other partitions are behind it. *)
Definition front_ok (l : list (list Z)) (segs : list (nat * nat)) : Prop :=
  (exists k, (1 <= k <= 5)%nat /\ cut le l k /\ Forall (fun s => (k <= s.1)%nat) segs) \/
  (exists hi rest, segs ≡ₚ (O, hi) :: rest /\ cut le l (S hi) /\ Forall (fun s => (hi < s.1)%nat) rest).

#[local] Instance front_ok_proper l : Proper ((≡ₚ) ==> iff) (front_ok l).
Proof. intros s1 s2 Hs. unfold front_ok. setoid_rewrite Hs. reflexivity. Qed.

(** What is left of the partition [lo, hi], split at [right] and [left]. *)
Definition remains (lo hi left right : nat) (segs segs' : list (nat * nat)) : Prop :=
  exists L R, segs' ≡ₚ L ++ R ++ segs /\ (L = [(lo, right)] \/ L = [] /\ (right - lo <= 4)%nat) /\ (R = [(left, hi)] \/ R = []).

Lemma Forall_remains (P : nat * nat -> Prop) lo hi left right segs segs' :
  remains lo hi left right segs segs' -> P (lo, right) -> P (left, hi) -> Forall P segs -> Forall P segs'.
Proof. intros (L & R & -> & HL & HR) ? ? ?. destruct HL as [-> | [-> _]], HR as [-> | ->]; cbn [app]; auto. Qed.

Lemma front_step l l' lo hi left right segs segs' :
  length l = n -> (lo <= right < left)%nat -> (left <= hi < n)%nat -> swaps lo hi l l' ->
  (forall i j, (lo <= i <= right)%nat -> (right < j <= hi)%nat -> le (l' !!! i) (l' !!! j)) ->
  remains lo hi left right segs segs' -> front_ok l ((lo, hi) :: segs) -> front_ok l' segs'.
Proof.
  intros Hn Hr Hl Hs Hsplit Hrem [(k & Hk & Hcut & Hall)|(hi0 & rest & Hperm & Hcut & Hall)].
  - left. exists k. apply Forall_cons in Hall as [Hlo Hall]. cbn [fst] in Hlo. split; [assumption|].
    split; [eapply swaps_cut; eauto; lia|]. eapply Forall_remains; eauto; cbn [fst]; lia.
  - assert ((O, hi0) ∈ (lo, hi) :: segs) as Hin by (rewrite Hperm; left).
    apply elem_of_cons in Hin as [[= <- ->]|Hin].
    + (* the current partition is at the front *)
      apply Permutation_cons_inv in Hperm. rewrite <- Hperm in Hall. pose proof (swaps_length _ _ _ _ Hs) as Hl'.
      assert (cut le l' (S hi)) as Hcut1 by (eapply swaps_cut; eauto; lia).
      assert (cut le l' (S right)) as Hcut2.
      { intros i j Hi Hj. destruct (decide (j <= hi)%nat); [apply Hsplit|apply Hcut1]; lia. }
      destruct Hrem as (L & R & -> & HL & HR).
      assert (Forall (fun s => (right < s.1)%nat) (R ++ segs)) as Hall'.
      { apply Forall_app. split; [destruct HR as [-> | ->]; auto; repeat constructor; cbn; lia|]. eapply Forall_impl; [exact Hall|]. cbn. lia. }
      destruct HL as [-> | [-> Hsmall]].
      * right. exists right, (R ++ segs). auto.
      * left. exists (S right). split; [lia|]. split; [assumption|exact Hall'].
    + apply elem_of_Permutation in Hin as [segs2 Hp2]. rewrite Hp2 in Hperm.
      rewrite Permutation_swap in Hperm. apply Permutation_cons_inv in Hperm. rewrite <- Hperm in Hall. apply Forall_cons in Hall as [Hlo Hall].
      cbn [fst] in Hlo. right. destruct Hrem as (L & R & Hp & HL & HR). exists hi0, (L ++ R ++ segs2).
      split; [rewrite Hp, Hp2; solve_Permutation|]. split; [eapply swaps_cut; eauto; lia|].
      eapply Forall_remains; [exists L, R; split; [reflexivity|split; eassumption]|cbn [fst]; lia..|assumption].
Qed.

Lemma span_le i j : (i <= j < n)%nat -> (4 <= n)%nat -> (size_t A (item j - item i) <=? 4 * sz) = (j - i <=? 4)%nat.
Proof.
  intros Hij H4. replace (item j - item i) with (Z.of_nat (j - i) * sz) by (unfold item; nia). rewrite fits_word by (apply span_fits; lia).
  destruct (Nat.leb_spec (j - i) 4); [apply Z.leb_le|apply Z.leb_gt]; nia.
Qed.

(** The stack never grows beyond its size: a partition of index [d] has at most [n / 2^d] elements. *)
Lemma PUSH_spec {R} lo hi segs lo' hi' : depth_ok ((lo, hi) :: segs) ->
  @PUSH A R (item lo') (item hi') (conc segs) = Next (conc ((lo', hi') :: segs)).
Proof.
  intros (Hlh & Hd & _). unfold PUSH, conc, STACK_SIZE. rewrite length_app, length_map. cbn [length].
  rewrite (proj2 (Z.ltb_lt _ _)); [reflexivity|].
  assert (2 ^ Z.of_nat (length segs) < 2 ^ (wordbits A - 1)) as H%Z.pow_lt_mono_r_iff; unfold wordbits in *; try lia; [|destruct (wordsize_cases A); lia].
  pose proof (Z.pow_pos_nonneg 2 (Z.of_nat (length segs))). nia.
Qed.

Lemma POP_spec {R} segs : @POP R (conc segs) = Next (conc_next segs).
Proof. destruct segs as [|[lo hi] segs]; reflexivity. Qed.

Lemma next_partition_spec {R} lo hi left right segs : depth_ok ((lo, hi) :: segs) -> (lo <= right < left)%nat -> (left <= hi)%nat ->
  exists segs', @next_partition A R (4 * sz) (item lo) (item hi) (item left) (item right) (conc segs) = Next (conc_next segs') /\
    remains lo hi left right segs segs' /\ depth_ok segs' /\ (weight segs' < weight ((lo, hi) :: segs))%nat.
Proof.
  intros Hd Hr Hl. pose proof Hd as (Hlh & Hsize & Hdr). set (d := 2 ^ Z.of_nat (length segs)) in *. assert (0 < d) as Hd0 by (apply Z.pow_pos_nonneg; lia).
  unfold next_partition. rewrite !span_le by lia. unfold remains.
  destruct (Nat.leb_spec (right - lo) 4), (Nat.leb_spec (hi - left) 4).
  - exists segs. rewrite POP_spec. split; [reflexivity|]. split; [exists [], []; auto|]. split; [assumption|]. cbn [weight]. lia.
  - exists ((left, hi) :: segs). split; [reflexivity|]. split; [exists [], [(left, hi)]; auto|]. split; [|cbn [weight]; lia].
    cbn [depth_ok]. fold d. split; [lia|]. split; [nia|assumption].
  - exists ((lo, right) :: segs). split; [reflexivity|]. split; [exists [(lo, right)], []; auto|]. split; [|cbn [weight]; lia].
    cbn [depth_ok]. fold d. split; [lia|]. split; [nia|assumption].
  - replace (item hi - item left) with (Z.of_nat (hi - left) * sz) by (unfold item; nia).
    replace (item right - item lo) with (Z.of_nat (right - lo) * sz) by (unfold item; nia).
    destruct (Z.ltb_spec (Z.of_nat (hi - left) * sz) (Z.of_nat (right - lo) * sz)) as [Hlt|Hge].
    + apply Z.mul_lt_mono_pos_r in Hlt; [|assumption]. rewrite (PUSH_spec _ _ _ _ _ Hd). cbn [flow_bind]. exists ((left, hi) :: (lo, right) :: segs). split; [reflexivity|].
      split; [exists [(lo, right)], [(left, hi)]; split; [apply Permutation_swap|auto]|]. split; [|cbn [weight]; lia].
      cbn [depth_ok length]. rewrite Nat2Z.inj_succ, Z.pow_succ_r by lia. fold d. repeat split; try assumption; try lia; nia.
    + apply Z.mul_le_mono_pos_r in Hge; [|assumption]. rewrite (PUSH_spec _ _ _ _ _ Hd). cbn [flow_bind]. exists ((lo, right) :: (left, hi) :: segs). split; [reflexivity|].
      split; [exists [(lo, right)], [(left, hi)]; auto|]. split; [|cbn [weight]; lia].
      cbn [depth_ok length]. rewrite Nat2Z.inj_succ, Z.pow_succ_r by lia. fold d. repeat split; try assumption; try lia; nia.
Qed.

Lemma quick_loop_spec {R} k : (n <= k)%nat -> forall fuel m l segs,
  arr m l -> depth_ok segs -> front_ok l segs -> (weight segs <= fuel)%nat ->
  exists m' l', (let '(lo, hi, stack) := conc_next segs in @quick_loop A cmp osz R fuel k m sz (4 * sz) lo hi stack) = Next m' /\
    arr m' l' /\ l' ≡ₚ l /\ front_ok l' [].
Proof.
  intros Hk. induction fuel as [|fuel IH]; intros m l segs Ha Hd Hfr Hw.
  - destruct segs as [|[lo hi] segs]; [|simpl in Hw; lia]. exists m, l. auto.
  - destruct segs as [|[lo hi] segs]; [exists m, l; auto|]. pose proof Hd as (Hlh & _ & _). cbn [conc_next].
    assert (exists e st, conc segs = e :: st) as (e & st & Est) by (destruct segs; cbn; eauto).
    rewrite Est. cbn [quick_loop]. rewrite <- Est.
    destruct (partition_spec (R := R) k m l lo hi Ha) as (m1 & l1 & left & right & -> & Ha1 & Hs1 & Hr & Hl & Hsp); [lia..|]. cbn [flow_bind].
    destruct (next_partition_spec (R := R) lo hi left right segs Hd Hr Hl) as (segs' & -> & Hrem & Hd' & Hw'). cbn [flow_bind].
    destruct (IH m1 l1 segs' Ha1 Hd') as (m' & l' & Hq & Ha' & Hp & Hfr'); [|lia|].
    { eapply front_step; eauto; [apply (arr_length _ _ Ha)|lia]. }
    destruct (conc_next segs') as [[lo' hi'] stack']. exists m', l'. split; [exact Hq|]. split; [assumption|]. split; [|assumption].
    rewrite Hp. eapply swaps_perm; [eassumption|]. rewrite (arr_length _ _ Ha). lia.
Qed.

(** ** Moving an element down, byte by byte *)

Lemma cell_inj k k' q q' : (q < osz)%nat -> (q' < osz)%nat -> item k + Z.of_nat q = item k' + Z.of_nat q' -> k = k' /\ q = q'.
Proof. unfold item. intros Hq Hq' E. assert (k = k') as -> by nia. lia. Qed.

(** The bytes [q] of the elements from [t] to [r] after the byte of the last was moved to the first. *)
Definition rotated (m m' : mem) (t r q : nat) : Prop :=
  m' !! (item t + Z.of_nat q) = m !! (item r + Z.of_nat q) /\
  forall k, (t < k <= r)%nat -> m' !! (item k + Z.of_nat q) = m !! (item (k - 1) + Z.of_nat q).

Definition byte_cell (m : mem) (a : Z) : Prop := exists v, m !! a = Some v /\ is_byte v.

Lemma shift_byte_spec {R} t q c : (q < osz)%nat -> is_byte c -> forall d fuel m,
  (forall k, (t <= k <= t + d)%nat -> byte_cell m (item k + Z.of_nat q)) -> (d <= fuel)%nat ->
  exists m', @shift_byte R fuel m sz (item t) (item (t + d) + Z.of_nat q) c = Next m' /\
    m' !! (item t + Z.of_nat q) = Some c /\
    (forall k, (t < k <= t + d)%nat -> m' !! (item k + Z.of_nat q) = m !! (item (k - 1) + Z.of_nat q)) /\
    (forall a, (forall k, (t <= k <= t + d)%nat -> a <> item k + Z.of_nat q) -> m' !! a = m !! a).
Proof.
  intros Hq Hc. induction d as [|d IH]; intros fuel m Hm Hf.
  - rewrite Nat.add_0_r. exists (<[item t + Z.of_nat q := c]> m). destruct (Hm t) as (v & Hv & _); [lia|].
    assert ((item t <=? item t + Z.of_nat q - sz) = false) as E by (apply Z.leb_gt; lia).
    split; [destruct fuel; cbn [shift_byte]; rewrite E; apply store8_spec; eauto|].
    split; [apply lookup_insert_eq|]. split; [intros; lia|]. intros a Ha. apply lookup_insert_ne. intros <-. apply (Ha t); [lia|reflexivity].
  - destruct fuel as [|fuel]; [lia|]. cbn [shift_byte].
    replace (item (t + S d) + Z.of_nat q - sz) with (item (t + d) + Z.of_nat q) by (unfold item; lia).
    rewrite (proj2 (Z.leb_le _ _)) by (unfold item; nia). destruct (Hm (t + d)%nat) as (v & Hv & Hb); [lia|]. destruct (Hm (t + S d)%nat) as (w & Hw & _); [lia|].
    rewrite (load8_spec _ _ _ Hv). cbn [flow_bind]. rewrite store8_spec by eauto. cbn [flow_bind]. set (m1 := <[_ := v]> m).
    assert (forall k, (k <= t + d)%nat -> m1 !! (item k + Z.of_nat q) = m !! (item k + Z.of_nat q)) as Hm1.
    { intros k Hk. apply lookup_insert_ne. intros E%cell_inj; [lia|assumption..]. }
    destruct (IH fuel m1) as (m' & -> & Ht & Hk & Ho); [|lia|].
    { intros k Hk. unfold byte_cell. rewrite Hm1 by lia. apply Hm. lia. }
    exists m'. split; [reflexivity|]. split; [assumption|]. split.
    + intros k Hk'. destruct (decide (k = t + S d)%nat) as [->|].
      * rewrite Ho by (intros k Hk2 E%cell_inj; [lia|assumption..]). subst m1. rewrite lookup_insert_eq, <- Hv. f_equal. f_equal. f_equal. lia.
      * rewrite Hk, Hm1 by lia. reflexivity.
    + intros a Ha. rewrite Ho by (intros k Hk'; apply Ha; lia). apply lookup_insert_ne. intros <-. apply (Ha (t + S d)%nat); [lia|reflexivity].
Qed.

Lemma shift_item_spec {R} t r k : (t <= r)%nat -> (r <= k)%nat -> forall o fuel m, (o <= osz)%nat -> (o <= fuel)%nat ->
  (forall i q, (t <= i <= r)%nat -> (q < o)%nat -> byte_cell m (item i + Z.of_nat q)) ->
  exists m', @shift_item R fuel k m sz (item t) (item r) (item r + Z.of_nat o) = Next m' /\
    (forall q, (q < o)%nat -> rotated m m' t r q) /\
    (forall a, (forall i q, (t <= i <= r)%nat -> (q < o)%nat -> a <> item i + Z.of_nat q) -> m' !! a = m !! a).
Proof.
  intros Htr Hk. induction o as [|o IH]; intros fuel m Ho Hf Hm.
  - exists m. split; [|split; [intros; lia|reflexivity]]. assert ((item r <=? item r + Z.of_nat 0 - 1) = false) as E by (apply Z.leb_gt; lia).
    destruct fuel; cbn [shift_item]; rewrite E; reflexivity.
  - destruct fuel as [|fuel]; [lia|]. cbn [shift_item]. replace (item r + Z.of_nat (S o) - 1) with (item r + Z.of_nat o) by lia.
    rewrite (proj2 (Z.leb_le _ _)) by lia. destruct (Hm r o) as (c & Hc & Hb); [lia..|]. rewrite (load8_spec _ _ _ Hc). cbn [flow_bind].
    destruct (shift_byte_spec (R := R) t o c ltac:(lia) Hb (r - t) k m) as (m1 & Hs & H1 & H2 & H3); [intros; apply Hm; lia|lia|].
    replace (t + (r - t))%nat with r in * by lia. rewrite Hs. cbn [flow_bind].
    assert (forall i q, (q < o)%nat -> m1 !! (item i + Z.of_nat q) = m !! (item i + Z.of_nat q)) as Hsame.
    { intros i q Hq. apply H3. intros i' _ E%cell_inj; lia. }
    destruct (IH fuel m1) as (m' & -> & Hrot & Hout); [lia..| |].
    { intros i q Hi Hq. unfold byte_cell. rewrite Hsame by lia. apply Hm; lia. }
    exists m'. split; [reflexivity|]. split.
    + intros q Hq. destruct (decide (q = o)) as [->|].
      * assert (forall i, m' !! (item i + Z.of_nat o) = m1 !! (item i + Z.of_nat o)) as Hcol by (intros i; apply Hout; intros i' q' _ Hq' E%cell_inj; lia).
        split; [rewrite Hcol, H1; auto|]. intros i Hi. rewrite Hcol. auto.
      * destruct (Hrot q) as [Ha Hb']; [lia|]. split; [rewrite Ha; apply Hsame; lia|]. intros i Hi. rewrite Hb' by assumption. apply Hsame. lia.
    + intros a Ha. rewrite Hout by (intros i q Hi Hq; apply Ha; lia). apply H3. intros i Hi. apply Ha; lia.
Qed.

(** A memory with elements in every place is a frame of the original. *)
Lemma frame_items m m' (f : nat -> list Z) :
  frame m0 m b (Z.of_nat n * sz) b 0 -> (forall i, (i < n)%nat -> bytes_at m' (item i) (f i) /\ Z.of_nat (length (f i)) = sz) ->
  (forall a, ~ (b <= a < b + Z.of_nat n * sz) -> m' !! a = m !! a) -> frame m0 m' b (Z.of_nat n * sz) b 0.
Proof.
  intros [F M] Hat Hout. split; [intros a Ha Hb; rewrite Hout by assumption; auto|]. intros lo hi Hm a Ha.
  destruct (decide (b <= a < b + Z.of_nat n * sz)) as [Hin|Hnin]; [|rewrite Hout by assumption; exact (M lo hi Hm a Ha)].
  pose proof (Z.div_mod (a - b) sz ltac:(lia)) as E. pose proof (Z.mod_pos_bound (a - b) sz ltac:(lia)).
  assert (0 <= (a - b) / sz < Z.of_nat n) as Hi by nia. destruct (Hat (Z.to_nat ((a - b) / sz))) as [Hb Hl]; [lia|].
  replace a with (item (Z.to_nat ((a - b) / sz)) + Z.of_nat (Z.to_nat ((a - b) mod sz))) by (unfold item; lia).
  destruct (lookup_lt_is_Some_2 (f (Z.to_nat ((a - b) / sz))) (Z.to_nat ((a - b) mod sz))) as [v Hv]; [lia|].
  rewrite (Hb _ _ Hv). eauto.
Qed.

Lemma arr_cell m l i q : arr m l -> (i < n)%nat -> (q < osz)%nat ->
  exists v, m !! (item i + Z.of_nat q) = Some v /\ is_byte v /\ (l !!! i) !! q = Some v.
Proof.
  intros Ha Hi Hq. destruct (arr_at _ _ Ha i Hi) as [Hb [Hl Hby]]. destruct (lookup_lt_is_Some_2 (l !!! i) q) as [v Hv]; [lia|].
  exists v. split; [apply Hb; assumption|]. split; [|assumption]. eapply Forall_lookup_1; eassumption.
Qed.

Lemma move_item_spec {R} m l t r k : arr m l -> (t <= r < n)%nat -> (n <= k)%nat ->
  exists m', @shift_item R osz k m sz (item t) (item r) (item r + sz) = Next m' /\ arr m' (move r t l).
Proof.
  intros Ha Hr Hk. pose proof (arr_length _ _ Ha) as Hn. replace (item r + sz) with (item r + Z.of_nat osz) by lia.
  destruct (shift_item_spec (R := R) t r k ltac:(lia) ltac:(lia) osz osz m) as (m' & -> & Hrot & Hout); [lia..| |].
  { intros i q Hi Hq. destruct (arr_cell m l i q Ha) as (v & Hv & Hb & _); [lia..|]. exists v. auto. }
  exists m'. split; [reflexivity|].
  assert (forall i, (i < n)%nat -> bytes_at m' (item i) (move r t l !!! i) /\ element sz (move r t l !!! i)) as Hat.
  { intros i Hi. rewrite move_lookup by lia. set (j := if decide (i = t) then r else if decide (t < i <= r)%nat then (i - 1)%nat else i).
    assert (j < n)%nat as Hj by (subst j; repeat case_decide; lia). destruct (arr_at _ _ Ha j Hj) as [Hbj Hej]. split; [|assumption].
    intros q v Hv. rewrite <- (Hbj q v Hv). assert (q < osz)%nat as Hq by (apply lookup_lt_Some in Hv; destruct Hej; lia).
    destruct (Hrot q Hq) as [Ht Hm]. subst j. destruct (decide (i = t)) as [->|]; [assumption|]. destruct (decide (t < i <= r)%nat); [auto|].
    apply Hout. intros i' q' Hi' Hq' E%cell_inj; lia. }
  split; [rewrite length_move; lia|assumption|].
  apply (frame_items m m' (fun i => move r t l !!! i) (arr_frame _ _ Ha)).
  - intros i Hi. destruct (Hat i Hi) as [Hb [Hl _]]. auto.
  - intros a Hna. apply Hout. intros i q Hi Hq ->. pose proof (item_bounds i ltac:(lia)). lia.
Qed.

(** ** The insertion sort *)

Lemma find_smallest_spec {R} m l e : arr m l -> (e < n)%nat -> forall fuel t r,
  (t < r <= S e)%nat -> (S e - r <= fuel)%nat -> (forall i, (i < r)%nat -> le (l !!! t) (l !!! i)) ->
  exists t', @find_smallest cmp osz R fuel m sz (item e) (item t) (item r) = Next (item t') /\ (t' <= e)%nat /\
    forall i, (i <= e)%nat -> le (l !!! t') (l !!! i).
Proof.
  intros Ha He. induction fuel as [|fuel IH]; intros t r Ht Hf Hmin; cbn [find_smallest]; rewrite item_le;
    destruct (Z.leb_spec (Z.of_nat r) (Z.of_nat e)) as [Hle|Hgt]; try lia;
    try (exists t; split; [reflexivity|]; split; [lia|]; intros i Hi; apply Hmin; lia).
  rewrite (call_cmp_spec m l r t) by (assumption || lia). cbn [flow_bind]. rewrite <- item_S. pose proof (cmp_cases (l !!! r) (l !!! t)) as Hc.
  destruct (_ <? _); apply IH; try lia; intros i Hi; (destruct (decide (i = r)) as [->|]; [try assumption; apply le_refl|]).
  - transitivity (l !!! t); [assumption|]. apply Hmin. lia.
  - apply Hmin. lia.
Qed.

(** The search for the place is the scan from the right. *)
Lemma find_place_scan {R} fuel m run_ptr tmp_ptr : @find_place cmp osz R fuel m sz run_ptr tmp_ptr = scan_right cmp osz fuel m sz run_ptr tmp_ptr.
Proof. reflexivity. Qed.

Lemma move_self {X} `{!Inhabited X} (l : list X) r : (r < length l)%nat -> move r r l = l.
Proof.
  intros Hr. apply list_eq_total; [apply length_move; lia|]. intros i _. rewrite move_lookup by lia. f_equal. repeat case_decide; lia.
Qed.

Lemma insertion_loop_spec {R} k : (n <= k)%nat -> forall fuel m l r,
  arr m l -> (1 <= r <= n)%nat -> (n - r <= fuel)%nat -> (forall i, (i < n)%nat -> le (l !!! O) (l !!! i)) -> ordered le l (S r `min` n) ->
  exists m' l', @insertion_loop cmp osz R fuel k m sz (item (n - 1)) (item r) = Next m' /\ arr m' l' /\ l' ≡ₚ l /\ ordered le l' n.
Proof.
  intros Hk. induction fuel as [|fuel IH]; intros m l r Ha Hr Hf Hmin Ho; cbn [insertion_loop]; rewrite <- item_S, item_le;
    (destruct (Z.leb_spec (Z.of_nat (S r)) (Z.of_nat (n - 1))) as [Hle|Hgt];
     [try lia|exists m, l; split; [reflexivity|]; split; [assumption|]; split; [reflexivity|]; replace n with (S r `min` n)%nat at 1 by lia; assumption]).
  rewrite Nat.min_l in Ho by lia. pose proof (arr_length _ _ Ha) as Hn. replace (item (S r) - sz) with (item r) by (rewrite item_S; lia). rewrite find_place_scan.
  destruct (scan_right_spec (R := R) m l (S r) O Ha) with (fuel := k) (right := r) as (i & -> & Hi & Hlow & Hhigh); [lia|apply Hmin; lia|lia|lia|].
  cbn [flow_bind]. rewrite <- (item_S i), item_eq.
  assert (exists m1, (if Z.of_nat (S i) =? Z.of_nat (S r) then Next m else @shift_item R osz k m sz (item (S i)) (item (S r)) (item (S r) + sz)) = Next m1 /\
    arr m1 (move (S r) (S i) l)) as (m1 & -> & Ha1).
  { destruct (Z.eqb_spec (Z.of_nat (S i)) (Z.of_nat (S r))) as [E|E]; [|apply move_item_spec; auto; lia].
    replace (S i) with (S r) by lia. exists m. rewrite move_self by lia. auto. }
  cbn [flow_bind]. destruct (IH m1 (move (S r) (S i) l) (S r) Ha1) as (m' & l' & -> & Ha' & Hp & Ho'); [lia|lia| | |].
  - intros j Hj. rewrite !move_lookup by lia. rewrite (decide_False (P := (O = S i))), (decide_False (P := (S i < 0 <= S r)%nat)) by lia.
    apply Hmin. repeat case_decide; lia.
  - rewrite Nat.min_l by lia. apply ordered_move; [lia|assumption| |].
    + intros j Hj. destruct (decide (j = i)) as [->|]; [assumption|]. transitivity (l !!! i); [apply Ho; lia|assumption].
    + intros j Hj. apply Hhigh. lia.
  - exists m', l'. split; [reflexivity|]. split; [assumption|]. split; [|assumption]. rewrite Hp. apply move_perm. lia.
Qed.

Lemma thresh_spec : (0 < n)%nat -> Z.min (item (n - 1)) (b + size_t A (MAX_THRESH * sz)) = item ((n - 1) `min` 4).
Proof.
  intros Hn. unfold item. destruct (decide (n = 1)%nat) as [->|].
  - unfold size_t. pose proof (uwrap_range (wordbits A) (MAX_THRESH * sz)). unfold wordbits in *. destruct (wordsize_cases A); cbn [Nat.sub Nat.min]; lia.
  - assert (MAX_THRESH * sz < 2 ^ wordbits A) as Hb.
    { rewrite wordbits_double. pose proof (span_fits 2 ltac:(lia)). unfold MAX_THRESH. lia. }
    unfold MAX_THRESH in *. unfold size_t. rewrite uwrap_small by lia. destruct (Nat.min_spec (n - 1) 4) as [[H ->]|[H ->]]; nia.
Qed.

(** The smallest of the first five elements is the smallest of all. *)
Lemma insertion_sort_spec {R} m l k : arr m l -> (0 < n <= k)%nat -> ((4 < n)%nat -> front_ok l []) ->
  exists m' l', @insertion_sort A cmp osz R k m sz (size_t A (MAX_THRESH * sz)) b (item (n - 1)) = Next m' /\
    arr m' l' /\ l' ≡ₚ l /\ ordered le l' n.
Proof.
  intros Ha Hn Hfront. pose proof (arr_length _ _ Ha) as Hl. unfold insertion_sort. rewrite thresh_spec by lia.
  replace b with (item 0) by (unfold item; lia). rewrite <- item_S.
  destruct (find_smallest_spec (R := R) m l ((n - 1) `min` 4) Ha ltac:(lia) k 0%nat 1%nat) as (t & -> & Ht & Hmin); [lia|lia| |].
  { intros i Hi. replace i with O by lia. apply le_refl. }
  cbn [flow_bind]. rewrite item_eq.
  assert (forall i, (i < n)%nat -> le (l !!! t) (l !!! i)) as Hall.
  { intros i Hi. destruct (decide (i <= (n - 1) `min` 4)%nat); [apply Hmin; assumption|].
    destruct Hfront as [(c & Hc & Hcut & _)|(hi & rest & Hp & _)]; [lia| |apply Permutation_nil_cons in Hp; contradiction].
    transitivity (l !!! O); [apply Hmin|apply Hcut]; lia. }
  assert (exists m1, (if Z.of_nat t =? Z.of_nat 0 then Next m else @swap_items A R m (item t) (item 0) sz) = Next m1 /\ arr m1 (swap t 0 l)) as (m1 & -> & Ha1).
  { destruct (Z.eqb_spec (Z.of_nat t) (Z.of_nat 0)); [|apply swap_items_spec; auto; lia]. exists m. replace t with O by lia.
    replace (swap 0 0 l) with l; [auto|]. apply list_eq_total; [rewrite length_swap; reflexivity|]. intros i Hi. rewrite swap_lookup by lia. repeat case_decide; subst; reflexivity. }
  cbn [flow_bind]. destruct (insertion_loop_spec (R := R) k ltac:(lia) k m1 (swap t 0 l) 1 Ha1) as (m' & l' & -> & Ha' & Hp & Ho); [lia|lia| | |].
  - intros i Hi. rewrite !swap_lookup by lia. repeat case_decide; subst; try lia; apply Hall; lia.
  - intros i j Hij. replace i with O by lia. rewrite !swap_lookup by lia. repeat case_decide; subst; try lia; apply Hall; lia.
  - exists m', l'. split; [reflexivity|]. split; [assumption|]. split; [|assumption]. rewrite Hp. apply swap_perm; lia.
Qed.

Lemma quicksort_arr {R} m l : arr m l ->
  exists m' l', @quicksort A cmp osz R m b (Z.of_nat n) sz = Next m' /\ arr m' l' /\ l' ≡ₚ l /\ StronglySorted le l'.
Proof.
  intros Ha. pose proof (arr_length _ _ Ha) as Hl. unfold quicksort. destruct (Z.eqb_spec (Z.of_nat n) 0) as [E|E].
  { exists m, l. split; [reflexivity|]. split; [assumption|]. split; [reflexivity|]. destruct l; [constructor|simpl in Hl; lia]. }
  rewrite Nat2Z.id. replace (b + size_t A (sz * (Z.of_nat n - 1))) with (item (n - 1)).
  2: { replace (sz * (Z.of_nat n - 1)) with (Z.of_nat (n - 1) * sz) by nia. rewrite fits_word by (apply span_fits; lia). reflexivity. }
  assert (exists m1 l1, (if MAX_THRESH <? Z.of_nat n then
      flow_bind (PUSH A 0 0 []) (fun stack => @quick_loop A cmp osz R (2 * n) n m sz (size_t A (MAX_THRESH * sz)) b (item (n - 1)) stack)
    else Next m) = Next m1 /\ arr m1 l1 /\ l1 ≡ₚ l /\ ((4 < n)%nat -> front_ok l1 [])) as (m1 & l1 & -> & Ha1 & Hp1 & Hfr).
  { unfold MAX_THRESH. destruct (Z.ltb_spec 4 (Z.of_nat n)); [|exists m, l; auto with lia].
    replace (4 * sz) with (Z.of_nat 4 * sz) by lia. rewrite fits_word by (apply span_fits; lia).
    assert (@PUSH A R 0 0 [] = Next (conc [])) as -> by (unfold PUSH, STACK_SIZE; destruct (wordsize_cases A) as [-> | ->]; reflexivity).
    cbn [flow_bind]. destruct (quick_loop_spec (R := R) n ltac:(lia) (2 * n) m l [(O, (n - 1)%nat)] Ha) as (m1 & l1 & Hq & Ha1 & Hp1 & Hf1).
    - cbn [depth_ok length]. rewrite Z.mul_1_r. lia.
    - right. exists (n - 1)%nat, []. split; [reflexivity|]. split; [|constructor]. intros i j Hi Hj. lia.
    - cbn [weight]. lia.
    - exists m1, l1. cbn [conc_next] in Hq. replace (item 0) with b in Hq by (unfold item; lia). auto. }
  cbn [flow_bind]. destruct (insertion_sort_spec (R := R) m1 l1 n Ha1 ltac:(lia) Hfr) as (m' & l' & -> & Ha' & Hp' & Ho).
  exists m', l'. split; [reflexivity|]. split; [assumption|]. split; [rewrite Hp'; assumption|].
  apply ordered_sorted. rewrite (arr_length _ _ Ha'). assumption.
Qed.
End Array.

(** An array of elements, byte by byte and element by element. *)
Lemma concat_items m sz : 0 < sz -> forall l b, Forall (element sz) l ->
  bytes_at m b (concat l) <-> forall i, (i < length l)%nat -> bytes_at m (item sz b i) (l !!! i).
Proof.
  intros Hsz. induction l as [|x l IH]; intros b Hl; cbn [concat length].
  - split; [intros; lia|]. intros _ i v Hi. destruct i; discriminate.
  - apply Forall_cons in Hl as [[Hx _] Hl]. rewrite bytes_at_app, Hx, (IH (b + sz) Hl). split.
    + intros [H0 H] [|i] Hi; [unfold item; rewrite Z.add_0_r; exact H0|]. replace (item sz b (S i)) with (item sz (b + sz) i) by (unfold item; lia). apply H. lia.
    + intros H. split; [specialize (H O ltac:(lia)); unfold item in H; rewrite Z.add_0_r in H; exact H|].
      intros i Hi. replace (item sz (b + sz) i) with (item sz b (S i)) by (unfold item; lia). apply (H (S i)). lia.
Qed.

Lemma arr_concat sz b n m0 m l : 0 < sz -> arr sz b n m0 m l -> bytes_at m b (concat l) /\ Forall (element sz) l.
Proof.
  intros Hsz Ha. pose proof (arr_length _ _ _ _ _ _ Ha) as Hn. assert (Forall (element sz) l) as Hl.
  { apply (Forall_lookup_total_2 (element sz) l). intros i Hi. apply (arr_at _ _ _ _ _ _ Ha). lia. }
  split; [|assumption]. apply (concat_items _ sz Hsz _ _ Hl). intros i Hi. apply (arr_at _ _ _ _ _ _ Ha). lia.
Qed.

Lemma quicksort_spec {R} A cmp m b sz l :
  compares cmp -> 0 < sz -> Forall (element sz) l -> bytes_at m b (concat l) -> Z.of_nat (length l) * sz < 2 ^ (wordbits A - 1) ->
  exists m' l', @quicksort A cmp (Z.to_nat sz) R m b (Z.of_nat (length l)) sz = Next m' /\
    l' ≡ₚ l /\ StronglySorted (cmp_le cmp) l' /\ bytes_at m' b (concat l') /\ frame m m' b (Z.of_nat (length l) * sz) b 0.
Proof.
  intros Hc Hsz Hl Hat Hfit. destruct (quicksort_arr (R := R) A cmp sz b (length l) m Hsz Hfit Hc m l) as (m' & l' & -> & Ha & Hp & Hs).
  - split; [reflexivity| |apply frame_refl]. intros i Hi. split; [|eapply (Forall_lookup_total_1 (element sz)); eassumption]. apply (concat_items m sz Hsz l b Hl); assumption.
  - exists m', l'. split; [reflexivity|]. split; [assumption|]. split; [assumption|]. split; [|apply (arr_frame _ _ _ _ _ _ Ha)].
    apply (arr_concat _ _ _ _ _ _ Hsz Ha).
Qed.

(** ** Binary search *)

Section Bsearch.
Context (A : arch) (compar : list Z -> list Z -> Z) (m : mem) (key base sz : Z) (k : list Z) (l : list (list Z)).
Hypothesis sz_pos : 0 < sz.
Hypothesis array_fits : Z.of_nat (length l) * sz < 2 ^ (wordbits A - 1).
Hypothesis key_at : bytes_at m key k.
Hypothesis l_elems : Forall (element sz) l.
Hypothesis l_at : bytes_at m base (concat l).

(** In the order of the array the key is above, then equal to, then below the elements. *)
Hypothesis falling : forall i j, (i <= j < length l)%nat ->
  (compar k (l !!! i) < 0 -> compar k (l !!! j) < 0) /\ (0 < compar k (l !!! j) -> 0 < compar k (l !!! i)).

Lemma bsearch_loop_spec {R} fuel : forall lo hi, (lo <= hi <= length l)%nat -> (hi - lo <= fuel)%nat ->
  (forall i, (i < lo)%nat -> 0 < compar k (l !!! i)) -> (forall i, (hi <= i < length l)%nat -> compar k (l !!! i) < 0) ->
  exists r, @bsearch_loop R A compar (length k) fuel m key base sz (Z.of_nat lo) (Z.of_nat hi) = Next r /\
    match r with
    | Some p => exists i, (i < length l)%nat /\ p = item sz base i /\ compar k (l !!! i) = 0
    | None => forall i, (i < length l)%nat -> compar k (l !!! i) <> 0
    end.
Proof.
  induction fuel as [|fuel IH]; intros lo hi Hlh Hf Hlo Hhi; cbn [bsearch_loop]; (destruct (Z.ltb_spec (Z.of_nat lo) (Z.of_nat hi)); [try lia|]).
  1, 3: exists None; split; [reflexivity|]; intros i Hi; (destruct (decide (i < lo)%nat); [specialize (Hlo i)|specialize (Hhi i)]; lia).
  pose proof (span_fits A sz (length l) sz_pos array_fits) as Hspan.
  assert (size_t A (Z.of_nat lo + Z.of_nat hi) / 2 = Z.of_nat ((lo + hi) / 2)) as ->.
  { rewrite <- Nat2Z.inj_add. unfold size_t. rewrite uwrap_small.
    - change 2 with (Z.of_nat 2). rewrite <- Nat2Z.inj_div. reflexivity.
    - rewrite wordbits_double. assert (Z.of_nat (length l) <= Z.of_nat (length l) * sz) by nia. lia. }
  pose proof (Nat.div_mod (lo + hi) 2 ltac:(lia)). pose proof (Nat.mod_upper_bound (lo + hi) 2 ltac:(lia)). set (idx := ((lo + hi) / 2)%nat) in *.
  rewrite (fits_word A (Z.of_nat idx * sz)) by (apply Hspan; lia). change (base + Z.of_nat idx * sz) with (item sz base idx).
  rewrite (load_bytes_spec _ _ _ key_at). cbn [flow_bind].
  assert (bytes_at m (item sz base idx) (l !!! idx)) as Hx by (apply (concat_items m sz sz_pos l base l_elems); [assumption|lia]).
  destruct (Forall_lookup_total_1 (element sz) l idx l_elems ltac:(lia)) as [Hsz _]. replace (Z.to_nat sz) with (length (l !!! idx)) by lia.
  rewrite (load_bytes_spec _ _ _ Hx). cbn [flow_bind]. destruct (Z.ltb_spec (compar k (l !!! idx)) 0); [|destruct (Z.ltb_spec 0 (compar k (l !!! idx)))].
  - apply IH; try lia; auto. intros i Hi. apply (proj1 (falling idx i ltac:(lia))). assumption.
  - replace (Z.of_nat idx + 1) with (Z.of_nat (S idx)) by lia. apply IH; try lia; auto. intros i Hi. apply (proj2 (falling i idx ltac:(lia))). assumption.
  - exists (Some (item sz base idx)). split; [reflexivity|]. exists idx. split; [lia|]. split; [reflexivity|]. lia.
Qed.
End Bsearch.

(** * qsort and bsearch together *)

(** What the caller provides, and the temporary area when there is one. *)
Record qsort_args (A : arch) (m : mem) (b sz : Z) (l : list (list Z)) (area : tmp_area) : Prop := {
  qa_size : 0 < sz;
  qa_elems : Forall (element sz) l;
  qa_array : bytes_at m b (concat l);
  qa_fits : Z.of_nat (length l) * sz < 2 ^ (wordbits A - 1);
  qa_area : match area with Area tm => sort_args A m b sz tm l | NoArea => True end
}.

(** What may change: the array and the area. *)
Definition qsort_frame (A : arch) (m m' : mem) (b sz : Z) (l : list (list Z)) (area : tmp_area) : Prop :=
  match area with
  | Area tm => frame m m' b (Z.of_nat (length l) * sz) tm (tmp_size A (Z.of_nat (length l)) sz)
  | NoArea => frame m m' b (Z.of_nat (length l) * sz) b 0
  end.

Lemma qsort_spec {R} A align64 cmp sc_phys sc_page alloca malloc st st' m b sz l area :
  align64 = 4 \/ align64 = 8 -> compares cmp ->
  @get_area A R sc_phys sc_page alloca malloc st (tmp_size A (Z.of_nat (length l)) sz) = Next (area, st') -> qsort_args A m b sz l area ->
  exists m' l', @qsort R A align64 cmp sc_phys sc_page alloca malloc st m b (Z.of_nat (length l)) sz = Next (m', st') /\
    l' ≡ₚ l /\ StronglySorted (cmp_le cmp) l' /\ bytes_at m' b (concat l') /\ qsort_frame A m m' b sz l area.
Proof.
  intros Hal Hc Harea [Hsz Hel Hat Hfit Hargs]. unfold qsort. destruct area as [tm|].
  - destruct (qsort_r_spec (R := R) A align64 cmp (quicksort A cmp (Z.to_nat sz)) sc_phys sc_page alloca malloc st st' m b sz tm l Hal
      (compares_total cmp Hc) (compares_transitive cmp Hc) Harea Hargs) as (m' & l' & -> & [Hp Hs _] & Hb & Hf). exists m', l'. auto.
  - unfold qsort_r. rewrite Harea. cbn [flow_bind].
    destruct (quicksort_spec (R := R) A cmp m b sz l Hc Hsz Hel Hat Hfit) as (m' & l' & -> & Hp & Hs & Hb & Hf). exists m', l'. auto 10.
Qed.

(** In a sorted array a key is above, equal to, then below the elements. *)
Lemma sorted_falling cmp k l i j : compares cmp -> StronglySorted (cmp_le cmp) l -> (i <= j < length l)%nat ->
  (cmp k (l !!! i) < 0 -> cmp k (l !!! j) < 0) /\ (0 < cmp k (l !!! j) -> 0 < cmp k (l !!! i)).
Proof.
  intros [Ho Ht] Hs Hij. assert (cmp (l !!! i) (l !!! j) <= 0) as Hle.
  { destruct (decide (i = j)) as [->|]; [specialize (Ho (l !!! j) (l !!! j)); lia|]. apply (sorted_ordered _ _ Hs). lia. }
  pose proof (Ho k (l !!! i)). pose proof (Ho k (l !!! j)). pose proof (Ho (l !!! i) k). pose proof (Ho (l !!! j) k).
  pose proof (Ht (l !!! i) (l !!! j) k Hle). pose proof (Ht k (l !!! i) (l !!! j)). lia.
Qed.

(** C5: quicksort returns for every array: its stack of partitions does not
    overflow, the scans that test no bound stop inside their partition, and the
    unguarded loop of the insertion sort stops at the smallest element.  The array is
    then a sorted permutation of what it was, and nothing else has changed. *)
Theorem quicksort_correct (A : arch) (cmp : list Z -> list Z -> Z) (m : mem) (b sz : Z) (l : list (list Z)) :
  compares cmp -> 0 < sz -> Forall (element sz) l -> bytes_at m b (concat l) -> Z.of_nat (length l) * sz < 2 ^ (wordbits A - 1) ->
  exists m' l', @quicksort A cmp (Z.to_nat sz) unit m b (Z.of_nat (length l)) sz = Next m' /\
    l' ≡ₚ l /\ StronglySorted (cmp_le cmp) l' /\ bytes_at m' b (concat l') /\ frame m m' b (Z.of_nat (length l) * sz) b 0.
Proof. apply quicksort_spec. Qed.

(** C19: after qsort, with or without memory for the merge sort, the array is a
    sorted permutation of the elements, and bsearch with the same comparison function and
    any key returns the address of an element equal to the key, or a null pointer when
    the original array had none. *)
Theorem qsort_bsearch (A : arch) (align64 : Z) (cmp : list Z -> list Z -> Z) sc_phys sc_page alloca malloc st st' m b sz l area :
  align64 = 4 \/ align64 = 8 -> compares cmp ->
  @get_area A unit sc_phys sc_page alloca malloc st (tmp_size A (Z.of_nat (length l)) sz) = Next (area, st') -> qsort_args A m b sz l area ->
  exists m' l', @qsort unit A align64 cmp sc_phys sc_page alloca malloc st m b (Z.of_nat (length l)) sz = Next (m', st') /\
    l' ≡ₚ l /\ StronglySorted (cmp_le cmp) l' /\ bytes_at m' b (concat l') /\ qsort_frame A m m' b sz l area /\
    forall key k, bytes_at m' key k ->
      exists r, @bsearch unit A cmp (length k) m' key b (Z.of_nat (length l)) sz = Next r /\
        match r with
        | Some p => exists i x, l' !! i = Some x /\ p = b + Z.of_nat i * sz /\ cmp k x = 0
        | None => forall x, x ∈ l -> cmp k x <> 0
        end.
Proof.
  intros Hal Hc Harea Hargs. destruct (qsort_spec (R := unit) A align64 cmp _ _ _ _ _ _ _ _ _ _ _ Hal Hc Harea Hargs) as (m' & l' & Hq & Hp & Hs & Hb & Hf).
  exists m', l'. do 5 (split; [assumption|]). intros key k Hk. destruct Hargs as [Hsz Hel _ Hfit _]. pose proof (Permutation_length Hp) as Hl.
  rewrite <- Hp in Hel. rewrite <- Hl in Hfit |- *. unfold bsearch. rewrite Nat2Z.id.
  destruct (bsearch_loop_spec A cmp m' key b sz k l' Hsz Hfit Hk Hel Hb) with (R := unit) (fuel := length l') (lo := O) (hi := length l') as (r & Hr & Hspec); try lia.
  { intros i j Hij. apply sorted_falling; assumption. }
  exists r. split; [exact Hr|]. destruct r as [p|].
  - destruct Hspec as (i & Hi & -> & E). exists i, (l' !!! i). split; [apply list_lookup_lookup_total_lt; assumption|]. auto.
  - intros x Hx. rewrite <- Hp in Hx. apply list_elem_of_lookup_total in Hx as (i & Hi & <-). apply Hspec. assumption.
Qed.

Lemma bytes_cmp_compares : compares bytes_cmp.
Proof. split; intros; unfold bytes_cmp in *; lia. Qed.

Lemma quicksort_witness :
  exists m' l', @quicksort (Arch true false) bytes_cmp 2 unit (mem_of 100 [5;1; 1;3; 2;2; 5;3; 3;1; 4;4; 0;0]) 100 7 2 = Next m' /\
    l' ≡ₚ [[5;1]; [1;3]; [2;2]; [5;3]; [3;1]; [4;4]; [0;0]] /\ StronglySorted (cmp_le bytes_cmp) l' /\ bytes_at m' 100 (concat l') /\
    frame (mem_of 100 [5;1; 1;3; 2;2; 5;3; 3;1; 4;4; 0;0]) m' 100 14 100 0.
Proof.
  apply (quicksort_correct (Arch true false) bytes_cmp (mem_of 100 [5;1; 1;3; 2;2; 5;3; 3;1; 4;4; 0;0]) 100 2
    [[5;1]; [1;3]; [2;2]; [5;3]; [3;1]; [4;4]; [0;0]]).
  - exact bytes_cmp_compares.
  - lia.
  - repeat apply Forall_cons_2; try apply Forall_nil_2; (split; [reflexivity|wf_bytes]).
  - apply mem_of_at; [lia|reflexivity].
  - reflexivity.
Defined.

(** Two elements of 1000 bytes and no memory. *)
Lemma qsort_bsearch_witness :
  let l := [repeat 5 1000; repeat 3 1000] in
  let m := mem_of 100 (concat l) in
  exists m' l', @qsort unit (Arch true false) 8 bytes_cmp 1000 4096 0 None (Pages 0 0) m 100 2 1000 = Next (m', Pages 250 4096) /\ l' ≡ₚ l /\
    forall key k, bytes_at m' key k -> exists r, @bsearch unit (Arch true false) bytes_cmp (length k) m' key 100 2 1000 = Next r.
Proof.
  intros l m.
  destruct (qsort_bsearch (Arch true false) 8 bytes_cmp 1000 4096 0 None (Pages 0 0) (Pages 250 4096) m 100 1000 l NoArea) as (m' & l' & Hq & Hp & _ & _ & _ & Hb).
  - auto.
  - exact bytes_cmp_compares.
  - vm_compute. reflexivity.
  - split.
    + lia.
    + repeat apply Forall_cons_2; try apply Forall_nil_2; (split; [reflexivity|apply repeat_bytes; unfold is_byte; lia]).
    + apply mem_of_at; [lia|reflexivity].
    + reflexivity.
    + exact I.
  - exists m', l'. split; [exact Hq|]. split; [exact Hp|]. intros key k Hk. destruct (Hb key k Hk) as (r & Hr & _). exists r. exact Hr.
Defined.
