(* ===== verification/Hsearch.v ===== *)
(** The hash table of misc/hsearch_r.c: double hashing with open addressing in a
    table of prime size whose slot 0 is never used.

    A key is the list of the characters of its string, without the terminator; [strcmp]
    compares such lists.  A pointer to an entry is the index of its slot.  The reference
    is a finite map that can hold [size] keys. *)
From S2P Require Import Prelude.
From Stdlib Require Import Znumtheory.

Record ENTRY := mkENTRY { key : list Z; data : Z }.

Record _ENTRY := mk_ENTRY { used : Z; entry : ENTRY }.

(** What [calloc] leaves in a slot. *)
Definition zero_slot : _ENTRY := mk_ENTRY 0 (mkENTRY [] 0).

Record hsearch_data := mkHtab { table : option (list _ENTRY); size : Z; filled : Z }.

Inductive ACTION := FIND | ENTER.

(** The error codes that the functions store in [errno]; [None] below is no store. *)
Inductive errno := EINVAL | ENOMEM | ESRCH.

(** [while (div * div < number && number % div != 0) div += 2] *)
Fixpoint isprime_loop (fuel : nat) (number div : Z) : flow Empty_set Z :=
  match fuel with
  | O => NoFuel
  | S fuel =>
      if (u32 (div * div) <? number) && negb (number mod div =? 0)
      then isprime_loop fuel number (u32 (div + 2))
      else Next div
  end.

Definition isprime (fuel : nat) (number : Z) : flow Empty_set bool :=
  let! div := isprime_loop fuel number 3 in
  Next (negb (number mod div =? 0)).

(** [while (!isprime (nel)) nel += 2]; [isprime] takes an [unsigned int]. *)
Fixpoint next_prime (fuel fuel' : nat) (nel : Z) : flow Empty_set Z :=
  match fuel with
  | O => NoFuel
  | S fuel =>
      let! p := isprime fuel' (u32 nel) in
      if p then Next nel else next_prime fuel fuel' (u64 (nel + 2))
  end.

Section Hsearch.
(** [calloc] of [n] slots. *)
Context (calloc : Z -> option (list _ENTRY)).

(** The table is a null pointer for [None]; the results are the table, the returned
    [int] and the error code. *)
Definition hcreate_r (fuel fuel' : nat) (nel : Z) (htab : option hsearch_data) :
    flow Empty_set (option hsearch_data * Z * option errno) :=
  match htab with
  | None => Next (None, 0, Some EINVAL)
  | Some htab =>
      match table htab with
      | Some _ => Next (Some htab, 0, None)
      | None =>
          let nel := if nel <? 3 then 3 else nel in
          let nel := Z.lor nel 1 in
          let! nel := next_prime fuel fuel' nel in
          let size := u32 nel in
          match calloc (u32 (size + 1)) with
          | None => Next (Some (mkHtab None size 0), 0, None)
          | Some t => Next (Some (mkHtab (Some t) size 0), 1, None)
          end
      end
  end.

Definition hdestroy_r (htab : option hsearch_data) : option hsearch_data * option errno :=
  match htab with
  | None => (None, Some EINVAL)
  | Some htab => (Some (mkHtab None (size htab) (filled htab)), None)
  end.
End Hsearch.

(** [while (count-- > 0) { hval <<= 4; hval += item.key[count]; }] *)
Fixpoint hash_loop (rkey : list Z) (hval : Z) : Z :=
  match rkey with
  | [] => hval
  | c :: rkey => hash_loop rkey (u32 (u32 (Z.shiftl hval 4) + c))
  end.

(** [len] is an [unsigned int], so that only so many characters take part. *)
Definition hash (k : list Z) : Z :=
  let len := u32 (Z.of_nat (length k)) in
  let hval := hash_loop (rev (take (Z.to_nat len) k)) len in
  if hval =? 0 then 1 else hval.

(** [htab->table[idx]] *)
Definition slot (t : list _ENTRY) (idx : Z) : flow Empty_set _ENTRY :=
  match (if 0 <=? idx then t !! Z.to_nat idx else None) with
  | Some e => Next e
  | None => Fault
  end.

Definition next_idx (size idx hval2 : Z) : Z :=
  if idx <=? hval2 then u32 (u32 (size + idx) - hval2) else idx - hval2.

(** How the probe loop ends: at the slot of the key, or at another slot. *)
Inductive probe_result := Found (idx : Z) | Stopped (idx : Z).

Definition matches (e : _ENTRY) (hval : Z) (k : list Z) : bool :=
  (used e =? hval) && bool_decide (k = key (entry e)).

Fixpoint probe_loop (fuel : nat) (t : list _ENTRY) (size hval hval2 first_idx : Z) (k : list Z) (idx : Z) :
    flow Empty_set probe_result :=
  match fuel with
  | O => NoFuel
  | S fuel =>
      let idx := next_idx size idx hval2 in
      if idx =? first_idx then Next (Stopped idx) else
      let! e := slot t idx in
      if matches e hval k then Next (Found idx) else
      if used e =? 0 then Next (Stopped idx)
      else probe_loop fuel t size hval hval2 first_idx k idx
  end.

(** The slot that the search ends at; a modulus of zero is undefined. *)
Definition probe (fuel : nat) (t : list _ENTRY) (size : Z) (k : list Z) : flow Empty_set probe_result :=
  let hval := hash k in
  if size =? 0 then Fault else
  let idx := u32 (hval mod size + 1) in
  let! e := slot t idx in
  if used e =? 0 then Next (Stopped idx) else
  if matches e hval k then Next (Found idx) else
  if size =? 2 then Fault else
  let hval2 := u32 (1 + hval mod u32 (size - 2)) in
  probe_loop fuel t size hval hval2 idx k idx.

(** The entry that [retval] is set to point to, if any, the returned [int] and the error code. *)
Definition hsearch_r (fuel : nat) (item : ENTRY) (action : ACTION) (htab : hsearch_data) :
    flow Empty_set (hsearch_data * option Z * Z * option errno) :=
  match table htab with
  | None => Fault
  | Some t =>
      let! r := probe fuel t (size htab) (key item) in
      match r with
      | Found idx => Next (htab, Some idx, 1, None)
      | Stopped idx =>
          match action with
          | ENTER =>
              if filled htab =? size htab then Next (htab, None, 0, Some ENOMEM) else
              Next (mkHtab (Some (<[Z.to_nat idx := mk_ENTRY (hash (key item)) item]> t))
                           (size htab) (u32 (filled htab + 1)), Some idx, 1, None)
          | FIND => Next (htab, None, 0, Some ESRCH)
          end
      end
  end.

(** * The prime test *)

Lemma odd_divisor n d : n mod 2 = 1 -> (d | n) -> d mod 2 = 1.
Proof.
  intros Hn [q ->]. pose proof (Z.mod_pos_bound d 2 ltac:(lia)).
  destruct (Z.eq_dec (d mod 2) 0) as [E|]; [|lia].
  apply Z.mod_divide in E as [c ->]; [|lia]. rewrite Z.mul_assoc, Z.mod_mul in Hn; lia.
Qed.

(** A number that has no odd divisor up to its square root is prime. *)
Lemma prime_by_trial n div :
  3 <= n -> n mod 2 = 1 -> n <= div * div -> 0 <= div ->
  (forall d, 3 <= d <= div -> d mod 2 = 1 -> ~ (d | n)) -> prime n.
Proof.
  intros Hn Hodd Hsq Hdiv Hnone. apply prime_alt. split; [lia|]. intros d Hd Hdn.
  assert (forall a, 1 < a -> a * a <= n -> ~ (a | n)) as Hsmall.
  { intros a Ha Ha2 Hdvd. pose proof (odd_divisor n a Hodd Hdvd). apply (Hnone a); auto.
    split; [destruct (Z.eq_dec a 2) as [-> |]; [discriminate|lia]|nia]. }
  destruct Hdn as [q Eq]. destruct (Z.le_gt_cases (d * d) n).
  - apply (Hsmall d); [lia|assumption|exists q; assumption].
  - apply (Hsmall q); [nia|nia|exists d; lia].
Qed.

Lemma isprime_loop_spec fuel number div :
  5 <= number < 2 ^ 31 -> number mod 2 = 1 -> 3 <= div -> div mod 2 = 1 -> (div - 2) * (div - 2) < number ->
  (forall d, 3 <= d < div -> d mod 2 = 1 -> ~ (d | number)) ->
  number <= (div + 2 * Z.of_nat fuel - 2) * (div + 2 * Z.of_nat fuel - 2) ->
  exists div', isprime_loop fuel number div = Next div' /\ 3 <= div' < number /\
    (forall d, 3 <= d < div' -> d mod 2 = 1 -> ~ (d | number)) /\
    ((div' | number) \/ number <= div' * div' /\ ~ (div' | number)).
Proof.
  intros Hn Hodd. revert div. induction fuel as [|fuel IH]; intros div Hd Hdo Hsq Hnone Hf.
  { exfalso. replace (div + 2 * Z.of_nat 0 - 2) with (div - 2) in Hf by lia. lia. }
  cbn [isprime_loop]. assert (div < 2 ^ 16) as Hsmall by nia.
  assert (u32 (div * div) = div * div) as -> by (apply uwrap_small; nia).
  assert (u32 (div + 2) = div + 2) as -> by (apply uwrap_small; lia).
  assert (div < number) by nia.
  destruct (Z.eqb_spec (number mod div) 0) as [E|E].
  - rewrite andb_false_r. exists div. split; [reflexivity|]. split; [lia|]. split; [assumption|].
    left. apply Z.mod_divide; [lia|assumption].
  - assert (~ (div | number)) as Hnd by (intros Hdv; apply E, Z.mod_divide; [lia|assumption]).
    destruct (Z.ltb_spec (div * div) number); cbn [negb andb].
    + apply IH; [lia| | |intros d Hd' Hdo'|].
      * rewrite <- Z.add_mod_idemp_r, Z.mod_same, Z.add_0_r by lia. assumption.
      * replace (div + 2 - 2) with div by lia. assumption.
      * destruct (Z.eq_dec d div) as [-> |]; [assumption|]. apply Hnone; [|assumption].
        assert (d <> div + 1); [|lia]. intros ->. rewrite <- Z.add_mod_idemp_l, Hdo in Hdo' by lia. discriminate.
      * replace (div + 2 + 2 * Z.of_nat fuel - 2) with (div + 2 * Z.of_nat (S fuel) - 2) by lia. assumption.
    + exists div. split; [reflexivity|]. split; [lia|]. split; [assumption|]. auto.
Qed.

Lemma isprime_spec fuel number :
  5 <= number < 2 ^ 31 -> number mod 2 = 1 -> number <= (2 * Z.of_nat fuel + 1) * (2 * Z.of_nat fuel + 1) ->
  exists b, isprime fuel number = Next b /\ (b = true <-> prime number).
Proof.
  intros Hn Hodd Hf. destruct (isprime_loop_spec fuel number 3) as (div & E & Hd & Hnone & Hend); try lia; [reflexivity|].
  unfold isprime. rewrite E. cbn [flow_bind]. eexists. split; [reflexivity|].
  destruct Hend as [Hdv|[Hsq Hnd]].
  - apply Z.mod_divide in Hdv as Hm; [|lia]. rewrite Hm. simpl. split; [discriminate|]. intros Hp.
    apply prime_alt in Hp as [_ Hp]. exfalso. apply (Hp div); [lia|assumption].
  - destruct (Z.eqb_spec (number mod div) 0) as [Hm|]; [exfalso; apply Hnd, Z.mod_divide; [lia|assumption]|].
    simpl. split; [|reflexivity]. intros _. apply (prime_by_trial number div); try lia.
    intros d Hd' Hdo. destruct (Z.eq_dec d div) as [-> |]; [assumption|]. apply Hnone; [lia|assumption].
Qed.

Lemma prime_2_31 : prime (2 ^ 31 - 1).
Proof.
  destruct (isprime_spec (Z.to_nat 23171) (2 ^ 31 - 1)) as (b & E & Hb); [lia|reflexivity| |].
  { rewrite Z2Nat.id by lia. lia. }
  apply Hb. cut (isprime (Z.to_nat 23171) (2 ^ 31 - 1) = Next true); [congruence|]. vm_compute. reflexivity.
Qed.

Lemma isprime_3 fuel : (0 < fuel)%nat -> isprime fuel 3 = Next false.
Proof. destruct fuel; [lia|]. reflexivity. Qed.

Lemma next_prime_spec fuel fuel' nel :
  3 <= nel <= 2 ^ 31 - 1 -> nel mod 2 = 1 -> 2 ^ 31 - 1 < nel + 2 * Z.of_nat fuel ->
  2 ^ 31 <= (2 * Z.of_nat fuel' + 1) * (2 * Z.of_nat fuel' + 1) ->
  exists p, next_prime fuel fuel' nel = Next p /\ nel <= p <= 2 ^ 31 - 1 /\ prime p /\ 5 <= p /\
    (forall q, nel <= q < p -> prime q -> q = 3).
Proof.
  intros Hn Hodd Hf Hf'. revert nel Hn Hodd Hf. induction fuel as [|fuel IH]; intros nel Hn Hodd Hf; [lia|].
  cbn [next_prime]. assert (u32 nel = nel) as -> by (apply uwrap_small; lia).
  assert (u64 (nel + 2) = nel + 2) as -> by (apply uwrap_small; lia).
  assert (exists b, isprime fuel' nel = Next b /\ (b = true -> prime nel /\ 5 <= nel) /\ (b = false -> prime nel -> nel = 3))
    as (b & -> & Ht & Hfalse).
  { destruct (Z.eq_dec nel 3) as [-> |].
    - exists false. rewrite isprime_3 by lia. repeat split; auto; discriminate.
    - assert (nel <> 4) by (intros ->; discriminate).
      destruct (isprime_spec fuel' nel) as (b & E & Hb); [lia|assumption|lia|].
      exists b. split; [assumption|]. split; [intros Hbt; split; [apply Hb; assumption|lia]|].
      intros -> Hp. apply Hb in Hp. discriminate. }
  cbn [flow_bind]. destruct b.
  - destruct (Ht eq_refl). exists nel. split; [reflexivity|]. split; [lia|]. split; [assumption|]. split; [assumption|].
    intros; lia.
  - assert (nel <> 2 ^ 31 - 1) as Hne.
    { intros ->. specialize (Hfalse eq_refl prime_2_31). lia. }
    assert (nel + 1 <> 2 ^ 31 - 1) as Hne1 by (intros E; replace nel with (2 ^ 31 - 2) in Hodd by lia; discriminate).
    destruct (IH (nel + 2)) as (p & E & Hp & Hpr & Hp5 & Hmin); try lia.
    { rewrite <- Z.add_mod_idemp_r, Z.mod_same, Z.add_0_r by lia. assumption. }
    exists p. split; [assumption|]. split; [lia|]. split; [assumption|]. split; [assumption|].
    intros q Hq Hqp. destruct (Z.eq_dec q nel) as [-> |]; [apply Hfalse; auto|].
    destruct (Z.eq_dec q (nel + 1)) as [-> |]; [|apply Hmin; [lia|assumption]].
    exfalso. apply prime_alt in Hqp as [_ Hq2]. apply (Hq2 2); [lia|].
    apply Z.mod_divide; [lia|]. rewrite <- Z.add_mod_idemp_l, Hodd by lia. reflexivity.
Qed.

Lemma lor_1 n : 0 <= n -> n <= Z.lor n 1 <= n + 1 /\ Z.lor n 1 mod 2 = 1.
Proof.
  intros Hn. pose proof (Z.div_mod n 2 ltac:(lia)) as E. pose proof (Z.mod_pos_bound n 2 ltac:(lia)).
  assert (Z.lor n 1 = 2 * (n / 2) + 1) as ->.
  { apply Z.bits_inj'. intros i Hi. rewrite Z.lor_spec. destruct (Z.eq_dec i 0) as [-> |].
    - rewrite Z.testbit_odd_0, orb_true_r. reflexivity.
    - replace i with (Z.succ (i - 1)) by lia. rewrite Z.testbit_odd_succ by lia.
      rewrite <- Z.div2_div, Z.div2_spec, Z.shiftr_spec by lia.
      change 1 with (2 * 0 + 1) at 2. rewrite Z.testbit_odd_succ, Z.bits_0, orb_false_r by lia. f_equal; lia. }
  split; [lia|]. rewrite Z.add_comm, Z.mul_comm, Z.mod_add by lia. reflexivity.
Qed.

(** * Probing *)

Lemma hash_range k : 1 <= hash k < 2 ^ 32.
Proof.
  unfold hash. assert (forall l h, 0 <= h < 2 ^ 32 -> 0 <= hash_loop l h < 2 ^ 32) as Hl.
  { induction l as [|c l IH]; intros h Hh; simpl; [assumption|]. apply IH. apply uwrap_range. lia. }
  set (len := u32 (Z.of_nat (length k))).
  specialize (Hl (rev (take (Z.to_nat len) k)) len ltac:(apply uwrap_range; lia)).
  destruct (Z.eqb_spec (hash_loop (rev (take (Z.to_nat len) k)) len) 0); lia.
Qed.

Section Probing.
Context (n : Z).
Hypothesis n_prime : prime n.
Hypothesis n_ge : 5 <= n.
Hypothesis n_lt : n < 2 ^ 31.

(** The [j]-th slot on the path of the hash value [h]. *)
Definition path (h j : Z) : Z := (h - j * (1 + h mod (n - 2))) mod n + 1.

Lemma path_range h j : 1 <= path h j <= n.
Proof. unfold path. pose proof (Z.mod_pos_bound (h - j * (1 + h mod (n - 2))) n ltac:(lia)). lia. Qed.

Lemma path_0 h : path h 0 = h mod n + 1.
Proof. unfold path. rewrite Z.mul_0_l, Z.sub_0_r. reflexivity. Qed.

Lemma path_next h j : next_idx n (path h j) (1 + h mod (n - 2)) = path h (j + 1).
Proof.
  pose proof (Z.mod_pos_bound h (n - 2) ltac:(lia)) as Hh2. unfold next_idx, path. set (h2 := 1 + h mod (n - 2)) in *.
  replace (h - (j + 1) * h2) with (h - j * h2 - h2) by lia.
  pose proof (Z.mod_pos_bound (h - j * h2) n ltac:(lia)). rewrite <- (Zminus_mod_idemp_l (h - j * h2)).
  set (r := (h - j * h2) mod n) in *. destruct (Z.leb_spec (r + 1) h2).
  - unfold u32. rewrite (uwrap_small 32 (n + (r + 1))), uwrap_small by lia.
    replace ((r - h2) mod n) with (r - h2 + n); [lia|]. apply Z.mod_unique with (-1); lia.
  - replace ((r - h2) mod n) with (r - h2); [lia|]. symmetry. apply Z.mod_small. lia.
Qed.

Lemma step_coprime h : Z.gcd (1 + h mod (n - 2)) n = 1.
Proof.
  pose proof (Z.mod_pos_bound h (n - 2) ltac:(lia)). set (h2 := 1 + h mod (n - 2)) in *.
  pose proof (Z.gcd_divide_l h2 n) as Hd. apply Z.divide_pos_le in Hd; [|lia].
  pose proof (Z.gcd_nonneg h2 n). destruct (Z.eq_dec (Z.gcd h2 n) 0) as [E|]; [apply Z.gcd_eq_0_r in E; lia|].
  destruct (Z.eq_dec (Z.gcd h2 n) 1) as [|Hne]; [assumption|]. exfalso.
  apply prime_alt in n_prime as [_ Hp]. apply (Hp (Z.gcd h2 n)); [lia|apply Z.gcd_divide_r].
Qed.

(** The path visits [n] different slots before it returns to its start, hence all of them. *)
Lemma path_inj h i j : 0 <= i < n -> 0 <= j < n -> path h i = path h j -> i = j.
Proof.
  intros Hi Hj E. unfold path in E. assert ((h - i * (1 + h mod (n - 2))) mod n = (h - j * (1 + h mod (n - 2))) mod n) as E' by lia.
  set (h2 := 1 + h mod (n - 2)) in *.
  assert ((n | h2 * (i - j))) as Hd.
  { apply Z.mod_divide; [lia|]. replace (h2 * (i - j)) with ((h - j * h2) - (h - i * h2)) by ring.
    rewrite Zminus_mod, E', Z.sub_diag. apply Z.mod_0_l. lia. }
  apply Z.gauss in Hd; [|rewrite Z.gcd_comm; apply step_coprime].
  destruct Hd as [q Hq]. destruct (Z.lt_trichotomy q 0) as [|[-> |]]; nia.
Qed.

Lemma path_onto h idx : 1 <= idx <= n -> exists j, 0 <= j < n /\ path h j = idx.
Proof.
  intros Hi. set (h2 := 1 + h mod (n - 2)). destruct (Z.gcd_bezout _ _ _ (step_coprime h)) as (a & b & E). fold h2 in E.
  exists (((h - (idx - 1)) * a) mod n). split; [apply Z.mod_pos_bound; lia|]. unfold path. fold h2.
  assert ((h - ((h - (idx - 1)) * a) mod n * h2) mod n = idx - 1) as ->; [|lia].
  rewrite <- Zminus_mod_idemp_r, Zmult_mod_idemp_l, Zminus_mod_idemp_r.
  replace (h - (h - (idx - 1)) * a * h2) with ((idx - 1) + ((h - (idx - 1)) * b) * n).
  - rewrite Z_mod_plus_full. apply Z.mod_small. lia.
  - transitivity (h - (h - (idx - 1)) * (a * h2 + b * n) + ((h - (idx - 1)) * b) * n); [rewrite E; ring|ring].
Qed.

(** ** What the search finds *)

Section Search.
Context (t : list _ENTRY).
Hypothesis t_len : Z.of_nat (length t) = n + 1.

Definition at_slot (idx : Z) (e : _ENTRY) : Prop := t !! Z.to_nat idx = Some e.

Lemma slot_at idx : 1 <= idx <= n -> exists e, at_slot idx e /\ slot t idx = Next e.
Proof.
  intros Hi. destruct (lookup_lt_is_Some_2 t (Z.to_nat idx)) as [e He]; [lia|]. exists e. split; [exact He|].
  unfold slot. rewrite (proj2 (Z.leb_le _ _)), He by lia. reflexivity.
Qed.

Lemma slot_inj idx e e' : at_slot idx e -> at_slot idx e' -> e = e'.
Proof. unfold at_slot. congruence. Qed.

(** Slots that the search for [k] walks over. *)
Definition passed (k : list Z) (j : Z) : Prop :=
  forall i, 0 <= i < j -> exists e, at_slot (path (hash k) i) e /\ used e <> 0 /\ matches e (hash k) k = false.

(** The slot that the search for [k] ends at. *)
Definition ends_at (k : list Z) (r : probe_result) : Prop :=
  (exists j e, 0 <= j < n /\ passed k j /\ at_slot (path (hash k) j) e /\ matches e (hash k) k = true /\
     r = Found (path (hash k) j)) \/
  (exists j e, 0 <= j < n /\ passed k j /\ at_slot (path (hash k) j) e /\ used e = 0 /\
     r = Stopped (path (hash k) j)) \/
  (passed k n /\ exists idx, r = Stopped idx).

Lemma matches_used e h k : 1 <= h -> matches e h k = true -> used e <> 0.
Proof. unfold matches. intros Hh Hm. apply andb_true_iff in Hm as [Hu _]. apply Z.eqb_eq in Hu. lia. Qed.

Lemma passed_next k j e :
  passed k j -> at_slot (path (hash k) j) e -> used e <> 0 -> matches e (hash k) k = false -> passed k (j + 1).
Proof.
  intros Hp He Hu Hm i Hi. destruct (Z.eq_dec i j) as [-> |]; [eauto|]. apply Hp. lia.
Qed.

Lemma path_back h j : 0 <= j < n -> (path h (j + 1) =? path h 0) = (j + 1 =? n).
Proof.
  intros Hj. destruct (Z.eqb_spec (j + 1) n) as [E|Hne].
  - rewrite E. apply Z.eqb_eq. unfold path. f_equal. rewrite Z.mul_0_l, Z.sub_0_r.
    rewrite Z.mul_comm, Zminus_mod, Z.mod_mul, Z.sub_0_r, Z.mod_mod by lia. reflexivity.
  - apply Z.eqb_neq. intros E. apply path_inj in E; lia.
Qed.

Lemma probe_loop_spec fuel k j :
  0 <= j < n -> passed k (j + 1) -> n <= j + Z.of_nat fuel ->
  exists r, probe_loop fuel t n (hash k) (1 + hash k mod (n - 2)) (path (hash k) 0) k (path (hash k) j) = Next r /\
    ends_at k r.
Proof.
  revert j. induction fuel as [|fuel IH]; intros j Hj Hp Hf; [lia|]. cbn [probe_loop]. rewrite path_next, path_back by assumption.
  destruct (Z.eqb_spec (j + 1) n) as [E|].
  { eexists. split; [reflexivity|]. right. right. rewrite <- E. eauto. }
  destruct (slot_at (path (hash k) (j + 1)) (path_range _ _)) as (e & He & ->). cbn [flow_bind].
  destruct (matches e (hash k) k) eqn:Em.
  { eexists. split; [reflexivity|]. left. exists (j + 1), e. repeat split; auto; lia. }
  destruct (Z.eqb_spec (used e) 0) as [Eu|].
  { eexists. split; [reflexivity|]. right. left. exists (j + 1), e. repeat split; auto; lia. }
  apply IH; [lia| |lia]. apply (passed_next k (j + 1) e); assumption.
Qed.

Lemma probe_spec fuel k : n <= Z.of_nat fuel -> exists r, probe fuel t n k = Next r /\ ends_at k r.
Proof.
  intros Hf. unfold probe. rewrite (proj2 (Z.eqb_neq n 0)), (proj2 (Z.eqb_neq n 2)) by lia.
  pose proof (Z.mod_pos_bound (hash k) n ltac:(lia)). pose proof (Z.mod_pos_bound (hash k) (n - 2) ltac:(lia)).
  unfold u32. rewrite (uwrap_small 32 (n - 2)), (uwrap_small 32 (hash k mod n + 1)), (uwrap_small 32 (1 + _)) by lia.
  rewrite <- path_0.
  destruct (slot_at (path (hash k) 0) (path_range _ _)) as (e & He & ->). cbn [flow_bind].
  assert (passed k 0) as Hp0 by (intros i Hi; lia).
  destruct (Z.eqb_spec (used e) 0) as [Eu|Hu].
  { eexists. split; [reflexivity|]. right. left. exists 0, e. repeat split; auto; lia. }
  destruct (matches e (hash k) k) eqn:Em.
  { eexists. split; [reflexivity|]. left. exists 0, e. repeat split; auto; lia. }
  apply (probe_loop_spec fuel k 0); [lia| |lia]. apply (passed_next k 0 e); assumption.
Qed.

(** ** The invariant *)

(** [t] represents the map [M]: used slots hold its bindings, each on the path of its key
    behind used slots only. *)
Record represents (M : gmap (list Z) Z) : Prop := {
  rep_slot : forall idx e, 1 <= idx <= n -> at_slot idx e -> used e <> 0 ->
    used e = hash (key (entry e)) /\ M !! key (entry e) = Some (data (entry e)) /\
    exists j, 0 <= j < n /\ path (used e) j = idx /\
      forall i, 0 <= i < j -> exists e', at_slot (path (used e) i) e' /\ used e' <> 0;
  rep_map : forall k d, M !! k = Some d ->
    exists idx e, 1 <= idx <= n /\ at_slot idx e /\ used e <> 0 /\ entry e = mkENTRY k d;
  rep_unique : forall i j e e', 1 <= i <= n -> 1 <= j <= n -> at_slot i e -> at_slot j e' ->
    used e <> 0 -> used e' <> 0 -> key (entry e) = key (entry e') -> i = j
}.

Lemma matches_key e k : matches e (hash k) k = true <-> used e = hash k /\ key (entry e) = k.
Proof.
  unfold matches. rewrite andb_true_iff, Z.eqb_eq, bool_decide_eq_true. intuition congruence.
Qed.

(** A key of the map is found, in the slot of its binding. *)
Lemma search_found M k d r :
  represents M -> M !! k = Some d -> ends_at k r ->
  exists idx e, r = Found idx /\ at_slot idx e /\ entry e = mkENTRY k d.
Proof.
  intros Hrep Hk Hend. destruct (rep_map _ Hrep k d Hk) as (idx & e & Hi & He & Hu & Ee).
  destruct (rep_slot _ Hrep idx e Hi He Hu) as (Eh & _ & j & Hj & Ep & Hchain). rewrite Ee in Eh. cbn [key] in Eh. rewrite Eh in *.
  assert (matches e (hash k) k = true) as Hm by (apply matches_key; rewrite Ee; auto).
  assert (forall i, passed k i -> i <= j) as Hpass.
  { intros i Hp. destruct (Z.le_gt_cases i j); [assumption|]. destruct (Hp j ltac:(lia)) as (e' & He' & _ & Hm').
    rewrite Ep in He'. rewrite (slot_inj _ _ _ He He') in Hm. congruence. }
  destruct Hend as [(i & e' & Hi' & Hp & He' & Hm' & ->)|[(i & e' & Hi' & Hp & He' & Hu' & ->)|[Hp _]]].
  - exists (path (hash k) i), e'. split; [reflexivity|]. split; [assumption|].
    apply matches_key in Hm' as Hk'. destruct Hk' as [_ Hk'].
    assert (path (hash k) i = idx) as Eidx.
    { apply (rep_unique _ Hrep _ _ e' e); auto using path_range.
      - apply (matches_used e' (hash k) k); [apply hash_range|assumption].
      - rewrite Eh. pose proof (hash_range k). lia.
      - rewrite Hk', Ee. reflexivity. }
    rewrite Eidx in He'. rewrite (slot_inj _ _ _ He' He). assumption.
  - exfalso. specialize (Hpass i Hp). destruct (Z.eq_dec i j) as [-> |].
    + rewrite Ep in He'. rewrite (slot_inj _ _ _ He' He), Eh in Hu'. pose proof (hash_range k). lia.
    + destruct (Hchain i ltac:(lia)) as (e2 & He2 & Hu2). rewrite (slot_inj _ _ _ He' He2) in Hu'. lia.
  - exfalso. specialize (Hpass n Hp). lia.
Qed.

(** A key that the map does not have is not found. *)
Lemma search_absent M k r :
  represents M -> M !! k = None -> ends_at k r ->
  exists idx, r = Stopped idx /\
    ((exists j e, 0 <= j < n /\ passed k j /\ idx = path (hash k) j /\ at_slot idx e /\ used e = 0) \/ passed k n).
Proof.
  intros Hrep Hk [(i & e & Hi & Hp & He & Hm & ->)|[(i & e & Hi & Hp & He & Hu & ->)|[Hp [idx ->]]]].
  - exfalso. pose proof (matches_used e (hash k) k ltac:(apply hash_range) Hm) as Hu.
    apply matches_key in Hm as [_ Hk']. destruct (rep_slot _ Hrep _ e (path_range _ _) He Hu) as (_ & HM & _).
    rewrite Hk' in HM. congruence.
  - eexists. split; [reflexivity|]. left. exists i, e. auto.
  - eauto.
Qed.
End Search.

(** ** Insertion *)

Lemma at_slot_insert t idx e i e' :
  0 <= idx < Z.of_nat (length t) -> 0 <= i ->
  at_slot (<[Z.to_nat idx := e]> t) i e' <-> (i = idx /\ e' = e) \/ (i <> idx /\ at_slot t i e').
Proof.
  intros Hidx Hi. unfold at_slot. destruct (Z.eq_dec i idx) as [-> |Hne].
  - rewrite list_lookup_insert_eq by lia. intuition congruence.
  - rewrite list_lookup_insert_ne by lia. intuition congruence.
Qed.

Lemma represents_insert t M k d j e :
  Z.of_nat (length t) = n + 1 -> represents t M -> M !! k = None ->
  0 <= j < n -> passed t k j -> at_slot t (path (hash k) j) e -> used e = 0 ->
  represents (<[Z.to_nat (path (hash k) j) := mk_ENTRY (hash k) (mkENTRY k d)]> t) (<[k := d]> M).
Proof.
  intros Hlen Hrep Hk Hj Hp He Hu. pose proof (path_range (hash k) j) as Hpr. set (idx := path (hash k) j) in *.
  assert (forall i e', 1 <= i <= n -> at_slot t i e' -> used e' <> 0 -> i <> idx) as Hne.
  { intros i e' Hi He' Hu' ->. rewrite (slot_inj t _ _ _ He' He) in Hu'. lia. }
  assert (forall i e', 1 <= i <= n -> at_slot t i e' -> used e' <> 0 -> key (entry e') <> k) as Hfresh.
  { intros i e' Hi He' Hu' E. destruct (rep_slot t _ Hrep i e' Hi He' Hu') as (_ & HM & _). rewrite E in HM. congruence. }
  pose proof (hash_range k). split.
  - intros i e' Hi He' Hu'. apply at_slot_insert in He' as [[-> ->]|[Hni He']]; [| |lia|lia].
    + cbn [used entry key data]. split; [reflexivity|]. split; [apply lookup_insert_eq|]. exists j. split; [assumption|].
      split; [reflexivity|]. intros q Hq. destruct (Hp q Hq) as (e2 & He2 & Hu2 & _). exists e2. split; [|assumption].
      apply at_slot_insert; [lia|pose proof (path_range (hash k) q); lia|]. right. split; [|assumption].
      intros E. apply (Hne _ _ (path_range _ _) He2 Hu2 E).
    + destruct (rep_slot t _ Hrep i e' Hi He' Hu') as (Eh & HM & q & Hq & Ep & Hchain). split; [assumption|].
      split; [rewrite lookup_insert_ne by (intros E; apply (Hfresh i e' Hi He' Hu'); congruence); assumption|].
      exists q. split; [assumption|]. split; [assumption|]. intros x Hx. destruct (Hchain x Hx) as (e2 & He2 & Hu2).
      exists e2. split; [|assumption]. apply at_slot_insert; [lia|pose proof (path_range (used e') x); lia|].
      right. split; [|assumption]. apply (Hne _ e2 (path_range _ _) He2 Hu2).
  - intros k' d' Hk'. destruct (decide (k' = k)) as [-> |Hnk].
    + rewrite lookup_insert_eq in Hk'. injection Hk' as <-. exists idx, (mk_ENTRY (hash k) (mkENTRY k d)).
      split; [assumption|]. split; [apply at_slot_insert; [lia|lia|auto]|]. cbn [used entry]. split; [lia|reflexivity].
    + rewrite lookup_insert_ne in Hk' by congruence. destruct (rep_map t _ Hrep k' d' Hk') as (i & e' & Hi & He' & Hu' & Ee).
      exists i, e'. split; [assumption|]. split; [|auto]. apply at_slot_insert; [lia|lia|]. right. eauto.
  - intros a b ea eb Ha Hb Hea Heb Hua Hub Ekey.
    apply at_slot_insert in Hea as [[-> ->]|[Hna Hea]]; [| |lia|lia];
      (apply at_slot_insert in Heb as [[-> ->]|[Hnb Heb]]; [| |lia|lia]); cbn [entry key] in Ekey.
    + reflexivity.
    + exfalso. apply (Hfresh b eb Hb Heb Hub). congruence.
    + exfalso. apply (Hfresh a ea Ha Hea Hua). congruence.
    + apply (rep_unique t _ Hrep a b ea eb); assumption.
Qed.

(** ** Counting the used slots *)

Definition used_count (t : list _ENTRY) : Z := Z.of_nat (length (filter (fun e => used e <> 0) (drop 1 t))).

Lemma used_count_insert t idx e e' :
  1 <= idx -> at_slot t idx e -> used e = 0 -> used e' <> 0 ->
  used_count (<[Z.to_nat idx := e']> t) = used_count t + 1.
Proof.
  intros Hi He Hu Hu'. unfold at_slot in He. unfold used_count.
  rewrite <- (take_drop_middle t (Z.to_nat idx) e He) at 2.
  assert (length (take (Z.to_nat idx) t) = Z.to_nat idx) as Hl
    by (apply lookup_lt_Some in He; rewrite length_take; lia).
  rewrite insert_take_drop by (apply lookup_lt_Some in He; lia).
  rewrite !drop_app_le by lia. rewrite !filter_app, !length_app, !filter_cons.
  rewrite decide_True by assumption. rewrite decide_False by lia. cbn [length]. lia.
Qed.

Lemma filter_used l : Forall (fun e => used e <> 0) l -> filter (fun e => used e <> 0) l = l.
Proof. induction 1 as [|e l He _ IH]; [reflexivity|]. rewrite filter_cons, decide_True, IH by assumption. reflexivity. Qed.

Lemma used_count_full t :
  Z.of_nat (length t) = n + 1 -> (forall idx, 1 <= idx <= n -> exists e, at_slot t idx e /\ used e <> 0) -> used_count t = n.
Proof.
  intros Hl Hall. unfold used_count. rewrite filter_used, length_drop; [lia|].
  apply Forall_lookup. intros i e He. rewrite lookup_drop in He.
  destruct (Hall (Z.of_nat (1 + i))) as (e' & He' & Hu); [apply lookup_lt_Some in He; lia|].
  unfold at_slot in He'. rewrite Nat2Z.id, He in He'. congruence.
Qed.

Lemma used_count_lt t idx e :
  Z.of_nat (length t) = n + 1 -> 1 <= idx <= n -> at_slot t idx e -> used e = 0 -> used_count t < n.
Proof.
  intros Hl Hi He Hu.
  pose proof (used_count_insert t idx e (mk_ENTRY 1 (entry e)) ltac:(lia) He Hu ltac:(discriminate)) as E.
  assert (used_count (<[Z.to_nat idx := mk_ENTRY 1 (entry e)]> t) <= n); [|lia].
  unfold used_count. pose proof (length_filter (fun e => used e <> 0) (drop 1 (<[Z.to_nat idx := mk_ENTRY 1 (entry e)]> t))) as Hf.
  rewrite length_drop, length_insert in Hf. lia.
Qed.
End Probing.

(** * The table as a bounded map *)

(** One call on the map: the new map, and the datum of the entry that is returned. *)
Definition map_search (capacity : Z) (M : gmap (list Z) Z) (item : ENTRY) (action : ACTION) :
    gmap (list Z) Z * option Z :=
  match M !! key item with
  | Some d => (M, Some d)
  | None =>
      match action with
      | FIND => (M, None)
      | ENTER =>
          if Z.of_nat (base.size M) =? capacity then (M, None)
          else (<[key item := data item]> M, Some (data item))
      end
  end.

(** The table [htab] holds the map [M]. *)
Record wf (htab : hsearch_data) (M : gmap (list Z) Z) : Prop := {
  wf_prime : prime (size htab);
  wf_size : 5 <= size htab < 2 ^ 31;
  wf_table : exists t, table htab = Some t /\ Z.of_nat (length t) = size htab + 1 /\
    represents (size htab) t M /\ used_count t = filled htab;
  wf_filled : filled htab = Z.of_nat (base.size M)
}.

(** What a call returns for the datum [out]: a pointer to the entry and 1, or a null
    pointer, 0 and the error code. *)
Definition returns (htab : hsearch_data) (k : list Z) (action : ACTION) (out : option Z) (retval : option Z)
    (ret : Z) (err : option errno) : Prop :=
  match out with
  | None => retval = None /\ ret = 0 /\ err = Some (match action with FIND => ESRCH | ENTER => ENOMEM end)
  | Some d => ret = 1 /\ err = None /\ exists t idx e, retval = Some idx /\ table htab = Some t /\ at_slot t idx e /\ entry e = mkENTRY k d
  end.

Lemma hsearch_step fuel item action htab M :
  wf htab M -> size htab <= Z.of_nat fuel ->
  exists htab' retval ret err, hsearch_r fuel item action htab = Next (htab', retval, ret, err) /\
    size htab' = size htab /\ wf htab' (fst (map_search (size htab) M item action)) /\
    returns htab' (key item) action (snd (map_search (size htab) M item action)) retval ret err.
Proof.
  intros Hwf Hf. pose proof Hwf as [Hp Hs (t & Et & Hl & Hrep & Hc) Hfill]. unfold hsearch_r, map_search. rewrite Et.
  destruct (probe_spec (size htab) Hp ltac:(lia) ltac:(lia) t Hl fuel (key item) Hf) as (r & -> & Hend). cbn [flow_bind].
  destruct (M !! key item) as [d|] eqn:Ek.
  - destruct (search_found (size htab) ltac:(lia) t M (key item) d r Hrep Ek Hend) as (idx & e & -> & He & Ee).
    exists htab, (Some idx), 1, None. split; [reflexivity|]. split; [reflexivity|]. split; [assumption|].
    split; [reflexivity|]. split; [reflexivity|]. exists t, idx, e. auto.
  - destruct (search_absent (size htab) ltac:(lia) t M (key item) r Hrep Ek Hend) as (idx & -> & Hstop).
    destruct action.
    { eexists htab, None, 0, _. split; [reflexivity|]. split; [reflexivity|]. split; [assumption|]. repeat split. }
    rewrite Hfill. destruct (Z.eqb_spec (Z.of_nat (base.size M)) (size htab)) as [Efull|Hnf].
    { eexists htab, None, 0, _. split; [reflexivity|]. split; [reflexivity|]. split; [assumption|]. repeat split. }
    destruct Hstop as [(j & e & Hj & Hpass & -> & He & Hu)|Hpass].
    + pose proof (path_range (size htab) ltac:(lia) (hash (key item)) j) as Hr.
      pose proof (used_count_lt (size htab) ltac:(lia) t _ e Hl Hr He Hu) as Hlt. pose proof (hash_range (key item)) as Hh.
      set (item' := mk_ENTRY (hash (key item)) item).
      assert (u32 (Z.of_nat (base.size M) + 1) = Z.of_nat (base.size M) + 1) as -> by (apply uwrap_small; lia).
      eexists _, _, 1, _. split; [reflexivity|]. split; [reflexivity|]. split.
      * split; cbn [size table filled fst]; [assumption|assumption| |rewrite map_size_insert_None by assumption; lia].
        eexists. split; [reflexivity|]. rewrite length_insert. split; [assumption|]. split.
        { destruct item as [k d]. apply (represents_insert (size htab) ltac:(lia) t M k d j e); assumption. }
        { rewrite (used_count_insert t _ e item' (proj1 Hr) He Hu ltac:(cbn; lia)). lia. }
      * split; [reflexivity|]. split; [reflexivity|]. eexists _, _, item'. split; [reflexivity|]. split; [reflexivity|]. split.
        { apply at_slot_insert; [lia|lia|auto]. }
        { destruct item; reflexivity. }
    + exfalso. apply Hnf. rewrite <- Hfill, <- Hc. apply used_count_full; [lia|assumption|].
      intros idx' Hi. destruct (path_onto (size htab) Hp ltac:(lia) (hash (key item)) idx' Hi) as (j & Hj & <-).
      destruct (Hpass j Hj) as (e & He & Hu & _). eauto.
Qed.

Lemma used_count_none t : (forall idx e, at_slot t idx e -> used e = 0) -> used_count t = 0.
Proof.
  intros Hz. unfold used_count. assert (Forall (fun e => used e = 0) (drop 1 t)) as Hall.
  { apply Forall_lookup. intros i e He. rewrite lookup_drop in He. apply (Hz (Z.of_nat (1 + i))).
    unfold at_slot. rewrite Nat2Z.id. assumption. }
  induction Hall as [|e l He _ IH]; [reflexivity|]. rewrite filter_cons, decide_False by lia. exact IH.
Qed.

Lemma represents_empty n t : (forall idx e, at_slot t idx e -> used e = 0) -> represents n t ∅.
Proof.
  intros Hz. split.
  - intros idx e _ He Hu. apply Hz in He. contradiction.
  - intros k d Hk. rewrite lookup_empty in Hk. discriminate.
  - intros i j e e' _ _ He _ Hu. apply Hz in He. contradiction.
Qed.

(** Calls one after the other. *)
Fixpoint hsearch_calls (fuel : nat) (htab : hsearch_data) (calls : list (ENTRY * ACTION)) :
    flow Empty_set (hsearch_data * list Z) :=
  match calls with
  | [] => Next (htab, [])
  | (item, action) :: calls =>
      let! '(htab, _, ret, _) := hsearch_r fuel item action htab in
      let! '(htab, rets) := hsearch_calls fuel htab calls in
      Next (htab, ret :: rets)
  end.

Fixpoint map_calls (capacity : Z) (M : gmap (list Z) Z) (calls : list (ENTRY * ACTION)) :
    gmap (list Z) Z * list Z :=
  match calls with
  | [] => (M, [])
  | (item, action) :: calls =>
      let '(M, out) := map_search capacity M item action in
      let '(M, rets) := map_calls capacity M calls in
      (M, match out with Some _ => 1 | None => 0 end :: rets)
  end.

(** For a table of up to 2^31 - 1 elements, the search for a prime ends
    and yields a prime size not smaller than the request, the first one from 5 on; when
    [calloc] delivers, the table is created empty, and when it does not, the call fails and
    leaves no table. *)
Theorem hcreate_r_correct calloc fuel fuel' nel sz fl :
  (forall c t, calloc c = Some t -> t = repeat zero_slot (Z.to_nat c)) ->
  0 <= nel <= 2 ^ 31 - 1 -> 2 ^ 30 <= Z.of_nat fuel -> 2 ^ 15 <= Z.of_nat fuel' ->
  exists htab' ret, hcreate_r calloc fuel fuel' nel (Some (mkHtab None sz fl)) = Next (Some htab', ret, None) /\
    prime (size htab') /\ nel <= size htab' /\
    (forall q, Z.max nel 5 <= q < size htab' -> ~ prime q) /\
    match calloc (size htab' + 1) with
    | Some _ => ret = 1 /\ wf htab' ∅
    | None => ret = 0 /\ table htab' = None
    end.
Proof.
  intros Hcalloc Hn Hf Hf'. unfold hcreate_r. cbn [table].
  set (n3 := if nel <? 3 then 3 else nel).
  assert (3 <= n3 <= 2 ^ 31 - 1 /\ Z.max nel 3 = n3) as [Hn3 En3] by (subst n3; destruct (Z.ltb_spec nel 3); lia).
  destruct (lor_1 n3 ltac:(lia)) as [Hor Hodd].
  assert (Z.lor n3 1 <> 2 ^ 31) as Hne by (intros E; rewrite E in Hodd; discriminate).
  destruct (next_prime_spec fuel fuel' (Z.lor n3 1)) as (p & -> & Hp & Hpr & Hp5 & Hmin); [lia|assumption|lia|nia|].
  cbn [flow_bind]. assert (u32 p = p) as -> by (apply uwrap_small; lia).
  assert (u32 (p + 1) = p + 1) as -> by (apply uwrap_small; lia).
  assert (forall q, Z.max nel 5 <= q < p -> ~ prime q) as Hleast.
  { intros q Hq Hqp. destruct (Z.le_gt_cases (Z.lor n3 1) q); [specialize (Hmin q ltac:(lia) Hqp); lia|].
    assert (q = n3) by lia. subst q. assert (Z.lor n3 1 = n3 + 1) as E by lia. rewrite E in Hodd.
    apply prime_alt in Hqp as [_ Hqp]. apply (Hqp 2); [lia|]. apply Z.mod_divide; [lia|].
    pose proof (Z.mod_pos_bound n3 2 ltac:(lia)). rewrite <- Z.add_mod_idemp_l in Hodd by lia.
    destruct (Z.eq_dec (n3 mod 2) 1) as [E1|]; [rewrite E1 in Hodd; discriminate|lia]. }
  destruct (calloc (p + 1)) as [t|] eqn:Et; eexists _, _; (split; [reflexivity|]); cbn [size table]; rewrite Et;
    (split; [assumption|]); (split; [lia|]); (split; [assumption|]); [|auto].
  split; [reflexivity|]. apply Hcalloc in Et as ->.
  assert (forall idx e, at_slot (repeat zero_slot (Z.to_nat (p + 1))) idx e -> used e = 0) as Hz.
  { intros idx e He. unfold at_slot in He. pose proof (lookup_lt_Some _ _ _ He) as Hlt. rewrite repeat_length in Hlt.
    rewrite lookup_repeat in He by assumption. injection He as <-. reflexivity. }
  split; cbn [size table filled]; [assumption|lia| |reflexivity].
  eexists. split; [reflexivity|]. rewrite repeat_length. split; [lia|]. split; [apply represents_empty; assumption|].
  apply used_count_none. assumption.
Qed.

(** on a well-formed table a search terminates within [size] probes and
    behaves as the bounded map does: a present key is found with its datum, and is not
    overwritten by ENTER; an absent key is reported by FIND as ESRCH; ENTER adds it unless [size]
    keys are stored, which is ENOMEM, and the table it leaves is well formed for the new map. *)
Theorem hsearch_r_refines fuel item action htab M :
  wf htab M -> size htab <= Z.of_nat fuel ->
  exists htab' retval ret err, hsearch_r fuel item action htab = Next (htab', retval, ret, err) /\
    size htab' = size htab /\ wf htab' (fst (map_search (size htab) M item action)) /\
    returns htab' (key item) action (snd (map_search (size htab) M item action)) retval ret err.
Proof. apply hsearch_step. Qed.

(** C21: any sequence of searches on a well-formed table returns what
    the same sequence on the map returns, and leaves a table for the resulting map. *)
Theorem hsearch_calls_refine fuel calls htab M :
  wf htab M -> size htab <= Z.of_nat fuel ->
  exists htab', hsearch_calls fuel htab calls = Next (htab', snd (map_calls (size htab) M calls)) /\
    size htab' = size htab /\ wf htab' (fst (map_calls (size htab) M calls)).
Proof.
  revert htab M. induction calls as [|[item action] calls IH]; intros htab M Hwf Hf; [eauto|].
  cbn [hsearch_calls map_calls].
  destruct (hsearch_step fuel item action htab M Hwf Hf) as (h1 & rv & ret & err & -> & Hs & Hwf1 & Hret). cbn [flow_bind].
  destruct (map_search (size htab) M item action) as [M1 out]. cbn [fst snd] in *.
  destruct (IH h1 M1 Hwf1 ltac:(lia)) as (h2 & -> & Hs2 & Hwf2). rewrite Hs in *. cbn [flow_bind].
  destruct (map_calls (size htab) M1 calls) as [M2 rets]. cbn [fst snd] in *.
  exists h2. split; [|auto]. do 3 f_equal. unfold returns in Hret. destruct out; apply Hret.
Qed.

(** The prime test takes 3 for composite, so that the smallest table has five slots. *)
Example isprime_rejects_3 : isprime 2 3 = Next false.
Proof. reflexivity. Qed.

(** on the odd numbers from 5 up to 2^31 the prime test decides
    primality, with a number of rounds of about half the square root. *)
Theorem isprime_correct fuel number :
  5 <= number < 2 ^ 31 -> number mod 2 = 1 -> number <= (2 * Z.of_nat fuel + 1) * (2 * Z.of_nat fuel + 1) ->
  exists b, isprime fuel number = Next b /\ (b = true <-> prime number).
Proof. apply isprime_spec. Qed.

(** * Witnesses *)

Lemma isprime_witness : exists b, isprime 10 91 = Next b /\ (b = true <-> prime 91).
Proof. apply (isprime_correct 10 91); [lia|reflexivity|simpl; lia]. Defined.

Definition calloc_slots (c : Z) : option (list _ENTRY) := Some (repeat zero_slot (Z.to_nat c)).

Lemma hcreate_witness :
  exists htab' ret, hcreate_r calloc_slots (Z.to_nat (2 ^ 30)) (Z.to_nat (2 ^ 15)) 10 (Some (mkHtab None 0 0)) = Next (Some htab', ret, None) /\
    prime (size htab') /\ 10 <= size htab' /\ (forall q, Z.max 10 5 <= q < size htab' -> ~ prime q) /\
    match calloc_slots (size htab' + 1) with
    | Some _ => ret = 1 /\ wf htab' ∅
    | None => ret = 0 /\ table htab' = None
    end.
Proof.
  apply (hcreate_r_correct calloc_slots (Z.to_nat (2 ^ 30)) (Z.to_nat (2 ^ 15)) 10 0 0).
  - intros c t [= <-]. reflexivity.
  - lia.
  - rewrite Z2Nat.id by lia. lia.
  - rewrite Z2Nat.id by lia. lia.
Defined.

(** An empty table of five slots. *)
Definition small_table : hsearch_data := mkHtab (Some (repeat zero_slot 6)) 5 0.

Lemma small_table_wf : wf small_table ∅.
Proof.
  assert (forall idx e, at_slot (repeat zero_slot 6) idx e -> used e = 0) as Hz.
  { intros idx e He. unfold at_slot in He. pose proof (lookup_lt_Some _ _ _ He) as Hlt. rewrite repeat_length in Hlt.
    rewrite lookup_repeat in He by assumption. injection He as <-. reflexivity. }
  split; cbn [small_table size table filled]; [|lia| |reflexivity].
  - destruct (isprime_spec 5 5) as (b & E & Hb); [lia|reflexivity|simpl; lia|]. apply Hb. vm_compute in E. congruence.
  - eexists. split; [reflexivity|]. split; [reflexivity|]. split; [apply represents_empty; assumption|].
    apply used_count_none. assumption.
Qed.

Lemma hsearch_r_witness :
  exists htab' retval ret err, hsearch_r 5 (mkENTRY [97; 98] 7) ENTER small_table = Next (htab', retval, ret, err) /\
    size htab' = 5 /\ wf htab' (fst (map_search 5 ∅ (mkENTRY [97; 98] 7) ENTER)) /\
    returns htab' [97; 98] ENTER (snd (map_search 5 ∅ (mkENTRY [97; 98] 7) ENTER)) retval ret err.
Proof. apply (hsearch_r_refines 5 (mkENTRY [97; 98] 7) ENTER small_table ∅ small_table_wf). simpl. lia. Defined.

Definition some_calls : list (ENTRY * ACTION) :=
  [(mkENTRY [97] 1, ENTER); (mkENTRY [98] 2, FIND); (mkENTRY [97] 3, ENTER); (mkENTRY [98] 4, ENTER)].

Lemma hsearch_calls_witness :
  exists htab', hsearch_calls 5 small_table some_calls = Next (htab', [1; 0; 1; 1]) /\
    size htab' = 5 /\ wf htab' (fst (map_calls 5 ∅ some_calls)).
Proof. apply (hsearch_calls_refine 5 some_calls small_table ∅ small_table_wf). simpl. lia. Defined.

(** ENTER of a key that is present leaves the table as it is: the old datum stays. *)
Example enter_keeps_datum :
  exists htab, hsearch_calls 5 small_table [(mkENTRY [97] 1, ENTER)] = Next (htab, [1]) /\
    hsearch_calls 5 small_table [(mkENTRY [97] 1, ENTER); (mkENTRY [97] 3, ENTER)] = Next (htab, [1; 1]).
Proof. eexists. split; reflexivity. Qed.
