(* ===== verification/Rbtree.v ===== *)
(** Red-black trees as values, with the address of each node: the reference for misc/tsearch.c.

    A position in a tree is a subtree with its context, the list of the nodes above it, the
    nearest first.  [rbt] is the red-black invariant of a subtree, [rbc] that of a context. *)
From stdpp Require Import sorting.
From S2P Require Import Prelude.

Inductive tree := E | T (c : bool) (l : tree) (a k : Z) (r : tree).

(** A node above the position: which side the position is on, and the rest of the node. *)
Inductive step := L (c : bool) (a k : Z) (r : tree) | R (c : bool) (a k : Z) (l : tree).

Definition ctx := list step.

Definition fill (s : step) (t : tree) : tree :=
  match s with L c a k r => T c t a k r | R c a k l => T c l a k t end.

Fixpoint plug (x : ctx) (t : tree) : tree :=
  match x with [] => t | s :: x => plug x (fill s t) end.

Definition step_red (s : step) : bool := match s with L c _ _ _ | R c _ _ _ => c end.
Definition step_addr (s : step) : Z := match s with L _ a _ _ | R _ a _ _ => a end.
Definition step_key (s : step) : Z := match s with L _ _ k _ | R _ _ k _ => k end.
Definition sibling (s : step) : tree := match s with L _ _ _ t | R _ _ _ t => t end.

(** The colour of the node above the position; the position at the top counts as below a black node. *)
Definition above_red (x : ctx) : bool := match x with [] => false | s :: _ => step_red s end.

Definition is_red_tree (t : tree) : bool := match t with E => false | T c _ _ _ _ => c end.

Definition blacken (t : tree) : tree := match t with E => E | T _ l a k r => T false l a k r end.

(** ** Contents *)

(** Address and key of the nodes, from left to right. *)
Fixpoint entries (t : tree) : list (Z * Z) :=
  match t with E => [] | T _ l a k r => entries l ++ (a, k) :: entries r end.

Fixpoint before (x : ctx) : list (Z * Z) :=
  match x with
  | [] => []
  | L _ _ _ _ :: x => before x
  | R _ a k l :: x => before x ++ entries l ++ [(a, k)]
  end.

Fixpoint after (x : ctx) : list (Z * Z) :=
  match x with
  | [] => []
  | L _ a k r :: x => (a, k) :: entries r ++ after x
  | R _ _ _ _ :: x => after x
  end.

Lemma entries_plug x : forall t, entries (plug x t) = before x ++ entries t ++ after x.
Proof.
  induction x as [|[c a k r|c a k l] x IH]; intros t; cbn [plug before after fill]; [rewrite app_nil_r; reflexivity|..];
    rewrite IH; cbn [entries]; rewrite <- !app_assoc; cbn [app]; rewrite <- ?app_assoc; reflexivity.
Qed.

Lemma entries_blacken t : entries (blacken t) = entries t.
Proof. destruct t; reflexivity. Qed.

(** ** The red-black invariant *)

(** All paths down from [t] pass [n] black nodes, and no red node is below a red one; [pc] says
    that the node above is red. *)
Fixpoint rbt (pc : bool) (n : nat) (t : tree) : Prop :=
  match t with
  | E => n = O
  | T true l _ _ r => pc = false /\ rbt true n l /\ rbt true n r
  | T false l _ _ r => match n with O => False | S n => rbt false n l /\ rbt false n r end
  end.

(** A subtree of black height [n] that respects the colour above fits the position. *)
Fixpoint rbc (n : nat) (x : ctx) : Prop :=
  match x with
  | [] => True
  | s :: x =>
      rbt (step_red s) n (sibling s) /\
      if step_red s then above_red x = false /\ rbc n x else rbc (S n) x
  end.

Lemma rbt_weaken pc n t : rbt true n t -> rbt pc n t.
Proof. destruct t as [|[] l a k r]; cbn [rbt]; auto. intros [H _]. discriminate. Qed.

Lemma rbt_black pc n t : is_red_tree t = false -> rbt false n t -> rbt pc n t.
Proof. destruct t as [|[] l a k r]; cbn [rbt is_red_tree]; auto; discriminate. Qed.

Lemma rbt_above_red n t : rbt true n t -> is_red_tree t = false.
Proof. destruct t as [|[] l a k r]; cbn [rbt is_red_tree]; auto. intros [H _]. discriminate. Qed.

Lemma rbt_red pc n l a k r : rbt pc n (T true l a k r) <-> pc = false /\ rbt true n l /\ rbt true n r.
Proof. reflexivity. Qed.

Lemma rbt_blacken n t : is_red_tree t = true -> rbt false n t -> forall pc, rbt pc (S n) (blacken t).
Proof. destruct t as [|[] l a k r]; try discriminate. cbn [rbt blacken]. intros _ (_ & Hl & Hr) pc. auto using rbt_weaken. Qed.

Lemma rbt_fill n s t x : rbc n (s :: x) -> rbt (step_red s) n t ->
  rbt (above_red x) (if step_red s then n else S n) (fill s t) /\ rbc (if step_red s then n else S n) x.
Proof.
  destruct s as [c a k r|c a k l]; cbn [rbc step_red sibling fill]; destruct c; cbn [rbt]; intros [Hs Hx] Ht; tauto.
Qed.

(** The whole tree keeps the invariant when the position does. *)
Lemma rbt_plug x : forall n t, rbc n x -> rbt (above_red x) n t -> exists N, rbt false N (plug x t).
Proof.
  induction x as [|s x IH]; intros n t Hx Ht; [exists n; exact Ht|]. cbn [plug]. cbn [above_red] in Ht.
  destruct (rbt_fill n s t x Hx Ht) as [Hf Hc]. eapply IH; eassumption.
Qed.

(** Going down: the part of the tree above a node, from the invariant of the whole. *)
Lemma rbc_down n c l a k r x : rbc n x -> rbt (above_red x) n (T c l a k r) ->
  exists n', (rbc n' (L c a k r :: x) /\ rbt c n' l) /\ (rbc n' (R c a k l :: x) /\ rbt c n' r).
Proof.
  intros Hx Ht. destruct c; cbn [rbt] in Ht.
  - destruct Ht as (Hp & Hl & Hr). exists n. cbn [rbc step_red sibling]. auto.
  - destruct n as [|n]; [contradiction|]. destruct Ht as [Hl Hr]. exists n. cbn [rbc step_red sibling]. auto.
Qed.

(** ** Height *)

Fixpoint height (t : tree) : nat := match t with E => O | T _ l _ _ r => S (height l `max` height r) end.

Lemma rbt_height t : forall pc n, rbt pc n t -> (height t <= 2 * n + (if pc then 0 else 1))%nat.
Proof.
  induction t as [|c l IHl a k r IHr]; intros pc n H; cbn [height]; [lia|]. destruct c; cbn [rbt] in H.
  - destruct H as (-> & Hl & Hr). apply IHl in Hl. apply IHr in Hr. simpl in *. lia.
  - destruct n as [|n]; [contradiction|]. destruct H as [Hl Hr]. apply IHl in Hl. apply IHr in Hr. destruct pc; simpl in *; lia.
Qed.

Lemma rbt_size t : forall pc n, rbt pc n t -> 2 ^ Z.of_nat n <= Z.of_nat (length (entries t)) + 1.
Proof.
  induction t as [|c l IHl a k r IHr]; intros pc n H; cbn [entries length].
  - cbn [rbt] in H. subst n. reflexivity.
  - rewrite length_app. cbn [length]. destruct c; cbn [rbt] in H.
    + destruct H as (-> & Hl & Hr). apply IHl in Hl. lia.
    + destruct n as [|n]; [contradiction|]. destruct H as [Hl Hr]. apply IHl in Hl. apply IHr in Hr. rewrite Nat2Z.inj_succ, Z.pow_succ_r by lia. lia.
Qed.

Lemma height_plug x : forall t, (length x + height t <= height (plug x t))%nat.
Proof.
  induction x as [|s x IH]; intros t; cbn [plug length]; [lia|]. specialize (IH (fill s t)). destruct s; cbn [fill height] in *; lia.
Qed.

Lemma height_size t : (height t <= length (entries t))%nat.
Proof. induction t as [|c l IHl a k r IHr]; cbn [height entries length]; [lia|]. rewrite length_app. cbn [length]. lia. Qed.

(** ** Searching *)

Section Order.
Context (compar : Z -> Z -> Z).

(** A comparison function: the signs are opposite and it is transitive, also on the equal keys. *)
Record key_order : Prop := {
  ko_opposite : forall x y, compar x y < 0 <-> 0 < compar y x;
  ko_trans : forall x y z, compar x y <= 0 -> compar y z <= 0 -> compar x z <= 0
}.

(** Entries with strictly increasing keys. *)
Definition increasing (l : list (Z * Z)) : Prop := StronglySorted (fun x y => compar x.2 y.2 < 0) l.

(** The context is the path of a search for [k]. *)
Definition on_path (k : Z) (x : ctx) : Prop :=
  Forall (fun s => match s with L _ _ ks _ => compar k ks < 0 | R _ _ ks _ => 0 < compar k ks end) x.

Hypothesis ko : key_order.

Lemma ko_lt_trans x y z : compar x y < 0 -> compar y z < 0 -> compar x z < 0.
Proof.
  destruct ko as [Ho Ht]. intros H1 H2. pose proof (Ho x y). pose proof (Ho y z). pose proof (Ho x z). pose proof (Ho z x).
  pose proof (Ht x y z). pose proof (Ht y z x). pose proof (Ht z x y). lia.
Qed.

Lemma increasing_app l1 l2 : increasing (l1 ++ l2) <->
  increasing l1 /\ increasing l2 /\ forall x y, x ∈ l1 -> y ∈ l2 -> compar x.2 y.2 < 0.
Proof. unfold increasing. rewrite StronglySorted_app. tauto. Qed.

Lemma increasing_cons x l : increasing (x :: l) <-> (forall y, y ∈ l -> compar x.2 y.2 < 0) /\ increasing l.
Proof. unfold increasing. rewrite StronglySorted_cons, Forall_forall. reflexivity. Qed.

(** Everything before a position on the path is smaller than the key, everything after it greater. *)
Lemma on_path_sides k x : forall t, increasing (entries (plug x t)) -> on_path k x ->
  (forall e, e ∈ before x -> compar e.2 k < 0) /\ (forall e, e ∈ after x -> compar k e.2 < 0).
Proof.
  induction x as [|s x IH]; intros t Hi Hp; [split; intros e He; inversion He|]. apply Forall_cons in Hp as [Hs Hp]. cbn [plug] in Hi.
  destruct (IH _ Hi Hp) as [Hb Ha]. rewrite entries_plug in Hi. apply increasing_app in Hi as (_ & Hi & _). apply increasing_app in Hi as (Hi & _ & _).
  destruct s as [c a ks r|c a ks l]; cbn [fill entries before after] in *; (split; [assumption || idtac|assumption || idtac]).
  - intros e He. apply increasing_app in Hi as (_ & Hi & _). apply increasing_cons in Hi as [Hi _].
    rewrite elem_of_cons, elem_of_app in He. destruct He as [-> | [He|He]]; [assumption| |auto].
    eapply ko_lt_trans; [exact Hs|exact (Hi e He)].
  - intros e He. apply (ko_opposite ko) in Hs. rewrite !elem_of_app, list_elem_of_singleton in He. destruct He as [He|[He| ->]]; [auto| |assumption].
    apply increasing_app in Hi as (_ & _ & Hi). eapply ko_lt_trans; [exact (Hi e (a, ks) He ltac:(left))|exact Hs].
Qed.
End Order.
