(* ===== verification/Tsearch.v ===== *)
(** Binary search trees (misc/tsearch.c): tsearch, tfind, tdelete, twalk and tdestroy, as they
    work on the heap: nodes are records at addresses, and the variables of type [node *] of the
    source are slots, the places a pointer to a node is stored in.

    A key is the pointer the caller passed.  The comparison function [compar] is a parameter,
    and malloc's result is an argument. *)
From S2P Require Import Prelude.

(** [struct node_t] *)
Record node_t := Node { key : Z; left : Z; right : Z; red : bool }.

Definition NULL : Z := 0.

(** A [node *]: the root variable of the caller, or a field of a node. *)
Inductive slot := RootSlot | LeftOf (p : Z) | RightOf (p : Z).

#[export] Instance slot_eq_dec : EqDecision slot.
Proof. solve_decision. Defined.

(** The root variable and the nodes that are allocated. *)
Record tstate := TState { root : Z; nodes : gmap Z node_t }.

Definition get_node {R} (st : tstate) (p : Z) : flow R node_t :=
  match nodes st !! p with Some n => Next n | None => Fault end.

(** [*s] *)
Definition get_slot {R} (st : tstate) (s : slot) : flow R Z :=
  match s with
  | RootSlot => Next (root st)
  | LeftOf p => let! n := get_node st p in Next (left n)
  | RightOf p => let! n := get_node st p in Next (right n)
  end.

Definition put_node (st : tstate) (p : Z) (n : node_t) : tstate := TState (root st) (<[p := n]> (nodes st)).

(** [*s = v] *)
Definition set_slot {R} (st : tstate) (s : slot) (v : Z) : flow R tstate :=
  match s with
  | RootSlot => Next (TState v (nodes st))
  | LeftOf p => let! n := get_node st p in Next (put_node st p (Node (key n) v (right n) (red n)))
  | RightOf p => let! n := get_node st p in Next (put_node st p (Node (key n) (left n) v (red n)))
  end.

(** [p->red = v] and [p->key = v] *)
Definition set_red {R} (st : tstate) (p : Z) (v : bool) : flow R tstate :=
  let! n := get_node st p in Next (put_node st p (Node (key n) (left n) (right n) v)).

Definition set_key {R} (st : tstate) (p v : Z) : flow R tstate :=
  let! n := get_node st p in Next (put_node st p (Node v (left n) (right n) (red n))).

(** [p != NULL && p->red] *)
Definition is_red {R} (st : tstate) (p : Z) : flow R bool :=
  if p =? NULL then Next false else let! n := get_node st p in Next (red n).

Section Tsearch.
Context (compar : Z -> Z -> Z).

(** ** Insertion *)

(** The rotations of maybe_split_for_insert. *)
Definition rotate_for_insert {R} (st : tstate) (root : Z) (parentp gparentp : slot) (p_r gp_r : Z) : flow R tstate :=
  let rp := RightOf root in
  let lp := LeftOf root in
  let! gp := get_slot st gparentp in
  let! p := get_slot st parentp in
  if negb (Bool.eqb (0 <? p_r) (0 <? gp_r)) then
    let! st := set_red st p true in
    let! st := set_red st gp true in
    let! st := set_red st root false in
    let! st :=
      if p_r <? 0 then
        let! v := get_slot st rp in
        let! st := set_slot st (LeftOf p) v in
        let! st := set_slot st rp p in
        let! v := get_slot st lp in
        let! st := set_slot st (RightOf gp) v in
        set_slot st lp gp
      else
        let! v := get_slot st lp in
        let! st := set_slot st (RightOf p) v in
        let! st := set_slot st lp p in
        let! v := get_slot st rp in
        let! st := set_slot st (LeftOf gp) v in
        set_slot st rp gp in
    set_slot st gparentp root
  else
    let! st := set_slot st gparentp p in
    let! st := set_red st p false in
    let! st := set_red st gp true in
    if p_r <? 0 then
      let! v := get_slot st (RightOf p) in
      let! st := set_slot st (LeftOf gp) v in
      set_slot st (RightOf p) gp
    else
      let! v := get_slot st (LeftOf p) in
      let! st := set_slot st (RightOf gp) v in
      set_slot st (LeftOf p) gp.

Definition maybe_split_for_insert {R} (st : tstate) (rootp : slot) (parentp gparentp : option slot) (p_r gp_r mode : Z) : flow R tstate :=
  let! root := get_slot st rootp in
  let! r := get_slot st (RightOf root) in
  let! l := get_slot st (LeftOf root) in
  let! r_red := is_red st r in
  let! l_red := is_red st l in
  if (mode =? 1) || (r_red && l_red) then
    let! st := set_red st root true in
    let! st := if r =? NULL then Next st else set_red st r false in
    let! st := if l =? NULL then Next st else set_red st l false in
    match parentp with
    | None => Next st
    | Some parentp =>
        let! p := get_slot st parentp in
        let! n := get_node st p in
        if red n then
          match gparentp with
          | Some gparentp => rotate_for_insert st root parentp gparentp p_r gp_r
          | None => Fault
          end
        else Next st
    end
  else Next st.

(** How the loop of tsearch ends: at a node with an equal key, or where a node is missing. *)
Inductive tsearch_end :=
  | Found (p : Z)
  | Missing (rootp : slot) (parentp : option slot) (nextp : slot) (r p_r : Z).

Fixpoint tsearch_loop {R} (fuel : nat) (st : tstate) (k : Z) (rootp : slot) (parentp gparentp : option slot) (p_r gp_r : Z) :
    flow R (tsearch_end * tstate) :=
  match fuel with
  | O => NoFuel
  | S fuel =>
      let! root := get_slot st rootp in
      let! n := get_node st root in
      let r := compar k (key n) in
      if r =? 0 then Next (Found root, st) else
      let! st := maybe_split_for_insert st rootp parentp gparentp p_r gp_r 0 in
      let nextp := if r <? 0 then LeftOf root else RightOf root in
      let! next := get_slot st nextp in
      if next =? NULL then Next (Missing rootp parentp nextp r p_r, st)
      else tsearch_loop fuel st k nextp (Some rootp) parentp r p_r
  end.

(** [malloc] is the address of a new node, or NULL.  The result is the node and the new state. *)
Definition tsearch {R} (fuel : nat) (malloc : Z) (st : tstate) (k : Z) (vrootp : option slot) : flow R (Z * tstate) :=
  match vrootp with
  | None => Next (NULL, st)
  | Some rootp =>
      let! p := get_slot st rootp in
      let! st := if p =? NULL then Next st else set_red st p false in
      let! '(e, st) := if p =? NULL then Next (Missing rootp None rootp 0 0, st) else tsearch_loop fuel st k rootp None None 0 0 in
      match e with
      | Found q => Next (q, st)
      | Missing rootp parentp nextp r p_r =>
          if malloc =? NULL then Next (NULL, st) else
          let! st := set_slot st nextp malloc in
          let st := put_node st malloc (Node k NULL NULL true) in
          let! st := if decide (nextp = rootp) then Next st
                     else maybe_split_for_insert st nextp (Some rootp) parentp r p_r 1 in
          Next (malloc, st)
      end
  end.

(** ** Search *)

Fixpoint tfind_loop {R} (fuel : nat) (st : tstate) (k : Z) (rootp : slot) : flow R Z :=
  let! root := get_slot st rootp in
  if root =? NULL then Next NULL else
  match fuel with
  | O => NoFuel
  | S fuel =>
      let! n := get_node st root in
      let r := compar k (key n) in
      if r =? 0 then Next root
      else tfind_loop fuel st k (if r <? 0 then LeftOf root else RightOf root)
  end.

Definition tfind {R} (fuel : nat) (st : tstate) (k : Z) (vrootp : option slot) : flow R Z :=
  match vrootp with None => Next NULL | Some rootp => tfind_loop fuel st k rootp end.

(** ** Deletion *)

(** [nodestack]: the slots on it, the last one pushed first, and [stacksize]. *)
Record stack := Stack { slots : list slot; stacksize : nat }.

(** Pushing after the test of [sp] against [stacksize], which makes room. *)
Definition push_grow (s : stack) (p : slot) : stack :=
  Stack (p :: slots s) (if Nat.eqb (length (slots s)) (stacksize s) then stacksize s + 20 else stacksize s)%nat.

(** [nodestack[sp++] = p] *)
Definition push {R} (s : stack) (p : slot) : flow R stack :=
  if Nat.ltb (length (slots s)) (stacksize s) then Next (Stack (p :: slots s) (stacksize s)) else Fault.

(** [--sp] and [sp = 1] *)
Definition pop (s : stack) : stack := Stack (tail (slots s)) (stacksize s).
Definition keep_first (s : stack) : stack := Stack (drop (length (slots s) - 1) (slots s)) (stacksize s).

(** The search: the slot of the node with the key, the node above it and the stack, or nothing. *)
Fixpoint tdelete_search {R} (fuel : nat) (st : tstate) (k : Z) (rootp : slot) (p : Z) (stk : stack) : flow R (option (slot * Z * stack)) :=
  match fuel with
  | O => NoFuel
  | S fuel =>
      let! root := get_slot st rootp in
      let! n := get_node st root in
      let cmp := compar k (key n) in
      if cmp =? 0 then Next (Some (rootp, p, stk)) else
      let stk := push_grow stk rootp in
      let rootp := if cmp <? 0 then LeftOf root else RightOf root in
      let! next := get_slot st rootp in
      if next =? NULL then Next None else tdelete_search fuel st k rootp root stk
  end.

(** The leftmost node from [up] on. *)
Fixpoint tdelete_successor {R} (fuel : nat) (st : tstate) (parent up : slot) (stk : stack) : flow R (slot * stack) :=
  match fuel with
  | O => NoFuel
  | S fuel =>
      let stk := push_grow stk parent in
      let! u := get_slot st up in
      let! l := get_slot st (LeftOf u) in
      if l =? NULL then Next (up, stk) else tdelete_successor fuel st up (LeftOf u) stk
  end.

(** Rebalancing when R is the left successor of P; Q is its brother. *)

(** Q is red: rotate P left. *)
Definition rotate_red_left {R} (st : tstate) (pp : slot) (p q : Z) : flow R tstate :=
  let! st := set_red st q false in
  let! st := set_red st p true in
  let! v := get_slot st (LeftOf q) in
  let! st := set_slot st (RightOf p) v in
  let! st := set_slot st (LeftOf q) p in
  set_slot st pp q.

(** Q's left successor goes to the top. *)
Definition lift_left {R} (st : tstate) (pp : slot) (p q : Z) : flow R tstate :=
  let! q2 := get_slot st (LeftOf q) in
  let! n := get_node st p in
  let! st := set_red st q2 (red n) in
  let! v := get_slot st (LeftOf q2) in
  let! st := set_slot st (RightOf p) v in
  let! v := get_slot st (RightOf q2) in
  let! st := set_slot st (LeftOf q) v in
  let! st := set_slot st (RightOf q2) q in
  let! st := set_slot st (LeftOf q2) p in
  let! st := set_slot st pp q2 in
  set_red st p false.

(** Q goes to the top. *)
Definition rotate_left {R} (st : tstate) (pp : slot) (p q : Z) : flow R tstate :=
  let! n := get_node st p in
  let! st := set_red st q (red n) in
  let! st := set_red st p false in
  let! v := get_slot st (RightOf q) in
  let! st := set_red st v false in
  let! v := get_slot st (LeftOf q) in
  let! st := set_slot st (RightOf p) v in
  let! st := set_slot st (LeftOf q) p in
  set_slot st pp q.

(** Neither of two slots points to a red node. *)
Definition both_black {R} (st : tstate) (s1 s2 : slot) : flow R bool :=
  let! v := get_slot st s1 in
  let! b := is_red st v in
  if b then Next false else
  let! v := get_slot st s2 in
  let! b := is_red st v in
  Next (negb b).

(** Q is black. *)
Definition repair_left {R} (st : tstate) (pp : slot) (p q : Z) (stk : stack) : flow R (tstate * Z * stack) :=
  let! b := both_black st (LeftOf q) (RightOf q) in
  if b then
    let! st := set_red st q true in
    Next (st, p, stk)
  else
    let! v := get_slot st (RightOf q) in
    let! b := is_red st v in
    let! st := if negb b then lift_left st pp p q else rotate_left st pp p q in
    Next (st, NULL, keep_first stk).

Definition rebalance_left {R} (st : tstate) (pp : slot) (p : Z) (stk : stack) : flow R (tstate * Z * stack) :=
  let! q := get_slot st (RightOf p) in
  let! n := get_node st q in
  let! '(st, stk, pp, q) :=
    if red n then
      let! st := rotate_red_left st pp p q in
      let! stk := push stk (LeftOf q) in
      let! q' := get_slot st (RightOf p) in
      Next (st, stk, LeftOf q, q')
    else Next (st, stk, pp, q) in
  repair_left st pp p q stk.

(** The same with left and right exchanged. *)
Definition rotate_red_right {R} (st : tstate) (pp : slot) (p q : Z) : flow R tstate :=
  let! st := set_red st q false in
  let! st := set_red st p true in
  let! v := get_slot st (RightOf q) in
  let! st := set_slot st (LeftOf p) v in
  let! st := set_slot st (RightOf q) p in
  set_slot st pp q.

Definition lift_right {R} (st : tstate) (pp : slot) (p q : Z) : flow R tstate :=
  let! q2 := get_slot st (RightOf q) in
  let! n := get_node st p in
  let! st := set_red st q2 (red n) in
  let! v := get_slot st (RightOf q2) in
  let! st := set_slot st (LeftOf p) v in
  let! v := get_slot st (LeftOf q2) in
  let! st := set_slot st (RightOf q) v in
  let! st := set_slot st (LeftOf q2) q in
  let! st := set_slot st (RightOf q2) p in
  let! st := set_slot st pp q2 in
  set_red st p false.

Definition rotate_right {R} (st : tstate) (pp : slot) (p q : Z) : flow R tstate :=
  let! n := get_node st p in
  let! st := set_red st q (red n) in
  let! st := set_red st p false in
  let! v := get_slot st (LeftOf q) in
  let! st := set_red st v false in
  let! v := get_slot st (RightOf q) in
  let! st := set_slot st (LeftOf p) v in
  let! st := set_slot st (RightOf q) p in
  set_slot st pp q.

Definition repair_right {R} (st : tstate) (pp : slot) (p q : Z) (stk : stack) : flow R (tstate * Z * stack) :=
  let! b := both_black st (RightOf q) (LeftOf q) in
  if b then
    let! st := set_red st q true in
    Next (st, p, stk)
  else
    let! v := get_slot st (LeftOf q) in
    let! b := is_red st v in
    let! st := if negb b then lift_right st pp p q else rotate_right st pp p q in
    Next (st, NULL, keep_first stk).

Definition rebalance_right {R} (st : tstate) (pp : slot) (p : Z) (stk : stack) : flow R (tstate * Z * stack) :=
  let! q := get_slot st (LeftOf p) in
  let! n := get_node st q in
  let! '(st, stk, pp, q) :=
    if red n then
      let! st := rotate_red_right st pp p q in
      let! stk := push stk (RightOf q) in
      let! q' := get_slot st (LeftOf p) in
      Next (st, stk, RightOf q, q')
    else Next (st, stk, pp, q) in
  repair_right st pp p q stk.

(** The loop that makes up for the black node that is gone above [r]. *)
Fixpoint rebalance {R} (fuel : nat) (st : tstate) (r : Z) (stk : stack) : flow R (tstate * Z) :=
  match fuel with
  | O => NoFuel
  | S fuel =>
      match slots stk with
      | [] => Next (st, r)
      | pp :: _ =>
          let! b := is_red st r in
          if b then Next (st, r) else
          let! p := get_slot st pp in
          let! l := get_slot st (LeftOf p) in
          let! '(st, r, stk) := if r =? l then rebalance_left st pp p stk else rebalance_right st pp p stk in
          rebalance fuel st r (pop stk)
      end
  end.

(** The node that goes, with its parents: the one found, or its successor. *)
Definition choose_unchained {R} (fuel : nat) (st : tstate) (rootp : slot) (stk : stack) : flow R (Z * stack) :=
  let! root := get_slot st rootp in
  let! r := get_slot st (RightOf root) in
  let! q := get_slot st (LeftOf root) in
  if (q =? NULL) || (r =? NULL) then Next (root, stk)
  else
    let! '(up, stk) := tdelete_successor fuel st rootp (RightOf root) stk in
    let! u := get_slot st up in
    Next (u, stk).

(** [r] is chained into the parent of [unchained]. *)
Definition unchain {R} (st : tstate) (rootp : slot) (unchained r : Z) (stk : stack) : flow R tstate :=
  match slots stk with
  | [] => set_slot st rootp r
  | top :: _ =>
      let! q := get_slot st top in
      let! v := get_slot st (RightOf q) in
      if unchained =? v then set_slot st (RightOf q) r else set_slot st (LeftOf q) r
  end.

(** [free (p)] *)
Definition free_node (st : tstate) (p : Z) : tstate := TState (root st) (delete p (nodes st)).

(** The node in the slot [rootp] is deleted. *)
Definition tdelete_found {R} (fuel : nat) (st : tstate) (rootp : slot) (retval : Z) (stk : stack) : flow R (Z * tstate) :=
  let! root := get_slot st rootp in
  let! '(unchained, stk) := choose_unchained fuel st rootp stk in
  let! l := get_slot st (LeftOf unchained) in
  let! r := if l =? NULL then get_slot st (RightOf unchained) else Next l in
  let! st := unchain st rootp unchained r stk in
  let! st := if unchained =? root then Next st else let! n := get_node st unchained in set_key st root (key n) in
  let! n := get_node st unchained in
  let! st :=
    if red n then Next st
    else
      let! '(st, r) := rebalance fuel st r stk in
      if r =? NULL then Next st else set_red st r false in
  Next (retval, free_node st unchained).

(** tdelete with room for [size] slots on the stack to begin with. *)
Definition tdelete_with {R} (size fuel : nat) (st : tstate) (k : Z) (vrootp : option slot) : flow R (Z * tstate) :=
  match vrootp with
  | None => Next (NULL, st)
  | Some rootp =>
      let! p := get_slot st rootp in
      if p =? NULL then Next (NULL, st) else
      let! found := tdelete_search fuel st k rootp p (Stack [] size) in
      match found with
      | None => Next (NULL, st)
      | Some (rootp, retval, stk) =>
          tdelete_found fuel st rootp retval stk
      end
  end.

Definition tdelete {R} : nat -> tstate -> Z -> option slot -> flow R (Z * tstate) := tdelete_with 40.
End Tsearch.

(** ** Walking through a tree *)

(** [VISIT] of search.h *)
Inductive VISIT := preorder | postorder | endorder | leaf.

(** The calls of the action, in their order: the node, the visit and the level. *)
Fixpoint trecurse {R} (fuel : nat) (st : tstate) (root level : Z) : flow R (list (Z * VISIT * Z)) :=
  match fuel with
  | O => NoFuel
  | S fuel =>
      let! n := get_node st root in
      if (left n =? NULL) && (right n =? NULL) then Next [(root, leaf, level)]
      else
        let! ls := if left n =? NULL then Next [] else trecurse fuel st (left n) (level + 1) in
        let! rs := if right n =? NULL then Next [] else trecurse fuel st (right n) (level + 1) in
        Next ((root, preorder, level) :: ls ++ (root, postorder, level) :: rs ++ [(root, endorder, level)])
  end.

(** [action] says that an action was given. *)
Definition twalk {R} (fuel : nat) (st : tstate) (vroot : Z) (action : bool) : flow R (list (Z * VISIT * Z)) :=
  if negb (vroot =? NULL) && action then trecurse fuel st vroot 0 else Next [].

(** The keys given to [freefct], in their order, and the nodes that are left. *)
Fixpoint tdestroy_recurse {R} (fuel : nat) (st : tstate) (root : Z) : flow R (list Z * tstate) :=
  match fuel with
  | O => NoFuel
  | S fuel =>
      let! n := get_node st root in
      let! '(ls, st) := if left n =? NULL then Next ([], st) else tdestroy_recurse fuel st (left n) in
      let! n := get_node st root in
      let! '(rs, st) := if right n =? NULL then Next ([], st) else tdestroy_recurse fuel st (right n) in
      let! n := get_node st root in
      Next (ls ++ rs ++ [key n], free_node st root)
  end.

Definition tdestroy {R} (fuel : nat) (st : tstate) (vroot : Z) : flow R (list Z * tstate) :=
  if vroot =? NULL then Next ([], st) else tdestroy_recurse fuel st vroot.

(** ** The checks of the debugging version *)

(** [p && !p->red] *)
Definition is_black {R} (st : tstate) (p : Z) : flow R bool :=
  if p =? NULL then Next false else let! n := get_node st p in Next (negb (red n)).

(** [false] when an assertion fails. *)
Fixpoint check_tree_recurse {R} (fuel : nat) (st : tstate) (p d_sofar d_total : Z) : flow R bool :=
  if p =? NULL then Next (d_sofar =? d_total) else
  match fuel with
  | O => NoFuel
  | S fuel =>
      let! n := get_node st p in
      let! b := is_black st (left n) in
      let! ok := check_tree_recurse fuel st (left n) (d_sofar + Z.b2z b) d_total in
      if negb ok then Next false else
      let! b := is_black st (right n) in
      let! ok := check_tree_recurse fuel st (right n) (d_sofar + Z.b2z b) d_total in
      if negb ok then Next false else
      let! lred := is_red st (left n) in
      if lred && red n then Next false else
      let! rred := is_red st (right n) in
      Next (negb (rred && red n))
  end.

(** The black nodes on the way to the left. *)
Fixpoint check_count {R} (fuel : nat) (st : tstate) (p cnt : Z) : flow R Z :=
  if p =? NULL then Next cnt else
  match fuel with
  | O => NoFuel
  | S fuel =>
      let! n := get_node st p in
      check_count fuel st (left n) (cnt + Z.b2z (negb (red n)))
  end.

Definition check_tree {R} (fuel : nat) (st : tstate) (root : Z) : flow R (bool * tstate) :=
  if root =? NULL then Next (true, st) else
  let! st := set_red st root false in
  let! n := get_node st root in
  let! cnt := check_count fuel st (left n) 0 in
  let! ok := check_tree_recurse fuel st root 0 cnt in
  Next (ok, st).
