(* ===== verification/TreeHeap.v ===== *)
(** How the heap of misc/tsearch.c holds a tree: [at_pos st x t] says that the nodes of the
    state [st] are those of the tree with subtree [t] in the context [x], each at its own
    address.  Reading and writing the slot of a position, and changing the subtree only. *)
From S2P Require Import Prelude Rbtree Tsearch.

Definition addr (t : tree) : Z := match t with E => NULL | T _ _ a _ _ => a end.

(** The nodes of a tree. *)
Fixpoint cells (t : tree) : list (Z * node_t) :=
  match t with E => [] | T c l a k r => (a, Node k (addr l) (addr r) c) :: cells l ++ cells r end.

Definition step_cells (s : step) (p : Z) : list (Z * node_t) :=
  match s with
  | L c a k r => (a, Node k p (addr r) c) :: cells r
  | R c a k l => (a, Node k (addr l) p c) :: cells l
  end.

(** The nodes of a context, with the address [p] of the subtree. *)
Fixpoint ctx_cells (x : ctx) (p : Z) : list (Z * node_t) :=
  match x with [] => [] | s :: x => step_cells s p ++ ctx_cells x (step_addr s) end.

Definition tree_addrs (t : tree) : list Z := (cells t).*1.
Definition step_addrs (s : step) : list Z := step_addr s :: tree_addrs (sibling s).
Definition ctx_addrs (x : ctx) : list Z := mjoin (step_addrs <$> x).

Fixpoint root_addr (x : ctx) (p : Z) : Z := match x with [] => p | s :: x => root_addr x (step_addr s) end.

(** The slot a position is in. *)
Definition slot_of (x : ctx) : slot :=
  match x with [] => RootSlot | L _ a _ _ :: _ => LeftOf a | R _ a _ _ :: _ => RightOf a end.

Definition stored (st : tstate) (c : Z * node_t) : Prop := c.1 <> NULL /\ nodes st !! c.1 = Some c.2.

Definition tree_ok (st : tstate) (t : tree) : Prop := Forall (stored st) (cells t).

Definition ctx_ok (st : tstate) (x : ctx) (p : Z) : Prop := root st = root_addr x p /\ Forall (stored st) (ctx_cells x p).

Record at_pos (st : tstate) (x : ctx) (t : tree) : Prop := {
  pos_ctx : ctx_ok st x (addr t);
  pos_tree : tree_ok st t;
  pos_nodup : NoDup (tree_addrs t ++ ctx_addrs x)
}.

Lemma tree_addrs_T c l a k r : tree_addrs (T c l a k r) = a :: tree_addrs l ++ tree_addrs r.
Proof. unfold tree_addrs. cbn [cells]. rewrite fmap_cons, fmap_app. reflexivity. Qed.

Lemma ctx_addrs_cons s x : ctx_addrs (s :: x) = step_addrs s ++ ctx_addrs x.
Proof. reflexivity. Qed.

Lemma step_cells_addrs s p : (step_cells s p).*1 = step_addrs s.
Proof. destruct s; reflexivity. Qed.

Lemma ctx_cells_addrs x : forall p, (ctx_cells x p).*1 = ctx_addrs x.
Proof. induction x as [|s x IH]; intros p; [reflexivity|]. cbn [ctx_cells]. rewrite fmap_app, IH, step_cells_addrs. reflexivity. Qed.

Lemma tree_addrs_entries t : tree_addrs t ≡ₚ (entries t).*1.
Proof.
  induction t as [|c l IHl a k r IHr]; [reflexivity|]. rewrite tree_addrs_T. cbn [entries]. rewrite fmap_app, fmap_cons. cbn [fst].
  rewrite IHl, IHr. apply Permutation_middle.
Qed.

Lemma addr_fill s t : addr (fill s t) = step_addr s.
Proof. destruct s; reflexivity. Qed.

Lemma tree_ok_T st c l a k r : tree_ok st (T c l a k r) <-> stored st (a, Node k (addr l) (addr r) c) /\ tree_ok st l /\ tree_ok st r.
Proof. unfold tree_ok. cbn [cells]. rewrite Forall_cons, Forall_app. reflexivity. Qed.

Lemma tree_ok_fill st s t : tree_ok st (fill s t) <-> Forall (stored st) (step_cells s (addr t)) /\ tree_ok st t.
Proof. destruct s; cbn [fill step_cells]; rewrite tree_ok_T, Forall_cons; unfold tree_ok; tauto. Qed.

Lemma tree_addrs_fill s t : tree_addrs (fill s t) ≡ₚ tree_addrs t ++ step_addrs s.
Proof.
  destruct s; cbn [fill]; rewrite tree_addrs_T; unfold step_addrs; cbn [step_addr sibling].
  - apply Permutation_middle.
  - rewrite (Permutation_app_comm (tree_addrs l)). apply Permutation_middle.
Qed.

(** Moving the position up or down. *)
Lemma at_pos_up st s x t : at_pos st (s :: x) t <-> at_pos st x (fill s t).
Proof.
  assert (tree_addrs t ++ ctx_addrs (s :: x) ≡ₚ tree_addrs (fill s t) ++ ctx_addrs x) as Hp.
  { rewrite ctx_addrs_cons, tree_addrs_fill, app_assoc. reflexivity. }
  split; intros [[Hr Hx] Ht Hn]; cbn [ctx_cells root_addr] in *.
  - apply Forall_app in Hx as [Hs Hx]. split; [split; [rewrite addr_fill; assumption|rewrite addr_fill; assumption]|apply tree_ok_fill; auto|rewrite <- Hp; assumption].
  - rewrite addr_fill in *. apply tree_ok_fill in Ht as [Hs Ht]. split; [split; [assumption|apply Forall_app; auto]|assumption|rewrite Hp; assumption].
Qed.

Lemma at_pos_plug st x : forall t, at_pos st x t <-> at_pos st [] (plug x t).
Proof. induction x as [|s x IH]; intros t; [reflexivity|]. rewrite at_pos_up. apply IH. Qed.

Lemma plug_in st x t : at_pos st x t -> at_pos st [] (plug x t).
Proof. apply at_pos_plug. Qed.

Lemma plug_out st x t : at_pos st [] (plug x t) -> at_pos st x t.
Proof. apply at_pos_plug. Qed.

(** ** Slots *)

Lemma ctx_ok_get {R} st x p : ctx_ok st x p -> @get_slot R st (slot_of x) = Next p.
Proof.
  intros [Hr Hx]. destruct x as [|[c a k r|c a k l] x]; cbn [slot_of get_slot root_addr] in *; [rewrite Hr; reflexivity|..];
    unfold get_node; cbn [ctx_cells step_cells app] in Hx; apply Forall_cons in Hx as [[_ Hc] _]; cbn [fst snd] in Hc; rewrite Hc; reflexivity.
Qed.

Lemma ctx_ok_frame st st' x p : ctx_ok st x p -> root st' = root st -> (forall a, a ∈ ctx_addrs x -> nodes st' !! a = nodes st !! a) -> ctx_ok st' x p.
Proof.
  intros [Hr Hx] Er Hs. split; [congruence|]. rewrite <- (ctx_cells_addrs x p) in Hs. apply Forall_forall. intros c Hc.
  destruct (proj1 (Forall_forall _ _) Hx c Hc) as [H0 H1]. split; [assumption|]. rewrite Hs by (apply list_elem_of_fmap; eauto). assumption.
Qed.

Lemma tree_ok_frame st st' t : tree_ok st t -> (forall a, a ∈ tree_addrs t -> nodes st' !! a = nodes st !! a) -> tree_ok st' t.
Proof.
  intros Ht Hs. apply Forall_forall. intros c Hc. destruct (proj1 (Forall_forall _ _) Ht c Hc) as [H0 H1]. split; [assumption|].
  rewrite Hs by (apply list_elem_of_fmap; eauto). assumption.
Qed.

Lemma ctx_ok_set {R} st x p v : ctx_ok st x p -> NoDup (ctx_addrs x) ->
  exists st', @set_slot R st (slot_of x) v = Next st' /\ ctx_ok st' x v /\ forall a, a ∉ ctx_addrs x -> nodes st' !! a = nodes st !! a.
Proof.
  intros [Hr Hx] Hn. destruct x as [|s x]; [exists (TState v (nodes st)); split; [reflexivity|]; split; [split; [reflexivity|constructor]|reflexivity]|].
  cbn [ctx_cells root_addr] in *. apply Forall_app in Hx as [Hs Hx]. rewrite ctx_addrs_cons in Hn. apply NoDup_app in Hn as (Hns & Hd & _).
  unfold step_addrs in Hns. apply NoDup_cons in Hns as [Ha _].
  assert (exists n, nodes st !! step_addr s = Some n /\ step_addr s <> NULL) as (n & Hnode & H0).
  { destruct s; cbn [step_cells] in Hs; apply Forall_cons in Hs as [[H0 H1] _]; eauto. }
  set (n' := match s with L c a k r => Node k v (addr r) c | R c a k l => Node k (addr l) v c end). exists (put_node st (step_addr s) n').
  assert (forall a, a <> step_addr s -> nodes (put_node st (step_addr s) n') !! a = nodes st !! a) as Hother by (intros a Hne; cbn; apply lookup_insert_ne; auto).
  split; [|split].
  - destruct s; cbn [step_cells step_addr slot_of set_slot] in *; apply Forall_cons in Hs as [[_ E] _]; cbn [fst snd] in E; unfold get_node; rewrite E; reflexivity.
  - split; [exact Hr|]. cbn [ctx_cells]. apply Forall_app. split.
    + assert (forall t, t = sibling s -> tree_ok st t -> tree_ok (put_node st (step_addr s) n') t) as Hsib.
      { intros t -> Ht. eapply tree_ok_frame; [exact Ht|]. intros a Hin. apply Hother. intros ->. contradiction. }
      destruct s; cbn [step_cells step_addr sibling] in *; apply Forall_cons in Hs as [_ Hs]; (constructor; [split; [exact H0|apply lookup_insert_eq]|apply Hsib; [reflexivity|exact Hs]]).
    + eapply ctx_ok_frame; [split; [exact Hr|exact Hx]|reflexivity|]. intros a Hin. apply Hother. intros ->. apply (Hd (step_addr s)); [left|assumption].
  - intros a Hin. apply Hother. intros ->. apply Hin. rewrite ctx_addrs_cons. left.
Qed.

(** ** Changing the subtree *)

Lemma at_pos_rebuild st st' x t t' :
  at_pos st x t -> ctx_ok st' x (addr t') -> tree_ok st' t' -> tree_addrs t' ≡ₚ tree_addrs t -> at_pos st' x t'.
Proof. intros [_ _ Hn] Hc Ht Hp. split; [assumption..|]. rewrite Hp. assumption. Qed.

Lemma at_pos_node st x c l a k r : at_pos st x (T c l a k r) -> nodes st !! a = Some (Node k (addr l) (addr r) c) /\ a <> NULL.
Proof. intros [_ Ht _]. apply tree_ok_T in Ht as [[H0 H1] _]. auto. Qed.

Lemma at_pos_slot {R} st x t : at_pos st x t -> @get_slot R st (slot_of x) = Next (addr t).
Proof. intros [Hc _ _]. apply ctx_ok_get. assumption. Qed.

(** Another colour or key for the node at the position. *)
Lemma at_pos_put st x c l a k r c' k' :
  at_pos st x (T c l a k r) -> at_pos (put_node st a (Node k' (addr l) (addr r) c')) x (T c' l a k' r).
Proof.
  intros Hp. pose proof Hp as [Hc Ht Hn]. rewrite tree_addrs_T in Hn. cbn [app] in Hn. apply NoDup_cons in Hn as [Ha _].
  rewrite !elem_of_app in Ha. apply tree_ok_T in Ht as ([H0 _] & Hl & Hr).
  apply (at_pos_rebuild st _ x _ _ Hp).
  - eapply ctx_ok_frame; [exact Hc|reflexivity|]. intros b Hb. apply lookup_insert_ne. intros <-. tauto.
  - apply tree_ok_T. split; [split; [exact H0|apply lookup_insert_eq]|]. split; (eapply tree_ok_frame; [eassumption|]; intros b Hb; apply lookup_insert_ne; intros <-; tauto).
  - rewrite !tree_addrs_T. reflexivity.
Qed.

Lemma at_pos_set_red {R} st x c l a k r v : at_pos st x (T c l a k r) ->
  exists st', @set_red R st a v = Next st' /\ at_pos st' x (T v l a k r).
Proof.
  intros Hp. destruct (at_pos_node _ _ _ _ _ _ _ Hp) as [Hn _]. unfold set_red, get_node. rewrite Hn. eexists. split; [reflexivity|].
  apply at_pos_put with (1 := Hp).
Qed.

Lemma tree_is_red {R} st t : tree_ok st t -> @is_red R st (addr t) = Next (is_red_tree t).
Proof.
  destruct t as [|c l a k r]; [reflexivity|]. intros [[H0 H1] _]%tree_ok_T. cbn [addr is_red_tree fst snd] in *. unfold is_red, get_node.
  rewrite (proj2 (Z.eqb_neq _ _) H0), H1. reflexivity.
Qed.

(** Setting a subtree black, when it is there. *)
Lemma at_pos_blacken {R} st x t : at_pos st x t ->
  exists st', (if addr t =? NULL then Next st else @set_red R st (addr t) false) = Next st' /\ at_pos st' x (blacken t).
Proof.
  intros Hp. destruct t as [|c l a k r]; [exists st; split; [reflexivity|assumption]|]. destruct (at_pos_node _ _ _ _ _ _ _ Hp) as [_ H0].
  cbn [addr]. rewrite (proj2 (Z.eqb_neq _ _) H0). apply at_pos_set_red with (1 := Hp).
Qed.

Lemma at_pos_left st x c l a k r : at_pos st x (T c l a k r) <-> at_pos st (L c a k r :: x) l.
Proof. symmetry. apply (at_pos_up st (L c a k r)). Qed.

Lemma at_pos_right st x c l a k r : at_pos st x (T c l a k r) <-> at_pos st (R c a k l :: x) r.
Proof. symmetry. apply (at_pos_up st (R c a k l)). Qed.

Lemma addr_blacken t : addr (blacken t) = addr t.
Proof. destruct t; reflexivity. Qed.

(** ** The dictionary a tree is

    The nodes with their keys, from left to right: an ordered dictionary of addresses by key. *)
Section Dictionary.
Context (compar : Z -> Z -> Z).

Fixpoint find_entry (k : Z) (es : list (Z * Z)) : option Z :=
  match es with
  | [] => None
  | (a, ka) :: es => if compar k ka =? 0 then Some a else find_entry k es
  end.

Fixpoint insert_entry (e : Z * Z) (es : list (Z * Z)) : list (Z * Z) :=
  match es with
  | [] => [e]
  | e1 :: es => if compar e.2 e1.2 <? 0 then e :: e1 :: es else e1 :: insert_entry e es
  end.

(** The state holds a red-black tree with these entries, and no other nodes. *)
Record rbtree (st : tstate) (es : list (Z * Z)) : Prop := {
  rb_tree : exists t n, at_pos st [] t /\ rbt false n t /\ entries t = es;
  rb_sorted : increasing compar es;
  rb_nodes : forall p, is_Some (nodes st !! p) <-> p ∈ es.*1
}.

Hypothesis ko : key_order compar.

Lemma compar_less k ka : compar ka k < 0 -> 0 < compar k ka.
Proof. apply (ko_opposite _ ko). Qed.

(** The two parts of the entries around a position on the path of [k]. *)
Lemma find_entry_app k es1 es2 : (forall e, e ∈ es1 -> compar e.2 k < 0) -> find_entry k (es1 ++ es2) = find_entry k es2.
Proof.
  induction es1 as [|[a ka] es1 IH]; intros H; [reflexivity|]. cbn [app find_entry]. pose proof (compar_less _ _ (H (a, ka) ltac:(left))) as Hk.
  cbn [snd] in Hk. rewrite (proj2 (Z.eqb_neq _ _)) by lia. apply IH. intros e He. apply H. right. exact He.
Qed.

Lemma find_entry_none k es : (forall e, e ∈ es -> compar k e.2 < 0) -> find_entry k es = None.
Proof.
  induction es as [|[a ka] es IH]; intros H; [reflexivity|]. cbn [find_entry]. pose proof (H (a, ka) ltac:(left)) as Hk. cbn [snd] in Hk.
  rewrite (proj2 (Z.eqb_neq _ _)) by lia. apply IH. intros e He. apply H. right. exact He.
Qed.

Lemma insert_entry_app q k es1 es2 : (forall e, e ∈ es1 -> compar e.2 k < 0) -> (forall e, e ∈ es2 -> compar k e.2 < 0) ->
  insert_entry (q, k) (es1 ++ es2) = es1 ++ (q, k) :: es2.
Proof.
  induction es1 as [|e1 es1 IH]; intros H1 H2.
  - destruct es2 as [|e2 es2]; [reflexivity|]. cbn [app insert_entry snd]. rewrite (proj2 (Z.ltb_lt _ _)); [reflexivity|]. apply H2. left.
  - cbn [app insert_entry snd]. pose proof (compar_less _ _ (H1 e1 ltac:(left))). rewrite (proj2 (Z.ltb_ge _ _)) by lia. f_equal.
    apply IH; [|assumption]. intros e He. apply H1. right. exact He.
Qed.

Lemma increasing_insert q k es1 es2 : increasing compar (es1 ++ es2) -> (forall e, e ∈ es1 -> compar e.2 k < 0) -> (forall e, e ∈ es2 -> compar k e.2 < 0) ->
  increasing compar (es1 ++ (q, k) :: es2).
Proof.
  rewrite !increasing_app, increasing_cons. intros (S1 & S2 & S12) H1 H2. split; [assumption|]. split; [split; assumption|].
  intros e e' He He'. apply elem_of_cons in He' as [->|He']; auto.
Qed.

(** A position on the path of the key that is empty, or at a node with an equal key. *)
Lemma path_missing k x : increasing compar (entries (plug x E)) -> on_path compar k x ->
  find_entry k (entries (plug x E)) = None /\ forall q, insert_entry (q, k) (entries (plug x E)) = entries (plug x (T true E q k E)) /\
    increasing compar (entries (plug x (T true E q k E))).
Proof.
  intros Hi Hp. destruct (on_path_sides compar ko k x _ Hi Hp) as [Hb Ha]. rewrite !entries_plug in *. cbn [entries app] in *.
  split; [rewrite find_entry_app by assumption; apply find_entry_none; assumption|]. intros q. rewrite !entries_plug. cbn [entries app].
  auto using insert_entry_app, increasing_insert.
Qed.

Lemma path_found k x c l a ka r : increasing compar (entries (plug x (T c l a ka r))) -> on_path compar k x -> compar k ka = 0 ->
  find_entry k (entries (plug x (T c l a ka r))) = Some a.
Proof.
  intros Hi Hp H0. destruct (on_path_sides compar ko k x _ Hi Hp) as [Hb Ha]. rewrite !entries_plug in *. cbn [entries app] in *.
  rewrite <- !app_assoc in *. cbn [app] in *. rewrite !find_entry_app; [cbn [find_entry]; rewrite H0; reflexivity| |assumption].
  intros e He. apply increasing_app in Hi as (_ & Hi & _). apply increasing_app in Hi as (_ & _ & Hi). specialize (Hi e (a, ka) He ltac:(left)). cbn [snd] in Hi.
  pose proof (ko_opposite _ ko k ka). pose proof (ko_opposite _ ko ka k). pose proof (ko_opposite _ ko e.2 k). pose proof (ko_opposite _ ko k e.2).
  pose proof (ko_opposite _ ko ka e.2). pose proof (ko_opposite _ ko e.2 ka). pose proof (ko_trans _ ko k e.2 ka). pose proof (ko_trans _ ko ka k e.2). lia.
Qed.
End Dictionary.
