(* ===== verification/Tinsert.v ===== *)
(** tsearch (misc/tsearch.c): the tree stays a red-black tree, whatever the way down. *)
From S2P Require Import Prelude Rbtree Tsearch TreeHeap.

(** ** Rotations *)

(** The subtree with the red node [t] below the red node of [s1] below that of [s2], rebuilt. *)
Definition rotated (s1 s2 : step) (t : tree) : tree :=
  match t with
  | E => E
  | T _ xl ax kx xr =>
      match s1, s2 with
      | L _ ap kp pr, L _ ag kg gr => T false (T true xl ax kx xr) ap kp (T true pr ag kg gr)
      | R _ ap kp pl, R _ ag kg gl => T false (T true gl ag kg pl) ap kp (T true xl ax kx xr)
      | L _ ap kp pr, R _ ag kg gl => T false (T true gl ag kg xl) ax kx (T true xr ap kp pr)
      | R _ ap kp pl, L _ ag kg gr => T false (T true pl ap kp xl) ax kx (T true xr ag kg gr)
      end
  end.

Definition side (s : step) (r : Z) : Prop := match s with L _ _ _ _ => r < 0 | R _ _ _ _ => 0 < r end.

Lemma entries_rotated s1 s2 c l a k r : entries (rotated s1 s2 (T c l a k r)) = entries (fill s2 (fill s1 (T c l a k r))).
Proof. destruct s1, s2; cbn [rotated fill entries]; rewrite <- ?app_assoc; cbn [app]; rewrite <- ?app_assoc; reflexivity. Qed.

Lemma tree_addrs_rotated s1 s2 c l a k r : tree_addrs (rotated s1 s2 (T c l a k r)) ≡ₚ tree_addrs (fill s2 (fill s1 (T c l a k r))).
Proof. rewrite !tree_addrs_entries, entries_rotated. reflexivity. Qed.

Ltac heap_eval :=
  repeat (progress (cbn [flow_bind nodes root key left right red put_node]) ||
          rewrite lookup_insert_eq || (rewrite lookup_insert_ne by (assumption || (apply not_eq_sym; assumption))) ||
          match goal with H : nodes ?st !! ?p = Some _ |- context [nodes ?st !! ?p] => rewrite H end).

(** Three nodes, the subtrees below them and the context do not meet. *)
Lemma nodup_three (ag ap ax : Z) (O X : list Z) : NoDup (ag :: ap :: ax :: O ++ X) ->
  ag <> ap /\ ag <> ax /\ ap <> ax /\ NoDup X /\ (forall b, b ∈ O -> b <> ag /\ b <> ap /\ b <> ax /\ b ∉ X) /\
  (forall b, b ∈ X -> b <> ag /\ b <> ap /\ b <> ax).
Proof.
  rewrite !NoDup_cons, NoDup_app, !elem_of_cons, !elem_of_app. intros (Hg & Hp & Hx & _ & Hd & HX).
  repeat split; try tauto; try (intros ->; tauto). apply Hd; assumption.
Qed.

(** A subtree away from three changed nodes. *)
Lemma tree_ok_three st st' t (O X : list Z) ag ap ax :
  tree_ok st t -> (forall b, b ∈ tree_addrs t -> b ∈ O) -> (forall b, b ∈ O -> b <> ag /\ b <> ap /\ b <> ax /\ b ∉ X) ->
  (forall b, b <> ag -> b <> ap -> b <> ax -> b ∉ X -> nodes st' !! b = nodes st !! b) -> tree_ok st' t.
Proof. intros Ht Hin HO Hs. eapply tree_ok_frame; [exact Ht|]. intros b Hb. destruct (HO b (Hin b Hb)) as (? & ? & ? & ?). auto. Qed.

Ltac three_others := let b := fresh in intros b ? ? ? ?; cbn [nodes put_node]; rewrite ?lookup_insert_ne by auto; auto.

Ltac ctx_same := eapply ctx_ok_frame; [eassumption|reflexivity|]; let b := fresh in let Hb := fresh in intros b Hb;
  match goal with HXO : forall b, b ∈ ctx_addrs _ -> _ |- _ => destruct (HXO b Hb) as (? & ? & ?) end; cbn [nodes put_node]; rewrite !lookup_insert_ne by auto; reflexivity.

Ltac trees_same := cbn [rotated]; rewrite ?tree_ok_T; unfold stored; cbn [fst snd addr]; heap_eval; repeat split; try assumption; try reflexivity;
  match goal with HO : forall b, b ∈ _ -> _ /\ _ /\ _ /\ _, Hin : forall b, _ -> b ∈ _ |- _ =>
    eapply tree_ok_three; [eassumption|intros; apply Hin; tauto|exact HO|] end;
  let b := fresh in intros b ? ? ? ?;
  repeat (match goal with Hsame : forall a, a ∉ _ -> nodes ?st !! a = _ |- context [nodes ?st !! _] => rewrite Hsame by assumption end || (cbn [nodes put_node]; rewrite lookup_insert_ne by auto));
  reflexivity.

Ltac single_rotation :=
  match goal with Hc : ctx_ok ?st ?x ?ag, HX : NoDup (ctx_addrs ?x) |- context [@set_slot ?R ?st (slot_of ?x) ?ap] =>
    let st1 := fresh "st1" in let Hc1 := fresh in let Hsame := fresh "Hsame" in
    destruct (ctx_ok_set (R := R) st x ag ap Hc HX) as (st1 & -> & Hc1 & Hsame); clear Hc end;
  cbn [flow_bind get_slot set_slot]; repeat match goal with Hsame : forall a, _ -> nodes ?st1 !! a = nodes ?st !! a, H : nodes ?st !! _ = Some _ |- _ => rewrite <- Hsame in H by auto end;
  unfold get_node; heap_eval; eexists; split; [reflexivity|];
  match goal with Hp2 : at_pos _ ?x (T _ (T _ (T _ _ _ _ _) _ _ _) _ _ _) |- _ => apply (at_pos_rebuild _ _ x _ _ Hp2)
                | Hp2 : at_pos _ ?x (T _ _ _ _ (T _ _ _ _ (T _ _ _ _ _))) |- _ => apply (at_pos_rebuild _ _ x _ _ Hp2) end;
  [ctx_same|trees_same|apply tree_addrs_rotated].

Ltac double_rotation :=
  cbn [flow_bind get_slot set_slot]; unfold get_node; heap_eval;
  match goal with Hc : ctx_ok ?st ?x ?ag, HX : NoDup (ctx_addrs ?x) |- context [@set_slot ?R ?st1 (slot_of ?x) ?ax] =>
    let Hc1 := fresh in assert (ctx_ok st1 x ag) as Hc1 by ctx_same; clear Hc;
    let st2 := fresh "st2" in let Hc2 := fresh in let Hsame := fresh "Hsame" in
    destruct (ctx_ok_set (R := R) st1 x ag ax Hc1 HX) as (st2 & -> & Hc2 & Hsame) end;
  eexists; split; [reflexivity|];
  match goal with Hp2 : at_pos _ ?x (T _ (T _ _ _ _ (T _ _ _ _ _)) _ _ _) |- _ => apply (at_pos_rebuild _ _ x _ _ Hp2)
                | Hp2 : at_pos _ ?x (T _ _ _ _ (T _ (T _ _ _ _ _) _ _ _)) |- _ => apply (at_pos_rebuild _ _ x _ _ Hp2) end;
  [assumption| |apply tree_addrs_rotated];
  cbn [rotated]; rewrite !tree_ok_T; unfold stored; cbn [fst snd addr];
  repeat match goal with Hsame : forall a, a ∉ _ -> nodes ?st2 !! a = _ |- context [nodes ?st2 !! ?p] => rewrite (Hsame p) by auto end; trees_same.

Lemma rotate_spec {R} st s1 s2 x xl ax kx xr p_r gp_r :
  at_pos st (s1 :: s2 :: x) (T true xl ax kx xr) -> side s1 p_r -> side s2 gp_r ->
  exists st', @rotate_for_insert R st ax (slot_of (s2 :: x)) (slot_of x) p_r gp_r = Next st' /\ at_pos st' x (rotated s1 s2 (T true xl ax kx xr)).
Proof.
  intros Hp Hs1 Hs2. pose proof (proj1 (at_pos_up _ _ _ _) Hp) as Hp1. pose proof (proj1 (at_pos_up _ _ _ _) Hp1) as Hp2.
  pose proof (at_pos_slot (R := R) _ _ _ Hp1) as G1. pose proof (at_pos_slot (R := R) _ _ _ Hp2) as G2. rewrite addr_fill in G1, G2.
  unfold rotate_for_insert. rewrite G2. cbn [flow_bind]. rewrite G1. cbn [flow_bind]. clear G1 G2.
  pose proof Hp2 as [Hc Ht Hn]. rewrite addr_fill in Hc.
  set (O := tree_addrs xl ++ tree_addrs xr ++ tree_addrs (sibling s1) ++ tree_addrs (sibling s2)).
  assert (NoDup (step_addr s2 :: step_addr s1 :: ax :: O ++ ctx_addrs x)) as Hn'.
  { eapply NoDup_Permutation_proper; [|exact Hn]. rewrite !tree_addrs_fill, tree_addrs_T. unfold step_addrs. subst O. solve_Permutation. }
  clear Hn. apply nodup_three in Hn' as (D1 & D2 & D3 & HX & HO & HXO).
  assert (forall b, b ∈ tree_addrs xl \/ b ∈ tree_addrs xr \/ b ∈ tree_addrs (sibling s1) \/ b ∈ tree_addrs (sibling s2) -> b ∈ O) as Hin by (intros b; subst O; rewrite !elem_of_app; tauto).
  clearbody O. apply tree_ok_fill in Ht as [Tg Ht]. apply tree_ok_fill in Ht as [Tp Ht]. apply tree_ok_T in Ht as ([Nx0 Nx] & Tl & Tr).
  rewrite addr_fill in Tg. cbn [addr fst snd] in *.
  assert ((0 <? p_r) = match s1 with L _ _ _ _ => false | R _ _ _ _ => true end) as -> by (destruct s1; cbn [side] in Hs1; [apply Z.ltb_ge|apply Z.ltb_lt]; lia).
  assert ((0 <? gp_r) = match s2 with L _ _ _ _ => false | R _ _ _ _ => true end) as -> by (destruct s2; cbn [side] in Hs2; [apply Z.ltb_ge|apply Z.ltb_lt]; lia).
  assert ((p_r <? 0) = match s1 with L _ _ _ _ => true | R _ _ _ _ => false end) as -> by (destruct s1; cbn [side] in Hs1; [apply Z.ltb_lt|apply Z.ltb_ge]; lia).
  clear Hs1 Hs2.
  assert (forall b, b = step_addr s2 \/ b = step_addr s1 \/ b = ax -> b ∉ ctx_addrs x) as Hout by (intros b Hb Hbx; destruct (HXO b Hbx) as (? & ? & ?); intuition).
  destruct s1 as [c1 ap kp pr|c1 ap kp pl], s2 as [c2 ag kg gr|c2 ag kg gl]; cbn [fill step_addr sibling step_cells Bool.eqb negb addr] in *;
    apply Forall_cons in Tg as [[Ng0 Ng] Tg], Tp as [[Np0 Np] Tp]; cbn [fst snd] in *; unfold set_red, get_node.
  - single_rotation.
  - double_rotation.
  - double_rotation.
  - single_rotation.
Qed.

Lemma rotated_rbt n s1 s2 x xl a k xr :
  rbc n (s1 :: s2 :: x) -> step_red s1 = true -> is_red_tree (sibling s2) = false -> rbt true n xl -> rbt true n xr ->
  rbc (S n) x /\ forall pc, rbt pc (S n) (rotated s1 s2 (T true xl a k xr)).
Proof.
  cbn [rbc]. intros (H1 & Hx) E1 Hb Hl Hr. rewrite E1 in *. destruct Hx as (E2 & H2 & Hx). cbn [above_red] in E2. rewrite E2 in *.
  split; [exact Hx|]. intros pc. apply (rbt_black true) in H2; [|assumption]. destruct s1, s2; cbn [rotated sibling] in *; cbn [rbt]; auto 10.
Qed.

(** ** Splitting *)

Definition parent_slot (x : ctx) : option slot := match x with [] => None | _ :: x => Some (slot_of x) end.

(** The node becomes red, its children black. *)
Lemma recolor_spec {R} st x c l a k r :
  at_pos st x (T c l a k r) ->
  exists st', at_pos st' x (T true (blacken l) a k (blacken r)) /\ forall U (cont : tstate -> flow R U),
    (let! st := set_red st a true in
     let! st := if addr r =? NULL then Next st else set_red st (addr r) false in
     let! st := if addr l =? NULL then Next st else set_red st (addr l) false in cont st) = cont st'.
Proof.
  intros Hp. destruct (at_pos_set_red (R := R) _ _ _ _ _ _ _ true Hp) as (st1 & -> & Hp1). cbn [flow_bind].
  apply at_pos_right in Hp1. destruct (at_pos_blacken (R := R) _ _ _ Hp1) as (st2 & -> & Hp2). cbn [flow_bind].
  apply at_pos_right, at_pos_left in Hp2. destruct (at_pos_blacken (R := R) _ _ _ Hp2) as (st3 & -> & Hp3). cbn [flow_bind].
  apply at_pos_left in Hp3. exists st3. auto.
Qed.

(** What is read first. *)
Lemma maybe_split_reads {R} st x c l a k r parentp gparentp p_r gp_r mode :
  at_pos st x (T c l a k r) ->
  @maybe_split_for_insert R st (slot_of x) parentp gparentp p_r gp_r mode =
  if (mode =? 1) || (is_red_tree r && is_red_tree l) then
    let! st := set_red st a true in
    let! st := if addr r =? NULL then Next st else set_red st (addr r) false in
    let! st := if addr l =? NULL then Next st else set_red st (addr l) false in
    match parentp with
    | None => Next st
    | Some parentp =>
        let! p := get_slot st parentp in
        let! n := get_node st p in
        if red n then
          match gparentp with
          | Some gparentp => rotate_for_insert st a parentp gparentp p_r gp_r
          | None => Fault
          end
        else Next st
    end
  else Next st.
Proof.
  intros Hp. pose proof Hp as [_ Ht _]. apply tree_ok_T in Ht as (_ & Hl & Hr). destruct (at_pos_node _ _ _ _ _ _ _ Hp) as [Hn _].
  unfold maybe_split_for_insert. rewrite (at_pos_slot _ _ _ Hp). cbn [flow_bind addr get_slot]. unfold get_node at 1 2. rewrite Hn. cbn [flow_bind left right].
  rewrite (tree_is_red _ _ Hr), (tree_is_red _ _ Hl). reflexivity.
Qed.

Lemma split_below_black {R} st x c l a k r gparentp p_r gp_r mode :
  at_pos st x (T c l a k r) -> above_red x = false -> (mode =? 1) || (is_red_tree r && is_red_tree l) = true ->
  exists st', @maybe_split_for_insert R st (slot_of x) (parent_slot x) gparentp p_r gp_r mode = Next st' /\
    at_pos st' x (T true (blacken l) a k (blacken r)).
Proof.
  intros Hp Hb Hm. rewrite (maybe_split_reads _ _ _ _ _ _ _ _ _ _ _ _ Hp), Hm.
  destruct (recolor_spec (R := R) st x c l a k r Hp) as (st1 & Hp1 & Hcont). rewrite Hcont. clear Hcont. exists st1. split; [|exact Hp1].
  destruct x as [|s x]; cbn [parent_slot]; [reflexivity|]. apply at_pos_up in Hp1. rewrite (at_pos_slot _ _ _ Hp1), addr_fill. cbn [flow_bind].
  cbn [above_red] in Hb. destruct s; cbn [fill step_red step_addr] in *; destruct (at_pos_node _ _ _ _ _ _ _ Hp1) as [Hn _]; unfold get_node; rewrite Hn; cbn [flow_bind red]; rewrite Hb; reflexivity.
Qed.

Lemma split_below_red {R} st s1 s2 x c l a k r p_r gp_r mode :
  at_pos st (s1 :: s2 :: x) (T c l a k r) -> step_red s1 = true -> side s1 p_r -> side s2 gp_r ->
  (mode =? 1) || (is_red_tree r && is_red_tree l) = true ->
  exists st', @maybe_split_for_insert R st (slot_of (s1 :: s2 :: x)) (parent_slot (s1 :: s2 :: x)) (Some (slot_of x)) p_r gp_r mode = Next st' /\
    at_pos st' x (rotated s1 s2 (T true (blacken l) a k (blacken r))).
Proof.
  intros Hp Hb Hs1 Hs2 Hm. rewrite (maybe_split_reads _ _ _ _ _ _ _ _ _ _ _ _ Hp), Hm.
  destruct (recolor_spec (R := R) st (s1 :: s2 :: x) c l a k r Hp) as (st1 & Hp1 & Hcont). rewrite Hcont. clear Hcont. cbn [parent_slot].
  pose proof (proj1 (at_pos_up _ _ _ _) Hp1) as Hp2. rewrite (at_pos_slot _ _ _ Hp2), addr_fill. cbn [flow_bind].
  assert (exists n, nodes st1 !! step_addr s1 = Some n /\ red n = true) as (n & Hn & Hred).
  { destruct s1; cbn [fill step_red step_addr] in *; destruct (at_pos_node _ _ _ _ _ _ _ Hp2) as [Hn _]; rewrite Hn; eauto. }
  unfold get_node. rewrite Hn. cbn [flow_bind]. rewrite Hred. apply rotate_spec; assumption.
Qed.

(** ** The way down *)

Section Down.
Context (compar : Z -> Z -> Z) (k : Z).

(** A position on the way of the search in a red-black tree. *)
Record reached (st : tstate) (x : ctx) (t : tree) (n : nat) : Prop := {
  rc_pos : at_pos st x t;
  rc_ctx : rbc n x;
  rc_tree : rbt (above_red x) n t;
  rc_path : on_path compar k x
}.

(** The two pointers above are right, as far as they can be used: a red node above is no problem when
    the node above that has no other red child. *)
Record regular (x : ctx) (t : tree) (parentp gparentp : option slot) (p_r gp_r : Z) : Prop := {
  rg_parent : parentp = parent_slot x;
  rg_side : match x with [] => True | s :: _ => side s p_r end;
  rg_red : above_red x = true -> match x with
    | s1 :: s2 :: x => gparentp = Some (slot_of x) /\ side s2 gp_r /\ is_red_tree (sibling s2) = false
    | _ => False
    end;
  rg_single : is_red_tree t = true -> match x with [] => False | s :: _ => is_red_tree (sibling s) = false end
}.

(** A node that is neither split nor the cause of a rotation. *)
Definition quiet (t : tree) : Prop :=
  match t with E => False | T c l _ _ r => c = false /\ is_red_tree l && is_red_tree r = false end.

Lemma blacken_quiet n t : is_red_tree t = true -> rbt false n t -> quiet (blacken t).
Proof.
  destruct t as [|[] l a ka r]; try discriminate. intros _ (_ & Hl & _)%rbt_red. cbn [blacken quiet]. split; [reflexivity|].
  rewrite (rbt_above_red _ _ Hl). reflexivity.
Qed.

(** The child the search goes to from a node it passes. *)
Record next_child (st : tstate) (x : ctx) (c : bool) (l : tree) (a ka : Z) (r : tree) (s : step) (t : tree) (n : nat) : Prop := {
  nc_reached : reached st (s :: x) t n;
  nc_slot : slot_of (s :: x) = if compar k ka <? 0 then LeftOf a else RightOf a;
  nc_addr : addr t = if compar k ka <? 0 then addr l else addr r;
  nc_fill : fill s t = T c l a ka r;
  nc_red : step_red s = c;
  nc_side : side s (compar k ka);
  nc_cases : t = l /\ sibling s = r \/ t = r /\ sibling s = l
}.

#[local] Arguments nc_reached {st x c l a ka r s t n}.
#[local] Arguments nc_slot {st x c l a ka r s t n}.
#[local] Arguments nc_addr {st x c l a ka r s t n}.
#[local] Arguments nc_fill {st x c l a ka r s t n}.
#[local] Arguments nc_red {st x c l a ka r s t n}.
#[local] Arguments nc_side {st x c l a ka r s t n}.
#[local] Arguments nc_cases {st x c l a ka r s t n}.
#[local] Arguments rc_pos {st x t n}.

Lemma reached_left st x c l a ka r n : reached st x (T c l a ka r) n -> compar k ka < 0 -> exists n', reached st (L c a ka r :: x) l n'.
Proof.
  intros [Hp Hc Ht Hpa] Hk. destruct (rbc_down _ _ _ _ _ _ _ Hc Ht) as (n' & [H1 H2] & _). exists n'. split; auto.
  - apply at_pos_left. assumption.
  - constructor; assumption.
Qed.

Lemma reached_right st x c l a ka r n : reached st x (T c l a ka r) n -> 0 < compar k ka -> exists n', reached st (R c a ka l :: x) r n'.
Proof.
  intros [Hp Hc Ht Hpa] Hk. destruct (rbc_down _ _ _ _ _ _ _ Hc Ht) as (n' & _ & [H1 H2]). exists n'. split; auto.
  - apply at_pos_right. assumption.
  - constructor; assumption.
Qed.

Lemma reached_child st x c l a ka r n : reached st x (T c l a ka r) n -> compar k ka <> 0 ->
  exists s t n', next_child st x c l a ka r s t n'.
Proof.
  intros Hre Hk. destruct (Z.ltb_spec (compar k ka) 0) as [H|H].
  - destruct (reached_left _ _ _ _ _ _ _ _ Hre H) as (n' & Hl). exists (L c a ka r), l, n'.
    split; rewrite ?(proj2 (Z.ltb_lt _ _) H); cbn [slot_of step_red sibling side fill]; auto.
  - assert (0 < compar k ka) as H' by lia. destruct (reached_right _ _ _ _ _ _ _ _ Hre H') as (n' & Hr). exists (R c a ka l), r, n'.
    split; rewrite ?(proj2 (Z.ltb_ge _ _) H); cbn [slot_of step_red sibling side fill]; auto.
Qed.

(** One round of the loop at a node that is not split. *)
Lemma loop_pass {Res} fuel st x c l a ka r parentp gparentp p_r gp_r :
  at_pos st x (T c l a ka r) -> is_red_tree r && is_red_tree l = false -> compar k ka <> 0 ->
  @tsearch_loop compar Res (S fuel) st k (slot_of x) parentp gparentp p_r gp_r =
  let nextp := if compar k ka <? 0 then LeftOf a else RightOf a in
  if (if compar k ka <? 0 then addr l else addr r) =? NULL then Next (Missing (slot_of x) parentp nextp (compar k ka) p_r, st)
  else tsearch_loop compar fuel st k nextp (Some (slot_of x)) parentp (compar k ka) p_r.
Proof.
  intros Hp Hq Hk. destruct (at_pos_node _ _ _ _ _ _ _ Hp) as [Hn _]. cbn [tsearch_loop]. rewrite (at_pos_slot _ _ _ Hp). cbn [flow_bind addr].
  unfold get_node at 1. rewrite Hn. cbn [flow_bind key]. rewrite (proj2 (Z.eqb_neq _ _) Hk).
  rewrite (maybe_split_reads _ _ _ _ _ _ _ _ _ _ _ _ Hp), Hq. cbn [Z.eqb orb flow_bind].
  destruct (compar k ka <? 0); cbn [get_slot]; unfold get_node; rewrite Hn; reflexivity.
Qed.

(** One round at a node that is split. *)
Lemma loop_split {Res} fuel st st1 x c l a ka r parentp gparentp p_r gp_r nx :
  at_pos st x (T c l a ka r) -> compar k ka <> 0 ->
  @maybe_split_for_insert Res st (slot_of x) parentp gparentp p_r gp_r 0 = Next st1 ->
  let nextp := if compar k ka <? 0 then LeftOf a else RightOf a in
  @get_slot Res st1 nextp = Next nx -> nx <> NULL ->
  @tsearch_loop compar Res (S fuel) st k (slot_of x) parentp gparentp p_r gp_r =
  tsearch_loop compar fuel st1 k nextp (Some (slot_of x)) parentp (compar k ka) p_r.
Proof.
  intros Hp Hk Hs nextp Hg Hnx. destruct (at_pos_node _ _ _ _ _ _ _ Hp) as [Hn _]. cbn [tsearch_loop]. rewrite (at_pos_slot _ _ _ Hp). cbn [flow_bind addr].
  unfold get_node at 1. rewrite Hn. cbn [flow_bind key]. rewrite (proj2 (Z.eqb_neq _ _) Hk), Hs. cbn [flow_bind]. fold nextp. rewrite Hg. cbn [flow_bind].
  rewrite (proj2 (Z.eqb_neq _ _) Hnx). reflexivity.
Qed.

Lemma red_addr st x t : at_pos st x t -> t <> E -> addr t <> NULL.
Proof. destruct t as [|c l a ka r]; [congruence|]. intros H _. apply (at_pos_node _ _ _ _ _ _ _ H). Qed.

Lemma red_not_empty t : is_red_tree t = true -> blacken t <> E.
Proof. destruct t; discriminate. Qed.

Lemma height_blacken t : height (blacken t) = height t.
Proof. destruct t; reflexivity. Qed.

(** After a split the search continues, one or two rounds later, at the child, now black. *)
Definition resumes (Res : Type) (st : tstate) (x : ctx) (t : tree) (parentp gparentp : option slot) (p_r gp_r : Z) : Prop :=
  exists d st' x' t' n' parentp' gparentp' p_r' gp_r', (d <= 1)%nat /\
    (forall fuel, @tsearch_loop compar Res (S (d + fuel)) st k (slot_of x) parentp gparentp p_r gp_r =
       tsearch_loop compar fuel st' k (slot_of x') parentp' gparentp' p_r' gp_r') /\
    reached st' x' t' n' /\ quiet t' /\ (height t' < height t)%nat /\ entries (plug x' t') = entries (plug x t).

(** What [maybe_split_for_insert] leaves at the node: its children, black. *)
Lemma split_resumes {Res} st st1 x x1 l a ka r n n1 parentp gparentp p_r gp_r :
  at_pos st x (T false l a ka r) -> rbt false n l -> rbt false n r -> is_red_tree l = true -> is_red_tree r = true -> compar k ka <> 0 ->
  @maybe_split_for_insert Res st (slot_of x) parentp gparentp p_r gp_r 0 = Next st1 ->
  reached st1 x1 (T true (blacken l) a ka (blacken r)) n1 ->
  entries (plug x1 (T true (blacken l) a ka (blacken r))) = entries (plug x (T false l a ka r)) ->
  resumes Res st x (T false l a ka r) parentp gparentp p_r gp_r.
Proof.
  intros Hp Tl Tr Hl Hr Hk Hs Hre He. destruct (reached_child _ _ _ _ _ _ _ _ Hre Hk) as (s & t & n' & Hch). pose proof (nc_reached Hch) as Hr'.
  exists 0%nat, st1, (s :: x1), t, n', (Some (slot_of x)), parentp, (compar k ka), p_r.
  assert (exists u, t = blacken u /\ is_red_tree u = true /\ rbt false n u /\ (height u < height (T false l a ka r))%nat) as (u & -> & Hu & Tu & Hh).
  { cbn [height]. destruct (nc_cases Hch) as [[-> _]|[-> _]]; eexists; repeat split; try eassumption; lia. }
  split; [lia|]. split; [|split; [exact Hr'|split; [eauto using blacken_quiet|split; [rewrite height_blacken; exact Hh|]]]].
  - intros fuel. rewrite (nc_slot Hch). cbn [plus]. eapply loop_split; [exact Hp|exact Hk|exact Hs|..].
    + rewrite <- (nc_slot Hch). apply at_pos_slot, (rc_pos Hr').
    + apply (red_addr _ _ _ (rc_pos Hr')), red_not_empty, Hu.
  - cbn [plug]. rewrite (nc_fill Hch). exact He.
Qed.

(** After a double rotation the children are one step further down. *)
Lemma double_resumes {Res} st st1 x x2 l a ka r n n2 A a1 k1 a2 k2 B parentp gparentp p_r gp_r :
  at_pos st x (T false l a ka r) -> rbt false n l -> rbt false n r -> is_red_tree l = true -> is_red_tree r = true -> compar k ka <> 0 ->
  @maybe_split_for_insert Res st (slot_of x) parentp gparentp p_r gp_r 0 = Next st1 ->
  reached st1 x2 (T false (T true A a1 k1 (blacken l)) a ka (T true (blacken r) a2 k2 B)) n2 -> 0 < compar k k1 -> compar k k2 < 0 ->
  entries (plug x2 (T false (T true A a1 k1 (blacken l)) a ka (T true (blacken r) a2 k2 B))) = entries (plug x (T false l a ka r)) ->
  resumes Res st x (T false l a ka r) parentp gparentp p_r gp_r.
Proof.
  intros Hp Tl Tr Hl Hr Hk Hs Hre H1 H2 He. exists 1%nat, st1.
  assert (forall t, is_red_tree (blacken t) = false) as Hbl by (intros []; reflexivity).
  destruct (Z.ltb_spec (compar k ka) 0) as [H|H].
  - destruct (reached_left _ _ _ _ _ _ _ _ Hre H) as (m1 & R1). destruct (reached_right _ _ _ _ _ _ _ _ R1 H1) as (m2 & R2).
    eexists (_ :: _), (blacken l), m2, (Some (LeftOf a)), (Some (slot_of x)), (compar k k1), (compar k ka).
    split; [lia|]. split; [|split; [exact R2|split; [eauto using blacken_quiet|split; [rewrite height_blacken; cbn [height]; lia|exact He]]]].
    intros fuel. change (S (1 + fuel)) with (S (S fuel)). erewrite loop_split; [|exact Hp|exact Hk|exact Hs|..]; rewrite ?(proj2 (Z.ltb_lt _ _) H).
    + pose proof (loop_pass (Res := Res) fuel _ _ _ _ _ _ _ (Some (slot_of x)) parentp (compar k ka) p_r (rc_pos R1)) as E1. cbn [slot_of] in E1.
      rewrite E1 by (rewrite ?Hbl; lia || reflexivity). rewrite (proj2 (Z.ltb_ge (compar k k1) 0)) by lia.
      rewrite (proj2 (Z.eqb_neq _ _) (red_addr _ _ _ (rc_pos R2) (red_not_empty _ Hl))). reflexivity.
    + apply (at_pos_slot _ _ _ (rc_pos R1)).
    + apply (red_addr _ _ _ (rc_pos R1)). discriminate.
  - destruct (reached_right _ _ _ _ _ _ _ _ Hre ltac:(lia)) as (m1 & R1). destruct (reached_left _ _ _ _ _ _ _ _ R1 H2) as (m2 & R2).
    eexists (_ :: _), (blacken r), m2, (Some (RightOf a)), (Some (slot_of x)), (compar k k2), (compar k ka).
    split; [lia|]. split; [|split; [exact R2|split; [eauto using blacken_quiet|split; [rewrite height_blacken; cbn [height]; lia|exact He]]]].
    intros fuel. change (S (1 + fuel)) with (S (S fuel)). erewrite loop_split; [|exact Hp|exact Hk|exact Hs|..]; rewrite ?(proj2 (Z.ltb_ge _ _) H).
    + pose proof (loop_pass (Res := Res) fuel _ _ _ _ _ _ _ (Some (slot_of x)) parentp (compar k ka) p_r (rc_pos R1)) as E1. cbn [slot_of] in E1.
      rewrite E1 by (rewrite ?Hbl, ?Bool.andb_false_r; lia || reflexivity). rewrite (proj2 (Z.ltb_lt (compar k k2) 0)) by lia.
      rewrite (proj2 (Z.eqb_neq _ _) (red_addr _ _ _ (rc_pos R2) (red_not_empty _ Hr))). reflexivity.
    + apply (at_pos_slot _ _ _ (rc_pos R1)).
    + apply (red_addr _ _ _ (rc_pos R1)). discriminate.
Qed.

(** A node with two red children is split. *)
Lemma split_case {Res} st x l a ka r n parentp gparentp p_r gp_r :
  reached st x (T false l a ka r) n -> regular x (T false l a ka r) parentp gparentp p_r gp_r ->
  is_red_tree l = true -> is_red_tree r = true -> compar k ka <> 0 ->
  resumes Res st x (T false l a ka r) parentp gparentp p_r gp_r.
Proof.
  intros [Hp Hc Ht Hpa] [-> Hside Hred _] Hl Hr Hk. destruct n as [|n]; [contradiction|]. destruct Ht as [Tl Tr].
  destruct (above_red x) eqn:Hb.
  - specialize (Hred eq_refl). destruct x as [|s1 [|s2 x]]; [contradiction..|]. destruct Hred as (-> & Hs2 & Hsib). cbn [above_red] in Hb.
    destruct (split_below_red (R := Res) st s1 s2 x false l a ka r p_r gp_r 0 Hp Hb Hside Hs2) as (st1 & Hs & Hp1); [rewrite Hl, Hr; reflexivity|].
    assert (forall pc, rbt pc (S n) (blacken l) /\ rbt pc (S n) (blacken r)) as Tb by auto using rbt_blacken.
    destruct (rotated_rbt (S n) s1 s2 x (blacken l) a ka (blacken r) Hc Hb Hsib (proj1 (Tb true)) (proj2 (Tb true))) as [Hc2 Ht2].
    assert (reached st1 x (rotated s1 s2 (T true (blacken l) a ka (blacken r))) (S (S n))) as Hre.
    { split; auto. apply Forall_cons in Hpa as [_ Hpa]. apply Forall_cons in Hpa as [_ Hpa]. exact Hpa. }
    assert (entries (plug x (rotated s1 s2 (T true (blacken l) a ka (blacken r)))) = entries (plug (s1 :: s2 :: x) (T false l a ka r))) as He.
    { cbn [plug]. rewrite !(entries_plug x), entries_rotated. destruct s1, s2; cbn [fill entries]; rewrite !entries_blacken; reflexivity. }
    apply Forall_cons in Hpa as [Hk1 Hpa]. apply Forall_cons in Hpa as [Hk2 _].
    destruct s1 as [c1 ap kp pr|c1 ap kp pl], s2 as [c2 ag kg gr|c2 ag kg gl]; cbn [rotated] in *.
    + destruct (reached_left _ _ _ _ _ _ _ _ Hre Hk1) as (m & R1). eapply split_resumes; eassumption.
    + eapply double_resumes; eassumption.
    + eapply double_resumes; eassumption.
    + destruct (reached_right _ _ _ _ _ _ _ _ Hre Hk1) as (m & R1). eapply split_resumes; eassumption.
  - destruct (split_below_black (R := Res) st x false l a ka r gparentp p_r gp_r 0 Hp Hb) as (st1 & Hs & Hp1); [rewrite Hl, Hr; reflexivity|].
    apply (split_resumes st st1 x x l a ka r n (S n)); try assumption.
    + split; auto. rewrite Hb. apply rbt_red. auto using rbt_blacken.
    + rewrite !entries_plug. cbn [entries]. rewrite !entries_blacken. reflexivity.
Qed.
(** Passing a node, the pointers above the child are right. *)
Lemma regular_child st x c l a ka r n s t n' parentp gparentp p_r gp_r :
  reached st x (T c l a ka r) n -> next_child st x c l a ka r s t n' -> is_red_tree r && is_red_tree l = false ->
  regular x (T c l a ka r) parentp gparentp p_r gp_r \/ c = false ->
  regular (s :: x) t (Some (slot_of x)) parentp (compar k ka) p_r.
Proof.
  intros Hre Hch Hq Hor. split; [reflexivity|exact (nc_side Hch)|..].
  - cbn [above_red]. rewrite (nc_red Hch). intros ->. destruct Hor as [[Hpa Hsi _ Hsg]|]; [|discriminate].
    specialize (Hsg eq_refl). destruct x as [|s2 x]; [contradiction|]. auto.
  - intros Ht. destruct (nc_cases Hch) as [[-> ->]|[-> ->]]; rewrite Ht in Hq; [rewrite Bool.andb_true_r in Hq|]; exact Hq.
Qed.

(** How the way down ends. *)
Definition arrived (st : tstate) (es : list (Z * Z)) (e : tsearch_end) : Prop :=
  match e with
  | Found p => exists x c l kp r n, reached st x (T c l p kp r) n /\ compar k kp = 0 /\ entries (plug x (T c l p kp r)) = es
  | Missing rootp parentp nextp r p_r => exists s x n,
      rootp = slot_of x /\ nextp = slot_of (s :: x) /\ reached st (s :: x) E n /\ regular (s :: x) E (Some rootp) parentp r p_r /\
      entries (plug (s :: x) E) = es
  end.

(** The loop of tsearch comes to an end; two rounds for each level are enough. *)
Lemma tsearch_loop_spec {Res} fuel : forall st x t n parentp gparentp p_r gp_r,
  (2 * height t <= fuel)%nat -> t <> E -> reached st x t n -> regular x t parentp gparentp p_r gp_r \/ quiet t ->
  exists e st', @tsearch_loop compar Res fuel st k (slot_of x) parentp gparentp p_r gp_r = Next (e, st') /\ arrived st' (entries (plug x t)) e.
Proof.
  induction fuel as [fuel IH] using lt_wf_ind. intros st x t n parentp gparentp p_r gp_r Hf Ht0 Hre Hor.
  destruct t as [|c l a ka r]; [congruence|]. destruct fuel as [|fuel]; [cbn [height] in Hf; lia|].
  destruct (Z.eq_dec (compar k ka) 0) as [Hz|Hk].
  { destruct (at_pos_node _ _ _ _ _ _ _ (rc_pos Hre)) as [Hn _]. exists (Found a), st. split.
    - cbn [tsearch_loop]. rewrite (at_pos_slot _ _ _ (rc_pos Hre)). cbn [flow_bind addr]. unfold get_node at 1. rewrite Hn. cbn [flow_bind key]. rewrite Hz. reflexivity.
    - exists x, c, l, ka, r, n. auto. }
  destruct (is_red_tree r && is_red_tree l) eqn:Hq.
  - apply andb_prop in Hq as [Hr Hl].
    destruct Hor as [Hreg|[_ Hq]]; [|rewrite Hl, Hr in Hq; discriminate].
    assert (c = false) as ->. { destruct c; [|reflexivity]. pose proof (rc_tree _ _ _ _ Hre) as (_ & Tl & _)%rbt_red. rewrite (rbt_above_red _ _ Tl) in Hl. discriminate. }
    destruct (split_case (Res := Res) _ _ _ _ _ _ _ _ _ _ _ Hre Hreg Hl Hr Hk) as (d & st' & x' & t' & n' & p1 & p2 & r1 & r2 & Hd & Hstep & Hre' & Hqt & Hh & He).
    replace (S fuel) with (S (d + (fuel - d))) by (cbn [height] in *; lia). rewrite Hstep, <- He.
    eapply IH; [lia|lia| |exact Hre'|right; exact Hqt]. intros ->. contradiction.
  - destruct (reached_child _ _ _ _ _ _ _ _ Hre Hk) as (s & t & n' & Hch).
    assert (regular (s :: x) t (Some (slot_of x)) parentp (compar k ka) p_r) as Hreg.
    { eapply regular_child; try eassumption. destruct Hor as [?|[? _]]; eauto. }
    rewrite (loop_pass _ _ _ _ _ _ _ _ _ _ _ _ (rc_pos Hre) Hq Hk). cbv zeta. rewrite <- (nc_slot Hch), <- (nc_addr Hch).
    replace (entries (plug x (T c l a ka r))) with (entries (plug (s :: x) t)) by (cbn [plug]; rewrite (nc_fill Hch); reflexivity).
    pose proof (nc_reached Hch) as Hr'. destruct t as [|c' l' a' k' r'].
    + cbn [addr Z.eqb NULL]. do 2 eexists. split; [reflexivity|]. exists s, x, n'. auto 10.
    + rewrite (proj2 (Z.eqb_neq _ _) (red_addr _ _ _ (rc_pos Hr') ltac:(discriminate))).
      eapply IH; [lia| |discriminate|exact Hr'|left; exact Hreg].
      destruct (nc_cases Hch) as [[-> _]|[-> _]]; cbn [height] in *; lia.
Qed.

(** ** The new node *)

(** A node at a new address in an empty slot. *)
Lemma at_pos_new {Res} st x q :
  at_pos st x E -> q <> NULL -> nodes st !! q = None ->
  exists st', @set_slot Res st (slot_of x) q = Next st' /\ at_pos (put_node st' q (Node k NULL NULL true)) x (T true E q k E).
Proof.
  intros [Hc _ Hn] H0 Hq. cbn [tree_addrs cells fmap list_fmap app] in Hn. destruct (ctx_ok_set (R := Res) st x _ q Hc Hn) as (st' & Hs & Hc' & _).
  exists st'. split; [exact Hs|].
  assert (q ∉ ctx_addrs x) as Hqx.
  { intros Hin. destruct Hc as [_ Hc]. rewrite <- (ctx_cells_addrs x (addr E)) in Hin. apply list_elem_of_fmap in Hin as (ce & -> & Hin).
    destruct (proj1 (Forall_forall _ _) Hc ce Hin) as [_ H]. rewrite Hq in H. discriminate. }
  split.
  - eapply ctx_ok_frame; [exact Hc'|reflexivity|]. intros b Hb. apply lookup_insert_ne. intros <-. contradiction.
  - apply tree_ok_T. split; [split; [exact H0|apply lookup_insert_eq]|]. split; constructor.
  - rewrite tree_addrs_T. cbn [tree_addrs cells fmap list_fmap app]. apply NoDup_cons. auto.
Qed.

Lemma slot_below st s x t : at_pos st (s :: x) t -> slot_of (s :: x) <> slot_of x.
Proof.
  intros [_ _ Hn]. rewrite ctx_addrs_cons in Hn. apply NoDup_app in Hn as (_ & _ & Hn). apply NoDup_app in Hn as (_ & Hd & _).
  destruct x as [|s2 x]; [destruct s; discriminate|]. assert (step_addr s <> step_addr s2) as Hne.
  { intros E. apply (Hd (step_addr s)); [left|]. rewrite E, ctx_addrs_cons. left. }
  destruct s, s2; cbn [slot_of step_addr] in *; congruence.
Qed.

(** The new node is put right. *)
Lemma insert_fixup {Res} st s x q parentp r p_r :
  at_pos st (s :: x) (T true E q k E) -> rbc 0 (s :: x) -> regular (s :: x) E (Some (slot_of x)) parentp r p_r ->
  exists st' t N, @maybe_split_for_insert Res st (slot_of (s :: x)) (Some (slot_of x)) parentp r p_r 1 = Next st' /\
    at_pos st' [] t /\ rbt false N t /\ entries t = entries (plug (s :: x) (T true E q k E)).
Proof.
  intros Hp Hc [_ Hside Hred _]. destruct (above_red (s :: x)) eqn:Hb.
  - specialize (Hred eq_refl). destruct x as [|s2 x]; [contradiction|]. destruct Hred as (-> & Hs2 & Hsib).
    destruct (split_below_red (R := Res) st s s2 x true E q k E r p_r 1 Hp Hb Hside Hs2 eq_refl) as (st' & Hs & Hp').
    destruct (rotated_rbt 0 s s2 x E q k E Hc Hb Hsib eq_refl eq_refl) as [Hc' Ht'].
    destruct (rbt_plug x _ _ Hc' (Ht' _)) as (N & HN). exists st'. do 2 eexists. split; [exact Hs|]. split; [exact (proj1 (at_pos_plug _ _ _) Hp')|].
    split; [exact HN|]. cbn [plug blacken]. rewrite !entries_plug, entries_rotated. reflexivity.
  - destruct (split_below_black (R := Res) st (s :: x) true E q k E parentp r p_r 1 Hp Hb eq_refl) as (st' & Hs & Hp').
    destruct (rbt_plug (s :: x) 0 (T true E q k E) Hc) as (N & HN); [rewrite Hb; cbn [rbt]; auto|].
    exists st'. do 2 eexists. split; [exact Hs|]. split; [exact (proj1 (at_pos_plug _ _ _) Hp')|]. split; [exact HN|reflexivity].
Qed.
End Down.

(** ** Which nodes exist *)

Definition same_nodes {R} (st : tstate) (c : flow R tstate) : Prop :=
  forall st', c = Next st' -> forall p, is_Some (nodes st' !! p) <-> is_Some (nodes st !! p).

Lemma same_next {R} st : @same_nodes R st (Next st).
Proof. intros st' [= <-]. reflexivity. Qed.

Lemma same_fault {R} st : @same_nodes R st Fault.
Proof. discriminate. Qed.

Lemma same_put {R} st p n n' : nodes st !! p = Some n -> @same_nodes R st (Next (put_node st p n')).
Proof.
  intros Hn st' [= <-] q. cbn [nodes put_node]. destruct (decide (p = q)) as [->|Hne].
  - rewrite lookup_insert_eq, Hn. split; eauto.
  - rewrite lookup_insert_ne by assumption. reflexivity.
Qed.

Lemma same_bind {R} st (c : flow R tstate) f : same_nodes st c -> (forall st', same_nodes st' (f st')) -> same_nodes st (flow_bind c f).
Proof. intros Hc Hf st' E p. destruct c as [st1| | |]; try discriminate. cbn [flow_bind] in E. rewrite (Hf _ _ E p). apply Hc. reflexivity. Qed.

Lemma same_read {R A} st (c : flow R A) (f : A -> flow R tstate) : (forall v, same_nodes st (f v)) -> same_nodes st (flow_bind c f).
Proof. intros Hf. destruct c; cbn [flow_bind]; [apply Hf|discriminate..]. Qed.

Lemma same_node {R} st p (f : node_t -> tstate) : (forall n, nodes st !! p = Some n -> @same_nodes R st (Next (f n))) ->
  @same_nodes R st (let! n := get_node st p in Next (f n)).
Proof. intros Hf. unfold get_node. destruct (nodes st !! p) eqn:E; [apply Hf; reflexivity|discriminate]. Qed.

Lemma same_set_slot {R} st s v : @same_nodes R st (set_slot st s v).
Proof. destruct s; cbn [set_slot]; [intros st' [= <-]; reflexivity|..]; apply same_node; intros n Hn; eapply same_put; exact Hn. Qed.

Lemma same_set_red {R} st p v : @same_nodes R st (set_red st p v).
Proof. apply same_node; intros n Hn; eapply same_put; exact Hn. Qed.

Create HintDb same.
#[export] Hint Resolve same_next same_fault same_set_slot same_set_red : same.

Ltac same_walk :=
  repeat first [solve [auto with same] | apply same_bind; [auto with same|intros ?] | apply same_read; intros ? |
    match goal with |- same_nodes _ (if ?b then _ else _) => destruct b | |- same_nodes _ (match ?o with None => _ | Some _ => _ end) => destruct o end].

Lemma same_rotate {R} st root pp gp p_r gp_r : @same_nodes R st (rotate_for_insert st root pp gp p_r gp_r).
Proof. unfold rotate_for_insert. same_walk. Qed.
#[export] Hint Resolve same_rotate : same.

Lemma same_split {R} st s pp gp p_r gp_r mode : @same_nodes R st (maybe_split_for_insert st s pp gp p_r gp_r mode).
Proof. unfold maybe_split_for_insert. same_walk. Qed.
#[export] Hint Resolve same_split : same.

Lemma same_loop {R} compar k fuel : forall st s pp gp p_r gp_r e st',
  @tsearch_loop compar R fuel st k s pp gp p_r gp_r = Next (e, st') -> forall p, is_Some (nodes st' !! p) <-> is_Some (nodes st !! p).
Proof.
  induction fuel as [|fuel IH]; intros st s pp gp p_r gp_r e st' H p; [discriminate|]. cbn [tsearch_loop] in H.
  destruct (get_slot st s) as [a| | |]; try discriminate. cbn [flow_bind] in H. destruct (get_node st a) as [n| | |]; try discriminate. cbn [flow_bind] in H.
  destruct (_ =? 0); [injection H as _ <-; reflexivity|]. destruct (maybe_split_for_insert _ _ _ _ _ _ _) as [st1| | |] eqn:E; try discriminate. cbn [flow_bind] in H.
  rewrite <- (same_split _ _ _ _ _ _ _ _ E p). destruct (get_slot st1 _) as [b| | |]; try discriminate. cbn [flow_bind] in H.
  destruct (b =? NULL); [injection H as _ <-; reflexivity|]. eapply IH. exact H.
Qed.

(** ** tsearch and tfind *)

Section Spec.
Context (compar : Z -> Z -> Z).
Hypothesis ko : key_order compar.

(** What tsearch does to the dictionary: the address returned, and the entries after the call. *)
Definition tsearch_entries (malloc k : Z) (es : list (Z * Z)) : Z * list (Z * Z) :=
  match find_entry compar k es with
  | Some p => (p, es)
  | None => if malloc =? NULL then (NULL, es) else (malloc, insert_entry compar (malloc, k) es)
  end.

Lemma rbt_blacken_top n t : rbt false n t -> exists n', rbt false n' (blacken t).
Proof. intros H. destruct (is_red_tree t) eqn:E; [eauto using rbt_blacken|]. exists n. destruct t as [|[] ? ? ? ?]; try discriminate; exact H. Qed.

Lemma entries_nil t : entries t = [] -> t = E.
Proof. destruct t as [|c l a k r]; [reflexivity|]. cbn [entries]. intros H. apply app_eq_nil in H as [_ H]. discriminate. Qed.

(** The new node, below the position where the search ended. *)
Lemma tsearch_attach {Res} st k s x n q parentp r p_r :
  reached compar k st (s :: x) E n -> regular (s :: x) E (Some (slot_of x)) parentp r p_r -> q <> NULL -> nodes st !! q = None ->
  exists st' t N,
    (let! st := set_slot st (slot_of (s :: x)) q in
     let st := put_node st q (Node k NULL NULL true) in
     let! st := if decide (slot_of (s :: x) = slot_of x) then Next st
                else @maybe_split_for_insert Res st (slot_of (s :: x)) (Some (slot_of x)) parentp r p_r 1 in
     Next (q, st)) = Next (q, st') /\
    at_pos st' [] t /\ rbt false N t /\ entries t = entries (plug (s :: x) (T true E q k E)) /\
    forall p, is_Some (nodes st' !! p) <-> p = q \/ is_Some (nodes st !! p).
Proof.
  intros [Hp Hc Ht Hpa] Hreg H0 Hq. destruct (at_pos_new k (Res := Res) _ _ q Hp H0 Hq) as (st1 & Hs & Hp1).
  cbn [rbt] in Ht. subst n. destruct (insert_fixup k (Res := Res) _ _ _ _ _ _ _ Hp1 Hc Hreg) as (st' & t & N & Hf & Hp' & HN & He).
  exists st', t, N. rewrite Hs. cbn [flow_bind]. cbv zeta. rewrite decide_False by exact (slot_below _ _ _ _ Hp1). rewrite Hf. cbn [flow_bind].
  split; [reflexivity|]. split; [exact Hp'|]. split; [exact HN|]. split; [exact He|]. intros p. split; intros Hin.
  - apply (same_split _ _ _ _ _ _ _ _ Hf) in Hin. cbn [nodes put_node] in Hin. destruct (decide (p = q)) as [|Hne]; [auto|].
    rewrite lookup_insert_ne in Hin by auto. right. apply (same_set_slot _ _ _ _ Hs). assumption.
  - apply (same_split _ _ _ _ _ _ _ _ Hf). cbn [nodes put_node]. destruct (decide (p = q)) as [->|Hne]; [rewrite lookup_insert_eq; eauto|].
    rewrite lookup_insert_ne by auto. destruct Hin as [|Hin]; [contradiction|]. apply (same_set_slot _ _ _ _ Hs). assumption.
Qed.

Lemma rb_insert_nodes st st' q k es : (forall p, is_Some (nodes st !! p) <-> p ∈ es.*1) ->
  (forall p, is_Some (nodes st' !! p) <-> p = q \/ is_Some (nodes st !! p)) ->
  forall p, is_Some (nodes st' !! p) <-> p ∈ (insert_entry compar (q, k) es).*1.
Proof.
  intros H H' p. rewrite H', H. clear. induction es as [|e es IH]; cbn [insert_entry].
  - rewrite fmap_cons. cbn [fst fmap list_fmap]. rewrite list_elem_of_singleton. split; [intros [|Hin]; [assumption|inversion Hin]|auto].
  - destruct (_ <? 0); rewrite !fmap_cons, !elem_of_cons; [cbn [fst]; tauto|]. rewrite <- IH. tauto.
Qed.

Lemma reached_rbtree st k x t n : reached compar k st x t n -> increasing compar (entries (plug x t)) ->
  (forall p, is_Some (nodes st !! p) <-> p ∈ (entries (plug x t)).*1) -> rbtree compar st (entries (plug x t)).
Proof.
  intros [Hp Hc Ht _] Hi Hd. split; [|exact Hi|exact Hd]. destruct (rbt_plug x _ _ Hc Ht) as (N & HN).
  do 2 eexists. split; [apply (proj1 (at_pos_plug _ _ _) Hp)|]. eauto.
Qed.

(** The first node of a tree. *)
Lemma tsearch_empty {Res} fuel malloc st k n :
  at_pos st [] E -> rbt false n E -> (forall p, is_Some (nodes st !! p) <-> p ∈ (entries E).*1) -> increasing compar (entries E) ->
  malloc = NULL \/ nodes st !! malloc = None ->
  exists st', (let! st := if addr E =? NULL then Next st else set_red st (addr E) false in
    let! '(e, st) := if addr E =? NULL then Next (Missing RootSlot None RootSlot 0 0, st) else @tsearch_loop compar Res fuel st k RootSlot None None 0 0 in
    match e with
    | Found q => Next (q, st)
    | Missing rootp parentp nextp r p_r =>
        if malloc =? NULL then Next (NULL, st) else
        let! st := set_slot st nextp malloc in
        let st := put_node st malloc (Node k NULL NULL true) in
        let! st := if decide (nextp = rootp) then Next st else maybe_split_for_insert st nextp (Some rootp) parentp r p_r 1 in
        Next (malloc, st)
    end) = Next ((tsearch_entries malloc k []).1, st') /\ rbtree compar st' (tsearch_entries malloc k []).2.
Proof.
  intros Hp Ht Hd Hi Hm. cbn [addr NULL Z.eqb flow_bind]. unfold tsearch_entries. cbn [find_entry insert_entry].
  destruct (Z.eqb_spec malloc NULL) as [E0|H0]; cbn [fst snd].
  - exists st. split; [reflexivity|]. split; [exists E, n; auto|exact Hi|exact Hd].
  - destruct Hm as [|Hm]; [contradiction|]. destruct (at_pos_new k (Res := Res) _ [] malloc Hp H0 Hm) as (st1 & Hs & Hp1). cbn [slot_of] in Hs.
    rewrite Hs. cbn [flow_bind]. rewrite decide_True by reflexivity. eexists. split; [reflexivity|]. split; [exists (T true E malloc k E), 0%nat; cbn; auto| |].
    + apply increasing_cons. split; [intros y Hy; inversion Hy|constructor].
    + apply (rb_insert_nodes st _ malloc k []); [exact Hd|]. intros p. cbn [nodes put_node]. injection Hs as <-. cbn [nodes].
      destruct (decide (p = malloc)) as [->|Hne]; [rewrite lookup_insert_eq; split; eauto|]. rewrite lookup_insert_ne by auto. tauto.
Qed.

(** tsearch is insertion into the dictionary, for every red-black tree. *)
Lemma tsearch_spec {Res} fuel malloc st k es :
  rbtree compar st es -> malloc = NULL \/ nodes st !! malloc = None -> (2 * length es <= fuel)%nat ->
  exists st', @tsearch compar Res fuel malloc st k (Some RootSlot) = Next ((tsearch_entries malloc k es).1, st') /\
    rbtree compar st' (tsearch_entries malloc k es).2.
Proof.
  intros [(t & n & Hp & Ht & He) Hi Hd] Hm Hf. cbn [tsearch get_slot flow_bind].
  assert (root st = addr t) as -> by (destruct Hp as [[Hr _] _ _]; exact Hr). rewrite <- He in *. clear es He.
  destruct t as [|c l a ka r]; [eapply tsearch_empty; eassumption|].
  set (t := T c l a ka r) in *. destruct (at_pos_blacken (R := Res) _ _ _ Hp) as (st1 & Hb & Hp1).
  assert (same_nodes st (if addr t =? NULL then Next st else @set_red Res st (addr t) false)) as Hsame by same_walk. specialize (Hsame _ Hb).
  rewrite Hb. cbn [flow_bind]. destruct (rbt_blacken_top _ _ Ht) as (n1 & Ht1).
  rewrite (proj2 (Z.eqb_neq _ _) (red_addr _ _ _ Hp ltac:(discriminate))).
  assert (reached compar k st1 [] (blacken t) n1) as Hre by (split; [exact Hp1|exact I|exact Ht1|constructor]).
  destruct (tsearch_loop_spec compar k (Res := Res) fuel st1 [] (blacken t) n1 None None 0 0 ltac:(rewrite height_blacken; pose proof (height_size t); lia) ltac:(discriminate) Hre) as (e & st2 & Hl & Harr).
  { left. split; [reflexivity|exact I|discriminate..]. }
  cbn [slot_of] in Hl. rewrite Hl. cbn [flow_bind]. cbn [plug] in Harr. rewrite entries_blacken in Harr.
  assert (forall p, is_Some (nodes st2 !! p) <-> p ∈ (entries t).*1) as Hd2 by (intros p; rewrite (same_loop _ _ _ _ _ _ _ _ _ _ _ Hl p), Hsame; apply Hd).
  unfold tsearch_entries. destruct e as [p|rootp parentp nextp r1 p_r]; cbn [arrived] in Harr.
  - destruct Harr as (x & c' & l' & kp & r' & m & Hr & Hz & He). exists st2. rewrite <- He in *.
    rewrite (path_found compar ko k x c' l' p kp r' Hi (rc_path _ _ _ _ _ _ Hr) Hz). split; [reflexivity|]. exact (reached_rbtree _ _ _ _ _ Hr Hi Hd2).
  - destruct Harr as (s & x & m & -> & -> & Hr & Hreg & He). rewrite <- He in *.
    destruct (path_missing compar ko k (s :: x) Hi (rc_path _ _ _ _ _ _ Hr)) as [Hnone Hins]. rewrite Hnone. destruct (Z.eqb_spec malloc NULL) as [E0|H0]; cbn [fst snd].
    + exists st2. split; [reflexivity|]. exact (reached_rbtree _ _ _ _ _ Hr Hi Hd2).
    + destruct Hm as [|Hm]; [contradiction|].
      assert (nodes st2 !! malloc = None) as Hm2. { apply eq_None_not_Some. rewrite (same_loop _ _ _ _ _ _ _ _ _ _ _ Hl malloc), Hsame, Hm. intros [? ?]. discriminate. }
      destruct (tsearch_attach (Res := Res) _ _ _ _ _ _ _ _ _ Hr Hreg H0 Hm2) as (st' & t' & N & Ha & Hp' & HN & He' & Hnod).
      exists st'. split; [exact Ha|]. destruct (Hins malloc) as [Hi1 Hi2]. split; [exists t', N; rewrite Hi1; auto|rewrite Hi1; exact Hi2|].
      eapply rb_insert_nodes; [exact Hd2|exact Hnod].
Qed.
End Spec.
