(* ===== verification/Tdelete.v ===== *)
(** tdelete (misc/tsearch.c): the key is gone, and the tree stays a red-black tree. *)
From S2P Require Import Prelude Rbtree Tsearch TreeHeap Tinsert.

(** ** Rotations *)

Lemma nodup_two (ag ap : Z) (O X : list Z) : NoDup (ag :: ap :: O ++ X) ->
  ag <> ap /\ NoDup X /\ (forall b, b ∈ O -> b <> ag /\ b <> ap /\ b <> ap /\ b ∉ X) /\ (forall b, b ∈ X -> b <> ag /\ b <> ap /\ b <> ap).
Proof.
  rewrite !NoDup_cons, NoDup_app, !elem_of_cons, !elem_of_app. intros (Hg & Hp & _ & Hd & HX).
  repeat split; try tauto; try (intros ->; tauto). apply Hd; assumption.
Qed.

(** Run the writes of a rotation and compare the nodes with those of the new tree. *)
Ltac run_rotation :=
  unfold set_red, get_node; cbn [flow_bind get_slot set_slot]; unfold get_node; heap_eval;
  match goal with Hc : ctx_ok ?st ?x ?ag, HX : NoDup (ctx_addrs ?x) |- context [@set_slot ?R ?st1 (slot_of ?x) ?ax] =>
    let Hc1 := fresh in assert (ctx_ok st1 x ag) as Hc1 by ctx_same; clear Hc;
    let st2 := fresh "st2" in let Hc2 := fresh in let Hsame := fresh "Hsame" in
    destruct (ctx_ok_set (R := R) st1 x ag ax Hc1 HX) as (st2 & -> & Hc2 & Hsame) end;
  cbn [flow_bind];
  repeat match goal with Hsame : forall a, a ∉ _ -> nodes ?st2 !! a = _ |- context [nodes ?st2 !! ?p] => rewrite (Hsame p) by auto; heap_eval end;
  eexists; split; [reflexivity|]; eapply at_pos_rebuild; [eassumption|first [assumption|ctx_same]| |rewrite !tree_addrs_entries; cbn [entries]; rewrite <- ?app_assoc; cbn [app]; rewrite <- ?app_assoc; reflexivity];
  rewrite !tree_ok_T; unfold stored; cbn [fst snd addr]; heap_eval;
  repeat match goal with Hsame : forall a, a ∉ _ -> nodes ?st2 !! a = _ |- context [nodes ?st2 !! ?p] => rewrite (Hsame p) by auto; heap_eval end; trees_same.

(** The addresses of two or three nodes, of the subtrees [O0] below them and of the context differ. *)
Ltac nodes_apart Hp head O0 lem :=
  match type of Hp with at_pos _ ?x _ =>
    let O := fresh "O" in let Hn := fresh in let Hn' := fresh in let Hin := fresh "Hin" in let Hout := fresh "Hout" in
    pose proof (pos_nodup _ _ _ Hp) as Hn; set (O := O0);
    assert (NoDup (head ++ O ++ ctx_addrs x)) as Hn' by (eapply NoDup_Permutation_proper; [|exact Hn]; rewrite !tree_addrs_T; subst O; solve_Permutation);
    clear Hn; cbn [app] in Hn'; apply lem in Hn'; repeat match type of Hn' with _ /\ _ => let H := fresh in destruct Hn' as [H Hn'] end;
    assert (forall b, b ∈ O0 -> b ∈ O) as Hin by auto; repeat setoid_rewrite elem_of_app in Hin; clearbody O;
    assert (forall b, b ∈ head -> b ∉ ctx_addrs x) as Hout by
      (match goal with HXO : forall b, b ∈ ctx_addrs x -> _ |- _ => let b := fresh in let Hb := fresh in let Hbx := fresh in
        intros b Hb Hbx; destruct (HXO b Hbx) as (? & ? & ?); rewrite !elem_of_cons, elem_of_nil in Hb; intuition end);
    repeat setoid_rewrite elem_of_cons in Hout
  end;
  match type of Hp with at_pos _ ?x _ => let Hc := fresh "Hc" in let Ht := fresh "Ht" in pose proof (pos_ctx _ _ _ Hp) as Hc; pose proof (pos_tree _ _ _ Hp) as Ht;
    rewrite !tree_ok_T in Ht; unfold stored in Ht; cbn [fst snd addr] in *; destruct_and! Ht end.

Section Rotations.
Context {Res : Type}.

Lemma rotate_red_left_spec st x c t p kp cq q1 q kq q2 :
  at_pos st x (T c t p kp (T cq q1 q kq q2)) ->
  exists st', @rotate_red_left Res st (slot_of x) p q = Next st' /\ at_pos st' x (T false (T true t p kp q1) q kq q2).
Proof.
  intros Hp. nodes_apart Hp [p; q] (tree_addrs t ++ tree_addrs q1 ++ tree_addrs q2) nodup_two.
  unfold rotate_red_left. run_rotation.
Qed.

Lemma rotate_red_right_spec st x c t p kp cq q1 q kq q2 :
  at_pos st x (T c (T cq q2 q kq q1) p kp t) ->
  exists st', @rotate_red_right Res st (slot_of x) p q = Next st' /\ at_pos st' x (T false q2 q kq (T true q1 p kp t)).
Proof.
  intros Hp. nodes_apart Hp [p; q] (tree_addrs t ++ tree_addrs q1 ++ tree_addrs q2) nodup_two.
  unfold rotate_red_right. run_rotation.
Qed.

Lemma lift_left_spec st x c t p kp cq cw w1 w kw w2 q kq q2 :
  at_pos st x (T c t p kp (T cq (T cw w1 w kw w2) q kq q2)) ->
  exists st', @lift_left Res st (slot_of x) p q = Next st' /\ at_pos st' x (T c (T false t p kp w1) w kw (T cq w2 q kq q2)).
Proof.
  intros Hp. nodes_apart Hp [p; q; w] (tree_addrs t ++ tree_addrs w1 ++ tree_addrs w2 ++ tree_addrs q2) nodup_three.
  unfold lift_left. run_rotation.
Qed.

Lemma lift_right_spec st x c t p kp cq cw w1 w kw w2 q kq q2 :
  at_pos st x (T c (T cq q2 q kq (T cw w2 w kw w1)) p kp t) ->
  exists st', @lift_right Res st (slot_of x) p q = Next st' /\ at_pos st' x (T c (T cq q2 q kq w2) w kw (T false w1 p kp t)).
Proof.
  intros Hp. nodes_apart Hp [p; q; w] (tree_addrs t ++ tree_addrs w1 ++ tree_addrs w2 ++ tree_addrs q2) nodup_three.
  unfold lift_right. run_rotation.
Qed.

Lemma rotate_left_spec st x c t p kp cq q1 q kq cz z1 z kz z2 :
  at_pos st x (T c t p kp (T cq q1 q kq (T cz z1 z kz z2))) ->
  exists st', @rotate_left Res st (slot_of x) p q = Next st' /\ at_pos st' x (T c (T false t p kp q1) q kq (T false z1 z kz z2)).
Proof.
  intros Hp. nodes_apart Hp [p; q; z] (tree_addrs t ++ tree_addrs q1 ++ tree_addrs z1 ++ tree_addrs z2) nodup_three.
  unfold rotate_left. run_rotation.
Qed.

Lemma rotate_right_spec st x c t p kp cq q1 q kq cz z1 z kz z2 :
  at_pos st x (T c (T cq (T cz z1 z kz z2) q kq q1) p kp t) ->
  exists st', @rotate_right Res st (slot_of x) p q = Next st' /\ at_pos st' x (T c (T false z1 z kz z2) q kq (T false q1 p kp t)).
Proof.
  intros Hp. nodes_apart Hp [p; q; z] (tree_addrs t ++ tree_addrs q1 ++ tree_addrs z1 ++ tree_addrs z2) nodup_three.
  unfold rotate_right. run_rotation.
Qed.
End Rotations.

(** ** The loop *)

(** The slots of the nodes above a position. *)
Fixpoint stack_of (x : ctx) : list slot := match x with [] => [] | _ :: x => slot_of x :: stack_of x end.

Lemma length_stack_of x : length (stack_of x) = length x.
Proof. induction x as [|s x IH]; [reflexivity|]. cbn [stack_of length]. rewrite IH. reflexivity. Qed.

(** The subtree [t] lacks a black node; making a red [t] black would be enough. *)
Record short (st : tstate) (x : ctx) (t : tree) (n : nat) : Prop := {
  sh_pos : at_pos st x t;
  sh_ctx : rbc (S n) x;
  sh_tree : if is_red_tree t then forall pc, rbt pc (S n) (blacken t) else rbt false n t
}.

Definition repaired (st : tstate) (es : list (Z * Z)) : Prop :=
  exists t n, at_pos st [] t /\ rbt false n t /\ entries t = es.

Lemma repaired_at st x t n : at_pos st x t -> rbc n x -> rbt (above_red x) n t -> repaired st (entries (plug x t)).
Proof. intros Hp Hc Ht. destruct (rbt_plug x n t Hc Ht) as (N & HN). exists (plug x t), N. split; [apply at_pos_plug in Hp; exact Hp|]. auto. Qed.

Lemma both_black_left {Res} st x c l a k r : at_pos st x (T c l a k r) ->
  @both_black Res st (LeftOf a) (RightOf a) = Next (negb (is_red_tree l) && negb (is_red_tree r)).
Proof.
  intros Hp. destruct (at_pos_node _ _ _ _ _ _ _ Hp) as [Hn _]. pose proof (pos_tree _ _ _ Hp) as (_ & Hl & Hr)%tree_ok_T.
  unfold both_black. cbn [get_slot]. unfold get_node. rewrite Hn. cbn [flow_bind left right]. rewrite (tree_is_red _ _ Hl), (tree_is_red _ _ Hr).
  destruct (is_red_tree l); reflexivity.
Qed.

Lemma both_black_right {Res} st x c l a k r : at_pos st x (T c l a k r) ->
  @both_black Res st (RightOf a) (LeftOf a) = Next (negb (is_red_tree l) && negb (is_red_tree r)).
Proof.
  intros Hp. destruct (at_pos_node _ _ _ _ _ _ _ Hp) as [Hn _]. pose proof (pos_tree _ _ _ Hp) as (_ & Hl & Hr)%tree_ok_T.
  unfold both_black. cbn [get_slot]. unfold get_node. rewrite Hn. cbn [flow_bind left right]. rewrite (tree_is_red _ _ Hl), (tree_is_red _ _ Hr).
  destruct (is_red_tree l), (is_red_tree r); reflexivity.
Qed.

(** The rest of the path above [p]. *)
Definition above_ok (c : bool) (n : nat) (x : ctx) : Prop := if c then above_red x = false /\ rbc (S n) x else rbc (S (S n)) x.

Lemma above_ok_two c n x : above_ok c n x -> exists m, rbc m x /\ forall l a k r, rbt true (S n) l -> rbt true (S n) r -> rbt (above_red x) m (T c l a k r).
Proof.
  destruct c; cbn [above_ok]; [intros [Ha Hc]|intros Hc]; eexists; (split; [exact Hc|]); intros l a k r Hl Hr; cbn [rbt]; auto using rbt_weaken.
Qed.

(** What one round arrives at: the lack is further up, or the tree is right. *)
Definition round_ok (st : tstate) (r : Z) (stk : stack) (size height : nat) (es : list (Z * Z)) : Prop :=
  stacksize stk = size /\
  ((exists x t n, r = addr t /\ slots (pop stk) = stack_of x /\ short st x t n /\ entries (plug x t) = es /\ ((length x < height)%nat \/ is_red_tree t = true)) \/
   (r = NULL /\ slots (pop stk) = [] /\ repaired st es)).

Lemma keep_first_done stk a sl : slots stk = a :: sl -> slots (pop (keep_first stk)) = [].
Proof.
  intros E. cbn [pop keep_first slots]. rewrite E. cbn [length]. replace (S (length sl) - 1)%nat with (length sl) by lia.
  apply nil_length_inv. rewrite length_tl, length_drop. cbn [length]. lia.
Qed.

Lemma entries_plug_same x t t' : entries t = entries t' -> entries (plug x t) = entries (plug x t').
Proof. intros H. rewrite !entries_plug, H. reflexivity. Qed.

(** The brother is red: its parent lacks a black node, or is red itself. *)
Lemma repair_recolor {Res} st x xq c t p q1 q kq q2 n stk h new :
  at_pos st xq (T false q1 q kq q2) -> (forall st', at_pos st' xq (T true q1 q kq q2) -> at_pos st' x new) -> addr new = p -> is_red_tree new = c ->
  (forall pc, rbt pc (S n) (blacken new)) -> entries (plug x new) = entries (plug x t) ->
  above_ok c n x -> slots stk = slot_of x :: stack_of x -> (length x < h)%nat \/ c = true ->
  exists st' r stk', (let! st := @set_red Res st q true in Next (st, p, stk)) = Next (st', r, stk') /\ round_ok st' r stk' (stacksize stk) h (entries (plug x t)).
Proof.
  intros Hp Hnew Ea Ec Hrb He Hab Hsl Hh. destruct (at_pos_set_red (R := Res) _ _ _ _ _ _ _ true Hp) as (st' & -> & Hp'). cbn [flow_bind].
  exists st', p, stk. split; [reflexivity|]. split; [reflexivity|]. left. exists x, new, (if c then n else S n).
  split; [auto|]. split; [cbn [pop slots]; rewrite Hsl; reflexivity|]. split; [|split; [exact He|rewrite Ec; exact Hh]].
  split; [auto|destruct c; cbn [above_ok] in Hab; tauto|]. rewrite Ec. destruct c; [exact Hrb|].
  specialize (Hrb false). destruct new as [|[] ? ? ? ?]; [exact Hrb|discriminate|exact Hrb].
Qed.

Lemma repair_left_spec {Res} st x c t p kp q1 q kq q2 n stk h :
  at_pos st x (T c t p kp (T false q1 q kq q2)) -> above_ok c n x -> is_red_tree t = false -> rbt false n t -> rbt false n q1 -> rbt false n q2 ->
  slots stk = slot_of x :: stack_of x -> (length x < h)%nat \/ c = true ->
  exists st' r stk', @repair_left Res st (slot_of x) p q stk = Next (st', r, stk') /\
    round_ok st' r stk' (stacksize stk) h (entries (plug x (T c t p kp (T false q1 q kq q2)))).
Proof.
  intros Hp Hab Hrt Ht H1 H2 Hsl Hh. pose proof (proj1 (at_pos_right _ _ _ _ _ _ _) Hp) as Hq. unfold repair_left.
  rewrite (both_black_left _ _ _ _ _ _ _ Hq). cbn [flow_bind]. destruct (is_red_tree q1) eqn:R1, (is_red_tree q2) eqn:R2; cbn [negb andb].
  4: { eapply (repair_recolor (Res := Res) st x _ c (T c t p kp (T false q1 q kq q2)) p q1 q kq q2 n stk h (T c t p kp (T true q1 q kq q2)) Hq); auto.
    - intros st' H'. apply at_pos_right. exact H'.
    - intros pc. cbn [blacken rbt]. auto using rbt_black.
    - apply entries_plug_same. reflexivity. }
  all: destruct (at_pos_node _ _ _ _ _ _ _ Hq) as [Hn _]; cbn [get_slot]; unfold get_node at 1; rewrite Hn; cbn [flow_bind right];
    pose proof (pos_tree _ _ _ Hq) as (_ & _ & Tq2)%tree_ok_T; rewrite (tree_is_red _ _ Tq2), R2; cbn [flow_bind negb];
    destruct (above_ok_two c n x Hab) as (m & Hcm & Hm).
  1, 3: destruct q2 as [|[] z1 z kz z2]; try discriminate; destruct (rotate_left_spec (Res := Res) _ _ _ _ _ _ _ _ _ _ _ _ _ _ _ Hp) as (st' & -> & Hp');
    apply rbt_red in H2 as (_ & Z1 & Z2).
  3: destruct q1 as [|[] w1 w kw w2]; try discriminate; destruct (lift_left_spec (Res := Res) _ _ _ _ _ _ _ _ _ _ _ _ _ _ _ Hp) as (st' & -> & Hp');
    apply rbt_red in H1 as (_ & W1 & W2).
  all: cbn [flow_bind]; eexists _, _, _; split; [reflexivity|]; split; [reflexivity|]; right; split; [reflexivity|]; split; [eapply keep_first_done; exact Hsl|];
    erewrite entries_plug_same; [eapply repaired_at; [exact Hp'|exact Hcm|apply Hm; cbn [rbt]; auto using rbt_weaken]|]; cbn [entries]; rewrite <- ?app_assoc; cbn [app]; rewrite <- ?app_assoc; reflexivity.
Qed.

Lemma repair_right_spec {Res} st x c t p kp q1 q kq q2 n stk h :
  at_pos st x (T c (T false q2 q kq q1) p kp t) -> above_ok c n x -> is_red_tree t = false -> rbt false n t -> rbt false n q1 -> rbt false n q2 ->
  slots stk = slot_of x :: stack_of x -> (length x < h)%nat \/ c = true ->
  exists st' r stk', @repair_right Res st (slot_of x) p q stk = Next (st', r, stk') /\
    round_ok st' r stk' (stacksize stk) h (entries (plug x (T c (T false q2 q kq q1) p kp t))).
Proof.
  intros Hp Hab Hrt Ht H1 H2 Hsl Hh. pose proof (proj1 (at_pos_left _ _ _ _ _ _ _) Hp) as Hq. unfold repair_right.
  rewrite (both_black_right _ _ _ _ _ _ _ Hq). cbn [flow_bind]. destruct (is_red_tree q2) eqn:R2, (is_red_tree q1) eqn:R1; cbn [negb andb].
  4: { eapply (repair_recolor (Res := Res) st x _ c (T c (T false q2 q kq q1) p kp t) p q2 q kq q1 n stk h (T c (T true q2 q kq q1) p kp t) Hq); auto.
    - intros st' H'. apply at_pos_left. exact H'.
    - intros pc. cbn [blacken rbt]. auto using rbt_black.
    - apply entries_plug_same. reflexivity. }
  all: destruct (at_pos_node _ _ _ _ _ _ _ Hq) as [Hn _]; cbn [get_slot]; unfold get_node at 1; rewrite Hn; cbn [flow_bind left];
    pose proof (pos_tree _ _ _ Hq) as (_ & Tq2 & _)%tree_ok_T; rewrite (tree_is_red _ _ Tq2), R2; cbn [flow_bind negb];
    destruct (above_ok_two c n x Hab) as (m & Hcm & Hm).
  1, 2: destruct q2 as [|[] z1 z kz z2]; try discriminate; destruct (rotate_right_spec (Res := Res) _ _ _ _ _ _ _ _ _ _ _ _ _ _ _ Hp) as (st' & -> & Hp');
    apply rbt_red in H2 as (_ & Z1 & Z2).
  3: destruct q1 as [|[] w1 w kw w2]; try discriminate; destruct (lift_right_spec (Res := Res) _ _ _ _ _ _ _ _ _ _ _ _ _ _ _ Hp) as (st' & -> & Hp');
    apply rbt_red in H1 as (_ & W1 & W2).
  all: cbn [flow_bind]; eexists _, _, _; split; [reflexivity|]; split; [reflexivity|]; right; split; [reflexivity|]; split; [eapply keep_first_done; exact Hsl|];
    erewrite entries_plug_same; [eapply repaired_at; [exact Hp'|exact Hcm|apply Hm; cbn [rbt]; auto using rbt_weaken]|]; cbn [entries]; rewrite <- ?app_assoc; cbn [app]; rewrite <- ?app_assoc; reflexivity.
Qed.

(** One round below the left or the right slot of [p]. *)
Lemma rebalance_left_spec {Res} st x c p kp Q t n stk :
  short st (L c p kp Q :: x) t n -> is_red_tree t = false -> slots stk = stack_of (L c p kp Q :: x) -> (length (L c p kp Q :: x) < stacksize stk)%nat ->
  exists st' r stk', @rebalance_left Res st (slot_of x) p stk = Next (st', r, stk') /\
    round_ok st' r stk' (stacksize stk) (length (L c p kp Q :: x)) (entries (plug (L c p kp Q :: x) t)).
Proof.
  intros [Hp Hc Ht] Hrt Hsl Hsz. rewrite Hrt in Ht. apply at_pos_up in Hp. cbn [fill plug length] in *. destruct Hc as [Hsib Hc]. cbn [sibling step_red] in *.
  destruct Q as [|cq q1 q kq q2]; [discriminate|]. pose proof (proj1 (at_pos_right _ _ _ _ _ _ _) Hp) as Hq.
  destruct (at_pos_node _ _ _ _ _ _ _ Hp) as [Hn _]. destruct (at_pos_node _ _ _ _ _ _ _ Hq) as [Hnq _].
  unfold rebalance_left. cbn [get_slot]. unfold get_node at 1 2. rewrite Hn. cbn [flow_bind right addr]. rewrite Hnq. cbn [flow_bind red]. destruct cq.
  - apply rbt_red in Hsib as (-> & B1 & B2). destruct (rotate_red_left_spec (Res := Res) _ _ _ _ _ _ _ _ _ _ _ Hp) as (st1 & -> & Hp1). cbn [flow_bind].
    pose proof (proj1 (at_pos_left _ _ _ _ _ _ _) Hp1) as Hp2. destruct (at_pos_node _ _ _ _ _ _ _ Hp2) as [Hn1 _].
    destruct q1 as [|[] q11 a1 k1 q12]; [discriminate B1|destruct B1; discriminate|]. destruct B1 as [B11 B12].
    unfold push. rewrite Hsl. rewrite length_stack_of. cbn [length]. rewrite (proj2 (Nat.ltb_lt _ _) Hsz). cbn [flow_bind get_slot]. unfold get_node at 1. rewrite Hn1. cbn [flow_bind right addr].
    destruct (repair_left_spec (Res := Res) st1 (L false q kq q2 :: x) true t p kp q11 a1 k1 q12 n (Stack (slot_of (L false q kq q2 :: x) :: stack_of (L false q kq q2 :: x)) (stacksize stk)) (S (length x)) Hp2) as (st' & r & stk' & Hr & Hok); auto.
    { split; [reflexivity|]. split; auto using rbt_weaken. }
    exists st', r, stk'. split; [exact Hr|]. replace (entries (plug x (T false t p kp _))) with (entries (plug (L false q kq q2 :: x) (T true t p kp (T false q11 a1 k1 q12)))); [exact Hok|].
    cbn [plug fill]. apply entries_plug_same. cbn [entries]. rewrite <- ?app_assoc. cbn [app]. rewrite <- ?app_assoc. reflexivity.
  - cbn [flow_bind]. destruct Hsib as [B1 B2]. apply (repair_left_spec (Res := Res) st x c t p kp q1 q kq q2 n stk (S (length x)) Hp); auto.
Qed.

Lemma rebalance_right_spec {Res} st x c p kp Q t n stk :
  short st (R c p kp Q :: x) t n -> is_red_tree t = false -> slots stk = stack_of (R c p kp Q :: x) -> (length (R c p kp Q :: x) < stacksize stk)%nat ->
  exists st' r stk', @rebalance_right Res st (slot_of x) p stk = Next (st', r, stk') /\
    round_ok st' r stk' (stacksize stk) (length (R c p kp Q :: x)) (entries (plug (R c p kp Q :: x) t)).
Proof.
  intros [Hp Hc Ht] Hrt Hsl Hsz. rewrite Hrt in Ht. apply at_pos_up in Hp. cbn [fill plug length] in *. destruct Hc as [Hsib Hc]. cbn [sibling step_red] in *.
  destruct Q as [|cq q2 q kq q1]; [discriminate|]. pose proof (proj1 (at_pos_left _ _ _ _ _ _ _) Hp) as Hq.
  destruct (at_pos_node _ _ _ _ _ _ _ Hp) as [Hn _]. destruct (at_pos_node _ _ _ _ _ _ _ Hq) as [Hnq _].
  unfold rebalance_right. cbn [get_slot]. unfold get_node at 1 2. rewrite Hn. cbn [flow_bind left addr]. rewrite Hnq. cbn [flow_bind red]. destruct cq.
  - apply rbt_red in Hsib as (-> & B2 & B1). destruct (rotate_red_right_spec (Res := Res) _ _ _ _ _ _ _ _ _ _ _ Hp) as (st1 & -> & Hp1). cbn [flow_bind].
    pose proof (proj1 (at_pos_right _ _ _ _ _ _ _) Hp1) as Hp2. destruct (at_pos_node _ _ _ _ _ _ _ Hp2) as [Hn1 _].
    destruct q1 as [|[] q12 a1 k1 q11]; [discriminate B1|destruct B1; discriminate|]. destruct B1 as [B12 B11].
    unfold push. rewrite Hsl. rewrite length_stack_of. cbn [length]. rewrite (proj2 (Nat.ltb_lt _ _) Hsz). cbn [flow_bind get_slot]. unfold get_node at 1. rewrite Hn1. cbn [flow_bind left addr].
    destruct (repair_right_spec (Res := Res) st1 (R false q kq q2 :: x) true t p kp q11 a1 k1 q12 n (Stack (slot_of (R false q kq q2 :: x) :: stack_of (R false q kq q2 :: x)) (stacksize stk)) (S (length x)) Hp2) as (st' & r & stk' & Hr & Hok); auto.
    { split; [reflexivity|]. split; auto using rbt_weaken. }
    exists st', r, stk'. split; [exact Hr|]. replace (entries (plug x (T false _ p kp t))) with (entries (plug (R false q kq q2 :: x) (T true (T false q12 a1 k1 q11) p kp t))); [exact Hok|].
    cbn [plug fill]. apply entries_plug_same. cbn [entries]. rewrite <- ?app_assoc. cbn [app]. rewrite <- ?app_assoc. reflexivity.
  - cbn [flow_bind]. destruct Hsib as [B2 B1]. apply (repair_right_spec (Res := Res) st x c t p kp q1 q kq q2 n stk (S (length x)) Hp); auto.
Qed.

(** The addresses of two brothers differ, unless both are missing. *)
Lemma brothers_differ st x c l a k r : at_pos st x (T c l a k r) -> l <> E -> addr r <> addr l.
Proof.
  intros Hp Hl. pose proof (pos_nodup _ _ _ Hp) as Hn. rewrite tree_addrs_T in Hn. cbn [app] in Hn. apply NoDup_cons in Hn as [_ Hn].
  pose proof (pos_tree _ _ _ Hp) as (_ & Tl & _)%tree_ok_T.
  destruct l as [|cl l1 al kl l2]; [congruence|]. apply tree_ok_T in Tl as ([H0 _] & _). cbn [fst addr] in *. destruct r as [|cr r1 ar kr r2]; cbn [addr]; [auto|].
  rewrite !tree_addrs_T in Hn. cbn [app] in Hn. apply NoDup_cons in Hn as [Hn _]. intros ->. apply Hn. rewrite <- !app_assoc, !elem_of_app. right. right. left. left.
Qed.

Lemma rebalance_round {Res} st s x t n stk :
  short st (s :: x) t n -> is_red_tree t = false -> slots stk = stack_of (s :: x) -> (length (s :: x) < stacksize stk)%nat ->
  exists st' r stk', (let! p := @get_slot Res st (slot_of x) in let! l := get_slot st (LeftOf p) in
      if addr t =? l then rebalance_left st (slot_of x) p stk else rebalance_right st (slot_of x) p stk) = Next (st', r, stk') /\
    round_ok st' r stk' (stacksize stk) (length (s :: x)) (entries (plug (s :: x) t)).
Proof.
  intros Hsh Hrt Hsl Hsz. pose proof (proj1 (at_pos_up _ _ _ _) (sh_pos _ _ _ _ Hsh)) as Hp. rewrite (at_pos_slot _ _ _ Hp), addr_fill. cbn [flow_bind get_slot].
  destruct s as [c p kp Q|c p kp Q]; cbn [fill step_addr] in *; destruct (at_pos_node _ _ _ _ _ _ _ Hp) as [Hn _]; unfold get_node at 1; rewrite Hn; cbn [flow_bind left].
  - rewrite Z.eqb_refl. eapply rebalance_left_spec; eassumption.
  - rewrite (proj2 (Z.eqb_neq _ _)); [eapply rebalance_right_spec; eassumption|]. apply (brothers_differ _ _ _ _ _ _ _ Hp).
    intros ->. destruct (sh_ctx _ _ _ _ Hsh) as [H _]. discriminate H.
Qed.

(** When the loop has left, the node it stopped at is made black. *)
Lemma short_exit {Res} st x t n : short st x t n -> is_red_tree t = true \/ x = [] ->
  exists st', (if addr t =? NULL then Next st else @set_red Res st (addr t) false) = Next st' /\ repaired st' (entries (plug x t)).
Proof.
  intros [Hp Hc Ht] Hor. destruct (at_pos_blacken (R := Res) _ _ _ Hp) as (st' & -> & Hp'). exists st'. split; [reflexivity|].
  rewrite (entries_plug_same x t (blacken t)) by (rewrite entries_blacken; reflexivity). destruct (is_red_tree t) eqn:Hr.
  - apply (repaired_at _ _ _ (S n) Hp' Hc). apply Ht.
  - destruct Hor as [| ->]; [discriminate|]. apply (repaired_at _ _ _ n Hp' I). destruct t as [|[] ? ? ? ?]; [exact Ht|discriminate|exact Ht].
Qed.

Lemma rebalance_spec {Res} fuel : forall st x t n stk,
  short st x t n -> slots stk = stack_of x ->
  ((length x + 2 <= fuel)%nat /\ (length x < stacksize stk)%nat) \/ (is_red_tree t = true /\ (1 <= fuel)%nat) ->
  exists st', (let! '(st, r) := @rebalance Res fuel st (addr t) stk in if r =? NULL then Next st else set_red st r false) = Next st' /\
    repaired st' (entries (plug x t)).
Proof.
  induction fuel as [|fuel IH]; intros st x t n stk Hsh Hsl Hor; [lia|]. cbn [rebalance]. rewrite Hsl. destruct x as [|s x]; cbn [stack_of].
  { cbn [flow_bind]. eapply short_exit; eauto. }
  rewrite (tree_is_red _ _ (pos_tree _ _ _ (sh_pos _ _ _ _ Hsh))). cbn [flow_bind]. destruct (is_red_tree t) eqn:Hr.
  { cbn [flow_bind]. eapply short_exit; eauto. }
  destruct Hor as [[Hf Hsz]|[? _]]; [|discriminate].
  destruct (rebalance_round (Res := Res) _ _ _ _ _ _ Hsh Hr Hsl Hsz) as (st' & r & stk' & Hrd & Hsize & Hok).
  destruct (get_slot st (slot_of x)) as [p| | |]; try discriminate. cbn [flow_bind] in *. destruct (get_slot st (LeftOf p)) as [l| | |]; try discriminate. cbn [flow_bind] in *.
  rewrite Hrd. cbn [flow_bind]. destruct Hok as [(x' & t' & n' & -> & Hsl' & Hsh' & <- & Hor')|(-> & Hsl' & Hrep)].
  - eapply IH; [exact Hsh'|exact Hsl'|]. cbn [pop stacksize length] in *. rewrite Hsize. destruct Hor' as [?|?]; [left; lia|right; split; [assumption|lia]].
  - cbn [length] in Hf. destruct fuel as [|fuel]; [lia|]. cbn [rebalance]. rewrite Hsl'. cbn [flow_bind Z.eqb NULL]. eauto.
Qed.

(** ** Which nodes exist *)

(** The same for code that delivers the state as a part [f] of its result. *)
Definition same_via {R A} (f : A -> tstate) (st : tstate) (c : flow R A) : Prop :=
  forall v, c = Next v -> forall p, is_Some (nodes (f v) !! p) <-> is_Some (nodes st !! p).

Lemma via_next {R A} (f : A -> tstate) v : @same_via R A f (f v) (Next v).
Proof. intros v' [= <-]. reflexivity. Qed.

Lemma via_fault {R A} (f : A -> tstate) st : @same_via R A f st Fault.
Proof. discriminate. Qed.

Lemma via_state {R} st (c : flow R tstate) : same_nodes st c -> same_via id st c.
Proof. intros H v E. apply H. exact E. Qed.

Lemma via_bind {R A B} (g : A -> tstate) (f : B -> tstate) st (c : flow R A) k :
  same_via g st c -> (forall v, same_via f (g v) (k v)) -> same_via f st (flow_bind c k).
Proof. intros Hc Hk v E p. destruct c as [a| | |]; try discriminate. cbn [flow_bind] in E. rewrite (Hk _ _ E p). apply Hc. reflexivity. Qed.

Lemma via_read {R A B} (f : B -> tstate) st (c : flow R A) k : (forall v, same_via f st (k v)) -> same_via f st (flow_bind c k).
Proof. intros Hk. destruct c; cbn [flow_bind]; [apply Hk|discriminate..]. Qed.

Lemma same_set_key {R} st p v : @same_nodes R st (set_key st p v).
Proof. apply same_node; intros n Hn; eapply same_put; exact Hn. Qed.

Definition round_state (v : tstate * Z * stack) : tstate := v.1.1.
Definition brother_state (v : tstate * stack * slot * Z) : tstate := v.1.1.1.

#[export] Hint Resolve same_set_key : same.
#[export] Hint Extern 1 (same_nodes _ (rotate_red_left _ _ _ _)) => unfold rotate_red_left; same_walk : same.
#[export] Hint Extern 1 (same_nodes _ (rotate_red_right _ _ _ _)) => unfold rotate_red_right; same_walk : same.
#[export] Hint Extern 1 (same_nodes _ (lift_left _ _ _ _)) => unfold lift_left; same_walk : same.
#[export] Hint Extern 1 (same_nodes _ (lift_right _ _ _ _)) => unfold lift_right; same_walk : same.
#[export] Hint Extern 1 (same_nodes _ (rotate_left _ _ _ _)) => unfold rotate_left; same_walk : same.
#[export] Hint Extern 1 (same_nodes _ (rotate_right _ _ _ _)) => unfold rotate_right; same_walk : same.

Ltac via_walk :=
  repeat first [apply via_next with (f := round_state) | apply via_next with (f := brother_state) | apply via_next with (f := id) |
    eapply via_bind; [apply via_state; solve [same_walk]|intros ?] | apply via_read; intros ? |
    match goal with |- same_via _ _ (if ?b then _ else _) => destruct b end].

Lemma via_repair_left {R} st pp p q stk : @same_via R _ round_state st (repair_left st pp p q stk).
Proof. unfold repair_left. via_walk. Qed.

Lemma via_repair_right {R} st pp p q stk : @same_via R _ round_state st (repair_right st pp p q stk).
Proof. unfold repair_right. via_walk. Qed.

Lemma via_rebalance_left {R} st pp p stk : @same_via R _ round_state st (rebalance_left st pp p stk).
Proof.
  unfold rebalance_left. do 2 (apply via_read; intros ?). eapply (via_bind brother_state); [|intros [[[st' ?] ?] ?]; apply via_repair_left]. via_walk.
Qed.

Lemma via_rebalance_right {R} st pp p stk : @same_via R _ round_state st (rebalance_right st pp p stk).
Proof.
  unfold rebalance_right. do 2 (apply via_read; intros ?). eapply (via_bind brother_state); [|intros [[[st' ?] ?] ?]; apply via_repair_right]. via_walk.
Qed.

Lemma via_rebalance {R} fuel : forall st r stk, @same_via R _ fst st (rebalance fuel st r stk).
Proof.
  induction fuel as [|fuel IH]; intros st r stk; [discriminate|]. cbn [rebalance]. destruct (slots stk) as [|pp sl]; [apply (via_next fst (st, r))|].
  apply via_read. intros b. destruct b; [apply (via_next fst (st, r))|]. apply via_read; intros p. apply via_read; intros l.
  eapply (via_bind round_state); [|intros [[st' r'] stk']; apply IH]. destruct (r =? l); [apply via_rebalance_left|apply via_rebalance_right].
Qed.

(** ** Finding the node *)

Lemma plug_app x : forall y t, plug (x ++ y) t = plug y (plug x t).
Proof. induction x as [|s x IH]; intros y t; [reflexivity|]. cbn [app plug]. apply IH. Qed.

(** A position in a red-black tree. *)
Lemma rbt_unplug x : forall t N, rbt false N (plug x t) -> exists n, rbc n x /\ rbt (above_red x) n t.
Proof.
  induction x as [|s x IH]; intros t N H; [exists N; split; [exact I|exact H]|]. cbn [plug] in H. apply IH in H as (n & Hc & Ht).
  destruct s as [c a k r|c a k l]; cbn [fill] in Ht; destruct (rbc_down _ _ _ _ _ _ _ Hc Ht) as (n' & [H1 H2] & H3 & H4); exists n'; auto.
Qed.

Section Search.
Context (compar : Z -> Z -> Z) (k p0 : Z).

(** The node above, at the top the one the caller has. *)
Definition node_above (x : ctx) : Z := match x with [] => p0 | s :: _ => step_addr s end.

(** The search stays in the tree [t0]. *)
Definition searched (t0 : tree) (size : nat) (res : option (slot * Z * stack)) : Prop :=
  match res with
  | None => exists x, plug x E = t0 /\ on_path compar k x
  | Some (rootp, retval, stk) => exists x c l a ka r, plug x (T c l a ka r) = t0 /\ on_path compar k x /\ compar k ka = 0 /\
      rootp = slot_of x /\ retval = node_above x /\ slots stk = stack_of x /\ (size <= stacksize stk)%nat
  end.

Lemma push_grow_size stk s : (stacksize stk <= stacksize (push_grow stk s))%nat.
Proof. cbn [push_grow stacksize]. destruct (Nat.eqb _ _); lia. Qed.

Lemma tdelete_search_spec {Res} fuel : forall st x t stk,
  at_pos st x t -> t <> E -> on_path compar k x -> slots stk = stack_of x -> (height t <= fuel)%nat ->
  exists res, @tdelete_search compar Res fuel st k (slot_of x) (node_above x) stk = Next res /\ searched (plug x t) (stacksize stk) res.
Proof.
  induction fuel as [|fuel IH]; intros st x t stk Hp Ht Hpa Hsl Hf; destruct t as [|c l a ka r]; try congruence; [cbn [height] in Hf; lia|].
  destruct (at_pos_node _ _ _ _ _ _ _ Hp) as [Hn _]. cbn [tdelete_search]. rewrite (at_pos_slot _ _ _ Hp). cbn [flow_bind addr].
  unfold get_node at 1. rewrite Hn. cbn [flow_bind key]. destruct (Z.eqb_spec (compar k ka) 0) as [Hz|Hk].
  { eexists. split; [reflexivity|]. exists x, c, l, a, ka, r. auto 10. }
  assert (exists s t, fill s t = T c l a ka r /\ slot_of (s :: x) = (if compar k ka <? 0 then LeftOf a else RightOf a) /\ step_addr s = a /\ on_path compar k (s :: x) /\ (height t <= fuel)%nat)
    as (s & t & Hfill & Hslot & Ha & Hpa' & Hh).
  { cbn [height] in Hf. destruct (Z.ltb_spec (compar k ka) 0) as [H|H]; [exists (L c a ka r), l|exists (R c a ka l), r]; repeat split; try lia; (apply Forall_cons; split; [lia|exact Hpa]). }
  rewrite <- Hslot. assert (at_pos st (s :: x) t) as Hp' by (apply at_pos_up; rewrite Hfill; exact Hp). rewrite (at_pos_slot _ _ _ Hp'). cbn [flow_bind].
  destruct t as [|c' l' a' k' r'].
  - cbn [addr Z.eqb NULL]. eexists. split; [reflexivity|]. exists (s :: x). cbn [plug]. rewrite Hfill. auto.
  - rewrite (proj2 (Z.eqb_neq _ _) (red_addr _ _ _ Hp' ltac:(discriminate))). subst a.
    destruct (IH st (s :: x) (T c' l' a' k' r') (push_grow stk (slot_of x)) Hp' ltac:(discriminate) Hpa') as (res & Hres & Hs); [cbn [push_grow slots stack_of]; rewrite Hsl; reflexivity|exact Hh|].
    exists res. split; [exact Hres|]. cbn [plug] in Hs. rewrite Hfill in Hs. pose proof (push_grow_size stk (slot_of x)).
    destruct res as [[[rootp retval] stk']|]; [|exact Hs]. destruct Hs as (x1 & c1 & l1 & a1 & ka1 & r1 & Hs). exists x1, c1, l1, a1, ka1, r1. intuition lia.
Qed.
End Search.

(** Down to the leftmost node. *)
Lemma tdelete_successor_spec {Res} fuel : forall st s x t stk,
  at_pos st (s :: x) t -> t <> E -> slots stk = stack_of x -> (height t <= fuel)%nat ->
  exists y c b kb r stk', @tdelete_successor Res fuel st (slot_of x) (slot_of (s :: x)) stk = Next (slot_of (y ++ s :: x), stk') /\
    plug y (T c E b kb r) = t /\ before y = [] /\ slots stk' = stack_of (y ++ s :: x) /\ (stacksize stk <= stacksize stk')%nat.
Proof.
  induction fuel as [|fuel IH]; intros st s x t stk Hp Ht Hsl Hf; destruct t as [|c l a ka r]; try congruence; [cbn [height] in Hf; lia|].
  destruct (at_pos_node _ _ _ _ _ _ _ Hp) as [Hn _]. cbn [tdelete_successor]. rewrite (at_pos_slot _ _ _ Hp). cbn [flow_bind addr get_slot].
  unfold get_node at 1. rewrite Hn. cbn [flow_bind Tsearch.left]. pose proof (push_grow_size stk (slot_of x)) as Hsz.
  destruct l as [|cl ll al kl rl].
  - cbn [addr Z.eqb NULL]. exists [], c, a, ka, r. eexists. split; [reflexivity|]. split; [reflexivity|]. split; [reflexivity|].
    cbn [push_grow slots stack_of app]. rewrite Hsl. auto.
  - pose proof (proj1 (at_pos_left _ _ _ _ _ _ _) Hp) as Hp'. rewrite (proj2 (Z.eqb_neq _ _) (red_addr _ _ _ Hp' ltac:(discriminate))).
    destruct (IH st (L c a ka r) (s :: x) (T cl ll al kl rl) (push_grow stk (slot_of x)) Hp' ltac:(discriminate)) as (y & c' & b & kb & r' & stk' & Hs & Hy & Hbe & Hsl' & Hsz').
    { cbn [push_grow slots stack_of]. rewrite Hsl. reflexivity. }
    { cbn [height] in *. lia. }
    exists (y ++ [L c a ka r]), c', b, kb, r', stk'. rewrite <- app_assoc. cbn [app]. split; [exact Hs|]. split; [rewrite plug_app, Hy; reflexivity|].
    split; [|split; [exact Hsl'|lia]]. clear - Hbe. induction y as [|[] y IH]; [reflexivity| |]; cbn [app before] in *; [auto|]. apply app_eq_nil in Hbe as [_ Hbe]. destruct (entries l); discriminate.
Qed.

(** ** Taking a node out *)

(** The node [u] is replaced by its only child [t]. *)
Lemma at_pos_bypass {Res} st x c lu u ku ru t : at_pos st x (T c lu u ku ru) -> (lu = E /\ t = ru) \/ (ru = E /\ t = lu) ->
  exists st', @set_slot Res st (slot_of x) (addr t) = Next st' /\ at_pos st' x t /\ nodes st' !! u = nodes st !! u /\ u ∉ tree_addrs t ++ ctx_addrs x.
Proof.
  intros [Hc Ht Hn] Hor. apply tree_ok_T in Ht as (_ & Tl & Tr). rewrite tree_addrs_T in Hn. cbn [app] in Hn. apply NoDup_cons in Hn as [Hu Hn].
  replace (tree_addrs lu ++ tree_addrs ru) with (tree_addrs t) in * by (destruct Hor as [[-> ->]|[-> ->]]; cbn; rewrite ?app_nil_r; reflexivity).
  assert (tree_ok st t) as Htt by (destruct Hor as [[-> ->]|[-> ->]]; assumption). clear Tl Tr Hor. apply NoDup_app in Hn as (N1 & Nd & N2).
  destruct (ctx_ok_set (R := Res) _ _ _ (addr t) Hc N2) as (st' & Hs & Hc' & Hsame). exists st'. split; [exact Hs|].
  split; [split; [exact Hc'| |apply NoDup_app; auto]|split; [|exact Hu]].
  - eapply tree_ok_frame; [exact Htt|]. intros b Hb. apply Hsame, Nd, Hb.
  - apply Hsame. rewrite elem_of_app in Hu. tauto.
Qed.

Lemma unchain_spec {Res} st x c lu u ku ru t rootp stk : at_pos st x (T c lu u ku ru) -> (lu = E /\ t = ru) \/ (ru = E /\ t = lu) ->
  slots stk = stack_of x -> (x = [] -> rootp = RootSlot) ->
  exists st', @unchain Res st rootp u (addr t) stk = Next st' /\ at_pos st' x t /\ nodes st' !! u = nodes st !! u /\ u ∉ tree_addrs t ++ ctx_addrs x.
Proof.
  intros Hp Hor Hsl Hroot. destruct (at_pos_bypass (Res := Res) _ _ _ _ _ _ _ t Hp Hor) as (st' & Hs & Hrest). exists st'. split; [|exact Hrest]. rewrite <- Hs.
  unfold unchain. rewrite Hsl. destruct x as [|s x]; cbn [stack_of]; [rewrite Hroot by reflexivity; reflexivity|].
  apply at_pos_up in Hp. rewrite (at_pos_slot _ _ _ Hp), addr_fill. cbn [flow_bind get_slot].
  destruct s as [cs a ks r|cs a ks l]; cbn [fill step_addr] in *; destruct (at_pos_node _ _ _ _ _ _ _ Hp) as [Hn _]; unfold get_node at 1; rewrite Hn; cbn [flow_bind Tsearch.right].
  - pose proof (brothers_differ _ _ _ _ _ _ _ Hp ltac:(discriminate)) as Hne. cbn [addr] in Hne. rewrite (proj2 (Z.eqb_neq _ _)) by auto. reflexivity.
  - cbn [addr]. rewrite Z.eqb_refl. reflexivity.
Qed.

(** The entries after the deletion: the node [u] that is freed is the one with the key, or the next
    one, whose key then moves to the node of the key. *)
Inductive removed (compar : Z -> Z -> Z) (k u : Z) : list (Z * Z) -> list (Z * Z) -> Prop :=
  | removed_node es1 ku es2 : compar k ku = 0 -> removed compar k u (es1 ++ (u, ku) :: es2) (es1 ++ es2)
  | removed_next es1 a ka ku es2 : compar k ka = 0 -> removed compar k u (es1 ++ (a, ka) :: (u, ku) :: es2) (es1 ++ (a, ku) :: es2).

Lemma repaired_free st es u : repaired st es -> u ∉ es.*1 -> repaired (free_node st u) es.
Proof.
  intros (t & n & [Hc Ht Hn] & Hrb & He) Hu. exists t, n. split; [|auto]. rewrite <- He, <- tree_addrs_entries in Hu.
  split; [split; [exact (proj1 Hc)|constructor]| |exact Hn]. eapply tree_ok_frame; [exact Ht|]. intros b Hb. cbn [nodes free_node]. apply lookup_delete_ne. intros <-. contradiction.
Qed.

Lemma addrs_position x t : forall b, b ∈ (entries (plug x t)).*1 <-> b ∈ tree_addrs t ++ ctx_addrs x.
Proof.
  revert t. induction x as [|s x IH]; intros t b; cbn [plug].
  - rewrite <- tree_addrs_entries, app_nil_r. reflexivity.
  - rewrite IH, tree_addrs_fill, ctx_addrs_cons, app_assoc. reflexivity.
Qed.

(** From the removal of [u] to the end. *)
Lemma delete_rest {Res} fuel st x c lu u ku ru nu t n stk (retval : Z) :
  at_pos st x t -> u ∉ tree_addrs t ++ ctx_addrs x -> nodes st !! u = Some nu -> red nu = c ->
  rbc n x -> rbt (above_red x) n (T c lu u ku ru) -> (lu = E /\ t = ru) \/ (ru = E /\ t = lu) ->
  slots stk = stack_of x -> (length x < stacksize stk)%nat -> (length x + 2 <= fuel)%nat ->
  exists st', (let! n := @get_node Res st u in
      let! st := if red n then Next st else let! '(st, r) := rebalance fuel st (addr t) stk in if r =? NULL then Next st else set_red st r false in
      Next (retval, free_node st u)) = Next (retval, st') /\
    repaired st' (entries (plug x t)) /\ forall p, is_Some (nodes st' !! p) <-> p <> u /\ is_Some (nodes st !! p).
Proof.
  intros Hp Hu Hnu Hred Hc Ht Hor Hsl Hsz Hf. unfold get_node at 1. rewrite Hnu. cbn [flow_bind]. rewrite Hred.
  assert (forall st1, (forall p, is_Some (nodes st1 !! p) <-> is_Some (nodes st !! p)) -> repaired st1 (entries (plug x t)) ->
    exists st', Next (retval, free_node st1 u) = Next (retval, st') :> flow Res _ /\ repaired st' (entries (plug x t)) /\ forall p, is_Some (nodes st' !! p) <-> p <> u /\ is_Some (nodes st !! p)) as Hfree.
  { intros st1 Hd Hrep. eexists. split; [reflexivity|]. split; [apply repaired_free; [exact Hrep|rewrite addrs_position; exact Hu]|].
    intros p. cbn [nodes free_node]. rewrite <- Hd. destruct (decide (p = u)) as [->|Hne]; [rewrite lookup_delete_eq; split; [intros [? ?]; discriminate|tauto]|].
    rewrite lookup_delete_ne by auto. tauto. }
  destruct c; cbn [flow_bind].
  - apply Hfree; [reflexivity|]. apply (repaired_at _ _ _ n Hp Hc). apply rbt_red in Ht as (_ & Hl & Hr). destruct Hor as [[_ ->]|[_ ->]]; auto using rbt_weaken.
  - destruct n as [|n]; [contradiction|]. destruct Ht as [Hl Hr]. assert (short st x t n) as Hsh.
    { split; [exact Hp|exact Hc|]. assert (rbt false n t) as Ht by (destruct Hor as [[_ ->]|[_ ->]]; assumption). destruct (is_red_tree t) eqn:E; [apply rbt_blacken; assumption|exact Ht]. }
    destruct (rebalance_spec (Res := Res) fuel st x t n stk Hsh Hsl (or_introl (conj Hf Hsz))) as (st1 & Hb & Hrep).
    assert (same_nodes st (let! '(st, r) := @rebalance Res fuel st (addr t) stk in if r =? NULL then Next st else set_red st r false)) as Hsame.
    { intros st2 E p. revert st2 E p. apply (via_bind fst id); [apply via_rebalance|]. intros [st2 r]. cbn [fst]. apply via_state. same_walk. }
    rewrite Hb. cbn [flow_bind]. apply Hfree; [exact (Hsame _ Hb)|exact Hrep].
Qed.

Lemma same_unchain {R} st rootp u r stk : @same_nodes R st (unchain st rootp u r stk).
Proof. unfold unchain. destruct (slots stk); same_walk. Qed.

Section Found.
Context (compar : Z -> Z -> Z) (k : Z).

(** The outcome of deleting, with [es] the entries before. *)
Definition deletes {Res} (st : tstate) (es : list (Z * Z)) (retval : Z) (c : flow Res (Z * tstate)) : Prop :=
  exists st' es' u, c = Next (retval, st') /\ removed compar k u es es' /\ repaired st' es' /\
    forall p, is_Some (nodes st' !! p) <-> p <> u /\ is_Some (nodes st !! p).

Lemma rbc_rekey y c a ka kb l x : forall n, rbc n (y ++ R c a ka l :: x) ->
  rbc n (y ++ R c a kb l :: x) /\ above_red (y ++ R c a kb l :: x) = above_red (y ++ R c a ka l :: x).
Proof.
  induction y as [|s y IH]; intros n H; [split; [exact H|reflexivity]|]. cbn [app rbc above_red] in *. destruct H as [Hs H]. split; [|reflexivity]. split; [exact Hs|].
  destruct (step_red s); [destruct H as [Ha H]|]; destruct (IH _ H) as [H1 H2]; [rewrite H2; auto|exact H1].
Qed.

Lemma stack_rekey y c a ka kb l x : stack_of (y ++ R c a ka l :: x) = stack_of (y ++ R c a kb l :: x).
Proof. induction y as [|s y IH]; [reflexivity|]. cbn [app stack_of]. rewrite IH. destruct y as [|[] y]; reflexivity. Qed.

(** The child of a node that has at most one. *)
Lemma only_child {Res} st x c l a ka r : at_pos st x (T c l a ka r) -> l = E \/ r = E ->
  exists t, ((l = E /\ t = r) \/ (r = E /\ t = l)) /\
    (let! v := @get_slot Res st (LeftOf a) in if v =? NULL then get_slot st (RightOf a) else Next v) = Next (addr t).
Proof.
  intros Hp Hor. destruct (at_pos_node _ _ _ _ _ _ _ Hp) as [Hn _]. cbn [get_slot]. unfold get_node. rewrite Hn. cbn [flow_bind Tsearch.left Tsearch.right].
  destruct l as [|cl ll al kl rl]; [exists r; auto|]. exists (T cl ll al kl rl). split; [destruct Hor; [discriminate|auto]|].
  apply at_pos_left in Hp. rewrite (proj2 (Z.eqb_neq _ _) (red_addr _ _ _ Hp ltac:(discriminate))). reflexivity.
Qed.

Lemma delete_at_most_one_child {Res} fuel st x c l a ka r N stk retval :
  at_pos st x (T c l a ka r) -> rbt false N (plug x (T c l a ka r)) -> compar k ka = 0 -> l = E \/ r = E ->
  slots stk = stack_of x -> (height (plug x (T c l a ka r)) <= stacksize stk)%nat -> (height (plug x (T c l a ka r)) < fuel)%nat ->
  deletes st (entries (plug x (T c l a ka r))) retval (@tdelete_found Res fuel st (slot_of x) retval stk).
Proof.
  intros Hp Hrb Hk Hor Hsl Hsz Hf. pose proof (height_plug x (T c l a ka r)) as Hh. cbn [height] in Hh.
  unfold tdelete_found, choose_unchained. rewrite (at_pos_slot _ _ _ Hp). cbn [flow_bind addr]. destruct (at_pos_node _ _ _ _ _ _ _ Hp) as [Hn _].
  cbn [get_slot]. unfold get_node at 1 2. rewrite Hn. cbn [flow_bind Tsearch.left Tsearch.right].
  assert ((addr l =? NULL) || (addr r =? NULL) = true) as -> by (destruct Hor as [-> | ->]; [reflexivity|apply orb_true_r]). cbn [flow_bind].
  destruct (only_child (Res := Res) _ _ _ _ _ _ _ Hp Hor) as (t & Ht & Hchild). change (get_slot st (LeftOf a)) with (let! n := @get_node Res st a in Next (Tsearch.left n)) in Hchild.
  destruct (let! n := get_node st a in Next (Tsearch.left n)) as [v| | |]; try discriminate. cbn [flow_bind get_slot] in *. rewrite Hchild. cbn [flow_bind].
  destruct (unchain_spec (Res := Res) _ _ _ _ _ _ _ _ (slot_of x) stk Hp Ht Hsl ltac:(intros ->; reflexivity)) as (st1 & Hs & Hp1 & Hn1 & Hu).
  pose proof (same_unchain _ _ _ _ _ _ Hs) as Hd1. rewrite Hs. cbn [flow_bind]. rewrite Z.eqb_refl. cbn [flow_bind].
  destruct (rbt_unplug _ _ _ Hrb) as (n & Hc & Hrt). rewrite Hn in Hn1.
  destruct (delete_rest (Res := Res) fuel st1 x c l a ka r _ t n stk retval Hp1 Hu Hn1 eq_refl Hc Hrt Ht Hsl ltac:(lia) ltac:(lia)) as (st' & -> & Hrep & Hd).
  exists st', (entries (plug x t)), a. split; [reflexivity|]. split; [|split; [exact Hrep|]].
  - rewrite !entries_plug. cbn [entries]. destruct Ht as [[-> ->]|[-> ->]]; cbn [entries app]; rewrite <- ?app_assoc; cbn [app]; [|rewrite !app_assoc]; constructor; exact Hk.
  - intros p. rewrite Hd, Hd1. reflexivity.
Qed.

Lemma delete_two_children {Res} fuel st x c l a ka r N stk retval :
  at_pos st x (T c l a ka r) -> rbt false N (plug x (T c l a ka r)) -> compar k ka = 0 -> l <> E -> r <> E ->
  slots stk = stack_of x -> (height (plug x (T c l a ka r)) <= stacksize stk)%nat -> (height (plug x (T c l a ka r)) < fuel)%nat ->
  deletes st (entries (plug x (T c l a ka r))) retval (@tdelete_found Res fuel st (slot_of x) retval stk).
Proof.
  intros Hp Hrb Hk Hl Hr Hsl Hsz Hf. pose proof (height_plug x (T c l a ka r)) as Hh. cbn [height] in Hh.
  pose proof (proj1 (at_pos_left _ _ _ _ _ _ _) Hp) as Hpl. pose proof (proj1 (at_pos_right _ _ _ _ _ _ _) Hp) as Hpr.
  unfold tdelete_found, choose_unchained. rewrite (at_pos_slot _ _ _ Hp). cbn [flow_bind addr]. destruct (at_pos_node _ _ _ _ _ _ _ Hp) as [Hn _].
  cbn [get_slot]. unfold get_node at 1 2. rewrite Hn. cbn [flow_bind Tsearch.left Tsearch.right].
  rewrite (proj2 (Z.eqb_neq _ _) (red_addr _ _ _ Hpl Hl)), (proj2 (Z.eqb_neq _ _) (red_addr _ _ _ Hpr Hr)). cbn [orb].
  destruct (tdelete_successor_spec (Res := Res) fuel _ _ _ _ _ Hpr Hr Hsl ltac:(lia)) as (y & cu & u & ku & ru & stk' & Hs & Hy & Hbe & Hsl' & Hsz').
  cbn [slot_of] in Hs. rewrite Hs. cbn [flow_bind]. clear Hs. set (z := y ++ R c a ka l :: x) in *.
  assert (at_pos st z (T cu E u ku ru)) as Hpu by (apply plug_out; subst z; rewrite plug_app, Hy; apply plug_in; exact Hpr).
  assert (plug z (T cu E u ku ru) = plug x (T c l a ka r)) as Hz by (subst z; rewrite plug_app, Hy; reflexivity). pose proof (height_plug z (T cu E u ku ru)) as Hhz.
  rewrite Hz in Hhz. cbn [height] in Hhz. rewrite (at_pos_slot _ _ _ Hpu). cbn [flow_bind addr]. destruct (at_pos_node _ _ _ _ _ _ _ Hpu) as [Hnu _].
  unfold get_node at 1 2. rewrite Hnu. cbn [flow_bind Tsearch.left Tsearch.right addr Z.eqb NULL].
  destruct (unchain_spec (Res := Res) _ _ _ _ _ _ _ ru (slot_of x) stk' Hpu ltac:(auto) Hsl' ltac:(subst z; destruct y; discriminate)) as (st1 & Hs & Hp1 & Hn1 & Hu).
  pose proof (same_unchain _ _ _ _ _ _ Hs) as Hd1. rewrite Hs. cbn [flow_bind].
  assert (u <> a) as Hua. { intros ->. apply Hu. subst z. unfold ctx_addrs. rewrite fmap_app, join_app, !elem_of_app. right. right. left. }
  rewrite (proj2 (Z.eqb_neq _ _) Hua). rewrite Hnu in Hn1. unfold get_node at 1. rewrite Hn1. cbn [flow_bind key].
  assert (at_pos st1 x (T c l a ka (plug y ru))) as Hp1' by (apply at_pos_right, plug_out; cbn [plug]; apply plug_in in Hp1; subst z; rewrite plug_app in Hp1; exact Hp1).
  destruct (at_pos_node _ _ _ _ _ _ _ Hp1') as [Hna _]. unfold set_key, get_node at 1. rewrite Hna. cbn [flow_bind Tsearch.left Tsearch.right red].
  set (st2 := put_node st1 a _).
  assert (at_pos st2 (y ++ R c a ku l :: x) ru) as Hp2.
  { apply plug_out. rewrite plug_app. cbn [plug fill]. apply plug_in, at_pos_put with (k := ka) (c := c). exact Hp1'. }
  destruct (rbt_unplug z (T cu E u ku ru) N ltac:(rewrite Hz; exact Hrb)) as (n & Hc & Hrt). destruct (rbc_rekey y c a ka ku l x n Hc) as [Hc2 Ha2]. fold z in Ha2. rewrite <- Ha2 in Hrt.
  assert (nodes st2 !! u = Some (Node ku NULL (addr ru) cu)) as Hn2 by (subst st2; cbn [nodes put_node]; rewrite lookup_insert_ne by auto; exact Hn1).
  assert (length (y ++ R c a ku l :: x) = length z) as Hlen by (subst z; rewrite !length_app; reflexivity).
  assert (ctx_addrs (y ++ R c a ku l :: x) = ctx_addrs z) as Hca by (subst z; unfold ctx_addrs; rewrite !fmap_app; reflexivity).
  destruct (delete_rest (Res := Res) fuel st2 (y ++ R c a ku l :: x) cu E u ku ru _ ru n stk' retval Hp2 ltac:(rewrite Hca; exact Hu) Hn2 eq_refl Hc2 Hrt ltac:(auto)
    ltac:(rewrite Hsl'; apply stack_rekey) ltac:(lia) ltac:(lia)) as (st' & -> & Hrep & Hd).
  exists st', (entries (plug (y ++ R c a ku l :: x) ru)), u. split; [reflexivity|]. split; [|split; [exact Hrep|]].
  - rewrite plug_app. cbn [plug fill]. rewrite !entries_plug. cbn [entries]. rewrite <- Hy, !entries_plug, Hbe. cbn [entries app].
    rewrite <- !app_assoc. cbn [app]. rewrite !app_assoc. constructor. exact Hk.
  - intros p. rewrite Hd, <- Hd1. apply and_iff_compat_l. subst st2. cbn [nodes put_node]. destruct (decide (p = a)) as [->|Hne]; [rewrite lookup_insert_eq, Hna; split; eauto|].
    rewrite lookup_insert_ne by auto. reflexivity.
Qed.
End Found.

(** ** tdelete *)

Lemma filter_keep {A} (P : A -> Prop) `{forall x, Decision (P x)} (l : list A) : (forall x, x ∈ l -> P x) -> filter P l = l.
Proof.
  induction l as [|x l IH]; intros Hl; [reflexivity|]. rewrite filter_cons_True by (apply Hl; left). f_equal. apply IH. intros y Hy. apply Hl. right. exact Hy.
Qed.

Section Spec.
Context (compar : Z -> Z -> Z).
Hypothesis ko : key_order compar.

Lemma removed_increasing k u es es' : removed compar k u es es' -> increasing compar es -> increasing compar es'.
Proof.
  intros [es1 ku es2 _|es1 a ka ku es2 _]; rewrite !increasing_app, !increasing_cons.
  - intros (S1 & [_ S2] & S12). split; [assumption|]. split; [assumption|]. intros x y Hx Hy. apply S12; [assumption|]. right. assumption.
  - intros (S1 & (_ & Hu & S2) & S12). split; [assumption|]. split; [split; assumption|]. intros x y Hx Hy. apply elem_of_cons in Hy as [->|Hy].
    + apply (S12 x (u, ku) Hx). right. left.
    + apply S12; [assumption|]. right. right. assumption.
Qed.

Lemma removed_addrs k u es es' : removed compar k u es es' -> NoDup es.*1 -> forall p, p ∈ es'.*1 <-> p <> u /\ p ∈ es.*1.
Proof.
  intros [es1 ku es2 _|es1 a ka ku es2 _] Hn p; rewrite !fmap_app, !fmap_cons in *; cbn [fst] in *;
    rewrite !elem_of_app, !elem_of_cons; apply NoDup_app in Hn as (_ & Hd & Hn); rewrite ?NoDup_cons in Hn; repeat setoid_rewrite elem_of_cons in Hd.
  - split; [|tauto]. intros H. split; [|tauto]. intros ->. destruct H as [H|H]; [specialize (Hd _ H)|]; tauto.
  - rewrite elem_of_cons in Hn. split; [|tauto]. intros H. split; [|tauto]. intros ->. destruct H as [H|[->|H]]; [specialize (Hd _ H)|..]; tauto.
Qed.

(** The keys that are left are those that differ from the key. *)
Lemma removed_keys k u es es' : removed compar k u es es' -> increasing compar es -> es'.*2 = filter (fun ks => compar k ks <> 0) es.*2.
Proof.
  assert (forall (es1 : list (Z * Z)) ka (es2 : list (Z * Z)), compar k ka = 0 -> (forall e, e ∈ es1 -> compar e.2 ka < 0) -> (forall e, e ∈ es2 -> compar ka e.2 < 0) ->
    filter (fun ks => compar k ks <> 0) (es1.*2 ++ ka :: es2.*2) = es1.*2 ++ es2.*2) as Hmid.
  { intros es1 ka es2 Hk H1 H2. rewrite filter_app, filter_cons_False by auto. f_equal; apply filter_keep; intros ks Hi;
      apply list_elem_of_fmap in Hi as (e & -> & He); [specialize (H1 e He)|specialize (H2 e He)];
      pose proof (ko_opposite _ ko k e.2); pose proof (ko_opposite _ ko e.2 k); pose proof (ko_opposite _ ko k ka); pose proof (ko_opposite _ ko ka k);
      pose proof (ko_opposite _ ko e.2 ka); pose proof (ko_opposite _ ko ka e.2); pose proof (ko_trans _ ko ka k e.2); pose proof (ko_trans _ ko e.2 k ka); lia. }
  intros [es1 ku es2 Hk|es1 a ka ku es2 Hk]; rewrite increasing_app, increasing_cons; intros (_ & [H2 _] & H1); rewrite !fmap_app, !fmap_cons; cbn [snd].
  - symmetry. apply Hmid; [exact Hk| |exact H2]. intros e He. apply (H1 e (u, ku) He). left.
  - symmetry. apply (Hmid es1 ka ((u, ku) :: es2) Hk); [|exact H2]. intros e He. apply (H1 e (a, ka) He). left.
Qed.

(** Twice the logarithm of the number of nodes bounds the height. *)
Lemma rbt_log_height t n : rbt false n t -> (height t <= 2 * Nat.log2 (S (length (entries t))) + 1)%nat.
Proof.
  intros H. pose proof (rbt_height _ _ _ H) as Hh. pose proof (rbt_size _ _ _ H) as Hs. cbn iota in Hh.
  assert (n <= Nat.log2 (S (length (entries t))))%nat; [|lia]. apply Nat.log2_le_pow2; [lia|].
  apply Nat2Z.inj_le. rewrite Nat2Z.inj_pow, (Nat2Z.inj_succ (length _)). exact Hs.
Qed.

Lemma node_above_entry p0 x t : t <> E -> p0 = addr (plug x t) -> node_above p0 x ∈ (entries (plug x t)).*1.
Proof.
  intros Ht Hp. destruct x as [|s x]; cbn [node_above].
  - rewrite Hp. cbn [plug]. rewrite <- tree_addrs_entries. destruct t as [|c l a k r]; [congruence|]. rewrite tree_addrs_T. left.
  - apply addrs_position. rewrite ctx_addrs_cons, elem_of_app. right. left.
Qed.

Lemma tdelete_with_spec {Res} size fuel st k es :
  rbtree compar st es -> (2 * Nat.log2 (S (length es)) + 1 <= size)%nat -> (S (length es) < fuel)%nat ->
  match find_entry compar k es with
  | None => @tdelete_with compar Res size fuel st k (Some RootSlot) = Next (NULL, st)
  | Some _ => exists retval st' es' u, @tdelete_with compar Res size fuel st k (Some RootSlot) = Next (retval, st') /\ retval ∈ es.*1 /\
      removed compar k u es es' /\ rbtree compar st' es'
  end.
Proof.
  intros [(t & n & Hp & Ht & He) Hi Hd] Hsz Hf. cbn [tdelete_with get_slot flow_bind].
  assert (root st = addr t) as -> by (destruct Hp as [[Hr _] _ _]; exact Hr). rewrite <- He in *. clear es He.
  pose proof (rbt_log_height _ _ Ht) as Hlog. pose proof (height_size t) as Hhs.
  assert (t = E \/ t <> E) as [->|Ht0] by (destruct t; auto; right; discriminate); [reflexivity|].
  rewrite (proj2 (Z.eqb_neq _ _) (red_addr _ _ _ Hp Ht0)).
  destruct (tdelete_search_spec compar k (addr t) (Res := Res) fuel st [] t (Stack [] size) Hp Ht0 ltac:(constructor) eq_refl ltac:(lia)) as (res & Hs & Hres).
  cbn [slot_of node_above] in Hs. rewrite Hs. cbn [flow_bind]. clear Hs. destruct res as [[[rootp retval] stk]|]; cbn [searched plug stacksize] in Hres.
  - destruct Hres as (x & c & l & a & ka & r & Hpl & Hpa & Hk & -> & Hret & Hsl & Hle). rewrite <- Hpl in *. rewrite (path_found compar ko k x c l a ka r Hi Hpa Hk).
    assert (deletes compar k st (entries (plug x (T c l a ka r))) retval (@tdelete_found Res fuel st (slot_of x) retval stk)) as (st' & es' & u & Hdel & Hrm & Hrep & Hnod).
    { apply plug_out in Hp. assert ((l = E \/ r = E) \/ (l <> E /\ r <> E)) as [Hor|[Hl Hr]] by (destruct l; [auto|]; destruct r; [auto|]; right; split; discriminate).
      - eapply delete_at_most_one_child; eauto; lia.
      - eapply delete_two_children; eauto; lia. }
    exists retval, st', es', u. split; [exact Hdel|]. split; [rewrite Hret; apply node_above_entry; [discriminate|reflexivity]|]. split; [exact Hrm|].
    split; [exact Hrep|eapply removed_increasing; eassumption|]. intros p. rewrite Hnod, Hd. symmetry. apply (removed_addrs _ _ _ _ Hrm).
    rewrite <- tree_addrs_entries. pose proof (pos_nodup _ _ _ Hp) as Hnd. rewrite app_nil_r in Hnd. exact Hnd.
  - destruct Hres as (x & Hpl & Hpa). rewrite <- Hpl in *. rewrite (proj1 (path_missing compar ko k x Hi Hpa)). reflexivity.
Qed.

(** ** tfind *)

Lemma tfind_loop_spec {Res} fuel : forall st k x t, at_pos st x t -> on_path compar k x -> increasing compar (entries (plug x t)) -> (height t <= fuel)%nat ->
  @tfind_loop compar Res fuel st k (slot_of x) = Next (default NULL (find_entry compar k (entries (plug x t)))).
Proof.
  induction fuel as [|fuel IH]; intros st k x t Hp Hpa Hi Hf; cbn [tfind_loop]; rewrite (at_pos_slot _ _ _ Hp); cbn [flow_bind];
    (destruct t as [|c l a ka r]; [rewrite (proj1 (path_missing compar ko k x Hi Hpa)); reflexivity|]); [cbn [height] in Hf; lia|].
  cbn [addr]. destruct (at_pos_node _ _ _ _ _ _ _ Hp) as [Hn H0]. rewrite (proj2 (Z.eqb_neq _ _) H0). unfold get_node. rewrite Hn. cbn [flow_bind key].
  destruct (Z.eqb_spec (compar k ka) 0) as [Hk|Hk]; [rewrite (path_found compar ko k x c l a ka r Hi Hpa Hk); reflexivity|].
  cbn [height] in Hf. destruct (Z.ltb_spec (compar k ka) 0) as [H|H].
  - apply (IH st k (L c a ka r :: x) l); [apply at_pos_left; exact Hp|constructor; assumption|exact Hi|lia].
  - apply (IH st k (R c a ka l :: x) r); [apply at_pos_right; exact Hp|constructor; [lia|assumption]|exact Hi|lia].
Qed.

Lemma tfind_spec {Res} fuel st k es : rbtree compar st es -> (length es <= fuel)%nat ->
  @tfind compar Res fuel st k (Some RootSlot) = Next (default NULL (find_entry compar k es)).
Proof.
  intros [(t & n & Hp & Ht & <-) Hi _] Hf. pose proof (height_size t). apply (tfind_loop_spec fuel st k [] t Hp); [constructor|exact Hi|lia].
Qed.
End Spec.
