(* ===== verification/TreeOps.v ===== *)
(** The calls of misc/tsearch.c together: walking through and destroying a tree, the checks of the
    debugging version, and sequences of calls, which behave as on an ordered set of keys. *)
From S2P Require Import Prelude Rbtree Tsearch TreeHeap Tinsert Tdelete.

(** ** The checks *)

Section Check.
Context {Res : Type}.

(** What the recursion checks below a node whose colour is already counted. *)
Definition below_ok (t : tree) (d total : Z) : Prop :=
  match t with E => d = total | T c l _ _ r => exists m, total = d + Z.of_nat m /\ rbt c m l /\ rbt c m r end.

Lemma tree_is_black st t : tree_ok st t -> @is_black Res st (addr t) = Next (negb (is_red_tree t) && negb (addr t =? NULL)).
Proof.
  destruct t as [|c l a k r]; [reflexivity|]. intros [[H0 H1] _]%tree_ok_T. cbn [addr is_red_tree fst snd] in *. unfold is_black, get_node.
  rewrite (proj2 (Z.eqb_neq _ _) H0), H1, Bool.andb_true_r. reflexivity.
Qed.

Lemma below_ok_child st c t d total : tree_ok st t -> d <= total ->
  below_ok t (d + Z.b2z (negb (is_red_tree t) && negb (addr t =? NULL))) total /\ is_red_tree t && c = false <->
  rbt c (Z.to_nat (total - d)) t.
Proof.
  destruct t as [|ct l a k r]; cbn [below_ok is_red_tree addr].
  - cbn. intros _ Hd. split; [intros [H _]|intros H; split; [|reflexivity]]; lia.
  - intros [[H0 _] _]%tree_ok_T Hd. cbn [fst] in H0. rewrite (proj2 (Z.eqb_neq _ _) H0), Bool.andb_true_r. destruct ct; cbn [negb Z.b2z andb rbt].
    + rewrite Z.add_0_r. split.
      * intros [(m & -> & Hl & Hr) ->]. replace (Z.to_nat (d + Z.of_nat m - d)) with m by lia. auto.
      * intros (-> & Hl & Hr). split; [|reflexivity]. exists (Z.to_nat (total - d)). split; [lia|auto].
    + split.
      * intros [(m & -> & Hl & Hr) _]. replace (Z.to_nat (d + 1 + Z.of_nat m - d)) with (S m) by lia. auto.
      * destruct (Z.to_nat (total - d)) as [|m] eqn:E; [contradiction|]. intros [Hl Hr]. split; [|reflexivity]. exists m. split; [lia|auto].
Qed.

Lemma below_ok_le t d total : below_ok t d total -> d <= total.
Proof. destruct t as [|c l a k r]; cbn [below_ok]; [lia|]. intros (m & -> & _). lia. Qed.

(** The two children of a node. *)
Lemma below_ok_both st c l a k r d total : tree_ok st l -> tree_ok st r ->
  (below_ok l (d + Z.b2z (negb (is_red_tree l) && negb (addr l =? NULL))) total /\ is_red_tree l && c = false) /\
  (below_ok r (d + Z.b2z (negb (is_red_tree r) && negb (addr r =? NULL))) total /\ is_red_tree r && c = false) <->
  below_ok (T c l a k r) d total.
Proof.
  intros Hl Hr. assert (d <= total \/ total < d) as [Hd|Hd] by lia.
  - rewrite (below_ok_child st c l d total Hl Hd), (below_ok_child st c r d total Hr Hd). cbn [below_ok]. split.
    + intros [H1 H2]. exists (Z.to_nat (total - d)). split; [lia|auto].
    + intros (m & -> & H). replace (Z.to_nat (d + Z.of_nat m - d)) with m by lia. exact H.
  - split; [intros [[H _] _]|intros H]; apply below_ok_le in H; [|lia]. destruct (negb _ && negb _) in H; cbn [Z.b2z] in H; lia.
Qed.

Lemma check_tree_recurse_spec fuel : forall st t d total, tree_ok st t -> (height t <= fuel)%nat ->
  exists b, @check_tree_recurse Res fuel st (addr t) d total = Next b /\ (b = true <-> below_ok t d total).
Proof.
  induction fuel as [|fuel IH]; intros st t d total Ht Hf; (destruct t as [|c l a k r]; [exists (d =? total); split; [reflexivity|apply Z.eqb_eq]|]); cbn [height] in Hf; [lia|].
  pose proof (proj1 (tree_ok_T _ _ _ _ _ _) Ht) as ([H0 Hn] & Hl & Hr). cbn [fst snd] in *. cbn [check_tree_recurse addr]. rewrite (proj2 (Z.eqb_neq _ _) H0). unfold get_node at 1. rewrite Hn.
  cbn [flow_bind Tsearch.left Tsearch.right red]. rewrite (tree_is_black _ _ Hl), (tree_is_black _ _ Hr), (tree_is_red _ _ Hl), (tree_is_red _ _ Hr). cbn [flow_bind].
  setoid_rewrite <- (below_ok_both st c l a k r d total Hl Hr). set (dl := d + _). set (dr := d + _).
  destruct (IH st l dl total Hl ltac:(lia)) as (b1 & -> & H1). cbn [flow_bind]. destruct b1; cbn [negb]; [|exists false; split; [reflexivity|]; split; [discriminate|]; intros [[H _] _]; apply H1 in H; discriminate].
  destruct (IH st r dr total Hr ltac:(lia)) as (b2 & -> & H2). cbn [flow_bind]. destruct b2; cbn [negb]; [|exists false; split; [reflexivity|]; split; [discriminate|]; intros [_ [H _]]; apply H2 in H; discriminate].
  destruct (is_red_tree l && c) eqn:Hlc; [exists false; split; [reflexivity|]; split; [discriminate|]; intros [[_ H] _]; discriminate|].
  exists (negb (is_red_tree r && c)). split; [reflexivity|]. rewrite Bool.negb_true_iff. tauto.
Qed.

Lemma check_count_spec fuel : forall st t cnt, tree_ok st t -> (height t <= fuel)%nat ->
  exists v, @check_count Res fuel st (addr t) cnt = Next v /\ forall pc n, rbt pc n t -> v = cnt + Z.of_nat n.
Proof.
  induction fuel as [|fuel IH]; intros st t cnt Ht Hf; (destruct t as [|c l a k r]; [exists cnt; split; [reflexivity|intros pc n ->; lia]|]); cbn [height] in Hf; [lia|].
  pose proof (proj1 (tree_ok_T _ _ _ _ _ _) Ht) as ([H0 Hn] & Hl & Hr). cbn [fst snd] in *. cbn [check_count addr]. rewrite (proj2 (Z.eqb_neq _ _) H0). unfold get_node at 1. rewrite Hn.
  cbn [flow_bind Tsearch.left red]. destruct (IH st l (cnt + Z.b2z (negb c)) Hl ltac:(lia)) as (v & Hv & Hcount). exists v. split; [exact Hv|].
  intros pc n Hrb. destruct c; cbn [negb Z.b2z rbt] in *; [destruct Hrb as (_ & Hrb & _); rewrite (Hcount _ _ Hrb); lia|].
  destruct n as [|n]; [contradiction|]. destruct Hrb as [Hrb _]. rewrite (Hcount _ _ Hrb). lia.
Qed.

(** C35: The checks of the debugging version terminate on every tree in memory, make its root
    black, change nothing else, and all assertions hold exactly when the tree is a red-black tree. *)
Theorem check_tree_correct fuel st t :
  at_pos st [] t -> (height t <= fuel)%nat ->
  exists b st', @check_tree Res fuel st (root st) = Next (b, st') /\ at_pos st' [] (blacken t) /\ (b = true <-> exists n, rbt false n (blacken t)).
Proof.
  intros Hp Hf. assert (root st = addr t) as -> by (destruct Hp as [[Hr _] _ _]; exact Hr). destruct t as [|c l a k r].
  { exists true, st. split; [reflexivity|]. split; [exact Hp|]. split; [intros _; exists 0%nat; reflexivity|reflexivity]. }
  cbn [height] in Hf. destruct (at_pos_node _ _ _ _ _ _ _ Hp) as [_ H0]. unfold check_tree. cbn [addr]. rewrite (proj2 (Z.eqb_neq _ _) H0).
  destruct (at_pos_set_red (R := Res) _ _ _ _ _ _ _ false Hp) as (st' & -> & Hp'). cbn [flow_bind]. destruct (at_pos_node _ _ _ _ _ _ _ Hp') as [Hn _].
  pose proof (pos_tree _ _ _ Hp') as Ht. pose proof (proj1 (tree_ok_T _ _ _ _ _ _) Ht) as (_ & Hl & _). unfold get_node. rewrite Hn. cbn [flow_bind Tsearch.left].
  destruct (check_count_spec fuel st' l 0 Hl ltac:(lia)) as (v & -> & Hv). cbn [flow_bind].
  destruct (check_tree_recurse_spec fuel st' (T false l a k r) 0 v Ht ltac:(cbn [height]; lia)) as (b & Hb & Hiff). cbn [addr] in Hb. rewrite Hb. cbn [flow_bind].
  exists b, st'. split; [reflexivity|]. split; [exact Hp'|]. rewrite Hiff. cbn [below_ok blacken]. split.
  - intros (m & _ & Hm). exists (S m). exact Hm.
  - intros ([|m] & Hm); [contradiction|]. destruct Hm as [Hml Hmr]. exists m. split; [apply (Hv _ _ Hml)|auto].
Qed.
End Check.

(** ** Walking and destroying *)

Section Walk.
Context {Res : Type}.

(** The calls for a tree. *)
Fixpoint walk (t : tree) (level : Z) : list (Z * VISIT * Z) :=
  match t with
  | E => []
  | T _ E a _ E => [(a, leaf, level)]
  | T _ l a _ r => (a, preorder, level) :: walk l (level + 1) ++ (a, postorder, level) :: walk r (level + 1) ++ [(a, endorder, level)]
  end.

Lemma trecurse_spec fuel : forall st t level, tree_ok st t -> t <> E -> (height t <= fuel)%nat ->
  @trecurse Res fuel st (addr t) level = Next (walk t level).
Proof.
  induction fuel as [|fuel IH]; intros st t level Ht H0 Hf; destruct t as [|c l a k r]; try congruence; cbn [height] in Hf; [lia|].
  apply tree_ok_T in Ht as ([Ha Hn] & Hl & Hr). cbn [fst snd] in *. cbn [trecurse addr]. unfold get_node. rewrite Hn. cbn [flow_bind Tsearch.left Tsearch.right].
  assert (forall t, tree_ok st t -> (height t <= fuel)%nat -> (if addr t =? NULL then Next [] else @trecurse Res fuel st (addr t) (level + 1)) = Next (walk t (level + 1))) as Hsub.
  { intros t Ht Hh. destruct t as [|ct lt at_ kt rt]; [reflexivity|]. pose proof (proj1 (tree_ok_T _ _ _ _ _ _) Ht) as ([Hat _] & _). cbn [fst] in Hat.
    change (addr (T ct lt at_ kt rt) =? NULL) with (at_ =? NULL). rewrite (proj2 (Z.eqb_neq _ _) Hat). apply IH; [exact Ht|discriminate|exact Hh]. }
  rewrite (Hsub l Hl) by lia. rewrite (Hsub r Hr) by lia. cbn [flow_bind]. clear Hsub.
  destruct l as [|cl ll al kl rl], r as [|cr lr ar kr rr]; cbn [addr]; try reflexivity;
    repeat match goal with H : tree_ok st (T _ _ ?b _ _) |- _ => apply tree_ok_T in H as ([?Hb _] & _); cbn [fst] in *; rewrite (proj2 (Z.eqb_neq b NULL)) by assumption end; reflexivity.
Qed.

(** The visits that show a node in its place in the order. *)
Definition in_order (v : VISIT) : bool := match v with postorder | leaf => true | _ => false end.

Lemma walk_in_order t : forall level, (filter (fun c => in_order c.1.2) (walk t level)).*1.*1 = (entries t).*1.
Proof.
  induction t as [|c l IHl a k r IHr]; intros level; [reflexivity|].
  assert (walk (T c l a k r) level = [(a, leaf, level)] /\ l = E /\ r = E \/
    walk (T c l a k r) level = (a, preorder, level) :: walk l (level + 1) ++ (a, postorder, level) :: walk r (level + 1) ++ [(a, endorder, level)]) as [(-> & -> & ->)| ->]
    by (destruct l, r; auto); [reflexivity|].
  rewrite filter_cons_False by (cbn; auto). rewrite filter_app, filter_cons_True by exact I. rewrite filter_app, filter_cons_False by (cbn; auto). rewrite filter_nil, app_nil_r.
  cbn [entries]. rewrite !fmap_app, !fmap_cons, IHl, IHr. reflexivity.
Qed.

Lemma walk_levels t : forall level c, c ∈ walk t level -> level <= c.2 < level + Z.of_nat (height t).
Proof.
  induction t as [|ct l IHl a k r IHr]; intros level c Hc; [inversion Hc|]. cbn [height].
  assert (c.2 = level \/ c ∈ walk l (level + 1) \/ c ∈ walk r (level + 1)) as [-> | [H|H]].
  { destruct l as [|cl ll al kl rl], r as [|cr lr ar kr rr]; cbn [walk] in Hc; rewrite ?elem_of_cons, ?elem_of_app, ?elem_of_cons, ?elem_of_app, ?elem_of_cons, ?elem_of_nil in Hc;
      repeat match goal with H : _ \/ _ |- _ => destruct H as [H|H] end; try (subst c; left; reflexivity); try contradiction; auto. }
  - lia.
  - specialize (IHl _ _ H). lia.
  - specialize (IHr _ _ H). lia.
Qed.

(** The nodes of a subtree are freed, the others stay. *)
Lemma tdestroy_recurse_spec fuel : forall st t, tree_ok st t -> NoDup (tree_addrs t) -> t <> E -> (height t <= fuel)%nat ->
  exists ks st', @tdestroy_recurse Res fuel st (addr t) = Next (ks, st') /\ ks ≡ₚ (entries t).*2 /\
    forall p, nodes st' !! p = if decide (p ∈ tree_addrs t) then None else nodes st !! p.
Proof.
  induction fuel as [|fuel IH]; intros st t Ht Hnd H0 Hf; destruct t as [|c l a k r]; try congruence; cbn [height] in Hf; [lia|].
  apply tree_ok_T in Ht as ([Ha Hn] & Hl & Hr). cbn [fst snd] in *. rewrite tree_addrs_T in *. apply NoDup_cons in Hnd as [Hal Hnd]. apply NoDup_app in Hnd as (Nl & Nd & Nr). rewrite elem_of_app in Hal.
  assert (forall st1 t, tree_ok st1 t -> NoDup (tree_addrs t) -> (height t <= fuel)%nat ->
    exists ks st', (if addr t =? NULL then Next ([], st1) else @tdestroy_recurse Res fuel st1 (addr t)) = Next (ks, st') /\ ks ≡ₚ (entries t).*2 /\
      forall p, nodes st' !! p = if decide (p ∈ tree_addrs t) then None else nodes st1 !! p) as Hsub.
  { intros st1 t Ht Hdt Hh. destruct t as [|ct lt at_ kt rt]; [exists [], st1; split; [reflexivity|]; split; [reflexivity|]; intros p; rewrite decide_False by (intros H; inversion H); reflexivity|].
    pose proof (proj1 (tree_ok_T _ _ _ _ _ _) Ht) as ([Hat _] & _). cbn [fst] in Hat. change (addr (T ct lt at_ kt rt) =? NULL) with (at_ =? NULL). rewrite (proj2 (Z.eqb_neq _ _) Hat).
    apply IH; [exact Ht|exact Hdt|discriminate|exact Hh]. }
  cbn [tdestroy_recurse addr]. unfold get_node at 1. rewrite Hn. cbn [flow_bind Tsearch.left Tsearch.right].
  destruct (Hsub st l Hl Nl ltac:(lia)) as (ls & st1 & -> & Hls & Hst1). cbn [flow_bind]. unfold get_node at 1.
  rewrite Hst1, decide_False, Hn by tauto. cbn [flow_bind Tsearch.right].
  assert (tree_ok st1 r) as Hr1 by (eapply tree_ok_frame; [exact Hr|]; intros b Hb; rewrite Hst1, decide_False; [reflexivity|]; intros Hb'; exact (Nd b Hb' Hb)).
  destruct (Hsub st1 r Hr1 Nr ltac:(lia)) as (rs & st2 & -> & Hrs & Hst2). cbn [flow_bind]. unfold get_node at 1.
  rewrite Hst2, decide_False, Hst1, decide_False, Hn by tauto. cbn [flow_bind key].
  exists (ls ++ rs ++ [k]), (free_node st2 a). split; [reflexivity|]. split.
  - cbn [entries]. rewrite fmap_app, fmap_cons, Hls, Hrs. cbn [snd]. solve_Permutation.
  - intros p. cbn [nodes free_node]. destruct (decide (p = a)) as [->|Hne]; [rewrite lookup_delete_eq, decide_True by left; reflexivity|].
    rewrite lookup_delete_ne by auto. rewrite Hst2, Hst1. repeat case_decide; rewrite ?elem_of_cons, ?elem_of_app in *; tauto || reflexivity.
Qed.
End Walk.

(** ** Sequences of calls *)

Inductive call := CallTsearch (k : Z) | CallTfind (k : Z) | CallTdelete (k : Z).

Section Calls.
Context (compar : Z -> Z -> Z) (alloc : gmap Z node_t -> Z).

Definition run_call {R} (fuel : nat) (st : tstate) (c : call) : flow R (Z * tstate) :=
  match c with
  | CallTsearch k => tsearch compar fuel (alloc (nodes st)) st k (Some RootSlot)
  | CallTfind k => let! p := tfind compar fuel st k (Some RootSlot) in Next (p, st)
  | CallTdelete k => tdelete compar fuel st k (Some RootSlot)
  end.

Fixpoint run_calls {R} (fuel : nat) (st : tstate) (cs : list call) : flow R (list Z * tstate) :=
  match cs with
  | [] => Next ([], st)
  | c :: cs =>
      let! '(r, st) := run_call fuel st c in
      let! '(rs, st) := run_calls fuel st cs in
      Next (r :: rs, st)
  end.

(** The set of keys, as an increasing list: whether the call delivers a node, and the keys after it. *)
Definition key_in (k : Z) (ks : list Z) : bool := existsb (fun x => compar k x =? 0) ks.

Fixpoint insert_key (k : Z) (ks : list Z) : list Z :=
  match ks with [] => [k] | x :: ks => if compar k x <? 0 then k :: x :: ks else x :: insert_key k ks end.

Definition set_call (ks : list Z) (c : call) : bool * list Z :=
  match c with
  | CallTsearch k => (true, if key_in k ks then ks else insert_key k ks)
  | CallTfind k => (key_in k ks, ks)
  | CallTdelete k => (key_in k ks, filter (fun x => compar k x <> 0) ks)
  end.

Fixpoint set_calls (ks : list Z) (cs : list call) : list bool * list Z :=
  match cs with
  | [] => ([], ks)
  | c :: cs => let '(b, ks) := set_call ks c in let '(bs, ks) := set_calls ks cs in (b :: bs, ks)
  end.

Hypothesis ko : key_order compar.
Hypothesis alloc_fresh : forall h, alloc h <> NULL /\ h !! alloc h = None.

Lemma find_entry_key k es : match find_entry compar k es with Some p => key_in k es.*2 = true /\ p ∈ es.*1 | None => key_in k es.*2 = false end.
Proof.
  induction es as [|[a ka] es IH]; [reflexivity|]. cbn [find_entry]. rewrite !fmap_cons. unfold key_in in *. cbn [fst snd existsb].
  destruct (compar k ka =? 0); [split; [reflexivity|left]|]. cbn [orb]. destruct (find_entry compar k es); [split; [|right]; tauto|exact IH].
Qed.

Lemma insert_entry_keys q k es : (insert_entry compar (q, k) es).*2 = insert_key k es.*2.
Proof. induction es as [|[a ka] es IH]; [reflexivity|]. cbn [insert_entry snd]. rewrite !fmap_cons. cbn [snd insert_key]. destruct (compar k ka <? 0); [reflexivity|]. rewrite fmap_cons, IH. reflexivity. Qed.

Lemma rbtree_addr st es p : rbtree compar st es -> p ∈ es.*1 -> p <> NULL.
Proof.
  intros [(t & n & [_ Ht _] & _ & <-) _ _] Hin. rewrite <- tree_addrs_entries in Hin. apply list_elem_of_fmap in Hin as (ce & -> & Hin).
  apply (proj1 (Forall_forall _ _) Ht ce Hin).
Qed.

Lemma filter_no_key k ks : key_in k ks = false -> filter (fun x => compar k x <> 0) ks = ks.
Proof.
  intros H. apply filter_keep. intros x Hx E. assert (key_in k ks = true) as H1; [|congruence]. apply existsb_exists. exists x. split; [apply list_elem_of_In; exact Hx|apply Z.eqb_eq, E].
Qed.

Lemma enough_stack n : Z.of_nat n < 2 ^ 20 - 1 -> (2 * Nat.log2 (S n) + 1 <= 40)%nat.
Proof.
  intros H. assert (Nat.log2 (S n) < 20)%nat; [|lia]. apply Nat.log2_lt_pow2; [lia|]. apply Nat2Z.inj_lt. rewrite Nat2Z.inj_pow, (Nat2Z.inj_succ n).
  change (Z.of_nat 2 ^ Z.of_nat 20) with (2 ^ 20). lia.
Qed.

(** One call. *)
Lemma call_spec {Res} fuel st c es : rbtree compar st es -> Z.of_nat (length es) < 2 ^ 20 - 1 -> (2 * length es + 2 <= fuel)%nat ->
  exists r st' es', @run_call Res fuel st c = Next (r, st') /\ rbtree compar st' es' /\ set_call es.*2 c = (negb (r =? NULL), es'.*2) /\ (length es' <= S (length es))%nat.
Proof.
  intros Hrb Hlen Hf. assert (forall p, p ∈ es.*1 -> negb (p =? NULL) = true) as Haddr by (intros p Hp; rewrite (proj2 (Z.eqb_neq _ _) (rbtree_addr _ _ _ Hrb Hp)); reflexivity).
  destruct c as [k|k|k]; cbn [run_call set_call]; pose proof (find_entry_key k es) as Hfe.
  - destruct (alloc_fresh (nodes st)) as [H0 Hfresh].
    destruct (tsearch_spec compar ko (Res := Res) fuel (alloc (nodes st)) st k es Hrb (or_intror Hfresh) ltac:(lia)) as (st' & Hr & Hrb').
    unfold tsearch_entries in *. rewrite (proj2 (Z.eqb_neq _ _) H0) in *. destruct (find_entry compar k es) as [p|]; cbn [fst snd] in *; do 3 eexists; (split; [exact Hr|]); (split; [exact Hrb'|]).
    + destruct Hfe as [-> Hp]. rewrite (Haddr p Hp). auto.
    + rewrite Hfe, insert_entry_keys, (proj2 (Z.eqb_neq _ _) H0). split; [reflexivity|]. rewrite <- (length_fmap snd), insert_entry_keys. rewrite <- (length_fmap snd es).
      generalize es.*2. intros ks. induction ks as [|x ks IH]; cbn [insert_key length]; [lia|]. destruct (compar k x <? 0); cbn [length]; lia.
  - rewrite (tfind_spec compar ko fuel st k es Hrb) by lia. cbn [flow_bind]. do 3 eexists. split; [reflexivity|]. split; [exact Hrb|]. split; [|lia].
    destruct (find_entry compar k es) as [p|]; cbn [default]; [destruct Hfe as [-> Hp]; cbn; rewrite (Haddr p Hp); reflexivity|rewrite Hfe; reflexivity].
  - pose proof (tdelete_with_spec compar ko (Res := Res) 40 fuel st k es Hrb (enough_stack _ Hlen) ltac:(lia)) as Hd. unfold tdelete. destruct (find_entry compar k es) as [p|].
    + destruct Hd as (retval & st' & es' & u & Hr & Hret & Hrm & Hrb'). do 3 eexists. split; [exact Hr|]. split; [exact Hrb'|]. destruct Hfe as [-> _]. rewrite (Haddr _ Hret).
      rewrite (removed_keys compar ko k u es es' Hrm (rb_sorted _ _ _ Hrb)). split; [reflexivity|]. destruct Hrm; rewrite !length_app; cbn [length]; lia.
    + do 3 eexists. split; [exact Hd|]. split; [exact Hrb|]. rewrite Hfe, filter_no_key by exact Hfe. auto.
Qed.

Lemma calls_spec {Res} fuel cs : forall st es, rbtree compar st es ->
  Z.of_nat (length es + length cs) < 2 ^ 20 - 1 -> (2 * (length es + length cs) + 2 <= fuel)%nat ->
  exists rs st' es', @run_calls Res fuel st cs = Next (rs, st') /\ rbtree compar st' es' /\ set_calls es.*2 cs = ((fun r => negb (r =? NULL)) <$> rs, es'.*2).
Proof.
  induction cs as [|c cs IH]; intros st es Hrb Hlen Hf; cbn [length] in *.
  - exists [], st, es. auto.
  - destruct (call_spec (Res := Res) fuel st c es Hrb ltac:(lia) ltac:(lia)) as (r & st1 & es1 & Hr & Hrb1 & Hset & Hl1).
    destruct (IH st1 es1 Hrb1 ltac:(lia) ltac:(lia)) as (rs & st' & es' & Hrs & Hrb' & Hsets).
    exists (r :: rs), st', es'. cbn [run_calls set_calls]. rewrite Hr. cbn [flow_bind]. rewrite Hrs. cbn [flow_bind]. rewrite Hset, Hsets. auto.
Qed.
End Calls.

(** ** A tree as a state *)

Definition state_of (t : tree) : tstate := TState (addr t) (list_to_map (cells t)).

Lemma state_of_pos t : NoDup (tree_addrs t) -> (forall a, a ∈ tree_addrs t -> a <> NULL) -> at_pos (state_of t) [] t.
Proof.
  intros Hn H0. split; [split; [reflexivity|constructor]| |rewrite app_nil_r; exact Hn].
  apply Forall_forall. intros [a n] Hin. split; [apply H0, list_elem_of_fmap; exists (a, n); auto|]. cbn [fst snd nodes state_of]. apply elem_of_list_to_map; assumption.
Qed.

Lemma state_of_rbtree compar t n : NoDup (tree_addrs t) -> (forall a, a ∈ tree_addrs t -> a <> NULL) -> rbt false n t -> increasing compar (entries t) ->
  rbtree compar (state_of t) (entries t).
Proof.
  intros Hn H0 Ht Hi. split; [exists t, n; auto using state_of_pos|exact Hi|]. intros p. rewrite <- tree_addrs_entries. cbn [nodes state_of]. split.
  - intros [v Hv]. apply elem_of_list_to_map_2 in Hv. apply list_elem_of_fmap. exists (p, v). auto.
  - intros Hin. apply list_elem_of_fmap in Hin as ([a v] & -> & Hin). exists v. apply elem_of_list_to_map; assumption.
Qed.

(** ** The calls *)

Section Results.
Context {Res : Type} (compar : Z -> Z -> Z).

(** C7: Any sequence of tsearch, tfind and tdelete calls on a tree of a bounded number of nodes
    returns, when memory is never exhausted, without touching memory that is not its own; a call delivers
    a node exactly when the same call on an ordered set of keys finds or stores the key, and in the end the
    tree is a red-black tree with the keys of the set. *)
Theorem tree_calls_refine alloc fuel st es cs :
  key_order compar -> (forall h, alloc h <> NULL /\ h !! alloc h = None) -> rbtree compar st es ->
  Z.of_nat (length es + length cs) < 2 ^ 20 - 1 -> (2 * (length es + length cs) + 2 <= fuel)%nat ->
  exists rs st' es', @run_calls compar alloc Res fuel st cs = Next (rs, st') /\ rbtree compar st' es' /\
    set_calls compar es.*2 cs = ((fun r => negb (r =? NULL)) <$> rs, es'.*2).
Proof. intros ko Hal. apply calls_spec; assumption. Qed.

(** C8: tsearch on a red-black tree returns the node with an equal key, or else inserts a new node at its
    place in the order and returns it, or else, when malloc fails, NULL with the keys unchanged; the tree
    stays a red-black tree.  Two rounds of the loop for each node are enough. *)
Theorem tsearch_correct fuel malloc st k es :
  key_order compar -> rbtree compar st es -> malloc = NULL \/ nodes st !! malloc = None -> (2 * length es <= fuel)%nat ->
  exists st', @tsearch compar Res fuel malloc st k (Some RootSlot) = Next ((tsearch_entries compar malloc k es).1, st') /\
    rbtree compar st' (tsearch_entries compar malloc k es).2.
Proof. intros ko. apply tsearch_spec. exact ko. Qed.

(** C9: tdelete on a red-black tree of less than 2^20 - 1 nodes returns NULL and leaves everything as it is when no
    key is equal; otherwise it returns a node the tree had, the key is gone, one node is freed, and the
    tree with the other keys is a red-black tree.  The stack of 40 slots is not overrun. *)
Theorem tdelete_correct fuel st k es :
  key_order compar -> rbtree compar st es -> Z.of_nat (length es) < 2 ^ 20 - 1 -> (S (length es) < fuel)%nat ->
  match find_entry compar k es with
  | None => @tdelete compar Res fuel st k (Some RootSlot) = Next (NULL, st)
  | Some _ => exists retval st' es' u, @tdelete compar Res fuel st k (Some RootSlot) = Next (retval, st') /\ retval ∈ es.*1 /\
      removed compar k u es es' /\ es'.*2 = filter (fun x => compar k x <> 0) es.*2 /\ rbtree compar st' es'
  end.
Proof.
  intros ko Hrb Hlen Hf. pose proof (tdelete_with_spec compar ko (Res := Res) 40 fuel st k es Hrb (enough_stack _ Hlen) Hf) as H. unfold tdelete.
  destruct (find_entry compar k es); [|exact H]. destruct H as (retval & st' & es' & u & Hr & Hret & Hrm & Hrb'). exists retval, st', es', u.
  pose proof (removed_keys compar ko k u es es' Hrm (rb_sorted _ _ _ Hrb)). auto 10.
Qed.

(** C36: twalk on a red-black tree calls the action on every node, with [postorder] or [leaf] in the order of the
    keys, and at levels up to twice the logarithm of the number of nodes. *)
Theorem twalk_correct fuel st es :
  rbtree compar st es -> (length es <= fuel)%nat ->
  exists calls, @twalk Res fuel st (root st) true = Next calls /\ (filter (fun c => in_order c.1.2) calls).*1.*1 = es.*1 /\
    forall c, c ∈ calls -> 0 <= c.2 <= 2 * Z.of_nat (Nat.log2 (S (length es))).
Proof.
  intros [(t & n & Hp & Ht & <-) _ _] Hf. assert (root st = addr t) as -> by (destruct Hp as [[Hr _] _ _]; exact Hr).
  exists (walk t 0). split; [|split; [apply walk_in_order|]].
  - unfold twalk. destruct t as [|c l a k r]; [reflexivity|]. rewrite (proj2 (Z.eqb_neq _ _) (red_addr _ _ _ Hp ltac:(discriminate))).
    apply trecurse_spec; [exact (pos_tree _ _ _ Hp)|discriminate|]. pose proof (height_size (T c l a k r)). lia.
  - intros c Hc. pose proof (walk_levels t 0 c Hc). pose proof (rbt_log_height _ _ Ht). lia.
Qed.

(** [tdestroy] frees every node of the tree once, after calling the function of the caller on its key. *)
Theorem tdestroy_correct fuel st es :
  rbtree compar st es -> (length es <= fuel)%nat ->
  exists ks st', @tdestroy Res fuel st (root st) = Next (ks, st') /\ ks ≡ₚ es.*2 /\ nodes st' = ∅.
Proof.
  intros [(t & n & Hp & Ht & <-) _ Hd] Hf. assert (root st = addr t) as -> by (destruct Hp as [[Hr _] _ _]; exact Hr). unfold tdestroy.
  destruct t as [|c l a k r].
  - exists [], st. split; [reflexivity|]. split; [reflexivity|]. apply map_eq. intros p. rewrite lookup_empty. apply eq_None_not_Some. rewrite Hd. intros H. inversion H.
  - rewrite (proj2 (Z.eqb_neq _ _) (red_addr _ _ _ Hp ltac:(discriminate))). pose proof (height_size (T c l a k r)). pose proof (pos_nodup _ _ _ Hp) as Hn. rewrite app_nil_r in Hn.
    destruct (tdestroy_recurse_spec (Res := Res) fuel st _ (pos_tree _ _ _ Hp) Hn ltac:(discriminate) ltac:(lia)) as (ks & st' & Hr & Hks & Hst').
    exists ks, st'. split; [exact Hr|]. split; [exact Hks|]. apply map_eq. intros p. rewrite lookup_empty, Hst'. case_decide as Hin; [reflexivity|].
    apply eq_None_not_Some. rewrite Hd, <- tree_addrs_entries. exact Hin.
Qed.
End Results.

(** ** Witnesses *)

Lemma sub_order : key_order Z.sub.
Proof. split; intros; lia. Qed.

(** The node 16 with two red children. *)
Definition example_tree : tree := T false (T true E 8 1 E) 16 2 (T true E 24 3 E).

Lemma example_pos : NoDup (tree_addrs example_tree) /\ (forall a, a ∈ tree_addrs example_tree -> a <> NULL).
Proof.
  change (tree_addrs example_tree) with [16; 8; 24]. split; [apply (bool_decide_unpack _); reflexivity|].
  intros a. rewrite !elem_of_cons, elem_of_nil. unfold NULL. lia.
Qed.

Lemma example_rbtree : rbtree Z.sub (state_of example_tree) (entries example_tree).
Proof.
  destruct example_pos. apply (state_of_rbtree _ _ 1); [assumption..| |].
  - cbn. auto.
  - unfold increasing. cbn. repeat (constructor; cbn; auto; try lia).
Qed.

(** An allocator that does not run out of addresses. *)
Definition new_address (h : gmap Z node_t) : Z := fresh ({[NULL]} ∪ dom h).

Lemma new_address_fresh h : new_address h <> NULL /\ h !! new_address h = None.
Proof.
  pose proof (is_fresh ({[NULL]} ∪ dom h)) as H. fold (new_address h) in H. rewrite elem_of_union, elem_of_singleton in H.
  split; [tauto|]. apply not_elem_of_dom. tauto.
Qed.

Lemma check_tree_witness :
  exists b st', @check_tree unit 3 (state_of example_tree) (root (state_of example_tree)) = Next (b, st') /\
    at_pos st' [] (blacken example_tree) /\ (b = true <-> exists n, rbt false n (blacken example_tree)).
Proof.
  apply (check_tree_correct 3 (state_of example_tree) example_tree); [|cbn; lia].
  apply state_of_pos; apply example_pos.
Defined.

Lemma tree_calls_witness : let cs := [CallTsearch 4; CallTdelete 1; CallTfind 1; CallTfind 4] in
  exists rs st' es', @run_calls Z.sub new_address unit 16 (state_of example_tree) cs = Next (rs, st') /\ rbtree Z.sub st' es' /\
    set_calls Z.sub [1; 2; 3] cs = ((fun r => negb (r =? NULL)) <$> rs, es'.*2).
Proof.
  apply (tree_calls_refine Z.sub new_address 16 (state_of example_tree) (entries example_tree)); [exact sub_order|exact new_address_fresh|exact example_rbtree|reflexivity|cbn; lia].
Defined.

Lemma tsearch_witness :
  exists st', @tsearch Z.sub unit 6 32 (state_of example_tree) 4 (Some RootSlot) = Next (32, st') /\ rbtree Z.sub st' [(8, 1); (16, 2); (24, 3); (32, 4)].
Proof. apply (tsearch_correct Z.sub 6 32 (state_of example_tree) 4 (entries example_tree)); [exact sub_order|exact example_rbtree|right; reflexivity|cbn; lia]. Defined.

Lemma tdelete_witness :
  exists retval st' es' u, @tdelete Z.sub unit 5 (state_of example_tree) 2 (Some RootSlot) = Next (retval, st') /\ retval ∈ [8; 16; 24] /\
    removed Z.sub 2 u (entries example_tree) es' /\ es'.*2 = [1; 3] /\ rbtree Z.sub st' es'.
Proof. apply (tdelete_correct Z.sub 5 (state_of example_tree) 2 (entries example_tree)); [exact sub_order|exact example_rbtree|reflexivity|cbn; lia]. Defined.

Lemma twalk_witness :
  exists calls, @twalk unit 3 (state_of example_tree) 16 true = Next calls /\ (filter (fun c => in_order c.1.2) calls).*1.*1 = [8; 16; 24] /\
    forall c, c ∈ calls -> 0 <= c.2 <= 4.
Proof. apply (twalk_correct Z.sub 3 (state_of example_tree) (entries example_tree) example_rbtree). cbn. lia. Defined.

Lemma tdestroy_witness : exists ks st', @tdestroy unit 3 (state_of example_tree) 16 = Next (ks, st') /\ ks ≡ₚ [1; 2; 3] /\ nodes st' = ∅.
Proof. apply (tdestroy_correct Z.sub 3 (state_of example_tree) (entries example_tree) example_rbtree). cbn. lia. Defined.
