(* ===== verification/TreeOverflow.v ===== *)
(** Where the stack of tdelete (misc/tsearch.c) is too small: the rotation for a red brother pushes
    a slot without comparing [sp] with [stacksize].  A red-black tree on which the push leaves the
    array of 40 slots. *)
From S2P Require Import Prelude Rbtree Tsearch TreeHeap Tinsert Tdelete TreeOps.

(** ** The tree *)

(** The tree with black nodes only and black height [n]; addresses and keys count from [i]. *)
Fixpoint perfect (n : nat) (i : Z) : tree :=
  match n with
  | O => E
  | S m => T false (perfect m i) (i + 2 ^ Z.of_nat m - 1) (i + 2 ^ Z.of_nat m - 1) (perfect m (i + 2 ^ Z.of_nat m))
  end.

(** The way up from a leftmost position of black height [n], red and black nodes in turn. *)
Fixpoint spine (m : nat) (c : bool) (n : nat) (i : Z) : ctx :=
  match m with
  | O => []
  | S m => L c i i (perfect n (i + 1)) :: spine m (negb c) (if c then n else S n) (i + 2 ^ Z.of_nat n)
  end.

(** The first address after the spine. *)
Fixpoint spine_end (m : nat) (c : bool) (n : nat) (i : Z) : Z :=
  match m with O => i | S m => spine_end m (negb c) (if c then n else S n) (i + 2 ^ Z.of_nat n) end.

(** At the bottom a black leaf, with a red brother. *)
Definition brother : tree := T true (perfect 1 3) 4 4 (perfect 1 5).
Definition path (m : nat) : ctx := L false 2 2 brother :: spine m true 2 6.
Definition bottom : tree := T false E 1 1 E.
Definition deep_tree (m : nat) : tree := plug (path m) bottom.

(** Consecutive entries. *)
Definition numbers (i : Z) (n : nat) : list (Z * Z) := (fun z => (z, z)) <$> seqZ i (Z.of_nat n).

Lemma numbers_app i n m : numbers i (n + m) = numbers i n ++ numbers (i + Z.of_nat n) m.
Proof. unfold numbers. rewrite Nat2Z.inj_add, seqZ_app by lia. apply fmap_app. Qed.

Lemma numbers_cons i n : numbers i (S n) = (i, i) :: numbers (i + 1) n.
Proof. apply (numbers_app i 1 n). Qed.

Lemma entries_perfect n : forall i, entries (perfect n i) = numbers i (2 ^ n - 1).
Proof.
  induction n as [|n IH]; intros i; [reflexivity|]. cbn [perfect entries]. rewrite !IH.
  assert (1 <= 2 ^ n)%nat by (clear; induction n as [|n IH]; cbn [Nat.pow]; lia).
  replace (2 ^ S n - 1)%nat with ((2 ^ n - 1) + S (2 ^ n - 1))%nat by (cbn [Nat.pow]; lia). rewrite numbers_app, numbers_cons.
  assert (Z.of_nat (2 ^ n - 1) = 2 ^ Z.of_nat n - 1) as -> by (rewrite Nat2Z.inj_sub, Nat2Z.inj_pow by assumption; reflexivity).
  f_equal. replace (i + (2 ^ Z.of_nat n - 1)) with (i + 2 ^ Z.of_nat n - 1) by lia. f_equal. f_equal. lia.
Qed.

Lemma spine_entries m : forall c n i, exists N, before (spine m c n i) = [] /\ after (spine m c n i) = numbers i N /\ spine_end m c n i = i + Z.of_nat N.
Proof.
  induction m as [|m IH]; intros c n i; [exists 0%nat; repeat split; cbn; lia|].
  assert (1 <= 2 ^ n)%nat as Hpos by (clear; induction n as [|n IH]; cbn [Nat.pow]; lia).
  assert (Z.of_nat (2 ^ n) = 2 ^ Z.of_nat n) as Hpow by (rewrite Nat2Z.inj_pow; reflexivity).
  destruct (IH (negb c) (if c then n else S n) (i + 2 ^ Z.of_nat n)) as (N & Hb & Ha & He). exists (2 ^ n + N)%nat.
  cbn [spine before after spine_end]. rewrite Ha, He, entries_perfect. split; [exact Hb|]. split; [|lia].
  rewrite numbers_app, Hpow. replace (2 ^ n)%nat with (S (2 ^ n - 1)) at 2 by lia. rewrite numbers_cons. reflexivity.
Qed.

Lemma rbt_perfect n : forall pc i, rbt pc n (perfect n i).
Proof. induction n as [|n IH]; intros pc i; cbn [perfect rbt]; auto. Qed.

Lemma rbc_spine m : forall c n i, (1 <= n)%nat -> rbc n (spine m c n i) /\ (c = false -> above_red (spine m c n i) = false).
Proof.
  induction m as [|m IH]; intros c n i Hn; [split; [exact I|reflexivity]|]. cbn [spine rbc sibling step_red above_red].
  destruct (IH (negb c) (if c then n else S n) (i + 2 ^ Z.of_nat n) ltac:(destruct c; lia)) as [H1 H2]. split; [|auto].
  split; [apply rbt_perfect|]. destruct c; auto.
Qed.

Lemma length_path m : length (path m) = S m.
Proof. unfold path. cbn [length]. f_equal. generalize true, 2%nat, 6. induction m as [|m IH]; intros c n i; cbn [spine length]; auto. Qed.

Lemma deep_rbt m : exists N, rbt false N (deep_tree m).
Proof.
  apply (rbt_plug (path m) 1 bottom); [|cbn; auto]. cbn [path rbc sibling step_red]. split; [cbn; auto|]. apply rbc_spine. lia.
Qed.

Lemma deep_entries m : exists N, entries (deep_tree m) = numbers 1 N /\ Z.of_nat N = spine_end m true 2 6 - 1.
Proof.
  destruct (spine_entries m true 2 6) as (N & Hb & Ha & He). exists (5 + N)%nat. unfold deep_tree. rewrite entries_plug. cbn [path before after]. rewrite Hb, Ha.
  split; [|lia]. rewrite numbers_app. reflexivity.
Qed.

Lemma numbers_increasing n : forall i, increasing Z.sub (numbers i n).
Proof.
  induction n as [|n IH]; intros i; [constructor|]. rewrite numbers_cons. apply increasing_cons. split; [|apply IH].
  intros y Hy. apply list_elem_of_fmap in Hy as (z & -> & Hz). apply elem_of_seqZ in Hz. cbn [snd]. lia.
Qed.

Lemma deep_addrs m : NoDup (tree_addrs (deep_tree m)) /\ forall a, a ∈ tree_addrs (deep_tree m) -> a <> NULL.
Proof.
  destruct (deep_entries m) as (M & HM & _).
  assert ((entries (deep_tree m)).*1 = seqZ 1 (Z.of_nat M)) as Haddr by (rewrite HM; unfold numbers; rewrite <- list_fmap_compose; apply list_fmap_id).
  split; [rewrite tree_addrs_entries, Haddr; apply NoDup_seqZ|]. intros a. rewrite tree_addrs_entries, Haddr, elem_of_seqZ. unfold NULL. lia.
Qed.

Lemma deep_rbtree m : rbtree Z.sub (state_of (deep_tree m)) (entries (deep_tree m)).
Proof.
  destruct (deep_rbt m) as (N & HN). destruct (deep_addrs m) as [H1 H2]. apply (state_of_rbtree _ _ N); [exact H1|exact H2|exact HN|].
  destruct (deep_entries m) as (M & -> & _). apply numbers_increasing.
Qed.

(** ** The calls on it *)

Section Overflow.
Context {Res : Type}.

(** The search follows the path; the stack fills up without being enlarged. *)
Lemma search_path compar k p0 st x : forall y c l a ka r fuel size,
  at_pos st (x ++ y) (T c l a ka r) -> on_path compar k (x ++ y) -> compar k ka = 0 -> (length x < fuel)%nat -> (length (x ++ y) <= size)%nat ->
  @tdelete_search compar Res fuel st k (slot_of y) (node_above p0 y) (Stack (stack_of y) size) =
    Next (Some (slot_of (x ++ y), node_above p0 (x ++ y), Stack (stack_of (x ++ y)) size)).
Proof.
  induction x as [|s x IH] using rev_ind; intros y c l a ka r fuel size Hp Hpa Hk Hf Hsz; (destruct fuel as [|fuel]; [lia|]); cbn [tdelete_search].
  - cbn [app] in *. rewrite (at_pos_slot _ _ _ Hp). cbn [flow_bind addr]. destruct (at_pos_node _ _ _ _ _ _ _ Hp) as [Hn _]. unfold get_node. rewrite Hn. cbn [flow_bind key].
    rewrite Hk. reflexivity.
  - rewrite <- app_assoc in *. cbn [app] in *. rewrite length_app in Hf, Hsz. cbn [length] in *.
    assert (at_pos st y (fill s (plug x (T c l a ka r)))) as Hpy by (apply at_pos_up, plug_out; rewrite <- plug_app; apply plug_in; exact Hp).
    pose proof (proj2 (at_pos_up _ _ _ _) Hpy) as Hps. assert (plug x (T c l a ka r) <> E) as Hne.
    { intros E. pose proof (height_plug x (T c l a ka r)) as H. rewrite E in H. cbn [height] in H. lia. }
    pose proof (red_addr _ _ _ Hps Hne) as H0. apply (proj2 (Z.eqb_neq _ _)) in H0.
    apply Forall_app in Hpa as [Hpx Hpa]. pose proof (proj1 (proj1 (Forall_cons _ _ _) Hpa)) as Hks.
    rewrite (at_pos_slot _ _ _ Hpy), addr_fill. cbn [flow_bind].
    assert (exists n, nodes st !! step_addr s = Some n /\ key n = step_key s) as (n & Hn & Hkey) by (destruct s; cbn [fill step_addr step_key] in *; destruct (at_pos_node _ _ _ _ _ _ _ Hpy) as [Hn _]; rewrite Hn; eauto).
    unfold get_node at 1. rewrite Hn. cbn [flow_bind]. rewrite Hkey. rewrite (proj2 (Z.eqb_neq _ _)) by (destruct s; cbn [step_key]; lia).
    assert ((if compar k (step_key s) <? 0 then LeftOf (step_addr s) else RightOf (step_addr s)) = slot_of (s :: y)) as ->.
    { destruct s; cbn [step_key step_addr slot_of] in *; [rewrite (proj2 (Z.ltb_lt _ _)) by lia|rewrite (proj2 (Z.ltb_ge _ _)) by lia]; reflexivity. }
    rewrite (at_pos_slot _ _ _ Hps). cbn [flow_bind]. rewrite H0. unfold push_grow; cbn [slots stacksize]. rewrite length_stack_of, (proj2 (Nat.eqb_neq _ _)) by lia.
    apply (IH (s :: y) c l a ka r fuel size Hp); [apply Forall_app; auto|exact Hk|lia|rewrite length_app; cbn [length]; lia].
Qed.

(** The first round of the rebalancing has no room for the slot. *)
Lemma rebalance_no_room st x c p kp q1 q kq q2 fuel size :
  at_pos st (L c p kp (T true q1 q kq q2) :: x) E -> (size <= S (length x))%nat ->
  @rebalance Res (S fuel) st NULL (Stack (stack_of (L c p kp (T true q1 q kq q2) :: x)) size) = Fault.
Proof.
  intros Hp Hsz. apply at_pos_up in Hp. cbn [fill] in Hp. cbn [rebalance slots stack_of]. change (@is_red Res st NULL) with (@Next Res _ false). cbn [flow_bind].
  rewrite (at_pos_slot _ _ _ Hp). destruct (at_pos_node _ _ _ _ _ _ _ Hp) as [Hn _]. pose proof (proj1 (at_pos_right _ _ _ _ _ _ _) Hp) as Hq. destruct (at_pos_node _ _ _ _ _ _ _ Hq) as [Hnq _].
  cbn [flow_bind addr get_slot]. unfold get_node at 1. rewrite Hn. cbn [flow_bind Tsearch.left addr Z.eqb NULL].
  unfold rebalance_left. cbn [get_slot]. unfold get_node at 1 2. rewrite Hn. cbn [flow_bind Tsearch.right addr]. rewrite Hnq. cbn [flow_bind red].
  destruct (rotate_red_left_spec (Res := Res) _ _ _ _ _ _ _ _ _ _ _ Hp) as (st1 & -> & _). cbn [flow_bind]. unfold push. cbn [slots stacksize length].
  rewrite length_stack_of, (proj2 (Nat.ltb_ge _ _)) by exact Hsz. reflexivity.
Qed.

(** With a path of exactly as many nodes as the stack has slots. *)
Lemma deep_tree_overflow m fuel : (m + 2 < fuel)%nat -> @tdelete_with Z.sub Res (S m) fuel (state_of (deep_tree m)) 1 (Some RootSlot) = Fault.
Proof.
  intros Hf. assert (at_pos (state_of (deep_tree m)) (path m) bottom) as Hp by (apply plug_out; destruct (deep_addrs m); apply state_of_pos; assumption).
  assert (on_path Z.sub 1 (path m)) as Hpa.
  { constructor; [lia|]. assert (forall m c n i, 1 < i -> on_path Z.sub 1 (spine m c n i)) as H; [|apply H; lia].
    clear. induction m as [|m IH]; intros c n i Hi; constructor; [lia|]. apply IH. pose proof (Z.pow_pos_nonneg 2 (Z.of_nat n)). lia. }
  pose proof (pos_ctx _ _ _ (plug_in _ _ _ Hp)) as [Hroot _]. cbn [root_addr] in Hroot. fold (deep_tree m) in Hroot.
  pose proof (search_path Z.sub 1 (addr (deep_tree m)) (state_of (deep_tree m)) (path m) [] false E 1 1 E fuel (S m)) as Hs. rewrite app_nil_r, length_path in Hs.
  specialize (Hs Hp Hpa eq_refl ltac:(lia) ltac:(lia)). cbn [slot_of node_above stack_of] in Hs.
  cbn [tdelete_with get_slot flow_bind]. rewrite Hroot. assert (addr (deep_tree m) <> NULL) as H0.
  { apply (red_addr _ _ _ (plug_in _ _ _ Hp)). intros E. pose proof (height_plug (path m) bottom) as H. fold (deep_tree m) in E. unfold deep_tree in E. rewrite E in H. cbn [height bottom] in H. lia. }
  rewrite (proj2 (Z.eqb_neq _ _) H0), Hs. cbn [flow_bind]. unfold tdelete_found, choose_unchained. rewrite (at_pos_slot _ _ _ Hp). cbn [flow_bind addr bottom].
  destruct (at_pos_node _ _ _ _ _ _ _ Hp) as [Hn _]. cbn [get_slot]. unfold get_node at 1 2. rewrite Hn. cbn [flow_bind Tsearch.left Tsearch.right addr Z.eqb NULL orb].
  unfold get_node at 1 2. rewrite Hn. cbn [flow_bind Tsearch.left Tsearch.right addr Z.eqb NULL].
  destruct (unchain_spec (Res := Res) _ _ _ _ _ _ _ E (slot_of (path m)) (Stack (stack_of (path m)) (S m)) Hp ltac:(auto) eq_refl ltac:(discriminate)) as (st1 & Hu & Hp1 & Hn1 & _).
  cbn [addr] in Hu. rewrite Hu. cbn [flow_bind]. change (1 =? 1)%positive with true. cbn [flow_bind]. rewrite Hn in Hn1. unfold get_node at 1. rewrite Hn1. cbn [flow_bind red]. destruct fuel as [|fuel]; [lia|].
  pose proof (length_path m) as Hlen. unfold path, brother in *. cbn [length] in Hlen.
  pose proof (rebalance_no_room _ _ _ _ _ _ _ _ _ fuel (S m) Hp1 ltac:(lia)) as Hb. rewrite Hb. reflexivity.
Qed.

(** C29: There is a red-black tree, with fewer than 2^23 nodes, from which tdelete cannot delete a key without
    writing behind the end of its stack: the path to the node fills the 40 slots, and the brother of the
    node is red. *)
Theorem tdelete_stack_overflow :
  exists st es, rbtree Z.sub st es /\ Z.of_nat (length es) < 2 ^ 23 /\ find_entry Z.sub 1 es = Some 1 /\
    forall fuel, (41 < fuel)%nat -> @tdelete Z.sub Res fuel st 1 (Some RootSlot) = Fault.
Proof.
  exists (state_of (deep_tree 39)), (entries (deep_tree 39)). split; [apply deep_rbtree|]. destruct (deep_entries 39) as (N & HN & HE).
  rewrite HN. split; [unfold numbers; rewrite length_fmap, length_seqZ, Nat2Z.id, HE; reflexivity|]. split.
  - destruct N as [|N]; [exfalso; vm_compute in HE; discriminate|]. rewrite numbers_cons. reflexivity.
  - intros fuel Hf. apply (deep_tree_overflow 39). lia.
Qed.
End Overflow.
