(* ===== verification/Digest.v ===== *)
(** The message digests of crypt/, what they share: the streaming interface of md5.c,
    sha256.c and sha512.c ([process_bytes], [finish_ctx]), whose three copies differ only
    in the block size, the type of the byte count and the compression function.

    What a digest brings is the class [Digest]; the laws that make streaming correct are
    the class [DigestLaws].  Against them it is proved that feeding a message in any
    pieces, each at any alignment, gives the digest of the padded message. *)
From S2P Require Import Prelude CMem Byteswap.

(** [memcpy (&buf[off], src, n)] with the [n] bytes [src], inside the array [buf]. *)
Definition copy_into {R} (buf : list Z) (off : Z) (src : list Z) : flow R (list Z) :=
  if (0 <=? off) && (off + Z.of_nat (length src) <=? Z.of_nat (length buf))
  then Next (take (Z.to_nat off) buf ++ src ++ drop (Z.to_nat off + length src) buf) else Fault.

(** The [n] bytes at [&buf[off]]. *)
Definition bytes_from {R} (buf : list Z) (off n : Z) : flow R (list Z) :=
  if (0 <=? off) && (0 <=? n) && (off + n <=? Z.of_nat (length buf))
  then Next (take (Z.to_nat n) (drop (Z.to_nat off) buf)) else Fault.

(** [struct md5_ctx] and its like: the chaining values, the byte count and the buffer. *)
Record ctx (H T : Type) := mkctx { hash : H; total : T; buflen : Z; buffer : list Z }.
Arguments mkctx {H T} _ _ _ _.
Arguments hash {H T} _.
Arguments total {H T} _.
Arguments buflen {H T} _.
Arguments buffer {H T} _.

Class Digest (H T : Type) := {
  block_size : Z;
  (** bytes of the length field *)
  field_size : Z;
  (** bits of the type of [buflen] and of the variable [bytes] *)
  buflen_bits : Z;
  (** one round of the loop of process_block *)
  compress : list Z -> H -> H;
  (** the update of the byte count in process_block, and the one in finish_ctx *)
  count : T -> Z -> T;
  count_rest : T -> Z -> T;
  (** the stores of the length, in bits, at a byte offset of the buffer *)
  put_length : forall R, list Z -> Z -> T -> flow R (list Z);
  (** the digest in memory *)
  read_ctx : H -> list Z
}.

Section Streaming.
Context (A : arch) {H T : Type} `{Digest H T}.

(** Arithmetic on [size_t]. *)
Definition szw (z : Z) : Z := uwrap (wordbits A) z.

(** Arithmetic on the type of [buflen]. *)
Definition blw (z : Z) : Z := uwrap buflen_bits z.

(** [while (words < endp)]: [n] blocks. *)
Fixpoint process_blocks (n : nat) (data : list Z) (h : H) : H :=
  match n with
  | O => h
  | S n => process_blocks n (drop (Z.to_nat block_size) data) (compress (take (Z.to_nat block_size) data) h)
  end.

(** The length of [data] is assumed to be a multiple of the block size. *)
Definition process_block (data : list Z) (c : ctx H T) : ctx H T :=
  let len := Z.of_nat (length data) in
  mkctx (process_blocks (Z.to_nat (len / block_size)) data (hash c)) (count (total c) len) (buflen c) (buffer c).

(** The bytes that are already in the buffer are completed first; the rest of the data is returned. *)
Definition fill_buffer {R} (data : list Z) (c : ctx H T) : flow R (ctx H T * list Z) :=
  if buflen c =? 0 then Next (c, data) else
  let len := Z.of_nat (length data) in
  let left_over := buflen c in
  let add := if len <? szw (2 * block_size - left_over) then len else szw (2 * block_size - left_over) in
  let! chunk := bytes_from data 0 add in
  let! buf := copy_into (buffer c) left_over chunk in
  let c := mkctx (hash c) (total c) (blw (buflen c + add)) buf in
  let! c :=
    if block_size <? buflen c then
      let! blocks := bytes_from (buffer c) 0 (Z.land (buflen c) (Z.lnot (block_size - 1))) in
      let c := process_block blocks c in
      let buflen := Z.land (buflen c) (block_size - 1) in
      let! rest := bytes_from (buffer c) (Z.land (left_over + add) (Z.lnot (block_size - 1))) buflen in
      let! buf := copy_into (buffer c) 0 rest in
      Next (mkctx (hash c) (total c) buflen buf)
    else Next c in
  Next (c, drop (Z.to_nat add) data).

(** [while (len > 64)]: blocks of unaligned data go through the buffer. *)
Fixpoint unaligned_blocks {R} (fuel : nat) (data : list Z) (c : ctx H T) : flow R (ctx H T * list Z) :=
  if block_size <? Z.of_nat (length data) then
    match fuel with
    | O => NoFuel
    | S fuel =>
        let! block := bytes_from data 0 block_size in
        let! buf := copy_into (buffer c) 0 block in
        let c := process_block block (mkctx (hash c) (total c) (buflen c) buf) in
        unaligned_blocks fuel (drop (Z.to_nat block_size) data) c
    end
  else Next (c, data).

(** Process the complete blocks. *)
Definition whole_blocks {R} (unaligned : bool) (data : list Z) (c : ctx H T) : flow R (ctx H T * list Z) :=
  let len := Z.of_nat (length data) in
  if block_size <=? len then
    if unaligned then unaligned_blocks (length data) data c
    else
      let n := Z.land len (Z.lnot (block_size - 1)) in
      let! blocks := bytes_from data 0 n in
      Next (process_block blocks c, drop (Z.to_nat n) data)
  else Next (c, data).

(** Move the remaining bytes into the buffer. *)
Definition keep_rest {R} (data : list Z) (c : ctx H T) : flow R (ctx H T) :=
  let len := Z.of_nat (length data) in
  if 0 <? len then
    let! buf := copy_into (buffer c) (buflen c) data in
    let c := mkctx (hash c) (total c) (buflen c) buf in
    let left_over := szw (buflen c + len) in
    if block_size <=? left_over then
      let! block := bytes_from (buffer c) 0 block_size in
      let c := process_block block c in
      let left_over := left_over - block_size in
      let! rest := bytes_from (buffer c) block_size left_over in
      let! buf := copy_into (buffer c) 0 rest in
      Next (mkctx (hash c) (total c) (blw left_over) buf)
    else Next (mkctx (hash c) (total c) (blw left_over) (buffer c))
  else Next c.

(** [unaligned] is [UNALIGNED_P] of the pointer to the data that fill_buffer leaves. *)
Definition process_bytes {R} (unaligned : bool) (data : list Z) (c : ctx H T) : flow R (ctx H T) :=
  let! '(c, data) := fill_buffer data c in
  let! '(c, data) := whole_blocks unaligned data c in
  keep_rest data c.

Definition fillbuf : list Z := 0x80 :: repeat 0 (Z.to_nat block_size - 1).

Definition finish_ctx {R} (c : ctx H T) : flow R (list Z) :=
  let bytes := buflen c in
  let total := count_rest (total c) bytes in
  let pad := if block_size - field_size <=? bytes then szw (blw (block_size + (block_size - field_size) - bytes))
             else szw (blw (block_size - field_size - bytes)) in
  let! fill := bytes_from fillbuf 0 pad in
  let! buf := copy_into (buffer c) bytes fill in
  let! buf := put_length R buf (bytes + pad) total in
  let! data := bytes_from buf 0 (bytes + pad + field_size) in
  let c := process_block data (mkctx (hash c) total (buflen c) buf) in
  Next (read_ctx (hash c)).

(** A message in pieces. *)
Fixpoint process_chunks {R} (chunks : list (bool * list Z)) (c : ctx H T) : flow R (ctx H T) :=
  match chunks with
  | [] => Next c
  | (unaligned, data) :: chunks => let! c := process_bytes unaligned data c in process_chunks chunks c
  end.
End Streaming.

(** * The reference *)

(** [n] blocks of [size] bytes, each hashed by [f]. *)
Fixpoint chain {H} (f : list Z -> H -> H) (size n : nat) (data : list Z) (h : H) : H :=
  match n with O => h | S n => chain f size n (drop size data) (f (take size data) h) end.

(** The message is followed by a one bit, zero bits up to the length field, and the length. *)
Class DigestLaws (H T : Type) `{Digest H T} := {
  log_size : Z;
  log_size_ok : 3 <= log_size <= 16;
  block_log : block_size = 2 ^ log_size;
  field_ok : 0 < field_size < block_size;
  buflen_ok : 32 <= buflen_bits;
  (** the count that stands for [n] bytes *)
  total_of : Z -> T;
  count_ok : forall n k, 0 <= n -> 0 <= k -> count (total_of n) k = total_of (n + k);
  count_rest_ok : forall n k, 0 <= n -> 0 <= k <= block_size -> count_rest (total_of n) k = total_of (n + k);
  (** the length field of a message of [n] bytes *)
  length_field : Z -> list Z;
  length_field_size : forall n, Z.of_nat (length (length_field n)) = field_size;
  put_length_ok : forall R buf off n, 0 <= n -> (off + field_size) mod block_size = 0 -> 0 <= off ->
    off + field_size <= Z.of_nat (length buf) ->
    put_length R buf off (total_of n) = copy_into buf off (length_field n)
}.

Section Reference.
Context {H T : Type} `{DigestLaws H T}.

Definition zero_count (n : Z) : Z := (block_size - field_size - (n + 1)) mod block_size.

Definition padded (msg : list Z) : list Z :=
  let n := Z.of_nat (length msg) in
  msg ++ 0x80 :: repeat 0 (Z.to_nat (zero_count n)) ++ length_field n.

Definition hash_blocks (data : list Z) (h : H) : H :=
  process_blocks (Z.to_nat (Z.of_nat (length data) / block_size)) data h.

Definition digest (h0 : H) (msg : list Z) : list Z := read_ctx (hash_blocks (padded msg) h0).
End Reference.

(** * Proofs *)

(** ** Pieces of an array *)

Lemma bytes_from_ok {R} buf off n :
  0 <= off -> 0 <= n -> off + n <= Z.of_nat (length buf) ->
  @bytes_from R buf off n = Next (take (Z.to_nat n) (drop (Z.to_nat off) buf)).
Proof. intros. unfold bytes_from. zdecide. reflexivity. Qed.

Lemma copy_into_ok {R} buf off src :
  0 <= off -> off + Z.of_nat (length src) <= Z.of_nat (length buf) ->
  @copy_into R buf off src = Next (take (Z.to_nat off) buf ++ src ++ drop (Z.to_nat off + length src) buf).
Proof. intros. unfold copy_into. zdecide. reflexivity. Qed.

(** Copying behind a known prefix extends it. *)
Lemma copy_behind {R} buf pre src :
  take (length pre) buf = pre -> (length pre + length src <= length buf)%nat ->
  exists buf', @copy_into R buf (Z.of_nat (length pre)) src = Next buf' /\ length buf' = length buf /\
    take (length (pre ++ src)) buf' = pre ++ src.
Proof.
  intros Hp Hl. rewrite copy_into_ok by lia. rewrite Nat2Z.id, Hp. eexists. split; [reflexivity|]. split.
  - rewrite !length_app, length_drop. lia.
  - rewrite app_assoc. apply take_app_length.
Qed.

Lemma bytes_prefix {R} buf pre n :
  take (length pre) buf = pre -> 0 <= n <= Z.of_nat (length pre) -> @bytes_from R buf 0 n = Next (take (Z.to_nat n) pre).
Proof.
  intros Hp Hn. pose proof (f_equal length Hp) as E. rewrite length_take in E.
  rewrite bytes_from_ok by lia. change (drop (Z.to_nat 0) buf) with buf. rewrite <- Hp at 1. rewrite take_take. do 2 f_equal. lia.
Qed.

Lemma bytes_middle {R} buf pre off n :
  take (length pre) buf = pre -> 0 <= off -> 0 <= n -> off + n = Z.of_nat (length pre) ->
  @bytes_from R buf off n = Next (drop (Z.to_nat off) pre).
Proof.
  intros Hp Ho Hn E. pose proof (f_equal length Hp) as El. rewrite length_take in El.
  rewrite bytes_from_ok by lia. rewrite take_drop_commute. rewrite <- Hp at 1. do 3 f_equal. lia.
Qed.

(** ** Words of the buffer *)

Lemma copy_into_split {R} p x s a :
  length x = length a -> @copy_into R (p ++ x ++ s) (Z.of_nat (length p)) a = Next (p ++ a ++ s).
Proof.
  intros Hl. rewrite copy_into_ok by (rewrite ?length_app; lia). rewrite Nat2Z.id, take_app_length.
  rewrite (app_assoc p x), drop_app_length' by (rewrite length_app; lia). reflexivity.
Qed.

(** Two neighbouring stores, in either order, are one. *)
Lemma copy_two {R} buf off a b :
  0 <= off -> off + Z.of_nat (length a) + Z.of_nat (length b) <= Z.of_nat (length buf) ->
  (let! buf := @copy_into R buf off a in copy_into buf (off + Z.of_nat (length a)) b) = copy_into buf off (a ++ b) /\
  (let! buf := @copy_into R buf (off + Z.of_nat (length a)) b in copy_into buf off a) = copy_into buf off (a ++ b).
Proof.
  intros Ho Hl. rewrite <- (take_drop (Z.to_nat off) buf). set (p := take (Z.to_nat off) buf). set (r := drop (Z.to_nat off) buf).
  assert (Z.of_nat (length p) = off) as Hp by (subst p; rewrite length_take; lia).
  assert (length a + length b <= length r)%nat as Hr by (subst r; rewrite length_drop; lia).
  rewrite <- (take_drop (length a) r). set (x := take (length a) r). rewrite <- (take_drop (length b) (drop (length a) r)).
  set (y := take (length b) (drop (length a) r)). set (s := drop (length b) (drop (length a) r)).
  assert (length x = length a) as Hx by (subst x; rewrite length_take; lia).
  assert (length y = length b) as Hy by (subst y; rewrite length_take, length_drop; lia).
  rewrite <- Hp. split.
  - rewrite copy_into_split by assumption. cbn [flow_bind].
    rewrite (app_assoc p a). replace (Z.of_nat (length p) + Z.of_nat (length a)) with (Z.of_nat (length (p ++ a))) by (rewrite length_app; lia).
    rewrite copy_into_split by assumption. rewrite (app_assoc x y), copy_into_split by (rewrite !length_app; lia).
    rewrite <- !app_assoc. reflexivity.
  - rewrite (app_assoc p x). replace (Z.of_nat (length p) + Z.of_nat (length a)) with (Z.of_nat (length (p ++ x))) by (rewrite length_app; lia).
    rewrite copy_into_split by assumption. cbn [flow_bind]. rewrite <- app_assoc, copy_into_split by assumption.
    rewrite <- app_assoc, (app_assoc x y), copy_into_split by (rewrite !length_app; lia). rewrite <- !app_assoc. reflexivity.
Qed.

(** ** Byte counts of two words *)

Section Pair.
Context (w : Z).
Hypothesis w_ge : 3 <= w.

Abbreviation M := (2 ^ w).

Lemma M_pos : 8 <= M.
Proof. change 8 with (2 ^ 3). apply Z.pow_le_mono_r; lia. Qed.

Lemma pair_count n k :
  0 <= n -> 0 <= k ->
  let t0 := uwrap w (n mod M + uwrap w k) in
  t0 = (n + k) mod M /\
  uwrap w ((n / M) mod M + k / M + (if t0 <? uwrap w k then 1 else 0)) = ((n + k) / M) mod M.
Proof.
  intros Hn Hk t0. pose proof M_pos as HM. unfold uwrap in *.
  assert (t0 = (n + k) mod M) as E0 by (subst t0; rewrite <- Z.add_mod by lia; reflexivity). split; [exact E0|].
  rewrite <- Z.add_assoc, Z.add_mod_idemp_l by lia. f_equal.
  pose proof (Z.div_mod n M ltac:(lia)) as En. pose proof (Z.div_mod k M ltac:(lia)) as Ek.
  pose proof (Z.mod_pos_bound n M ltac:(lia)) as Bn. pose proof (Z.mod_pos_bound k M ltac:(lia)) as Bk.
  assert (t0 = n mod M + k mod M \/ t0 = n mod M + k mod M - M) as Ht.
  { subst t0. destruct (Z.lt_ge_cases (n mod M + k mod M) M).
    - left. apply Z.mod_small. lia.
    - right. symmetry. apply Z.mod_unique with 1; lia. }
  pose proof (Z.mod_pos_bound (n + k) M ltac:(lia)) as Bt. rewrite <- E0 in Bt.
  destruct (Z.ltb_spec t0 (k mod M)); (apply Z.div_unique with t0; [lia|]); destruct Ht; lia.
Qed.

Lemma pair_bits n :
  0 <= n ->
  uwrap w (Z.shiftl (n mod M) 3) = (8 * n) mod M /\
  Z.lor (uwrap w (Z.shiftl ((n / M) mod M) 3)) (Z.shiftr (n mod M) (w - 3)) = ((8 * n) / M) mod M.
Proof.
  intros Hn. pose proof M_pos as HM. unfold uwrap. rewrite !Z.shiftl_mul_pow2, Z.shiftr_div_pow2 by lia. change (2 ^ 3) with 8.
  assert (M = 8 * 2 ^ (w - 3)) as EM by (change 8 with (2 ^ 3); rewrite <- Z.pow_add_r by lia; f_equal; lia).
  set (K := 2 ^ (w - 3)) in *. split; [rewrite (Z.mul_comm 8 n); apply Zmult_mod_idemp_l|].
  rewrite Zmult_mod_idemp_l. pose proof (Z.div_mod n M ltac:(lia)) as En. pose proof (Z.mod_pos_bound n M ltac:(lia)) as Bn.
  set (q := n / M) in *. set (r := n mod M) in *.
  pose proof (Z.div_mod r K ltac:(lia)) as Er. pose proof (Z.mod_pos_bound r K ltac:(lia)) as Br. set (s := r / K) in *.
  assert (0 <= s < 8) as Bs by (split; [apply Z.div_pos; lia|apply Z.div_lt_upper_bound; lia]).
  assert ((8 * n) / M = q * 8 + s) as -> by (symmetry; apply Z.div_unique with (8 * (r mod K)); lia).
  assert ((q * 8) mod M = Z.shiftl (q mod K) 3) as ->.
  { rewrite Z.shiftl_mul_pow2, EM, (Z.mul_comm 8 K), Z.mul_mod_distr_r by lia. reflexivity. }
  rewrite lor_low by lia. change (2 ^ 3) with 8. symmetry.
  pose proof (Z.div_mod q K ltac:(lia)) as Eq. pose proof (Z.mod_pos_bound q K ltac:(lia)) as Bq.
  symmetry. apply Z.mod_unique with (q / K); lia.
Qed.
End Pair.

Section Proofs.
Context (A : arch) {H T : Type} {ops : Digest H T} {laws : DigestLaws H T}.

Abbreviation bs := (Z.to_nat block_size).

Lemma block_bounds : 8 <= block_size <= 65536.
Proof.
  rewrite block_log. pose proof log_size_ok. split; [change 8 with (2 ^ 3)|change 65536 with (2 ^ 16)];
    apply Z.pow_le_mono_r; lia.
Qed.

Lemma land_mask x : 0 <= x -> Z.land x (block_size - 1) = x mod block_size.
Proof.
  intros. rewrite block_log. pose proof log_size_ok. rewrite <- Z.land_ones by lia. f_equal. rewrite Z.ones_equiv. lia.
Qed.

Lemma land_nmask x : 0 <= x -> Z.land x (Z.lnot (block_size - 1)) = x - x mod block_size.
Proof.
  intros Hx. rewrite <- land_mask by assumption.
  replace (Z.land x (Z.lnot (block_size - 1))) with (Z.ldiff x (block_size - 1))
    by (apply Z.bits_inj'; intros n Hn; rewrite Z.ldiff_spec, Z.land_spec, Z.lnot_spec by assumption; reflexivity).
  assert (Z.land (Z.ldiff x (block_size - 1)) (Z.land x (block_size - 1)) = 0) as E0.
  { apply Z.bits_inj'. intros n Hn. rewrite !Z.land_spec, Z.ldiff_spec, Z.bits_0.
    destruct (Z.testbit x n), (Z.testbit (block_size - 1) n); reflexivity. }
  pose proof (Z.add_nocarry_lxor _ _ E0) as E. rewrite Z.lxor_lor in E by assumption.
  replace (Z.lor (Z.ldiff x (block_size - 1)) (Z.land x (block_size - 1))) with x in E; [lia|].
  apply Z.bits_inj'. intros n Hn. rewrite Z.lor_spec, Z.ldiff_spec, Z.land_spec.
  destruct (Z.testbit x n), (Z.testbit (block_size - 1) n); reflexivity.
Qed.

Lemma szw_small z : 0 <= z <= 2 ^ 31 -> szw A z = z.
Proof. intros. unfold szw, wordbits, wordsize. apply uwrap_small. destruct (long64 A); cbn; lia. Qed.

Lemma blw_small z : 0 <= z <= 2 ^ 31 -> blw z = z.
Proof.
  intros. unfold blw. apply uwrap_small. pose proof buflen_ok.
  assert (2 ^ 32 <= 2 ^ buflen_bits) by (apply Z.pow_le_mono_r; lia). lia.
Qed.

(** ** Blocks *)

Definition whole (data : list Z) : Prop := Z.of_nat (length data) mod block_size = 0.

Lemma hash_blocks_app a b h : whole a -> hash_blocks (a ++ b) h = hash_blocks b (hash_blocks a h).
Proof.
  intros Ha. unfold hash_blocks, whole in *. pose proof block_bounds. apply Z.mod_divide in Ha as [k Hk]; [|lia].
  assert (0 <= k) by nia. rewrite length_app, Nat2Z.inj_add, Hk, Z.div_add_l, Z.div_mul by lia.
  rewrite Z2Nat.inj_add by (try apply Z.div_pos; lia). remember (Z.to_nat k) as j eqn:Ej. assert (length a = j * bs)%nat as Hl by nia.
  clear -Hl. revert a h Hl. induction j as [|j IH]; intros a h Hl.
  - destruct a; [reflexivity|simpl in Hl; lia].
  - cbn [Nat.add process_blocks]. rewrite take_app_le, drop_app_le by lia. apply IH. rewrite length_drop. lia.
Qed.

(** A compression function that is a reference function [f] on blocks of bytes and values
    in [Inv] hashes a message of bytes as the reference does. *)
Lemma hash_blocks_chain (f : list Z -> H -> H) (Inv : H -> Prop) data h :
  (forall block h, length block = bs -> Forall is_byte block -> Inv h -> compress block h = f block h /\ Inv (f block h)) ->
  Forall is_byte data -> whole data -> Inv h ->
  hash_blocks data h = chain f bs (length data / bs) data h /\ Inv (hash_blocks data h).
Proof.
  intros Hf Hd Hw Hh. pose proof block_bounds. unfold hash_blocks, whole in *. apply Z.mod_divide in Hw as [k Hk]; [|lia].
  rewrite Hk, Z.div_mul by lia. assert (length data = Z.to_nat k * bs)%nat as Hl by nia.
  rewrite Hl, Nat.div_mul by lia. clear Hk. revert data h Hd Hl Hh. induction (Z.to_nat k) as [|n IH]; intros data h Hd Hl Hh; [auto|].
  cbn [process_blocks chain]. destruct (Hf (take bs data) h) as [-> Hi]; [rewrite length_take; lia|apply Forall_take; assumption|assumption|].
  apply IH; [apply Forall_drop; assumption|rewrite length_drop; lia|assumption].
Qed.

(** The padded message is whole blocks. *)
Lemma padded_whole msg : whole (padded msg).
Proof.
  unfold whole, padded, zero_count. pose proof block_bounds. pose proof (length_field_size (Z.of_nat (length msg))) as Hf.
  rewrite length_app. simpl length. rewrite length_app, repeat_length. set (n := Z.of_nat (length msg)) in *.
  assert (0 < block_size) as Hpos by lia.
  pose proof (Z.mod_pos_bound (block_size - field_size - (n + 1)) _ Hpos). set (z := (_ - (n + 1)) mod _) in *.
  replace (Z.of_nat _) with ((n + 1 + field_size) + z) by lia. subst z. rewrite Z.add_mod_idemp_r by lia.
  replace (n + 1 + field_size + (block_size - field_size - (n + 1))) with block_size by lia. apply Z.mod_same. lia.
Qed.

Lemma hash_blocks_nil h : hash_blocks [] h = h.
Proof. unfold hash_blocks. simpl length. rewrite Z.div_0_l; [reflexivity|]. pose proof block_bounds. lia. Qed.

Lemma whole_app a b : whole a -> whole b -> whole (a ++ b).
Proof.
  unfold whole. intros Ha Hb. pose proof block_bounds.
  rewrite length_app, Nat2Z.inj_add, <- Z.add_mod_idemp_l, Ha by lia. exact Hb.
Qed.

Lemma process_block_eq data c :
  process_block data c =
  mkctx (hash_blocks data (hash c)) (count (total c) (Z.of_nat (length data))) (buflen c) (buffer c).
Proof. reflexivity. Qed.

(** ** The invariant *)

(** After [msg]: the whole blocks are hashed and counted, the rest is in the buffer. *)
Record holds (h0 : H) (msg : list Z) (c : ctx H T) : Prop := {
  hd_split : exists full rest, msg = full ++ rest /\ whole full /\ hash c = hash_blocks full h0 /\
    total c = total_of (Z.of_nat (length full)) /\ buflen c = Z.of_nat (length rest) /\
    take (length rest) (buffer c) = rest;
  hd_buflen : 0 <= buflen c <= block_size;
  hd_buffer : Z.of_nat (length (buffer c)) = 2 * block_size
}.

(** A block that is hashed moves from the rest to the whole blocks. *)
Lemma holds_step h0 full block rest h t bl buf :
  whole full -> whole block -> h = hash_blocks block (hash_blocks full h0) ->
  t = count (total_of (Z.of_nat (length full))) (Z.of_nat (length block)) ->
  bl = Z.of_nat (length rest) -> bl <= block_size -> take (length rest) buf = rest ->
  Z.of_nat (length buf) = 2 * block_size -> holds h0 (full ++ block ++ rest) (mkctx h t bl buf).
Proof.
  intros Hf Hb -> -> -> Hr Htake Hbuf. split; cbn; [|lia|assumption].
  exists (full ++ block), rest. rewrite app_assoc. split; [reflexivity|]. split; [apply whole_app; assumption|].
  rewrite hash_blocks_app by assumption. rewrite count_ok, length_app, Nat2Z.inj_add by lia. auto.
Qed.

Lemma fill_buffer_spec {R} h0 msg data c :
  holds h0 msg c ->
  exists c' data' taken, @fill_buffer A H T _ R data c = Next (c', data') /\ data = taken ++ data' /\
    holds h0 (msg ++ taken) c' /\ (data' = [] \/ buflen c' = 0).
Proof.
  intros [(full & rest & -> & Hw & Hh & Ht & Hbl & Htk) Hle Hbuf]. pose proof block_bounds as Hbs. unfold fill_buffer.
  destruct (Z.eqb_spec (buflen c) 0) as [E0|Hne].
  { exists c, data, []. rewrite app_nil_r. split; [reflexivity|]. split; [reflexivity|]. split; [|auto].
    split; [|assumption..]. exists full, rest. auto 6. }
  rewrite szw_small by lia.
  set (add := if Z.of_nat (length data) <? 2 * block_size - buflen c then Z.of_nat (length data) else 2 * block_size - buflen c).
  assert (0 <= add <= Z.of_nat (length data) /\ add <= 2 * block_size - buflen c /\
    (add = Z.of_nat (length data) \/ add = 2 * block_size - buflen c)) as (Ha1 & Ha2 & Ha3)
    by (subst add; destruct (Z.ltb_spec (Z.of_nat (length data)) (2 * block_size - buflen c)); lia).
  clearbody add. rewrite bytes_from_ok by lia. change (drop (Z.to_nat 0) data) with data. cbn [flow_bind].
  set (chunk := take (Z.to_nat add) data). assert (Z.of_nat (length chunk) = add) as Hch by (subst chunk; rewrite length_take; lia).
  rewrite Hbl. destruct (copy_behind (R := R) (buffer c) rest chunk Htk) as (buf & -> & Hlb & Htb); [lia|]. cbn [flow_bind buflen].
  assert (Z.of_nat (length (rest ++ chunk)) = buflen c + add) as Hrc by (rewrite length_app; lia).
  replace (Z.of_nat (length rest) + add) with (buflen c + add) by lia. rewrite blw_small by lia.
  destruct (Z.ltb_spec block_size (buflen c + add)) as [Hgt|Hng].
  2: { exists (mkctx (hash c) (total c) (buflen c + add) buf), (drop (Z.to_nat add) data), chunk. split; [reflexivity|].
    split; [symmetry; apply take_drop|]. split.
    - split; cbn [hash total buflen buffer]; [|lia|lia]. exists full, (rest ++ chunk). rewrite app_assoc. auto 7.
    - left. apply drop_ge. lia. }
  cbn [buffer hash total]. rewrite land_nmask by lia.
  assert (0 < block_size) as Hpos by lia. pose proof (Z.mod_pos_bound (buflen c + add) _ Hpos) as Hmod.
  rewrite (bytes_prefix buf (rest ++ chunk)) by (assumption || lia). cbn [flow_bind]. rewrite process_block_eq. cbn [buflen buffer hash total].
  rewrite land_mask by lia.
  set (n := buflen c + add - (buflen c + add) mod block_size).
  rewrite (bytes_middle buf (rest ++ chunk)) by (assumption || lia). cbn [flow_bind].
  set (block := take (Z.to_nat n) (rest ++ chunk)). set (rest' := drop (Z.to_nat n) (rest ++ chunk)).
  assert (Z.of_nat (length block) = n) as Hlblk by (subst block; rewrite length_take; lia).
  assert (Z.of_nat (length rest') = (buflen c + add) mod block_size) as Hlr by (subst rest'; rewrite length_drop; lia).
  destruct (copy_behind (R := R) buf [] rest') as (buf' & E & Hlb' & Htb'); [reflexivity|simpl; lia|].
  change (Z.of_nat (length [])) with 0 in E. rewrite E. cbn [flow_bind]. clear E.
  eexists _, _, chunk. split; [reflexivity|]. split; [symmetry; apply take_drop|]. split.
  - assert ((full ++ rest) ++ chunk = full ++ block ++ rest') as -> by (subst block rest'; rewrite take_drop; apply eq_sym, app_assoc).
    apply holds_step; auto; try lia.
    + unfold whole. rewrite Hlblk. subst n. rewrite Zminus_mod_idemp_r, Z.sub_diag. reflexivity.
    + rewrite Hh. reflexivity.
    + rewrite Ht. reflexivity.
  - destruct Ha3 as [E|E]; [left; apply drop_ge; lia|right]. cbn [buflen]. rewrite E.
    replace (buflen c + (2 * block_size - buflen c)) with (2 * block_size) by lia. apply Z.mod_mul. lia.
Qed.

(** With an empty buffer, the context may be given by what it has hashed. *)
Lemma holds_empty h0 msg c :
  holds h0 msg c -> buflen c = 0 ->
  whole msg /\ hash c = hash_blocks msg h0 /\ total c = total_of (Z.of_nat (length msg)) /\
  Z.of_nat (length (buffer c)) = 2 * block_size.
Proof.
  intros [(full & rest & -> & Hw & Hh & Ht & Hbl & _) _ Hbuf] E. rewrite E in Hbl.
  destruct rest; [|simpl in Hbl; lia]. rewrite app_nil_r. auto.
Qed.

Lemma unaligned_blocks_spec {R} h0 fuel msg data c :
  (length data <= fuel)%nat -> 0 < Z.of_nat (length data) -> holds h0 msg c -> buflen c = 0 ->
  exists c' data' taken, @unaligned_blocks H T _ R fuel data c = Next (c', data') /\ data = taken ++ data' /\
    holds h0 (msg ++ taken) c' /\ buflen c' = 0 /\ Z.of_nat (length data') <= block_size.
Proof.
  pose proof block_bounds as Hbs. revert msg data c. induction fuel as [|fuel IH]; intros msg data c Hf Hl Hc H0; [lia|].
  cbn [unaligned_blocks]. destruct (Z.ltb_spec block_size (Z.of_nat (length data))) as [Hgt|Hle].
  2: { exists c, data, []. rewrite app_nil_r. auto. }
  destruct (holds_empty _ _ _ Hc H0) as (Hw & Hh & Ht & Hbuf). rewrite bytes_from_ok by lia. cbn [flow_bind].
  change (drop (Z.to_nat 0) data) with data. set (block := take bs data).
  assert (Z.of_nat (length block) = block_size) as Hblk by (subst block; rewrite length_take; lia).
  destruct (copy_behind (R := R) (buffer c) [] block) as (buf & E & Hlb & Htb); [reflexivity|simpl; lia|].
  change (Z.of_nat (length [])) with 0 in E. rewrite E. cbn [flow_bind]. clear E. rewrite process_block_eq. cbn [hash total buflen buffer].
  assert (holds h0 (msg ++ block) (mkctx (hash_blocks block (hash c)) (count (total c) (Z.of_nat (length block))) (buflen c) buf)) as Hc'.
  { rewrite <- (app_nil_r block) at 1. apply holds_step; auto; try lia.
    - unfold whole. rewrite Hblk. apply Z.mod_same. lia.
    - rewrite Hh. reflexivity.
    - rewrite Ht. reflexivity. }
  destruct (IH _ (drop bs data) _ ltac:(rewrite length_drop; lia) ltac:(rewrite length_drop; lia) Hc' H0)
    as (c' & data' & taken & -> & E & Hh' & Hz & Hl').
  exists c', data', (block ++ taken). split; [reflexivity|]. rewrite <- !app_assoc, <- E. split; [symmetry; apply take_drop|].
  rewrite <- app_assoc in Hh'. auto.
Qed.

Lemma whole_blocks_spec {R} h0 unaligned msg data c :
  holds h0 msg c -> data = [] \/ buflen c = 0 ->
  exists c' data' taken, @whole_blocks H T _ R unaligned data c = Next (c', data') /\ data = taken ++ data' /\
    holds h0 (msg ++ taken) c' /\ (data' = [] \/ buflen c' = 0) /\ Z.of_nat (length data') <= block_size.
Proof.
  intros Hc Hor. pose proof block_bounds as Hbs. unfold whole_blocks.
  destruct (Z.leb_spec block_size (Z.of_nat (length data))) as [Hge|Hlt].
  2: { exists c, data, []. rewrite app_nil_r. split; [reflexivity|]. split; [reflexivity|]. split; [assumption|]. split; [assumption|]. lia. }
  destruct Hor as [->|H0]; [simpl in Hge; lia|]. destruct unaligned.
  { destruct (unaligned_blocks_spec (R := R) h0 (length data) msg data c) as (c' & data' & taken & -> & E & Hh & Hz & Hl); auto; [lia|].
    exists c', data', taken. auto 6. }
  rewrite land_nmask by lia. assert (0 < block_size) as Hpos by lia.
  pose proof (Z.mod_pos_bound (Z.of_nat (length data)) _ Hpos) as Hmod.
  pose proof (Z.mod_le (Z.of_nat (length data)) block_size ltac:(lia) Hpos) as Hmle.
  set (n := Z.of_nat (length data) - Z.of_nat (length data) mod block_size).
  destruct (holds_empty _ _ _ Hc H0) as (Hw & Hh & Ht & Hbuf). rewrite bytes_from_ok by lia. cbn [flow_bind].
  change (drop (Z.to_nat 0) data) with data. set (blocks := take (Z.to_nat n) data).
  assert (Z.of_nat (length blocks) = n) as Hn by (subst blocks; rewrite length_take; lia).
  eexists _, _, blocks. split; [reflexivity|]. split; [symmetry; apply take_drop|]. split; [|split; [right; exact H0|rewrite length_drop; lia]].
  rewrite process_block_eq. replace (msg ++ blocks) with (msg ++ blocks ++ []) by (rewrite app_nil_r; reflexivity).
  apply holds_step; auto; try (simpl; lia).
  - unfold whole. rewrite Hn. subst n. rewrite Zminus_mod_idemp_r, Z.sub_diag. reflexivity.
  - rewrite Hh. reflexivity.
  - rewrite Ht. reflexivity.
Qed.

Lemma keep_rest_spec {R} h0 msg data c :
  holds h0 msg c -> data = [] \/ buflen c = 0 -> Z.of_nat (length data) <= block_size ->
  exists c', @keep_rest A H T _ R data c = Next c' /\ holds h0 (msg ++ data) c'.
Proof.
  intros Hc Hor Hle. pose proof block_bounds as Hbs. unfold keep_rest.
  destruct (Z.ltb_spec 0 (Z.of_nat (length data))) as [Hpos|Hn].
  2: { destruct data; [|simpl in Hn; lia]. exists c. rewrite app_nil_r. auto. }
  destruct Hor as [->|H0]; [simpl in Hpos; lia|]. destruct (holds_empty _ _ _ Hc H0) as (Hw & Hh & Ht & Hbuf).
  cbn [buflen buffer hash total]. rewrite H0.
  destruct (copy_behind (R := R) (buffer c) [] data) as (buf & E & Hlb & Htb); [reflexivity|simpl; lia|].
  change (Z.of_nat (length [])) with 0 in E. rewrite E. cbn [flow_bind buflen buffer hash total]. clear E. simpl app in Htb.
  rewrite Z.add_0_l, szw_small by lia. destruct (Z.leb_spec block_size (Z.of_nat (length data))) as [Hge|Hlt].
  - assert (Z.of_nat (length data) = block_size) as El by lia. rewrite (bytes_prefix buf data) by (assumption || lia).
    cbn [flow_bind]. rewrite process_block_eq. cbn [buffer hash total buflen].
    rewrite (bytes_middle buf data) by (assumption || lia). cbn [flow_bind]. rewrite blw_small by lia.
    rewrite (take_ge data), (drop_ge data) by lia.
    rewrite copy_into_ok by (simpl; lia). eexists. split; [reflexivity|].
    replace (msg ++ data) with (msg ++ data ++ []) by (rewrite app_nil_r; reflexivity).
    apply holds_step; auto; try (simpl; lia).
    + unfold whole. rewrite El. apply Z.mod_same. lia.
    + rewrite Hh. reflexivity.
    + rewrite Ht. reflexivity.
    + rewrite !length_app, length_drop, length_take. simpl. lia.
  - rewrite blw_small by lia. eexists. split; [reflexivity|]. split; cbn [hash total buflen buffer]; [|lia|lia]. exists msg, data. auto 7.
Qed.

Lemma process_bytes_spec {R} h0 unaligned msg data c :
  holds h0 msg c -> exists c', @process_bytes A H T _ R unaligned data c = Next c' /\ holds h0 (msg ++ data) c'.
Proof.
  intros Hc. unfold process_bytes.
  destruct (fill_buffer_spec (R := R) h0 msg data c Hc) as (c1 & d1 & t1 & -> & -> & H1 & O1). cbn [flow_bind].
  destruct (whole_blocks_spec (R := R) h0 unaligned _ d1 c1 H1 O1) as (c2 & d2 & t2 & -> & -> & H2 & O2 & L2). cbn [flow_bind].
  destruct (keep_rest_spec (R := R) h0 _ d2 c2 H2 O2 L2) as (c3 & -> & H3). exists c3. split; [reflexivity|].
  rewrite <- !app_assoc in H3. exact H3.
Qed.

(** ** Finishing *)

Lemma take_repeat (x : Z) n m : (n <= m)%nat -> take n (repeat x m) = repeat x n.
Proof. revert m. induction n as [|n IH]; intros [|m] Hle; simpl; [reflexivity..|lia|]. f_equal. apply IH. lia. Qed.

Lemma fillbuf_take n : (0 < n <= bs)%nat -> take n fillbuf = 0x80 :: repeat 0 (n - 1).
Proof.
  intros Hn. unfold fillbuf. destruct n as [|n]; [lia|]. cbn [take]. f_equal.
  rewrite take_repeat by lia. f_equal. lia.
Qed.

(** The padding that finish_ctx computes from the buffer is that of the message. *)
Lemma padding_eq full rest :
  whole full -> Z.of_nat (length rest) <= block_size ->
  let n := Z.of_nat (length (full ++ rest)) in
  let bytes := Z.of_nat (length rest) in
  let pad := if block_size - field_size <=? bytes then block_size + (block_size - field_size) - bytes
             else block_size - field_size - bytes in
  0 < pad <= block_size /\ zero_count n = pad - 1 /\ (bytes + pad + field_size) mod block_size = 0 /\
  bytes + pad + field_size <= 2 * block_size.
Proof.
  intros Hw Hr n bytes pad. pose proof block_bounds as Hbs. pose proof field_ok as Hfld. pose proof (f_equal Z.of_nat (length_app full rest)) as El.
  assert (bytes + pad + field_size = block_size \/ bytes + pad + field_size = 2 * block_size) as Hor
    by (subst pad; destruct (Z.leb_spec (block_size - field_size) bytes); lia).
  assert (0 < pad <= block_size) as Hpad by (subst pad bytes; destruct (Z.leb_spec (block_size - field_size) (Z.of_nat (length rest))); lia).
  clearbody pad. split; [assumption|]. split.
  - unfold zero_count, whole in *. apply Z.mod_divide in Hw as [k Hk]; [|lia]. symmetry.
    destruct Hor; [apply Z.mod_unique with (- k)|apply Z.mod_unique with (- k - 1)]; subst n bytes; lia.
  - split; [destruct Hor as [->| ->]; [apply Z.mod_same|apply Z.mod_mul]; lia|lia].
Qed.

Lemma finish_ctx_spec {R} h0 msg c : holds h0 msg c -> @finish_ctx A H T _ R c = Next (digest h0 msg).
Proof.
  intros [(full & rest & -> & Hw & Hh & Ht & Hbl & Htk) Hle Hbuf]. pose proof block_bounds as Hbs. pose proof field_ok as Hfld.
  destruct (padding_eq full rest Hw ltac:(lia)) as (Hpad & Hz & Hmod & Hroom). unfold finish_ctx. rewrite Hbl.
  set (pad := if block_size - field_size <=? Z.of_nat (length rest)
    then block_size + (block_size - field_size) - Z.of_nat (length rest) else block_size - field_size - Z.of_nat (length rest)) in *.
  assert ((if block_size - field_size <=? Z.of_nat (length rest)
    then szw A (blw (block_size + (block_size - field_size) - Z.of_nat (length rest)))
    else szw A (blw (block_size - field_size - Z.of_nat (length rest)))) = pad) as ->
    by (subst pad; destruct (Z.leb_spec (block_size - field_size) (Z.of_nat (length rest))); rewrite blw_small by lia; apply szw_small; lia).
  clearbody pad.
  assert (Z.of_nat (length fillbuf) = block_size) as Hlf by (unfold fillbuf; simpl length; rewrite repeat_length; lia).
  rewrite bytes_from_ok by lia. change (drop (Z.to_nat 0) fillbuf) with fillbuf. rewrite fillbuf_take by lia. cbn [flow_bind].
  set (fill := 0x80 :: repeat 0 (Z.to_nat pad - 1)).
  assert (Z.of_nat (length fill) = pad) as Hfill by (subst fill; simpl length; rewrite repeat_length; lia).
  destruct (copy_behind (R := R) (buffer c) rest fill Htk) as (buf & -> & Hlb & Htb); [lia|]. cbn [flow_bind].
  rewrite Ht, count_rest_ok by lia.
  replace (Z.of_nat (length full) + Z.of_nat (length rest)) with (Z.of_nat (length (full ++ rest))) by (rewrite length_app; lia).
  rewrite put_length_ok by lia. set (n := Z.of_nat (length (full ++ rest))).
  pose proof (length_field_size n) as Hlfs.
  replace (Z.of_nat (length rest) + pad) with (Z.of_nat (length (rest ++ fill))) by (rewrite length_app; lia).
  destruct (copy_behind (R := R) buf (rest ++ fill) (length_field n) Htb) as (buf2 & -> & Hlb2 & Htb2); [rewrite length_app; lia|].
  cbn [flow_bind]. rewrite (bytes_prefix buf2 ((rest ++ fill) ++ length_field n)) by (assumption || rewrite !length_app; lia).
  cbn [flow_bind]. rewrite process_block_eq. cbn [hash]. rewrite take_ge by (rewrite !length_app in *; lia).
  unfold digest, padded. fold n in Hz |- *. rewrite Hz, Hh. do 2 f_equal. rewrite <- hash_blocks_app by assumption. f_equal.
  rewrite <- !app_assoc. do 2 f_equal. subst fill. cbn [app]. do 3 f_equal. lia.
Qed.

Lemma init_holds h0 buf : Z.of_nat (length buf) = 2 * block_size -> holds h0 [] (mkctx h0 (total_of 0) 0 buf).
Proof.
  intros Hb. pose proof block_bounds. split; cbn; [|lia|assumption]. exists [], []. split; [reflexivity|].
  split; [unfold whole; apply Z.mod_0_l; lia|]. rewrite hash_blocks_nil. auto.
Qed.

Lemma process_chunks_spec {R} h0 chunks msg c :
  holds h0 msg c -> exists c', @process_chunks A H T _ R chunks c = Next c' /\ holds h0 (msg ++ concat (map snd chunks)) c'.
Proof.
  revert msg c. induction chunks as [|[ua data] chunks IH]; intros msg c Hc.
  - exists c. rewrite app_nil_r. auto.
  - cbn [process_chunks]. destruct (process_bytes_spec (R := R) h0 ua msg data c Hc) as (c1 & -> & H1). cbn [flow_bind].
    destruct (IH _ _ H1) as (c2 & -> & H2). exists c2. split; [reflexivity|]. cbn [map snd concat]. rewrite app_assoc. exact H2.
Qed.

(** Streaming: whatever the pieces and their alignments, the digest is that of the message. *)
Lemma streaming {R} h0 buf chunks :
  Z.of_nat (length buf) = 2 * block_size ->
  (let! c := @process_chunks A H T _ R chunks (mkctx h0 (total_of 0) 0 buf) in finish_ctx A c) =
  Next (digest h0 (concat (map snd chunks))).
Proof.
  intros Hb. destruct (process_chunks_spec (R := R) h0 chunks _ _ (init_holds h0 buf Hb)) as (c & -> & Hc).
  cbn [flow_bind]. apply finish_ctx_spec. exact Hc.
Qed.
End Proofs.
