(* ===== verification/Md5.v ===== *)
(** MD5 (crypt/md5.c, md5-block.c): the unrolled compression function, the two-word byte
    count, and the instance of the streaming interface.  The reference is RFC 1321: the
    four rounds by their index, shift and constant tables, on little-endian words. *)
From S2P Require Import Prelude CMem Byteswap Digest.

(** [ctx->A], [ctx->B], [ctx->C], [ctx->D] *)
Abbreviation md5_state := (Z * Z * Z * Z)%type.

Definition FF (b c d : Z) : Z := Z.lxor d (Z.land b (Z.lxor c d)).
Definition FG (b c d : Z) : Z := FF d b c.
Definition FH (b c d : Z) : Z := Z.lxor (Z.lxor b c) d.
Definition FI (b c d : Z) : Z := Z.lxor c (Z.lor b (unot 32 d)).

Definition CYCLIC (w s : Z) : Z := Z.lor (u32 (Z.shiftl w s)) (Z.shiftr w (32 - s)).

(** The macro OP of either round, with the word [x] that it reads. *)
Definition OP (f : Z -> Z -> Z -> Z) (a b c d x s T : Z) : Z :=
  u32 (CYCLIC (u32 (a + (f b c d + x + T))) s + b).

Section Md5.
Context (A : arch).

Definition SWAP (n : Z) : Z :=
  if big_endian A
  then Z.lor (Z.lor (Z.lor (u32 (Z.shiftl n 24)) (Z.shiftl (Z.land n 0xff00) 8)) (Z.land (Z.shiftr n 8) 0xff00)) (Z.shiftr n 24)
  else n.

(** [correct_words[k]]: a word of the block in the byte order of the machine, swapped. *)
Definition correct_word (block : list Z) (k : nat) : Z := SWAP (uint_val A (take 4 (drop (4 * k) block))).

(** Four applications of OP, to A, D, C and B in turn; each names its word and its constant. *)
Definition four (cw : nat -> Z) (f : Z -> Z -> Z -> Z) (s1 s2 s3 s4 : Z) (o1 o2 o3 o4 : nat * Z) (st : md5_state) : md5_state :=
  let '(A, B, C, D) := st in
  let A := OP f A B C D (cw (fst o1)) s1 (snd o1) in
  let D := OP f D A B C (cw (fst o2)) s2 (snd o2) in
  let C := OP f C D A B (cw (fst o3)) s3 (snd o3) in
  let B := OP f B C D A (cw (fst o4)) s4 (snd o4) in
  (A, B, C, D).

Definition md5_rounds (cw : nat -> Z) (st : md5_state) : md5_state :=
  let four := four cw in
  let st := four FF 7 12 17 22 (0%nat, 0xd76aa478) (1%nat, 0xe8c7b756) (2%nat, 0x242070db) (3%nat, 0xc1bdceee) st in
  let st := four FF 7 12 17 22 (4%nat, 0xf57c0faf) (5%nat, 0x4787c62a) (6%nat, 0xa8304613) (7%nat, 0xfd469501) st in
  let st := four FF 7 12 17 22 (8%nat, 0x698098d8) (9%nat, 0x8b44f7af) (10%nat, 0xffff5bb1) (11%nat, 0x895cd7be) st in
  let st := four FF 7 12 17 22 (12%nat, 0x6b901122) (13%nat, 0xfd987193) (14%nat, 0xa679438e) (15%nat, 0x49b40821) st in
  let st := four FG 5 9 14 20 (1%nat, 0xf61e2562) (6%nat, 0xc040b340) (11%nat, 0x265e5a51) (0%nat, 0xe9b6c7aa) st in
  let st := four FG 5 9 14 20 (5%nat, 0xd62f105d) (10%nat, 0x02441453) (15%nat, 0xd8a1e681) (4%nat, 0xe7d3fbc8) st in
  let st := four FG 5 9 14 20 (9%nat, 0x21e1cde6) (14%nat, 0xc33707d6) (3%nat, 0xf4d50d87) (8%nat, 0x455a14ed) st in
  let st := four FG 5 9 14 20 (13%nat, 0xa9e3e905) (2%nat, 0xfcefa3f8) (7%nat, 0x676f02d9) (12%nat, 0x8d2a4c8a) st in
  let st := four FH 4 11 16 23 (5%nat, 0xfffa3942) (8%nat, 0x8771f681) (11%nat, 0x6d9d6122) (14%nat, 0xfde5380c) st in
  let st := four FH 4 11 16 23 (1%nat, 0xa4beea44) (4%nat, 0x4bdecfa9) (7%nat, 0xf6bb4b60) (10%nat, 0xbebfbc70) st in
  let st := four FH 4 11 16 23 (13%nat, 0x289b7ec6) (0%nat, 0xeaa127fa) (3%nat, 0xd4ef3085) (6%nat, 0x04881d05) st in
  let st := four FH 4 11 16 23 (9%nat, 0xd9d4d039) (12%nat, 0xe6db99e5) (15%nat, 0x1fa27cf8) (2%nat, 0xc4ac5665) st in
  let st := four FI 6 10 15 21 (0%nat, 0xf4292244) (7%nat, 0x432aff97) (14%nat, 0xab9423a7) (5%nat, 0xfc93a039) st in
  let st := four FI 6 10 15 21 (12%nat, 0x655b59c3) (3%nat, 0x8f0ccc92) (10%nat, 0xffeff47d) (1%nat, 0x85845dd1) st in
  let st := four FI 6 10 15 21 (8%nat, 0x6fa87e4f) (15%nat, 0xfe2ce6e0) (6%nat, 0xa3014314) (13%nat, 0x4e0811a1) st in
  let st := four FI 6 10 15 21 (4%nat, 0xf7537e82) (11%nat, 0xbd3af235) (2%nat, 0x2ad7d2bb) (9%nat, 0xeb86d391) st in
  st.

(** The body of the loop of [__md5_process_block]. *)
Definition md5_block (block : list Z) (st : md5_state) : md5_state :=
  let '(A_save, B_save, C_save, D_save) := st in
  let '(A, B, C, D) := md5_rounds (correct_word block) st in
  (u32 (A + A_save), u32 (B + B_save), u32 (C + C_save), u32 (D + D_save)).

(** [ctx->total[0]] and [ctx->total[1]] *)
Definition md5_count (total : Z * Z) (len : Z) : Z * Z :=
  let '(total0, total1) := total in
  let lolen := u32 len in
  let total0 := u32 (total0 + lolen) in
  (total0, u32 (total1 + Z.shiftr (Z.shiftr len 31) 1 + (if total0 <? lolen then 1 else 0))).

Definition md5_count_rest (total : Z * Z) (bytes : Z) : Z * Z :=
  let '(total0, total1) := total in
  let total0 := u32 (total0 + bytes) in
  (total0, if total0 <? bytes then u32 (total1 + 1) else total1).

(** [ctx->buffer32[i] = v] *)
Definition store32 {R} (buf : list Z) (i v : Z) : flow R (list Z) := copy_into buf (4 * i) (uint_bytes A 4 v).

(** [off] is [bytes + pad]. *)
Definition md5_put_length {R} (buf : list Z) (off : Z) (total : Z * Z) : flow R (list Z) :=
  let '(total0, total1) := total in
  let! buf := store32 buf (off / 4) (SWAP (u32 (Z.shiftl total0 3))) in
  store32 buf ((off + 4) / 4) (SWAP (Z.lor (u32 (Z.shiftl total1 3)) (Z.shiftr total0 29))).

(** The words are stored in the byte order of the machine. *)
Definition md5_read_ctx (st : md5_state) : list Z :=
  let '(A', B', C', D') := st in
  uint_bytes A 4 (SWAP A') ++ uint_bytes A 4 (SWAP B') ++ uint_bytes A 4 (SWAP C') ++ uint_bytes A 4 (SWAP D').

#[export] Instance md5 : Digest md5_state (Z * Z) := {
  block_size := 64;
  field_size := 8;
  buflen_bits := 32;
  compress := md5_block;
  count := md5_count;
  count_rest := md5_count_rest;
  put_length := fun R => md5_put_length;
  read_ctx := md5_read_ctx
}.

(** The buffer is not initialized. *)
Definition md5_init_ctx (buf : list Z) : ctx md5_state (Z * Z) :=
  mkctx (0x67452301, 0xefcdab89, 0x98badcfe, 0x10325476) (0, 0) 0 buf.

Definition md5_process_block : list Z -> ctx md5_state (Z * Z) -> ctx md5_state (Z * Z) := process_block.

Definition md5_process_bytes {R} (unaligned : bool) (buffer : list Z) (c : ctx md5_state (Z * Z)) :
    flow R (ctx md5_state (Z * Z)) := process_bytes A unaligned buffer c.

Definition md5_finish_ctx {R} (c : ctx md5_state (Z * Z)) : flow R (list Z) := finish_ctx A c.

Definition md5_buffer {R} (buf : list Z) (unaligned : bool) (buffer : list Z) : flow R (list Z) :=
  let! c := md5_process_bytes unaligned buffer (md5_init_ctx buf) in
  md5_finish_ctx c.
End Md5.

(** * RFC 1321 *)

Module Rfc1321.
Definition F (x y z : Z) : Z := Z.lor (Z.land x y) (Z.land (unot 32 x) z).
Definition G (x y z : Z) : Z := Z.lor (Z.land x z) (Z.land y (unot 32 z)).
Definition H (x y z : Z) : Z := Z.lxor (Z.lxor x y) z.
Definition I (x y z : Z) : Z := Z.lxor y (Z.lor x (unot 32 z)).

Definition T : list Z :=
  [0xd76aa478; 0xe8c7b756; 0x242070db; 0xc1bdceee;
   0xf57c0faf; 0x4787c62a; 0xa8304613; 0xfd469501;
   0x698098d8; 0x8b44f7af; 0xffff5bb1; 0x895cd7be;
   0x6b901122; 0xfd987193; 0xa679438e; 0x49b40821;
   0xf61e2562; 0xc040b340; 0x265e5a51; 0xe9b6c7aa;
   0xd62f105d; 0x02441453; 0xd8a1e681; 0xe7d3fbc8;
   0x21e1cde6; 0xc33707d6; 0xf4d50d87; 0x455a14ed;
   0xa9e3e905; 0xfcefa3f8; 0x676f02d9; 0x8d2a4c8a;
   0xfffa3942; 0x8771f681; 0x6d9d6122; 0xfde5380c;
   0xa4beea44; 0x4bdecfa9; 0xf6bb4b60; 0xbebfbc70;
   0x289b7ec6; 0xeaa127fa; 0xd4ef3085; 0x04881d05;
   0xd9d4d039; 0xe6db99e5; 0x1fa27cf8; 0xc4ac5665;
   0xf4292244; 0x432aff97; 0xab9423a7; 0xfc93a039;
   0x655b59c3; 0x8f0ccc92; 0xffeff47d; 0x85845dd1;
   0x6fa87e4f; 0xfe2ce6e0; 0xa3014314; 0x4e0811a1;
   0xf7537e82; 0xbd3af235; 0x2ad7d2bb; 0xeb86d391].

Definition rotl (x s : Z) : Z := (x * 2 ^ s) mod 2 ^ 32 + x / 2 ^ (32 - s).

(** Step [i]: its function, the word it reads and its shift. *)
Definition func (i : nat) : Z -> Z -> Z -> Z :=
  match (i / 16)%nat with 0%nat => F | 1%nat => G | 2%nat => H | _ => I end.

Definition word (i : nat) : nat :=
  match (i / 16)%nat with
  | 0%nat => i
  | 1%nat => (5 * i + 1) mod 16
  | 2%nat => (3 * i + 5) mod 16
  | _ => (7 * i) mod 16
  end.

Definition shift (i : nat) : Z :=
  nth (i mod 4) (match (i / 16)%nat with 0%nat => [7; 12; 17; 22] | 1%nat => [5; 9; 14; 20] | 2%nat => [4; 11; 16; 23] | _ => [6; 10; 15; 21] end) 0.

(** [a = b + ((a + f(b,c,d) + X[k] + T[i]) <<< s)], and the registers rotate. *)
Definition step (X : nat -> Z) (st : md5_state) (i : nat) : md5_state :=
  let '(a, b, c, d) := st in
  (d, (b + rotl ((a + func i b c d + X (word i) + nth i T 0) mod 2 ^ 32) (shift i)) mod 2 ^ 32, b, c).

Definition block (data : list Z) (st : md5_state) : md5_state :=
  let X k := le_val (take 4 (drop (4 * k) data)) in
  let '(a0, b0, c0, d0) := st in
  let '(a, b, c, d) := fold_left (step X) (seq 0 64) st in
  ((a0 + a) mod 2 ^ 32, (b0 + b) mod 2 ^ 32, (c0 + c) mod 2 ^ 32, (d0 + d) mod 2 ^ 32).

Definition pad (msg : list Z) : list Z :=
  let n := Z.of_nat (length msg) in
  msg ++ [0x80] ++ repeat 0 (Z.to_nat ((55 - n) mod 64)) ++ le_bytes 8 ((8 * n) mod 2 ^ 64).

Definition output (st : md5_state) : list Z :=
  let '(a, b, c, d) := st in le_bytes 4 a ++ le_bytes 4 b ++ le_bytes 4 c ++ le_bytes 4 d.

Definition MD5 (msg : list Z) : list Z :=
  output (chain block 64 (length (pad msg) / 64) (pad msg) (0x67452301, 0xefcdab89, 0x98badcfe, 0x10325476)).
End Rfc1321.

(** The digest of "abc", from the RFC. *)
Example md5_abc :
  @md5_buffer (Arch true false) unit (repeat 0 128) false [97; 98; 99] =
  Next [0x90; 0x01; 0x50; 0x98; 0x3c; 0xd2; 0x4f; 0xb0; 0xd6; 0x96; 0x3f; 0x7d; 0x28; 0xe1; 0x7f; 0x72].
Proof. vm_compute. reflexivity. Qed.

Example rfc_abc :
  Rfc1321.MD5 [97; 98; 99] =
  [0x90; 0x01; 0x50; 0x98; 0x3c; 0xd2; 0x4f; 0xb0; 0xd6; 0x96; 0x3f; 0x7d; 0x28; 0xe1; 0x7f; 0x72].
Proof. vm_compute. reflexivity. Qed.

(** * Proofs *)

(** ** Byte order *)

Lemma md5_swap_bits x i : 0 <= x < 256 ^ 4 -> 0 <= i ->
  Z.testbit (Z.lor (Z.lor (Z.lor (u32 (Z.shiftl x 24)) (Z.shiftl (Z.land x 0xff00) 8)) (Z.land (Z.shiftr x 8) 0xff00)) (Z.shiftr x 24)) i =
  if i <? 8 * 4 then Z.testbit x (8 * (4 - 1 - i / 8) + i mod 8) else false.
Proof.
  intros Hx. replace (Z.shiftr x 24) with (Z.shiftr (Z.land x 0xffffffff) 24)
    by (change 0xffffffff with (Z.ones 32); rewrite Z.land_ones, Z.mod_small by lia; reflexivity).
  unfold u32, uwrap. rewrite <- Z.land_ones by lia. change (Z.ones 32) with 0xffffffff. revert x i Hx. swap_bits (8 * 4).
Qed.

Section ByteOrder.
Context (A : arch).

Lemma md5_SWAP_load bs : length bs = 4%nat -> Forall is_byte bs -> SWAP A (uint_val A bs) = le_val bs.
Proof.
  intros Hl Hb. unfold SWAP, uint_val, be_val. destruct (big_endian A); [|reflexivity].
  rewrite (swap_reverses (fun n => Z.lor (Z.lor (Z.lor (u32 (Z.shiftl n 24)) (Z.shiftl (Z.land n 0xff00) 8))
    (Z.land (Z.shiftr n 8) 0xff00)) (Z.shiftr n 24)) 4); [rewrite rev_involutive; reflexivity|exact md5_swap_bits|apply rev_Forall; assumption|].
  rewrite length_rev, Hl. reflexivity.
Qed.

Lemma md5_SWAP_store v : 0 <= v < 2 ^ 32 -> uint_bytes A 4 (SWAP A v) = le_bytes 4 v.
Proof.
  intros Hv. unfold SWAP, uint_bytes. destruct (big_endian A); [|reflexivity].
  pose proof (le_bytes_byte 4 v) as Hb. pose proof (length_le_bytes 4 v) as Hl.
  rewrite <- (le_val_le_bytes 4 v) at 1 2 3 4 by exact Hv.
  rewrite (swap_reverses (fun n => Z.lor (Z.lor (Z.lor (u32 (Z.shiftl n 24)) (Z.shiftl (Z.land n 0xff00) 8))
    (Z.land (Z.shiftr n 8) 0xff00)) (Z.shiftr n 24)) 4); [|exact md5_swap_bits|assumption|rewrite Hl; reflexivity].
  replace 4%nat with (length (rev (le_bytes 4 v))) at 1 by (rewrite length_rev; assumption).
  rewrite le_bytes_le_val by (apply rev_Forall; assumption). apply rev_involutive.
Qed.

(** ** The laws of the streaming interface *)

Lemma md5_put_length_ok R buf off n :
  0 <= n -> (off + 8) mod 64 = 0 -> 0 <= off -> off + 8 <= Z.of_nat (length buf) ->
  @md5_put_length A R buf off (n mod 2 ^ 32, (n / 2 ^ 32) mod 2 ^ 32) = copy_into buf off (le_bytes 8 ((8 * n) mod 2 ^ 64)).
Proof.
  intros Hn Hm Ho Hl. unfold md5_put_length, store32, u32. change 29 with (32 - 3).
  destruct (pair_bits 32 ltac:(lia) n Hn) as [-> ->].
  apply Z.mod_divide in Hm as [q Hq]; [|lia].
  assert (4 * (off / 4) = off) as -> by (replace (off / 4) with (16 * q - 2) by (apply Z.div_unique with 0; lia); lia).
  assert (4 * ((off + 4) / 4) = off + 4) as -> by (replace ((off + 4) / 4) with (16 * q - 1) by (apply Z.div_unique with 0; lia); lia).
  pose proof (Z.mod_pos_bound (8 * n) (2 ^ 32) ltac:(lia)) as B0. pose proof (Z.mod_pos_bound (8 * n / 2 ^ 32) (2 ^ 32) ltac:(lia)) as B1.
  rewrite !md5_SWAP_store by assumption. pose proof (length_le_bytes 4 ((8 * n) mod 2 ^ 32)) as L0.
  destruct (copy_two (R := R) buf off (le_bytes 4 ((8 * n) mod 2 ^ 32)) (le_bytes 4 ((8 * n / 2 ^ 32) mod 2 ^ 32))) as [E _];
    [lia|rewrite !length_le_bytes; lia|].
  rewrite L0 in E. change (Z.of_nat 4) with 4 in E. rewrite E. f_equal.
  change (2 ^ 64) with (256 ^ Z.of_nat 8). rewrite (le_bytes_mod 8). change 8%nat with (4 + 4)%nat. rewrite le_bytes_app.
  change (2 ^ 32) with (256 ^ Z.of_nat 4). rewrite !le_bytes_mod. reflexivity.
Qed.

#[export] Instance md5_laws : @DigestLaws md5_state (Z * Z) (md5 A).
Proof.
  refine {| log_size := 6; total_of := fun n => (n mod 2 ^ 32, (n / 2 ^ 32) mod 2 ^ 32);
            length_field := fun n => le_bytes 8 ((8 * n) mod 2 ^ 64) |}; cbn [block_size field_size count count_rest put_length md5].
  - lia.
  - reflexivity.
  - lia.
  - cbn. lia.
  - intros n k Hn Hk. unfold md5_count, u32. destruct (pair_count 32 ltac:(lia) n k Hn Hk) as [E0 E1].
    rewrite E0 in *. f_equal. rewrite <- E1. do 2 f_equal. f_equal. rewrite Z.shiftr_shiftr by lia. apply Z.shiftr_div_pow2. lia.
  - intros n k Hn Hk. unfold md5_count_rest, u32. destruct (pair_count 32 ltac:(lia) n k Hn ltac:(lia)) as [E0 E1].
    rewrite (uwrap_small 32 k) in E0, E1 by lia. rewrite (Z.div_small k), Z.add_0_r in E1 by lia. rewrite E0 in *. f_equal.
    destruct (_ <? k); [assumption|]. rewrite Z.add_0_r in E1. unfold uwrap in E1. rewrite Z.mod_mod in E1 by lia. assumption.
  - intros n. rewrite length_le_bytes. reflexivity.
  - intros R buf off n. apply md5_put_length_ok.
Defined.
End ByteOrder.

(** ** The rounds are those of the RFC *)

Definition word32 (x : Z) : Prop := 0 <= x < 2 ^ 32.

Definition words32 (st : md5_state) : Prop :=
  let '(a, b, c, d) := st in word32 a /\ word32 b /\ word32 c /\ word32 d.

Lemma u32_word x : word32 (u32 x).
Proof. apply uwrap_range. lia. Qed.

Lemma FF_F b c d : word32 b -> word32 c -> word32 d -> FF b c d = Rfc1321.F b c d.
Proof.
  intros Hb Hc Hd. unfold FF, Rfc1321.F. apply Z.bits_inj'. intros i Hi.
  rewrite Z.lxor_spec, Z.lor_spec, !Z.land_spec, Z.lxor_spec. destruct (Z.lt_ge_cases i 32).
  - rewrite unot_testbit by (assumption || lia). destruct (Z.testbit b i), (Z.testbit c i), (Z.testbit d i); reflexivity.
  - pose proof (unot_range 32 b Hb) as Hn. rewrite !(bits_above _ 32 i) by (assumption || lia). reflexivity.
Qed.

Lemma FG_G b c d : word32 b -> word32 c -> word32 d -> FG b c d = Rfc1321.G b c d.
Proof.
  intros Hb Hc Hd. unfold FG. rewrite FF_F by assumption. unfold Rfc1321.F, Rfc1321.G.
  rewrite (Z.land_comm d b), (Z.land_comm c). reflexivity.
Qed.

Lemma CYCLIC_rotl w s : word32 w -> 0 <= s <= 32 -> CYCLIC w s = Rfc1321.rotl w s.
Proof.
  unfold word32. intros Hw Hs. unfold CYCLIC, Rfc1321.rotl, u32, uwrap. rewrite Z.shiftl_mul_pow2, Z.shiftr_div_pow2 by lia.
  set (K := 2 ^ (32 - s)). assert (0 < 2 ^ s) by (apply Z.pow_pos_nonneg; lia). assert (0 < K) by (apply Z.pow_pos_nonneg; lia).
  assert (2 ^ 32 = K * 2 ^ s) as E by (subst K; rewrite <- Z.pow_add_r by lia; f_equal; lia).
  assert (w / K < 2 ^ s) by (apply Z.div_lt_upper_bound; lia). pose proof (Z.div_pos w K ltac:(lia) ltac:(lia)).
  rewrite E, Z.mul_mod_distr_r by lia. rewrite <- Z.shiftl_mul_pow2 by lia. rewrite lor_low by lia. rewrite Z.shiftl_mul_pow2 by lia. reflexivity.
Qed.

Lemma OP_step f g a b c d x s T :
  f b c d = g b c d -> 0 <= s <= 32 ->
  OP f a b c d x s T = (b + Rfc1321.rotl ((a + g b c d + x + T) mod 2 ^ 32) s) mod 2 ^ 32.
Proof.
  intros E Hs. unfold OP. rewrite E, CYCLIC_rotl by (apply u32_word || assumption).
  unfold u32, uwrap. f_equal. rewrite Z.add_comm. f_equal. do 2 f_equal. lia.
Qed.

(** What makes the four operations from step [i] on those of the RFC. *)
Definition op_ok (i : nat) (s : Z) (o : nat * Z) : Prop :=
  Rfc1321.word i = fst o /\ Rfc1321.shift i = s /\ nth i Rfc1321.T 0 = snd o /\ 0 <= s <= 32.

Definition quad_ok (f : Z -> Z -> Z -> Z) (i : nat) (s1 s2 s3 s4 : Z) (o1 o2 o3 o4 : nat * Z) : Prop :=
  (forall j b c d, (j < 4)%nat -> word32 b -> word32 c -> word32 d -> f b c d = Rfc1321.func (i + j) b c d) /\
  op_ok i s1 o1 /\ op_ok (i + 1) s2 o2 /\ op_ok (i + 2) s3 o3 /\ op_ok (i + 3) s4 o4.

Lemma four_steps cw f i s1 s2 s3 s4 o1 o2 o3 o4 st :
  quad_ok f i s1 s2 s3 s4 o1 o2 o3 o4 -> words32 st ->
  four cw f s1 s2 s3 s4 o1 o2 o3 o4 st = fold_left (Rfc1321.step cw) (seq i 4) st /\
  words32 (fold_left (Rfc1321.step cw) (seq i 4) st).
Proof.
  intros (Hf & (W1 & S1 & T1 & R1) & (W2 & S2 & T2 & R2) & (W3 & S3 & T3 & R3) & W4 & S4 & T4 & R4) Hst. destruct st as [[[a b] c] d]. destruct Hst as (Ha & Hb & Hc & Hd).
  assert (four cw f s1 s2 s3 s4 o1 o2 o3 o4 (a, b, c, d) = fold_left (Rfc1321.step cw) (seq i 4) (a, b, c, d)) as E.
  { cbn [seq fold_left four Rfc1321.step].
    replace (S i) with (i + 1)%nat by lia. replace (S (i + 1)) with (i + 2)%nat by lia.
    replace (S (i + 2)) with (i + 3)%nat by lia. rewrite W1, S1, T1, W2, S2, T2, W3, S3, T3, W4, S4, T4.
    rewrite (OP_step f (Rfc1321.func i) a b c d) by (try (rewrite (Hf 0%nat), Nat.add_0_r by (assumption || lia); reflexivity); assumption).
    set (a1 := (b + _) mod 2 ^ 32). assert (word32 a1) as Ha1 by apply u32_word.
    rewrite (OP_step f (Rfc1321.func (i + 1)) d a1 b c) by (try (apply Hf; assumption || lia); assumption).
    set (d1 := (a1 + _) mod 2 ^ 32). assert (word32 d1) as Hd1 by apply u32_word.
    rewrite (OP_step f (Rfc1321.func (i + 2)) c d1 a1 b) by (try (apply Hf; assumption || lia); assumption).
    set (c1 := (d1 + _) mod 2 ^ 32). assert (word32 c1) as Hc1 by apply u32_word.
    rewrite (OP_step f (Rfc1321.func (i + 3)) b c1 d1 a1) by (try (apply Hf; assumption || lia); assumption). reflexivity. }
  rewrite <- E. split; [reflexivity|]. unfold four, words32, OP. auto using u32_word.
Qed.

Ltac quad_ok :=
  split; [|unfold op_ok; repeat split; (reflexivity || lia)];
  let j := fresh in let b := fresh in let c := fresh in let d := fresh in let Hj := fresh in
  intros j b c d Hj ? ? ?; do 4 (destruct j as [|j]; [first [apply FF_F|apply FG_G|reflexivity]; assumption|]); lia.

Lemma md5_rounds_rfc cw st :
  words32 st ->
  md5_rounds cw st = fold_left (Rfc1321.step cw) (seq 0 64) st /\ words32 (fold_left (Rfc1321.step cw) (seq 0 64) st).
Proof.
  intros Hst. unfold md5_rounds. cbv zeta.
  change (seq 0 64) with (seq 0 4 ++ seq 4 4 ++ seq 8 4 ++ seq 12 4 ++ seq 16 4 ++ seq 20 4 ++ seq 24 4 ++ seq 28 4 ++
    seq 32 4 ++ seq 36 4 ++ seq 40 4 ++ seq 44 4 ++ seq 48 4 ++ seq 52 4 ++ seq 56 4 ++ seq 60 4).
  rewrite !fold_left_app.
  do 16 match goal with
    | Hst : words32 ?st |- context [four cw ?f ?s1 ?s2 ?s3 ?s4 ?o1 ?o2 ?o3 ?o4 ?st] =>
        match goal with |- context [fold_left (Rfc1321.step cw) (seq ?i 4) st] =>
          destruct (four_steps cw f i s1 s2 s3 s4 o1 o2 o3 o4 st) as [-> Hst2]; [quad_ok|exact Hst|];
          clear Hst; revert Hst2; generalize (fold_left (Rfc1321.step cw) (seq i 4) st); clear st; intros st Hst
        end
    end.
  auto.
Qed.

Lemma step_ext X Y st i : (forall k, X k = Y k) -> Rfc1321.step X st i = Rfc1321.step Y st i.
Proof. intros E. unfold Rfc1321.step. rewrite E. reflexivity. Qed.

Lemma fold_step_ext X Y l st : (forall k, X k = Y k) -> fold_left (Rfc1321.step X) l st = fold_left (Rfc1321.step Y) l st.
Proof. intros E. revert st. induction l as [|i l IH]; intros st; [reflexivity|]. cbn [fold_left]. rewrite (step_ext X Y) by assumption. apply IH. Qed.

Section Correct.
Context (A : arch).

Lemma correct_word_le block k : length block = 64%nat -> Forall is_byte block -> correct_word A block k = le_val (take 4 (drop (4 * k) block)).
Proof.
  intros Hl Hb. unfold correct_word. destruct (Nat.lt_ge_cases k 16).
  - apply md5_SWAP_load; [rewrite length_take, length_drop; lia|apply Forall_take, Forall_drop; assumption].
  - rewrite drop_ge by lia. unfold SWAP, uint_val, be_val. destruct (big_endian A); reflexivity.
Qed.

Lemma md5_block_rfc block st :
  length block = 64%nat -> Forall is_byte block -> words32 st ->
  md5_block A block st = Rfc1321.block block st /\ words32 (Rfc1321.block block st).
Proof.
  intros Hl Hb Hst. unfold md5_block, Rfc1321.block. cbv zeta. destruct (md5_rounds_rfc (correct_word A block) st Hst) as [-> _].
  rewrite (fold_step_ext _ _ _ _ (fun k => correct_word_le block k Hl Hb)).
  destruct st as [[[a0 b0] c0] d0]. destruct (fold_left _ _ _) as [[[a b] c] d].
  unfold u32, uwrap. rewrite (Z.add_comm a), (Z.add_comm b), (Z.add_comm c), (Z.add_comm d). split; [reflexivity|].
  repeat split; apply u32_word.
Qed.

Lemma md5_read_ctx_rfc st : words32 st -> md5_read_ctx A st = Rfc1321.output st.
Proof.
  destruct st as [[[a b] c] d]. intros (Ha & Hb & Hc & Hd). unfold md5_read_ctx, Rfc1321.output.
  rewrite !md5_SWAP_store by assumption. reflexivity.
Qed.

Lemma md5_padded msg : @padded _ _ (md5 A) (md5_laws A) msg = Rfc1321.pad msg.
Proof.
  unfold padded, Rfc1321.pad, zero_count. cbn [block_size field_size md5 length_field md5_laws app].
  do 5 f_equal. f_equal. lia.
Qed.

Lemma md5_digest msg :
  Forall is_byte msg -> @digest _ _ (md5 A) (md5_laws A) (0x67452301, 0xefcdab89, 0x98badcfe, 0x10325476) msg = Rfc1321.MD5 msg.
Proof.
  intros Hm. unfold digest, Rfc1321.MD5. cbn [read_ctx md5].
  assert (Forall is_byte (Rfc1321.pad msg)) as Hp.
  { unfold Rfc1321.pad. repeat apply Forall_app_2; [assumption|wf_bytes|apply repeat_bytes; unfold is_byte; lia|apply le_bytes_byte]. }
  pose proof (padded_whole (ops := md5 A) (laws := md5_laws A) msg) as Hw. rewrite md5_padded in *.
  destruct (hash_blocks_chain (ops := md5 A) (laws := md5_laws A) Rfc1321.block words32 (Rfc1321.pad msg)
    (0x67452301, 0xefcdab89, 0x98badcfe, 0x10325476)) as [E Hi]; auto.
  - intros block h Hl Hb Hh. apply md5_block_rfc; assumption.
  - unfold words32, word32. lia.
  - rewrite md5_read_ctx_rfc by exact Hi. rewrite E. reflexivity.
Qed.
End Correct.

(** C14: however the bytes of a message are cut into pieces, and at whatever alignment
    each piece lies, md5_init_ctx, one md5_process_bytes per piece and md5_finish_ctx
    return, on a machine of either byte order and word size, and give the digest that
    RFC 1321 defines for the whole message.  (Pieces and message may have any length; the
    bit count is taken modulo 2^64, as the RFC says.) *)
Theorem md5_streaming_correct {R} (A : arch) (buf : list Z) (chunks : list (bool * list Z)) :
  length buf = 128%nat -> Forall (fun chunk => Forall is_byte (snd chunk)) chunks ->
  (let! c := @process_chunks A _ _ (md5 A) R chunks (md5_init_ctx buf) in md5_finish_ctx A c) =
  Next (Rfc1321.MD5 (concat (map snd chunks))).
Proof.
  intros Hb Hc. unfold md5_init_ctx, md5_finish_ctx. rewrite <- (md5_digest A).
  - apply (streaming A (ops := md5 A) (laws := md5_laws A)). rewrite Hb. reflexivity.
  - apply Forall_concat, Forall_map. exact Hc.
Qed.

Lemma md5_streaming_witness :
  (let! c := @process_chunks (Arch false true) _ _ (md5 (Arch false true)) unit [(true, [97; 98]); (false, [99])] (md5_init_ctx (repeat 7 128)) in
   md5_finish_ctx (Arch false true) c) = Next (Rfc1321.MD5 [97; 98; 99]).
Proof.
  apply (md5_streaming_correct (Arch false true) (repeat 7 128) [(true, [97; 98]); (false, [99])]); [reflexivity|].
  repeat constructor; cbn; unfold is_byte; lia.
Defined.
