(* ===== verification/Sha2.v ===== *)
(** SHA-256 and SHA-512 (crypt/sha256.c, sha256-block.c, sha512.c, sha512-block.c): the
    compression functions, which differ in the word size and in constants, and the two
    instances of the streaming interface.  The reference is FIPS 180-2, the constants of
    which are defined by the roots of primes and not by a table. *)
From S2P Require Import Prelude CMem Byteswap Digest.

(** [ctx->H], and the variables [a] to [h] *)
Abbreviation sha_state := (Z * Z * Z * Z * Z * Z * Z * Z)%type.

(** * What the two share *)

Section Block.
(** The width of a word in bits and in bytes, the operators and the constants. *)
Context (w : Z) (wbytes : nat) (S0 S1 R0 R1 : Z -> Z) (K : list Z) (rounds : nat).
Context (A : arch) (swap : Z -> Z).

Definition Ch (x y z : Z) : Z := Z.lxor (Z.land x y) (Z.land (unot w x) z).
Definition Maj (x y z : Z) : Z := Z.lxor (Z.lxor (Z.land x y) (Z.land x z)) (Z.land y z).

(** [SWAP]: nothing on a big-endian machine. *)
Definition SWAP (n : Z) : Z := if big_endian A then n else swap n.

(** [W[t] = SWAP ( *words)], for [t < 16] *)
Definition first_words (block : list Z) : list Z :=
  map (fun t => SWAP (uint_val A (take wbytes (drop (wbytes * t) block)))) (seq 0 16).

(** [n] further rounds of the loop that extends [W] *)
Fixpoint extend_words (n : nat) (W : list Z) : list Z :=
  match n with
  | O => W
  | S n =>
      let t := length W in
      extend_words n (W ++ [uwrap w (R1 (nth (t - 2) W 0) + nth (t - 7) W 0 + R0 (nth (t - 15) W 0) + nth (t - 16) W 0)])
  end.

(** The body of the loop of the computation. *)
Definition sha_round (W : list Z) (st : sha_state) (t : nat) : sha_state :=
  let '(a, b, c, d, e, f, g, h) := st in
  let T1 := uwrap w (h + S1 e + Ch e f g + nth t K 0 + nth t W 0) in
  let T2 := uwrap w (S0 a + Maj a b c) in
  (uwrap w (T1 + T2), a, b, c, uwrap w (d + T1), e, f, g).

Definition add_state (s s_save : sha_state) : sha_state :=
  let '(a, b, c, d, e, f, g, h) := s in
  let '(a_save, b_save, c_save, d_save, e_save, f_save, g_save, h_save) := s_save in
  (uwrap w (a + a_save), uwrap w (b + b_save), uwrap w (c + c_save), uwrap w (d + d_save),
   uwrap w (e + e_save), uwrap w (f + f_save), uwrap w (g + g_save), uwrap w (h + h_save)).

(** The body of the loop of process_block. *)
Definition sha_block (block : list Z) (st : sha_state) : sha_state :=
  let W := extend_words (rounds - 16) (first_words block) in
  add_state (fold_left (sha_round W) (seq 0 rounds) st) st.

(** The loop that stores the result. *)
Definition sha_result (st : sha_state) : list Z :=
  let '(a, b, c, d, e, f, g, h) := st in
  concat (map (fun x => uint_bytes A wbytes (SWAP x)) [a; b; c; d; e; f; g; h]).

(** [buffer32[i] = v] or [buffer64[i] = v] *)
Definition store_at {R} (buf : list Z) (i v : Z) : flow R (list Z) :=
  copy_into buf (Z.of_nat wbytes * i) (uint_bytes A wbytes v).
End Block.

(** * SHA-256 *)

Definition CYCLIC32 (w s : Z) : Z := Z.lor (Z.shiftr w s) (u32 (Z.shiftl w (32 - s))).

Definition sha256_S0 (x : Z) : Z := Z.lxor (Z.lxor (CYCLIC32 x 2) (CYCLIC32 x 13)) (CYCLIC32 x 22).
Definition sha256_S1 (x : Z) : Z := Z.lxor (Z.lxor (CYCLIC32 x 6) (CYCLIC32 x 11)) (CYCLIC32 x 25).
Definition sha256_R0 (x : Z) : Z := Z.lxor (Z.lxor (CYCLIC32 x 7) (CYCLIC32 x 18)) (Z.shiftr x 3).
Definition sha256_R1 (x : Z) : Z := Z.lxor (Z.lxor (CYCLIC32 x 17) (CYCLIC32 x 19)) (Z.shiftr x 10).

(** A line of the table: four words. *)
Definition K_line (r : Z) : list Z := map (fun i => Z.land (Z.shiftr r i) 0xffffffff) [96; 64; 32; 0].

Definition sha256_K : list Z :=
  concat (map K_line
  [0x428a2f9871374491b5c0fbcfe9b5dba5; 0x3956c25b59f111f1923f82a4ab1c5ed5;
   0xd807aa9812835b01243185be550c7dc3; 0x72be5d7480deb1fe9bdc06a7c19bf174;
   0xe49b69c1efbe47860fc19dc6240ca1cc; 0x2de92c6f4a7484aa5cb0a9dc76f988da;
   0x983e5152a831c66db00327c8bf597fc7; 0xc6e00bf3d5a7914706ca635114292967;
   0x27b70a852e1b21384d2c6dfc53380d13; 0x650a7354766a0abb81c2c92e92722c85;
   0xa2bfe8a1a81a664bc24b8b70c76c51a3; 0xd192e819d6990624f40e3585106aa070;
   0x19a4c1161e376c082748774c34b0bcb5; 0x391c0cb34ed8aa4a5b9cca4f682e6ff3;
   0x748f82ee78a5636f84c878148cc70208; 0x90befffaa4506cebbef9a3f7c67178f2]).

Section Sha256.
(** [STRING_ARCH_unaligned]: whether [_STRING_ARCH_unaligned] is defined. *)
Context (STRING_ARCH_unaligned : bool) (A : arch).

Definition sha256_block : list Z -> sha_state -> sha_state :=
  sha_block 32 4 sha256_S0 sha256_S1 sha256_R0 sha256_R1 sha256_K 64 A bswap_32.

(** [ctx->total64 += len], and in sha256_finish_ctx [+= bytes] *)
Definition sha256_count (total64 len : Z) : Z := u64 (total64 + len).

(** [total[TOTAL64_low]] and [total[TOTAL64_high]] are the halves of [total64] on a machine
    of either byte order. *)
Definition sha256_put_length {R} (buf : list Z) (off total64 : Z) : flow R (list Z) :=
  if STRING_ARCH_unaligned
  then store_at 8 A buf (off / 8) (SWAP A bswap_64 (u64 (Z.shiftl total64 3)))
  else
    let low := u32 total64 in
    let high := Z.shiftr total64 32 in
    let! buf := store_at 4 A buf ((off + 4) / 4) (SWAP A bswap_32 (u32 (Z.shiftl low 3))) in
    store_at 4 A buf (off / 4) (SWAP A bswap_32 (Z.lor (u32 (Z.shiftl high 3)) (Z.shiftr low 29))).

#[export] Instance sha256 : Digest sha_state Z := {
  block_size := 64;
  field_size := 8;
  buflen_bits := 32;
  compress := sha256_block;
  count := sha256_count;
  count_rest := sha256_count;
  put_length := fun R => sha256_put_length;
  read_ctx := sha_result 4 A bswap_32
}.

Definition sha256_init_ctx (buf : list Z) : ctx sha_state Z :=
  mkctx (0x6a09e667, 0xbb67ae85, 0x3c6ef372, 0xa54ff53a, 0x510e527f, 0x9b05688c, 0x1f83d9ab, 0x5be0cd19) 0 0 buf.

Definition sha256_process_block : list Z -> ctx sha_state Z -> ctx sha_state Z := process_block.

Definition sha256_process_bytes {R} (unaligned : bool) (buffer : list Z) (c : ctx sha_state Z) : flow R (ctx sha_state Z) :=
  process_bytes A unaligned buffer c.

Definition sha256_finish_ctx {R} (c : ctx sha_state Z) : flow R (list Z) := finish_ctx A c.
End Sha256.

(** * SHA-512 *)

Definition CYCLIC64 (w s : Z) : Z := Z.lor (Z.shiftr w s) (u64 (Z.shiftl w (64 - s))).

Definition sha512_S0 (x : Z) : Z := Z.lxor (Z.lxor (CYCLIC64 x 28) (CYCLIC64 x 34)) (CYCLIC64 x 39).
Definition sha512_S1 (x : Z) : Z := Z.lxor (Z.lxor (CYCLIC64 x 14) (CYCLIC64 x 18)) (CYCLIC64 x 41).
Definition sha512_R0 (x : Z) : Z := Z.lxor (Z.lxor (CYCLIC64 x 1) (CYCLIC64 x 8)) (Z.shiftr x 7).
Definition sha512_R1 (x : Z) : Z := Z.lxor (Z.lxor (CYCLIC64 x 19) (CYCLIC64 x 61)) (Z.shiftr x 6).

Definition sha512_K : list Z :=
  [0x428a2f98d728ae22; 0x7137449123ef65cd; 0xb5c0fbcfec4d3b2f; 0xe9b5dba58189dbbc;
   0x3956c25bf348b538; 0x59f111f1b605d019; 0x923f82a4af194f9b; 0xab1c5ed5da6d8118;
   0xd807aa98a3030242; 0x12835b0145706fbe; 0x243185be4ee4b28c; 0x550c7dc3d5ffb4e2;
   0x72be5d74f27b896f; 0x80deb1fe3b1696b1; 0x9bdc06a725c71235; 0xc19bf174cf692694;
   0xe49b69c19ef14ad2; 0xefbe4786384f25e3; 0x0fc19dc68b8cd5b5; 0x240ca1cc77ac9c65;
   0x2de92c6f592b0275; 0x4a7484aa6ea6e483; 0x5cb0a9dcbd41fbd4; 0x76f988da831153b5;
   0x983e5152ee66dfab; 0xa831c66d2db43210; 0xb00327c898fb213f; 0xbf597fc7beef0ee4;
   0xc6e00bf33da88fc2; 0xd5a79147930aa725; 0x06ca6351e003826f; 0x142929670a0e6e70;
   0x27b70a8546d22ffc; 0x2e1b21385c26c926; 0x4d2c6dfc5ac42aed; 0x53380d139d95b3df;
   0x650a73548baf63de; 0x766a0abb3c77b2a8; 0x81c2c92e47edaee6; 0x92722c851482353b;
   0xa2bfe8a14cf10364; 0xa81a664bbc423001; 0xc24b8b70d0f89791; 0xc76c51a30654be30;
   0xd192e819d6ef5218; 0xd69906245565a910; 0xf40e35855771202a; 0x106aa07032bbd1b8;
   0x19a4c116b8d2d0c8; 0x1e376c085141ab53; 0x2748774cdf8eeb99; 0x34b0bcb5e19b48a8;
   0x391c0cb3c5c95a63; 0x4ed8aa4ae3418acb; 0x5b9cca4f7763e373; 0x682e6ff3d6b2b8a3;
   0x748f82ee5defb2fc; 0x78a5636f43172f60; 0x84c87814a1f0ab72; 0x8cc702081a6439ec;
   0x90befffa23631e28; 0xa4506cebde82bde9; 0xbef9a3f7b2c67915; 0xc67178f2e372532b;
   0xca273eceea26619c; 0xd186b8c721c0c207; 0xeada7dd6cde0eb1e; 0xf57d4f7fee6ed178;
   0x06f067aa72176fba; 0x0a637dc5a2c898a6; 0x113f9804bef90dae; 0x1b710b35131c471b;
   0x28db77f523047d84; 0x32caab7b40c72493; 0x3c9ebe0a15c9bebc; 0x431d67c49c100d4c;
   0x4cc5d4becb3e42b6; 0x597f299cfc657e2a; 0x5fcb6fab3ad6faec; 0x6c44198c4a475817].

Section Sha512.
Context (A : arch).

Definition sha512_block : list Z -> sha_state -> sha_state :=
  sha_block 64 8 sha512_S0 sha512_S1 sha512_R0 sha512_R1 sha512_K 80 A bswap_64.

(** [ctx->total[TOTAL128_low]] and [ctx->total[TOTAL128_high]], which are the halves of
    [ctx->total128] where that exists. *)
Definition total128_add (total : Z * Z) (n : Z) : Z * Z :=
  let '(low, high) := total in
  let t := uwrap 128 (low + Z.shiftl high 64 + n) in
  (u64 t, Z.shiftr t 64).

Definition sha512_count (total : Z * Z) (len : Z) : Z * Z :=
  if long64 A then total128_add total len
  else
    let '(low, high) := total in
    let lolen := u64 len in
    let low := u64 (low + lolen) in
    (low, u64 (high + (Z.shiftr (Z.shiftr (Z.shiftr len 31) 31) 2 + (if low <? lolen then 1 else 0)))).

Definition sha512_count_rest (total : Z * Z) (bytes : Z) : Z * Z :=
  if long64 A then total128_add total bytes
  else
    let '(low, high) := total in
    let low := u64 (low + bytes) in
    (low, if low <? bytes then u64 (high + 1) else high).

Definition sha512_put_length {R} (buf : list Z) (off : Z) (total : Z * Z) : flow R (list Z) :=
  let '(low, high) := total in
  let! buf := store_at 8 A buf ((off + 8) / 8) (SWAP A bswap_64 (u64 (Z.shiftl low 3))) in
  store_at 8 A buf (off / 8) (SWAP A bswap_64 (Z.lor (u64 (Z.shiftl high 3)) (Z.shiftr low 61))).

#[export] Instance sha512 : Digest sha_state (Z * Z) := {
  block_size := 128;
  field_size := 16;
  buflen_bits := 64;
  compress := sha512_block;
  count := sha512_count;
  count_rest := sha512_count_rest;
  put_length := fun R => sha512_put_length;
  read_ctx := sha_result 8 A bswap_64
}.

Definition sha512_init_ctx (buf : list Z) : ctx sha_state (Z * Z) :=
  mkctx (0x6a09e667f3bcc908, 0xbb67ae8584caa73b, 0x3c6ef372fe94f82b, 0xa54ff53a5f1d36f1,
         0x510e527fade682d1, 0x9b05688c2b3e6c1f, 0x1f83d9abfb41bd6b, 0x5be0cd19137e2179) (0, 0) 0 buf.

Definition sha512_process_block : list Z -> ctx sha_state (Z * Z) -> ctx sha_state (Z * Z) := process_block.

Definition sha512_process_bytes {R} (unaligned : bool) (buffer : list Z) (c : ctx sha_state (Z * Z)) :
    flow R (ctx sha_state (Z * Z)) := process_bytes A unaligned buffer c.

Definition sha512_finish_ctx {R} (c : ctx sha_state (Z * Z)) : flow R (list Z) := finish_ctx A c.
End Sha512.

(** * FIPS 180-2 *)

Module Fips180.
(** The parameters of a member of the family: the word, the number of rounds, and the
    amounts of the functions Sigma0, Sigma1, sigma0 and sigma1. *)
Record params := Params { w : Z; wbytes : nat; rounds : nat; Sigma0 : Z * Z * Z; Sigma1 : Z * Z * Z; sigma0 : Z * Z * Z; sigma1 : Z * Z * Z }.

Definition SHA256_params : params := Params 32 4 64 (2, 13, 22) (6, 11, 25) (7, 18, 3) (17, 19, 10).
Definition SHA512_params : params := Params 64 8 80 (28, 34, 39) (14, 18, 41) (1, 8, 7) (19, 61, 6).

(** The first primes, and the largest integer whose cube is at most [x]. *)
Definition is_prime (n : nat) : bool := forallb (fun d => negb (n mod d =? 0)%nat) (seq 2 (n - 2)).
Definition primes : list nat := List.filter is_prime (seq 2 408).
Definition nth_prime (t : nat) : Z := Z.of_nat (nth t primes 0%nat).

Fixpoint cbrt_from (r : Z) (i : nat) (x : Z) : Z :=
  match i with
  | O => r
  | S i => let r' := r + 2 ^ Z.of_nat i in cbrt_from (if r' ^ 3 <=? x then r' else r) i x
  end.

Definition cbrt (x : Z) : Z := cbrt_from 0 (Z.to_nat (Z.log2_up (x + 1))) x.

Section Family.
Context (P : params).

(** The first bits of the fractional parts of the cube roots of the first primes, and of the square roots. *)
Definition K (t : nat) : Z := cbrt (nth_prime t * 2 ^ (3 * w P)) mod 2 ^ w P.
Definition H0 (i : nat) : Z := Z.sqrt (nth_prime i * 2 ^ (2 * w P)) mod 2 ^ w P.

Definition rotr (n x : Z) : Z := x / 2 ^ n + (x mod 2 ^ n) * 2 ^ (w P - n).
Definition big (a : Z * Z * Z) (x : Z) : Z := let '(i, j, k) := a in Z.lxor (Z.lxor (rotr i x) (rotr j x)) (rotr k x).
Definition small (a : Z * Z * Z) (x : Z) : Z := let '(i, j, k) := a in Z.lxor (Z.lxor (rotr i x) (rotr j x)) (x / 2 ^ k).

Definition choose (x y z : Z) : Z := Z.lor (Z.land x y) (Z.ldiff z x).
Definition majority (x y z : Z) : Z := Z.lor (Z.land x (Z.lor y z)) (Z.land y z).

(** The message schedule, from a window of sixteen words. *)
Fixpoint schedule (n : nat) (win : list Z) : list Z :=
  match n with
  | O => []
  | S n =>
      let next := (small (sigma1 P) (nth 14 win 0) + nth 9 win 0 + small (sigma0 P) (nth 1 win 0) + nth 0 win 0) mod 2 ^ w P in
      hd 0 win :: schedule n (tl win ++ [next])
  end.

Definition step (st : sha_state) (kw : Z * Z) : sha_state :=
  let '(a, b, c, d, e, f, g, h) := st in
  let T1 := h + big (Sigma1 P) e + choose e f g + fst kw + snd kw in
  let T2 := big (Sigma0 P) a + majority a b c in
  ((T1 + T2) mod 2 ^ w P, a, b, c, (d + T1) mod 2 ^ w P, e, f, g).

Definition message_word (data : list Z) (t : nat) : Z := be_val (take (wbytes P) (drop (wbytes P * t) data)).

Definition block (data : list Z) (st : sha_state) : sha_state :=
  let W := schedule (rounds P) (map (message_word data) (seq 0 16)) in
  let '(a0, b0, c0, d0, e0, f0, g0, h0) := st in
  let '(a, b, c, d, e, f, g, h) := fold_left step (combine (map K (seq 0 (rounds P))) W) st in
  ((a0 + a) mod 2 ^ w P, (b0 + b) mod 2 ^ w P, (c0 + c) mod 2 ^ w P, (d0 + d) mod 2 ^ w P,
   (e0 + e) mod 2 ^ w P, (f0 + f) mod 2 ^ w P, (g0 + g) mod 2 ^ w P, (h0 + h) mod 2 ^ w P).

(** The message, a one bit, zero bits, and the length in bits as an integer of two words. *)
Definition pad (msg : list Z) : list Z :=
  let n := Z.of_nat (length msg) in
  let size := 16 * Z.of_nat (wbytes P) in
  msg ++ [0x80] ++ repeat 0 (Z.to_nat ((14 * Z.of_nat (wbytes P) - 1 - n) mod size)) ++ rev (le_bytes (2 * wbytes P) ((8 * n) mod 2 ^ (2 * w P))).

Definition init : sha_state := (H0 0, H0 1, H0 2, H0 3, H0 4, H0 5, H0 6, H0 7).

Definition output (st : sha_state) : list Z :=
  let '(a, b, c, d, e, f, g, h) := st in concat (map (fun x => rev (le_bytes (wbytes P) x)) [a; b; c; d; e; f; g; h]).

Definition SHA (msg : list Z) : list Z :=
  output (chain block (16 * wbytes P) (length (pad msg) / (16 * wbytes P)) (pad msg) init).
End Family.

Definition SHA256 : list Z -> list Z := SHA SHA256_params.
Definition SHA512 : list Z -> list Z := SHA SHA512_params.
End Fips180.

(** The digests of "abc", from the standard. *)
Example sha256_abc :
  (let! c := @sha256_process_bytes false (Arch true false) unit false [97; 98; 99] (sha256_init_ctx (repeat 0 128)) in
   sha256_finish_ctx false (Arch true false) c) = Next (Fips180.SHA256 [97; 98; 99]) /\
  be_val (Fips180.SHA256 [97; 98; 99]) = 0xba7816bf8f01cfea414140de5dae2223b00361a396177a9cb410ff61f20015ad.
Proof. vm_compute. split; reflexivity. Qed.

Example sha512_abc :
  (let! c := @sha512_process_bytes (Arch false false) unit false [97; 98; 99] (sha512_init_ctx (repeat 0 256)) in
   sha512_finish_ctx (Arch false false) c) = Next (Fips180.SHA512 [97; 98; 99]) /\
  be_val (Fips180.SHA512 [97; 98; 99]) =
  0xddaf35a193617abacc417349ae20413112e6fa4e89a97ea20a9eeee64b55d39a2192992a274fc1a836ba3c23a3feebbd454d4423643ce80e2a9ac94fa54ca49f.
Proof. vm_compute. split; reflexivity. Qed.

(** * Proofs *)

(** The reference's integer cube root is one. *)
Lemma cbrt_from_spec r i x :
  0 <= r -> r ^ 3 <= x < (r + 2 ^ Z.of_nat i) ^ 3 -> Fips180.cbrt_from r i x ^ 3 <= x < (Fips180.cbrt_from r i x + 1) ^ 3.
Proof.
  revert r. induction i as [|i IH]; intros r Hr Hx; [exact Hx|]. cbn [Fips180.cbrt_from]. cbv zeta.
  rewrite Nat2Z.inj_succ, Z.pow_succ_r in Hx by lia. assert (0 < 2 ^ Z.of_nat i) by (apply Z.pow_pos_nonneg; lia).
  destruct (Z.leb_spec ((r + 2 ^ Z.of_nat i) ^ 3) x); apply IH; try lia.
Qed.

Lemma cbrt_spec x : 0 <= x -> Fips180.cbrt x ^ 3 <= x < (Fips180.cbrt x + 1) ^ 3.
Proof.
  intros Hx. apply cbrt_from_spec; [lia|]. rewrite Z2Nat.id by apply Z.log2_up_nonneg. rewrite Z.add_0_l. split; [lia|].
  assert (x + 1 <= 2 ^ Z.log2_up (x + 1)) as Hle.
  { destruct (Z.eq_dec x 0) as [->|]; [vm_compute; discriminate|]. apply Z.log2_up_spec. lia. }
  set (p := 2 ^ _) in *. change (x < p ^ 3). replace (p ^ 3) with (p * p * p) by lia. nia.
Qed.

(** ** Byte order *)

Section ByteOrder.
Context (A : arch) (n : nat) (swap : Z -> Z).
Hypothesis swap_rev : forall l, length l = n -> Forall is_byte l -> swap (le_val l) = le_val (rev l).

Lemma SWAP_load bs : length bs = n -> Forall is_byte bs -> SWAP A swap (uint_val A bs) = be_val bs.
Proof. intros Hl Hb. unfold SWAP, uint_val. destruct (big_endian A); [reflexivity|]. apply swap_rev; assumption. Qed.

Lemma SWAP_store v : 0 <= v < 256 ^ Z.of_nat n -> uint_bytes A n (SWAP A swap v) = rev (le_bytes n v).
Proof.
  intros Hv. unfold SWAP, uint_bytes. destruct (big_endian A); [reflexivity|].
  rewrite <- (le_val_le_bytes n v) at 1 by assumption. rewrite swap_rev by (apply length_le_bytes || apply le_bytes_byte).
  rewrite <- (length_le_bytes n v) at 1. rewrite <- length_rev. apply le_bytes_le_val, rev_Forall, le_bytes_byte.
Qed.

(** The length, as two words, the less significant one stored first and second in memory. *)
Lemma put_words {R} buf off v :
  (0 < n)%nat -> 0 <= v -> (off + 2 * Z.of_nat n) mod (16 * Z.of_nat n) = 0 -> 0 <= off -> off + 2 * Z.of_nat n <= Z.of_nat (length buf) ->
  let M := 256 ^ Z.of_nat n in
  (let! buf := @store_at n A R buf ((off + Z.of_nat n) / Z.of_nat n) (SWAP A swap (v mod M)) in
   store_at n A buf (off / Z.of_nat n) (SWAP A swap ((v / M) mod M))) =
  copy_into buf off (rev (le_bytes (2 * n) (v mod 256 ^ Z.of_nat (2 * n)))).
Proof.
  intros Hn Hv Hm Ho Hl M. assert (0 < M) as HM by (apply Z.pow_pos_nonneg; lia).
  unfold store_at. apply Z.mod_divide in Hm as [q Hq]; [|lia].
  replace (off + Z.of_nat n) with (off + 1 * Z.of_nat n) at 1 by lia. rewrite Z.div_add, Z.mul_add_distr_l by lia.
  assert (Z.of_nat n * (off / Z.of_nat n) = off) as ->.
  { replace off with ((16 * q - 2) * Z.of_nat n) at 1 by lia. rewrite Z.div_mul by lia. lia. }
  rewrite Z.mul_1_r, !SWAP_store by (apply Z.mod_pos_bound; assumption). unfold M. rewrite !le_bytes_mod.
  replace (2 * n)%nat with (n + n)%nat by lia. rewrite le_bytes_app, rev_app_distr.
  pose proof (length_le_bytes n (v / 256 ^ Z.of_nat n)) as L1. pose proof (length_le_bytes n v) as L0.
  destruct (copy_two (R := R) buf off (rev (le_bytes n (v / 256 ^ Z.of_nat n))) (rev (le_bytes n v))) as [_ E];
    [assumption|rewrite !length_rev, L0, L1; lia|].
  rewrite length_rev, L1 in E. exact E.
Qed.
End ByteOrder.

(** ** The operators *)

Definition is_word (w x : Z) : Prop := 0 <= x < 2 ^ w.

Lemma uwrap_word w x : 0 <= w -> is_word w (uwrap w x).
Proof. apply uwrap_range. Qed.

Lemma cyclic_rotr w s x :
  is_word w x -> 0 <= s <= w -> Z.lor (Z.shiftr x s) (uwrap w (Z.shiftl x (w - s))) = x / 2 ^ s + (x mod 2 ^ s) * 2 ^ (w - s).
Proof.
  intros Hx Hs. unfold is_word, uwrap in *. rewrite Z.lor_comm, Z.shiftr_div_pow2, Z.shiftl_mul_pow2 by lia.
  assert (2 ^ w = 2 ^ s * 2 ^ (w - s)) as E by (rewrite <- Z.pow_add_r by lia; f_equal; lia).
  assert (0 < 2 ^ s) by (apply Z.pow_pos_nonneg; lia). assert (0 < 2 ^ (w - s)) by (apply Z.pow_pos_nonneg; lia).
  rewrite E, Z.mul_mod_distr_r by lia. rewrite <- Z.shiftl_mul_pow2 by lia. rewrite lor_low; [rewrite Z.shiftl_mul_pow2 by lia; apply Z.add_comm|lia|].
  split; [apply Z.div_pos; lia|apply Z.div_lt_upper_bound; lia].
Qed.

Lemma Ch_choose w x y z : is_word w x -> is_word w z -> 0 <= w -> Ch w x y z = Fips180.choose x y z.
Proof.
  intros Hx Hz Hw. unfold Ch, Fips180.choose. apply Z.bits_inj'. intros i Hi.
  rewrite Z.lxor_spec, Z.lor_spec, Z.ldiff_spec, !Z.land_spec. destruct (Z.lt_ge_cases i w).
  - rewrite unot_testbit by (assumption || lia). destruct (Z.testbit x i), (Z.testbit y i), (Z.testbit z i); reflexivity.
  - pose proof (unot_range w x Hx) as Hn. rewrite (bits_above (unot w x) w i), (bits_above x w i), (bits_above z w i) by (assumption || lia). reflexivity.
Qed.

Lemma Maj_majority x y z : Maj x y z = Fips180.majority x y z.
Proof.
  unfold Maj, Fips180.majority. apply Z.bits_inj'. intros i Hi. rewrite !Z.lxor_spec, !Z.lor_spec, !Z.land_spec, Z.lor_spec.
  destruct (Z.testbit x i), (Z.testbit y i), (Z.testbit z i); reflexivity.
Qed.

Lemma uwrap_add w a b : uwrap w (uwrap w a + b) = uwrap w (a + b) /\ uwrap w (b + uwrap w a) = uwrap w (b + a).
Proof. unfold uwrap. rewrite Zplus_mod_idemp_l, Zplus_mod_idemp_r. auto. Qed.

Lemma nth_Forall {X} (Q : X -> Prop) l d i : Forall Q l -> Q d -> Q (nth i l d).
Proof. intros Hl Hd. revert i. induction Hl; intros [|i]; simpl; auto. Qed.

(** ** The rounds *)

Section Rounds.
Context (P : Fips180.params) (S0 S1 R0 R1 : Z -> Z) (K : list Z).
Abbreviation w := (Fips180.w P).
Abbreviation rounds := (Fips180.rounds P).

(** The operators and constants of the code are those of the standard. *)
Hypothesis w_pos : 0 < w.
Hypothesis HS0 : forall x, is_word w x -> S0 x = Fips180.big P (Fips180.Sigma0 P) x.
Hypothesis HS1 : forall x, is_word w x -> S1 x = Fips180.big P (Fips180.Sigma1 P) x.
Hypothesis HR0 : forall x, is_word w x -> R0 x = Fips180.small P (Fips180.sigma0 P) x.
Hypothesis HR1 : forall x, is_word w x -> R1 x = Fips180.small P (Fips180.sigma1 P) x.
Hypothesis HK : K = map (Fips180.K P) (seq 0 rounds).

Lemma word_0 : is_word w 0.
Proof. split; [lia|]. apply Z.pow_pos_nonneg; lia. Qed.

Abbreviation extend := (extend_words w R0 R1).

Lemma extend_prefix n W i : (i < length W)%nat -> nth i (extend n W) 0 = nth i W 0.
Proof.
  revert W. induction n as [|n IH]; intros W Hi; [reflexivity|]. cbn [extend_words].
  rewrite IH by (rewrite length_app; simpl; lia). apply app_nth1. assumption.
Qed.

Lemma extend_more n m W i : (i < length W + n)%nat -> (n <= m)%nat -> nth i (extend m W) 0 = nth i (extend n W) 0.
Proof.
  revert m W. induction n as [|n IH]; intros m W Hi Hm; [apply (extend_prefix m W); lia|].
  destruct m as [|m]; [lia|]. cbn [extend_words]. apply IH; [rewrite length_app; simpl|]; lia.
Qed.

(** What the array holds is what leaves the window. *)
Lemma schedule_extend n pre win j :
  length win = 16%nat -> Forall (is_word w) win -> (j < n)%nat ->
  nth j (Fips180.schedule P n win) 0 = nth (length pre + j) (extend n (pre ++ win)) 0.
Proof.
  revert pre win j. induction n as [|n IH]; intros pre win j Hl Hw Hj; [lia|].
  destruct win as [|x win]; [discriminate|]. cbn [Fips180.schedule hd tl].
  destruct j as [|j].
  - cbn [nth]. rewrite extend_prefix by (rewrite length_app; simpl in *; lia). rewrite app_nth2, Nat.add_0_r, Nat.sub_diag by lia. reflexivity.
  - cbn [nth extend_words]. rewrite length_app, Hl, !app_nth2 by lia.
    replace (length pre + 16 - 2 - length pre)%nat with 14%nat by lia. replace (length pre + 16 - 7 - length pre)%nat with 9%nat by lia.
    replace (length pre + 16 - 15 - length pre)%nat with 1%nat by lia. replace (length pre + 16 - 16 - length pre)%nat with 0%nat by lia.
    pose proof word_0 as Hz. rewrite HR1, HR0 by (apply nth_Forall; assumption).
    set (next := (_ + _ + _ + _) mod 2 ^ w). change (uwrap w _) with next.
    rewrite (IH (pre ++ [x])).
    + rewrite length_app, <- !app_assoc. simpl length. cbn [app]. f_equal. lia.
    + rewrite length_app. simpl in *. lia.
    + inversion_clear Hw. apply Forall_app_2; [assumption|]. constructor; [|constructor]. apply uwrap_word. lia.
    + lia.
Qed.

Lemma length_schedule n win : length (Fips180.schedule P n win) = n.
Proof. revert win. induction n as [|n IH]; intros win; [reflexivity|]. cbn [Fips180.schedule length]. rewrite IH. reflexivity. Qed.

Lemma combine_nth (f : nat -> Z) l s :
  combine (map f (seq s (length l))) l = map (fun t => (f t, nth (t - s) l 0)) (seq s (length l)).
Proof.
  revert s. induction l as [|x l IH]; intros s; [reflexivity|]. cbn [length seq map combine]. rewrite Nat.sub_diag. f_equal.
  rewrite IH. apply map_ext_in. intros t Ht%in_seq. replace (t - s)%nat with (S (t - S s)) by lia. reflexivity.
Qed.

Ltac words := repeat first [apply Forall_nil_2 | apply Forall_cons_2; [first [assumption | apply uwrap_word; lia]|]].

Definition state_words (st : sha_state) : Prop :=
  let '(a, b, c, d, e, f, g, h) := st in Forall (is_word w) [a; b; c; d; e; f; g; h].

Lemma round_step W V st t :
  state_words st -> (t < rounds)%nat -> nth t W 0 = nth t V 0 ->
  sha_round w S0 S1 K W st t = Fips180.step P st (Fips180.K P t, nth t V 0) /\
  state_words (sha_round w S0 S1 K W st t).
Proof.
  destruct st as [[[[[[[a b] c] d] e] f] g] h]. intros Hst Ht HW. unfold state_words in *.
  pose proof Hst as Hst'. rewrite !Forall_cons in Hst'. destruct Hst' as (? & ? & ? & ? & ? & ? & ? & ? & _).
  unfold sha_round, Fips180.step. cbn [fst snd].
  split; [|words].
  rewrite HS1, HS0, Ch_choose, Maj_majority, HW by (assumption || lia).
  rewrite HK, (nth_indep _ 0 (Fips180.K P 0)) by (rewrite length_map, length_seq; assumption). rewrite map_nth, seq_nth by assumption.
  change (0 + t)%nat with t. change (?x mod 2 ^ w) with (uwrap w x).
  rewrite (proj1 (uwrap_add w _ _)), !(proj2 (uwrap_add w _ _)). reflexivity.
Qed.

Lemma rounds_steps W V l st :
  state_words st -> Forall (fun t => (t < rounds)%nat /\ nth t W 0 = nth t V 0) l ->
  fold_left (sha_round w S0 S1 K W) l st = fold_left (Fips180.step P) (map (fun t => (Fips180.K P t, nth t V 0)) l) st.
Proof.
  intros Hst Hl. revert st Hst. induction Hl as [|t l [Ht HW] _ IH]; intros st Hst; [reflexivity|]. cbn [fold_left map].
  destruct (round_step W V st t Hst Ht HW) as [E Hst']. rewrite <- E. apply IH. assumption.
Qed.

Context (A : arch) (swap : Z -> Z).
Abbreviation n := (Fips180.wbytes P).
Hypothesis swap_rev : forall l, length l = n -> Forall is_byte l -> swap (le_val l) = le_val (rev l).
Hypothesis w_bytes : w = 8 * Z.of_nat n.
Hypothesis rounds_ge : (16 <= rounds)%nat.

Lemma first_words_message block :
  length block = (16 * n)%nat -> Forall is_byte block ->
  first_words n A swap block = map (Fips180.message_word P block) (seq 0 16) /\
  Forall (is_word w) (map (Fips180.message_word P block) (seq 0 16)).
Proof.
  intros Hl Hb. split.
  - unfold first_words, Fips180.message_word. apply map_ext_in. intros t Ht%in_seq.
    apply (SWAP_load A n swap swap_rev); [rewrite length_take, length_drop; nia|apply Forall_take, Forall_drop; assumption].
  - apply Forall_map, Forall_forall. intros t _. unfold Fips180.message_word, be_val, is_word.
    set (l := take _ _). assert (length l <= n)%nat as Hle by (subst l; rewrite length_take; lia).
    pose proof (le_val_bound (rev l) ltac:(apply rev_Forall, Forall_take, Forall_drop; assumption)) as B. rewrite length_rev, pow256 in B by lia.
    assert (2 ^ (8 * Z.of_nat (length l)) <= 2 ^ w) by (apply Z.pow_le_mono_r; lia). lia.
Qed.

Lemma sha_block_fips block st :
  length block = (16 * n)%nat -> Forall is_byte block -> state_words st ->
  sha_block w n S0 S1 R0 R1 K rounds A swap block st = Fips180.block P block st /\ state_words (Fips180.block P block st).
Proof.
  intros Hl Hb Hst. destruct (first_words_message block Hl Hb) as [E Hw]. unfold sha_block, Fips180.block. cbv zeta. rewrite E.
  set (M := map _ (seq 0 16)) in *. set (V := Fips180.schedule P rounds M).
  assert (combine (map (Fips180.K P) (seq 0 rounds)) V = map (fun t => (Fips180.K P t, nth t V 0)) (seq 0 rounds)) as ->.
  { replace rounds with (length V) by apply length_schedule. rewrite combine_nth. apply map_ext. intros t. rewrite Nat.sub_0_r. reflexivity. }
  rewrite (rounds_steps _ V); [|assumption|].
  2: { apply Forall_forall. intros t Ht%elem_of_seq. split; [lia|]. unfold V.
    rewrite (schedule_extend rounds [] M) by (assumption || reflexivity || lia). symmetry. apply (extend_more _ _ M); [|lia].
    change (length M) with 16%nat. lia. }
  destruct (fold_left _ _ _) as [[[[[[[a b] c] d] e] f] g] h]. destruct st as [[[[[[[a0 b0] c0] d0] e0] f0] g0] h0].
  unfold add_state, uwrap. rewrite (Z.add_comm a), (Z.add_comm b), (Z.add_comm c), (Z.add_comm d),
    (Z.add_comm e), (Z.add_comm f), (Z.add_comm g), (Z.add_comm h).
  split; [reflexivity|]. unfold state_words. words.
Qed.

Lemma sha_result_fips st : state_words st -> sha_result n A swap st = Fips180.output P st.
Proof.
  destruct st as [[[[[[[a b] c] d] e] f] g] h]. intros Hst. unfold sha_result, Fips180.output. f_equal.
  apply map_ext_in. intros x Hx. apply (SWAP_store A n swap swap_rev).
  pose proof (proj1 (List.Forall_forall _ _) Hst x Hx) as Hw.
  rewrite pow256, <- w_bytes by lia. exact Hw.
Qed.
End Rounds.

(** ** The instances *)

Lemma put_field {R} A n swap buf off v :
  (0 < n)%nat -> (forall l, length l = n -> Forall is_byte l -> swap (le_val l) = le_val (rev l)) ->
  (off mod Z.of_nat n) = 0 -> 
  @store_at n A R buf (off / Z.of_nat n) (SWAP A swap (v mod 256 ^ Z.of_nat n)) =
  copy_into buf off (rev (le_bytes n (v mod 256 ^ Z.of_nat n))).
Proof.
  intros Hn Hswap Hm. unfold store_at. rewrite SWAP_store by (assumption || apply Z.mod_pos_bound, Z.pow_pos_nonneg; lia).
  f_equal. pose proof (Z.div_mod off (Z.of_nat n) ltac:(lia)). lia.
Qed.

Lemma halves64 n : (n mod 2 ^ 64) mod 2 ^ 32 = n mod 2 ^ 32 /\ n mod 2 ^ 64 / 2 ^ 32 = (n / 2 ^ 32) mod 2 ^ 32.
Proof.
  change (2 ^ 64) with (2 ^ 32 * 2 ^ 32). rewrite Z.rem_mul_r by lia. rewrite (Z.mul_comm (2 ^ 32)). split.
  - rewrite Z.mod_add, Z.mod_mod by lia. reflexivity.
  - rewrite Z.div_add, Z.div_small by (try apply Z.mod_pos_bound; lia). reflexivity.
Qed.

#[export] Instance sha256_laws ua A : @DigestLaws sha_state Z (sha256 ua A).
Proof.
  refine {| log_size := 6; total_of := fun n => n mod 2 ^ 64;
            length_field := fun n => rev (le_bytes 8 ((8 * n) mod 2 ^ 64)) |}; cbn [block_size field_size buflen_bits count count_rest put_length sha256].
  - lia.
  - reflexivity.
  - lia.
  - lia.
  - intros n k _ _. unfold sha256_count, u64, uwrap. apply Zplus_mod_idemp_l.
  - intros n k _ _. unfold sha256_count, u64, uwrap. apply Zplus_mod_idemp_l.
  - intros n. rewrite length_rev, length_le_bytes. reflexivity.
  - intros R buf off n Hn Hm Ho Hl. unfold sha256_put_length. destruct ua.
    + unfold u64, uwrap. rewrite Z.shiftl_mul_pow2, Zmult_mod_idemp_l, (Z.mul_comm n) by lia.
      apply (put_field A 8 bswap_64); [lia|exact bswap_64_bytes|]. apply Z.mod_divide in Hm as [q Hq]; [|lia].
      apply Z.mod_divide; [lia|]. exists (8 * q - 1). lia.
    + cbv zeta. destruct (halves64 n) as [E0 E1]. change (u32 (n mod 2 ^ 64)) with ((n mod 2 ^ 64) mod 2 ^ 32).
      rewrite (Z.shiftr_div_pow2 _ 32), E0, E1 by lia. change 29 with (32 - 3).
      destruct (pair_bits 32 ltac:(lia) n Hn) as [E2 E3]. unfold u32. rewrite E2, E3.
      apply (put_words A 4 bswap_32 bswap_32_bytes buf off (8 * n)); [lia|lia|exact Hm|exact Ho|exact Hl].
Defined.

Lemma total128_ok n k : 0 <= n -> 0 <= k ->
  total128_add (n mod 2 ^ 64, (n / 2 ^ 64) mod 2 ^ 64) k = ((n + k) mod 2 ^ 64, ((n + k) / 2 ^ 64) mod 2 ^ 64).
Proof.
  intros Hn Hk. unfold total128_add, u64, uwrap. rewrite Z.shiftl_mul_pow2, Z.shiftr_div_pow2 by lia.
  replace (n mod 2 ^ 64 + (n / 2 ^ 64) mod 2 ^ 64 * 2 ^ 64) with (n mod (2 ^ 64 * 2 ^ 64)) by (rewrite Z.rem_mul_r by lia; lia).
  change (2 ^ 128) with (2 ^ 64 * 2 ^ 64). rewrite Zplus_mod_idemp_l, Z.rem_mul_r by lia. f_equal.
  - rewrite (Z.mul_comm (2 ^ 64)), Z.mod_add, Z.mod_mod by lia. reflexivity.
  - rewrite (Z.mul_comm (2 ^ 64)), Z.div_add, Z.div_small by (try apply Z.mod_pos_bound; lia). reflexivity.
Qed.

#[export] Instance sha512_laws A : @DigestLaws sha_state (Z * Z) (sha512 A).
Proof.
  refine {| log_size := 7; total_of := fun n => (n mod 2 ^ 64, (n / 2 ^ 64) mod 2 ^ 64);
            length_field := fun n => rev (le_bytes 16 ((8 * n) mod 2 ^ 128)) |}; cbn [block_size field_size buflen_bits count count_rest put_length sha512].
  - lia.
  - reflexivity.
  - lia.
  - lia.
  - intros n k Hn Hk. unfold sha512_count. destruct (long64 A); [apply total128_ok; assumption|].
    destruct (pair_count 64 ltac:(lia) n k Hn Hk) as [E0 E1]. unfold u64. rewrite E0 in *. f_equal. rewrite <- E1.
    rewrite Z.add_assoc. do 3 f_equal. rewrite !Z.shiftr_shiftr by lia. apply Z.shiftr_div_pow2. lia.
  - intros n k Hn Hk. unfold sha512_count_rest. destruct (long64 A); [apply total128_ok; lia|].
    destruct (pair_count 64 ltac:(lia) n k Hn ltac:(lia)) as [E0 E1]. unfold u64.
    rewrite (uwrap_small 64 k) in E0, E1 by lia. rewrite (Z.div_small k), Z.add_0_r in E1 by lia. rewrite E0 in *. f_equal.
    destruct (_ <? k); [assumption|]. rewrite Z.add_0_r in E1. unfold uwrap in E1. rewrite Z.mod_mod in E1 by lia. assumption.
  - intros n. rewrite length_rev, length_le_bytes. reflexivity.
  - intros R buf off n Hn Hm Ho Hl. unfold sha512_put_length, u64. change 61 with (64 - 3).
    destruct (pair_bits 64 ltac:(lia) n Hn) as [-> ->].
    apply (put_words A 8 bswap_64 bswap_64_bytes buf off (8 * n)); [lia|lia|exact Hm|exact Ho|exact Hl].
Defined.

(** ** The digests *)

(** The constants: tables in the code, roots of primes in the standard. *)
Lemma sha256_K_roots : sha256_K = map (Fips180.K Fips180.SHA256_params) (seq 0 64).
Proof. vm_compute. reflexivity. Qed.

Lemma sha512_K_roots : sha512_K = map (Fips180.K Fips180.SHA512_params) (seq 0 80).
Proof. vm_compute. reflexivity. Qed.

Section Digest.
Context (P : Fips180.params) {T : Type} (D : Digest sha_state T) (laws : @DigestLaws sha_state T D) (h0 : sha_state).
Hypothesis D_block : block_size = 16 * Z.of_nat (Fips180.wbytes P).
Hypothesis D_field : field_size = 2 * Z.of_nat (Fips180.wbytes P).
Hypothesis D_length : forall n, length_field n = rev (le_bytes (2 * Fips180.wbytes P) ((8 * n) mod 2 ^ (2 * Fips180.w P))).
Hypothesis D_init : h0 = Fips180.init P.
Hypothesis D_init_words : state_words P h0.
Hypothesis D_compress : forall block st, length block = (16 * Fips180.wbytes P)%nat -> Forall is_byte block -> state_words P st ->
  compress block st = Fips180.block P block st /\ state_words P (Fips180.block P block st).
Hypothesis D_read : forall st, state_words P st -> read_ctx st = Fips180.output P st.

Lemma sha_padded msg : padded msg = Fips180.pad P msg.
Proof.
  unfold padded, Fips180.pad, zero_count. rewrite D_block, D_field, D_length. cbn [app].
  replace (_ - _ - (Z.of_nat (length msg) + 1)) with (14 * Z.of_nat (Fips180.wbytes P) - 1 - Z.of_nat (length msg)) by lia. reflexivity.
Qed.

Lemma sha_digest msg : Forall is_byte msg -> digest h0 msg = Fips180.SHA P msg.
Proof.
  intros Hm. unfold digest, Fips180.SHA.
  assert (Forall is_byte (Fips180.pad P msg)) as Hp.
  { unfold Fips180.pad. repeat apply Forall_app_2; [assumption|wf_bytes|apply repeat_bytes; unfold is_byte; lia|apply rev_Forall, le_bytes_byte]. }
  pose proof (padded_whole msg) as Hw. rewrite sha_padded in *.
  assert (Z.to_nat block_size = 16 * Fips180.wbytes P)%nat as Hbs by (rewrite D_block; lia).
  destruct (hash_blocks_chain (Fips180.block P) (state_words P) (Fips180.pad P msg) h0) as [E Hi]; auto.
  - intros block st Hl. rewrite Hbs in Hl. apply D_compress; assumption.
  - rewrite D_read by exact Hi. rewrite E, Hbs, D_init. reflexivity.
Qed.
End Digest.

Ltac rotations f := intros Hx; unfold f, Fips180.big, Fips180.small; cbn [Fips180.Sigma0 Fips180.Sigma1 Fips180.sigma0 Fips180.sigma1 Fips180.SHA256_params Fips180.SHA512_params];
  unfold Fips180.rotr, CYCLIC32, CYCLIC64, u32, u64; cbn [Fips180.w]; rewrite !cyclic_rotr by (assumption || lia);
  rewrite ?Z.shiftr_div_pow2 by lia; reflexivity.

Lemma sha256_S0_fips x : is_word 32 x -> sha256_S0 x = Fips180.big Fips180.SHA256_params (Fips180.Sigma0 Fips180.SHA256_params) x.
Proof. rotations sha256_S0. Qed.

Lemma sha256_S1_fips x : is_word 32 x -> sha256_S1 x = Fips180.big Fips180.SHA256_params (Fips180.Sigma1 Fips180.SHA256_params) x.
Proof. rotations sha256_S1. Qed.

Lemma sha256_R0_fips x : is_word 32 x -> sha256_R0 x = Fips180.small Fips180.SHA256_params (Fips180.sigma0 Fips180.SHA256_params) x.
Proof. rotations sha256_R0. Qed.

Lemma sha256_R1_fips x : is_word 32 x -> sha256_R1 x = Fips180.small Fips180.SHA256_params (Fips180.sigma1 Fips180.SHA256_params) x.
Proof. rotations sha256_R1. Qed.

Lemma sha256_init : hash (sha256_init_ctx []) = Fips180.init Fips180.SHA256_params.
Proof. vm_compute. reflexivity. Qed.

Lemma sha256_init_words : state_words Fips180.SHA256_params (hash (sha256_init_ctx [])).
Proof. unfold state_words, is_word. cbn. repeat apply Forall_cons_2; try apply Forall_nil_2; lia. Qed.

Lemma sha256_digest ua A msg :
  Forall is_byte msg -> @digest _ _ (sha256 ua A) (sha256_laws ua A) (hash (sha256_init_ctx [])) msg = Fips180.SHA256 msg.
Proof.
  apply sha_digest; [reflexivity|reflexivity|reflexivity|exact sha256_init|exact sha256_init_words| |].
  - intros block st.
    exact (sha_block_fips Fips180.SHA256_params sha256_S0 sha256_S1 sha256_R0 sha256_R1 sha256_K eq_refl
      sha256_S0_fips sha256_S1_fips sha256_R0_fips sha256_R1_fips sha256_K_roots A bswap_32 bswap_32_bytes eq_refl ltac:(cbn; lia) block st).
  - intros st. apply (sha_result_fips Fips180.SHA256_params); [exact bswap_32_bytes|reflexivity|cbn; lia].
Qed.

Lemma sha512_S0_fips x : is_word 64 x -> sha512_S0 x = Fips180.big Fips180.SHA512_params (Fips180.Sigma0 Fips180.SHA512_params) x.
Proof. rotations sha512_S0. Qed.

Lemma sha512_S1_fips x : is_word 64 x -> sha512_S1 x = Fips180.big Fips180.SHA512_params (Fips180.Sigma1 Fips180.SHA512_params) x.
Proof. rotations sha512_S1. Qed.

Lemma sha512_R0_fips x : is_word 64 x -> sha512_R0 x = Fips180.small Fips180.SHA512_params (Fips180.sigma0 Fips180.SHA512_params) x.
Proof. rotations sha512_R0. Qed.

Lemma sha512_R1_fips x : is_word 64 x -> sha512_R1 x = Fips180.small Fips180.SHA512_params (Fips180.sigma1 Fips180.SHA512_params) x.
Proof. rotations sha512_R1. Qed.

Lemma sha512_init : hash (sha512_init_ctx []) = Fips180.init Fips180.SHA512_params.
Proof. vm_compute. reflexivity. Qed.

Lemma sha512_init_words : state_words Fips180.SHA512_params (hash (sha512_init_ctx [])).
Proof. unfold state_words, is_word. cbn. repeat apply Forall_cons_2; try apply Forall_nil_2; lia. Qed.

Lemma sha512_digest A msg :
  Forall is_byte msg -> @digest _ _ (sha512 A) (sha512_laws A) (hash (sha512_init_ctx [])) msg = Fips180.SHA512 msg.
Proof.
  apply sha_digest; [reflexivity|reflexivity|reflexivity|exact sha512_init|exact sha512_init_words| |].
  - intros block st.
    exact (sha_block_fips Fips180.SHA512_params sha512_S0 sha512_S1 sha512_R0 sha512_R1 sha512_K eq_refl
      sha512_S0_fips sha512_S1_fips sha512_R0_fips sha512_R1_fips sha512_K_roots A bswap_64 bswap_64_bytes eq_refl ltac:(cbn; lia) block st).
  - intros st. apply (sha_result_fips Fips180.SHA512_params); [exact bswap_64_bytes|reflexivity|cbn; lia].
Qed.

(** C13: SHA-256 in pieces.  However the bytes of a message are cut into pieces, and
    at whatever alignment each piece lies, sha256_init_ctx, one sha256_process_bytes per
    piece and sha256_finish_ctx return, on a machine of either byte order and word size and
    with either way of storing the length, and give the digest that FIPS 180-2 defines for
    the whole message. *)
Theorem sha256_streaming_correct {R} (ua : bool) (A : arch) (buf : list Z) (chunks : list (bool * list Z)) :
  length buf = 128%nat -> Forall (fun chunk => Forall is_byte (snd chunk)) chunks ->
  (let! c := @process_chunks A _ _ (sha256 ua A) R chunks (sha256_init_ctx buf) in sha256_finish_ctx ua A c) =
  Next (Fips180.SHA256 (concat (map snd chunks))).
Proof.
  intros Hb Hc. unfold sha256_finish_ctx. rewrite <- (sha256_digest ua A).
  - apply (streaming A (ops := sha256 ua A) (laws := sha256_laws ua A)). rewrite Hb. reflexivity.
  - apply Forall_concat, Forall_map. exact Hc.
Qed.

Lemma sha256_streaming_witness :
  (let! c := @process_chunks (Arch false true) _ _ (sha256 false (Arch false true)) unit [(true, [97; 98]); (false, [99])] (sha256_init_ctx (repeat 7 128)) in
   sha256_finish_ctx false (Arch false true) c) = Next (Fips180.SHA256 [97; 98; 99]).
Proof.
  apply (sha256_streaming_correct false (Arch false true) (repeat 7 128) [(true, [97; 98]); (false, [99])]); [reflexivity|].
  repeat constructor; cbn; unfold is_byte; lia.
Defined.

(** C15: SHA-512 in pieces, with a byte count of 128 bits that 32-bit machines keep in
    two words: the same for sha512_init_ctx, sha512_process_bytes and sha512_finish_ctx. *)
Theorem sha512_streaming_correct {R} (A : arch) (buf : list Z) (chunks : list (bool * list Z)) :
  length buf = 256%nat -> Forall (fun chunk => Forall is_byte (snd chunk)) chunks ->
  (let! c := @process_chunks A _ _ (sha512 A) R chunks (sha512_init_ctx buf) in sha512_finish_ctx A c) =
  Next (Fips180.SHA512 (concat (map snd chunks))).
Proof.
  intros Hb Hc. unfold sha512_finish_ctx. rewrite <- (sha512_digest A).
  - apply (streaming A (ops := sha512 A) (laws := sha512_laws A)). rewrite Hb. reflexivity.
  - apply Forall_concat, Forall_map. exact Hc.
Qed.

Lemma sha512_streaming_witness :
  (let! c := @process_chunks (Arch true false) _ _ (sha512 (Arch true false)) unit [(true, [97]); (false, [98; 99])] (sha512_init_ctx (repeat 7 256)) in
   sha512_finish_ctx (Arch true false) c) = Next (Fips180.SHA512 [97; 98; 99]).
Proof.
  apply (sha512_streaming_correct (Arch true false) (repeat 7 256) [(true, [97]); (false, [98; 99])]); [reflexivity|].
  repeat constructor; cbn; unfold is_byte; lia.
Defined.
