(* ===== verification/Semaphore.v ===== *)
(** POSIX semaphores (nptl/sem_init.c, sem_getvalue.c, and sem_post.c, sem_wait.c,
    sem_timedwait.c, sem_trywait.c of nptl/sysdeps/unix/sysv/linux): the C versions, on a
    futex.

    A state is the semaphore and one program counter per thread.  A step of a thread is one
    access to shared memory or one system call: a plain load, a compare and exchange, an
    atomic increment or decrement, a futex wait or wake.  The threads interleave in any
    way; what the kernel and the clock decide is part of the event that makes the step.
    The interleaving is sequentially consistent: the barriers of the source
    (atomic_full_barrier, the acquire and release forms of compare and exchange) are what
    makes a weaker machine behave so.  A futex wait returns 0 only when a wake-up chose the
    thread; a return for a signal or at the time limit is a step of its own, a spurious
    return 0 is not. *)
From S2P Require Import Prelude CMem.

Definition SEM_VALUE_MAX : Z := 2147483647.

Inductive sem_errno := EOVERFLOW | EAGAIN | EINVAL | ETIMEDOUT | EINTR.

(** [struct new_sem]; [private] only selects the kind of futex. *)
Record new_sem := Sem { value : Z; private : Z; nwaiters : Z }.

Record timespec := Timespec { tv_sec : Z; tv_nsec : Z }.

Definition FUTEX_PRIVATE_FLAG : Z := 128.

Definition sem_init (pshared v : Z) : new_sem + sem_errno :=
  if SEM_VALUE_MAX <? v then inr EINVAL
  else inl (Sem v (if pshared =? 0 then FUTEX_PRIVATE_FLAG else 0) 0).

Inductive op := Post | Wait | TimedWait (abstime : timespec) | TryWait | GetValue.

(** What a call returns: 0, the value for sem_getvalue, or -1 with errno. *)
Inductive result := Done | Value (v : Z) | Error (e : sem_errno).

(** Where a thread is.  [t] is the time limit of sem_timedwait, [None] in sem_wait. *)
Inductive pc :=
  | Idle (r : result)
  (* sem_post: cur = value; value == SEM_VALUE_MAX; compare and exchange; nwaiters > 0; futex wake *)
  | PostLoad
  | PostCheck (cur : Z)
  | PostCas (cur : Z)
  | PostTest
  | PostWake
  (* sem_wait, sem_timedwait: atomic_decrement_if_positive; nwaiters++ *)
  | WaitLoad (t : option timespec)
  | WaitCas (t : option timespec) (old : Z)
  | WaitInc (t : option timespec)
  (* the loop: gettimeofday; futex wait, asleep, back from it; atomic_decrement_if_positive; nwaiters-- *)
  | WaitClock (t : timespec)
  | WaitFutex (t : option timespec)
  | WaitSleep (t : option timespec)
  | WaitBack (t : option timespec)
  | RetryLoad (t : option timespec)
  | RetryCas (t : option timespec) (old : Z)
  | WaitDec (r : result)
  (* __sem_wait_cleanup of a cancelled thread *)
  | CancelDec
  | Dead
  (* sem_trywait: value > 0; atomic_decrement_if_positive *)
  | TryTest
  | TryLoad
  | TryCas (old : Z)
  (* sem_getvalue *)
  | GetLoad.

(** What resolves a step: nothing, what gettimeofday returns, an error of the futex call,
    or the cancellation of the thread. *)
Inductive choice := Go | Clock (tv_sec tv_usec : Z) | Fails (e : sem_errno) | Cancelled.

(** What a step does to the abstract semaphore. *)
Inductive effect := Quiet | Posts | Acquires.

(** The relative time limit, [None] when it is over. *)
Definition relative_timeout (abstime : timespec) (sec_now usec_now : Z) : option timespec :=
  let sec := s32 (tv_sec abstime - sec_now) in
  let nsec := s32 (tv_nsec abstime - usec_now * 1000) in
  let '(sec, nsec) := if nsec <? 0 then (s32 (sec - 1), s32 (nsec + 1000000000)) else (sec, nsec) in
  if sec <? 0 then None else Some (Timespec sec nsec).

Definition start (o : op) : pc :=
  match o with
  | Post => PostLoad
  | Wait => WaitLoad None
  | TimedWait abstime => WaitLoad (Some abstime)
  | TryWait => TryTest
  | GetValue => GetLoad
  end.

Section Steps.
Context (A : arch).

Definition set_value (v : Z) (s : new_sem) : new_sem := Sem v (private s) (nwaiters s).

(** [atomic_increment (&isem->nwaiters)] and [atomic_decrement] *)
Definition add_nwaiters (d : Z) (s : new_sem) : new_sem := Sem (value s) (private s) (uwrap (wordbits A) (nwaiters s + d)).

(** After the first atomic_decrement_if_positive failed. *)
Definition begin_wait (t : option timespec) : pc :=
  match t with
  | None => WaitInc t
  | Some abstime =>
      if (tv_nsec abstime <? 0) || (1000000000 <=? tv_nsec abstime) then Idle (Error EINVAL) else WaitInc t
  end.

(** The top of the loop. *)
Definition wait_again (t : option timespec) : pc :=
  match t with None => WaitFutex None | Some abstime => WaitClock abstime end.

(** A step of sem_post, its wake-up apart. *)
Definition post_step (c : choice) (s : new_sem) (p : pc) : option (new_sem * pc * effect) :=
  match p, c with
  | PostLoad, Go => Some (s, PostCheck (value s), Quiet)
  | PostCheck cur, Go =>
      if value s =? SEM_VALUE_MAX then Some (s, Idle (Error EOVERFLOW), Quiet) else Some (s, PostCas cur, Quiet)
  | PostCas cur, Go =>
      if value s =? cur then Some (set_value (u32 (cur + 1)) s, PostTest, Posts) else Some (s, PostLoad, Quiet)
  | PostTest, Go => Some (s, if 0 <? nwaiters s then PostWake else Idle Done, Quiet)
  | _, _ => None
  end.

(** A step of sem_wait or sem_timedwait. *)
Definition wait_step (c : choice) (s : new_sem) (p : pc) : option (new_sem * pc * effect) :=
  match p, c with
  | WaitLoad t, Go => Some (s, if value s <=? 0 then begin_wait t else WaitCas t (value s), Quiet)
  | WaitCas t old, Go =>
      if value s =? old then Some (set_value (u32 (old - 1)) s, Idle Done, Acquires) else Some (s, WaitLoad t, Quiet)
  | WaitInc t, Go => Some (add_nwaiters 1 s, wait_again t, Quiet)
  | WaitClock abstime, Clock sec usec =>
      match relative_timeout abstime sec usec with
      | None => Some (s, WaitDec (Error ETIMEDOUT), Quiet)
      | Some _ => Some (s, WaitFutex (Some abstime), Quiet)
      end
  | RetryLoad t, Go => Some (s, if value s <=? 0 then wait_again t else RetryCas t (value s), Quiet)
  | RetryCas t old, Go =>
      if value s =? old then Some (set_value (u32 (old - 1)) s, WaitDec Done, Acquires) else Some (s, RetryLoad t, Quiet)
  | WaitDec r, Go => Some (add_nwaiters (-1) s, Idle r, Quiet)
  | _, _ => None
  end.

(** A step of do_futex_wait or do_futex_timed_wait, where asynchronous cancellation is
    enabled, and of the cleanup handler. *)
Definition futex_step (c : choice) (s : new_sem) (p : pc) : option (new_sem * pc * effect) :=
  match p, c with
  | WaitFutex t, Go => Some (s, if value s =? 0 then WaitSleep t else WaitBack t, Quiet)
  | WaitSleep _, Fails EINTR => Some (s, WaitDec (Error EINTR), Quiet)
  | WaitSleep (Some _), Fails ETIMEDOUT => Some (s, WaitDec (Error ETIMEDOUT), Quiet)
  | WaitFutex _, Cancelled | WaitSleep _, Cancelled | WaitBack _, Cancelled => Some (s, CancelDec, Quiet)
  | WaitBack t, Go => Some (s, RetryLoad t, Quiet)
  | CancelDec, Go => Some (add_nwaiters (-1) s, Dead, Quiet)
  | _, _ => None
  end.

Definition trywait_step (c : choice) (s : new_sem) (p : pc) : option (new_sem * pc * effect) :=
  match p, c with
  | TryTest, Go => Some (s, if 0 <? s32 (value s) then TryLoad else Idle (Error EAGAIN), Quiet)
  | TryLoad, Go => Some (s, if s32 (value s) <=? 0 then Idle (Error EAGAIN) else TryCas (s32 (value s)), Quiet)
  | TryCas old, Go =>
      if s32 (value s) =? old then Some (set_value (u32 (old - 1)) s, Idle Done, Acquires) else Some (s, TryLoad, Quiet)
  | _, _ => None
  end.

Definition getvalue_step (c : choice) (s : new_sem) (p : pc) : option (new_sem * pc * effect) :=
  match p, c with
  | GetLoad, Go => Some (s, Idle (Value (s32 (value s))), Quiet)
  | _, _ => None
  end.

(** One step of a thread. *)
Definition tstep (c : choice) (s : new_sem) (p : pc) : option (new_sem * pc * effect) :=
  match p with
  | PostLoad | PostCheck _ | PostCas _ | PostTest => post_step c s p
  | WaitFutex _ | WaitSleep _ | WaitBack _ | CancelDec => futex_step c s p
  | TryTest | TryLoad | TryCas _ => trywait_step c s p
  | GetLoad => getvalue_step c s p
  | Idle _ | Dead | PostWake => None
  | _ => wait_step c s p
  end.

(** [posted] and [acquired] count the successful operations: the abstract semaphore. *)
Record state := State { sem : new_sem; threads : list pc; posted : Z; acquired : Z }.

Inductive event :=
  | Call (i : nat) (o : op)
  | Step (i : nat) (c : choice)
  (* thread [i] in sem_post wakes a sleeping thread, or finds none *)
  | Wake (i : nat) (target : option nat).

Definition is_sleeping (p : pc) : bool := match p with WaitSleep _ => true | _ => false end.

Definition exec (e : event) (st : state) : option state :=
  let '(State s ts np na) := st in
  match e with
  | Call i o =>
      match ts !! i with
      | Some (Idle _) => Some (State s (<[i := start o]> ts) np na)
      | _ => None
      end
  | Step i c =>
      match ts !! i with
      | Some p =>
          match tstep c s p with
          | Some (s, p, ef) =>
              Some (State s (<[i := p]> ts) (match ef with Posts => np + 1 | _ => np end) (match ef with Acquires => na + 1 | _ => na end))
          | None => None
          end
      | None => None
      end
  | Wake i None =>
      match ts !! i with
      | Some PostWake => if existsb is_sleeping ts then None else Some (State s (<[i := Idle Done]> ts) np na)
      | _ => None
      end
  | Wake i (Some j) =>
      match ts !! i, ts !! j with
      | Some PostWake, Some (WaitSleep t) => Some (State s (<[j := WaitBack t]> (<[i := Idle Done]> ts)) np na)
      | _, _ => None
      end
  end.

Fixpoint exec_all (es : list event) (st : state) : option state :=
  match es with
  | [] => Some st
  | e :: es => match exec e st with Some st => exec_all es st | None => None end
  end.

(** [k] threads and a semaphore of value [v]. *)
Definition init_state (v : Z) (k : nat) : state := State (Sem v FUTEX_PRIVATE_FLAG 0) (repeat (Idle Done) k) 0 0.
End Steps.

(** * Proofs *)

(** ** Counting threads *)

Definition count (P : pc -> bool) (ts : list pc) : Z := Z.of_nat (length (List.filter P ts)).

Definition b2z (b : bool) : Z := if b then 1 else 0.

Lemma count_cons P p ts : count P (p :: ts) = b2z (P p) + count P ts.
Proof. unfold count, b2z. cbn [List.filter]. destruct (P p); cbn [length]; lia. Qed.

Lemma count_insert P ts i p q : ts !! i = Some p -> count P (<[i := q]> ts) = count P ts - b2z (P p) + b2z (P q).
Proof.
  revert i. induction ts as [|x ts IH]; intros [|i] Hi; try discriminate.
  - injection Hi as ->. change (<[0%nat := q]> (p :: ts)) with (q :: ts). rewrite !count_cons. lia.
  - change (<[S i := q]> (x :: ts)) with (x :: <[i := q]> ts). rewrite !count_cons, (IH i Hi). lia.
Qed.

Lemma count_le P Q ts : (forall p, P p = true -> Q p = true) -> 0 <= count P ts <= count Q ts.
Proof.
  intros H. induction ts as [|p ts IH]; [unfold count; simpl; lia|]. rewrite !count_cons. specialize (H p). unfold b2z in *.
  destruct (P p); [rewrite H by reflexivity|destruct (Q p)]; lia.
Qed.

Lemma count_length P ts : 0 <= count P ts <= Z.of_nat (length ts).
Proof.
  unfold count. pose proof (List.filter_length_le P ts). lia.
Qed.

Lemma count_none P ts : count P ts = 0 <-> existsb P ts = false.
Proof.
  induction ts as [|p ts IH]; [split; reflexivity|]. rewrite count_cons. cbn [existsb]. pose proof (count_length P ts). unfold b2z.
  destruct (P p); cbn [orb]; [split; [lia|discriminate]|]. rewrite Z.add_0_l. exact IH.
Qed.

Lemma count_some P ts i p : ts !! i = Some p -> P p = true -> 0 < count P ts.
Proof.
  intros Hi Hp. revert i Hi. induction ts as [|x ts IH]; intros [|i] Hi; try discriminate; rewrite count_cons.
  - injection Hi as ->. rewrite Hp. pose proof (count_length P ts). cbn. lia.
  - specialize (IH i Hi). unfold b2z. destruct (P x); lia.
Qed.

(** Between the increment and the decrement of [nwaiters]. *)
Definition registered (p : pc) : bool :=
  match p with
  | WaitClock _ | WaitFutex _ | WaitSleep _ | WaitBack _ | RetryLoad _ | RetryCas _ _ | WaitDec _ | CancelDec => true
  | _ => false
  end.

(** About to look at the value again, in the loop of sem_wait. *)
Definition awake (p : pc) : bool :=
  match p with WaitFutex _ | WaitBack _ | RetryLoad _ | RetryCas _ _ => true | _ => false end.

(** After the increment of sem_post and before its wake-up. *)
Definition waking (p : pc) : bool := match p with PostTest | PostWake => true | _ => false end.

(** ** Invariants *)

Ltac ztests :=
  repeat match goal with
    | H : Z.eqb _ _ = true |- _ => apply Z.eqb_eq in H
    | H : Z.eqb _ _ = false |- _ => apply Z.eqb_neq in H
    | H : Z.leb _ _ = true |- _ => apply Z.leb_le in H
    | H : Z.leb _ _ = false |- _ => apply Z.leb_gt in H
    | H : Z.ltb _ _ = true |- _ => apply Z.ltb_lt in H
    | H : Z.ltb _ _ = false |- _ => apply Z.ltb_ge in H
    end.

#[export] Instance sem_errno_eq_dec : EqDecision sem_errno.
Proof. solve_decision. Defined.

#[export] Instance result_eq_dec : EqDecision result.
Proof. solve_decision. Defined.

#[export] Instance timespec_eq_dec : EqDecision timespec.
Proof. solve_decision. Defined.

#[export] Instance pc_eq_dec : EqDecision pc.
Proof. solve_decision. Defined.

Section Invariants.
Context (A : arch).

Definition value_ok (st : state) : Prop := 0 <= value (sem st) < 2 ^ 32.

(** What the successful operations make of the value, before it wraps. *)
Definition net (v : Z) (st : state) : Z := v + posted st - acquired st.

(** The number of successful operations explains the value, modulo the size of its word. *)
Definition conserved (v : Z) (st : state) : Prop :=
  0 <= posted st /\ 0 <= acquired st /\ value (sem st) = u32 (net v st).

Definition counted (st : state) : Prop :=
  nwaiters (sem st) = uwrap (wordbits A) (count registered (threads st)) /\ Z.of_nat (length (threads st)) < 2 ^ 32.

(** While a thread sleeps, each unit of the value has somebody who will wake one or take it. *)
Definition covered (st : state) : Prop :=
  0 < count is_sleeping (threads st) -> value (sem st) <= count waking (threads st) + count awake (threads st).

Definition no_cancel (e : event) : Prop := match e with Step _ Cancelled => False | _ => True end.

Lemma exec_step_inv e st st' : exec A e st = Some st' -> 
  (exists i o r, e = Call i o /\ threads st !! i = Some (Idle r) /\
     st' = State (sem st) (<[i := start o]> (threads st)) (posted st) (acquired st)) \/
  (exists i c p s q ef, e = Step i c /\ threads st !! i = Some p /\ tstep A c (sem st) p = Some (s, q, ef) /\
     st' = State s (<[i := q]> (threads st)) (match ef with Posts => posted st + 1 | _ => posted st end)
       (match ef with Acquires => acquired st + 1 | _ => acquired st end)) \/
  (exists i, e = Wake i None /\ threads st !! i = Some PostWake /\ count is_sleeping (threads st) = 0 /\
     st' = State (sem st) (<[i := Idle Done]> (threads st)) (posted st) (acquired st)) \/
  (exists i j t, e = Wake i (Some j) /\ i <> j /\ threads st !! i = Some PostWake /\ threads st !! j = Some (WaitSleep t) /\
     st' = State (sem st) (<[j := WaitBack t]> (<[i := Idle Done]> (threads st))) (posted st) (acquired st)).
Proof.
  destruct st as [s ts np na]. destruct e as [i o|i c|i [j|]]; cbn [exec threads sem posted acquired].
  - destruct (ts !! i) as [[]|] eqn:Ei; try discriminate. intros [= <-]. left. eauto 7.
  - destruct (ts !! i) as [p|] eqn:Ei; [|discriminate]. destruct (tstep A c s p) as [[[s' q] ef]|] eqn:Et; [|discriminate].
    intros [= <-]. right. left. eauto 10.
  - destruct (ts !! i) as [[]|] eqn:Ei; try discriminate. destruct (ts !! j) as [[]|] eqn:Ej; try discriminate. intros [= <-].
    right. right. right. exists i, j, t. split; [reflexivity|]. split; [congruence|]. auto.
  - destruct (ts !! i) as [[]|] eqn:Ei; try discriminate. destruct (existsb is_sleeping ts) eqn:Es; [discriminate|]. intros [= <-].
    right. right. left. exists i. rewrite count_none. auto.
Qed.

(** What a thread remembers to exchange is positive. *)
Definition pc_ok (p : pc) : Prop := match p with WaitCas _ old | RetryCas _ old | TryCas old => 0 < old | _ => True end.

Definition value_after (ef : effect) (v : Z) : Z := match ef with Quiet => v | Posts => u32 (v + 1) | Acquires => v - 1 end.

Lemma u32_dec v : 0 < v < 2 ^ 32 -> u32 (v - 1) = v - 1.
Proof. intros H. unfold u32. apply uwrap_small. lia. Qed.

Lemma s32_pos v : 0 <= v < 2 ^ 32 -> 0 < s32 v -> s32 v = v.
Proof.
  unfold s32, swrap. intros Hv Hp. change (2 ^ (32 - 1)) with 2147483648 in *. change (2 ^ 32) with 4294967296 in *.
  destruct (Z.lt_ge_cases v 2147483648).
  - rewrite Z.mod_small by lia. lia.
  - replace (v + 2147483648) with (v - 2147483648 + 1 * 4294967296) in Hp by lia. rewrite Z.mod_add, Z.mod_small in Hp by lia. lia.
Qed.

Lemma u32_inc v : 0 <= v < 2 ^ 32 -> u32 (v + 1) = v + 1 \/ u32 (v + 1) = 0.
Proof.
  intros Hv. destruct (Z.eq_dec v (2 ^ 32 - 1)) as [->|]; [right; reflexivity|]. left. unfold u32. apply uwrap_small. lia.
Qed.

(** A step, seen from the counts. *)
Lemma tstep_spec c s p s' q ef :
  tstep A c s p = Some (s', q, ef) -> 0 <= value s < 2 ^ 32 -> 0 <= nwaiters s < 2 ^ wordbits A -> pc_ok p ->
  pc_ok q /\ value s' = value_after ef (value s) /\ (ef = Acquires -> 0 < value s) /\
  nwaiters s' = uwrap (wordbits A) (nwaiters s + b2z (registered q) - b2z (registered p)) /\
  (c <> Cancelled ->
   (b2z (is_sleeping q) <= b2z (is_sleeping p) /\
    value s' - b2z (waking q) - b2z (awake q) <= value s - b2z (waking p) - b2z (awake p)) \/
   value s' = 0 \/ (p = PostTest /\ nwaiters s = 0)).
Proof.
  intros E Hv Hn Hp.
  assert (forall d, uwrap (wordbits A) (nwaiters s + d - d) = nwaiters s) as Hw by (intros d; rewrite Z.add_simpl_r; apply uwrap_small; assumption).
  pose proof (u32_inc (value s) Hv) as Hi.
  destruct p; destruct c; cbn [tstep post_step wait_step futex_step trywait_step getvalue_step] in E; try discriminate E;
    repeat match type of E with context [match ?x with _ => _ end] => destruct x eqn:?; try discriminate E end;
    injection E as <- <- <-; cbn [pc_ok] in Hp; unfold begin_wait, wait_again; repeat case_match; ztests;
    subst; try (rewrite s32_pos in * by lia); cbn [pc_ok value_after registered b2z is_sleeping waking awake value nwaiters set_value add_nwaiters];
    rewrite ?u32_dec by lia;
    (split; [first [exact I|lia]|]; split; [reflexivity|]; split; [first [discriminate|lia]|]; split;
     [rewrite ?Hw; try reflexivity; f_equal; lia|]; intros Hc; first [lia|tauto|right; right; split; [reflexivity|lia]|congruence]).
Qed.

Lemma u32_succ_l x : u32 (u32 x + 1) = u32 (x + 1).
Proof. unfold u32, uwrap. apply Zplus_mod_idemp_l. Qed.

(** Taking one from a positive wrapped count. *)
Lemma u32_pred_l x : 0 < u32 x -> u32 x - 1 = u32 (x - 1).
Proof.
  intros Hp. pose proof (uwrap_range 32 x ltac:(lia)) as Hr. change (0 <= u32 x < 2 ^ 32) in Hr. rewrite <- (u32_dec (u32 x)) by lia. unfold u32, uwrap. apply Zminus_mod_idemp_l.
Qed.

(** What a step does to the net count. *)
Definition net_after (ef : effect) (n : Z) : Z := match ef with Quiet => n | Posts => n + 1 | Acquires => n - 1 end.

Record good (v : Z) (st : state) : Prop := {
  gd_value : value_ok st;
  gd_pcs : Forall pc_ok (threads st);
  gd_conserved : conserved v st;
  gd_counted : counted st
}.

Lemma wordbits_ge : 2 ^ 32 <= 2 ^ wordbits A.
Proof. apply Z.pow_le_mono_r; [lia|]. unfold wordbits. destruct (wordsize_cases A); lia. Qed.

(** The number of registered threads does not wrap. *)
Lemma good_nwaiters v st : good v st -> nwaiters (sem st) = count registered (threads st) /\ 0 <= nwaiters (sem st) < 2 ^ wordbits A.
Proof.
  intros [_ _ _ [E Hl]]. pose proof wordbits_ge. pose proof (count_length registered (threads st)).
  rewrite E, uwrap_small by lia. lia.
Qed.

(** Replacing one program counter. *)
Lemma good_update v st i p q s np na :
  good v st -> threads st !! i = Some p -> pc_ok q -> value_ok (State s [] 0 0) ->
  conserved v (State s [] np na) -> nwaiters s = uwrap (wordbits A) (nwaiters (sem st) + b2z (registered q) - b2z (registered p)) ->
  good v (State s (<[i := q]> (threads st)) np na).
Proof.
  intros Hg Hi Hq Hv Hc Hn. destruct (good_nwaiters v st Hg) as [En _]. destruct Hg as [_ Hpc _ [_ Hl]]. split; try assumption.
  - apply Forall_insert; assumption.
  - split; cbn [sem threads]; [|rewrite length_insert; assumption]. rewrite Hn, En, (count_insert registered _ i p q Hi). f_equal. lia.
Qed.

Lemma good_exec v e st st' : good v st -> exec A e st = Some st' -> good v st'.
Proof.
  intros Hg Hx. destruct (good_nwaiters v st Hg) as [En Hn]. pose proof (gd_value _ _ Hg) as Hv. pose proof (gd_conserved _ _ Hg) as Hc.
  assert (forall i p, threads st !! i = Some p -> pc_ok p) as Hpc by (intros i p; apply (proj1 (Forall_lookup _ _) (gd_pcs _ _ Hg))).
  assert (forall k, nwaiters (sem st) = uwrap (wordbits A) (nwaiters (sem st) + k - k)) as Hsame
    by (intros k; rewrite Z.add_simpl_r, uwrap_small by assumption; reflexivity).
  apply exec_step_inv in Hx as [(i & o & r & -> & Hi & ->)|[(i & c & p & s & q & ef & -> & Hi & Ht & ->)|[(i & -> & Hi & _ & ->)|(i & j & t & -> & Hij & Hi & Hj & ->)]]].
  - eapply good_update; eauto; destruct o; cbn; auto.
  - destruct (tstep_spec _ _ _ _ _ _ Ht Hv Hn (Hpc _ _ Hi)) as (Hq & Ev & Hpos & Enw & _). eapply good_update; eauto.
    + unfold value_ok. cbn [sem]. rewrite Ev. unfold value_ok in Hv. destruct ef; cbn [value_after]; try assumption; [apply uwrap_range|specialize (Hpos eq_refl)]; lia.
    + unfold conserved, net in *. cbn [sem posted acquired]. rewrite Ev. destruct Hc as (Hp0 & Ha0 & Hc).
      destruct ef; cbn [value_after]; (split; [lia|]; split; [lia|]); [exact Hc| |]; rewrite Hc.
      * rewrite u32_succ_l. f_equal. lia.
      * rewrite u32_pred_l by (rewrite <- Hc; auto). f_equal. lia.
  - eapply good_update; eauto; cbn; auto.
  - assert (good v (State (sem st) (<[i := Idle Done]> (threads st)) (posted st) (acquired st))) as Hg1.
    { eapply good_update; eauto; cbn; auto. }
    apply (good_update v _ j (WaitSleep t) (WaitBack t) (sem st) (posted st) (acquired st) Hg1); cbn; auto.
    rewrite list_lookup_insert_ne by assumption. assumption.
Qed.

Lemma covered_exec v e st st' : good v st -> covered st -> no_cancel e -> exec A e st = Some st' -> covered st'.
Proof.
  intros Hg Hcov Hnc Hx. destruct (good_nwaiters v st Hg) as [En Hn]. pose proof (gd_value _ _ Hg) as Hv.
  assert (forall i p, threads st !! i = Some p -> pc_ok p) as Hpc by (intros i p; apply (proj1 (Forall_lookup _ _) (gd_pcs _ _ Hg))).
  unfold covered in *. pose proof (count_length waking (threads st)) as Cw. pose proof (count_length awake (threads st)) as Ca.
  apply exec_step_inv in Hx as [(i & o & r & -> & Hi & ->)|[(i & c & p & s & q & ef & -> & Hi & Ht & ->)|[(i & -> & Hi & Hs & ->)|(i & j & t & -> & Hij & Hi & Hj & ->)]]];
    cbn [threads sem].
  - rewrite !(count_insert _ _ i _ _ Hi). destruct o; cbn; lia.
  - destruct (tstep_spec _ _ _ _ _ _ Ht Hv Hn (Hpc _ _ Hi)) as (_ & _ & _ & _ & Hstep).
    pose proof (count_length waking (<[i := q]> (threads st))). pose proof (count_length awake (<[i := q]> (threads st))).
    rewrite !(count_insert _ _ i _ _ Hi) in *. destruct Hstep as [[Hd1 Hd2]|[Hz|[-> Hz]]]; [intros ->; exact Hnc|lia|lia|].
    (* nobody registered: nobody sleeps *)
    pose proof (count_le is_sleeping registered (threads st) ltac:(intros []; cbn; congruence)) as Hle.
    cbn [tstep post_step wait_step futex_step trywait_step getvalue_step] in Ht. destruct c; try discriminate Ht. rewrite Hz in Ht. injection Ht as <- <- <-. cbn. lia.
  - rewrite !(count_insert _ _ i _ _ Hi), Hs. cbn. lia.
  - assert (<[i := Idle Done]> (threads st) !! j = Some (WaitSleep t)) as Hj' by (rewrite list_lookup_insert_ne by assumption; assumption).
    rewrite !(count_insert _ _ j _ _ Hj'), !(count_insert _ _ i _ _ Hi). pose proof (count_some is_sleeping _ _ _ Hj eq_refl). cbn. lia.
Qed.

Lemma exec_all_cons e es st st' : exec_all A (e :: es) st = Some st' -> exists st1, exec A e st = Some st1 /\ exec_all A es st1 = Some st'.
Proof. cbn [exec_all]. destruct (exec A e st) as [st1|]; [eauto|discriminate]. Qed.

Lemma exec_all_good v es st st' : good v st -> exec_all A es st = Some st' -> good v st'.
Proof.
  revert st. induction es as [|e es IH]; intros st Hg Hx; cbn [exec_all] in Hx; [injection Hx as <-; assumption|].
  destruct (exec A e st) as [st1|] eqn:E; [|discriminate]. eauto using good_exec.
Qed.

Lemma exec_all_covered v es st st' : good v st -> covered st -> Forall no_cancel es -> exec_all A es st = Some st' -> covered st'.
Proof.
  intros Hg Hc Hf. revert st Hg Hc. induction Hf as [|e es He _ IH]; intros st Hg Hc Hx; cbn [exec_all] in Hx; [injection Hx as <-; assumption|].
  destruct (exec A e st) as [st1|] eqn:E; [|discriminate]. eauto using good_exec, covered_exec.
Qed.

(** An event changes the net count by one at most, and lowers it only while the value is positive. *)
Lemma exec_net v e st st' : good v st -> exec A e st = Some st' -> exists ef, net v st' = net_after ef (net v st) /\ (ef = Acquires -> 0 < value (sem st)).
Proof.
  intros Hg Hx. destruct (good_nwaiters v st Hg) as [_ Hn].
  assert (forall i p, threads st !! i = Some p -> pc_ok p) as Hpc by (intros i p; apply (proj1 (Forall_lookup _ _) (gd_pcs _ _ Hg))).
  apply exec_step_inv in Hx as [(i & o & r & -> & Hi & ->)|[(i & c & p & s & q & ef & -> & Hi & Ht & ->)|[(i & -> & Hi & _ & ->)|(i & j & t & -> & Hij & Hi & Hj & ->)]]];
    [exists Quiet; split; [reflexivity|discriminate]| |exists Quiet; split; [reflexivity|discriminate]..].
  destruct (tstep_spec _ _ _ _ _ _ Ht (gd_value _ _ Hg) Hn (Hpc _ _ Hi)) as (_ & _ & Hpos & _). exists ef. split; [|exact Hpos].
  unfold net. cbn [posted acquired]. destruct ef; cbn [net_after]; lia.
Qed.

(** While the net count fits the word it is the value. *)
Lemma exec_all_exact v es st st' :
  good v st -> value (sem st) = net v st -> exec_all A es st = Some st' ->
  (forall es1 es2 st1, es = es1 ++ es2 -> exec_all A es1 st = Some st1 -> net v st1 < 2 ^ 32) -> value (sem st') = net v st'.
Proof.
  revert st. induction es as [|e es IH]; intros st Hg He Hx Hb; cbn [exec_all] in Hx; [injection Hx as <-; exact He|].
  destruct (exec A e st) as [st1|] eqn:E; [|discriminate]. pose proof (good_exec v _ _ _ Hg E) as Hg1. apply (IH st1 Hg1); [|exact Hx|].
  - destruct (gd_conserved _ _ Hg1) as (_ & _ & ->). apply uwrap_small. destruct (exec_net v _ _ _ Hg E) as (ef & En & Hpos).
    pose proof (Hb [e] es st1 eq_refl ltac:(cbn [exec_all]; rewrite E; reflexivity)). pose proof (gd_value _ _ Hg) as Hv. unfold value_ok in Hv.
    rewrite En in *. destruct ef; cbn [net_after] in *; [lia|lia|]. specialize (Hpos eq_refl). lia.
  - intros es1 es2 st2 -> Hx2. apply (Hb (e :: es1) es2 st2 eq_refl). cbn [exec_all]. rewrite E. exact Hx2.
Qed.

Lemma count_idle P k : P (Idle Done) = false -> count P (repeat (Idle Done) k) = 0.
Proof. intros Hp. induction k as [|k IH]; [reflexivity|]. cbn [repeat]. rewrite count_cons, IH, Hp. reflexivity. Qed.

Lemma init_good v k : 0 <= v < 2 ^ 32 -> Z.of_nat k < 2 ^ 32 -> good v (init_state v k) /\ covered (init_state v k).
Proof.
  intros Hv Hk. split; [split|].
  - exact Hv.
  - unfold init_state. cbn [threads]. induction k; simpl; constructor; [exact I|]. apply IHk. lia.
  - unfold conserved, net, init_state. cbn [sem value posted acquired]. unfold u32. rewrite uwrap_small; lia.
  - unfold counted, init_state. cbn [sem nwaiters threads]. rewrite count_idle, repeat_length by reflexivity. split; [reflexivity|assumption].
  - unfold covered, init_state. cbn [threads]. rewrite count_idle by reflexivity. lia.
Qed.
End Invariants.

(** ** Running to rest *)

(** In the middle of an operation, and not asleep. *)
Definition active (p : pc) : bool := match p with Idle _ | WaitSleep _ | Dead => false | _ => true end.

Definition poster (p : pc) : bool := match p with PostLoad | PostCheck _ | PostCas _ | PostTest | PostWake => true | _ => false end.

(** How long a thread can run alone, with the value [v]. *)
Definition rank (v : Z) (p : pc) : nat :=
  match p with
  | Idle _ | WaitSleep _ | Dead => 0
  | PostWake => 1
  | PostTest => 2
  | PostCas cur => if v =? cur then 3 else 6
  | PostCheck cur => if v =? cur then 4 else 7
  | PostLoad => 5
  | WaitDec _ | CancelDec | GetLoad => 1
  | RetryCas _ old => if v =? old then 2 else 4
  | RetryLoad _ => 3
  | WaitBack _ => 4
  | WaitFutex _ => if v =? 0 then 1 else 5
  | WaitClock _ => if v =? 0 then 2 else 6
  | WaitInc _ => 7
  | WaitCas _ old => if v =? old then 1 else 9
  | WaitLoad _ => 8
  | TryCas old => if s32 v =? old then 1 else 3
  | TryLoad => 2
  | TryTest => 3
  end.

(** Neither a new call nor a cancellation. *)
Definition internal (e : event) : Prop := match e with Call _ _ | Step _ Cancelled => False | _ => True end.

Section Rest.
Context (A : arch).

Lemma solo_step s p :
  0 <= value s < 2 ^ 32 -> active p = true -> p <> PostWake ->
  exists c s' q ef, c <> Cancelled /\ tstep A c s p = Some (s', q, ef) /\ (rank (value s') q < rank (value s) p)%nat /\
    (active q = true -> poster q = poster p) /\ (poster q = true -> poster p = true).
Proof.
  intros Hv Ha Hne. destruct p; try discriminate Ha; try (exfalso; apply Hne; reflexivity);
    match goal with |- context [WaitClock _] => exists (Clock 0 0) | _ => exists Go end; cbn [tstep post_step wait_step futex_step trywait_step getvalue_step];
    unfold begin_wait, wait_again; repeat case_match; ztests; subst;
    do 3 eexists; (split; [discriminate|]; split; [reflexivity|]);
    cbn [rank value set_value add_nwaiters active poster]; rewrite ?Z.eqb_refl;
    repeat case_match; ztests; (split; [lia|]); split; congruence.
Qed.

Definition load (st : state) : Z := 2 * count poster (threads st) + count active (threads st).

Lemma exec_all_app es1 es2 st st1 : exec_all A es1 st = Some st1 -> exec_all A (es1 ++ es2) st = exec_all A es2 st1.
Proof.
  revert st. induction es1 as [|e es1 IH]; intros st Hx; cbn [exec_all app] in *; [injection Hx as ->; reflexivity|].
  destruct (exec A e st) as [st2|]; [auto|discriminate].
Qed.

(** The last step of sem_post. *)
Lemma finish_wake st i :
  threads st !! i = Some PostWake -> exists e st', internal e /\ exec A e st = Some st' /\ load st' < load st.
Proof.
  intros Hi. destruct st as [s ts np na]. cbn [threads] in Hi. unfold load. cbn [threads].
  destruct (existsb is_sleeping ts) eqn:Es.
  - apply existsb_exists in Es as (p & Hp & Hs). apply list_elem_of_In, list_elem_of_lookup in Hp as [j Hj]. destruct p; try discriminate Hs.
    assert (i <> j) as Hij by congruence.
    assert (<[i := Idle Done]> ts !! j = Some (WaitSleep t)) as Hj' by (rewrite list_lookup_insert_ne by assumption; assumption).
    exists (Wake i (Some j)). eexists. split; [exact I|]. cbn [exec]. rewrite Hi, Hj. split; [reflexivity|]. cbn [threads].
    rewrite !(count_insert _ _ j _ _ Hj'), !(count_insert _ _ i _ _ Hi). cbn. lia.
  - exists (Wake i None). eexists. split; [exact I|]. cbn [exec]. rewrite Hi, Es. split; [reflexivity|]. cbn [threads].
    rewrite !(count_insert _ _ i _ _ Hi). cbn. lia.
Qed.

(** A thread that runs alone finishes its operation or falls asleep. *)
Lemma finish_thread v n st i p :
  good A v st -> threads st !! i = Some p -> active p = true -> (rank (value (sem st)) p < n)%nat ->
  exists es st', Forall internal es /\ exec_all A es st = Some st' /\ load st' < load st.
Proof.
  revert st p. induction n as [|n IH]; intros st p Hg Hi Ha Hr; [lia|].
  destruct (decide (p = PostWake)) as [->|Hne].
  { destruct (finish_wake st i Hi) as (e & st' & He & Hx & Hl). exists [e], st'. cbn [exec_all]. rewrite Hx. auto. }
  destruct (solo_step (sem st) p (gd_value _ _ _ Hg) Ha Hne) as (c & s' & q & ef & Hc & Ht & Hrk & Hq1 & Hq2).
  destruct (exec A (Step i c) st) as [st1|] eqn:E.
  2: { destruct st as [s ts np na]. cbn [exec threads sem] in *. rewrite Hi, Ht in E. discriminate. }
  pose proof (good_exec A v _ _ _ Hg E) as Hg1.
  assert (sem st1 = s' /\ threads st1 = <[i := q]> (threads st)) as [Es Et].
  { destruct st as [s ts np na]. cbn [exec threads sem] in *. rewrite Hi, Ht in E. injection E as <-. auto. }
  assert (internal (Step i c)) as Hint by (destruct c; cbn; auto).
  assert (load st1 = load st + 2 * (b2z (poster q) - b2z (poster p)) + (b2z (active q) - b2z (active p))) as El.
  { unfold load. rewrite Et, !(count_insert _ _ i _ _ Hi). lia. }
  destruct (active q) eqn:Eq.
  - destruct (IH st1 q Hg1) as (es & st' & He & Hx & Hl); [|assumption|rewrite Es; lia|].
    { rewrite Et. apply list_lookup_insert_eq, lookup_lt_is_Some. eauto. }
    exists (Step i c :: es), st'. split; [constructor; assumption|]. cbn [exec_all]. rewrite E. split; [assumption|].
    rewrite (Hq1 eq_refl), Ha in El. lia.
  - exists [Step i c], st1. split; [constructor; auto|]. cbn [exec_all]. rewrite E. split; [reflexivity|].
    rewrite Ha in El. unfold b2z in El. destruct (poster q), (poster p); try (specialize (Hq2 eq_refl); discriminate); lia.
Qed.

Lemma run_to_rest v st :
  good A v st -> exists es st', Forall internal es /\ exec_all A es st = Some st' /\ count active (threads st') = 0.
Proof.
  remember (Z.to_nat (load st)) as n eqn:En. revert st En. induction (lt_wf n) as [n _ IH]. intros st -> Hg.
  destruct (Z.eq_dec (count active (threads st)) 0) as [E0|Hne].
  { exists [], st. split; [constructor|]. split; [reflexivity|assumption]. }
  assert (existsb active (threads st) = true) as Hex by (apply not_false_iff_true; rewrite <- count_none; assumption).
  apply existsb_exists in Hex as (p & Hp & Ha). apply list_elem_of_In, list_elem_of_lookup in Hp as [i Hi].
  destruct (finish_thread v _ st i p Hg Hi Ha (Nat.lt_succ_diag_r _)) as (es & st1 & He & Hx & Hl).
  pose proof (count_length poster (threads st1)). pose proof (count_length active (threads st1)).
  destruct (IH (Z.to_nat (load st1)) ltac:(unfold load in *; lia) st1 eq_refl (exec_all_good A v _ _ _ Hg Hx)) as (es2 & st2 & He2 & Hx2 & Hr).
  exists (es ++ es2), st2. split; [apply Forall_app_2; assumption|]. split; [|assumption]. rewrite (exec_all_app es es2 st st1 Hx). assumption.
Qed.

Lemma internal_no_cancel es : Forall internal es -> Forall no_cancel es.
Proof. intros He. eapply Forall_impl; [exact He|]. intros []; cbn; auto. Qed.
End Rest.

(** * The semaphore *)

(** C17: in every interleaving of calls of sem_post, sem_wait, sem_timedwait,
    sem_trywait and sem_getvalue by fewer than 2^32 threads, with signals, expired time limits and
    cancelled threads, the value is, modulo 2^32, the initial value plus one for each
    post less one for each wait that succeeded, and the number of waiters recorded is the
    number of threads between their registration and its end.  The equation is exact, and so no more
    waits succeed than the value and the posts allow, as long as the count never passed the 32-bit
    word on the way; it can, since sem_post tests the value it read a second time and
    then counts past SEM_VALUE_MAX ([post_overflows]). *)
Theorem sem_conservation (A : arch) (v : Z) (k : nat) (es : list event) (st : state) :
  0 <= v <= SEM_VALUE_MAX -> Z.of_nat k < 2 ^ 32 -> exec_all A es (init_state v k) = Some st ->
  value (sem st) = u32 (v + posted st - acquired st) /\ nwaiters (sem st) = count registered (threads st) /\
  ((forall es1 es2 st1, es = es1 ++ es2 -> exec_all A es1 (init_state v k) = Some st1 -> v + posted st1 - acquired st1 < 2 ^ 32) ->
   value (sem st) = v + posted st - acquired st /\ 0 <= acquired st <= v + posted st).
Proof.
  intros Hv Hk Hx. destruct (init_good A v k ltac:(unfold SEM_VALUE_MAX in Hv; lia) Hk) as [Hg _].
  pose proof (exec_all_good A v es _ _ Hg Hx) as Hg'. destruct (good_nwaiters A v st Hg') as [En _].
  destruct (gd_conserved _ _ _ Hg') as (_ & Ha & Hc). pose proof (gd_value _ _ _ Hg') as Hr. unfold value_ok in Hr.
  split; [exact Hc|]. split; [exact En|]. intros Hb. pose proof (exec_all_exact A v es _ st Hg ltac:(unfold net; cbn; lia) Hx Hb) as He. unfold net in He. lia.
Qed.

(** C16: no wake-up is lost while no thread is cancelled.  From every state that
    calls, signals and time limits can lead to, the operations under way can be completed,
    without any new call, until every thread has returned or sleeps; and in every such
    state of rest a thread that sleeps does so because the value is zero. *)
Theorem sem_no_lost_wakeup (A : arch) (v : Z) (k : nat) (es : list event) (st : state) :
  0 <= v <= SEM_VALUE_MAX -> Z.of_nat k < 2 ^ 32 -> exec_all A es (init_state v k) = Some st -> Forall no_cancel es ->
  (exists es' st', Forall internal es' /\ exec_all A es' st = Some st' /\ count active (threads st') = 0) /\
  (forall es' st', Forall internal es' -> exec_all A es' st = Some st' -> count active (threads st') = 0 ->
     0 < count is_sleeping (threads st') -> value (sem st') = 0).
Proof.
  intros Hv Hk Hx Hnc. destruct (init_good A v k ltac:(unfold SEM_VALUE_MAX in Hv; lia) Hk) as [Hg Hc].
  pose proof (exec_all_good A v es _ _ Hg Hx) as Hg'. pose proof (exec_all_covered A v es _ _ Hg Hc Hnc Hx) as Hc'.
  split; [exact (run_to_rest A v st Hg')|]. intros es' st' Hi Hx' Hact Hs.
  pose proof (exec_all_covered A v es' _ _ Hg' Hc' (internal_no_cancel es' Hi) Hx' Hs) as Hcov.
  pose proof (gd_value _ _ _ (exec_all_good A v es' _ _ Hg' Hx')) as Hr. unfold value_ok in Hr.
  pose proof (count_le waking active (threads st') ltac:(intros []; cbn; congruence)).
  pose proof (count_le awake active (threads st') ltac:(intros []; cbn; congruence)). lia.
Qed.

(** Two threads wait, a third one posts and wakes the first. *)
Definition two_waiters : list event :=
  [Call 0 Wait; Step 0 Go; Step 0 Go; Step 0 Go; Call 1 Wait; Step 1 Go; Step 1 Go; Step 1 Go;
   Call 2 Post; Step 2 Go; Step 2 Go; Step 2 Go; Step 2 Go; Wake 2 (Some 0%nat)].

Lemma sem_conservation_witness :
  exists st, exec_all (Arch true false) two_waiters (init_state 0 3) = Some st /\
    value (sem st) = u32 (0 + posted st - acquired st) /\ nwaiters (sem st) = count registered (threads st) /\
    value (sem st) = 0 + posted st - acquired st /\ 0 <= acquired st <= 0 + posted st.
Proof.
  eexists. split; [vm_compute; reflexivity|].
  edestruct (sem_conservation (Arch true false) 0 3 two_waiters) as (E1 & E2 & E3); [unfold SEM_VALUE_MAX; lia|lia|vm_compute; reflexivity|].
  split; [exact E1|]. split; [exact E2|]. apply E3. intros es1 es2 st1 He Hx.
  do 15 (destruct es1 as [|? es1]; [injection Hx as <-; cbn; lia|]; try discriminate He; injection He as <- He; apply exec_all_cons in Hx as (? & Hs & Hx); vm_compute in Hs; injection Hs as <-).
Defined.

Lemma sem_no_lost_wakeup_witness :
  exists st, exec_all (Arch true false) two_waiters (init_state 0 3) = Some st /\
    exists es' st', Forall internal es' /\ exec_all (Arch true false) es' st = Some st' /\ count active (threads st') = 0.
Proof.
  eexists. split; [vm_compute; reflexivity|].
  eapply (sem_no_lost_wakeup (Arch true false) 0 3 two_waiters); [unfold SEM_VALUE_MAX; lia|lia|vm_compute; reflexivity|].
  repeat constructor.
Defined.

(** Cancellation can lose one: asynchronous cancellation is still enabled when the futex
    call has returned, and a thread that is cancelled there takes its wake-up with it.
    The other thread sleeps although the value is 1. *)
Example cancel_loses_wakeup :
  match exec_all (Arch true false) (two_waiters ++ [Step 0 Cancelled; Step 0 Go]) (init_state 0 3) with
  | Some st => value (sem st) = 1 /\ threads st = [Dead; WaitSleep None; Idle Done] /\ count active (threads st) = 0
  | None => False
  end.
Proof. vm_compute. auto. Qed.

(** sem_post reads the value twice, once to compare it with SEM_VALUE_MAX and once to
    increment it: a trywait and a post in between let it count past the maximum. *)
Example post_overflows :
  match exec_all (Arch true false)
    [Call 0 Post; Step 0 Go; Call 1 TryWait; Step 1 Go; Step 1 Go; Step 1 Go; Step 0 Go;
     Call 2 Post; Step 2 Go; Step 2 Go; Step 2 Go; Step 0 Go] (init_state SEM_VALUE_MAX 3) with
  | Some st => value (sem st) = SEM_VALUE_MAX + 1
  | None => False
  end.
Proof. vm_compute. reflexivity. Qed.
