(* ===== verification/Strtol.v ===== *)
(** Conversion of strings to integers (stdlib/strtol_l.c): the function behind strtol,
    strtoul, strtoll and strtoull on strings of bytes, without grouping (the public entry
    points pass [group] as 0).  The four are instances of two switches of the source,
    UNSIGNED and QUAD.

    The reference is the definition of ISO C 7.22.1.4: white space, a sign, a prefix that
    may choose the base, and the longest sequence of digits, whose value is an unbounded
    integer; the result is that value when its type can represent it. *)
From S2P Require Import Prelude CMem.

Inductive strtol_errno := STRTOL_EINVAL | STRTOL_ERANGE.

(** The value, errno when it is set, and [*endptr] when it is stored ([endptr] is not null). *)
Record strtol_result := StrtolResult { res_value : Z; res_errno : option strtol_errno; res_end : option Z }.

(** The tables of the locale that are used. *)
Record ctype := Ctype { isspace : Z -> bool; isalpha : Z -> bool; toupper : Z -> Z }.

Section Strtol.
Context (A : arch) (UNSIGNED QUAD : bool) (loc : ctype).

(** Bits of [unsigned LONG int]. *)
Definition LONG_bits : Z := if QUAD then 64 else wordbits A.

Definition ulw (z : Z) : Z := uwrap LONG_bits z.

Definition STRTOL_ULONG_MAX : Z := 2 ^ LONG_bits - 1.
Definition STRTOL_LONG_MAX : Z := 2 ^ (LONG_bits - 1) - 1.
Definition STRTOL_LONG_MIN : Z := - 2 ^ (LONG_bits - 1).

(** Entries of the tables, which hold [ULONG_MAX / X] and [ULONG_MAX % X]. *)
Definition cutoff (base : Z) : Z := STRTOL_ULONG_MAX / base.
Definition cutlim (base : Z) : Z := STRTOL_ULONG_MAX mod base.
Definition jmax (base : Z) : Z := (2 ^ wordbits A - 1) / base.

(** [while (ISSPACE ( *s)) ++s;] *)
Fixpoint skip_space {R} (fuel : nat) (m : mem) (s : Z) : flow R Z :=
  match fuel with
  | O => NoFuel
  | S fuel =>
      let! c := load8 m s in
      if isspace loc c then skip_space fuel m (s + 1) else Next s
  end.

(** The value of [c] in the loops, before it is compared with the base. *)
Definition digit_value (c : Z) : option Z :=
  if (48 <=? c) && (c <=? 57) then Some (c - 48)
  else if isalpha loc c then Some (u8 (toupper loc c - 65 + 10))
  else None.

(** The loop on [unsigned LONG int]. *)
Fixpoint long_loop {R} (fuel : nat) (m : mem) (base s i : Z) (overflow : bool) : flow R (Z * Z * bool) :=
  match fuel with
  | O => NoFuel
  | S fuel =>
      let! c := load8 m s in
      if c =? 0 then Next (s, i, overflow) else
      match digit_value c with
      | None => Next (s, i, overflow)
      | Some c =>
          if base <=? c then Next (s, i, overflow)
          else if (cutoff base <? i) || ((i =? cutoff base) && (cutlim base <? c))
          then long_loop fuel m base (s + 1) i true
          else long_loop fuel m base (s + 1) (ulw (ulw (i * base) + c)) overflow
      end
  end.

(** The loop on [unsigned long int], which goes on at [use_long] in the other one. *)
Fixpoint ulong_loop {R} (fuel : nat) (m : mem) (base s j : Z) : flow R (Z * Z * bool) :=
  match fuel with
  | O => NoFuel
  | S fuel =>
      let! c := load8 m s in
      if c =? 0 then Next (s, j, false) else
      match digit_value c with
      | None => Next (s, j, false)
      | Some c =>
          if base <=? c then Next (s, j, false)
          else if jmax base <=? j then long_loop fuel m base (s + 1) (ulw (ulw (j * base) + c)) false
          else ulong_loop fuel m base (s + 1) (uwrap (wordbits A) (uwrap (wordbits A) (j * base) + c))
      end
  end.

Definition digits_loop {R} (fuel : nat) (m : mem) (base s : Z) : flow R (Z * Z * bool) :=
  if wordbits A =? LONG_bits then long_loop fuel m base s 0 false else ulong_loop fuel m base s 0.

(** A sign: [negative], and where the number starts. *)
Definition read_sign {R} (m : mem) (s : Z) : flow R (bool * Z) :=
  let! c := load8 m s in
  Next (if c =? 45 then (true, s + 1) else if c =? 43 then (false, s + 1) else (false, s)).

(** The prefix: the base, and where the digits start. *)
Definition read_prefix {R} (m : mem) (base s : Z) : flow R (Z * Z) :=
  let! c := load8 m s in
  if c =? 48 then
    if (base =? 0) || (base =? 16) then
      let! x := load8 m (s + 1) in
      if toupper loc x =? 88 then Next (16, s + 2)
      else if base =? 0 then Next (8, s) else Next (base, s)
    else Next (base, s)
  else if base =? 0 then Next (10, s) else Next (base, s).

Definition noconv {R} (m : mem) (nptr save : Z) : flow R strtol_result :=
  if 2 <=? save - nptr then
    let! x := load8 m (save - 1) in
    let! z := load8 m (save - 2) in
    Next (StrtolResult 0 None (Some (if (toupper loc x =? 88) && (z =? 48) then save - 1 else nptr)))
  else Next (StrtolResult 0 None (Some nptr)).

(** The largest magnitude for the sign. *)
Definition max_magnitude (negative : bool) : Z :=
  if negative then ulw (ulw (- ulw (STRTOL_LONG_MIN + 1)) + 1) else ulw STRTOL_LONG_MAX.

Definition finish (negative : bool) (i : Z) (overflow : bool) (s : Z) : strtol_result :=
  let overflow := if negb UNSIGNED && negb overflow && (max_magnitude negative <? i) then true else overflow in
  if overflow then
    StrtolResult (if UNSIGNED then STRTOL_ULONG_MAX else if negative then STRTOL_LONG_MIN else STRTOL_LONG_MAX)
      (Some STRTOL_ERANGE) (Some s)
  else
    let r := if negative then ulw (- i) else i in
    StrtolResult (if UNSIGNED then r else swrap LONG_bits r) None (Some s).

Definition strtol_l {R} (fuel : nat) (m : mem) (nptr base : Z) : flow R strtol_result :=
  if (base <? 0) || (base =? 1) || (36 <? base) then Next (StrtolResult 0 (Some STRTOL_EINVAL) None) else
  let! s := skip_space fuel m nptr in
  let! c := load8 m s in
  if c =? 0 then noconv m nptr nptr else
  let! '(negative, s) := read_sign m s in
  let! '(base, s) := read_prefix m base s in
  let save := s in
  let! '(s, i, overflow) := digits_loop fuel m base s in
  if s =? save then noconv m nptr save
  else Next (finish negative i overflow s).
End Strtol.

(** * The reference *)

Module IsoC.
Definition digit (c : Z) : option Z :=
  if (48 <=? c) && (c <=? 57) then Some (c - 48)
  else if (65 <=? c) && (c <=? 90) then Some (c - 55)
  else if (97 <=? c) && (c <=? 122) then Some (c - 87)
  else None.

(** The longest initial sequence of digits of the base. *)
Fixpoint digits (base : Z) (str : list Z) : list Z :=
  match str with
  | [] => []
  | c :: str => match digit c with Some d => if d <? base then d :: digits base str else [] | None => [] end
  end.

Definition number (base : Z) (ds : list Z) : Z := fold_left (fun n d => n * base + d) ds 0.

Fixpoint spaces (space : Z -> bool) (str : list Z) : nat :=
  match str with c :: str => if space c then S (spaces space str) else O | [] => O end.

Definition sign (str : list Z) : bool * nat :=
  match str with 45 :: _ => (true, 1%nat) | 43 :: _ => (false, 1%nat) | _ => (false, O) end.

(** Base and length of the prefix. *)
Definition prefix (base : Z) (str : list Z) : Z * nat :=
  match str with
  | 48 :: x :: _ =>
      if ((base =? 0) || (base =? 16)) && ((x =? 120) || (x =? 88)) then (16, 2%nat) else if base =? 0 then (8, O) else (base, O)
  | 48 :: _ => if base =? 0 then (8, O) else (base, O)
  | _ => if base =? 0 then (10, O) else (base, O)
  end.

(** The result for an integer: clamped to the type, with ERANGE, when it does not fit;
    the unsigned functions negate in the unsigned type. *)
Definition represent (unsigned : bool) (bits : Z) (negative : bool) (n : Z) : Z * option strtol_errno :=
  if unsigned then
    if n <? 2 ^ bits then (if negative then (- n) mod 2 ^ bits else n, None) else (2 ^ bits - 1, Some STRTOL_ERANGE)
  else
    let v := if negative then - n else n in
    if v <? - 2 ^ (bits - 1) then (- 2 ^ (bits - 1), Some STRTOL_ERANGE)
    else if 2 ^ (bits - 1) <=? v then (2 ^ (bits - 1) - 1, Some STRTOL_ERANGE)
    else (v, None).

(** [*endptr] is an offset here.  Without digits nothing is converted, except the 0 of a 0x. *)
Definition strtol (unsigned : bool) (bits : Z) (space : Z -> bool) (str : list Z) (base : Z) : Z * option strtol_errno * option nat :=
  if (base <? 0) || (base =? 1) || (36 <? base) then (0, Some STRTOL_EINVAL, None) else
  let k := spaces space str in
  let '(negative, k1) := sign (drop k str) in
  let '(b, k2) := prefix base (drop (k + k1) str) in
  let ds := digits b (drop (k + k1 + k2) str) in
  match ds with
  | [] => (0, None, Some (if (k2 =? 2)%nat then (k + k1 + 1)%nat else O))
  | _ => let '(v, e) := represent unsigned bits negative (number b ds) in (v, e, Some (k + k1 + k2 + length ds)%nat)
  end.
End IsoC.

(** The result with the end as an address. *)
Definition located (nptr : Z) (r : Z * option strtol_errno * option nat) : strtol_result :=
  let '(v, e, k) := r in StrtolResult v e ((fun n => nptr + Z.of_nat n) <$> k).

(** What the conversions rely on of the locale, true of the C locale: letters and their
    upper case, and that no other alphabetic character has an upper case among them. *)
Record ctype_ok (loc : ctype) : Prop := {
  ct_nul : isspace loc 0 = false;
  ct_space : forall c, isspace loc c = true -> toupper loc c <> 88;
  ct_x : forall c, is_byte c -> (toupper loc c = 88 <-> c = 88 \/ c = 120);
  ct_upper : forall c, 65 <= c <= 90 -> isalpha loc c = true /\ toupper loc c = c;
  ct_lower : forall c, 97 <= c <= 122 -> isalpha loc c = true /\ toupper loc c = c - 32;
  ct_other : forall c, is_byte c -> isalpha loc c = true -> ~ (65 <= c <= 90) -> ~ (97 <= c <= 122) -> 36 <= u8 (toupper loc c - 65 + 10)
}.

Definition C_locale : ctype :=
  Ctype (fun c => (c =? 32) || ((9 <=? c) && (c <=? 13)))
    (fun c => ((65 <=? c) && (c <=? 90)) || ((97 <=? c) && (c <=? 122)))
    (fun c => if (97 <=? c) && (c <=? 122) then c - 32 else c).

(** " -0x1fZ" *)
Example strtol_hex :
  @strtol_l (Arch true false) false false C_locale unit 9 (mem_of 100 [32; 45; 48; 120; 49; 102; 90; 0]) 100 0 =
  Next (StrtolResult (-31) None (Some 106)).
Proof. vm_compute. reflexivity. Qed.

Example strtoll_max :
  @strtol_l (Arch false false) false true C_locale unit 30 (mem_of 100 [57; 50; 50; 51; 51; 55; 50; 48; 51; 54; 56; 53; 52; 55; 55; 53; 56; 48; 56; 0]) 100 10 =
  Next (StrtolResult 9223372036854775807 (Some STRTOL_ERANGE) (Some 119)).
Proof. vm_compute. reflexivity. Qed.

(** * Proofs *)

Section Proofs.
Context (A : arch) (UNSIGNED QUAD : bool) (loc : ctype).
Hypothesis loc_ok : ctype_ok loc.
Abbreviation bits := (LONG_bits A QUAD).
Abbreviation ULMAX := (STRTOL_ULONG_MAX A QUAD).

Lemma bits_cases : (bits = 32 \/ bits = 64) /\ (wordbits A = 32 \/ wordbits A = 64) /\ wordbits A <= bits.
Proof. unfold LONG_bits, wordbits. destruct QUAD, (wordsize_cases A); lia. Qed.

(** ** Digits *)

Lemma digit_agree c : is_byte c ->
  match IsoC.digit c with
  | Some d => digit_value loc c = Some d /\ 0 <= d < 36
  | None => match digit_value loc c with Some d => 36 <= d | None => True end
  end.
Proof.
  intros Hc. unfold IsoC.digit, digit_value. destruct ((48 <=? c) && (c <=? 57)) eqn:E0.
  { apply andb_true_iff in E0 as [?%Z.leb_le ?%Z.leb_le]. split; [reflexivity|lia]. }
  destruct ((65 <=? c) && (c <=? 90)) eqn:E1.
  { apply andb_true_iff in E1 as [?%Z.leb_le ?%Z.leb_le]. destruct (ct_upper _ loc_ok c) as [-> ->]; [lia|].
    unfold u8. rewrite uwrap_small by lia. split; [f_equal|]; lia. }
  destruct ((97 <=? c) && (c <=? 122)) eqn:E2.
  { apply andb_true_iff in E2 as [?%Z.leb_le ?%Z.leb_le]. destruct (ct_lower _ loc_ok c) as [-> ->]; [lia|].
    unfold u8. rewrite uwrap_small by lia. split; [f_equal|]; lia. }
  destruct (isalpha loc c) eqn:Ea; [|exact I]. apply (ct_other _ loc_ok); auto; intros ?; lia.
Qed.

(** What the loops do with a character: a digit of the base is consumed, anything else ends them. *)
Lemma digits_cons base c l :
  2 <= base <= 36 -> is_byte c ->
  (exists d, digit_value loc c = Some d /\ (base <=? d) = false /\ 0 <= d < base /\ IsoC.digits base (c :: l) = d :: IsoC.digits base l) \/
  (IsoC.digits base (c :: l) = [] /\ match digit_value loc c with Some d => (base <=? d) = true | None => True end).
Proof.
  intros Hb Hc. pose proof (digit_agree c Hc) as Hd. cbn [IsoC.digits]. destruct (IsoC.digit c) as [d|].
  - destruct Hd as [-> Hr]. destruct (Z.ltb_spec d base).
    + left. exists d. split; [reflexivity|]. split; [apply Z.leb_gt; lia|]. auto with lia.
    + right. split; [reflexivity|]. apply Z.leb_le. lia.
  - right. split; [reflexivity|]. destruct (digit_value loc c) as [d|]; [|exact I]. apply Z.leb_le. lia.
Qed.

Abbreviation value_from base := (fold_left (fun n d => n * base + d)).

(** [i] and [overflow] stand for the exact value [N]. *)
Definition stands_for (i : Z) (overflow : bool) (N : Z) : Prop :=
  0 <= N /\ if overflow then ULMAX < N else i = N /\ N <= ULMAX.

Lemma overflow_test base i d :
  2 <= base -> 0 <= i -> 0 <= d < base ->
  (cutoff A QUAD base <? i) || ((i =? cutoff A QUAD base) && (cutlim A QUAD base <? d)) = (ULMAX <? i * base + d).
Proof.
  intros Hb Hi Hd. unfold cutoff, cutlim. pose proof (Z.div_mod ULMAX base ltac:(lia)) as E. pose proof (Z.mod_pos_bound ULMAX base ltac:(lia)) as Hm.
  set (q := ULMAX / base) in *. set (r := ULMAX mod base) in *. clearbody q r.
  destruct (Z.ltb_spec q i); cbn [orb]; [symmetry; apply Z.ltb_lt; nia|].
  destruct (Z.eqb_spec i q) as [->|]; cbn [andb]; [destruct (Z.ltb_spec r d); symmetry; [apply Z.ltb_lt|apply Z.ltb_ge]; lia|].
  symmetry. apply Z.ltb_ge. nia.
Qed.

Lemma ulw_small z : 0 <= z <= ULMAX -> ulw A QUAD z = z.
Proof. intros Hz. unfold ulw. apply uwrap_small. unfold STRTOL_ULONG_MAX in Hz. lia. Qed.

Lemma stands_next base i overflow N d :
  2 <= base -> 0 <= d < base -> stands_for i overflow N ->
  stands_for (if (cutoff A QUAD base <? i) || ((i =? cutoff A QUAD base) && (cutlim A QUAD base <? d)) then i else ulw A QUAD (ulw A QUAD (i * base) + d))
    (if (cutoff A QUAD base <? i) || ((i =? cutoff A QUAD base) && (cutlim A QUAD base <? d)) then true else overflow) (N * base + d).
Proof.
  intros Hb Hd [HN Hs]. unfold stands_for. split; [nia|]. destruct overflow.
  - destruct (_ || _); nia.
  - destruct Hs as [-> Hle]. rewrite overflow_test by assumption. destruct (Z.ltb_spec ULMAX (N * base + d)); [assumption|].
    rewrite !ulw_small by (try rewrite ulw_small by nia; nia). lia.
Qed.

Lemma long_loop_spec {R} base l fuel m s i overflow N :
  2 <= base <= 36 -> Forall is_byte l -> Forall (fun b => b <> 0) l -> bytes_at m s (l ++ [0]) -> (length l < fuel)%nat ->
  stands_for i overflow N ->
  exists i' overflow', @long_loop A QUAD loc R fuel m base s i overflow = Next (s + Z.of_nat (length (IsoC.digits base l)), i', overflow') /\
    stands_for i' overflow' (value_from base (IsoC.digits base l) N).
Proof.
  intros Hb Hl Hnz. revert fuel s i overflow N. induction l as [|c l IH]; intros fuel s i overflow N Hat Hf Hs;
    destruct fuel as [|fuel]; try (simpl in Hf; lia); cbn [long_loop]; cbn [app] in Hat; apply bytes_at_cons in Hat as [Hc Hat];
    rewrite (load8_spec _ _ _ Hc); cbn [flow_bind].
  - exists i, overflow. cbn [IsoC.digits length fold_left]. rewrite Z.add_0_r. auto.
  - apply Forall_cons in Hl as [Hbc Hl], Hnz as [Hzc Hnz]. rewrite (proj2 (Z.eqb_neq c 0)) by assumption.
    destruct (digits_cons base c l Hb Hbc) as [(d & -> & -> & Hd & ->)|[-> Hv]].
    + pose proof (stands_next base i overflow N d ltac:(lia) Hd Hs) as Hs'. cbn [length fold_left].
      destruct (_ || _).
      * destruct (IH Hl Hnz fuel (s + 1) i true (N * base + d) Hat ltac:(simpl in Hf; lia) Hs') as (i' & o' & -> & Hr).
        exists i', o'. split; [do 3 f_equal; lia|assumption].
      * destruct (IH Hl Hnz fuel (s + 1) _ overflow (N * base + d) Hat ltac:(simpl in Hf; lia) Hs') as (i' & o' & -> & Hr).
        exists i', o'. split; [do 3 f_equal; lia|assumption].
    + exists i, overflow. cbn [length fold_left]. rewrite Z.add_0_r. split; [|assumption].
      destruct (digit_value loc c); [rewrite Hv|]; reflexivity.
Qed.

(** The loop on [unsigned long int] does not overflow, and hands over in time. *)
Lemma ulong_loop_spec {R} base l fuel m s N :
  2 <= base <= 36 -> wordbits A = 32 -> bits = 64 -> Forall is_byte l -> Forall (fun b => b <> 0) l -> bytes_at m s (l ++ [0]) -> (length l < fuel)%nat ->
  0 <= N < 2 ^ 32 ->
  exists i' overflow', @ulong_loop A QUAD loc R fuel m base s N = Next (s + Z.of_nat (length (IsoC.digits base l)), i', overflow') /\
    stands_for i' overflow' (value_from base (IsoC.digits base l) N).
Proof.
  intros Hb HwA HwL Hl Hnz. assert (ULMAX = 2 ^ 64 - 1) as EU by (unfold STRTOL_ULONG_MAX; rewrite HwL; reflexivity).
  revert fuel s N. induction l as [|c l IH]; intros fuel s N Hat Hf HN;
    destruct fuel as [|fuel]; try (simpl in Hf; lia); cbn [ulong_loop]; cbn [app] in Hat; apply bytes_at_cons in Hat as [Hc Hat];
    rewrite (load8_spec _ _ _ Hc); cbn [flow_bind].
  - exists N, false. cbn [IsoC.digits length fold_left]. rewrite Z.add_0_r. unfold stands_for. split; [reflexivity|]. lia.
  - apply Forall_cons in Hl as [Hbc Hl], Hnz as [Hzc Hnz]. rewrite (proj2 (Z.eqb_neq c 0)) by assumption.
    destruct (digits_cons base c l Hb Hbc) as [(d & -> & -> & Hd & ->)|[-> Hv]].
    + cbn [length fold_left]. unfold jmax. rewrite HwA. destruct (Z.leb_spec ((2 ^ 32 - 1) / base) N) as [Hj|Hj].
      * rewrite (ulw_small (N * base)), ulw_small by nia.
        destruct (long_loop_spec (R := R) base l fuel m (s + 1) (N * base + d) false (N * base + d) Hb Hl Hnz Hat ltac:(simpl in Hf; lia)) as (i' & o' & -> & Hr).
        { unfold stands_for. nia. }
        exists i', o'. split; [do 3 f_equal; lia|assumption].
      * assert (N * base + d < 2 ^ 32) as Hlt by (pose proof (Z.mul_div_le (2 ^ 32 - 1) base ltac:(lia)); nia).
        rewrite (uwrap_small 32 (N * base)), uwrap_small by nia.
        destruct (IH Hl Hnz fuel (s + 1) (N * base + d) Hat ltac:(simpl in Hf; lia) ltac:(nia)) as (i' & o' & -> & Hr).
        exists i', o'. split; [do 3 f_equal; lia|assumption].
    + exists N, false. cbn [length fold_left]. rewrite Z.add_0_r. split; [|unfold stands_for; lia].
      destruct (digit_value loc c); [rewrite Hv|]; reflexivity.
Qed.

Lemma digits_loop_spec {R} base l fuel m s :
  2 <= base <= 36 -> Forall is_byte l -> Forall (fun b => b <> 0) l -> bytes_at m s (l ++ [0]) -> (length l < fuel)%nat ->
  exists i' overflow', @digits_loop A QUAD loc R fuel m base s = Next (s + Z.of_nat (length (IsoC.digits base l)), i', overflow') /\
    stands_for i' overflow' (IsoC.number base (IsoC.digits base l)).
Proof.
  intros Hb Hl Hnz Hat Hf. unfold digits_loop. destruct bits_cases as (Hbits & HwA & Hle). destruct (Z.eqb_spec (wordbits A) bits) as [E|Hne].
  - apply long_loop_spec; auto. unfold stands_for, STRTOL_ULONG_MAX. destruct Hbits as [-> | ->]; lia.
  - apply ulong_loop_spec; auto; lia.
Qed.

(** ** Around the digits *)

Lemma cstring_head {R} m s l : cstring m s l -> @load8 R m s = Next (hd 0 l).
Proof. intros [Hat _]. apply load8_spec. destruct l; cbn [app] in Hat; apply bytes_at_cons in Hat; apply Hat. Qed.

Lemma cstring_drop m s l k : cstring m s l -> (k <= length l)%nat -> cstring m (s + Z.of_nat k) (drop k l).
Proof.
  intros [Hat Hnz] Hk. split; [|apply Forall_drop, Hnz]. rewrite <- (take_drop k l), <- app_assoc in Hat.
  apply bytes_at_app in Hat as [_ Hat]. rewrite length_take_le in Hat by assumption. exact Hat.
Qed.

Lemma cstring_bytes m s l : wf_mem m -> cstring m s l -> Forall is_byte l.
Proof. intros Hwf [Hat _]. apply bytes_at_wf in Hat; [|assumption]. apply Forall_app in Hat. apply Hat. Qed.

Lemma hd_byte l : Forall is_byte l -> is_byte (hd 0 l).
Proof. intros [|c l' Hc _]; [unfold is_byte; simpl; lia|exact Hc]. Qed.

Lemma spaces_le p l : (IsoC.spaces p l <= length l)%nat.
Proof. induction l as [|c l IH]; simpl; [lia|]. destruct (p c); lia. Qed.

Lemma skip_space_spec {R} l : forall fuel m s,
  cstring m s l -> (length l < fuel)%nat ->
  @skip_space loc R fuel m s = Next (s + Z.of_nat (IsoC.spaces (isspace loc) l)).
Proof.
  induction l as [|c l IH]; intros fuel m s Hs Hf; (destruct fuel as [|fuel]; [simpl in Hf; lia|]); cbn [skip_space];
    rewrite (cstring_head _ _ _ Hs); cbn [flow_bind hd IsoC.spaces].
  - rewrite (ct_nul _ loc_ok), Z.add_0_r. reflexivity.
  - destruct (isspace loc c); [|f_equal; lia]. rewrite IH; [f_equal; lia| |simpl in Hf; lia].
    apply (cstring_drop _ _ _ 1 Hs). simpl; lia.
Qed.

(** The character before the end of the skipped space is a space. *)
Lemma spaces_last l k :
  IsoC.spaces (isspace loc) l = S k -> isspace loc (hd 0 (drop k l)) = true.
Proof.
  revert k. induction l as [|c l IH]; intros k; cbn [IsoC.spaces]; [discriminate|]. destruct (isspace loc c) eqn:E; [|discriminate].
  intros [= <-]. destruct (IsoC.spaces (isspace loc) l) as [|k] eqn:Ek; [exact E|]. cbn [drop]. apply IH, eq_refl.
Qed.

Lemma sign_head l : IsoC.sign l = (hd 0 l =? 45, if (hd 0 l =? 45) || (hd 0 l =? 43) then 1%nat else O).
Proof.
  destruct l as [|c l]; [reflexivity|]. cbn [hd].
  destruct (Z.eqb_spec c 45) as [->|H45]; [reflexivity|]. destruct (Z.eqb_spec c 43) as [->|H43]; [reflexivity|].
  unfold IsoC.sign. repeat case_match; simplify_eq; reflexivity.
Qed.

Lemma read_sign_spec {R} m s l : cstring m s l ->
  @read_sign R m s = Next (let '(negative, k) := IsoC.sign l in (negative, s + Z.of_nat k)).
Proof.
  intros Hs. unfold read_sign. rewrite (cstring_head _ _ _ Hs), sign_head. cbn [flow_bind].
  destruct (hd 0 l =? 45), (hd 0 l =? 43); cbn [orb]; do 2 f_equal; lia.
Qed.

Lemma prefix_head base l :
  IsoC.prefix base l =
  if hd 0 l =? 48 then
    if ((base =? 0) || (base =? 16)) && ((hd 0 (drop 1 l) =? 120) || (hd 0 (drop 1 l) =? 88)) then (16, 2%nat)
    else if base =? 0 then (8, O) else (base, O)
  else if base =? 0 then (10, O) else (base, O).
Proof.
  destruct l as [|c [|x l]]; [reflexivity| |]; cbn [hd drop]; (destruct (Z.eqb_spec c 48) as [->|]; [|unfold IsoC.prefix; repeat case_match; simplify_eq; reflexivity]).
  - cbn [Z.eqb orb]. rewrite andb_false_r. reflexivity.
  - reflexivity.
Qed.

Lemma upper_x c : is_byte c -> (toupper loc c =? 88) = (c =? 120) || (c =? 88).
Proof.
  intros Hc. destruct (Z.eqb_spec (toupper loc c) 88) as [E|E].
  - apply (ct_x _ loc_ok) in E; [|assumption]. symmetry. apply orb_true_iff. rewrite !Z.eqb_eq. tauto.
  - symmetry. apply orb_false_iff. rewrite !Z.eqb_neq. split; intros ->; apply E, (ct_x _ loc_ok); auto.
Qed.

Lemma read_prefix_spec {R} m base s l : wf_mem m -> cstring m s l ->
  @read_prefix loc R m base s = Next (let '(b, k) := IsoC.prefix base l in (b, s + Z.of_nat k)).
Proof.
  intros Hwf Hs. unfold read_prefix. rewrite (cstring_head _ _ _ Hs), prefix_head. cbn [flow_bind].
  destruct (Z.eqb_spec (hd 0 l) 48) as [E|E]; [|destruct (base =? 0); do 2 f_equal; lia].
  assert (1 <= length l)%nat as Hl by (destruct l; simpl in *; lia).
  destruct ((base =? 0) || (base =? 16)) eqn:Eb; cbn [andb];
    [|apply orb_false_iff in Eb as [-> _]; do 2 f_equal; lia].
  pose proof (cstring_drop _ _ _ 1 Hs Hl) as Hs1. change (Z.of_nat 1) with 1 in Hs1.
  rewrite (cstring_head _ _ _ Hs1). cbn [flow_bind].
  rewrite upper_x by (apply hd_byte; eapply cstring_bytes; eassumption).
  clear Eb. destruct (_ || _); [reflexivity|]. destruct (base =? 0); do 2 f_equal; lia.
Qed.

Lemma prefix_base base l : 0 <= base <= 36 -> base <> 1 -> 2 <= (IsoC.prefix base l).1 <= 36.
Proof. intros Hb H1. rewrite prefix_head. destruct (hd 0 l =? 48); [destruct (_ && _)|]; destruct (Z.eqb_spec base 0); simpl; lia. Qed.

(** A prefix of two characters is 0x. *)
Lemma prefix_length base l :
  (IsoC.prefix base l).2 = O \/ (IsoC.prefix base l).2 = 2%nat /\ (2 <= length l)%nat /\ hd 0 l = 48 /\ (hd 0 (drop 1 l) = 120 \/ hd 0 (drop 1 l) = 88).
Proof.
  rewrite prefix_head. destruct (Z.eqb_spec (hd 0 l) 48) as [E|E]; [|destruct (base =? 0); auto].
  destruct ((base =? 0) || (base =? 16)); cbn [andb]; [|destruct (base =? 0); auto].
  destruct ((hd 0 (drop 1 l) =? 120) || (hd 0 (drop 1 l) =? 88)) eqn:Ex; [|destruct (base =? 0); auto].
  right. split; [reflexivity|]. apply orb_true_iff in Ex. rewrite !Z.eqb_eq in Ex.
  split; [|auto]. destruct l as [|c [|x l]]; simpl in *; lia.
Qed.

(** Nothing was converted: the characters before [save] decide, and they are 0x only
    when [read_prefix] passed them. *)
Lemma noconv_spec {R} m nptr str k1 k2 (k := IsoC.spaces (isspace loc) str) base :
  wf_mem m -> cstring m nptr str ->
  k1 = (IsoC.sign (drop k str)).2 -> k2 = (IsoC.prefix base (drop (k + k1) str)).2 -> (k + k1 <= length str)%nat ->
  @noconv loc R m nptr (nptr + Z.of_nat (k + k1 + k2)) =
  Next (StrtolResult 0 None (Some (nptr + Z.of_nat (if (k2 =? 2)%nat then (k + k1 + 1)%nat else O)))).
Proof.
  intros Hwf Hs Hk1 Hk2 Hle. unfold noconv.
  assert (forall n, (n <= length str)%nat -> @load8 R m (nptr + Z.of_nat n) = Next (hd 0 (drop n str)) /\ is_byte (hd 0 (drop n str))) as Hload.
  { intros n Hn. pose proof (cstring_drop _ _ _ n Hs Hn) as Hd. split; [apply cstring_head, Hd|]. apply hd_byte. eapply cstring_bytes; eassumption. }
  destruct (prefix_length base (drop (k + k1) str)) as [Hp|(Hp & Hlen & H0 & Hx)]; rewrite <- Hk2 in Hp; subst k2; rewrite Hp; cbn [Nat.eqb].
  - rewrite Nat.add_0_r, Z.add_0_r. destruct (Z.leb_spec 2 (nptr + Z.of_nat (k + k1) - nptr)) as [H2|H2]; [|reflexivity].
    replace (nptr + Z.of_nat (k + k1) - 1) with (nptr + Z.of_nat (k + k1 - 1)) by lia.
    replace (nptr + Z.of_nat (k + k1) - 2) with (nptr + Z.of_nat (k + k1 - 2)) by lia.
    destruct (Hload (k + k1 - 1)%nat ltac:(lia)) as [-> Hb]. destruct (Hload (k + k1 - 2)%nat ltac:(lia)) as [-> _]. cbn [flow_bind].
    rewrite (proj2 (Z.eqb_neq (toupper loc _) 88)); [reflexivity|]. rewrite sign_head in Hk1. cbn [snd] in Hk1.
    destruct ((hd 0 (drop k str) =? 45) || (hd 0 (drop k str) =? 43)) eqn:Es; subst k1.
    + replace (k + 1 - 1)%nat with k in * by lia. apply orb_true_iff in Es. rewrite !Z.eqb_eq in Es.
      intros E%(ct_x _ loc_ok); [|assumption]. lia.
    + destruct k as [|k'] eqn:Ek; [lia|]. replace (S k' + 0 - 1)%nat with k' in * by lia.
      apply (ct_space _ loc_ok), spaces_last, Ek.
  - rewrite length_drop in Hlen. rewrite drop_drop in Hx. rewrite (proj2 (Z.leb_le 2 _)) by lia.
    replace (nptr + Z.of_nat (k + k1 + 2) - 1) with (nptr + Z.of_nat (k + k1 + 1)) by lia.
    replace (nptr + Z.of_nat (k + k1 + 2) - 2) with (nptr + Z.of_nat (k + k1)) by lia.
    destruct (Hload (k + k1 + 1)%nat ltac:(lia)) as [-> Hb]. destruct (Hload (k + k1)%nat ltac:(lia)) as [-> _]. cbn [flow_bind].
    rewrite H0, upper_x by assumption. destruct Hx as [-> | ->]; reflexivity.
Qed.

Lemma max_magnitude_spec negative : max_magnitude A QUAD negative = if negative then 2 ^ (bits - 1) else 2 ^ (bits - 1) - 1.
Proof.
  unfold max_magnitude, STRTOL_LONG_MIN, STRTOL_LONG_MAX, ulw. destruct bits_cases as [[-> | ->] _]; destruct negative; reflexivity.
Qed.

(** Case analysis on the comparisons of the goal. *)
Ltac zcases :=
  repeat match goal with
         | |- context [?a <? ?b] => destruct (Z.ltb_spec a b)
         | |- context [?a <=? ?b] => destruct (Z.leb_spec a b)
         end; try lia; cbn [negb andb].

Lemma finish_spec negative i overflow N s : stands_for i overflow N ->
  finish A UNSIGNED QUAD negative i overflow s =
  let '(v, e) := IsoC.represent UNSIGNED bits negative N in StrtolResult v e (Some s).
Proof.
  intros [HN Hs]. unfold finish, IsoC.represent. rewrite max_magnitude_spec. unfold ulw, uwrap, STRTOL_ULONG_MAX, STRTOL_LONG_MIN, STRTOL_LONG_MAX in *.
  assert (2 ^ bits = 2 * 2 ^ (bits - 1)) as E by (destruct bits_cases as [[-> | ->] _]; reflexivity).
  assert (0 < 2 ^ (bits - 1)) by (destruct bits_cases as [[-> | ->] _]; reflexivity).
  assert (swrap bits ((- N) mod 2 ^ bits) = swrap bits (- N)) as Esw by (unfold swrap; rewrite Zplus_mod_idemp_l; reflexivity).
  destruct overflow; [|destruct Hs as [-> Hle]]; destruct UNSIGNED, negative; cbn [negb andb]; zcases;
    rewrite ?Esw, ?swrap_small by (destruct bits_cases; lia); reflexivity.
Qed.

Lemma sign_le l : ((IsoC.sign l).2 <= length l)%nat.
Proof. rewrite sign_head. destruct l as [|c l]; simpl; [lia|]. destruct (_ || _); lia. Qed.

Lemma prefix_le base l : ((IsoC.prefix base l).2 <= length l)%nat.
Proof. destruct (prefix_length base l) as [->|(-> & ? & _)]; lia. Qed.

Lemma strtol_l_empty {R} m nptr str base (k := IsoC.spaces (isspace loc) str) : drop k str = [] ->
  @noconv loc R m nptr nptr =
  Next (located nptr (let '(negative, k1) := IsoC.sign (drop k str) in
    let '(b, k2) := IsoC.prefix base (drop (k + k1) str) in
    let ds := IsoC.digits b (drop (k + k1 + k2) str) in
    match ds with
    | [] => (0, None, Some (if (k2 =? 2)%nat then (k + k1 + 1)%nat else O))
    | _ => let '(v, e) := IsoC.represent UNSIGNED bits negative (IsoC.number b ds) in (v, e, Some (k + k1 + k2 + length ds)%nat)
    end)).
Proof.
  intros Hd. rewrite Hd. cbn [IsoC.sign]. rewrite Nat.add_0_r, Hd, prefix_head. cbn [hd Z.eqb].
  unfold noconv. rewrite Z.sub_diag. cbn [Z.leb Z.compare].
  destruct (base =? 0); rewrite Nat.add_0_r, Hd; cbn; rewrite Z.add_0_r; reflexivity.
Qed.

Lemma strtol_l_spec {R} fuel m nptr str base :
  wf_mem m -> cstring m nptr str -> (length str < fuel)%nat ->
  @strtol_l A UNSIGNED QUAD loc R fuel m nptr base = Next (located nptr (IsoC.strtol UNSIGNED bits (isspace loc) str base)).
Proof.
  intros Hwf Hs Hf. unfold strtol_l, IsoC.strtol.
  destruct ((base <? 0) || (base =? 1) || (36 <? base)) eqn:Eb; [reflexivity|].
  apply orb_false_iff in Eb as [[Eb0%Z.ltb_ge Eb1%Z.eqb_neq]%orb_false_iff Eb2%Z.ltb_ge].
  rewrite (skip_space_spec str) by assumption. cbn [flow_bind]. set (k := IsoC.spaces (isspace loc) str).
  pose proof (spaces_le (isspace loc) str) as Hk. fold k in Hk. pose proof (cstring_drop _ _ _ k Hs Hk) as Hsk.
  rewrite (cstring_head _ _ _ Hsk). cbn [flow_bind]. destruct (Z.eqb_spec (hd 0 (drop k str)) 0) as [E0|E0].
  { apply strtol_l_empty. fold k. destruct Hsk as [_ Hnz]. destruct (drop k str); [reflexivity|]. apply Forall_cons in Hnz as [Hn _]. contradiction. }
  rewrite (read_sign_spec _ _ _ Hsk). pose proof (sign_le (drop k str)) as Hk1. rewrite length_drop in Hk1.
  destruct (IsoC.sign (drop k str)) as [negative k1] eqn:Esign. cbn [flow_bind snd] in *.
  pose proof (cstring_drop _ _ _ (k + k1) Hs ltac:(lia)) as Hs1. rewrite Nat2Z.inj_add, Z.add_assoc in Hs1.
  rewrite (read_prefix_spec _ _ _ _ Hwf Hs1). pose proof (prefix_le base (drop (k + k1) str)) as Hk2. rewrite length_drop in Hk2.
  pose proof (prefix_base base (drop (k + k1) str) ltac:(lia) Eb1) as Hb.
  destruct (IsoC.prefix base (drop (k + k1) str)) as [b k2] eqn:Eprefix. cbn [flow_bind fst snd] in *.
  pose proof (cstring_drop _ _ _ (k + k1 + k2) Hs ltac:(lia)) as Hs2.
  replace (nptr + Z.of_nat k + Z.of_nat k1 + Z.of_nat k2) with (nptr + Z.of_nat (k + k1 + k2)) by lia.
  destruct (digits_loop_spec (R := R) b (drop (k + k1 + k2) str) fuel m (nptr + Z.of_nat (k + k1 + k2)) Hb) as (i & o & -> & Hst);
    [eapply cstring_bytes; eassumption|apply Hs2|apply Hs2|rewrite length_drop; lia|]. cbn [flow_bind].
  destruct (IsoC.digits b (drop (k + k1 + k2) str)) as [|d ds]; cbn [length].
  - rewrite Z.add_0_r, Z.eqb_refl. subst k. rewrite (noconv_spec m nptr str k1 k2 base); rewrite ?Esign, ?Eprefix; auto with lia.
  - rewrite (proj2 (Z.eqb_neq _ _)) by lia. rewrite (finish_spec _ _ _ _ _ Hst).
    destruct (IsoC.represent _ _ _ _) as [v e]. cbn. do 3 f_equal. lia.
Qed.
End Proofs.

Lemma C_locale_ok : ctype_ok C_locale.
Proof.
  assert (forall c, isalpha C_locale c = true <-> 65 <= c <= 90 \/ 97 <= c <= 122) as Ha.
  { intros c. cbn. rewrite orb_true_iff, !andb_true_iff, !Z.leb_le. tauto. }
  assert (forall c, toupper C_locale c = c - 32 /\ 97 <= c <= 122 \/ toupper C_locale c = c /\ ~ (97 <= c <= 122)) as Hu.
  { intros c. cbn. destruct ((97 <=? c) && (c <=? 122)) eqn:E; [left|right; split; [reflexivity|]].
    - apply andb_true_iff in E. rewrite !Z.leb_le in E. auto.
    - intros Hc. apply andb_false_iff in E. rewrite !Z.leb_gt in E. lia. }
  split; try (intros c; destruct (Hu c) as [[-> ?]|[-> ?]]); rewrite ?Ha; try lia; [reflexivity| |];
    cbn; rewrite orb_true_iff, andb_true_iff, Z.eqb_eq, !Z.leb_le; lia.
Qed.

(** C18: strtol, strtoul, strtoll and strtoull agree with the definition of ISO C
    on every string, base and word size: the value of the longest digit sequence computed
    in unbounded integers, negated for a minus sign; ERANGE and the limit of the type
    exactly when that value does not fit, although the code only ever computes in the
    unsigned type; EINVAL for a base that is neither 0 nor 2 to 36; and the stored end
    pointer, which for a 0x without digits points at the x and without conversion at the
    start.  No byte after the terminating null is read and the loops end. *)
Theorem strtol_correct (A : arch) (UNSIGNED QUAD : bool) (loc : ctype) (fuel : nat) (m : mem) (nptr base : Z) (str : list Z) :
  ctype_ok loc -> wf_mem m -> cstring m nptr str -> (length str < fuel)%nat ->
  @strtol_l A UNSIGNED QUAD loc unit fuel m nptr base =
  Next (located nptr (IsoC.strtol UNSIGNED (LONG_bits A QUAD) (isspace loc) str base)).
Proof. intros. apply strtol_l_spec; assumption. Qed.

(** "-9223372036854775809" *)
Lemma strtol_witness :
  let str := [45; 57; 50; 50; 51; 51; 55; 50; 48; 51; 54; 56; 53; 52; 55; 55; 53; 56; 48; 57] in
  let m := mem_of 100 (str ++ [0]) in
  @strtol_l (Arch false true) false true C_locale unit 21 m 100 10 =
  Next (located 100 (IsoC.strtol false 64 (isspace C_locale) str 10)) /\
  IsoC.strtol false 64 (isspace C_locale) str 10 = (-9223372036854775808, Some STRTOL_ERANGE, Some 20%nat).
Proof.
  intros str m. split; [|vm_compute; reflexivity].
  apply (strtol_correct (Arch false true) false true C_locale 21 m 100 10 str).
  - exact C_locale_ok.
  - apply mem_of_wf. repeat constructor; unfold is_byte; lia.
  - split; [apply mem_of_at; [lia|reflexivity]|repeat constructor; discriminate].
  - vm_compute. lia.
Defined.
