(* ===== verification/Gconv.v ===== *)
(** Character conversion, the frame: the data of iconv/gconv.h and the loops that iconv/loop.c generates
    around the body of a converter, for a whole buffer and for one character that began in an earlier call.

    The model is of LP64 targets: [size_t] and pointers have 64 bits, and of the architecture only the byte order matters here.
    Buffers hold bytes; a loop for aligned buffers reads and stores a word as its bytes in the order of the
    machine. *)
From S2P Require Import Prelude CMem Byteswap.

(** * Runs *)

(** A run gives a value, fails an assertion, reads or writes outside of a buffer, or does not end within the
    fuel of a loop. *)
Inductive run (T : Type) : Type :=
| Done (x : T)
| Assert_failed
| Wild
| Spin.
Arguments Done {T} _.
Arguments Assert_failed {T}.
Arguments Wild {T}.
Arguments Spin {T}.

#[export] Instance run_ret : MRet run := fun T x => Done x.
#[export] Instance run_bind : MBind run := fun T U k c =>
  match c with
  | Done x => k x
  | Assert_failed => Assert_failed
  | Wild => Wild
  | Spin => Spin
  end.

Definition assert_ (b : bool) : run () := if b then Done () else Assert_failed.

(** An access that is in bounds when [b] holds. *)
Definition bounds_ (b : bool) : run () := if b then Done () else Wild.

Definition from_option_run {T} (o : option T) : run T := match o with Some x => Done x | None => Wild end.

(** * gconv.h *)

Inductive status :=
| GCONV_OK | GCONV_NOCONV | GCONV_NODB | GCONV_NOMEM
| GCONV_EMPTY_INPUT | GCONV_FULL_OUTPUT | GCONV_ILLEGAL_INPUT | GCONV_INCOMPLETE_INPUT
| GCONV_ILLEGAL_DESCRIPTOR | GCONV_INTERNAL_ERROR.

#[export] Instance status_eq_dec : EqDecision status.
Proof. solve_decision. Defined.

Definition GCONV_IS_LAST : Z := 0x0001.
Definition GCONV_IGNORE_ERRORS : Z := 0x0002.

(** The shift state, [__mbstate_t]: the bytes of [__value] are [__wchb]. *)
Record mbstate := Mbs { ms_count : Z; ms_value : list Z }.

Definition wch (A : arch) (s : mbstate) : Z := uint_val A (ms_value s).

(** [struct __gconv_trans_data].  A transliteration function gets its data, the input before and after the
    read position, the room of the output and the count of irreversible conversions; it gives a status, the
    bytes it took, the bytes it stored and the count. *)
Record trans (D : Type) := Trans {
  trans_data : D;
  trans_fct : D -> list Z -> list Z -> Z -> Z -> D * (status * nat * list Z * Z);
  trans_context_fct : option (D -> list Z -> list Z -> D)
}.
Arguments Trans {D} _ _ _.
Arguments trans_data {D} _.
Arguments trans_fct {D} _ _ _ _ _ _.
Arguments trans_context_fct {D} _.

Definition with_trans_data {D} (t : trans D) (d : D) : trans D := Trans d (trans_fct t) (trans_context_fct t).

(** [struct __gconv_step_data].  [outbuf] and [outbufend] are addresses; [written] are the bytes that the
    step stored up to [outbuf]. *)
Record step_data (D : Type) := StepData {
  outbuf : Z; outbufend : Z; written : list Z;
  flags : Z; invocation_counter : Z; statep : mbstate; transs : list (trans D)
}.
Arguments StepData {D} _ _ _ _ _ _ _.
Arguments outbuf {D} _.
Arguments outbufend {D} _.
Arguments written {D} _.
Arguments flags {D} _.
Arguments invocation_counter {D} _.
Arguments statep {D} _.
Arguments transs {D} _.

Definition is_last {D} (d : step_data D) : bool := negb (Z.land (flags d) GCONV_IS_LAST =? 0).

(** * The loop of loop.c *)

(** The variables of the loop function.  The input from [*inptrp] to [inend] is [consumed ++ rest], with
    [inptr] between the two; [produced] was stored from [*outptrp] to [outptr], and [room] is
    [outend - outptr].  [irrev] is [*irreversible], or nothing for a null pointer. *)
Record lst (D : Type) := Lst {
  consumed : list Z; rest : list Z; produced : list Z; room : Z;
  irrev : option Z; result : status; ltrans : list (trans D)
}.
Arguments Lst {D} _ _ _ _ _ _ _.
Arguments consumed {D} _.
Arguments rest {D} _.
Arguments produced {D} _.
Arguments room {D} _.
Arguments irrev {D} _.
Arguments result {D} _.
Arguments ltrans {D} _.

(** What the body of the loop does: [Go] is [continue] or the end of the body. *)
Inductive ctl := Go | Break.

Section Frame.
Context {D : Type} (fl : Z).
Abbreviation lst := (lst D).
Abbreviation trans := (trans D).

Definition set_result (s : status) (st : lst) : lst :=
  Lst (consumed st) (rest st) (produced st) (room st) (irrev st) s (ltrans st).

(** [inptr += n] *)
Definition advance (n : nat) (st : lst) : run lst :=
  bounds_ (n <=? length (rest st))%nat;;
  mret (Lst (consumed st ++ take n (rest st)) (drop n (rest st)) (produced st) (room st) (irrev st) (result st) (ltrans st)).

(** Store [bs] at [outptr] and move it. *)
Definition emit (bs : list Z) (st : lst) : run lst :=
  bounds_ (Z.of_nat (length bs) <=? room st);;
  mret (Lst (consumed st) (rest st) (produced st ++ bs) (room st - Z.of_nat (length bs)) (irrev st) (result st) (ltrans st)).

(** [inptr[i]] *)
Definition inbyte (st : lst) (i : nat) : run Z := from_option_run (rest st !! i).

(** The [n] bytes at [inptr]. *)
Definition inbytes (st : lst) (n : nat) : run (list Z) := bounds_ (n <=? length (rest st))%nat;; mret (take n (rest st)).

(** [++*irreversible], a [size_t] *)
Definition bump (st : lst) : lst :=
  Lst (consumed st) (rest st) (produced st) (room st) ((fun n => u64 (n + 1)) <$> irrev st) (result st) (ltrans st).

Definition ignore_errors_p (st : lst) : bool :=
  bool_decide (is_Some (irrev st)) && negb (Z.land fl GCONV_IGNORE_ERRORS =? 0).

Definition STANDARD_FROM_LOOP_ERR_HANDLER (incr : nat) (st : lst) : run (ctl * lst) :=
  let st := set_result GCONV_ILLEGAL_INPUT st in
  if negb (ignore_errors_p st) then mret (Break, st)
  else st ← advance incr st; mret (Go, bump st).

(** The transliteration functions in turn, until one recognizes the input. *)
Fixpoint try_trans (ts : list trans) (st : lst) : run (list trans * lst) :=
  match ts with
  | [] => mret ([], st)
  | t :: ts =>
      match irrev st with
      | None => Wild
      | Some n =>
          let '(d, (s, taken, out, n)) := trans_fct t (trans_data t) (consumed st) (rest st) (room st) n in
          st ← advance taken st;
          st ← emit out st;
          let st := Lst (consumed st) (rest st) (produced st) (room st) (Some n) s (ltrans st) in
          if decide (s = GCONV_ILLEGAL_INPUT)
          then '(ts, st) ← try_trans ts st; mret (with_trans_data t d :: ts, st)
          else mret (with_trans_data t d :: ts, st)
      end
  end.

Definition STANDARD_TO_LOOP_ERR_HANDLER (incr : nat) (st : lst) : run (ctl * lst) :=
  let st := set_result GCONV_ILLEGAL_INPUT st in
  if decide (irrev st = None) then mret (Break, st)
  else
    '(ts, st) ← try_trans (ltrans st) st;
    let st := Lst (consumed st) (rest st) (produced st) (room st) (irrev st) (result st) ts in
    if decide (result st = GCONV_ILLEGAL_INPUT) then
      if negb (ignore_errors_p st) then mret (Break, st)
      else st ← advance incr (bump st); mret (Go, st)
    else if decide (result st = GCONV_FULL_OUTPUT) then mret (Break, st)
    else mret (Go, st).

(** Characters in the range U+E0000..U+E007F are dropped; otherwise [k] continues. *)
Definition UNICODE_TAG_HANDLER (character : Z) (incr : nat) (st : lst) (k : lst -> run (ctl * lst)) : run (ctl * lst) :=
  if Z.shiftr character 7 =? Z.shiftr 0xe0000 7 then st ← advance incr st; mret (Go, st) else k st.

(** LOOPFCT *)
Section Loop.
Context (min_in : nat) (min_out : Z) (body : lst -> run (ctl * lst)).

Fixpoint loop (fuel : nat) (st : lst) : run lst :=
  match fuel with
  | O => Spin
  | S fuel =>
      match rest st with
      | [] => mret st
      | _ :: _ =>
          if (1 <? min_in)%nat && (length (rest st) <? min_in)%nat then mret (set_result GCONV_INCOMPLETE_INPUT st)
          else if room st <? min_out then mret (set_result GCONV_FULL_OUTPUT st)
          else
            '(c, st) ← body st;
            match c with Break => mret st | Go => loop fuel st end
      end
  end.

Definition LOOPFCT (ts : list trans) (input : list Z) (space : Z) (irreversible : option Z) : run lst :=
  loop (S (length input)) (Lst [] input [] space irreversible GCONV_EMPTY_INPUT ts).
End Loop.

(** * One character: SINGLE(LOOPFCT) *)

(** Store [bs] in [state->__value.__wchb] from index [i] on. *)
Definition wchb_store (i : nat) (bs : list Z) (v : list Z) : run (list Z) :=
  bounds_ ((length bs =? 0) || (i + length bs <=? 4))%nat;; mret (take i v ++ bs ++ drop (i + length bs) v).

(** The macros a converter may provide: [UNPACK_BYTES] gives the bytes that the state holds, [STORE_REST] puts
    the bytes of an incomplete character in it. *)
Record rest_ops := RestOps {
  UNPACK_BYTES : mbstate -> run (list Z);
  STORE_REST : list Z -> mbstate -> run mbstate;
  CLEAR_STATE : mbstate -> mbstate
}.

Definition nbytes (s : mbstate) : nat := Z.to_nat (Z.land (ms_count s) 7).

Section Single.
Context (min_in max_in : nat) (min_out : Z) (body : lst -> run (ctl * lst)) (ops : option rest_ops).

Definition unpack_state (state : mbstate) : run (list Z) :=
  match ops with
  | Some o => UNPACK_BYTES o state
  | None => assert_ (nbytes state <=? 4)%nat;; mret (take (nbytes state) (ms_value state))
  end.

(** Too few bytes for another character: the input is used up. *)
Definition single_short (bytebuf : list Z) (state : mbstate) (ts : list trans) (input : list Z) (space : Z)
    (irreversible : option Z) : run (lst * mbstate) :=
  state ← match ops with
          | Some o => bounds_ (length bytebuf + length input <=? max_in)%nat;; STORE_REST o (bytebuf ++ input) state
          | None => v ← wchb_store (length bytebuf) input (ms_value state); mret (Mbs (ms_count state) v)
          end;
  mret (Lst input [] [] space irreversible GCONV_INCOMPLETE_INPUT ts, state).

(** The character is still incomplete: [bytes] are all that is known of it. *)
Definition single_incomplete (bytes : list Z) (state : mbstate) : run mbstate :=
  assert_ (negb (length bytes =? max_in)%nat);;
  match ops with
  | Some o => STORE_REST o bytes state
  | None =>
      assert_ (Z.ldiff (ms_count state) 7 <? Z.of_nat (length bytes));;
      assert_ (length bytes <=? 4)%nat;;
      v ← wchb_store 0 bytes (ms_value state);
      mret (Mbs (Z.lor (Z.ldiff (ms_count state) 7) (Z.of_nat (length bytes))) v)
  end.

Definition clear_state (state : mbstate) : mbstate :=
  match ops with
  | Some o => CLEAR_STATE o state
  | None => Mbs (Z.ldiff (ms_count state) 7) (ms_value state)
  end.

Definition SINGLE (state : mbstate) (ts : list trans) (input : list Z) (space : Z) (irreversible : option Z) : run (lst * mbstate) :=
  bytebuf ← unpack_state state;
  let inlen := length bytebuf in
  bounds_ (inlen <=? max_in)%nat;;
  if (1 <? min_in)%nat && (Z.of_nat (length input) <? Z.of_nat min_in - Z.of_nat inlen)
  then single_short bytebuf state ts input space irreversible
  else if space <? min_out then mret (Lst [] input [] space irreversible GCONV_FULL_OUTPUT ts, state)
  else
    (* Now add characters from the normal input buffer, at least one. *)
    bounds_ ((1 <=? length input)%nat && (inlen <? max_in)%nat);;
    let bytes := bytebuf ++ take (max_in - inlen) input in
    '(_, st) ← body (Lst [] bytes [] space irreversible GCONV_OK ts);
    if (0 <? length (consumed st))%nat then
      assert_ (nbytes state <? length (consumed st))%nat;;
      let n := (length (consumed st) - nbytes state)%nat in
      mret (Lst (take n input) (drop n input) (produced st) (room st) (irrev st) GCONV_OK (ltrans st), clear_state state)
    else if decide (result st = GCONV_INCOMPLETE_INPUT) then
      state' ← single_incomplete bytes state;
      let n := (length bytes - nbytes state)%nat in
      mret (Lst (take n input) (drop n input) [] space (irrev st) GCONV_INCOMPLETE_INPUT (ltrans st), state')
    else mret (Lst [] input [] space (irrev st) (result st) (ltrans st), state).
End Single.
End Frame.
