(* ===== verification/GconvSimple.v ===== *)
(** Character conversion, the built-in converters of iconv/gconv_simple.c: the bodies of the loops between the
    internal 32-bit form and ASCII, UTF-8 and UCS-2, and the loops for UCS-4. *)
From S2P Require Import Prelude CMem Byteswap Gconv.

(** A converter as iconv/skeleton.c uses it: the sizes of the characters on both sides, the loop, its version
    for unaligned buffers, the function for one character, and the macro [STORE_REST] if there is one. *)
Record conv (D : Type) := Conv {
  MIN_NEEDED_FROM : Z; MAX_NEEDED_FROM : Z; MIN_NEEDED_TO : Z; MAX_NEEDED_TO : Z;
  FROM_LOOP : step_data D -> list Z -> Z -> option Z -> run (lst D);
  FROM_LOOP_unaligned : step_data D -> list Z -> Z -> option Z -> run (lst D);
  FROM_LOOP_single : step_data D -> list Z -> Z -> option Z -> run (lst D * mbstate);
  CONV_STORE_REST : option (list Z -> mbstate -> run mbstate)
}.
Arguments Conv {D} _ _ _ _ _ _ _ _.
Arguments MIN_NEEDED_FROM {D} _.
Arguments MAX_NEEDED_FROM {D} _.
Arguments MIN_NEEDED_TO {D} _.
Arguments MAX_NEEDED_TO {D} _.
Arguments FROM_LOOP {D} _ _ _ _ _.
Arguments FROM_LOOP_unaligned {D} _ _ _ _ _.
Arguments FROM_LOOP_single {D} _ _ _ _ _.
Arguments CONV_STORE_REST {D} _.

Definition WEOF : Z := 0xffffffff.

Definition gconv_btwoc_ascii (c : Z) : Z := if c <? 0x80 then c else WEOF.

Section Simple.
Context {D : Type} (A : arch).
Abbreviation lst := (lst D).

(** [*((const uint32_t * ) inptr)], [get16 (inptr)] and the stores of such integers. *)
Definition get32 (st : lst) : run Z := bs ← inbytes st 4; mret (uint_val A bs).
Definition get16 (st : lst) : run Z := bs ← inbytes st 2; mret (uint_val A bs).
Definition put32 (v : Z) (st : lst) : run lst := emit (uint_bytes A 4 (u32 v)) st.
Definition put16 (v : Z) (st : lst) : run lst := emit (uint_bytes A 2 (uwrap 16 v)) st.

(** [__bswap_constant_16] *)
Definition bswap_16 (x : Z) : Z := uwrap 16 (Z.lor (Z.land (Z.shiftr x 8) 0xff) (Z.shiftl (Z.land x 0xff) 8)).

(** * ASCII *)

Definition ascii_internal_body (fl : Z) (st : lst) : run (ctl * lst) :=
  ch ← inbyte st 0;
  if 0x7f <? ch then STANDARD_FROM_LOOP_ERR_HANDLER fl 1 st
  else st ← put32 ch st; st ← advance 1 st; mret (Go, st).

Definition internal_ascii_body (fl : Z) (st : lst) : run (ctl * lst) :=
  ch ← get32 st;
  if 0x7f <? ch then UNICODE_TAG_HANDLER ch 4 st (STANDARD_TO_LOOP_ERR_HANDLER fl 4)
  else st ← emit [u8 ch] st; st ← advance 4 st; mret (Go, st).

(** * UTF-8 *)

(** for (step = 2; step < 6; ++step) if ((wc & (~(uint32_t)0 << (5 * step + 1))) == 0) break; *)
Fixpoint utf8_step (n : nat) (wc step : Z) : Z :=
  match n with
  | O => step
  | S n => if Z.land wc (u32 (Z.shiftl 0xffffffff (5 * step + 1))) =? 0 then step else utf8_step n wc (step + 1)
  end.

(** do { start[--step] = 0x80 | (wc & 0x3f); wc >>= 6; } while (step > 1); *)
Fixpoint utf8_trail (step : nat) (wc : Z) (start : list Z) : Z * list Z :=
  match step with
  | S (S _ as step) => utf8_trail step (Z.shiftr wc 6) (<[step := Z.lor 0x80 (Z.land wc 0x3f)]> start)
  | _ => (wc, start)
  end.

Definition utf8_sequence (wc step : Z) : list Z :=
  let start := u8 (Z.shiftr (Z.lnot 0xff) step) :: replicate (Z.to_nat step - 1) 0 in
  let '(wc, start) := utf8_trail (Z.to_nat step) wc start in
  match start with b :: tl => Z.lor b wc :: tl | [] => [] end.

Definition internal_utf8_body (fl : Z) (st : lst) : run (ctl * lst) :=
  wc ← get32 st;
  if wc <? 0x80 then st ← emit [u8 wc] st; st ← advance 4 st; mret (Go, st)
  else if wc <=? 0x7fffffff then
    let step := utf8_step 4 wc 2 in
    if room st <? step then mret (Break, set_result GCONV_FULL_OUTPUT st)
    else st ← emit (utf8_sequence wc step) st; st ← advance 4 st; mret (Go, st)
  else STANDARD_TO_LOOP_ERR_HANDLER fl 4 st.

(** The first byte of a sequence of several bytes: their number, and the bits it contributes. *)
Definition utf8_lead (ch : Z) : option (nat * Z) :=
  if (0xc2 <=? ch) && (ch <? 0xe0) then Some (2%nat, Z.land ch 0x1f)
  else if Z.land ch 0xf0 =? 0xe0 then Some (3%nat, Z.land ch 0x0f)
  else if Z.land ch 0xf8 =? 0xf0 then Some (4%nat, Z.land ch 0x07)
  else if Z.land ch 0xfc =? 0xf8 then Some (5%nat, Z.land ch 0x03)
  else if Z.land ch 0xfe =? 0xfc then Some (6%nat, Z.land ch 0x01)
  else None.

Definition is_trail (b : Z) : bool := Z.land b 0xc0 =? 0x80.

(** do ++i; while (inptr + i < inend && ( *(inptr + i) & 0xc0) == 0x80 && i < 5); *)
Fixpoint illformed_end (fuel : nat) (input : list Z) (i : nat) : nat :=
  match fuel with
  | O => i
  | S fuel =>
      let i := S i in
      match input !! i with
      | Some b => if is_trail b && (i <? 5)%nat then illformed_end fuel input i else i
      | None => i
      end
  end.

(** for (i = 1; inptr + i < inend; ++i) if ((inptr[i] & 0xc0) != 0x80) break; *)
Fixpoint trail_end (input : list Z) (i : nat) : nat :=
  match input with
  | [] => i
  | b :: input => if is_trail b then trail_end input (S i) else i
  end.

(** for (i = 1; i < cnt; ++i): the bits of the trail bytes, up to the first that is none. *)
Fixpoint read_trail (n : nat) (st : lst) (i : nat) (ch : Z) : run (nat * Z) :=
  match n with
  | O => mret (i, ch)
  | S n =>
      byte ← inbyte st i;
      if negb (is_trail byte) then mret (i, ch)
      else read_trail n st (S i) (Z.lor (u32 (Z.shiftl ch 6)) (Z.land byte 0x3f))
  end.

Definition utf8_store (ch : Z) (st : lst) : run (ctl * lst) := st ← put32 ch st; mret (Go, st).

(** A sequence of [cnt] bytes, whose first contributes [ch]. *)
Definition utf8_multibyte (fl : Z) (st : lst) (cnt : nat) (ch : Z) : run (ctl * lst) :=
  if (length (rest st) <? cnt)%nat then
    let i := trail_end (drop 1 (rest st)) 1 in
    if (i =? length (rest st))%nat then mret (Break, set_result GCONV_INCOMPLETE_INPUT st)
    else STANDARD_FROM_LOOP_ERR_HANDLER fl i st
  else
    '(i, ch) ← read_trail (cnt - 1) st 1 ch;
    if (i <? cnt)%nat || ((2 <? cnt)%nat && (Z.shiftr ch (5 * Z.of_nat cnt - 4) =? 0))
       || ((0xd800 <=? ch) && (ch <=? 0xdfff))
    then STANDARD_FROM_LOOP_ERR_HANDLER fl i st
    else st ← advance cnt st; utf8_store ch st.

Definition utf8_internal_body (fl : Z) (st : lst) : run (ctl * lst) :=
  ch ← inbyte st 0;
  if ch <? 0x80 then st ← advance 1 st; utf8_store ch st
  else
    match utf8_lead ch with
    | None => STANDARD_FROM_LOOP_ERR_HANDLER fl (illformed_end 5 (rest st) 0) st
    | Some (cnt, ch) => utf8_multibyte fl st cnt ch
    end.

(** The first byte in [STORE_REST], which takes what is left for a sequence of six bytes. *)
Definition utf8_lead_rest (ch : Z) : nat * Z :=
  if (0xc2 <=? ch) && (ch <? 0xe0) then (2%nat, Z.land ch 0x1f)
  else if Z.land ch 0xf0 =? 0xe0 then (3%nat, Z.land ch 0x0f)
  else if Z.land ch 0xf8 =? 0xf0 then (4%nat, Z.land ch 0x07)
  else if Z.land ch 0xfc =? 0xf8 then (5%nat, Z.land ch 0x03)
  else (6%nat, Z.land ch 0x01).

Fixpoint rest_bits (bs : list Z) (ch r : Z) : Z * Z :=
  match bs with
  | [] => (ch, r)
  | b :: bs => rest_bits bs (Z.lor (u32 (Z.shiftl ch 6)) (Z.land b 0x3f)) (u64 (r - 1))
  end.

Definition utf8_store_rest (bytes : list Z) (state : mbstate) : run mbstate :=
  match bytes with
  | [] => Wild
  | ch :: tl =>
      assert_ (negb (ch =? 0xc0) && negb (ch =? 0xc1));;
      let '(cnt, ch) := utf8_lead_rest ch in
      let '(ch, r) := rest_bits tl ch (Z.of_nat cnt - 1) in
      mret (Mbs (Z.lor (Z.of_nat (length bytes)) (Z.shiftl (Z.of_nat cnt) 8)) (uint_bytes A 4 (u32 (Z.shiftl ch (u64 (r * 6))))))
  end.

Definition inmask : list Z := [0xc0; 0xe0; 0xf0; 0xf8; 0xfc].

(** do { if (--ntotal < inlen) bytebuf[ntotal] = 0x80 | (wch & 0x3f); wch >>= 6; } while (ntotal > 1); *)
Fixpoint unpack_trail (ntotal inlen : nat) (wch : Z) (bytebuf : list Z) : Z * list Z :=
  match ntotal with
  | S (S _ as ntotal) =>
      unpack_trail ntotal inlen (Z.shiftr wch 6)
        (if (ntotal <? inlen)%nat then <[ntotal := Z.lor 0x80 (Z.land wch 0x3f)]> bytebuf else bytebuf)
  | _ => (wch, bytebuf)
  end.

Definition utf8_unpack_bytes (state : mbstate) : run (list Z) :=
  let ntotal := Z.to_nat (Z.shiftr (ms_count state) 8) in
  let inlen := Z.to_nat (Z.land (ms_count state) 255) in
  b ← from_option_run (if (2 <=? ntotal)%nat then inmask !! (ntotal - 2)%nat else None);
  bounds_ (inlen <=? 6)%nat;;
  let '(w, bytebuf) := unpack_trail ntotal inlen (wch A state) (b :: replicate 5 0) in
  mret (take inlen (match bytebuf with b :: tl => Z.lor b w :: tl | [] => [] end)).

Definition utf8_rest_ops : rest_ops := RestOps utf8_unpack_bytes utf8_store_rest (fun s => Mbs 0 (ms_value s)).

(** * UCS-2 *)

Definition is_surrogate (v : Z) : bool := (0xd800 <=? v) && (v <? 0xe000).

Definition ucs2_internal_body (fl : Z) (st : lst) : run (ctl * lst) :=
  u1 ← get16 st;
  if is_surrogate u1 then STANDARD_FROM_LOOP_ERR_HANDLER fl 2 st
  else st ← put32 u1 st; st ← advance 2 st; mret (Go, st).

Definition internal_ucs2_body (fl : Z) (st : lst) : run (ctl * lst) :=
  val ← get32 st;
  if 0x10000 <=? val then UNICODE_TAG_HANDLER val 4 st (STANDARD_TO_LOOP_ERR_HANDLER fl 4)
  else if is_surrogate val then
    let st := set_result GCONV_ILLEGAL_INPUT st in
    if negb (ignore_errors_p fl st) then mret (Break, st)
    else st ← advance 4 st; mret (Go, bump st)
  else st ← put16 val st; st ← advance 4 st; mret (Go, st).

Definition ucs2reverse_internal_body (fl : Z) (st : lst) : run (ctl * lst) :=
  u1 ← get16 st;
  let u1 := bswap_16 u1 in
  if is_surrogate u1 then
    if negb (ignore_errors_p fl st) then mret (Break, set_result GCONV_ILLEGAL_INPUT st)
    else st ← advance 2 st; mret (Go, bump st)
  else st ← put32 u1 st; st ← advance 2 st; mret (Go, st).

Definition internal_ucs2reverse_body (fl : Z) (st : lst) : run (ctl * lst) :=
  val ← get32 st;
  if 0x10000 <=? val then UNICODE_TAG_HANDLER val 4 st (STANDARD_TO_LOOP_ERR_HANDLER fl 4)
  else if is_surrogate val then
    if negb (ignore_errors_p fl st) then mret (Break, set_result GCONV_ILLEGAL_INPUT st)
    else st ← advance 4 st; mret (Go, bump st)
  else st ← put16 (bswap_16 val) st; st ← advance 4 st; mret (Go, st).

(** * UCS-4 *)

(** MIN (inend - inptr, outend - outptr) / 4 *)
Definition n_convert (input : list Z) (space : Z) : nat := Z.to_nat (Z.min (Z.of_nat (length input)) space / 4).

Definition byteswapped (w : list Z) : list Z := uint_bytes A 4 (bswap_32 (uint_val A w)).

(** outptr[0] = inptr[3]; ... outptr[3] = inptr[0]; *)
Definition reversed (w : list Z) : list Z := rev w.

Fixpoint each_word (n : nat) (f : list Z -> list Z) (input : list Z) : list Z :=
  match n with
  | O => []
  | S n => f (take 4 input) ++ each_word n f (drop 4 input)
  end.

(** Convert as many words as both buffers allow, [f] giving the bytes of one. *)
Definition copy_words (f : list Z -> list Z) (d : step_data D) (input : list Z) (space : Z) (irreversible : option Z) : lst :=
  let n := n_convert input space in
  Lst (take (4 * n) input) (drop (4 * n) input) (each_word n f input) (space - 4 * Z.of_nat n) irreversible GCONV_OK (transs d).

(** Determine the status: a full output first, or an incomplete input first. *)
Definition status_full_first (st : lst) : lst :=
  set_result (match rest st with
              | [] => GCONV_EMPTY_INPUT
              | _ => if room st <? 4 then GCONV_FULL_OUTPUT else GCONV_INCOMPLETE_INPUT
              end) st.

Definition status_incomplete_first (st : lst) : run lst :=
  match rest st with
  | [] => mret (set_result GCONV_EMPTY_INPUT st)
  | _ => if (length (rest st) <? 4)%nat then mret (set_result GCONV_INCOMPLETE_INPUT st)
         else assert_ (room st <? 4);; mret (set_result GCONV_FULL_OUTPUT st)
  end.

Definition internal_ucs4_loop (d : step_data D) (input : list Z) (space : Z) (irr : option Z) : run lst :=
  mret (status_full_first (copy_words (if big_endian A then id else byteswapped) d input space irr)).

Definition internal_ucs4_loop_unaligned (d : step_data D) (input : list Z) (space : Z) (irr : option Z) : run lst :=
  mret (status_full_first (copy_words (if big_endian A then id else reversed) d input space irr)).

Definition internal_ucs4le_loop (d : step_data D) (input : list Z) (space : Z) (irr : option Z) : run lst :=
  mret (status_full_first (copy_words (if big_endian A then byteswapped else id) d input space irr)).

Definition internal_ucs4le_loop_unaligned (d : step_data D) (input : list Z) (space : Z) (irr : option Z) : run lst :=
  status_incomplete_first (copy_words (if big_endian A then reversed else id) d input space irr).

(** The word that the state holds with the bytes of the input added, and what is left if it is complete. *)
Definition collect (state : mbstate) (input : list Z) : run (nat * nat * mbstate) :=
  let cnt := nbytes state in
  let k := Nat.min (4 - cnt) (length input) in
  v ← wchb_store cnt (take k input) (ms_value state);
  mret (k, cnt + k, Mbs (ms_count state) v)%nat.

Definition ucs4_incomplete (k cnt : nat) (state : mbstate) (d : step_data D) (input : list Z) (space : Z) (irr : option Z) : lst * mbstate :=
  (Lst (take k input) (drop k input) [] space irr GCONV_INCOMPLETE_INPUT (transs d),
   Mbs (Z.lor (Z.ldiff (ms_count state) 7) (Z.of_nat cnt)) (ms_value state)).

Definition cleared (state : mbstate) : mbstate := Mbs (Z.ldiff (ms_count state) 7) (ms_value state).

(** Store the four bytes and clear the state. *)
Definition ucs4_stored (f : list Z -> list Z) (k : nat) (state : mbstate) (d : step_data D) (input : list Z) (space : Z) (irr : option Z) : run (lst * mbstate) :=
  st ← emit (f (ms_value state)) (Lst (take k input) (drop k input) [] space irr GCONV_OK (transs d));
  mret (st, cleared state).

Definition copy_single (f : list Z -> list Z) (d : step_data D) (input : list Z) (space : Z) (irr : option Z) : run (lst * mbstate) :=
  '(k, cnt, state) ← collect (statep d) input;
  if (cnt <? 4)%nat then mret (ucs4_incomplete k cnt state d input space irr)
  else ucs4_stored f k state d input space irr.

Definition internal_ucs4_loop_single : step_data D -> list Z -> Z -> option Z -> run (lst * mbstate) :=
  copy_single (if big_endian A then id else reversed).

Definition internal_ucs4le_loop_single : step_data D -> list Z -> Z -> option Z -> run (lst * mbstate) :=
  copy_single (if big_endian A then reversed else id).

(** Words whose value is too large are illegal: the loop stops at one, or counts and skips it. *)
Fixpoint check_words (fl : Z) (n : nat) (bad : list Z -> bool) (f : list Z -> list Z) (st : lst) : run (bool * lst) :=
  match n with
  | O => mret (false, st)
  | S n =>
      w ← inbytes st 4;
      if bad w then
        if negb (ignore_errors_p fl st) then mret (true, st)
        else st ← advance 4 (bump st); check_words fl n bad f st
      else st ← emit (f w) st; st ← advance 4 st; check_words fl n bad f st
  end.

Definition check_start (d : step_data D) (input : list Z) (space : Z) (irr : option Z) : lst :=
  Lst [] input [] space irr GCONV_OK (transs d).

(** return __GCONV_ILLEGAL_INPUT without a change of the pointers *)
Definition illegal_unmoved (d : step_data D) (input : list Z) (space : Z) (st : lst) : lst :=
  Lst [] input [] space (irrev st) GCONV_ILLEGAL_INPUT (transs d).

(** The value of a big endian and of a little endian word. *)
Definition be_word (w : list Z) : Z := if big_endian A then uint_val A w else bswap_32 (uint_val A w).
Definition le_word (w : list Z) : Z := if big_endian A then bswap_32 (uint_val A w) else uint_val A w.

Definition word_byte (i : nat) (w : list Z) : Z := nth i w 0.

Definition ucs4_internal_loop (d : step_data D) (input : list Z) (space : Z) (irr : option Z) : run lst :=
  '(illegal, st) ← check_words (flags d) (n_convert input space) (fun w => 0x7fffffff <? be_word w)
                     (fun w => uint_bytes A 4 (be_word w)) (check_start d input space irr);
  if illegal : bool then
    if decide (irr = None) then mret (illegal_unmoved d input space st) else mret (set_result GCONV_ILLEGAL_INPUT st)
  else mret (status_full_first st).

Definition ucs4_internal_loop_unaligned (d : step_data D) (input : list Z) (space : Z) (irr : option Z) : run lst :=
  '(illegal, st) ← check_words (flags d) (n_convert input space) (fun w => 0x80 <? word_byte 0 w)
                     (if big_endian A then id else reversed) (check_start d input space irr);
  if illegal : bool then
    if decide (irr = None) then mret (illegal_unmoved d input space st) else mret (set_result GCONV_ILLEGAL_INPUT st)
  else mret (status_full_first st).

Definition ucs4le_internal_loop (d : step_data D) (input : list Z) (space : Z) (irr : option Z) : run lst :=
  '(illegal, st) ← check_words (flags d) (n_convert input space) (fun w => 0x7fffffff <? le_word w)
                     (fun w => uint_bytes A 4 (le_word w)) (check_start d input space irr);
  if illegal : bool then mret (illegal_unmoved d input space st)
  else status_incomplete_first st.

Definition ucs4le_internal_loop_unaligned (d : step_data D) (input : list Z) (space : Z) (irr : option Z) : run lst :=
  '(illegal, st) ← check_words (flags d) (n_convert input space) (fun w => 0x80 <? word_byte 3 w)
                     (if big_endian A then reversed else id) (check_start d input space irr);
  if illegal : bool then
    if decide (irr = None) then mret (illegal_unmoved d input space st) else mret (set_result GCONV_ILLEGAL_INPUT st)
  else status_incomplete_first st.

Definition ignoring (d : step_data D) : bool := negb (Z.land (flags d) GCONV_IGNORE_ERRORS =? 0).

Definition ucs4_internal_loop_single (d : step_data D) (input : list Z) (space : Z) (irr : option Z) : run (lst * mbstate) :=
  '(k, cnt, state) ← collect (statep d) input;
  if (cnt <? 4)%nat then mret (ucs4_incomplete k cnt state d input space irr)
  else if 0x80 <? word_byte 0 (ms_value state) then
    if negb (ignoring d) then mret (Lst [] input [] space irr GCONV_ILLEGAL_INPUT (transs d), state)
    else mret (Lst (take k input) (drop k input) [] space irr GCONV_OK (transs d), cleared state)
  else ucs4_stored (if big_endian A then id else reversed) k state d input space irr.

Definition ucs4le_internal_loop_single (d : step_data D) (input : list Z) (space : Z) (irr : option Z) : run (lst * mbstate) :=
  '(k, cnt, state) ← collect (statep d) input;
  if (cnt <? 4)%nat then mret (ucs4_incomplete k cnt state d input space irr)
  else if 0x80 <? word_byte 3 (ms_value state) then
    if negb (ignoring d) then mret (Lst (take k input) (drop k input) [] space irr GCONV_ILLEGAL_INPUT (transs d), state)
    else mret (Lst (take k input) (drop k input) [] space irr GCONV_OK (transs d), cleared state)
  else ucs4_stored (if big_endian A then reversed else id) k state d input space irr.

(** * The converters *)

Definition body_conv (min_from max_from min_to max_to : Z) (body : Z -> lst -> run (ctl * lst)) (ops : option rest_ops) : conv D :=
  let f d := LOOPFCT (Z.to_nat min_from) min_to (body (flags d)) (transs d) in
  Conv min_from max_from min_to max_to f f
    (fun d => SINGLE (Z.to_nat min_from) (Z.to_nat max_from) min_to (body (flags d)) ops (statep d) (transs d))
    (STORE_REST <$> ops).

Definition internal_ucs4 : conv D := Conv 4 4 4 4 internal_ucs4_loop internal_ucs4_loop_unaligned internal_ucs4_loop_single None.
Definition ucs4_internal : conv D := Conv 4 4 4 4 ucs4_internal_loop ucs4_internal_loop_unaligned ucs4_internal_loop_single None.
Definition internal_ucs4le : conv D := Conv 4 4 4 4 internal_ucs4le_loop internal_ucs4le_loop_unaligned internal_ucs4le_loop_single None.
Definition ucs4le_internal : conv D := Conv 4 4 4 4 ucs4le_internal_loop ucs4le_internal_loop_unaligned ucs4le_internal_loop_single None.
Definition ascii_internal : conv D := body_conv 1 1 4 4 ascii_internal_body None.
Definition internal_ascii : conv D := body_conv 4 4 1 1 internal_ascii_body None.
Definition internal_utf8 : conv D := body_conv 4 4 1 6 internal_utf8_body None.
Definition utf8_internal : conv D := body_conv 1 6 4 4 utf8_internal_body (Some utf8_rest_ops).
Definition ucs2_internal : conv D := body_conv 2 2 4 4 ucs2_internal_body None.
Definition internal_ucs2 : conv D := body_conv 4 4 2 2 internal_ucs2_body None.
Definition ucs2reverse_internal : conv D := body_conv 2 2 4 4 ucs2reverse_internal_body None.
Definition internal_ucs2reverse : conv D := body_conv 4 4 2 2 internal_ucs2reverse_body None.
End Simple.
