(* ===== verification/GconvSkel.v ===== *)
(** Character conversion, the conversion function of iconv/skeleton.c: one step of a chain runs its loop into
    its buffer, hands the buffer to the next step, and takes back the input whose conversion the next step did
    not accept. *)
From S2P Require Import Prelude CMem Byteswap Gconv GconvSimple.

Section Skeleton.
Context {D : Type}.
Abbreviation lst := (lst D).
Abbreviation step_data := (step_data D).
Abbreviation conv := (conv D).

(** What a conversion function gives: its status, how far [*inptrp] moved, the data of the step and of the
    following ones, [*irreversible], and for a call of an error handler the bytes stored at [*outbufstart]. *)
Record gres := Gres { g_status : status; g_used : nat; g_data : list step_data; g_irrev : option Z; g_out : list Z }.

(** [__gconv_fct].  The arguments are the data of this step and of the following ones, the address and the
    bytes of the input, [*outbufstart], [*irreversible], [do_flush] and [consume_incomplete]. *)
Definition gconv_fct : Type := list step_data -> Z -> list Z -> option Z -> option Z -> Z -> bool -> run gres.

Definition fixed_width (c : conv) : bool := (MIN_NEEDED_FROM c =? MAX_NEEDED_FROM c) && (MIN_NEEDED_TO c =? MAX_NEEDED_TO c).

(** How much [RESET_INPUT_BUFFER] takes back for [diff] bytes of output. *)
Definition RESET_INPUT_BUFFER (c : conv) (diff : Z) : Z :=
  if MIN_NEEDED_FROM c mod MIN_NEEDED_TO c =? 0 then diff * (MIN_NEEDED_FROM c / MIN_NEEDED_TO c)
  else if MIN_NEEDED_TO c mod MIN_NEEDED_FROM c =? 0 then diff / (MIN_NEEDED_TO c / MIN_NEEDED_FROM c)
  else (diff / MIN_NEEDED_TO c) * MIN_NEEDED_FROM c.

(** On machines without _STRING_ARCH_unaligned; the condition for the other direction is the same.  A
    converter that has bytes on one side and words on the other never tests: the source takes its words as
    aligned, and so does the model. *)
Definition POSSIBLY_UNALIGNED (c : conv) : bool :=
  negb (MIN_NEEDED_FROM c =? 1) && (MAX_NEEDED_FROM c mod MIN_NEEDED_FROM c =? 0)
  && negb (MIN_NEEDED_TO c =? 1) && (MAX_NEEDED_TO c mod MIN_NEEDED_TO c =? 0).

Definition is_unaligned (c : conv) (d : step_data) (inptr out : Z) : bool :=
  POSSIBLY_UNALIGNED c &&
  (negb (inptr mod MIN_NEEDED_FROM c =? 0) || (is_last d && negb (out mod MIN_NEEDED_TO c =? 0))).

Definition run_loop (c : conv) (unaligned : bool) : step_data -> list Z -> Z -> option Z -> run lst :=
  if unaligned then FROM_LOOP_unaligned c else FROM_LOOP c.

Definition set_trans (d : step_data) (ts : list (trans D)) : step_data :=
  StepData (outbuf d) (outbufend d) (written d) (flags d) (invocation_counter d) (statep d) ts.

Definition set_state (d : step_data) (s : mbstate) : step_data :=
  StepData (outbuf d) (outbufend d) (written d) (flags d) (invocation_counter d) s (transs d).

Definition count_invocation (d : step_data) (n : Z) : step_data :=
  StepData (outbuf d) (outbufend d) (written d) (flags d) (s32 (invocation_counter d + n)) (statep d) (transs d).

(** data->__outbuf = outbuf, after [bs] was stored *)
Definition move_outbuf (d : step_data) (bs : list Z) : step_data :=
  StepData (outbuf d + Z.of_nat (length bs)) (outbufend d) (written d ++ bs) (flags d) (invocation_counter d) (statep d) (transs d).

(** The context functions of the transliteration modules. *)
Definition give_context (inp out : list Z) (t : trans D) : trans D :=
  match trans_context_fct t with
  | Some f => with_trans_data t (f (trans_data t) inp out)
  | None => t
  end.

(** The variables of the loop of the function.  [used] is how far [*inptrp] moved in the input, [buf] are the
    bytes from [data->__outbuf] to [outbuf], [lirr] is [*lirreversiblep]. *)
Record rounds := Rounds { used : nat; buf : list Z; data : step_data; next_data : list step_data; irreversible : option Z; lirr : option Z }.

(** The next step stopped after [taken] bytes of the buffer, of which [buf r] were there before this round and
    the loop of this round, which began at [start], produced [out]. *)
Definition take_back (c : conv) (unaligned : bool) (input : list Z) (start : nat) (out : list Z) (taken : nat) (r : rounds) : run rounds :=
  if fixed_width c then
    let n := RESET_INPUT_BUFFER c (Z.of_nat (length (buf r ++ out)) - Z.of_nat taken) in
    bounds_ ((0 <=? Z.of_nat (used r) - n) && (Z.of_nat (used r) - n <=? Z.of_nat (length input)));;
    mret (Rounds (Z.to_nat (Z.of_nat (used r) - n)) (buf r) (data r) (next_data r) (irreversible r) (lirr r))
  else
    st ← run_loop c unaligned (data r) (drop start input) (Z.of_nat taken - Z.of_nat (length (buf r))) (lirr r);
    assert_ (Z.of_nat (length (buf r ++ produced st)) =? Z.of_nat taken);;
    assert_ (bool_decide (result st = GCONV_FULL_OUTPUT));;
    let d := set_trans (data r) (ltrans st) in
    mret (Rounds (start + length (consumed st)) (buf r)
            (if (length (produced st) =? 0)%nat then count_invocation d (-1) else d) (next_data r) (irreversible r) (irrev st)).

(** Write out all output which was produced; the status after the next step. *)
Definition write_out (c : conv) (fct : gconv_fct) (unaligned consume : bool) (input : list Z) (start : nat) (out : list Z)
    (s : status) (r : rounds) : run (status * rounds) :=
  match out with
  | [] => mret (s, r)
  | _ :: _ =>
      g ← fct (next_data r) (outbuf (data r)) (buf r ++ out) None (irreversible r) 0 consume;
      let r := Rounds (used r) (buf r) (data r) (g_data g) (g_irrev g) (lirr r) in
      if decide (g_status g = GCONV_EMPTY_INPUT) then
        mret (if decide (s = GCONV_FULL_OUTPUT) then GCONV_OK else s, r)
      else if (g_used g =? length (buf r ++ out))%nat then mret (g_status g, r)
      else r ← take_back c unaligned input start out (g_used g) r; mret (g_status g, r)
  end.

(** while (1): a round converts what fits in the buffer. *)
Fixpoint convert_rounds (fuel : nat) (c : conv) (fct : gconv_fct) (unaligned consume : bool) (outbufstart : option Z)
    (input : list Z) (r : rounds) : run (status * rounds * list Z) :=
  match fuel with
  | O => Spin
  | S fuel =>
      let start := used r in
      let out := match outbufstart with Some p => p | None => outbuf (data r) end + Z.of_nat (length (buf r)) in
      st ← run_loop c unaligned (data r) (drop start input) (outbufend (data r) - out) (lirr r);
      let r := Rounds (start + length (consumed st)) (buf r) (set_trans (data r) (ltrans st)) (next_data r) (irreversible r) (irrev st) in
      match outbufstart with
      | Some _ => mret (result st, r, buf r ++ produced st)
      | None =>
          let d := count_invocation (set_trans (data r) (map (give_context (consumed st) (produced st)) (transs (data r)))) 1 in
          if is_last d then
            match irreversible r, lirr r with
            | Some n, Some l =>
                mret (result st, Rounds (used r) [] (move_outbuf d (buf r ++ produced st)) (next_data r) (Some (u64 (n + l))) (lirr r), [])
            | _, _ => Wild
            end
          else
            '(s, r) ← write_out c fct unaligned consume input start (produced st) (result st)
                        (Rounds (used r) (buf r) d (next_data r) (irreversible r) (lirr r));
            if decide (s = GCONV_OK)
            then convert_rounds fuel c fct unaligned consume outbufstart input
                   (Rounds (used r) [] (data r) (next_data r) (irreversible r) (lirr r))
            else mret (s, r, [])
      end
  end.

(** If we are supposed to consume all characters, store the remaining bytes in the state. *)
Definition store_remaining (c : conv) (bytes : list Z) (state : mbstate) : run mbstate :=
  match CONV_STORE_REST c with
  | Some f => f bytes state
  | None =>
      assert_ (length bytes <? 4)%nat;;
      v ← wchb_store 0 bytes (ms_value state);
      mret (Mbs (Z.lor (Z.ldiff (ms_count state) 7) (Z.of_nat (length bytes))) v)
  end.

(** memset (data->__statep, '\0', sizeof ( *data->__statep)) *)
Definition zero_state : mbstate := Mbs 0 [0; 0; 0; 0].

(** The bytes that an earlier call left in the state are processed first. *)
Definition pending (c : conv) (consume : bool) (d : step_data) : bool :=
  (1 <? MAX_NEEDED_FROM c) && consume && negb (Z.land (ms_count (statep d)) 7 =? 0).

(** The rounds, and the bytes that remain after them. *)
Definition convert (c : conv) (fct : gconv_fct) (consume : bool) (inaddr : Z) (input : list Z) (outbufstart : option Z) (r : rounds) : run gres :=
  let out := match outbufstart with Some p => p | None => outbuf (data r) end + Z.of_nat (length (buf r)) in
  let unaligned := is_unaligned c (data r) inaddr out in
  '(s, r, o) ← convert_rounds (S (length input)) c fct unaligned consume outbufstart input r;
  if bool_decide (outbufstart = None) && (1 <? MAX_NEEDED_FROM c) && consume && bool_decide (s = GCONV_INCOMPLETE_INPUT) then
    state ← store_remaining c (drop (used r) input) (statep (data r));
    mret (Gres s (length input) (set_state (data r) state :: next_data r) (irreversible r) o)
  else mret (Gres s (used r) (data r :: next_data r) (irreversible r) o).

(** FUNCTION_NAME; none of the converters defines [EMIT_SHIFT_TO_INIT]. *)
Definition gconv_step (c : conv) (fct : gconv_fct) : gconv_fct :=
  fun datas inaddr input outbufstart irr do_flush consume =>
  match datas with
  | [] => Wild
  | d :: datas =>
      if negb (do_flush =? 0) then
        assert_ (bool_decide (outbufstart = None));;
        let d := set_state d zero_state in
        if is_last d then mret (Gres GCONV_OK 0 (d :: datas) irr [])
        else g ← fct datas 0 [] None irr do_flush consume; mret (Gres (g_status g) 0 (d :: g_data g) (g_irrev g) [])
      else
        let l := match irr with Some _ => Some 0 | None => None end in
        if pending c consume d then
          assert_ (bool_decide (outbufstart = None));;
          '(st, state) ← FROM_LOOP_single c d input (outbufend d - outbuf d) l;
          let d := set_state (set_trans d (ltrans st)) state in
          if decide (result st = GCONV_OK)
          then convert c fct consume inaddr input outbufstart (Rounds (length (consumed st)) (produced st) d datas irr (irrev st))
          else mret (Gres (result st) (length (consumed st)) (d :: datas) irr [])
        else convert c fct consume inaddr input outbufstart (Rounds 0 [] d datas irr l)
  end.

(** The steps of a chain. *)
Fixpoint gconv_chain (cs : list conv) : gconv_fct :=
  match cs with
  | [] => fun _ _ _ _ _ _ _ => Wild
  | c :: cs => gconv_step c (gconv_chain cs)
  end.
End Skeleton.
