(* ===== verification/GconvUnits.v ===== *)
(** Character conversion, the interface between the loops and the steps: a loop converts its input character by
    character, a converter promises it to the step that runs it ([UnitConv]), and a converter whose step is not
    the last promises that a run with less room stops at the same characters ([ResumableConv]). *)
From S2P Require Import Prelude CMem Byteswap Gconv GconvSimple GconvSkel.

(** * Encodings *)

(** The text of a sequence of characters in an encoding [E]. *)
Definition enc (E : Z -> list Z) (xs : list Z) : list Z := concat (map E xs).

Lemma enc_app E xs ys : enc E (xs ++ ys) = enc E xs ++ enc E ys.
Proof. unfold enc. rewrite map_app, concat_app. reflexivity. Qed.

Lemma enc_cons E x xs : enc E (x :: xs) = E x ++ enc E xs.
Proof. reflexivity. Qed.

Lemma enc_single E x : enc E [x] = E x.
Proof. apply app_nil_r. Qed.

Lemma enc_ext E E' xs : (forall x, x ∈ xs -> E x = E' x) -> enc E xs = enc E' xs.
Proof.
  induction xs as [|x xs IH]; intros H; [reflexivity|]. rewrite !enc_cons, H by constructor.
  rewrite IH by (intros y Hy; apply H; constructor; exact Hy). reflexivity.
Qed.

Lemma enc_bytes E xs : (forall x, x ∈ xs -> Forall is_byte (E x)) -> Forall is_byte (enc E xs).
Proof.
  induction xs as [|x xs IH]; intros H; [constructor|]. rewrite enc_cons. apply Forall_app.
  split; [apply H; constructor|apply IH; intros y Hy; apply H; constructor; exact Hy].
Qed.

Lemma length_enc_fixed E n xs : (forall x, x ∈ xs -> Z.of_nat (length (E x)) = n) -> Z.of_nat (length (enc E xs)) = Z.of_nat (length xs) * n.
Proof.
  induction xs as [|x xs IH]; intros H; [simpl; lia|]. rewrite enc_cons, length_app, Nat2Z.inj_add, IH, H by (intros; apply H || idtac; constructor; assumption).
  simpl length. lia.
Qed.

(** No character's code begins with another's. *)
Definition prefix_code (P : Z -> Prop) (E : Z -> list Z) : Prop :=
  forall x y a b, P x -> P y -> E x ++ a = E y ++ b -> x = y.

(** A text that begins with another is that of a sequence that does. *)
Lemma prefix_code_split P E xs ys tail : prefix_code P E -> (forall y, P y -> E y <> []) -> Forall P xs -> Forall P ys ->
  enc E xs = enc E ys ++ tail -> exists zs, xs = ys ++ zs /\ tail = enc E zs.
Proof.
  intros HP Hne Hx Hy. revert xs Hx. induction Hy as [|y ys Hy _ IH]; intros xs Hx H; [exists xs; auto|].
  rewrite enc_cons, <- app_assoc in H. destruct Hx as [|x xs Hx Hxs].
  - exfalso. apply (Hne y Hy). destruct (E y); [reflexivity|discriminate H].
  - rewrite enc_cons in H. pose proof (HP _ _ _ _ Hx Hy H) as ->. apply app_inv_head in H.
    destruct (IH xs Hxs H) as (zs & -> & ->). exists zs. auto.
Qed.

(** A text, not empty, of characters of [P]. *)
Definition is_text (E : Z -> list Z) (P : Z -> Prop) (l : list Z) : Prop := exists ws, ws <> [] /\ Forall P ws /\ l = enc E ws.

Lemma is_text_impl E (P Q : Z -> Prop) l : (forall x, P x -> Q x) -> is_text E P l -> is_text E Q l.
Proof. intros H (ws & Hne & Hw & E'). exists ws. split; [exact Hne|]. split; [eapply Forall_impl; eauto|exact E']. Qed.

(** A text in two parts, of which the first is one. *)
Lemma is_text_app E (P Q : Z -> Prop) xs tail : prefix_code P E -> (forall y, P y -> E y <> []) -> (forall x, Q x -> P x) -> Forall P xs ->
  is_text E Q (enc E xs ++ tail) -> Forall Q xs /\ (tail <> [] -> is_text E Q tail).
Proof.
  intros HP Hne HQ Hx (ws & _ & Hw & E'). symmetry in E'. destruct (prefix_code_split P E ws xs tail HP Hne) as (zs & -> & ->); [eapply Forall_impl; eauto|exact Hx|exact E'|].
  apply Forall_app in Hw as [Hw1 Hw2]. split; [exact Hw1|]. intros Hz. exists zs. split; [intros ->; apply Hz; reflexivity|auto].
Qed.

(** * What a loop promises *)

(** A status that ends a loop. *)
Definition stop (s : status) : Prop :=
  s = GCONV_EMPTY_INPUT \/ s = GCONV_FULL_OUTPUT \/ s = GCONV_ILLEGAL_INPUT \/ s = GCONV_INCOMPLETE_INPUT.

(** The data of a step that neither ignores errors nor transliterates. *)
Definition plain {D} (d : step_data D) : Prop := ignoring d = false /\ transs d = [].

(** Each run of the loop converts a sequence of characters from the encoding [cin] to [cout], and says that the
    input is empty exactly when it used it up.  It does not stop before a text it can convert unless the output is
    full.  The version for unaligned buffers may accept other characters. *)
Class UnitConv {D} (c : conv D) := {
  cin : Z -> list Z;
  cout : Z -> list Z;
  cvalid : bool -> Z -> Prop;
  cin_ne u x : cvalid u x -> cin x <> [];
  cout_bytes u x : cvalid u x -> Forall is_byte (cout x);
  cin_code : prefix_code (fun x => exists u, cvalid u x) cin;
  loop_units u d input space l : plain d -> Forall is_byte input ->
    exists xs tail s, run_loop c u d input space l = Done (Lst (enc cin xs) tail (enc cout xs) (space - Z.of_nat (length (enc cout xs))) l s []) /\
      input = enc cin xs ++ tail /\ Forall (cvalid u) xs /\ stop s /\ (s = GCONV_EMPTY_INPUT <-> tail = []) /\
      (0 <= space -> Z.of_nat (length (enc cout xs)) <= space) /\
      (is_text cin (cvalid u) tail -> s = GCONV_FULL_OUTPUT /\ space - Z.of_nat (length (enc cout xs)) < MAX_NEEDED_TO c)
}.
Arguments cin {D} c {_} _.
Arguments cout {D} c {_} _.
Arguments cvalid {D} c {_} _ _.

(** What was stored can be taken back: either all characters have the same sizes, or a run that has room for
    the first of them only stops behind them. *)
Class ResumableConv {D} (c : conv D) `{!UnitConv c} := {
  cout_ne u x : cvalid c u x -> cout c x <> [];
  fixed_sizes u x : fixed_width c = true -> cvalid c u x -> Z.of_nat (length (cin c x)) = MIN_NEEDED_FROM c /\ Z.of_nat (length (cout c x)) = MIN_NEEDED_TO c;
  positive_sizes : 0 < MIN_NEEDED_FROM c /\ 0 < MIN_NEEDED_TO c;
  rerun u d xs x tail l : fixed_width c = false -> plain d -> Forall (cvalid c u) xs -> cvalid c u x -> 
    run_loop c u d (enc (cin c) xs ++ cin c x ++ tail) (Z.of_nat (length (enc (cout c) xs))) l =
    Done (Lst (enc (cin c) xs) (cin c x ++ tail) (enc (cout c) xs) 0 l GCONV_FULL_OUTPUT [])
}.

Lemma reset_units {D} (c : conv D) `{ResumableConv D c} k : RESET_INPUT_BUFFER c (k * MIN_NEEDED_TO c) = k * MIN_NEEDED_FROM c.
Proof.
  destruct positive_sizes as [Hf Ht]. unfold RESET_INPUT_BUFFER.
  destruct (Z.eqb_spec (MIN_NEEDED_FROM c mod MIN_NEEDED_TO c) 0) as [E|_].
  { apply Z.div_exact in E; [|lia]. rewrite E at 2. ring. }
  destruct (Z.eqb_spec (MIN_NEEDED_TO c mod MIN_NEEDED_FROM c) 0) as [E|_].
  - apply Z.div_exact in E; [|lia]. set (q := MIN_NEEDED_TO c / MIN_NEEDED_FROM c) in *. rewrite E.
    replace (k * (MIN_NEEDED_FROM c * q)) with (k * MIN_NEEDED_FROM c * q) by ring. apply Z.div_mul. intros ->. lia.
  - rewrite Z.div_mul by lia. reflexivity.
Qed.

(** * Loops of loop.c *)

Section Frame.
Context {D : Type} (min_in : nat) (min_out : Z) (body : lst D -> run (ctl * lst D)).
Context (E_in E_out : Z -> list Z) (P : Z -> Prop).

Definition moved (x : Z) (tail : list Z) (st : lst D) : lst D :=
  Lst (consumed st ++ E_in x) tail (produced st ++ E_out x) (room st - Z.of_nat (length (E_out x))) (irrev st) (result st) (ltrans st).

(** A body that converts one character, or stops. *)
Definition unit_body : Prop := forall st, ltrans st = [] -> rest st <> [] -> Forall is_byte (rest st) ->
  ((1 < min_in)%nat -> (min_in <= length (rest st))%nat) -> min_out <= room st ->
  (exists x tail, P x /\ rest st = E_in x ++ tail /\ Z.of_nat (length (E_out x)) <= room st /\ body st = Done (Go, moved x tail st)) \/
  (exists s, (s = GCONV_FULL_OUTPUT \/ s = GCONV_ILLEGAL_INPUT \/ s = GCONV_INCOMPLETE_INPUT) /\ body st = Done (Break, set_result s st)).

(** A body that converts a character whenever there is room for it. *)
Definition fits_body : Prop := forall st x tail, ltrans st = [] -> P x -> rest st = E_in x ++ tail ->
  Z.of_nat (length (E_out x)) <= room st -> body st = Done (Go, moved x tail st).

(** Why a loop ended at [st] with the status [s]. *)
Definition ended (s : status) (st : lst D) : Prop :=
  match rest st with
  | [] => s = GCONV_EMPTY_INPUT
  | _ :: _ =>
      ((1 < min_in)%nat /\ (length (rest st) < min_in)%nat /\ s = GCONV_INCOMPLETE_INPUT) \/
      (room st < min_out /\ s = GCONV_FULL_OUTPUT) \/
      (min_out <= room st /\ ltrans st = [] /\ s <> GCONV_EMPTY_INPUT /\ body st = Done (Break, set_result s st))
  end.

Context (P_in_ne : forall x, P x -> E_in x <> []).

Lemma loop_frame_units : unit_body -> forall fuel st, (length (rest st) < fuel)%nat -> ltrans st = [] -> Forall is_byte (rest st) -> result st = GCONV_EMPTY_INPUT ->
  exists xs tail s, loop min_in min_out body fuel st =
      Done (Lst (consumed st ++ enc E_in xs) tail (produced st ++ enc E_out xs) (room st - Z.of_nat (length (enc E_out xs))) (irrev st) s []) /\
    rest st = enc E_in xs ++ tail /\ Forall P xs /\ stop s /\ (s = GCONV_EMPTY_INPUT <-> tail = []) /\
    (0 <= room st -> Z.of_nat (length (enc E_out xs)) <= room st) /\
    ended s (Lst (consumed st ++ enc E_in xs) tail (produced st ++ enc E_out xs) (room st - Z.of_nat (length (enc E_out xs))) (irrev st) GCONV_EMPTY_INPUT []).
Proof.
  intros Hb. induction fuel as [|fuel IH]; intros st Hf Ht Hbs Hr; [lia|].
  assert (forall s, s <> GCONV_EMPTY_INPUT -> stop s -> rest st <> [] -> ended s st -> exists xs tail s', mret (set_result s st) =
      Done (Lst (consumed st ++ enc E_in xs) tail (produced st ++ enc E_out xs) (room st - Z.of_nat (length (enc E_out xs))) (irrev st) s' []) /\
    rest st = enc E_in xs ++ tail /\ Forall P xs /\ stop s' /\ (s' = GCONV_EMPTY_INPUT <-> tail = []) /\
    (0 <= room st -> Z.of_nat (length (enc E_out xs)) <= room st) /\
    ended s' (Lst (consumed st ++ enc E_in xs) tail (produced st ++ enc E_out xs) (room st - Z.of_nat (length (enc E_out xs))) (irrev st) GCONV_EMPTY_INPUT [])) as Hstop.
  { intros s Hs Hstop Hne Hend. exists [], (rest st), s. unfold enc, set_result. cbn [map concat length Z.of_nat]. rewrite !app_nil_r, Z.sub_0_r, Ht.
    replace (Lst (consumed st) (rest st) (produced st) (room st) (irrev st) GCONV_EMPTY_INPUT []) with st by (destruct st; cbn in *; subst; reflexivity).
    repeat split; auto; try congruence. }
  cbn [loop]. destruct (rest st) as [|b bs] eqn:Er in |- *.
  { exists [], [], GCONV_EMPTY_INPUT. unfold enc. cbn. rewrite !app_nil_r, Z.sub_0_r. unfold stop. split; [|split; [reflexivity|split; [constructor|split; [tauto|split; [tauto|split; [auto|reflexivity]]]]]].
    destruct st; cbn in *; subst; reflexivity. }
  rewrite <- Er. assert (rest st <> []) as Hne by (rewrite Er; discriminate).
  destruct ((1 <? min_in)%nat && (length (rest st) <? min_in)%nat) eqn:E1.
  { apply andb_true_iff in E1 as [E1 E2]. apply Nat.ltb_lt in E1, E2. apply Hstop; [discriminate|unfold stop; auto|assumption|unfold ended; rewrite Er in E2 |- *; auto]. }
  destruct (Z.ltb_spec (room st) min_out); [apply Hstop; [discriminate|unfold stop; auto|assumption|unfold ended; rewrite Er; auto]|].
  assert ((1 < min_in)%nat -> (min_in <= length (rest st))%nat) as Hmi.
  { intros. apply andb_false_iff in E1 as [E1|E1]; apply Nat.ltb_ge in E1; lia. }
  destruct (Hb st Ht Hne Hbs Hmi) as [(x & tail & Hx & Ex & Hox & ->)|(s & Hs & Hbody)]; [assumption| |].
  - cbn [mbind run_bind]. pose proof (P_in_ne x Hx) as Hxn.
    destruct (IH (moved x tail st)) as (xs & tl & s & -> & E & Hxs & Hs & Hi & Hl & Hend).
    + rewrite Ex, length_app in Hf. cbn. destruct (E_in x); [congruence|]. cbn in Hf. lia.
    + exact Ht.
    + rewrite Ex in Hbs. apply Forall_app in Hbs as [_ ?]. assumption.
    + exact Hr.
    + exists (x :: xs), tl, s. cbn [moved consumed produced room irrev rest] in *. rewrite !enc_cons, length_app, <- !app_assoc.
      rewrite Ex, E. split; [f_equal; f_equal; lia|]. split; [reflexivity|]. split; [constructor; assumption|]. split; [assumption|]. split; [assumption|]. split; [intros; lia|].
      rewrite <- !app_assoc in Hend. rewrite Nat2Z.inj_add, Z.sub_add_distr. exact Hend.
  - rewrite Hbody. cbn [mbind run_bind]. apply Hstop; [destruct Hs as [->|[->| ->]]; discriminate|unfold stop; tauto|assumption|].
    unfold ended. rewrite Er. right. right. repeat split; auto. destruct Hs as [->|[->| ->]]; discriminate.
Qed.

Lemma loop_frame_rerun : fits_body -> (forall x, P x -> (min_in <= length (E_in x))%nat /\ min_out <= Z.of_nat (length (E_out x))) -> 0 < min_out ->
  forall xs x tail fuel st, Forall P xs -> P x -> rest st = enc E_in xs ++ E_in x ++ tail -> room st = Z.of_nat (length (enc E_out xs)) ->
    ltrans st = [] -> (length xs < fuel)%nat ->
  loop min_in min_out body fuel st =
  Done (Lst (consumed st ++ enc E_in xs) (E_in x ++ tail) (produced st ++ enc E_out xs) 0 (irrev st) GCONV_FULL_OUTPUT []).
Proof.
  intros Hb Hmin Hpos. induction xs as [|y xs IH]; intros x tail fuel st Hxs Hx Er Hroom Ht Hf; (destruct fuel as [|fuel]; [lia|]); cbn [loop].
  - change (enc E_in []) with (@nil Z) in *. change (enc E_out []) with (@nil Z) in *. cbn [app length Z.of_nat] in *. destruct (Hmin x Hx) as [Hi _]. pose proof (P_in_ne x Hx) as Hn.
    assert ((length (rest st) <? min_in)%nat = false) as -> by (apply Nat.ltb_ge; rewrite Er, length_app; lia).
    assert (room st = 0) as Hr0 by (rewrite Hroom; reflexivity).
    rewrite andb_false_r, Hr0, (proj2 (Z.ltb_lt 0 min_out) Hpos). unfold set_result. rewrite !app_nil_r, Er, Hr0, Ht.
    destruct (E_in x); [congruence|]. reflexivity.
  - apply Forall_cons in Hxs as [Hy Hxs]. rewrite enc_cons, <- app_assoc in Er. rewrite enc_cons, length_app in Hroom.
    destruct (Hmin y Hy) as [Hi Ho]. pose proof (P_in_ne y Hy) as Hn.
    assert ((length (rest st) <? min_in)%nat = false) as -> by (apply Nat.ltb_ge; rewrite Er, length_app; lia).
    rewrite andb_false_r. rewrite (proj2 (Z.ltb_ge (room st) min_out)) by lia. rewrite (Hb st y _ Ht Hy Er) by lia. cbn [mbind run_bind].
    rewrite (IH x tail fuel (moved y _ st) Hxs Hx eq_refl) by (cbn in *; (exact Ht || lia)).
    cbn [moved consumed produced irrev]. rewrite !enc_cons, <- !app_assoc, Er. destruct (E_in y); [congruence|]. reflexivity.
Qed.

Lemma LOOPFCT_units input space l : unit_body -> Forall is_byte input ->
  exists xs tail s, LOOPFCT min_in min_out body [] input space l = Done (Lst (enc E_in xs) tail (enc E_out xs) (space - Z.of_nat (length (enc E_out xs))) l s []) /\
    input = enc E_in xs ++ tail /\ Forall P xs /\ stop s /\ (s = GCONV_EMPTY_INPUT <-> tail = []) /\
    (0 <= space -> Z.of_nat (length (enc E_out xs)) <= space) /\
    ended s (Lst (enc E_in xs) tail (enc E_out xs) (space - Z.of_nat (length (enc E_out xs))) l GCONV_EMPTY_INPUT []).
Proof. intros Hb Hi. apply (loop_frame_units Hb (S (length input)) (Lst [] input [] space l GCONV_EMPTY_INPUT [])); auto. Qed.

Lemma LOOPFCT_rerun xs x tail l : fits_body -> (forall x, P x -> (min_in <= length (E_in x))%nat /\ min_out <= Z.of_nat (length (E_out x))) -> 0 < min_out ->
  Forall P xs -> P x ->
  LOOPFCT min_in min_out body [] (enc E_in xs ++ E_in x ++ tail) (Z.of_nat (length (enc E_out xs))) l =
  Done (Lst (enc E_in xs) (E_in x ++ tail) (enc E_out xs) 0 l GCONV_FULL_OUTPUT []).
Proof.
  intros Hb Hm Hp Hxs Hx. unfold LOOPFCT.
  rewrite (loop_frame_rerun Hb Hm Hp xs x tail _ (Lst [] _ [] _ l GCONV_EMPTY_INPUT []) Hxs Hx eq_refl eq_refl eq_refl); [reflexivity|].
  rewrite length_app. enough (length xs <= length (enc E_in xs))%nat by lia. clear Hb Hm. induction Hxs as [|y xs Hy _ IH]; [simpl; lia|].
  rewrite enc_cons, length_app. pose proof (P_in_ne y Hy). destruct (E_in y); [congruence|]. cbn. lia.
Qed.
End Frame.

(** * Accesses of a body *)

Section Accesses.
Context {D : Type}.
Implicit Types st : lst D.

Lemma inbytes_app st n bs tail : rest st = bs ++ tail -> length bs = n -> inbytes st n = Done bs.
Proof.
  intros E <-. unfold inbytes. rewrite E, length_app, take_app_length. rewrite (proj2 (Nat.leb_le _ _)) by lia. reflexivity.
Qed.

Lemma inbyte_cons st b tail : rest st = b :: tail -> inbyte st 0 = Done b.
Proof. intros E. unfold inbyte. rewrite E. reflexivity. Qed.

Lemma advance_app st n bs tail : rest st = bs ++ tail -> length bs = n ->
  advance n st = Done (Lst (consumed st ++ bs) tail (produced st) (room st) (irrev st) (result st) (ltrans st)).
Proof.
  intros E <-. unfold advance. rewrite E, length_app, take_app_length, drop_app_length. rewrite (proj2 (Nat.leb_le _ _)) by lia. reflexivity.
Qed.

Lemma emit_room bs st : Z.of_nat (length bs) <= room st ->
  emit bs st = Done (Lst (consumed st) (rest st) (produced st ++ bs) (room st - Z.of_nat (length bs)) (irrev st) (result st) (ltrans st)).
Proof. intros H. unfold emit. rewrite (proj2 (Z.leb_le _ _)) by assumption. reflexivity. Qed.

(** Store the code of a character and step over the one that was read, in either order. *)
Lemma emit_advance E_in E_out x tail st n : rest st = E_in x ++ tail -> length (E_in x) = n -> Z.of_nat (length (E_out x)) <= room st ->
  (st ← emit (E_out x) st; st ← advance n st; mret (Go, st)) = Done (Go, moved E_in E_out x tail st).
Proof.
  intros E Hn Hr. rewrite emit_room by assumption. cbn [mbind run_bind]. erewrite advance_app; [reflexivity|exact E|exact Hn].
Qed.

Lemma advance_emit E_in E_out x tail st n : rest st = E_in x ++ tail -> length (E_in x) = n -> Z.of_nat (length (E_out x)) <= room st ->
  (st ← advance n st; st ← emit (E_out x) st; mret (Go, st)) = Done (Go, moved E_in E_out x tail st).
Proof.
  intros E Hn Hr. rewrite (advance_app st n (E_in x) tail) by assumption. cbn [mbind run_bind]. rewrite emit_room by assumption. reflexivity.
Qed.

(** Errors that are not ignored end the loop. *)
Lemma from_error fl n st : Z.land fl GCONV_IGNORE_ERRORS = 0 -> STANDARD_FROM_LOOP_ERR_HANDLER fl n st = Done (Break, set_result GCONV_ILLEGAL_INPUT st).
Proof. intros H. unfold STANDARD_FROM_LOOP_ERR_HANDLER, ignore_errors_p. rewrite H. cbn. rewrite andb_false_r. reflexivity. Qed.

Lemma to_error fl n st : Z.land fl GCONV_IGNORE_ERRORS = 0 -> ltrans st = [] -> STANDARD_TO_LOOP_ERR_HANDLER fl n st = Done (Break, set_result GCONV_ILLEGAL_INPUT st).
Proof.
  intros H Ht. unfold STANDARD_TO_LOOP_ERR_HANDLER, ignore_errors_p. destruct (decide _); [reflexivity|]. cbn [set_result ltrans]. rewrite Ht. cbn. rewrite H. cbn. rewrite andb_false_r. 
  unfold set_result. cbn. rewrite Ht. reflexivity.
Qed.

Lemma plain_flags (d : step_data D) : plain d -> Z.land (flags d) GCONV_IGNORE_ERRORS = 0.
Proof. intros [H _]. unfold ignoring in H. apply negb_false_iff, Z.eqb_eq in H. exact H. Qed.
End Accesses.

(** * The internal form *)

(** The 32-bit integer of a character, in the byte order of the machine. *)
Definition internal (A : arch) (x : Z) : list Z := uint_bytes A 4 x.

Lemma length_internal A x : length (internal A x) = 4%nat.
Proof. apply length_uint_bytes. Qed.

Lemma internal_ne A x : internal A x <> [].
Proof. intros H. pose proof (length_internal A x) as Hl. rewrite H in Hl. discriminate. Qed.

(** Codes of one length are a prefix code when they are different. *)
Lemma fixed_prefix_code (P : Z -> Prop) (E : Z -> list Z) n : (forall x, P x -> length (E x) = n) -> (forall x y, P x -> P y -> E x = E y -> x = y) -> prefix_code P E.
Proof.
  intros Hl Hi x y a b Hx Hy H. apply Hi; [assumption..|]. apply (f_equal (take n)) in H. rewrite <- (Hl x Hx) in H at 1. rewrite <- (Hl y Hy) in H. rewrite !take_app_length in H. exact H.
Qed.

Lemma internal_inj A x y : 0 <= x < 2 ^ 32 -> 0 <= y < 2 ^ 32 -> internal A x = internal A y -> x = y.
Proof. intros Hx Hy H. rewrite <- (uint_val_bytes A 4 x), <- (uint_val_bytes A 4 y) by assumption. f_equal. exact H. Qed.

Lemma internal_code A (P : Z -> Prop) : (forall x, P x -> 0 <= x < 2 ^ 32) -> prefix_code P (internal A).
Proof. intros HP. apply (fixed_prefix_code P (internal A) 4); [intros; apply length_internal|]. intros x y Hx Hy. apply internal_inj; auto. Qed.

(** Four bytes of input are a character in internal form. *)
Lemma split_internal {D} A (st : lst D) : (4 <= length (rest st))%nat -> Forall is_byte (rest st) ->
  exists x tail, 0 <= x < 2 ^ 32 /\ rest st = internal A x ++ tail /\ get32 A st = Done x.
Proof.
  intros Hl Hb. exists (uint_val A (take 4 (rest st))), (drop 4 (rest st)).
  assert (Forall is_byte (take 4 (rest st))) as Hb4 by (apply Forall_take, Hb). assert (length (take 4 (rest st)) = 4%nat) as Hl4 by (rewrite length_take; lia).
  pose proof (uint_val_bound A _ Hb4) as Hv. rewrite Hl4 in Hv. split; [exact Hv|].
  unfold internal. rewrite <- Hl4 at 1. rewrite uint_bytes_val, take_drop by assumption. split; [reflexivity|].
  unfold get32. rewrite (inbytes_app st 4 (take 4 (rest st)) (drop 4 (rest st))) by (rewrite ?take_drop; auto). reflexivity.
Qed.

Lemma get32_internal {D} A (st : lst D) x tail : 0 <= x < 2 ^ 32 -> rest st = internal A x ++ tail -> get32 A st = Done x.
Proof.
  intros Hx E. unfold get32. rewrite (inbytes_app st 4 (internal A x) tail E (length_internal A x)). cbn [mbind run_bind]. unfold mret, run_ret. f_equal. apply uint_val_bytes, Hx.
Qed.

(** * Converters made of a body *)

Section BodyConv.
Context {D : Type} (min_from max_from min_to max_to : Z) (body : Z -> lst D -> run (ctl * lst D)) (ops : option rest_ops).
Abbreviation c := (body_conv min_from max_from min_to max_to body ops).
Context (E_in E_out : Z -> list Z) (P : Z -> Prop) (P_in_ne : forall x, P x -> E_in x <> []).

Lemma body_conv_loop u d : transs d = [] -> run_loop c u d = LOOPFCT (Z.to_nat min_from) min_to (body (flags d)) [].
Proof. intros Ht. destruct u; cbn; rewrite Ht; reflexivity. Qed.

(** The bounds of the sizes that the converter declares. *)
Definition sizes_ok : Prop := min_to <= max_to /\ forall x, P x -> (Z.to_nat min_from <= length (E_in x))%nat /\ Z.of_nat (length (E_out x)) <= max_to.

(** A body that says that the output is full when there is no room for a character. *)
Definition full_body (body : lst D -> run (ctl * lst D)) : Prop := forall st x tail, P x -> rest st = E_in x ++ tail -> min_to <= room st -> room st < Z.of_nat (length (E_out x)) ->
  body st = Done (Break, set_result GCONV_FULL_OUTPUT st).

Lemma fixed_full_body b : (forall x, P x -> Z.of_nat (length (E_out x)) <= min_to) -> full_body b.
Proof. intros H st x tail Hx _ H1 H2. specialize (H x Hx). lia. Qed.

(** Where the loop ended there is no room for a character. *)
Lemma ended_full b s st : sizes_ok -> fits_body b E_in E_out P -> full_body b -> ltrans st = [] -> ended (Z.to_nat min_from) min_to b s st -> is_text E_in P (rest st) ->
  s = GCONV_FULL_OUTPUT /\ room st < max_to.
Proof.
  intros [Hmm Hsz] Hfit Hfull Ht Hend (ws & Hne & Hw & E). destruct ws as [|w ws]; [congruence|]. apply Forall_cons in Hw as [Hw _]. rewrite enc_cons in E. destruct (Hsz w Hw) as [Hi Ho].
  pose proof (P_in_ne w Hw) as Hn. unfold ended in Hend. destruct (rest st) as [|b0 l] eqn:Er; [destruct (E_in w); [congruence|discriminate]|]. rewrite <- Er in *.
  destruct Hend as [(_ & Hl & _)|[[Hr ->]|(Hr & _ & _ & Hb)]]; [rewrite E, length_app in Hl; lia|split; [reflexivity|lia]|].
  destruct (Z.ltb_spec (room st) (Z.of_nat (length (E_out w)))) as [Hlt|Hge].
  - rewrite (Hfull st w _ Hw E Hr Hlt) in Hb. injection Hb as Hb. split; [congruence|lia].
  - rewrite (Hfit st w _ Ht Hw E Hge) in Hb. discriminate.
Qed.

Lemma body_conv_units : sizes_ok -> (forall fl, Z.land fl GCONV_IGNORE_ERRORS = 0 -> unit_body (Z.to_nat min_from) min_to (body fl) E_in E_out P /\ fits_body (body fl) E_in E_out P /\ full_body (body fl)) ->
  forall u d input space l, plain d -> Forall is_byte input ->
  exists xs tail s, run_loop c u d input space l = Done (Lst (enc E_in xs) tail (enc E_out xs) (space - Z.of_nat (length (enc E_out xs))) l s []) /\
    input = enc E_in xs ++ tail /\ Forall P xs /\ stop s /\ (s = GCONV_EMPTY_INPUT <-> tail = []) /\
    (0 <= space -> Z.of_nat (length (enc E_out xs)) <= space) /\
    (is_text E_in P tail -> s = GCONV_FULL_OUTPUT /\ space - Z.of_nat (length (enc E_out xs)) < max_to).
Proof.
  intros Hsz Hb u d input space l Hp Hi. rewrite body_conv_loop by apply Hp. destruct (Hb _ (plain_flags d Hp)) as (Hu & Hfit & Hfull).
  destruct (LOOPFCT_units (Z.to_nat min_from) min_to (body (flags d)) E_in E_out P P_in_ne input space l Hu Hi) as (xs & tail & s & H1 & H2 & H3 & H4 & H5 & H6 & Hend).
  exists xs, tail, s. repeat (split; [assumption|]). apply (fun Ht => ended_full _ s _ Hsz Hfit Hfull Ht Hend). reflexivity.
Qed.

Lemma body_conv_rerun : (forall fl, Z.land fl GCONV_IGNORE_ERRORS = 0 -> fits_body (body fl) E_in E_out P) ->
  (forall x, P x -> (Z.to_nat min_from <= length (E_in x))%nat /\ min_to <= Z.of_nat (length (E_out x))) -> 0 < min_to ->
  forall u d xs x tail l, plain d -> Forall P xs -> P x ->
    run_loop c u d (enc E_in xs ++ E_in x ++ tail) (Z.of_nat (length (enc E_out xs))) l =
    Done (Lst (enc E_in xs) (E_in x ++ tail) (enc E_out xs) 0 l GCONV_FULL_OUTPUT []).
Proof. intros Hb Hm Hp u d xs x tail l Hd. rewrite body_conv_loop by apply Hd. apply LOOPFCT_rerun; auto using plain_flags. Qed.
End BodyConv.
