(* ===== verification/GconvChain.v ===== *)
(** Character conversion, chains of steps: however small the buffers between the steps, no character is lost,
    changed or converted twice, and the position in the input is that of the last character whose conversion
    was stored. *)
From S2P Require Import Prelude CMem Byteswap Gconv GconvSimple GconvSkel GconvUnits.

Section Chain.
Context {D : Type}.
Abbreviation step_data := (step_data D).
Abbreviation conv := (conv D).

Definition data_ok (last : bool) (d : step_data) : Prop := plain d /\ outbuf d <= outbufend d /\ is_last d = last.

(** The data of the steps of a chain: only the last is marked as such. *)
Fixpoint chain_data (ds : list step_data) : Prop :=
  match ds with
  | [] => False
  | [d] => data_ok true d
  | d :: ds => data_ok false d /\ chain_data ds
  end.

(** What the last step has stored. *)
Definition output (ds : list step_data) : list Z := match last ds with Some d => written d | None => [] end.

(** Where the last step stores, and where its buffer ends. *)
Definition last_outbuf (ds : list step_data) : Z := match last ds with Some d => outbuf d | None => 0 end.
Definition last_outbufend (ds : list step_data) : Z := match last ds with Some d => outbufend d | None => 0 end.

(** From [ds] to [ds'] the last step stored [bs]. *)
Definition stores (ds ds' : list step_data) (bs : list Z) : Prop :=
  output ds' = output ds ++ bs /\ last_outbuf ds' = last_outbuf ds + Z.of_nat (length bs) /\ last_outbufend ds' = last_outbufend ds.

Lemma stores_nil ds : stores ds ds [].
Proof. unfold stores. rewrite app_nil_r. cbn. repeat split; lia. Qed.

Lemma stores_app ds1 ds2 ds3 bs1 bs2 : stores ds1 ds2 bs1 -> stores ds2 ds3 bs2 -> stores ds1 ds3 (bs1 ++ bs2).
Proof. intros (E1 & O1 & F1) (E2 & O2 & F2). unfold stores. rewrite E2, E1, O2, O1, F2, F1, length_app, <- app_assoc. repeat split; lia. Qed.

(** The size of the buffer of a step, and what is left of the output. *)
Definition capacity (d : step_data) : Z := outbufend d - outbuf d.
Definition room_left (ds : list step_data) : Z := last_outbufend ds - last_outbuf ds.

(** A conversion function converts, from one encoding to another, the characters at the beginning of the input
    and no more than it says that it used; it says that the input is empty exactly when it used all of it.  If the
    buffers between the steps have the sizes [R], it stops before a text of characters of [Q] only when fewer than [M]
    bytes of the output are left. *)
Definition converts (fct : gconv_fct) (k : nat) (E_in E_out : Z -> list Z) (P Q : Z -> Prop) (R : list step_data -> Prop) (M : Z) : Prop :=
  forall ds addr input n, length ds = k -> chain_data ds -> Forall is_byte input -> 0 <= n < 2 ^ 64 ->
  exists xs tail s ds', fct ds addr input None (Some n) 0 false = Done (Gres s (length (enc E_in xs)) ds' (Some n) []) /\
    input = enc E_in xs ++ tail /\ Forall P xs /\ stop s /\ (s = GCONV_EMPTY_INPUT <-> tail = []) /\
    length ds' = k /\ chain_data ds' /\ stores ds ds' (enc E_out xs) /\
    (R ds -> R ds' /\ (is_text E_in Q tail -> s = GCONV_FULL_OUTPUT /\ room_left ds' < M)).

(** * The last step *)

Lemma u64_small n : 0 <= n < 2 ^ 64 -> u64 n = n.
Proof. apply uwrap_small. Qed.

(** The data after the loop of a round ran without transliteration. *)
Definition counted (d : step_data) : step_data := count_invocation (set_trans d []) 1.

(** One round, once its loop has run. *)
Lemma round_unfold fuel (c : conv) fct u consume input r cons tail out room l s :
  run_loop c u (data r) (drop (used r) input) (outbufend (data r) - (outbuf (data r) + Z.of_nat (length (buf r)))) (lirr r) =
    Done (Lst cons tail out room l s []) ->
  convert_rounds (S fuel) c fct u consume None input r =
  if is_last (data r) then
    match irreversible r, l with
    | Some n, Some l' => Done (s, Rounds (used r + length cons) [] (move_outbuf (counted (data r)) (buf r ++ out)) (next_data r) (Some (u64 (n + l'))) l, [])
    | _, _ => Wild
    end
  else
    '(s, r) ← write_out c fct u consume input (used r) out s (Rounds (used r + length cons) (buf r) (counted (data r)) (next_data r) (irreversible r) l);
    if decide (s = GCONV_OK)
    then convert_rounds fuel c fct u consume None input (Rounds (used r) [] (data r) (next_data r) (irreversible r) (lirr r))
    else Done (s, r, []).
Proof. intros H. cbn [convert_rounds]. rewrite H. reflexivity. Qed.

(** A call with input and without anything pending. *)
Lemma step_unfold (c : conv) fct d ds addr input n : exists u,
  gconv_step c fct (d :: ds) addr input None (Some n) 0 false =
  '(s, r, o) ← convert_rounds (S (length input)) c fct u false None input (Rounds 0 [] d ds (Some n) (Some 0));
  Done (Gres s (used r) (data r :: next_data r) (irreversible r) o).
Proof.
  unfold gconv_step, pending, convert. cbn [negb Z.eqb]. rewrite andb_false_r, andb_false_l.
  exists (is_unaligned c d addr (outbuf d + Z.of_nat 0)).
  cbn [data buf length]. destruct (convert_rounds _ _ _ _ _ _ _ _) as [[[s r] o]| | |]; try reflexivity.
  cbn [mbind run_bind]. rewrite andb_false_r, andb_false_l. reflexivity.
Qed.

Lemma data_ok_counted b d : data_ok b d -> data_ok b (counted d).
Proof. unfold data_ok, plain. cbn. tauto. Qed.

Lemma last_converts (c : conv) (U : UnitConv c) fct : converts (gconv_step c fct) 1 (cin c) (cout c) (fun x => exists u, cvalid c u x) (fun x => forall u, cvalid c u x) (fun _ => True) (MAX_NEEDED_TO c).
Proof.
  intros ds addr input n Hk Hc Hb Hn. destruct ds as [|d [|]]; try discriminate Hk. destruct Hc as (Hp & Hout & Hl).
  destruct (step_unfold c fct d [] addr input n) as [u ->].
  destruct (loop_units u d input (outbufend d - (outbuf d + Z.of_nat 0)) (Some 0) Hp Hb) as (xs & tail & s & E & Ei & Hv & Hs & Hi & Hroom & Hstall).
  rewrite (round_unfold _ c fct u false input (Rounds 0 [] d [] (Some n) (Some 0)) _ _ _ _ _ _ E). cbn [data irreversible]. rewrite Hl. cbn.
  rewrite Z.add_0_r, u64_small by assumption.
  eexists xs, tail, s, _. split; [reflexivity|]. split; [exact Ei|]. split; [eapply Forall_impl; [exact Hv|eauto]|]. split; [exact Hs|]. split; [exact Hi|].
  split; [reflexivity|]. destruct Hp as [Hig _]. cbn. unfold data_ok, plain, stores, room_left. cbn. repeat split; auto; [lia|..]; apply (is_text_impl _ _ (cvalid c u)) in H0; auto; destruct (Hstall H0); [assumption|lia].
Qed.

(** * A step before others *)

Section Step.
Context (c : conv) `{R : ResumableConv D c} (fct : gconv_fct (D := D)) (k : nat) (k_pos : (0 < k)%nat) (E_mid E_out : Z -> list Z) (P Q : Z -> Prop) (rooms : list step_data -> Prop) (M : Z).
Context (next : converts fct k E_mid E_out P Q rooms M).
Context (mid : forall u x, cvalid c u x -> E_mid x = cout c x).
Context (code : prefix_code (fun x => (exists u, cvalid c u x) \/ P x) E_mid) (mid_ne : forall x, (exists u, cvalid c u x) \/ P x -> E_mid x <> []).

Lemma mid_text u xs : Forall (cvalid c u) xs -> enc (cout c) xs = enc E_mid xs.
Proof. intros H. apply enc_ext. intros x Hx. symmetry. apply (mid u). exact (proj1 (Forall_forall _ _) H x Hx). Qed.

Abbreviation P' := (fun x => (exists u, cvalid c u x) /\ P x).
Abbreviation Q' := (fun x => (forall u, cvalid c u x) /\ Q x).

(** Taking back leaves the position behind the characters that the next step took. *)
Lemma take_back_ok u input start ys x zs tail r : buf r = [] -> data_ok false (data r) ->
  drop start input = enc (cin c) (ys ++ x :: zs) ++ tail -> used r = (start + length (enc (cin c) (ys ++ x :: zs)))%nat ->
  Forall (cvalid c u) (ys ++ x :: zs) ->
  exists d', take_back c u input start (enc (cout c) (ys ++ x :: zs)) (length (enc (cout c) ys)) r =
    Done (Rounds (start + length (enc (cin c) ys)) [] d' (next_data r) (irreversible r) (lirr r)) /\ data_ok false d' /\ capacity d' = capacity (data r).
Proof.
  intros Hb Hd Ei Hu Hv. unfold take_back. rewrite Hb. cbn [app length]. destruct (fixed_width c) eqn:Ef.
  - exists (data r). split; [|split; [exact Hd|reflexivity]].
    assert (forall l, (forall y, y ∈ l -> y ∈ ys ++ x :: zs) -> Z.of_nat (length (enc (cin c) l)) = Z.of_nat (length l) * MIN_NEEDED_FROM c /\
              Z.of_nat (length (enc (cout c) l)) = Z.of_nat (length l) * MIN_NEEDED_TO c) as Hl.
    { intros l Hin. split; apply length_enc_fixed; intros y Hy; apply (fixed_sizes u y Ef), (proj1 (Forall_forall _ _) Hv), Hin, Hy. }
    destruct (Hl (ys ++ x :: zs) ltac:(auto)) as [Hi1 Ho1]. destruct (Hl ys ltac:(intros; apply elem_of_app; auto)) as [Hi2 Ho2].
    rewrite Ho1, Ho2, <- Z.mul_sub_distr_r, (reset_units c).
    assert (Z.of_nat (used r) - (Z.of_nat (length (ys ++ x :: zs)) - Z.of_nat (length ys)) * MIN_NEEDED_FROM c = Z.of_nat (start + length (enc (cin c) ys))) as ->.
    { rewrite Hu, !Nat2Z.inj_add, Hi1, Hi2. ring. }
    assert (length (enc (cin c) ys) <= length (drop start input))%nat as Hin by (rewrite Ei, enc_app, !length_app; lia). rewrite length_drop in Hin.
    pose proof (f_equal length Ei) as HL. rewrite enc_app, enc_cons, !length_app, length_drop in HL. pose proof (cin_ne u x (proj1 (proj1 (Forall_cons _ _ _) (proj2 (proj1 (Forall_app _ _ _) Hv))))) as Hx.
    assert (0 < length (cin c x))%nat by (destruct (cin c x); [congruence|cbn; lia]).
    rewrite (proj2 (Z.leb_le 0 _)), (proj2 (Z.leb_le _ _)), Nat2Z.id by lia. reflexivity.
  - rewrite Ei, enc_app, enc_cons, <- !app_assoc, Z.sub_0_r. destruct Hd as (Hp & Ho & Hl).
    apply Forall_app in Hv as [Hys Hx]. apply Forall_cons in Hx as [Hx _].
    rewrite (rerun u (data r) ys x _ (lirr r) Ef Hp Hys Hx). cbn [mbind run_bind produced app]. rewrite Z.eqb_refl. cbn.
    eexists. split; [reflexivity|]. destruct (_ =? _)%nat; (split; [split; [split; [apply Hp|reflexivity]|split; [exact Ho|exact Hl]]|reflexivity]).
Qed.

(** One round hands the converted characters on, and keeps what the next step took. *)
Lemma write_out_ok u input start xs tail s r n : Forall is_byte input -> buf r = [] -> data_ok false (data r) -> irreversible r = Some n -> 0 <= n < 2 ^ 64 ->
  length (next_data r) = k -> chain_data (next_data r) ->
  drop start input = enc (cin c) xs ++ tail -> used r = (start + length (enc (cin c) xs))%nat -> Forall (cvalid c u) xs -> stop s -> (s = GCONV_EMPTY_INPUT <-> tail = []) ->
  (is_text (cin c) (cvalid c u) tail -> s = GCONV_FULL_OUTPUT /\ capacity (data r) - Z.of_nat (length (enc (cout c) xs)) < MAX_NEEDED_TO c) ->
  exists ys zs s' r', write_out c fct u false input start (enc (cout c) xs) s r = Done (s', r') /\
    xs = ys ++ zs /\ used r' = (start + length (enc (cin c) ys))%nat /\ Forall (fun x => (exists u, cvalid c u x) /\ P x) ys /\
    ((s' = GCONV_OK /\ s = GCONV_FULL_OUTPUT /\ zs = [] /\ ys <> []) \/ (stop s' /\ (s' = GCONV_EMPTY_INPUT <-> enc (cin c) zs ++ tail = []))) /\
    buf r' = [] /\ data_ok false (data r') /\ irreversible r' = Some n /\ lirr r' = lirr r /\
    length (next_data r') = k /\ chain_data (next_data r') /\ stores (next_data r) (next_data r') (enc E_out ys) /\
    capacity (data r') = capacity (data r) /\ (MAX_NEEDED_TO c <= capacity (data r) -> rooms (next_data r) -> rooms (next_data r') /\
      (is_text (cin c) Q' (enc (cin c) zs ++ tail) -> s' = GCONV_OK \/ (s' = GCONV_FULL_OUTPUT /\ room_left (next_data r') < M))).
Proof.
  intros Hbytes Hb Hd Hirr Hn Hk Hc Ei Hu Hv Hs Hse Hstall. pose proof (fun l => is_text_impl (cin c) Q' (cvalid c u) l (fun x H => proj1 H u)) as Himp. unfold write_out. destruct (enc (cout c) xs) as [|o os] eqn:Eo.
  { destruct xs as [|x xs].
    - exists [], [], s, r. rewrite Hu. repeat split; auto; try tauto.
      all: try apply Hd; try apply stores_nil. intros Ht. destruct (Hstall (Himp _ Ht)). cbn in *. lia.
    - exfalso. apply Forall_cons in Hv as [Hx _]. rewrite enc_cons in Eo. apply app_eq_nil in Eo as [Eo _]. exact (cout_ne u x Hx Eo). }
  rewrite <- Eo, Hb, Hirr. cbn [app].
  assert (Forall is_byte (enc (cout c) xs)) as Hob by (apply enc_bytes; intros x Hx; apply (cout_bytes u), (proj1 (Forall_forall _ _) Hv), Hx).
  destruct (next (next_data r) (outbuf (data r)) (enc (cout c) xs) n Hk Hc Hob Hn) as (ys & tl & s' & ds' & -> & Em & Hys & Hs' & Hse' & Hk' & Hc' & Ho' & Hnext).
  cbn [mbind run_bind g_status g_used g_data g_irrev used buf data lirr]. rewrite (mid_text u xs Hv) in Em.
  assert (Forall (fun x => (exists u, cvalid c u x) \/ P x) xs) as Hv' by (eapply Forall_impl; [exact Hv|eauto]).
  destruct (prefix_code_split _ E_mid xs ys tl code mid_ne) as (zs & Exs & ->); [exact Hv'|eapply Forall_impl; [exact Hys|auto]|exact Em|].
  assert (Forall (fun x => (exists u, cvalid c u x) /\ P x) ys) as Hboth.
  { rewrite Exs in Hv. apply Forall_app in Hv as [Hv _]. apply Forall_forall. intros x Hx. split; [exists u; exact (proj1 (Forall_forall _ _) Hv x Hx)|exact (proj1 (Forall_forall _ _) Hys x Hx)]. }
  assert (enc E_mid zs = [] -> zs = []) as Hz.
  { destruct zs as [|z zs]; [auto|]. rewrite enc_cons. intros Ez. apply app_eq_nil in Ez as [Ez _]. exfalso. rewrite Exs in Hv'. apply Forall_app in Hv' as [_ Hv']. apply Forall_cons in Hv' as [Hz' _]. exact (mid_ne z Hz' Ez). }
  destruct (decide (s' = GCONV_EMPTY_INPUT)) as [->|Hne].
  - pose proof (Hz (proj1 Hse' eq_refl)) as ->. rewrite app_nil_r in Exs. subst ys. exists xs, [], (if decide (s = GCONV_FULL_OUTPUT) then GCONV_OK else s). eexists. split; [reflexivity|].
    rewrite app_nil_r. split; [reflexivity|]. split; [exact Hu|]. split; [exact Hboth|]. split.
    + destruct (decide (s = GCONV_FULL_OUTPUT)); [left|right; split; [exact Hs|exact Hse]]. repeat split; auto. intros ->. discriminate Eo.
    + do 8 (split; [assumption || reflexivity|]). intros _ HR. split; [apply (Hnext HR)|]. cbn [enc map concat app]. intros Ht. destruct (Hstall (Himp _ Ht)) as [-> _]. left. reflexivity.
  - assert (zs <> []) as Hzs by (intros ->; apply Hne, Hse'; reflexivity). destruct zs as [|z zs]; [congruence|]. 
    rewrite (proj2 (Nat.eqb_neq _ _)).
    2:{ rewrite (mid_text u xs Hv), Exs, enc_app. cbn [app]. assert (length (enc E_mid (z :: zs)) <> 0)%nat as Hl by (intros El; apply Hzs, Hz, length_zero_iff_nil, El).
        cbn [length]. rewrite length_app. lia. }
    assert (length (enc E_mid ys) = length (enc (cout c) ys)) as ->. { rewrite (mid_text u ys); [reflexivity|]. rewrite Exs in Hv. apply Forall_app in Hv. apply Hv. }
    subst xs. destruct (take_back_ok u input start ys z zs tail (Rounds (used r) [] (data r) ds' (Some n) (lirr r)) eq_refl Hd Ei Hu Hv) as (d' & -> & Hd' & Hcap).
    exists ys, (z :: zs), s'. eexists. split; [reflexivity|]. split; [reflexivity|]. split; [reflexivity|]. split; [exact Hboth|]. split.
    + right. split; [exact Hs'|]. split; [intros; congruence|]. intros Ez. exfalso. apply app_eq_nil in Ez as [Ez _]. rewrite enc_cons in Ez. apply app_eq_nil in Ez as [Ez _].
      apply Forall_app in Hv as [_ Hv]. apply Forall_cons in Hv as [Hv _]. exact (cin_ne u z Hv Ez).
    + do 8 (split; [assumption || reflexivity|]). intros _ HR. destruct (Hnext HR) as [HR' Hfull]. split; [exact HR'|]. intros Ht. right. apply Hfull. exists (z :: zs). split; [discriminate|]. split; [|reflexivity].
      apply Forall_app in Hv as [_ Hv]. destruct (is_text_app (cin c) (fun x => exists u, cvalid c u x) Q' (z :: zs) tail cin_code) as [HQ _]; [intros y [u' Hy]; exact (cin_ne u' y Hy)|intros y [Hy _]; exists u; apply Hy|eapply Forall_impl; [exact Hv|eauto]|exact Ht|].
      eapply Forall_impl; [exact HQ|intros y Hy; apply Hy].
Qed.

Lemma rounds_ok u input n : Forall is_byte input -> 0 <= n < 2 ^ 64 -> forall fuel r, (length (drop (used r) input) < fuel)%nat ->
  buf r = [] -> data_ok false (data r) -> irreversible r = Some n -> length (next_data r) = k -> chain_data (next_data r) ->
  exists xs tail s r', convert_rounds fuel c fct u false None input r = Done (s, r', []) /\
    drop (used r) input = enc (cin c) xs ++ tail /\ used r' = (used r + length (enc (cin c) xs))%nat /\ Forall P' xs /\ stop s /\ (s = GCONV_EMPTY_INPUT <-> tail = []) /\
    data_ok false (data r') /\ irreversible r' = Some n /\ length (next_data r') = k /\ chain_data (next_data r') /\
    stores (next_data r) (next_data r') (enc E_out xs) /\
    capacity (data r') = capacity (data r) /\ (MAX_NEEDED_TO c <= capacity (data r) -> rooms (next_data r) -> rooms (next_data r') /\
      (is_text (cin c) Q' tail -> s = GCONV_FULL_OUTPUT /\ room_left (next_data r') < M)).
Proof.
  intros Hb Hn. induction fuel as [|fuel IH]; intros r Hf Hbuf Hd Hirr Hk Hc; [lia|].
  destruct (loop_units u (data r) (drop (used r) input) (outbufend (data r) - (outbuf (data r) + Z.of_nat (length (buf r)))) (lirr r) (proj1 Hd))
    as (xs & tail & s & E & Ei & Hv & Hs & Hse & _ & Hstall); [apply Forall_drop, Hb|].
  rewrite (round_unfold _ c fct u false input r _ _ _ _ _ _ E). rewrite (proj2 (proj2 Hd)).
  destruct (write_out_ok u input (used r) xs tail s (Rounds (used r + length (enc (cin c) xs)) (buf r) (counted (data r)) (next_data r) (irreversible r) (lirr r)) n)
    as (ys & zs & s' & r' & -> & -> & Hu & Hys & Hcase & Hbuf' & Hd' & Hirr' & _ & Hk' & Hc' & Ho & Hcap & Hfull); [auto; try apply data_ok_counted, Hd..|].
  1:{ cbn [data]. rewrite Hbuf in Hstall. change (capacity (counted (data r))) with (capacity (data r)). unfold capacity. cbn in Hstall. rewrite Z.add_0_r in Hstall. exact Hstall. }
  cbn [mbind run_bind]. destruct Hcase as [(-> & -> & -> & Hne)|[Hs' Hse']].
  - rewrite decide_True by reflexivity. rewrite app_nil_r in *.
    assert (drop (used r') input = tail) as Edrop by (rewrite Hu, <- drop_drop, Ei, drop_app_length; reflexivity).
    assert (enc (cin c) ys <> []) as Hnil.
    { destruct ys as [|y ys]; [congruence|]. rewrite enc_cons. intros H0. apply app_eq_nil in H0 as [H0 _]. apply Forall_cons in Hv as [Hy _]. exact (cin_ne u y Hy H0). }
    destruct (IH (Rounds (used r') [] (data r') (next_data r') (irreversible r') (lirr r'))) as (xs2 & tail2 & s2 & r2 & -> & Ei2 & Hu2 & Hx2 & Hs2 & Hse2 & Hd2 & Hirr2 & Hk2 & Hc2 & Ho2 & Hcap2 & Hfull2);
      auto; cbn [used data next_data irreversible] in *.
    { rewrite Edrop. rewrite Ei, length_app in Hf. destruct (enc (cin c) ys); [congruence|]. cbn in Hf. lia. }
    exists (ys ++ xs2), tail2, s2, r2. rewrite !enc_app, length_app, <- !app_assoc, <- Ei2, Edrop. pose proof (stores_app _ _ _ _ _ Ho Ho2) as Hst. repeat (split; [first [assumption|reflexivity|lia|apply Forall_app; auto]|]). cbn [data next_data] in *. split; [rewrite Hcap2; exact Hcap|].
    intros HM HR. apply Hfull2; [rewrite Hcap; exact HM|]. apply (Hfull HM HR).
  - rewrite decide_False by (intros ->; destruct Hs' as [|[|[|]]]; discriminate).
    exists ys, (enc (cin c) zs ++ tail), s', r'. rewrite Ei, enc_app, <- app_assoc. do 12 (split; [assumption || reflexivity|]). intros HM HR. destruct (Hfull HM HR) as [HR' Ht]. split; [exact HR'|]. intros H. destruct (Ht H) as [->|H']; [|exact H']. exfalso. destruct Hs' as [|[|[|]]]; discriminate.
Qed.

Lemma step_converts : converts (gconv_step c fct) (S k) (cin c) E_out P' Q' (fun ds => match ds with d :: ds => MAX_NEEDED_TO c <= capacity d /\ rooms ds | [] => False end) M.
Proof.
  intros ds addr input n Hk Hc Hb Hn. destruct ds as [|d ds]; [discriminate|]. injection Hk as Hk.
  assert (data_ok false d /\ chain_data ds) as [Hd Hds] by (destruct ds as [|d' ds]; [cbn in Hk; lia|exact Hc]).
  destruct (step_unfold c fct d ds addr input n) as [u ->].
  destruct (rounds_ok u input n Hb Hn (S (length input)) (Rounds 0 [] d ds (Some n) (Some 0))) as (xs & tail & s & r' & -> & Ei & Hu & Hx & Hs & Hse & Hd' & Hirr & Hk' & Hc' & Ho & Hcap & Hfull);
    auto; cbn [used data next_data] in *; rewrite ?drop_0 in *; auto.
  cbn [mbind run_bind]. rewrite Hu, Hirr. exists xs, tail, s. eexists. split; [reflexivity|]. split; [exact Ei|]. split; [exact Hx|]. split; [exact Hs|]. split; [exact Hse|].
  split; [cbn; lia|]. destruct (next_data r') as [|d2 ds2] eqn:E2; [cbn in Hk'; lia|]. split; [split; assumption|].
  destruct ds as [|d3 ds3]; [cbn in Hk; lia|]. split; [exact Ho|]. intros [HM HR]. destruct (Hfull HM HR) as [HR' Ht]. split; [split; [rewrite Hcap; exact HM|exact HR']|exact Ht].
Qed.
End Step.

(** * Chains *)

(** [chained cs E_in E_out P Q]: the steps [cs] convert from [E_in] to [E_out] by way of encodings that fit
    together.  What they convert are characters of [P], and those of [Q] they convert in buffers of any alignment. *)
Inductive chained : list conv -> (Z -> list Z) -> (Z -> list Z) -> (Z -> Prop) -> (Z -> Prop) -> Prop :=
| chained_last c (U : UnitConv c) : chained [c] (cin c) (cout c) (fun x => exists u, cvalid c u x) (fun x => forall u, cvalid c u x)
| chained_step c (U : UnitConv c) (R : ResumableConv c) cs E_mid E_out P Q : chained cs E_mid E_out P Q ->
    (forall u x, cvalid c u x -> E_mid x = cout c x) ->
    prefix_code (fun x => (exists u, cvalid c u x) \/ P x) E_mid ->
    (forall x, (exists u, cvalid c u x) \/ P x -> E_mid x <> []) ->
    chained (c :: cs) (cin c) E_out (fun x => (exists u, cvalid c u x) /\ P x) (fun x => (forall u, cvalid c u x) /\ Q x).

Lemma chained_ne cs E_in E_out P Q : chained cs E_in E_out P Q -> (0 < length cs)%nat.
Proof. destruct 1; cbn; lia. Qed.

(** The input of a chain is in a prefix code. *)
Lemma chained_code cs E_in E_out P Q : chained cs E_in E_out P Q -> prefix_code P E_in /\ (forall x, P x -> E_in x <> []) /\ (forall x, Q x -> P x).
Proof.
  induction 1 as [c U|c U R cs E_mid E_out P Q Hch IH Hmid Hcode Hne].
  - split; [apply cin_code|]. split; [intros x [u Hx]; exact (cin_ne u x Hx)|]. intros x Hx. exists true. apply Hx.
  - split; [intros x y a b [Hx _] [Hy _]; apply cin_code; assumption|]. split; [intros x [[u Hx] _]; exact (cin_ne u x Hx)|].
    intros x [Hx HQ]. split; [exists true; apply Hx|]. destruct IH as (_ & _ & IH). apply IH, HQ.
Qed.

(** The buffers between the steps have room for a character. *)
Fixpoint rooms (cs : list conv) (ds : list step_data) {struct cs} : Prop :=
  match cs with
  | c :: ((_ :: _) as cs) => match ds with d :: ds => MAX_NEEDED_TO c <= capacity d /\ rooms cs ds | [] => False end
  | _ => True
  end.

(** The most bytes that a character needs in the output. *)
Definition last_max (cs : list conv) : Z := match last cs with Some c => MAX_NEEDED_TO c | None => 0 end.

(** A chain of conversion steps without transliteration and ignored errors returns for every input and every
    size of the buffers between the steps and of the output, without a failed assertion or an access outside of
    a buffer, and converts. *)
Lemma chain_converts cs E_in E_out P Q : chained cs E_in E_out P Q -> converts (gconv_chain cs) (length cs) E_in E_out P Q (rooms cs) (last_max cs).
Proof.
  induction 1 as [c U|c U R cs E_mid E_out P Q Hch IH Hmid Hcode Hne]; [apply last_converts|].
  destruct cs as [|c' cs]; [pose proof (chained_ne _ _ _ _ _ Hch); cbn in *; lia|].
  exact (step_converts c (gconv_chain (c' :: cs)) (length (c' :: cs)) ltac:(cbn; lia) E_mid E_out P Q (rooms (c' :: cs)) (last_max (c' :: cs)) IH Hmid Hcode Hne).
Qed.
End Chain.
