(* ===== verification/GconvUtf8.v ===== *)
(** Character conversion, UTF-8: the loops of iconv/gconv_simple.c between UTF-8 and the internal form are the
    encoding that ISO 10646 defines and its inverse. *)
From S2P Require Import Prelude CMem MemWrite Byteswap Gconv GconvSimple GconvSkel GconvUnits.

(** * The encoding *)

(** The number of bytes of a character. *)
Definition utf8_len (x : Z) : nat :=
  if x <? 0x80 then 1 else if x <? 0x800 then 2 else if x <? 0x10000 then 3
  else if x <? 0x200000 then 4 else if x <? 0x4000000 then 5 else 6.

(** The trail bytes hold the low digits to the base 64. *)
Fixpoint trail_bytes (n : nat) (x : Z) : list Z :=
  match n with
  | O => []
  | S n => trail_bytes n (x / 64) ++ [0x80 + x mod 64]
  end.

(** The bits that mark the first byte of a sequence of [n]. *)
Definition lead_mark (n : nat) : Z := nth n [0; 0; 0xc0; 0xe0; 0xf0; 0xf8; 0xfc] 0.

Definition utf8_enc (x : Z) : list Z :=
  let n := utf8_len x in (lead_mark n + x / 64 ^ Z.of_nat (n - 1)) :: trail_bytes (n - 1) x.

(** The number that trail bytes append to [c]. *)
Definition trail_val (c : Z) (l : list Z) : Z := fold_left (fun a b => a * 64 + (b - 0x80)) l c.

Definition trail_byte (b : Z) : Prop := 0x80 <= b < 0xc0.

(** The characters that the decoder accepts. *)
Definition utf8_char (x : Z) : Prop := 0 <= x <= 0x7fffffff /\ ~ (0xd800 <= x <= 0xdfff).

(** * Digits *)

Lemma pow64_succ n : 64 ^ Z.of_nat (S n) = 64 * 64 ^ Z.of_nat n.
Proof. rewrite Nat2Z.inj_succ, Z.pow_succ_r by lia. reflexivity. Qed.

Lemma pow64_pos n : 0 < 64 ^ Z.of_nat n.
Proof. apply Z.pow_pos_nonneg; lia. Qed.

Lemma length_trail_bytes n x : length (trail_bytes n x) = n.
Proof. revert x. induction n as [|n IH]; intros x; [reflexivity|]. cbn. rewrite length_app, IH. cbn. lia. Qed.

Lemma trail_bytes_trail n x : Forall trail_byte (trail_bytes n x).
Proof.
  revert x. induction n as [|n IH]; intros x; [constructor|]. cbn. apply Forall_app. split; [apply IH|]. constructor; [|constructor].
  unfold trail_byte. pose proof (Z.mod_pos_bound x 64 ltac:(lia)). lia.
Qed.

Lemma trail_val_app c l b : trail_val c (l ++ [b]) = trail_val c l * 64 + (b - 0x80).
Proof. unfold trail_val. rewrite fold_left_app. reflexivity. Qed.

Lemma trail_val_bytes n x c : trail_val c (trail_bytes n x) = c * 64 ^ Z.of_nat n + x mod 64 ^ Z.of_nat n.
Proof.
  revert x. induction n as [|n IH]; intros x; [cbn; rewrite Z.mod_1_r; lia|]. cbn [trail_bytes]. rewrite trail_val_app, IH, pow64_succ.
  rewrite (Z.rem_mul_r x 64) by (pose proof (pow64_pos n); lia). ring.
Qed.

Lemma trail_val_bound l c : 0 <= c -> Forall trail_byte l -> c * 64 ^ Z.of_nat (length l) <= trail_val c l < (c + 1) * 64 ^ Z.of_nat (length l).
Proof.
  intros Hc. induction l as [|b l IH] using rev_ind; intros Hl; [cbn; lia|]. apply Forall_app in Hl as [Hl Hb]. apply Forall_cons in Hb as [Hb _]. unfold trail_byte in Hb.
  rewrite trail_val_app, length_app, Nat.add_1_r, pow64_succ. specialize (IH Hl). lia.
Qed.

(** Trail bytes are the digits of their value. *)
Lemma trail_bytes_val l c : Forall trail_byte l -> trail_bytes (length l) (trail_val c l) = l /\ trail_val c l / 64 ^ Z.of_nat (length l) = c.
Proof.
  induction l as [|b l IH] using rev_ind; intros Hl; [cbn; rewrite Z.div_1_r; auto|]. apply Forall_app in Hl as [Hl Hb]. apply Forall_cons in Hb as [Hb _]. unfold trail_byte in Hb.
  rewrite trail_val_app, length_app, Nat.add_1_r, pow64_succ. cbn [trail_bytes]. destruct (IH Hl) as [E1 E2].
  assert ((trail_val c l * 64 + (b - 128)) / 64 = trail_val c l) as E by (symmetry; apply Z.div_unique with (b - 128); lia).
  rewrite <- Z.div_div by (pose proof (pow64_pos (length l)); lia). rewrite E, E1, E2. split; [|reflexivity].
  f_equal. f_equal. replace ((trail_val c l * 64 + (b - 128)) mod 64) with (b - 128) by (apply Z.mod_unique with (trail_val c l); lia). lia.
Qed.

(** The length as bounds on the value. *)
Lemma utf8_len_spec x : 0x80 <= x <= 0x7fffffff ->
  (2 <= utf8_len x <= 6)%nat /\ x < 2 ^ (5 * Z.of_nat (utf8_len x) + 1) /\ ((2 < utf8_len x)%nat -> 2 ^ (5 * Z.of_nat (utf8_len x) - 4) <= x).
Proof.
  intros Hx. unfold utf8_len. destruct (Z.ltb_spec x 0x80); [lia|].
  repeat match goal with |- context [x <? ?b] => destruct (Z.ltb_spec x b) end;
    match goal with |- context [2 ^ (5 * Z.of_nat ?k + 1)] =>
      let a := eval vm_compute in (2 ^ (5 * Z.of_nat k + 1)) in let b := eval vm_compute in (2 ^ (5 * Z.of_nat k - 4)) in
      change (2 ^ (5 * Z.of_nat k + 1)) with a; change (2 ^ (5 * Z.of_nat k - 4)) with b end; lia.
Qed.

Lemma utf8_len_unique n x : (2 <= n <= 6)%nat -> 0x80 <= x -> x < 2 ^ (5 * Z.of_nat n + 1) -> ((2 < n)%nat -> 2 ^ (5 * Z.of_nat n - 4) <= x) -> utf8_len x = n.
Proof.
  intros Hn Hx Hu Hl. unfold utf8_len. destruct n as [|[|[|[|[|[|[|n]]]]]]]; try lia;
    repeat match goal with H : context [2 ^ (5 * Z.of_nat ?k + 1)] |- _ => let a := eval vm_compute in (2 ^ (5 * Z.of_nat k + 1)) in change (2 ^ (5 * Z.of_nat k + 1)) with a in H end;
    repeat match goal with H : context [2 ^ (5 * Z.of_nat ?k - 4)] |- _ => let a := eval vm_compute in (2 ^ (5 * Z.of_nat k - 4)) in change (2 ^ (5 * Z.of_nat k - 4)) with a in H end;
    zdecide; reflexivity.
Qed.

Lemma length_utf8_enc x : length (utf8_enc x) = S (utf8_len x - 1).
Proof. unfold utf8_enc. cbn [length]. rewrite length_trail_bytes. reflexivity. Qed.

(** * The encoder *)

Lemma trail_of_bits y : Z.lor 0x80 (Z.land y 0x3f) = 0x80 + y mod 64.
Proof.
  change 0x3f with (Z.ones 6). rewrite Z.land_ones by lia. change 128 with (Z.shiftl 2 6) at 1. rewrite lor_low by (try apply Z.mod_pos_bound; lia). reflexivity.
Qed.

Lemma utf8_trail_long n : forall wc start, (S n <= length start)%nat ->
  utf8_trail (S n) wc start = (wc / 64 ^ Z.of_nat n, take 1 start ++ trail_bytes n wc ++ drop (S n) start).
Proof.
  induction n as [|n IH]; intros wc start Hl.
  - cbn [utf8_trail]. rewrite Z.div_1_r. destruct start; [cbn in Hl; lia|]. reflexivity.
  - change (utf8_trail (S (S n)) wc start) with (utf8_trail (S n) (Z.shiftr wc 6) (<[S n := Z.lor 0x80 (Z.land wc 0x3f)]> start)).
    rewrite IH by (rewrite length_insert; lia). rewrite Z.shiftr_div_pow2 by lia. change (2 ^ 6) with 64.
    rewrite pow64_succ, Z.div_div by (pose proof (pow64_pos n); lia). f_equal. rewrite trail_of_bits. cbn [trail_bytes].
    destruct start as [|s0 start]; [cbn in Hl; lia|]. cbn [app take drop]. f_equal. rewrite take_0. cbn [app]. rewrite <- app_assoc. f_equal.
    change (<[S n:=128 + wc mod 64]> (s0 :: start)) with (s0 :: <[n:=128 + wc mod 64]> start). cbn [drop].
    rewrite insert_take_drop by (cbn in Hl; lia). rewrite drop_app, drop_ge, length_take by (rewrite length_take; lia).
    rewrite Nat.min_l, Nat.sub_diag by (cbn in Hl; lia). reflexivity.
Qed.

Lemma utf8_trail_spec n wc start : length start = S n -> utf8_trail (S n) wc start = (wc / 64 ^ Z.of_nat n, take 1 start ++ trail_bytes n wc).
Proof. intros Hl. rewrite utf8_trail_long, drop_ge, app_nil_r by lia. reflexivity. Qed.

Lemma high_bits wc k : 0 <= wc < 2 ^ 32 -> 0 <= k <= 32 -> (Z.land wc (Z.shiftl (Z.ones (32 - k)) k) =? 0) = (wc <? 2 ^ k).
Proof.
  intros Hw Hk. assert (0 < 2 ^ k) by (apply Z.pow_pos_nonneg; lia).
  replace (Z.land wc (Z.shiftl (Z.ones (32 - k)) k)) with (wc / 2 ^ k * 2 ^ k).
  - destruct (Z.ltb_spec wc (2 ^ k)); [rewrite Z.div_small by lia; reflexivity|]. apply Z.eqb_neq. pose proof (Z.div_str_pos wc (2 ^ k) ltac:(lia)). lia.
  - rewrite <- Z.shiftl_mul_pow2, <- Z.shiftr_div_pow2 by lia. apply Z.bits_inj'. intros i Hi. rewrite Z.land_spec, !Z.shiftl_spec by lia.
    destruct (decide (i < k)); [rewrite !(Z.testbit_neg_r _ (i - k)) by lia; rewrite andb_false_r; reflexivity|].
    rewrite Z.shiftr_spec by lia. replace (i - k + k) with i by lia. destruct (decide (i < 32)).
    + rewrite Z.ones_spec_low by lia. rewrite andb_true_r. reflexivity.
    + rewrite (bits_above wc 32 i) by lia. reflexivity.
Qed.

Lemma utf8_step_spec wc : 0x80 <= wc <= 0x7fffffff -> utf8_step 4 wc 2 = Z.of_nat (utf8_len wc).
Proof.
  intros Hw. cbn [utf8_step].
  change (u32 (Z.shiftl 0xffffffff (5 * 2 + 1))) with (Z.shiftl (Z.ones (32 - 11)) 11). change (u32 (Z.shiftl 0xffffffff (5 * (2 + 1) + 1))) with (Z.shiftl (Z.ones (32 - 16)) 16).
  change (u32 (Z.shiftl 0xffffffff (5 * (2 + 1 + 1) + 1))) with (Z.shiftl (Z.ones (32 - 21)) 21). change (u32 (Z.shiftl 0xffffffff (5 * (2 + 1 + 1 + 1) + 1))) with (Z.shiftl (Z.ones (32 - 26)) 26).
  rewrite !high_bits by lia. unfold utf8_len. rewrite (proj2 (Z.ltb_ge wc 0x80)) by lia.
  change (2 ^ 11) with 0x800. change (2 ^ 16) with 0x10000. change (2 ^ 21) with 0x200000. change (2 ^ 26) with 0x4000000.
  repeat destruct (_ <? _); reflexivity.
Qed.

(** The bits of the first byte. *)
Lemma lead_bits n h : (2 <= n <= 6)%nat -> 0 <= h < 2 ^ (7 - Z.of_nat n) -> Z.lor (u8 (Z.shiftr (Z.lnot 0xff) (Z.of_nat n))) h = lead_mark n + h.
Proof.
  intros Hn Hh. destruct n as [|[|[|[|[|[|[|n]]]]]]]; try lia; clear Hn;
    match goal with |- Z.lor ?a _ = ?b + _ => let w := eval vm_compute in a in change a with w; change b with w end.
  - change 0xc0 with (Z.shiftl 6 5) at 1. apply lor_low; lia.
  - change 0xe0 with (Z.shiftl 14 4) at 1. apply lor_low; lia.
  - change 0xf0 with (Z.shiftl 30 3) at 1. apply lor_low; lia.
  - change 0xf8 with (Z.shiftl 62 2) at 1. apply lor_low; lia.
  - change 0xfc with (Z.shiftl 126 1) at 1. apply lor_low; lia.
Qed.

Lemma lead_digit x : 0x80 <= x <= 0x7fffffff -> 0 <= x / 64 ^ Z.of_nat (utf8_len x - 1) < 2 ^ (7 - Z.of_nat (utf8_len x)).
Proof.
  intros Hx. destruct (utf8_len_spec x Hx) as (Hn & Hu & _). split; [apply Z.div_pos; [lia|apply pow64_pos]|].
  apply Z.div_lt_upper_bound; [apply pow64_pos|]. eapply Z.lt_le_trans; [exact Hu|]. change 64 with (2 ^ 6). rewrite <- Z.pow_mul_r, <- Z.pow_add_r by lia.
  apply Z.pow_le_mono_r; lia.
Qed.

Lemma utf8_sequence_spec x : 0x80 <= x <= 0x7fffffff -> utf8_sequence x (utf8_step 4 x 2) = utf8_enc x.
Proof.
  intros Hx. rewrite utf8_step_spec by assumption. pose proof (utf8_len_spec x Hx) as (Hn & _). pose proof (lead_digit x Hx) as Hd.
  unfold utf8_sequence, utf8_enc. rewrite Nat2Z.id. destruct (utf8_len x) as [|n] eqn:E; [lia|]. cbn [Nat.sub] in *. rewrite Nat.sub_0_r in *.
  rewrite utf8_trail_spec by (cbn; rewrite length_replicate; reflexivity). cbn [take app]. f_equal. apply lead_bits; [lia|exact Hd].
Qed.

Lemma utf8_enc_bytes x : 0 <= x <= 0x7fffffff -> Forall is_byte (utf8_enc x).
Proof.
  intros Hx. destruct (Z.ltb_spec x 0x80) as [Hs|Hs].
  - unfold utf8_enc, utf8_len. rewrite (proj2 (Z.ltb_lt x 0x80) Hs). cbn. rewrite Z.div_1_r. repeat constructor; unfold is_byte; lia.
  - pose proof (utf8_len_spec x ltac:(lia)) as (Hn & _). pose proof (lead_digit x ltac:(lia)) as Hd. unfold utf8_enc. constructor.
    + unfold is_byte. destruct (utf8_len x) as [|[|[|[|[|[|[|n]]]]]]]; try lia; cbn in Hd |- *; lia.
    + eapply Forall_impl; [apply trail_bytes_trail|]. unfold trail_byte, is_byte. intros; lia.
Qed.

Lemma utf8_enc_ascii x : 0 <= x < 0x80 -> utf8_enc x = [x].
Proof. intros Hx. unfold utf8_enc, utf8_len. rewrite (proj2 (Z.ltb_lt x 0x80)) by lia. cbn. rewrite Z.div_1_r. reflexivity. Qed.

(** * The first byte *)

(** All bytes satisfy a boolean that is computed on each. *)
Lemma all_bytes (f : Z -> bool) : forallb f (map Z.of_nat (seq 0 256)) = true -> forall b, is_byte b -> f b = true.
Proof.
  intros H b Hb. rewrite forallb_forall in H. apply H. unfold is_byte in Hb. rewrite <- (Z2Nat.id b) by lia. apply in_map. apply in_seq. lia.
Qed.

Lemma is_trail_spec b : is_byte b -> is_trail b = true <-> trail_byte b.
Proof.
  intros Hb. pose proof (all_bytes (fun b => Bool.eqb (is_trail b) ((0x80 <=? b) && (b <? 0xc0))) ltac:(vm_compute; reflexivity) b Hb) as H. cbv beta in H.
  apply Bool.eqb_prop in H. rewrite H. unfold trail_byte. rewrite andb_true_iff. lia.
Qed.

Lemma trail_low b : trail_byte b -> Z.land b 0x3f = b - 0x80.
Proof.
  intros Hb. unfold trail_byte in Hb. pose proof (all_bytes (fun b => negb ((0x80 <=? b) && (b <? 0xc0)) || (Z.land b 0x3f =? b - 0x80)) ltac:(vm_compute; reflexivity) b ltac:(unfold is_byte; lia)) as H. cbv beta in H.
  rewrite (proj2 (Z.leb_le _ _)), (proj2 (Z.ltb_lt b _)) in H by lia. cbn in H. apply Z.eqb_eq in H. exact H.
Qed.

Definition lead_check (b : Z) : bool :=
  match utf8_lead b with
  | Some (n, h) => (2 <=? n)%nat && (n <=? 6)%nat && (lead_mark n + h =? b) && (0 <=? h) && (h <? 2 ^ (7 - Z.of_nat n)) && ((2 <? n)%nat || (2 <=? h))
  | None => true
  end.

(** A first byte is its mark and the bits it contributes. *)
Lemma lead_sound b n h : is_byte b -> utf8_lead b = Some (n, h) ->
  (2 <= n <= 6)%nat /\ b = lead_mark n + h /\ 0 <= h < 2 ^ (7 - Z.of_nat n) /\ (n = 2%nat -> 2 <= h).
Proof.
  intros Hb E. pose proof (all_bytes lead_check ltac:(vm_compute; reflexivity) b Hb) as H. unfold lead_check in H. rewrite E in H.
  repeat (apply andb_true_iff in H as [H ?]). apply orb_true_iff in H0.
  repeat match goal with H : (_ <=? _)%nat = true |- _ => apply Nat.leb_le in H | H : (_ <? _)%nat = true \/ _ |- _ => rewrite Nat.ltb_lt in H end. lia.
Qed.

Definition lead_check2 (n : nat) (b : Z) : bool :=
  let h := b - lead_mark n in
  negb ((0 <=? h) && (h <? 2 ^ (7 - Z.of_nat n)) && ((2 <? n)%nat || (2 <=? h))) ||
  (match utf8_lead b with Some (n', h') => (n' =? n)%nat && (h' =? h) | None => false end && (0x80 <=? b)).

Lemma lead_complete n h : (2 <= n <= 6)%nat -> 0 <= h < 2 ^ (7 - Z.of_nat n) -> (n = 2%nat -> 2 <= h) ->
  utf8_lead (lead_mark n + h) = Some (n, h) /\ is_byte (lead_mark n + h) /\ 0x80 <= lead_mark n + h.
Proof.
  intros Hn Hh H2.
  assert (is_byte (lead_mark n + h)) as Hb by (unfold is_byte; destruct n as [|[|[|[|[|[|[|n]]]]]]]; try lia; cbn in Hh |- *; lia).
  pose proof (all_bytes (fun b => lead_check2 2 b && lead_check2 3 b && lead_check2 4 b && lead_check2 5 b && lead_check2 6 b) ltac:(vm_compute; reflexivity) _ Hb) as H. cbv beta in H.
  assert (lead_check2 n (lead_mark n + h) = true) as Hc.
  { repeat (apply andb_true_iff in H as [H ?]). destruct n as [|[|[|[|[|[|[|n]]]]]]]; try lia; assumption. }
  clear H. unfold lead_check2 in Hc. replace (lead_mark n + h - lead_mark n) with h in Hc by lia.
  rewrite (proj2 (Z.leb_le 0 h)), (proj2 (Z.ltb_lt h _)) in Hc by lia.
  assert ((2 <? n)%nat || (2 <=? h) = true) as E by (apply orb_true_iff; rewrite Nat.ltb_lt, Z.leb_le; lia). rewrite E in Hc. cbn [andb negb orb] in Hc.
  destruct (utf8_lead _) as [[n' h']|]; [|discriminate]. repeat (apply andb_true_iff in Hc as [Hc ?]). apply Nat.eqb_eq in Hc as ->.
  match goal with H : (h' =? h) = true |- _ => apply Z.eqb_eq in H as -> end. split; [reflexivity|]. split; [exact Hb|lia].
Qed.

(** * The loops *)

Section Loops.
Context {D : Type} (A : arch) (fl : Z) (noignore : Z.land fl GCONV_IGNORE_ERRORS = 0).
Implicit Types st : lst D.

Definition utf8_range (x : Z) : Prop := 0 <= x <= 0x7fffffff.

Lemma utf8_enc_ne x : utf8_enc x <> [].
Proof. discriminate. Qed.

Lemma internal_utf8_fits : fits_body (internal_utf8_body A fl (D := D)) (internal A) utf8_enc utf8_range.
Proof.
  intros st x tail _ Hx E Hr. unfold utf8_range in Hx. unfold internal_utf8_body. rewrite (get32_internal A st x tail) by (assumption || lia). cbn [mbind run_bind].
  destruct (Z.ltb_spec x 0x80) as [Hs|Hs].
  - assert ([u8 x] = utf8_enc x) as -> by (rewrite utf8_enc_ascii by lia; f_equal; apply uwrap_small; lia).
    apply emit_advance; [exact E|apply length_internal|exact Hr].
  - rewrite (proj2 (Z.leb_le x _)) by lia. rewrite utf8_sequence_spec, utf8_step_spec by lia. pose proof (utf8_len_spec x ltac:(lia)) as (Hn & _).
    rewrite length_utf8_enc in Hr. rewrite (proj2 (Z.ltb_ge _ _)) by lia. apply emit_advance; [exact E|apply length_internal|rewrite length_utf8_enc; exact Hr].
Qed.

Lemma internal_utf8_full : full_body 1 (internal A) utf8_enc utf8_range (internal_utf8_body A fl (D := D)).
Proof.
  intros st x tail Hx E H1 Hf. unfold utf8_range in Hx. unfold internal_utf8_body. rewrite (get32_internal A st x tail) by (assumption || lia). cbn [mbind run_bind].
  destruct (Z.ltb_spec x 0x80) as [Hs|Hs]; [rewrite utf8_enc_ascii in Hf by lia; cbn in Hf; lia|].
  rewrite (proj2 (Z.leb_le x _)) by lia. rewrite utf8_step_spec by lia. rewrite length_utf8_enc in Hf. pose proof (utf8_len_spec x ltac:(lia)) as (Hn & _).
  rewrite (proj2 (Z.ltb_lt _ _)) by lia. reflexivity.
Qed.

Lemma internal_utf8_unit : unit_body 4 1 (internal_utf8_body A fl (D := D)) (internal A) utf8_enc utf8_range.
Proof.
  intros st Ht Hne Hb Hl Hr. destruct (split_internal A st (Hl ltac:(lia)) Hb) as (x & tail & Hx & E & Hg).
  destruct (Z.leb_spec x 0x7fffffff) as [Hm|Hm].
  - assert (utf8_range x) by (unfold utf8_range; lia). destruct (Z.leb_spec (Z.of_nat (length (utf8_enc x))) (room st)) as [Hf|Hf].
    + left. exists x, tail. split; [assumption|]. split; [exact E|]. split; [exact Hf|]. apply internal_utf8_fits; auto.
    + right. exists GCONV_FULL_OUTPUT. split; [auto|]. eapply internal_utf8_full; eassumption.
  - right. exists GCONV_ILLEGAL_INPUT. split; [auto|]. unfold internal_utf8_body. rewrite Hg. cbn [mbind run_bind]. rewrite (proj2 (Z.ltb_ge x 0x80)), (proj2 (Z.leb_gt x _)) by lia.
    apply to_error; assumption.
Qed.

(** One trail byte appends its six bits. *)
Lemma trail_append ch b : trail_byte b -> 0 <= ch -> (ch + 1) * 64 <= 2 ^ 32 -> Z.lor (u32 (Z.shiftl ch 6)) (Z.land b 0x3f) = ch * 64 + (b - 0x80).
Proof.
  intros Hb Hc Hm. rewrite trail_low by assumption. unfold trail_byte in Hb. rewrite Z.shiftl_mul_pow2 by lia. change (2 ^ 6) with 64. unfold u32. rewrite uwrap_small by lia.
  change (ch * 64) with (ch * 2 ^ 6) at 1. rewrite <- Z.shiftl_mul_pow2 by lia. rewrite lor_low by lia. reflexivity.
Qed.

Lemma read_trail_all l : forall st i ch t, drop i (rest st) = l ++ t -> Forall trail_byte l -> 0 <= ch -> (ch + 1) * 64 ^ Z.of_nat (length l) <= 2 ^ 32 ->
  read_trail (length l) st i ch = Done ((i + length l)%nat, trail_val ch l).
Proof.
  induction l as [|b l IH]; intros st i ch t Ed Hl Hc Hm; cbn [length read_trail]; [rewrite Nat.add_0_r; reflexivity|].
  apply Forall_cons in Hl as [Hb Hl]. cbn [app] in Ed. cbn [length] in Hm. rewrite pow64_succ in Hm. pose proof (pow64_pos (length l)).
  assert (rest st !! i = Some b) as Ei by (rewrite <- (Nat.add_0_r i), <- lookup_drop, Ed; reflexivity).
  unfold inbyte. rewrite Ei. cbn [from_option_run mbind run_bind]. rewrite (proj2 (is_trail_spec b ltac:(unfold is_byte, trail_byte in *; lia)) Hb). cbn [negb].
  rewrite trail_append by (assumption || nia). unfold trail_byte in Hb. rewrite (IH st (S i) _ t); [|rewrite <- Nat.add_1_r, <- drop_drop, Ed; reflexivity|assumption|lia|nia].
  f_equal. f_equal. lia.
Qed.

(** Either all the trail bytes are there, or the loop stops at one that is none. *)
Lemma read_trail_cases n : forall st i ch, (n <= length (drop i (rest st)))%nat -> Forall is_byte (rest st) -> 0 <= ch -> (ch + 1) * 64 ^ Z.of_nat n <= 2 ^ 32 ->
  (exists l t, drop i (rest st) = l ++ t /\ length l = n /\ Forall trail_byte l) \/
  (exists j ch', read_trail n st i ch = Done (j, ch') /\ (j < i + n)%nat).
Proof.
  induction n as [|n IH]; intros st i ch Hl Hb Hc Hm; [left; exists [], (drop i (rest st)); repeat split; auto|].
  destruct (drop i (rest st)) as [|b l] eqn:Ed; [cbn in Hl; lia|].
  assert (rest st !! i = Some b) as Ei by (rewrite <- (Nat.add_0_r i), <- lookup_drop, Ed; reflexivity).
  assert (is_byte b) as Hbb by exact (proj1 (Forall_lookup _ _) Hb _ _ Ei).
  cbn [read_trail]. unfold inbyte. rewrite Ei. cbn [from_option_run mbind run_bind]. destruct (is_trail b) eqn:Et; cbn [negb].
  2:{ right. exists i, ch. split; [reflexivity|lia]. }
  apply is_trail_spec in Et; [|assumption]. rewrite pow64_succ in Hm. pose proof (pow64_pos n).
  rewrite trail_append by (assumption || nia). unfold trail_byte in Et.
  assert (drop (S i) (rest st) = l) as Ed' by (rewrite <- Nat.add_1_r, <- drop_drop, Ed; reflexivity).
  destruct (IH st (S i) (ch * 64 + (b - 128))) as [(l' & t & E' & Hl' & Hf)|(j & ch' & -> & Hj)]; try nia.
  - rewrite Ed'. cbn in Hl. lia.
  - assumption.
  - left. exists (b :: l'), t. rewrite <- Ed', E'. split; [reflexivity|]. split; [cbn; lia|]. constructor; assumption.
  - right. exists j, ch'. split; [reflexivity|lia].
Qed.

Lemma lead_bound n h : (2 <= n <= 6)%nat -> 0 <= h < 2 ^ (7 - Z.of_nat n) -> (h + 1) * 64 ^ Z.of_nat (n - 1) <= 2 ^ (5 * Z.of_nat n + 1).
Proof.
  intros Hn Hh. transitivity (2 ^ (7 - Z.of_nat n) * 64 ^ Z.of_nat (n - 1)); [apply Z.mul_le_mono_nonneg_r; [pose proof (pow64_pos (n - 1)); lia|lia]|].
  change 64 with (2 ^ 6). rewrite <- Z.pow_mul_r, <- Z.pow_add_r by lia. apply Z.pow_le_mono_r; lia.
Qed.

Lemma lead_bound32 n h : (2 <= n <= 6)%nat -> 0 <= h < 2 ^ (7 - Z.of_nat n) -> (h + 1) * 64 ^ Z.of_nat (n - 1) <= 2 ^ 32.
Proof. intros Hn Hh. etransitivity; [apply lead_bound; assumption|]. apply Z.pow_le_mono_r; lia. Qed.

(** The number of a first byte and its trail bytes, when it is in range for their count. *)
Lemma sequence_is_enc n h l ch : (2 <= n <= 6)%nat -> 0 <= h < 2 ^ (7 - Z.of_nat n) -> (n = 2%nat -> 2 <= h) -> Forall trail_byte l -> length l = (n - 1)%nat ->
  ch = trail_val h l -> ((2 < n)%nat -> 2 ^ (5 * Z.of_nat n - 4) <= ch) ->
  utf8_enc ch = (lead_mark n + h) :: l /\ 0x80 <= ch <= 0x7fffffff.
Proof.
  intros Hn Hh H2 Hl Hlen -> Hbig. pose proof (trail_val_bound l h ltac:(lia) Hl) as Hb. rewrite Hlen in Hb.
  assert (trail_val h l < 2 ^ (5 * Z.of_nat n + 1)) as Hu.
  { eapply Z.lt_le_trans; [apply Hb|]. apply lead_bound; assumption. }
  assert (0x80 <= trail_val h l) as H80.
  { destruct (Nat.eq_dec n 2) as [->|]; [cbn in Hb; lia|]. etransitivity; [|apply Hbig; lia]. transitivity (2 ^ 11); [lia|apply Z.pow_le_mono_r; lia]. }
  split.
  - unfold utf8_enc. rewrite (utf8_len_unique n) by (assumption || lia). rewrite <- Hlen. destruct (trail_bytes_val l h Hl) as [-> ->]. reflexivity.
  - split; [exact H80|]. apply Z.lt_succ_r. eapply Z.lt_le_trans; [exact Hu|]. change (Z.succ 0x7fffffff) with (2 ^ 31). apply Z.pow_le_mono_r; lia.
Qed.

(** The tests on the number for sequences that are too long and for surrogates. *)
Lemma legal_char n x : 0 <= x -> (2 <= n)%nat ->
  ((2 <? n)%nat && (Z.shiftr x (5 * Z.of_nat n - 4) =? 0)) || ((0xd800 <=? x) && (x <=? 0xdfff)) = false <->
  ((2 < n)%nat -> 2 ^ (5 * Z.of_nat n - 4) <= x) /\ ~ (0xd800 <= x <= 0xdfff).
Proof.
  intros Hx Hn. rewrite orb_false_iff, !andb_false_iff, Nat.ltb_ge, Z.eqb_neq, !Z.leb_gt, Z.shiftr_div_pow2 by lia.
  assert (0 < 2 ^ (5 * Z.of_nat n - 4)) as Hp by (apply Z.pow_pos_nonneg; lia).
  assert (x / 2 ^ (5 * Z.of_nat n - 4) <> 0 <-> 2 ^ (5 * Z.of_nat n - 4) <= x) as ->; [|lia].
  split; intros H.
  - apply Z.nlt_ge. intros Hlt. apply H, Z.div_small. lia.
  - pose proof (Z.div_str_pos x _ (conj Hp H)). lia.
Qed.

Lemma utf8_internal_fits : fits_body (utf8_internal_body A fl (D := D)) utf8_enc (internal A) utf8_char.
Proof.
  intros st x tail _ [Hx Hsur] E Hr. unfold utf8_internal_body, utf8_multibyte, utf8_store, put32.
  assert (uint_bytes A 4 (u32 x) = internal A x) as Ex by (unfold internal, u32; rewrite uwrap_small by lia; reflexivity).
  destruct (Z.ltb_spec x 0x80) as [Hs|Hs].
  - rewrite utf8_enc_ascii in E by lia. rewrite (inbyte_cons st x tail E). cbn [mbind run_bind]. rewrite (proj2 (Z.ltb_lt x 0x80)) by lia. rewrite Ex.
    apply (advance_emit utf8_enc (internal A) x tail st 1); [rewrite utf8_enc_ascii by lia; exact E|rewrite utf8_enc_ascii by lia; reflexivity|exact Hr].
  - destruct (utf8_len_spec x ltac:(lia)) as (Hn & Hu & Hbig). pose proof (lead_digit x ltac:(lia)) as Hd. set (n := utf8_len x) in *.
    assert (n = 2%nat -> 2 <= x / 64 ^ Z.of_nat (n - 1)) as H2. { intros E2. rewrite E2. cbn. apply Z.div_le_lower_bound; lia. }
    destruct (lead_complete n _ Hn Hd H2) as (El & Hlb & Hl80).
    assert (rest st = (lead_mark n + x / 64 ^ Z.of_nat (n - 1)) :: trail_bytes (n - 1) x ++ tail) as E' by exact E.
    rewrite (inbyte_cons st _ _ E'). cbn [mbind run_bind]. rewrite (proj2 (Z.ltb_ge _ 0x80)), El by lia.
    rewrite (proj2 (Nat.ltb_ge (length (rest st)) n)) by (rewrite E'; cbn; rewrite length_app, length_trail_bytes; lia).
    rewrite <- (length_trail_bytes (n - 1) x) at 1. rewrite (read_trail_all _ _ _ _ tail); rewrite ?length_trail_bytes; auto using trail_bytes_trail, lead_bound32.
    2:{ rewrite E'. reflexivity. } 2:{ lia. }
    cbn [mbind run_bind]. rewrite trail_val_bytes. rewrite (Z.mul_comm (x / _)), <- Z.div_mod by (pose proof (pow64_pos (n - 1)); lia).
    replace (1 + (n - 1))%nat with n by lia. rewrite Nat.ltb_irrefl. cbn [orb]. rewrite (proj2 (legal_char n x ltac:(lia) ltac:(lia))) by auto. rewrite Ex.
    apply (advance_emit utf8_enc (internal A) x tail st n); [exact E|rewrite length_utf8_enc; lia|exact Hr].
Qed.

(** A sequence that is all there is the code of a character, or it is illegal. *)
Lemma utf8_multibyte_cases st b tl n h : rest st = b :: tl -> Forall is_byte (rest st) -> utf8_lead b = Some (n, h) -> (n <= length (rest st))%nat ->
  (exists x t, utf8_char x /\ rest st = utf8_enc x ++ t) \/ utf8_multibyte A fl st n h = Done (Break, set_result GCONV_ILLEGAL_INPUT st).
Proof.
  intros E Hb El Hlen. assert (is_byte b) as Hbb by (rewrite E in Hb; apply Forall_cons in Hb; apply Hb).
  destruct (lead_sound b n h Hbb El) as (Hn & Eb & Hh & H2). unfold utf8_multibyte. rewrite (proj2 (Nat.ltb_ge _ _) Hlen).
  destruct (read_trail_cases (n - 1) st 1 h) as [(l & t & Ed & Hll & Hl)|(j & ch' & -> & Hj)]; [rewrite length_drop; lia|exact Hb|lia|apply lead_bound32; assumption| |].
  - rewrite <- Hll at 1. rewrite (read_trail_all l st 1 h t Ed Hl) by (try rewrite Hll; (lia || apply lead_bound32; assumption)). cbn [mbind run_bind].
    rewrite Hll. replace (1 + (n - 1))%nat with n by lia. rewrite Nat.ltb_irrefl. cbn [orb]. pose proof (trail_val_bound l h ltac:(lia) Hl) as Hv.
    assert (0 <= trail_val h l) as H0 by (pose proof (pow64_pos (length l)); nia).
    destruct ((2 <? n)%nat && _ || _) eqn:Eleg; [right; apply from_error, noignore|left].
    apply legal_char in Eleg as [Hbig Hsur]; [|lia..].
    destruct (sequence_is_enc n h l (trail_val h l) Hn Hh H2 Hl Hll eq_refl Hbig) as [Ex Hrange].
    exists (trail_val h l), t. split; [unfold utf8_char; lia|]. rewrite Ex, E, Eb. cbn [app]. rewrite E in Ed. cbn [drop] in Ed. rewrite drop_0 in Ed. rewrite Ed. reflexivity.
  - right. cbn [mbind run_bind]. rewrite (proj2 (Nat.ltb_lt j n)) by lia. cbn [orb]. apply from_error, noignore.
Qed.

Lemma utf8_internal_unit : unit_body 1 4 (utf8_internal_body A fl (D := D)) utf8_enc (internal A) utf8_char.
Proof.
  intros st Ht Hne Hb _ Hr. destruct (rest st) as [|b tl] eqn:E; [congruence|]. clear Hne.
  assert (is_byte b) as Hbb by (apply Forall_cons in Hb; apply Hb).
  assert (forall x t, utf8_char x -> rest st = utf8_enc x ++ t -> exists x tail, utf8_char x /\ rest st = utf8_enc x ++ tail /\
    Z.of_nat (length (internal A x)) <= room st /\ utf8_internal_body A fl st = Done (Go, moved utf8_enc (internal A) x tail st)) as Hgo.
  { intros x t Hx Ex. exists x, t. assert (Z.of_nat (length (internal A x)) <= room st) by (rewrite length_internal; lia). repeat split; try assumption; try apply Hx. apply utf8_internal_fits; assumption. }
  destruct (Z.ltb_spec b 0x80) as [Hs|Hs].
  { left. rewrite <- E. apply (Hgo b tl); [unfold is_byte, utf8_char in *; lia|]. rewrite utf8_enc_ascii by (unfold is_byte in Hbb; lia). exact E. }
  assert (utf8_internal_body A fl st = match utf8_lead b with None => STANDARD_FROM_LOOP_ERR_HANDLER fl (illformed_end 5 (rest st) 0) st | Some (n, h) => utf8_multibyte A fl st n h end) as Hbody.
  { unfold utf8_internal_body. rewrite (inbyte_cons st b tl E). cbn [mbind run_bind]. rewrite (proj2 (Z.ltb_ge b 0x80)) by lia. reflexivity. }
  destruct (utf8_lead b) as [[n h]|] eqn:El; [|right; exists GCONV_ILLEGAL_INPUT; split; [auto|rewrite Hbody; apply from_error, noignore]].
  destruct (lead_sound b n h Hbb El) as (Hn & Eb & Hh & H2). rewrite <- E in *.
  destruct (Nat.ltb_spec (length (rest st)) n) as [Hlen|Hlen].
  { right. rewrite Hbody. unfold utf8_multibyte. rewrite (proj2 (Nat.ltb_lt _ _) Hlen).
    destruct (_ =? _)%nat; [exists GCONV_INCOMPLETE_INPUT|exists GCONV_ILLEGAL_INPUT]; (split; [auto|]); [reflexivity|apply from_error, noignore]. }
  destruct (utf8_multibyte_cases st b tl n h) as [(x & t & Hx & Ex)|Hm]; try assumption.
  - left. exact (Hgo x t Hx Ex).
  - right. exists GCONV_ILLEGAL_INPUT. split; [auto|]. rewrite Hbody. exact Hm.
Qed.
End Loops.

(** No code begins with another. *)
Lemma utf8_prefix_code : prefix_code utf8_range utf8_enc.
Proof.
  intros x y a b Hx Hy E. unfold utf8_range in *.
  assert (forall z, 0x80 <= z <= 0x7fffffff -> utf8_lead (lead_mark (utf8_len z) + z / 64 ^ Z.of_nat (utf8_len z - 1)) = Some (utf8_len z, z / 64 ^ Z.of_nat (utf8_len z - 1)) /\
            0x80 <= lead_mark (utf8_len z) + z / 64 ^ Z.of_nat (utf8_len z - 1)) as Hl.
  { intros z Hz. destruct (utf8_len_spec z Hz) as (Hn & _ & _). destruct (lead_complete (utf8_len z) _ Hn (lead_digit z Hz)) as (H & _ & H'); [|auto].
    intros E2. rewrite E2. cbn. apply Z.div_le_lower_bound; lia. }
  destruct (Z.ltb_spec x 0x80), (Z.ltb_spec y 0x80).
  - rewrite !utf8_enc_ascii in E by lia. injection E as E _. exact E.
  - rewrite utf8_enc_ascii in E by lia. injection E as E _. destruct (Hl y ltac:(lia)). lia.
  - rewrite (utf8_enc_ascii y) in E by lia. injection E as E _. destruct (Hl x ltac:(lia)). lia.
  - unfold utf8_enc in E. injection E as Eh Et. destruct (Hl x ltac:(lia)) as [Ex _], (Hl y ltac:(lia)) as [Ey _]. rewrite Eh, Ey in Ex. injection Ex as En Ed.
    rewrite En in *. set (m := (utf8_len x - 1)%nat) in *. apply app_inj_1 in Et as [Et _]; [|rewrite !length_trail_bytes; reflexivity].
    apply (f_equal (trail_val (x / 64 ^ Z.of_nat m))) in Et. rewrite !trail_val_bytes in Et. pose proof (pow64_pos m).
    rewrite (Z.div_mod x (64 ^ Z.of_nat m)), (Z.div_mod y (64 ^ Z.of_nat m)), Ed by lia. lia.
Qed.

Lemma length_utf8_enc_le x : utf8_range x -> (length (utf8_enc x) <= 6)%nat.
Proof. intros Hx. unfold utf8_range in Hx. rewrite length_utf8_enc. destruct (Z.ltb_spec x 0x80) as [Hs|Hs]; [unfold utf8_len; rewrite (proj2 (Z.ltb_lt _ _) Hs); lia|]. pose proof (utf8_len_spec x ltac:(lia)). lia. Qed.

(** * The promises *)

#[export, program] Instance utf8_internal_conv {D} A : UnitConv (utf8_internal (D := D) A) := {
  cin := utf8_enc; cout := internal A; cvalid _ := utf8_char
}.
Next Obligation. discriminate. Qed.
Next Obligation. intros. apply uint_bytes_byte. Qed.
Next Obligation. intros D A x y a b [_ [Hx _]] [_ [Hy _]]. apply utf8_prefix_code; assumption. Qed.
Next Obligation.
  intros D A u d input space l Hp Hb. refine (body_conv_units 1 6 4 4 _ _ utf8_enc (internal A) utf8_char _ _ _ u d input space l Hp Hb); [discriminate| |].
  - split; [lia|]. intros x Hx. rewrite length_internal, length_utf8_enc. lia.
  - intros fl Hf. split; [apply utf8_internal_unit, Hf|]. split; [apply utf8_internal_fits|]. apply fixed_full_body. intros. rewrite length_internal. lia.
Qed.

#[export, program] Instance internal_utf8_conv {D} A : UnitConv (internal_utf8 (D := D) A) := {
  cin := internal A; cout := utf8_enc; cvalid _ := utf8_range
}.
Next Obligation. intros. apply internal_ne. Qed.
Next Obligation. intros D A u x Hx. apply utf8_enc_bytes, Hx. Qed.
Next Obligation. intros D A. apply internal_code. intros x [_ Hx]. unfold utf8_range in Hx. lia. Qed.
Next Obligation.
  intros D A u d input space l Hp Hb. refine (body_conv_units 4 4 1 6 _ _ (internal A) utf8_enc utf8_range _ _ _ u d input space l Hp Hb); [intros; apply internal_ne| |].
  - split; [lia|]. intros x Hx. rewrite length_internal. pose proof (length_utf8_enc_le x Hx). lia.
  - intros fl Hf. split; [apply internal_utf8_unit, Hf|]. split; [apply internal_utf8_fits|apply internal_utf8_full].
Qed.

#[export, program] Instance utf8_internal_resumable {D} A : ResumableConv (utf8_internal (D := D) A).
Next Obligation. intros. apply internal_ne. Qed.
Next Obligation. discriminate. Qed.
Next Obligation. cbn. lia. Qed.
Next Obligation.
  intros D A u d xs x tail l _ Hp Hxs Hx. apply (body_conv_rerun 1 6 4 4 _ _ utf8_enc (internal A) utf8_char); auto; try discriminate; try lia.
  - intros fl Hf. apply utf8_internal_fits.
  - intros y _. rewrite length_internal, length_utf8_enc. lia.
Qed.

#[export, program] Instance internal_utf8_resumable {D} A : ResumableConv (internal_utf8 (D := D) A).
Next Obligation. discriminate. Qed.
Next Obligation. discriminate. Qed.
Next Obligation. cbn. lia. Qed.
Next Obligation.
  intros D A u d xs x tail l _ Hp Hxs Hx. apply (body_conv_rerun 4 4 1 6 _ _ (internal A) utf8_enc utf8_range); auto; try (intros; apply internal_ne); try lia.
  - intros fl Hf. apply internal_utf8_fits.
  - intros y _. rewrite length_internal, length_utf8_enc. lia.
Qed.

(** * The decoder *)

(** The beginning of a sequence: a first byte, and trail bytes but not all. *)
Definition utf8_partial (bs : list Z) : Prop :=
  exists b l n h, bs = b :: l /\ utf8_lead b = Some (n, h) /\ (length bs < n)%nat /\ Forall trail_byte l.

Lemma trail_end_spec l i : Forall is_byte l -> trail_end l i = (i + length l)%nat <-> Forall trail_byte l.
Proof.
  intros Hl. revert i. induction Hl as [|b l Hb Hl IH]; intros i; cbn [trail_end length]; [rewrite Nat.add_0_r; split; auto|].
  destruct (is_trail b) eqn:Eb.
  - apply is_trail_spec in Eb; [|assumption]. rewrite Nat.add_succ_r, <- Nat.add_succ_l, IH, Forall_cons. tauto.
  - split; [lia|]. intros H. apply Forall_cons in H as [H _]. apply is_trail_spec in H; [congruence|assumption].
Qed.

(** A body that stops has seen the beginning of a sequence, or something that is none. *)
Lemma utf8_body_break {D} A fl (st : lst D) s : Z.land fl GCONV_IGNORE_ERRORS = 0 -> Forall is_byte (rest st) -> 
  utf8_internal_body A fl st = Done (Break, set_result s st) -> (s = GCONV_INCOMPLETE_INPUT /\ utf8_partial (rest st)) \/ (s = GCONV_ILLEGAL_INPUT /\ ~ utf8_partial (rest st)).
Proof.
  intros Hf Hb. unfold utf8_internal_body. destruct (rest st) as [|b l] eqn:E; [unfold inbyte; rewrite E; discriminate|].
  rewrite (inbyte_cons st b l E). cbn [mbind run_bind]. apply Forall_cons in Hb as [Hb Hl].
  destruct (Z.ltb_spec b 0x80) as [Hs|Hs].
  { rewrite (advance_app st 1 [b] l E eq_refl). cbn [mbind run_bind]. unfold utf8_store, put32, emit, bounds_. destruct (_ <=? _); discriminate. }
  destruct (utf8_lead b) as [[n h]|] eqn:El.
  2:{ rewrite from_error by assumption. intros H. injection H as H. right. split; [auto|]. intros (b' & l' & n & h & E' & El' & _). congruence. }
  unfold utf8_multibyte. rewrite E. destruct (Nat.ltb_spec (length (b :: l)) n) as [Hn|Hn].
  - cbn [drop]. rewrite drop_0. destruct (Nat.eqb_spec (trail_end l 1) (length (b :: l))) as [Ee|Ee].
    + intros H. injection H as H. left. split; [auto|]. exists b, l, n, h. repeat split; auto. apply (trail_end_spec l 1 Hl). exact Ee.
    + rewrite from_error by assumption. intros H. injection H as H. right. split; [auto|].
      intros (b' & l' & n' & h' & E' & El' & _ & Ht). injection E' as <- <-. apply Ee. apply (trail_end_spec l 1 Hl), Ht.
  - intros H. assert (~ utf8_partial (b :: l)) as Hp. { intros (b' & l' & n' & h' & E' & El' & Hn' & _). injection E' as <- <-. rewrite El in El'. injection El' as -> ->. lia. }
    right. split; [|exact Hp]. destruct (read_trail _ _ _ _) as [[i ch]| | |]; try discriminate. cbn [mbind run_bind] in H. destruct (_ || _).
    + rewrite from_error in H by assumption. injection H as H. auto.
    + unfold advance, bounds_ in H. destruct (_ <=? _)%nat; try discriminate. cbn in H. unfold utf8_store, put32, emit, bounds_ in H. destruct (_ <=? _); discriminate.
Qed.

(** [bs] decoded with [space] bytes of room: the characters [xs], the rest [tail], and the status for it. *)
Definition utf8_decoded (bs : list Z) (space : Z) (xs tail : list Z) (s : status) : Prop :=
  bs = enc utf8_enc xs ++ tail /\ Forall utf8_char xs /\ (0 <= space -> 4 * Z.of_nat (length xs) <= space) /\
  match s with
  | GCONV_EMPTY_INPUT => tail = []
  | GCONV_FULL_OUTPUT => tail <> [] /\ space - 4 * Z.of_nat (length xs) < 4
  | GCONV_INCOMPLETE_INPUT => utf8_partial tail /\ 4 <= space - 4 * Z.of_nat (length xs)
  | GCONV_ILLEGAL_INPUT => 4 <= space - 4 * Z.of_nat (length xs) /\ tail <> [] /\ ~ utf8_partial tail /\ (forall x t, utf8_char x -> tail <> utf8_enc x ++ t)
  | _ => False
  end.

Lemma utf8_decoder_spec {D} A u (d : step_data D) input space l : plain d -> Forall is_byte input ->
  exists xs tail s, run_loop (utf8_internal A) u d input space l = Done (Lst (enc utf8_enc xs) tail (enc (internal A) xs) (space - 4 * Z.of_nat (length xs)) l s []) /\
    utf8_decoded input space xs tail s.
Proof.
  intros Hp Hb. unfold utf8_internal. rewrite (body_conv_loop 1 6 4 4 _ _ u d) by apply Hp. pose proof (plain_flags d Hp) as Hf.
  destruct (LOOPFCT_units (D := D) 1 4 (utf8_internal_body A (flags d)) utf8_enc (internal A) utf8_char ltac:(discriminate) input space l (utf8_internal_unit A _ Hf) Hb)
    as (xs & tail & s & E & Ei & Hx & Hs & Hse & Hroom & Hend).
  assert (Z.of_nat (length (enc (internal A) xs)) = 4 * Z.of_nat (length xs)) as Hl by (rewrite (length_enc_fixed _ 4) by (intros; rewrite length_internal; reflexivity); lia).
  rewrite Hl in *. exists xs, tail, s. split; [exact E|]. split; [exact Ei|]. split; [exact Hx|]. split; [exact Hroom|].
  unfold ended in Hend. cbn [rest room ltrans] in Hend. destruct tail as [|b tail]; [subst s; reflexivity|].
  destruct Hend as [(H & _)|[[Hr ->]|(Hr & _ & Hne & Hbody)]]; [lia|split; [discriminate|lia]|].
  assert (Forall is_byte (b :: tail)) as Hbt by (rewrite Ei in Hb; apply Forall_app in Hb; apply Hb).
  destruct ((fun H => utf8_body_break A _ _ s Hf H Hbody) Hbt) as [[-> Hpart]|[-> Hpart]]; [split; [exact Hpart|lia]|].
  split; [lia|]. split; [discriminate|]. split; [exact Hpart|]. intros x t Hxc Et.
  rewrite (utf8_internal_fits A (flags d) (Lst _ (b :: tail) _ _ _ _ []) x t eq_refl Hxc Et) in Hbody; [discriminate|]. cbn [room]. rewrite length_internal. lia.
Qed.

(** C11: The loop from UTF-8 to the internal form, for every input and every room of the output: it converts the
    codes of characters, neither surrogates nor above 2^31, in the one form that ISO 10646 allows (no overlong
    form is accepted), and what it reports on the rest is right: the output is full exactly when there is no room for
    a character, the input is incomplete when the rest is the beginning of a sequence, and illegal when it is neither
    that nor begins with the code of a character. *)
Theorem utf8_decoder_correct {D} A u (d : step_data D) input space l : plain d -> Forall is_byte input ->
  exists xs tail s, run_loop (utf8_internal A) u d input space l = Done (Lst (enc utf8_enc xs) tail (enc (internal A) xs) (space - 4 * Z.of_nat (length xs)) l s []) /\
    utf8_decoded input space xs tail s.
Proof. apply utf8_decoder_spec. Qed.

Definition le64 : arch := Arch true false.

Lemma utf8_decoder_witness : exists xs tail s, run_loop (utf8_internal le64) false (StepData 1000 1100 [] 1 0 zero_state [] : step_data ()) [0x41; 0xe2; 0x82; 0xac; 0xc0; 0x80] 100 (Some 0) =
    Done (Lst (enc utf8_enc xs) tail (enc (internal le64) xs) (100 - 4 * Z.of_nat (length xs)) (Some 0) s []).
Proof.
  destruct (utf8_decoder_correct le64 false (StepData 1000 1100 [] 1 0 zero_state [] : step_data ()) [0x41; 0xe2; 0x82; 0xac; 0xc0; 0x80] 100 (Some 0)) as (xs & tail & s & H & _).
  - split; reflexivity.
  - repeat constructor; unfold is_byte; lia.
  - exists xs, tail, s. exact H.
Defined.

(** * Round trip *)

Lemma loop_frame_all {D} min_in min_out body E_in E_out (P : Z -> Prop) : (forall x, P x -> E_in x <> []) -> fits_body body E_in E_out P ->
  (forall x, P x -> (min_in <= length (E_in x))%nat /\ min_out <= Z.of_nat (length (E_out x))) ->
  forall xs fuel (st : lst D), Forall P xs -> rest st = enc E_in xs -> Z.of_nat (length (enc E_out xs)) <= room st -> ltrans st = [] -> (length xs < fuel)%nat ->
  loop min_in min_out body fuel st = Done (Lst (consumed st ++ enc E_in xs) [] (produced st ++ enc E_out xs) (room st - Z.of_nat (length (enc E_out xs))) (irrev st) (result st) []).
Proof.
  intros Hne Hb Hm. induction xs as [|y xs IH]; intros fuel st Hxs Er Hroom Ht Hf; (destruct fuel as [|fuel]; [lia|]); cbn [loop].
  - change (enc E_in []) with (@nil Z) in *. rewrite Er. unfold enc. cbn. rewrite !app_nil_r, Z.sub_0_r. destruct st; cbn in *; subst; reflexivity.
  - apply Forall_cons in Hxs as [Hy Hxs]. rewrite enc_cons in Er. rewrite enc_cons, length_app in Hroom. destruct (Hm y Hy) as [Hi Ho]. pose proof (Hne y Hy) as Hn.
    rewrite (proj2 (Nat.ltb_ge (length (rest st)) min_in)) by (rewrite Er, length_app; lia). rewrite andb_false_r, (proj2 (Z.ltb_ge (room st) min_out)) by lia.
    rewrite (Hb st y _ Ht Hy Er) by lia. cbn [mbind run_bind].
    rewrite (IH fuel (moved E_in E_out y (enc E_in xs) st) Hxs eq_refl) by (cbn in *; (exact Ht || lia)).
    cbn [moved consumed produced irrev room result]. rewrite !enc_cons, <- !app_assoc, Er, length_app. rewrite Nat2Z.inj_add, Z.sub_add_distr. destruct (E_in y); [congruence|]. reflexivity.
Qed.

Lemma LOOPFCT_all {D} min_in min_out body E_in E_out (P : Z -> Prop) xs space l : (forall x, P x -> E_in x <> []) -> fits_body (D := D) body E_in E_out P ->
  (forall x, P x -> (min_in <= length (E_in x))%nat /\ min_out <= Z.of_nat (length (E_out x))) -> Forall P xs -> Z.of_nat (length (enc E_out xs)) <= space ->
  LOOPFCT min_in min_out body [] (enc E_in xs) space l = Done (Lst (enc E_in xs) [] (enc E_out xs) (space - Z.of_nat (length (enc E_out xs))) l GCONV_EMPTY_INPUT []).
Proof.
  intros Hne Hb Hm Hx Hr. unfold LOOPFCT. rewrite (loop_frame_all min_in min_out body E_in E_out P Hne Hb Hm xs); auto.
  assert (length xs <= length (enc E_in xs))%nat; [|cbn [rest]; lia]. clear Hr. induction Hx as [|x xs Hx _ IH]; [cbn; lia|].
  rewrite enc_cons, length_app. pose proof (Hne x Hx). destruct (E_in x); [congruence|]. cbn. lia.
Qed.

(** Every sequence of characters is encoded in UTF-8 and decoded back, each loop reporting that it
    used up its input: the encoder stores the codes that ISO 10646 defines, and the decoder gives back the
    characters, in the byte order of the machine. *)
Theorem utf8_roundtrip {D} A u u' (d d' : step_data D) xs space space' l l' : plain d -> plain d' -> Forall utf8_char xs ->
  Z.of_nat (length (enc utf8_enc xs)) <= space -> 4 * Z.of_nat (length xs) <= space' ->
  exists st, run_loop (internal_utf8 A) u d (enc (internal A) xs) space l = Done st /\ produced st = enc utf8_enc xs /\ result st = GCONV_EMPTY_INPUT /\ rest st = [] /\
  exists st', run_loop (utf8_internal A) u' d' (produced st) space' l' = Done st' /\ produced st' = enc (internal A) xs /\ result st' = GCONV_EMPTY_INPUT /\ rest st' = [].
Proof.
  intros Hp Hp' Hx Hr Hr'. unfold internal_utf8, utf8_internal. rewrite (body_conv_loop 4 4 1 6 _ _ u d), (body_conv_loop 1 6 4 4 _ _ u' d') by (apply Hp || apply Hp').
  assert (Forall utf8_range xs) as Hx' by (eapply Forall_impl; [exact Hx|intros x H; apply H]).
  eexists. split; [apply (LOOPFCT_all _ _ _ (internal A) utf8_enc utf8_range); [| | |exact Hx'|exact Hr]|].
  - intros; apply internal_ne.
  - apply internal_utf8_fits.
  - intros x _. rewrite length_internal, length_utf8_enc. cbn; lia.
  - split; [reflexivity|]. split; [reflexivity|]. split; [reflexivity|]. eexists. split; [|split; [|split]].
    + apply (LOOPFCT_all _ _ _ utf8_enc (internal A) utf8_char); [discriminate|apply utf8_internal_fits| |exact Hx|].
      * intros x _. rewrite length_internal, length_utf8_enc. cbn; lia.
      * rewrite (length_enc_fixed _ 4) by (intros; rewrite length_internal; reflexivity). lia.
    + reflexivity.
    + reflexivity.
    + reflexivity.
Qed.

Lemma utf8_roundtrip_witness : exists st, run_loop (internal_utf8 le64) false (StepData 1000 1100 [] 1 0 zero_state [] : step_data ()) (enc (internal le64) [0x41; 0x20ac; 0x7fffffff]) 10 (Some 0) = Done st /\
  produced st = [0x41; 0xe2; 0x82; 0xac; 0xfd; 0xbf; 0xbf; 0xbf; 0xbf; 0xbf].
Proof.
  destruct (utf8_roundtrip le64 false false (StepData 1000 1100 [] 1 0 zero_state [] : step_data ()) (StepData 1000 1100 [] 1 0 zero_state []) [0x41; 0x20ac; 0x7fffffff] 10 12 (Some 0) (Some 0)) as (st & H & Hs & _).
  - split; reflexivity.
  - split; reflexivity.
  - repeat constructor; lia.
  - vm_compute. discriminate.
  - vm_compute. discriminate.
  - exists st. split; [exact H|]. rewrite Hs. vm_compute. reflexivity.
Defined.
