(* ===== verification/GconvSets.v ===== *)
(** Character conversion, the other character sets of iconv/gconv_simple.c: ASCII, UCS-2 and UCS-4 in either byte
    order keep the promises of [UnitConv], so that any of them can be chained with any other. *)
From S2P Require Import Prelude CMem MemWrite Byteswap Gconv GconvSimple GconvSkel GconvUnits GconvChain GconvUtf8.

(** * Integers in the input *)

Section Integers.
Context {D : Type} (A : arch).
Implicit Types st : lst D.

Lemma split_uint n st : (n <= length (rest st))%nat -> Forall is_byte (rest st) ->
  exists x tail, 0 <= x < 256 ^ Z.of_nat n /\ rest st = uint_bytes A n x ++ tail /\ inbytes st n = Done (uint_bytes A n x).
Proof.
  intros Hl Hb. assert (Forall is_byte (take n (rest st))) as Hbn by (apply Forall_take, Hb). assert (length (take n (rest st)) = n) as Hln by (rewrite length_take; lia).
  pose proof (uint_val_bound A _ Hbn) as Hv. rewrite Hln in Hv. exists (uint_val A (take n (rest st))), (drop n (rest st)). split; [exact Hv|].
  assert (uint_bytes A n (uint_val A (take n (rest st))) = take n (rest st)) as -> by (rewrite <- Hln at 1; apply uint_bytes_val, Hbn).
  rewrite take_drop. split; [reflexivity|]. apply (inbytes_app st n _ (drop n (rest st))); [rewrite take_drop; reflexivity|exact Hln].
Qed.

Lemma get16_app st x tail : 0 <= x < 2 ^ 16 -> rest st = uint_bytes A 2 x ++ tail -> get16 A st = Done x.
Proof.
  intros Hx E. unfold get16. rewrite (inbytes_app st 2 _ tail E (length_uint_bytes A 2 x)). cbn [mbind run_bind]. unfold mret, run_ret. f_equal. apply uint_val_bytes. exact Hx.
Qed.

Lemma put32_internal x st : 0 <= x < 2 ^ 32 -> put32 A x st = emit (internal A x) st.
Proof. intros Hx. unfold put32, u32, internal. rewrite uwrap_small by lia. reflexivity. Qed.

Lemma bswap_16_bytes a b : is_byte a -> is_byte b -> bswap_16 (a + 256 * b) = b + 256 * a.
Proof.
  unfold is_byte. intros Ha Hb. unfold bswap_16. change 0xff with (Z.ones 8). rewrite !Z.land_ones, Z.shiftr_div_pow2 by lia. change (2 ^ 8) with 256.
  replace ((a + 256 * b) / 256) with b by (apply Z.div_unique with a; lia). replace ((a + 256 * b) mod 256) with a by (apply Z.mod_unique with b; lia).
  rewrite (Z.mod_small b) by lia. rewrite Z.lor_comm, lor_low by lia. change (2 ^ 8) with 256. rewrite uwrap_small by lia. lia.
Qed.

(** The two bytes of [x] and of its swap are in opposite order. *)
Lemma bswap_16_rev x : 0 <= x < 2 ^ 16 -> uint_bytes A 2 (bswap_16 x) = rev (uint_bytes A 2 x) /\ 0 <= bswap_16 x < 2 ^ 16 /\ bswap_16 (bswap_16 x) = x.
Proof.
  intros Hx. pose proof (Z.mod_pos_bound x 256 ltac:(lia)) as Hm. assert (0 <= x / 256 < 256) as Hd by (split; [apply Z.div_pos; lia|apply Z.div_lt_upper_bound; lia]).
  assert (x = x mod 256 + 256 * (x / 256)) as E by (pose proof (Z.div_mod x 256); lia). rewrite E. set (a := x mod 256) in *. set (b := x / 256) in *.
  rewrite !bswap_16_bytes by (unfold is_byte; lia). split; [|split; [lia|reflexivity]].
  assert (forall p q, 0 <= p < 256 -> 0 <= q < 256 -> le_bytes 2 (p + 256 * q) = [p; q]) as Hle.
  { intros p q Hp Hq. cbn. rewrite (Z.mul_comm 256), Z.div_add, (Z.div_small p), Z.mod_add, (Z.mod_small p), Z.add_0_l, (Z.mod_small q) by lia. reflexivity. }
  unfold uint_bytes. rewrite !Hle by lia. destruct (big_endian A); reflexivity.
Qed.
End Integers.

(** * Characters that are dropped *)

(** The tag characters U+E0000..U+E007F have no code outside of Unicode: they are dropped without an error. *)
Definition is_tag (x : Z) : bool := Z.shiftr x 7 =? Z.shiftr 0xe0000 7.

Definition drop_tags (E : Z -> list Z) (x : Z) : list Z := if is_tag x then [] else E x.

Lemma is_tag_range x : 0 <= x -> is_tag x = true -> 0xe0000 <= x < 0xe0080.
Proof.
  intros Hx H. unfold is_tag in H. apply Z.eqb_eq in H. rewrite Z.shiftr_div_pow2 in H by lia. change (Z.shiftr 0xe0000 7) with 7168 in H. change (2 ^ 7) with 128 in H.
  pose proof (Z.div_mod x 128 ltac:(lia)). pose proof (Z.mod_pos_bound x 128 ltac:(lia)). lia.
Qed.

Lemma tag_dropped {D} A (st : lst D) x tail E k : rest st = internal A x ++ tail -> is_tag x = true ->
  UNICODE_TAG_HANDLER x 4 st k = Done (Go, moved (internal A) (drop_tags E) x tail st).
Proof.
  intros Er Ht. unfold UNICODE_TAG_HANDLER. unfold is_tag in Ht. rewrite Ht. rewrite (advance_app st 4 _ tail Er (length_internal A x)). cbn [mbind run_bind]. unfold moved, drop_tags, is_tag.
  rewrite Ht, app_nil_r. cbn. rewrite Z.sub_0_r. reflexivity.
Qed.

Lemma drop_tags_not E x : is_tag x = false -> drop_tags E x = E x.
Proof. unfold drop_tags. intros ->. reflexivity. Qed.

Lemma small_not_tag x : 0 <= x < 0xe0000 -> is_tag x = false.
Proof. intros Hx. destruct (is_tag x) eqn:Et; [|reflexivity]. apply is_tag_range in Et; lia. Qed.

(** * ASCII *)

Definition ascii_char (x : Z) : Prop := 0 <= x < 0x80.
Definition ascii_or_tag (x : Z) : Prop := ascii_char x \/ (0 <= x < 2 ^ 32 /\ is_tag x = true).

Section Ascii.
Context {D : Type} (A : arch) (fl : Z) (noignore : Z.land fl GCONV_IGNORE_ERRORS = 0).
Implicit Types st : lst D.

Lemma ascii_internal_fits : fits_body (ascii_internal_body A fl (D := D)) (fun x => [x]) (internal A) ascii_char.
Proof.
  intros st x tail _ Hx E Hr. unfold ascii_char in Hx. unfold ascii_internal_body. rewrite (inbyte_cons st x tail E). cbn [mbind run_bind]. rewrite (proj2 (Z.ltb_ge 0x7f x)), put32_internal by lia.
  apply (emit_advance (fun x => [x]) (internal A) x tail st 1); [exact E|reflexivity|exact Hr].
Qed.

Lemma ascii_internal_unit : unit_body 1 4 (ascii_internal_body A fl (D := D)) (fun x => [x]) (internal A) ascii_char.
Proof.
  intros st Ht Hne Hb _ Hr. destruct (rest st) as [|b tl] eqn:E; [congruence|]. apply Forall_cons in Hb as [Hb _]. unfold is_byte in Hb. destruct (Z.ltb_spec 0x7f b) as [Hl|Hl].
  - right. exists GCONV_ILLEGAL_INPUT. split; [auto|]. unfold ascii_internal_body. rewrite (inbyte_cons st b tl E). cbn [mbind run_bind]. rewrite (proj2 (Z.ltb_lt 0x7f b) Hl). apply from_error, noignore.
  - left. exists b, tl. rewrite length_internal. split; [unfold ascii_char; lia|]. split; [reflexivity|]. split; [lia|]. apply ascii_internal_fits; [exact Ht|unfold ascii_char; lia|exact E|rewrite length_internal; lia].
Qed.

Lemma internal_ascii_fits : fits_body (internal_ascii_body A fl (D := D)) (internal A) (drop_tags (fun x => [x])) ascii_or_tag.
Proof.
  intros st x tail _ Hx E Hr. assert (0 <= x < 2 ^ 32) as Hx' by (destruct Hx as [Hx|[Hx _]]; [unfold ascii_char in Hx; lia|exact Hx]).
  unfold internal_ascii_body. rewrite (get32_internal A st x tail Hx' E). cbn [mbind run_bind]. destruct (Z.ltb_spec 0x7f x) as [Hl|Hl].
  - destruct Hx as [Hx|[_ Ht]]; [unfold ascii_char in Hx; lia|]. apply tag_dropped; assumption.
  - assert ([u8 x] = drop_tags (fun x => [x]) x) as ->. { rewrite drop_tags_not by (apply small_not_tag; lia). f_equal. apply uwrap_small; lia. }
    apply emit_advance; [exact E|apply length_internal|exact Hr].
Qed.

Lemma internal_ascii_unit : unit_body 4 1 (internal_ascii_body A fl (D := D)) (internal A) (drop_tags (fun x => [x])) ascii_or_tag.
Proof.
  intros st Ht Hne Hb Hl Hr. destruct (split_internal A st (Hl ltac:(lia)) Hb) as (x & tail & Hx & E & Hg).
  assert (ascii_or_tag x \/ 0x7f < x /\ is_tag x = false) as [Hc|[Hc Et]].
  { unfold ascii_or_tag, ascii_char. destruct (Z.ltb_spec 0x7f x), (is_tag x); auto; left; lia || auto. }
  - left. exists x, tail. assert (Z.of_nat (length (drop_tags (fun x => [x]) x)) <= room st) by (unfold drop_tags; case_match; cbn; lia). repeat (split; [assumption|]). apply internal_ascii_fits; assumption.
  - right. exists GCONV_ILLEGAL_INPUT. split; [auto|]. unfold internal_ascii_body. rewrite Hg. cbn [mbind run_bind]. rewrite (proj2 (Z.ltb_lt 0x7f x) Hc). unfold UNICODE_TAG_HANDLER. unfold is_tag in Et. rewrite Et. apply to_error; assumption.
Qed.
End Ascii.

(** * UCS-2 *)

Definition ucs2_char (x : Z) : Prop := 0 <= x < 0x10000 /\ is_surrogate x = false.
Definition ucs2_or_tag (x : Z) : Prop := ucs2_char x \/ (0 <= x < 2 ^ 32 /\ is_tag x = true).

Definition ucs2 (A : arch) (x : Z) : list Z := uint_bytes A 2 x.
Definition ucs2reverse (A : arch) (x : Z) : list Z := rev (uint_bytes A 2 x).

Lemma length_ucs2 A x : length (ucs2 A x) = 2%nat.
Proof. apply length_uint_bytes. Qed.

Lemma length_ucs2reverse A x : length (ucs2reverse A x) = 2%nat.
Proof. unfold ucs2reverse. rewrite length_rev. apply length_uint_bytes. Qed.

Section Ucs2.
Context {D : Type} (A : arch) (fl : Z) (noignore : Z.land fl GCONV_IGNORE_ERRORS = 0).
Implicit Types st : lst D.

Lemma ignore_no st : ignore_errors_p fl st = false.
Proof. unfold ignore_errors_p. rewrite noignore. cbn. apply andb_false_r. Qed.

(** Both decoders, for the code [E] that they read. *)
Lemma from_ucs2_body (body : lst D -> run (ctl * lst D)) (E : Z -> list Z) :
  (forall x, length (E x) = 2%nat) -> (forall st, (2 <= length (rest st))%nat -> Forall is_byte (rest st) -> exists x tail, 0 <= x < 2 ^ 16 /\ rest st = E x ++ tail) ->
  (forall st x tail, 0 <= x < 2 ^ 16 -> rest st = E x ++ tail -> body st =
     if is_surrogate x then Done (Break, set_result GCONV_ILLEGAL_INPUT st) else st ← put32 A x st; st ← advance 2 st; mret (Go, st)) ->
  unit_body 2 4 body E (internal A) ucs2_char /\ fits_body body E (internal A) ucs2_char.
Proof.
  intros HE Hsplit Hbody. assert (fits_body body E (internal A) ucs2_char) as Hfit.
  { intros st x tail _ [Hx Es] Er Hr. rewrite (Hbody st x tail) by (assumption || lia). rewrite Es, put32_internal by lia. apply (emit_advance E (internal A) x tail st 2); auto. }
  split; [|exact Hfit]. intros st Ht Hne Hb Hl Hr. destruct (Hsplit st (Hl ltac:(lia)) Hb) as (x & tail & Hx & Er). destruct (is_surrogate x) eqn:Es.
  - right. exists GCONV_ILLEGAL_INPUT. split; [auto|]. rewrite (Hbody st x tail Hx Er), Es. reflexivity.
  - left. exists x, tail. rewrite length_internal. assert (ucs2_char x) by (split; [lia|exact Es]). split; [assumption|]. split; [exact Er|]. split; [lia|]. apply Hfit; auto. rewrite length_internal. lia.
Qed.

Lemma split_ucs2 st : (2 <= length (rest st))%nat -> Forall is_byte (rest st) -> exists x tail, 0 <= x < 2 ^ 16 /\ rest st = ucs2 A x ++ tail.
Proof. intros Hl Hb. destruct (split_uint A 2 st Hl Hb) as (x & tail & Hx & E & _). exists x, tail. auto. Qed.

Lemma ucs2_bswap x : 0 <= x < 2 ^ 16 -> ucs2reverse A x = ucs2 A (bswap_16 x) /\ 0 <= bswap_16 x < 2 ^ 16 /\ bswap_16 (bswap_16 x) = x.
Proof. intros Hx. destruct (bswap_16_rev A x Hx) as (E & H). split; [symmetry; exact E|exact H]. Qed.

Lemma ucs2_internal_ok : unit_body 2 4 (ucs2_internal_body A fl (D := D)) (ucs2 A) (internal A) ucs2_char /\ fits_body (ucs2_internal_body A fl (D := D)) (ucs2 A) (internal A) ucs2_char.
Proof.
  apply from_ucs2_body; [apply length_ucs2|apply split_ucs2|]. intros st x tail Hx Er. unfold ucs2_internal_body. rewrite (get16_app A st x tail Hx Er). cbn [mbind run_bind].
  destruct (is_surrogate x); [apply from_error, noignore|reflexivity].
Qed.

Lemma ucs2reverse_internal_ok : unit_body 2 4 (ucs2reverse_internal_body A fl (D := D)) (ucs2reverse A) (internal A) ucs2_char /\ fits_body (ucs2reverse_internal_body A fl (D := D)) (ucs2reverse A) (internal A) ucs2_char.
Proof.
  apply from_ucs2_body; [apply length_ucs2reverse| |].
  - intros st Hl Hb. destruct (split_ucs2 st Hl Hb) as (y & tail & Hy & E). destruct (ucs2_bswap y Hy) as (_ & Hx & Eb). exists (bswap_16 y), tail. split; [exact Hx|].
    destruct (ucs2_bswap (bswap_16 y) Hx) as (-> & _). rewrite Eb. exact E.
  - intros st x tail Hx Er. destruct (ucs2_bswap x Hx) as (Ex & Hy & Eb). rewrite Ex in Er. unfold ucs2reverse_internal_body. rewrite (get16_app A st (bswap_16 x) tail Hy Er). cbn [mbind run_bind]. rewrite Eb.
    destruct (is_surrogate x); [rewrite ignore_no|]; reflexivity.
Qed.

(** Both encoders, for the code [E] that they store. *)
Lemma to_ucs2_body (body : lst D -> run (ctl * lst D)) (E : Z -> list Z) :
  (forall x, length (E x) = 2%nat) ->
  (forall st x tail, 0 <= x < 2 ^ 32 -> rest st = internal A x ++ tail -> body st =
     if 0x10000 <=? x then UNICODE_TAG_HANDLER x 4 st (STANDARD_TO_LOOP_ERR_HANDLER fl 4)
     else if is_surrogate x then mret (Break, set_result GCONV_ILLEGAL_INPUT st)
     else st ← emit (E x) st; st ← advance 4 st; mret (Go, st)) ->
  unit_body 4 2 body (internal A) (drop_tags E) ucs2_or_tag /\ fits_body body (internal A) (drop_tags E) ucs2_or_tag.
Proof.
  intros HE Hbody. assert (fits_body body (internal A) (drop_tags E) ucs2_or_tag) as Hfit.
  { intros st x tail _ Hx Er Hr. rewrite (Hbody st x tail) by (assumption || (destruct Hx as [[Hx _]|[Hx _]]; lia)). destruct Hx as [[Hx Es]|[Hx Et]].
    - rewrite (proj2 (Z.leb_gt 0x10000 x)), Es by lia. rewrite <- (drop_tags_not E x) by (apply small_not_tag; lia). apply emit_advance; [exact Er|apply length_internal|exact Hr].
    - rewrite (proj2 (Z.leb_le 0x10000 x)) by (apply is_tag_range in Et; lia). apply tag_dropped; assumption. }
  split; [|exact Hfit]. intros st Ht Hne Hb Hl Hr. destruct (split_internal A st (Hl ltac:(lia)) Hb) as (x & tail & Hx & Er & _).
  assert (ucs2_or_tag x \/ (if 0x10000 <=? x then is_tag x = false else is_surrogate x = true)) as [Hc|Hc].
  { unfold ucs2_or_tag, ucs2_char. destruct (Z.leb_spec 0x10000 x), (is_tag x), (is_surrogate x); auto; left; left; split; auto; lia. }
  - left. exists x, tail. assert (Z.of_nat (length (drop_tags E x)) <= room st) by (unfold drop_tags; case_match; [cbn; lia|rewrite HE; lia]). repeat (split; [assumption|]). apply Hfit; assumption.
  - right. exists GCONV_ILLEGAL_INPUT. split; [auto|]. rewrite (Hbody st x tail Hx Er). destruct (0x10000 <=? x); [|rewrite Hc; reflexivity].
    unfold UNICODE_TAG_HANDLER. unfold is_tag in Hc. rewrite Hc. apply to_error; assumption.
Qed.

Lemma internal_ucs2_ok : unit_body 4 2 (internal_ucs2_body A fl (D := D)) (internal A) (drop_tags (ucs2 A)) ucs2_or_tag /\ fits_body (internal_ucs2_body A fl (D := D)) (internal A) (drop_tags (ucs2 A)) ucs2_or_tag.
Proof.
  apply to_ucs2_body; [apply length_ucs2|]. intros st x tail Hx Er. unfold internal_ucs2_body. rewrite (get32_internal A st x tail Hx Er). cbn [mbind run_bind].
  destruct (Z.leb_spec 0x10000 x); [reflexivity|]. destruct (is_surrogate x); [rewrite ignore_no; reflexivity|]. unfold put16, ucs2. rewrite (uwrap_small 16 x) by lia. reflexivity.
Qed.

Lemma internal_ucs2reverse_ok : unit_body 4 2 (internal_ucs2reverse_body A fl (D := D)) (internal A) (drop_tags (ucs2reverse A)) ucs2_or_tag /\ fits_body (internal_ucs2reverse_body A fl (D := D)) (internal A) (drop_tags (ucs2reverse A)) ucs2_or_tag.
Proof.
  apply to_ucs2_body; [apply length_ucs2reverse|]. intros st x tail Hx Er. unfold internal_ucs2reverse_body. rewrite (get32_internal A st x tail Hx Er). cbn [mbind run_bind].
  destruct (Z.leb_spec 0x10000 x); [reflexivity|]. destruct (is_surrogate x); [rewrite ignore_no; reflexivity|]. unfold put16, ucs2reverse.
  destruct (bswap_16_rev A x ltac:(lia)) as (E & Hy & _). rewrite (uwrap_small 16), E by lia. reflexivity.
Qed.
End Ucs2.

(** * UCS-4 *)

Definition ucs4 (x : Z) : list Z := rev (le_bytes 4 x).
Definition ucs4le (x : Z) : list Z := le_bytes 4 x.

Definition word_char (x : Z) : Prop := 0 <= x < 2 ^ 32.

Lemma length_ucs4 x : length (ucs4 x) = 4%nat.
Proof. unfold ucs4. rewrite length_rev. apply length_le_bytes. Qed.

Lemma length_ucs4le x : length (ucs4le x) = 4%nat.
Proof. apply length_le_bytes. Qed.

(** The words of both byte orders, and of the machine. *)
Section Words.
Context (A : arch).

Lemma be_word_ucs4 x : word_char x -> be_word A (ucs4 x) = x /\ uint_bytes A 4 (be_word A (ucs4 x)) = internal A x.
Proof.
  intros Hx. assert (be_word A (ucs4 x) = x) as E.
  { unfold be_word, uint_val, be_val, ucs4. destruct (big_endian A); rewrite ?rev_involutive; [apply le_val_le_bytes, Hx|].
    rewrite bswap_32_bytes, rev_involutive by (try rewrite length_rev; auto using length_le_bytes, rev_Forall, le_bytes_byte). apply le_val_le_bytes, Hx. }
  rewrite E. auto.
Qed.

Lemma le_word_ucs4le x : word_char x -> le_word A (ucs4le x) = x /\ uint_bytes A 4 (le_word A (ucs4le x)) = internal A x.
Proof.
  intros Hx. assert (le_word A (ucs4le x) = x) as E.
  { unfold le_word, uint_val, be_val, ucs4le. destruct (big_endian A); [|apply le_val_le_bytes, Hx].
    rewrite bswap_32_bytes, rev_involutive by (try rewrite length_rev; auto using length_le_bytes, rev_Forall, le_bytes_byte). apply le_val_le_bytes, Hx. }
  rewrite E. auto.
Qed.

(** The bytes as the loops for unaligned buffers move them. *)
Lemma reversed_to_internal x : (if big_endian A then id else reversed) (ucs4 x) = internal A x.
Proof. unfold internal, uint_bytes, ucs4, reversed. destruct (big_endian A); [reflexivity|apply rev_involutive]. Qed.

Lemma reversed_from_internal x : (if big_endian A then id else reversed) (internal A x) = ucs4 x.
Proof. unfold internal, uint_bytes, ucs4, reversed. destruct (big_endian A); reflexivity. Qed.

Lemma reversed_to_internal_le x : (if big_endian A then reversed else id) (ucs4le x) = internal A x.
Proof. unfold internal, uint_bytes, ucs4le, reversed. destruct (big_endian A); reflexivity. Qed.

Lemma reversed_from_internal_le x : (if big_endian A then reversed else id) (internal A x) = ucs4le x.
Proof. unfold internal, uint_bytes, ucs4le, reversed. destruct (big_endian A); [apply rev_involutive|reflexivity]. Qed.

Lemma byteswapped_rev w : length w = 4%nat -> Forall is_byte w -> byteswapped A w = rev w.
Proof.
  intros Hl Hb. unfold byteswapped, uint_bytes, uint_val, be_val. assert (Forall is_byte (rev w)) as Hr by apply rev_Forall, Hb. assert (length (rev w) = 4%nat) as Hlr by (rewrite length_rev; exact Hl).
  destruct (big_endian A).
  - rewrite bswap_32_bytes, rev_involutive by assumption. rewrite <- Hl, le_bytes_le_val by assumption. reflexivity.
  - rewrite bswap_32_bytes by assumption. rewrite <- Hlr, le_bytes_le_val by assumption. reflexivity.
Qed.

Lemma byteswapped_from_internal x : (if big_endian A then id else byteswapped A) (internal A x) = ucs4 x.
Proof.
  rewrite <- reversed_from_internal. destruct (big_endian A); [reflexivity|]. apply byteswapped_rev; [apply length_internal|apply uint_bytes_byte].
Qed.

Lemma byteswapped_from_internal_le x : (if big_endian A then byteswapped A else id) (internal A x) = ucs4le x.
Proof.
  rewrite <- reversed_from_internal_le. destruct (big_endian A); [|reflexivity]. apply byteswapped_rev; [apply length_internal|apply uint_bytes_byte].
Qed.

(** The first byte tells the values that are too large, except for the smallest of them. *)
Lemma top_byte_be x : word_char x -> (0x80 <? word_byte 0 (ucs4 x)) = (0x81000000 <=? x).
Proof.
  intros Hx. unfold word_byte, ucs4. cbn [le_bytes rev app nth]. rewrite !Z.div_div by lia. change (256 * (256 * 256)) with 0x1000000. unfold word_char in Hx.
  assert (0 <= x / 0x1000000 < 256) as Hd by (split; [apply Z.div_pos; lia|apply Z.div_lt_upper_bound; lia]). rewrite Z.mod_small by exact Hd.
  pose proof (Z.div_mod x 0x1000000 ltac:(lia)). pose proof (Z.mod_pos_bound x 0x1000000 ltac:(lia)).
  destruct (Z.leb_spec 0x81000000 x); [apply Z.ltb_lt|apply Z.ltb_ge]; lia.
Qed.

Lemma top_byte_le x : word_char x -> (0x80 <? word_byte 3 (ucs4le x)) = (0x81000000 <=? x).
Proof. intros Hx. rewrite <- top_byte_be by assumption. reflexivity. Qed.
End Words.

(** The words of an input. *)
Lemma words_of (E : Z -> list Z) (inv : list Z -> Z) : (forall w, length w = 4%nat -> Forall is_byte w -> word_char (inv w) /\ E (inv w) = w) ->
  forall n input, (4 * n <= length input)%nat -> Forall is_byte input -> exists xs, length xs = n /\ Forall word_char xs /\ input = enc E xs ++ drop (4 * n) input.
Proof.
  intros Hinv. induction n as [|n IH]; intros input Hl Hb; [exists []; auto|].
  destruct (Hinv (take 4 input)) as [Hx Ex]; [rewrite length_take; lia|apply Forall_take, Hb|].
  destruct (IH (drop 4 input)) as (xs & Hlen & Hxs & E'); [rewrite length_drop; lia|apply Forall_drop, Hb|].
  exists (inv (take 4 input) :: xs). split; [cbn; lia|]. split; [constructor; assumption|]. rewrite enc_cons, Ex, <- app_assoc.
  rewrite drop_drop in E'. replace (4 + 4 * n)%nat with (4 * S n)%nat in E' by lia. rewrite <- E', take_drop. reflexivity.
Qed.

Lemma internal_words A w : length w = 4%nat -> Forall is_byte w -> word_char (uint_val A w) /\ internal A (uint_val A w) = w.
Proof. intros Hl Hb. pose proof (uint_val_bound A w Hb) as Hv. rewrite Hl in Hv. split; [exact Hv|]. unfold internal. rewrite <- Hl. apply uint_bytes_val, Hb. Qed.

Lemma ucs4_words w : length w = 4%nat -> Forall is_byte w -> word_char (be_val w) /\ ucs4 (be_val w) = w.
Proof. apply (internal_words (Arch true true)). Qed.

Lemma ucs4le_words w : length w = 4%nat -> Forall is_byte w -> word_char (le_val w) /\ ucs4le (le_val w) = w.
Proof. apply (internal_words (Arch true false)). Qed.

Section Ucs4Loops.
Context {D : Type}.
Implicit Types st : lst D.

Lemma each_word_enc E_in E_out f xs tail : (forall x, length (E_in x) = 4%nat) -> (forall x, f (E_in x) = E_out x) ->
  each_word (length xs) f (enc E_in xs ++ tail) = enc E_out xs.
Proof.
  intros Hl Hf. induction xs as [|x xs IH]; [reflexivity|]. cbn [each_word length]. rewrite !enc_cons, <- app_assoc.
  assert (take 4 (E_in x ++ enc E_in xs ++ tail) = E_in x) as -> by (rewrite <- (Hl x); apply take_app_length).
  assert (drop 4 (E_in x ++ enc E_in xs ++ tail) = enc E_in xs ++ tail) as -> by (rewrite <- (Hl x); apply drop_app_length). rewrite Hf, IH. reflexivity.
Qed.

Lemma n_convert_bounds input space : (4 * n_convert input space <= length input)%nat /\ (0 <= space -> 4 * Z.of_nat (n_convert input space) <= space) /\
  (space - 4 * Z.of_nat (n_convert input space) < 4 \/ (length input - 4 * n_convert input space < 4)%nat).
Proof.
  unfold n_convert. set (m := Z.min _ space). pose proof (Z.div_mod m 4 ltac:(lia)). pose proof (Z.mod_pos_bound m 4 ltac:(lia)).
  destruct (Z.ltb_spec m 0); [assert (m / 4 < 0) by (apply Z.div_lt_upper_bound; lia)|assert (0 <= m / 4) by (apply Z.div_pos; lia)]; lia.
Qed.

(** What a loop over words promises, as in [UnitConv]. *)
Definition words_done (E_in E_out : Z -> list Z) (P : Z -> Prop) (input : list Z) (space : Z) (l : option Z) (r : run (lst D)) : Prop :=
  exists xs tail s, r = Done (Lst (enc E_in xs) tail (enc E_out xs) (space - Z.of_nat (length (enc E_out xs))) l s []) /\
    input = enc E_in xs ++ tail /\ Forall P xs /\ stop s /\ (s = GCONV_EMPTY_INPUT <-> tail = []) /\
    (0 <= space -> Z.of_nat (length (enc E_out xs)) <= space) /\
    (is_text E_in P tail -> s = GCONV_FULL_OUTPUT /\ space - Z.of_nat (length (enc E_out xs)) < 4).

(** A status that a loop over words may give in the end. *)
Definition words_stop (s : status) (st : lst D) : Prop :=
  stop s /\ (s = GCONV_EMPTY_INPUT <-> rest st = []) /\ (room st < 4 -> (4 <= length (rest st))%nat -> s = GCONV_FULL_OUTPUT).

Lemma text_length E (P : Z -> Prop) l : (forall x, length (E x) = 4%nat) -> is_text E P l -> (4 <= length l)%nat.
Proof. intros HE ([|w ws] & Hne & _ & ->); [congruence|]. rewrite enc_cons, length_app, HE. lia. Qed.

(** A state after a sequence of words, and the status for it. *)
Lemma words_status E_in E_out P xs input tail space l (f : lst D -> run (lst D)) : (forall x, length (E_in x) = 4%nat) ->
  input = enc E_in xs ++ tail -> Forall P xs -> (0 <= space -> Z.of_nat (length (enc E_out xs)) <= space) ->
  (space - Z.of_nat (length (enc E_out xs)) < 4 \/ (length tail < 4)%nat) ->
  (forall st, (room st < 4 \/ (length (rest st) < 4)%nat) -> exists s, f st = Done (set_result s st) /\ words_stop s st) ->
  words_done E_in E_out P input space l (f (Lst (enc E_in xs) tail (enc E_out xs) (space - Z.of_nat (length (enc E_out xs))) l GCONV_OK [])).
Proof.
  intros HE Ei Hx Hr He Hf. destruct (Hf (Lst (enc E_in xs) tail (enc E_out xs) (space - Z.of_nat (length (enc E_out xs))) l GCONV_OK []) He) as (s & -> & Hs & Hse & Hfull).
  cbn [rest room] in *. exists xs, tail, s. do 6 (split; [assumption || reflexivity|]). intros Ht. apply (text_length _ _ _ HE) in Ht. split; [apply Hfull|]; lia.
Qed.

Lemma full_first_status st : (room st < 4 \/ (length (rest st) < 4)%nat) -> exists s, mret (status_full_first st) = Done (set_result s st) /\ words_stop s st.
Proof.
  intros _. unfold status_full_first, words_stop. eexists. split; [reflexivity|]. destruct (rest st) as [|b l]; [unfold stop; split; [auto|split; [tauto|cbn; lia]]|].
  destruct (Z.ltb_spec (room st) 4); unfold stop; (split; [tauto|split; [split; intros; discriminate|intros; reflexivity || lia]]).
Qed.

Lemma incomplete_first_status st : (room st < 4 \/ (length (rest st) < 4)%nat) -> exists s, status_incomplete_first st = Done (set_result s st) /\ words_stop s st.
Proof.
  intros H. unfold status_incomplete_first, words_stop. destruct (rest st) as [|b l] eqn:E; [exists GCONV_EMPTY_INPUT; unfold stop; split; [reflexivity|split; [auto|split; [tauto|cbn; lia]]]|].
  destruct (Nat.ltb_spec (length (b :: l)) 4).
  - exists GCONV_INCOMPLETE_INPUT. unfold stop. split; [reflexivity|]. split; [tauto|split; [split; intros; discriminate|lia]].
  - exists GCONV_FULL_OUTPUT. rewrite (proj2 (Z.ltb_lt (room st) 4)) by lia. unfold stop. split; [reflexivity|]. split; [tauto|split; [split; intros; discriminate|reflexivity]].
Qed.

Section Copy.
Context (A : arch) (E_out : Z -> list Z) (f : list Z -> list Z) (HE : forall x, length (E_out x) = 4%nat) (Hf : forall x, f (internal A x) = E_out x).

Lemma copy_words_enc (d : step_data D) input space l : plain d -> Forall is_byte input ->
  exists xs tail, copy_words f d input space l = Lst (enc (internal A) xs) tail (enc E_out xs) (space - Z.of_nat (length (enc E_out xs))) l GCONV_OK [] /\
    input = enc (internal A) xs ++ tail /\ Forall word_char xs /\ (0 <= space -> Z.of_nat (length (enc E_out xs)) <= space) /\
    (space - Z.of_nat (length (enc E_out xs)) < 4 \/ (length tail < 4)%nat).
Proof.
  intros [_ Hp] Hb. unfold copy_words. destruct (n_convert_bounds input space) as (Hn & Hs & He). set (n := n_convert input space) in *.
  destruct (words_of (internal A) (uint_val A) (internal_words A) n input Hn Hb) as (xs & Hlen & Hx & Ei).
  assert (Z.of_nat (length (enc E_out xs)) = 4 * Z.of_nat n) as Ho by (rewrite (length_enc_fixed _ 4) by (intros; rewrite HE; reflexivity); lia).
  assert (Z.of_nat (length (enc (internal A) xs)) = 4 * Z.of_nat n) as Hi by (rewrite (length_enc_fixed _ 4) by (intros; rewrite length_internal; reflexivity); lia).
  exists xs, (drop (4 * n) input). rewrite Ho, Hp, length_drop. split; [|split; [exact Ei|split; [exact Hx|split; [exact Hs|lia]]]].
  f_equal.
  - rewrite Ei at 1. replace (4 * n)%nat with (length (enc (internal A) xs)) by lia. apply take_app_length.
  - rewrite Ei, <- Hlen. apply each_word_enc; [apply length_internal|exact Hf].
Qed.

(** The loop, with one of the two ways to determine the status. *)
Lemma copy_done (fin : lst D -> run (lst D)) (d : step_data D) input space l : plain d -> Forall is_byte input ->
  (forall st, (room st < 4 \/ (length (rest st) < 4)%nat) -> exists s, fin st = Done (set_result s st) /\ words_stop s st) ->
  words_done (internal A) E_out word_char input space l (fin (copy_words f d input space l)).
Proof.
  intros Hp Hb Hfin. destruct (copy_words_enc d input space l Hp Hb) as (xs & tail & -> & Ei & Hx & Hr & He). apply words_status; auto using length_internal.
Qed.
End Copy.

Section Check.
Context (A : arch) (E_in : Z -> list Z) (inv : list Z -> Z) (bad : list Z -> bool) (f : list Z -> list Z) (P : Z -> Prop).
Context (HE : forall x, length (E_in x) = 4%nat) (Hinv : forall w, length w = 4%nat -> Forall is_byte w -> word_char (inv w) /\ E_in (inv w) = w).
Context (Hbad : forall x, word_char x -> bad (E_in x) = false <-> P x) (Hf : forall x, word_char x -> f (E_in x) = internal A x) (HP : forall x, P x -> word_char x).

Lemma words_code : prefix_code P E_in.
Proof.
  apply (fixed_prefix_code P E_in 4); [auto|]. intros x y Hx Hy E. apply (internal_inj A); [apply HP; assumption..|]. rewrite <- !Hf by auto. f_equal. exact E.
Qed.

(** A text has no illegal word. *)
Lemma text_legal xs w t : Forall P xs -> length w = 4%nat -> bad w = true -> is_text E_in P (enc E_in xs ++ w ++ t) -> False.
Proof.
  intros Hx Hl Hb Ht. assert (w ++ t <> []) as Hne by (destruct w; [discriminate Hl|discriminate]).
  destruct (is_text_app E_in P P xs (w ++ t) words_code) as [_ H]; auto; [intros y _ E; apply (f_equal length) in E; rewrite HE in E; discriminate E|].
  destruct (H Hne) as ([|y ys] & Hys & Hy & E); [congruence|]. apply Forall_cons in Hy as [Hy _]. rewrite enc_cons in E. apply app_inj_1 in E as [-> _]; [|rewrite HE; exact Hl].
  apply (Hbad y (HP y Hy)) in Hy. congruence.
Qed.

(** The words up to the first that is illegal. *)
Lemma check_words_enc fl n : Z.land fl GCONV_IGNORE_ERRORS = 0 -> forall st, (4 * n <= length (rest st))%nat -> 4 * Z.of_nat n <= room st -> Forall is_byte (rest st) ->
  exists xs tail ill, check_words fl n bad f st =
      Done (ill, Lst (consumed st ++ enc E_in xs) tail (produced st ++ enc (internal A) xs) (room st - Z.of_nat (length (enc (internal A) xs))) (irrev st) (result st) (ltrans st)) /\
    rest st = enc E_in xs ++ tail /\ Forall P xs /\ (length xs <= n)%nat /\ (if ill then exists w t, tail = w ++ t /\ length w = 4%nat /\ bad w = true else length xs = n).
Proof.
  intros Hno. induction n as [|n IH]; intros st Hl Hr Hb; cbn [check_words].
  { exists [], (rest st), false. unfold enc. cbn. rewrite !app_nil_r, Z.sub_0_r. destruct st; repeat split; auto. }
  destruct (Hinv (take 4 (rest st))) as [Hx Ex]; [rewrite length_take; lia|apply Forall_take, Hb|]. set (x := inv _) in *.
  assert (rest st = E_in x ++ drop 4 (rest st)) as Er by (rewrite Ex, take_drop; reflexivity).
  rewrite (inbytes_app st 4 (E_in x) _ Er (HE x)). cbn [mbind run_bind]. destruct (bad (E_in x)) eqn:Eb.
  - exists [], (rest st), true. unfold ignore_errors_p. rewrite Hno. cbn. rewrite andb_false_r. cbn. unfold enc. cbn. rewrite !app_nil_r, Z.sub_0_r. destruct st; repeat split; auto; [cbn; lia|].
    exists (E_in x), (drop 4 rest). auto.
  - apply Hbad in Eb; [|exact Hx]. rewrite Hf by exact Hx. rewrite emit_room by (rewrite length_internal; lia). cbn [mbind run_bind].
    rewrite (advance_app _ 4 (E_in x) (drop 4 (rest st))) by (cbn [rest]; auto). cbn [mbind run_bind consumed produced room irrev result ltrans].
    destruct (IH (Lst (consumed st ++ E_in x) (drop 4 (rest st)) (produced st ++ internal A x) (room st - Z.of_nat (length (internal A x))) (irrev st) (result st) (ltrans st)))
      as (xs & tail & ill & -> & E & HPx & Hlen & Hill); cbn [rest room] in *.
    + rewrite length_drop. lia.
    + rewrite length_internal. lia.
    + apply Forall_drop, Hb.
    + exists (x :: xs), tail, ill. rewrite !enc_cons, <- !app_assoc, length_app, Nat2Z.inj_add, Z.sub_add_distr. cbn [consumed produced irrev result ltrans]. rewrite <- !app_assoc. split; [reflexivity|].
      split; [rewrite <- E; exact Er|]. split; [constructor; assumption|]. cbn [length]. split; [lia|]. destruct ill; [exact Hill|lia].
Qed.

(** A loop that checks the words: [onbad] ends it at an illegal one, [fin] determines the status. *)
Lemma checked_loop (d : step_data D) input space l (onbad fin : lst D -> run (lst D)) : plain d -> Forall is_byte input ->
  (forall st, irrev st = l -> onbad st = Done (illegal_unmoved d input space st) \/ onbad st = Done (set_result GCONV_ILLEGAL_INPUT st)) ->
  (forall st, (room st < 4 \/ (length (rest st) < 4)%nat) -> exists s, fin st = Done (set_result s st) /\ words_stop s st) ->
  words_done E_in (internal A) P input space l
    ('(ill, st) ← check_words (flags d) (n_convert input space) bad f (check_start d input space l); if ill : bool then onbad st else fin st).
Proof.
  intros Hp Hb Honbad Hfin. destruct (n_convert_bounds input space) as (Hn & Hs & He). set (n := n_convert input space) in *.
  assert (n = 0%nat \/ 0 <= space) as Hsp. { unfold n, n_convert. destruct (Z.ltb_spec space 0); [left|auto]. assert (Z.min (Z.of_nat (length input)) space / 4 < 0) by (apply Z.div_lt_upper_bound; lia). lia. }
  destruct (Nat.eq_dec n 0) as [E0|Hn0].
  - rewrite E0 in *. cbn [check_words mbind run_bind mret run_ret].
    replace (check_start d input space l) with (Lst (D := D) (enc E_in []) input (enc (internal A) []) (space - Z.of_nat (length (enc (internal A) []))) l GCONV_OK []) by (unfold check_start, enc; cbn; rewrite (proj2 Hp), Z.sub_0_r; reflexivity).
    apply words_status; auto; cbn; lia.
  - destruct (check_words_enc (flags d) n (plain_flags d Hp) (check_start d input space l)) as (xs & tail & ill & -> & Ei & HPx & Hlen & Hill); cbn [rest room check_start] in *; [lia|lia|exact Hb|].
    cbn [mbind run_bind consumed produced irrev result ltrans app check_start]. rewrite (proj2 Hp).
    assert (Z.of_nat (length (enc (internal A) xs)) = 4 * Z.of_nat (length xs)) as Ho by (rewrite (length_enc_fixed _ 4) by (intros; rewrite length_internal; reflexivity); lia).
    assert (Z.of_nat (length (enc E_in xs)) = 4 * Z.of_nat (length xs)) as Hi by (rewrite (length_enc_fixed _ 4) by (intros; rewrite HE; reflexivity); lia).
    assert (length input = length (enc E_in xs) + length tail)%nat as HL by (rewrite Ei, length_app; reflexivity).
    destruct ill; [|apply words_status; auto; rewrite ?Ho; lia]. destruct Hill as (w & t & -> & Hw & Hbw).
    assert (w ++ t <> []) as Hne by (destruct w; [discriminate Hw|discriminate]).
    destruct (Honbad (Lst (enc E_in xs) (w ++ t) (enc (internal A) xs) (space - Z.of_nat (length (enc (internal A) xs))) l GCONV_OK []) eq_refl) as [-> | ->].
    + exists [], input, GCONV_ILLEGAL_INPUT. unfold illegal_unmoved, stop. cbn [enc map concat length irrev]. rewrite (proj2 Hp), Z.sub_0_r. do 4 (split; [first [reflexivity|apply Forall_nil_2|tauto]|]).
      split; [split; [discriminate|intros E; rewrite E in Ei; destruct (enc E_in xs); [cbn in Ei; congruence|discriminate]]|]. split; [auto|]. intros Ht. exfalso. rewrite Ei in Ht. exact (text_legal xs w t HPx Hw Hbw Ht).
    + exists xs, (w ++ t), GCONV_ILLEGAL_INPUT. unfold set_result, stop. split; [reflexivity|]. split; [exact Ei|]. split; [exact HPx|]. split; [tauto|]. split; [split; [discriminate|intros; congruence]|]. split; [rewrite Ho; lia|].
      intros Ht. exfalso. exact (text_legal [] w t (Forall_nil_2 _) Hw Hbw Ht).
Qed.
End Check.
End Ucs4Loops.

(** * The promises *)

(** The common obligations: codes are not empty, they are bytes, and none begins another. *)
Ltac code_obligation :=
  intros; repeat match goal with
  | |- _ <> [] => apply internal_ne || (let H := fresh in intros H; apply (f_equal (@length Z)) in H; rewrite ?length_ucs2, ?length_ucs2reverse, ?length_ucs4, ?length_ucs4le in H; discriminate H)
  | |- Forall is_byte (drop_tags _ _) => unfold drop_tags; case_match; [constructor|]
  | |- Forall is_byte (internal _ _) => apply uint_bytes_byte
  | |- Forall is_byte (ucs2 _ _) => apply uint_bytes_byte
  | |- Forall is_byte (ucs2reverse _ _) => apply rev_Forall, uint_bytes_byte
  | |- Forall is_byte (ucs4 _) => apply rev_Forall, le_bytes_byte
  | |- Forall is_byte (ucs4le _) => apply le_bytes_byte
  end.

(** The sizes of the characters of both sides. *)
Ltac sizes := intros; unfold drop_tags; repeat case_match; rewrite ?length_internal, ?length_ucs2, ?length_ucs2reverse, ?length_ucs4, ?length_ucs4le; cbn; lia.

Lemma ucs2_inj A x y : 0 <= x < 2 ^ 16 -> 0 <= y < 2 ^ 16 -> ucs2 A x = ucs2 A y -> x = y.
Proof. intros Hx Hy H. rewrite <- (uint_val_bytes A 2 x), <- (uint_val_bytes A 2 y) by assumption. f_equal. exact H. Qed.

Lemma ucs2_code A : prefix_code (fun x => exists _ : bool, ucs2_char x) (ucs2 A).
Proof. apply (fixed_prefix_code _ _ 2); [intros; apply length_ucs2|]. intros x y [_ [Hx _]] [_ [Hy _]]. apply ucs2_inj; lia. Qed.

Lemma ucs2reverse_code A : prefix_code (fun x => exists _ : bool, ucs2_char x) (ucs2reverse A).
Proof.
  apply (fixed_prefix_code _ _ 2); [intros; apply length_ucs2reverse|]. intros x y [_ [Hx _]] [_ [Hy _]] E. apply (ucs2_inj A); [lia..|]. unfold ucs2reverse in E. apply (f_equal (@rev Z)) in E. rewrite !rev_involutive in E. exact E.
Qed.

(** UCS-4 is the internal form of one of the two byte orders. *)
Lemma ucs4_code (P : Z -> Prop) : (forall x, P x -> word_char x) -> prefix_code P ucs4 /\ prefix_code P ucs4le.
Proof. intros HP. split; [apply (internal_code (Arch true true))|apply (internal_code (Arch true false))]; assumption. Qed.

#[export, program] Instance ascii_internal_conv {D} A : UnitConv (ascii_internal (D := D) A) := { cin x := [x]; cout := internal A; cvalid _ := ascii_char }.
Next Obligation. discriminate. Qed.
Next Obligation. code_obligation. Qed.
Next Obligation. intros D A x y a b _ _ E. injection E as E _. exact E. Qed.
Next Obligation.
  intros D A u d input space l Hp Hb. refine (body_conv_units 1 1 4 4 _ _ (fun x => [x]) (internal A) ascii_char _ _ _ u d input space l Hp Hb); [discriminate|split; [lia|sizes]|].
  intros fl Hf. split; [apply ascii_internal_unit, Hf|]. split; [apply ascii_internal_fits|apply fixed_full_body; sizes].
Qed.

#[export, program] Instance internal_ascii_conv {D} A : UnitConv (internal_ascii (D := D) A) := { cin := internal A; cout := drop_tags (fun x => [x]); cvalid _ := ascii_or_tag }.
Next Obligation. code_obligation. Qed.
Next Obligation.
  intros D A u x Hx. unfold drop_tags. destruct (is_tag x) eqn:Et; [constructor|]. destruct Hx as [Hx|[_ Hx]]; [|congruence]. unfold ascii_char in Hx. repeat constructor; lia.
Qed.
Next Obligation. intros D A. apply internal_code. intros x [_ [Hx|[Hx _]]]; [unfold ascii_char in Hx; lia|exact Hx]. Qed.
Next Obligation.
  intros D A u d input space l Hp Hb. refine (body_conv_units 4 4 1 1 _ _ (internal A) (drop_tags (fun x => [x])) ascii_or_tag _ _ _ u d input space l Hp Hb); [code_obligation|split; [lia|sizes]|].
  intros fl Hf. split; [apply internal_ascii_unit, Hf|]. split; [apply internal_ascii_fits|apply fixed_full_body; sizes].
Qed.

#[export, program] Instance ucs2_internal_conv {D} A : UnitConv (ucs2_internal (D := D) A) := { cin := ucs2 A; cout := internal A; cvalid _ := ucs2_char }.
Next Obligation. code_obligation. Qed.
Next Obligation. code_obligation. Qed.
Next Obligation. intros D A. apply ucs2_code. Qed.
Next Obligation.
  intros D A u d input space l Hp Hb. refine (body_conv_units 2 2 4 4 _ _ (ucs2 A) (internal A) ucs2_char _ _ _ u d input space l Hp Hb); [code_obligation|split; [lia|sizes]|].
  intros fl Hf. destruct (ucs2_internal_ok (D := D) A fl Hf). split; [assumption|]. split; [assumption|apply fixed_full_body; sizes].
Qed.

#[export, program] Instance internal_ucs2_conv {D} A : UnitConv (internal_ucs2 (D := D) A) := { cin := internal A; cout := drop_tags (ucs2 A); cvalid _ := ucs2_or_tag }.
Next Obligation. code_obligation. Qed.
Next Obligation. code_obligation. Qed.
Next Obligation. intros D A. apply internal_code. intros x [_ [[Hx _]|[Hx _]]]; lia. Qed.
Next Obligation.
  intros D A u d input space l Hp Hb. refine (body_conv_units 4 4 2 2 _ _ (internal A) (drop_tags (ucs2 A)) ucs2_or_tag _ _ _ u d input space l Hp Hb); [code_obligation|split; [lia|sizes]|].
  intros fl Hf. destruct (internal_ucs2_ok (D := D) A fl Hf). split; [assumption|]. split; [assumption|apply fixed_full_body; sizes].
Qed.

#[export, program] Instance ucs2reverse_internal_conv {D} A : UnitConv (ucs2reverse_internal (D := D) A) := { cin := ucs2reverse A; cout := internal A; cvalid _ := ucs2_char }.
Next Obligation. code_obligation. Qed.
Next Obligation. code_obligation. Qed.
Next Obligation. intros D A. apply ucs2reverse_code. Qed.
Next Obligation.
  intros D A u d input space l Hp Hb. refine (body_conv_units 2 2 4 4 _ _ (ucs2reverse A) (internal A) ucs2_char _ _ _ u d input space l Hp Hb); [code_obligation|split; [lia|sizes]|].
  intros fl Hf. destruct (ucs2reverse_internal_ok (D := D) A fl Hf). split; [assumption|]. split; [assumption|apply fixed_full_body; sizes].
Qed.

#[export, program] Instance internal_ucs2reverse_conv {D} A : UnitConv (internal_ucs2reverse (D := D) A) := { cin := internal A; cout := drop_tags (ucs2reverse A); cvalid _ := ucs2_or_tag }.
Next Obligation. code_obligation. Qed.
Next Obligation. code_obligation. Qed.
Next Obligation. intros D A. apply internal_code. intros x [_ [[Hx _]|[Hx _]]]; lia. Qed.
Next Obligation.
  intros D A u d input space l Hp Hb. refine (body_conv_units 4 4 2 2 _ _ (internal A) (drop_tags (ucs2reverse A)) ucs2_or_tag _ _ _ u d input space l Hp Hb); [code_obligation|split; [lia|sizes]|].
  intros fl Hf. destruct (internal_ucs2reverse_ok (D := D) A fl Hf). split; [assumption|]. split; [assumption|apply fixed_full_body; sizes].
Qed.

#[export, program] Instance internal_ucs4_conv {D} A : UnitConv (internal_ucs4 (D := D) A) := { cin := internal A; cout := ucs4; cvalid _ := word_char }.
Next Obligation. code_obligation. Qed.
Next Obligation. code_obligation. Qed.
Next Obligation. intros D A. apply internal_code. intros x [_ Hx]. exact Hx. Qed.
Next Obligation.
  intros D A u d input space l Hp Hb. destruct u; apply (copy_done A ucs4 _) with (fin := fun st => mret (status_full_first st)); auto using length_ucs4, reversed_from_internal, byteswapped_from_internal, full_first_status.
Qed.

#[export, program] Instance internal_ucs4le_conv {D} A : UnitConv (internal_ucs4le (D := D) A) := { cin := internal A; cout := ucs4le; cvalid _ := word_char }.
Next Obligation. code_obligation. Qed.
Next Obligation. code_obligation. Qed.
Next Obligation. intros D A. apply internal_code. intros x [_ Hx]. exact Hx. Qed.
Next Obligation.
  intros D A u d input space l Hp Hb. destruct u; [apply (copy_done A ucs4le _) with (fin := status_incomplete_first)|apply (copy_done A ucs4le _) with (fin := fun st => mret (status_full_first st))];
    auto using length_ucs4le, reversed_from_internal_le, byteswapped_from_internal_le, full_first_status, incomplete_first_status.
Qed.

(** The loop for unaligned buffers tests the first byte against 0x80 and lets 0x80000000 to 0x80ffffff through. *)
Definition ucs4_char (unaligned : bool) (x : Z) : Prop := 0 <= x < if unaligned then 0x81000000 else 0x80000000.

Lemma ucs4_char_word u x : ucs4_char u x -> word_char x.
Proof. unfold ucs4_char, word_char. destruct u; lia. Qed.

#[export, program] Instance ucs4_internal_conv {D} A : UnitConv (ucs4_internal (D := D) A) := { cin := ucs4; cout := internal A; cvalid := ucs4_char }.
Next Obligation. code_obligation. Qed.
Next Obligation. code_obligation. Qed.
Next Obligation. intros D A. apply ucs4_code. intros x [u Hx]. exact (ucs4_char_word u x Hx). Qed.
Next Obligation.
  intros D A u d input space l Hp Hb.
  destruct u; apply (checked_loop A ucs4 be_val _ _ (ucs4_char _) length_ucs4 ucs4_words) with (onbad := fun st => if decide (l = None) then mret (illegal_unmoved d input space st) else mret (set_result GCONV_ILLEGAL_INPUT st)) (fin := fun st => mret (status_full_first st));
    eauto using full_first_status, ucs4_char_word.
  - intros x Hx. rewrite top_byte_be by assumption. unfold ucs4_char, word_char in *. rewrite Z.leb_gt. lia.
  - intros x _. apply reversed_to_internal.
  - intros st _. destruct (decide (l = None)); [left|right]; reflexivity.
  - intros x Hx. rewrite (proj1 (be_word_ucs4 A x Hx)). unfold ucs4_char, word_char in *. rewrite Z.ltb_ge. lia.
  - intros x Hx. apply (be_word_ucs4 A x Hx).
  - intros st _. destruct (decide (l = None)); [left|right]; reflexivity.
Qed.

#[export, program] Instance ucs4le_internal_conv {D} A : UnitConv (ucs4le_internal (D := D) A) := { cin := ucs4le; cout := internal A; cvalid := ucs4_char }.
Next Obligation. code_obligation. Qed.
Next Obligation. code_obligation. Qed.
Next Obligation. intros D A. apply ucs4_code. intros x [u Hx]. exact (ucs4_char_word u x Hx). Qed.
Next Obligation.
  intros D A u d input space l Hp Hb. destruct u.
  - apply (checked_loop A ucs4le le_val _ _ (ucs4_char _) length_ucs4le ucs4le_words) with (onbad := fun st => if decide (l = None) then mret (illegal_unmoved d input space st) else mret (set_result GCONV_ILLEGAL_INPUT st)) (fin := status_incomplete_first); eauto using incomplete_first_status, ucs4_char_word.
    + intros x Hx. rewrite top_byte_le by assumption. unfold ucs4_char, word_char in *. rewrite Z.leb_gt. lia.
    + intros x _. apply reversed_to_internal_le.
    + intros st _. destruct (decide (l = None)); [left|right]; reflexivity.
  - apply (checked_loop A ucs4le le_val _ _ (ucs4_char _) length_ucs4le ucs4le_words) with (onbad := fun st => mret (illegal_unmoved d input space st)) (fin := status_incomplete_first); eauto using incomplete_first_status, ucs4_char_word.
    + intros x Hx. rewrite (proj1 (le_word_ucs4le A x Hx)). unfold ucs4_char, word_char in *. rewrite Z.ltb_ge. lia.
    + intros x Hx. apply (le_word_ucs4le A x Hx).
Qed.

(** The steps that may come before others have characters of one size, or are those of UTF-8. *)
Ltac fixed_conv := constructor; [code_obligation|intros; cbn; rewrite ?length_internal, ?length_ucs2, ?length_ucs2reverse, ?length_ucs4, ?length_ucs4le; auto|cbn; lia|discriminate].

#[export] Instance ascii_internal_resumable {D} A : ResumableConv (ascii_internal (D := D) A).
Proof. fixed_conv. Qed.
#[export] Instance ucs2_internal_resumable {D} A : ResumableConv (ucs2_internal (D := D) A).
Proof. fixed_conv. Qed.
#[export] Instance ucs2reverse_internal_resumable {D} A : ResumableConv (ucs2reverse_internal (D := D) A).
Proof. fixed_conv. Qed.
#[export] Instance ucs4_internal_resumable {D} A : ResumableConv (ucs4_internal (D := D) A).
Proof. fixed_conv. Qed.
#[export] Instance ucs4le_internal_resumable {D} A : ResumableConv (ucs4le_internal (D := D) A).
Proof. fixed_conv. Qed.
#[export] Instance internal_ucs4_resumable {D} A : ResumableConv (internal_ucs4 (D := D) A).
Proof. fixed_conv. Qed.
#[export] Instance internal_ucs4le_resumable {D} A : ResumableConv (internal_ucs4le (D := D) A).
Proof. fixed_conv. Qed.
