(* ===== verification/GconvStream.v ===== *)
(** Character conversion in pieces: a call of the UTF-8 step that may consume an incomplete character keeps its
    bytes in the shift state, and the next call goes on with them as if the two inputs had come together. *)
From S2P Require Import Prelude CMem MemWrite Byteswap Gconv GconvSimple GconvSkel GconvUnits GconvChain GconvUtf8.

(** * The bytes in the shift state *)

Lemma unpack_trail_all m : forall inlen w buf, (S m <= inlen)%nat -> unpack_trail (S m) inlen w buf = utf8_trail (S m) w buf.
Proof.
  induction m as [|m IH]; intros inlen w buf Hi; [reflexivity|].
  change (unpack_trail (S (S m)) inlen w buf) with (unpack_trail (S m) inlen (Z.shiftr w 6) (if (S m <? inlen)%nat then <[S m := Z.lor 0x80 (Z.land w 0x3f)]> buf else buf)).
  rewrite (proj2 (Nat.ltb_lt (S m) inlen)) by lia. rewrite IH by lia. reflexivity.
Qed.

Lemma unpack_trail_skip k : forall j w buf, unpack_trail (k + S j) (S j) w buf = utf8_trail (S j) (w / 64 ^ Z.of_nat k) buf.
Proof.
  induction k as [|k IH]; intros j w buf; [rewrite Z.div_1_r; apply unpack_trail_all; lia|].
  replace (S k + S j)%nat with (S (S (k + j))) by lia.
  change (unpack_trail (S (S (k + j))) (S j) w buf) with (unpack_trail (S (k + j)) (S j) (Z.shiftr w 6) (if (S (k + j) <? S j)%nat then <[S (k + j) := Z.lor 0x80 (Z.land w 0x3f)]> buf else buf)).
  rewrite (proj2 (Nat.ltb_ge (S (k + j)) (S j))) by lia. replace (S (k + j)) with (k + S j)%nat by lia. rewrite IH, Z.shiftr_div_pow2 by lia. change (2 ^ 6) with 64.
  rewrite pow64_succ, Z.div_div by (pose proof (pow64_pos k); lia). reflexivity.
Qed.

Lemma rest_bits_val l : forall ch r, Forall trail_byte l -> 0 <= ch -> (ch + 1) * 64 ^ Z.of_nat (length l) <= 2 ^ 32 -> Z.of_nat (length l) <= r < 2 ^ 64 ->
  rest_bits l ch r = (trail_val ch l, r - Z.of_nat (length l)).
Proof.
  induction l as [|b l IH]; intros ch r Hl Hc Hm Hr; cbn [rest_bits length] in *; [f_equal; lia|]. apply Forall_cons in Hl as [Hb Hl].
  rewrite pow64_succ in Hm. pose proof (pow64_pos (length l)). rewrite trail_append by (assumption || nia). unfold u64. rewrite uwrap_small by lia.
  unfold trail_byte in Hb. rewrite IH by (assumption || nia). f_equal. lia.
Qed.

Section State.
Context (A : arch).

(** The state holds the bytes of an incomplete character, or none. *)
Definition holds (s : mbstate) (p : list Z) : Prop :=
  match p with
  | [] => ms_count s = 0
  | _ => utf8_partial p /\ Forall is_byte p /\ nbytes s = length p /\ Z.land (ms_count s) 7 <> 0 /\ utf8_unpack_bytes A s = Done p
  end.

(** What [STORE_REST] stores, [UNPACK_BYTES] gives back. *)
Lemma store_unpack p s : utf8_partial p -> Forall is_byte p -> exists s', utf8_store_rest A p s = Done s' /\ holds s' p.
Proof.
  intros Hp Hb. pose proof Hp as (b & l & n & h & -> & El & Hn & Hl). apply Forall_cons in Hb as [Hb Hlb].
  destruct (lead_sound b n h Hb El) as (Hn6 & Eb & Hh & _). cbn [length] in Hn.
  assert (utf8_lead_rest b = (n, h)) as Elr. { clear -El. unfold utf8_lead in El. unfold utf8_lead_rest. repeat case_match; congruence. }
  assert ((negb (b =? 0xc0) && negb (b =? 0xc1)) = true) as Ea.
  { apply andb_true_iff. rewrite !negb_true_iff, !Z.eqb_neq. split; intros ->; vm_compute in El; discriminate. }
  unfold utf8_store_rest. rewrite Ea. cbn [assert_ mbind run_bind]. rewrite Elr.
  pose proof (lead_bound n h Hn6 Hh) as Hlb2. assert (64 ^ Z.of_nat (length l) <= 64 ^ Z.of_nat (n - 1)) as Hmono by (apply Z.pow_le_mono_r; lia).
  pose proof (pow64_pos (length l)) as Hpos. assert (2 ^ (5 * Z.of_nat n + 1) <= 2 ^ 31) as Hm31 by (apply Z.pow_le_mono_r; lia).
  rewrite rest_bits_val; [|assumption|lia|nia|lia]. set (v := trail_val h l). set (r := (n - 1 - length l)%nat).
  pose proof (trail_val_bound l h ltac:(lia) Hl) as Hv. fold v in Hv.
  replace (Z.of_nat n - 1 - Z.of_nat (length l)) with (Z.of_nat r) by lia. unfold u64. rewrite (uwrap_small 64 (Z.of_nat r * 6)) by lia.
  assert (Z.shiftl v (Z.of_nat r * 6) = v * 64 ^ Z.of_nat r) as Esh. { rewrite Z.shiftl_mul_pow2, (Z.mul_comm (Z.of_nat r)), Z.pow_mul_r by lia. reflexivity. }
  assert (0 <= v * 64 ^ Z.of_nat r < 2 ^ 31) as Hw.
  { assert (64 ^ Z.of_nat (n - 1) = 64 ^ Z.of_nat (length l) * 64 ^ Z.of_nat r) as Ep by (rewrite <- Z.pow_add_r by lia; f_equal; lia). pose proof (pow64_pos r). nia. }
  rewrite Esh. unfold u32. rewrite (uwrap_small 32) by lia. eexists. split; [reflexivity|].
  assert (Z.lor (Z.of_nat (length (b :: l))) (Z.shiftl (Z.of_nat n) 8) = Z.of_nat n * 2 ^ 8 + Z.of_nat (length (b :: l))) as Ec by (rewrite Z.lor_comm; apply lor_low; cbn [length]; lia).
  cbn [holds]. unfold nbytes. cbn [ms_count]. rewrite Ec.
  assert (Z.land (Z.of_nat n * 2 ^ 8 + Z.of_nat (length (b :: l))) 7 = Z.of_nat (length (b :: l))) as Eland.
  { change 7 with (Z.ones 3). rewrite Z.land_ones by lia. symmetry. apply Z.mod_unique with (Z.of_nat n * 32); cbn [length]; lia. }
  rewrite Eland, Nat2Z.id. split; [exact Hp|]. split; [constructor; assumption|]. split; [reflexivity|]. split; [cbn [length]; lia|].
  unfold utf8_unpack_bytes. cbn [ms_count ms_value]. unfold wch. cbn [ms_value]. rewrite uint_val_bytes by (change (256 ^ Z.of_nat 4) with (2 ^ 32); lia).
  rewrite Z.shiftr_div_pow2 by lia. replace ((Z.of_nat n * 2 ^ 8 + Z.of_nat (length (b :: l))) / 2 ^ 8) with (Z.of_nat n) by (apply Z.div_unique with (Z.of_nat (length (b :: l))); cbn [length]; lia).
  assert (Z.land (Z.of_nat n * 2 ^ 8 + Z.of_nat (length (b :: l))) 255 = Z.of_nat (length (b :: l))) as ->.
  { change 255 with (Z.ones 8). rewrite Z.land_ones by lia. symmetry. apply Z.mod_unique with (Z.of_nat n); cbn [length]; lia. }
  rewrite !Nat2Z.id. rewrite (proj2 (Nat.leb_le 2 n)) by lia.
  assert (inmask !! (n - 2)%nat = Some (lead_mark n)) as -> by (destruct n as [|[|[|[|[|[|[|n]]]]]]]; (lia || reflexivity)).
  cbn [from_option_run mbind run_bind]. rewrite (proj2 (Nat.leb_le (length (b :: l)) 6)) by (cbn [length]; lia). cbn [bounds_ mbind run_bind].
  replace n with (r + S (length l))%nat at 1 by lia. cbn [length]. rewrite unpack_trail_skip, utf8_trail_long by (cbn; lia).
  rewrite Z.div_mul by (pose proof (pow64_pos r); lia). destruct (trail_bytes_val l h Hl) as [Et Eh]. fold v in Et, Eh. rewrite Et, Eh. cbn [take app]. rewrite take_0. cbn [take app].
  unfold mret, run_ret. do 2 f_equal; [|apply take_app_length].
  rewrite Eb, <- (lead_bits n h Hn6 Hh). f_equal. destruct n as [|[|[|[|[|[|[|n]]]]]]]; (lia || reflexivity).
Qed.
End State.

(** The beginning of a sequence is shorter than the code of a character that begins with it. *)
Lemma partial_char p x more t : utf8_partial p -> Forall is_byte p -> utf8_range x -> p ++ more = utf8_enc x ++ t -> (length p < length (utf8_enc x))%nat.
Proof.
  intros (b & l & n & h & -> & El & Hn & _) Hb Hx E. apply Forall_cons in Hb as [Hb _]. destruct (lead_sound b n h Hb El) as (Hn6 & Eb & Hh & _). unfold utf8_range in Hx.
  destruct (Z.ltb_spec x 0x80).
  - rewrite utf8_enc_ascii in E by lia. injection E as E _. exfalso. assert (0xc0 <= lead_mark n) by (destruct n as [|[|[|[|[|[|[|n]]]]]]]; (lia || (cbn; lia))). lia.
  - unfold utf8_enc in E. injection E as E _. destruct (utf8_len_spec x ltac:(lia)) as (Hl & _). destruct (lead_complete (utf8_len x) _ Hl (lead_digit x ltac:(lia))) as (El' & _).
    { intros E2. rewrite E2. cbn. apply Z.div_le_lower_bound; lia. }
    rewrite <- E, El in El'. injection El' as -> _. rewrite length_utf8_enc. lia.
Qed.

Lemma partial_short p : utf8_partial p -> Forall is_byte p -> (length p < 6)%nat.
Proof. intros (b & l & n & h & -> & El & Hn & _) Hb. apply Forall_cons in Hb as [Hb _]. destruct (lead_sound b n h Hb El) as (Hn6 & _). lia. Qed.

Section Calls.
Context {D : Type} (A : arch).
Implicit Types d : step_data D.

(** The first six bytes decide. *)
Lemma single_bytes (p input : list Z) : (length p < 6)%nat -> p ++ take (6 - length p) input = take 6 (p ++ input).
Proof. intros Hp. rewrite take_app, (take_ge p) by lia. reflexivity. Qed.

Lemma prefix_of_take (n : nat) (l1 t l : list Z) : l = l1 ++ t -> (length l1 <= n)%nat -> take n l = l1 ++ take (n - length l1) t.
Proof. intros -> Hl. rewrite take_app, take_ge by lia. reflexivity. Qed.

Lemma single_cases d p input space : plain d -> holds A (statep d) p -> p <> [] -> Forall is_byte input -> input <> [] -> 4 <= space ->
  (exists x t, utf8_char x /\ p ++ input = utf8_enc x ++ t /\
     FROM_LOOP_single (utf8_internal A) d input space (Some 0) =
     Done (Lst (take (length (utf8_enc x) - length p) input) (drop (length (utf8_enc x) - length p) input) (internal A x) (space - 4) (Some 0) GCONV_OK [], Mbs 0 (ms_value (statep d)))) \/
  (utf8_partial (p ++ input) /\ exists s', holds A s' (p ++ input) /\
     FROM_LOOP_single (utf8_internal A) d input space (Some 0) = Done (Lst input [] [] space (Some 0) GCONV_INCOMPLETE_INPUT [], s')) \/
  (~ utf8_partial (p ++ input) /\ (forall x t, utf8_char x -> p ++ input <> utf8_enc x ++ t) /\
     FROM_LOOP_single (utf8_internal A) d input space (Some 0) = Done (Lst [] input [] space (Some 0) GCONV_ILLEGAL_INPUT [], statep d)).
Proof.
  intros Hp Hh Hpn Hb Hin Hs. destruct p as [|p0 pl]; [congruence|]. clear Hpn. set (p := p0 :: pl) in *. destruct Hh as (Hpart & Hpb & Hnb & _ & Hun).
  pose proof (partial_short p Hpart Hpb) as Hp6. cbn [FROM_LOOP_single utf8_internal body_conv]. unfold SINGLE, unpack_state. cbn [utf8_rest_ops UNPACK_BYTES]. rewrite Hun, (proj2 Hp).
  cbn [mbind run_bind]. change (Z.to_nat 1) with 1%nat. change (Z.to_nat 6) with 6%nat. rewrite (proj2 (Nat.leb_le (length p) 6)) by lia. cbn [bounds_ mbind run_bind].
  change ((1 <? 1)%nat) with false. cbn [andb]. rewrite (proj2 (Z.ltb_ge space 4)) by lia.
  assert ((1 <=? length input)%nat && (length p <? 6)%nat = true) as ->.
  { apply andb_true_iff. rewrite Nat.leb_le, Nat.ltb_lt. split; [destruct input; [congruence|cbn [length]; lia]|exact Hp6]. }
  cbn [bounds_ mbind run_bind]. rewrite (single_bytes p input Hp6). set (bytes := take 6 (p ++ input)).
  assert (Forall is_byte bytes) as Hbytes by (apply Forall_take, Forall_app; auto). assert (length bytes <= 6)%nat as Hb6 by (unfold bytes; rewrite length_take; lia).
  set (st := Lst [] bytes [] space (Some 0) GCONV_OK []). pose proof (plain_flags d Hp) as Hf.
  destruct (utf8_internal_unit A (flags d) Hf st eq_refl) as [(x & t & Hx & Ex & _ & Hbody)|(s & Hs3 & Hbody)]; [discriminate|exact Hbytes|lia|exact Hs| |].
  - left. exists x, (t ++ drop 6 (p ++ input)). assert (p ++ input = utf8_enc x ++ t ++ drop 6 (p ++ input)) as E by (rewrite app_assoc, <- Ex; symmetry; apply take_drop).
    split; [exact Hx|]. split; [exact E|]. pose proof (partial_char p x _ _ Hpart Hpb (proj1 Hx) E) as Hlt. rewrite Hbody. cbn [mbind run_bind moved consumed app st].
    rewrite (proj2 (Nat.ltb_lt 0 (length (utf8_enc x)))) by lia. rewrite Hnb, (proj2 (Nat.ltb_lt _ _) Hlt). cbn [assert_ mbind run_bind moved produced room irrev ltrans st app clear_state utf8_rest_ops CLEAR_STATE].
    rewrite length_internal. reflexivity.
  - assert (Forall is_byte (rest st)) as Hbr by exact Hbytes.
    rewrite Hbody. cbn [mbind run_bind set_result consumed result length st Nat.ltb Nat.leb irrev ltrans].
    destruct (utf8_body_break A (flags d) st s Hf Hbr Hbody) as [[-> Hpb']|[-> Hnp]]; cbn [rest st] in *.
    + right. left. pose proof (partial_short bytes Hpb' Hbytes) as Hlt. assert (bytes = p ++ input) as E by (unfold bytes in *; rewrite length_take in Hlt; apply take_ge; lia).
      rewrite E in *. split; [exact Hpb'|]. rewrite decide_True by reflexivity. destruct (store_unpack A (p ++ input) (statep d) Hpb' Hbytes) as (s' & Es & Hs').
      exists s'. split; [exact Hs'|]. unfold single_incomplete. cbn [utf8_rest_ops STORE_REST]. rewrite (proj2 (Nat.eqb_neq (length (p ++ input)) 6)) by lia. cbn [negb assert_ mbind run_bind]. rewrite Es.
      cbn [mbind run_bind]. rewrite Hnb, length_app. replace (length p + length input - length p)%nat with (length input) by lia. rewrite firstn_all, drop_all. reflexivity.
    + right. right. rewrite decide_False by discriminate. split; [|split; [|reflexivity]].
      * intros Hpi. pose proof (partial_short _ Hpi ltac:(apply Forall_app; auto)) as Hlt. apply Hnp. unfold bytes. rewrite take_ge by lia. exact Hpi.
      * intros x t Hx E. apply (prefix_of_take 6) in E; [|apply length_utf8_enc_le, Hx]. fold bytes in E.
        rewrite (utf8_internal_fits A (flags d) st x _ eq_refl Hx E) in Hbody; [discriminate|]. cbn [room st]. rewrite length_internal. lia.
Qed.

Lemma length_enc_internal xs : Z.of_nat (length (enc (internal A) xs)) = 4 * Z.of_nat (length xs).
Proof. rewrite (length_enc_fixed _ 4) by (intros; rewrite length_internal; reflexivity). lia. Qed.

(** The rounds of a last step, after [k] bytes of the input were used and [out] was stored. *)
Lemma convert_utf8 fct d k input out addr n : data_ok true d -> Forall is_byte input -> 0 <= n < 2 ^ 64 ->
  exists xs tail s d', convert (utf8_internal A) fct true addr input None (Rounds k out d [] (Some n) (Some 0)) =
      Done (Gres s (if decide (s = GCONV_INCOMPLETE_INPUT) then length input else k + length (enc utf8_enc xs))%nat [d'] (Some n) []) /\
    utf8_decoded (drop k input) (outbufend d - (outbuf d + Z.of_nat (length out))) xs tail s /\
    written d' = written d ++ out ++ enc (internal A) xs /\ outbuf d' = outbuf d + Z.of_nat (length out) + 4 * Z.of_nat (length xs) /\ outbufend d' = outbufend d /\
    (if decide (s = GCONV_INCOMPLETE_INPUT) then holds A (statep d') tail else statep d' = statep d).
Proof.
  intros (Hp & _ & Hl) Hb Hn. unfold convert. cbn [data buf]. set (u := is_unaligned _ _ _ _).
  destruct (utf8_decoder_spec A u d (drop k input) (outbufend d - (outbuf d + Z.of_nat (length out))) (Some 0) Hp (Forall_drop _ _ _ Hb)) as (xs & tail & s & E & Hd).
  rewrite (round_unfold _ (utf8_internal A) fct u true input (Rounds k out d [] (Some n) (Some 0)) _ _ _ _ _ _ E). cbn [data irreversible]. rewrite Hl. cbn [mbind run_bind used next_data data irreversible buf].
  rewrite Z.add_0_r, u64_small by assumption. rewrite bool_decide_true by reflexivity. change (1 <? MAX_NEEDED_FROM (utf8_internal A)) with true. cbn [andb].
  exists xs, tail, s. pose proof Hd as (Ei & _ & _ & Hs). destruct (decide (s = GCONV_INCOMPLETE_INPUT)) as [->|Hne].
  - rewrite bool_decide_true by reflexivity. assert (drop (k + length (enc utf8_enc xs)) input = tail) as -> by (rewrite <- drop_drop, Ei, drop_app_length; reflexivity).
    unfold store_remaining. cbn [CONV_STORE_REST utf8_internal body_conv fmap option_fmap option_map utf8_rest_ops STORE_REST].
    destruct (store_unpack A tail (statep (move_outbuf (counted d) (out ++ enc (internal A) xs))) (proj1 Hs)) as (s' & -> & Hh).
    { apply (Forall_drop _ k) in Hb. rewrite Ei in Hb. apply Forall_app in Hb. apply Hb. }
    cbn [mbind run_bind]. eexists. split; [reflexivity|]. split; [exact Hd|]. cbn. rewrite length_app, Nat2Z.inj_add, length_enc_internal. repeat split; auto. lia.
  - rewrite bool_decide_false by exact Hne. eexists. split; [reflexivity|]. split; [exact Hd|]. cbn. rewrite length_app, Nat2Z.inj_add, length_enc_internal. repeat split; auto. lia.
Qed.

Lemma utf8_decoded_cons x bs space xs tail s : utf8_char x -> 4 <= space -> utf8_decoded bs (space - 4) xs tail s -> utf8_decoded (utf8_enc x ++ bs) space (x :: xs) tail s.
Proof.
  intros Hx Hsp (E & Hxs & Hr & Hs). split; [rewrite E, enc_cons, app_assoc; reflexivity|]. split; [constructor; assumption|]. cbn [length]. split; [lia|].
  replace (space - 4 * Z.of_nat (S (length xs))) with (space - 4 - 4 * Z.of_nat (length xs)) by lia. exact Hs.
Qed.

(** How far a call gets in its input, and the state it leaves. *)
Definition call_result (p : list Z) (input xs tail : list Z) (s : status) (before after : mbstate) (used : nat) : Prop :=
  match s with
  | GCONV_EMPTY_INPUT => used = length input /\ holds A after []
  | GCONV_INCOMPLETE_INPUT => used = length input /\ holds A after tail
  | _ => match xs with
         | [] => used = 0%nat /\ after = before
         | _ => (length p < length (enc utf8_enc xs))%nat /\ used = (length (enc utf8_enc xs) - length p)%nat /\ holds A after []
         end
  end.

(** Settle the test of the status in [H] and in the goal. *)
Ltac status_decide H :=
  first [rewrite decide_False in H by discriminate; rewrite decide_False by discriminate
        |rewrite decide_True in H by reflexivity; rewrite decide_True by reflexivity].

(** A call with the bytes [p] in the state decodes [p ++ input]. *)
Lemma utf8_call fct d p input addr n : data_ok true d -> holds A (statep d) p -> Forall is_byte input -> (p <> [] -> input <> []) -> 0 <= n < 2 ^ 64 -> 4 <= outbufend d - outbuf d ->
  exists xs tail s d' used, gconv_step (utf8_internal A) fct [d] addr input None (Some n) 0 true = Done (Gres s used [d'] (Some n) []) /\
    utf8_decoded (p ++ input) (outbufend d - outbuf d) xs tail s /\ call_result p input xs tail s (statep d) (statep d') used /\
    written d' = written d ++ enc (internal A) xs /\ outbuf d' = outbuf d + 4 * Z.of_nat (length xs).
Proof.
  intros Hd Hh Hb Hne Hn Hroom. unfold gconv_step. cbn [negb Z.eqb]. unfold pending. change (1 <? MAX_NEEDED_FROM (utf8_internal A)) with true. cbn [andb]. destruct p as [|p0 pl].
  - cbn in Hh. rewrite Hh. cbn [Z.land Z.eqb negb andb]. destruct (convert_utf8 fct d 0 input [] addr n Hd Hb Hn) as (xs & tail & s & d' & -> & Hdec & Hw & Ho & _ & Hst). cbn [length Z.of_nat app Nat.add] in *.
    rewrite Z.add_0_r in *. rewrite drop_0 in Hdec. eexists xs, tail, s, d', _. split; [reflexivity|]. split; [exact Hdec|]. split; [|auto].
    destruct Hdec as (Ei & _ & _ & Hs). unfold call_result. destruct s; try contradiction; status_decide Hst.
    + subst tail. rewrite app_nil_r in Ei. rewrite Ei. split; [reflexivity|]. unfold holds. rewrite Hst. exact Hh.
    + destruct xs as [|x xs]; [auto|]. cbn [length Nat.sub]. rewrite Nat.sub_0_r. split; [cbn; lia|]. split; [reflexivity|]. unfold holds. rewrite Hst. exact Hh.
    + destruct xs as [|x xs]; [auto|]. cbn [length Nat.sub]. rewrite Nat.sub_0_r. split; [cbn; lia|]. split; [reflexivity|]. unfold holds. rewrite Hst. exact Hh.
    + auto.
  - set (p := p0 :: pl) in *. assert (p <> []) as Hpn by discriminate. specialize (Hne Hpn).
    assert (Z.land (ms_count (statep d)) 7 <> 0) as Hcnt by apply Hh. rewrite (proj2 (Z.eqb_neq _ _) Hcnt). cbn [negb]. rewrite bool_decide_true by reflexivity. cbn [assert_ mbind run_bind].
    destruct (single_cases d p input (outbufend d - outbuf d) (proj1 Hd) Hh Hpn Hb Hne Hroom) as [(x & t & Hx & E & ->)|[(Hpart & s' & Hh' & ->)|(Hnp & Hnc & ->)]]; cbn [mbind run_bind ltrans result consumed].
    + rewrite decide_True by reflexivity. cbn [produced irrev]. set (k := (length (utf8_enc x) - length p)%nat).
      pose proof Hh as (Hpart & Hpb & _). pose proof (partial_char p x _ _ Hpart Hpb (proj1 Hx) E) as Hlt.
      assert (k <= length input)%nat as Hk by (apply (f_equal length) in E; rewrite !length_app in E; lia).
      assert (drop k input = t) as Et. { apply (f_equal (drop (length (utf8_enc x)))) in E. rewrite drop_app_length, drop_app, drop_ge in E by lia. exact E. }
      rewrite length_take, Nat.min_l by exact Hk. set (d1 := set_state _ _). assert (data_ok true d1) as Hd1 by (destruct Hd as ([H1 H2] & H3 & H4); repeat split; auto).
      destruct (convert_utf8 fct d1 k input (internal A x) addr n Hd1 Hb Hn) as (xs & tail & s & d' & -> & Hdec & Hw & Ho & _ & Hst). rewrite Et, length_internal in Hdec. cbn [outbufend outbuf d1 set_state set_trans] in Hdec.
      exists (x :: xs), tail, s, d'. eexists. split; [reflexivity|]. rewrite E. split; [apply utf8_decoded_cons; [exact Hx|lia|]; replace (outbufend d - outbuf d - 4) with (outbufend d - (outbuf d + Z.of_nat 4)) by lia; exact Hdec|].
      split; [|rewrite enc_cons, app_assoc; split; [rewrite <- app_assoc; exact Hw|rewrite Ho, length_internal; cbn [length d1 set_state set_trans outbuf]; lia]].
      destruct Hdec as (Ei & _ & _ & Hs). unfold call_result. rewrite enc_cons, length_app. assert (length t = length (enc utf8_enc xs) + length tail)%nat as Hlt' by (rewrite Ei, length_app; reflexivity).
      assert (length input = k + length t)%nat as Hli by (rewrite <- Et, length_drop; lia).
      destruct s; try contradiction; status_decide Hst.
      * subst tail. cbn in Hlt'. split; [lia|]. unfold holds. rewrite Hst. reflexivity.
      * split; [lia|]. split; [lia|]. unfold holds. rewrite Hst. reflexivity.
      * split; [lia|]. split; [lia|]. unfold holds. rewrite Hst. reflexivity.
      * auto.
    + rewrite decide_False by discriminate. exists [], (p ++ input), GCONV_INCOMPLETE_INPUT. eexists _, _. split; [reflexivity|].
      split; [split; [reflexivity|split; [constructor|split; [cbn; lia|split; [exact Hpart|cbn; lia]]]]|]. split; [split; [reflexivity|exact Hh']|]. cbn. rewrite app_nil_r. split; [reflexivity|lia].
    + rewrite decide_False by discriminate. exists [], (p ++ input), GCONV_ILLEGAL_INPUT. eexists _, _. split; [reflexivity|].
      split; [split; [reflexivity|split; [constructor|split; [cbn; lia|split; [cbn; lia|split; [discriminate|split; assumption]]]]]|]. split; [split; reflexivity|]. cbn. rewrite app_nil_r. split; [reflexivity|lia].
Qed.
End Calls.
