(* ===== verification/Wcsmbs.v ===== *)
(** Wide and multibyte characters (wcsmbs/mbrtowc.c, wcrtomb.c, mbrlen.c, mbsinit.c) in a UTF-8 locale: one
    character at a time, through the conversion steps of iconv/, with the bytes of an incomplete character in
    the shift state of the caller.  As in the rest of character conversion [size_t] and pointers have 64 bits. *)
From S2P Require Import Prelude CMem MemWrite Byteswap Gconv GconvSimple GconvSkel GconvUnits GconvChain GconvUtf8 GconvStream.

Section Functions.
Context {D : Type} (A : arch).

(** The conversion functions of the locale, [fcts->towc->__fct] and [fcts->tomb->__fct]. *)
Context (towc tomb : gconv_fct (D := D)).

(** [__mbsinit] for a state that is there. *)
Definition mbsinit (ps : mbstate) : bool := ms_count ps =? 0.

(** (size_t) -1 and (size_t) -2, in 64 bits *)
Definition ILSEQ : Z := 2 ^ 64 - 1.
Definition INCOMPLETE : Z := 2 ^ 64 - 2.

(** What [mbrtowc] returns, the state it leaves, the wide character it stored, and whether it set [errno]. *)
Record mbr := Mbr { ret : Z; state : mbstate; wc_stored : option Z; eilseq : bool }.

(** The status is one that the callers expect. *)
Definition expected (s : status) : bool :=
  bool_decide (s = GCONV_OK \/ s = GCONV_EMPTY_INPUT \/ s = GCONV_ILLEGAL_INPUT \/ s = GCONV_INCOMPLETE_INPUT \/ s = GCONV_FULL_OUTPUT).

(** [s] is the address of the string with the bytes that can be read there, or a null pointer; [outbuf] is where
    the wide character goes, [pwc] or a buffer of the function; [dummy] is what the uninitialized counter has. *)
Definition mbrtowc (out : Z) (s : option (Z * list Z)) (n : Z) (ps : mbstate) (dummy : Z) : run mbr :=
  let '(inbuf, bytes, n) := match s with None => (0, [0], 1) | Some (p, bytes) => (p, bytes, n) end in
  let end1 := u64 (inbuf + n) in
  let endbuf := if end1 <? inbuf then 2 ^ 64 - 1 else end1 in
  if (end1 <? inbuf) && (endbuf =? inbuf) then mret (Mbr ILSEQ ps None true)
  else
    bounds_ (endbuf - inbuf <=? Z.of_nat (length bytes));;
    g ← towc [StepData out (out + 4) [] GCONV_IS_LAST 0 ps []] inbuf (take (Z.to_nat (endbuf - inbuf)) bytes) None (Some dummy) 0 true;
    match g_data g with
    | [] => Wild
    | data :: _ =>
        assert_ (expected (g_status g));;
        let wc := if outbuf data =? out then None else Some (uint_val A (take 4 (written data))) in
        if bool_decide (g_status g = GCONV_OK \/ g_status g = GCONV_EMPTY_INPUT \/ g_status g = GCONV_FULL_OUTPUT) then
          if bool_decide (wc = Some 0) then assert_ (mbsinit (statep data));; mret (Mbr 0 (statep data) wc false)
          else mret (Mbr (Z.of_nat (g_used g)) (statep data) wc false)
        else if decide (g_status g = GCONV_INCOMPLETE_INPUT) then mret (Mbr INCOMPLETE (statep data) wc false)
        else mret (Mbr ILSEQ (statep data) wc true)
    end.

(** [mbrlen]: return __mbrtowc (NULL, s, n, ps ?: &internal); *)
Definition mbrlen (buf : Z) (s : option (Z * list Z)) (n : Z) (ps : mbstate) (dummy : Z) : run mbr := mbrtowc buf s n ps dummy.

(** What [wcrtomb] returns, the state it leaves, the bytes it stored, and whether it set [errno]. *)
Record wcr := Wcr { wret : Z; wstate : mbstate; stored : list Z; weilseq : bool }.

(** [s] is where the bytes go, or nothing for a null pointer, when they go to the buffer at [buf]. *)
Definition wcrtomb (mb_cur_max buf : Z) (s : option Z) (wc : Z) (ps : mbstate) (waddr dummy : Z) : run wcr :=
  let '(s, wc) := match s with None => (buf, 0) | Some s => (s, wc) end in
  let data := StepData s (s + mb_cur_max) [] GCONV_IS_LAST 0 ps [] in
  g ← (if wc =? 0 then tomb [data] 0 [] None (Some dummy) 1 true
       else tomb [data] waddr (uint_bytes A 4 (u32 wc)) None (Some dummy) 0 true);
  match g_data g with
  | [] => Wild
  | data :: _ =>
      let bs := if (wc =? 0) && bool_decide (g_status g = GCONV_OK \/ g_status g = GCONV_EMPTY_INPUT) then written data ++ [0] else written data in
      assert_ (expected (g_status g));;
      if bool_decide (g_status g = GCONV_OK \/ g_status g = GCONV_EMPTY_INPUT \/ g_status g = GCONV_FULL_OUTPUT)
      then mret (Wcr (Z.of_nat (length bs)) (statep data) bs false)
      else mret (Wcr ILSEQ (statep data) bs true)
  end.
End Functions.

(** * In a UTF-8 locale *)

Section Utf8.
Context {D : Type} (A : arch).
Abbreviation towc := (gconv_chain (D := D) [utf8_internal A]).
Abbreviation tomb := (gconv_chain (D := D) [internal_utf8 A]).

(** The result of [mbrtowc] for a state with the bytes [p]: the next character of [p ++ input], the news that it
    is incomplete, or an error. *)
Definition mbrtowc_spec (p input : list Z) (ps : mbstate) (r : mbr) : Prop :=
  (exists x t, utf8_char x /\ p ++ input = utf8_enc x ++ t /\
     ret r = (if x =? 0 then 0 else Z.of_nat (length (utf8_enc x)) - Z.of_nat (length p)) /\ wc_stored r = Some x /\ eilseq r = false /\ holds A (state r) []) \/
  (utf8_partial (p ++ input) /\ ret r = INCOMPLETE /\ wc_stored r = None /\ eilseq r = false /\ holds A (state r) (p ++ input)) \/
  (~ utf8_partial (p ++ input) /\ (forall x t, utf8_char x -> p ++ input <> utf8_enc x ++ t) /\
     ret r = ILSEQ /\ wc_stored r = None /\ eilseq r = true /\ state r = ps).

(** The string arguments of a call. *)
Definition string_args (addr : Z) (bytes : list Z) (n : Z) : Prop :=
  0 <= addr /\ 0 <= n <= Z.of_nat (length bytes) /\ addr + n < 2 ^ 64 /\ Forall is_byte bytes.

Lemma one_char space xs tail s bs : utf8_decoded bs space xs tail s -> space = 4 ->
  (exists x, xs = [x] /\ utf8_char x /\ bs = utf8_enc x ++ tail /\ (s = GCONV_EMPTY_INPUT \/ s = GCONV_FULL_OUTPUT)) \/
  (xs = [] /\ bs = [] /\ s = GCONV_EMPTY_INPUT) \/
  (xs = [] /\ bs = tail /\ (s = GCONV_INCOMPLETE_INPUT \/ s = GCONV_ILLEGAL_INPUT)).
Proof.
  intros (E & Hx & Hl & Hs) ->. destruct xs as [|x [|y xs]]; [| |specialize (Hl ltac:(lia)); cbn in Hl; lia].
  - right. cbn in E. destruct s; try contradiction; [left; subst; auto|destruct Hs as [_ Hs]; cbn in Hs; lia|right; auto|right; auto].
  - left. exists x. apply Forall_cons in Hx as [Hx _]. rewrite enc_single in E. split; [reflexivity|]. split; [exact Hx|]. split; [exact E|].
    destruct s; try contradiction; auto; [destruct Hs as [Hs _]|destruct Hs as [_ Hs]]; cbn in Hs; lia.
Qed.

Lemma mbrtowc_call out addr bytes n ps dummy : string_args addr bytes n ->
  mbrtowc A towc out (Some (addr, bytes)) n ps dummy =
    g ← towc [StepData out (out + 4) [] GCONV_IS_LAST 0 ps []] addr (take (Z.to_nat n) bytes) None (Some dummy) 0 true;
    match g_data g with
    | [] => Wild
    | data :: _ =>
        assert_ (expected (g_status g));;
        let wc := if outbuf data =? out then None else Some (uint_val A (take 4 (written data))) in
        if bool_decide (g_status g = GCONV_OK \/ g_status g = GCONV_EMPTY_INPUT \/ g_status g = GCONV_FULL_OUTPUT) then
          if bool_decide (wc = Some 0) then assert_ (mbsinit (statep data));; mret (Mbr 0 (statep data) wc false)
          else mret (Mbr (Z.of_nat (g_used g)) (statep data) wc false)
        else if decide (g_status g = GCONV_INCOMPLETE_INPUT) then mret (Mbr INCOMPLETE (statep data) wc false)
        else mret (Mbr ILSEQ (statep data) wc true)
    end.
Proof.
  intros (Ha & Hn & Hw & _). unfold mbrtowc. unfold u64. rewrite uwrap_small by lia. rewrite (proj2 (Z.ltb_ge (addr + n) addr)) by lia. cbn [andb].
  rewrite (proj2 (Z.leb_le (addr + n - addr) _)) by lia. cbn [bounds_ mbind run_bind]. replace (addr + n - addr) with n by lia. reflexivity.
Qed.

Lemma mbrtowc_cases out addr bytes n ps p dummy : holds A ps p -> string_args addr bytes n -> 0 < n -> 0 <= dummy < 2 ^ 64 ->
  exists r, mbrtowc A towc out (Some (addr, bytes)) n ps dummy = Done r /\ mbrtowc_spec p (take (Z.to_nat n) bytes) ps r.
Proof.
  intros Hh Hargs Hn Hd. rewrite mbrtowc_call by assumption. destruct Hargs as (Ha & Hlen & Hw & Hb). set (input := take (Z.to_nat n) bytes).
  assert (input <> []) as Hin. { intros E. apply (f_equal length) in E. unfold input in E. rewrite length_take in E. cbn in E. lia. }
  set (d := StepData out (out + 4) [] GCONV_IS_LAST 0 ps []).
  destruct (utf8_call A (gconv_chain (D := D) []) d p input addr dummy) as (xs & tail & s & d' & used & E & Hdec & Hres & Hwr & Hob); auto.
  { repeat split; auto. cbn. lia. } { apply Forall_take, Hb. } { cbn. lia. }
  change (gconv_step (utf8_internal A) (gconv_chain []) [d] addr input None (Some dummy) 0 true) with (towc [d] addr input None (Some dummy) 0 true) in E. rewrite E. cbn [mbind run_bind g_data g_status g_used].
  cbn [outbuf outbufend written d app] in Hdec, Hob, Hwr. rewrite Hob, Hwr.
  destruct (one_char _ _ _ _ _ Hdec ltac:(lia)) as [(x & -> & Hx & Ex & Hs)|[(_ & Eb & _)|(-> & <- & Hs)]].
  - pose proof (enc_single utf8_enc x) as Eu. rewrite enc_single. cbn [length].
    rewrite (proj2 (Z.eqb_neq (out + 4 * Z.of_nat 1) out)) by lia. rewrite take_ge by (rewrite length_internal; lia).
    unfold internal. rewrite uint_val_bytes by (destruct Hx; change (256 ^ Z.of_nat 4) with (2 ^ 32); lia).
    assert (expected s = true) as -> by (unfold expected; apply bool_decide_true; tauto). cbn [assert_ mbind run_bind]. rewrite bool_decide_true by tauto.
    assert (holds A (statep d') [] /\ Z.of_nat used = Z.of_nat (length (utf8_enc x)) - Z.of_nat (length p)) as [Hh' Hu].
    { destruct Hs as [-> | ->]; cbn [call_result] in Hres; [|rewrite Eu in Hres; destruct Hres as (H1 & H2 & H3); split; [exact H3|lia]].
      destruct Hres as [-> Hh']. split; [exact Hh'|]. destruct Hdec as (_ & _ & _ & ->). apply (f_equal length) in Ex. rewrite !length_app in Ex. cbn [length] in Ex. lia. }
    destruct (Z.eqb_spec x 0) as [->|Hx0].
    + rewrite bool_decide_true by reflexivity. unfold mbsinit. cbn in Hh'. rewrite Hh'. cbn. eexists. split; [reflexivity|]. left. exists 0, tail. split; [exact Hx|]. repeat (split; [assumption || reflexivity|]). exact Hh'.
    + rewrite bool_decide_false by congruence. eexists. split; [reflexivity|]. left. exists x, tail. rewrite (proj2 (Z.eqb_neq x 0)) by assumption. cbn [ret wc_stored eilseq state]. split; [exact Hx|]. repeat (split; [assumption || reflexivity|]). exact Hh'.
  - exfalso. apply app_eq_nil in Eb as [_ Eb]. exact (Hin Eb).
  - cbn [length]. rewrite Z.add_0_r, Z.eqb_refl. assert (expected s = true) as -> by (unfold expected; apply bool_decide_true; tauto). cbn [assert_ mbind run_bind].
    rewrite bool_decide_false by (destruct Hs as [-> | ->]; intuition discriminate). destruct Hdec as (_ & _ & _ & Hst).
    destruct Hs as [-> | ->]; cbn [call_result] in Hres.
    + rewrite decide_True by reflexivity. destruct Hres as [_ Hh']. eexists. split; [reflexivity|]. right. left. destruct Hst as [Hpart _]. repeat split; auto.
    + rewrite decide_False by discriminate. destruct Hres as [_ Hh']. eexists. split; [reflexivity|]. right. right. destruct Hst as (_ & _ & Hnp & Hnc). repeat split; auto.
Qed.

(** * Characters in pieces *)

(** Every proper beginning of a code is the beginning of a sequence, and the code itself is none. *)
Lemma prefix_partial x p q : utf8_range x -> utf8_enc x = p ++ q -> p <> [] -> q <> [] -> utf8_partial p.
Proof.
  intros Hx E Hp Hq. destruct p as [|b l]; [congruence|]. unfold utf8_range in Hx. destruct (Z.ltb_spec x 0x80).
  { rewrite utf8_enc_ascii in E by lia. injection E as _ E. symmetry in E. apply app_eq_nil in E as [_ E]. congruence. }
  destruct (utf8_len_spec x ltac:(lia)) as (Hn & _). destruct (lead_complete (utf8_len x) _ Hn (lead_digit x ltac:(lia))) as (El & _).
  { intros E2. rewrite E2. cbn. apply Z.div_le_lower_bound; lia. }
  pose proof (f_equal length E) as HL. rewrite length_utf8_enc, length_app in HL. unfold utf8_enc in E. injection E as <- Et.
  eexists _, l, _, _. split; [reflexivity|]. split; [exact El|]. split; [assert (0 < length q)%nat by (destruct q; [congruence|cbn; lia]); lia|].
  pose proof (trail_bytes_trail (utf8_len x - 1) x) as Ht. rewrite Et in Ht. apply Forall_app in Ht. apply Ht.
Qed.

(** The bytes of a character that have come so far decide what a call returns. *)
Lemma mbrtowc_prefix p input ps r x q : utf8_char x -> input <> [] -> utf8_enc x = (p ++ input) ++ q -> mbrtowc_spec p input ps r ->
  if decide (q = []) then ret r = (if x =? 0 then 0 else Z.of_nat (length input)) /\ wc_stored r = Some x /\ eilseq r = false /\ holds A (state r) []
  else ret r = INCOMPLETE /\ wc_stored r = None /\ eilseq r = false /\ holds A (state r) (p ++ input).
Proof.
  intros Hx Hin E Hspec. assert (Forall is_byte (p ++ input)) as Hb by (pose proof (utf8_enc_bytes x (proj1 Hx)) as H; rewrite E in H; apply Forall_app in H; apply H).
  assert (p ++ input <> []) as Hne by (intros H; apply app_eq_nil in H as [_ H]; congruence).
  destruct Hspec as [(y & t & Hy & Ey & Hr & Hwc & He & Hh)|[(Hpart & Hr & Hwc & He & Hh)|(Hnp & Hnc & _)]].
  - pose proof E as E'. rewrite Ey, <- app_assoc in E'. assert (y = x) as -> by (symmetry; apply (utf8_prefix_code x y [] (t ++ q) (proj1 Hx) (proj1 Hy)); rewrite app_nil_r; exact E').
    rewrite <- (app_nil_r (utf8_enc x)) in E' at 1. apply app_inv_head in E'. symmetry in E'. apply app_eq_nil in E' as [-> ->]. rewrite decide_True by reflexivity.
    apply (f_equal length) in Ey. rewrite !length_app in Ey. cbn [length] in Ey. repeat split; auto. rewrite Hr. destruct (x =? 0); [reflexivity|lia].
  - destruct (decide (q = [])) as [->|Hq]; [|auto]. exfalso. rewrite app_nil_r in E. pose proof (partial_char _ x [] [] Hpart Hb (proj1 Hx) ltac:(rewrite E; reflexivity)). rewrite E in *. lia.
  - exfalso. destruct (decide (q = [])) as [->|Hq].
    + apply (Hnc x [] Hx). rewrite E, !app_nil_r. reflexivity.
    + apply Hnp. exact (prefix_partial x _ q (proj1 Hx) E Hne Hq).
Qed.

(** Calls of [mbrtowc] on the pieces of a string, each at its address, with the state of one for the next. *)
Fixpoint mb_feed (out dummy : Z) (ps : mbstate) (pieces : list (Z * list Z)) : run (list mbr) :=
  match pieces with
  | [] => mret []
  | (addr, bytes) :: pieces =>
      r ← mbrtowc A towc out (Some (addr, bytes)) (Z.of_nat (length bytes)) ps dummy;
      rs ← mb_feed out dummy (state r) pieces;
      mret (r :: rs)
  end.

Definition piece_ok (piece : Z * list Z) : Prop := 0 <= piece.1 /\ piece.2 <> [] /\ piece.1 + Z.of_nat (length piece.2) < 2 ^ 64.

(** All calls but the last wait for more, the last gives the character. *)
Definition feed_result (x : Z) (rs : list mbr) : Prop :=
  exists waits r, rs = waits ++ [r] /\ Forall (fun r => ret r = INCOMPLETE /\ wc_stored r = None /\ eilseq r = false) waits /\
    wc_stored r = Some x /\ eilseq r = false /\ mbsinit (state r) = true /\ (ret r = 0 <-> x = 0) /\ 0 <= ret r <= 6.

Lemma mb_feed_char out dummy x : utf8_char x -> 0 <= dummy < 2 ^ 64 -> forall pieces p ps, holds A ps p -> Forall piece_ok pieces -> pieces <> [] ->
  p ++ concat (map snd pieces) = utf8_enc x -> exists rs, mb_feed out dummy ps pieces = Done rs /\ feed_result x rs.
Proof.
  intros Hx Hd. induction pieces as [|[addr bytes] pieces IH]; intros p ps Hh Hok Hne E; [congruence|]. apply Forall_cons in Hok as [(Ha & Hb & Hw) Hok]. cbn [map concat snd fst] in *.
  pose proof (utf8_enc_bytes x (proj1 Hx)) as Hbytes. rewrite <- E in Hbytes. apply Forall_app in Hbytes as [_ Hbytes]. apply Forall_app in Hbytes as [Hbytes _].
  assert (0 < length bytes)%nat as Hl by (destruct bytes; [congruence|cbn; lia]).
  destruct (mbrtowc_cases out addr bytes (Z.of_nat (length bytes)) ps p dummy Hh) as (r & Er & Hspec); [repeat split; auto; lia|lia|exact Hd|].
  rewrite Nat2Z.id, firstn_all in Hspec. cbn [mb_feed]. rewrite Er. cbn [mbind run_bind].
  rewrite app_assoc in E. pose proof (mbrtowc_prefix p bytes ps r x (concat (map snd pieces)) Hx Hb (eq_sym E) Hspec) as H.
  destruct pieces as [|piece pieces].
  - rewrite decide_True in H by reflexivity. destruct H as (Hr & Hwc & He & Hh'). cbn [mb_feed mbind run_bind mret run_ret]. eexists. split; [reflexivity|]. exists [], r. split; [reflexivity|]. split; [constructor|].
    split; [exact Hwc|]. split; [exact He|]. split; [unfold mbsinit; cbn in Hh'; rewrite Hh'; reflexivity|]. pose proof (length_utf8_enc_le x (proj1 Hx)) as H6. rewrite <- E, !length_app in H6.
    rewrite Hr. destruct (Z.eqb_spec x 0); [subst; lia|lia].
  - rewrite decide_False in H.
    2:{ intros H0. apply Forall_cons in Hok as [(_ & Hp & _) _]. cbn in H0. apply app_eq_nil in H0 as [H0 _]. congruence. }
    destruct H as (Hr & Hwc & He & Hh'). destruct (IH (p ++ bytes) (state r) Hh' Hok ltac:(discriminate) E) as (rs & -> & waits & r' & -> & Hwaits & Hrest). cbn [mbind run_bind].
    eexists. split; [reflexivity|]. exists (r :: waits), r'. split; [reflexivity|]. split; [constructor; auto|exact Hrest].
Qed.

(** * Storing a character *)

Implicit Types d : step_data D.

(** The loop on one character in internal form. *)
Lemma internal_utf8_one u d x space l : plain d -> 0 <= x < 2 ^ 32 -> 6 <= space ->
  run_loop (internal_utf8 A) u d (internal A x) space l =
  Done (if x <=? 0x7fffffff then Lst (internal A x) [] (utf8_enc x) (space - Z.of_nat (length (utf8_enc x))) l GCONV_EMPTY_INPUT []
        else Lst [] (internal A x) [] space l GCONV_ILLEGAL_INPUT []).
Proof.
  intros Hp Hx Hs. unfold internal_utf8. rewrite (body_conv_loop 4 4 1 6 _ _ u d) by apply Hp. pose proof (plain_flags d Hp) as Hf. destruct (Z.leb_spec x 0x7fffffff) as [Hm|Hm].
  - assert (utf8_range x) as Hr by (unfold utf8_range; lia). pose proof (length_utf8_enc_le x Hr).
    rewrite <- (enc_single (internal A) x), <- (enc_single utf8_enc x). apply (LOOPFCT_all _ _ _ _ _ utf8_range); auto.
    + intros; apply internal_ne.
    + apply internal_utf8_fits.
    + intros y _. rewrite length_internal, length_utf8_enc. cbn; lia.
    + rewrite enc_single. lia.
  - destruct (LOOPFCT_units (D := D) 4 1 (internal_utf8_body A (flags d)) (internal A) utf8_enc utf8_range) with (input := internal A x) (space := space) (l := l)
      as (xs & tail & s & E & Ei & Hxs & _ & Hse & _ & Hend); [intros; apply internal_ne|apply internal_utf8_unit, Hf|apply uint_bytes_byte|].
    destruct xs as [|y xs].
    + change (Z.to_nat 4) with 4%nat. rewrite E. cbn in Ei. subst tail. unfold ended in Hend. cbn [rest room enc map concat length Z.of_nat] in *. rewrite Z.sub_0_r in *.
      pose proof (length_internal A x) as Hl4. destruct (internal A x) as [|b bs] eqn:Eb; [discriminate|]. rewrite <- Eb in *.
      destruct Hend as [(_ & H & _)|[[H _]|(_ & _ & _ & Hbody)]]; [lia|lia|].
      unfold internal_utf8_body in Hbody. rewrite (get32_internal A (Lst [] (internal A x) [] space l GCONV_EMPTY_INPUT []) x []) in Hbody by (rewrite ?app_nil_r; auto). cbn [mbind run_bind] in Hbody.
      rewrite (proj2 (Z.ltb_ge x 0x80)), (proj2 (Z.leb_gt x _)), to_error in Hbody by (auto; lia). injection Hbody as <-. reflexivity.
    + exfalso. rewrite enc_cons, <- app_assoc in Ei. apply Forall_cons in Hxs as [Hy _]. unfold utf8_range in Hy.
      assert (x = y); [|lia]. rewrite <- (app_nil_r (internal A x)) in Ei.
      refine (fixed_prefix_code (fun z => 0 <= z < 2 ^ 32) (internal A) 4 _ _ x y [] _ Hx _ Ei); [intros; apply length_internal|intros; apply (internal_inj A); assumption|lia].
Qed.

Lemma wcrtomb_spec s wc ps buf waddr dummy : Z.land (ms_count ps) 7 = 0 -> 0 <= dummy < 2 ^ 64 ->
  exists r, wcrtomb A tomb 6 buf (Some s) wc ps waddr dummy = Done r /\ (Z.land (ms_count (wstate r)) 7 = 0) /\
    if u32 wc <=? 0x7fffffff then wret r = Z.of_nat (length (utf8_enc (u32 wc))) /\ stored r = utf8_enc (u32 wc) /\ weilseq r = false
    else wret r = ILSEQ /\ stored r = [] /\ weilseq r = true.
Proof.
  intros Hc Hd. unfold wcrtomb. destruct (Z.eqb_spec wc 0) as [->|Hz].
  - change (tomb [_] 0 [] None (Some dummy) 1 true) with (Done (Gres (D := D) GCONV_OK 0 [StepData s (s + 6) [] GCONV_IS_LAST 0 zero_state []] (Some dummy) [])).
    cbn [mbind run_bind g_data g_status andb]. rewrite bool_decide_true by auto. eexists. split; [reflexivity|]. split; [reflexivity|]. vm_compute. auto.
  - set (x := u32 wc). assert (0 <= x < 2 ^ 32) as Hx by (apply uwrap_range; lia). set (d := StepData s (s + 6) [] GCONV_IS_LAST 0 ps []).
    assert (tomb [d] waddr (uint_bytes A 4 x) None (Some dummy) 0 true = Done (
      if x <=? 0x7fffffff then Gres GCONV_EMPTY_INPUT 4 [move_outbuf (counted d) (utf8_enc x)] (Some dummy) [] else Gres GCONV_ILLEGAL_INPUT 0 [move_outbuf (counted d) []] (Some dummy) [])) as ->.
    { cbn [gconv_chain]. unfold gconv_step, pending. cbn [negb Z.eqb]. cbn [statep d]. rewrite Hc. cbn [negb Z.eqb]. rewrite andb_false_r. unfold convert. cbn [data GconvSkel.buf]. set (u := is_unaligned _ _ _ _).
      assert (plain d) as Hp by (split; reflexivity). pose proof (internal_utf8_one u d x 6 (Some 0) Hp Hx ltac:(lia)) as E.
      replace 6 with (outbufend d - (outbuf d + Z.of_nat (length (@nil Z)))) in E at 1 by (cbn; lia). change (internal A x) with (drop 0 (uint_bytes A 4 x)) in E at 1.
      destruct (x <=? 0x7fffffff); (erewrite (round_unfold _ (internal_utf8 A) _ u true (uint_bytes A 4 x) (Rounds 0 [] d [] (Some dummy) (Some 0))) by exact E);
        cbn [data irreversible]; change (is_last d) with true; cbn [mbind run_bind]; rewrite Z.add_0_r, u64_small, bool_decide_true by (assumption || reflexivity);
        rewrite (bool_decide_false (_ = GCONV_INCOMPLETE_INPUT)) by discriminate; rewrite andb_false_r; cbn [used length Nat.add data next_data irreversible app]; [rewrite length_internal|]; reflexivity. }
    destruct (x <=? 0x7fffffff); cbn [mbind run_bind g_data g_status]; eexists; (split; [reflexivity|]); (split; [exact Hc|]); cbn; auto.
Qed.

(** C12: In a UTF-8 locale wcrtomb stores the code of every wide character that is one, returns its length
    and leaves an initial state; and mbrtowc, given these bytes in any pieces, in any number of calls, reports that it
    needs more until the last, which gives back the character, with an initial state again. *)
Theorem wide_char_roundtrip x s buf waddr out dummy pieces : utf8_char x -> 0 <= dummy < 2 ^ 64 ->
  exists r, wcrtomb A tomb 6 buf (Some s) x zero_state waddr dummy = Done r /\ wret r = Z.of_nat (length (stored r)) /\ stored r = utf8_enc x /\ weilseq r = false /\
  (Forall piece_ok pieces -> pieces <> [] -> concat (map snd pieces) = stored r -> exists rs, mb_feed out dummy zero_state pieces = Done rs /\ feed_result x rs).
Proof.
  intros Hx Hd. destruct (wcrtomb_spec s x zero_state buf waddr dummy eq_refl Hd) as (r & E & _ & Hr). assert (u32 x = x) as Eu by (apply uwrap_small; destruct Hx; lia). rewrite Eu in Hr.
  rewrite (proj2 (Z.leb_le x _)) in Hr by (destruct Hx; lia). destruct Hr as (Hw & Hs & He). exists r. split; [exact E|]. rewrite Hs. repeat split; auto.
  intros Hok Hne Hc. apply (mb_feed_char out dummy x Hx Hd pieces [] zero_state); auto. reflexivity.
Qed.

(** C24: In a UTF-8 locale mbrtowc, called with the bytes of an incomplete character in the state and at least one
    byte of input, returns without a failed assertion.  If the bytes together begin with the code of a character it
    stores it and returns how many bytes of the input belong to it, 0 for the null character; if they are the beginning
    of a sequence it returns (size_t) -2 and keeps all of them in the state; otherwise it returns (size_t) -1
    with EILSEQ and leaves the state as it was. *)
Theorem mbrtowc_correct out addr bytes n ps p dummy : holds A ps p -> string_args addr bytes n -> 0 < n -> 0 <= dummy < 2 ^ 64 ->
  exists r, mbrtowc A towc out (Some (addr, bytes)) n ps dummy = Done r /\ mbrtowc_spec p (take (Z.to_nat n) bytes) ps r.
Proof. apply mbrtowc_cases. Qed.

(** C34: Called with n = 0 while the state holds the beginning of a character, mbrtowc reads a byte behind
    its input: the function for one character takes at least one byte without a test. *)
Theorem mbrtowc_reads_past_end out addr ps p dummy : holds A ps p -> p <> [] -> 0 <= addr < 2 ^ 64 -> mbrtowc A towc out (Some (addr, [])) 0 ps dummy = Wild.
Proof.
  intros Hh Hp Ha. rewrite mbrtowc_call by (repeat split; auto; cbn; lia). destruct p as [|b l]; [congruence|]. destruct Hh as (Hpart & Hb & Hn & Hc & Hu).
  pose proof (partial_short _ Hpart Hb) as H6. cbn [gconv_chain]. unfold gconv_step, pending. cbn [negb Z.eqb]. cbn [statep]. rewrite (proj2 (Z.eqb_neq _ _) Hc). change (1 <? MAX_NEEDED_FROM (utf8_internal A)) with true. cbn [andb negb].
  rewrite bool_decide_true by reflexivity. cbn [assert_ mbind run_bind FROM_LOOP_single utf8_internal body_conv]. unfold SINGLE, unpack_state. cbn [utf8_rest_ops UNPACK_BYTES statep]. rewrite Hu. cbn [mbind run_bind].
  change (Z.to_nat 6) with 6%nat. rewrite (proj2 (Nat.leb_le (length (b :: l)) 6)) by lia. cbn [bounds_ mbind run_bind outbufend outbuf]. change (1 <? Z.to_nat 1)%nat with false. cbn [andb].
  rewrite (proj2 (Z.ltb_ge (out + 4 - out) 4)) by lia. reflexivity.
Qed.
End Utf8.

(** The code of a surrogate is stored but not read back: only the decoder refuses surrogates. *)
Lemma wcrtomb_surrogate {D} A x s buf waddr out addr dummy : 0xd800 <= x <= 0xdfff -> 0 <= dummy < 2 ^ 64 -> 0 <= addr < 2 ^ 63 ->
  exists r r', wcrtomb A (gconv_chain (D := D) [internal_utf8 A]) 6 buf (Some s) x zero_state waddr dummy = Done r /\ weilseq r = false /\ stored r = utf8_enc x /\
    mbrtowc A (gconv_chain (D := D) [utf8_internal A]) out (Some (addr, stored r)) (Z.of_nat (length (stored r))) zero_state dummy = Done r' /\ ret r' = ILSEQ /\ eilseq r' = true.
Proof.
  intros Hx Hd Ha. destruct (wcrtomb_spec (D := D) A s x zero_state buf waddr dummy eq_refl Hd) as (r & E & _ & Hr). assert (u32 x = x) as Eu by (apply uwrap_small; lia). rewrite Eu in Hr.
  rewrite (proj2 (Z.leb_le x _)) in Hr by lia. destruct Hr as (_ & Hs & He). assert (utf8_range x) as Hrg by (unfold utf8_range; lia). pose proof (length_utf8_enc_le x Hrg) as H6.
  destruct (mbrtowc_cases (D := D) A out addr (utf8_enc x) (Z.of_nat (length (utf8_enc x))) zero_state [] dummy eq_refl) as (r' & E' & Hspec).
  { repeat split; try lia. apply utf8_enc_bytes, Hrg. } { rewrite length_utf8_enc. lia. } { exact Hd. }
  exists r, r'. rewrite Hs. repeat (split; [assumption|]). rewrite Nat2Z.id, firstn_all in Hspec. cbn [app] in Hspec.
  destruct Hspec as [(y & t & Hy & Ey & _)|[(Hpart & _)|(_ & _ & H1 & _ & H2 & _)]]; [exfalso..|auto].
  - assert (x = y) by (apply (utf8_prefix_code x y [] t Hrg (proj1 Hy)); rewrite app_nil_r; exact Ey). subst y. destruct Hy. lia.
  - pose proof (partial_char (utf8_enc x) x [] [] Hpart (utf8_enc_bytes x Hrg) Hrg eq_refl). lia.
Qed.

(** * Instances *)

Lemma wide_char_witness : exists rs, mb_feed (D := ()) le64 5000 0 zero_state [(100, [0xe2]); (200, [0x82]); (300, [0xac])] = Done rs /\ feed_result 0x20ac rs.
Proof.
  destruct (wide_char_roundtrip (D := ()) le64 0x20ac 1000 2000 3000 5000 0 [(100, [0xe2]); (200, [0x82]); (300, [0xac])]) as (r & E & _ & Es & _ & H).
  - split; lia.
  - lia.
  - apply H; [repeat constructor; cbn; (lia || discriminate)|discriminate|]. rewrite Es. vm_compute. reflexivity.
Defined.

Lemma euro_state : holds le64 (Mbs 0x302 [0x80; 0x20; 0; 0]) [0xe2; 0x82].
Proof.
  split; [|split; [repeat constructor; lia|split; [reflexivity|split; [discriminate|vm_compute; reflexivity]]]].
  exists 0xe2, [0x82], 3%nat, 2. repeat split; try (vm_compute; reflexivity); try (cbn; lia); repeat constructor; unfold trail_byte; lia.
Qed.

Lemma mbrtowc_witness : exists r, mbrtowc le64 (gconv_chain (D := ()) [utf8_internal le64]) 5000 (Some (100, [0xac; 0x41])) 2 (Mbs 0x302 [0x80; 0x20; 0; 0]) 0 = Done r /\
  mbrtowc_spec le64 [0xe2; 0x82] [0xac; 0x41] (Mbs 0x302 [0x80; 0x20; 0; 0]) r.
Proof.
  apply (mbrtowc_correct (D := ()) le64 5000 100 [0xac; 0x41] 2 (Mbs 0x302 [0x80; 0x20; 0; 0]) [0xe2; 0x82] 0); [exact euro_state|repeat split; cbn; try lia; repeat constructor; lia|lia|lia].
Defined.

Lemma mbrtowc_past_end_witness : mbrtowc le64 (gconv_chain (D := ()) [utf8_internal le64]) 5000 (Some (100, [])) 0 (Mbs 0x302 [0x80; 0x20; 0; 0]) 0 = Wild.
Proof. apply (mbrtowc_reads_past_end (D := ()) le64 5000 100 (Mbs 0x302 [0x80; 0x20; 0; 0]) [0xe2; 0x82] 0); [exact euro_state|discriminate|lia]. Defined.
