(* ===== verification/Iconv.v ===== *)
(** The entry points of character conversion (iconv/iconv.c, iconv/gconv.c): one call of iconv, and a text that
    is converted by any sequence of calls.  [size_t] and pointers have 64 bits, as in [Gconv.v]. *)
From S2P Require Import Prelude CMem MemWrite Byteswap Gconv GconvSimple GconvSkel GconvUnits GconvChain GconvUtf8 GconvSets.

Section Iconv.
Context {D : Type}.
Abbreviation step_data := (step_data D).

(** [__gconv_t]: the function and [__min_needed_from] of the first step, and the data of the steps. *)
Record gconv_info := Info { first_fct : gconv_fct (D := D); first_min_needed : Z; cd_data : list step_data }.

(** Tell the last step where its output goes; what it stored before is no longer of interest. *)
Fixpoint set_output (out outend : Z) (ds : list step_data) : list step_data :=
  match ds with
  | [] => []
  | [d] => [StepData out outend [] (flags d) (invocation_counter d) (statep d) (transs d)]
  | d :: ds => d :: set_output out outend ds
  end.

Definition reset_counter (d : step_data) : step_data :=
  StepData (outbuf d) (outbufend d) (written d) (flags d) 0 (statep d) (transs d).

(** do ... while (result == __GCONV_EMPTY_INPUT && last_start != *inbuf && ...): [used] is how far [*inbuf] moved. *)
Fixpoint gconv_loop (fuel : nat) (cd : gconv_info) (addr : Z) (input : list Z) (used : nat) (ds : list step_data) (irreversible : Z) : run (status * nat * list step_data * Z) :=
  match fuel with
  | O => Spin
  | S fuel =>
      g ← first_fct cd ds (addr + Z.of_nat used) (drop used input) None (Some irreversible) 0 false;
      irreversible ← from_option_run (g_irrev g);
      let used' := (used + g_used g)%nat in
      if bool_decide (g_status g = GCONV_EMPTY_INPUT) && negb (g_used g =? 0)%nat && (Z.of_nat used' + first_min_needed cd <=? Z.of_nat (length input))
      then gconv_loop fuel cd addr input used' (g_data g) irreversible
      else mret (g_status g, used', g_data g, irreversible)
  end.

(** [__gconv].  Nothing for the descriptor is (__gconv_t) -1; nothing for [inbuf] or [outbuf] is a null pointer, there or behind it.  The result is the
    status, how far [*inbuf] moved, [*outbuf] if there is one, the steps' data and [*irreversible]. *)
Definition gconv (cd : option gconv_info) (inbuf : option (Z * list Z)) (outbuf : option Z) (outbufend : Z) : run (status * nat * option Z * list step_data * Z) :=
  match cd with
  | None => mret (GCONV_ILLEGAL_DESCRIPTOR, 0%nat, outbuf, [], 0)
  | Some cd =>
      let ds := set_output (default 0 outbuf) outbufend (cd_data cd) in
      '(result, used, ds, irreversible) ←
        match inbuf with
        | None =>
            g ← first_fct cd ds 0 [] None (Some 0) (if decide (outbuf = None) then 2 else 1) false;
            irreversible ← from_option_run (g_irrev g);
            mret (g_status g, 0%nat, if decide (g_status g = GCONV_OK) then map reset_counter (g_data g) else g_data g, irreversible)
        | Some (addr, input) =>
            assert_ (bool_decide (outbuf <> None));;
            gconv_loop (S (length input)) cd addr input 0 ds 0
        end;
      mret (result, used, (fun _ => last_outbuf ds) <$> outbuf, ds, irreversible)
  end.

Inductive errno := EBADF | EILSEQ | E2BIG | EINVAL.

(** What [iconv] returns, the error it sets, how far it moved [*inbuf] and lowered [*inbytesleft], [*outbuf] and
    [*outbytesleft], and the data of the descriptor. *)
Record iconv_res := Iconv { iret : Z; ierrno : option errno; moved_in : nat; iout : option (Z * Z); idata : list step_data }.

(** The input has the bytes up to [*inbytesleft]; the output is an address and [*outbytesleft].  Nothing for the output is a null
    [outbuf], which the code dereferences when there is an input. *)
Definition iconv (cd : option gconv_info) (inbuf : option (Z * list Z)) (outbuf : option (Z * Z)) : run iconv_res :=
  '(result, used, out', ds, irreversible) ←
    match inbuf, outbuf with
    | None, None => gconv cd None None 0
    | None, Some (out, nleft) => gconv cd None (Some out) (out + nleft)
    | Some _, None => Wild
    | Some inp, Some (out, nleft) => gconv cd (Some inp) (Some out) (out + nleft)
    end;
  let out := match outbuf, out' with Some (out, nleft), Some p => Some (p, u64 (nleft - (p - out))) | _, _ => None end in
  let fail e := mret (Iconv (2 ^ 64 - 1) (Some e) used out ds) in
  match result with
  | GCONV_ILLEGAL_DESCRIPTOR => fail EBADF
  | GCONV_ILLEGAL_INPUT => fail EILSEQ
  | GCONV_FULL_OUTPUT => fail E2BIG
  | GCONV_INCOMPLETE_INPUT => fail EINVAL
  | GCONV_EMPTY_INPUT | GCONV_OK => mret (Iconv irreversible None used out ds)
  | _ => Assert_failed
  end.

(** * One call *)

Lemma set_output_ok out outend ds : out <= outend -> chain_data ds ->
  chain_data (set_output out outend ds) /\ length (set_output out outend ds) = length ds /\ output (set_output out outend ds) = [] /\ last_outbuf (set_output out outend ds) = out /\ last_outbufend (set_output out outend ds) = outend.
Proof.
  intros Ho. induction ds as [|d ds IH]; [contradiction|]. destruct ds as [|d' ds].
  - intros (Hp & _ & Hl). cbn. repeat split; auto; apply Hp.
  - intros [Hd Hc]. destruct (IH Hc) as (Hc' & Hl & Hout & Hlast & Hend). assert (set_output out outend (d :: d' :: ds) = d :: set_output out outend (d' :: ds)) as -> by reflexivity.
    destruct (set_output out outend (d' :: ds)) as [|e es]; [contradiction|]. cbn [length] in *. split; [split; assumption|]. split; [lia|]. split; [exact Hout|split; [exact Hlast|exact Hend]].
Qed.

Lemma rooms_set_output out outend cs : forall ds, length ds = length cs -> rooms cs ds -> rooms cs (set_output out outend ds).
Proof.
  induction cs as [|c [|c' cs] IH]; intros ds Hl Hr; [exact Hr..|]. destruct ds as [|d [|d' ds]]; try discriminate Hl. destruct Hr as [H Hr]. split; [exact H|]. apply (IH (d' :: ds)); [cbn in *; lia|exact Hr].
Qed.

(** A descriptor for a chain of steps. *)
Definition cd_ok (cs : list (conv D)) (cd : gconv_info) : Prop :=
  first_fct cd = gconv_chain cs /\ 0 < first_min_needed cd /\ length (cd_data cd) = length cs /\ chain_data (cd_data cd).

Section Calls.
Context (cs : list (conv D)) (E_in E_out : Z -> list Z) (P Q : Z -> Prop) (chain : chained cs E_in E_out P Q).

Lemma last_within (ds : list step_data) : chain_data ds -> last_outbuf ds <= last_outbufend ds.
Proof. induction ds as [|d [|d' ds] IH]; [contradiction|intros (_ & H & _); exact H|intros [_ Hc]; exact (IH Hc)]. Qed.

(** The characters of one call. *)
Lemma iconv_call cd addr input out nleft : cd_ok cs cd -> Forall is_byte input -> 0 <= nleft < 2 ^ 64 ->
  exists xs tail r, iconv (Some cd) (Some (addr, input)) (Some (out, nleft)) = Done r /\
    input = enc E_in xs ++ tail /\ Forall P xs /\ moved_in r = length (enc E_in xs) /\ output (idata r) = enc E_out xs /\
    Z.of_nat (length (enc E_out xs)) <= nleft /\ iout r = Some (out + Z.of_nat (length (enc E_out xs)), nleft - Z.of_nat (length (enc E_out xs))) /\
    (tail = [] /\ ierrno r = None /\ iret r = 0 \/ tail <> [] /\ (ierrno r = Some EILSEQ \/ ierrno r = Some E2BIG \/ ierrno r = Some EINVAL) /\ iret r = 2 ^ 64 - 1) /\
    cd_ok cs (Info (first_fct cd) (first_min_needed cd) (idata r)) /\
    (rooms cs (cd_data cd) -> rooms cs (idata r) /\ (is_text E_in Q tail -> ierrno r = Some E2BIG /\ nleft - Z.of_nat (length (enc E_out xs)) < last_max cs)).
Proof.
  intros (Hf & Hmin & Hlen & Hc) Hb Hl. unfold iconv, gconv. change (default 0 (Some out)) with out. set (ds := set_output out (out + nleft) (cd_data cd)).
  destruct (set_output_ok out (out + nleft) (cd_data cd) ltac:(lia) Hc) as (Hc' & Hlen' & Ho & Hlo & Hle). fold ds in Hc', Hlen', Ho, Hlo, Hle.
  destruct (chain_converts cs E_in E_out P Q chain ds (addr + Z.of_nat 0) input 0) as (xs & tail & s & ds' & E & Ei & Hx & Hs & Hse & Hl2 & Hc2 & Hst & Hfull); [congruence|exact Hc'|exact Hb|lia|].
  rewrite bool_decide_true by discriminate. cbn [assert_ mbind run_bind gconv_loop]. rewrite Hf, drop_0. rewrite E. cbn [mbind run_bind from_option_run g_irrev g_status g_used g_data Nat.add].
  destruct Hst as (Hso & Hsb & Hse2). rewrite Ho in Hso. rewrite Hlo in Hsb. rewrite Hle in Hse2. cbn [app] in Hso. pose proof (last_within ds' Hc2) as Hw.
  assert (bool_decide (s = GCONV_EMPTY_INPUT) && negb (length (enc E_in xs) =? 0)%nat && (Z.of_nat (length (enc E_in xs)) + first_min_needed cd <=? Z.of_nat (length input)) = false) as ->.
  { destruct (decide (s = GCONV_EMPTY_INPUT)) as [->|Hn]; [|rewrite bool_decide_false by exact Hn; reflexivity]. rewrite (proj1 Hse eq_refl), app_nil_r in Ei. subst input.
    rewrite (proj2 (Z.leb_gt _ _)) by lia. apply andb_false_r. }
  cbn [mbind run_bind mret run_ret fmap option_fmap option_map]. rewrite Hsb. unfold u64. rewrite uwrap_small by lia.
  replace (nleft - (out + Z.of_nat (length (enc E_out xs)) - out)) with (nleft - Z.of_nat (length (enc E_out xs))) by lia.
  exists xs, tail. destruct Hs as [->|[->|[->| ->]]]; eexists; (split; [reflexivity|]); (split; [exact Ei|]); (split; [exact Hx|]); (split; [reflexivity|]); (split; [exact Hso|]); (split; [lia|]); (split; [reflexivity|]);
    (split; [|split; [repeat split; auto; congruence|]]).
  1,3,5,7: first [left; split; [apply Hse; reflexivity|auto]|right; split; [|auto]; intros H; apply Hse in H; discriminate].
  all: intros HR; (destruct (Hfull (rooms_set_output _ _ _ _ Hlen HR)) as [HR' Ht]); (split; [exact HR'|]); intros H; (destruct (Ht H) as [Hs Hroom]); try discriminate Hs.
  split; [reflexivity|]. unfold room_left in Hroom. lia.
Qed.

(** A caller that goes on where the last call stopped, each time with another output of the given place and size. *)
Fixpoint iconv_calls (cd : gconv_info) (addr : Z) (input : list Z) (outs : list (Z * Z)) : run (list Z * list Z) :=
  match outs with
  | [] => mret ([], input)
  | out :: outs =>
      r ← iconv (Some cd) (Some (addr, input)) (Some out);
      '(bs, rest) ← iconv_calls (Info (first_fct cd) (first_min_needed cd) (idata r)) (addr + Z.of_nat (moved_in r)) (drop (moved_in r) input) outs;
      mret (output (idata r) ++ bs, rest)
  end.

(** C6: A text that is converted by any number of calls of iconv, with outputs of any sizes, by a chain of steps whose
    buffers have any sizes: what the calls store, one after the other, is in the last encoding the text of the
    characters whose text in the first encoding is the input they used.  The steps neither ignore errors nor
    transliterate; a tag character, U+E0000 to U+E007F, is the empty text in an encoding that has no code for it.  No character is lost, changed or stored twice
    at the end of a buffer; no call fails an assertion or leaves a buffer.  If the input is a text of characters that every step
    can convert, and each buffer and each output has room for a character, every call makes progress: as many
    calls as there are characters convert all of it. *)
Theorem iconv_calls_correct outs : forall cd addr input, cd_ok cs cd -> Forall is_byte input -> Forall (fun o => 0 <= o.2 < 2 ^ 64) outs ->
  exists xs tail, iconv_calls cd addr input outs = Done (enc E_out xs, tail) /\ input = enc E_in xs ++ tail /\ Forall P xs /\
    forall ws, input = enc E_in ws -> Forall Q ws -> rooms cs (cd_data cd) -> Forall (fun o => last_max cs <= o.2) outs -> (length ws <= length outs)%nat -> xs = ws /\ tail = [].
Proof.
  destruct (chained_code cs E_in E_out P Q chain) as (Hcode & Hne & HQP).
  induction outs as [|[out nleft] outs IH]; intros cd addr input Hcd Hb Ho.
  { exists [], input. repeat split; auto; destruct ws; try reflexivity; cbn in *; lia || assumption. }
  apply Forall_cons in Ho as [Hl Ho]. cbn [snd] in Hl.
  destruct (iconv_call cd addr input out nleft Hcd Hb Hl) as (xs & tail & r & E & Ei & Hx & Hm & Hout & _ & _ & _ & Hcd' & Hprog). cbn [iconv_calls]. rewrite E. cbn [mbind run_bind].
  assert (drop (moved_in r) input = tail) as -> by (rewrite Hm, Ei; apply drop_app_length). rewrite Ei in Hb. apply Forall_app in Hb as [_ Hb].
  destruct (IH _ (addr + Z.of_nat (moved_in r)) tail Hcd' Hb Ho) as (xs' & tail' & -> & Ei' & Hx' & Hall). cbn [mbind run_bind].
  exists (xs ++ xs'), tail'. rewrite Hout, !enc_app, <- app_assoc, <- Ei'. split; [reflexivity|]. split; [exact Ei|]. split; [apply Forall_app; auto|].
  intros ws Ew Hws HR Hbig Hlen. apply Forall_cons in Hbig as [Hn Hbig]. cbn [snd length] in *. destruct (Hprog HR) as [HR' Hfull].
  destruct (prefix_code_split P E_in ws xs tail Hcode Hne) as (ws' & -> & Et); [eapply Forall_impl; eauto|exact Hx|congruence|]. apply Forall_app in Hws as [_ Hws'].
  destruct (Hall ws' Et Hws' HR' Hbig) as [-> ->]; [|auto]. rewrite length_app in Hlen. destruct ws' as [|w ws']; [cbn; lia|].
  destruct (Hfull ltac:(exists (w :: ws'); auto)) as [_ Hroom]. destruct xs; [cbn in Hroom; lia|]. cbn [length] in *. lia.
Qed.
End Calls.
End Iconv.

(** * Two steps by way of the internal form *)

Lemma chained_internal {D} A (c1 c2 : conv D) (U1 : UnitConv c1) (R1 : ResumableConv c1) (U2 : UnitConv c2) :
  (forall u x, cvalid c1 u x -> 0 <= x < 2 ^ 32 /\ cout c1 x = internal A x) -> (forall u x, cvalid c2 u x -> 0 <= x < 2 ^ 32) -> (forall x, cin c2 x = internal A x) ->
  chained [c1; c2] (cin c1) (cout c2) (fun x => (exists u, cvalid c1 u x) /\ (exists u, cvalid c2 u x)) (fun x => (forall u, cvalid c1 u x) /\ (forall u, cvalid c2 u x)).
Proof.
  intros H1 H2 E2. assert (forall x, (exists u, cvalid c1 u x) \/ (exists u, cvalid c2 u x) -> 0 <= x < 2 ^ 32) as Hr by (intros x [[u Hx]|[u Hx]]; [apply (H1 u x Hx)|apply (H2 u x Hx)]).
  apply (chained_step c1 U1 R1 [c2] (cin c2) (cout c2) (fun x => exists u, cvalid c2 u x) (fun x => forall u, cvalid c2 u x)); [apply chained_last|..].
  - intros u x Hx. rewrite E2. symmetry. apply (H1 u x Hx).
  - intros x y a b Hx Hy E. rewrite !E2 in E. refine (fixed_prefix_code (fun z => 0 <= z < 2 ^ 32) (internal A) 4 _ _ x y a b (Hr x Hx) (Hr y Hy) E); intros; [apply length_internal|apply (internal_inj A); assumption].
  - intros x _. rewrite E2. apply internal_ne.
Qed.

(** UTF-8 to UCS-2, an instance. *)
Lemma utf8_ucs2_chained A : chained (D := ()) [utf8_internal A; internal_ucs2 A] utf8_enc (drop_tags (ucs2 A)) (fun x => (exists _ : bool, utf8_char x) /\ (exists _ : bool, ucs2_or_tag x)) (fun x => (bool -> utf8_char x) /\ (bool -> ucs2_or_tag x)).
Proof.
  refine (chained_internal A (utf8_internal A) (internal_ucs2 A) (utf8_internal_conv A) (utf8_internal_resumable A) (internal_ucs2_conv A) _ _ _); cbn.
  - intros _ x [Hx _]. split; [lia|reflexivity].
  - intros _ x [[Hx _]|[Hx _]]; lia.
  - reflexivity.
Qed.

(** Data for a step with a buffer of [size] bytes. *)
Definition fresh (size fl : Z) : step_data () := StepData 1000 (1000 + size) [] fl 0 zero_state [].

Definition utf8_ucs2_cd : gconv_info := Info (gconv_chain [utf8_internal le64; internal_ucs2 le64]) 1 [fresh 12 0; fresh 0 GCONV_IS_LAST].

Lemma iconv_calls_witness : iconv_calls utf8_ucs2_cd 0 [0x41; 0xc3; 0xa4; 0xe2; 0x82; 0xac; 0x42] [(5000, 3); (6000, 5); (7000, 2); (8000, 2)] = Done (enc (drop_tags (ucs2 le64)) [0x41; 0xe4; 0x20ac; 0x42], []).
Proof.
  destruct (iconv_calls_correct _ _ _ _ _ (utf8_ucs2_chained le64) [(5000, 3); (6000, 5); (7000, 2); (8000, 2)] utf8_ucs2_cd 0 [0x41; 0xc3; 0xa4; 0xe2; 0x82; 0xac; 0x42]) as (xs & tail & E & _ & _ & Hall).
  - repeat split; cbn; lia.
  - repeat constructor; lia.
  - repeat constructor; cbn; lia.
  - destruct (Hall [0x41; 0xe4; 0x20ac; 0x42]) as [-> ->].
    + vm_compute. reflexivity.
    + repeat constructor; intros; try (unfold utf8_char; lia); left; (split; [lia|reflexivity]).
    + split; [vm_compute; discriminate|exact I].
    + repeat constructor; cbn; lia.
    + cbn. lia.
    + exact E.
Defined.

(** * Ignored errors *)

(** A text of ASCII characters and lone surrogates in UCS-2, converted to ASCII with errors ignored. *)
Section SkipSurrogates.
Context {D : Type} (A : arch).





















End SkipSurrogates.







(** The words of a run that skips those that are too large. *)
Section SkipWords.
Context {D : Type} (A : arch) (fl : Z) (bad : list Z -> bool) (f : list Z -> list Z).
Context (ignore : Z.land fl GCONV_IGNORE_ERRORS <> 0) (f_internal : forall x, word_char x -> f (ucs4le x) = internal A x).

Abbreviation good_words := (filter (fun x => bad (ucs4le x) = false)).

Lemma check_words_ignore : forall zs (st : lst D) tail l, Forall word_char zs -> rest st = enc ucs4le zs ++ tail -> irrev st = Some l ->
  4 * Z.of_nat (length zs) <= room st ->
  exists l', check_words fl (length zs) bad f st =
    Done (false, Lst (consumed st ++ enc ucs4le zs) tail (produced st ++ enc (internal A) (good_words zs))
                   (room st - 4 * Z.of_nat (length (good_words zs))) (Some l') (result st) (ltrans st)).
Proof.
  induction zs as [|z zs IH]; intros st tail l Hz Er Hl Hr.
  { exists l. cbn. unfold enc. cbn. rewrite !app_nil_r, Z.sub_0_r. change (enc ucs4le [] ++ tail) with tail in Er. destruct st; cbn in *. subst. reflexivity. }
  apply Forall_cons in Hz as [Hz Hzs]. rewrite enc_cons, <- app_assoc in Er. cbn [length check_words] in *.
  rewrite (inbytes_app st 4 _ _ Er (length_ucs4le z)). cbn [mbind run_bind]. rewrite enc_cons, filter_cons, (f_internal z Hz).
  destruct (bad (ucs4le z)).
  - assert (ignore_errors_p fl st = true) as ->. { unfold ignore_errors_p. rewrite Hl, bool_decide_true by eauto. apply negb_true_iff, Z.eqb_neq, ignore. }
    cbn [negb]. rewrite (advance_app (bump st) 4 _ _ Er (length_ucs4le z)). cbn [mbind run_bind]. rewrite decide_False by discriminate.
    destruct (IH (Lst (consumed (bump st) ++ ucs4le z) (enc ucs4le zs ++ tail) (produced (bump st)) (room (bump st)) (irrev (bump st)) (result (bump st)) (ltrans (bump st))) tail (u64 (l + 1)) Hzs eq_refl) as (l' & E).
    + cbn. rewrite Hl. reflexivity.
    + cbn. lia.
    + exists l'. cbn [consumed produced room irrev result ltrans bump] in *. rewrite <- app_assoc in E. exact E.
  - rewrite emit_room by (rewrite length_internal; lia). cbn [mbind run_bind]. rewrite (advance_app _ 4 (ucs4le z) (enc ucs4le zs ++ tail)) by (cbn [rest]; first [exact Er|apply length_ucs4le]). cbn [mbind run_bind consumed produced room irrev result ltrans]. rewrite decide_True by reflexivity.
    destruct (IH (Lst (consumed st ++ ucs4le z) (enc ucs4le zs ++ tail) (produced st ++ internal A z) (room st - Z.of_nat (length (internal A z))) (irrev st) (result st) (ltrans st)) tail l Hzs eq_refl Hl) as (l' & E).
    + cbn. rewrite length_internal. lia.
    + exists l'. rewrite E. cbn [consumed produced room irrev result ltrans length]. rewrite enc_cons, <- !app_assoc, length_internal. do 3 f_equal. lia.
Qed.

(** With a word that is skipped there is room for another one in the end, whatever the size of the output, as long as input is left. *)
Lemma skipped_leaves_room zs x (d : step_data D) tail space l : Forall word_char zs -> x ∈ zs -> bad (ucs4le x) = true -> (4 <= length tail)%nat -> flags d = fl ->
  4 * Z.of_nat (length zs) <= space < 4 * Z.of_nat (length zs) + 4 -> n_convert (enc ucs4le zs ++ tail) space = length zs /\
  exists st, check_words fl (length zs) bad f (check_start d (enc ucs4le zs ++ tail) space (Some l)) = Done (false, st) /\ status_incomplete_first st = Assert_failed.
Proof.
  intros Hz Hx Hbad Ht Hfl Hsp.
  assert (Z.of_nat (length (enc ucs4le zs)) = 4 * Z.of_nat (length zs)) as Hlz by (rewrite (length_enc_fixed _ 4) by (intros; rewrite length_ucs4le; reflexivity); lia).
  split; [unfold n_convert; rewrite length_app, Z.min_r by lia; rewrite <- (Z.div_unique space 4 (Z.of_nat (length zs)) (space - 4 * Z.of_nat (length zs))) by lia; apply Nat2Z.id|].
  destruct (check_words_ignore zs (check_start d (enc ucs4le zs ++ tail) space (Some l)) tail l Hz eq_refl eq_refl) as (l' & E); [cbn; lia|].
  eexists. split; [exact E|]. unfold status_incomplete_first. cbn [rest room check_start]. destruct tail as [|b bs]; [cbn in Ht; lia|]. rewrite (proj2 (Nat.ltb_ge (length (b :: bs)) 4)) by lia.
  assert (length (good_words zs) < length zs)%nat as Hlt by (apply (length_filter_lt _ _ x); [exact Hx|congruence]).
  rewrite (proj2 (Z.ltb_ge _ 4)) by lia. reflexivity.
Qed.
End SkipWords.

(** C33: With errors ignored, the loops from UCS-4LE, that for aligned and that for unaligned buffers, fail their assertion on every input
    that has a word that is too large among those for which the output has room, and four more bytes behind these, whatever they
    are and whatever follows: the process is aborted. *)
Theorem iconv_c_aborts {D} A u (d : step_data D) xs x ys tail space l : Forall word_char (xs ++ x :: ys) -> ~ ucs4_char u x -> (4 <= length tail)%nat ->
  ignoring d = true -> 4 * Z.of_nat (length (xs ++ x :: ys)) <= space < 4 * Z.of_nat (length (xs ++ x :: ys)) + 4 ->
  run_loop (ucs4le_internal A) u d (enc ucs4le (xs ++ x :: ys) ++ tail) space (Some l) = Assert_failed.
Proof.
  intros Hz Hx Ht Hig Hsp. assert (x ∈ xs ++ x :: ys) as Hin by (apply elem_of_app; right; constructor). set (zs := xs ++ x :: ys) in *. clearbody zs.
  assert (word_char x) as Hwx by exact (proj1 (Forall_forall _ _) Hz x Hin). assert (Z.land (flags d) GCONV_IGNORE_ERRORS <> 0) as Hfl by (unfold ignoring in Hig; apply negb_true_iff, Z.eqb_neq in Hig; exact Hig).
  unfold ucs4_char, word_char in *. destruct u; cbn [run_loop FROM_LOOP FROM_LOOP_unaligned ucs4le_internal].
  - unfold ucs4le_internal_loop_unaligned. destruct (skipped_leaves_room A (flags d) (fun w => 0x80 <? word_byte 3 w) (if big_endian A then reversed else id) Hfl (fun x _ => reversed_to_internal_le A x) zs x d tail space l) as (-> & st & -> & E); auto.
    rewrite top_byte_le by exact Hwx. apply Z.leb_le. lia.
  - unfold ucs4le_internal_loop. destruct (skipped_leaves_room A (flags d) (fun w => 0x7fffffff <? le_word A w) (fun w => uint_bytes A 4 (le_word A w)) Hfl (fun x Hx => proj2 (le_word_ucs4le A x Hx)) zs x d tail space l) as (-> & st & -> & E); auto.
    rewrite (proj1 (le_word_ucs4le A x Hwx)). apply Z.ltb_lt. lia.
Qed.

(** Room for two words and two bytes, and five bytes behind the words. *)
Lemma iconv_c_aborts_witness : run_loop (ucs4le_internal le64) false (fresh 10 GCONV_IGNORE_ERRORS) [0x41; 0; 0; 0; 0; 0; 0; 0xff; 0x43; 0; 0; 0; 7] 10 (Some 0) = Assert_failed.
Proof. apply (iconv_c_aborts le64 false (fresh 10 GCONV_IGNORE_ERRORS) [0x41] 0xff000000 [] [0x43; 0; 0; 0; 7] 10 0); [repeat constructor; lia|unfold ucs4_char; lia|cbn; lia|reflexivity|cbn; lia]. Defined.
